(* ===== verification/_CoqProject ===== *)
-Q . S2P
Prelude.v
RustStd.v
Api.v
TreeKey.v
Keys.v
KeyRanges.v
RaBitQ.v
Manifest.v
Wire.v
ValueData.v
Records.v
Synopsis.v
Values.v
PredicateEval.v
Backend.v
Memory.v
NextValue.v
Intervals.v
Config.v
ManifestCodec.v
Plan.v
BuildValues.v
Codec.v
Txn.v
Logical.v
LogicalSpec.v
Reader.v
TreeOps.v
Membership.v
MembershipSpec.v
MembershipInv.v
Mutate.v
MutateSpec.v
Relocation.v
RelocationSpec.v
RelocationLimit.v
Discovery.v
DiscoverySpec.v
Transitions.v
Protocol.v
TransitionsSpec.v
TransitionsRefine.v
TopologySafety.v
ChildMoves.v
Completion.v
Cache.v
CacheSpec.v
