(* ===== verification/Prelude.v ===== *)
(** * A verification of KTANN

    KTANN is a transactional approximate-nearest-neighbour index that keeps
    vector records, typed fields and a forest of partitions in an ordered
    transactional key-value store.  This library models the parts of its Rust
    sources that decide what is stored, found and pruned, as executable
    functions, and proves the properties the rest of the engine relies on.

    ** The program and the files

    - Public data model (src/src/api/schema.rs, identifiers.rs, error.rs):
      identifiers, values, schemas, predicates and their validation are in
      [Api]; [ErrorKind] and [Result] are here, with [Panic] as a third outcome
      for slicing out of range, failed [expect]s and unchecked overflow.
    - Configuration (src/src/api/config.rs, search.rs): builders, validation,
      Bloom shapes and search budgets are in [Config].
    - Tree Keys (src/src/storage/tree_key.rs) are in [TreeKey]; the logical
      keyspace (src/src/storage/keys.rs) is in [Keys] and its scan ranges in
      [KeyRanges].
    - Persistent values (src/src/storage/values.rs and values/): the framing and
      primitive codec in [Wire], vectors and typed fields in [ValueData], record,
      entry, authority and graph values in [Records], synopses in [Synopsis],
      the Index Manifest's data in [Manifest] and its construction and codec in
      [ManifestCodec], offline-build values with their artifact manifests
      (also src/src/bulk/files.rs, api/bulk.rs) in [BuildValues]; [Values] and
      [Codec] hold the dispatch over all families, directed by the key.
    - RaBitQ7 code payloads (src/src/search/rabitq/codec.rs) are in [RaBitQ].
    - Predicate evaluation and leaf pruning (src/src/search/predicate.rs) are in
      [PredicateEval].
    - The Tree Key planner (src/src/search/plan.rs): typed successors in
      [NextValue], interval sets in [Intervals], constraint derivation and range
      expansion in [Plan].
    - The backend contract (src/src/storage/backend.rs) is in [Backend] and the
      in-memory backend (src/ktann-memory/src/lib.rs) in [Memory]; [Txn] states
      the transaction traits as the classes [ReadOps] and [WriteOps], their
      documented contract as [ReadLaws] and [WriteLaws], and proves that the
      in-memory backend meets it.
    - Typed transactions (src/src/storage/operations.rs): bindings, ranges,
      typed reads and scans, the mutation builder and the cached write
      transaction are in [Logical], proved against the contract in [LogicalSpec];
      [Reader] is the LogicalReader trait as a class with its laws, met by the
      read and the write transaction.
    - Tree creation and Partition Key allocation
      (src/src/storage/tree_manifest.rs) are in [TreeOps].
    - Record membership (src/src/storage/membership.rs) is in [Membership]; the
      simulation of one-by-one changes is in [MembershipSpec] and the invariant
      of records, locations, entries, counts and synopses in [MembershipInv].
    - Foreground mutation batches (src/src/api/operation.rs, record.rs,
      src/src/maintenance/mutation.rs, fixup.rs) are in [Mutate] and
      [MutateSpec], which compose all of the above.
    - Relocation of Leaf and Child Entries
      (src/src/storage/topology/relocation.rs) is in [Relocation], with leaf
      moves in [RelocationSpec], the admission of batches in [RelocationLimit]
      and child moves in [ChildMoves].
    - Partition authority and incoming-edge discovery
      (src/src/storage/topology/authority.rs, discovery.rs) are in [Discovery]
      and [DiscoverySpec], over every reader.
    - Splits, merges and centroid updates
      (src/src/storage/topology/transitions.rs) are in [Transitions].
      [Protocol] is their specification: one tree as a state, the atomic steps as
      a relation, and the structural invariant every step keeps.
      [TransitionsSpec] reads a tree out of a typed map and follows the writes,
      [TransitionsRefine] proves each transaction's outcomes against the
      protocol, [TopologySafety] composes this with record membership, and
      [Completion] follows a source through its drain to its completion.
    - The partition cache (src/src/search/cache.rs) is in [Cache]: the state
      behind its mutex, one function per method; [CacheSpec] proves it against
      the S3-FIFO policy on plain lists.

    A [&mut] receiver is a state passed and returned; over transactions this is
    the monad [Txn.M] with its weakest preconditions [Txn.wp], which exclude
    panics and describe the state after an error too; a fallible function
    returns [result]; a loop is a structural recursion over what it iterates.
    Machine integers are [Z] with their width checks written out, bytes are [Z]
    in [0, 256), floats are their IEEE-754 bit patterns.

    ** What the theorems show

    - Storage: Tree Keys and logical keys round-trip, are canonical, and order
      as their typed values do; every range selects exactly the keys it is meant
      to; key decoding is total.
    - Values: every modelled family is an instance of the class [ValueFamily],
      whose laws give canonical round trips and Corruption-only failures; Index
      Manifests round-trip through their version; size bounds hold.
    - Search: exact evaluation refines SQL three-valued logic, whose reference
      semantics ([PredicateEval.sql_truth]) uses none of the code's tables;
      synopses are conservative over any history of insertions; classification never prunes a
      leaf with a matching row; the planner misses no tree that can hold a match,
      its ranges are disjoint, and on validated requests it always returns a plan
      within the range limit; successors are least in every domain; block decoding
      of RaBitQ7 equals the reference; the partition cache stays within its
      capacity, follows S3-FIFO and serves only the epoch asked for.
    - Configuration: validated configurations bound their Tree Keys, resolved
      budgets stay within their caps, Bloom derivation terminates.
    - Transactions: the memory backend is serializable in the sense of its
      conflict keys, refines a log of write sets under every interleaving,
      commits exactly under its stated condition, keeps bounded conflict
      evidence, and pages scans completely.

    - Typed transactions: over any backend that meets the contract, the cached
      transaction refines a map of decoded values, the builder coalesces and
      charges exactly, record-group reads are closed and fail only for the stated
      reasons, trees are created whole or
      not at all, and no Partition Key is handed out twice.
    - Mutations: validation of a batch is exact; an attempt on routed targets
      refines changing the records one after the other, reports what was stored,
      offers exactly the justified maintenance candidates, and keeps membership
      intact.
    - Topology: leaf and child relocations move exactly what they are given and
      keep membership and the tree intact, and the admission limit is the largest
      batch whose charge fits; discovery finds exactly the incoming edge; every
      outcome of a split, merge or centroid transaction changes nothing or is one
      fixed list of writes, which is one step of the protocol on every tree that
      agrees with the keys the transaction protects, so the protocol's invariant
      and record membership hold throughout; a source whose Child Entries have
      been relocated is completed, never found undrained.

    ** Bounds and fuel

    Recursion is structural except in these places.  [PredicateEval.search_loop]
    (binary search) takes the list's length as fuel, and
    [PredicateEval.binary_search] is proved exact; [Memory.scan_all] follows
    continuations with fuel above the number of entries, proved enough by
    [scan_pages_exact]; [Records.max_level_loop] is bounded by its doubling
    threshold; [Config.iter_until] runs the Bloom search for at most 2^32 steps,
    which its proof shows is never reached; [Membership.chunks] takes the list's
    length as fuel, and every chunk is nonempty; [Relocation.batch_limit_loop]
    halves a 64-bit interval in at most 64 turns; [Discovery.scan_rounds] takes
    fuel above the number of stored pairs, which [DiscoverySpec] proves enough
    (four more where a completion has written before it walks), and
    [Discovery.level_loop] takes one turn per level; [Cache.evict_loop] takes
    four turns per cached body, since a turn removes a body, moves it to the main
    queue or spends one of its at most three marks, and [CacheSpec] proves it
    enough.  The stable [sort_by] is an insertion
    sort, and a sorted [Vec] under binary search is a sorted list; a [BTreeMap]
    is a finite map read out in key order.

    ** Parameters

    The 128-bit xxh3 hash of Bloom filters is an argument of the synopsis
    definitions and SHA-256 of the artifact manifests, about which nothing is
    assumed.  The host's parallelism and memory size are arguments of the default
    Runtime configuration.  The raw transaction is a parameter of the typed layer,
    constrained by the laws of its contract; the in-memory transaction is the
    instance that shows them satisfiable, and the witnesses run on it.  The order
    in which a [HashMap] iterates is an argument of the cache, constrained only to
    list every key once, and so is the type of a graph body.

    ** Not modelled

    Asynchronous tasks are modelled by the order of their atomic steps, so the
    memory backend's interleavings are sequences of operations; waiting, wakers
    and cancellation of futures are left out, except for the commit claim.  The
    memory backend's test-support feature (fault injection) is left out.
    Floating-point kernels (src/src/search/numeric.rs and quantization),
    traversal, the loading of partition bodies, the HNSW bindings, routing and the retry loop of
    mutations, the maintenance scheduler, the Runtime, offline construction and
    the RocksDB and FoundationDB adapters are not modelled yet or are bindings to
    code outside the repository; the manifest of the development lists each with
    its reason.  Transactions that also rewrite local graphs
    (src/src/storage/graph_transitions.rs) wrap the modelled transitions and the
    usearch library.  Whether a transaction succeeds depends on the backend, so
    completion is stated of those that do.  Error
    positions are not part of the error kinds.  Next in the plan are directory
    enumeration over typed scans, and the bounded candidate pool
    (src/src/search/candidates.rs). *)
From stdpp Require Export base list numbers.
#[export] Set Default Goal Selector "!".
#[export] Set Warnings "-clear-no-such-hyp,-register-all".
Open Scope Z_scope.

(** Comparison of machine integers and byte strings, as Rust's [Ord]. *)
Declare Scope ktann_scope.
Delimit Scope ktann_scope with ktann.

(** ** Errors and results *)

(** [ErrorKind] of src/api/error.rs; [Error] values are identified with their
    kind (the optional input position and diagnostic source are not modelled). *)
Inductive ErrorKind :=
  | IndexBuilding | BulkBuildSuperseded | BulkBuildBusy | InvalidArgument
  | IndexAlreadyExists | IndexNotFound | IndexDropping | RecordAlreadyExists
  | UnsupportedFormat | Unsupported | TransactionTooLarge | LimitExceeded
  | ContentionExhausted | RetryableAbort | CommitOutcomeUnknown | IdExhausted
  | DeadlineExceeded | Cancelled | RuntimeClosed | Backend | Other | Corruption.

#[global] Instance ErrorKind_eq_dec : EqDecision ErrorKind.
Proof. solve_decision. Defined.

(** A Rust [Result<T>], with panics (out-of-range slicing, failed [expect],
    arithmetic overflow in checked builds) as a third outcome. *)
Inductive result (A : Type) :=
  | Ok (a : A)
  | Err (e : ErrorKind)
  | Panic.
Arguments Ok {A} a.
Arguments Err {A} e.
Arguments Panic {A}.

#[global] Instance result_ret : MRet result := λ A a, Ok a.
#[global] Instance result_bind : MBind result := λ A B f m,
  match m with Ok a => f a | Err e => Err e | Panic => Panic end.

(** [Option::ok_or_else]. *)
Definition ok_or {A} (e : ErrorKind) (o : option A) : result A :=
  match o with Some a => Ok a | None => Err e end.
(** [Option::expect] / slice indexing. *)
Definition or_panic {A} (o : option A) : result A :=
  match o with Some a => Ok a | None => Panic end.
(** [Result::map_err(|_| e)]. *)
Definition map_err {A} (e : ErrorKind) (m : result A) : result A :=
  match m with Err _ => Err e | _ => m end.

Definition is_ok {A} (m : result A) : bool :=
  match m with Ok _ => true | _ => false end.

(** The computation ends in a value or an error, never in a panic. *)
Definition no_panic {A} (m : result A) : Prop := m ≠ Panic.

Lemma bind_ok {A B} (m : result A) (f : A → result B) b :
  (m ≫= f) = Ok b ↔ ∃ a, m = Ok a ∧ f a = Ok b.
Proof. destruct m; simpl; naive_solver. Qed.

Lemma bind_no_panic {A B} (m : result A) (f : A → result B) :
  no_panic m → (∀ a, m = Ok a → no_panic (f a)) → no_panic (m ≫= f).
Proof. unfold no_panic. destruct m; simpl; naive_solver. Qed.

(** Unlike [injection], leaves the payloads unreduced. *)
Lemma Ok_inj {A} (a b : A) : Ok a = Ok b → a = b.
Proof. by intros [= ->]. Qed.
Lemma ok_or_ok {A} e (o : option A) a : ok_or e o = Ok a ↔ o = Some a.
Proof. destruct o; simpl; naive_solver. Qed.
Lemma or_panic_ok {A} (o : option A) a : or_panic o = Ok a ↔ o = Some a.
Proof. destruct o; simpl; naive_solver. Qed.
Lemma map_err_ok {A} e (m : result A) a : map_err e m = Ok a ↔ m = Ok a.
Proof. destruct m; simpl; naive_solver. Qed.
Lemma ok_or_no_panic {A} e (o : option A) : no_panic (ok_or e o).
Proof. by destruct o. Qed.
Lemma map_err_no_panic {A} e (m : result A) : no_panic m → no_panic (map_err e m).
Proof. unfold no_panic. by destruct m. Qed.


(** Decomposes a hypothesis stating that a computation succeeded into the
    successes of its steps and the branches it took. *)
Ltac inv_ok_step :=
  match goal with
  | H : (_ ≫= _) = Ok _ |- _ => apply bind_ok in H; destruct H as (? & ? & ?)
  | H : ok_or _ _ = Ok _ |- _ => apply ok_or_ok in H
  | H : or_panic _ = Ok _ |- _ => apply or_panic_ok in H
  | H : map_err _ _ = Ok _ |- _ => apply map_err_ok in H
  | H : Err _ = Ok _ |- _ => discriminate H
  | H : Panic = Ok _ |- _ => discriminate H
  | H : Ok _ = Ok _ |- _ => injection H; clear H; intros; subst
  | H : mret _ = Ok _ |- _ => injection H; clear H; intros; subst
  | H : (let (_, _) := ?x in _) = Ok _ |- _ => destruct x eqn:?
  | H : (if ?b then _ else _) = Ok _ |- _ => destruct b eqn:?
  | H : (match ?x with _ => _ end) = Ok _ |- _ => destruct x eqn:?
  end.
Ltac inv_ok := repeat (inv_ok_step; simplify_eq/=).

(** Boolean conditions of the source as propositions [lia] understands. *)
Create Rewrite HintDb bprop.
#[export] Hint Rewrite
  andb_true_iff orb_true_iff andb_false_iff orb_false_iff negb_true_iff negb_false_iff
  Z.eqb_eq Z.eqb_neq Z.ltb_lt Z.ltb_ge Z.leb_le Z.leb_gt Z.compare_eq_iff
  Z.compare_lt_iff Z.compare_gt_iff bool_decide_eq_true bool_decide_eq_false : bprop.
Ltac bprop := autorewrite with bprop in *.

(** Discharges a decidable closed goal by evaluation. *)
Ltac dec_compute := apply (bool_decide_unpack _); vm_compute; exact I.

(** ** Bytes

    A [u8] is a [Z] in [0, 256); [byte_ok] and [bytes_ok] state the range a
    Rust value has by its type. *)
Definition byte_ok (b : Z) : Prop := 0 ≤ b < 256.
Definition bytes_ok (bs : list Z) : Prop := Forall byte_ok bs.
Definition u16_ok (v : Z) : Prop := 0 ≤ v < 2 ^ 16.
Definition u32_ok (v : Z) : Prop := 0 ≤ v < 2 ^ 32.
Definition u64_ok (v : Z) : Prop := 0 ≤ v < 2 ^ 64.
Definition i64_ok (v : Z) : Prop := - 2 ^ 63 ≤ v < 2 ^ 63.

(** [usize] lengths and the slice operations [&s[n..]] and [&s[..n]]. *)
Definition len {A} (l : list A) : Z := Z.of_nat (length l).
Definition zdrop {A} (n : Z) (l : list A) : list A := drop (Z.to_nat n) l.
Definition ztake {A} (n : Z) (l : list A) : list A := take (Z.to_nat n) l.
#[global] Arguments len : simpl never.
#[global] Arguments zdrop : simpl never.
#[global] Arguments ztake : simpl never.
(** [s.get(n..)] and the panicking [&s[n..]]. *)
Definition get_from {A} (n : Z) (l : list A) : option (list A) :=
  if n <=? len l then Some (zdrop n l) else None.
Definition slice_from {A} (n : Z) (l : list A) : result (list A) := or_panic (get_from n l).

#[global] Instance bytes_ok_dec bs : Decision (bytes_ok bs).
Proof. unfold bytes_ok, byte_ok. apply _. Defined.

Create HintDb ktann.
#[export] Hint Unfold byte_ok u16_ok u32_ok u64_ok i64_ok : ktann.

Lemma bytes_ok_nil : bytes_ok [].
Proof. constructor. Qed.
Lemma bytes_ok_cons b bs : bytes_ok (b :: bs) ↔ byte_ok b ∧ bytes_ok bs.
Proof. apply Forall_cons_iff. Qed.
Lemma bytes_ok_app a b : bytes_ok (a ++ b) ↔ bytes_ok a ∧ bytes_ok b.
Proof. unfold bytes_ok. by rewrite Forall_app. Qed.
Lemma bytes_ok_drop n bs : bytes_ok bs → bytes_ok (zdrop n bs).
Proof. apply Forall_drop. Qed.
Lemma bytes_ok_take n bs : bytes_ok bs → bytes_ok (ztake n bs).
Proof. apply Forall_take. Qed.
#[export] Hint Resolve bytes_ok_nil bytes_ok_drop bytes_ok_take : ktann.

Lemma len_nil {A} : len (@nil A) = 0.
Proof. done. Qed.
Lemma len_cons {A} (x : A) l : len (x :: l) = 1 + len l.
Proof. unfold len. simpl. lia. Qed.
Lemma len_app {A} (a b : list A) : len (a ++ b) = len a + len b.
Proof. unfold len. rewrite length_app. lia. Qed.
Lemma len_nonneg {A} (l : list A) : 0 ≤ len l.
Proof. unfold len. lia. Qed.
Lemma len_zdrop {A} n (l : list A) : 0 ≤ n ≤ len l → len (zdrop n l) = len l - n.
Proof. unfold len, zdrop. rewrite length_drop. lia. Qed.
Lemma len_ztake {A} n (l : list A) : 0 ≤ n ≤ len l → len (ztake n l) = n.
Proof. unfold len, ztake. rewrite length_take. lia. Qed.
Create Rewrite HintDb len.
#[export] Hint Rewrite @len_nil @len_cons @len_app : len.
Ltac len := autorewrite with len in *; rewrite ?app_nil_r in *.

Lemma zdrop_app {A} (a b : list A) : zdrop (len a) (a ++ b) = b.
Proof. unfold zdrop, len. rewrite Nat2Z.id. apply drop_app_length. Qed.
Lemma ztake_app {A} (a b : list A) : ztake (len a) (a ++ b) = a.
Proof. unfold ztake, len. rewrite Nat2Z.id. apply take_app_length. Qed.
Lemma zdrop_app_eq {A} n (a b : list A) : n = len a → zdrop n (a ++ b) = b.
Proof. intros ->. apply zdrop_app. Qed.
Lemma ztake_app_eq {A} n (a b : list A) : n = len a → ztake n (a ++ b) = a.
Proof. intros ->. apply ztake_app. Qed.
Lemma ztake_zdrop {A} n (l : list A) : ztake n l ++ zdrop n l = l.
Proof. apply take_drop. Qed.
Lemma ztake_all {A} (l : list A) : ztake (len l) l = l.
Proof. unfold ztake, len. rewrite Nat2Z.id. apply firstn_all. Qed.
Lemma zdrop_zdrop {A} n m (l : list A) : 0 ≤ n → 0 ≤ m → zdrop m (zdrop n l) = zdrop (n + m) l.
Proof. intros. unfold zdrop. rewrite drop_drop. f_equal. lia. Qed.

Lemma get_from_some {A} n (l r : list A) :
  get_from n l = Some r ↔ n ≤ len l ∧ r = zdrop n l.
Proof. unfold get_from. destruct (n <=? len l) eqn:E; bprop; naive_solver lia. Qed.
Lemma get_from_app {A} n (a b : list A) : n = len a → get_from n (a ++ b) = Some b.
Proof.
  intros ->. apply get_from_some. rewrite zdrop_app. len. split; [pose proof (len_nonneg b); lia|done].
Qed.

(** ** Unsigned lexicographic order

    [lex_cmp] is Rust's [Ord::cmp] on byte slices. *)
Fixpoint lex_cmp (a b : list Z) : comparison :=
  match a, b with
  | [], [] => Eq
  | [], _ :: _ => Lt
  | _ :: _, [] => Gt
  | x :: a', y :: b' => match x ?= y with Eq => lex_cmp a' b' | c => c end
  end.

Definition lex_lt (a b : list Z) : Prop := lex_cmp a b = Lt.
Definition lex_le (a b : list Z) : Prop := lex_cmp a b ≠ Gt.
Notation "a <ₗ b" := (lex_lt a b) (at level 70) : ktann_scope.
Notation "a ≤ₗ b" := (lex_le a b) (at level 70) : ktann_scope.
#[export] Instance lex_lt_dec a b : Decision (lex_lt a b).
Proof. unfold lex_lt. solve_decision. Defined.
#[export] Instance lex_le_dec a b : Decision (lex_le a b).
Proof. unfold lex_le. solve_decision. Defined.
Open Scope ktann_scope.

Lemma lex_cmp_refl a : lex_cmp a a = Eq.
Proof. induction a as [|x a IH]; simpl; [done|]. by rewrite Z.compare_refl. Qed.

Lemma lex_cmp_eq a b : lex_cmp a b = Eq ↔ a = b.
Proof.
  split; [|intros ->; apply lex_cmp_refl].
  revert b. induction a as [|x a IH]; intros [|y b]; simpl; try done.
  destruct (Z.compare_spec x y) as [->| |]; try done. intros ?. f_equal. by apply IH.
Qed.

Lemma lex_cmp_opp a b : lex_cmp b a = CompOpp (lex_cmp a b).
Proof.
  revert b. induction a as [|x a IH]; intros [|y b]; simpl; try done.
  rewrite (Z.compare_antisym x y). destruct (x ?= y); simpl; auto.
Qed.

Lemma lex_cmp_app p a b : lex_cmp (p ++ a) (p ++ b) = lex_cmp a b.
Proof. induction p as [|x p IH]; simpl; [done|]. by rewrite Z.compare_refl. Qed.

Lemma lex_cmp_app_l p a : lex_cmp (p ++ a) p = match a with [] => Eq | _ => Gt end.
Proof. rewrite <-(app_nil_r p) at 2. rewrite lex_cmp_app. by destruct a. Qed.

(** A difference inside equally long heads decides the comparison. *)
Lemma lex_cmp_app_len p q a b :
  length p = length q →
  lex_cmp (p ++ a) (q ++ b) = match lex_cmp p q with Eq => lex_cmp a b | c => c end.
Proof.
  revert q. induction p as [|x p IH]; intros [|y q]; simpl; try done.
  intros [= Hl]. destruct (x ?= y); auto.
Qed.

Lemma lex_lt_trans a b c : a <ₗ b → b <ₗ c → a <ₗ c.
Proof.
  unfold lex_lt. revert b c.
  induction a as [|x a IH]; intros [|y b] [|z c]; simpl; try done.
  destruct (Z.compare_spec x y) as [->|Hxy|]; try done;
    destruct (Z.compare_spec y z) as [->|Hyz|]; try done.
  - apply IH.
  - by rewrite (proj2 (Z.compare_lt_iff _ _) Hxy).
  - rewrite (proj2 (Z.compare_lt_iff x z)); [done|lia].
Qed.

Lemma lex_lt_irrefl a : ¬ a <ₗ a.
Proof. unfold lex_lt. by rewrite lex_cmp_refl. Qed.
Lemma lex_le_lt_eq a b : a ≤ₗ b ↔ a <ₗ b ∨ a = b.
Proof.
  unfold lex_le, lex_lt. rewrite <-lex_cmp_eq. destruct (lex_cmp a b); naive_solver.
Qed.
Lemma lex_le_refl a : a ≤ₗ a.
Proof. apply lex_le_lt_eq. auto. Qed.
Lemma lex_le_not_lt a b : a ≤ₗ b ↔ ¬ b <ₗ a.
Proof.
  unfold lex_le, lex_lt. rewrite (lex_cmp_opp a b). destruct (lex_cmp a b); simpl; naive_solver.
Qed.
Lemma lex_lt_le_trans a b c : a <ₗ b → b ≤ₗ c → a <ₗ c.
Proof. rewrite lex_le_lt_eq. intros ? [?| ->]; eauto using lex_lt_trans. Qed.
Lemma lex_le_lt_trans a b c : a ≤ₗ b → b <ₗ c → a <ₗ c.
Proof. rewrite lex_le_lt_eq. intros [?| ->] ?; eauto using lex_lt_trans. Qed.
Lemma lex_lt_le a b : a <ₗ b → a ≤ₗ b.
Proof. rewrite lex_le_lt_eq. auto. Qed.
#[export] Instance lex_le_trans : Transitive lex_le.
Proof. intros a b c Hab [Hbc| ->]%lex_le_lt_eq; [|done]. eauto using lex_lt_le, lex_le_lt_trans. Qed.
#[export] Instance lex_le_total : Total lex_le.
Proof.
  intros a b. unfold lex_le. rewrite (lex_cmp_opp a b). destruct (lex_cmp a b); simpl; auto.
Qed.
#[export] Instance lex_le_antisym : AntiSymm (=) lex_le.
Proof.
  intros a b [?|?]%lex_le_lt_eq Hba; [|done]. by apply lex_le_not_lt in Hba.
Qed.
Lemma lex_le_app p a : p ≤ₗ p ++ a.
Proof. unfold lex_le. rewrite lex_cmp_opp, lex_cmp_app_l. by destruct a. Qed.

(** ** Fixed-width big-endian integers: [to_be_bytes] and [from_be_bytes] *)
Fixpoint be_bytes (n : nat) (v : Z) : list Z :=
  match n with
  | O => []
  | S n => (v / 256 ^ Z.of_nat n) mod 256 :: be_bytes n v
  end.

Fixpoint be_value (bs : list Z) : Z :=
  match bs with
  | [] => 0
  | b :: t => b * 256 ^ len t + be_value t
  end.

Lemma be_bytes_length n v : length (be_bytes n v) = n.
Proof. induction n; simpl; auto. Qed.
Lemma len_be_bytes n v : len (be_bytes n v) = Z.of_nat n.
Proof. unfold len. by rewrite be_bytes_length. Qed.
#[export] Hint Rewrite len_be_bytes : len.
Lemma be_bytes_ok n v : bytes_ok (be_bytes n v).
Proof. induction n; simpl; constructor; [apply Z.mod_pos_bound; lia|done]. Qed.
#[export] Hint Resolve be_bytes_ok : ktann.

Lemma be_value_bound bs : bytes_ok bs → 0 ≤ be_value bs < 256 ^ len bs.
Proof.
  induction bs as [|b t IH]; simpl; [done|].
  intros [[??] Ht]%bytes_ok_cons. specialize (IH Ht).
  rewrite len_cons, Z.pow_add_r, Z.pow_1_r by (try apply len_nonneg; lia).
  assert (b * 256 ^ len t ≤ 255 * 256 ^ len t) by (apply Z.mul_le_mono_nonneg_r; lia).
  nia.
Qed.

Lemma be_value_bytes_mod n v : be_value (be_bytes n v) = v mod 256 ^ Z.of_nat n.
Proof.
  induction n as [|n IH]; [by rewrite Z.mod_1_r|].
  simpl be_bytes. simpl be_value. rewrite len_be_bytes, IH.
  rewrite Nat2Z.inj_succ, Z.pow_succ_r by lia.
  rewrite (Z.mul_comm 256 (256 ^ _)), Z.rem_mul_r by lia. lia.
Qed.

Lemma be_value_bytes n v : 0 ≤ v < 256 ^ Z.of_nat n → be_value (be_bytes n v) = v.
Proof. intros. rewrite be_value_bytes_mod. by apply Z.mod_small. Qed.

(** Equally long byte strings compare like the integers they denote. *)
Lemma be_value_compare a b :
  length a = length b → bytes_ok a → bytes_ok b →
  lex_cmp a b = (be_value a ?= be_value b).
Proof.
  revert b. induction a as [|x a IH]; intros [|y b]; simpl; try done.
  intros [= Hl] [[??] Ha]%bytes_ok_cons [[??] Hb]%bytes_ok_cons.
  pose proof (be_value_bound a Ha). pose proof (be_value_bound b Hb).
  assert (len a = len b) as El by (unfold len; lia). rewrite El in *.
  rewrite IH by done.
  destruct (Z.compare_spec x y) as [->|Hlt|Hgt]; symmetry.
  - destruct (Z.compare_spec (be_value a) (be_value b)); apply Z.compare_eq_iff
      || apply Z.compare_lt_iff || apply Z.compare_gt_iff; lia.
  - apply Z.compare_lt_iff. nia.
  - apply Z.compare_gt_iff. nia.
Qed.

Lemma be_value_inj a b :
  length a = length b → bytes_ok a → bytes_ok b → be_value a = be_value b → a = b.
Proof.
  intros Hl Ha Hb E. apply lex_cmp_eq. rewrite be_value_compare by done.
  by apply Z.compare_eq_iff.
Qed.

Lemma be_bytes_value bs : bytes_ok bs → be_bytes (length bs) (be_value bs) = bs.
Proof.
  intros Hok. apply be_value_inj; auto using be_bytes_ok, be_bytes_length.
  rewrite be_value_bytes; [done|]. by apply be_value_bound.
Qed.

Lemma be_bytes_compare n u v :
  0 ≤ u < 256 ^ Z.of_nat n → 0 ≤ v < 256 ^ Z.of_nat n →
  lex_cmp (be_bytes n u) (be_bytes n v) = (u ?= v).
Proof.
  intros. rewrite be_value_compare by (rewrite ?be_bytes_length; auto using be_bytes_ok).
  by rewrite !be_value_bytes.
Qed.

Lemma be_bytes_inj n u v :
  0 ≤ u < 256 ^ Z.of_nat n → 0 ≤ v < 256 ^ Z.of_nat n →
  be_bytes n u = be_bytes n v → u = v.
Proof. intros ?? E%(f_equal be_value). by rewrite !be_value_bytes in E. Qed.

#[global] Arguments be_bytes : simpl never.
#[global] Arguments be_value : simpl never.

(** ** Lists *)

(** Strong induction on the length, for loops that consume several elements. *)
Lemma list_len_ind {A} (P : list A → Prop) :
  (∀ l, (∀ l', (length l' < length l)%nat → P l') → P l) → ∀ l, P l.
Proof.
  intros Hstep l. remember (length l) as n eqn:Hn. revert l Hn.
  induction n as [n IH] using lt_wf_ind. intros l ->. apply Hstep. eauto.
Qed.

(** Appending a zero byte gives the immediate successor of a byte string. *)
Lemma lex_le_snoc0 a b : bytes_ok b → (a ++ [0]) ≤ₗ b ↔ a <ₗ b.
Proof.
  revert b. unfold lex_le, lex_lt. induction a as [|x a IH]; intros [|y b] Hb;
    cbn [app lex_cmp]; try naive_solver.
  - apply bytes_ok_cons in Hb as [[??] _]. split; [done|]. intros _.
    destruct (Z.compare_spec 0 y); [by destruct b|done|lia].
  - apply bytes_ok_cons in Hb as [_ Hb]. destruct (x ?= y); [by apply IH|naive_solver..].
Qed.
