(* ===== verification/RustStd.v ===== *)
(** The parts of the Rust language and standard library the engine relies on:
    integer casts and bit operations on [u64]/[i64], IEEE-754 bit patterns of
    [f64] and [f32], UTF-8 validation, and [Ordering]. *)
From S2P Require Import Prelude.

(** ** Integer casts and the sign bit *)

(** The memcomparable transforms' [SIGN] (src/storage/tree_key.rs). *)
Definition SIGN : Z := 0x8000000000000000.

(** [v as u64] for an [i64] and [v as i64] for a [u64]. *)
Definition i64_as_u64 (v : Z) : Z := v mod 2 ^ 64.
Definition u64_as_i64 (v : Z) : Z := if v <? 2 ^ 63 then v else v - 2 ^ 64.
(** [!v] on a [u64]. *)
Definition u64_not (v : Z) : Z := 2 ^ 64 - 1 - v.

Lemma lxor_disjoint a b : Z.land a b = 0 → Z.lxor a b = a + b.
Proof. intros. symmetry. by apply Z.add_nocarry_lxor. Qed.
Lemma lor_disjoint a b : Z.land a b = 0 → Z.lor a b = a + b.
Proof. intros H. rewrite <-Z.lxor_lor by done. by apply lxor_disjoint. Qed.

(** A [u64] below 2^63 has a clear sign bit. *)
Lemma land_SIGN_small v : 0 ≤ v < 2 ^ 63 → Z.land v SIGN = 0.
Proof.
  intros Hv. change SIGN with (2 ^ 63). apply Z.bits_inj'. intros i Hi.
  rewrite Z.land_spec, Z.bits_0, Z.pow2_bits_eqb by lia.
  destruct (Z.eqb_spec 63 i) as [<-|]; [|by rewrite andb_false_r].
  rewrite andb_true_r. destruct (decide (v = 0)) as [->|]; [done|].
  apply Z.bits_above_log2; [lia|]. apply Z.log2_lt_pow2; lia.
Qed.

Lemma split_SIGN v : 2 ^ 63 ≤ v < 2 ^ 64 → v = Z.lxor (v - SIGN) SIGN.
Proof.
  intros Hv. rewrite lxor_disjoint by (apply land_SIGN_small; unfold SIGN; lia). lia.
Qed.

Lemma land_SIGN_large v : 2 ^ 63 ≤ v < 2 ^ 64 → Z.land v SIGN ≠ 0.
Proof.
  intros Hv E. rewrite (split_SIGN v Hv), Z.lxor_lor in E
    by (apply land_SIGN_small; unfold SIGN; lia).
  rewrite Z.land_lor_distr_l, land_SIGN_small in E by (unfold SIGN; lia). done.
Qed.

Lemma land_SIGN_spec v : u64_ok v → (Z.land v SIGN =? 0) = (v <? 2 ^ 63).
Proof.
  intros [??]. destruct (Z.ltb_spec v (2 ^ 63)).
  - apply Z.eqb_eq, land_SIGN_small. lia.
  - apply Z.eqb_neq, land_SIGN_large. lia.
Qed.

Lemma lor_SIGN v : 0 ≤ v < 2 ^ 63 → Z.lor v SIGN = v + 2 ^ 63.
Proof. intros. rewrite lor_disjoint by by apply land_SIGN_small. done. Qed.

Lemma lxor_SIGN v :
  u64_ok v → Z.lxor v SIGN = if v <? 2 ^ 63 then v + 2 ^ 63 else v - 2 ^ 63.
Proof.
  intros [??]. destruct (Z.ltb_spec v (2 ^ 63)).
  - rewrite lxor_disjoint by (apply land_SIGN_small; lia). done.
  - rewrite (split_SIGN v) at 1 by lia. by rewrite Z.lxor_assoc, Z.lxor_nilpotent, Z.lxor_0_r.
Qed.

Lemma i64_as_u64_spec v : i64_ok v → i64_as_u64 v = if v <? 0 then v + 2 ^ 64 else v.
Proof.
  intros [??]. unfold i64_as_u64. destruct (Z.ltb_spec v 0).
  - rewrite <-(Z.mod_add v 1) by done. rewrite Z.mod_small; lia.
  - rewrite Z.mod_small; lia.
Qed.

(** The casts between [i64] and [u64] are mutually inverse. *)
Lemma u64_as_i64_ok v : u64_ok v → i64_ok (u64_as_i64 v).
Proof. unfold u64_ok, i64_ok, u64_as_i64. destruct (Z.ltb_spec v (2 ^ 63)); lia. Qed.
Lemma i64_as_u64_ok v : i64_ok v → u64_ok (i64_as_u64 v).
Proof. intros _. unfold u64_ok, i64_as_u64. by apply Z.mod_pos_bound. Qed.
Lemma i64_u64_roundtrip v : u64_ok v → i64_as_u64 (u64_as_i64 v) = v.
Proof.
  intros Hv. rewrite i64_as_u64_spec by by apply u64_as_i64_ok. unfold u64_ok, u64_as_i64 in *.
  destruct (Z.ltb_spec v (2 ^ 63)); case_match; bprop; lia.
Qed.
Lemma u64_i64_roundtrip v : i64_ok v → u64_as_i64 (i64_as_u64 v) = v.
Proof.
  intros Hv. rewrite i64_as_u64_spec by done. unfold i64_ok, u64_as_i64 in *.
  destruct (Z.ltb_spec v 0); case_match; bprop; lia.
Qed.

(** ** IEEE-754 bit patterns

    An [f64] ([f32]) is its bit pattern, a [u64] ([u32]).  The magnitude orders
    all finite values of one sign, so [value_key] embeds finite floats in [Z]
    with both zeros at 0. *)
Module F64.
Definition sign_negative (b : Z) : bool := 2 ^ 63 <=? b.
Definition magnitude (b : Z) : Z := b mod 2 ^ 63.
(** [is_finite]: the exponent field is not all ones. *)
Definition is_finite (b : Z) : bool := magnitude b <? 0x7FF0000000000000.
(** [value == 0.0]. *)
Definition is_zero (b : Z) : bool := magnitude b =? 0.
Definition value_key (b : Z) : Z := if sign_negative b then - magnitude b else magnitude b.
(** [partial_cmp] restricted to finite operands. *)
Definition cmp (a b : Z) : comparison := value_key a ?= value_key b.
(** Finite with the positive zero only. *)
Definition canonical (b : Z) : bool :=
  is_finite b && negb (is_zero b && sign_negative b).
End F64.

Module F32.
Definition magnitude (b : Z) : Z := b mod 2 ^ 31.
Definition is_finite (b : Z) : bool := magnitude b <? 0x7F800000.
Definition is_zero (b : Z) : bool := magnitude b =? 0.
Definition NEG_ZERO : Z := 0x80000000.
End F32.

Lemma f64_magnitude b :
  u64_ok b → F64.magnitude b = if F64.sign_negative b then b - 2 ^ 63 else b.
Proof.
  intros [??]. unfold F64.magnitude, F64.sign_negative. destruct (Z.leb_spec (2 ^ 63) b).
  - symmetry. apply (Z.mod_unique b (2 ^ 63) 1); lia.
  - apply Z.mod_small. lia.
Qed.

(** Canonical patterns with equal numeric value are equal patterns. *)
Lemma f64_canonical_inj a b :
  u64_ok a → u64_ok b → F64.canonical a = true → F64.canonical b = true →
  F64.cmp a b = Eq → a = b.
Proof.
  unfold F64.canonical, F64.cmp, F64.value_key, F64.is_zero. intros Ha Hb.
  rewrite !f64_magnitude by done. unfold F64.sign_negative.
  destruct Ha, Hb, (Z.leb_spec (2 ^ 63) a), (Z.leb_spec (2 ^ 63) b); intros Ca Cb E;
    apply Z.compare_eq_iff in E; bprop; lia.
Qed.

Lemma f32_zero b : u32_ok b → F32.is_zero b = true ↔ b = 0 ∨ b = F32.NEG_ZERO.
Proof.
  intros [??]. unfold F32.is_zero, F32.magnitude, F32.NEG_ZERO. rewrite Z.eqb_eq.
  split; [|intros [-> | ->]; done]. intros E%Z.div_exact; [|done].
  assert (b / 2 ^ 31 < 2) by (apply Z.div_lt_upper_bound; lia).
  pose proof (Z.div_pos b (2 ^ 31)). lia.
Qed.

(** ** UTF-8

    [utf8_valid] is [std::str::from_utf8(bytes).is_ok()]: the standard's
    well-formed byte sequences (no overlong forms, no surrogates). *)
Definition cont (b : Z) : bool := (128 <=? b) && (b <=? 191).
Definition in_range (lo hi b : Z) : bool := (lo <=? b) && (b <=? hi).

Fixpoint utf8_valid (bs : list Z) : bool :=
  match bs with
  | [] => true
  | b :: t =>
      if b <? 128 then utf8_valid t
      else if in_range 0xC2 0xDF b then
        match t with c1 :: t1 => cont c1 && utf8_valid t1 | _ => false end
      else if in_range 0xE0 0xEF b then
        match t with
        | c1 :: c2 :: t2 =>
            (if b =? 0xE0 then in_range 0xA0 0xBF c1
             else if b =? 0xED then in_range 0x80 0x9F c1
             else cont c1) && cont c2 && utf8_valid t2
        | _ => false
        end
      else if in_range 0xF0 0xF4 b then
        match t with
        | c1 :: c2 :: c3 :: t3 =>
            (if b =? 0xF0 then in_range 0x90 0xBF c1
             else if b =? 0xF4 then in_range 0x80 0x8F c1
             else cont c1) && cont c2 && cont c3 && utf8_valid t3
        | _ => false
        end
      else false
  end.

(** One decoding step of a sequence that starts with [b]. *)
Lemma utf8_valid_cons b t :
  utf8_valid (b :: t) =
  if b <? 128 then utf8_valid t
  else if in_range 0xC2 0xDF b then
    match t with c1 :: t1 => cont c1 && utf8_valid t1 | _ => false end
  else if in_range 0xE0 0xEF b then
    match t with
    | c1 :: c2 :: t2 =>
        (if b =? 0xE0 then in_range 0xA0 0xBF c1
         else if b =? 0xED then in_range 0x80 0x9F c1
         else cont c1) && cont c2 && utf8_valid t2
    | _ => false
    end
  else if in_range 0xF0 0xF4 b then
    match t with
    | c1 :: c2 :: c3 :: t3 =>
        (if b =? 0xF0 then in_range 0x90 0xBF c1
         else if b =? 0xF4 then in_range 0x80 0x8F c1
         else cont c1) && cont c2 && cont c3 && utf8_valid t3
    | _ => false
    end
  else false.
Proof. reflexivity. Qed.
#[global] Arguments utf8_valid : simpl never.

(** NUL bytes separate a string into independently validated segments: no
    multi-byte sequence contains one. *)
Lemma utf8_valid_split a b : utf8_valid (a ++ 0 :: b) = utf8_valid a && utf8_valid b.
Proof.
  remember (length a) as n eqn:Hn. revert a Hn. induction n as [n IH] using lt_wf_ind.
  intros a ->. assert (∀ t, (length t < length a)%nat →
    utf8_valid (t ++ 0 :: b) = utf8_valid t && utf8_valid b) as IH' by eauto. clear IH.
  destruct a as [|x a]; [done|].
  rewrite <-app_comm_cons, !utf8_valid_cons.
  destruct (x <? 128); [apply IH'; simpl; lia|].
  destruct (in_range 0xC2 0xDF x).
  { destruct a as [|c1 a]; [done|]. simpl. rewrite <-andb_assoc. f_equal. apply IH'. simpl; lia. }
  destruct (in_range 0xE0 0xEF x).
  { destruct a as [|c1 [|c2 a]]; simpl.
    - destruct b; [done|]. by repeat case_match.
    - by rewrite andb_false_r.
    - rewrite <-!andb_assoc. do 2 f_equal. apply IH'. simpl; lia. }
  destruct (in_range 0xF0 0xF4 x); [|done].
  destruct a as [|c1 [|c2 [|c3 a]]]; simpl.
  - destruct b as [|? [|??]]; try done. by repeat case_match.
  - destruct b; [done|]. by rewrite andb_false_r.
  - by rewrite andb_false_r.
  - rewrite <-!andb_assoc. do 3 f_equal. apply IH'. simpl; lia.
Qed.

(** [iter().map(..).collect::<Result<Vec<_>>>()]. *)
Lemma mapM_ok {A B} (f : A → result B) l k : mapM f l = Ok k ↔ Forall2 (λ x y, f x = Ok y) l k.
Proof.
  split.
  - revert k. induction l as [|x l IH]; intros k H; cbn [mapM] in H; [apply Ok_inj in H as <-; constructor|].
    apply bind_ok in H as (y & Hy & H). apply bind_ok in H as (k' & Hk & H). apply Ok_inj in H as <-.
    constructor; auto.
  - induction 1 as [|x y l k H _ IH]; [done|]. cbn [mapM]. rewrite H. cbn [mbind result_bind].
    unfold mbind in IH. by rewrite IH.
Qed.
