(* ===== verification/Api.v ===== *)
(** Public data model (src/api/schema.rs, src/api/identifiers.rs): identifiers,
    typed field values and their order, field schemas, and Filter Predicates
    with their validation. *)
From S2P Require Import Prelude RustStd.

(** ** Identifiers (src/api/identifiers.rs)

    A [LogicalIndexId] or [PartitionKey] is a nonzero [u64]. *)
Definition id_ok (v : Z) : Prop := 0 < v < 2 ^ 64.
Definition LogicalIndexId_new (value : Z) : result Z :=
  if value =? 0 then Err InvalidArgument else Ok value.
Definition PartitionKey_new (value : Z) : result Z :=
  if value =? 0 then Err InvalidArgument else Ok value.
(** The argument is the UTF-8 bytes of the Rust [String]. *)
Definition IndexName_new (name : list Z) : result (list Z) :=
  if (len name =? 0) || (255 <? len name) then Err InvalidArgument else Ok name.

(** A Rust [String]: its bytes, valid UTF-8 by the type's invariant. *)
Definition string_ok (s : list Z) : Prop := bytes_ok s ∧ utf8_valid s = true.
Definition index_name_ok (name : list Z) : Prop := string_ok name ∧ IndexName_new name = Ok name.

(** ** Typed values (src/api/schema.rs) *)
Definition MAX_FIELDS : Z := 16.
Definition MAX_STRING_BYTES : Z := 1024.
Definition MAX_FIELD_NAME_BYTES : Z := 255.
Definition MAX_PREDICATE_NODES : Z := 1024.
Definition MAX_PREDICATE_DEPTH : Z := 64.
Definition MAX_IN_VALUES : Z := 1024.

Module DataType.
Inductive t := Bool | I64 | F64 | String.
#[export] Instance eq_dec : EqDecision t.
Proof. solve_decision. Defined.
End DataType.
Export (hints) DataType.

Module Value.
Inductive t :=
  | Null
  | Bool (value : bool)
  | I64 (value : Z)
  | F64 (bits : Z)
  | String (bytes : list Z).
#[export] Instance eq_dec : EqDecision t.
Proof. solve_decision. Defined.
End Value.
Export (hints) Value.

(** Ranges a Rust [Value] has by its type. *)
Definition value_ok (v : Value.t) : Prop :=
  match v with
  | Value.Null | Value.Bool _ => True
  | Value.I64 x => i64_ok x
  | Value.F64 b => u64_ok b
  | Value.String s => string_ok s
  end.

#[global] Instance string_ok_dec s : Decision (string_ok s).
Proof. unfold string_ok. apply _. Defined.
#[global] Instance value_ok_dec v : Decision (value_ok v).
Proof. destruct v; unfold value_ok, i64_ok, u64_ok; apply _. Defined.

Definition Value_is_null (v : Value.t) : bool :=
  match v with Value.Null => true | _ => false end.

(** [Value::f64] and [Value::string]. *)
Definition Value_f64 (bits : Z) : result Value.t :=
  if negb (F64.is_finite bits) then Err InvalidArgument
  else Ok (Value.F64 (if F64.is_zero bits then 0 else bits)).
Definition Value_string (s : list Z) : result Value.t :=
  if MAX_STRING_BYTES <? len s then Err InvalidArgument else Ok (Value.String s).

(** [Value::validate_for]; the result is the possibly canonicalized value. *)
Definition validate_for (v : Value.t) (data_type : DataType.t) (nullable : bool)
    : result Value.t :=
  match v with
  | Value.Null => if nullable then Ok v else Err InvalidArgument
  | Value.Bool _ => if decide (data_type = DataType.Bool) then Ok v else Err InvalidArgument
  | Value.I64 _ => if decide (data_type = DataType.I64) then Ok v else Err InvalidArgument
  | Value.F64 bits =>
      if decide (data_type = DataType.F64) then
        if F64.is_finite bits then Ok (Value.F64 (if F64.is_zero bits then 0 else bits))
        else Err InvalidArgument
      else Err InvalidArgument
  | Value.String s =>
      if decide (data_type = DataType.String) then
        if len s <=? MAX_STRING_BYTES then Ok v else Err InvalidArgument
      else Err InvalidArgument
  end.

Definition bool_cmp (a b : bool) : comparison :=
  match a, b with
  | false, true => Lt | true, false => Gt | _, _ => Eq
  end.

(** [typed_order]: orders canonical non-NULL values of one scalar domain. *)
Definition typed_order (left right : Value.t) : option comparison :=
  match left, right with
  | Value.Bool l, Value.Bool r => Some (bool_cmp l r)
  | Value.I64 l, Value.I64 r => Some (l ?= r)
  | Value.F64 l, Value.F64 r =>
      if F64.is_finite l && F64.is_finite r then Some (F64.cmp l r) else None
  | Value.String l, Value.String r => Some (lex_cmp l r)
  | _, _ => None
  end.

(** The canonical non-NULL values of one scalar domain: the stored form of a
    field of that type. *)
Definition typed_value (ty : DataType.t) (v : Value.t) : bool :=
  match ty, v with
  | DataType.Bool, Value.Bool _ => true
  | DataType.I64, Value.I64 _ => true
  | DataType.F64, Value.F64 bits => F64.canonical bits
  | DataType.String, Value.String s => len s <=? MAX_STRING_BYTES
  | _, _ => false
  end.

(** ** Field schemas *)
Module SynopsisConfig.
Inductive t :=
  | MinMax
  | MinMaxBloom (expected_distinct : Z) (false_positive_rate : Z).
#[export] Instance eq_dec : EqDecision t.
Proof. solve_decision. Defined.
End SynopsisConfig.
Export (hints) SynopsisConfig.

Definition F64_ONE : Z := 0x3FF0000000000000.

Definition SynopsisConfig_validate (s : SynopsisConfig.t) : result unit :=
  match s with
  | SynopsisConfig.MinMax => Ok tt
  | SynopsisConfig.MinMaxBloom _ rate =>
      if F64.is_finite rate
         && match F64.cmp rate 0 with Gt => true | _ => false end
         && match F64.cmp rate F64_ONE with Lt => true | _ => false end
      then Ok tt else Err InvalidArgument
  end.

Record FieldSchema := mkFieldSchema {
  fs_name : list Z;
  fs_data_type : DataType.t;
  fs_nullable : bool;
  fs_synopsis : SynopsisConfig.t
}.

Definition FieldSchema_new (name : list Z) (data_type : DataType.t) : result FieldSchema :=
  if (len name =? 0) || (MAX_FIELD_NAME_BYTES <? len name) then Err InvalidArgument
  else Ok (mkFieldSchema name data_type false SynopsisConfig.MinMax).
Definition FieldSchema_nullable (f : FieldSchema) : FieldSchema :=
  mkFieldSchema (fs_name f) (fs_data_type f) true (fs_synopsis f).
Definition FieldSchema_with_synopsis (f : FieldSchema) (s : SynopsisConfig.t)
    : result FieldSchema :=
  SynopsisConfig_validate s ≫= λ _,
  Ok (mkFieldSchema (fs_name f) (fs_data_type f) (fs_nullable f) s).

(** ** Filter Predicates *)
Module CompareOp.
Inductive t := Eq | NotEq | Lt | LessOrEqual | Gt | GreaterOrEqual.
#[export] Instance eq_dec : EqDecision t.
Proof. solve_decision. Defined.
End CompareOp.
Export (hints) CompareOp.

Module Predicate.
Inductive t :=
  | And (children : list t)
  | Or (children : list t)
  | Not (child : t)
  | Compare (field : Z) (op : CompareOp.t) (value : Value.t)
  | In (field : Z) (values : list Value.t)
  | IsNull (field : Z)
  | IsNotNull (field : Z).
End Predicate.

(** [fields.get(usize::from(field.0)).ok_or_else(...)]. *)
Definition field_schema (field : Z) (fields : list FieldSchema) : result FieldSchema :=
  ok_or InvalidArgument (fields !! Z.to_nat field).

(** [for value in values { value.validate_for(ty, false)? }]. *)
Fixpoint validate_values (ty : DataType.t) (values : list Value.t) : result (list Value.t) :=
  match values with
  | [] => Ok []
  | v :: vs =>
      validate_for v ty false ≫= λ v',
      validate_values ty vs ≫= λ vs', Ok (v' :: vs')
  end.

(** [Predicate::validate_at]: the result is the predicate with canonicalized
    literals and the running node count. *)
Fixpoint validate_at (fields : list FieldSchema) (p : Predicate.t) (depth nodes : Z)
    : result (Predicate.t * Z) :=
  let go := fix go (ps : list Predicate.t) (depth nodes : Z) : result (list Predicate.t * Z) :=
    match ps with
    | [] => Ok ([], nodes)
    | p :: ps =>
        validate_at fields p depth nodes ≫= λ '(p', nodes),
        go ps depth nodes ≫= λ '(ps', nodes), Ok (p' :: ps', nodes)
    end in
  let nodes := nodes + 1 in
  if 2 ^ 64 <=? nodes then Err InvalidArgument
  else if (MAX_PREDICATE_DEPTH <? depth) || (MAX_PREDICATE_NODES <? nodes)
  then Err InvalidArgument
  else match p with
  | Predicate.And ps => go ps (depth + 1) nodes ≫= λ '(ps', n), Ok (Predicate.And ps', n)
  | Predicate.Or ps => go ps (depth + 1) nodes ≫= λ '(ps', n), Ok (Predicate.Or ps', n)
  | Predicate.Not c =>
      validate_at fields c (depth + 1) nodes ≫= λ '(c', n), Ok (Predicate.Not c', n)
  | Predicate.Compare field op value =>
      if Value_is_null value then Err InvalidArgument
      else
        field_schema field fields ≫= λ schema,
        validate_for value (fs_data_type schema) false ≫= λ value',
        Ok (Predicate.Compare field op value', nodes)
  | Predicate.In field values =>
      field_schema field fields ≫= λ schema,
      if (MAX_IN_VALUES <? len values) || existsb Value_is_null values
      then Err InvalidArgument
      else
        validate_values (fs_data_type schema) values ≫= λ values',
        Ok (Predicate.In field values', nodes)
  | Predicate.IsNull field => field_schema field fields ≫= λ _, Ok (p, nodes)
  | Predicate.IsNotNull field => field_schema field fields ≫= λ _, Ok (p, nodes)
  end.

(** [Predicate::validate]. *)
Definition Predicate_validate (fields : list FieldSchema) (p : Predicate.t)
    : result Predicate.t :=
  validate_at fields p 1 0 ≫= λ '(p', _), Ok p'.

(** ** Lemmas *)

(** Induction over predicate trees, with the hypothesis on every child. *)
Section predicate_ind.
Variable P : Predicate.t → Prop.
Hypothesis HAnd : ∀ ps, Forall P ps → P (Predicate.And ps).
Hypothesis HOr : ∀ ps, Forall P ps → P (Predicate.Or ps).
Hypothesis HNot : ∀ p, P p → P (Predicate.Not p).
Hypothesis HCmp : ∀ f op v, P (Predicate.Compare f op v).
Hypothesis HIn : ∀ f vs, P (Predicate.In f vs).
Hypothesis HNull : ∀ f, P (Predicate.IsNull f).
Hypothesis HNotNull : ∀ f, P (Predicate.IsNotNull f).
Fixpoint predicate_ind (p : Predicate.t) : P p :=
  let go := fix go (ps : list Predicate.t) : Forall P ps :=
    match ps with
    | [] => List.Forall_nil P
    | p :: ps => @List.Forall_cons _ P p ps (predicate_ind p) (go ps)
    end in
  match p with
  | Predicate.And ps => HAnd ps (go ps)
  | Predicate.Or ps => HOr ps (go ps)
  | Predicate.Not c => HNot c (predicate_ind c)
  | Predicate.Compare f op v => HCmp f op v
  | Predicate.In f vs => HIn f vs
  | Predicate.IsNull f => HNull f
  | Predicate.IsNotNull f => HNotNull f
  end.
End predicate_ind.

Lemma typed_order_some ty a b :
  typed_value ty a = true → typed_value ty b = true → is_Some (typed_order a b).
Proof.
  destruct ty, a, b; simpl; try done; intros Ha Hb; unfold F64.canonical in *; bprop.
  destruct Ha as [-> _], Hb as [-> _]. simpl. eauto.
Qed.

Lemma typed_order_refl ty a : typed_value ty a = true → typed_order a a = Some Eq.
Proof.
  destruct ty, a; simpl; try done.
  - by destruct value.
  - by rewrite Z.compare_refl.
  - unfold F64.canonical, F64.cmp. intros [-> _]%andb_true_iff. simpl. by rewrite Z.compare_refl.
  - by rewrite lex_cmp_refl.
Qed.

Lemma typed_order_eq ty a b :
  value_ok a → value_ok b → typed_value ty a = true → typed_value ty b = true →
  typed_order a b = Some Eq → a = b.
Proof.
  destruct ty, a, b; simpl; try done; intros Ha Hb Ta Tb.
  - destruct value, value0; naive_solver.
  - intros [= E%Z.compare_eq_iff]. by subst.
  - pose proof Ta as [-> _]%andb_true_iff. pose proof Tb as [-> _]%andb_true_iff. simpl.
    intros [= E]. f_equal. by apply f64_canonical_inj.
  - intros [= E%lex_cmp_eq]. by subst.
Qed.

Lemma typed_order_opp a b c : typed_order a b = Some c → typed_order b a = Some (CompOpp c).
Proof.
  destruct a, b; simpl; try done.
  - intros [= <-]. by destruct value, value0.
  - intros [= <-]. f_equal. by rewrite Z.compare_antisym.
  - rewrite andb_comm. case_match; [|done]. intros [= <-]. unfold F64.cmp.
    f_equal. by rewrite Z.compare_antisym.
  - intros [= <-]. f_equal. apply lex_cmp_opp.
Qed.

(** [a <= b] in the typed order. *)
Definition typed_le (a b : Value.t) : Prop := ∃ c, typed_order a b = Some c ∧ c ≠ Gt.

Lemma typed_le_refl ty a : typed_value ty a = true → typed_le a a.
Proof. intros. exists Eq. split; [by eapply typed_order_refl|done]. Qed.

Lemma typed_le_trans a b c : typed_le a b → typed_le b c → typed_le a c.
Proof.
  intros (o1 & H1 & N1) (o2 & H2 & N2). unfold typed_le. destruct a, b, c; simpl in *; try done.
  - eexists. split; [done|]. destruct value, value0, value1; naive_solver.
  - eexists. split; [done|]. simplify_eq. rewrite Z.compare_le_iff in *. lia.
  - destruct (F64.is_finite bits), (F64.is_finite bits0), (F64.is_finite bits1); try done.
    exists (F64.cmp bits bits1). split; [done|]. unfold F64.cmp in *. simplify_eq/=.
    rewrite Z.compare_le_iff in *. lia.
  - eexists. split; [done|]. simplify_eq. change (lex_le bytes bytes1). by etrans.
Qed.

Lemma typed_le_total ty a b :
  typed_value ty a = true → typed_value ty b = true → typed_le a b ∨ typed_le b a.
Proof.
  intros Ha Hb. destruct (typed_order_some ty a b) as [c Hc]; [done..|].
  destruct (decide (c = Gt)) as [->|]; [right|left; by exists c].
  exists Lt. split; [|done]. by apply typed_order_opp in Hc.
Qed.

Lemma validate_for_ok v ty nullable v' :
  value_ok v → validate_for v ty nullable = Ok v' →
  value_ok v' ∧ ((v' = Value.Null ∧ nullable = true) ∨ typed_value ty v' = true).
Proof.
  intros Hv H. destruct v; simpl in *; inv_ok; simpl; eauto.
  destruct (F64.is_zero bits) eqn:E; simpl; [split; [unfold u64_ok; lia|by right]|].
  split; [done|]. right. unfold F64.canonical. by rewrite E, andb_true_r.
Qed.
