(* ===== verification/TreeKey.v ===== *)
(** Canonical memcomparable Tree Keys (src/storage/tree_key.rs): the scalar and
    field-sequence codec, the allocation-free validator, and their laws. *)
From S2P Require Import Prelude RustStd Api.

Definition MAX_TREE_KEY_BYTES : Z := 8192.

(** ** Operations *)

(** [take_array::<N>]. *)
Definition take_array (n : Z) (bytes : list Z) : result (list Z) :=
  if n <=? len bytes then Ok (ztake n bytes) else Err Corruption.

(** [push_escaped_terminated]: the buffer [out] after the appends. *)
Fixpoint push_escaped_terminated (out bytes : list Z) : list Z :=
  match bytes with
  | [] => out ++ [0x00; 0x00]
  | byte :: t =>
      if byte =? 0x00 then push_escaped_terminated (out ++ [0x00; 0xFF]) t
      else push_escaped_terminated (out ++ [byte]) t
  end.

Record EscapedScan := mkScan {
  decoded_len : Z;
  consumed : Z;
  escaped : bool
}.

(** The loop of [scan_escaped_terminated]; [rest] is [&bytes[scan.consumed..]]. *)
Fixpoint scan_loop (rest : list Z) (scan : EscapedScan) (maximum : Z) : result EscapedScan :=
  match rest with
  | [] => Err Corruption
  | byte :: t =>
      if byte =? 0x00 then
        match t with
        | [] => Err Corruption
        | tag :: t' =>
            if tag =? 0xFF then
              let scan := mkScan (decoded_len scan + 1) (consumed scan + 2) true in
              if maximum <? decoded_len scan then Err Corruption
              else scan_loop t' scan maximum
            else if tag =? 0x00 then
              Ok (mkScan (decoded_len scan) (consumed scan + 2) (escaped scan))
            else Err Corruption
        end
      else
        let scan := mkScan (decoded_len scan + 1) (consumed scan + 1) (escaped scan) in
        if maximum <? decoded_len scan then Err Corruption
        else scan_loop t scan maximum
  end.

Definition scan_escaped_terminated (bytes : list Z) (maximum : Z) : result EscapedScan :=
  scan_loop bytes (mkScan 0 0 false) maximum.

(** The loop of [decode_escaped_terminated]; [rest] is [&bytes[offset..]] and
    [remaining] is [scan.consumed - 2 - offset]. *)
Fixpoint decode_escaped_loop (rest : list Z) (remaining : Z) : result (list Z) :=
  if remaining <=? 0 then Ok []
  else match rest with
  | [] => Panic
  | byte :: t =>
      if byte =? 0x00 then
        decode_escaped_loop (match t with _ :: t' => t' | [] => t end) (remaining - 2)
          ≫= λ value, Ok (0x00 :: value)
      else decode_escaped_loop t (remaining - 1) ≫= λ value, Ok (byte :: value)
  end.

Definition decode_escaped_terminated (bytes : list Z) (scan : EscapedScan) : result (list Z) :=
  if consumed scan <? 2 then Panic
  else decode_escaped_loop bytes (consumed scan - 2).

(** The loop of [check_string]; [rest] is [&bytes[offset..]] and [seg] is
    [&bytes[segment..offset]]. *)
Fixpoint check_string_loop (rest seg : list Z) (decoded offset : Z) : result Z :=
  match rest with
  | [] => Err Corruption
  | byte :: t =>
      if byte =? 0x00 then
        if utf8_valid seg then
          match t with
          | [] => Err Corruption
          | tag :: t' =>
              if tag =? 0xFF then
                if MAX_STRING_BYTES <? decoded + 1 then Err Corruption
                else check_string_loop t' [] (decoded + 1) (offset + 2)
              else if tag =? 0x00 then Ok (offset + 2)
              else Err Corruption
          end
        else Err Corruption
      else if MAX_STRING_BYTES <? decoded + 1 then Err Corruption
      else check_string_loop t (seg ++ [byte]) (decoded + 1) (offset + 1)
  end.

Definition check_string (bytes : list Z) : result Z := check_string_loop bytes [] 0 0.

(** [encode_scalar]: the buffer [out] after the appends. *)
Definition encode_scalar (ty : DataType.t) (value : Value.t) (out : list Z) : result (list Z) :=
  match ty, value with
  | DataType.Bool, Value.Bool v => Ok (out ++ [if v then 1 else 0])
  | DataType.I64, Value.I64 v => Ok (out ++ be_bytes 8 (Z.lxor (i64_as_u64 v) SIGN))
  | DataType.F64, Value.F64 bits =>
      if negb (F64.is_finite bits) || (F64.is_zero bits && F64.sign_negative bits)
      then Err InvalidArgument
      else
        let encoded :=
          if negb (Z.land bits SIGN =? 0) then u64_not bits else Z.lor bits SIGN in
        Ok (out ++ be_bytes 8 encoded)
  | DataType.String, Value.String s =>
      if MAX_STRING_BYTES <? len s then Err InvalidArgument
      else Ok (push_escaped_terminated out s)
  | _, _ => Err InvalidArgument
  end.

(** [decode_scalar]: the value and the consumed length. *)
Definition decode_scalar (ty : DataType.t) (bytes : list Z) : result (Value.t * Z) :=
  match ty with
  | DataType.Bool =>
      match bytes with
      | b :: _ =>
          if b =? 0x00 then Ok (Value.Bool false, 1)
          else if b =? 0x01 then Ok (Value.Bool true, 1)
          else Err Corruption
      | [] => Err Corruption
      end
  | DataType.I64 =>
      take_array 8 bytes ≫= λ raw,
      Ok (Value.I64 (u64_as_i64 (Z.lxor (be_value raw) SIGN)), 8)
  | DataType.F64 =>
      take_array 8 bytes ≫= λ raw,
      let encoded := be_value raw in
      let bits :=
        if negb (Z.land encoded SIGN =? 0) then Z.lxor encoded SIGN else u64_not encoded in
      if negb (F64.is_finite bits) || (F64.is_zero bits && F64.sign_negative bits)
      then Err Corruption
      else Ok (Value.F64 bits, 8)
  | DataType.String =>
      scan_escaped_terminated bytes MAX_STRING_BYTES ≫= λ scan,
      decode_escaped_terminated bytes scan ≫= λ value,
      if utf8_valid value then Ok (Value.String value, consumed scan) else Err Corruption
  end.

Definition check_scalar (ty : DataType.t) (bytes : list Z) : result Z :=
  match ty with
  | DataType.Bool =>
      match bytes with
      | b :: _ => if (b =? 0x00) || (b =? 0x01) then Ok 1 else Err Corruption
      | [] => Err Corruption
      end
  | DataType.I64 => take_array 8 bytes ≫= λ _, Ok 8
  | DataType.F64 => decode_scalar ty bytes ≫= λ '(_, c), Ok c
  | DataType.String => check_string bytes
  end.

(** [check_fields]: the loop advances [offset] over [&bytes[offset..]]. *)
Fixpoint check_fields_loop (types : list DataType.t) (bytes : list Z) (offset : Z) : result Z :=
  match types with
  | [] => Ok offset
  | ty :: types =>
      slice_from offset bytes ≫= λ rest,
      check_scalar ty rest ≫= λ c,
      check_fields_loop types bytes (offset + c)
  end.
Definition check_fields (types : list DataType.t) (bytes : list Z) : result Z :=
  check_fields_loop types bytes 0 ≫= λ offset,
  if MAX_TREE_KEY_BYTES <? offset then Err Corruption else Ok offset.

Definition check_complete (types : list DataType.t) (bytes : list Z) : result unit :=
  check_fields types bytes ≫= λ c,
  if negb (c =? len bytes) then Err Corruption else Ok tt.

Fixpoint decode_fields_loop (types : list DataType.t) (bytes : list Z) (offset : Z)
    : result (list Value.t * Z) :=
  match types with
  | [] => Ok ([], offset)
  | ty :: types =>
      slice_from offset bytes ≫= λ rest,
      decode_scalar ty rest ≫= λ '(value, c),
      decode_fields_loop types bytes (offset + c) ≫= λ '(values, offset),
      Ok (value :: values, offset)
  end.
Definition decode_fields (types : list DataType.t) (bytes : list Z)
    : result (list Value.t * Z) :=
  if MAX_TREE_KEY_BYTES <? len bytes then Err Corruption
  else decode_fields_loop types bytes 0.

Definition decode_complete (types : list DataType.t) (bytes : list Z)
    : result (list Value.t) :=
  decode_fields types bytes ≫= λ '(values, c),
  if negb (c =? len bytes) then Err Corruption else Ok values.

(** [TreeKey::append_fields]: the zipped loop after the length check. *)
Fixpoint append_loop (types : list DataType.t) (values : list Value.t) (out : list Z)
    : result (list Z) :=
  match types, values with
  | ty :: types, value :: values =>
      encode_scalar ty value out ≫= λ out, append_loop types values out
  | _, _ => Ok out
  end.
Definition append_fields (types : list DataType.t) (values : list Value.t) (out : list Z)
    : result (list Z) :=
  if negb (len types =? len values) then Err InvalidArgument
  else append_loop types values out.

(** The [TreeKey] constructors and accessors; a [TreeKey] is its bytes. *)
Definition TreeKey_encode (types : list DataType.t) (values : list Value.t)
    : result (list Z) :=
  append_fields types values [] ≫= λ bytes,
  if MAX_TREE_KEY_BYTES <? len bytes then Err InvalidArgument else Ok bytes.
Definition TreeKey_values (key : list Z) (types : list DataType.t) : result (list Value.t) :=
  decode_complete types key.
Definition TreeKey_validate (key : list Z) (types : list DataType.t) : result unit :=
  check_complete types key.
Definition TreeKey_from_prefix (types : list DataType.t) (bytes : list Z)
    : result (list Z * Z) :=
  check_fields types bytes ≫= λ c, Ok (ztake c bytes, c).
Definition TreeKey_from_encoded (types : list DataType.t) (bytes : list Z)
    : result (list Z) :=
  check_complete types bytes ≫= λ _, Ok bytes.

(** ** The escaped form *)

(** The body of the escaped form, without its terminator. *)
Fixpoint escape (s : list Z) : list Z :=
  match s with
  | [] => []
  | b :: t => if b =? 0 then 0 :: 0xFF :: escape t else b :: escape t
  end.
Definition terminator : list Z := [0; 0].
Lemma len_terminator : len terminator = 2.
Proof. done. Qed.
#[export] Hint Rewrite len_terminator : len.

Lemma push_escaped_spec out s : push_escaped_terminated out s = out ++ escape s ++ terminator.
Proof.
  revert out. induction s as [|b s IH]; intros out; simpl; [done|].
  destruct (b =? 0); rewrite IH, <-app_assoc; done.
Qed.

Lemma escape_ok s : bytes_ok s → bytes_ok (escape s).
Proof.
  induction s as [|b s IH]; simpl; [done|]. intros [Hb Hs]%bytes_ok_cons.
  destruct (b =? 0); rewrite ?bytes_ok_cons; unfold byte_ok; naive_solver lia.
Qed.
Lemma escape_ok_inv s tail : bytes_ok (escape s ++ tail) → bytes_ok s ∧ bytes_ok tail.
Proof.
  induction s as [|b s IH]; simpl; [by split; [constructor|]|].
  destruct (Z.eqb_spec b 0); simpl; rewrite ?bytes_ok_cons; unfold byte_ok; naive_solver lia.
Qed.
Lemma escape_len s : len s ≤ len (escape s) ≤ 2 * len s.
Proof.
  induction s as [|b s IH]; simpl; [done|]. destruct (b =? 0); len; lia.
Qed.

Lemma scan_loop_escape s tail scan maximum :
  decoded_len scan + len s ≤ maximum →
  scan_loop (escape s ++ terminator ++ tail) scan maximum =
  Ok (mkScan (decoded_len scan + len s) (consumed scan + len (escape s) + 2)
             (escaped scan || existsb (λ b, b =? 0) s)).
Proof.
  revert scan. induction s as [|b s IH]; intros scan Hm; simpl.
  - len. by rewrite !Z.add_0_r, orb_false_r.
  - destruct (Z.eqb_spec b 0) as [->|Hb]; simpl; len; pose proof (len_nonneg s).
    + rewrite (proj2 (Z.ltb_ge _ _)) by lia. rewrite IH by (simpl; lia). simpl.
      rewrite orb_true_r. do 2 f_equal; lia.
    + rewrite (proj2 (Z.eqb_neq _ _)) by done.
      rewrite (proj2 (Z.ltb_ge _ _)) by lia. rewrite IH by (simpl; lia). simpl. do 2 f_equal; lia.
Qed.

Lemma scan_loop_inv rest scan maximum r :
  scan_loop rest scan maximum = Ok r → decoded_len scan ≤ maximum →
  ∃ s tail, rest = escape s ++ terminator ++ tail ∧ decoded_len scan + len s ≤ maximum.
Proof.
  revert scan. induction rest as [rest IH] using list_len_ind. intros scan.
  destruct rest as [|b t]; [done|]. simpl. destruct (Z.eqb_spec b 0) as [->|Hb].
  - destruct t as [|tag t]; [done|]. destruct (Z.eqb_spec tag 0xFF) as [->|].
    + destruct (Z.ltb_spec maximum (decoded_len scan + 1)); [done|]. intros Hs Hm.
      destruct (IH t ltac:(simpl; lia) _ Hs) as (s & tail & -> & ?); [done|].
      exists (0 :: s), tail. simpl in *. len. split; [done|lia].
    + destruct (Z.eqb_spec tag 0) as [->|]; [|done]. intros _ ?.
      exists [], t. len. split; [done|lia].
  - destruct (Z.ltb_spec maximum (decoded_len scan + 1)); [done|]. intros Hs Hm.
    destruct (IH t ltac:(simpl; lia) _ Hs) as (s & tail & -> & ?); [done|].
    exists (b :: s), tail. simpl in *. rewrite (proj2 (Z.eqb_neq _ _)) by done.
    len. split; [done|lia].
Qed.

Lemma decode_escaped_loop_spec s tail :
  decode_escaped_loop (escape s ++ tail) (len (escape s)) = Ok s.
Proof.
  induction s as [|b s IH]; simpl; [by destruct tail|].
  pose proof (len_nonneg (escape s)).
  destruct (Z.eqb_spec b 0) as [->|Hb]; simpl; len.
  - replace (1 + (1 + len (escape s)) - 2) with (len (escape s)) by lia. by rewrite IH.
  - rewrite (proj2 (Z.eqb_neq _ _)) by done.
    replace (1 + len (escape s) - 1) with (len (escape s)) by lia. by rewrite IH.
Qed.

(** The scan accepts exactly the escaped strings of bounded decoded length. *)
Lemma scan_spec bytes maximum r :
  0 ≤ maximum →
  scan_escaped_terminated bytes maximum = Ok r ↔
  ∃ s tail, bytes = escape s ++ terminator ++ tail ∧ len s ≤ maximum ∧
    r = mkScan (len s) (len (escape s) + 2) (existsb (λ b, b =? 0) s).
Proof.
  unfold scan_escaped_terminated. intros Hm. split.
  - intros H. destruct (scan_loop_inv _ _ _ _ H) as (s & tail & -> & Hs); [done|].
    simpl in Hs. rewrite scan_loop_escape in H by done. simplify_eq/=. by exists s, tail.
  - intros (s & tail & -> & Hs & ->). by rewrite scan_loop_escape.
Qed.

Lemma decode_escaped_spec s tail d e :
  decode_escaped_terminated (escape s ++ terminator ++ tail) (mkScan d (len (escape s) + 2) e)
  = Ok s.
Proof.
  unfold decode_escaped_terminated. simpl. pose proof (len_nonneg (escape s)).
  rewrite (proj2 (Z.ltb_ge _ _)) by lia.
  replace (len (escape s) + 2 - 2) with (len (escape s)) by lia. apply decode_escaped_loop_spec.
Qed.

(** The segment-wise validator accepts exactly the escaped valid strings. *)
Lemma check_string_loop_escape s tail seg decoded offset :
  decoded ≤ MAX_STRING_BYTES →
  check_string_loop (escape s ++ terminator ++ tail) seg decoded offset =
  if (decoded + len s <=? MAX_STRING_BYTES) && utf8_valid (seg ++ s)
  then Ok (offset + len (escape s) + 2) else Err Corruption.
Proof.
  revert seg decoded offset. induction s as [|b s IH]; intros seg decoded offset Hd; simpl.
  - len. rewrite !Z.add_0_r, (proj2 (Z.leb_le _ _)) by done. simpl. by destruct (utf8_valid seg).
  - pose proof (len_nonneg s).
    assert (∀ b : bool, MAX_STRING_BYTES < decoded + 1 →
      (decoded + len (0 :: s) <=? MAX_STRING_BYTES) && b = false) as Hover.
    { intros ? ?. len. by rewrite (proj2 (Z.leb_gt _ _)) by lia. }
    destruct (Z.eqb_spec b 0) as [->|Hb]; simpl.
    + rewrite utf8_valid_split. destruct (utf8_valid seg); simpl; [|by rewrite andb_false_r].
      destruct (Z.ltb_spec MAX_STRING_BYTES (decoded + 1)); [by rewrite Hover|].
      rewrite IH by lia. len. simpl. rewrite <-!Z.add_assoc. by replace (2 + (len (escape s) + 2))
        with (1 + (1 + (len (escape s) + 2))) by lia.
    + rewrite (proj2 (Z.eqb_neq b 0)) by done. len.
      destruct (Z.ltb_spec MAX_STRING_BYTES (decoded + 1)); [by rewrite Hover|].
      rewrite IH, <-app_assoc by lia. simpl. by rewrite <-!Z.add_assoc.
Qed.

Lemma check_string_loop_inv rest seg decoded offset c :
  check_string_loop rest seg decoded offset = Ok c →
  ∃ s tail, rest = escape s ++ terminator ++ tail.
Proof.
  revert seg decoded offset c. induction rest as [rest IH] using list_len_ind.
  intros seg decoded offset c. destruct rest as [|b t]; [done|]. simpl.
  destruct (Z.eqb_spec b 0) as [->|Hb].
  - destruct (utf8_valid seg); [|done]. destruct t as [|tag t]; [done|].
    destruct (Z.eqb_spec tag 0xFF) as [->|].
    + case_match; [done|]. intros (s & tail & ->)%IH; [|simpl; lia]. by exists (0 :: s), tail.
    + destruct (Z.eqb_spec tag 0) as [->|]; [|done]. intros _. by exists [], t.
  - case_match; [done|]. intros (s & tail & ->)%IH; [|simpl; lia]. exists (b :: s), tail.
    simpl. by rewrite (proj2 (Z.eqb_neq b 0)).
Qed.

Lemma check_string_spec bytes c :
  check_string bytes = Ok c ↔
  ∃ s tail, bytes = escape s ++ terminator ++ tail ∧ len s ≤ MAX_STRING_BYTES ∧
    utf8_valid s = true ∧ c = len (escape s) + 2.
Proof.
  unfold check_string. split.
  - intros H. destruct (check_string_loop_inv _ _ _ _ _ H) as (s & tail & ->).
    rewrite check_string_loop_escape in H by done. simpl in H. inv_ok. bprop.
    exists s, tail. naive_solver lia.
  - intros (s & tail & -> & Hs & Hu & ->). rewrite check_string_loop_escape by done. simpl.
    rewrite (proj2 (Z.leb_le _ _)) by lia. by rewrite Hu.
Qed.

(** ** Scalars *)

Lemma take_array_ok n bytes raw :
  0 ≤ n → take_array n bytes = Ok raw ↔ ∃ tail, bytes = raw ++ tail ∧ len raw = n.
Proof.
  intros Hn. unfold take_array. destruct (Z.leb_spec n (len bytes)); split.
  - intros [= <-]. exists (zdrop n bytes). by rewrite ztake_zdrop, len_ztake.
  - intros (tail & -> & <-). by rewrite ztake_app.
  - done.
  - intros (tail & -> & <-). len. pose proof (len_nonneg tail). lia.
Qed.

(** The encoding of one value, as a total function. *)
Definition f64_encoded (bits : Z) : Z :=
  if negb (Z.land bits SIGN =? 0) then u64_not bits else Z.lor bits SIGN.
Definition scalar_bytes (v : Value.t) : list Z :=
  match v with
  | Value.Null => []
  | Value.Bool b => [if b then 1 else 0]
  | Value.I64 x => be_bytes 8 (Z.lxor (i64_as_u64 x) SIGN)
  | Value.F64 bits => be_bytes 8 (f64_encoded bits)
  | Value.String s => escape s ++ terminator
  end.

Lemma i64_encoded_spec x : i64_ok x → Z.lxor (i64_as_u64 x) SIGN = x + 2 ^ 63.
Proof.
  intros Hx. rewrite i64_as_u64_spec by done. destruct Hx as [??].
  destruct (Z.ltb_spec x 0); rewrite lxor_SIGN by (unfold u64_ok; lia); case_match; bprop; lia.
Qed.
Lemma i64_decoded_spec e : u64_ok e → u64_as_i64 (Z.lxor e SIGN) = e - 2 ^ 63.
Proof.
  intros He. rewrite lxor_SIGN by done. destruct He as [??]. unfold u64_as_i64.
  destruct (Z.ltb_spec e (2 ^ 63)); case_match; bprop; lia.
Qed.

Lemma f64_encoded_spec bits :
  u64_ok bits → f64_encoded bits = if F64.sign_negative bits then 2 ^ 64 - 1 - bits else bits + 2 ^ 63.
Proof.
  intros Hb. unfold f64_encoded, F64.sign_negative, u64_not. rewrite land_SIGN_spec by done.
  destruct Hb as [??]. destruct (Z.ltb_spec bits (2 ^ 63)), (Z.leb_spec (2 ^ 63) bits); simpl; try lia.
  apply lor_SIGN. lia.
Qed.

(** The numeric order of finite floats is the order of their encodings. *)
Lemma f64_encoded_compare a b :
  u64_ok a → u64_ok b → F64.canonical a = true → F64.canonical b = true →
  (f64_encoded a ?= f64_encoded b) = F64.cmp a b.
Proof.
  intros Ha Hb Ca Cb. rewrite !f64_encoded_spec by done.
  unfold F64.canonical, F64.cmp, F64.value_key, F64.is_zero in *.
  rewrite !f64_magnitude in * by done. unfold F64.sign_negative in *.
  destruct Ha, Hb, (Z.leb_spec (2 ^ 63) a), (Z.leb_spec (2 ^ 63) b); bprop.
  all: match goal with |- (?x ?= ?y) = (?u ?= ?v) =>
    destruct (Z.compare_spec x y), (Z.compare_spec u v); try done; lia end.
Qed.

Lemma f64_encoded_ok bits : u64_ok bits → u64_ok (f64_encoded bits).
Proof.
  intros Hb. rewrite f64_encoded_spec by done. unfold F64.sign_negative, u64_ok in *.
  destruct (Z.leb_spec (2 ^ 63) bits); lia.
Qed.

Lemma f64_decoded_spec e :
  u64_ok e →
  let bits := if negb (Z.land e SIGN =? 0) then Z.lxor e SIGN else u64_not e in
  u64_ok bits ∧ f64_encoded bits = e.
Proof.
  intros He bits. assert (bits = if e <? 2 ^ 63 then 2 ^ 64 - 1 - e else e - 2 ^ 63) as Hbits.
  { unfold bits. rewrite land_SIGN_spec, lxor_SIGN by done. by destruct (e <? 2 ^ 63). }
  assert (u64_ok bits) as Hok.
  { rewrite Hbits. destruct He. unfold u64_ok. destruct (Z.ltb_spec e (2 ^ 63)); lia. }
  split; [done|]. rewrite f64_encoded_spec by done. rewrite Hbits. unfold F64.sign_negative.
  destruct He, (Z.ltb_spec e (2 ^ 63)); case_match; bprop; lia.
Qed.

Lemma f64_encoded_inj a b : u64_ok a → u64_ok b → f64_encoded a = f64_encoded b → a = b.
Proof.
  intros Ha Hb. rewrite !f64_encoded_spec by done. unfold F64.sign_negative, u64_ok in *.
  destruct (Z.leb_spec (2 ^ 63) a), (Z.leb_spec (2 ^ 63) b); lia.
Qed.

Lemma scalar_bytes_ok v : value_ok v → bytes_ok (scalar_bytes v).
Proof.
  destruct v; simpl; auto using be_bytes_ok, bytes_ok_nil.
  - intros _. by destruct value; repeat constructor.
  - intros [Hs _]. apply bytes_ok_app. split; [by apply escape_ok|by repeat constructor].
Qed.

Lemma encode_scalar_spec ty v out :
  encode_scalar ty v out =
  if typed_value ty v then Ok (out ++ scalar_bytes v) else Err InvalidArgument.
Proof.
  destruct ty, v; simpl; try done.
  - unfold F64.canonical. destruct (F64.is_finite bits); simpl; [|done].
    by destruct (F64.is_zero bits && F64.sign_negative bits).
  - rewrite Z.leb_antisym. destruct (MAX_STRING_BYTES <? len bytes); simpl; [done|].
    by rewrite push_escaped_spec.
Qed.

(** Reading a fixed 8-byte field. *)
Lemma take_array_be8 v tail :
  0 ≤ v < 2 ^ 64 → take_array 8 (be_bytes 8 v ++ tail) = Ok (be_bytes 8 v) ∧
  be_value (be_bytes 8 v) = v.
Proof.
  intros Hv. split; [apply take_array_ok; [done|]; exists tail; by len|].
  by apply be_value_bytes.
Qed.
Lemma take_array_be8_inv bytes raw :
  bytes_ok bytes → take_array 8 bytes = Ok raw →
  u64_ok (be_value raw) ∧ ∃ tail, bytes = be_bytes 8 (be_value raw) ++ tail.
Proof.
  intros Hok (tail & -> & Hl)%take_array_ok; [|done].
  apply bytes_ok_app in Hok as [Hx _]. pose proof (be_value_bound _ Hx) as Hb. rewrite Hl in Hb.
  split; [done|]. exists tail. f_equal. symmetry.
  replace 8%nat with (length raw) by (unfold len in Hl; lia). by apply be_bytes_value.
Qed.

(** Decoding one scalar succeeds exactly on the canonical encodings. *)
Definition scalar_decodes (ty : DataType.t) (bytes : list Z) (v : Value.t) (c : Z) : Prop :=
  value_ok v ∧ typed_value ty v = true ∧
  ∃ tail, bytes = scalar_bytes v ++ tail ∧ c = len (scalar_bytes v).

Lemma decode_bool_spec bytes v c :
  decode_scalar DataType.Bool bytes = Ok (v, c) ↔ scalar_decodes DataType.Bool bytes v c.
Proof.
  split.
  - intros H. destruct bytes as [|b t]; [done|]. simpl in H.
    destruct (Z.eqb_spec b 0) as [->|]; [|destruct (Z.eqb_spec b 1) as [->|]; [|done]];
      simplify_eq; repeat split; by exists t.
  - intros (_ & Ht & tail & -> & ->). destruct v; try done. by destruct value.
Qed.

Lemma decode_i64_spec bytes v c :
  bytes_ok bytes →
  decode_scalar DataType.I64 bytes = Ok (v, c) ↔ scalar_decodes DataType.I64 bytes v c.
Proof.
  intros Hok. split.
  - simpl. intros H. inv_ok. apply take_array_be8_inv in H as [Hx (tail & E)]; [|done].
    unfold scalar_decodes. simpl. rewrite i64_decoded_spec by done.
    split; [unfold i64_ok, u64_ok in *; lia|]. split; [done|]. exists tail.
    rewrite i64_encoded_spec by (unfold i64_ok, u64_ok in *; lia). rewrite Z.sub_add. by len.
  - intros (Hv & Ht & tail & -> & ->). destruct v; try done.
    cbn [value_ok scalar_bytes decode_scalar] in *.
    rewrite i64_encoded_spec by done. unfold i64_ok in Hv.
    destruct (take_array_be8 (value + 2 ^ 63) tail) as [-> Hval]; [lia|].
    cbn [mbind result_bind]. rewrite Hval.
    rewrite i64_decoded_spec, Z.add_simpl_r by (unfold u64_ok; lia). by len.
Qed.

Lemma decode_f64_spec bytes v c :
  bytes_ok bytes →
  decode_scalar DataType.F64 bytes = Ok (v, c) ↔ scalar_decodes DataType.F64 bytes v c.
Proof.
  intros Hok. unfold scalar_decodes. split.
  - simpl. intros H. inv_ok. apply take_array_be8_inv in H as [Hx (tail & E)]; [|done].
    destruct (f64_decoded_spec _ Hx) as [Hb He]. simpl. rewrite He. split; [done|].
    unfold F64.canonical. bprop. destruct Heqb as [-> Hz]. split; [|by exists tail].
    by split.
  - intros (Hv & Ht & tail & -> & ->). destruct v as [| | |bits|]; try done.
    cbn [value_ok scalar_bytes decode_scalar typed_value] in *.
    pose proof (f64_encoded_ok _ Hv) as He.
    destruct (take_array_be8 _ tail He) as [-> Hval]. cbn [mbind result_bind]. rewrite Hval.
    destruct (f64_decoded_spec _ He) as [Hb E%f64_encoded_inj]; [|done..]. rewrite E.
    unfold F64.canonical in Ht. apply andb_true_iff in Ht as [-> ->%negb_true_iff]. done.
Qed.

Lemma decode_string_spec bytes v c :
  bytes_ok bytes →
  decode_scalar DataType.String bytes = Ok (v, c) ↔ scalar_decodes DataType.String bytes v c.
Proof.
  intros Hok. unfold scalar_decodes. simpl. split.
  - intros H. inv_ok. apply scan_spec in H as (s & tail & -> & Hl & ->); [|done].
    rewrite decode_escaped_spec in H0. simplify_eq/=. apply escape_ok_inv in Hok as [Hs _].
    split; [by split|]. split; [by apply Z.leb_le|]. exists tail. rewrite <-app_assoc. by len.
  - intros (Hv & Ht & tail & -> & ->). destruct v as [| | | |s]; try done. simpl in *.
    destruct Hv as [Hs Hu]. apply Z.leb_le in Ht. rewrite <-app_assoc.
    unfold scan_escaped_terminated. rewrite scan_loop_escape by done.
    cbn [mbind result_bind decoded_len consumed escaped]. rewrite !Z.add_0_l, decode_escaped_spec. simpl. rewrite Hu. by len.
Qed.

Lemma decode_scalar_spec ty bytes v c :
  bytes_ok bytes → decode_scalar ty bytes = Ok (v, c) ↔ scalar_decodes ty bytes v c.
Proof.
  destruct ty; auto using decode_bool_spec, decode_i64_spec, decode_f64_spec, decode_string_spec.
Qed.

(** The allocation-free validator accepts what the decoder accepts. *)
Lemma check_scalar_spec ty bytes c :
  bytes_ok bytes → check_scalar ty bytes = Ok c ↔ ∃ v, decode_scalar ty bytes = Ok (v, c).
Proof.
  intros Hok. destruct ty.
  - simpl. destruct bytes as [|b t]; [naive_solver|].
    destruct (b =? 0), (b =? 1); simpl; naive_solver.
  - simpl. destruct (take_array 8 bytes); simpl; naive_solver.
  - cbn [check_scalar]. destruct (decode_scalar _ _) as [[v' c']| |]; simpl; naive_solver.
  - cbn [check_scalar]. setoid_rewrite (decode_string_spec bytes _ c Hok). rewrite check_string_spec. split.
    + intros (s & tail & -> & Hl & Hu & ->). exists (Value.String s).
      split; [|split; [by apply Z.leb_le|]]; [split; [by apply escape_ok_inv in Hok as []|done]|].
      exists tail. cbn [scalar_bytes]. rewrite <-app_assoc. by len.
    + intros (v & Hv & Ht & tail & -> & ->). destruct v as [| | | |s]; try done.
      simpl in *. destruct Hv as [Hs Hu]. apply Z.leb_le in Ht.
      exists s, tail. rewrite <-app_assoc. by len.
Qed.

(** ** Field sequences *)

(** A canonical non-NULL value of its declared type. *)
Definition field_ok (ty : DataType.t) (v : Value.t) : Prop :=
  value_ok v ∧ typed_value ty v = true.
Definition fields_ok : list DataType.t → list Value.t → Prop := Forall2 field_ok.
(** The concatenated encodings of a field sequence. *)
Definition fields_bytes (vs : list Value.t) : list Z := concat (scalar_bytes <$> vs).

Lemma fields_bytes_nil : fields_bytes [] = [].
Proof. done. Qed.
Lemma fields_bytes_cons v vs : fields_bytes (v :: vs) = scalar_bytes v ++ fields_bytes vs.
Proof. done. Qed.
#[global] Arguments fields_bytes : simpl never.

Lemma fields_bytes_ok types vs : fields_ok types vs → bytes_ok (fields_bytes vs).
Proof.
  induction 1 as [|ty v types vs [Hv _] _ IH]; [constructor|].
  apply bytes_ok_app. split; [by apply scalar_bytes_ok|done].
Qed.

Lemma append_loop_spec types vs out r :
  length types = length vs →
  append_loop types vs out = Ok r ↔
  Forall2 (λ ty v, typed_value ty v = true) types vs ∧ r = out ++ fields_bytes vs.
Proof.
  revert vs out. induction types as [|ty types IH]; intros [|v vs] out; simpl; try done.
  - intros _. rewrite fields_bytes_nil, app_nil_r. split.
    + intros [= ->]. by split; [constructor|].
    + by intros [_ ->].
  - intros [= Hl]. rewrite encode_scalar_spec. destruct (typed_value ty v) eqn:Ht; simpl.
    + rewrite IH by done. rewrite fields_bytes_cons, <-app_assoc, Forall2_cons_iff. naive_solver.
    + rewrite Forall2_cons_iff. naive_solver congruence.
Qed.

(** [TreeKey::append_fields] succeeds exactly on fully typed sequences. *)
Lemma append_fields_spec types vs out r :
  append_fields types vs out = Ok r ↔
  Forall2 (λ ty v, typed_value ty v = true) types vs ∧ r = out ++ fields_bytes vs.
Proof.
  unfold append_fields. destruct (Z.eqb_spec (len types) (len vs)) as [E|N]; simpl.
  - apply append_loop_spec. unfold len in E. lia.
  - split; [done|]. intros [H%Forall2_length _]. unfold len in N. lia.
Qed.

(** Encoding either succeeds or rejects the input as [InvalidArgument]. *)
Lemma append_loop_total types vs out :
  (∃ r, append_loop types vs out = Ok r) ∨ append_loop types vs out = Err InvalidArgument.
Proof.
  revert vs out. induction types as [|ty types IH]; intros [|v vs] out; simpl; eauto.
  rewrite encode_scalar_spec. destruct (typed_value ty v); simpl; eauto.
Qed.

(** The decoder succeeds exactly when the bytes at [offset] start with the
    canonical encoding of a typed field sequence. *)
Lemma decode_fields_loop_spec types bytes offset vs o :
  bytes_ok bytes → 0 ≤ offset ≤ len bytes →
  decode_fields_loop types bytes offset = Ok (vs, o) ↔
  fields_ok types vs ∧
  ∃ tail, zdrop offset bytes = fields_bytes vs ++ tail ∧ o = offset + len (fields_bytes vs).
Proof.
  intros Hok. revert offset vs o.
  induction types as [|ty types IH]; intros offset vs o Hoff; simpl.
  { unfold fields_ok. split.
    - intros [= <- <-]. split; [constructor|]. eexists. split; [done|].
      rewrite fields_bytes_nil. len. lia.
    - intros [->%Forall2_nil_inv_l (tail & _ & ->)]. rewrite fields_bytes_nil. len.
      by rewrite Z.add_0_r. }
  unfold slice_from, get_from. rewrite (proj2 (Z.leb_le _ _)) by lia. simpl.
  assert (bytes_ok (zdrop offset bytes)) as Hrest by auto with ktann.
  split.
  - intros H. inv_ok. apply decode_scalar_spec in H as (Hv & Ht & tail & E & ->); [|done].
    assert (len (zdrop offset bytes) = len bytes - offset) as El by by apply len_zdrop.
    rewrite E in El. len. pose proof (len_nonneg (scalar_bytes t)). pose proof (len_nonneg tail).
    apply IH in H0 as [Hts (tail' & E' & ->)]; [|lia].
    split; [by constructor|]. exists tail'. rewrite fields_bytes_cons. len.
    rewrite <-app_assoc, <-E', E. split; [|lia]. f_equal.
    rewrite <-zdrop_zdrop, E by lia. by rewrite zdrop_app.
  - intros [Hf (tail & E & ->)]. apply Forall2_cons_inv_l in Hf as (v & vs' & [Hv Ht] & Hts & ->).
    rewrite fields_bytes_cons in *. rewrite <-app_assoc in E.
    assert (decode_scalar ty (zdrop offset bytes) = Ok (v, len (scalar_bytes v))) as ->.
    { apply decode_scalar_spec; [done|]. split; [done|]. split; [done|]. by eexists. }
    assert (len (zdrop offset bytes) = len bytes - offset) as El by by apply len_zdrop.
    rewrite E in El. len. pose proof (len_nonneg (scalar_bytes v)).
    pose proof (len_nonneg tail). pose proof (len_nonneg (fields_bytes vs')). simpl.
    rewrite (proj2 (IH (offset + len (scalar_bytes v)) vs'
      (offset + (len (scalar_bytes v) + len (fields_bytes vs'))) ltac:(lia))); [done|].
    split; [done|]. exists tail. rewrite <-zdrop_zdrop, E, zdrop_app by lia. split; [done|lia].
Qed.

Lemma scalar_consumed ty bytes v c :
  bytes_ok bytes → decode_scalar ty bytes = Ok (v, c) → 0 ≤ c ≤ len bytes.
Proof.
  intros Hok (_ & _ & tail & -> & ->)%decode_scalar_spec; [|done]. len.
  pose proof (len_nonneg (scalar_bytes v)). pose proof (len_nonneg tail). lia.
Qed.

(** Validation walks exactly the field sequences the decoder materializes. *)
Lemma check_fields_loop_spec types bytes offset o :
  bytes_ok bytes → 0 ≤ offset ≤ len bytes →
  check_fields_loop types bytes offset = Ok o ↔
  ∃ vs, decode_fields_loop types bytes offset = Ok (vs, o).
Proof.
  intros Hok. revert offset. induction types as [|ty types IH]; intros offset Hoff; simpl.
  { naive_solver. }
  unfold slice_from, get_from. rewrite (proj2 (Z.leb_le _ _)) by lia. simpl.
  assert (bytes_ok (zdrop offset bytes)) as Hrest by auto with ktann.
  split; [intros H|intros (vs & H)]; inv_ok.
  - apply check_scalar_spec in H as (v & H); [|done]. rewrite H. simpl.
    apply scalar_consumed in H; [|done]. rewrite len_zdrop in H by lia.
    apply IH in H0 as (vs & ->); [|lia]. simpl. eauto.
  - rewrite (proj2 (check_scalar_spec _ _ _ Hrest) (ex_intro _ _ H)). simpl.
    apply scalar_consumed in H; [|done]. rewrite len_zdrop in H by lia.
    apply IH; [lia|]. eauto.
Qed.

(** ** Totality: decoders end in a value or [Corruption] on every input *)
Definition ok_or_corrupt {A} (m : result A) : Prop :=
  (∃ a, m = Ok a) ∨ m = Err Corruption.

Lemma ok_or_corrupt_bind {A B} (m : result A) (f : A → result B) :
  ok_or_corrupt m → (∀ a, m = Ok a → ok_or_corrupt (f a)) → ok_or_corrupt (m ≫= f).
Proof. intros [[a ->]| ->] Hf; simpl; [by apply Hf|by right]. Qed.
Lemma ok_or_corrupt_ok {A} (a : A) : ok_or_corrupt (Ok a).
Proof. left. eauto. Qed.
Lemma ok_or_corrupt_err {A} : ok_or_corrupt (@Err A Corruption).
Proof. by right. Qed.
Lemma ok_or_corrupt_if {A} (b : bool) (x y : result A) :
  ok_or_corrupt x → ok_or_corrupt y → ok_or_corrupt (if b then x else y).
Proof. by destruct b. Qed.
#[export] Hint Resolve ok_or_corrupt_ok ok_or_corrupt_err ok_or_corrupt_if : ktann.

Lemma take_array_total n bytes : ok_or_corrupt (take_array n bytes).
Proof. unfold take_array. auto with ktann. Qed.
Lemma scan_total rest scan maximum : ok_or_corrupt (scan_loop rest scan maximum).
Proof.
  revert scan. induction rest as [rest IH] using list_len_ind. intros scan.
  destruct rest as [|b t]; cbn [scan_loop]; [by right|].
  apply ok_or_corrupt_if; [destruct t as [|tag t]|]; repeat apply ok_or_corrupt_if;
    auto with ktann; apply IH; simpl; lia.
Qed.
Lemma check_string_total rest seg decoded offset :
  ok_or_corrupt (check_string_loop rest seg decoded offset).
Proof.
  revert seg decoded offset. induction rest as [rest IH] using list_len_ind.
  intros seg decoded offset. destruct rest as [|b t]; cbn [check_string_loop]; [by right|].
  apply ok_or_corrupt_if; [apply ok_or_corrupt_if; [destruct t as [|tag t]|]|];
    repeat apply ok_or_corrupt_if; auto with ktann; apply IH; simpl; lia.
Qed.
#[export] Hint Resolve take_array_total scan_total check_string_total : ktann.

Lemma decode_scalar_total ty bytes : ok_or_corrupt (decode_scalar ty bytes).
Proof.
  destruct ty; cbn [decode_scalar].
  - destruct bytes; auto with ktann.
  - apply ok_or_corrupt_bind; auto with ktann.
  - apply ok_or_corrupt_bind; auto with ktann.
  - apply ok_or_corrupt_bind; [apply scan_total|].
    intros r (s & tail & -> & _ & ->)%scan_spec; [|done].
    rewrite decode_escaped_spec. simpl. auto with ktann.
Qed.
Lemma check_scalar_total ty bytes : ok_or_corrupt (check_scalar ty bytes).
Proof.
  destruct ty; cbn [check_scalar].
  - destruct bytes; auto with ktann.
  - apply ok_or_corrupt_bind; auto with ktann.
  - apply ok_or_corrupt_bind; [apply decode_scalar_total|]. intros []; auto with ktann.
  - apply check_string_total.
Qed.

Lemma check_fields_loop_total types bytes offset :
  bytes_ok bytes → 0 ≤ offset ≤ len bytes → ok_or_corrupt (check_fields_loop types bytes offset).
Proof.
  intros Hok. revert offset. induction types as [|ty types IH]; intros offset Hoff; simpl.
  { auto with ktann. }
  unfold slice_from, get_from. rewrite (proj2 (Z.leb_le _ _)) by lia. simpl.
  assert (bytes_ok (zdrop offset bytes)) as Hrest by auto with ktann.
  apply ok_or_corrupt_bind; [apply check_scalar_total|].
  intros c (v & H)%check_scalar_spec; [|done]. apply scalar_consumed in H; [|done].
  rewrite len_zdrop in H by lia. apply IH. lia.
Qed.
Lemma decode_fields_loop_total types bytes offset :
  bytes_ok bytes → 0 ≤ offset ≤ len bytes → ok_or_corrupt (decode_fields_loop types bytes offset).
Proof.
  intros Hok. revert offset. induction types as [|ty types IH]; intros offset Hoff; simpl.
  { auto with ktann. }
  unfold slice_from, get_from. rewrite (proj2 (Z.leb_le _ _)) by lia. simpl.
  assert (bytes_ok (zdrop offset bytes)) as Hrest by auto with ktann.
  apply ok_or_corrupt_bind; [apply decode_scalar_total|].
  intros [v c] H. apply scalar_consumed in H; [|done]. rewrite len_zdrop in H by lia.
  apply ok_or_corrupt_bind; [apply IH; lia|]. intros []; auto with ktann.
Qed.

(** ** Prefix-freeness and order *)

Lemma escape_compare s t x y :
  bytes_ok s → bytes_ok t →
  lex_cmp (escape s ++ terminator ++ x) (escape t ++ terminator ++ y) =
  match lex_cmp s t with Eq => lex_cmp x y | c => c end.
Proof.
  revert t. induction s as [|a s IH]; intros [|b t] Hs Ht; simpl; try done.
  - apply bytes_ok_cons in Ht as [[??] _].
    destruct (Z.eqb_spec b 0) as [->|]; simpl; [done|].
    by destruct b.
  - apply bytes_ok_cons in Hs as [[??] _].
    destruct (Z.eqb_spec a 0) as [->|]; simpl; [done|].
    by destruct a.
  - apply bytes_ok_cons in Hs as [[??] Hs]. apply bytes_ok_cons in Ht as [[??] Ht].
    destruct (Z.eqb_spec a 0) as [->|], (Z.eqb_spec b 0) as [->|]; simpl.
    + by apply IH.
    + by destruct b.
    + by destruct a.
    + destruct (a ?= b); try done. by apply IH.
Qed.

(** The bytes of one scalar, followed by anything, compare like the values. *)
Lemma scalar_compare ty a b x y :
  field_ok ty a → field_ok ty b →
  Some (lex_cmp (scalar_bytes a ++ x) (scalar_bytes b ++ y)) =
  match typed_order a b with Some Eq => Some (lex_cmp x y) | c => c end.
Proof.
  intros [Ha Ta] [Hb Tb]. destruct ty, a, b; try done; cbn [value_ok scalar_bytes typed_order] in *.
  - by destruct value, value0.
  - rewrite lex_cmp_app_len by by rewrite !be_bytes_length.
    rewrite !i64_encoded_spec by done. unfold i64_ok in *.
    rewrite be_bytes_compare by (simpl; lia).
    rewrite !(Z.add_comm _ (2 ^ 63)), Z.add_compare_mono_l. by destruct (_ ?= _).
  - pose proof Ta as [-> _]%andb_true_iff. pose proof Tb as [-> _]%andb_true_iff.
    cbn [andb]. rewrite lex_cmp_app_len by by rewrite !be_bytes_length.
    rewrite be_bytes_compare, f64_encoded_compare by (done || by apply f64_encoded_ok).
    by destruct (F64.cmp _ _).
  - rewrite <-!app_assoc, escape_compare by (apply Ha || apply Hb). by destruct (lex_cmp _ _).
Qed.

(** Tuple order of two field sequences: the first difference decides. *)
Fixpoint tuple_order (a b : list Value.t) : option comparison :=
  match a, b with
  | [], [] => Some Eq
  | x :: a, y :: b =>
      match typed_order x y with Some Eq => tuple_order a b | c => c end
  | _, _ => None
  end.

Lemma fields_compare types a b x y :
  fields_ok types a → fields_ok types b →
  Some (lex_cmp (fields_bytes a ++ x) (fields_bytes b ++ y)) =
  match tuple_order a b with Some Eq => Some (lex_cmp x y) | c => c end.
Proof.
  intros Ha. revert b. induction Ha as [|ty va types a Hva Ha IH]; intros b Hb.
  - by apply Forall2_nil_inv_l in Hb as ->.
  - apply Forall2_cons_inv_l in Hb as (vb & b' & Hvb & Hb & ->).
    rewrite !fields_bytes_cons, <-!app_assoc, (scalar_compare ty) by done. simpl.
    destruct (typed_order va vb) as [[]|]; auto.
Qed.

(** Field encodings are self-delimiting: equal bytes split equally. *)
Lemma fields_bytes_inj types a b x y :
  fields_ok types a → fields_ok types b →
  fields_bytes a ++ x = fields_bytes b ++ y → a = b ∧ x = y.
Proof.
  intros Ha. revert b. induction Ha as [|ty va types a [Hva Ta] Ha IH]; intros b Hb E.
  - apply Forall2_nil_inv_l in Hb as ->. done.
  - apply Forall2_cons_inv_l in Hb as (vb & b' & [Hvb Tb] & Hb & ->).
    rewrite !fields_bytes_cons, <-!app_assoc in E.
    pose proof (scalar_compare ty va vb (fields_bytes a ++ x) (fields_bytes b' ++ y)) as Hc.
    rewrite E, lex_cmp_refl in Hc. specialize (Hc (conj Hva Ta) (conj Hvb Tb)).
    destruct (typed_order va vb) as [[]|] eqn:Ho; try done.
    apply (typed_order_eq ty) in Ho as <-; try done.
    apply app_inv_head in E. destruct (IH b' Hb E) as [-> ->]. done.
Qed.

(** The bytes of a leading field sequence prefix exactly the keys that start
    with those fields. *)
Lemma fields_prefix types vs pre :
  fields_ok types vs → fields_ok (take (length pre) types) pre →
  fields_bytes pre `prefix_of` fields_bytes vs ↔ pre `prefix_of` vs.
Proof.
  intros Hv Hp. split.
  - intros [k E]. assert (length pre ≤ length types)%nat as Hl.
    { apply Forall2_length in Hp. rewrite length_take in Hp. lia. }
    assert (length types = length vs) as Hlv by by eapply Forall2_length.
    rewrite <-(take_drop (length pre) vs) in E.
    assert (∀ a b, fields_bytes (a ++ b) = fields_bytes a ++ fields_bytes b) as Happ.
    { intros a b. unfold fields_bytes. by rewrite fmap_app, concat_app. }
    rewrite Happ in E.
    destruct (fields_bytes_inj (take (length pre) types) (take (length pre) vs) pre
      (fields_bytes (drop (length pre) vs)) k) as [<- _]; try done.
    + by apply Forall2_take.
    + exists (drop (length pre) vs). by rewrite take_drop.
  - intros [k ->]. exists (fields_bytes k). unfold fields_bytes. by rewrite fmap_app, concat_app.
Qed.

(** ** Properties *)

Lemma TreeKey_encode_spec types values key :
  TreeKey_encode types values = Ok key ↔
  Forall2 (λ ty v, typed_value ty v = true) types values ∧ key = fields_bytes values ∧
  len key ≤ MAX_TREE_KEY_BYTES.
Proof.
  unfold TreeKey_encode. rewrite bind_ok. setoid_rewrite append_fields_spec. simpl. split.
  - intros (k & [Ht ->] & H). inv_ok. bprop. done.
  - intros (Ht & -> & Hl). exists (fields_bytes values). split; [done|].
    by rewrite (proj2 (Z.ltb_ge _ _)).
Qed.

Lemma fields_ok_split types values :
  fields_ok types values ↔
  Forall value_ok values ∧ Forall2 (λ ty v, typed_value ty v = true) types values.
Proof.
  unfold fields_ok, field_ok. split.
  - induction 1 as [|ty v types vs [??] _ [??]]; split; constructor; auto.
  - intros [Hv Ht]. induction Ht; inversion Hv; constructor; auto.
Qed.

Lemma decode_complete_spec types key values :
  bytes_ok key →
  decode_complete types key = Ok values ↔
  fields_ok types values ∧ key = fields_bytes values ∧ len key ≤ MAX_TREE_KEY_BYTES.
Proof.
  intros Hok. unfold decode_complete, decode_fields. split.
  - intros H. inv_ok. pose proof (len_nonneg key).
    apply decode_fields_loop_spec in H as [Hf (tail & E & ->)]; [|done|lia]. bprop.
    split; [done|]. change (zdrop 0 key) with key in E.
    split; [|done]. rewrite E in Heqb. len. assert (len tail = 0) by lia.
    destruct tail; [by rewrite app_nil_r in E|]. len. pose proof (len_nonneg tail). lia.
  - intros (Hf & -> & Hl). rewrite (proj2 (Z.ltb_ge _ _)) by done.
    pose proof (len_nonneg (fields_bytes values)).
    rewrite (proj2 (decode_fields_loop_spec types _ 0 values (len (fields_bytes values)) Hok
      ltac:(lia))).
    + simpl. by rewrite Z.eqb_refl.
    + split; [done|]. exists []. by rewrite app_nil_r.
Qed.

(** C32: Tree Keys round-trip and are canonical: decoding a complete key under
    its types yields a field sequence exactly when encoding that (well-formed)
    sequence yields the same bytes. *)
Theorem tree_key_roundtrip types key values :
  bytes_ok key →
  TreeKey_values key types = Ok values ↔
  Forall value_ok values ∧ TreeKey_encode types values = Ok key.
Proof.
  intros Hok. unfold TreeKey_values. rewrite decode_complete_spec by done.
  rewrite TreeKey_encode_spec, fields_ok_split. naive_solver.
Qed.

Lemma tree_key_roundtrip_witness :
  let types := [DataType.String; DataType.I64; DataType.F64; DataType.Bool] in
  let values := [Value.String [97; 0; 98]; Value.I64 (-7); Value.F64 0xC000000000000000;
                 Value.Bool true] in
  TreeKey_values (fields_bytes values) types = Ok values.
Proof.
  apply tree_key_roundtrip; [dec_compute|]. split; [dec_compute|vm_compute; reflexivity].
Defined.

(** C18: Byte order of encoded Tree Keys is the typed tuple order of their
    fields, so range scans over keys are range scans over field values. *)
Theorem tree_key_order types a b ka kb :
  Forall value_ok a → Forall value_ok b →
  TreeKey_encode types a = Ok ka → TreeKey_encode types b = Ok kb →
  tuple_order a b = Some (lex_cmp ka kb).
Proof.
  intros Ha Hb (Ta & -> & _)%TreeKey_encode_spec (Tb & -> & _)%TreeKey_encode_spec.
  pose proof (fields_compare types a b [] []
    (proj2 (fields_ok_split _ _) (conj Ha Ta)) (proj2 (fields_ok_split _ _) (conj Hb Tb))) as H.
  rewrite !app_nil_r in H. rewrite H. by destruct (tuple_order a b) as [[]|].
Qed.

Lemma tree_key_order_witness :
  tuple_order [Value.String [97]; Value.I64 (-3)] [Value.String [97]; Value.I64 2] = Some Lt.
Proof.
  rewrite (tree_key_order [DataType.String; DataType.I64]
    [Value.String [97]; Value.I64 (-3)] [Value.String [97]; Value.I64 2]
    [97; 0; 0; 127; 255; 255; 255; 255; 255; 255; 253]
    [97; 0; 0; 128; 0; 0; 0; 0; 0; 0; 2]); [reflexivity|..].
  3-4: vm_compute; reflexivity.
  all: dec_compute.
Defined.

Lemma check_complete_decodes types key :
  bytes_ok key →
  check_complete types key = Ok tt ↔ ∃ values, decode_complete types key = Ok values.
Proof.
  intros Hok. unfold check_complete, decode_complete, check_fields, decode_fields.
  pose proof (len_nonneg key). pose proof (check_fields_loop_spec types key 0) as Hspec. split.
  - intros Hc. inv_ok. bprop. rename select (check_fields_loop _ _ _ = _) into Hc.
    apply Hspec in Hc as (vs & E); [|done|lia].
    rewrite (proj2 (Z.ltb_ge _ _)), E by lia. simpl. subst. rewrite Z.eqb_refl. eauto.
  - intros (vs & Hd). inv_ok. bprop. subst. rename select (decode_fields_loop _ _ _ = _) into Hd.
    rewrite (proj2 (Hspec _ Hok ltac:(lia)) (ex_intro _ _ Hd)). simpl.
    rewrite (proj2 (Z.ltb_ge _ _)) by lia. simpl. by rewrite Z.eqb_refl.
Qed.

Lemma check_complete_total types key :
  bytes_ok key → ok_or_corrupt (check_complete types key).
Proof.
  intros Hok. pose proof (len_nonneg key).
  repeat (apply ok_or_corrupt_bind; [|intros ? _]); auto with ktann.
  apply check_fields_loop_total; [done|lia].
Qed.
Lemma decode_complete_total types key :
  bytes_ok key → ok_or_corrupt (decode_complete types key).
Proof.
  intros Hok. pose proof (len_nonneg key).
  apply ok_or_corrupt_bind; [|intros []; auto with ktann].
  apply ok_or_corrupt_if; [by right|]. apply decode_fields_loop_total; [done|lia].
Qed.

(** The allocation-free validator agrees with the decoder: a complete key
    validates exactly when it decodes, and both fail closed with [Corruption]
    (never a panic) otherwise. *)
Lemma tree_key_validate_decodes types key :
  bytes_ok key →
  (TreeKey_validate key types = Ok tt ↔ ∃ values, TreeKey_values key types = Ok values) ∧
  ok_or_corrupt (TreeKey_validate key types) ∧ ok_or_corrupt (TreeKey_values key types).
Proof.
  intros Hok. split_and!; [by apply check_complete_decodes|by apply check_complete_total|].
  by apply decode_complete_total.
Qed.

(** Sharing a Tree Key prefix of a longer buffer: the consumed bytes are the
    unique canonical encoding at its front. *)
Lemma check_fields_spec types bytes c :
  bytes_ok bytes →
  check_fields types bytes = Ok c ↔
  ∃ vs tail, fields_ok types vs ∧ bytes = fields_bytes vs ++ tail ∧
    c = len (fields_bytes vs) ∧ c ≤ MAX_TREE_KEY_BYTES.
Proof.
  intros Hok. unfold check_fields. pose proof (len_nonneg bytes).
  assert (0 ≤ 0 ≤ len bytes) as H0 by lia. split.
  - intros Hc. inv_ok. bprop. rename select (check_fields_loop _ _ _ = _) into Hc.
    apply check_fields_loop_spec in Hc as (vs & Hd); [|done..].
    apply decode_fields_loop_spec in Hd as [Hf (tail & E & ->)]; [|done..].
    exists vs, tail. change (zdrop 0 bytes) with bytes in E. naive_solver.
  - intros (vs & tail & Hf & E & -> & Hm).
    rewrite (proj2 (check_fields_loop_spec types bytes 0 (len (fields_bytes vs)) Hok H0)).
    + simpl. by rewrite (proj2 (Z.ltb_ge _ _)).
    + exists vs. apply decode_fields_loop_spec; [done..|]. split; [done|]. by exists tail.
Qed.

(** A validated Tree Key: the bytes of a typed field sequence within the cap. *)
Definition tree_key_ok (types : list DataType.t) (key : list Z) : Prop :=
  ∃ vs, fields_ok types vs ∧ key = fields_bytes vs ∧ len key ≤ MAX_TREE_KEY_BYTES.

Lemma tree_key_ok_bytes types key : tree_key_ok types key → bytes_ok key.
Proof. intros (vs & Hf & -> & _). by eapply fields_bytes_ok. Qed.
#[export] Hint Resolve tree_key_ok_bytes : ktann.

Lemma from_prefix_spec types bytes key c :
  bytes_ok bytes →
  TreeKey_from_prefix types bytes = Ok (key, c) ↔
  tree_key_ok types key ∧ c = len key ∧ ∃ tail, bytes = key ++ tail.
Proof.
  intros Hok. unfold TreeKey_from_prefix. rewrite bind_ok.
  setoid_rewrite (check_fields_spec types bytes _ Hok). split.
  - intros (c' & (vs & tail & Hf & E & -> & Hl) & [= <- <-]).
    rewrite E, ztake_app. split; [by exists vs|]. split; [done|]. by exists tail.
  - intros ((vs & Hf & -> & Hl) & -> & tail & ->). exists (len (fields_bytes vs)).
    split; [by exists vs, tail|]. by rewrite ztake_app.
Qed.

Lemma check_complete_spec types key :
  bytes_ok key → check_complete types key = Ok tt ↔ tree_key_ok types key.
Proof.
  intros Hok. unfold tree_key_ok.
  rewrite check_complete_decodes by done.
  by setoid_rewrite (decode_complete_spec types key _ Hok).
Qed.

Lemma from_encoded_spec types bytes key :
  bytes_ok bytes →
  TreeKey_from_encoded types bytes = Ok key ↔ tree_key_ok types key ∧ key = bytes.
Proof.
  intros Hok. unfold TreeKey_from_encoded. split.
  - intros H. inv_ok. destruct x. by apply check_complete_spec in H.
  - intros [H ->]. by rewrite (proj2 (check_complete_spec _ _ Hok) H).
Qed.

(** Two validated Tree Keys of one schema are never proper prefixes. *)
Lemma tree_key_prefix_free types a b x y :
  tree_key_ok types a → tree_key_ok types b → a ++ x = b ++ y → a = b ∧ x = y.
Proof.
  intros (va & Ha & -> & _) (vb & Hb & -> & _) E.
  by destruct (fields_bytes_inj _ _ _ _ _ Ha Hb E) as [-> ->].
Qed.

Lemma from_prefix_total types bytes :
  bytes_ok bytes → ok_or_corrupt (TreeKey_from_prefix types bytes).
Proof.
  intros Hok. pose proof (len_nonneg bytes). unfold TreeKey_from_prefix, check_fields.
  repeat (apply ok_or_corrupt_bind; [|intros ? _]); auto with ktann.
  apply check_fields_loop_total; [done|lia].
Qed.
Lemma from_encoded_total types bytes :
  bytes_ok bytes → ok_or_corrupt (TreeKey_from_encoded types bytes).
Proof.
  intros Hok. apply ok_or_corrupt_bind; [|auto with ktann].
  by apply check_complete_total.
Qed.
