(* ===== verification/Keys.v ===== *)
(** The logical keyspace (src/storage/keys.rs): typed keys, their canonical
    byte encoding and decoding, and the contiguous ranges built over them. *)
From S2P Require Import Prelude RustStd Api TreeKey.

Definition LOGICAL_INDEX_ID_BYTES : Z := 8.
Definition PARTITION_KEY_BYTES : Z := 8.
Definition MAX_RECORD_ID_BYTES : Z := 256.

Definition SCOPE_NAMESPACE : Z := 0x00.
Definition SCOPE_INDEX : Z := 0x01.
Definition NS_INDEX_ID_ALLOCATOR : Z := 0x00.
Definition NS_INDEX_NAME_DIRECTORY : Z := 0x01.
Definition NS_BUILD_WORKSPACE : Z := 0x02.
Definition NS_BUILD_SCHEDULE : Z := 0x03.
Definition KIND_MANIFEST : Z := 0x00.
Definition KIND_RECORD_GROUP : Z := 0x01.
Definition KIND_TREE_MANIFEST : Z := 0x03.
Definition KIND_PARTITION : Z := 0x04.
Definition KIND_BUILD_DESCRIPTOR : Z := 0x05.
Definition KIND_BUILD_LOAD : Z := 0x06.
Definition KIND_BUILD_VALIDATION : Z := 0x07.
Definition RECORD_VALUE : Z := 0x00.
Definition RECORD_LOCATION : Z := 0x01.
Definition RECORD_PAYLOAD : Z := 0x02.
Definition SUB_HEADER : Z := 0x00.
Definition SUB_SYNOPSIS : Z := 0x01.
Definition SUB_STATE : Z := 0x02.
Definition SUB_CENTROID : Z := 0x03.
Definition SUB_LEAF_ENTRY : Z := 0x04.
Definition SUB_CHILD_ENTRY : Z := 0x05.
Definition SUB_GRAPH_DESCRIPTOR : Z := 0x06.
Definition SUB_GRAPH_CHUNK : Z := 0x07.

(** ** Typed keys *)
Module LogicalKey.
Inductive t :=
  | IndexIdAllocator
  | IndexNameDirectory (name : list Z)
  | Manifest (index : Z)
  | BuildDescriptor (index : Z)
  | BuildLoad (index : Z)
  | BuildWorkspace (index : Z)
  | BuildSchedule (index : Z)
  | BuildValidation (index : Z)
  | Record (index : Z) (id : list Z)
  | Location (index : Z) (id : list Z)
  | Payload (index : Z) (id : list Z)
  | TreeManifest (index : Z) (tree_key : list Z)
  | Header (index : Z) (tree_key : list Z) (partition : Z)
  | Synopsis (index : Z) (tree_key : list Z) (partition : Z)
  | State (index : Z) (tree_key : list Z) (partition : Z)
  | Centroid (index : Z) (tree_key : list Z) (partition : Z)
  | LeafEntry (index : Z) (tree_key : list Z) (partition : Z) (id : list Z)
  | GraphDescriptor (index : Z) (tree_key : list Z) (partition : Z)
  | GraphChunk (index : Z) (tree_key : list Z) (partition : Z) (chunk : Z)
  | ChildEntry (index : Z) (tree_key : list Z) (partition : Z) (child : Z).
#[export] Instance eq_dec : EqDecision t.
Proof. solve_decision. Defined.
End LogicalKey.
Export (hints) LogicalKey.

(** [LogicalKey::index]. *)
Definition LogicalKey_index (k : LogicalKey.t) : option Z :=
  match k with
  | LogicalKey.IndexIdAllocator | LogicalKey.IndexNameDirectory _
  | LogicalKey.BuildWorkspace _ | LogicalKey.BuildSchedule _ => None
  | LogicalKey.Manifest index | LogicalKey.BuildDescriptor index
  | LogicalKey.BuildLoad index | LogicalKey.BuildValidation index => Some index
  | LogicalKey.Record index _ | LogicalKey.Location index _ | LogicalKey.Payload index _
  | LogicalKey.TreeManifest index _ | LogicalKey.Header index _ _
  | LogicalKey.Synopsis index _ _ | LogicalKey.State index _ _
  | LogicalKey.Centroid index _ _ | LogicalKey.LeafEntry index _ _ _
  | LogicalKey.GraphDescriptor index _ _ | LogicalKey.GraphChunk index _ _ _
  | LogicalKey.ChildEntry index _ _ _ => Some index
  end.

(** [LogicalKey::tree_key]. *)
Definition LogicalKey_tree_key (k : LogicalKey.t) : option (list Z) :=
  match k with
  | LogicalKey.TreeManifest _ tree_key | LogicalKey.Header _ tree_key _
  | LogicalKey.Synopsis _ tree_key _ | LogicalKey.State _ tree_key _
  | LogicalKey.Centroid _ tree_key _ | LogicalKey.LeafEntry _ tree_key _ _
  | LogicalKey.GraphDescriptor _ tree_key _ | LogicalKey.GraphChunk _ tree_key _ _
  | LogicalKey.ChildEntry _ tree_key _ _ => Some tree_key
  | _ => None
  end.

(** ** Encoding *)
Definition check_record_id (id : list Z) : result unit :=
  if (len id =? 0) || (MAX_RECORD_ID_BYTES <? len id) then Err InvalidArgument else Ok tt.

Definition index_prefix (index : Z) : list Z := SCOPE_INDEX :: be_bytes 8 index.
Definition partition_prefix (index : Z) (tree_key : list Z) (partition : Z) : list Z :=
  (index_prefix index ++ [KIND_PARTITION]) ++ tree_key ++ be_bytes 8 partition.

Definition index_id_allocator_key : list Z := [SCOPE_NAMESPACE; NS_INDEX_ID_ALLOCATOR].
Definition name_directory_key (name : list Z) : list Z :=
  SCOPE_NAMESPACE :: NS_INDEX_NAME_DIRECTORY :: name.
Definition manifest_key (index : Z) : list Z := index_prefix index ++ [KIND_MANIFEST].
Definition build_descriptor_key (index : Z) : list Z :=
  index_prefix index ++ [KIND_BUILD_DESCRIPTOR].
Definition build_load_key (index : Z) : list Z := index_prefix index ++ [KIND_BUILD_LOAD].
Definition build_workspace_key (index : Z) : list Z :=
  SCOPE_NAMESPACE :: NS_BUILD_WORKSPACE :: be_bytes 8 index.
Definition build_schedule_key (index : Z) : list Z :=
  SCOPE_NAMESPACE :: NS_BUILD_SCHEDULE :: be_bytes 8 index.
Definition build_validation_key (index : Z) : list Z :=
  index_prefix index ++ [KIND_BUILD_VALIDATION].

Definition record_group_prefix (index : Z) (id : list Z) : result (list Z) :=
  check_record_id id ≫= λ _,
  Ok (push_escaped_terminated (index_prefix index ++ [KIND_RECORD_GROUP]) id).
Definition record_key (index : Z) (id : list Z) : result (list Z) :=
  record_group_prefix index id ≫= λ bytes, Ok (bytes ++ [RECORD_VALUE]).
Definition location_key (index : Z) (id : list Z) : result (list Z) :=
  record_group_prefix index id ≫= λ bytes, Ok (bytes ++ [RECORD_LOCATION]).
Definition payload_key (index : Z) (id : list Z) : result (list Z) :=
  record_group_prefix index id ≫= λ bytes, Ok (bytes ++ [RECORD_PAYLOAD]).
Definition maximum_location_key_len : Z :=
  1 + LOGICAL_INDEX_ID_BYTES + 1 + (2 * MAX_RECORD_ID_BYTES + 2) + 1.

Definition tree_manifest_key (index : Z) (tree_key : list Z) : list Z :=
  (index_prefix index ++ [KIND_TREE_MANIFEST]) ++ tree_key.
Definition header_key (index : Z) (tree_key : list Z) (partition : Z) : list Z :=
  partition_prefix index tree_key partition ++ [SUB_HEADER].
Definition synopsis_key (index : Z) (tree_key : list Z) (partition : Z) : list Z :=
  partition_prefix index tree_key partition ++ [SUB_SYNOPSIS].
Definition partition_metadata_key_len (tree_key : list Z) : Z :=
  1 + LOGICAL_INDEX_ID_BYTES + 1 + len tree_key + PARTITION_KEY_BYTES + 1.
Definition state_key (index : Z) (tree_key : list Z) (partition : Z) : list Z :=
  partition_prefix index tree_key partition ++ [SUB_STATE].
Definition centroid_key (index : Z) (tree_key : list Z) (partition : Z) : list Z :=
  partition_prefix index tree_key partition ++ [SUB_CENTROID].
Definition graph_descriptor_key (index : Z) (tree_key : list Z) (partition : Z) : list Z :=
  partition_prefix index tree_key partition ++ [SUB_GRAPH_DESCRIPTOR].
Definition graph_chunk_key (index : Z) (tree_key : list Z) (partition chunk : Z) : list Z :=
  partition_prefix index tree_key partition ++ SUB_GRAPH_CHUNK :: be_bytes 4 chunk.
Definition leaf_entry_key (index : Z) (tree_key : list Z) (partition : Z) (id : list Z)
    : result (list Z) :=
  check_record_id id ≫= λ _,
  Ok (partition_prefix index tree_key partition ++ SUB_LEAF_ENTRY :: id).
Definition maximum_leaf_entry_key_len (tree_key : list Z) : Z :=
  partition_metadata_key_len tree_key + MAX_RECORD_ID_BYTES.
Definition child_entry_key (index : Z) (tree_key : list Z) (partition child : Z) : list Z :=
  partition_prefix index tree_key partition ++ SUB_CHILD_ENTRY :: be_bytes 8 child.

Definition encode_key (key : LogicalKey.t) : result (list Z) :=
  match key with
  | LogicalKey.IndexIdAllocator => Ok index_id_allocator_key
  | LogicalKey.IndexNameDirectory name => Ok (name_directory_key name)
  | LogicalKey.Manifest index => Ok (manifest_key index)
  | LogicalKey.BuildDescriptor index => Ok (build_descriptor_key index)
  | LogicalKey.BuildLoad index => Ok (build_load_key index)
  | LogicalKey.BuildWorkspace index => Ok (build_workspace_key index)
  | LogicalKey.BuildSchedule index => Ok (build_schedule_key index)
  | LogicalKey.BuildValidation index => Ok (build_validation_key index)
  | LogicalKey.Record index id => record_key index id
  | LogicalKey.Location index id => location_key index id
  | LogicalKey.Payload index id => payload_key index id
  | LogicalKey.TreeManifest index tree_key => Ok (tree_manifest_key index tree_key)
  | LogicalKey.Header index tree_key partition => Ok (header_key index tree_key partition)
  | LogicalKey.Synopsis index tree_key partition => Ok (synopsis_key index tree_key partition)
  | LogicalKey.State index tree_key partition => Ok (state_key index tree_key partition)
  | LogicalKey.Centroid index tree_key partition => Ok (centroid_key index tree_key partition)
  | LogicalKey.LeafEntry index tree_key partition id =>
      leaf_entry_key index tree_key partition id
  | LogicalKey.GraphDescriptor index tree_key partition =>
      Ok (graph_descriptor_key index tree_key partition)
  | LogicalKey.GraphChunk index tree_key partition chunk =>
      Ok (graph_chunk_key index tree_key partition chunk)
  | LogicalKey.ChildEntry index tree_key partition child =>
      Ok (child_entry_key index tree_key partition child)
  end.

(** ** Decoding *)
Abbreviation corrupt := (Err Corruption).

Definition decode_name (bytes : list Z) : result (list Z) :=
  if utf8_valid bytes then map_err Corruption (IndexName_new bytes) else corrupt.

(** [LogicalIndexId::new(u64::from_be_bytes(raw)).map_err(|_| corrupt())]. *)
Definition index_from_be (raw : list Z) : result Z :=
  map_err Corruption (LogicalIndexId_new (be_value raw)).
Definition partition_from_be (raw : list Z) : result Z :=
  map_err Corruption (PartitionKey_new (be_value raw)).

Definition decode_namespace_key (body : list Z) : result LogicalKey.t :=
  match body with
  | tag :: rest =>
      if (tag =? NS_INDEX_ID_ALLOCATOR) && (len body =? 1) then Ok LogicalKey.IndexIdAllocator
      else if (tag =? NS_BUILD_WORKSPACE) && (len body =? 9) then
        index_from_be rest ≫= λ index, Ok (LogicalKey.BuildWorkspace index)
      else if (tag =? NS_BUILD_SCHEDULE) && (len body =? 9) then
        index_from_be rest ≫= λ index, Ok (LogicalKey.BuildSchedule index)
      else if tag =? NS_INDEX_NAME_DIRECTORY then
        decode_name rest ≫= λ name, Ok (LogicalKey.IndexNameDirectory name)
      else corrupt
  | [] => corrupt
  end.

Definition slice_terminal_record_id (key : list Z) (offset : Z) : result (list Z) :=
  ok_or Corruption (get_from offset key) ≫= λ id,
  if (len id =? 0) || (MAX_RECORD_ID_BYTES <? len id) then corrupt else slice_from offset key.

Definition decode_record_group (index : Z) (key : list Z) (offset : Z) : result LogicalKey.t :=
  ok_or Corruption (get_from offset key) ≫= λ body,
  scan_escaped_terminated body MAX_RECORD_ID_BYTES ≫= λ scan,
  (if escaped scan then decode_escaped_terminated body scan
   else slice_from offset key ≫= λ rest, Ok (ztake (decoded_len scan) rest)) ≫= λ id,
  if len id =? 0 then corrupt
  else match get_from (offset + consumed scan) key with
  | Some [tag] =>
      if tag =? RECORD_VALUE then Ok (LogicalKey.Record index id)
      else if tag =? RECORD_LOCATION then Ok (LogicalKey.Location index id)
      else if tag =? RECORD_PAYLOAD then Ok (LogicalKey.Payload index id)
      else corrupt
  | _ => corrupt
  end.

Definition decode_partition_key (types : list DataType.t) (index : Z) (key : list Z) (offset : Z)
    : result LogicalKey.t :=
  slice_from offset key ≫= λ rest,
  TreeKey_from_prefix types rest ≫= λ '(tree_key, tree_key_len),
  slice_from tree_key_len rest ≫= λ after,
  take_array 8 after ≫= λ raw,
  partition_from_be raw ≫= λ partition,
  ok_or Corruption (after !! Z.to_nat PARTITION_KEY_BYTES) ≫= λ subkind,
  let terminal_offset := offset + tree_key_len + PARTITION_KEY_BYTES + 1 in
  ok_or Corruption (get_from terminal_offset key) ≫= λ terminal,
  if (subkind =? SUB_HEADER) && (len terminal =? 0) then
    Ok (LogicalKey.Header index tree_key partition)
  else if (subkind =? SUB_SYNOPSIS) && (len terminal =? 0) then
    Ok (LogicalKey.Synopsis index tree_key partition)
  else if (subkind =? SUB_STATE) && (len terminal =? 0) then
    Ok (LogicalKey.State index tree_key partition)
  else if (subkind =? SUB_GRAPH_DESCRIPTOR) && (len terminal =? 0) then
    Ok (LogicalKey.GraphDescriptor index tree_key partition)
  else if (subkind =? SUB_GRAPH_CHUNK) && (len terminal =? 4) then
    Ok (LogicalKey.GraphChunk index tree_key partition (be_value terminal))
  else if (subkind =? SUB_CENTROID) && (len terminal =? 0) then
    Ok (LogicalKey.Centroid index tree_key partition)
  else if subkind =? SUB_LEAF_ENTRY then
    slice_terminal_record_id key terminal_offset ≫= λ id,
    Ok (LogicalKey.LeafEntry index tree_key partition id)
  else if subkind =? SUB_CHILD_ENTRY then
    take_array 8 terminal ≫= λ raw,
    partition_from_be raw ≫= λ child,
    if negb (len terminal =? PARTITION_KEY_BYTES) then corrupt
    else Ok (LogicalKey.ChildEntry index tree_key partition child)
  else corrupt.

Definition decode_index_key (types : list DataType.t) (key : list Z) (offset : Z)
    : result LogicalKey.t :=
  slice_from offset key ≫= λ body,
  take_array 8 body ≫= λ raw,
  index_from_be raw ≫= λ index,
  ok_or Corruption (body !! Z.to_nat LOGICAL_INDEX_ID_BYTES) ≫= λ kind,
  let rest := offset + LOGICAL_INDEX_ID_BYTES + 1 in
  let bare := len body =? LOGICAL_INDEX_ID_BYTES + 1 in
  if (kind =? KIND_BUILD_VALIDATION) && bare then Ok (LogicalKey.BuildValidation index)
  else if (kind =? KIND_BUILD_LOAD) && bare then Ok (LogicalKey.BuildLoad index)
  else if (kind =? KIND_BUILD_DESCRIPTOR) && bare then Ok (LogicalKey.BuildDescriptor index)
  else if (kind =? KIND_MANIFEST) && bare then Ok (LogicalKey.Manifest index)
  else if kind =? KIND_RECORD_GROUP then decode_record_group index key rest
  else if kind =? KIND_TREE_MANIFEST then
    slice_from rest key ≫= λ bytes,
    TreeKey_from_encoded types bytes ≫= λ tree_key,
    Ok (LogicalKey.TreeManifest index tree_key)
  else if kind =? KIND_PARTITION then decode_partition_key types index key rest
  else corrupt.

Definition decode_key (types : list DataType.t) (key : list Z) : result LogicalKey.t :=
  match key with
  | [] => corrupt
  | scope :: _ =>
      if scope =? SCOPE_NAMESPACE then slice_from 1 key ≫= decode_namespace_key
      else if scope =? SCOPE_INDEX then decode_index_key types key 1
      else corrupt
  end.

(** ** Well-formed keys *)
Definition record_id_ok (id : list Z) : Prop := bytes_ok id ∧ 0 < len id ≤ MAX_RECORD_ID_BYTES.

(** The invariants a [LogicalKey] value carries by its Rust types (nonzero ids,
    valid names, Tree Keys validated under the index's [types]). *)
Definition key_ok (types : list DataType.t) (k : LogicalKey.t) : Prop :=
  match k with
  | LogicalKey.IndexIdAllocator => True
  | LogicalKey.IndexNameDirectory name => index_name_ok name
  | LogicalKey.Manifest i | LogicalKey.BuildDescriptor i | LogicalKey.BuildLoad i
  | LogicalKey.BuildWorkspace i | LogicalKey.BuildSchedule i
  | LogicalKey.BuildValidation i => id_ok i
  | LogicalKey.Record i id | LogicalKey.Location i id | LogicalKey.Payload i id =>
      id_ok i ∧ record_id_ok id
  | LogicalKey.TreeManifest i tk => id_ok i ∧ tree_key_ok types tk
  | LogicalKey.Header i tk p | LogicalKey.Synopsis i tk p | LogicalKey.State i tk p
  | LogicalKey.Centroid i tk p | LogicalKey.GraphDescriptor i tk p =>
      id_ok i ∧ tree_key_ok types tk ∧ id_ok p
  | LogicalKey.LeafEntry i tk p id =>
      id_ok i ∧ tree_key_ok types tk ∧ id_ok p ∧ record_id_ok id
  | LogicalKey.GraphChunk i tk p chunk =>
      id_ok i ∧ tree_key_ok types tk ∧ id_ok p ∧ u32_ok chunk
  | LogicalKey.ChildEntry i tk p child =>
      id_ok i ∧ tree_key_ok types tk ∧ id_ok p ∧ id_ok child
  end.

(** ** Decoding lemmas *)
Lemma slice_from_app {A} n (a b : list A) : n = len a → slice_from n (a ++ b) = Ok b.
Proof. intros. unfold slice_from. by rewrite get_from_app. Qed.

Lemma slice_from_1 {A} (x : A) l : slice_from 1 (x :: l) = Ok l.
Proof. by apply (slice_from_app 1 [x]). Qed.

Lemma take_array_app n a b : n = len a → take_array n (a ++ b) = Ok a.
Proof. intros ->. apply take_array_ok; [apply len_nonneg|]. by exists b. Qed.

Lemma be_bytes_8_inv raw : bytes_ok raw → len raw = 8 → raw = be_bytes 8 (be_value raw).
Proof.
  intros Hok Hl. replace 8%nat with (length raw) by (unfold len in Hl; lia).
  by rewrite be_bytes_value.
Qed.
Lemma be_value_8_bound raw : bytes_ok raw → len raw = 8 → 0 ≤ be_value raw < 2 ^ 64.
Proof. intros Hok Hl. pose proof (be_value_bound raw Hok). rewrite Hl in *. done. Qed.

Lemma id_from_be i : id_ok i → LogicalIndexId_new (be_value (be_bytes 8 i)) = Ok i.
Proof.
  intros [??]. unfold LogicalIndexId_new. rewrite be_value_bytes by (simpl; lia).
  by rewrite (proj2 (Z.eqb_neq i 0)) by lia.
Qed.
Lemma index_from_be_ok raw i :
  bytes_ok raw → len raw = 8 →
  index_from_be raw = Ok i ↔ id_ok i ∧ raw = be_bytes 8 i.
Proof.
  intros Hok Hl. unfold index_from_be. rewrite map_err_ok. split.
  - unfold LogicalIndexId_new. intros H. inv_ok. bprop.
    pose proof (be_value_8_bound raw Hok Hl). split; [unfold id_ok; lia|]. by apply be_bytes_8_inv.
  - intros [Hi ->]. by apply id_from_be.
Qed.
Lemma partition_from_be_ok raw i :
  bytes_ok raw → len raw = 8 →
  partition_from_be raw = Ok i ↔ id_ok i ∧ raw = be_bytes 8 i.
Proof. apply index_from_be_ok. Qed.
Lemma index_from_be_total raw : ok_or_corrupt (index_from_be raw).
Proof. unfold index_from_be, LogicalIndexId_new. case_match; simpl; auto with ktann. Qed.
#[export] Hint Resolve index_from_be_total : ktann.
Lemma partition_from_be_total raw : ok_or_corrupt (partition_from_be raw).
Proof. apply index_from_be_total. Qed.
#[export] Hint Resolve partition_from_be_total : ktann.

Lemma check_record_id_ok id : check_record_id id = Ok tt ↔ 0 < len id ≤ MAX_RECORD_ID_BYTES.
Proof.
  unfold check_record_id. pose proof (len_nonneg id).
  destruct (Z.eqb_spec (len id) 0), (Z.ltb_spec MAX_RECORD_ID_BYTES (len id)); simpl;
    naive_solver lia.
Qed.

(** *** Record groups *)
Definition record_of (tag i : Z) (id : list Z) : option LogicalKey.t :=
  if tag =? RECORD_VALUE then Some (LogicalKey.Record i id)
  else if tag =? RECORD_LOCATION then Some (LogicalKey.Location i id)
  else if tag =? RECORD_PAYLOAD then Some (LogicalKey.Payload i id)
  else None.

Lemma escape_no_zero s : existsb (λ b, b =? 0) s = false → escape s = s.
Proof.
  induction s as [|b s IH]; simpl; [done|]. intros [-> H]%orb_false_iff. by rewrite IH.
Qed.

(** Both the borrowed and the owned path produce the decoded Record ID. *)
Lemma record_group_id i pre id tail :
  let key := pre ++ escape id ++ terminator ++ tail in
  len id ≤ MAX_RECORD_ID_BYTES →
  decode_record_group i key (len pre) =
  if len id =? 0 then corrupt
  else match tail with
  | [tag] => ok_or Corruption (record_of tag i id)
  | _ => corrupt
  end.
Proof.
  intros key Hl. unfold decode_record_group, key.
  rewrite get_from_app by done. cbn [ok_or mbind result_bind].
  unfold scan_escaped_terminated. rewrite scan_loop_escape by done.
  cbn [mbind result_bind decoded_len consumed escaped]. rewrite !Z.add_0_l, orb_false_l.
  assert ((if existsb (λ b : Z, b =? 0) id
    then decode_escaped_terminated (escape id ++ terminator ++ tail)
      (mkScan (len id) (len (escape id) + 2) (existsb (λ b : Z, b =? 0) id))
    else slice_from (len pre) (pre ++ escape id ++ terminator ++ tail)
      ≫= λ rest, Ok (ztake (len id) rest)) = Ok id) as ->.
  { destruct (existsb _ id) eqn:E; [apply decode_escaped_spec|].
    rewrite slice_from_app by done. cbn [mbind result_bind].
    rewrite escape_no_zero by done. by rewrite ztake_app. }
  cbn [mbind result_bind]. destruct (len id =? 0); [done|].
  rewrite !app_assoc, get_from_app by (len; lia).
  destruct tail as [|tag [|]]; try done. unfold record_of. by repeat case_match.
Qed.

Lemma decode_record_group_spec i pre body k :
  decode_record_group i (pre ++ body) (len pre) = Ok k ↔
  ∃ id tag, body = escape id ++ terminator ++ [tag] ∧
    0 < len id ≤ MAX_RECORD_ID_BYTES ∧ record_of tag i id = Some k.
Proof.
  split.
  - intros H. assert (∃ s tail, body = escape s ++ terminator ++ tail ∧
      len s ≤ MAX_RECORD_ID_BYTES) as (s & tail & -> & Hs).
    { unfold decode_record_group in H. rewrite get_from_app in H by done.
      cbn [ok_or] in H. apply bind_ok in H as (? & [= <-] & H).
      apply bind_ok in H as (r & Hr & _).
      apply scan_spec in Hr as (s & tail & -> & Hs & _); [|done]. eauto. }
    rewrite record_group_id in H by done. pose proof (len_nonneg s).
    destruct (Z.eqb_spec (len s) 0); [done|]. destruct tail as [|tag [|]]; try done.
    apply ok_or_ok in H. exists s, tag. split; [done|]. split; [lia|done].
  - intros (id & tag & -> & Hl & Hr). rewrite record_group_id by lia.
    rewrite (proj2 (Z.eqb_neq _ _)) by lia. by rewrite Hr.
Qed.

Lemma decode_record_group_total i pre body :
  ok_or_corrupt (decode_record_group i (pre ++ body) (len pre)).
Proof.
  destruct (scan_total body (mkScan 0 0 false) MAX_RECORD_ID_BYTES) as [[r E]|E].
  - pose proof E as (s & tail & -> & Hs & _)%scan_spec; [|done].
    rewrite record_group_id by done. apply ok_or_corrupt_if; [by right|].
    destruct tail as [|tag [|]]; try by right. destruct (record_of tag i s); simpl; auto with ktann.
  - right. unfold decode_record_group. rewrite get_from_app by done.
    cbn [ok_or mbind result_bind]. unfold scan_escaped_terminated. by rewrite E.
Qed.

(** *** Partition keys *)

(** The key a partition-local subkind byte and terminal bytes denote. *)
Definition partition_entry (i : Z) (tk : list Z) (p sub : Z) (terminal : list Z)
    : option LogicalKey.t :=
  if (sub =? SUB_HEADER) && (len terminal =? 0) then Some (LogicalKey.Header i tk p)
  else if (sub =? SUB_SYNOPSIS) && (len terminal =? 0) then Some (LogicalKey.Synopsis i tk p)
  else if (sub =? SUB_STATE) && (len terminal =? 0) then Some (LogicalKey.State i tk p)
  else if (sub =? SUB_GRAPH_DESCRIPTOR) && (len terminal =? 0) then
    Some (LogicalKey.GraphDescriptor i tk p)
  else if (sub =? SUB_GRAPH_CHUNK) && (len terminal =? 4) then
    Some (LogicalKey.GraphChunk i tk p (be_value terminal))
  else if (sub =? SUB_CENTROID) && (len terminal =? 0) then Some (LogicalKey.Centroid i tk p)
  else if sub =? SUB_LEAF_ENTRY then
    if (len terminal =? 0) || (MAX_RECORD_ID_BYTES <? len terminal) then None
    else Some (LogicalKey.LeafEntry i tk p terminal)
  else if (sub =? SUB_CHILD_ENTRY) && (len terminal =? 8) && negb (be_value terminal =? 0) then
    Some (LogicalKey.ChildEntry i tk p (be_value terminal))
  else None.

Lemma lookup_app_len {A} n (a : list A) x b :
  Z.to_nat n = length a → (a ++ x :: b) !! Z.to_nat n = Some x.
Proof. intros ->. rewrite lookup_app_r by done. by rewrite Nat.sub_diag. Qed.

Lemma child_terminal i tk p terminal :
  bytes_ok terminal →
  (take_array 8 terminal ≫= λ raw, partition_from_be raw ≫= λ child,
   if negb (len terminal =? PARTITION_KEY_BYTES) then Err Corruption
   else Ok (LogicalKey.ChildEntry i tk p child)) =
  ok_or Corruption
    (if (len terminal =? 8) && negb (be_value terminal =? 0)
     then Some (LogicalKey.ChildEntry i tk p (be_value terminal)) else None).
Proof.
  intros Hok. unfold PARTITION_KEY_BYTES. destruct (Z.eqb_spec (len terminal) 8) as [E|N]; simpl.
  - rewrite <-(app_nil_r terminal) at 1. rewrite take_array_app by done. simpl.
    unfold partition_from_be, PartitionKey_new. by destruct (be_value terminal =? 0).
  - unfold take_array. destruct (8 <=? len terminal); simpl; [|done].
    by destruct (partition_from_be_total (ztake 8 terminal)) as [[a ->]| ->].
Qed.

(** Decoding below the partition prefix is the table [partition_entry]. *)
Lemma decode_partition_shape types i pre tk p sub terminal :
  tree_key_ok types tk → id_ok p → bytes_ok terminal → byte_ok sub →
  decode_partition_key types i (pre ++ tk ++ be_bytes 8 p ++ sub :: terminal) (len pre) =
  ok_or Corruption (partition_entry i tk p sub terminal).
Proof.
  intros Htk Hp Hterm Hsub. unfold decode_partition_key.
  rewrite slice_from_app by done. cbn [mbind result_bind].
  assert (bytes_ok (tk ++ be_bytes 8 p ++ sub :: terminal)) as Hok.
  { rewrite !bytes_ok_app, bytes_ok_cons. eauto using be_bytes_ok with ktann. }
  rewrite (proj2 (from_prefix_spec types _ tk (len tk) Hok)) by eauto.
  cbn [mbind result_bind]. rewrite slice_from_app by done. cbn [mbind result_bind].
  rewrite take_array_app by by len. cbn [mbind result_bind].
  rewrite (proj2 (partition_from_be_ok _ p (be_bytes_ok 8 p) ltac:(by len)) ltac:(done)).
  cbn [mbind result_bind]. rewrite lookup_app_len by by rewrite be_bytes_length.
  cbn [ok_or mbind result_bind].
  assert (pre ++ tk ++ be_bytes 8 p ++ sub :: terminal =
    (pre ++ tk ++ be_bytes 8 p ++ [sub]) ++ terminal) as -> by by rewrite <-!app_assoc.
  rewrite get_from_app by (len; unfold PARTITION_KEY_BYTES; lia). cbn [ok_or mbind result_bind].
  unfold partition_entry, slice_terminal_record_id.
  rewrite get_from_app by (len; unfold PARTITION_KEY_BYTES; lia).
  rewrite slice_from_app by (len; unfold PARTITION_KEY_BYTES; lia). cbn [ok_or mbind result_bind].
  do 6 (match goal with |- (if ?b then _ else _) = _ => destruct b; [done|] end).
  destruct (sub =? SUB_LEAF_ENTRY); [by destruct (_ || _)|].
  destruct (sub =? SUB_CHILD_ENTRY); [by rewrite child_terminal|done].
Qed.

Lemma list_cons_lookup_8 (after : list Z) raw sub :
  take_array 8 after = Ok raw → after !! 8%nat = Some sub →
  ∃ terminal, after = raw ++ sub :: terminal.
Proof.
  intros (tail & -> & Hl)%take_array_ok; [|done].
  assert (length raw = 8%nat) as E by (unfold len in Hl; lia).
  rewrite lookup_app_r by lia. rewrite E. destruct tail as [|x terminal]; [done|].
  simpl. intros [= ->]. by exists terminal.
Qed.

Lemma decode_partition_spec types i pre rest k :
  bytes_ok rest →
  decode_partition_key types i (pre ++ rest) (len pre) = Ok k ↔
  ∃ tk p sub terminal, rest = tk ++ be_bytes 8 p ++ sub :: terminal ∧
    tree_key_ok types tk ∧ id_ok p ∧ partition_entry i tk p sub terminal = Some k.
Proof.
  intros Hok. split.
  - intros H. pose proof H as H'. unfold decode_partition_key in H'.
    rewrite slice_from_app in H' by done.
    apply bind_ok in H' as (? & [= <-] & H'). apply bind_ok in H' as ([tk c] & Htk & H').
    apply from_prefix_spec in Htk as (Htk & -> & after & ->); [|done].
    rewrite slice_from_app in H' by done. apply bind_ok in H' as (? & [= <-] & H').
    apply bind_ok in H' as (raw & Hraw & H'). apply bind_ok in H' as (p & Hp & H').
    apply bind_ok in H' as (sub & Hsub%ok_or_ok & _).
    destruct (list_cons_lookup_8 _ _ _ Hraw Hsub) as [terminal ->].
    apply take_array_ok in Hraw as (? & _ & Hl); [|done].
    apply bytes_ok_app in Hok as [_ [Hr Ht]%bytes_ok_app]. apply bytes_ok_cons in Ht as [??].
    apply partition_from_be_ok in Hp as [Hp ->]; [|done..].
    rewrite decode_partition_shape in H by done. apply ok_or_ok in H. eauto 10.
  - intros (tk & p & sub & terminal & -> & Htk & Hp & Hk).
    apply bytes_ok_app in Hok as [_ [_ Ht]%bytes_ok_app]. apply bytes_ok_cons in Ht as [??].
    rewrite decode_partition_shape by done. by rewrite Hk.
Qed.

Lemma ok_or_total {A} (o : option A) : ok_or_corrupt (ok_or Corruption o).
Proof. destruct o; simpl; auto with ktann. Qed.
#[export] Hint Resolve ok_or_total : ktann.

Lemma decode_partition_total types i pre rest :
  bytes_ok rest → ok_or_corrupt (decode_partition_key types i (pre ++ rest) (len pre)).
Proof.
  intros Hok.
  destruct (from_prefix_total types rest Hok) as [[[tk c] Htk]|E];
    [|by right; unfold decode_partition_key; rewrite slice_from_app by done; simpl; rewrite E].
  pose proof Htk as (Htk' & -> & after & ->)%from_prefix_spec; [|done].
  destruct (take_array_total 8 after) as [[raw Hraw]|E].
  2: { right. unfold decode_partition_key. rewrite slice_from_app by done. simpl.
       rewrite Htk. simpl. rewrite slice_from_app by done. simpl. by rewrite E. }
  destruct (partition_from_be_total raw) as [[p Hp]|E].
  2: { right. unfold decode_partition_key. rewrite slice_from_app by done. simpl.
       rewrite Htk. simpl. rewrite slice_from_app by done. simpl. rewrite Hraw. simpl. by rewrite E. }
  destruct (after !! Z.to_nat PARTITION_KEY_BYTES) as [sub|] eqn:Hsub.
  2: { right. unfold decode_partition_key. rewrite slice_from_app by done. simpl.
       rewrite Htk. simpl. rewrite slice_from_app by done. simpl. rewrite Hraw. simpl.
       rewrite Hp. simpl. by rewrite Hsub. }
  destruct (list_cons_lookup_8 _ _ _ Hraw Hsub) as [terminal ->].
  apply take_array_ok in Hraw as (? & _ & Hl); [|done].
  apply bytes_ok_app in Hok as [_ [Hr Ht]%bytes_ok_app]. apply bytes_ok_cons in Ht as [??].
  apply partition_from_be_ok in Hp as [Hp ->]; [|done..].
  rewrite decode_partition_shape by done. apply ok_or_total.
Qed.

(** *** Index-scoped keys *)

(** Decoding below [index_prefix]: the family selected by the kind byte. *)
Definition index_family (types : list DataType.t) (i kind : Z) (rest : list Z)
    : result LogicalKey.t :=
  let key := index_prefix i ++ kind :: rest in
  if (kind =? KIND_BUILD_VALIDATION) && (len rest =? 0) then Ok (LogicalKey.BuildValidation i)
  else if (kind =? KIND_BUILD_LOAD) && (len rest =? 0) then Ok (LogicalKey.BuildLoad i)
  else if (kind =? KIND_BUILD_DESCRIPTOR) && (len rest =? 0) then Ok (LogicalKey.BuildDescriptor i)
  else if (kind =? KIND_MANIFEST) && (len rest =? 0) then Ok (LogicalKey.Manifest i)
  else if kind =? KIND_RECORD_GROUP then decode_record_group i key 10
  else if kind =? KIND_TREE_MANIFEST then
    TreeKey_from_encoded types rest ≫= λ tk, Ok (LogicalKey.TreeManifest i tk)
  else if kind =? KIND_PARTITION then decode_partition_key types i key 10
  else corrupt.

Lemma len_index_prefix i : len (index_prefix i) = 9.
Proof. unfold index_prefix. by len. Qed.
#[export] Hint Rewrite len_index_prefix : len.
Lemma index_prefix_ok i : bytes_ok (index_prefix i).
Proof. apply bytes_ok_cons. split; [done|apply be_bytes_ok]. Qed.
#[export] Hint Resolve index_prefix_ok : ktann.

Lemma index_key_split i kind rest :
  index_prefix i ++ kind :: rest = (index_prefix i ++ [kind]) ++ rest.
Proof. by rewrite <-app_assoc. Qed.

Lemma decode_index_shape types i kind rest :
  id_ok i →
  decode_key types (index_prefix i ++ kind :: rest) = index_family types i kind rest.
Proof.
  intros Hi. unfold index_family, decode_key, index_prefix. rewrite <-app_comm_cons.
  cbn [SCOPE_INDEX SCOPE_NAMESPACE Z.eqb Pos.eqb]. unfold decode_index_key.
  rewrite slice_from_1. cbn [mbind result_bind].
  rewrite take_array_app by by len. cbn [mbind result_bind].
  rewrite (proj2 (index_from_be_ok _ i (be_bytes_ok 8 i) ltac:(by len)) ltac:(done)).
  cbn [mbind result_bind]. rewrite lookup_app_len by by rewrite be_bytes_length.
  cbn [ok_or mbind result_bind].
  assert ((len (be_bytes 8 i ++ kind :: rest) =? LOGICAL_INDEX_ID_BYTES + 1) = (len rest =? 0))
    as ->.
  { len. unfold LOGICAL_INDEX_ID_BYTES. destruct (Z.eqb_spec (len rest) 0); apply Z.eqb_eq || apply Z.eqb_neq; lia. }
  change (1 + LOGICAL_INDEX_ID_BYTES + 1) with 10.
  assert (slice_from 10 (SCOPE_INDEX :: be_bytes 8 i ++ kind :: rest) = Ok rest) as ->; [|done].
  change (slice_from 10 (index_prefix i ++ kind :: rest) = Ok rest).
  rewrite index_key_split. apply slice_from_app. by len.
Qed.

(** A successfully decoded index-scoped key starts with [index_prefix]. *)
Lemma decode_index_inv types key k :
  bytes_ok key → decode_index_key types key 1 = Ok k → key !! 0%nat = Some SCOPE_INDEX →
  ∃ i kind rest, id_ok i ∧ key = index_prefix i ++ kind :: rest.
Proof.
  intros Hok H Hscope. destruct key as [|s body]; [done|]. injection Hscope as ->.
  unfold decode_index_key in H.
  rewrite slice_from_1 in H. apply bind_ok in H as (? & [= <-] & H).
  apply bind_ok in H as (raw & Hraw & H). apply bind_ok in H as (i & Hi & H).
  apply bind_ok in H as (kind & Hkind%ok_or_ok & _).
  destruct (list_cons_lookup_8 _ _ _ Hraw Hkind) as [rest ->].
  apply take_array_ok in Hraw as (? & _ & Hl); [|done].
  apply bytes_ok_cons in Hok as [_ [Hr _]%bytes_ok_app].
  apply index_from_be_ok in Hi as [Hi ->]; [|done..]. by exists i, kind, rest.
Qed.

Lemma record_group_prefix_ok i id :
  0 < len id ≤ MAX_RECORD_ID_BYTES →
  record_group_prefix i id = Ok (index_prefix i ++ KIND_RECORD_GROUP :: escape id ++ terminator).
Proof.
  intros Hl. unfold record_group_prefix. rewrite (proj2 (check_record_id_ok id) Hl).
  cbn [mbind result_bind]. by rewrite push_escaped_spec, <-app_assoc.
Qed.

Lemma record_of_encode types i id tag k :
  id_ok i → record_id_ok id → record_of tag i id = Some k →
  key_ok types k ∧
  encode_key k = Ok (index_prefix i ++ KIND_RECORD_GROUP :: escape id ++ terminator ++ [tag]).
Proof.
  intros Hi Hid. unfold record_of.
  destruct (Z.eqb_spec tag RECORD_VALUE) as [->|]; [|destruct (Z.eqb_spec tag RECORD_LOCATION)
    as [->|]; [|destruct (Z.eqb_spec tag RECORD_PAYLOAD) as [->|]; [|done]]];
    intros [= <-]; (split; [done|]); cbn [encode_key];
    unfold record_key, location_key, payload_key; rewrite record_group_prefix_ok by apply Hid;
    cbn [mbind result_bind]; by rewrite <-app_assoc, <-app_comm_cons, <-app_assoc.
Qed.

Lemma be_bytes_4_inv t : bytes_ok t → len t = 4 → be_bytes 4 (be_value t) = t ∧ u32_ok (be_value t).
Proof.
  intros Hok Hl. split.
  - replace 4%nat with (length t) by (unfold len in Hl; lia). by apply be_bytes_value.
  - pose proof (be_value_bound t Hok). by rewrite Hl in *.
Qed.

(** One row of the subkind table whose terminal is empty. *)
Ltac bare_case Hk Hnil :=
  match type of Hk with
  | (if ?b then _ else _) = Some _ =>
      let E := fresh "E" in
      destruct b eqn:E;
      [rewrite andb_true_iff, !Z.eqb_eq in E; destruct E as [-> ->%Hnil];
       injection Hk as <-; by split|clear E]
  end.

(** Every table entry encodes back to its subkind and terminal bytes. *)
Lemma partition_entry_encode types i tk p sub terminal k :
  id_ok i → tree_key_ok types tk → id_ok p → bytes_ok terminal →
  partition_entry i tk p sub terminal = Some k →
  key_ok types k ∧ encode_key k = Ok (partition_prefix i tk p ++ sub :: terminal).
Proof.
  intros Hi Htk Hp Hok. unfold partition_entry. pose proof (len_nonneg terminal).
  assert (len terminal = 0 → terminal = []) as Hnil.
  { destruct terminal as [|x t]; [done|]. len. pose proof (len_nonneg t). lia. }
  intros Hk.
  do 4 bare_case Hk Hnil.
  destruct (_ && _) eqn:E in Hk.
  { rewrite andb_true_iff, !Z.eqb_eq in E. destruct E as [-> E]. injection Hk as <-.
    destruct (be_bytes_4_inv terminal Hok E) as [E4 ?]. split; [done|].
    cbn [encode_key]. unfold graph_chunk_key. by rewrite E4. }
  clear E. bare_case Hk Hnil.
  destruct (Z.eqb_spec sub SUB_LEAF_ENTRY) as [->|].
  { destruct (_ || _) eqn:E in Hk; [done|]. bprop. injection Hk as <-.
    assert (0 < len terminal ≤ MAX_RECORD_ID_BYTES) as Hl by lia.
    split; [done|]. cbn [encode_key]. unfold leaf_entry_key.
    by rewrite (proj2 (check_record_id_ok terminal) Hl). }
  destruct (_ && _) eqn:E in Hk; [|done]. bprop. destruct E as [[-> El] Ez]. injection Hk as <-.
  pose proof (be_value_8_bound _ Hok El). split; [split_and!; unfold id_ok in *; try lia; done|].
  cbn [encode_key]. unfold child_entry_key. by rewrite <-be_bytes_8_inv.
Qed.

(** *** Namespace keys *)
Lemma decode_name_ok bytes name :
  bytes_ok bytes → decode_name bytes = Ok name ↔ index_name_ok name ∧ name = bytes.
Proof.
  intros Hok. unfold decode_name, index_name_ok, string_ok. split.
  - destruct (utf8_valid bytes) eqn:E; [|done]. rewrite map_err_ok.
    unfold IndexName_new at 1. intros H. inv_ok. unfold IndexName_new. by rewrite Heqb.
  - intros [[[_ E] H] ->]. by rewrite E, H.
Qed.

Lemma decode_namespace_spec types body k :
  bytes_ok body →
  decode_namespace_key body = Ok k ↔
  key_ok types k ∧ LogicalKey_index k = None ∧ encode_key k = Ok (SCOPE_NAMESPACE :: body).
Proof.
  intros Hok. split.
  - destruct body as [|tag rest]; [done|]. cbn [decode_namespace_key].
    apply bytes_ok_cons in Hok as [_ Hok]. pose proof (len_nonneg rest). len.
    assert (∀ K, (index_from_be rest ≫= λ index, Ok (K index)) = Ok k → len rest = 8 →
      ∃ i, id_ok i ∧ rest = be_bytes 8 i ∧ k = K i) as Hid.
    { intros K (i & Hi & [= <-])%bind_ok Hl. apply index_from_be_ok in Hi as [??]; eauto. }
    destruct (_ && _) eqn:E.
    { bprop. destruct E as [-> E]. intros [= <-]. destruct rest as [|x t]; [done|].
      len. pose proof (len_nonneg t). lia. }
    clear E. destruct (_ && _) eqn:E.
    { bprop. destruct E as [-> E]. intros (i & Hi & -> & ->)%Hid; [done|lia]. }
    clear E. destruct (_ && _) eqn:E.
    { bprop. destruct E as [-> E]. intros (i & Hi & -> & ->)%Hid; [done|lia]. }
    clear E. destruct (Z.eqb_spec tag NS_INDEX_NAME_DIRECTORY) as [->|]; [|done].
    intros (name & Hn & [= <-])%bind_ok. by apply decode_name_ok in Hn as [? ->].
  - intros (Hk & Hidx & He). destruct k; try discriminate Hidx; cbn [encode_key] in He;
      injection He as <-.
    + done.
    + simpl. apply bytes_ok_cons in Hok as [_ Hok].
      by rewrite (proj2 (decode_name_ok _ name Hok)).
    + cbn [decode_namespace_key]. len. simpl.
      by rewrite (proj2 (index_from_be_ok _ index (be_bytes_ok 8 index) ltac:(by len)) (conj Hk eq_refl)).
    + cbn [decode_namespace_key]. len. simpl.
      by rewrite (proj2 (index_from_be_ok _ index (be_bytes_ok 8 index) ltac:(by len)) (conj Hk eq_refl)).
Qed.

(** *** Index families *)
Lemma nil_of_len0 {A} (l : list A) : len l = 0 → l = [].
Proof. destruct l as [|x t]; [done|]. len. pose proof (len_nonneg t). lia. Qed.

Lemma index_family_inv types i kind rest k :
  id_ok i → bytes_ok rest → index_family types i kind rest = Ok k →
  key_ok types k ∧ LogicalKey_index k = Some i ∧
  encode_key k = Ok (index_prefix i ++ kind :: rest).
Proof.
  intros Hi Hok Hk. unfold index_family in Hk. cbv zeta in Hk.
  assert (10 = len (index_prefix i ++ [kind])) as E10 by by len.
  rewrite index_key_split, E10 in Hk.
  do 4 match type of Hk with
  | (if ?b then _ else _) = Ok _ =>
      let E := fresh "E" in
      destruct b eqn:E;
      [rewrite andb_true_iff, !Z.eqb_eq in E; destruct E as [-> ->%nil_of_len0];
       injection Hk as <-; by split|clear E]
  end.
  destruct (Z.eqb_spec kind KIND_RECORD_GROUP) as [->|].
  { apply decode_record_group_spec in Hk as (id & tag & -> & Hl & Hr).
    apply escape_ok_inv in Hok as [Hid _].
    destruct (record_of_encode types _ _ _ _ Hi (conj Hid Hl) Hr) as [Hko He].
    split; [done|]. split; [|done]. unfold record_of in Hr. by repeat case_match; simplify_eq. }
  destruct (Z.eqb_spec kind KIND_TREE_MANIFEST) as [->|].
  { apply bind_ok in Hk as (tk & Htk & [= <-]). apply from_encoded_spec in Htk as [? ->]; [|done].
    split; [done|]. split; [done|]. cbn [encode_key]. unfold tree_manifest_key.
    by rewrite <-app_assoc. }
  destruct (Z.eqb_spec kind KIND_PARTITION) as [->|]; [|done].
  apply decode_partition_spec in Hk as (tk & p & sub & terminal & -> & Htk & Hp & He); [|done].
  apply bytes_ok_app in Hok as [_ [_ [_ Hok]%bytes_ok_cons]%bytes_ok_app].
  destruct (partition_entry_encode types _ _ _ _ _ _ Hi Htk Hp Hok He) as [Hko Henc].
  split; [done|]. split.
  - unfold partition_entry in He. by repeat case_match; simplify_eq.
  - rewrite Henc. unfold partition_prefix. by rewrite <-!app_assoc.
Qed.

(** The bytes below a partition prefix that encode a partition-local key. *)
Definition partition_suffix (k : LogicalKey.t) : list Z :=
  match k with
  | LogicalKey.Header _ _ _ => [SUB_HEADER]
  | LogicalKey.Synopsis _ _ _ => [SUB_SYNOPSIS]
  | LogicalKey.State _ _ _ => [SUB_STATE]
  | LogicalKey.Centroid _ _ _ => [SUB_CENTROID]
  | LogicalKey.GraphDescriptor _ _ _ => [SUB_GRAPH_DESCRIPTOR]
  | LogicalKey.GraphChunk _ _ _ chunk => SUB_GRAPH_CHUNK :: be_bytes 4 chunk
  | LogicalKey.LeafEntry _ _ _ id => SUB_LEAF_ENTRY :: id
  | LogicalKey.ChildEntry _ _ _ child => SUB_CHILD_ENTRY :: be_bytes 8 child
  | _ => []
  end.
(** The partition a partition-local key belongs to. *)
Definition key_partition (k : LogicalKey.t) : option (Z * list Z * Z) :=
  match k with
  | LogicalKey.Header i tk p | LogicalKey.Synopsis i tk p | LogicalKey.State i tk p
  | LogicalKey.Centroid i tk p | LogicalKey.GraphDescriptor i tk p
  | LogicalKey.LeafEntry i tk p _ | LogicalKey.GraphChunk i tk p _
  | LogicalKey.ChildEntry i tk p _ => Some (i, tk, p)
  | _ => None
  end.

Lemma partition_key_form types k i tk p :
  key_ok types k → key_partition k = Some (i, tk, p) →
  encode_key k = Ok (partition_prefix i tk p ++ partition_suffix k) ∧
  id_ok i ∧ tree_key_ok types tk ∧ id_ok p ∧
  ∃ sub terminal, partition_suffix k = sub :: terminal ∧ byte_ok sub ∧ bytes_ok terminal ∧
    partition_entry i tk p sub terminal = Some k.
Proof.
  intros Hk Hp. destruct k; simplify_eq/=; destruct_and!.
  1-4, 6: split_and!; try done; eexists _, _; split_and!; try done; constructor.
  - destruct select (record_id_ok _) as [Hid Hl]. unfold leaf_entry_key.
    rewrite (proj2 (check_record_id_ok id) Hl). split_and!; try done.
    eexists _, _; split_and!; try done. unfold partition_entry. simpl.
    by rewrite (proj2 (Z.eqb_neq _ _)), (proj2 (Z.ltb_ge _ _)) by lia.
  - split_and!; try done. eexists _, _; split_and!; try done; [apply be_bytes_ok|].
    unfold partition_entry. simpl. len. simpl. by rewrite be_value_bytes.
  - split_and!; try done. eexists _, _; split_and!; try done; [apply be_bytes_ok|].
    unfold partition_entry, id_ok in *. simpl. len. simpl. rewrite be_value_bytes by (simpl; lia).
    by rewrite (proj2 (Z.eqb_neq child 0)) by lia.
Qed.

Lemma bytes_ok_partition_suffix types k i tk p :
  key_ok types k → key_partition k = Some (i, tk, p) → bytes_ok (partition_suffix k).
Proof.
  intros Hk Hp. destruct (partition_key_form types k i tk p Hk Hp)
    as (_ & _ & _ & _ & sub & terminal & -> & ? & ? & _). by apply bytes_ok_cons.
Qed.

Lemma partition_prefix_app i tk p x :
  partition_prefix i tk p ++ x = index_prefix i ++ KIND_PARTITION :: tk ++ be_bytes 8 p ++ x.
Proof. unfold partition_prefix. by rewrite <-!app_assoc. Qed.

Lemma decode_partition_local types k i tk p key :
  key_ok types k → key_partition k = Some (i, tk, p) → encode_key k = Ok key →
  decode_key types key = Ok k.
Proof.
  intros Hk Hp He.
  destruct (partition_key_form types k i tk p Hk Hp)
    as (He' & Hi & Htk & Hpid & sub & terminal & Es & Hsub & Hterm & Hentry).
  rewrite He in He'. apply Ok_inj in He' as ->. rewrite Es, partition_prefix_app.
  rewrite decode_index_shape by done. unfold index_family. cbv zeta. rewrite index_key_split.
  change (decode_partition_key types i ((index_prefix i ++ [KIND_PARTITION]) ++
    tk ++ be_bytes 8 p ++ sub :: terminal) 10 = Ok k).
  replace 10 with (len (index_prefix i ++ [KIND_PARTITION])) by by len.
  rewrite decode_partition_shape by done. by rewrite Hentry.
Qed.

Lemma decode_record_local types i id tag k key :
  id_ok i → record_id_ok id → record_of tag i id = Some k → encode_key k = Ok key →
  decode_key types key = Ok k.
Proof.
  intros Hi Hid Hr He. destruct (record_of_encode types _ _ _ _ Hi Hid Hr) as [_ He'].
  rewrite He in He'. apply Ok_inj in He' as ->. rewrite decode_index_shape by done. unfold index_family.
  cbv zeta. rewrite index_key_split.
  change (decode_record_group i ((index_prefix i ++ [KIND_RECORD_GROUP]) ++
    escape id ++ terminator ++ [tag]) 10 = Ok k).
  replace 10 with (len (index_prefix i ++ [KIND_RECORD_GROUP])) by by len.
  apply decode_record_group_spec. exists id, tag. split; [done|]. split; [apply Hid|done].
Qed.

Lemma decode_namespace_shape types body :
  decode_key types (SCOPE_NAMESPACE :: body) = decode_namespace_key body.
Proof. cbn [decode_key]. by rewrite slice_from_1. Qed.

(** Namespace keys start with the namespace scope tag. *)
Lemma namespace_key_form types k :
  key_ok types k → LogicalKey_index k = None →
  ∃ body, encode_key k = Ok (SCOPE_NAMESPACE :: body) ∧ bytes_ok body.
Proof.
  intros Hk Hi. destruct k; try discriminate Hi; cbn [encode_key key_ok] in *.
  - exists [NS_INDEX_ID_ALLOCATOR]. split; [done|by repeat constructor].
  - exists (NS_INDEX_NAME_DIRECTORY :: name). split; [done|].
    apply bytes_ok_cons. split; [done|apply Hk].
  - exists (NS_BUILD_WORKSPACE :: be_bytes 8 index). split; [done|].
    apply bytes_ok_cons. split; [done|apply be_bytes_ok].
  - exists (NS_BUILD_SCHEDULE :: be_bytes 8 index). split; [done|].
    apply bytes_ok_cons. split; [done|apply be_bytes_ok].
Qed.

Lemma decode_encode types k key :
  key_ok types k → encode_key k = Ok key → decode_key types key = Ok k.
Proof.
  intros Hk He. destruct (key_partition k) as [[[i tk] p]|] eqn:Ep.
  { by eapply decode_partition_local. }
  destruct (LogicalKey_index k) as [i|] eqn:Ei.
  2: { destruct (namespace_key_form types k Hk Ei) as (body & He' & Hb).
       rewrite He in He'. apply Ok_inj in He' as ->. rewrite decode_namespace_shape.
       by apply (decode_namespace_spec types). }
  destruct k; try discriminate Ep; try discriminate Ei; cbn [key_ok] in Hk.
  1-4: apply Ok_inj in He as <-; unfold manifest_key, build_descriptor_key, build_load_key,
    build_validation_key; rewrite decode_index_shape by done; done.
  1: by apply (decode_record_local types index id RECORD_VALUE); try apply Hk.
  1: by apply (decode_record_local types index id RECORD_LOCATION); try apply Hk.
  1: by apply (decode_record_local types index id RECORD_PAYLOAD); try apply Hk.
  destruct Hk as [Hi Htk]. apply Ok_inj in He as <-. unfold tree_manifest_key.
  rewrite <-app_assoc. cbn [app]. rewrite decode_index_shape by done.
  change (TreeKey_from_encoded types tree_key ≫= (λ tk, Ok (LogicalKey.TreeManifest index tk)) =
    Ok (LogicalKey.TreeManifest index tree_key)).
  by rewrite (proj2 (from_encoded_spec types tree_key tree_key ltac:(eauto with ktann)) (conj Htk eq_refl)).
Qed.

(** What decodes is well formed and encodes to the same bytes. *)
Lemma decode_key_inv types key k :
  bytes_ok key → decode_key types key = Ok k → key_ok types k ∧ encode_key k = Ok key.
Proof.
  intros Hok.
  destruct key as [|scope body]; [done|]. intros H. pose proof H as H'.
  cbn [decode_key] in H'. destruct (Z.eqb_spec scope SCOPE_NAMESPACE) as [->|].
  - rewrite slice_from_1 in H'. apply bytes_ok_cons in Hok as [_ Hok].
    apply bind_ok in H' as (? & [= <-] & H').
    apply (decode_namespace_spec types) in H' as (? & _ & ?); done.
  - destruct (Z.eqb_spec scope SCOPE_INDEX) as [->|]; [|done].
    destruct (decode_index_inv _ _ _ Hok H' eq_refl) as (i & kind & rest & Hi & E).
    rewrite E in *. rewrite decode_index_shape in H by done.
    apply bytes_ok_app in Hok as [_ [_ Hok]%bytes_ok_cons].
    apply index_family_inv in H as (? & _ & ?); done.
Qed.

(** C19: Logical keys round-trip and are canonical: on every byte string, the
    decoder returns a key exactly when that key is well formed for the index's
    Tree Key types and encodes to those same bytes. *)
Theorem logical_key_roundtrip types key k :
  bytes_ok key →
  decode_key types key = Ok k ↔ key_ok types k ∧ encode_key k = Ok key.
Proof.
  intros Hok. split; [by apply decode_key_inv|intros []; by apply decode_encode].
Qed.

Lemma logical_key_roundtrip_witness :
  decode_key [DataType.Bool]
    [1; 0; 0; 0; 0; 0; 0; 0; 7; 4; 1; 0; 0; 0; 0; 0; 0; 0; 9; 4; 65; 0]
  = Ok (LogicalKey.LeafEntry 7 [1] 9 [65; 0]).
Proof.
  apply logical_key_roundtrip; [dec_compute|]. split; [|reflexivity].
  split_and!; try (unfold id_ok; lia); [|split; [dec_compute|vm_compute; split; congruence]].
  exists [Value.Bool true]. split; [|by split]. by repeat constructor.
Defined.

Lemma index_family_total types i kind rest :
  bytes_ok rest → ok_or_corrupt (index_family types i kind rest).
Proof.
  intros Hok. unfold index_family. cbv zeta. rewrite index_key_split.
  replace 10 with (len (index_prefix i ++ [kind])) by by len.
  repeat apply ok_or_corrupt_if; auto with ktann.
  - apply decode_record_group_total.
  - apply ok_or_corrupt_bind; [by apply from_encoded_total|auto with ktann].
  - by apply decode_partition_total.
Qed.

Lemma decode_namespace_total body : ok_or_corrupt (decode_namespace_key body).
Proof.
  destruct body as [|tag rest]; [by right|]. cbn [decode_namespace_key].
  repeat apply ok_or_corrupt_if; auto with ktann;
    apply ok_or_corrupt_bind; auto with ktann.
  unfold decode_name, IndexName_new. repeat case_match; simpl; auto with ktann.
Qed.

Lemma decode_index_total types body :
  bytes_ok body → ok_or_corrupt (decode_index_key types (SCOPE_INDEX :: body) 1).
Proof.
  intros Hok. destruct (take_array_total 8 body) as [[raw Hraw]|E].
  2: { right. unfold decode_index_key. rewrite slice_from_1. simpl. by rewrite E. }
  destruct (index_from_be_total raw) as [[i Hi]|E].
  2: { right. unfold decode_index_key. rewrite slice_from_1. simpl. rewrite Hraw. simpl. by rewrite E. }
  destruct (body !! Z.to_nat LOGICAL_INDEX_ID_BYTES) as [kind|] eqn:Hkind.
  2: { right. unfold decode_index_key. rewrite slice_from_1. simpl. rewrite Hraw. simpl.
       rewrite Hi. simpl. by rewrite Hkind. }
  destruct (list_cons_lookup_8 _ _ _ Hraw Hkind) as [rest ->].
  apply take_array_ok in Hraw as (? & _ & Hl); [|done].
  apply bytes_ok_app in Hok as [Hr [_ Hrest]%bytes_ok_cons].
  apply index_from_be_ok in Hi as [Hi ->]; [|done..].
  pose proof (decode_index_shape types i kind rest Hi) as Hs. unfold index_prefix in Hs.
  rewrite <-app_comm_cons in Hs. cbn [decode_key] in Hs.
  change (decode_index_key types (SCOPE_INDEX :: be_bytes 8 i ++ kind :: rest) 1
    = index_family types i kind rest) in Hs.
  rewrite Hs. by apply index_family_total.
Qed.

(** Key decoding is total and fails closed: every byte string decodes to a
    key or to [Corruption]; no slice or index of the decoder is out of range. *)
Lemma decode_key_total types key :
  bytes_ok key → ok_or_corrupt (decode_key types key).
Proof.
  intros Hok. destruct key as [|scope body]; [by right|].
  apply bytes_ok_cons in Hok as [_ Hok]. cbn [decode_key].
  destruct (scope =? SCOPE_NAMESPACE).
  - rewrite slice_from_1. apply decode_namespace_total.
  - destruct (Z.eqb_spec scope SCOPE_INDEX) as [->|]; [by apply decode_index_total|by right].
Qed.
