(* ===== verification/KeyRanges.v ===== *)
(** Key ranges of src/src/storage/keys.rs: the half-open ranges that select one
    index, one partition, one partition subkind or the trees under a Tree Key
    prefix, and the proofs that they select exactly those keys. *)
From S2P Require Import Prelude Api TreeKey Keys.

(** ** Ranges *)
Record KeyRange := mkRange { range_start : list Z; range_end : list Z }.

(** [successor]: the [while let Some(last)] loop pops trailing [0xFF] bytes. *)
Fixpoint successor_loop (rev_bytes : list Z) : list Z :=
  match rev_bytes with
  | [] => []
  | last :: front => if last =? 0xFF then successor_loop front else rev (last + 1 :: front)
  end.
Definition successor (prefix : list Z) : list Z := successor_loop (rev prefix).

Definition prefix_range (prefix : list Z) : KeyRange := mkRange prefix (successor prefix).
Definition in_key_range (r : KeyRange) (key : list Z) : Prop :=
  lex_le (range_start r) key ∧ lex_lt key (range_end r).

Definition build_workspace_range (after : option Z) : KeyRange :=
  let prefix := [SCOPE_NAMESPACE; NS_BUILD_WORKSPACE] in
  mkRange (match after with None => prefix | Some id => build_workspace_key id ++ [0] end)
          (successor prefix).
Definition build_schedule_range (after : option Z) : KeyRange :=
  let prefix := [SCOPE_NAMESPACE; NS_BUILD_SCHEDULE] in
  mkRange (match after with None => prefix | Some id => build_schedule_key id ++ [0] end)
          (successor prefix).
Definition index_range (index : Z) : KeyRange := prefix_range (index_prefix index).
Definition tree_manifest_range (index : Z) : KeyRange :=
  prefix_range (index_prefix index ++ [KIND_TREE_MANIFEST]).
Definition partition_range (index : Z) (tree_key : list Z) (partition : Z) : KeyRange :=
  prefix_range (partition_prefix index tree_key partition).
Definition partition_subkind_range (index : Z) (tree_key : list Z) (partition subkind : Z)
    : KeyRange :=
  prefix_range (partition_prefix index tree_key partition ++ [subkind]).
Definition leaf_entry_range (index : Z) (tree_key : list Z) (partition : Z) : KeyRange :=
  partition_subkind_range index tree_key partition SUB_LEAF_ENTRY.
Definition child_entry_range (index : Z) (tree_key : list Z) (partition : Z) : KeyRange :=
  partition_subkind_range index tree_key partition SUB_CHILD_ENTRY.
Definition graph_chunk_range (index : Z) (tree_key : list Z) (partition : Z) : KeyRange :=
  prefix_range (partition_prefix index tree_key partition ++ [SUB_GRAPH_CHUNK]).
Definition tree_manifest_prefix_range (index : Z) (types : list DataType.t)
    (prefix : list Value.t) : result KeyRange :=
  if len types <? len prefix then Err InvalidArgument
  else
    append_fields (ztake (len prefix) types) prefix (index_prefix index ++ [KIND_TREE_MANIFEST])
      ≫= λ start, Ok (prefix_range start).
Definition tree_manifest_plan_range (index : Z) (prefix : list Z) (lower upper : option (list Z))
    : KeyRange :=
  mkRange
    ((index_prefix index ++ [KIND_TREE_MANIFEST]) ++ prefix ++ default [] lower)
    (successor ((index_prefix index ++ [KIND_TREE_MANIFEST]) ++ prefix ++ default [] upper)).

(** ** Range lemmas *)
Lemma successor_loop_snoc r b :
  successor_loop (r ++ [b]) =
  match successor_loop r with
  | [] => if b =? 0xFF then [] else [b + 1]
  | s => b :: s
  end.
Proof.
  induction r as [|x r IH]; simpl; [done|].
  destruct (x =? 0xFF); [done|]. rewrite rev_app_distr. simpl.
  destruct (rev r ++ [x + 1]) eqn:E; [by destruct (rev r)|done].
Qed.
Lemma successor_cons b t :
  successor (b :: t) =
  match successor t with [] => if b =? 0xFF then [] else [b + 1] | s => b :: s end.
Proof. unfold successor. simpl. apply successor_loop_snoc. Qed.

(** A string of [0xFF] bytes is below a byte string only when it prefixes it. *)
Lemma all_ff_le t k :
  bytes_ok t → bytes_ok k → successor t = [] → (lex_le t k ↔ t `prefix_of` k).
Proof.
  revert k. induction t as [|b t IH]; intros k Ht Hk Hs.
  { split; [intros; apply prefix_nil|intros; by destruct k]. }
  apply bytes_ok_cons in Ht as [[??] Ht]. rewrite successor_cons in Hs.
  destruct (successor t) eqn:Et; [|done]. destruct (Z.eqb_spec b 0xFF) as [->|]; [|done].
  destruct k as [|y k]; [split; [done|by intros [? ?]]|].
  apply bytes_ok_cons in Hk as [[??] Hk]. specialize (IH k Ht Hk eq_refl).
  unfold lex_le in *. cbn [lex_cmp]. destruct (Z.compare_spec 0xFF y) as [<-| |]; [|lia|].
  - rewrite IH. split; [apply prefix_cons|apply prefix_cons_inv_2].
  - split; [done|]. intros ?%prefix_cons_inv_1. lia.
Qed.

(** [prefix, successor prefix) holds exactly the strings with the prefix. *)
Lemma prefix_range_spec p k :
  bytes_ok p → bytes_ok k → successor p ≠ [] →
  in_key_range (prefix_range p) k ↔ p `prefix_of` k.
Proof.
  unfold in_key_range, prefix_range. simpl. revert k.
  induction p as [|b t IH]; intros k Hp Hk Hs; [done|].
  apply bytes_ok_cons in Hp as [[??] Ht]. rewrite successor_cons in *.
  destruct k as [|y k]; [split; [by intros []|by intros [? ?]]|].
  apply bytes_ok_cons in Hk as [[??] Hk]. unfold lex_le, lex_lt in *.
  assert (b ≠ y → ¬ b :: t `prefix_of` y :: k) as Hne.
  { by intros ? ?%prefix_cons_inv_1. }
  assert (b = y → (b :: t `prefix_of` y :: k ↔ t `prefix_of` k)) as Heq.
  { intros <-. split; [apply prefix_cons_inv_2|apply prefix_cons]. }
  destruct (successor t) as [|s st] eqn:Et.
  - pose proof (all_ff_le t k Ht Hk Et) as Hff. unfold lex_le in Hff.
    destruct (Z.eqb_spec b 0xFF); [done|]. cbn [lex_cmp].
    destruct (Z.compare_spec b y) as [->| |].
    + rewrite Heq, <-Hff by done. rewrite (proj2 (Z.compare_lt_iff y (y + 1))) by lia. naive_solver.
    + split; [|intros E; exfalso; apply Hne; [lia|done]]. intros [_ Hlt].
      destruct (Z.compare_spec y (b + 1)); [by destruct k|lia|done].
    + naive_solver lia.
  - specialize (IH k Ht Hk ltac:(done)). cbn [lex_cmp].
    destruct (Z.compare_spec b y) as [->| |].
    + rewrite Z.compare_refl, Heq by done. done.
    + rewrite (proj2 (Z.compare_gt_iff y b)) by lia. split; [naive_solver|].
      intros E; exfalso; apply Hne; [lia|done].
    + naive_solver lia.
Qed.

(** A prefix with a byte below [0xFF] has a nonempty successor. *)
Lemma successor_nonempty b t : b <> 0xFF → successor (b :: t) ≠ [].
Proof.
  intros Hb. rewrite successor_cons. destruct (successor t); [|done].
  by rewrite (proj2 (Z.eqb_neq _ _)).
Qed.

(** ** Key forms *)

(** Every index-scoped key extends its index's prefix. *)
Lemma index_key_form types k i :
  key_ok types k → LogicalKey_index k = Some i →
  ∃ kind rest, encode_key k = Ok (index_prefix i ++ kind :: rest) ∧ bytes_ok (kind :: rest).
Proof.
  intros Hk Hi. destruct (key_partition k) as [[[j tk] p]|] eqn:Ep.
  { destruct (partition_key_form types k j tk p Hk Ep) as (He & _ & Htk & _).
    pose proof (bytes_ok_partition_suffix types k j tk p Hk Ep) as Hs.
    assert (j = i) as -> by (by destruct k; simplify_eq/=).
    eexists KIND_PARTITION, _. rewrite He, partition_prefix_app. split; [done|].
    apply bytes_ok_cons. split; [done|]. apply bytes_ok_app. split; [by eapply tree_key_ok_bytes|].
    apply bytes_ok_app. split; [apply be_bytes_ok|done]. }
  assert (∀ id tag k', id_ok i → record_id_ok id → byte_ok tag → record_of tag i id = Some k' →
    ∃ kind rest, encode_key k' = Ok (index_prefix i ++ kind :: rest) ∧ bytes_ok (kind :: rest))
    as Hrec.
  { intros id tag k' Hi' Hid Ht Hr. destruct (record_of_encode types _ _ _ _ Hi' Hid Hr) as [_ He].
    do 2 eexists. split; [exact He|]. apply bytes_ok_cons. split; [done|].
    apply bytes_ok_app. split; [by apply escape_ok, Hid|]. repeat constructor; done || apply Ht. }
  destruct k; try discriminate Ep; try discriminate Hi; injection Hi as ->;
    cbn [key_ok] in Hk.
  1-4: eexists _, []; split; [reflexivity|by repeat constructor].
  1: by apply (Hrec id RECORD_VALUE (LogicalKey.Record i id)); try apply Hk.
  1: by apply (Hrec id RECORD_LOCATION (LogicalKey.Location i id)); try apply Hk.
  1: by apply (Hrec id RECORD_PAYLOAD (LogicalKey.Payload i id)); try apply Hk.
  destruct Hk as [_ Htk]. exists KIND_TREE_MANIFEST, tree_key.
  split; [cbn [encode_key]; unfold tree_manifest_key; by rewrite <-app_assoc|]. apply bytes_ok_cons. split; [done|].
  by eapply tree_key_ok_bytes.
Qed.

Lemma encode_key_bytes types k key :
  key_ok types k → encode_key k = Ok key → bytes_ok key.
Proof.
  intros Hk He. destruct (LogicalKey_index k) as [i|] eqn:Ei.
  - destruct (index_key_form types k i Hk Ei) as (kind & rest & He' & Hb).
    rewrite He in He'. apply Ok_inj in He' as ->. apply bytes_ok_app. auto with ktann.
  - destruct (namespace_key_form types k Hk Ei) as (body & He' & Hb).
    rewrite He in He'. apply Ok_inj in He' as ->. by apply bytes_ok_cons.
Qed.
#[export] Hint Resolve encode_key_bytes : ktann.

Lemma index_prefix_inj i j x y :
  id_ok i → id_ok j → index_prefix i ++ x = index_prefix j ++ y → i = j ∧ x = y.
Proof.
  unfold id_ok, index_prefix. intros Hi Hj E.
  apply app_inj_1 in E as [E%(f_equal tail) ->]; [|cbn [length]; by rewrite !be_bytes_length].
  split; [|done]. cbn [tail] in E. apply be_bytes_inj in E; simpl; lia.
Qed.

Lemma key_index_ok types k i : key_ok types k → LogicalKey_index k = Some i → id_ok i.
Proof. intros Hk Hi. destruct k; simplify_eq/=; try apply Hk; done. Qed.

(** A key that starts with an index's prefix belongs to that index. *)
Lemma index_prefix_key types k key i :
  key_ok types k → encode_key k = Ok key → id_ok i →
  index_prefix i `prefix_of` key ↔ LogicalKey_index k = Some i.
Proof.
  intros Hk He Hi. split.
  - intros [x ->]. destruct (LogicalKey_index k) as [j|] eqn:Ej.
    + destruct (index_key_form types k j Hk Ej) as (kind & rest & He' & _).
      rewrite He in He'. apply Ok_inj in He'.
      apply index_prefix_inj in He' as [-> _]; [done..|by eapply key_index_ok].
    + destruct (namespace_key_form types k Hk Ej) as (body & He' & _).
      rewrite He in He'. by apply Ok_inj in He'.
  - intros Hj. destruct (index_key_form types k i Hk Hj) as (kind & rest & He' & _).
    rewrite He in He'. apply Ok_inj in He' as ->. by eexists.
Qed.

(** The prefixes of index-scoped ranges have a successor, so the range is the
    set of keys with the prefix. *)
Lemma index_prefix_range types k key i x :
  key_ok types k → encode_key k = Ok key → bytes_ok x →
  in_key_range (prefix_range (index_prefix i ++ x)) key ↔ index_prefix i ++ x `prefix_of` key.
Proof.
  intros Hk He Hx. apply prefix_range_spec; [|by eapply encode_key_bytes|].
  - apply bytes_ok_app. auto with ktann.
  - apply successor_nonempty. done.
Qed.

(** ** Exactness of the ranges *)

(** [index_range] selects exactly one index: among the encodings of
    well-formed keys, the range of index [i] holds the keys of [i] and no
    namespace key or key of another index. *)
Lemma index_range_exact types k key i :
  key_ok types k → encode_key k = Ok key → id_ok i →
  in_key_range (index_range i) key ↔ LogicalKey_index k = Some i.
Proof.
  intros Hk He Hi. rewrite <-(index_prefix_key types k key i Hk He Hi). unfold index_range.
  pose proof (index_prefix_range types k key i [] Hk He (Forall_nil_2 _)) as H.
  by rewrite app_nil_r in H.
Qed.

(** The tail of a key below the prefix of one partition. *)
Lemma partition_prefix_key types k key i tk p x :
  key_ok types k → encode_key k = Ok key → id_ok i → tree_key_ok types tk → id_ok p →
  key = partition_prefix i tk p ++ x →
  key_partition k = Some (i, tk, p) ∧ x = partition_suffix k.
Proof.
  intros Hk He Hi Htk Hp ->. pose proof (encode_key_bytes _ _ _ Hk He) as Hok.
  pose proof (decode_encode _ _ _ Hk He) as Hd. rewrite partition_prefix_app in Hd, Hok.
  rewrite decode_index_shape in Hd by done. unfold index_family in Hd. cbv zeta in Hd.
  rewrite index_key_split in Hd.
  change (decode_partition_key types i ((index_prefix i ++ [KIND_PARTITION]) ++
    tk ++ be_bytes 8 p ++ x) 10 = Ok k) in Hd.
  replace 10 with (len (index_prefix i ++ [KIND_PARTITION])) in Hd by by len.
  apply bytes_ok_app in Hok as [_ [_ Hok]%bytes_ok_cons].
  apply decode_partition_spec in Hd as (tk' & p' & sub & terminal & E & Htk' & Hp' & Hent); [|done].
  destruct (tree_key_prefix_free _ _ _ _ _ Htk Htk' E) as [<- E'].
  apply app_inj_1 in E' as [Ep ->]; [|by rewrite !be_bytes_length].
  unfold id_ok in *. apply be_bytes_inj in Ep; [|simpl; lia..]. subst p'.
  assert (key_partition k = Some (i, tk, p)) as Hkp.
  { unfold partition_entry in Hent. by repeat case_match; simplify_eq. }
  split; [done|]. destruct (partition_key_form types k i tk p Hk Hkp) as (He' & _).
  rewrite He in He'. apply Ok_inj, app_inv_head in He'. done.
Qed.

Lemma partition_prefix_index i tk p x :
  partition_prefix i tk p ++ x = index_prefix i ++ (KIND_PARTITION :: tk ++ be_bytes 8 p ++ x).
Proof. apply partition_prefix_app. Qed.

(** The range of a partition prefix extended by [x]. *)
Lemma partition_range_prefix types k key i tk p x :
  key_ok types k → encode_key k = Ok key → id_ok i → tree_key_ok types tk → id_ok p →
  bytes_ok x →
  in_key_range (prefix_range (partition_prefix i tk p ++ x)) key ↔
  key_partition k = Some (i, tk, p) ∧ x `prefix_of` partition_suffix k.
Proof.
  intros Hk He Hi Htk Hp Hx. rewrite partition_prefix_index.
  assert (bytes_ok (KIND_PARTITION :: tk ++ be_bytes 8 p ++ x)) as Hb.
  { apply bytes_ok_cons. split; [done|]. rewrite !bytes_ok_app.
    eauto using be_bytes_ok with ktann. }
  rewrite (index_prefix_range types k key i) by done.
  rewrite <-partition_prefix_index. split.
  - intros [y E]. rewrite <-app_assoc in E.
    destruct (partition_prefix_key _ _ _ _ _ _ _ Hk He Hi Htk Hp E) as [? <-].
    split; [done|by eexists].
  - intros [Hkp [y Hy]]. destruct (partition_key_form types k i tk p Hk Hkp) as (He' & _).
    rewrite He in He'. apply Ok_inj in He' as ->. rewrite Hy. exists y. by rewrite <-!app_assoc.
Qed.

(** [partition_range] selects exactly one partition of one tree: the keys of
    header, synopsis, state, centroid, graph and entries of partition [p] of
    tree [tk], and no key of another partition, tree or index, whatever the
    variable-length Tree Keys are. *)
Lemma partition_range_exact types k key i tk p :
  key_ok types k → encode_key k = Ok key → id_ok i → tree_key_ok types tk → id_ok p →
  in_key_range (partition_range i tk p) key ↔ key_partition k = Some (i, tk, p).
Proof.
  intros Hk He Hi Htk Hp. unfold partition_range. rewrite <-(app_nil_r (partition_prefix i tk p)).
  rewrite (partition_range_prefix types k key) by (done || constructor).
  split; [by intros []|split; [done|apply prefix_nil]].
Qed.

(** [leaf_entry_range], [child_entry_range] and [graph_chunk_range] select
    exactly the Leaf Entries, Child Entries and graph chunks of one partition. *)
Lemma partition_subkind_ranges_exact types k key i tk p :
  key_ok types k → encode_key k = Ok key → id_ok i → tree_key_ok types tk → id_ok p →
  (in_key_range (leaf_entry_range i tk p) key ↔ ∃ id, k = LogicalKey.LeafEntry i tk p id) ∧
  (in_key_range (child_entry_range i tk p) key ↔ ∃ child, k = LogicalKey.ChildEntry i tk p child) ∧
  (in_key_range (graph_chunk_range i tk p) key ↔ ∃ chunk, k = LogicalKey.GraphChunk i tk p chunk).
Proof.
  intros Hk He Hi Htk Hp.
  unfold leaf_entry_range, child_entry_range, graph_chunk_range, partition_subkind_range.
  assert (∀ sub, byte_ok sub →
    in_key_range (prefix_range (partition_prefix i tk p ++ [sub])) key ↔
    key_partition k = Some (i, tk, p) ∧ [sub] `prefix_of` partition_suffix k) as H.
  { intros sub Hs. apply (partition_range_prefix types); try done. by repeat constructor; apply Hs. }
  rewrite !H by done. split_and!; (split; [intros [Hkp Hs]|intros [? ->]; split; [done|by eexists]]).
  all: destruct k; simplify_eq/=; try (by apply prefix_cons_inv_1 in Hs); by eexists.
Qed.

(** The Tree Manifest keys under encoded leading fields. *)
Lemma tree_manifest_prefix_key types k key i x :
  key_ok types k → encode_key k = Ok key → id_ok i → bytes_ok x →
  in_key_range (prefix_range ((index_prefix i ++ [KIND_TREE_MANIFEST]) ++ x)) key ↔
  ∃ tk, k = LogicalKey.TreeManifest i tk ∧ x `prefix_of` tk.
Proof.
  intros Hk He Hi Hx. rewrite <-app_assoc.
  rewrite (index_prefix_range types k key i) by (done || by apply bytes_ok_cons).
  split.
  - intros [y E]. pose proof (encode_key_bytes _ _ _ Hk He) as Hok.
    pose proof (decode_encode _ _ _ Hk He) as Hd. rewrite E, <-app_assoc in Hd, Hok. cbn [app] in Hd, Hok.
    rewrite decode_index_shape in Hd by done. unfold index_family in Hd. cbv zeta in Hd.
    cbn [KIND_TREE_MANIFEST KIND_BUILD_VALIDATION KIND_BUILD_LOAD KIND_BUILD_DESCRIPTOR
      KIND_MANIFEST KIND_RECORD_GROUP Z.eqb Pos.eqb andb] in Hd.
    apply bytes_ok_app in Hok as [_ [_ Hok]%bytes_ok_cons].
    apply bind_ok in Hd as (tk & Htk & Hd). apply Ok_inj in Hd as <-.
    apply from_encoded_spec in Htk as [_ ->]; [|done]. eexists. split; [done|by eexists].
  - intros (tk & -> & y & ->). apply Ok_inj in He as <-. exists y. unfold tree_manifest_key.
    by rewrite <-!app_assoc.
Qed.

(** [tree_manifest_prefix_range] enumerates exactly the trees whose leading
    Tree Key fields have the given values, for every typed prefix. *)
Lemma tree_manifest_prefix_range_exact types k key i prefix r :
  key_ok types k → encode_key k = Ok key → id_ok i →
  fields_ok (take (length prefix) types) prefix →
  tree_manifest_prefix_range i types prefix = Ok r →
  in_key_range r key ↔
  ∃ vs, k = LogicalKey.TreeManifest i (fields_bytes vs) ∧ fields_ok types vs ∧
    prefix `prefix_of` vs.
Proof.
  intros Hk He Hi Hf Hr. unfold tree_manifest_prefix_range in Hr.
  destruct (_ <? _); [done|]. apply bind_ok in Hr as (s & Hs & Hr). apply Ok_inj in Hr as <-.
  apply append_fields_spec in Hs as [_ ->].
  rewrite (tree_manifest_prefix_key types k key) by (try done; by eapply fields_bytes_ok).
  split.
  - intros (tk & -> & Hp). destruct Hk as [_ (vs & Hvs & -> & _)]. exists vs.
    split_and!; [done..|]. by apply (fields_prefix types).
  - intros (vs & -> & Hvs & Hp). eexists. split; [done|]. by apply (fields_prefix types).
Qed.

(** The namespace keys below [NS_BUILD_WORKSPACE] and [NS_BUILD_SCHEDULE]. *)
Lemma build_namespace_key types k key ns :
  key_ok types k → encode_key k = Ok key → ns = NS_BUILD_WORKSPACE ∨ ns = NS_BUILD_SCHEDULE →
  [SCOPE_NAMESPACE; ns] `prefix_of` key →
  ∃ j, id_ok j ∧ key = [SCOPE_NAMESPACE; ns] ++ be_bytes 8 j ∧
    k = (if ns =? NS_BUILD_WORKSPACE then LogicalKey.BuildWorkspace j
         else LogicalKey.BuildSchedule j).
Proof.
  intros Hk He Hns [y E]. destruct (LogicalKey_index k) as [i|] eqn:Ei.
  { destruct (index_key_form types k i Hk Ei) as (kind & rest & He' & _).
    rewrite He in He'. apply Ok_inj in He'. by rewrite E in He'. }
  destruct k; try discriminate Ei; apply Ok_inj in He; rewrite <-He in E.
  1, 2: by destruct Hns as [-> | ->].
  1, 2: exists index; destruct Hns as [-> | ->]; done.
Qed.

(** The resumable range over the keys [[0; ns] ++ be(id)]. *)
Lemma build_range_exact types k key ns after :
  key_ok types k → encode_key k = Ok key → ns = NS_BUILD_WORKSPACE ∨ ns = NS_BUILD_SCHEDULE →
  (∀ a, after = Some a → id_ok a) →
  let prefix := [SCOPE_NAMESPACE; ns] in
  in_key_range
    (mkRange (match after with None => prefix | Some a => (prefix ++ be_bytes 8 a) ++ [0] end)
       (successor prefix)) key ↔
  ∃ j, k = (if ns =? NS_BUILD_WORKSPACE then LogicalKey.BuildWorkspace j
            else LogicalKey.BuildSchedule j) ∧ (∀ a, after = Some a → a < j).
Proof.
  intros Hk He Hns Ha prefix. pose proof (encode_key_bytes _ _ _ Hk He) as Hok.
  assert (bytes_ok prefix) as Hp by (destruct Hns as [-> | ->]; by repeat constructor).
  pose proof (prefix_range_spec prefix key Hp Hok
    (successor_nonempty SCOPE_NAMESPACE [ns] ltac:(done))) as Hr.
  assert (∀ a j, id_ok a → id_ok j →
    lex_le ((prefix ++ be_bytes 8 a) ++ [0]) (prefix ++ be_bytes 8 j) ↔ a < j) as Hle.
  { intros a j Ha' Hj. rewrite lex_le_snoc0 by (apply bytes_ok_app; auto using be_bytes_ok).
    unfold lex_lt. rewrite lex_cmp_app, be_bytes_compare by (unfold id_ok in *; simpl; lia).
    apply Z.compare_lt_iff. }
  split.
  - intros [Hs Hend]. cbn [range_start range_end] in *.
    assert (prefix `prefix_of` key) as Hpre.
    { apply Hr. split; [|done]. destruct after as [a|]; [|done].
      eapply lex_le_trans; [|exact Hs]. rewrite <-app_assoc. apply lex_le_app. }
    destruct (build_namespace_key types k key ns Hk He Hns Hpre) as (j & Hj & -> & Hkj).
    exists j. split; [done|]. intros a ->. apply Hle; auto.
  - intros (j & -> & Hj).
    assert (id_ok j ∧ key = prefix ++ be_bytes 8 j) as [Hjo ->].
    { destruct Hns as [-> | ->]; apply Ok_inj in He as <-; by split. }
    destruct (proj2 Hr ltac:(by eexists)) as [Hs Hend]. split; cbn [range_start range_end] in *; [|done].
    destruct after as [a|]; [|done]. apply Hle; auto.
Qed.

(** Resuming the scan of build workspaces (and of build schedules) after an
    index id visits exactly the workspaces of the greater ids, and every
    workspace when there is no resume point. *)
Lemma build_ranges_exact types k key after :
  key_ok types k → encode_key k = Ok key → (∀ a, after = Some a → id_ok a) →
  (in_key_range (build_workspace_range after) key ↔
    ∃ j, k = LogicalKey.BuildWorkspace j ∧ (∀ a, after = Some a → a < j)) ∧
  (in_key_range (build_schedule_range after) key ↔
    ∃ j, k = LogicalKey.BuildSchedule j ∧ (∀ a, after = Some a → a < j)).
Proof.
  intros Hk He Ha. split.
  - apply (build_range_exact types k key NS_BUILD_WORKSPACE after); auto.
  - apply (build_range_exact types k key NS_BUILD_SCHEDULE after); auto.
Qed.

(** A string with the prefix, or below it, is below the prefix's successor. *)
Lemma below_successor p k :
  bytes_ok p → bytes_ok k → successor p ≠ [] → p `prefix_of` k ∨ lex_lt k p →
  lex_lt k (successor p).
Proof.
  intros Hp Hk Hs [Hpre|Hlt].
  - by apply prefix_range_spec in Hpre as [_ ?].
  - eapply lex_lt_trans; [exact Hlt|].
    by destruct (proj2 (prefix_range_spec p p Hp Hp Hs) ltac:(done)).
Qed.

Lemma field_middle types pre v rest ty :
  fields_ok types (pre ++ v :: rest) → types !! length pre = Some ty → field_ok ty v.
Proof.
  intros Hf Hty. eapply Forall2_lookup_lr; [exact Hf|exact Hty|].
  by rewrite lookup_app_r, Nat.sub_diag by done.
Qed.

(** [tree_manifest_plan_range] misses no planned tree: the key of every
    tree whose leading fields are the planned prefix and whose next field lies
    between the (optional, inclusive here) bounds is in the range. *)
Lemma plan_range_covers types i pre v rest ty lo hi :
  fields_ok types (pre ++ v :: rest) → types !! length pre = Some ty →
  (∀ l, lo = Some l → field_ok ty l ∧ typed_order l v ≠ Some Gt) →
  (∀ u, hi = Some u → field_ok ty u ∧ typed_order v u ≠ Some Gt) →
  in_key_range
    (tree_manifest_plan_range i (fields_bytes pre) (scalar_bytes <$> lo) (scalar_bytes <$> hi))
    (tree_manifest_key i (fields_bytes (pre ++ v :: rest))).
Proof.
  intros Hf Hty Hlo Hhi. pose proof (field_middle _ _ _ _ _ Hf Hty) as Hv.
  pose proof (fields_bytes_ok _ _ Hf) as Hok.
  assert (fields_bytes (pre ++ v :: rest) = fields_bytes pre ++ scalar_bytes v ++ fields_bytes rest)
    as E by (unfold fields_bytes; by rewrite fmap_app, concat_app).
  rewrite E in *. unfold tree_manifest_plan_range, in_key_range, tree_manifest_key.
  cbn [range_start range_end]. apply bytes_ok_app in Hok as [Hp Hvr]. split.
  - unfold lex_le. rewrite !lex_cmp_app. destruct lo as [l|]; cbn [fmap option_fmap option_map default from_option id].
    + destruct (Hlo l eq_refl) as [Hl Ho].
      pose proof (scalar_compare ty l v [] (fields_bytes rest) Hl Hv) as Hc. rewrite app_nil_r in Hc.
      intros Hgt. rewrite Hgt in Hc. destruct (typed_order l v) as [[]|]; try done.
      by destruct (fields_bytes rest).
    + by destruct (scalar_bytes v ++ fields_bytes rest).
  - assert (bytes_ok (index_prefix i ++ [KIND_TREE_MANIFEST])) as Hi.
    { apply bytes_ok_app. split; [auto with ktann|by repeat constructor]. }
    apply below_successor.
    + apply bytes_ok_app. split; [done|]. apply bytes_ok_app. split; [done|].
      destruct hi as [u|]; [|constructor]. destruct (Hhi u eq_refl) as [[Hu _] _].
      by apply scalar_bytes_ok.
    + apply bytes_ok_app. split; [done|]. apply bytes_ok_app. by split.
    + by apply successor_nonempty.
    + destruct hi as [u|]; cbn [fmap option_fmap option_map default from_option id].
      * destruct (Hhi u eq_refl) as [Hu Ho].
        pose proof (scalar_compare ty v u (fields_bytes rest) [] Hv Hu) as Hc.
        destruct (typed_order v u) as [[]|] eqn:Ev; try done.
        -- left. apply (typed_order_eq ty) in Ev as <-; [|apply Hv|apply Hu|apply Hv|apply Hu].
           exists (fields_bytes rest). by rewrite <-!app_assoc.
        -- right. unfold lex_lt. rewrite !lex_cmp_app. rewrite app_nil_r in Hc. by injection Hc.
      * left. rewrite app_nil_r. eexists. by rewrite <-!app_assoc.
Qed.
(** The key-length bounds that size transactions hold: a Location key never
    exceeds [maximum_location_key_len], a partition metadata key has exactly
    [partition_metadata_key_len] bytes and a Leaf Entry key never exceeds
    [maximum_leaf_entry_key_len]. *)
Lemma key_length_bounds i tk p id :
  (∀ key, location_key i id = Ok key → len key ≤ maximum_location_key_len) ∧
  len (header_key i tk p) = partition_metadata_key_len tk ∧
  len (synopsis_key i tk p) = partition_metadata_key_len tk ∧
  len (state_key i tk p) = partition_metadata_key_len tk ∧
  len (centroid_key i tk p) = partition_metadata_key_len tk ∧
  (∀ key, leaf_entry_key i tk p id = Ok key → len key ≤ maximum_leaf_entry_key_len tk).
Proof.
  assert (∀ x, len (partition_prefix i tk p ++ x) = 18 + len tk + len x) as Hpp.
  { intros x. rewrite partition_prefix_app. len. lia. }
  unfold header_key, synopsis_key, state_key, centroid_key, leaf_entry_key, location_key,
    maximum_leaf_entry_key_len, partition_metadata_key_len, maximum_location_key_len,
    LOGICAL_INDEX_ID_BYTES, PARTITION_KEY_BYTES.
  rewrite !Hpp. split_and!; try (len; lia).
  - intros key (g & Hg & Hk)%bind_ok. apply Ok_inj in Hk as <-. pose proof Hg as Hid.
    unfold record_group_prefix in Hid. apply bind_ok in Hid as ([] & Hid%check_record_id_ok & _).
    rewrite (record_group_prefix_ok i id Hid) in Hg.
    apply Ok_inj in Hg as <-. pose proof (escape_len id). unfold terminator. len. lia.
  - intros key Hk. apply bind_ok in Hk as ([] & Hid%check_record_id_ok & Hk).
    apply Ok_inj in Hk as <-. rewrite Hpp. len. lia.
Qed.
