(* ===== verification/RaBitQ.v ===== *)
(** The canonical RaBitQ7 payload (src/src/search/rabitq/codec.rs): a 12-byte
    little-endian header, an LSB-first sign bit stream and an LSB-first stream
    of six-bit magnitudes.  The validating decoder reads complete groups of
    four components at once; it is proved equal to the per-component reading,
    and to accept exactly what [encode_payload] produces. *)
From stdpp Require Import list_numbers.
From S2P Require Import Prelude RustStd Api TreeKey.

Definition MAX_DIMENSION : Z := 16384.
Definition HEADER_BYTES : Z := 12.
Definition MAX_MAGNITUDE : Z := 63.
Definition MAGNITUDE_BITS : Z := 6.

(** ** Sizes *)
Definition div_ceil (a b : Z) : Z := (a + b - 1) / b.
Definition checked_add (a b : Z) : option Z := if a + b <? 2 ^ 64 then Some (a + b) else None.
Definition sign_bytes (dimension : Z) : Z := div_ceil dimension 8.
Definition magnitude_bytes (dimension : Z) : Z := div_ceil (dimension * MAGNITUDE_BITS) 8.
Definition encoded_len (dimension : Z) : result Z :=
  if negb ((1 <=? dimension) && (dimension <=? MAX_DIMENSION)) then Err InvalidArgument
  else ok_or InvalidArgument
    (checked_add HEADER_BYTES (sign_bytes dimension) ≫= λ length,
     checked_add length (magnitude_bytes dimension)).

(** ** Reading *)

(** [bytes[i]], panicking out of range. *)
Definition idx (bytes : list Z) (i : Z) : result Z := or_panic (bytes !! Z.to_nat i).
Definition u8_not (b : Z) : Z := 255 - b.

Definition read_u32_le (bytes : list Z) (offset : Z) : result Z :=
  idx bytes offset ≫= λ b0, idx bytes (offset + 1) ≫= λ b1,
  idx bytes (offset + 2) ≫= λ b2, idx bytes (offset + 3) ≫= λ b3,
  Ok (b0 + 256 * (b1 + 256 * (b2 + 256 * b3))).
(** [canonical_nonnegative] on an [f32] bit pattern. *)
Definition canonical_nonnegative (value : Z) : bool :=
  F32.is_finite value && negb (2 ^ 31 <=? value).

Record CodeHeader := mkHeader {
  scale : Z;
  code_norm_squared : Z;
  reconstruction_error_upper : Z
}.
Record RaBitQ7 := mkRaBitQ7 {
  rq_header : CodeHeader;
  rq_dimension : Z;
  rq_signs : list Z;
  rq_magnitudes : list Z
}.
Record CodeBlock := mkBlock { block_magnitudes : Z; block_signs : Z }.

Definition decode_magnitude (bytes : list Z) (index : Z) : result Z :=
  let bit_offset := index * MAGNITUDE_BITS in
  let byte_index := bit_offset / 8 in
  let shift := bit_offset mod 8 in
  idx bytes byte_index ≫= λ low,
  let high := default 0 (bytes !! Z.to_nat (byte_index + 1)) in
  Ok (Z.land (Z.shiftr (Z.lor low (Z.shiftl high 8)) shift) MAX_MAGNITUDE).
Definition is_negative (signs : list Z) (index : Z) : result bool :=
  idx signs (index / 8) ≫= λ b, Ok (negb (Z.land b (Z.shiftl 1 (index mod 8)) =? 0)).
Definition RaBitQ7_signed_code (code : RaBitQ7) (index : Z) : result Z :=
  is_negative (rq_signs code) index ≫= λ negative : bool,
  decode_magnitude (rq_magnitudes code) index ≫= λ magnitude,
  Ok (if negative then - magnitude else magnitude).
Definition code_block (code : RaBitQ7) (block : Z) : result CodeBlock :=
  let offset := block * 3 in
  idx (rq_magnitudes code) offset ≫= λ m0,
  idx (rq_magnitudes code) (offset + 1) ≫= λ m1,
  idx (rq_magnitudes code) (offset + 2) ≫= λ m2,
  idx (rq_signs code) (block / 2) ≫= λ s,
  Ok (mkBlock (Z.lor (Z.lor m0 (Z.shiftl m1 8)) (Z.shiftl m2 16))
              (Z.shiftr s ((block mod 2) * 4))).
Definition block_magnitude (b : CodeBlock) (component : Z) : Z :=
  Z.land (Z.shiftr (block_magnitudes b) (component * MAGNITUDE_BITS)) MAX_MAGNITUDE.
Definition block_negative (b : CodeBlock) (component : Z) : bool :=
  negb (Z.land (block_signs b) (Z.shiftl 1 component) =? 0).
Definition CodeBlock_signed_code (b : CodeBlock) (component : Z) : Z :=
  if block_negative b component then - block_magnitude b component
  else block_magnitude b component.

(** ** Validation *)
Definition padding_is_zero (encoded : list Z) (dimension : Z) : result bool :=
  let sign_len := sign_bytes dimension in
  let sign_remainder := dimension mod 8 in
  (if negb (sign_remainder =? 0) then
     let used := Z.shiftl 1 sign_remainder - 1 in
     idx encoded (HEADER_BYTES + sign_len - 1) ≫= λ b,
     Ok (Z.land b (u8_not used) =? 0)
   else Ok true) ≫= λ signs_ok,
  if negb signs_ok then Ok false
  else
    let magnitude_bits := dimension * MAGNITUDE_BITS in
    let magnitude_remainder := magnitude_bits mod 8 in
    if negb (magnitude_remainder =? 0) then
      let magnitude_start := HEADER_BYTES + sign_len in
      let magnitude_len := magnitude_bytes dimension in
      let used := Z.shiftl 1 magnitude_remainder - 1 in
      idx encoded (magnitude_start + magnitude_len - 1) ≫= λ b,
      Ok (Z.land b (u8_not used) =? 0)
    else Ok true.

Definition from_validated_bytes (encoded : list Z) (dimension : Z) : result RaBitQ7 :=
  let magnitude_start := HEADER_BYTES + sign_bytes dimension in
  read_u32_le encoded 0 ≫= λ s, read_u32_le encoded 4 ≫= λ n, read_u32_le encoded 8 ≫= λ e,
  slice_from HEADER_BYTES (ztake magnitude_start encoded) ≫= λ signs,
  slice_from magnitude_start encoded ≫= λ magnitudes,
  Ok (mkRaBitQ7 (mkHeader s n e) dimension signs magnitudes).

Definition checked_add_u32 (a b : Z) : result Z :=
  if a + b <? 2 ^ 32 then Ok (a + b) else Err Corruption.
(** The four components of one block: rejects a negative zero, sums squares. *)
Fixpoint block_norm_loop (block : CodeBlock) (components : list Z) (block_norm : Z) : result Z :=
  match components with
  | [] => Ok block_norm
  | component :: components =>
      let magnitude := block_magnitude block component in
      if (magnitude =? 0) && block_negative block component then Err Corruption
      else block_norm_loop block components (block_norm + magnitude * magnitude)
  end.
Fixpoint blocks_loop (code : RaBitQ7) (blocks : list Z) (actual_norm : Z) : result Z :=
  match blocks with
  | [] => Ok actual_norm
  | index :: blocks =>
      code_block code index ≫= λ block,
      block_norm_loop block [0; 1; 2; 3] 0 ≫= λ block_norm,
      checked_add_u32 actual_norm block_norm ≫= λ actual_norm,
      blocks_loop code blocks actual_norm
  end.
Fixpoint tail_loop (code : RaBitQ7) (indices : list Z) (actual_norm : Z) : result Z :=
  match indices with
  | [] => Ok actual_norm
  | index :: indices =>
      is_negative (rq_signs code) index ≫= λ negative,
      decode_magnitude (rq_magnitudes code) index ≫= λ magnitude,
      if (magnitude =? 0) && negative then Err Corruption
      else
        checked_add_u32 actual_norm (magnitude ^ 2) ≫= λ actual_norm,
        tail_loop code indices actual_norm
  end.
Definition RaBitQ7_decode (encoded : list Z) (dimension : Z) : result RaBitQ7 :=
  map_err Corruption (encoded_len dimension) ≫= λ expected_len,
  if negb (len encoded =? expected_len) then Err Corruption
  else
    padding_is_zero encoded dimension ≫= λ padded,
    if negb padded then Err Corruption
    else
      from_validated_bytes encoded dimension ≫= λ code,
      let h := rq_header code in
      if negb (canonical_nonnegative (scale h))
         || negb (canonical_nonnegative (reconstruction_error_upper h))
      then Err Corruption
      else
        blocks_loop code (seqZ 0 (dimension / 4)) 0 ≫= λ norm,
        tail_loop code (seqZ (dimension / 4 * 4) (dimension - dimension / 4 * 4)) norm
          ≫= λ actual_norm,
        if negb (actual_norm =? code_norm_squared h) then Err Corruption
        else if (code_norm_squared h =? 0)
                && (negb (scale h =? 0) || negb (reconstruction_error_upper h =? 0))
        then Err Corruption
        else Ok code.
Definition RaBitQ7_validate (encoded : list Z) (dimension : Z) : result unit :=
  RaBitQ7_decode encoded dimension ≫= λ _, Ok tt.

(** ** Writing *)
Definition le_bytes4 (v : Z) : list Z :=
  [v mod 256; v / 256 mod 256; v / 65536 mod 256; v / 16777216 mod 256].
(** [bytes[i] |= v], panicking out of range. *)
Definition or_at (bytes : list Z) (i v : Z) : result (list Z) :=
  idx bytes i ≫= λ b, Ok (<[Z.to_nat i := Z.lor b v]> bytes).
Definition encode_magnitude (bytes : list Z) (index magnitude : Z) : result (list Z) :=
  let bit_offset := index * MAGNITUDE_BITS in
  let byte_index := bit_offset / 8 in
  let shift := bit_offset mod 8 in
  let shifted := Z.shiftl magnitude shift mod 2 ^ 16 in
  or_at bytes byte_index (shifted mod 256) ≫= λ bytes,
  if 8 - MAGNITUDE_BITS <? shift then or_at bytes (byte_index + 1) (Z.shiftr shifted 8)
  else Ok bytes.
Fixpoint encode_codes (codes : list Z) (index sign_start magnitude_start : Z) (encoded : list Z)
    : result (list Z) :=
  match codes with
  | [] => Ok encoded
  | code :: codes =>
      (if code <? 0 then or_at encoded (sign_start + index / 8) (Z.shiftl 1 (index mod 8))
       else Ok encoded) ≫= λ encoded,
      slice_from magnitude_start encoded ≫= λ magnitudes,
      encode_magnitude magnitudes index (Z.abs code) ≫= λ magnitudes,
      encode_codes codes (index + 1) sign_start magnitude_start
        (ztake magnitude_start encoded ++ magnitudes)
  end.
Definition zeroed_buffer (n : Z) : list Z := replicate (Z.to_nat n) 0.
(** [encoded[start..start + 4].copy_from_slice(bytes)]. *)
Definition copy4 (start : Z) (bytes encoded : list Z) : result (list Z) :=
  if (start + 4 <=? len encoded) && (len bytes =? 4)
  then Ok (ztake start encoded ++ bytes ++ zdrop (start + 4) encoded) else Panic.
Definition encode_payload (encoded_len scale code_norm_squared error_upper : Z)
    (signed_codes : list Z) : result (list Z) :=
  copy4 0 (le_bytes4 scale) (zeroed_buffer encoded_len) ≫= λ encoded,
  copy4 4 (le_bytes4 code_norm_squared) encoded ≫= λ encoded,
  copy4 8 (le_bytes4 error_upper) encoded ≫= λ encoded,
  let sign_start := HEADER_BYTES in
  let magnitude_start := sign_start + sign_bytes (len signed_codes) in
  encode_codes signed_codes 0 sign_start magnitude_start encoded.

(** ** The streams as little-endian integers *)
Fixpoint le_value (bs : list Z) : Z :=
  match bs with [] => 0 | b :: t => b + 256 * le_value t end.
Definition byte_at (bs : list Z) (i : Z) : Z := default 0 (bs !! Z.to_nat i).

Lemma le_value_bound bs : bytes_ok bs → 0 ≤ le_value bs < 256 ^ len bs.
Proof.
  induction bs as [|b t IH]; [done|]. intros [[??] Ht]%bytes_ok_cons. specialize (IH Ht).
  rewrite len_cons, Z.pow_add_r by (pose proof (len_nonneg t); lia). simpl le_value. lia.
Qed.
Lemma le_value_app a b : le_value (a ++ b) = le_value a + 256 ^ len a * le_value b.
Proof.
  induction a as [|x a IH]; [change (256 ^ len (@nil Z)) with 1; cbn [app le_value]; lia|].
  rewrite <-app_comm_cons, len_cons, Z.pow_add_r by (pose proof (len_nonneg a); lia).
  simpl le_value. rewrite IH. lia.
Qed.
Lemma le_value_drop bs n : bytes_ok bs → 0 ≤ n ≤ len bs → le_value (zdrop n bs) = le_value bs / 256 ^ n.
Proof.
  intros Hok Hn. rewrite <-(ztake_zdrop n bs) at 2. rewrite le_value_app, len_ztake by done.
  rewrite Z.mul_comm, Z.div_add by (apply Z.pow_nonzero; lia).
  pose proof (le_value_bound (ztake n bs) ltac:(auto with ktann)) as Hb.
  rewrite len_ztake in Hb by done. by rewrite Z.div_small.
Qed.
Lemma le_value_zeroed n : le_value (zeroed_buffer n) = 0.
Proof. unfold zeroed_buffer. induction (Z.to_nat n) as [|k IH]; simpl; [done|]. lia. Qed.

Lemma le_value_inj a b : bytes_ok a → bytes_ok b → len a = len b → le_value a = le_value b → a = b.
Proof.
  revert b. induction a as [|x a IH]; intros [|y b]; rewrite ?len_cons; intros Ha Hb Hl E; try done;
    [pose proof (len_nonneg b); rewrite len_nil in Hl; lia
    |pose proof (len_nonneg a); rewrite len_nil in Hl; lia|].
  apply bytes_ok_cons in Ha as [[??] Ha]. apply bytes_ok_cons in Hb as [[??] Hb].
  cbn [le_value] in E. assert (x = y) as -> by lia. f_equal. apply IH; done || lia.
Qed.

(** Every byte of the stream, and 0 past its end. *)
Lemma byte_at_value bs i :
  bytes_ok bs → 0 ≤ i → byte_at bs i = le_value bs / 256 ^ i mod 256.
Proof.
  intros Hok Hi. unfold byte_at. destruct (decide (i < len bs)) as [Hlt|].
  - pose proof (le_value_drop bs i Hok ltac:(lia)) as <-.
    destruct (lookup_lt_is_Some_2 bs (Z.to_nat i)) as [b Hb]; [unfold len in Hlt; lia|].
    rewrite Hb. unfold zdrop. rewrite (drop_S _ _ _ Hb). cbn [le_value default from_option].
    pose proof (Forall_lookup_1 _ _ _ _ Hok Hb) as [??].
    symmetry. rewrite Z.mul_comm, Z.mod_add by done. apply Z.mod_small. done.
  - rewrite lookup_ge_None_2 by (unfold len in *; lia). cbn [default from_option].
    pose proof (le_value_bound bs Hok).
    rewrite Z.div_small; [done|]. split; [lia|].
    apply Z.lt_le_trans with (256 ^ len bs); [lia|]. apply Z.pow_le_mono_r; lia.
Qed.
Lemma idx_ok bs i : 0 ≤ i < len bs → idx bs i = Ok (byte_at bs i).
Proof.
  intros Hi. unfold idx, byte_at.
  destruct (lookup_lt_is_Some_2 bs (Z.to_nat i)) as [b Hb]; [unfold len in Hi; lia|].
  by rewrite Hb.
Qed.
Lemma byte_at_ok bs i : bytes_ok bs → 0 ≤ i → 0 ≤ byte_at bs i < 256.
Proof. intros ??. rewrite byte_at_value by done. by apply Z.mod_pos_bound. Qed.

(** Adjacent bytes joined by shifts and ors. *)
Lemma lor_shift_add low high n : 0 ≤ n → 0 ≤ low < 2 ^ n → Z.lor low (Z.shiftl high n) = low + high * 2 ^ n.
Proof.
  intros Hn Hl. rewrite lor_disjoint; [by rewrite Z.shiftl_mul_pow2|].
  apply Z.bits_inj'. intros i Hi. rewrite Z.land_spec, Z.bits_0, Z.shiftl_spec by done.
  destruct (decide (i < n)).
  - by rewrite (Z.testbit_neg_r high), andb_false_r by lia.
  - destruct (decide (low = 0)) as [->|]; [by rewrite Z.bits_0|].
    rewrite (Z.bits_above_log2 low i); [done|lia|].
    apply Z.lt_le_trans with n; [apply Z.log2_lt_pow2; lia|lia].
Qed.
Lemma land_63 v : Z.land v MAX_MAGNITUDE = v mod 64.
Proof. change MAX_MAGNITUDE with (Z.ones 6). by rewrite Z.land_ones. Qed.
(** A mask with one bit set tests that bit. *)
Lemma land_bit v n : 0 ≤ n → negb (Z.land v (Z.shiftl 1 n) =? 0) = Z.testbit v n.
Proof.
  intros Hn. rewrite Z.shiftl_1_l. destruct (Z.testbit v n) eqn:E.
  - apply negb_true_iff, Z.eqb_neq. intros H. apply (f_equal (λ x, Z.testbit x n)) in H.
    rewrite Z.land_spec, Z.pow2_bits_true, E, Z.bits_0 in H by done. done.
  - apply negb_false_iff, Z.eqb_eq, Z.bits_inj'. intros i Hi.
    rewrite Z.land_spec, Z.bits_0, Z.pow2_bits_eqb by done.
    destruct (Z.eqb_spec n i) as [<-|]; [by rewrite E|by rewrite andb_false_r].
Qed.

(** Or-ing bounded values stays below the same power of two. *)
Lemma lor_bound a b n : 0 ≤ n → 0 ≤ a < 2 ^ n → 0 ≤ b < 2 ^ n → Z.lor a b < 2 ^ n.
Proof.
  intros Hn Ha Hb. destruct (decide (Z.lor a b = 0)) as [->|N]; [lia|].
  assert (0 ≤ Z.lor a b) by (apply Z.lor_nonneg; lia).
  apply Z.log2_lt_pow2; [lia|]. rewrite Z.log2_lor by lia.
  destruct (decide (n = 0)) as [->|]; [simpl in *; assert (a = 0 ∧ b = 0) as [-> ->] by lia; done|].
  assert (∀ x, 0 ≤ x < 2 ^ n → Z.log2 x < n) as Hlog.
  { intros x Hx. destruct (decide (x = 0)) as [->|]; [simpl; lia|]. apply Z.log2_lt_pow2; lia. }
  apply Z.max_lub_lt; auto.
Qed.

(** The reference reading: component [i] is the sign bit [i] of the sign stream
    and the base-64 digit [i] of the magnitude stream. *)
Definition magnitude_at (magnitudes : list Z) (i : Z) : Z := le_value magnitudes / 64 ^ i mod 64.
Definition negative_at (signs : list Z) (i : Z) : bool := Z.testbit (le_value signs) i.

Lemma pow_256_2 q : 0 ≤ q → 256 ^ q = 2 ^ (8 * q).
Proof. intros. by rewrite Z.pow_mul_r by lia. Qed.
Lemma pow_64_2 q : 0 ≤ q → 64 ^ q = 2 ^ (6 * q).
Proof. intros. by rewrite Z.pow_mul_r by lia. Qed.

(** Bits [lo, lo + n) of a window of [w] bits starting at bit [8 q]. *)
Lemma window_digit L q w s :
  0 ≤ q → 0 ≤ s → s + 6 ≤ w → 0 ≤ L →
  (L / 256 ^ q mod 2 ^ w) / 2 ^ s mod 64 = L / 2 ^ (8 * q + s) mod 64.
Proof.
  intros Hq Hs Hw HL. rewrite pow_256_2 by done. rewrite Z.pow_add_r by lia.
  rewrite <-Z.div_div by (try apply Z.pow_nonzero; try apply Z.pow_pos_nonneg; lia).
  set (x := L / 2 ^ (8 * q)). change 64 with (2 ^ 6).
  apply Z.bits_inj'. intros i Hi. destruct (decide (i < 6)).
  - rewrite !Z.mod_pow2_bits_low by lia. rewrite <-!Z.shiftr_div_pow2 by lia.
    rewrite !Z.shiftr_spec by lia. by rewrite Z.mod_pow2_bits_low by lia.
  - by rewrite !Z.mod_pow2_bits_high by lia.
Qed.

Lemma le_value_nonneg bs : bytes_ok bs → 0 ≤ le_value bs.
Proof. intros H. pose proof (le_value_bound bs H). lia. Qed.

(** Two adjacent bytes as one window. *)
Lemma bytes_window2 L : 0 ≤ L → L mod 256 + (L / 256 mod 256) * 2 ^ 8 = L mod 2 ^ 16.
Proof. intros. change (2 ^ 8) with 256. change (2 ^ 16) with (256 * 256). rewrite Z.rem_mul_r by lia. lia. Qed.
Lemma bytes_window3 L :
  0 ≤ L → L mod 256 + (L / 256 mod 256) * 2 ^ 8 + (L / 65536 mod 256) * 2 ^ 16 = L mod 2 ^ 24.
Proof.
  intros. change (2 ^ 8) with 256. change (2 ^ 16) with (256 * 256). change (2 ^ 24) with (256 * 256 * 256).
  rewrite (Z.rem_mul_r L (256 * 256) 256), Z.rem_mul_r by lia. change (256 * 256) with 65536. lia.
Qed.
Lemma byte_at_add bs q k :
  bytes_ok bs → 0 ≤ q → 0 ≤ k →
  byte_at bs (q + k) = le_value bs / 256 ^ q / 256 ^ k mod 256.
Proof.
  intros ? Hq Hk. rewrite byte_at_value by (done || lia). rewrite Z.pow_add_r by done.
  assert (0 < 256 ^ q ∧ 0 < 256 ^ k) as [??] by (split; apply Z.pow_pos_nonneg; lia).
  by rewrite Z.div_div by lia.
Qed.

(** ** The two readings agree *)
Lemma decode_magnitude_spec ms i :
  bytes_ok ms → 0 ≤ i → i * 6 / 8 < len ms → decode_magnitude ms i = Ok (magnitude_at ms i).
Proof.
  intros Hok Hi Hlt. unfold decode_magnitude, MAGNITUDE_BITS. cbv zeta.
  assert (0 ≤ i * 6 / 8) as Hq by (apply Z.div_pos; lia).
  pose proof (Z.mod_pos_bound (i * 6) 8 ltac:(lia)) as Hs.
  assert (i * 6 mod 8 ≤ 6) as Hs6.
  { pose proof (Z.div_mod (i * 6) 8 ltac:(done)). lia. }
  rewrite idx_ok by lia. cbn [mbind result_bind].
  change (default 0 (ms !! Z.to_nat (i * 6 / 8 + 1))) with (byte_at ms (i * 6 / 8 + 1)).
  pose proof (byte_at_ok ms (i * 6 / 8) Hok Hq).
  rewrite lor_shift_add, land_63, Z.shiftr_div_pow2 by lia.
  rewrite byte_at_add, byte_at_value, Z.pow_1_r by (done || lia).
  pose proof (le_value_nonneg ms Hok).
  rewrite bytes_window2 by (apply Z.div_pos; [done|apply Z.pow_pos_nonneg; lia]).
  rewrite window_digit by lia. unfold magnitude_at. rewrite pow_64_2 by done.
  do 4 f_equal. pose proof (Z.div_mod (i * 6) 8 ltac:(done)). lia.
Qed.

Lemma is_negative_spec ss i :
  bytes_ok ss → 0 ≤ i → i / 8 < len ss → is_negative ss i = Ok (negative_at ss i).
Proof.
  intros Hok Hi Hlt. unfold is_negative. assert (0 ≤ i / 8) by (apply Z.div_pos; lia).
  pose proof (Z.mod_pos_bound i 8 ltac:(lia)) as Hs.
  rewrite idx_ok by lia. cbn [mbind result_bind]. f_equal. rewrite land_bit by lia.
  rewrite byte_at_value by done. unfold negative_at. change 256 with (2 ^ 8) at 2.
  rewrite Z.mod_pow2_bits_low by lia. rewrite pow_256_2 by done.
  rewrite <-Z.shiftr_div_pow2, Z.shiftr_spec by lia. f_equal.
  pose proof (Z.div_mod i 8 ltac:(done)). lia.
Qed.

(** Four components of a block read from the packed group. *)
Lemma code_block_spec code b :
  bytes_ok (rq_magnitudes code) → bytes_ok (rq_signs code) → 0 ≤ b →
  b * 3 + 2 < len (rq_magnitudes code) → b / 2 < len (rq_signs code) →
  ∃ block, code_block code b = Ok block ∧ ∀ c, 0 ≤ c < 4 →
    block_magnitude block c = magnitude_at (rq_magnitudes code) (4 * b + c) ∧
    block_negative block c = negative_at (rq_signs code) (4 * b + c).
Proof.
  intros Hm Hs Hb Hlm Hls. unfold code_block. cbv zeta.
  assert (0 ≤ b / 2) by (apply Z.div_pos; lia).
  rewrite !idx_ok by lia. cbn [mbind result_bind]. eexists. split; [done|]. intros c Hc.
  unfold block_magnitude, block_negative, MAGNITUDE_BITS. cbn [block_magnitudes block_signs].
  set (ms := rq_magnitudes code) in *. set (ss := rq_signs code) in *. split.
  - pose proof (byte_at_ok ms (b * 3) Hm ltac:(lia)).
    pose proof (byte_at_ok ms (b * 3 + 1) Hm ltac:(lia)).
    rewrite land_63, Z.shiftr_div_pow2 by lia.
    rewrite (lor_shift_add (byte_at ms (b * 3))), lor_shift_add by (simpl; lia).
    rewrite !(byte_at_add ms (b * 3)), byte_at_value by (done || lia).
    change (256 ^ 1) with 256. change (256 ^ 2) with 65536.
    pose proof (le_value_nonneg ms Hm).
    rewrite bytes_window3 by (apply Z.div_pos; [done|apply Z.pow_pos_nonneg; lia]).
    rewrite window_digit by lia. unfold magnitude_at. rewrite pow_64_2 by lia. do 3 f_equal. lia.
  - rewrite land_bit, Z.shiftr_spec by lia. rewrite byte_at_value by done. unfold negative_at.
    pose proof (Z.mod_pos_bound b 2 ltac:(lia)). pose proof (Z.div_mod b 2 ltac:(done)).
    change 256 with (2 ^ 8) at 2. rewrite Z.mod_pow2_bits_low by lia. rewrite pow_256_2 by done.
    rewrite <-Z.shiftr_div_pow2, Z.shiftr_spec by lia. f_equal. lia.
Qed.

(** ** The validation loops against the reference reading *)
Section loops.
Context (code : RaBitQ7).
Let mag (i : Z) : Z := magnitude_at (rq_magnitudes code) i.
Let neg (i : Z) : bool := negative_at (rq_signs code) i.

(** No negative zero among the components, and the sum of their squares. *)
Definition canonical_components (l : list Z) : bool :=
  forallb (λ i, negb ((magnitude_at (rq_magnitudes code) i =? 0) && negative_at (rq_signs code) i)) l.
Fixpoint sum_squares (l : list Z) : Z :=
  match l with
  | [] => 0
  | i :: l => magnitude_at (rq_magnitudes code) i ^ 2 + sum_squares l
  end.
Definition reference_loop (l : list Z) (acc : Z) : result Z :=
  if canonical_components l then Ok (acc + sum_squares l) else Err Corruption.

Lemma magnitude_at_bound ms i : 0 ≤ magnitude_at ms i < 64.
Proof. by apply Z.mod_pos_bound. Qed.
Lemma sum_squares_bound l : 0 ≤ sum_squares l ≤ 3969 * len l.
Proof.
  induction l as [|i l IH]; [done|]. rewrite len_cons. cbn [sum_squares].
  pose proof (magnitude_at_bound (rq_magnitudes code) i). nia.
Qed.
Lemma sum_squares_app a b : sum_squares (a ++ b) = sum_squares a + sum_squares b.
Proof. induction a as [|i a IH]; cbn [sum_squares app]; [done|]. lia. Qed.

Definition block_indices (b : Z) : list Z := [4 * b + 0; 4 * b + 1; 4 * b + 2; 4 * b + 3].

Lemma block_norm_loop_spec block b cs acc :
  (∀ c, c ∈ cs → block_magnitude block c = mag (4 * b + c) ∧ block_negative block c = neg (4 * b + c)) →
  block_norm_loop block cs acc = reference_loop ((λ c, 4 * b + c) <$> cs) acc.
Proof.
  unfold reference_loop. revert acc. induction cs as [|c cs IH]; intros acc H; cbn [block_norm_loop].
  { cbn. f_equal. lia. }
  destruct (H c) as [-> ->]; [left|]. rewrite IH by (intros; apply H; by right).
  cbn [fmap list_fmap canonical_components forallb sum_squares].
  unfold mag, neg. destruct ((_ =? 0) && _); [done|]. cbn [negb andb].
  destruct (canonical_components _) eqn:E; unfold canonical_components in E;
    change (list_fmap Z Z) with (@fmap list list_fmap Z Z); rewrite E; [|done].
  f_equal. lia.
Qed.

Lemma blocks_loop_spec bl acc :
  (∀ b, b ∈ bl → ∃ block, code_block code b = Ok block ∧ ∀ c, 0 ≤ c < 4 →
     block_magnitude block c = mag (4 * b + c) ∧ block_negative block c = neg (4 * b + c)) →
  0 ≤ acc → acc + 3969 * (4 * len bl) < 2 ^ 32 →
  blocks_loop code bl acc = reference_loop (flat_map block_indices bl) acc.
Proof.
  unfold reference_loop. revert acc. induction bl as [|b bl IH]; intros acc H Hacc Hlt.
  { cbn. f_equal. lia. }
  cbn [blocks_loop]. destruct (H b) as (block & -> & Hc); [left|]. cbn [mbind result_bind].
  rewrite (block_norm_loop_spec block b).
  2: { intros c Hin. apply Hc. repeat (apply elem_of_cons in Hin as [-> |Hin]; [lia|]).
       by apply elem_of_nil in Hin. }
  change ((λ c, 4 * b + c) <$> [0; 1; 2; 3]) with (block_indices b).
  unfold reference_loop. cbn [flat_map]. rewrite sum_squares_app.
  assert (∀ x y, canonical_components (x ++ y) = canonical_components x && canonical_components y)
    as -> by (intros; apply forallb_app).
  destruct (canonical_components (block_indices b)); [|done]. cbn [mbind result_bind andb].
  rewrite len_cons in Hlt. pose proof (sum_squares_bound (block_indices b)) as Hb.
  change (len (block_indices b)) with 4 in Hb. pose proof (len_nonneg bl).
  unfold checked_add_u32. rewrite (proj2 (Z.ltb_lt _ _)) by lia. cbn [mbind result_bind].
  rewrite IH by (try lia; intros; apply H; by right).
  destruct (canonical_components _); [|done]. f_equal. lia.
Qed.

Lemma tail_loop_spec l acc :
  (∀ i, i ∈ l → is_negative (rq_signs code) i = Ok (neg i) ∧
    decode_magnitude (rq_magnitudes code) i = Ok (mag i)) →
  0 ≤ acc → acc + 3969 * len l < 2 ^ 32 →
  tail_loop code l acc = reference_loop l acc.
Proof.
  unfold reference_loop. revert acc. induction l as [|i l IH]; intros acc H Hacc Hlt.
  { cbn. f_equal. lia. }
  cbn [tail_loop]. destruct (H i) as [-> ->]; [left|]. cbn [mbind result_bind].
  cbn [canonical_components forallb sum_squares]. unfold mag, neg.
  destruct ((_ =? 0) && _); [done|]. cbn [negb andb].
  rewrite len_cons in Hlt. pose proof (magnitude_at_bound (rq_magnitudes code) i).
  pose proof (len_nonneg l). unfold checked_add_u32.
  rewrite (proj2 (Z.ltb_lt _ _)) by nia. cbn [mbind result_bind].
  rewrite IH by (try nia; intros; apply H; by right).
  fold (canonical_components l). destruct (canonical_components l); [|done]. f_equal. lia.
Qed.
End loops.

Lemma reference_loop_app code a b acc :
  (reference_loop code a acc ≫= reference_loop code b) = reference_loop code (a ++ b) acc.
Proof.
  unfold reference_loop, canonical_components. rewrite forallb_app, sum_squares_app.
  destruct (forallb _ a); cbn [mbind result_bind andb]; [|done].
  destruct (forallb _ b); [|done]. f_equal. lia.
Qed.

Lemma block_indices_seqZ n m : 0 ≤ n → flat_map block_indices (seqZ m n) = seqZ (4 * m) (4 * n).
Proof.
  intros Hn. revert m. pattern n. apply natlike_ind; [done| |done]. clear n Hn.
  intros n Hn IH m. rewrite seqZ_cons by lia. cbn [flat_map].
  replace (Z.pred (Z.succ n)) with n by lia. rewrite IH.
  rewrite (seqZ_cons (4 * m)), (seqZ_cons (Z.succ (4 * m))), (seqZ_cons (Z.succ (Z.succ (4 * m)))),
    (seqZ_cons (Z.succ (Z.succ (Z.succ (4 * m))))) by lia. unfold block_indices.
  cbn [app]. repeat (f_equal; try lia).
Qed.

(** ** What the decoder accepts *)

(** The view a payload of the right length decodes to. *)
Definition payload_view (encoded : list Z) (d : Z) : RaBitQ7 :=
  let u32_at o := byte_at encoded o + 256 * (byte_at encoded (o + 1) +
    256 * (byte_at encoded (o + 2) + 256 * byte_at encoded (o + 3))) in
  mkRaBitQ7 (mkHeader (u32_at 0) (u32_at 4) (u32_at 8)) d
    (ztake (sign_bytes d) (zdrop 12 encoded)) (zdrop (12 + sign_bytes d) encoded).

(** A canonical payload, component by component. *)
Definition payload_ok (encoded : list Z) (d : Z) : Prop :=
  let c := payload_view encoded d in
  let h := rq_header c in
  1 ≤ d ≤ MAX_DIMENSION ∧
  len encoded = 12 + sign_bytes d + magnitude_bytes d ∧
  le_value (rq_signs c) < 2 ^ d ∧
  le_value (rq_magnitudes c) < 64 ^ d ∧
  canonical_nonnegative (scale h) = true ∧
  canonical_nonnegative (reconstruction_error_upper h) = true ∧
  (∀ i, 0 ≤ i < d → magnitude_at (rq_magnitudes c) i = 0 → negative_at (rq_signs c) i = false) ∧
  sum_squares c (seqZ 0 d) = code_norm_squared h ∧
  (code_norm_squared h = 0 → scale h = 0 ∧ reconstruction_error_upper h = 0).

Lemma sizes_bound d : 1 ≤ d → d ≤ 8 * sign_bytes d < d + 8 ∧ d * 6 ≤ 8 * magnitude_bytes d < d * 6 + 8.
Proof.
  intros Hd. unfold sign_bytes, magnitude_bytes, div_ceil, MAGNITUDE_BITS.
  pose proof (Z.div_mod (d + 8 - 1) 8 ltac:(done)). pose proof (Z.mod_pos_bound (d + 8 - 1) 8 ltac:(done)).
  pose proof (Z.div_mod (d * 6 + 8 - 1) 8 ltac:(done)).
  pose proof (Z.mod_pos_bound (d * 6 + 8 - 1) 8 ltac:(done)). lia.
Qed.
Lemma encoded_len_ok d n :
  encoded_len d = Ok n ↔ 1 ≤ d ≤ MAX_DIMENSION ∧ n = 12 + sign_bytes d + magnitude_bytes d.
Proof.
  unfold encoded_len, MAX_DIMENSION, HEADER_BYTES.
  destruct (Z.leb_spec 1 d), (Z.leb_spec d 16384); cbn [andb negb]; try naive_solver lia.
  pose proof (sizes_bound d ltac:(lia)).
  unfold checked_add. rewrite (proj2 (Z.ltb_lt _ _)) by lia. cbn [mbind option_bind].
  rewrite (proj2 (Z.ltb_lt _ _)) by lia. naive_solver.
Qed.
Lemma encoded_len_total d : (∃ n, encoded_len d = Ok n) ∨ encoded_len d = Err InvalidArgument.
Proof.
  unfold encoded_len, ok_or. destruct (negb _); [by right|]. destruct (_ ≫= _); eauto.
Qed.

(** A mask of the unused high bits tests a bound. *)
Lemma land_not_used b r :
  0 ≤ b < 256 → 0 < r < 8 → (Z.land b (u8_not (Z.shiftl 1 r - 1)) =? 0) = (b <? 2 ^ r).
Proof.
  intros Hb Hr. rewrite Z.shiftl_1_l. unfold u8_not.
  replace (255 - (2 ^ r - 1)) with (Z.ldiff 255 (Z.ones r)).
  2: { rewrite <-Z.sub_nocarry_ldiff; [rewrite Z.ones_equiv; lia|].
       apply Z.bits_inj'. intros i Hi. rewrite Z.ldiff_spec, Z.bits_0. change 255 with (Z.ones 8).
       rewrite !Z.testbit_ones_nonneg by lia. destruct (Z.ltb_spec i r), (Z.ltb_spec i 8); done || lia. }
  assert (Z.land b (Z.ldiff 255 (Z.ones r)) = Z.ldiff b (Z.ones r)) as ->.
  { apply Z.bits_inj'. intros i Hi. rewrite Z.land_spec, !Z.ldiff_spec.
    destruct (Z.testbit b i) eqn:E; [|done]. change 255 with (Z.ones 8).
    rewrite !Z.testbit_ones_nonneg by lia. destruct (Z.ltb_spec i 8); [done|].
    destruct (decide (b = 0)) as [->|]; [by rewrite Z.bits_0 in E|].
    rewrite Z.bits_above_log2 in E; [done|lia|].
    apply Z.lt_le_trans with 8; [apply Z.log2_lt_pow2; lia|lia]. }
  rewrite Z.ldiff_ones_r by lia. rewrite Z.shiftr_div_pow2, Z.shiftl_mul_pow2 by lia.
  assert (0 < 2 ^ r) by (apply Z.pow_pos_nonneg; lia).
  destruct (Z.ltb_spec b (2 ^ r)).
  - by rewrite Z.div_small by lia.
  - apply Z.eqb_neq. assert (1 ≤ b / 2 ^ r) by (apply Z.div_le_lower_bound; lia). nia.
Qed.

(** The last byte bounds the whole little-endian value. *)
Lemma le_value_last bs n r :
  bytes_ok bs → len bs = n + 1 → 0 ≤ n → 0 ≤ r ≤ 8 →
  byte_at bs n < 2 ^ r ↔ le_value bs < 2 ^ (8 * n + r).
Proof.
  intros Hok Hl Hn Hr. rewrite byte_at_value by done.
  pose proof (le_value_bound bs Hok) as Hb. rewrite Hl, Z.pow_add_r in Hb by lia.
  assert (0 < 256 ^ n) by (apply Z.pow_pos_nonneg; lia).
  assert (le_value bs / 256 ^ n < 256) by (apply Z.div_lt_upper_bound; lia).
  assert (0 ≤ le_value bs / 256 ^ n) by (apply Z.div_pos; lia).
  rewrite Z.mod_small by lia. rewrite Z.pow_add_r, <-pow_256_2 by lia.
  split; [|intros; by apply Z.div_lt_upper_bound].
  intros Hlt. pose proof (Z.div_mod (le_value bs) (256 ^ n) ltac:(lia)).
  pose proof (Z.mod_pos_bound (le_value bs) (256 ^ n) ltac:(lia)). nia.
Qed.

(** One stream of [bits] bits: its padding is zero iff its value is in range. *)
Lemma stream_padding bs bits :
  bytes_ok bs → 1 ≤ bits → len bs = div_ceil bits 8 →
  (if negb (bits mod 8 =? 0) then byte_at bs (len bs - 1) <? 2 ^ (bits mod 8) else true)
  = (le_value bs <? 2 ^ bits).
Proof.
  intros Hok Hbits Hl. pose proof (le_value_bound bs Hok) as Hb. pose proof (len_nonneg bs).
  unfold div_ceil in Hl. pose proof (Z.div_mod bits 8 ltac:(done)).
  pose proof (Z.mod_pos_bound bits 8 ltac:(done)).
  pose proof (Z.div_mod (bits + 8 - 1) 8 ltac:(done)).
  pose proof (Z.mod_pos_bound (bits + 8 - 1) 8 ltac:(done)).
  destruct (Z.eqb_spec (bits mod 8) 0) as [E|E]; cbn [negb].
  - symmetry. apply Z.ltb_lt. rewrite pow_256_2 in Hb by done.
    replace (8 * len bs) with bits in Hb by lia. lia.
  - assert (len bs = bits / 8 + 1) as El by lia.
    pose proof (le_value_last bs (bits / 8) (bits mod 8) Hok El ltac:(lia) ltac:(lia)) as Hlast.
    replace (8 * (bits / 8) + bits mod 8) with bits in Hlast by lia.
    replace (len bs - 1) with (bits / 8) by lia.
    destruct (Z.ltb_spec (byte_at bs (bits / 8)) (2 ^ (bits mod 8))); symmetry;
      [apply Z.ltb_lt|apply Z.ltb_ge]; lia.
Qed.

Lemma byte_at_zdrop bs n i : 0 ≤ n → 0 ≤ i → byte_at (zdrop n bs) i = byte_at bs (n + i).
Proof.
  intros. unfold byte_at, zdrop. rewrite lookup_drop. do 2 f_equal. lia.
Qed.
Lemma byte_at_ztake bs n i : 0 ≤ i < n → byte_at (ztake n bs) i = byte_at bs i.
Proof. intros. unfold byte_at, ztake. rewrite lookup_take_lt by lia. done. Qed.

Section accept.
Context (encoded : list Z) (d : Z).
Context (Hok : bytes_ok encoded) (Hd : 1 ≤ d ≤ MAX_DIMENSION).
Context (Hlen : len encoded = 12 + sign_bytes d + magnitude_bytes d).
Let view : RaBitQ7 := payload_view encoded d.

Lemma view_streams :
  bytes_ok (rq_signs view) ∧ len (rq_signs view) = sign_bytes d ∧
  bytes_ok (rq_magnitudes view) ∧ len (rq_magnitudes view) = magnitude_bytes d.
Proof.
  pose proof (sizes_bound d ltac:(lia)). unfold view. simpl. split_and!; auto with ktann.
  - rewrite len_ztake; [done|]. rewrite len_zdrop by lia. lia.
  - rewrite len_zdrop by lia. lia.
Qed.

Lemma padding_is_zero_spec :
  padding_is_zero encoded d =
  Ok ((le_value (rq_signs view) <? 2 ^ d) && (le_value (rq_magnitudes view) <? 64 ^ d)).
Proof.
  pose proof (sizes_bound d ltac:(lia)) as Hs. destruct view_streams as (Ss & Sl & Ms & Ml).
  unfold padding_is_zero, HEADER_BYTES. cbv zeta.
  rewrite <-(stream_padding _ d Ss) by (done || lia). rewrite pow_64_2, (Z.mul_comm 6) by lia.
  rewrite <-(stream_padding _ (d * 6) Ms) by (done || lia). rewrite Sl, Ml.
  assert (byte_at (rq_signs view) (sign_bytes d - 1) = byte_at encoded (12 + sign_bytes d - 1)) as ->.
  { unfold view. simpl. rewrite byte_at_ztake, byte_at_zdrop by lia. f_equal. lia. }
  assert (byte_at (rq_magnitudes view) (magnitude_bytes d - 1) =
    byte_at encoded (12 + sign_bytes d + magnitude_bytes d - 1)) as ->.
  { unfold view. simpl. rewrite byte_at_zdrop by lia. f_equal. lia. }
  change (d * MAGNITUDE_BITS) with (d * 6). rewrite !idx_ok by lia. cbn [mbind result_bind].
  pose proof (Z.mod_pos_bound d 8 ltac:(done)). pose proof (Z.mod_pos_bound (d * 6) 8 ltac:(done)).
  assert (∀ i r, 0 ≤ i → 0 ≤ r < 8 → r ≠ 0 →
    (Z.land (byte_at encoded i) (u8_not (Z.shiftl 1 r - 1)) =? 0) = (byte_at encoded i <? 2 ^ r))
    as Hmask by (intros; apply land_not_used; [by apply byte_at_ok|lia]).
  destruct (Z.eqb_spec (d mod 8) 0), (Z.eqb_spec (d * 6 mod 8) 0); cbn [negb];
    rewrite ?Hmask by lia; cbn [mbind result_bind negb andb]; try done; by destruct (_ <? _).
Qed.

Lemma from_validated_bytes_spec : from_validated_bytes encoded d = Ok view.
Proof.
  pose proof (sizes_bound d ltac:(lia)) as Hs.
  unfold from_validated_bytes, read_u32_le, HEADER_BYTES. cbv zeta.
  rewrite !idx_ok by lia. cbn [mbind result_bind]. unfold slice_from, get_from.
  rewrite len_ztake, !(proj2 (Z.leb_le _ _)) by lia.
  cbn [or_panic mbind result_bind]. unfold view, payload_view. cbv zeta. do 2 f_equal.
  unfold zdrop, ztake. rewrite skipn_firstn_comm. f_equal. lia.
Qed.

Lemma loops_spec :
  (blocks_loop view (seqZ 0 (d / 4)) 0 ≫= λ norm,
   tail_loop view (seqZ (d / 4 * 4) (d - d / 4 * 4)) norm) = reference_loop view (seqZ 0 d) 0.
Proof.
  pose proof (sizes_bound d ltac:(lia)) as Hs. destruct view_streams as (Ss & Sl & Ms & Ml).
  pose proof (Z.div_mod d 4 ltac:(done)). pose proof (Z.mod_pos_bound d 4 ltac:(done)).
  unfold MAX_DIMENSION in Hd.
  assert (∀ m n, 0 ≤ n → len (seqZ m n) = n) as Hseq
    by (intros; unfold len; rewrite length_seqZ; lia).
  assert (seqZ 0 d = seqZ (4 * 0) (4 * (d / 4)) ++ seqZ (d / 4 * 4) (d - d / 4 * 4)) as Hsplit.
  { replace (d / 4 * 4) with (4 * 0 + 4 * (d / 4)) at 1 by lia. rewrite <-seqZ_app by lia.
    f_equal. lia. }
  rewrite blocks_loop_spec.
  - rewrite block_indices_seqZ by lia. rewrite Hsplit, <-reference_loop_app.
    destruct (reference_loop view (seqZ (4 * 0) (4 * (d / 4))) 0) as [norm| |] eqn:En; [|done..].
    unfold reference_loop in En. destruct (canonical_components _ _); [|done].
    apply Ok_inj in En as <-. cbn [mbind result_bind]. rewrite tail_loop_spec; [done| |..].
    + intros i Hi%elem_of_seqZ. split.
      * apply is_negative_spec; try done; try lia. rewrite Sl. apply Z.div_lt_upper_bound; lia.
      * apply decode_magnitude_spec; try done; try lia. rewrite Ml. apply Z.div_lt_upper_bound; lia.
    + pose proof (sum_squares_bound view (seqZ (4 * 0) (4 * (d / 4)))). lia.
    + pose proof (sum_squares_bound view (seqZ (4 * 0) (4 * (d / 4)))) as Hb.
      rewrite Hseq in Hb by lia. rewrite Hseq by lia. lia.
  - intros b Hb%elem_of_seqZ. apply code_block_spec; try done; try lia.
    rewrite Sl. apply Z.div_lt_upper_bound; lia.
  - done.
  - rewrite Hseq by lia. lia.
Qed.
End accept.

Lemma canonical_components_spec code l :
  canonical_components code l = true ↔
  ∀ i, i ∈ l → magnitude_at (rq_magnitudes code) i = 0 → negative_at (rq_signs code) i = false.
Proof.
  unfold canonical_components. rewrite forallb_forall. split; intros H i Hi.
  - intros E. specialize (H i (proj1 (list_elem_of_In _ _) Hi)). rewrite E in H.
    by destruct (negative_at _ _).
  - apply list_elem_of_In in Hi. specialize (H i Hi).
    destruct (Z.eqb_spec (magnitude_at (rq_magnitudes code) i) 0); [|done]. by rewrite H.
Qed.

(** The decoder's branches, once the length is right. *)
Lemma decode_branches encoded d :
  bytes_ok encoded → 1 ≤ d ≤ MAX_DIMENSION →
  len encoded = 12 + sign_bytes d + magnitude_bytes d →
  let c := payload_view encoded d in let h := rq_header c in
  RaBitQ7_decode encoded d =
  if (le_value (rq_signs c) <? 2 ^ d) && (le_value (rq_magnitudes c) <? 64 ^ d)
     && canonical_nonnegative (scale h) && canonical_nonnegative (reconstruction_error_upper h)
     && canonical_components c (seqZ 0 d) && (sum_squares c (seqZ 0 d) =? code_norm_squared h)
     && negb ((code_norm_squared h =? 0)
              && (negb (scale h =? 0) || negb (reconstruction_error_upper h =? 0)))
  then Ok c else Err Corruption.
Proof.
  intros Hok Hd Hlen c h. unfold RaBitQ7_decode.
  rewrite (proj2 (encoded_len_ok d _) (conj Hd eq_refl)). cbn [map_err mbind result_bind].
  rewrite Hlen, Z.eqb_refl. cbn [negb].
  rewrite (padding_is_zero_spec encoded d) by done. fold c. cbn [mbind result_bind].
  destruct ((_ <? 2 ^ d) && _); [|done]. cbn [negb andb].
  rewrite (from_validated_bytes_spec encoded d) by done. fold c. cbn [mbind result_bind].
  fold h. destruct (canonical_nonnegative (scale h)); [|done].
  destruct (canonical_nonnegative (reconstruction_error_upper h)); [|done]. cbn [negb orb andb].
  pose proof (loops_spec encoded d Hok Hd Hlen) as Hl. fold c in Hl. cbv beta in Hl.
  destruct (blocks_loop c _ 0) as [norm| |]; cbn [mbind result_bind] in Hl |- *;
    unfold reference_loop in Hl; [rewrite Hl| |];
    destruct (canonical_components c (seqZ 0 d)); try discriminate Hl; cbn [mbind result_bind andb];
    try done.
  - rewrite Z.add_0_l. destruct (_ =? code_norm_squared h); [|done]. cbn [negb andb].
    by destruct (_ && _).
  - by injection Hl as <-.
Qed.

(** C29: The RaBitQ7 decoder accepts exactly the canonical payloads, stated
    component by component: the exact length, streams with zero padding,
    canonical nonnegative header floats, no negative zero, the recorded norm
    equal to the sum of squared magnitudes, and a zero header for a zero code. *)
Theorem rabitq_decode_exact encoded d code :
  bytes_ok encoded →
  RaBitQ7_decode encoded d = Ok code ↔ payload_ok encoded d ∧ code = payload_view encoded d.
Proof.
  intros Hok. unfold payload_ok.
  destruct (decide (1 ≤ d ≤ MAX_DIMENSION ∧ len encoded = 12 + sign_bytes d + magnitude_bytes d))
    as [[Hd Hlen]|Hn].
  - rewrite (decode_branches encoded d Hok Hd Hlen).
    set (c := payload_view encoded d). set (h := rq_header c).
    pose proof (canonical_components_spec c (seqZ 0 d)) as Hcc.
    assert (∀ b : bool, (if b then Ok c else Err Corruption) = Ok code ↔ b = true ∧ code = c) as ->.
    { intros []; naive_solver. }
    rewrite !andb_true_iff, Hcc, !Z.ltb_lt, Z.eqb_eq, negb_true_iff.
    assert ((code_norm_squared h =? 0) && (negb (scale h =? 0) || negb (reconstruction_error_upper h =? 0))
      = false ↔ (code_norm_squared h = 0 → scale h = 0 ∧ reconstruction_error_upper h = 0)) as ->.
    { destruct (Z.eqb_spec (code_norm_squared h) 0), (Z.eqb_spec (scale h) 0),
        (Z.eqb_spec (reconstruction_error_upper h) 0); simpl; naive_solver. }
    assert ((∀ i, i ∈ seqZ 0 d → magnitude_at (rq_magnitudes c) i = 0 → negative_at (rq_signs c) i = false)
      ↔ (∀ i, 0 ≤ i < d → magnitude_at (rq_magnitudes c) i = 0 → negative_at (rq_signs c) i = false)) as ->.
    { split; intros H i Hi; apply H; [by apply elem_of_seqZ|by apply elem_of_seqZ in Hi]. }
    tauto.
  - split; [|naive_solver]. intros Hdec. exfalso. apply Hn. unfold RaBitQ7_decode in Hdec.
    apply bind_ok in Hdec as (n & Hlen%map_err_ok & Hdec). apply encoded_len_ok in Hlen as [? ->].
    split; [done|]. destruct (Z.eqb_spec (len encoded) (12 + sign_bytes d + magnitude_bytes d)); done.
Qed.
Lemma rabitq_decode_exact_witness :
  is_ok (RaBitQ7_decode [0; 0; 128; 63; 155; 15; 0; 0; 7; 0; 0; 0; 18; 3; 1; 4; 63] 5) = true ∧
  payload_ok [0; 0; 128; 63; 155; 15; 0; 0; 7; 0; 0; 0; 18; 3; 1; 4; 63] 5.
Proof.
  split; [reflexivity|].
  apply (rabitq_decode_exact _ _ (payload_view [0; 0; 128; 63; 155; 15; 0; 0; 7; 0; 0; 0; 18; 3; 1; 4; 63] 5)).
  - dec_compute.
  - vm_compute. reflexivity.
Defined.

(** The validator never panics and reports only [Corruption]. *)
Lemma decode_total encoded d : bytes_ok encoded → ok_or_corrupt (RaBitQ7_decode encoded d).
Proof.
  intros Hok.
  destruct (decide (1 ≤ d ≤ MAX_DIMENSION ∧ len encoded = 12 + sign_bytes d + magnitude_bytes d))
    as [[Hd Hlen]|Hn].
  - rewrite (decode_branches encoded d Hok Hd Hlen). auto with ktann.
  - unfold RaBitQ7_decode. destruct (encoded_len_total d) as [[n E]|E]; rewrite E; [|by right].
    apply encoded_len_ok in E as [? ->]. cbn [map_err mbind result_bind].
    destruct (Z.eqb_spec (len encoded) (12 + sign_bytes d + magnitude_bytes d)); [|by right].
    exfalso. apply Hn. done.
Qed.

(** The four-at-a-time reading of a validated payload is the per-component
    reading: every component of every complete block, expanded from the packed
    group and its sign nibble, is the code that [signed_code] reads at its index. *)
Lemma code_block_equals_signed_code encoded d code b c :
  bytes_ok encoded → RaBitQ7_decode encoded d = Ok code → 0 ≤ b < d / 4 → 0 ≤ c < 4 →
  ∃ block, code_block code b = Ok block ∧
    RaBitQ7_signed_code code (4 * b + c) = Ok (CodeBlock_signed_code block c).
Proof.
  intros Hok Hdec Hb Hc.
  assert (1 ≤ d ≤ MAX_DIMENSION ∧ len encoded = 12 + sign_bytes d + magnitude_bytes d ∧
    code = payload_view encoded d) as (Hd & Hlen & ->).
  { pose proof Hdec as H. unfold RaBitQ7_decode in H.
    apply bind_ok in H as (n & Hl%map_err_ok & H). apply encoded_len_ok in Hl as [? ->].
    destruct (Z.eqb_spec (len encoded) (12 + sign_bytes d + magnitude_bytes d)) as [E|]; [|done].
    split; [done|]. split; [done|]. rewrite (decode_branches encoded d) in Hdec by done.
    cbv zeta in Hdec. clear H. case_match; [by apply Ok_inj in Hdec|done]. }
  destruct (view_streams encoded d Hok Hd Hlen) as (Ss & Sl & Ms & Ml).
  pose proof (sizes_bound d ltac:(lia)). pose proof (Z.div_mod d 4 ltac:(done)).
  pose proof (Z.mod_pos_bound d 4 ltac:(done)).
  destruct (code_block_spec (payload_view encoded d) b) as (block & Hblk & Hcomp); try done; try lia.
  { rewrite Sl. apply Z.div_lt_upper_bound; lia. }
  exists block. split; [done|]. destruct (Hcomp c Hc) as [Hm Hn].
  unfold RaBitQ7_signed_code, CodeBlock_signed_code. rewrite Hm, Hn.
  rewrite is_negative_spec, decode_magnitude_spec; try done; try lia.
  - rewrite Ml. apply Z.div_lt_upper_bound; lia.
  - rewrite Sl. apply Z.div_lt_upper_bound; lia.
Qed.

(** ** Writing the streams *)
Lemma le_value_insert bs i x :
  0 ≤ i < len bs →
  le_value (<[Z.to_nat i := x]> bs) = le_value bs + (x - byte_at bs i) * 256 ^ i.
Proof.
  intros Hi. unfold byte_at. destruct (lookup_lt_is_Some_2 bs (Z.to_nat i)) as [b Hb];
    [unfold len in Hi; lia|].
  rewrite Hb, insert_take_drop by (unfold len in Hi; lia).
  assert (le_value bs = le_value (take (Z.to_nat i) bs ++ b :: drop (S (Z.to_nat i)) bs)) as ->
    by by rewrite take_drop_middle.
  rewrite !le_value_app.
  assert (len (take (Z.to_nat i) bs) = i) as -> by (unfold len in *; rewrite length_take; lia).
  cbn [le_value default from_option id]. ring.
Qed.

(** Setting clear bits of one byte adds to the stream's value. *)
Lemma or_at_add bs i s k :
  bytes_ok bs → 0 ≤ i < len bs → 0 ≤ s → 0 ≤ k → byte_at bs i < 2 ^ s →
  byte_at bs i + k * 2 ^ s < 256 →
  ∃ bs', or_at bs i (k * 2 ^ s) = Ok bs' ∧ bytes_ok bs' ∧ len bs' = len bs ∧
    le_value bs' = le_value bs + k * 2 ^ s * 256 ^ i.
Proof.
  intros Hok Hi Hs Hk Hb Hlt. unfold or_at. rewrite idx_ok by done. cbn [mbind result_bind].
  pose proof (byte_at_ok bs i Hok ltac:(lia)) as Hbb.
  rewrite <-Z.shiftl_mul_pow2, lor_shift_add by lia.
  eexists. split; [done|]. assert (0 ≤ k * 2 ^ s) by (apply Z.mul_nonneg_nonneg; lia). split_and!.
  - apply Forall_insert; [done|]. unfold byte_ok. lia.
  - unfold len. by rewrite length_insert.
  - rewrite le_value_insert, Z.shiftl_mul_pow2 by lia. lia.
Qed.
Lemma or_at_zero bs i v :
  bytes_ok bs → 0 ≤ i < len bs → byte_at bs i = 0 → 0 ≤ v < 256 →
  ∃ bs', or_at bs i v = Ok bs' ∧ bytes_ok bs' ∧ len bs' = len bs ∧
    le_value bs' = le_value bs + v * 256 ^ i.
Proof.
  intros Hok Hi Hz Hv. destruct (or_at_add bs i 0 v) as (bs' & E & H); try done; try lia.
  rewrite Z.mul_1_r in E, H. eauto.
Qed.

(** The bytes above a bounded value are zero. *)
Lemma byte_at_above bs q s :
  bytes_ok bs → 0 ≤ q → 0 ≤ s → le_value bs < 2 ^ (8 * q + s) → le_value bs / 256 ^ q < 2 ^ s.
Proof.
  intros Hok Hq Hs Hlt. assert (0 < 256 ^ q) by (apply Z.pow_pos_nonneg; lia).
  apply Z.div_lt_upper_bound; [done|]. by rewrite pow_256_2, <-Z.pow_add_r by lia.
Qed.

Lemma encode_magnitude_spec ms i m :
  bytes_ok ms → 0 ≤ i → 6 * (i + 1) ≤ 8 * len ms → le_value ms < 64 ^ i → 0 ≤ m < 64 →
  ∃ ms', encode_magnitude ms i m = Ok ms' ∧ bytes_ok ms' ∧ len ms' = len ms ∧
    le_value ms' = le_value ms + m * 64 ^ i.
Proof.
  intros Hok Hi Hlen Hlt Hm. unfold encode_magnitude, MAGNITUDE_BITS. cbv zeta.
  set (q := i * 6 / 8). set (s := i * 6 mod 8).
  assert (i * 6 = 8 * q + s) as Eqs by (apply Z.div_mod; done).
  assert (0 ≤ s < 8) as Hs by (by apply Z.mod_pos_bound). assert (0 ≤ q) by lia.
  assert (s ≤ 6) by lia. assert (0 < 2 ^ s) by (apply Z.pow_pos_nonneg; lia).
  assert (2 ^ s ≤ 2 ^ 6) by (apply Z.pow_le_mono_r; lia). change (2 ^ 6) with 64 in *.
  rewrite pow_64_2 in Hlt |- * by done. replace (6 * i) with (8 * q + s) in * by lia.
  pose proof (byte_at_above ms q s Hok ltac:(lia) ltac:(lia) Hlt) as Habove.
  pose proof (le_value_nonneg ms Hok).
  assert (0 ≤ le_value ms / 256 ^ q) by (apply Z.div_pos; [lia|apply Z.pow_pos_nonneg; lia]).
  assert (byte_at ms q = le_value ms / 256 ^ q) as Hbq.
  { rewrite byte_at_value by done. apply Z.mod_small. lia. }
  assert (byte_at ms (q + 1) = 0) as Hbq1.
  { rewrite byte_at_add by (done || lia). rewrite Z.pow_1_r, (Z.div_small (_ / _) 256) by lia. done. }
  rewrite Z.shiftl_mul_pow2 by lia. rewrite (Z.mod_small (m * 2 ^ s)) by nia.
  rewrite pow_256_2 in Hbq by lia.
  (* the bits that stay in the low byte *)
  assert (m * 2 ^ s mod 256 = (m mod 2 ^ (8 - s)) * 2 ^ s) as Hlow.
  { replace 256 with (2 ^ (8 - s) * 2 ^ s) by (rewrite <-Z.pow_add_r by lia; by replace (8 - s + s) with 8 by lia).
    by rewrite Z.mul_mod_distr_r by (try apply Z.pow_nonzero; lia). }
  assert (0 < 2 ^ (8 - s)) by (apply Z.pow_pos_nonneg; lia).
  assert (2 ^ (8 - s) * 2 ^ s = 256) by (rewrite <-Z.pow_add_r by lia; by replace (8 - s + s) with 8 by lia).
  pose proof (Z.mod_pos_bound m (2 ^ (8 - s)) ltac:(done)).
  destruct (or_at_add ms q s (m mod 2 ^ (8 - s))) as (ms1 & E1 & Hok1 & Hl1 & HL1);
    [done|lia|lia|lia|rewrite Hbq, <-pow_256_2 by lia; lia| |].
  { rewrite Hbq, <-pow_256_2 by lia. nia. }
  rewrite Hlow, E1. cbn [mbind result_bind].
  assert (2 ^ (8 * q + s) = 2 ^ s * 256 ^ q) as Ep by (rewrite pow_256_2, <-Z.pow_add_r by lia; f_equal; lia).
  rewrite Z.shiftr_div_pow2 by lia. change (2 ^ 8) with 256.
  pose proof (Z.div_mod (m * 2 ^ s) 256 ltac:(done)) as Hdm. rewrite Hlow in Hdm.
  destruct (Z.ltb_spec (8 - 6) s) as [Hgt|Hle].
  - assert (byte_at ms1 (q + 1) = 0) as Hz.
    { rewrite byte_at_add by (done || lia). rewrite HL1, Z.pow_1_r, Z.div_add by (apply Z.pow_nonzero; lia).
      rewrite (Z.div_small (_ + _) 256); [done|]. nia. }
    assert (m * 2 ^ s / 256 < 64) by (apply Z.div_lt_upper_bound; nia).
    assert (0 ≤ m * 2 ^ s / 256) by (apply Z.div_pos; nia).
    destruct (or_at_zero ms1 (q + 1) (m * 2 ^ s / 256)) as (ms2 & E2 & Hok2 & Hl2 & HL2);
      [done|lia|done|lia|].
    exists ms2. split_and!; [done|done|lia|]. rewrite HL2, HL1, Ep, Z.pow_add_r, Z.pow_1_r by lia. nia.
  - exists ms1. split_and!; [done|done|lia|]. rewrite HL1, Ep.
    assert (2 ^ s ≤ 2 ^ 2) by (apply Z.pow_le_mono_r; lia).
    rewrite (Z.div_small (m * 2 ^ s) 256) in Hdm by nia. nia.
Qed.

(** Writing into a buffer is writing into the slice that holds the byte. *)
Lemma or_at_app pre bs post j v bs' :
  0 ≤ j < len bs → or_at bs j v = Ok bs' →
  or_at (pre ++ bs ++ post) (len pre + j) v = Ok (pre ++ bs' ++ post).
Proof.
  unfold or_at, idx. intros Hj. rewrite Z2Nat.inj_add by (pose proof (len_nonneg pre); lia).
  assert (Z.to_nat (len pre) = length pre) as -> by (unfold len; lia).
  rewrite lookup_app_r by lia. replace (length pre + Z.to_nat j - length pre)%nat with (Z.to_nat j) by lia.
  rewrite lookup_app_l by (unfold len in Hj; lia).
  destruct (bs !! Z.to_nat j); simpl; [|done]. intros [= <-].
  rewrite insert_app_r_alt by lia.
  replace (length pre + Z.to_nat j - length pre)%nat with (Z.to_nat j) by lia.
  by rewrite insert_app_l by (unfold len in Hj; lia).
Qed.

(** The values of the two streams that hold a code sequence. *)
Fixpoint magnitudes_value (codes : list Z) : Z :=
  match codes with [] => 0 | c :: t => Z.abs c + 64 * magnitudes_value t end.
Fixpoint signs_value (codes : list Z) : Z :=
  match codes with [] => 0 | c :: t => Z.b2z (c <? 0) + 2 * signs_value t end.

(** Setting the sign bit [i] of a stream that is clear from there on. *)
Lemma set_sign_spec pre ss post i (negative : bool) :
  bytes_ok ss → 0 ≤ i < 8 * len ss → le_value ss < 2 ^ i →
  ∃ ss', (if negative then or_at (pre ++ ss ++ post) (len pre + i / 8) (Z.shiftl 1 (i mod 8))
          else Ok (pre ++ ss ++ post)) = Ok (pre ++ ss' ++ post) ∧
    bytes_ok ss' ∧ len ss' = len ss ∧ le_value ss' = le_value ss + Z.b2z negative * 2 ^ i.
Proof.
  intros Hok Hi Hlt. destruct negative.
  2: { exists ss. split_and!; try done. simpl. lia. }
  pose proof (Z.div_mod i 8 ltac:(done)) as Edm. pose proof (Z.mod_pos_bound i 8 ltac:(done)) as Hm.
  assert (0 ≤ i / 8 < len ss) as Hq by lia. pose proof (le_value_nonneg ss Hok).
  assert (0 < 2 ^ (i mod 8)) by (apply Z.pow_pos_nonneg; lia).
  assert (2 ^ (i mod 8) ≤ 2 ^ 7) by (apply Z.pow_le_mono_r; lia). change (2 ^ 7) with 128 in *.
  assert (le_value ss / 256 ^ (i / 8) < 2 ^ (i mod 8)) as Hb.
  { apply byte_at_above; try done; try lia. by rewrite <-Edm. }
  assert (0 ≤ le_value ss / 256 ^ (i / 8)) by (apply Z.div_pos; [lia|apply Z.pow_pos_nonneg; lia]).
  assert (byte_at ss (i / 8) = le_value ss / 256 ^ (i / 8)) as Hbq.
  { rewrite byte_at_value by (done || lia). apply Z.mod_small. lia. }
  destruct (or_at_add ss (i / 8) (i mod 8) 1) as (ss' & E & Hok' & Hl' & HL'); try done; try lia.
  rewrite Z.mul_1_l in E, HL'. rewrite Z.shiftl_1_l. exists ss'. split_and!; try done.
  - by apply or_at_app.
  - rewrite HL'. cbn [Z.b2z]. rewrite pow_256_2, <-Z.pow_add_r by lia.
    replace (i mod 8 + 8 * (i / 8)) with i by lia. lia.
Qed.

Lemma encode_codes_spec codes i pre ss ms :
  Forall (λ c, -63 ≤ c ≤ 63) codes → 0 ≤ i →
  bytes_ok ss → bytes_ok ms → i + len codes ≤ 8 * len ss → 6 * (i + len codes) ≤ 8 * len ms →
  le_value ss < 2 ^ i → le_value ms < 64 ^ i →
  ∃ ss' ms', encode_codes codes i (len pre) (len pre + len ss) (pre ++ ss ++ ms)
    = Ok (pre ++ ss' ++ ms') ∧
    bytes_ok ss' ∧ bytes_ok ms' ∧ len ss' = len ss ∧ len ms' = len ms ∧
    le_value ss' = le_value ss + signs_value codes * 2 ^ i ∧
    le_value ms' = le_value ms + magnitudes_value codes * 64 ^ i.
Proof.
  intros Hc. revert i ss ms. induction Hc as [|c codes Hc _ IH];
    intros i ss ms Hi Hss Hms Hls Hlm HLs HLm.
  { exists ss, ms. split_and!; try done; cbn; lia. }
  cbn [encode_codes]. rewrite len_cons in *. pose proof (len_nonneg codes).
  destruct (set_sign_spec pre ss ms i (c <? 0)) as (ss' & E & Hss' & Hls' & HLs'); [done|lia|done|].
  rewrite E. cbn [mbind result_bind].
  assert (slice_from (len pre + len ss) (pre ++ ss' ++ ms) = Ok ms) as ->.
  { unfold slice_from. rewrite app_assoc, get_from_app by (rewrite len_app; lia). done. }
  cbn [mbind result_bind].
  destruct (encode_magnitude_spec ms i (Z.abs c)) as (ms' & Em & Hms' & Hlm' & HLm');
    [done|lia|lia|done|lia|].
  rewrite Em. cbn [mbind result_bind].
  assert (ztake (len pre + len ss) (pre ++ ss' ++ ms) ++ ms' = pre ++ ss' ++ ms') as ->.
  { rewrite app_assoc, ztake_app_eq by (rewrite len_app; lia). by rewrite <-app_assoc. }
  assert (2 ^ (i + 1) = 2 * 2 ^ i) as E2 by (rewrite Z.pow_add_r by lia; lia).
  assert (64 ^ (i + 1) = 64 * 64 ^ i) as E64 by (rewrite Z.pow_add_r by lia; lia).
  assert (0 < 64 ^ i ∧ 0 < 2 ^ i) as [??] by (split; apply Z.pow_pos_nonneg; lia).
  rewrite <-Hls'.
  destruct (IH (i + 1) ss' ms') as (ss2 & ms2 & E3 & H2); try done; try lia.
  { rewrite HLs', E2. destruct (c <? 0); cbn [Z.b2z]; lia. }
  { rewrite HLm', E64. nia. }
  exists ss2, ms2. split; [done|]. destruct H2 as (? & ? & ? & ? & HS & HM).
  split_and!; try done; try lia.
  - rewrite HS, HLs', E2. cbn [signs_value]. lia.
  - rewrite HM, HLm', E64. cbn [magnitudes_value]. lia.
Qed.

(** The digits and bits of the stream values are the codes. *)
Lemma magnitudes_value_digit codes i c :
  Forall (λ c, -63 ≤ c ≤ 63) codes → codes !! i = Some c →
  magnitudes_value codes / 64 ^ Z.of_nat i mod 64 = Z.abs c.
Proof.
  intros Hc. revert i. induction Hc as [|x codes Hx _ IH]; intros i Hi; [done|].
  cbn [magnitudes_value]. destruct i as [|i].
  - injection Hi as ->. rewrite Z.pow_0_r, Z.div_1_r, Z.mul_comm, Z.mod_add by done.
    apply Z.mod_small. lia.
  - rewrite Nat2Z.inj_succ, Z.pow_succ_r, <-Z.div_div by (try apply Z.pow_pos_nonneg; lia).
    rewrite Z.mul_comm, Z.div_add, (Z.div_small (Z.abs x)) by lia. by apply IH.
Qed.
Lemma signs_value_bit codes i c :
  codes !! i = Some c → Z.testbit (signs_value codes) (Z.of_nat i) = (c <? 0).
Proof.
  revert i. induction codes as [|x codes IH]; intros i Hi; [done|]. cbn [signs_value].
  destruct i as [|i].
  - injection Hi as ->. rewrite Z.add_comm. apply Z.testbit_0_r.
  - rewrite Nat2Z.inj_succ, Z.add_comm, Z.testbit_succ_r by lia. by apply IH.
Qed.
Lemma magnitudes_value_bound codes :
  Forall (λ c, -63 ≤ c ≤ 63) codes → 0 ≤ magnitudes_value codes < 64 ^ len codes.
Proof.
  induction 1 as [|c codes Hc _ IH]; [done|]. pose proof (len_nonneg codes).
  rewrite len_cons, Z.pow_add_r by lia. cbn [magnitudes_value]. lia.
Qed.
Lemma signs_value_bound codes : 0 ≤ signs_value codes < 2 ^ len codes.
Proof.
  induction codes as [|c codes IH]; [done|]. pose proof (len_nonneg codes).
  rewrite len_cons, Z.pow_add_r by lia. cbn [signs_value]. destruct (c <? 0); cbn [Z.b2z]; lia.
Qed.

Lemma copy4_app pre old new post start :
  start = len pre → len old = 4 → len new = 4 →
  copy4 start new (pre ++ old ++ post) = Ok (pre ++ new ++ post).
Proof.
  intros -> Ho Hn. unfold copy4. pose proof (len_nonneg post). rewrite !len_app, Ho, Hn.
  rewrite (proj2 (Z.leb_le _ _)) by lia. cbn [andb Z.eqb Pos.eqb].
  rewrite ztake_app. assert (zdrop (len pre + 4) (pre ++ old ++ post) = post) as ->; [|done].
  rewrite app_assoc. apply zdrop_app_eq. rewrite len_app. lia.
Qed.

(** The buffer after the three header writes. *)
Lemma header_writes s n e sb mb :
  0 ≤ sb → 0 ≤ mb →
  (copy4 0 (le_bytes4 s) (zeroed_buffer (12 + sb + mb)) ≫= λ b,
   copy4 4 (le_bytes4 n) b ≫= copy4 8 (le_bytes4 e)) =
  Ok ((le_bytes4 s ++ le_bytes4 n ++ le_bytes4 e) ++ zeroed_buffer sb ++ zeroed_buffer mb).
Proof.
  intros Hs Hm. unfold zeroed_buffer at 1.
  replace (Z.to_nat (12 + sb + mb)) with (4 + (4 + (4 + (Z.to_nat sb + Z.to_nat mb))))%nat by lia.
  rewrite !replicate_add. fold (zeroed_buffer sb). fold (zeroed_buffer mb).
  set (z := zeroed_buffer sb ++ zeroed_buffer mb). set (o := replicate 4 0).
  pose proof (copy4_app [] o (le_bytes4 s) (o ++ o ++ z) 0 eq_refl eq_refl eq_refl) as E1.
  pose proof (copy4_app (le_bytes4 s) o (le_bytes4 n) (o ++ z) 4 eq_refl eq_refl eq_refl) as E2.
  pose proof (copy4_app (le_bytes4 s ++ le_bytes4 n) o (le_bytes4 e) z 8 eq_refl eq_refl eq_refl) as E3.
  rewrite <-!app_assoc in E3. cbn [app] in E1. rewrite E1. cbn [mbind result_bind].
  rewrite E2. cbn [mbind result_bind]. rewrite E3. by rewrite <-!app_assoc.
Qed.

Lemma le_bytes4_value v :
  u32_ok v →
  bytes_ok (le_bytes4 v) ∧
  byte_at (le_bytes4 v) 0 + 256 * (byte_at (le_bytes4 v) 1 +
    256 * (byte_at (le_bytes4 v) 2 + 256 * byte_at (le_bytes4 v) 3)) = v.
Proof.
  intros Hv. unfold u32_ok in Hv. split.
  - repeat constructor; by apply Z.mod_pos_bound.
  - change (v mod 256 + 256 * (v / 256 mod 256 + 256 * (v / 65536 mod 256 +
      256 * (v / 16777216 mod 256))) = v).
    change 65536 with (256 * 256). change 16777216 with (256 * 256 * 256).
    rewrite <-!Z.div_div by lia. rewrite (Z.mod_small (v / 256 / 256 / 256) 256).
    + pose proof (Z.div_mod v 256 ltac:(done)). pose proof (Z.div_mod (v / 256) 256 ltac:(done)).
      pose proof (Z.div_mod (v / 256 / 256) 256 ltac:(done)). lia.
    + split; [repeat apply Z.div_pos; lia|]. repeat apply Z.div_lt_upper_bound; lia.
Qed.

(** What a payload written from codes looks like to the reader. *)
Lemma payload_view_written s n e (codes ss ms : list Z) :
  let d := len codes in
  u32_ok s → u32_ok n → u32_ok e → len ss = sign_bytes d →
  payload_view ((le_bytes4 s ++ le_bytes4 n ++ le_bytes4 e) ++ ss ++ ms) d =
  mkRaBitQ7 (mkHeader s n e) d ss ms.
Proof.
  intros d Hs Hn He Hl. unfold payload_view. cbv zeta.
  set (h := le_bytes4 s ++ le_bytes4 n ++ le_bytes4 e). assert (len h = 12) as Hh by done.
  assert (∀ v, u32_ok v → v = v mod 256 + 256 * (v / 256 mod 256 + 256 * (v / 65536 mod 256 +
      256 * (v / 16777216 mod 256)))) as Hv.
  { intros v Hv. by destruct (le_bytes4_value v Hv) as [_ E]. }
  f_equal.
  - f_equal; symmetry; by apply Hv.
  - rewrite (zdrop_app_eq 12 h) by done. by rewrite ztake_app_eq.
  - rewrite app_assoc. apply zdrop_app_eq. rewrite len_app. lia.
Qed.

Definition code_norm (codes : list Z) : Z := foldr (λ c acc, c ^ 2 + acc) 0 codes.

Lemma sum_squares_codes c (codes pre : list Z) :
  (∀ i x, codes !! i = Some x → magnitude_at (rq_magnitudes c) (len pre + Z.of_nat i) = Z.abs x) →
  sum_squares c (seqZ (len pre) (len codes)) = code_norm codes.
Proof.
  revert pre. induction codes as [|x codes IH]; intros pre H; [done|].
  rewrite len_cons. pose proof (len_nonneg codes). rewrite seqZ_cons by lia.
  cbn [sum_squares code_norm foldr].
  pose proof (H 0%nat x eq_refl) as Hx0. rewrite Z.add_0_r in Hx0. rewrite Hx0. fold (code_norm codes). rewrite <-(IH (pre ++ [x])).
  - rewrite !Z.pow_2_r, Z.abs_square. do 3 f_equal; [|lia]. rewrite len_app. change (len [x]) with 1. lia.
  - intros i y Hi. rewrite len_app. change (len [x]) with 1.
    rewrite <-(H (S i) y Hi). f_equal. lia.
Qed.

Lemma code_norm_u32 codes :
  Forall (λ c, -63 ≤ c ≤ 63) codes → len codes ≤ MAX_DIMENSION → u32_ok (code_norm codes).
Proof.
  intros Hc Hl. assert (0 ≤ code_norm codes ≤ 3969 * len codes); [|unfold u32_ok, MAX_DIMENSION in *; lia].
  clear Hl. induction Hc as [|c codes Hc _ IH]; [done|]. rewrite len_cons.
  cbn [code_norm foldr]. fold (code_norm codes). nia.
Qed.
Lemma zeroed_ok n : bytes_ok (zeroed_buffer n).
Proof. apply Forall_replicate. done. Qed.
Lemma len_zeroed n : 0 ≤ n → len (zeroed_buffer n) = n.
Proof. intros. unfold len, zeroed_buffer. rewrite length_replicate. lia. Qed.

(** RaBitQ7 payloads round-trip: for every nonempty code sequence of
    seven-bit codes within the dimension limit, with canonical header values and
    the matching norm, the encoder produces a payload of exactly [encoded_len]
    bytes that the validating decoder accepts, with the same header and the same
    signed code at every index. *)
Lemma rabitq_payload_roundtrip s e codes n :
  Forall (λ c, -63 ≤ c ≤ 63) codes → encoded_len (len codes) = Ok n →
  canonical_nonnegative s = true → canonical_nonnegative e = true → u32_ok s → u32_ok e →
  (code_norm codes = 0 → s = 0 ∧ e = 0) →
  ∃ encoded code, encode_payload n s (code_norm codes) e codes = Ok encoded ∧
    bytes_ok encoded ∧ len encoded = n ∧
    RaBitQ7_decode encoded (len codes) = Ok code ∧
    rq_header code = mkHeader s (code_norm codes) e ∧
    ∀ i c, codes !! i = Some c → RaBitQ7_signed_code code (Z.of_nat i) = Ok c.
Proof.
  intros Hc Hn Hs He Hsu Heu Hzero. apply encoded_len_ok in Hn as [Hd ->].
  set (d := len codes) in *. pose proof (sizes_bound d ltac:(lia)) as Hsz.
  assert (u32_ok (code_norm codes)) as Hnu by (apply code_norm_u32; [done|fold d; lia]).
  set (h := le_bytes4 s ++ le_bytes4 (code_norm codes) ++ le_bytes4 e).
  destruct (encode_codes_spec codes 0 h (zeroed_buffer (sign_bytes d)) (zeroed_buffer (magnitude_bytes d)))
    as (ss & ms & Henc & Hss & Hms & Hls & Hlm & HLs & HLm); try done.
  1, 2: apply zeroed_ok.
  1, 2: rewrite len_zeroed by lia; fold d; lia.
  1, 2: by rewrite le_value_zeroed.
  rewrite le_value_zeroed, Z.pow_0_r, Z.mul_1_r, Z.add_0_l in HLs, HLm.
  rewrite len_zeroed in Hls, Hlm, Henc by lia. change (len h) with 12 in Henc.
  pose proof (payload_view_written s (code_norm codes) e codes ss ms Hsu Hnu Heu Hls) as Hview.
  fold h d in Hview. cbv zeta in Hview.
  assert (bytes_ok (h ++ ss ++ ms)) as Hok.
  { apply bytes_ok_app. split; [|by apply bytes_ok_app]. unfold h. rewrite !bytes_ok_app.
    split_and!; by apply le_bytes4_value. }
  assert (len (h ++ ss ++ ms) = 12 + sign_bytes d + magnitude_bytes d) as Hlen.
  { rewrite !len_app, Hls, Hlm. change (len h) with 12. lia. }
  assert (∀ i x, codes !! i = Some x → magnitude_at ms (Z.of_nat i) = Z.abs x ∧
    negative_at ss (Z.of_nat i) = (x <? 0)) as Hread.
  { intros i x Hi. unfold magnitude_at, negative_at. rewrite HLs, HLm.
    split; [by apply magnitudes_value_digit|by apply signs_value_bit]. }
  exists (h ++ ss ++ ms), (mkRaBitQ7 (mkHeader s (code_norm codes) e) d ss ms).
  split; [|split; [done|]; split; [done|]; split; [|split; [done|]]].
  - unfold encode_payload. pose proof (header_writes s (code_norm codes) e (sign_bytes d)
      (magnitude_bytes d) ltac:(lia) ltac:(lia)) as Hw.
    apply bind_ok in Hw as (b1 & -> & Hw). apply bind_ok in Hw as (b2 & Hw2 & Hw).
    cbn [mbind result_bind]. rewrite Hw2. cbn [mbind result_bind]. rewrite Hw. exact Henc.
  - rewrite decode_branches by done. cbv zeta. rewrite Hview.
    cbn [rq_signs rq_magnitudes rq_header scale code_norm_squared reconstruction_error_upper].
    rewrite HLs, HLm, Hs, He. cbn [andb].
    pose proof (magnitudes_value_bound codes Hc) as Hmb. pose proof (signs_value_bound codes) as Hsb.
    fold d in Hmb, Hsb.
    rewrite !(proj2 (Z.ltb_lt _ _)) by lia. cbn [andb].
    rewrite (proj2 (canonical_components_spec _ _)).
    2: { intros i Hi%elem_of_seqZ Hz. cbn [rq_magnitudes rq_signs] in *.
         destruct (lookup_lt_is_Some_2 codes (Z.to_nat i)) as [x Hx]; [unfold d, len in Hi; lia|].
         destruct (Hread _ _ Hx) as [Hm Hg]. rewrite Z2Nat.id in Hm, Hg by lia.
         rewrite Hg. apply Z.ltb_ge. lia. }
    pose proof (sum_squares_codes (mkRaBitQ7 (mkHeader s (code_norm codes) e) d ss ms) codes []) as Hsum.
    change (len (@nil Z)) with 0 in Hsum. fold d in Hsum. rewrite Hsum.
    2: { intros i x Hx. rewrite Z.add_0_l. by apply Hread. }
    rewrite Z.eqb_refl. cbn [andb]. destruct (Z.eqb_spec (code_norm codes) 0) as [E0|]; [|done].
    by destruct (Hzero E0) as [-> ->].
  - intros i c Hi. destruct (Hread i c Hi) as [Hm Hg].
    assert (Z.of_nat i < d) by (apply lookup_lt_Some in Hi; unfold d, len; lia).
    unfold RaBitQ7_signed_code. cbn [rq_signs rq_magnitudes].
    rewrite is_negative_spec, decode_magnitude_spec; try done; try lia.
    + cbn [mbind result_bind]. rewrite Hm, Hg. destruct (Z.ltb_spec c 0); f_equal; lia.
    + rewrite Hlm. apply Z.div_lt_upper_bound; lia.
    + rewrite Hls. apply Z.div_lt_upper_bound; lia.
Qed.
