(* ===== verification/Manifest.v ===== *)
(** The Index Manifest as the value codecs see it
    (src/src/storage/values/manifest.rs, src/src/api/config.rs): the immutable
    index configuration, the Bloom parameters and the accessors that derive
    codec shapes from them. *)
From S2P Require Import Prelude RustStd Api TreeKey RaBitQ.

Definition MAX_ENCODED_SYNOPSIS_BYTES : Z := 64 * 1024.
Definition MAX_SYNOPSIS_BYTES : Z := MAX_ENCODED_SYNOPSIS_BYTES.

Module Metric.
Inductive t := L2 | Cosine | InnerProduct.
#[global] Instance eq_dec : EqDecision t.
Proof. solve_decision. Defined.
End Metric.
Module IndexLifecycle.
Inductive t := Building | Active | Dropping.
#[global] Instance eq_dec : EqDecision t.
Proof. solve_decision. Defined.
End IndexLifecycle.

Record LocalGraphConfig := mkGraphConfig {
  gc_m : Z; gc_ef_construction : Z; gc_seed : list Z
}.
Definition LocalGraphConfig_new (m ef_construction : Z) (seed : list Z) : result LocalGraphConfig :=
  if negb ((2 <=? m) && (m <=? 16)) || (ef_construction <? m) then Err InvalidArgument
  else Ok (mkGraphConfig m ef_construction seed).

Record IndexConfig := mkIndexConfig {
  ic_graph : option LocalGraphConfig;
  ic_dimension : Z;
  ic_metric : Metric.t;
  ic_fields : list FieldSchema;
  ic_tree_key_fields : list Z;
  ic_min_leaf_partition_entries : Z;
  ic_min_internal_partition_entries : Z;
  ic_max_leaf_partition_entries : Z;
  ic_max_internal_partition_entries : Z
}.

(** ** Bloom parameters *)
Record BloomParameters := mkBloom { bp_bit_count : Z; bp_hash_count : Z }.
Definition BloomParameters_byte_count (p : BloomParameters) : Z := div_ceil (bp_bit_count p) 8.
Definition BloomParameters_new (bit_count hash_count : Z) : result BloomParameters :=
  let parameters := mkBloom bit_count hash_count in
  if (bit_count =? 0) || (hash_count =? 0)
     || (MAX_SYNOPSIS_BYTES <? BloomParameters_byte_count parameters)
  then Err InvalidArgument else Ok parameters.

(** ** Index Manifest *)
Record IndexManifest := mkManifest {
  im_lifecycle : IndexLifecycle.t;
  im_logical_index_id : Z;
  im_config : IndexConfig;
  im_rotation_seed : list Z;
  im_bloom_parameters : list (option BloomParameters)
}.

#[global] Instance LocalGraphConfig_eq_dec : EqDecision LocalGraphConfig.
Proof. solve_decision. Defined.
#[global] Instance FieldSchema_eq_dec : EqDecision FieldSchema.
Proof. solve_decision. Defined.
#[global] Instance IndexConfig_eq_dec : EqDecision IndexConfig.
Proof. solve_decision. Defined.
#[global] Instance BloomParameters_eq_dec : EqDecision BloomParameters.
Proof. solve_decision. Defined.

Definition dimension (m : IndexManifest) : Z := ic_dimension (im_config m).
Definition fields (m : IndexManifest) : list FieldSchema := ic_fields (im_config m).

(** [maximum_typed_value_len] (src/src/storage/values/data.rs). *)
Definition maximum_typed_value_len (ty : DataType.t) : Z :=
  match ty with
  | DataType.Bool => 2
  | DataType.I64 | DataType.F64 => 9
  | DataType.String => 1 + 4 + MAX_STRING_BYTES
  end.

Fixpoint synopsis_len_loop (fs : list FieldSchema) (ps : list (option BloomParameters)) (size : Z)
    : Z :=
  match fs, ps with
  | field :: fs, parameters :: ps =>
      let size := size + (1 + 2 * maximum_typed_value_len (fs_data_type field)) in
      let size := match parameters with
                  | Some p => size + (4 + BloomParameters_byte_count p)
                  | None => size
                  end in
      synopsis_len_loop fs ps size
  | _, _ => size
  end.
Definition maximum_synopsis_encoded_len (m : IndexManifest) : Z :=
  synopsis_len_loop (fields m) (im_bloom_parameters m) (1 + 2).

(** [tree_key_types] followed by the callers' [&types[..type_count]]: the array
    has [MAX_FIELDS] slots, and both indexings panic out of range. *)
Fixpoint tree_types_loop (fs : list FieldSchema) (ids : list Z) : result (list DataType.t) :=
  match ids with
  | [] => Ok []
  | id :: ids =>
      or_panic (fs !! Z.to_nat id) ≫= λ field,
      tree_types_loop fs ids ≫= λ types, Ok (fs_data_type field :: types)
  end.
Definition tree_key_types (m : IndexManifest) : result (list DataType.t) :=
  let ids := ic_tree_key_fields (im_config m) in
  tree_types_loop (fields m) (ztake MAX_FIELDS ids) ≫= λ types,
  if MAX_FIELDS <? len ids then Panic else Ok types.

Lemma tree_types_loop_length fs ids types : tree_types_loop fs ids = Ok types → length types = length ids.
Proof.
  revert types. induction ids as [|id ids IH]; intros types H; cbn in H; [by apply Ok_inj in H as <-|].
  apply bind_ok in H as (f & _ & H). apply bind_ok in H as (ts & Hts & H). apply Ok_inj in H as <-.
  cbn. f_equal. by apply IH.
Qed.

(** Equality of configurations as the derived [PartialEq]; the probabilities
    compared are finite and nonzero, so bit equality is numeric equality. *)
Definition has_same_immutable_identity (a b : IndexManifest) : bool :=
  (im_logical_index_id a =? im_logical_index_id b)
  && bool_decide (im_config a = im_config b)
  && bool_decide (im_rotation_seed a = im_rotation_seed b)
  && bool_decide (im_bloom_parameters a = im_bloom_parameters b).

(** What [IndexManifest::new] establishes and the serving codecs rely on: a
    dimension in range, aligned bounded Bloom parameters, Tree Key fields that
    exist. *)
Definition manifest_ok (m : IndexManifest) : Prop :=
  id_ok (im_logical_index_id m) ∧
  1 ≤ dimension m ≤ MAX_DIMENSION ∧
  len (fields m) ≤ MAX_FIELDS ∧
  length (im_bloom_parameters m) = length (fields m) ∧
  Forall (λ p, ∀ b, p = Some b → BloomParameters_new (bp_bit_count b) (bp_hash_count b) = Ok b ∧
                       u32_ok (bp_bit_count b)) (im_bloom_parameters m) ∧
  maximum_synopsis_encoded_len m ≤ MAX_SYNOPSIS_BYTES ∧
  ∃ types, tree_key_types m = Ok types.
