(* ===== verification/Wire.v ===== *)
(** Canonical framing and primitive wire encoding
    (src/src/storage/values/wire.rs): the [Encoder] that appends big-endian
    fields to a tagged body, the bounds-checked [Decoder], and the two
    specification relations, [emits] and [parses], that every persistent value
    codec is proved against. *)
From S2P Require Import Prelude RustStd Api TreeKey.

Definition MAX_VALUE_BYTES : Z := 1024 * 1024.
Definition USIZE_LIMIT : Z := 2 ^ 64.

(** ** Encoder

    An [Encoder] is the byte vector built so far; the methods take it last. *)
Definition Encoder_new (tag : Z) : list Z := [tag].
Definition Encoder_u8 (value : Z) (e : list Z) : list Z := e ++ [value].
Definition Encoder_bool (value : bool) (e : list Z) : list Z := Encoder_u8 (if value then 1 else 0) e.
Definition Encoder_u16 (value : Z) (e : list Z) : list Z := e ++ be_bytes 2 value.
Definition Encoder_u32 (value : Z) (e : list Z) : list Z := e ++ be_bytes 4 value.
Definition Encoder_u64 (value : Z) (e : list Z) : list Z := e ++ be_bytes 8 value.
Definition Encoder_f32 (value : Z) (e : list Z) : result (list Z) :=
  if negb (F32.is_finite value) then Err InvalidArgument
  else Ok (Encoder_u32 (if F32.is_zero value then 0 else value) e).
Definition canonical_f64_bits (value : Z) : result Z :=
  if negb (F64.is_finite value) then Err InvalidArgument
  else Ok (if F64.is_zero value then 0 else value).
Definition Encoder_f64 (value : Z) (e : list Z) : result (list Z) :=
  canonical_f64_bits value ≫= λ bits, Ok (Encoder_u64 bits e).
Definition Encoder_bytes (value : list Z) (e : list Z) : list Z := e ++ value.
(** [uN::try_from(usize)]. *)
Definition try_from_usize (bits value : Z) : result Z :=
  if value <? 2 ^ bits then Ok value else Err InvalidArgument.
Definition Encoder_sized_bytes (value : list Z) (maximum : Z) (e : list Z) : result (list Z) :=
  if maximum <? len value then Err InvalidArgument
  else try_from_usize 32 (len value) ≫= λ n, Ok (Encoder_bytes value (Encoder_u32 n e)).
Definition Encoder_sized_u8_bytes (value : list Z) (e : list Z) : result (list Z) :=
  try_from_usize 8 (len value) ≫= λ n, Ok (Encoder_bytes value (Encoder_u8 n e)).
Definition Encoder_sized_u16_bytes (value : list Z) (e : list Z) : result (list Z) :=
  try_from_usize 16 (len value) ≫= λ n, Ok (Encoder_bytes value (Encoder_u16 n e)).
Definition Encoder_finish (e : list Z) : result (list Z) :=
  if MAX_VALUE_BYTES <? len e then Err InvalidArgument else Ok e.

(** ** Decoder *)
Record Decoder := mkDecoder { dec_bytes : list Z; dec_position : Z }.

(** A decoding method: [&mut Decoder] threaded through, errors first. *)
Definition Dec (A : Type) : Type := Decoder → result (A * Decoder).
Definition dec_ret {A} (a : A) : Dec A := λ d, Ok (a, d).
Definition dec_bind {A B} (p : Dec A) (f : A → Dec B) : Dec B := λ d,
  match p d with Ok (a, d') => f a d' | Err e => Err e | Panic => Panic end.
(** A fallible computation that does not touch the decoder, under [?]. *)
Definition dec_lift {A} (r : result A) : Dec A := λ d, r ≫= λ a, Ok (a, d).
Notation "'dlet' x ':=' p 'in' q" := (dec_bind p (λ x, q))
  (at level 10, x name, p at level 100, q at level 200) : ktann_scope.

Definition Decoder_framed (tag : Z) (bytes : list Z) : result Decoder :=
  match bytes with
  | [] => Err Corruption
  | first :: _ =>
      if (MAX_VALUE_BYTES <? len bytes) || negb (first =? tag) then Err Corruption
      else Ok (mkDecoder bytes 1)
  end.
Definition take_range (length : Z) : Dec (Z * Z) := λ d,
  let end_ := dec_position d + length in
  if USIZE_LIMIT <=? end_ then Err Corruption
  else if len (dec_bytes d) <? end_ then Err Corruption
  else Ok ((dec_position d, end_), mkDecoder (dec_bytes d) end_).
(** [&self.bytes[start..end]], panicking when out of range. *)
Definition slice_range (start end_ : Z) (bytes : list Z) : result (list Z) :=
  if (start <=? end_) && (end_ <=? len bytes) then Ok (ztake (end_ - start) (zdrop start bytes))
  else Panic.
Definition Decoder_take (length : Z) : Dec (list Z) :=
  dlet range := take_range length in
  λ d, slice_range range.1 range.2 (dec_bytes d) ≫= λ s, Ok (s, d).
Definition Decoder_take_bytes (length : Z) : Dec (list Z) := Decoder_take length.
Definition Decoder_array (n : Z) : Dec (list Z) :=
  dlet s := Decoder_take n in
  dec_lift (if len s =? n then Ok s else Err Corruption).
Definition Decoder_u8 : Dec Z :=
  dlet s := Decoder_take 1 in dec_lift (or_panic (s !! 0%nat)).
Definition Decoder_bool : Dec bool :=
  dlet b := Decoder_u8 in
  dec_lift (if b =? 0 then Ok false else if b =? 1 then Ok true else Err Corruption).
Definition Decoder_u16 : Dec Z := dlet a := Decoder_array 2 in dec_ret (be_value a).
Definition Decoder_u32 : Dec Z := dlet a := Decoder_array 4 in dec_ret (be_value a).
Definition Decoder_u64 : Dec Z := dlet a := Decoder_array 8 in dec_ret (be_value a).
Definition Decoder_logical_index_id : Dec Z :=
  dlet v := Decoder_u64 in dec_lift (map_err Corruption (LogicalIndexId_new v)).
Definition Decoder_partition_key : Dec Z :=
  dlet v := Decoder_u64 in dec_lift (map_err Corruption (PartitionKey_new v)).
Definition Decoder_i64 : Dec Z :=
  dlet a := Decoder_array 8 in dec_ret (u64_as_i64 (be_value a)).
(** [as_chunks::<4>().0]: the complete four-byte groups. *)
Fixpoint as_chunks4 (bs : list Z) : list (list Z) :=
  match bs with
  | a :: b :: c :: d :: t => [a; b; c; d] :: as_chunks4 t
  | _ => []
  end.
Definition Decoder_canonical_f32s (count : Z) : Dec (list Z) :=
  dlet byte_count :=
    dec_lift (if USIZE_LIMIT <=? count * 4 then Err Corruption else Ok (count * 4)) in
  dlet raw := Decoder_take byte_count in
  let values := be_value <$> as_chunks4 raw in
  let invalid := foldl (λ invalid value,
    invalid || negb (F32.is_finite value) || (value =? F32.NEG_ZERO)) false values in
  dec_lift (if invalid then Err Corruption else Ok values).
Definition Decoder_canonical_f64 : Dec Z :=
  dlet bits := Decoder_u64 in
  dec_lift (if negb (F64.is_finite bits) || (F64.is_zero bits && negb (bits =? 0))
            then Err Corruption else Ok bits).
Definition Decoder_sized_bytes (maximum : Z) : Dec (list Z) :=
  dlet length := Decoder_u32 in
  if maximum <? length then dec_lift (Err Corruption) else Decoder_take_bytes length.
Definition Decoder_sized_u8_bytes : Dec (list Z) :=
  dlet length := Decoder_u8 in Decoder_take_bytes length.
Definition Decoder_sized_u16_bytes (maximum : Z) : Dec (list Z) :=
  dlet length := Decoder_u16 in
  if maximum <? length then dec_lift (Err Corruption) else Decoder_take_bytes length.
Definition Decoder_finish (d : Decoder) : result unit :=
  if negb (dec_position d =? len (dec_bytes d)) then Err Corruption else Ok tt.

(** ** Specifications

    A grammar relates a value to the bytes that encode it.  A decoder [parses]
    a grammar when, from every position of every byte string, it consumes
    exactly the bytes the grammar gives for the value it returns, and fails
    with [Corruption] on everything else. *)
Definition grammar (A : Type) : Type := A → list Z → Prop.
Definition dec_rest (d : Decoder) : list Z := zdrop (dec_position d) (dec_bytes d).
Definition dec_ok (d : Decoder) : Prop :=
  bytes_ok (dec_bytes d) ∧ len (dec_bytes d) ≤ MAX_VALUE_BYTES ∧
  0 ≤ dec_position d ≤ len (dec_bytes d).
Definition advance (d : Decoder) (n : Z) : Decoder :=
  mkDecoder (dec_bytes d) (dec_position d + n).

Definition parses {A} (p : Dec A) (G : grammar A) : Prop := ∀ d, dec_ok d →
  (∀ v d', p d = Ok (v, d') ↔
    ∃ body tail, G v body ∧ dec_rest d = body ++ tail ∧ d' = advance d (len body)) ∧
  ok_or_corrupt (p d).

(** An encoder [emits] a body under a condition: it appends exactly the body
    when the condition holds and fails with [InvalidArgument] otherwise. *)
Definition emits_at (out : list Z) (e : list Z → result (list Z)) (P : Prop) (body : list Z) : Prop :=
  (∀ r, e out = Ok r ↔ P ∧ r = out ++ body) ∧
  ((∃ r, e out = Ok r) ∨ e out = Err InvalidArgument).
Definition emits (e : list Z → result (list Z)) (P : Prop) (body : list Z) : Prop := ∀ out,
  (∀ r, e out = Ok r ↔ P ∧ r = out ++ body) ∧
  ((∃ r, e out = Ok r) ∨ e out = Err InvalidArgument).
Lemma emits_everywhere out e P body : emits e P body → emits_at out e P body.
Proof. intros He. apply He. Qed.

(** *** Decoder states *)
Lemma dec_rest_bytes d : dec_ok d → bytes_ok (dec_rest d).
Proof. intros (? & _). by apply bytes_ok_drop. Qed.
Lemma dec_rest_len d : dec_ok d → len (dec_rest d) = len (dec_bytes d) - dec_position d.
Proof. intros (_ & _ & ?). unfold dec_rest. by rewrite len_zdrop. Qed.
Lemma dec_rest_advance d body tail :
  dec_ok d → dec_rest d = body ++ tail → dec_rest (advance d (len body)) = tail.
Proof.
  intros (_ & _ & ?) E. unfold dec_rest, advance in *. simpl in *.
  rewrite <-zdrop_zdrop by (pose proof (len_nonneg body); lia). rewrite E. apply zdrop_app.
Qed.
Lemma dec_ok_advance d body tail :
  dec_ok d → dec_rest d = body ++ tail → dec_ok (advance d (len body)).
Proof.
  intros Hd E. pose proof (dec_rest_len d Hd) as Hl. destruct Hd as (? & ? & ?).
  rewrite E, len_app in Hl. pose proof (len_nonneg body). pose proof (len_nonneg tail).
  unfold dec_ok, advance. simpl. split_and!; try done; lia.
Qed.
#[export] Hint Resolve dec_ok_advance dec_rest_bytes : ktann.
Lemma advance_0 d : advance d 0 = d.
Proof. destruct d. unfold advance. simpl. f_equal. lia. Qed.
Lemma advance_advance d n m : advance (advance d n) m = advance d (n + m).
Proof. unfold advance. simpl. f_equal. lia. Qed.

(** *** Combining parsers *)
Lemma parses_ext_len {A} (p : Dec A) (G G' : grammar A) :
  parses p G →
  (∀ v body, bytes_ok body → len body ≤ MAX_VALUE_BYTES → G v body ↔ G' v body) →
  parses p G'.
Proof.
  intros Hp HG d Hd. destruct (Hp d Hd) as [Hv Ht]. split; [|done].
  intros v d'. rewrite Hv. pose proof (dec_rest_bytes d Hd) as Hb.
  pose proof (dec_rest_len d Hd) as Hl. destruct Hd as (_ & Hmax & Hpos).
  split; intros (body & tail & Hg & E & ->); exists body, tail; rewrite E in Hb, Hl;
    apply bytes_ok_app in Hb as [Hb _]; rewrite len_app in Hl; pose proof (len_nonneg tail);
    (split; [by apply HG; [|lia|]|done]).
Qed.
Lemma parses_ext {A} (p : Dec A) (G G' : grammar A) :
  parses p G → (∀ v body, bytes_ok body → G v body ↔ G' v body) → parses p G'.
Proof. intros Hp HG. apply (parses_ext_len p G); auto. Qed.

Lemma parses_ret {A} (a : A) : parses (dec_ret a) (λ v body, v = a ∧ body = []).
Proof.
  intros d Hd. split; [|left; by eexists]. intros v d'. unfold dec_ret. split.
  - intros [= -> ->]. exists [], (dec_rest d'). by rewrite len_nil, advance_0.
  - intros (body & tail & [-> ->] & _ & ->). by rewrite len_nil, advance_0.
Qed.

Lemma parses_lift {A} (r : result A) :
  ok_or_corrupt r → parses (dec_lift r) (λ v body, r = Ok v ∧ body = []).
Proof.
  intros Hr d Hd. unfold dec_lift. split; [|apply ok_or_corrupt_bind; [done|]; intros; left; by eexists].
  intros v d'. rewrite bind_ok. split.
  - intros (a & -> & [= -> ->]). exists [], (dec_rest d'). by rewrite len_nil, advance_0.
  - intros (body & tail & [-> ->] & _ & ->). exists v. by rewrite len_nil, advance_0.
Qed.

Lemma parses_bind {A B} (p : Dec A) (f : A → Dec B) (G : grammar A) (H : A → grammar B) :
  parses p G → (∀ a body, G a body → bytes_ok body → parses (f a) (H a)) →
  parses (dec_bind p f)
    (λ b body, ∃ a b1 b2, G a b1 ∧ H a b b2 ∧ body = b1 ++ b2).
Proof.
  intros Hp Hf d Hd. destruct (Hp d Hd) as [Hv Ht]. unfold dec_bind.
  pose proof (dec_rest_bytes d Hd) as Hb. split.
  - intros v d'. split.
    + intros E. destruct (p d) as [[a d1]| |]; [|done..].
      destruct (proj1 (Hv a d1) eq_refl) as (b1 & tail & Hg & E1 & ->).
      rewrite E1 in Hb. apply bytes_ok_app in Hb as [Hb _].
      destruct (Hf a b1 Hg Hb (advance d (len b1))) as [Hv2 _]; [by eauto with ktann|].
      apply Hv2 in E as (b2 & tail2 & Hh & E2 & ->).
      rewrite (dec_rest_advance d b1 tail) in E2 by done. subst tail.
      exists (b1 ++ b2), tail2. rewrite advance_advance, len_app, E1, app_assoc.
      split_and!; try done. by exists a, b1, b2.
    + intros (body & tail & (a & b1 & b2 & Hg & Hh & ->) & E & ->). rewrite <-app_assoc in E.
      pose proof (dec_ok_advance d b1 (b2 ++ tail) Hd E) as Hd1.
      pose proof E as E0. rewrite E in Hb. apply bytes_ok_app in Hb as [Hb _].
      rewrite (proj2 (Hv a (advance d (len b1)))) by (exists b1, (b2 ++ tail); done).
      destruct (Hf a b1 Hg Hb _ Hd1) as [Hv2 _]. apply Hv2.
      exists b2, tail. rewrite (dec_rest_advance d b1 (b2 ++ tail)), advance_advance, len_app by done.
      done.
  - destruct Ht as [[[a d1] Ep]| ->]; [|by right]. rewrite Ep.
    apply Hv in Ep as (b1 & tail & Hg & E1 & ->).
    rewrite E1 in Hb. apply bytes_ok_app in Hb as [Hb _].
    apply (Hf a b1 Hg Hb). by eauto with ktann.
Qed.

(** Decoding a whole framed body: the frame, the parser and [finish]. *)
Definition decode_framed {A} (tag : Z) (p : Dec A) (bytes : list Z) : result A :=
  Decoder_framed tag bytes ≫= λ d, p d ≫= λ r, Decoder_finish r.2 ≫= λ _, Ok r.1.

(** *** Primitive parsers *)
Lemma take_spec n :
  0 ≤ n → parses (Decoder_take n) (λ v body, bytes_ok v ∧ len v = n ∧ body = v).
Proof.
  intros Hn d Hd. pose proof (dec_rest_len d Hd) as Hl. pose proof (dec_rest_bytes d Hd) as Hb.
  pose proof Hd as (Hbytes & Hmax & Hpos).
  unfold Decoder_take, dec_bind, take_range. cbv zeta.
  destruct (Z.ltb_spec (len (dec_bytes d)) (dec_position d + n)).
  { replace (if USIZE_LIMIT <=? dec_position d + n then _ else _)
      with (@Err (Z * Z * Decoder) Corruption) by by destruct (USIZE_LIMIT <=? _).
    split; [|by right]. intros v d'. split; [done|].
    intros (body & tail & (_ & Hlen & ->) & E & _). rewrite E, len_app in Hl.
    pose proof (len_nonneg tail). lia. }
  rewrite (proj2 (Z.leb_gt USIZE_LIMIT _))
    by (unfold USIZE_LIMIT, MAX_VALUE_BYTES in *; lia).
  assert (slice_range (dec_position d) (dec_position d + n) (dec_bytes d) =
    Ok (ztake n (dec_rest d))) as Es.
  { unfold slice_range. rewrite (proj2 (Z.leb_le _ _)), (proj2 (Z.leb_le _ _)) by lia.
    cbn [andb]. do 2 f_equal. lia. }
  cbn [dec_bytes fst snd]. rewrite Es. cbn [mbind result_bind]. split; [|left; by eexists].
  intros v d'. split.
  - intros [= <- <-]. exists (ztake n (dec_rest d)), (zdrop n (dec_rest d)).
    rewrite len_ztake by lia. split_and!; auto with ktann. symmetry. apply ztake_zdrop.
  - intros (body & tail & (_ & Hlen & ->) & E & ->). rewrite E, ztake_app_eq by done.
    unfold advance. by rewrite Hlen.
Qed.

Lemma array_spec n :
  0 ≤ n → parses (Decoder_array n) (λ v body, bytes_ok v ∧ len v = n ∧ body = v).
Proof.
  intros Hn. eapply parses_ext.
  - apply parses_bind; [by apply take_spec|]. intros a body _ _.
    apply parses_lift. auto with ktann.
  - intros v body _. split.
    + intros (a & b1 & b2 & (Ha & Hl & ->) & [E ->] & ->). rewrite Hl, Z.eqb_refl in E.
      apply Ok_inj in E as ->. by rewrite app_nil_r.
    + intros (Hv & Hl & ->). exists v, v, []. by rewrite Hl, Z.eqb_refl, app_nil_r.
Qed.

Lemma u8_spec : parses Decoder_u8 (λ v body, byte_ok v ∧ body = [v]).
Proof.
  eapply parses_ext.
  - apply parses_bind; [by apply take_spec|]. intros a body (_ & Hl & _) _.
    apply parses_lift. destruct a as [|x a]; [done|]. left. by eexists.
  - intros v body _. split.
    + intros (a & b1 & b2 & (Ha & Hl & ->) & [E ->] & ->).
      destruct a as [|x [|y a]]; [done| |rewrite !len_cons in Hl; pose proof (len_nonneg a); lia].
      apply Ok_inj in E as <-. by apply bytes_ok_cons in Ha as [? _].
    + intros [Hv ->]. exists [v], [v], []. split_and!; try done. apply bytes_ok_cons.
      split; [done|constructor].
Qed.

Lemma lift_if_total {A} (b : bool) (a : A) : ok_or_corrupt (if b then Err Corruption else Ok a).
Proof. auto with ktann. Qed.

Lemma bool_spec : parses Decoder_bool (λ v body, body = [if v : bool then 1 else 0]).
Proof.
  eapply parses_ext.
  - apply parses_bind; [apply u8_spec|]. intros a body _ _. apply parses_lift. auto with ktann.
  - intros v body _. split.
    + intros (a & b1 & b2 & (Ha & ->) & [E ->] & ->).
      destruct (Z.eqb_spec a 0) as [->|]; [by apply Ok_inj in E as <-|].
      destruct (Z.eqb_spec a 1) as [->|]; [by apply Ok_inj in E as <-|done].
    + intros ->. exists (if v then 1 else 0), [if v then 1 else 0], [].
      split_and!; try done; by destruct v.
Qed.

(** A fixed-width big-endian integer. *)
Lemma uint_spec n :
  parses (dlet a := Decoder_array (Z.of_nat n) in dec_ret (be_value a))
    (λ v body, 0 ≤ v < 256 ^ Z.of_nat n ∧ body = be_bytes n v).
Proof.
  eapply parses_ext.
  - apply parses_bind; [apply array_spec; lia|]. intros a body _ _. apply parses_ret.
  - intros v body _. split.
    + intros (a & b1 & b2 & (Ha & Hl & ->) & [-> ->] & ->). rewrite app_nil_r.
      pose proof (be_value_bound a Ha) as Hv. rewrite Hl in Hv. split; [done|].
      assert (n = length a) as -> by (unfold len in Hl; lia). symmetry. by apply be_bytes_value.
    + intros [Hv ->]. exists (be_bytes n v), (be_bytes n v), [].
      rewrite app_nil_r, be_value_bytes, len_be_bytes by done. split_and!; try done.
      apply be_bytes_ok.
Qed.
Lemma u16_spec : parses Decoder_u16 (λ v body, u16_ok v ∧ body = be_bytes 2 v).
Proof. apply (uint_spec 2). Qed.
Lemma u32_spec : parses Decoder_u32 (λ v body, u32_ok v ∧ body = be_bytes 4 v).
Proof. apply (uint_spec 4). Qed.
Lemma u64_spec : parses Decoder_u64 (λ v body, u64_ok v ∧ body = be_bytes 8 v).
Proof. apply (uint_spec 8). Qed.

(** A parser followed by a pure check. *)
Lemma parses_check {A B} (p : Dec A) (G : grammar A) (f : A → result B) :
  parses p G → (∀ a body, G a body → ok_or_corrupt (f a)) →
  parses (dlet a := p in dec_lift (f a)) (λ b body, ∃ a, G a body ∧ f a = Ok b).
Proof.
  intros Hp Hf. eapply parses_ext.
  - apply parses_bind; [exact Hp|]. intros a body Ha _. apply parses_lift. by eapply Hf.
  - intros v body _. split.
    + intros (a & b1 & b2 & Ha & [E ->] & ->). rewrite app_nil_r. eauto.
    + intros (a & Ha & E). exists a, body, []. by rewrite app_nil_r.
Qed.
(** Two parsers in sequence, paired. *)
Lemma parses_map {A B} (p : Dec A) (G : grammar A) (f : A → B) :
  parses p G → parses (dlet a := p in dec_ret (f a)) (λ b body, ∃ a, G a body ∧ b = f a).
Proof.
  intros Hp. eapply parses_ext.
  - apply parses_bind; [exact Hp|]. intros a body _ _. apply parses_ret.
  - intros v body _. split.
    + intros (a & b1 & b2 & Ha & [-> ->] & ->). rewrite app_nil_r. eauto.
    + intros (a & Ha & ->). exists a, body, []. by rewrite app_nil_r.
Qed.

Lemma new_id_total v : ok_or_corrupt (map_err Corruption (PartitionKey_new v)).
Proof. unfold PartitionKey_new. destruct (v =? 0); simpl; auto with ktann. Qed.
Lemma partition_key_spec :
  parses Decoder_partition_key (λ v body, id_ok v ∧ body = be_bytes 8 v).
Proof.
  eapply parses_ext; [apply parses_check; [apply u64_spec|intros; apply new_id_total]|].
  unfold PartitionKey_new, id_ok, u64_ok. intros v body _. split.
  - intros (a & [Ha ->] & E). destruct (Z.eqb_spec a 0); [done|]. apply Ok_inj in E as ->.
    split; [lia|done].
  - intros [Hv ->]. exists v. rewrite (proj2 (Z.eqb_neq v 0)) by lia. split; [split; [lia|done]|done].
Qed.
Lemma logical_index_id_spec :
  parses Decoder_logical_index_id (λ v body, id_ok v ∧ body = be_bytes 8 v).
Proof. exact partition_key_spec. Qed.

Lemma i64_spec : parses Decoder_i64 (λ v body, i64_ok v ∧ body = be_bytes 8 (i64_as_u64 v)).
Proof.
  eapply parses_ext; [apply parses_map, array_spec; done|].
  intros v body _. split.
  - intros (a & (Ha & Hl & ->) & ->). pose proof (be_value_bound a Ha) as Hb. rewrite Hl in Hb.
    assert (u64_ok (be_value a)) as Hu by done. split; [by apply u64_as_i64_ok|].
    rewrite i64_u64_roundtrip by done. assert (8%nat = length a) as -> by (unfold len in Hl; lia).
    symmetry. by apply be_bytes_value.
  - intros [Hv ->]. exists (be_bytes 8 (i64_as_u64 v)). split.
    { split_and!; [apply be_bytes_ok|by rewrite len_be_bytes|done]. }
    pose proof (i64_as_u64_ok v Hv). rewrite be_value_bytes by done. symmetry. by apply u64_i64_roundtrip.
Qed.

Lemma canonical_f64_spec :
  parses Decoder_canonical_f64 (λ v body, u64_ok v ∧ F64.canonical v = true ∧ body = be_bytes 8 v).
Proof.
  eapply parses_ext; [apply parses_check; [apply u64_spec|intros; apply lift_if_total]|].
  intros v body _. assert (u64_ok v → F64.canonical v =
    negb (negb (F64.is_finite v) || F64.is_zero v && negb (v =? 0))) as Hc.
  { intros Hv. unfold F64.canonical, F64.is_zero. rewrite f64_magnitude by done.
    unfold u64_ok in Hv. destruct (F64.is_finite v); [|done]. cbn [negb andb orb]. f_equal.
    unfold F64.sign_negative. destruct (Z.leb_spec (2 ^ 63) v).
    - by rewrite (proj2 (Z.eqb_neq v 0)) by lia.
    - destruct (Z.eqb_spec v 0); by rewrite ?andb_false_r. }
  split.
  - intros (a & [Ha ->] & E). destruct (negb (F64.is_finite a) || _) eqn:Eb; [done|].
    apply Ok_inj in E as ->. by rewrite Hc, Eb.
  - intros (Hv & Hcan & ->). rewrite Hc in Hcan by done. apply negb_true_iff in Hcan.
    exists v. by rewrite Hcan.
Qed.

Lemma sized_bytes_spec maximum :
  parses (Decoder_sized_bytes maximum)
    (λ v body, bytes_ok v ∧ len v ≤ maximum ∧ len v < 2 ^ 32 ∧ body = be_bytes 4 (len v) ++ v).
Proof.
  eapply parses_ext.
  - apply (parses_bind _ _ _ (λ n v body, (n ≤ maximum) ∧ bytes_ok v ∧ len v = n ∧ body = v)
      u32_spec). intros n body [[??] _] _. destruct (Z.ltb_spec maximum n).
    + eapply parses_ext; [apply parses_lift; by right|]. intros. split; [by intros []|lia].
    + eapply parses_ext; [by apply take_spec|]. naive_solver.
  - intros v body _. unfold u32_ok. split.
    + intros (n & b1 & b2 & [Hn ->] & (Hm & Hv & <- & ->) & ->). split_and!; done || lia.
    + intros (Hv & Hm & Hl & ->). pose proof (len_nonneg v).
      exists (len v), (be_bytes 4 (len v)), v. split_and!; done || lia.
Qed.
Lemma sized_u16_bytes_spec maximum :
  parses (Decoder_sized_u16_bytes maximum)
    (λ v body, bytes_ok v ∧ len v ≤ maximum ∧ len v < 2 ^ 16 ∧ body = be_bytes 2 (len v) ++ v).
Proof.
  eapply parses_ext.
  - apply (parses_bind _ _ _ (λ n v body, (n ≤ maximum) ∧ bytes_ok v ∧ len v = n ∧ body = v)
      u16_spec). intros n body [[??] _] _. destruct (Z.ltb_spec maximum n).
    + eapply parses_ext; [apply parses_lift; by right|]. intros. split; [by intros []|lia].
    + eapply parses_ext; [by apply take_spec|]. naive_solver.
  - intros v body _. unfold u16_ok. split.
    + intros (n & b1 & b2 & [Hn ->] & (Hm & Hv & <- & ->) & ->). split_and!; done || lia.
    + intros (Hv & Hm & Hl & ->). pose proof (len_nonneg v).
      exists (len v), (be_bytes 2 (len v)), v. split_and!; done || lia.
Qed.
Lemma sized_u8_bytes_spec :
  parses Decoder_sized_u8_bytes (λ v body, bytes_ok v ∧ len v < 256 ∧ body = len v :: v).
Proof.
  eapply parses_ext.
  - apply (parses_bind _ _ _ (λ n v body, bytes_ok v ∧ len v = n ∧ body = v) u8_spec).
    intros n body [[??] _] _. by apply take_spec.
  - intros v body _. unfold byte_ok. split.
    + intros (n & b1 & b2 & [Hn ->] & (Hv & <- & ->) & ->). split_and!; done || lia.
    + intros (Hv & Hl & ->). pose proof (len_nonneg v).
      exists (len v), [len v], v. split_and!; done || lia.
Qed.

(** *** Vectors of canonical [f32] *)
Definition f32_canonical (b : Z) : Prop :=
  u32_ok b ∧ F32.is_finite b = true ∧ b ≠ F32.NEG_ZERO.
Definition f32s_bytes (vs : list Z) : list Z := concat (be_bytes 4 <$> vs).

Lemma f32s_bytes_cons v vs : f32s_bytes (v :: vs) = be_bytes 4 v ++ f32s_bytes vs.
Proof. done. Qed.
Lemma f32s_bytes_len vs : len (f32s_bytes vs) = 4 * len vs.
Proof.
  induction vs as [|v vs IH]; [done|]. rewrite f32s_bytes_cons. len. rewrite IH. lia.
Qed.
Lemma f32s_bytes_ok vs : bytes_ok (f32s_bytes vs).
Proof.
  induction vs as [|v vs IH]; [constructor|]. rewrite f32s_bytes_cons. apply bytes_ok_app.
  split; [apply be_bytes_ok|done].
Qed.
#[export] Hint Rewrite f32s_bytes_len : len.

(** The four-byte groups of a complete byte string reassemble it. *)
Lemma chunks4_value n bs :
  bytes_ok bs → length bs = (4 * n)%nat →
  Forall u32_ok (be_value <$> as_chunks4 bs) ∧
  length (as_chunks4 bs) = n ∧ f32s_bytes (be_value <$> as_chunks4 bs) = bs.
Proof.
  revert bs. induction n as [|n IH]; intros bs Hok Hl; [by destruct bs|].
  destruct bs as [|a [|b [|c [|d t]]]]; simpl in Hl; try lia.
  rewrite !bytes_ok_cons in Hok. destruct Hok as (Ha & Hb & Hc & Hd & Ht).
  destruct (IH t Ht ltac:(lia)) as (Hu & Hn & E). cbn [as_chunks4].
  assert (bytes_ok [a; b; c; d]) as Hg by (rewrite !bytes_ok_cons; auto 10 with ktann).
  pose proof (be_value_bound _ Hg) as Hbd. change (len [a; b; c; d]) with 4 in Hbd.
  cbn [fmap list_fmap]. split_and!.
  - by constructor.
  - simpl. by rewrite Hn.
  - rewrite f32s_bytes_cons. fold (be_value <$> as_chunks4 t). rewrite E.
    pose proof (be_bytes_value _ Hg : be_bytes 4 _ = _) as ->. done.
Qed.
Lemma chunks4_bytes vs :
  Forall u32_ok vs → be_value <$> as_chunks4 (f32s_bytes vs) = vs.
Proof.
  induction 1 as [|v vs Hv _ IH]; [done|]. rewrite f32s_bytes_cons.
  pose proof (be_value_bytes 4 v Hv) as E.
  destruct (be_bytes 4 v) as [|a [|b [|c [|d [|? ?]]]]] eqn:Eb;
    try (by apply (f_equal length) in Eb; rewrite be_bytes_length in Eb).
  cbn [app as_chunks4 fmap list_fmap]. rewrite E. f_equal. exact IH.
Qed.

Lemma f32_fold_valid vs i :
  foldl (λ invalid value, invalid || negb (F32.is_finite value) || (value =? F32.NEG_ZERO)) i vs
  = false ↔ i = false ∧ Forall (λ v, F32.is_finite v = true ∧ v ≠ F32.NEG_ZERO) vs.
Proof.
  revert i. induction vs as [|v vs IH]; intros i; cbn [foldl].
  - split; [by intros|by intros [? _]].
  - rewrite IH, Forall_cons_iff, !orb_false_iff, negb_false_iff, Z.eqb_neq. tauto.
Qed.

Lemma canonical_f32s_spec count :
  0 ≤ count →
  parses (Decoder_canonical_f32s count)
    (λ v body, Forall f32_canonical v ∧ len v = count ∧ body = f32s_bytes v).
Proof.
  intros Hc. unfold Decoder_canonical_f32s. eapply parses_ext_len.
  - eapply (parses_bind _ _ _
      (λ n v body, Forall f32_canonical v ∧ len v = count ∧ body = f32s_bytes v)).
    + apply parses_lift, lift_if_total.
    + intros n body [E _] _. destruct (Z.leb_spec USIZE_LIMIT (count * 4)); [done|].
      apply Ok_inj in E as <-. eapply parses_ext.
      * apply parses_check; [apply take_spec; lia|intros; apply lift_if_total].
      * intros v b _. split.
        -- intros (raw & (Hraw & Hl & ->) & E).
           destruct (foldl _ _ _) eqn:Ef; [done|]. apply Ok_inj in E as <-.
           apply f32_fold_valid in Ef as [_ Hf].
           destruct (chunks4_value (Z.to_nat count) raw Hraw) as (Hu & Hn & E);
             [unfold len in Hl; lia|].
           split_and!; [|unfold len; rewrite length_fmap; lia|done].
           rewrite Forall_forall in Hu, Hf |- *. intros x Hx. by split_and!; [apply Hu|apply Hf..].
        -- intros (Hf & Hl & ->). exists (f32s_bytes v).
           assert (Forall u32_ok v) as Hu by (eapply Forall_impl; [|exact Hf]; by intros ? []).
           rewrite chunks4_bytes by done.
           rewrite (proj2 (f32_fold_valid v false))
             by (split; [done|]; eapply Forall_impl; [|exact Hf]; by intros ? (_ & ? & ?)).
           split; [|done]. split_and!; [apply f32s_bytes_ok|len; lia|done].
  - intros v body _ Hlen. split.
    + by intros (n & b1 & b2 & [_ ->] & (? & ? & ->) & ->).
    + intros (? & Hl & ->). rewrite f32s_bytes_len in Hlen.
      exists (count * 4), [], (f32s_bytes v). split_and!; try done.
      rewrite (proj2 (Z.leb_gt _ _)); [done|]. unfold USIZE_LIMIT, MAX_VALUE_BYTES in *. lia.
Qed.

(** A parser that always fails accepts nothing. *)
Lemma parses_never {A} (G : grammar A) :
  (∀ v body, bytes_ok body → ¬ G v body) → parses (dec_lift (Err Corruption)) G.
Proof.
  intros HG. eapply parses_ext; [apply parses_lift; by right|].
  intros v body Hb. split; [by intros []|]. intros H. by destruct (HG v body Hb).
Qed.
Lemma map_err_corrupt {A} (r : result A) : no_panic r → ok_or_corrupt (map_err Corruption r).
Proof. destruct r as [a|e|]; intros H; [left; by eexists|by right|done]. Qed.
Ltac solve_bytes :=
  repeat first [rewrite bytes_ok_app | rewrite bytes_ok_cons]; split_and!; auto using bytes_ok_nil with ktann; try done.

(** ** Sequenced printers

    A decoder whose result determines every part it reads: each step adds one
    part to the known facts [R] and one segment to the body. *)
Lemma parses_step {A B} (p : Dec A) (k : A → Dec B) (P : A → Prop) (f : A → list Z)
    (proj : B → A) (R : B → Prop) (g : B → list Z) :
  parses p (λ a body, P a ∧ body = f a) → (∀ b, R b → P (proj b)) →
  (∀ a, P a → parses (k a) (λ b body, (R b ∧ proj b = a) ∧ body = g b)) →
  parses (dec_bind p k) (λ b body, R b ∧ body = f (proj b) ++ g b).
Proof.
  intros Hp HR Hk. eapply parses_ext.
  - eapply (parses_bind p k _ (λ a b body, (R b ∧ proj b = a) ∧ body = g b)); [exact Hp|].
    intros a body [Ha _] _. by apply Hk.
  - intros b body _. split.
    + by intros (a & b1 & b2 & [_ ->] & [[Hb <-] ->] & ->).
    + intros [Hb ->]. exists (proj b), (f (proj b)), (g b). split_and!; try done. by apply HR.
Qed.
(** The last part read. *)
Lemma parses_last {A B} (p : Dec A) (k : A → Dec B) (P : A → Prop) (f : A → list Z)
    (proj : B → A) (R : B → Prop) :
  parses p (λ a body, P a ∧ body = f a) → (∀ b, R b → P (proj b)) →
  (∀ a, P a → parses (k a) (λ b body, (R b ∧ proj b = a) ∧ body = [])) →
  parses (dec_bind p k) (λ b body, R b ∧ body = f (proj b)).
Proof.
  intros Hp HR Hk. eapply parses_ext; [exact (parses_step p k P f proj R (λ _, []) Hp HR Hk)|].
  intros v body _. cbv beta. by rewrite app_nil_r.
Qed.
Lemma parses_unless {A} (c : bool) (q : Dec A) (R : A → Prop) (g : A → list Z) :
  (∀ b, R b → c = false) → parses q (λ b body, R b ∧ body = g b) →
  parses (if c then dec_lift (Err Corruption) else q) (λ b body, R b ∧ body = g b).
Proof.
  intros Hc Hq. destruct c; [|exact Hq]. apply parses_never. intros v body _ [HR _]. by apply Hc in HR.
Qed.
(** The end of a sequence: a checked result that reads nothing. *)
Lemma parses_end {A} (r : result A) (R : A → Prop) :
  ok_or_corrupt r → (∀ a, r = Ok a ↔ R a) → parses (dec_lift r) (λ a body, R a ∧ body = []).
Proof. intros Hr HR. eapply parses_ext; [by apply parses_lift|]. intros v body _. by rewrite <-HR. Qed.
Lemma parses_done {A} (a : A) (R : A → Prop) :
  (∀ b, R b ↔ b = a) → parses (dec_ret a) (λ b body, R b ∧ body = []).
Proof. intros HR. eapply parses_ext; [apply parses_ret|]. intros v body _. by rewrite HR. Qed.
(** A pure check in a sequence. *)
Lemma parses_lift_step {A B} (r : result A) (k : A → Dec B) (R : B → Prop) (g : B → list Z) :
  ok_or_corrupt r → (∀ b, R b → ∃ a, r = Ok a) →
  (∀ a, r = Ok a → parses (k a) (λ b body, R b ∧ body = g b)) →
  parses (dec_bind (dec_lift r) k) (λ b body, R b ∧ body = g b).
Proof.
  intros [[a ->]| ->] HR Hk; [exact (Hk a eq_refl)|].
  apply (parses_never (λ b body, R b ∧ body = g b)). intros v body _ [Hb _]. by destruct (HR v Hb).
Qed.
(** A one-byte tag. *)
Lemma parses_tag {A} (encode : A → Z) (decode : Z → result A) :
  (∀ a, byte_ok (encode a)) → (∀ t a, decode t = Ok a ↔ encode a = t) → (∀ t, ok_or_corrupt (decode t)) →
  parses (dlet tag := Decoder_u8 in dec_lift (decode tag)) (λ a body, True ∧ body = [encode a]).
Proof.
  intros Hb Hd Ht. eapply parses_ext; [apply parses_check; [apply u8_spec|intros; apply Ht]|].
  intros a body _. split.
  - intros (t & [_ ->] & E%Hd). by rewrite E.
  - intros [_ ->]. exists (encode a). split; [by split|]. by apply Hd.
Qed.

(** ** Emitters *)
Lemma emits_ext e P P' body body' :
  emits e P body → (P ↔ P') → (P' → body = body') → emits e P' body'.
Proof.
  intros He HP Hb out. destruct (He out) as [Hv Ht]. split; [|done].
  intros r. rewrite Hv, HP. naive_solver.
Qed.
Lemma emits_pure (f : list Z → list Z) body :
  (∀ out, f out = out ++ body) → emits (λ out, Ok (f out)) True body.
Proof. intros Hf out. rewrite Hf. split; [naive_solver|left; by eexists]. Qed.
Lemma emits_bind e P body e' P' body' :
  emits e P body → (P → emits e' P' body') →
  emits (λ out, e out ≫= e') (P ∧ P') (body ++ body').
Proof.
  intros He He' out. destruct (He out) as [Hv Ht].
  destruct Ht as [[r Er]|Er]; rewrite Er; cbn [mbind result_bind].
  - apply Hv in Er as [HP ->]. destruct (He' HP (out ++ body)) as [Hv' Ht']. split; [|done].
    intros r. rewrite Hv', app_assoc. tauto.
  - split; [|by right]. intros r. split; [done|]. intros [[HP _] _].
    specialize (Hv (out ++ body)). rewrite Er in Hv.
    discriminate (proj2 Hv (conj HP eq_refl)).
Qed.
(** A guard before an encoder. *)
Lemma emits_guard {A} (r : result A) e (P : A → Prop) (Q : Prop) body :
  (∃ a, r = Ok a) ∨ r = Err InvalidArgument →
  (∀ a, r = Ok a → emits (e a) (P a) body) → (Q ↔ ∃ a, r = Ok a ∧ P a) →
  emits (λ out, r ≫= λ a, e a out) Q body.
Proof.
  intros Hr He HQ out. destruct Hr as [[a ->]| ->]; cbn [mbind result_bind].
  - destruct (He a eq_refl out) as [Hv Ht]. split; [|done]. intros r. rewrite Hv, HQ. naive_solver.
  - split; [|by right]. intros r. rewrite HQ. naive_solver.
Qed.

Lemma try_from_usize_ok bits n m : try_from_usize bits n = Ok m ↔ n < 2 ^ bits ∧ m = n.
Proof. unfold try_from_usize. destruct (Z.ltb_spec n (2 ^ bits)); naive_solver lia. Qed.
Lemma try_from_usize_total bits n :
  (∃ m, try_from_usize bits n = Ok m) ∨ try_from_usize bits n = Err InvalidArgument.
Proof. unfold try_from_usize. case_match; eauto. Qed.

Lemma emits_sized_bytes v maximum :
  emits (Encoder_sized_bytes v maximum) (len v ≤ maximum ∧ len v < 2 ^ 32)
    (be_bytes 4 (len v) ++ v).
Proof.
  intros out. unfold Encoder_sized_bytes, Encoder_bytes, Encoder_u32, try_from_usize.
  destruct (Z.ltb_spec maximum (len v)); [|destruct (Z.ltb_spec (len v) (2 ^ 32))];
    cbn [mbind result_bind]; rewrite <-?app_assoc; split; eauto; naive_solver lia.
Qed.
Lemma emits_sized_u16_bytes v :
  emits (Encoder_sized_u16_bytes v) (len v < 2 ^ 16) (be_bytes 2 (len v) ++ v).
Proof.
  intros out. unfold Encoder_sized_u16_bytes, Encoder_bytes, Encoder_u16, try_from_usize.
  destruct (Z.ltb_spec (len v) (2 ^ 16)); cbn [mbind result_bind]; rewrite <-?app_assoc;
    split; eauto; naive_solver lia.
Qed.

(** The bits the encoder writes for a finite float. *)
Definition f32_canonicalize (b : Z) : Z := if F32.is_zero b then 0 else b.
Definition f64_canonicalize (b : Z) : Z := if F64.is_zero b then 0 else b.

Lemma emits_f32 v :
  emits (Encoder_f32 v) (F32.is_finite v = true) (be_bytes 4 (f32_canonicalize v)).
Proof.
  intros out. unfold Encoder_f32, Encoder_u32, f32_canonicalize.
  destruct (F32.is_finite v); simpl; split; eauto; naive_solver.
Qed.
Lemma canonical_f64_bits_ok v b :
  canonical_f64_bits v = Ok b ↔ F64.is_finite v = true ∧ b = f64_canonicalize v.
Proof. unfold canonical_f64_bits. destruct (F64.is_finite v); simpl; naive_solver. Qed.

(** Canonicalization is the identity on canonical bits, and its results are
    canonical. *)
Lemma f32_canonicalize_id v : u32_ok v → v ≠ F32.NEG_ZERO → f32_canonicalize v = v.
Proof.
  intros Hv Hn. unfold f32_canonicalize. destruct (F32.is_zero v) eqn:E; [|done].
  apply f32_zero in E as [-> | ->]; done.
Qed.
Lemma f64_canonicalize_id v : u64_ok v → F64.canonical v = true → f64_canonicalize v = v.
Proof.
  intros Hv. unfold F64.canonical, f64_canonicalize, F64.is_zero.
  rewrite f64_magnitude by done. unfold F64.sign_negative, u64_ok in *.
  destruct (Z.leb_spec (2 ^ 63) v); case_match; bprop; lia.
Qed.

(** ** Framed values

    The interface between a value family and the framing: its encoder and
    decoder bodies, the values its Rust type admits, the condition under which
    it encodes, the canonical values, and the body bytes, with the two laws
    that tie them together. *)
Class ValueFamily (A : Type) := {
  vf_tag : Z;
  vf_encode : A → list Z → result (list Z);
  vf_decode : Dec A;
  vf_typed : A → Prop;
  vf_valid : A → Prop;
  vf_canonical : A → Prop;
  vf_body : A → list Z;
  vf_tag_ok : byte_ok vf_tag;
  vf_body_ok v : vf_typed v → vf_valid v → bytes_ok (vf_body v);
  vf_emits v : vf_typed v → emits_at (Encoder_new vf_tag) (vf_encode v) (vf_valid v) (vf_body v);
  vf_parses : parses vf_decode
    (λ v body, vf_typed v ∧ vf_valid v ∧ vf_canonical v ∧ body = vf_body v)
}.

(** [Encoder::new], the family's body encoder and [Encoder::finish]. *)
Definition encode_framed {A} (F : ValueFamily A) (v : A) : result (list Z) :=
  vf_encode v (Encoder_new vf_tag) ≫= Encoder_finish.
(** [Decoder::framed], the family's body decoder and [Decoder::finish]. *)
Definition decode_family {A} (F : ValueFamily A) (bytes : list Z) : result A :=
  decode_framed vf_tag vf_decode bytes.

Section framed.
Context {A : Type} (F : ValueFamily A).

Lemma encode_framed_ok v bytes :
  vf_typed v →
  encode_framed F v = Ok bytes ↔
  vf_valid v ∧ bytes = vf_tag :: vf_body v ∧ len bytes ≤ MAX_VALUE_BYTES.
Proof.
  intros Hv. unfold encode_framed, Encoder_finish, Encoder_new. rewrite bind_ok. split.
  - intros (e & He & Hf). apply (vf_emits v Hv) in He as [? ->].
    destruct (Z.ltb_spec MAX_VALUE_BYTES (len (Encoder_new vf_tag ++ vf_body v))); [done|].
    apply Ok_inj in Hf as <-. done.
  - intros (? & -> & Hl). exists (vf_tag :: vf_body v). split.
    + by apply (vf_emits v Hv).
    + by rewrite (proj2 (Z.ltb_ge _ _)).
Qed.

Lemma decode_framed_ok bytes v :
  bytes_ok bytes →
  decode_family F bytes = Ok v ↔
  vf_typed v ∧ vf_valid v ∧ vf_canonical v ∧ bytes = vf_tag :: vf_body v ∧
  len bytes ≤ MAX_VALUE_BYTES.
Proof.
  intros Hb. unfold decode_family, decode_framed, Decoder_framed, Decoder_finish.
  destruct bytes as [|first body]; [split; [done|naive_solver]|].
  destruct (Z.ltb_spec MAX_VALUE_BYTES (len (first :: body))) as [Hl|Hl]; cbn [orb negb].
  { split; [done|]. intros (_ & _ & _ & _ & ?). lia. }
  destruct (Z.eqb_spec first vf_tag) as [->|]; cbn [negb];
    [|split; [done|]; intros (_ & _ & _ & [= ? _] & _); done].
  set (d := mkDecoder (vf_tag :: body) 1).
  assert (dec_rest d = body) as Hrest by done.
  assert (dec_ok d) as Hd.
  { unfold dec_ok, d. simpl. rewrite len_cons in *. pose proof (len_nonneg body).
    split_and!; done || lia. }
  destruct (vf_parses d Hd) as [Hv _]. rewrite Hrest in Hv.
  cbn [mbind result_bind]. rewrite bind_ok. split.
  - intros ([v' d'] & Hp & Hf). apply Hv in Hp as (b & tail & (? & ? & ? & ->) & E & ->).
    cbn [snd fst advance dec_position dec_bytes d] in Hf.
    destruct (Z.eqb_spec (1 + len (vf_body v')) (len (vf_tag :: body))) as [El|]; [|done].
    cbn in Hf. apply Ok_inj in Hf as <-. rewrite len_cons, E, len_app in El.
    assert (tail = []) as ->.
    { destruct tail as [|x tail]; [done|]. rewrite len_cons in El. pose proof (len_nonneg tail). lia. }
    rewrite app_nil_r in E. split_and!; congruence.
  - intros (? & ? & ? & [= ->] & ?).
    exists (v, advance d (len (vf_body v))). split.
    + apply Hv. exists (vf_body v), []. by rewrite app_nil_r.
    + cbn [snd fst advance dec_position dec_bytes d]. by rewrite len_cons, Z.eqb_refl.
Qed.

Lemma decode_framed_total bytes : bytes_ok bytes → ok_or_corrupt (decode_family F bytes).
Proof.
  intros Hb. unfold decode_family, decode_framed, Decoder_framed, Decoder_finish.
  destruct bytes as [|first body]; [by right|].
  destruct (Z.ltb_spec MAX_VALUE_BYTES (len (first :: body))); [by right|].
  destruct (negb (first =? vf_tag)); [by right|]. cbn [mbind result_bind orb].
  assert (dec_ok (mkDecoder (first :: body) 1)) as Hd.
  { unfold dec_ok. simpl. rewrite len_cons in *. pose proof (len_nonneg body).
    split_and!; done || lia. }
  apply ok_or_corrupt_bind; [apply (vf_parses _ Hd)|]. intros [v d'] _.
  apply ok_or_corrupt_bind; auto with ktann.
Qed.
End framed.
