(* ===== verification/ValueData.v ===== *)
(** Schema-directed vectors and typed fields (src/src/storage/values/data.rs):
    encoders, decoders and their specifications against [emits] and [parses]. *)
From S2P Require Import Prelude RustStd Api TreeKey Wire.

(** ** Vectors *)
Fixpoint encode_components (vector : list Z) (e : list Z) : result (list Z) :=
  match vector with
  | [] => Ok e
  | component :: vector => Encoder_f32 component e ≫= encode_components vector
  end.
Definition encode_vector (dimension : Z) (vector : list Z) (e : list Z) : result (list Z) :=
  if negb (len vector =? dimension) then Err InvalidArgument
  else if USIZE_LIMIT <=? dimension * 4 + 4 then Err InvalidArgument
  else try_from_usize 32 dimension ≫= λ n, encode_components vector (Encoder_u32 n e).
Definition decode_vector (dimension : Z) : Dec (list Z) :=
  dlet n := Decoder_u32 in
  if negb (n =? dimension) then dec_lift (Err Corruption) else Decoder_canonical_f32s dimension.

(** ** Typed values *)

(** [visit_typed_value_bytes]: the chunks passed to [visit], in order. *)
Definition visit_typed_value_bytes (ty : DataType.t) (nullable : bool) (v : Value.t)
    : result (list (list Z)) :=
  match v with
  | Value.Null => if nullable then Ok [[0]] else Err InvalidArgument
  | Value.Bool b =>
      if decide (ty = DataType.Bool) then Ok [[1; if b then 1 else 0]] else Err InvalidArgument
  | Value.I64 x =>
      if decide (ty = DataType.I64) then Ok [[2]; be_bytes 8 (i64_as_u64 x)] else Err InvalidArgument
  | Value.F64 x =>
      if decide (ty = DataType.F64) then
        canonical_f64_bits x ≫= λ bits, Ok [[3]; be_bytes 8 bits]
      else Err InvalidArgument
  | Value.String s =>
      if decide (ty = DataType.String) then
        if MAX_STRING_BYTES <? len s then Err InvalidArgument
        else try_from_usize 32 (len s) ≫= λ n, Ok [[4]; be_bytes 4 n; s]
      else Err InvalidArgument
  end.
Definition encode_typed_value (ty : DataType.t) (nullable : bool) (v : Value.t) (e : list Z)
    : result (list Z) :=
  visit_typed_value_bytes ty nullable v ≫= λ chunks,
  Ok (foldl (λ e chunk, Encoder_bytes chunk e) e chunks).
Definition decode_typed_value (ty : DataType.t) (nullable : bool) : Dec Value.t :=
  dlet tag := Decoder_u8 in
  if (tag =? 0) && nullable then dec_ret Value.Null
  else if (tag =? 1) && bool_decide (ty = DataType.Bool) then
    dlet b := Decoder_bool in dec_ret (Value.Bool b)
  else if (tag =? 2) && bool_decide (ty = DataType.I64) then
    dlet x := Decoder_i64 in dec_ret (Value.I64 x)
  else if (tag =? 3) && bool_decide (ty = DataType.F64) then
    dlet bits := Decoder_canonical_f64 in dec_lift (map_err Corruption (Value_f64 bits))
  else if (tag =? 4) && bool_decide (ty = DataType.String) then
    dlet s := Decoder_sized_bytes MAX_STRING_BYTES in
    dlet s := dec_lift (if utf8_valid s then Ok s else Err Corruption) in
    dec_lift (map_err Corruption (Value_string s))
  else dec_lift (Err Corruption).

(** ** Fields *)
Fixpoint encode_fields_loop (values : list Value.t) (schema : list FieldSchema) (e : list Z)
    : result (list Z) :=
  match values, schema with
  | v :: values, field :: schema =>
      encode_typed_value (fs_data_type field) (fs_nullable field) v e
        ≫= encode_fields_loop values schema
  | _, _ => Ok e
  end.
Definition encode_fields (schema : list FieldSchema) (values : list Value.t) (e : list Z)
    : result (list Z) :=
  if negb (len values =? len schema) then Err InvalidArgument
  else try_from_usize 16 (len values) ≫= λ n, encode_fields_loop values schema (Encoder_u16 n e).
Fixpoint decode_fields_loop (schema : list FieldSchema) : Dec (list Value.t) :=
  match schema with
  | [] => dec_ret []
  | field :: schema =>
      dlet v := decode_typed_value (fs_data_type field) (fs_nullable field) in
      dlet vs := decode_fields_loop schema in
      dec_ret (v :: vs)
  end.
Definition decode_fields (schema : list FieldSchema) : Dec (list Value.t) :=
  dlet n := Decoder_u16 in
  if negb (n =? len schema) then dec_lift (Err Corruption) else decode_fields_loop schema.

(** ** Specifications *)

(** The bytes that represent a finite vector, each zero as positive zero. *)
Definition vector_body (vector : list Z) : list Z :=
  be_bytes 4 (len vector) ++ f32s_bytes (f32_canonicalize <$> vector).
Definition vector_ok (dimension : Z) (vector : list Z) : Prop :=
  len vector = dimension ∧ len vector < 2 ^ 32 ∧ Forall (λ c, F32.is_finite c = true) vector.
Definition vector_typed (vector : list Z) : Prop := Forall u32_ok vector.
Definition vector_canonical (vector : list Z) : Prop := Forall (λ c, c ≠ F32.NEG_ZERO) vector.

(** The values a field accepts, and the bytes that represent them. *)
Definition field_accepts (ty : DataType.t) (nullable : bool) (v : Value.t) : Prop :=
  match v with
  | Value.Null => nullable = true
  | Value.Bool _ => ty = DataType.Bool
  | Value.I64 _ => ty = DataType.I64
  | Value.F64 b => ty = DataType.F64 ∧ F64.is_finite b = true
  | Value.String s => ty = DataType.String ∧ len s ≤ MAX_STRING_BYTES
  end.
Definition value_canonical (v : Value.t) : Prop :=
  match v with Value.F64 b => F64.canonical b = true | _ => True end.
Definition value_body (v : Value.t) : list Z :=
  match v with
  | Value.Null => [0]
  | Value.Bool b => [1; if b then 1 else 0]
  | Value.I64 x => 2 :: be_bytes 8 (i64_as_u64 x)
  | Value.F64 b => 3 :: be_bytes 8 (f64_canonicalize b)
  | Value.String s => 4 :: be_bytes 4 (len s) ++ s
  end.
Definition fields_body (values : list Value.t) : list Z :=
  be_bytes 2 (len values) ++ concat (value_body <$> values).
Definition fields_accept (schema : list FieldSchema) (values : list Value.t) : Prop :=
  Forall2 (λ v f, field_accepts (fs_data_type f) (fs_nullable f) v) values schema ∧
  len values < 2 ^ 16.

Lemma value_body_ok v : value_ok v → bytes_ok (value_body v).
Proof.
  destruct v as [|b|x|x|s]; cbn [value_ok value_body]; intros Hv; apply bytes_ok_cons;
    (split; [done|]).
  - constructor.
  - apply bytes_ok_cons. split; [by destruct b|constructor].
  - apply be_bytes_ok.
  - apply be_bytes_ok.
  - apply bytes_ok_app. split; [apply be_bytes_ok|apply Hv].
Qed.

Lemma encode_typed_value_emits ty nullable v :
  emits (encode_typed_value ty nullable v) (field_accepts ty nullable v) (value_body v).
Proof.
  intros out. unfold encode_typed_value, visit_typed_value_bytes, Encoder_bytes.
  destruct v as [|b|x|x|s]; cbn [field_accepts value_body].
  - destruct nullable; cbn [mbind result_bind foldl]; split; eauto; naive_solver.
  - destruct (decide _); cbn [mbind result_bind foldl]; split; eauto; naive_solver.
  - destruct (decide _); cbn [mbind result_bind foldl]; rewrite <-?app_assoc; split; eauto; naive_solver.
  - unfold canonical_f64_bits. fold (f64_canonicalize x).
    destruct (decide _); [destruct (F64.is_finite x)|]; cbn [negb mbind result_bind foldl];
      rewrite <-?app_assoc; split; eauto; naive_solver.
  - destruct (decide _); [|cbn [mbind result_bind foldl]; split; eauto; naive_solver].
    destruct (Z.ltb_spec MAX_STRING_BYTES (len s));
      [cbn [mbind result_bind foldl]; split; eauto; naive_solver lia|].
    unfold try_from_usize. rewrite (proj2 (Z.ltb_lt (len s) _)) by (unfold MAX_STRING_BYTES in *; lia).
    cbn [mbind result_bind foldl]; rewrite <-!app_assoc; split; eauto; naive_solver.
Qed.

Lemma string_value_spec ty nullable :
  ty = DataType.String →
  parses (dlet s := Decoder_sized_bytes MAX_STRING_BYTES in
          dlet s := dec_lift (if utf8_valid s then Ok s else Err Corruption) in
          dec_lift (map_err Corruption (Value_string s)))
    (λ v body, value_ok v ∧ field_accepts ty nullable v ∧ value_canonical v ∧
       4 :: body = value_body v).
Proof.
  intros ->. eapply parses_ext.
  - apply (parses_bind _ _ _ (λ s v body, utf8_valid s = true ∧ v = Value.String s ∧ body = [])
      (sized_bytes_spec MAX_STRING_BYTES)).
    intros s body (Hs & Hl & _) _. eapply parses_ext.
    + apply parses_check; [apply parses_lift; auto with ktann|].
      intros s' b _. unfold Value_string. case_match; [by right|left; by eexists].
    + intros v b _. unfold Value_string. split.
      * intros (s' & [E ->] & E'%map_err_ok). destruct (utf8_valid s); [|done]. apply Ok_inj in E as <-.
        rewrite (proj2 (Z.ltb_ge _ _)) in E' by done. by apply Ok_inj in E' as <-.
      * intros (-> & -> & ->). exists s. by rewrite (proj2 (Z.ltb_ge _ _)).
  - intros v body _. split.
    + intros (s & b1 & b2 & (Hs & Hl & _ & ->) & (Hu & -> & ->) & ->). by rewrite app_nil_r.
    + intros (Hv & Ha & _ & E). destruct v as [|x|x|x|s]; try discriminate E.
      apply (f_equal tail) in E. cbn [tail value_body] in E. subst body.
      destruct Hv as [Hs Hu], Ha as [_ Hl]. exists s, (be_bytes 4 (len s) ++ s), [].
      rewrite app_nil_r. unfold MAX_STRING_BYTES in *. split_and!; done || lia.
Qed.

(** The branch the tag selects. *)
Lemma decode_typed_value_spec ty nullable :
  parses (decode_typed_value ty nullable) (λ v body,
    value_ok v ∧ field_accepts ty nullable v ∧ value_canonical v ∧ body = value_body v).
Proof.
  unfold decode_typed_value. eapply parses_ext.
  - apply (parses_bind _ _ _ (λ tag v rest, value_ok v ∧ field_accepts ty nullable v ∧
      value_canonical v ∧ tag :: rest = value_body v) u8_spec).
    intros tag body _ _.
    assert (∀ (b : bool) (k : Z) (p q : Dec Value.t) G,
      ((tag = k ∧ b = true) → parses p G) → (¬ (tag = k ∧ b = true) → parses q G) →
      parses (if (tag =? k) && b then p else q) G) as Hif.
    { intros b k p q G Hp Hq. destruct (Z.eqb_spec tag k), b; cbn [andb]; auto; apply Hq; by intros []. }
    apply Hif; [intros [-> ->]|intros N0].
    { eapply parses_ext; [apply parses_ret|]. intros v b _. split; [by intros [-> ->]|].
      intros (_ & _ & _ & E). destruct v; try discriminate E. injection E as ->. done. }
    apply Hif; [intros [-> E1%bool_decide_eq_true]|intros N1].
    { eapply parses_ext; [apply parses_map, bool_spec|]. intros v b _. split.
      - intros (x & -> & ->). done.
      - intros (_ & _ & _ & E). destruct v as [|x|x|x|s]; try discriminate E. injection E as ->. eauto. }
    apply Hif; [intros [-> E2%bool_decide_eq_true]|intros N2].
    { eapply parses_ext; [apply parses_map, i64_spec|]. intros v b _. split.
      - intros (x & [Hx ->] & ->). done.
      - intros (Hv & _ & _ & E). destruct v as [|x|x|x|s]; try discriminate E.
        apply (f_equal tail) in E. cbn [tail value_body] in E. subst b. eauto. }
    apply Hif; [intros [-> E3%bool_decide_eq_true]|intros N3].
    { eapply parses_ext; [apply parses_check; [apply canonical_f64_spec|]|].
      - intros x b' (_ & Hc & _). apply andb_true_iff in Hc as [Hf _]. unfold Value_f64. rewrite Hf.
        left. by eexists.
      - intros v b _. split.
        + intros (x & (Hx & Hc & ->) & E%map_err_ok). pose proof Hc as [Hf _]%andb_true_iff.
          unfold Value_f64 in E. rewrite Hf in E. apply Ok_inj in E as <-.
          change (if F64.is_zero x then 0 else x) with (f64_canonicalize x).
          cbn [value_ok field_accepts value_canonical value_body].
          by rewrite !f64_canonicalize_id.
        + intros (Hv & Ha & Hc & E). destruct v as [|x|x|x|s]; try discriminate E.
          apply (f_equal tail) in E. cbn [tail value_body] in E. subst b.
          cbn [value_ok field_accepts value_canonical] in *. destruct Ha as [_ Hf].
          rewrite f64_canonicalize_id by done. exists x. split; [done|].
          unfold Value_f64. rewrite Hf. cbn [negb map_err].
          change (if F64.is_zero x then 0 else x) with (f64_canonicalize x).
          by rewrite f64_canonicalize_id. }
    apply Hif; [intros [-> E4%bool_decide_eq_true]|intros N4].
    + apply string_value_spec. done.
    + apply parses_never. intros v b _ (_ & Ha & _ & E).
      destruct v as [|x|x|x|s]; cbn [field_accepts value_body] in *; injection E as -> _;
        [apply N0|apply N1|apply N2|apply N3|apply N4]; rewrite ?bool_decide_eq_true; naive_solver.
  - intros v body _. split.
    + intros (tag & b1 & b2 & [_ ->] & (? & ? & ? & E) & ->). by split_and!.
    + intros (Hv & Ha & Hc & ->). pose proof (value_body_ok v Hv) as Hb.
      destruct (value_body v) as [|tag rest] eqn:E; [by destruct v|].
      apply bytes_ok_cons in Hb as [Ht _]. exists tag, [tag], rest. by split_and!.
Qed.

(** ** Vector specifications *)
Lemma encode_components_emits vector :
  emits (encode_components vector) (Forall (λ c, F32.is_finite c = true) vector)
    (f32s_bytes (f32_canonicalize <$> vector)).
Proof.
  induction vector as [|c vector IH].
  - intros out. cbn. rewrite app_nil_r. split; [naive_solver|eauto].
  - eapply emits_ext; [apply (emits_bind _ _ _ _ _ _ (emits_f32 c) (λ _, IH))| |].
    + by rewrite Forall_cons_iff.
    + intros _. cbn [fmap list_fmap]. by rewrite f32s_bytes_cons.
Qed.

Lemma encode_vector_emits dimension vector :
  emits (encode_vector dimension vector) (vector_ok dimension vector) (vector_body vector).
Proof.
  unfold encode_vector, vector_ok, vector_body. intros out.
  destruct (Z.eqb_spec (len vector) dimension) as [<-|]; cbn [negb]; [|split; eauto; naive_solver].
  pose proof (len_nonneg vector). unfold USIZE_LIMIT, try_from_usize.
  destruct (Z.ltb_spec (len vector) (2 ^ 32)).
  - rewrite (proj2 (Z.leb_gt _ _)) by lia. cbn [mbind result_bind].
    destruct (encode_components_emits vector (Encoder_u32 (len vector) out)) as [Hv Ht].
    split; [|done]. intros r. rewrite Hv. unfold Encoder_u32. rewrite <-app_assoc. naive_solver lia.
  - replace (if _ <=? _ then _ else _) with (@Err (list Z) InvalidArgument)
      by by destruct (_ <=? _). split; eauto; naive_solver lia.
Qed.

Lemma decode_vector_spec dimension :
  0 ≤ dimension →
  parses (decode_vector dimension) (λ v body,
    vector_typed v ∧ vector_ok dimension v ∧ vector_canonical v ∧ body = vector_body v).
Proof.
  intros Hd. unfold decode_vector. eapply parses_ext.
  - apply (parses_bind _ _ _ (λ n v body, n = dimension ∧ Forall f32_canonical v ∧
      len v = dimension ∧ body = f32s_bytes v) u32_spec).
    intros n body _ _. destruct (Z.eqb_spec n dimension) as [->|]; cbn [negb].
    + eapply parses_ext; [by apply canonical_f32s_spec|]. naive_solver.
    + apply parses_never. naive_solver.
  - intros v body _. unfold vector_typed, vector_ok, vector_canonical, vector_body.
    assert (Forall f32_canonical v → f32_canonicalize <$> v = v) as Hid.
    { induction 1 as [|c v (? & ? & ?) _ IH]; [done|]. cbn [fmap list_fmap].
      rewrite f32_canonicalize_id by done. f_equal. exact IH. }
    assert (Forall f32_canonical v ↔ Forall u32_ok v ∧ Forall (λ c, F32.is_finite c = true) v ∧
      Forall (λ c, c ≠ F32.NEG_ZERO) v) as Hall.
    { unfold f32_canonical. rewrite !Forall_forall. naive_solver. }
    split.
    + intros (n & b1 & b2 & [Hn ->] & (-> & Hf & Hl & ->) & ->). unfold u32_ok in Hn.
      rewrite Hid by done. apply Hall in Hf as (? & ? & ?). rewrite Hl. split_and!; done || lia.
    + intros (Hu & (Hl & Hm & Hf) & Hc & ->).
      assert (Forall f32_canonical v) as Hcan by by apply Hall.
      exists dimension, (be_bytes 4 dimension), (f32s_bytes v). rewrite Hid, Hl by done.
      unfold u32_ok. split_and!; done || lia.
Qed.

Lemma vector_body_ok vector : bytes_ok (vector_body vector).
Proof. apply bytes_ok_app. split; [apply be_bytes_ok|apply f32s_bytes_ok]. Qed.

(** ** Field specifications *)
Lemma fields_loop_emits values schema :
  emits (encode_fields_loop values schema)
    (Forall2 (λ v f, field_accepts (fs_data_type f) (fs_nullable f) v)
       (take (length schema) values) (take (length values) schema))
    (concat (value_body <$> take (length schema) values)).
Proof.
  revert schema. induction values as [|v values IH]; intros [|f schema].
  1-3: intros out; cbn [encode_fields_loop take length fmap list_fmap concat]; rewrite app_nil_r;
    split; [|by eauto]; intros r; (split; [intros [= ->]; by split; [constructor|]|by intros [_ ->]]).
  cbn [encode_fields_loop length take fmap list_fmap concat].
  eapply emits_ext; [apply (emits_bind _ _ _ _ _ _ (encode_typed_value_emits _ _ v) (λ _, IH schema))| |done].
  by rewrite Forall2_cons_iff.
Qed.

Lemma encode_fields_emits schema values :
  emits (encode_fields schema values) (fields_accept schema values) (fields_body values).
Proof.
  unfold encode_fields, fields_accept, fields_body. intros out.
  destruct (Z.eqb_spec (len values) (len schema)) as [E|N]; cbn [negb].
  2: { split; [|by right]. intros r. split; [done|]. intros [[H%Forall2_length _] _]. unfold len in N. lia. }
  unfold try_from_usize. destruct (Z.ltb_spec (len values) (2 ^ 16)); cbn [mbind result_bind].
  - destruct (fields_loop_emits values schema (Encoder_u16 (len values) out)) as [Hv Ht].
    split; [|done]. intros r. rewrite Hv. unfold Encoder_u16. rewrite <-app_assoc.
    rewrite !take_ge by (unfold len in E; lia). naive_solver.
  - split; [|by right]. naive_solver lia.
Qed.

Lemma decode_field_values_spec schema :
  parses (decode_fields_loop schema) (λ vs body,
    Forall value_ok vs ∧
    Forall2 (λ v f, field_accepts (fs_data_type f) (fs_nullable f) v) vs schema ∧
    Forall value_canonical vs ∧ body = concat (value_body <$> vs)).
Proof.
  induction schema as [|f schema IH]; cbn [decode_fields_loop].
  - eapply parses_ext; [apply parses_ret|]. intros vs body _. split.
    + intros [-> ->]. split_and!; try constructor.
    + intros (_ & H%Forall2_nil_inv_r & _ & ->). by rewrite H.
  - eapply parses_ext.
    + apply parses_bind; [apply decode_typed_value_spec|]. intros v body _ _. by apply parses_map.
    + intros vs body _. split.
      * intros (v & b1 & b2 & (? & ? & ? & ->) & (vs' & (? & ? & ? & ->) & ->) & ->).
        split_and!; by constructor.
      * intros (Hv & Hf & Hc & ->). apply Forall2_cons_inv_r in Hf as (v & vs' & Hf & Hfs & ->).
        apply Forall_cons_iff in Hv as [??]. apply Forall_cons_iff in Hc as [??].
        exists v, (value_body v), (concat (value_body <$> vs')). split_and!; try done.
        exists vs'. done.
Qed.
Lemma decode_fields_spec schema :
  len schema < 2 ^ 16 →
  parses (decode_fields schema) (λ vs body,
    Forall value_ok vs ∧ fields_accept schema vs ∧ Forall value_canonical vs ∧
    body = fields_body vs).
Proof.
  intros Hs. unfold decode_fields. eapply parses_ext.
  - apply (parses_bind _ _ _ (λ n vs body, n = len schema ∧ Forall value_ok vs ∧
      Forall2 (λ v f, field_accepts (fs_data_type f) (fs_nullable f) v) vs schema ∧
      Forall value_canonical vs ∧ body = concat (value_body <$> vs)) u16_spec).
    intros n body _ _. destruct (Z.eqb_spec n (len schema)) as [->|]; cbn [negb].
    + eapply parses_ext; [apply decode_field_values_spec|]. naive_solver.
    + apply parses_never. naive_solver.
  - intros vs body _. unfold fields_accept, fields_body, u16_ok. split.
    + intros (n & b1 & b2 & [Hn ->] & (-> & Hv & Hf & Hc & ->) & ->).
      assert (len vs = len schema) as -> by (unfold len; f_equal; by eapply Forall2_length).
      split_and!; done || lia.
    + intros (Hv & [Hf Hl] & Hc & ->).
      assert (len vs = len schema) as E by (unfold len; f_equal; by eapply Forall2_length).
      pose proof (len_nonneg vs).
      exists (len schema), (be_bytes 2 (len vs)), (concat (value_body <$> vs)). rewrite E.
      split_and!; done || lia.
Qed.
Lemma fields_body_ok values : Forall value_ok values → bytes_ok (fields_body values).
Proof.
  intros H. apply bytes_ok_app. split; [apply be_bytes_ok|].
  induction H as [|v values Hv _ IH]; [constructor|]. cbn [fmap list_fmap concat].
  apply bytes_ok_app. split; [by apply value_body_ok|exact IH].
Qed.
