(* ===== verification/Records.v ===== *)
(** The serving value families (src/src/storage/values/record.rs, entry.rs,
    authority.rs, graph.rs and the namespace values of manifest.rs): their data,
    constructors, encoders and decoders, and for each family the
    [ValueFamily] instance that the framing theorems consume. *)
From S2P Require Import Prelude RustStd Api TreeKey Keys RaBitQ Manifest Wire ValueData.

Definition MAX_PAYLOAD_BYTES : Z := 64 * 1024.

(** Type tags (values.rs). *)
Definition TAG_INDEX_ID_ALLOCATOR : Z := 0x00.
Definition TAG_INDEX_NAME_ENTRY : Z := 0x01.
Definition TAG_TREE_MANIFEST : Z := 0x03.
Definition TAG_VECTOR_RECORD : Z := 0x04.
Definition TAG_OPAQUE_PAYLOAD : Z := 0x05.
Definition TAG_RECORD_LOCATION : Z := 0x06.
Definition TAG_PARTITION_HEADER : Z := 0x07.
Definition TAG_PARTITION_CENTROID : Z := 0x08.
Definition TAG_CHILD_ENTRY : Z := 0x09.
Definition TAG_LEAF_ENTRY : Z := 0x0a.
Definition TAG_PARTITION_SYNOPSIS : Z := 0x0b.
Definition TAG_PARTITION_STATE : Z := 0x0c.
Definition TAG_GRAPH_DESCRIPTOR : Z := 0x12.
Definition TAG_GRAPH_CHUNK : Z := 0x13.

(** ** Vector Records (record.rs) *)
Record VectorRecord := mkVectorRecord {
  vr_record_id : list Z; vr_vector : list Z; vr_fields : list Value.t
}.
Definition encode_record_id (record_id e : list Z) : result (list Z) :=
  if (len record_id =? 0) || (MAX_RECORD_ID_BYTES <? len record_id) then Err InvalidArgument
  else Encoder_sized_u16_bytes record_id e.
Definition decode_record_id : Dec (list Z) :=
  dlet record_id := Decoder_sized_u16_bytes MAX_RECORD_ID_BYTES in
  dec_lift (if len record_id =? 0 then Err Corruption else Ok record_id).
Definition encode_vector_record (m : IndexManifest) (r : VectorRecord) (e : list Z) : result (list Z) :=
  encode_record_id (vr_record_id r) e ≫= λ e,
  encode_vector (dimension m) (vr_vector r) e ≫= λ e,
  encode_fields (fields m) (vr_fields r) e.
Definition decode_vector_record (m : IndexManifest) : Dec VectorRecord :=
  dlet record_id := decode_record_id in
  dlet vector := decode_vector (dimension m) in
  dlet values := decode_fields (fields m) in
  dec_ret (mkVectorRecord record_id vector values).

(** An Opaque Payload is its bytes. *)
Definition OpaquePayload_new (bytes : list Z) : result (list Z) :=
  if MAX_PAYLOAD_BYTES <? len bytes then Err InvalidArgument else Ok bytes.
Definition encode_opaque_payload (payload e : list Z) : result (list Z) :=
  Encoder_sized_bytes payload MAX_PAYLOAD_BYTES e.
Definition decode_opaque_payload : Dec (list Z) := Decoder_sized_bytes MAX_PAYLOAD_BYTES.

Record RecordLocation := mkLocation { rl_tree_key : list Z; rl_leaf : Z }.
Definition encode_record_location (m : IndexManifest) (l : RecordLocation) (e : list Z)
    : result (list Z) :=
  tree_key_types m ≫= λ types,
  map_err InvalidArgument (TreeKey_validate (rl_tree_key l) types) ≫= λ _,
  Encoder_sized_bytes (rl_tree_key l) MAX_TREE_KEY_BYTES e ≫= λ e,
  Ok (Encoder_u64 (rl_leaf l) e).
Definition record_location_encoded_len (tree_key : list Z) : Z := 1 + 4 + len tree_key + 8.
Definition decode_record_location (m : IndexManifest) : Dec RecordLocation :=
  dlet bytes := Decoder_sized_bytes MAX_TREE_KEY_BYTES in
  dlet types := dec_lift (tree_key_types m) in
  dlet tree_key := dec_lift (TreeKey_from_encoded types bytes) in
  dlet leaf := Decoder_partition_key in
  dec_ret (mkLocation tree_key leaf).

(** ** Entries (entry.rs) *)
Record ChildEntry := mkChildEntry { ce_child : Z; ce_centroid : list Z }.
Definition encode_child_entry (m : IndexManifest) (c : ChildEntry) (e : list Z) : result (list Z) :=
  encode_vector (dimension m) (ce_centroid c) (Encoder_u64 (ce_child c) e).
Definition decode_child_entry (m : IndexManifest) : Dec ChildEntry :=
  dlet child := Decoder_partition_key in
  dlet centroid := decode_vector (dimension m) in
  dec_ret (mkChildEntry child centroid).

Record LeafEntry := mkLeafEntry {
  le_record_id : list Z; le_fields : list Value.t; le_rabitq7 : list Z
}.
Definition encode_leaf_entry (m : IndexManifest) (l : LeafEntry) (e : list Z) : result (list Z) :=
  encode_record_id (le_record_id l) e ≫= λ e,
  encode_fields (fields m) (le_fields l) e ≫= λ e,
  encoded_len (dimension m) ≫= λ expected,
  map_err InvalidArgument (RaBitQ7_validate (le_rabitq7 l) (dimension m)) ≫= λ _,
  Encoder_sized_bytes (le_rabitq7 l) expected e.
Definition decode_leaf_entry (m : IndexManifest) : Dec LeafEntry :=
  dlet record_id := decode_record_id in
  dlet values := decode_fields (fields m) in
  dlet expected := dec_lift (map_err Corruption (encoded_len (dimension m))) in
  dlet rabitq7 := Decoder_sized_bytes expected in
  dlet u := dec_lift (RaBitQ7_validate rabitq7 (dimension m)) in
  dec_ret (mkLeafEntry record_id values rabitq7).
Fixpoint field_bytes_loop (fs : list FieldSchema) (size : Z) : result Z :=
  match fs with
  | [] => Ok size
  | field :: fs =>
      ok_or InvalidArgument (checked_add size (maximum_typed_value_len (fs_data_type field)))
        ≫= field_bytes_loop fs
  end.
Definition maximum_leaf_entry_encoded_len (m : IndexManifest) : result Z :=
  field_bytes_loop (fields m) 0 ≫= λ field_bytes,
  encoded_len (dimension m) ≫= λ rabitq7_bytes,
  ok_or InvalidArgument
    (checked_add 1 (2 + MAX_RECORD_ID_BYTES) ≫= λ size,
     checked_add size (2 + field_bytes) ≫= λ size,
     checked_add size (4 + rabitq7_bytes)).

(** ** Tree Manifests and partition authority (authority.rs) *)
Record TreeManifest := mkTreeManifest { tm_root : Z; tm_partition_key_high_water : Z }.
Definition TreeManifest_new (root high_water : Z) : result TreeManifest :=
  if negb (root =? 1) || (high_water <? root) then Err InvalidArgument
  else Ok (mkTreeManifest root high_water).
Definition encode_tree_manifest (t : TreeManifest) (e : list Z) : list Z :=
  Encoder_u64 (tm_partition_key_high_water t) (Encoder_u64 (tm_root t) e).
Definition decode_tree_manifest : Dec TreeManifest :=
  dlet root := Decoder_partition_key in
  dlet high_water := Decoder_partition_key in
  dec_lift (map_err Corruption (TreeManifest_new root high_water)).

Module PartitionState.
Inductive t := Ready | Splitting | ReceivingSplit | DrainingSplit | Merging.
#[global] Instance eq_dec : EqDecision t.
Proof. solve_decision. Defined.
End PartitionState.
Definition PartitionState_accepts_writes (s : PartitionState.t) : bool :=
  match s with
  | PartitionState.Ready | PartitionState.Splitting | PartitionState.ReceivingSplit => true
  | _ => false
  end.
Definition encode_state_kind (s : PartitionState.t) : Z :=
  match s with
  | PartitionState.Ready => 0
  | PartitionState.Splitting => 1
  | PartitionState.ReceivingSplit => 2
  | PartitionState.DrainingSplit => 3
  | PartitionState.Merging => 4
  end.
Definition decode_state_kind (tag : Z) : result PartitionState.t :=
  if tag =? 0 then Ok PartitionState.Ready
  else if tag =? 1 then Ok PartitionState.Splitting
  else if tag =? 2 then Ok PartitionState.ReceivingSplit
  else if tag =? 3 then Ok PartitionState.DrainingSplit
  else if tag =? 4 then Ok PartitionState.Merging
  else Err Corruption.

Record PartitionHeader := mkPartitionHeader {
  ph_level : Z; ph_entry_count : Z; ph_cache_epoch : Z; ph_state : PartitionState.t
}.
Definition PARTITION_HEADER_ENCODED_LEN : Z := 1 + 4 + 4 + 8 + 1.
Definition PartitionHeader_new (level entry_count cache_epoch : Z) (state : PartitionState.t)
    : result PartitionHeader :=
  if level =? 0 then Err InvalidArgument
  else Ok (mkPartitionHeader level entry_count cache_epoch state).
Definition encode_partition_header (h : PartitionHeader) (e : list Z) : list Z :=
  Encoder_u8 (encode_state_kind (ph_state h))
    (Encoder_u64 (ph_cache_epoch h) (Encoder_u32 (ph_entry_count h) (Encoder_u32 (ph_level h) e))).
Definition decode_partition_header : Dec PartitionHeader :=
  dlet level := Decoder_u32 in
  dlet entry_count := Decoder_u32 in
  dlet cache_epoch := Decoder_u64 in
  dlet tag := Decoder_u8 in
  dlet state := dec_lift (decode_state_kind tag) in
  dec_lift (map_err Corruption (PartitionHeader_new level entry_count cache_epoch state)).

(** A Partition Centroid is its components. *)
Definition encode_partition_centroid (m : IndexManifest) (c e : list Z) : result (list Z) :=
  encode_vector (dimension m) c e.
Definition decode_partition_centroid (m : IndexManifest) : Dec (list Z) :=
  decode_vector (dimension m).

Module PartitionTransition.
Inductive t :=
  | Ready (started_at_unix_millis : Z)
  | Splitting (left_ right_ started_at_unix_millis : Z)
  | ReceivingSplit (source started_at_unix_millis : Z)
  | DrainingSplit (left_ right_ started_at_unix_millis : Z)
  | Merging (started_at_unix_millis : Z).
#[global] Instance eq_dec : EqDecision t.
Proof. solve_decision. Defined.
End PartitionTransition.
Definition PartitionTransition_state (t : PartitionTransition.t) : PartitionState.t :=
  match t with
  | PartitionTransition.Ready _ => PartitionState.Ready
  | PartitionTransition.Splitting _ _ _ => PartitionState.Splitting
  | PartitionTransition.ReceivingSplit _ _ => PartitionState.ReceivingSplit
  | PartitionTransition.DrainingSplit _ _ _ => PartitionState.DrainingSplit
  | PartitionTransition.Merging _ => PartitionState.Merging
  end.
Definition PartitionTransition_started_at (t : PartitionTransition.t) : Z :=
  match t with
  | PartitionTransition.Ready at_ | PartitionTransition.Splitting _ _ at_
  | PartitionTransition.ReceivingSplit _ at_ | PartitionTransition.DrainingSplit _ _ at_
  | PartitionTransition.Merging at_ => at_
  end.
Definition validate_transition (t : PartitionTransition.t) : result unit :=
  match t with
  | PartitionTransition.Splitting left_ right_ _ | PartitionTransition.DrainingSplit left_ right_ _ =>
      if left_ =? right_ then Err InvalidArgument else Ok tt
  | _ => Ok tt
  end.
Definition encode_partition_state (t : PartitionTransition.t) (e : list Z) : result (list Z) :=
  validate_transition t ≫= λ _,
  let e := Encoder_u8 (encode_state_kind (PartitionTransition_state t)) e in
  let e := Encoder_u64 (PartitionTransition_started_at t) e in
  Ok match t with
     | PartitionTransition.Ready _ | PartitionTransition.Merging _ => e
     | PartitionTransition.Splitting left_ right_ _ | PartitionTransition.DrainingSplit left_ right_ _ =>
         Encoder_u64 right_ (Encoder_u64 left_ e)
     | PartitionTransition.ReceivingSplit source _ => Encoder_u64 source e
     end.
Definition decode_partition_state : Dec PartitionTransition.t :=
  dlet tag := Decoder_u8 in
  dlet kind := dec_lift (decode_state_kind tag) in
  dlet started := Decoder_u64 in
  dlet transition := match kind with
    | PartitionState.Ready => dec_ret (PartitionTransition.Ready started)
    | PartitionState.Splitting =>
        dlet left_ := Decoder_partition_key in
        dlet right_ := Decoder_partition_key in
        dec_ret (PartitionTransition.Splitting left_ right_ started)
    | PartitionState.ReceivingSplit =>
        dlet source := Decoder_partition_key in
        dec_ret (PartitionTransition.ReceivingSplit source started)
    | PartitionState.DrainingSplit =>
        dlet left_ := Decoder_partition_key in
        dlet right_ := Decoder_partition_key in
        dec_ret (PartitionTransition.DrainingSplit left_ right_ started)
    | PartitionState.Merging => dec_ret (PartitionTransition.Merging started)
    end in
  dec_lift (map_err Corruption (validate_transition transition) ≫= λ _, Ok transition).

(** ** Graph envelopes (graph.rs) *)
Definition MAX_GRAPH_VALUE_BYTES : Z := 100000.
Definition GRAPH_CHUNK_BYTES : Z := MAX_GRAPH_VALUE_BYTES - 5.
(** The constants and bound of the ktann-usearch crate the envelope checks
    against; the encoding tag is that of a little-endian host. *)
Definition MAX_NODES : Z := 65536.
Definition NATIVE_ENCODING : Z := 1.
Definition NATIVE_HEADER_BYTES : Z := 40.
(** [max_level]: the loop divides at least by two, so the fuel is enough. *)
Fixpoint max_level_loop (fuel : nat) (m population level : Z) : Z :=
  match fuel with
  | O => level
  | S fuel => if m <=? population then max_level_loop fuel m (population / m) (level + 1) else level
  end.
Definition max_level (m : Z) : result Z :=
  if m <? 2 then Panic else Ok (max_level_loop 17 m MAX_NODES 0).
Definition encoded_bound (n m : Z) : result Z :=
  if (MAX_NODES <? n) || negb ((2 <=? m) && (m <=? MAX_NODES / 2)) then Err InvalidArgument
  else
    max_level m ≫= λ layers,
    let bytes := n * (12 + 4 * (layers + 1) + 4 * (2 * m + layers * m)) in
    if USIZE_LIMIT <=? bytes then Err LimitExceeded
    else ok_or LimitExceeded (checked_add bytes NATIVE_HEADER_BYTES).

Record GraphDescriptor := mkGraphDescriptor {
  gd_nodes : Z; gd_epoch : Z; gd_bytes : Z; gd_binding : list Z; gd_sha256 : list Z
}.
Definition GraphDescriptor_chunks (g : GraphDescriptor) : Z :=
  div_ceil (gd_bytes g) GRAPH_CHUNK_BYTES mod 2 ^ 32.
Definition GraphDescriptor_validate (g : GraphDescriptor) : result unit :=
  if (gd_nodes g =? 0) || (MAX_NODES <? gd_nodes g) || (gd_bytes g <? NATIVE_HEADER_BYTES)
  then Err Corruption
  else
    map_err Corruption (encoded_bound (gd_nodes g) (MAX_NODES / 2)) ≫= λ bound,
    if bound <? gd_bytes g then Err Corruption else Ok tt.
Definition encode_descriptor (g : GraphDescriptor) (e : list Z) : result (list Z) :=
  map_err InvalidArgument (GraphDescriptor_validate g) ≫= λ _,
  Ok (Encoder_bytes (gd_sha256 g) (Encoder_bytes (gd_binding g)
       (Encoder_u64 (gd_bytes g) (Encoder_u64 (gd_epoch g)
         (Encoder_u32 (gd_nodes g) (Encoder_u8 NATIVE_ENCODING e)))))).
Definition decode_descriptor : Dec GraphDescriptor :=
  dlet encoding := Decoder_u8 in
  if negb (encoding =? NATIVE_ENCODING) then dec_lift (Err Corruption)
  else
    dlet nodes := Decoder_u32 in
    dlet epoch := Decoder_u64 in
    dlet bytes := Decoder_u64 in
    dlet binding := Decoder_array 32 in
    dlet sha256 := Decoder_array 32 in
    let value := mkGraphDescriptor nodes epoch bytes binding sha256 in
    dec_lift (GraphDescriptor_validate value ≫= λ _, Ok value).
(** A Graph Chunk is its bytes. *)
Definition GraphChunk_new (bytes : list Z) : result (list Z) :=
  if (len bytes =? 0) || (GRAPH_CHUNK_BYTES <? len bytes) then Err InvalidArgument else Ok bytes.
Definition encode_chunk (chunk e : list Z) : result (list Z) :=
  Encoder_sized_bytes chunk GRAPH_CHUNK_BYTES e.
Definition decode_chunk : Dec (list Z) :=
  dlet bytes := Decoder_sized_bytes GRAPH_CHUNK_BYTES in
  dec_lift (map_err Corruption (GraphChunk_new bytes)).

(** ** Namespace values (manifest.rs): an [IndexIdAllocator] is its high-water
    mark, an [IndexNameEntry] its Logical Index ID. *)
Definition encode_index_id_allocator (high_water : Z) (e : list Z) : list Z :=
  Encoder_u64 high_water e.
Definition decode_index_id_allocator : Dec Z := Decoder_u64.
Definition encode_index_name_entry (id : Z) (e : list Z) : list Z := Encoder_u64 id e.
Definition decode_index_name_entry : Dec Z := Decoder_logical_index_id.

(** ** Specifications *)
Lemma record_id_emits id :
  emits (encode_record_id id) (0 < len id ≤ MAX_RECORD_ID_BYTES) (be_bytes 2 (len id) ++ id).
Proof.
  intros out. unfold encode_record_id, MAX_RECORD_ID_BYTES. pose proof (len_nonneg id).
  destruct (emits_sized_u16_bytes id out) as [Hv Ht].
  destruct (Z.eqb_spec (len id) 0), (Z.ltb_spec 256 (len id)); cbn [orb];
    try (split; [naive_solver lia|by right]).
  split; [|done]. intros r. rewrite Hv. split; intros [? ->]; (split; [lia|done]).
Qed.
Lemma record_id_spec :
  parses decode_record_id (λ id body, record_id_ok id ∧ body = be_bytes 2 (len id) ++ id).
Proof.
  eapply parses_ext; [apply parses_check; [apply sized_u16_bytes_spec|intros; apply lift_if_total]|].
  intros id body _. unfold record_id_ok, MAX_RECORD_ID_BYTES. split.
  - intros (a & (Ha & Hl & _ & ->) & E). destruct (Z.eqb_spec (len a) 0); [done|].
    apply Ok_inj in E as <-. pose proof (len_nonneg a). split_and!; done || lia.
  - intros [[Hb [??]] ->]. exists id. rewrite (proj2 (Z.eqb_neq (len id) 0)) by lia.
    split_and!; done || lia.
Qed.


(** An unconditional prefix before an encoder. *)
Lemma emits_prefix (f : list Z → list Z) pre e P body :
  (∀ out, f out = out ++ pre) → emits e P body → emits (λ out, e (f out)) P (pre ++ body).
Proof.
  intros Hf He out. rewrite Hf. destruct (He (out ++ pre)) as [Hv Ht]. split; [|done].
  intros r. by rewrite Hv, app_assoc.
Qed.

(** *** Namespace values *)
Definition allocator_family : ValueFamily Z.
Proof.
  refine {| vf_tag := TAG_INDEX_ID_ALLOCATOR;
            vf_encode v e := Ok (encode_index_id_allocator v e);
            vf_decode := decode_index_id_allocator;
            vf_typed v := u64_ok v; vf_valid _ := True; vf_canonical _ := True;
            vf_body v := be_bytes 8 v |}.
  - done.
  - intros. apply be_bytes_ok.
  - intros v _. apply emits_everywhere. by apply emits_pure.
  - eapply parses_ext; [apply u64_spec|]. naive_solver.
Defined.
Definition name_entry_family : ValueFamily Z.
Proof.
  refine {| vf_tag := TAG_INDEX_NAME_ENTRY;
            vf_encode v e := Ok (encode_index_name_entry v e);
            vf_decode := decode_index_name_entry;
            vf_typed v := id_ok v; vf_valid _ := True; vf_canonical _ := True;
            vf_body v := be_bytes 8 v |}.
  - done.
  - intros. apply be_bytes_ok.
  - intros v _. apply emits_everywhere. by apply emits_pure.
  - eapply parses_ext; [apply logical_index_id_spec|]. naive_solver.
Defined.

(** *** Payloads and graph chunks *)
Definition payload_family : ValueFamily (list Z).
Proof.
  refine {| vf_tag := TAG_OPAQUE_PAYLOAD;
            vf_encode := encode_opaque_payload;
            vf_decode := decode_opaque_payload;
            vf_typed v := bytes_ok v; vf_valid v := len v ≤ MAX_PAYLOAD_BYTES;
            vf_canonical _ := True; vf_body v := be_bytes 4 (len v) ++ v |}.
  - done.
  - intros v Hv _. apply bytes_ok_app. split; [apply be_bytes_ok|done].
  - intros v _. apply emits_everywhere. eapply emits_ext; [apply emits_sized_bytes| |done].
    unfold MAX_PAYLOAD_BYTES. lia.
  - eapply parses_ext; [apply sized_bytes_spec|]. unfold MAX_PAYLOAD_BYTES. naive_solver lia.
Defined.

Lemma graph_chunk_new_ok v w :
  GraphChunk_new v = Ok w ↔ 0 < len v ≤ GRAPH_CHUNK_BYTES ∧ w = v.
Proof.
  unfold GraphChunk_new. pose proof (len_nonneg v).
  destruct (Z.eqb_spec (len v) 0), (Z.ltb_spec GRAPH_CHUNK_BYTES (len v)); simpl; naive_solver lia.
Qed.
Definition graph_chunk_family : ValueFamily (list Z).
Proof.
  refine {| vf_tag := TAG_GRAPH_CHUNK;
            vf_encode := encode_chunk;
            vf_decode := decode_chunk;
            vf_typed v := bytes_ok v ∧ 0 < len v; vf_valid v := len v ≤ GRAPH_CHUNK_BYTES;
            vf_canonical _ := True; vf_body v := be_bytes 4 (len v) ++ v |}.
  - done.
  - intros v [Hv _] _. apply bytes_ok_app. split; [apply be_bytes_ok|done].
  - intros v _. apply emits_everywhere. eapply emits_ext; [apply emits_sized_bytes| |done].
    unfold GRAPH_CHUNK_BYTES, MAX_GRAPH_VALUE_BYTES. lia.
  - eapply parses_ext; [apply parses_check; [apply sized_bytes_spec|]|].
    + intros v b _. unfold GraphChunk_new. case_match; [by right|left; by eexists].
    + intros v body _. split.
      * intros (a & (? & ? & ? & ->) & [? ->]%map_err_ok%graph_chunk_new_ok).
        split_and!; done || lia.
      * intros ([? ?] & ? & _ & ->). exists v.
        unfold GRAPH_CHUNK_BYTES, MAX_GRAPH_VALUE_BYTES in *.
        split; [split_and!; done || lia|]. apply map_err_ok, graph_chunk_new_ok.
        unfold GRAPH_CHUNK_BYTES, MAX_GRAPH_VALUE_BYTES in *. split; [lia|done].
Defined.

(** *** Vectors: centroids and Child Entries *)
Section with_manifest.
Context (m : IndexManifest) (Hm : manifest_ok m).

Lemma dimension_nonneg : 0 ≤ dimension m.
Proof. destruct Hm as (_ & ? & _). lia. Qed.
Lemma fields_u16 : len (fields m) < 2 ^ 16.
Proof. destruct Hm as (_ & _ & ? & _). unfold MAX_FIELDS in *. lia. Qed.

Definition centroid_family : ValueFamily (list Z).
Proof.
  refine {| vf_tag := TAG_PARTITION_CENTROID;
            vf_encode := encode_partition_centroid m;
            vf_decode := decode_partition_centroid m;
            vf_typed := vector_typed; vf_valid := vector_ok (dimension m);
            vf_canonical := vector_canonical; vf_body := vector_body |}.
  - done.
  - intros. apply vector_body_ok.
  - intros v _. apply emits_everywhere. apply encode_vector_emits.
  - apply decode_vector_spec, dimension_nonneg.
Defined.

Definition child_entry_family : ValueFamily ChildEntry.
Proof.
  refine {| vf_tag := TAG_CHILD_ENTRY;
            vf_encode := encode_child_entry m;
            vf_decode := decode_child_entry m;
            vf_typed c := id_ok (ce_child c) ∧ vector_typed (ce_centroid c);
            vf_valid c := vector_ok (dimension m) (ce_centroid c);
            vf_canonical c := vector_canonical (ce_centroid c);
            vf_body c := be_bytes 8 (ce_child c) ++ vector_body (ce_centroid c) |}.
  - done.
  - intros. apply bytes_ok_app. split; [apply be_bytes_ok|apply vector_body_ok].
  - intros c _. apply emits_everywhere. apply (emits_prefix (Encoder_u64 (ce_child c))); [done|apply encode_vector_emits].
  - eapply parses_ext.
    + eapply parses_bind; [apply partition_key_spec|]. intros child ? _ _.
      apply parses_map, decode_vector_spec, dimension_nonneg.
    + intros [child v] body _. cbn [ce_child ce_centroid]. split.
      * by intros (a & b1 & b2 & [? ->] & (w & (? & ? & ? & ->) & [= -> ->]) & ->).
      * intros ([? ?] & ? & ? & ->). exists child, (be_bytes 8 child), (vector_body v).
        split_and!; try done. by exists v.
Defined.

(** *** Vector Records *)
Definition vector_record_family : ValueFamily VectorRecord.
Proof.
  refine {| vf_tag := TAG_VECTOR_RECORD;
            vf_encode := encode_vector_record m;
            vf_decode := decode_vector_record m;
            vf_typed r := bytes_ok (vr_record_id r) ∧ vector_typed (vr_vector r) ∧
                          Forall value_ok (vr_fields r);
            vf_valid r := 0 < len (vr_record_id r) ≤ MAX_RECORD_ID_BYTES ∧
                          vector_ok (dimension m) (vr_vector r) ∧ fields_accept (fields m) (vr_fields r);
            vf_canonical r := vector_canonical (vr_vector r) ∧ Forall value_canonical (vr_fields r);
            vf_body r := (be_bytes 2 (len (vr_record_id r)) ++ vr_record_id r) ++
                         vector_body (vr_vector r) ++ fields_body (vr_fields r) |}.
  - done.
  - intros r (? & ? & ?) _. rewrite !bytes_ok_app.
    split_and!; [apply be_bytes_ok|done|apply vector_body_ok..|by apply fields_body_ok].
  - intros r _. apply emits_everywhere. apply (emits_bind (encode_record_id (vr_record_id r))); [apply record_id_emits|intros _].
    apply (emits_bind (encode_vector _ _)); [apply encode_vector_emits|intros _].
    apply encode_fields_emits.
  - eapply parses_ext.
    + eapply parses_bind; [apply record_id_spec|]. intros id ? _ _.
      eapply parses_bind; [apply decode_vector_spec, dimension_nonneg|]. intros v ? _ _.
      apply parses_map, decode_fields_spec, fields_u16.
    + intros [id v vs] body _. cbn [vr_record_id vr_vector vr_fields]. unfold record_id_ok. split.
      * intros (id' & b1 & b2 & [[? ?] ->] & (v' & b3 & b4 & (? & ? & ? & ->) &
          (vs' & (? & ? & ? & ->) & [= -> -> ->]) & ->) & ->). split_and!; done || lia.
      * intros ((? & ? & ?) & (? & ? & ?) & (? & ?) & ->).
        eexists id, _, _. split; [done|]. split; [|done].
        eexists v, _, _. split; [done|]. split; [|done]. by exists vs.
Defined.
(** *** Record Locations *)
Definition location_valid (l : RecordLocation) : Prop :=
  ∃ types, tree_key_types m = Ok types ∧ tree_key_ok types (rl_tree_key l).

Lemma location_emits l :
  bytes_ok (rl_tree_key l) →
  emits (encode_record_location m l) (location_valid l)
    ((be_bytes 4 (len (rl_tree_key l)) ++ rl_tree_key l) ++ be_bytes 8 (rl_leaf l)).
Proof.
  intros Hb. destruct Hm as (_ & _ & _ & _ & _ & _ & types & Ht).
  unfold encode_record_location. rewrite Ht. cbn [mbind result_bind].
  apply (emits_guard _ (λ _ e, Encoder_sized_bytes (rl_tree_key l) MAX_TREE_KEY_BYTES e ≫=
    λ e, Ok (Encoder_u64 (rl_leaf l) e)) (λ _, len (rl_tree_key l) ≤ MAX_TREE_KEY_BYTES)).
  - destruct (check_complete_total types _ Hb) as [[[] E]|E]; unfold TreeKey_validate; rewrite E;
      simpl; eauto.
  - intros _ _. eapply emits_ext.
    + apply emits_bind; [apply emits_sized_bytes|intros _]. by apply emits_pure.
    + unfold MAX_TREE_KEY_BYTES. lia.
    + done.
  - unfold location_valid, TreeKey_validate. setoid_rewrite map_err_ok.
    setoid_rewrite Ht. split.
    + intros (ty & [= <-] & Hk). exists tt. split; [by apply check_complete_spec|].
      by destruct Hk as (? & _ & _ & ?).
    + intros ([] & Hc & _). exists types. split; [done|]. by apply check_complete_spec.
Qed.

Definition location_family : ValueFamily RecordLocation.
Proof.
  refine {| vf_tag := TAG_RECORD_LOCATION;
            vf_encode := encode_record_location m;
            vf_decode := decode_record_location m;
            vf_typed l := bytes_ok (rl_tree_key l) ∧ id_ok (rl_leaf l);
            vf_valid := location_valid; vf_canonical _ := True;
            vf_body l := (be_bytes 4 (len (rl_tree_key l)) ++ rl_tree_key l) ++
                         be_bytes 8 (rl_leaf l) |}.
  - done.
  - intros l [? _] _. rewrite !bytes_ok_app. split_and!; try apply be_bytes_ok; done.
  - intros l [? _]. apply emits_everywhere. by apply location_emits.
  - destruct Hm as (_ & _ & _ & _ & _ & _ & types & Ht). eapply parses_ext.
    + eapply parses_bind; [apply sized_bytes_spec|]. intros bytes ? (Hb & _) _.
      eapply parses_bind; [apply parses_lift; rewrite Ht; left; by eexists|]. intros ty ? _ _.
      eapply parses_bind; [apply parses_lift; by apply from_encoded_total|]. intros tk ? _ _.
      apply parses_map, partition_key_spec.
    + intros [tk leaf] body _. cbn [rl_tree_key rl_leaf]. unfold location_valid. cbn [rl_tree_key]. split.
      * intros (bs & b1 & b2 & (Hb & Hl & _ & ->) & (ty & b3 & b4 & [Hty ->] & (tk' & b5 & b6 &
          [E ->] & (leaf' & [? ->] & [= -> ->]) & ->) & ->) & ->).
        apply from_encoded_spec in E as [? ->]; [|done]. cbn [app]. split_and!; try done. eauto.
      * intros ([Hb ?] & (ty & Hty & Hk) & _ & ->). pose proof Hk as (? & _ & _ & ?).
        exists tk, (be_bytes 4 (len tk) ++ tk), (be_bytes 8 leaf).
        split; [unfold MAX_TREE_KEY_BYTES in *; split_and!; done || lia|]. split; [|done].
        exists ty, [], (be_bytes 8 leaf). split; [done|]. split; [|done].
        exists tk, [], (be_bytes 8 leaf). split; [|split; [|done]].
        { split; [|done]. by apply from_encoded_spec. }
        by exists leaf.
Defined.

(** *** Leaf Entries *)
Lemma validate_rabitq_total bytes :
  bytes_ok bytes → ok_or_corrupt (RaBitQ7_validate bytes (dimension m)).
Proof. intros. apply ok_or_corrupt_bind; [by apply decode_total|auto with ktann]. Qed.
Lemma validate_rabitq_len bytes :
  RaBitQ7_validate bytes (dimension m) = Ok tt → encoded_len (dimension m) = Ok (len bytes).
Proof.
  intros (c & H & _)%bind_ok. unfold RaBitQ7_decode in H.
  apply bind_ok in H as (n & Hn%map_err_ok & H).
  destruct (Z.eqb_spec (len bytes) n) as [->|]; [done|discriminate H].
Qed.
Lemma encoded_len_u32 n : encoded_len (dimension m) = Ok n → n < 2 ^ 32.
Proof.
  intros [Hd ->]%encoded_len_ok. pose proof (sizes_bound (dimension m) ltac:(lia)).
  unfold MAX_DIMENSION in *. lia.
Qed.

Definition leaf_entry_valid (l : LeafEntry) : Prop :=
  0 < len (le_record_id l) ≤ MAX_RECORD_ID_BYTES ∧ fields_accept (fields m) (le_fields l) ∧
  RaBitQ7_validate (le_rabitq7 l) (dimension m) = Ok tt.
Definition leaf_entry_body (l : LeafEntry) : list Z :=
  (be_bytes 2 (len (le_record_id l)) ++ le_record_id l) ++ fields_body (le_fields l) ++
  be_bytes 4 (len (le_rabitq7 l)) ++ le_rabitq7 l.

Lemma rabitq_emits bytes :
  bytes_ok bytes →
  emits (λ e, encoded_len (dimension m) ≫= λ expected,
              map_err InvalidArgument (RaBitQ7_validate bytes (dimension m)) ≫= λ _,
              Encoder_sized_bytes bytes expected e)
    (RaBitQ7_validate bytes (dimension m) = Ok tt) (be_bytes 4 (len bytes) ++ bytes).
Proof.
  intros Hb out. destruct (encoded_len_total (dimension m)) as [[n En]|En]; rewrite En;
    cbn [mbind result_bind].
  2: { split; [|by right]. intros r. split; [done|]. intros [H%validate_rabitq_len _]. congruence. }
  destruct (validate_rabitq_total bytes Hb) as [[[] Ev]|Ev]; rewrite Ev; cbn [map_err mbind result_bind].
  2: { split; [naive_solver|by right]. }
  pose proof (validate_rabitq_len bytes Ev) as El. rewrite En in El. apply Ok_inj in El as ->.
  destruct (emits_sized_bytes bytes (len bytes) out) as [Hv Ht]. split; [|done]. intros r.
  rewrite Hv. pose proof (encoded_len_u32 _ En). naive_solver lia.
Qed.

Definition leaf_entry_family : ValueFamily LeafEntry.
Proof.
  refine {| vf_tag := TAG_LEAF_ENTRY;
            vf_encode := encode_leaf_entry m;
            vf_decode := decode_leaf_entry m;
            vf_typed l := bytes_ok (le_record_id l) ∧ Forall value_ok (le_fields l) ∧
                          bytes_ok (le_rabitq7 l);
            vf_valid := leaf_entry_valid;
            vf_canonical l := Forall value_canonical (le_fields l);
            vf_body := leaf_entry_body |}.
  - done.
  - intros l (? & ? & ?) _. unfold leaf_entry_body. rewrite !bytes_ok_app.
    split_and!; try apply be_bytes_ok; try done. by apply fields_body_ok.
  - intros l (_ & _ & ?). apply emits_everywhere.
    apply (emits_bind (encode_record_id (le_record_id l))); [apply record_id_emits|intros _].
    apply (emits_bind (encode_fields _ _)); [apply encode_fields_emits|intros _].
    by apply rabitq_emits.
  - eapply parses_ext.
    + eapply parses_bind; [apply record_id_spec|]. intros id ? _ _.
      eapply parses_bind; [apply decode_fields_spec, fields_u16|]. intros vs ? _ _.
      eapply parses_bind; [apply parses_lift|intros expected ? _ _].
      { destruct (encoded_len_total (dimension m)) as [[n ->]| ->]; [left; by eexists|by right]. }
      eapply parses_bind; [apply sized_bytes_spec|]. intros bytes ? (Hb & _) _.
      eapply parses_bind; [apply parses_lift; by apply validate_rabitq_total|]. intros u ? _ _.
      apply parses_ret.
    + intros [id vs bytes] body _. unfold leaf_entry_valid, leaf_entry_body, record_id_ok.
      cbn [le_record_id le_fields le_rabitq7]. split.
      * intros (id' & b1 & b2 & [[? ?] ->] & (vs' & b3 & b4 & (? & ? & ? & ->) & (n & b5 & b6 &
          [Hn%map_err_ok ->] & (bs & b7 & b8 & (? & ? & ? & ->) & ([] & b9 & b10 & [Hv ->] &
          [[= -> -> ->] ->] & ->) & ->) & ->) & ->) & ->).
        rewrite !app_nil_r. cbn [app]. split_and!; done || lia.
      * intros ((? & ? & ?) & (? & ? & Hv) & ? & ->).
        pose proof (validate_rabitq_len _ Hv) as En. pose proof (encoded_len_u32 _ En).
        eexists id, _, _. split; [done|]. split; [|done].
        eexists vs, _, _. split; [done|]. split; [|done].
        exists (len bytes), [], (be_bytes 4 (len bytes) ++ bytes).
        split; [split; [by apply map_err_ok|done]|]. split; [|done].
        exists bytes, (be_bytes 4 (len bytes) ++ bytes), [].
        split; [split_and!; done || lia|]. rewrite app_nil_r. split; [|done].
        exists tt, [], []. done.
Defined.
End with_manifest.

(** *** Partition authority *)
Lemma tree_manifest_new_ok root hw t :
  TreeManifest_new root hw = Ok t ↔ root = 1 ∧ root ≤ hw ∧ t = mkTreeManifest root hw.
Proof.
  unfold TreeManifest_new. destruct (Z.eqb_spec root 1), (Z.ltb_spec hw root); simpl; naive_solver lia.
Qed.
Definition tree_manifest_family : ValueFamily TreeManifest.
Proof.
  refine {| vf_tag := TAG_TREE_MANIFEST;
            vf_encode t e := Ok (encode_tree_manifest t e);
            vf_decode := decode_tree_manifest;
            vf_typed t := tm_root t = 1 ∧ id_ok (tm_partition_key_high_water t);
            vf_valid _ := True; vf_canonical _ := True;
            vf_body t := be_bytes 8 (tm_root t) ++ be_bytes 8 (tm_partition_key_high_water t) |}.
  - done.
  - intros. apply bytes_ok_app. split; apply be_bytes_ok.
  - intros t _. apply emits_everywhere. apply emits_pure. intros out. unfold encode_tree_manifest, Encoder_u64.
    by rewrite <-app_assoc.
  - eapply parses_ext.
    + eapply parses_bind; [apply partition_key_spec|]. intros root ? _ _.
      apply parses_check; [apply partition_key_spec|]. intros hw ? _.
      unfold TreeManifest_new. case_match; [by right|left; by eexists].
    + intros [root hw] body _. cbn [tm_root tm_partition_key_high_water]. unfold id_ok. split.
      * intros (r & b1 & b2 & [? ->] & (h & [? ->] & E%map_err_ok) & ->).
        apply tree_manifest_new_ok in E as (? & ? & [= -> ->]). split_and!; done || lia.
      * intros ([-> ?] & _ & _ & ->). exists 1, (be_bytes 8 1), (be_bytes 8 hw).
        split_and!; try done. exists hw. split; [done|]. apply map_err_ok, tree_manifest_new_ok.
        split_and!; done || lia.
Defined.

Lemma state_kind_ok tag s :
  decode_state_kind tag = Ok s ↔ tag = encode_state_kind s.
Proof.
  unfold decode_state_kind. split.
  - intros H. by repeat (case_match; bprop; [subst; by apply Ok_inj in H as <-|]).
  - intros ->. by destruct s.
Qed.
Lemma state_kind_total tag : ok_or_corrupt (decode_state_kind tag).
Proof. unfold decode_state_kind. auto 10 with ktann. Qed.
Lemma state_kind_byte s : byte_ok (encode_state_kind s).
Proof. by destruct s. Qed.

Definition header_typed (h : PartitionHeader) : Prop :=
  u32_ok (ph_level h) ∧ ph_level h ≠ 0 ∧ u32_ok (ph_entry_count h) ∧ u64_ok (ph_cache_epoch h).
Definition header_body (h : PartitionHeader) : list Z :=
  be_bytes 4 (ph_level h) ++ be_bytes 4 (ph_entry_count h) ++ be_bytes 8 (ph_cache_epoch h) ++
  [encode_state_kind (ph_state h)].
Definition header_family : ValueFamily PartitionHeader.
Proof.
  refine {| vf_tag := TAG_PARTITION_HEADER;
            vf_encode h e := Ok (encode_partition_header h e);
            vf_decode := decode_partition_header;
            vf_typed := header_typed; vf_valid _ := True; vf_canonical _ := True;
            vf_body := header_body |}.
  - done.
  - intros h _ _. unfold header_body. rewrite !bytes_ok_app. split_and!; try apply be_bytes_ok.
    apply bytes_ok_cons. split; [apply state_kind_byte|constructor].
  - intros h _. apply emits_everywhere. apply emits_pure. intros out.
    unfold encode_partition_header, Encoder_u64, Encoder_u32, Encoder_u8, header_body.
    by rewrite <-!app_assoc.
  - eapply parses_ext.
    + eapply parses_bind; [apply u32_spec|]. intros level ? _ _.
      eapply parses_bind; [apply u32_spec|]. intros count ? _ _.
      eapply parses_bind; [apply u64_spec|]. intros epoch ? _ _.
      eapply parses_bind; [apply u8_spec|]. intros tag ? _ _.
      apply parses_check; [apply parses_lift, state_kind_total|]. intros state ? _.
      unfold PartitionHeader_new. case_match; [by right|left; by eexists].
    + intros [level count epoch state] body _. unfold header_typed, header_body.
      cbn [ph_level ph_entry_count ph_cache_epoch ph_state]. split.
      * intros (l & b1 & b2 & [? ->] & (c & b3 & b4 & [? ->] & (ep & b5 & b6 & [? ->] & (tag & b7 & b8 &
          [? ->] & (s & [Hs%state_kind_ok ->] & E%map_err_ok) & ->) & ->) & ->) & ->).
        unfold PartitionHeader_new in E. destruct (Z.eqb_spec l 0); [done|].
        injection E as -> -> -> ->. subst tag. by split_and!.
      * intros ((? & ? & ? & ?) & _ & _ & ->). eexists level, _, _. split; [done|]. split; [|done].
        eexists count, _, _. split; [done|]. split; [|done].
        eexists epoch, _, _. split; [done|]. split; [|done].
        exists (encode_state_kind state), [encode_state_kind state], [].
        split; [split; [apply state_kind_byte|done]|]. split; [|done].
        exists state. split; [split; [by apply state_kind_ok|done]|]. apply map_err_ok.
        unfold PartitionHeader_new. by rewrite (proj2 (Z.eqb_neq level 0)).
Defined.

(** *** Partition transitions *)
Definition transition_ids_ok (t : PartitionTransition.t) : Prop :=
  match t with
  | PartitionTransition.Splitting l r _ | PartitionTransition.DrainingSplit l r _ => id_ok l ∧ id_ok r
  | PartitionTransition.ReceivingSplit s _ => id_ok s
  | _ => True
  end.
Definition transition_typed (t : PartitionTransition.t) : Prop :=
  u64_ok (PartitionTransition_started_at t) ∧ transition_ids_ok t.
Definition transition_keys (t : PartitionTransition.t) : list Z :=
  match t with
  | PartitionTransition.Splitting l r _ | PartitionTransition.DrainingSplit l r _ =>
      be_bytes 8 l ++ be_bytes 8 r
  | PartitionTransition.ReceivingSplit s _ => be_bytes 8 s
  | _ => []
  end.
Definition transition_body (t : PartitionTransition.t) : list Z :=
  [encode_state_kind (PartitionTransition_state t)] ++
  be_bytes 8 (PartitionTransition_started_at t) ++ transition_keys t.

Lemma validate_transition_total t :
  (∃ u, validate_transition t = Ok u) ∨ validate_transition t = Err InvalidArgument.
Proof. destruct t; simpl; try case_match; eauto. Qed.

Lemma transition_emits t :
  emits (encode_partition_state t) (validate_transition t = Ok tt) (transition_body t).
Proof.
  intros out. unfold encode_partition_state.
  destruct (validate_transition_total t) as [[[] E]|E]; rewrite E; cbn [mbind result_bind].
  2: { split; [naive_solver|by right]. }
  assert (∀ x y : list Z, x = y →
    (∀ r, Ok x = Ok r ↔ Ok tt = Ok tt ∧ r = y) ∧
    ((∃ r, Ok x = Ok r) ∨ Ok x = Err InvalidArgument)) as Hfin.
  { intros x y ->. split; [naive_solver|left; by eexists]. }
  apply Hfin. unfold transition_body, transition_keys, Encoder_u64, Encoder_u8.
  destruct t; rewrite <-?app_assoc; by rewrite ?app_nil_r.
Qed.

(** The keys that follow the state discriminator and the timestamp. *)
Lemma transition_keys_spec kind started :
  parses match kind with
    | PartitionState.Ready => dec_ret (PartitionTransition.Ready started)
    | PartitionState.Splitting =>
        dlet left_ := Decoder_partition_key in
        dlet right_ := Decoder_partition_key in
        dec_ret (PartitionTransition.Splitting left_ right_ started)
    | PartitionState.ReceivingSplit =>
        dlet source := Decoder_partition_key in
        dec_ret (PartitionTransition.ReceivingSplit source started)
    | PartitionState.DrainingSplit =>
        dlet left_ := Decoder_partition_key in
        dlet right_ := Decoder_partition_key in
        dec_ret (PartitionTransition.DrainingSplit left_ right_ started)
    | PartitionState.Merging => dec_ret (PartitionTransition.Merging started)
    end
    (λ t body, PartitionTransition_state t = kind ∧ PartitionTransition_started_at t = started ∧
       transition_ids_ok t ∧ body = transition_keys t).
Proof.
  assert (∀ f : Z → Z → PartitionTransition.t,
    parses (dlet l := Decoder_partition_key in dlet r := Decoder_partition_key in dec_ret (f l r))
      (λ t body, ∃ l r, id_ok l ∧ id_ok r ∧ t = f l r ∧ body = be_bytes 8 l ++ be_bytes 8 r)) as Hpair.
  { intros f. eapply parses_ext.
    - eapply parses_bind; [apply partition_key_spec|]. intros l ? _ _.
      apply parses_map, partition_key_spec.
    - intros t body _. split.
      + intros (l & b1 & b2 & [? ->] & (r & [? ->] & ->) & ->). by exists l, r.
      + intros (l & r & ? & ? & -> & ->). exists l, (be_bytes 8 l), (be_bytes 8 r).
        split_and!; try done. by exists r. }
  destruct kind; (eapply parses_ext;
    [first [apply parses_ret | apply Hpair | apply parses_map, partition_key_spec]|]);
    intros t body _; split.
  - by intros [-> ->].
  - intros (Ht & <- & _ & ->). by destruct t.
  - by intros (l & r & ? & ? & -> & ->).
  - intros (Ht & <- & Hid & ->). destruct t as [|l r| | |]; try discriminate Ht.
    exists l, r. by destruct Hid.
  - by intros (s & [? ->] & ->).
  - intros (Ht & <- & Hid & ->). destruct t as [| |s| |]; try discriminate Ht. by exists s.
  - by intros (l & r & ? & ? & -> & ->).
  - intros (Ht & <- & Hid & ->). destruct t as [| | |l r|]; try discriminate Ht.
    exists l, r. by destruct Hid.
  - by intros [-> ->].
  - intros (Ht & <- & _ & ->). by destruct t.
Qed.

Definition state_family : ValueFamily PartitionTransition.t.
Proof.
  refine {| vf_tag := TAG_PARTITION_STATE;
            vf_encode := encode_partition_state;
            vf_decode := decode_partition_state;
            vf_typed := transition_typed; vf_valid t := validate_transition t = Ok tt;
            vf_canonical _ := True; vf_body := transition_body |}.
  - done.
  - intros t _ _. unfold transition_body. rewrite !bytes_ok_app. split_and!; [|apply be_bytes_ok|].
    + apply bytes_ok_cons. split; [apply state_kind_byte|constructor].
    + destruct t; cbn [transition_keys]; rewrite ?bytes_ok_app; auto using be_bytes_ok with ktann.
  - intros t _. apply emits_everywhere. apply transition_emits.
  - eapply parses_ext.
    + eapply parses_bind; [apply u8_spec|]. intros tag ? _ _.
      eapply parses_bind; [apply parses_lift, state_kind_total|]. intros kind ? _ _.
      eapply parses_bind; [apply u64_spec|]. intros started ? _ _.
      apply parses_check; [apply transition_keys_spec|]. intros t ? _.
      destruct (validate_transition_total t) as [[u ->]| ->]; simpl; auto with ktann.
    + intros t body _. unfold transition_typed, transition_body. split.
      * intros (tag & b1 & b2 & [? ->] & (kind & b3 & b4 & [Hk%state_kind_ok ->] & (at_ & b5 & b6 &
          [? ->] & (t' & (<- & <- & ? & ->) & E) & ->) & ->) & ->).
        apply bind_ok in E as ([] & E%map_err_ok & E'). apply Ok_inj in E' as <-. subst tag. done.
      * intros ([? ?] & ? & _ & ->).
        eexists _, [encode_state_kind (PartitionTransition_state t)], _.
        split; [split; [apply state_kind_byte|done]|]. split; [|done].
        eexists _, [], _. split; [split; [by apply state_kind_ok|done]|]. split; [|done].
        eexists _, _, _. split; [done|]. split; [|done].
        exists t. split; [done|]. apply bind_ok. exists tt. split; [by apply map_err_ok|done].
Defined.

(** *** Graph descriptors *)
Lemma descriptor_validate_total g :
  0 ≤ gd_nodes g → ok_or_corrupt (GraphDescriptor_validate g).
Proof.
  intros Hn. unfold GraphDescriptor_validate. apply ok_or_corrupt_if; [by right|].
  apply ok_or_corrupt_bind; [|intros; auto with ktann].
  assert (no_panic (encoded_bound (gd_nodes g) (MAX_NODES / 2))) as Hnp.
  { unfold encoded_bound, no_panic. case_match; [done|].
    change (max_level (MAX_NODES / 2)) with (@Ok Z 1). cbn [mbind result_bind]. cbv zeta.
    case_match; [done|]. apply ok_or_no_panic. }
  destruct (encoded_bound _ _) as [b|e|] eqn:E; cbn [map_err]; auto with ktann. by destruct Hnp.
Qed.
Definition descriptor_typed (g : GraphDescriptor) : Prop :=
  u32_ok (gd_nodes g) ∧ u64_ok (gd_epoch g) ∧ u64_ok (gd_bytes g) ∧
  (bytes_ok (gd_binding g) ∧ len (gd_binding g) = 32) ∧
  (bytes_ok (gd_sha256 g) ∧ len (gd_sha256 g) = 32).
Definition descriptor_body (g : GraphDescriptor) : list Z :=
  [NATIVE_ENCODING] ++ be_bytes 4 (gd_nodes g) ++ be_bytes 8 (gd_epoch g) ++
  be_bytes 8 (gd_bytes g) ++ gd_binding g ++ gd_sha256 g.

Lemma descriptor_emits g :
  0 ≤ gd_nodes g → emits (encode_descriptor g) (GraphDescriptor_validate g = Ok tt) (descriptor_body g).
Proof.
  intros Hn out. unfold encode_descriptor.
  destruct (descriptor_validate_total g Hn) as [[[] E]|E]; rewrite E; cbn [map_err mbind result_bind].
  2: { split; [naive_solver|by right]. }
  unfold descriptor_body, Encoder_bytes, Encoder_u64, Encoder_u32, Encoder_u8.
  rewrite <-!app_assoc. split; [naive_solver|eauto].
Qed.

(** The fields after the encoding tag. *)
Lemma descriptor_fields_spec :
  parses (dlet nodes := Decoder_u32 in dlet epoch := Decoder_u64 in dlet bytes := Decoder_u64 in
          dlet binding := Decoder_array 32 in dlet sha256 := Decoder_array 32 in
          dec_lift (GraphDescriptor_validate (mkGraphDescriptor nodes epoch bytes binding sha256)
            ≫= λ _, Ok (mkGraphDescriptor nodes epoch bytes binding sha256)))
    (λ g body, descriptor_typed g ∧ GraphDescriptor_validate g = Ok tt ∧
       NATIVE_ENCODING :: body = descriptor_body g).
Proof.
  eapply parses_ext.
  - eapply parses_bind; [apply u32_spec|]. intros nodes ? [[??] _] _.
    eapply parses_bind; [apply u64_spec|]. intros epoch ? _ _.
    eapply parses_bind; [apply u64_spec|]. intros bytes ? _ _.
    eapply parses_bind; [by apply array_spec|]. intros binding ? _ _.
    apply parses_check; [by apply array_spec|]. intros sha ? _.
    apply ok_or_corrupt_bind; [apply descriptor_validate_total; simpl; lia|auto with ktann].
  - intros [nodes epoch bytes binding sha] body _. unfold descriptor_typed, descriptor_body.
    cbn [gd_nodes gd_epoch gd_bytes gd_binding gd_sha256 app]. split.
    + intros (n & b1 & b2 & [? ->] & (ep & b3 & b4 & [? ->] & (by_ & b5 & b6 & [? ->] & (bi & b7 & b8 &
        (? & ? & ->) & (sh & (? & ? & ->) & E) & ->) & ->) & ->) & ->).
      apply bind_ok in E as ([] & E & E'). injection E' as -> -> -> -> ->. by split_and!.
    + intros ((? & ? & ? & [??] & [??]) & ? & E). apply (f_equal tail) in E. cbn [tail] in E. subst body.
      eexists nodes, _, _. split; [done|]. split; [|done].
      eexists epoch, _, _. split; [done|]. split; [|done].
      eexists bytes, _, _. split; [done|]. split; [|done].
      eexists binding, _, _. split; [done|]. split; [|done].
      exists sha. split; [done|]. apply bind_ok. by exists tt.
Qed.
Definition graph_descriptor_family : ValueFamily GraphDescriptor.
Proof.
  refine {| vf_tag := TAG_GRAPH_DESCRIPTOR;
            vf_encode := encode_descriptor;
            vf_decode := decode_descriptor;
            vf_typed := descriptor_typed; vf_valid g := GraphDescriptor_validate g = Ok tt;
            vf_canonical _ := True; vf_body := descriptor_body |}.
  - done.
  - intros g (? & ? & ? & [??] & [??]) _. unfold descriptor_body. rewrite !bytes_ok_app.
    split_and!; try apply be_bytes_ok; try done. by repeat constructor.
  - intros g ([??] & _). apply emits_everywhere. apply descriptor_emits. lia.
  - eapply parses_ext.
    + eapply (parses_bind _ _ _ (λ tag g body, tag = NATIVE_ENCODING ∧ descriptor_typed g ∧
        GraphDescriptor_validate g = Ok tt ∧ NATIVE_ENCODING :: body = descriptor_body g)).
      { apply u8_spec. }
      intros tag ? _ _. destruct (Z.eqb_spec tag NATIVE_ENCODING) as [->|]; cbn [negb].
      * eapply parses_ext; [apply descriptor_fields_spec|]. naive_solver.
      * apply parses_never. naive_solver.
    + intros g body _. split.
      * intros (tag & b1 & b2 & [? ->] & (-> & ? & ? & E) & ->). done.
      * intros (? & ? & _ & ->). eexists NATIVE_ENCODING, [NATIVE_ENCODING], _. by split_and!.
Defined.
