(* ===== verification/Synopsis.v ===== *)
(** Partition Synopses (src/src/storage/values/synopsis.rs): conservative
    per-field summaries (NULL flag, extrema, one-probe Bloom filter), their
    validation, their monotone expansion by one Leaf projection, and their
    codec.  The hash of the [xxhash-rust] crate is a parameter. *)
From S2P Require Import Prelude RustStd Api TreeKey RaBitQ Manifest Wire ValueData Records.

Definition BLOOM_XXH3_SEED_V1 : Z := 0x4b54414e4e01b100.

Record FieldSynopsis := mkFieldSynopsis {
  fy_has_null : bool;
  fy_minimum : option Value.t;
  fy_maximum : option Value.t;
  fy_bloom : option (list Z)
}.
(** [PartitionSynopsis] is the boxed slice of its field synopses. *)
Definition PartitionSynopsis : Type := list FieldSynopsis.

Definition PartitionSynopsis_empty (m : IndexManifest) : PartitionSynopsis :=
  (λ parameters : option BloomParameters,
    mkFieldSynopsis false None None
      ((λ p, replicate (Z.to_nat (BloomParameters_byte_count p)) 0) <$> parameters))
  <$> im_bloom_parameters m.

Definition validate_non_null_value (value : Value.t) (ty : DataType.t) : result unit :=
  match ty, value with
  | DataType.Bool, Value.Bool _ | DataType.I64, Value.I64 _ => Ok tt
  | DataType.String, Value.String s =>
      if MAX_STRING_BYTES <? len s then Err InvalidArgument else Ok tt
  | DataType.F64, Value.F64 bits => if F64.is_finite bits then Ok tt else Err InvalidArgument
  | _, _ => Err InvalidArgument
  end.
Definition validate_bloom_padding (bytes : list Z) (p : BloomParameters) : result unit :=
  if negb (len bytes =? BloomParameters_byte_count p) then Err Corruption
  else
    let used_bits := bp_bit_count p mod 8 in
    if negb (used_bits =? 0) then
      let mask := u8_not (Z.shiftl 1 used_bits - 1) in
      match list_basics.list.last bytes with
      | Some b => if negb (Z.land b mask =? 0) then Err Corruption else Ok tt
      | None => Ok tt
      end
    else Ok tt.
Definition validate_field_synopsis (s : FieldSynopsis) (field : FieldSchema)
    (parameters : option BloomParameters) : result unit :=
  if fy_has_null s && negb (fs_nullable field) then Err InvalidArgument
  else
    match fy_minimum s, fy_maximum s with
    | None, None => Ok tt
    | Some minimum, Some maximum =>
        validate_non_null_value minimum (fs_data_type field) ≫= λ _,
        validate_non_null_value maximum (fs_data_type field) ≫= λ _,
        ok_or InvalidArgument (typed_order minimum maximum) ≫= λ o,
        match o with Gt => Err InvalidArgument | _ => Ok tt end
    | _, _ => Err InvalidArgument
    end ≫= λ _,
    match parameters, fy_bloom s with
    | None, None => Ok tt
    | Some p, Some bytes =>
        if len bytes =? BloomParameters_byte_count p
        then map_err InvalidArgument (validate_bloom_padding bytes p)
        else Err InvalidArgument
    | _, _ => Err InvalidArgument
    end.
Fixpoint validate_shape_loop (s : PartitionSynopsis) (fs : list FieldSchema)
    (ps : list (option BloomParameters)) : result unit :=
  match s, fs, ps with
  | x :: s, field :: fs, p :: ps =>
      validate_field_synopsis x field p ≫= λ _, validate_shape_loop s fs ps
  | _, _, _ => Ok tt
  end.
Definition validate_synopsis_shape (s : PartitionSynopsis) (m : IndexManifest) : result unit :=
  if negb (len s =? len (fields m)) then Err InvalidArgument
  else validate_shape_loop s (fields m) (im_bloom_parameters m).
Fixpoint validate_projection_loop (projection : list Value.t) (fs : list FieldSchema) : result unit :=
  match projection, fs with
  | v :: projection, field :: fs =>
      match v with
      | Value.Null => if fs_nullable field then Ok tt else Err InvalidArgument
      | v => validate_non_null_value v (fs_data_type field)
      end ≫= λ _, validate_projection_loop projection fs
  | _, _ => Ok tt
  end.
Definition validate_projection (projection : list Value.t) (fs : list FieldSchema) : result unit :=
  if negb (len projection =? len fs) then Err InvalidArgument
  else validate_projection_loop projection fs.

Definition canonical_value (v : Value.t) : Value.t :=
  match v with
  | Value.F64 bits => if F64.is_zero bits then Value.F64 0 else v
  | _ => v
  end.
Definition value_order (l r : Value.t) : result comparison := or_panic (typed_order l r).

Section hash.
(** [Xxh3::with_seed(seed)], [update] by each chunk, [digest128]. *)
Variable xxh3_128 : Z → list Z → Z.

Definition bloom_hash (value : Value.t) (ty : DataType.t) : result Z :=
  match visit_typed_value_bytes ty false value with
  | Ok chunks => Ok (xxh3_128 BLOOM_XXH3_SEED_V1 (concat chunks))
  | _ => Panic
  end.
Definition bloom_bit (value : Value.t) (ty : DataType.t) (p : BloomParameters) : result Z :=
  bloom_hash value ty ≫= λ h, Ok (h mod 2 ^ 64 mod bp_bit_count p).
Definition bloom_might_contain (s : FieldSynopsis) (value : Value.t) (ty : DataType.t)
    (parameters : option BloomParameters) : result bool :=
  match parameters, fy_bloom s with
  | Some p, Some bloom =>
      bloom_bit value ty p ≫= λ bit,
      idx bloom (bit / 8) ≫= λ b, Ok (negb (Z.land b (Z.shiftl 1 (bit mod 8)) =? 0))
  | _, _ => Ok true
  end.

(** [expand_field]: the expanded synopsis and whether it changed.  The Bloom
    bytes are taken out of the synopsis before they are matched. *)
Definition expand_field (s : FieldSynopsis) (value : Value.t) (ty : DataType.t)
    (parameters : option BloomParameters) : result (FieldSynopsis * bool) :=
  match value with
  | Value.Null =>
      Ok (mkFieldSynopsis true (fy_minimum s) (fy_maximum s) (fy_bloom s), negb (fy_has_null s))
  | _ =>
      match fy_minimum s with
      | None => Ok true
      | Some minimum => value_order value minimum ≫= λ o, Ok (match o with Lt => true | _ => false end)
      end ≫= λ replace_minimum : bool,
      match fy_maximum s with
      | None => Ok true
      | Some maximum => value_order value maximum ≫= λ o, Ok (match o with Gt => true | _ => false end)
      end ≫= λ replace_maximum : bool,
      let minimum := if replace_minimum then Some (canonical_value value) else fy_minimum s in
      let maximum := if replace_maximum then Some (canonical_value value) else fy_maximum s in
      let changed := replace_minimum || replace_maximum in
      match parameters, fy_bloom s with
      | Some p, Some bloom =>
          bloom_bit value ty p ≫= λ bit,
          let byte := bit / 8 in
          let mask := Z.shiftl 1 (bit mod 8) in
          idx bloom byte ≫= λ b,
          let changed := changed || (Z.land b mask =? 0) in
          or_at bloom byte mask ≫= λ bloom,
          Ok (mkFieldSynopsis (fy_has_null s) minimum maximum (Some bloom), changed)
      | _, _ => Ok (mkFieldSynopsis (fy_has_null s) minimum maximum None, changed)
      end
  end.
Fixpoint expand_loop (s : PartitionSynopsis) (projection : list Value.t) (fs : list FieldSchema)
    (ps : list (option BloomParameters)) (changed : bool) : result (PartitionSynopsis * bool) :=
  match s, projection, fs, ps with
  | x :: s', v :: projection, field :: fs, p :: ps =>
      expand_field x v (fs_data_type field) p ≫= λ '(x', c),
      expand_loop s' projection fs ps (changed || c) ≫= λ '(rest, changed), Ok (x' :: rest, changed)
  | _, _, _, _ => Ok (s, changed)
  end.
Definition PartitionSynopsis_expand (s : PartitionSynopsis) (m : IndexManifest)
    (projection : list Value.t) : result (PartitionSynopsis * bool) :=
  validate_synopsis_shape s m ≫= λ _,
  validate_projection projection (fields m) ≫= λ _,
  expand_loop s projection (fields m) (im_bloom_parameters m) false.

(** [validate_synopsis]: shape, and agreement of Bloom bytes and extrema. *)
Definition validate_bloom_extrema (s : FieldSynopsis) (field : FieldSchema)
    (parameters : option BloomParameters) : result unit :=
  match fy_bloom s, parameters with
  | Some bytes, Some p =>
      if bool_decide (fy_minimum s = None) && existsb (λ b, negb (b =? 0)) bytes
      then Err InvalidArgument
      else if negb (bool_decide (fy_minimum s = None)) && forallb (λ b, b =? 0) bytes
      then Err InvalidArgument
      else
        match fy_minimum s with
        | Some minimum => bloom_might_contain s minimum (fs_data_type field) (Some p) ≫= λ c, Ok (negb c)
        | None => Ok false
        end ≫= λ missing_minimum : bool,
        if missing_minimum then Err InvalidArgument
        else
          match fy_maximum s with
          | Some maximum => bloom_might_contain s maximum (fs_data_type field) (Some p) ≫= λ c, Ok (negb c)
          | None => Ok false
          end ≫= λ missing_maximum : bool,
          if missing_maximum then Err InvalidArgument else Ok tt
  | _, _ => Ok tt
  end.
Fixpoint validate_bloom_loop (s : PartitionSynopsis) (fs : list FieldSchema)
    (ps : list (option BloomParameters)) : result unit :=
  match s, fs, ps with
  | x :: s, field :: fs, p :: ps =>
      validate_bloom_extrema x field p ≫= λ _, validate_bloom_loop s fs ps
  | _, _, _ => Ok tt
  end.
Definition validate_synopsis (s : PartitionSynopsis) (m : IndexManifest) : result unit :=
  validate_synopsis_shape s m ≫= λ _,
  validate_bloom_loop s (fields m) (im_bloom_parameters m).

(** ** Bloom bits *)
Lemma negative_at_byte bs i :
  bytes_ok bs → 0 ≤ i → negative_at bs i = Z.testbit (byte_at bs (i / 8)) (i mod 8).
Proof.
  intros Hok Hi. pose proof (Z.mod_pos_bound i 8 ltac:(done)). pose proof (Z.div_mod i 8 ltac:(done)).
  assert (0 ≤ i / 8) by lia. rewrite byte_at_value by done. unfold negative_at.
  change 256 with (2 ^ 8) at 2. rewrite Z.mod_pow2_bits_low by lia. rewrite pow_256_2 by done.
  rewrite <-Z.shiftr_div_pow2, Z.shiftr_spec by lia. f_equal. lia.
Qed.
(** Setting one bit of the filter. *)
Lemma or_at_bit bs bit :
  bytes_ok bs → 0 ≤ bit < 8 * len bs →
  ∃ bs', or_at bs (bit / 8) (Z.shiftl 1 (bit mod 8)) = Ok bs' ∧ bytes_ok bs' ∧ len bs' = len bs ∧
    le_value bs' = Z.lor (le_value bs) (2 ^ bit).
Proof.
  intros Hok Hbit. pose proof (Z.mod_pos_bound bit 8 ltac:(done)) as Hm.
  pose proof (Z.div_mod bit 8 ltac:(done)) as Hdm. assert (0 ≤ bit / 8 < len bs) as Hq by lia.
  unfold or_at. rewrite idx_ok by done. cbn [mbind result_bind].
  pose proof (byte_at_ok bs (bit / 8) Hok ltac:(lia)) as Hb. rewrite Z.shiftl_1_l.
  set (x := Z.lor (byte_at bs (bit / 8)) (2 ^ (bit mod 8))).
  assert (bytes_ok (<[Z.to_nat (bit / 8) := x]> bs)) as Hok'.
  { apply Forall_insert; [done|]. unfold byte_ok, x.
    assert (2 ^ (bit mod 8) < 2 ^ 8) by (apply Z.pow_lt_mono_r; lia).
    split; [apply Z.lor_nonneg; split; [lia|apply Z.pow_nonneg; lia]|].
    apply (lor_bound _ _ 8); [lia|done|]. split; [apply Z.pow_nonneg; lia|done]. }
  assert (∀ i, byte_at (<[Z.to_nat (bit / 8) := x]> bs) i =
    if Z.to_nat i =? Z.to_nat (bit / 8) then x else byte_at bs i)%nat as Hat.
  { intros i. unfold byte_at. destruct (Nat.eqb_spec (Z.to_nat i) (Z.to_nat (bit / 8))) as [->|].
    - rewrite list_lookup_insert_eq; [done|]. unfold len in Hq. lia.
    - by rewrite list_lookup_insert_ne. }
  eexists. split; [done|]. split; [done|]. split; [unfold len; by rewrite length_insert|].
  apply Z.bits_inj'. intros i Hi. rewrite Z.lor_spec, Z.pow2_bits_eqb by lia.
  change (negative_at (<[Z.to_nat (bit / 8) := x]> bs) i = negative_at bs i || (bit =? i)).
  rewrite !negative_at_byte by done. rewrite Hat.
  pose proof (Z.mod_pos_bound i 8 ltac:(done)). pose proof (Z.div_mod i 8 ltac:(done)).
  destruct (Nat.eqb_spec (Z.to_nat (i / 8)) (Z.to_nat (bit / 8))) as [E|N].
  - assert (i / 8 = bit / 8) as -> by lia. unfold x. rewrite Z.lor_spec, Z.pow2_bits_eqb by lia.
    f_equal. destruct (Z.eqb_spec (bit mod 8) (i mod 8)), (Z.eqb_spec bit i); done || lia.
  - rewrite (proj2 (Z.eqb_neq bit i)) by (intros ->; done). by rewrite orb_false_r.
Qed.

Lemma is_negative_bit bs bit :
  bytes_ok bs → 0 ≤ bit < 8 * len bs → is_negative bs bit = Ok (Z.testbit (le_value bs) bit).
Proof. intros Hok Hb. apply is_negative_spec; [done|lia|]. apply Z.div_lt_upper_bound; lia. Qed.

(** The zero tests over the filter's bytes. *)
Lemma all_zero_value bs : bytes_ok bs → forallb (λ b, b =? 0) bs = (le_value bs =? 0).
Proof.
  induction bs as [|b bs IH]; [done|]. intros [[??] Hb]%bytes_ok_cons. cbn [forallb le_value].
  rewrite IH by done. pose proof (le_value_nonneg bs Hb).
  destruct (Z.eqb_spec b 0), (Z.eqb_spec (le_value bs) 0), (Z.eqb_spec (b + 256 * le_value bs) 0);
    try done; lia.
Qed.
Lemma any_nonzero_value bs :
  bytes_ok bs → existsb (λ b, negb (b =? 0)) bs = negb (le_value bs =? 0).
Proof.
  intros Hb. rewrite <-all_zero_value by done. clear Hb.
  induction bs as [|b bs IH]; [done|]. cbn [existsb forallb]. rewrite IH. by destruct (b =? 0).
Qed.

(** Parameters [BloomParameters::new] accepts. *)
Definition bloom_ok (p : BloomParameters) : Prop := 1 ≤ bp_bit_count p.
Lemma byte_count_bound p :
  bloom_ok p → bp_bit_count p ≤ 8 * BloomParameters_byte_count p < bp_bit_count p + 8.
Proof.
  unfold bloom_ok, BloomParameters_byte_count, div_ceil. intros Hp.
  pose proof (Z.div_mod (bp_bit_count p + 8 - 1) 8 ltac:(done)).
  pose proof (Z.mod_pos_bound (bp_bit_count p + 8 - 1) 8 ltac:(done)). lia.
Qed.
Lemma last_byte_at bs : bs ≠ [] → list_basics.list.last bs = Some (byte_at bs (len bs - 1)).
Proof.
  intros Hne. destruct (exists_last Hne) as (front & x & ->). rewrite last_snoc. f_equal.
  unfold byte_at. rewrite len_app. change (len [x]) with 1.
  replace (Z.to_nat (len front + 1 - 1)) with (length front) by (unfold len; lia).
  rewrite lookup_app_r by done. by rewrite Nat.sub_diag.
Qed.
Lemma bloom_padding_ok bs p :
  bytes_ok bs → bloom_ok p → len bs = BloomParameters_byte_count p →
  validate_bloom_padding bs p = Ok tt ↔ le_value bs < 2 ^ bp_bit_count p.
Proof.
  intros Hok Hp Hl. pose proof (byte_count_bound p Hp). unfold validate_bloom_padding.
  rewrite Hl, Z.eqb_refl. cbn [negb]. cbv zeta.
  rewrite <-Z.ltb_lt, <-(stream_padding bs (bp_bit_count p) Hok) by (done || (unfold bloom_ok in Hp; lia)).
  pose proof (Z.mod_pos_bound (bp_bit_count p) 8 ltac:(done)).
  destruct (Z.eqb_spec (bp_bit_count p mod 8) 0); cbn [negb]; [done|].
  assert (bs ≠ []) as Hne by (intros ->; rewrite len_nil in Hl; unfold bloom_ok in Hp; lia).
  rewrite last_byte_at, land_not_used by
    (done || lia || (apply byte_at_ok; [done|destruct bs; [done|rewrite len_cons; pose proof (len_nonneg bs); lia]])).
  by destruct (_ <? _).
Qed.

(** ** Validated values *)
Definition value_valid (ty : DataType.t) (v : Value.t) : Prop := validate_non_null_value v ty = Ok tt.

Lemma validate_non_null_total v ty :
  validate_non_null_value v ty = Ok tt ∨ validate_non_null_value v ty = Err InvalidArgument.
Proof. destruct ty, v; simpl; try case_match; auto. Qed.
Lemma value_valid_order ty a b : value_valid ty a → value_valid ty b → is_Some (typed_order a b).
Proof.
  unfold value_valid. destruct ty, a, b; simpl; try done.
  destruct (F64.is_finite bits), (F64.is_finite bits0); simpl; try done.
Qed.
Lemma value_valid_accepts ty v : value_valid ty v → field_accepts ty false v ∧ v ≠ Value.Null.
Proof.
  unfold value_valid. destruct ty, v; simpl; try done.
  - by case_match.
  - case_match; bprop; [done|]. by split.
Qed.
Lemma value_valid_hash ty v : value_valid ty v → ∃ h, bloom_hash v ty = Ok h.
Proof.
  unfold value_valid, bloom_hash. destruct ty, v; simpl; try done; eauto.
  - unfold canonical_f64_bits. case_match; simpl; [eauto|done].
  - case_match; [done|]. bprop. unfold try_from_usize.
    rewrite (proj2 (Z.ltb_lt _ _)) by (unfold MAX_STRING_BYTES in *; lia). simpl. eauto.
Qed.
Lemma value_valid_refl ty v : value_valid ty v → typed_order v v = Some Eq.
Proof.
  unfold value_valid. destruct ty, v; simpl; try done.
  - by destruct value.
  - by rewrite Z.compare_refl.
  - case_match; [|done]. unfold F64.cmp. by rewrite Z.compare_refl.
  - by rewrite lex_cmp_refl.
Qed.
Lemma value_valid_bit ty v p :
  value_valid ty v → bloom_ok p →
  ∃ bit, bloom_bit v ty p = Ok bit ∧ 0 ≤ bit < bp_bit_count p.
Proof.
  intros (h & Hh)%value_valid_hash Hp. unfold bloom_bit. rewrite Hh. cbn [mbind result_bind].
  eexists. split; [done|]. apply Z.mod_pos_bound. unfold bloom_ok in Hp. lia.
Qed.

(** Canonicalization changes neither the validity, nor the order, nor the hash. *)
Lemma f64_cmp_zero b c :
  u64_ok b → F64.is_zero b = true → F64.cmp 0 c = F64.cmp b c ∧ F64.cmp c 0 = F64.cmp c b.
Proof.
  intros Hb Hz. unfold F64.cmp. assert (F64.value_key b = 0) as ->; [|done].
  unfold F64.value_key. unfold F64.is_zero in Hz. apply Z.eqb_eq in Hz. rewrite Hz. by case_match.
Qed.
Lemma canonical_value_spec ty v :
  value_ok v → value_valid ty v →
  value_valid ty (canonical_value v) ∧ value_ok (canonical_value v) ∧
  value_canonical (canonical_value v) ∧
  (∀ w, typed_order (canonical_value v) w = typed_order v w ∧
        typed_order w (canonical_value v) = typed_order w v) ∧
  bloom_hash (canonical_value v) ty = bloom_hash v ty.
Proof.
  intros Hok Hv. destruct v as [|b|x|bits|s]; try done. cbn [canonical_value].
  destruct (F64.is_zero bits) eqn:Ez.
  - assert (F64.is_finite bits = true) as Hf.
    { unfold value_valid in Hv. destruct ty; simpl in Hv; try done. by destruct (F64.is_finite bits). }
    split_and!.
    + unfold value_valid in *. by destruct ty.
    + done.
    + done.
    + intros w. destruct w; try done. cbn [typed_order]. rewrite Hf.
      destruct (f64_cmp_zero bits bits0 Hok Ez) as [-> ->]. done.
    + unfold bloom_hash. cbn [visit_typed_value_bytes]. destruct (decide _); [|done].
      unfold canonical_f64_bits. rewrite Hf, Ez. done.
  - split_and!; try done. cbn [value_canonical]. unfold value_valid in Hv. destruct ty; simpl in Hv; try done.
    unfold F64.canonical. rewrite Ez. by destruct (F64.is_finite bits).
Qed.

(** ** What a synopsis covers *)

(** A field synopsis admits a stored value: a NULL only when the NULL flag is
    set, a non-NULL value only between the extrema and in the Bloom filter. *)
Definition covers (s : FieldSynopsis) (ty : DataType.t) (p : option BloomParameters) (v : Value.t)
    : Prop :=
  match v with
  | Value.Null => fy_has_null s = true
  | _ => ∃ minimum maximum, fy_minimum s = Some minimum ∧ fy_maximum s = Some maximum ∧
      typed_le minimum v ∧ typed_le v maximum ∧ bloom_might_contain s v ty p = Ok true
  end.
(** A projection value the schema accepts. *)
Definition projection_valid (field : FieldSchema) (v : Value.t) : Prop :=
  match v with
  | Value.Null => fs_nullable field = true
  | _ => value_valid (fs_data_type field) v
  end.
(** The ranges a [FieldSynopsis] has by its Rust types. *)
Definition synopsis_typed (s : FieldSynopsis) : Prop :=
  (∀ v, fy_minimum s = Some v ∨ fy_maximum s = Some v → value_ok v) ∧
  (∀ bs, fy_bloom s = Some bs → bytes_ok bs).
Definition parameters_ok (p : option BloomParameters) : Prop := ∀ b, p = Some b → bloom_ok b.

(** The shape check, read off. *)
Definition extrema_ok (s : FieldSynopsis) (ty : DataType.t) : Prop :=
  match fy_minimum s, fy_maximum s with
  | None, None => True
  | Some a, Some b => value_valid ty a ∧ value_valid ty b ∧ typed_le a b
  | _, _ => False
  end.
Definition bloom_shape_ok (s : FieldSynopsis) (p : option BloomParameters) : Prop :=
  match p, fy_bloom s with
  | None, None => True
  | Some p, Some bs => len bs = BloomParameters_byte_count p ∧ le_value bs < 2 ^ bp_bit_count p
  | _, _ => False
  end.

Lemma ok_tt_bind (r : result unit) (k : result unit) :
  (r ≫= λ _, k) = Ok tt ↔ r = Ok tt ∧ k = Ok tt.
Proof. destruct r as [[]| |]; simpl; naive_solver. Qed.

Lemma validate_field_synopsis_ok s field p :
  synopsis_typed s → parameters_ok p →
  validate_field_synopsis s field p = Ok tt ↔
  (fy_has_null s = true → fs_nullable field = true) ∧
  extrema_ok s (fs_data_type field) ∧ bloom_shape_ok s p.
Proof.
  intros [_ Hb] Hp. unfold validate_field_synopsis.
  destruct (fy_has_null s && negb (fs_nullable field)) eqn:En.
  { apply andb_true_iff in En as [-> E%negb_true_iff]. rewrite E. naive_solver. }
  assert (fy_has_null s = true → fs_nullable field = true) as Hn.
  { intros E. rewrite E in En. by apply negb_false_iff in En. }
  rewrite ok_tt_bind. unfold extrema_ok, bloom_shape_ok, value_valid, typed_le.
  assert (match p, fy_bloom s with
    | None, None => Ok tt
    | Some p, Some bytes => if len bytes =? BloomParameters_byte_count p
        then map_err InvalidArgument (validate_bloom_padding bytes p) else Err InvalidArgument
    | _, _ => Err InvalidArgument end = Ok tt ↔ bloom_shape_ok s p) as ->.
  { unfold bloom_shape_ok. destruct p as [p|], (fy_bloom s) as [bs|] eqn:Eb; try naive_solver.
    destruct (Z.eqb_spec (len bs) (BloomParameters_byte_count p)); [|naive_solver].
    rewrite map_err_ok, bloom_padding_ok by auto. naive_solver. }
  fold (bloom_shape_ok s p).
  destruct (fy_minimum s) as [a|], (fy_maximum s) as [b|]; try naive_solver.
  rewrite !ok_tt_bind. destruct (typed_order a b) as [[]|]; simpl; naive_solver.
Qed.

(** ** Expanding one field *)

(** [canonical v] stands for [v] in every comparison. *)
Lemma typed_le_canonical ty v :
  value_ok v → value_valid ty v →
  typed_le (canonical_value v) v ∧ typed_le v (canonical_value v).
Proof.
  intros Hok Hv. destruct (canonical_value_spec ty v Hok Hv) as (_ & _ & _ & Ho & _).
  destruct (Ho v) as [H1 H2]. rewrite (value_valid_refl ty v Hv) in H1, H2.
  split; by exists Eq.
Qed.
Lemma canonical_value_ne ty v w c :
  value_ok v → value_valid ty v → value_valid ty w → typed_order v w = Some c → c ≠ Eq →
  canonical_value v ≠ w.
Proof.
  intros Hok Hv Hw Ho Hc E. destruct (canonical_value_spec ty v Hok Hv) as (_ & _ & _ & Hcv & _).
  destruct (Hcv w) as [H1 _]. rewrite E, (value_valid_refl ty w Hw) in H1. congruence.
Qed.

Lemma replace_minimum_spec ty v o :
  value_ok v → value_valid ty v → (∀ m, o = Some m → value_valid ty m) →
  ∃ (r : bool) a, match o with
         | None => Ok true
         | Some m => value_order v m ≫= λ o, Ok (match o with Lt => true | _ => false end)
         end = Ok r ∧ (if r then Some (canonical_value v) else o) = Some a ∧
    value_valid ty a ∧ typed_le a v ∧ (∀ m, o = Some m → typed_le a m) ∧
    (r = false ↔ (if r then Some (canonical_value v) else o) = o) ∧
    (a = canonical_value v ∨ o = Some a).
Proof.
  intros Hok Hv Ho. destruct (canonical_value_spec ty v Hok Hv) as (Hcv & _ & _ & Hco & _).
  destruct (typed_le_canonical ty v Hok Hv) as [Hle _]. destruct o as [m|].
  2: { exists true, (canonical_value v). split_and!; try done. by left. }
  specialize (Ho m eq_refl). destruct (value_valid_order ty v m Hv Ho) as [c Hc].
  unfold value_order. rewrite Hc. cbn [or_panic mbind result_bind].
  assert (c = Gt ∨ c = Eq → typed_le m v) as Hmv.
  { intros Hcc. pose proof (typed_order_opp v m c Hc) as Hop. exists (CompOpp c).
    split; [done|]. by destruct Hcc as [-> | ->]. }
  destruct c.
  - exists false, m. split_and!; try done; auto. intros m' [= <-]. exists Eq.
    split; [by eapply value_valid_refl|done].
  - exists true, (canonical_value v). split_and!; try done; [| |by left].
    + intros m' [= <-]. exists Lt. by rewrite (proj1 (Hco m)).
    + split; [done|]. intros [= E]. by destruct (canonical_value_ne ty v m Lt Hok Hv Ho Hc).
  - exists false, m. split_and!; try done; auto. intros m' [= <-]. exists Eq.
    split; [by eapply value_valid_refl|done].
Qed.
Lemma replace_maximum_spec ty v o :
  value_ok v → value_valid ty v → (∀ m, o = Some m → value_valid ty m) →
  ∃ (r : bool) b, match o with
         | None => Ok true
         | Some m => value_order v m ≫= λ o, Ok (match o with Gt => true | _ => false end)
         end = Ok r ∧ (if r then Some (canonical_value v) else o) = Some b ∧
    value_valid ty b ∧ typed_le v b ∧ (∀ m, o = Some m → typed_le m b) ∧
    (r = false ↔ (if r then Some (canonical_value v) else o) = o) ∧
    (b = canonical_value v ∨ o = Some b).
Proof.
  intros Hok Hv Ho. destruct (canonical_value_spec ty v Hok Hv) as (Hcv & _ & _ & Hco & _).
  destruct (typed_le_canonical ty v Hok Hv) as [_ Hle]. destruct o as [m|].
  2: { exists true, (canonical_value v). split_and!; try done. by left. }
  specialize (Ho m eq_refl). destruct (value_valid_order ty v m Hv Ho) as [c Hc].
  unfold value_order. rewrite Hc. cbn [or_panic mbind result_bind].
  destruct c.
  - exists false, m. split_and!; try done; auto; [by exists Eq|]. intros m' [= <-]. exists Eq.
    split; [by eapply value_valid_refl|done].
  - exists false, m. split_and!; try done; auto; [by exists Lt|]. intros m' [= <-]. exists Eq.
    split; [by eapply value_valid_refl|done].
  - exists true, (canonical_value v). split_and!; try done; [| |by left].
    + intros m' [= <-]. exists Lt. pose proof (typed_order_opp v m Gt Hc).
      by rewrite (proj2 (Hco m)).
    + split; [done|]. intros [= E]. by destruct (canonical_value_ne ty v m Gt Hok Hv Ho Hc).
Qed.

(** The Bloom update: one bit set, all others kept. *)
Lemma bloom_update_spec ty v p bs :
  value_valid ty v → bloom_ok p → bytes_ok bs → len bs = BloomParameters_byte_count p →
  le_value bs < 2 ^ bp_bit_count p →
  ∃ bit b bs', bloom_bit v ty p = Ok bit ∧ 0 ≤ bit < bp_bit_count p ∧
    idx bs (bit / 8) = Ok b ∧ or_at bs (bit / 8) (Z.shiftl 1 (bit mod 8)) = Ok bs' ∧
    bytes_ok bs' ∧ len bs' = len bs ∧ le_value bs' = Z.lor (le_value bs) (2 ^ bit) ∧
    le_value bs' < 2 ^ bp_bit_count p ∧
    ((Z.land b (Z.shiftl 1 (bit mod 8)) =? 0) = false ↔ bs' = bs).
Proof.
  intros Hv Hp Hok Hl Hlt. destruct (value_valid_bit ty v p Hv Hp) as (bit & Hbit & Hb).
  pose proof (byte_count_bound p Hp). pose proof (Z.mod_pos_bound bit 8 ltac:(done)).
  pose proof (Z.div_mod bit 8 ltac:(done)). assert (0 ≤ bit / 8 < len bs) by lia.
  destruct (or_at_bit bs bit Hok ltac:(lia)) as (bs' & Hor & Hok' & Hl' & HL').
  exists bit, (byte_at bs (bit / 8)), bs'. rewrite idx_ok by done. pose proof (le_value_nonneg bs Hok).
  assert (0 ≤ 2 ^ bit < 2 ^ bp_bit_count p) as Hpow.
  { split; [apply Z.pow_nonneg; lia|]. apply Z.pow_lt_mono_r; unfold bloom_ok in *; lia. }
  split_and!; try done; try lia.
  - rewrite HL'. apply lor_bound; unfold bloom_ok in *; lia.
  - pose proof (land_bit (byte_at bs (bit / 8)) (bit mod 8) ltac:(lia)) as Hlb.
    rewrite <-negative_at_byte in Hlb by (done || lia). split.
    + intros E. rewrite E in Hlb. cbn [negb] in Hlb.
      apply le_value_inj; [done..|lia|]. rewrite HL'. apply Z.bits_inj'. intros i Hi.
      rewrite Z.lor_spec, Z.pow2_bits_eqb by lia. destruct (Z.eqb_spec bit i) as [<-|].
      * unfold negative_at in Hlb. by rewrite <-Hlb.
      * by rewrite orb_false_r.
    + intros ->. apply negb_true_iff. rewrite Hlb. unfold negative_at. rewrite HL'.
      by rewrite Z.lor_spec, Z.pow2_bits_true, orb_true_r by lia.
Qed.

(** What the Bloom filter answers, bit by bit. *)
Lemma might_contain_bit s v ty p bs :
  fy_bloom s = Some bs → bytes_ok bs → value_valid ty v → bloom_ok p →
  len bs = BloomParameters_byte_count p →
  ∃ bit, bloom_bit v ty p = Ok bit ∧ 0 ≤ bit < bp_bit_count p ∧
    bloom_might_contain s v ty (Some p) = Ok (Z.testbit (le_value bs) bit).
Proof.
  intros Hbs Hok Hv Hp Hl. destruct (value_valid_bit ty v p Hv Hp) as (bit & Hbit & Hb).
  pose proof (byte_count_bound p Hp). exists bit. split_and!; try done; try lia.
  unfold bloom_might_contain. rewrite Hbs, Hbit. apply (is_negative_bit bs bit Hok). lia.
Qed.
(** Membership survives setting more bits. *)
Lemma might_contain_mono s s' v ty p bs bs' :
  fy_bloom s = Some bs → fy_bloom s' = Some bs' → bytes_ok bs → bytes_ok bs' →
  bloom_ok p → len bs = BloomParameters_byte_count p → len bs' = len bs →
  (∀ i, 0 ≤ i → Z.testbit (le_value bs) i = true → Z.testbit (le_value bs') i = true) →
  bloom_might_contain s v ty (Some p) = Ok true → bloom_might_contain s' v ty (Some p) = Ok true.
Proof.
  intros Hbs Hbs' Hok Hok' Hp Hl Hl' Hm. pose proof (byte_count_bound p Hp) as Hbc.
  unfold bloom_might_contain. rewrite Hbs, Hbs'.
  destruct (bloom_bit v ty p) as [bit| |] eqn:Eb; [|done..]. cbn [mbind result_bind].
  assert (0 ≤ bit < bp_bit_count p) as Hbit.
  { unfold bloom_bit in Eb. apply bind_ok in Eb as (h & _ & E). apply Ok_inj in E as <-.
    apply Z.mod_pos_bound. unfold bloom_ok in Hp. lia. }
  change (is_negative bs bit = Ok true → is_negative bs' bit = Ok true).
  rewrite !is_negative_bit by (done || lia). intros [= E]. f_equal. apply Hm; [lia|done].
Qed.

Lemma bloom_hash_bit v w ty p : bloom_hash v ty = bloom_hash w ty → bloom_bit v ty p = bloom_bit w ty p.
Proof. intros E. unfold bloom_bit. by rewrite E. Qed.

(** The Bloom half of an expansion: the new value is in, nothing leaves, and
    the change flag says whether a bit was added. *)
Lemma expand_bloom_spec s v ty p mn mx changed :
  synopsis_typed s → value_valid ty v → parameters_ok p → bloom_shape_ok s p →
  ∃ bl c, match p, fy_bloom s with
    | Some p, Some bloom =>
        bloom_bit v ty p ≫= λ bit,
        let byte := bit / 8 in
        let mask := Z.shiftl 1 (bit mod 8) in
        idx bloom byte ≫= λ b,
        let changed := changed || (Z.land b mask =? 0) in
        or_at bloom byte mask ≫= λ bloom,
        Ok (mkFieldSynopsis (fy_has_null s) mn mx (Some bloom), changed)
    | _, _ => Ok (mkFieldSynopsis (fy_has_null s) mn mx None, changed)
    end = Ok (mkFieldSynopsis (fy_has_null s) mn mx bl, changed || c) ∧
    let s' := mkFieldSynopsis (fy_has_null s) mn mx bl in
    bloom_shape_ok s' p ∧ (∀ bs, bl = Some bs → bytes_ok bs) ∧
    bloom_might_contain s' v ty p = Ok true ∧
    (∀ w, bloom_might_contain s w ty p = Ok true → bloom_might_contain s' w ty p = Ok true) ∧
    (c = false ↔ bl = fy_bloom s) ∧
    (∀ bs, bl = Some bs → le_value bs ≠ 0).
Proof.
  intros [_ Hbytes] Hv Hp Hs. unfold bloom_shape_ok in Hs.
  destruct p as [p|], (fy_bloom s) as [bs|] eqn:Eb; try done.
  2: { exists None, false. rewrite orb_false_r. split_and!; try done. }
  destruct Hs as [Hl Hlt]. specialize (Hp p eq_refl). specialize (Hbytes bs eq_refl).
  destruct (bloom_update_spec ty v p bs Hv Hp Hbytes Hl Hlt)
    as (bit & b & bs' & Hbit & Hb & Hidx & Hor & Hok' & Hl' & HL' & Hlt' & Hch).
  exists (Some bs'), (Z.land b (Z.shiftl 1 (bit mod 8)) =? 0).
  rewrite Hbit. cbn [mbind result_bind]. cbv zeta. rewrite Hidx. cbn [mbind result_bind].
  rewrite Hor. cbn [mbind result_bind]. pose proof (byte_count_bound p Hp).
  assert (∀ i, 0 ≤ i → Z.testbit (le_value bs) i = true → Z.testbit (le_value bs') i = true) as Hmono.
  { intros i Hi Ht. by rewrite HL', Z.lor_spec, Ht. }
  assert (Z.testbit (le_value bs') bit = true) as Hset.
  { rewrite HL', Z.lor_spec, Z.pow2_bits_true by lia. apply orb_true_r. }
  split_and!; try done.
  - unfold bloom_shape_ok. simpl. by rewrite Hl'.
  - by intros ? [= <-].
  - unfold bloom_might_contain. cbn [fy_bloom]. rewrite Hbit. cbn [mbind result_bind].
    change (is_negative bs' bit = Ok true). rewrite is_negative_bit by (done || lia). by rewrite Hset.
  - intros w. apply (might_contain_mono _ _ _ _ _ bs bs'); done.
  - rewrite Hch. naive_solver.
  - intros ? [= <-] E. rewrite E, Z.bits_0 in Hset. done.
Qed.

(** The Bloom bytes agree with the extrema. *)
Definition bloom_agrees (s : FieldSynopsis) (ty : DataType.t) (p : option BloomParameters) : Prop :=
  match fy_bloom s, p with
  | Some bs, Some p =>
      (le_value bs = 0 ↔ fy_minimum s = None) ∧
      (∀ v, fy_minimum s = Some v ∨ fy_maximum s = Some v → bloom_might_contain s v ty (Some p) = Ok true)
  | _, _ => True
  end.
Lemma validate_bloom_extrema_ok s field p :
  synopsis_typed s →
  validate_bloom_extrema s field p = Ok tt ↔ bloom_agrees s (fs_data_type field) p.
Proof.
  intros [_ Hb]. unfold validate_bloom_extrema, bloom_agrees.
  destruct (fy_bloom s) as [bs|], p as [p|]; try done. specialize (Hb bs eq_refl).
  rewrite any_nonzero_value, all_zero_value by done. set (ty := fs_data_type field).
  assert (∀ v, (bloom_might_contain s v ty (Some p) ≫= λ c, Ok (negb c)) = Ok false ↔
    bloom_might_contain s v ty (Some p) = Ok true) as Hneg.
  { intros v. rewrite bind_ok. split; [|intros ->; by exists true].
    intros ([] & -> & ?); done. }
  assert (∀ (r : result bool) k, (r ≫= λ missing : bool, if missing then Err InvalidArgument else k) = Ok tt ↔
    r = Ok false ∧ k = Ok tt) as Hstep.
  { intros [[]| |] k; simpl; naive_solver. }
  destruct (fy_minimum s) as [mn|]; cbn [bool_decide].
  - rewrite bool_decide_eq_false_2 by done. cbn [andb negb].
    destruct (Z.eqb_spec (le_value bs) 0) as [E|E]; [naive_solver|].
    rewrite !Hstep, Hneg. destruct (fy_maximum s) as [mx|]; [rewrite Hneg|]; naive_solver.
  - rewrite bool_decide_eq_true_2 by done. cbn [andb negb].
    destruct (Z.eqb_spec (le_value bs) 0) as [E|E]; cbn [negb]; [|naive_solver].
    cbn [mbind result_bind]. rewrite Hstep.
    destruct (fy_maximum s) as [mx|]; [rewrite Hneg|]; naive_solver.
Qed.

(** One field: the expansion succeeds, keeps the shape, covers the new value
    and everything covered before, and reports exactly whether it changed. *)
Lemma expand_field_spec s v field p :
  synopsis_typed s → value_ok v → parameters_ok p → projection_valid field v →
  validate_field_synopsis s field p = Ok tt →
  ∃ s' c, expand_field s v (fs_data_type field) p = Ok (s', c) ∧
    synopsis_typed s' ∧ validate_field_synopsis s' field p = Ok tt ∧
    covers s' (fs_data_type field) p v ∧
    (∀ w, covers s (fs_data_type field) p w → covers s' (fs_data_type field) p w) ∧
    (c = false ↔ s' = s) ∧
    (bloom_agrees s (fs_data_type field) p → bloom_agrees s' (fs_data_type field) p).
Proof.
  intros Hty Hv Hp Hval Hshape. set (ty := fs_data_type field) in *.
  pose proof Hshape as (Hn & He & Hb)%validate_field_synopsis_ok; [|done..].
  destruct (decide (v = Value.Null)) as [->|Hnull].
  { exists (mkFieldSynopsis true (fy_minimum s) (fy_maximum s) (fy_bloom s)), (negb (fy_has_null s)).
    split; [done|]. split; [done|]. split; [|split; [done|split; [|split]]].
    - apply validate_field_synopsis_ok; [done..|]. by split_and!.
    - intros w. unfold covers. destruct w; try done.
    - destruct s as [[] mn mx bl]; simpl; naive_solver.
    - done. }
  assert (value_valid ty v) as Hvv by (by destruct v).
  unfold extrema_ok in He.
  assert (∀ m, fy_minimum s = Some m → value_valid ty m) as Hmn
    by (intros m E; rewrite E in He; by destruct (fy_maximum s); destruct_and?).
  assert (∀ m, fy_maximum s = Some m → value_valid ty m) as Hmx
    by (intros m E; rewrite E in He; by destruct (fy_minimum s); destruct_and?).
  destruct (replace_minimum_spec ty v (fy_minimum s) Hv Hvv Hmn)
    as (rm & a & Erm & Ea & Va & La & Ma & Ca & Oa).
  destruct (replace_maximum_spec ty v (fy_maximum s) Hv Hvv Hmx)
    as (rM & b & ErM & Eb & Vb & Lb & Mb & Cb & Ob).
  destruct (expand_bloom_spec s v ty p (Some a) (Some b) (rm || rM) Hty Hvv Hp Hb)
    as (bl & c & Ebl & Hbs & Hbytes & Hin & Hmono & Hc & Hnz).
  exists (mkFieldSynopsis (fy_has_null s) (Some a) (Some b) bl), ((rm || rM) || c).
  assert (expand_field s v ty p = Ok (mkFieldSynopsis (fy_has_null s) (Some a) (Some b) bl, (rm || rM) || c))
    as Eex.
  { unfold expand_field. destruct v; try done; rewrite Erm; cbn [mbind result_bind]; rewrite ErM;
      cbn [mbind result_bind]; cbv zeta; rewrite Ea, Eb; exact Ebl. }
  destruct (canonical_value_spec ty v Hv Hvv) as (_ & Hcok & _ & _ & Hch).
  assert (synopsis_typed (mkFieldSynopsis (fy_has_null s) (Some a) (Some b) bl)) as Hty'.
  { destruct Hty as [Hty _]. split; [|done]. cbn [fy_minimum fy_maximum]. intros w [[= <-]|[= <-]].
    - destruct Oa as [-> |Oa]; [done|]. apply Hty. by left.
    - destruct Ob as [-> |Ob]; [done|]. apply Hty. by right. }
  split_and!; try done.
  - apply validate_field_synopsis_ok; [done..|]. split_and!; try done. unfold extrema_ok. simpl.
    split_and!; try done. by eapply typed_le_trans.
  - destruct v; try done; by exists a, b.
  - intros w Hw. destruct (decide (w = Value.Null)) as [->|]; [done|].
    assert (∃ mn mx, fy_minimum s = Some mn ∧ fy_maximum s = Some mx ∧ typed_le mn w ∧ typed_le w mx ∧
      bloom_might_contain s w ty p = Ok true) as (mn & mx & E1 & E2 & L1 & L2 & Hcon) by by destruct w.
    assert (∃ minimum maximum, Some a = Some minimum ∧ Some b = Some maximum ∧ typed_le minimum w ∧
      typed_le w maximum ∧ bloom_might_contain (mkFieldSynopsis (fy_has_null s) (Some a) (Some b) bl) w ty p
        = Ok true) as Hcov.
    { exists a, b. split_and!; eauto using typed_le_trans. }
    by destruct w.
  - rewrite Ea in Ca. rewrite Eb in Cb. rewrite !orb_false_iff, Ca, Cb, Hc. destruct s as [hn mn mx bs]; simpl.
    split; [intros [[-> ->] ->]; done|]. by intros [= -> -> ->].
  - intros Hag. unfold bloom_agrees in *. cbn [fy_bloom fy_minimum fy_maximum].
    destruct bl as [bs'|], p as [p|]; try done.
    assert (∃ bs, fy_bloom s = Some bs) as [bs Hbl].
    { unfold bloom_shape_ok in Hb. destruct (fy_bloom s); [by eexists|done]. }
    rewrite Hbl in Hag. destruct Hag as [_ Hag]. split; [split; [|done]; intros E; by destruct (Hnz bs' eq_refl)|].
    assert (bloom_might_contain (mkFieldSynopsis (fy_has_null s) (Some a) (Some b) (Some bs'))
      (canonical_value v) ty (Some p) = Ok true) as Hcin.
    { rewrite <-Hin. unfold bloom_might_contain. cbn [fy_bloom]. by rewrite (bloom_hash_bit _ v ty p Hch). }
    intros w [[= <-]|[= <-]].
    + destruct Oa as [-> |Oa]; [done|]. apply Hmono, Hag. by left.
    + destruct Ob as [-> |Ob]; [done|]. apply Hmono, Hag. by right.
Qed.

(** ** Expanding a Partition Synopsis *)
Fixpoint covers_all (s : PartitionSynopsis) (projection : list Value.t) (fs : list FieldSchema)
    (ps : list (option BloomParameters)) : Prop :=
  match s, projection, fs, ps with
  | [], [], [], [] => True
  | x :: s, v :: projection, field :: fs, p :: ps =>
      covers x (fs_data_type field) p v ∧ covers_all s projection fs ps
  | _, _, _, _ => False
  end.
(** A synopsis covers a Leaf projection of an index. *)
Definition synopsis_covers (m : IndexManifest) (s : PartitionSynopsis) (projection : list Value.t)
    : Prop := covers_all s projection (fields m) (im_bloom_parameters m).

Fixpoint agrees_all (s : PartitionSynopsis) (fs : list FieldSchema)
    (ps : list (option BloomParameters)) : Prop :=
  match s, fs, ps with
  | x :: s, field :: fs, p :: ps => bloom_agrees x (fs_data_type field) p ∧ agrees_all s fs ps
  | _, _, _ => True
  end.

Lemma expand_loop_spec s projection fs ps changed :
  length s = length fs → length projection = length fs → length ps = length fs →
  Forall synopsis_typed s → Forall value_ok projection → Forall parameters_ok ps →
  validate_shape_loop s fs ps = Ok tt → validate_projection_loop projection fs = Ok tt →
  ∃ s' c, expand_loop s projection fs ps changed = Ok (s', changed || c) ∧
    length s' = length fs ∧ Forall synopsis_typed s' ∧ validate_shape_loop s' fs ps = Ok tt ∧
    covers_all s' projection fs ps ∧
    (∀ w, covers_all s w fs ps → covers_all s' w fs ps) ∧
    (c = false ↔ s' = s) ∧ (agrees_all s fs ps → agrees_all s' fs ps).
Proof.
  revert projection fs ps changed.
  induction s as [|x s IH]; intros [|v projection] [|field fs] [|p ps] changed Hls Hlp Hlb Hty Hval Hpar
    Hshape Hproj; try discriminate.
  { exists [], false. by rewrite orb_false_r. }
  cbn [expand_loop validate_shape_loop validate_projection_loop] in *.
  apply Forall_cons_iff in Hty as [Hx Hty]. apply Forall_cons_iff in Hval as [Hv Hval].
  apply Forall_cons_iff in Hpar as [Hp Hpar].
  apply ok_tt_bind in Hshape as [Hshape Hrest]. apply ok_tt_bind in Hproj as [Hpv Hproj].
  assert (projection_valid field v) as Hpval.
  { unfold projection_valid. destruct v; try done. by destruct (fs_nullable field). }
  destruct (expand_field_spec x v field p Hx Hv Hp Hpval Hshape)
    as (x' & c & -> & Hx' & Hsh' & Hcov & Hmono & Hc & Hag). cbn [mbind result_bind].
  destruct (IH projection fs ps (changed || c)) as (s' & c' & -> & Hl' & Hty' & Hsh2 & Hcov' & Hmono' & Hc' & Hag');
    try done; try (simpl in *; lia).
  exists (x' :: s'), (c || c'). cbn [mbind result_bind]. split; [by rewrite orb_assoc|].
  split; [simpl; by f_equal|]. split; [by constructor|]. split.
  { cbn [validate_shape_loop]. apply ok_tt_bind. done. }
  split; [done|]. split; [|split].
  - intros [|w ws]; [done|]. cbn [covers_all]. intros [??]. split; auto.
  - rewrite orb_false_iff, Hc, Hc'. naive_solver.
  - cbn [agrees_all]. tauto.
Qed.

Lemma manifest_parameters m : manifest_ok m → Forall parameters_ok (im_bloom_parameters m).
Proof.
  intros (_ & _ & _ & _ & H & _). eapply Forall_impl; [|exact H]. intros p Hp b E.
  destruct (Hp b E) as [Hn Hu]. unfold BloomParameters_new in Hn. unfold bloom_ok, u32_ok in *.
  destruct (Z.eqb_spec (bp_bit_count b) 0); [done|]. lia.
Qed.

(** The shape of a synopsis and of a projection for one manifest. *)
Definition synopsis_shape (m : IndexManifest) (s : PartitionSynopsis) : Prop :=
  Forall synopsis_typed s ∧ validate_synopsis_shape s m = Ok tt.
Definition projection_shape (m : IndexManifest) (projection : list Value.t) : Prop :=
  Forall value_ok projection ∧ validate_projection projection (fields m) = Ok tt.

Lemma expand_spec m s projection :
  manifest_ok m → synopsis_shape m s → projection_shape m projection →
  ∃ s' c, PartitionSynopsis_expand s m projection = Ok (s', c) ∧
    synopsis_shape m s' ∧ synopsis_covers m s' projection ∧
    (∀ w, synopsis_covers m s w → synopsis_covers m s' w) ∧
    (c = false ↔ s' = s) ∧
    (validate_synopsis s m = Ok tt → validate_synopsis s' m = Ok tt).
Proof.
  intros Hm [Hty Hs] [Hval Hp]. unfold PartitionSynopsis_expand. rewrite Hs, Hp. cbn [mbind result_bind].
  pose proof Hm as (_ & _ & _ & Hlb & _). pose proof (manifest_parameters m Hm) as Hpar.
  unfold validate_synopsis_shape in Hs. destruct (Z.eqb_spec (len s) (len (fields m))) as [El|]; [|done].
  unfold validate_projection in Hp. destruct (Z.eqb_spec (len projection) (len (fields m))) as [Ep|]; [|done].
  cbn [negb] in *.
  destruct (expand_loop_spec s projection (fields m) (im_bloom_parameters m) false)
    as (s' & c & -> & Hl' & Hty' & Hs' & Hcov & Hmono & Hc & Hag); try done; try (unfold len in *; lia).
  exists s', c. assert (validate_synopsis_shape s' m = Ok tt) as Hsh.
  { unfold validate_synopsis_shape. rewrite (proj2 (Z.eqb_eq _ _)); [done|]. unfold len. by rewrite Hl'. }
  split_and!; try done. unfold validate_synopsis. rewrite !ok_tt_bind. intros [_ Hb]. split; [done|].
  assert (∀ x fs ps, Forall synopsis_typed x →
    validate_bloom_loop x fs ps = Ok tt ↔ agrees_all x fs ps) as Hba.
  { clear. intros x. induction x as [|y x IH]; intros fs ps Hx; [done|].
    destruct fs as [|f fs], ps as [|p ps]; try done. apply Forall_cons_iff in Hx as [Hy Hx].
    cbn [validate_bloom_loop agrees_all]. rewrite ok_tt_bind, validate_bloom_extrema_ok, IH by done. done. }
  apply Hba; [done|]. apply Hag. by apply Hba.
Qed.

(** Expanding by a sequence of projections, as entries move into a partition. *)
Fixpoint expand_many (s : PartitionSynopsis) (m : IndexManifest) (projections : list (list Value.t))
    : result PartitionSynopsis :=
  match projections with
  | [] => Ok s
  | p :: ps => PartitionSynopsis_expand s m p ≫= λ '(s, _), expand_many s m ps
  end.

(** ** The empty synopsis *)
Lemma empty_field_ok field p :
  parameters_ok p →
  let s := mkFieldSynopsis false None None
    ((λ p, replicate (Z.to_nat (BloomParameters_byte_count p)) 0) <$> p) in
  synopsis_typed s ∧ validate_field_synopsis s field p = Ok tt ∧ bloom_agrees s (fs_data_type field) p.
Proof.
  intros Hp s.
  assert (synopsis_typed s) as Hty.
  { split; [by intros v [|]|]. unfold s. simpl. intros bs E. destruct p as [p|]; [|done].
    injection E as <-. by apply Forall_replicate. }
  split; [done|]. unfold s. destruct p as [p|]; cbn [fmap option_fmap option_map]; [|done].
  pose proof (byte_count_bound p (Hp p eq_refl)) as Hbc. pose proof (Hp p eq_refl) as Hb. unfold bloom_ok in Hb.
  pose proof (le_value_zeroed (BloomParameters_byte_count p)) as Hz. unfold zeroed_buffer in Hz.
  split.
  - apply validate_field_synopsis_ok; [done..|]. split_and!; try done. unfold bloom_shape_ok. simpl.
    rewrite Hz. split; [unfold len; rewrite length_replicate; lia|]. apply Z.pow_pos_nonneg; lia.
  - unfold bloom_agrees. cbn [fy_bloom fy_minimum fy_maximum]. rewrite Hz. split; [done|]. by intros v [|].
Qed.
Lemma empty_spec m :
  manifest_ok m → synopsis_shape m (PartitionSynopsis_empty m) ∧
  agrees_all (PartitionSynopsis_empty m) (fields m) (im_bloom_parameters m).
Proof.
  intros Hm. pose proof Hm as (_ & _ & _ & Hlb & _). pose proof (manifest_parameters m Hm) as Hpar.
  unfold synopsis_shape, validate_synopsis_shape, PartitionSynopsis_empty.
  rewrite (proj2 (Z.eqb_eq _ _)) by (unfold len; by rewrite length_fmap, Hlb). cbn [negb].
  generalize (fields m), (im_bloom_parameters m), Hpar, Hlb. clear.
  intros fs ps Hpar. revert fs. induction Hpar as [|p ps Hp _ IH]; intros [|f fs] Hl; try discriminate; [done|].
  destruct (empty_field_ok f p Hp) as (Hty & Hv & Ha). injection Hl as Hl.
  destruct (IH fs Hl) as [[Htys Hvs] Has]. cbn [fmap list_fmap]. split; [split|].
  - by constructor.
  - cbn [validate_shape_loop]. apply ok_tt_bind. done.
  - done.
Qed.

(** C30: Expanding a well-shaped synopsis by a Leaf projection the schema accepts
    always succeeds and is conservative: the result is well shaped, covers the
    new projection and every projection covered before, keeps the agreement of
    Bloom bits and extrema that the codec demands, and the returned flag is
    false exactly when nothing changed. *)
Theorem synopsis_expand_conservative m s projection :
  manifest_ok m → synopsis_shape m s → projection_shape m projection →
  ∃ s' changed, PartitionSynopsis_expand s m projection = Ok (s', changed) ∧
    synopsis_shape m s' ∧ synopsis_covers m s' projection ∧
    (∀ w, synopsis_covers m s w → synopsis_covers m s' w) ∧
    (changed = false ↔ s' = s) ∧
    (validate_synopsis s m = Ok tt → validate_synopsis s' m = Ok tt).
Proof. apply expand_spec. Qed.

Lemma covers_history m projections :
  manifest_ok m → Forall (projection_shape m) projections →
  ∃ s, expand_many (PartitionSynopsis_empty m) m projections = Ok s ∧ synopsis_shape m s ∧
    Forall (synopsis_covers m s) projections.
Proof.
  intros Hm Hps. destruct (empty_spec m Hm) as [Hs _].
  assert (∀ s, synopsis_shape m s → ∃ s', expand_many s m projections = Ok s' ∧ synopsis_shape m s' ∧
    Forall (synopsis_covers m s') projections ∧
    ∀ w, synopsis_covers m s w → synopsis_covers m s' w) as Hgen.
  { induction Hps as [|p ps Hp _ IH]; intros s Hss; [exists s; by split_and!|].
    destruct (expand_spec m s p Hm Hss Hp) as (s1 & c & E & Hs1 & Hc1 & Hm1 & _).
    destruct (IH s1 Hs1) as (s2 & E2 & Hs2 & Hc2 & Hm2). exists s2. cbn [expand_many]. rewrite E.
    split_and!; try done; [constructor; [by apply Hm2|done]|]. auto. }
  destruct (Hgen _ Hs) as (s & ? & ? & ? & _). by exists s.
Qed.

(** The synopsis of a partition covers its history: starting from the empty
    synopsis of the manifest and expanding by any sequence of accepted
    projections succeeds, and the result covers each of them. *)
Lemma synopsis_covers_history m projections :
  manifest_ok m → Forall (projection_shape m) projections →
  ∃ s, expand_many (PartitionSynopsis_empty m) m projections = Ok s ∧ synopsis_shape m s ∧
    Forall (synopsis_covers m s) projections.
Proof. apply covers_history. Qed.

(** ** Codec *)
Definition synopsis_flags (s : FieldSynopsis) : Z :=
  Z.lor (if fy_has_null s then 1 else 0) (Z.shiftl (if bool_decide (is_Some (fy_minimum s)) then 1 else 0) 1).
Definition encode_field_synopsis (s : FieldSynopsis) (field : FieldSchema)
    (parameters : option BloomParameters) (e : list Z) : result (list Z) :=
  let e := Encoder_u8 (synopsis_flags s) e in
  match fy_minimum s, fy_maximum s with
  | Some minimum, Some maximum =>
      encode_typed_value (fs_data_type field) (fs_nullable field) minimum e ≫= λ e,
      encode_typed_value (fs_data_type field) (fs_nullable field) maximum e
  | _, _ => Ok e
  end ≫= λ e,
  match parameters with
  | Some p =>
      ok_or InvalidArgument (fy_bloom s) ≫= λ bloom,
      Encoder_sized_bytes bloom (BloomParameters_byte_count p) e
  | None => Ok e
  end.
Fixpoint encode_synopsis_loop (s : PartitionSynopsis) (fs : list FieldSchema)
    (ps : list (option BloomParameters)) (e : list Z) : result (list Z) :=
  match s, fs, ps with
  | x :: s, field :: fs, p :: ps => encode_field_synopsis x field p e ≫= encode_synopsis_loop s fs ps
  | _, _, _ => Ok e
  end.
Definition encode_partition_synopsis (m : IndexManifest) (s : PartitionSynopsis) (e : list Z)
    : result (list Z) :=
  validate_synopsis s m ≫= λ _,
  try_from_usize 16 (len (fields m)) ≫= λ n,
  encode_synopsis_loop s (fields m) (im_bloom_parameters m) (Encoder_u16 n e) ≫= λ e,
  if MAX_SYNOPSIS_BYTES <? len e then Err InvalidArgument else Ok e.
Definition decode_field_synopsis (field : FieldSchema) (parameters : option BloomParameters)
    : Dec FieldSynopsis :=
  dlet flags := Decoder_u8 in
  if negb (Z.land flags (u8_not 3) =? 0) then dec_lift (Err Corruption)
  else
    let has_null := negb (Z.land flags 1 =? 0) in
    let has_non_null := negb (Z.land flags 2 =? 0) in
    dlet extrema :=
      (if has_non_null then
         dlet minimum := decode_typed_value (fs_data_type field) false in
         dlet maximum := decode_typed_value (fs_data_type field) false in
         dec_ret (Some minimum, Some maximum)
       else dec_ret (None, None)) in
    dlet bloom :=
      (match parameters with
       | Some p => dlet bytes := Decoder_sized_bytes (BloomParameters_byte_count p) in dec_ret (Some bytes)
       | None => dec_ret None
       end) in
    dec_ret (mkFieldSynopsis has_null extrema.1 extrema.2 bloom).
Fixpoint decode_synopsis_loop (fs : list FieldSchema) (ps : list (option BloomParameters))
    : Dec PartitionSynopsis :=
  match fs, ps with
  | field :: fs, p :: ps =>
      dlet x := decode_field_synopsis field p in
      dlet s := decode_synopsis_loop fs ps in
      dec_ret (x :: s)
  | _, _ => dec_ret []
  end.
Definition decode_partition_synopsis (m : IndexManifest) : Dec PartitionSynopsis :=
  dlet n := Decoder_u16 in
  if negb (n =? len (fields m)) then dec_lift (Err Corruption)
  else
    dlet s := decode_synopsis_loop (fields m) (im_bloom_parameters m) in
    dec_lift (map_err Corruption (validate_synopsis s m) ≫= λ _, Ok s).

(** *** Encoded form *)
Definition field_synopsis_body (s : FieldSynopsis) : list Z :=
  [synopsis_flags s] ++
  match fy_minimum s, fy_maximum s with Some a, Some b => value_body a ++ value_body b | _, _ => [] end ++
  match fy_bloom s with Some bs => be_bytes 4 (len bs) ++ bs | None => [] end.
Definition synopsis_body (s : PartitionSynopsis) : list Z :=
  be_bytes 2 (len s) ++ concat (field_synopsis_body <$> s).
Definition synopsis_canonical (s : FieldSynopsis) : Prop :=
  ∀ v, fy_minimum s = Some v ∨ fy_maximum s = Some v → value_canonical v.
Definition bloom_u32 (p : option BloomParameters) : Prop :=
  ∀ b, p = Some b → BloomParameters_byte_count b < 2 ^ 32.

Lemma encode_field_synopsis_ok s field p e :
  synopsis_typed s → parameters_ok p → bloom_u32 p → validate_field_synopsis s field p = Ok tt →
  encode_field_synopsis s field p e = Ok (e ++ field_synopsis_body s).
Proof.
  intros Hty Hp Hu (_ & He & Hb)%validate_field_synopsis_ok; [|done..].
  assert (∀ v e, value_valid (fs_data_type field) v →
    encode_typed_value (fs_data_type field) (fs_nullable field) v e = Ok (e ++ value_body v)) as Hv.
  { intros v e' [Ha Hn]%value_valid_accepts. apply encode_typed_value_emits. split; [|done].
    by destruct v. }
  assert (∀ e, match p with
    | Some p => ok_or InvalidArgument (fy_bloom s) ≫= λ bloom,
                Encoder_sized_bytes bloom (BloomParameters_byte_count p) e
    | None => Ok e end
    = Ok (e ++ match fy_bloom s with Some bs => be_bytes 4 (len bs) ++ bs | None => [] end)) as Hbl.
  { intros e'. unfold bloom_shape_ok in Hb. destruct p as [p|], (fy_bloom s) as [bs|]; try done;
      [|by rewrite app_nil_r]. cbn [ok_or mbind result_bind]. apply emits_sized_bytes.
    destruct Hb as [-> _]. specialize (Hu p eq_refl). split_and!; done || lia. }
  unfold encode_field_synopsis, field_synopsis_body, Encoder_u8. cbv zeta. unfold extrema_ok in He.
  destruct (fy_minimum s) as [a|], (fy_maximum s) as [b|]; try done.
  - destruct He as (Ha & Hb' & _). rewrite Hv by done. cbn [mbind result_bind]. rewrite Hv by done.
    cbn [mbind result_bind]. rewrite Hbl. by rewrite <-!app_assoc.
  - cbn [mbind result_bind]. rewrite Hbl. by rewrite <-!app_assoc.
Qed.
Lemma encode_synopsis_loop_ok s fs ps e :
  length s = length fs → length ps = length fs →
  Forall synopsis_typed s → Forall parameters_ok ps → Forall bloom_u32 ps →
  validate_shape_loop s fs ps = Ok tt →
  encode_synopsis_loop s fs ps e = Ok (e ++ concat (field_synopsis_body <$> s)).
Proof.
  intros Hl1 Hl2 Hty. revert fs ps e Hl1 Hl2.
  induction Hty as [|x s Hx _ IH]; intros [|f fs] [|p ps] e Hl1 Hl2 Hp Hu Hv; try discriminate.
  { cbn. by rewrite app_nil_r. }
  apply Forall_cons_iff in Hp as [Hp Hps]. apply Forall_cons_iff in Hu as [Hu Hus].
  cbn [validate_shape_loop] in Hv. apply ok_tt_bind in Hv as [Hv Hvs]. cbn [encode_synopsis_loop].
  rewrite encode_field_synopsis_ok by done. cbn [mbind result_bind].
  rewrite IH by (done || (simpl in *; lia)). cbn [fmap list_fmap concat]. by rewrite <-app_assoc.
Qed.

(** The encoded synopsis fits the manifest's bound. *)
Lemma value_body_len ty v : value_valid ty v → len (value_body v) ≤ maximum_typed_value_len ty.
Proof.
  unfold value_valid. destruct ty, v; simpl validate_non_null_value; try done; intros Hv;
    cbn [value_body maximum_typed_value_len]; len; try done.
  destruct (Z.ltb_spec MAX_STRING_BYTES (len bytes)); [done|]. lia.
Qed.
Lemma synopsis_body_len s fs ps size :
  length s = length fs → length ps = length fs →
  Forall synopsis_typed s → Forall parameters_ok ps → validate_shape_loop s fs ps = Ok tt →
  size + len (concat (field_synopsis_body <$> s)) ≤ synopsis_len_loop fs ps size.
Proof.
  intros Hl1 Hl2 Hty. revert fs ps size Hl1 Hl2.
  induction Hty as [|x s Hx _ IH]; intros [|f fs] [|p ps] size Hl1 Hl2 Hp Hv; try discriminate.
  { cbn. rewrite len_nil. lia. }
  apply Forall_cons_iff in Hp as [Hp Hps]. cbn [validate_shape_loop] in Hv.
  apply ok_tt_bind in Hv as [Hv Hvs]. cbn [fmap list_fmap concat synopsis_len_loop].
  rewrite len_app. specialize (IH fs ps (size + len (field_synopsis_body x))).
  pose proof (validate_field_synopsis_ok x f p Hx Hp) as [(_ & He & Hb) _]; [done|].
  assert (len (field_synopsis_body x) ≤ 1 + 2 * maximum_typed_value_len (fs_data_type f) +
    match p with Some p => 4 + BloomParameters_byte_count p | None => 0 end) as Hf.
  { unfold field_synopsis_body, extrema_ok, bloom_shape_ok in *. rewrite !len_app.
    change (len [synopsis_flags x]) with 1.
    assert (len match fy_bloom x with Some bs => be_bytes 4 (len bs) ++ bs | None => [] end =
      match p with Some p => 4 + BloomParameters_byte_count p | None => 0 end) as ->.
    { destruct p, (fy_bloom x); try done. destruct Hb as [<- _]. by len. }
    destruct (fy_minimum x) as [a|], (fy_maximum x) as [b|]; try done.
    - destruct He as (Ha & Hb' & _). rewrite len_app.
      pose proof (value_body_len _ a Ha). pose proof (value_body_len _ b Hb'). lia.
    - rewrite len_nil. destruct (fs_data_type f); cbn [maximum_typed_value_len]; unfold MAX_STRING_BYTES; lia. }
  assert (∀ a b, a ≤ b → synopsis_len_loop fs ps a ≤ synopsis_len_loop fs ps b) as Hmono.
  { clear. revert ps. induction fs as [|f fs IH]; intros [|p ps] a b Hab; simpl; try done.
    apply IH. destruct p; lia. }
  etrans; [|apply (Hmono (size + len (field_synopsis_body x)))].
  - rewrite Z.add_assoc. apply IH; done || (simpl in *; lia).
  - destruct p; lia.
Qed.

(** *** Decoding one field *)

(** What the field decoder accepts before the whole synopsis is validated. *)
Definition field_parsed (field : FieldSchema) (p : option BloomParameters) (s : FieldSynopsis) : Prop :=
  synopsis_typed s ∧ synopsis_canonical s ∧
  match fy_minimum s, fy_maximum s with
  | Some a, Some b => field_accepts (fs_data_type field) false a ∧ field_accepts (fs_data_type field) false b
  | None, None => True
  | _, _ => False
  end ∧
  match p, fy_bloom s with
  | Some p, Some bs => len bs ≤ BloomParameters_byte_count p
  | None, None => True
  | _, _ => False
  end.

Lemma flags_cases flags :
  byte_ok flags → (Z.land flags (u8_not 3) =? 0) = true →
  flags = Z.lor (if negb (Z.land flags 1 =? 0) then 1 else 0)
            (Z.shiftl (if negb (Z.land flags 2 =? 0) then 1 else 0) 1).
Proof.
  intros Hb H. change 3 with (Z.shiftl 1 2 - 1) in H. rewrite land_not_used in H by (done || lia).
  apply Z.ltb_lt in H. destruct Hb. assert (flags = 0 ∨ flags = 1 ∨ flags = 2 ∨ flags = 3) by lia.
  by destruct_or!; subst.
Qed.
Lemma synopsis_flags_byte s :
  byte_ok (synopsis_flags s) ∧ Z.land (synopsis_flags s) (u8_not 3) = 0 ∧
  negb (Z.land (synopsis_flags s) 1 =? 0) = fy_has_null s ∧
  negb (Z.land (synopsis_flags s) 2 =? 0) = bool_decide (is_Some (fy_minimum s)).
Proof.
  unfold synopsis_flags. destruct (fy_has_null s), (bool_decide (is_Some (fy_minimum s))); by split_and!.
Qed.

(** The extrema that the second flag announces. *)
Lemma extrema_spec ty (present : bool) :
  parses (if present then
            dlet minimum := decode_typed_value ty false in
            dlet maximum := decode_typed_value ty false in
            dec_ret (Some minimum, Some maximum)
          else dec_ret (None, None))
    (λ x body, match x with
       | (Some a, Some b) => present = true ∧
           (value_ok a ∧ field_accepts ty false a ∧ value_canonical a) ∧
           (value_ok b ∧ field_accepts ty false b ∧ value_canonical b) ∧
           body = value_body a ++ value_body b
       | (None, None) => present = false ∧ body = []
       | _ => False
       end).
Proof.
  destruct present; eapply parses_ext.
  - eapply parses_bind; [apply decode_typed_value_spec|]. intros a ? _ _.
    apply parses_map, decode_typed_value_spec.
  - intros x body _. split.
    + by intros (a & b1 & b2 & (? & ? & ? & ->) & (b & (? & ? & ? & ->) & ->) & ->).
    + destruct x as [[a|] [b|]]; try naive_solver. intros (_ & (? & ? & ?) & (? & ? & ?) & ->).
      exists a, (value_body a), (value_body b). split_and!; try done. by exists b.
  - apply parses_ret.
  - intros x body _. split; [by intros [-> ->]|]. destruct x as [[a|] [b|]]; naive_solver.
Qed.
Lemma bloom_bytes_spec p :
  bloom_u32 p →
  parses (match p with
          | Some p => dlet bytes := Decoder_sized_bytes (BloomParameters_byte_count p) in dec_ret (Some bytes)
          | None => dec_ret None
          end)
    (λ x body, match p, x with
       | Some p, Some bs => bytes_ok bs ∧ len bs ≤ BloomParameters_byte_count p ∧
           body = be_bytes 4 (len bs) ++ bs
       | None, None => body = []
       | _, _ => False
       end).
Proof.
  intros Hu. destruct p as [p|]; eapply parses_ext.
  - apply parses_map, sized_bytes_spec.
  - specialize (Hu p eq_refl). intros x body _. split.
    + by intros (bs & (? & ? & ? & ->) & ->).
    + destruct x as [bs|]; [|done]. intros (? & ? & ->). exists bs. split_and!; done || lia.
  - apply parses_ret.
  - intros x body _. destruct x; naive_solver.
Qed.

Lemma decode_field_synopsis_spec field p :
  bloom_u32 p →
  parses (decode_field_synopsis field p) (λ s body, field_parsed field p s ∧ body = field_synopsis_body s).
Proof.
  intros Hu. unfold decode_field_synopsis. eapply parses_ext.
  - eapply (parses_bind _ _ _ (λ flags s rest, field_parsed field p s ∧ flags :: rest = field_synopsis_body s)).
    { apply u8_spec. }
    intros flags ? [Hb _] _. destruct (Z.land flags (u8_not 3) =? 0) eqn:Ef; cbn [negb].
    2: { apply parses_never. intros s b _ [_ E]. unfold field_synopsis_body in E. cbn [app] in E.
         injection E as -> _. destruct (synopsis_flags_byte s) as (_ & H & _). by rewrite H in Ef. }
    eapply parses_ext.
    + eapply parses_bind; [apply extrema_spec|]. intros ext ? _ _.
      apply parses_map, bloom_bytes_spec, Hu.
    + intros s b _. split.
      * intros (ext & b1 & b2 & Hext & (bl & Hbl & ->) & ->).
        unfold field_parsed, field_synopsis_body, synopsis_typed, synopsis_canonical, synopsis_flags.
        cbn [fy_has_null fy_minimum fy_maximum fy_bloom].
        assert (flags = Z.lor (if negb (Z.land flags 1 =? 0) then 1 else 0)
          (Z.shiftl (if bool_decide (is_Some ext.1) then 1 else 0) 1)) as Hfl.
        { rewrite (flags_cases flags Hb Ef) at 1. do 2 f_equal.
          destruct ext as [[a|] [b|]]; try done; cbn [fst]; destruct Hext as [-> _];
            [by rewrite bool_decide_eq_true_2 by eauto|].
          rewrite bool_decide_eq_false_2; [done|]. by intros []. }
        rewrite <-Hfl. destruct ext as [[a|] [b|]]; try done; cbn [fst snd] in *.
        -- destruct Hext as (_ & (? & ? & ?) & (? & ? & ?) & ->). split; [|].
           ++ split_and!; [by intros v [[= <-]|[= <-]]| |by intros v [[= <-]|[= <-]]|done..|].
              ** intros bs ->. destruct p; [|done]. by destruct Hbl.
              ** destruct p, bl; naive_solver.
           ++ cbn [app]. do 2 f_equal. destruct p, bl; naive_solver.
        -- destruct Hext as [_ ->]. split; [|].
           ++ split_and!; [by intros v [|]| |by intros v [|]|done|].
              ** intros bs ->. destruct p; [|done]. by destruct Hbl.
              ** destruct p, bl; naive_solver.
           ++ cbn [app]. f_equal. destruct p, bl; naive_solver.
      * intros [(Hty & Hc & He & Hbl) E]. unfold field_synopsis_body in E. cbn [app] in E.
        assert (flags = synopsis_flags s) as -> by congruence. apply (f_equal tail) in E.
        cbn [tail] in E. subst b. destruct (synopsis_flags_byte s) as (_ & _ & Hf1 & Hf2).
        destruct Hty as [Hv Hbs].
        exists (fy_minimum s, fy_maximum s),
          (match fy_minimum s, fy_maximum s with Some a, Some b => value_body a ++ value_body b | _, _ => [] end),
          (match fy_bloom s with Some bs => be_bytes 4 (len bs) ++ bs | None => [] end).
        rewrite Hf1, Hf2. split; [|split; [|done]].
        -- destruct (fy_minimum s) as [a|] eqn:Ea, (fy_maximum s) as [b|] eqn:Eb; try done.
           destruct He as [??]. split_and!; try done; auto.
        -- exists (fy_bloom s). split; [|by destruct s].
           destruct p, (fy_bloom s) as [bs|]; try done. split_and!; auto.
  - intros s body _. split.
    + intros (flags & b1 & b2 & [_ ->] & [Hp E] & ->). done.
    + intros [Hp ->]. eexists _, [synopsis_flags s], _. split; [|split; [done|done]].
      split; [apply synopsis_flags_byte|done].
Qed.

(** *** Decoding a synopsis *)
Fixpoint parsed_all (fs : list FieldSchema) (ps : list (option BloomParameters)) (s : PartitionSynopsis)
    : Prop :=
  match fs, ps, s with
  | field :: fs, p :: ps, x :: s => field_parsed field p x ∧ parsed_all fs ps s
  | [], [], [] => True
  | _, _, _ => False
  end.
Lemma decode_synopsis_loop_spec fs ps :
  length ps = length fs → Forall bloom_u32 ps →
  parses (decode_synopsis_loop fs ps)
    (λ s body, parsed_all fs ps s ∧ body = concat (field_synopsis_body <$> s)).
Proof.
  intros Hl Hu. revert fs Hl.
  induction Hu as [|p ps Hp _ IH]; intros [|f fs] Hl; try discriminate; cbn [decode_synopsis_loop].
  - eapply parses_ext; [apply parses_ret|]. intros s body _. cbn [parsed_all].
    destruct s; naive_solver.
  - injection Hl as Hl. eapply parses_ext.
    + eapply parses_bind; [by apply decode_field_synopsis_spec|]. intros x ? _ _.
      by apply parses_map, IH.
    + intros s body _. split.
      * by intros (x & b1 & b2 & [? ->] & (s' & [? ->] & ->) & ->).
      * destruct s as [|x s]; [naive_solver|]. cbn [parsed_all]. intros [[??] ->].
        exists x, (field_synopsis_body x), (concat (field_synopsis_body <$> s)).
        split_and!; try done. by exists s.
Qed.
Lemma parsed_typed fs ps s : parsed_all fs ps s → Forall synopsis_typed s ∧ Forall synopsis_canonical s.
Proof.
  revert fs ps. induction s as [|x s IH]; intros [|f fs] [|p ps]; cbn [parsed_all]; try done.
  intros [(Hx & Hc & _) Hrest]. destruct (IH _ _ Hrest) as [??]. by split; constructor.
Qed.
Lemma validated_parsed fs ps s :
  length s = length fs → length ps = length fs →
  Forall synopsis_typed s → Forall synopsis_canonical s → Forall parameters_ok ps →
  validate_shape_loop s fs ps = Ok tt → parsed_all fs ps s.
Proof.
  intros Hl1 Hl2 Hty. revert fs ps Hl1 Hl2.
  induction Hty as [|x s Hx _ IH]; intros [|f fs] [|p ps] Hl1 Hl2 Hc Hp Hv; try discriminate; [done|].
  apply Forall_cons_iff in Hc as [Hc Hcs]. apply Forall_cons_iff in Hp as [Hp Hps].
  cbn [validate_shape_loop] in Hv. apply ok_tt_bind in Hv as [Hv Hvs]. cbn [parsed_all].
  split; [|apply IH; done || (simpl in *; lia)].
  apply validate_field_synopsis_ok in Hv as (_ & He & Hb); [|done..].
  unfold field_parsed, extrema_ok, bloom_shape_ok in *. split_and!; try done.
  - destruct (fy_minimum x), (fy_maximum x); try done. destruct He as (Ha & Hb' & _).
    split; by apply value_valid_accepts.
  - destruct p, (fy_bloom x); try done. destruct Hb as [-> _]. done.
Qed.
Lemma manifest_bloom_u32 m : manifest_ok m → Forall bloom_u32 (im_bloom_parameters m).
Proof.
  intros (_ & _ & _ & _ & Hall & _). eapply Forall_impl; [|exact Hall]. intros p Hp b E.
  destruct (Hp b E) as [Hn _]. unfold BloomParameters_new in Hn.
  change (BloomParameters_byte_count (mkBloom (bp_bit_count b) (bp_hash_count b)))
    with (BloomParameters_byte_count b) in Hn.
  destruct (Z.ltb_spec MAX_SYNOPSIS_BYTES (BloomParameters_byte_count b)) as [|Hle].
  - by rewrite orb_true_r in Hn.
  - unfold MAX_SYNOPSIS_BYTES, MAX_ENCODED_SYNOPSIS_BYTES in *. lia.
Qed.

(** *** Validation never panics *)
Definition ok_or_invalid {A} (r : result A) : Prop := (∃ a, r = Ok a) ∨ r = Err InvalidArgument.
Lemma ok_or_invalid_bind {A B} (r : result A) (f : A → result B) :
  ok_or_invalid r → (∀ a, r = Ok a → ok_or_invalid (f a)) → ok_or_invalid (r ≫= f).
Proof. intros [[a ->]| ->] Hf; simpl; [by apply Hf|by right]. Qed.
Lemma validate_field_synopsis_total s field p : ok_or_invalid (validate_field_synopsis s field p).
Proof.
  unfold validate_field_synopsis. case_match; [by right|]. apply ok_or_invalid_bind.
  - destruct (fy_minimum s) as [a|], (fy_maximum s) as [b|]; try (by right); [|left; by eexists].
    destruct (validate_non_null_total a (fs_data_type field)) as [-> | ->]; [|by right].
    cbn [mbind result_bind].
    destruct (validate_non_null_total b (fs_data_type field)) as [-> | ->]; [|by right].
    cbn [mbind result_bind].
    destruct (typed_order a b) as [[]|]; cbn; try (by right); left; by eexists.
  - intros _ _. destruct p as [p|], (fy_bloom s) as [bs|]; try (by right); [|left; by eexists].
    case_match; [|by right]. unfold validate_bloom_padding.
    repeat case_match; cbn; try (by right); left; by eexists.
Qed.
Lemma validate_shape_loop_total s fs ps : ok_or_invalid (validate_shape_loop s fs ps).
Proof.
  revert fs ps. induction s as [|x s IH]; intros [|f fs] [|p ps]; try (left; by eexists).
  cbn [validate_shape_loop]. apply ok_or_invalid_bind; [apply validate_field_synopsis_total|auto].
Qed.
Lemma validate_bloom_extrema_total s field p :
  synopsis_typed s → parameters_ok p → validate_field_synopsis s field p = Ok tt →
  ok_or_invalid (validate_bloom_extrema s field p).
Proof.
  intros Hty Hp (_ & He & Hb)%validate_field_synopsis_ok; [|done..].
  unfold validate_bloom_extrema. destruct (fy_bloom s) as [bs|] eqn:Eb, p as [p|]; try (left; by eexists).
  case_match; [by right|]. case_match; [by right|].
  unfold bloom_shape_ok in Hb. rewrite Eb in Hb. destruct Hb as [Hl _]. destruct Hty as [_ Hbytes].
  assert (∀ v, value_valid (fs_data_type field) v →
    ok_or_invalid (bloom_might_contain s v (fs_data_type field) (Some p) ≫= λ c, Ok (negb c))) as Hmc.
  { intros v Hv. destruct (might_contain_bit s v (fs_data_type field) p bs) as (bit & _ & _ & ->); auto.
    left. by eexists. }
  unfold extrema_ok in He.
  destruct (fy_minimum s) as [a|], (fy_maximum s) as [b|]; try done.
  - destruct He as (Ha & Hb & _). apply ok_or_invalid_bind; [by apply Hmc|].
    intros [] _; [by right|]. apply ok_or_invalid_bind; [by apply Hmc|].
    intros [] _; [by right|left; by eexists].
  - left. by eexists.
Qed.
Lemma validate_synopsis_total m s :
  manifest_ok m → Forall synopsis_typed s → ok_or_invalid (validate_synopsis s m).
Proof.
  intros Hm Hty. unfold validate_synopsis. apply ok_or_invalid_bind.
  { unfold validate_synopsis_shape. case_match; [by right|apply validate_shape_loop_total]. }
  intros [] Hs. unfold validate_synopsis_shape in Hs. case_match; [done|].
  pose proof (manifest_parameters m Hm) as Hp. revert Hs Hp.
  generalize (fields m), (im_bloom_parameters m). clear -Hty.
  induction Hty as [|x s Hx _ IH]; intros [|f fs] [|p ps] Hs Hp; try (left; by eexists).
  cbn [validate_shape_loop validate_bloom_loop] in *. apply ok_tt_bind in Hs as [Hx' Hs].
  apply Forall_cons_iff in Hp as [Hp Hps]. apply ok_or_invalid_bind; [|auto].
  by apply validate_bloom_extrema_total.
Qed.

(** *** The value family *)
Lemma synopsis_body_ok m s :
  manifest_ok m → Forall synopsis_typed s → validate_synopsis s m = Ok tt → bytes_ok (synopsis_body s).
Proof.
  intros Hm Hty _. apply bytes_ok_app. split; [apply be_bytes_ok|].
  induction Hty as [|x s [Hv Hb] _ IH]; [constructor|]. cbn [fmap list_fmap concat].
  apply bytes_ok_app. split; [|exact IH]. unfold field_synopsis_body. rewrite !bytes_ok_app. split_and!.
  - apply bytes_ok_cons. split; [apply synopsis_flags_byte|constructor].
  - destruct (fy_minimum x) as [a|], (fy_maximum x) as [b|]; try constructor.
    apply bytes_ok_app. split; apply value_body_ok; auto.
  - destruct (fy_bloom x) as [bs|]; [|constructor]. apply bytes_ok_app.
    split; [apply be_bytes_ok|auto].
Qed.

Lemma synopsis_emits m s :
  manifest_ok m → Forall synopsis_typed s →
  emits_at (Encoder_new TAG_PARTITION_SYNOPSIS) (encode_partition_synopsis m s)
    (validate_synopsis s m = Ok tt) (synopsis_body s).
Proof.
  intros Hm Hty. unfold emits_at, encode_partition_synopsis.
  destruct (validate_synopsis_total m s Hm Hty) as [[[] Ev]|Ev]; rewrite Ev; cbn [mbind result_bind];
    [|split; [naive_solver|by right]].
  pose proof Ev as [Hs _]%ok_tt_bind. pose proof Hm as (_ & _ & Hf & Hlb & _ & Hmax & _).
  unfold validate_synopsis_shape in Hs. destruct (Z.eqb_spec (len s) (len (fields m))) as [El|]; [|done].
  cbn [negb] in Hs. unfold MAX_FIELDS in Hf.
  unfold try_from_usize. rewrite (proj2 (Z.ltb_lt _ _)) by lia. cbn [mbind result_bind].
  rewrite encode_synopsis_loop_ok; try done; try (unfold len in *; lia);
    [|by apply manifest_parameters|by apply manifest_bloom_u32]. cbn [mbind result_bind].
  pose proof (synopsis_body_len s (fields m) (im_bloom_parameters m) (1 + 2)) as Hlen.
  unfold maximum_synopsis_encoded_len in Hmax. unfold Encoder_u16, Encoder_new. rewrite <-app_assoc, <-El.
  rewrite (proj2 (Z.ltb_ge _ _)).
  - fold (synopsis_body s). split; [naive_solver|left; by eexists].
  - rewrite !len_app, len_be_bytes. change (len [TAG_PARTITION_SYNOPSIS]) with 1.
    specialize (Hlen ltac:(unfold len in *; lia) Hlb Hty ltac:(by apply manifest_parameters) Hs). lia.
Qed.

Definition synopsis_family (m : IndexManifest) (Hm : manifest_ok m) : ValueFamily PartitionSynopsis.
Proof.
  refine {| vf_tag := TAG_PARTITION_SYNOPSIS;
            vf_encode := encode_partition_synopsis m;
            vf_decode := decode_partition_synopsis m;
            vf_typed s := Forall synopsis_typed s;
            vf_valid s := validate_synopsis s m = Ok tt;
            vf_canonical s := Forall synopsis_canonical s;
            vf_body := synopsis_body |}.
  - done.
  - intros. by eapply synopsis_body_ok.
  - intros s Hs. by apply synopsis_emits.
  - pose proof Hm as (_ & _ & Hf & Hlb & _). pose proof (manifest_bloom_u32 m Hm) as Hu.
    eapply parses_ext.
    + eapply (parses_bind _ _ _ (λ n s body, n = len (fields m) ∧
        parsed_all (fields m) (im_bloom_parameters m) s ∧ validate_synopsis s m = Ok tt ∧
        body = concat (field_synopsis_body <$> s))); [apply u16_spec|].
      intros n ? _ _. destruct (Z.eqb_spec n (len (fields m))) as [->|]; cbn [negb].
      2: { apply parses_never. naive_solver. }
      eapply parses_ext.
      * apply parses_check; [by apply decode_synopsis_loop_spec|].
        intros s b [[Hty _]%parsed_typed _].
        destruct (validate_synopsis_total m s Hm Hty) as [[u ->]| ->]; cbn; auto with ktann.
      * intros s b _. split.
        -- intros (s' & [? ->] & E). apply bind_ok in E as ([] & E%map_err_ok & E').
           apply Ok_inj in E' as <-. done.
        -- intros (_ & ? & Hv & ->). exists s. split; [done|]. apply bind_ok. exists tt.
           split; [by apply map_err_ok|done].
    + intros s body _. split.
      * intros (n & b1 & b2 & [_ ->] & (-> & Hp & Hv & ->) & ->).
        destruct (parsed_typed _ _ _ Hp) as [??]. split_and!; try done. unfold synopsis_body.
        pose proof Hv as [Hs _]%ok_tt_bind. unfold validate_synopsis_shape in Hs.
        destruct (Z.eqb_spec (len s) (len (fields m))) as [->|]; done.
      * intros (Hty & Hv & Hc & ->). pose proof Hv as [Hs _]%ok_tt_bind.
        unfold validate_synopsis_shape in Hs.
        destruct (Z.eqb_spec (len s) (len (fields m))) as [El|]; [|done]. unfold synopsis_body.
        eexists (len (fields m)), _, _. rewrite El. unfold MAX_FIELDS in Hf.
        split; [split; [unfold u16_ok; pose proof (len_nonneg (fields m)); lia|done]|].
        split; [|done]. split_and!; try done.
        apply validated_parsed; try done; [unfold len in El; lia|by apply manifest_parameters].
Defined.
End hash.

(** ** A concrete index: a nullable Bloom-filtered integer and a float field *)
Definition sample_hash (seed : Z) (bytes : list Z) : Z := seed + foldl (λ h b, 31 * h + b) 7 bytes.
Definition sample_manifest : IndexManifest :=
  mkManifest IndexLifecycle.Active 7
    (mkIndexConfig None 2 Metric.L2
      [mkFieldSchema [110] DataType.I64 true (SynopsisConfig.MinMaxBloom 2 0x3F9EB851EB851EB8);
       mkFieldSchema [102] DataType.F64 false SynopsisConfig.MinMax]
      [1] 16 64 128 16384)
    (replicate 32 0) [Some (mkBloom 67 1); None].

Lemma sample_manifest_ok : manifest_ok sample_manifest.
Proof.
  unfold manifest_ok. split_and!; try done.
  - apply List.Forall_cons; [intros b [= <-]; by split|].
    apply List.Forall_cons; [by intros b [=]|apply List.Forall_nil].
  - exists [DataType.F64]. reflexivity.
Qed.

Lemma synopsis_expand_conservative_witness :
  ∃ s' changed, PartitionSynopsis_expand sample_hash (PartitionSynopsis_empty sample_manifest)
      sample_manifest [Value.I64 5; Value.F64 0x8000000000000000] = Ok (s', changed) ∧
    synopsis_covers sample_hash sample_manifest s' [Value.I64 5; Value.F64 0x8000000000000000].
Proof.
  destruct (synopsis_expand_conservative sample_hash sample_manifest
    (PartitionSynopsis_empty sample_manifest) [Value.I64 5; Value.F64 0x8000000000000000]
    sample_manifest_ok) as (s' & c & He & _ & Hc & _).
  - by apply empty_spec, sample_manifest_ok.
  - split; [repeat constructor; done|reflexivity].
  - eauto.
Defined.
