(* ===== verification/Values.v ===== *)
(** Theorems over the persistent value families
    (src/src/storage/values.rs and src/src/storage/values/): every modelled
    family round-trips canonically through its frame, and the worst-case sizes
    that admit one leaf relocation batch are met. *)
From S2P Require Import Prelude RustStd Api TreeKey Keys RaBitQ Manifest Wire ValueData Records Synopsis.

(** A family round-trips: the framed decoder returns a value exactly on the
    bytes the framed encoder produces for it (so no two byte strings decode to
    one value), and fails only with [Corruption]. *)
Definition family_roundtrips {A} (F : ValueFamily A) : Prop :=
  ∀ bytes, bytes_ok bytes →
    (∀ v, decode_family F bytes = Ok v ↔
       vf_typed v ∧ vf_canonical v ∧ encode_framed F v = Ok bytes) ∧
    ok_or_corrupt (decode_family F bytes).

Lemma family_roundtrips_all {A} (F : ValueFamily A) : family_roundtrips F.
Proof.
  intros bytes Hb. split; [|by apply decode_framed_total]. intros v.
  rewrite decode_framed_ok by done. split.
  - intros (? & ? & ? & ? & ?). split_and!; try done. by apply encode_framed_ok.
  - intros (? & ? & H). apply encode_framed_ok in H; [|done]. naive_solver.
Qed.

(** Every value family bound to a manifest round-trips canonically: Vector
    Records, payloads, Record Locations, Partition Headers, centroids, Child and
    Leaf Entries, synopses, states, Tree Manifests, graph envelopes, and the
    namespace's allocator and name entries. *)
Lemma value_families_roundtrip xxh3_128 m (Hm : manifest_ok m) :
  family_roundtrips (vector_record_family m Hm) ∧ family_roundtrips payload_family ∧
  family_roundtrips (location_family m Hm) ∧ family_roundtrips header_family ∧
  family_roundtrips (centroid_family m Hm) ∧ family_roundtrips (child_entry_family m Hm) ∧
  family_roundtrips (leaf_entry_family m Hm) ∧
  family_roundtrips (synopsis_family xxh3_128 m Hm) ∧ family_roundtrips state_family ∧
  family_roundtrips tree_manifest_family ∧ family_roundtrips graph_descriptor_family ∧
  family_roundtrips graph_chunk_family ∧ family_roundtrips allocator_family ∧
  family_roundtrips name_entry_family.
Proof. split_and!; apply family_roundtrips_all. Qed.

(** ** Worst-case sizes *)
Record LeafRelocationValueSizes := mkSizes {
  sz_leaf_entry : Z; sz_record_location : Z; sz_partition_header : Z; sz_partition_synopsis : Z
}.
Definition leaf_relocation_value_sizes (m : IndexManifest) (tree_key : list Z)
    : result LeafRelocationValueSizes :=
  maximum_leaf_entry_encoded_len m ≫= λ leaf_entry,
  Ok (mkSizes leaf_entry (record_location_encoded_len tree_key) PARTITION_HEADER_ENCODED_LEN
        (maximum_synopsis_encoded_len m)).

Lemma field_bytes_loop_ok fs size n vs :
  0 ≤ size → field_bytes_loop fs size = Ok n →
  Forall2 (λ v f, field_accepts (fs_data_type f) (fs_nullable f) v) vs fs →
  size + len (concat (value_body <$> vs)) ≤ n.
Proof.
  intros Hs Hn Hf. revert size Hs Hn. induction Hf as [|v f vs fs Hv _ IH]; intros size Hs Hn.
  { apply Ok_inj in Hn as <-. cbn. rewrite len_nil. lia. }
  cbn [field_bytes_loop] in Hn. apply bind_ok in Hn as (k & Hk%ok_or_ok & Hn).
  unfold checked_add in Hk. case_match; [|done]. injection Hk as <-.
  assert (0 ≤ maximum_typed_value_len (fs_data_type f)) by (destruct (fs_data_type f); done).
  specialize (IH (size + maximum_typed_value_len (fs_data_type f)) ltac:(lia) Hn). cbn [fmap list_fmap concat]. rewrite len_app.
  assert (len (value_body v) ≤ maximum_typed_value_len (fs_data_type f)); [|lia].
  destruct v; cbn [field_accepts value_body] in *; len;
    destruct (fs_data_type f); destruct_and?; try done; cbn [maximum_typed_value_len]; try lia.
Qed.

Lemma encoded_synopsis_len xxh3_128 m (Hm : manifest_ok m) s bytes :
  encode_framed (synopsis_family xxh3_128 m Hm) s = Ok bytes → Forall synopsis_typed s →
  len bytes ≤ maximum_synopsis_encoded_len m.
Proof.
  intros He Hty. apply encode_framed_ok in He as (Hv & -> & _); [|done].
  cbn [vf_tag vf_body synopsis_family vf_valid] in *. pose proof Hv as [Hsh _]%ok_tt_bind.
  unfold validate_synopsis_shape in Hsh. destruct (Z.eqb_spec (len s) (len (fields m))) as [El|]; [|done].
  pose proof Hm as (_ & _ & _ & Hlb & _).
  pose proof (synopsis_body_len s (fields m) (im_bloom_parameters m) (1 + 2)
    ltac:(unfold len in *; lia) Hlb Hty ltac:(by apply manifest_parameters) Hsh) as Hlen.
  unfold maximum_synopsis_encoded_len, synopsis_body. len. lia.
Qed.

(** The value sizes that admit a leaf relocation batch are sound: no
    encoded Leaf Entry, Record Location, Partition Header or Synopsis of the
    index is longer, and Header and Location lengths are exact. *)
Lemma relocation_value_sizes_sound xxh3_128 m (Hm : manifest_ok m) tree_key sizes :
  leaf_relocation_value_sizes m tree_key = Ok sizes →
  (∀ l bytes, encode_framed (leaf_entry_family m Hm) l = Ok bytes → vf_typed (ValueFamily := leaf_entry_family m Hm) l →
     len bytes ≤ sz_leaf_entry sizes) ∧
  (∀ leaf bytes, encode_framed (location_family m Hm) (mkLocation tree_key leaf) = Ok bytes →
     bytes_ok tree_key → id_ok leaf → len bytes = sz_record_location sizes) ∧
  (∀ h bytes, encode_framed header_family h = Ok bytes → header_typed h →
     len bytes = sz_partition_header sizes) ∧
  (∀ s bytes, encode_framed (synopsis_family xxh3_128 m Hm) s = Ok bytes → Forall synopsis_typed s →
     len bytes ≤ sz_partition_synopsis sizes).
Proof.
  intros Hs. unfold leaf_relocation_value_sizes in Hs. apply bind_ok in Hs as (n & Hn & Hs).
  apply Ok_inj in Hs as <-. cbn [sz_leaf_entry sz_record_location sz_partition_header sz_partition_synopsis].
  split_and!.
  - intros l bytes He Hty. apply encode_framed_ok in He as ((Hid & [Hf _] & Hr) & -> & _); [|done].
    cbn [vf_tag vf_body leaf_entry_family]. unfold maximum_leaf_entry_encoded_len in Hn.
    apply bind_ok in Hn as (fb & Hfb & Hn). apply bind_ok in Hn as (rb & Hrb & Hn%ok_or_ok).
    pose proof (field_bytes_loop_ok _ _ _ _ ltac:(done) Hfb Hf).
    pose proof (validate_rabitq_len m _ Hr) as Hrl. rewrite Hrb in Hrl. apply Ok_inj in Hrl as ->.
    unfold checked_add in Hn. repeat (case_match; simplify_eq/=).
    unfold leaf_entry_body, fields_body, MAX_RECORD_ID_BYTES in *. len. lia.
  - intros leaf bytes He Hb Hid. apply encode_framed_ok in He as (_ & -> & _); [|done].
    cbn [vf_tag vf_body location_family rl_tree_key rl_leaf]. unfold record_location_encoded_len. len. lia.
  - intros h bytes He Hty. apply encode_framed_ok in He as (_ & -> & _); [|done].
    cbn [vf_tag vf_body header_family]. unfold header_body. by len.
  - intros. by apply (encoded_synopsis_len xxh3_128 m Hm s).
Qed.
