(* ===== verification/PredicateEval.v ===== *)
(** Exact Filter Predicate evaluation and leaf pruning
    (src/src/search/predicate.rs): the compiled expression, SQL three-valued
    evaluation over stored fields, and the conservative classification of a leaf
    from its synopsis. *)
From stdpp Require Import sets sorting.
From S2P Require Import Prelude RustStd Api TreeKey Keys RaBitQ Manifest Wire ValueData Records Synopsis.

(** ** Truth values *)
Module TruthValue.
Inductive t := False | True | Unknown.
#[export] Instance eq_dec : EqDecision t.
Proof. solve_decision. Defined.
End TruthValue.
Export (hints) TruthValue.

Definition TruthValue_as_u8 (t : TruthValue.t) : Z :=
  match t with TruthValue.False => 0 | TruthValue.True => 1 | TruthValue.Unknown => 2 end.
Definition TruthValue_from_bool (value : bool) : TruthValue.t :=
  if value then TruthValue.True else TruthValue.False.
Definition TruthValue_not (t : TruthValue.t) : TruthValue.t :=
  match t with
  | TruthValue.False => TruthValue.True
  | TruthValue.True => TruthValue.False
  | TruthValue.Unknown => TruthValue.Unknown
  end.
Definition TruthValue_and (l r : TruthValue.t) : TruthValue.t :=
  match l, r with
  | TruthValue.False, _ | _, TruthValue.False => TruthValue.False
  | TruthValue.Unknown, _ | _, TruthValue.Unknown => TruthValue.Unknown
  | TruthValue.True, TruthValue.True => TruthValue.True
  end.
Definition TruthValue_or (l r : TruthValue.t) : TruthValue.t :=
  match l, r with
  | TruthValue.True, _ | _, TruthValue.True => TruthValue.True
  | TruthValue.Unknown, _ | _, TruthValue.Unknown => TruthValue.Unknown
  | TruthValue.False, TruthValue.False => TruthValue.False
  end.

(** ** Sets of truth values, as the bits of one byte *)
Definition TruthSet : Type := Z.
Definition TruthSet_EMPTY : TruthSet := 0.
Definition TruthSet_FALSE : TruthSet := Z.shiftl 1 (TruthValue_as_u8 TruthValue.False).
Definition TruthSet_TRUE : TruthSet := Z.shiftl 1 (TruthValue_as_u8 TruthValue.True).
Definition TruthSet_insert (s : TruthSet) (t : TruthValue.t) : TruthSet :=
  Z.lor s (Z.shiftl 1 (TruthValue_as_u8 t)).
Definition TruthSet_contains (s : TruthSet) (t : TruthValue.t) : bool :=
  negb (Z.land s (Z.shiftl 1 (TruthValue_as_u8 t)) =? 0).
Definition VALUES : list TruthValue.t := [TruthValue.False; TruthValue.True; TruthValue.Unknown].
Definition TruthSet_not (s : TruthSet) : TruthSet :=
  foldl (λ acc t, if TruthSet_contains s t then TruthSet_insert acc (TruthValue_not t) else acc)
    TruthSet_EMPTY VALUES.
Definition map_binary (l r : TruthSet) (operation : TruthValue.t → TruthValue.t → TruthValue.t)
    : TruthSet :=
  foldl (λ acc a, foldl (λ acc b, TruthSet_insert acc (operation a b)) acc
      (List.filter (TruthSet_contains r) VALUES))
    TruthSet_EMPTY (List.filter (TruthSet_contains l) VALUES).
Definition TruthSet_and (l r : TruthSet) : TruthSet := map_binary l r TruthValue_and.
Definition TruthSet_or (l r : TruthSet) : TruthSet := map_binary l r TruthValue_or.

(** ** Comparison *)
Definition stored_order (l r : Value.t) : result comparison :=
  ok_or Corruption (typed_order l r).
Definition compare_op (op : CompareOp.t) (ordering : comparison) : bool :=
  match op with
  | CompareOp.Eq => bool_decide (ordering = Eq)
  | CompareOp.NotEq => bool_decide (ordering ≠ Eq)
  | CompareOp.Lt => bool_decide (ordering = Lt)
  | CompareOp.LessOrEqual => bool_decide (ordering ≠ Gt)
  | CompareOp.Gt => bool_decide (ordering = Gt)
  | CompareOp.GreaterOrEqual => bool_decide (ordering ≠ Lt)
  end.
Definition compare (l r : Value.t) (op : CompareOp.t) : result bool :=
  stored_order l r ≫= λ ordering, Ok (compare_op op ordering).

(** ** Membership sets *)

(** [sort_unstable_by] with a comparator that panics across scalar domains.
    Equal members of one domain are identical once canonical, so the sorted
    list does not depend on the sorting algorithm. *)
Fixpoint sort_insert (v : Value.t) (l : list Value.t) : result (list Value.t) :=
  match l with
  | [] => Ok [v]
  | x :: l =>
      or_panic (typed_order v x) ≫= λ o,
      match o with
      | Gt => sort_insert v l ≫= λ l, Ok (x :: l)
      | _ => Ok (v :: x :: l)
      end
  end.
Fixpoint sort_values (l : list Value.t) : result (list Value.t) :=
  match l with
  | [] => Ok []
  | v :: l => sort_values l ≫= sort_insert v
  end.
(** [dedup_by]: drops an element equal to the one kept before it. *)
Fixpoint dedup_after (kept : Value.t) (l : list Value.t) : list Value.t :=
  match l with
  | [] => []
  | v :: l =>
      if bool_decide (typed_order v kept = Some Eq) then dedup_after kept l
      else v :: dedup_after v l
  end.
Definition dedup_values (l : list Value.t) : list Value.t :=
  match l with [] => [] | v :: l => v :: dedup_after v l end.
Definition CompiledIn_compile (values : list Value.t) : result (list Value.t) :=
  sort_values values ≫= λ values, Ok (dedup_values values).

(** [slice::binary_search_by(..).is_ok()], with [fuel] at least the size. *)
Fixpoint search_loop (fuel : nat) (values : list Value.t) (f : Value.t → result comparison)
    (base size : nat) : result nat :=
  match fuel with
  | O => Ok base
  | S fuel =>
      if decide (1 < size)%nat then
        let half := (size / 2)%nat in
        let mid := (base + half)%nat in
        or_panic (values !! mid) ≫= λ v,
        f v ≫= λ cmp,
        search_loop fuel values f (match cmp with Gt => base | _ => mid end) (size - half)
      else Ok base
  end.
Definition binary_search (values : list Value.t) (f : Value.t → result comparison) : result bool :=
  if decide (length values = 0%nat) then Ok false
  else
    search_loop (length values) values f 0 (length values) ≫= λ base,
    or_panic (values !! base) ≫= λ v,
    f v ≫= λ cmp, Ok (bool_decide (cmp = Eq)).
Definition CompiledIn_evaluate (values : list Value.t) (stored : Value.t) : result TruthValue.t :=
  if decide (values = []) then Ok TruthValue.False
  else if Value_is_null stored then Ok TruthValue.Unknown
  else
    binary_search values (λ value, or_panic (typed_order value stored)) ≫= λ contains,
    Ok (TruthValue_from_bool contains).

(** ** Compiled expressions *)
Module CompiledExpression.
Inductive t :=
  | And (children : list t)
  | Or (children : list t)
  | Not (child : t)
  | Compare (field : nat) (op : CompareOp.t) (value : Value.t)
  | In (field : nat) (values : list Value.t)
  | IsNull (field : nat)
  | IsNotNull (field : nat).
End CompiledExpression.

Fixpoint compile_expression (p : Predicate.t) : result CompiledExpression.t :=
  match p with
  | Predicate.And ps => mapM compile_expression ps ≫= λ cs, Ok (CompiledExpression.And cs)
  | Predicate.Or ps => mapM compile_expression ps ≫= λ cs, Ok (CompiledExpression.Or cs)
  | Predicate.Not p => compile_expression p ≫= λ c, Ok (CompiledExpression.Not c)
  | Predicate.Compare field op value => Ok (CompiledExpression.Compare (Z.to_nat field) op value)
  | Predicate.In field values =>
      CompiledIn_compile values ≫= λ values, Ok (CompiledExpression.In (Z.to_nat field) values)
  | Predicate.IsNull field => Ok (CompiledExpression.IsNull (Z.to_nat field))
  | Predicate.IsNotNull field => Ok (CompiledExpression.IsNotNull (Z.to_nat field))
  end.

Fixpoint evaluate (e : CompiledExpression.t) (fields : list Value.t) : result TruthValue.t :=
  let all := fix all (cs : list CompiledExpression.t) (acc : TruthValue.t) :=
    match cs with
    | [] => Ok acc
    | c :: cs =>
        evaluate c fields ≫= λ t,
        match t with
        | TruthValue.False => Ok TruthValue.False
        | TruthValue.Unknown => all cs TruthValue.Unknown
        | TruthValue.True => all cs acc
        end
    end in
  let any := fix any (cs : list CompiledExpression.t) (acc : TruthValue.t) :=
    match cs with
    | [] => Ok acc
    | c :: cs =>
        evaluate c fields ≫= λ t,
        match t with
        | TruthValue.True => Ok TruthValue.True
        | TruthValue.Unknown => any cs TruthValue.Unknown
        | TruthValue.False => any cs acc
        end
    end in
  match e with
  | CompiledExpression.And cs => all cs TruthValue.True
  | CompiledExpression.Or cs => any cs TruthValue.False
  | CompiledExpression.Not c => evaluate c fields ≫= λ t, Ok (TruthValue_not t)
  | CompiledExpression.Compare field op value =>
      or_panic (fields !! field) ≫= λ stored,
      if Value_is_null stored then Ok TruthValue.Unknown
      else compare stored value op ≫= λ b, Ok (TruthValue_from_bool b)
  | CompiledExpression.In field values =>
      or_panic (fields !! field) ≫= λ stored, CompiledIn_evaluate values stored
  | CompiledExpression.IsNull field =>
      or_panic (fields !! field) ≫= λ stored, Ok (TruthValue_from_bool (Value_is_null stored))
  | CompiledExpression.IsNotNull field =>
      or_panic (fields !! field) ≫= λ stored, Ok (TruthValue_from_bool (negb (Value_is_null stored)))
  end.

(** ** Compiled predicates *)
Record CompiledField := mkCompiledField {
  cf_index : nat; cf_data_type : DataType.t; cf_nullable : bool
}.
Record CompiledPredicate := mkCompiledPredicate {
  cp_expression : CompiledExpression.t;
  cp_field_count : Z;
  cp_referenced_fields : list CompiledField
}.

(** [referenced[usize::from(field.0)] = true]. *)
Definition mark (field : Z) (referenced : list bool) : result (list bool) :=
  or_panic (referenced !! Z.to_nat field) ≫= λ _, Ok (<[Z.to_nat field := true]> referenced).
Fixpoint mark_referenced_fields (p : Predicate.t) (referenced : list bool) : result (list bool) :=
  let go := fix go (ps : list Predicate.t) (referenced : list bool) :=
    match ps with
    | [] => Ok referenced
    | p :: ps => mark_referenced_fields p referenced ≫= go ps
    end in
  match p with
  | Predicate.And ps | Predicate.Or ps => go ps referenced
  | Predicate.Not p => mark_referenced_fields p referenced
  | Predicate.Compare field _ _ | Predicate.In field _
  | Predicate.IsNull field | Predicate.IsNotNull field => mark field referenced
  end.
(** [enumerate().filter(|(index, _)| referenced[*index]).map(..)]. *)
Fixpoint compiled_fields (fields : list FieldSchema) (index : nat) (referenced : list bool)
    : result (list CompiledField) :=
  match fields with
  | [] => Ok []
  | field :: fields =>
      or_panic (referenced !! index) ≫= λ r,
      compiled_fields fields (S index) referenced ≫= λ rest,
      Ok (if r : bool
          then mkCompiledField index (fs_data_type field) (fs_nullable field) :: rest else rest)
  end.
Definition CompiledPredicate_compile (p : Predicate.t) (fields : list FieldSchema)
    : result CompiledPredicate :=
  Predicate_validate fields p ≫= λ p,
  mark_referenced_fields p (replicate (length fields) false) ≫= λ referenced,
  compiled_fields fields 0 referenced ≫= λ referenced_fields,
  compile_expression p ≫= λ expression,
  Ok (mkCompiledPredicate expression (len fields) referenced_fields).

(** The match in [validate_stored_fields]. *)
Definition stored_valid (data_type : DataType.t) (nullable : bool) (value : Value.t) : bool :=
  match value with
  | Value.Null => nullable
  | Value.Bool _ => bool_decide (data_type = DataType.Bool)
  | Value.I64 _ => bool_decide (data_type = DataType.I64)
  | Value.F64 bits =>
      bool_decide (data_type = DataType.F64) && F64.is_finite bits
      && (negb (F64.is_zero bits) || (bits =? 0))
  | Value.String s => bool_decide (data_type = DataType.String) && (len s <=? MAX_STRING_BYTES)
  end.
Fixpoint validate_stored_loop (cfs : list CompiledField) (fields : list Value.t) : result unit :=
  match cfs with
  | [] => Ok tt
  | cf :: cfs =>
      or_panic (fields !! cf_index cf) ≫= λ value,
      if stored_valid (cf_data_type cf) (cf_nullable cf) value
      then validate_stored_loop cfs fields else Err Corruption
  end.
Definition validate_stored_fields (c : CompiledPredicate) (fields : list Value.t) : result unit :=
  if negb (len fields =? cp_field_count c) then Err Corruption
  else validate_stored_loop (cp_referenced_fields c) fields.
Definition evaluate_truth (c : CompiledPredicate) (fields : list Value.t) : result TruthValue.t :=
  validate_stored_fields c fields ≫= λ _, evaluate (cp_expression c) fields.
Definition matches (c : CompiledPredicate) (fields : list Value.t) : result bool :=
  evaluate_truth c fields ≫= λ t, Ok (bool_decide (t = TruthValue.True)).

(** ** Pruning *)
Module SynopsisClassification.
Inductive t := NoMatch | MayMatch | AllMatch.
#[export] Instance eq_dec : EqDecision t.
Proof. solve_decision. Defined.
End SynopsisClassification.
Export (hints) SynopsisClassification.

Definition synopsis_field (m : IndexManifest) (s : PartitionSynopsis) (index : nat)
    : result (FieldSynopsis * DataType.t * option BloomParameters) :=
  ok_or Corruption (fields m !! index) ≫= λ field,
  ok_or Corruption (s !! index) ≫= λ field_synopsis,
  if negb (fy_has_null field_synopsis) && bool_decide (fy_minimum field_synopsis = None)
  then Err Corruption
  else
    or_panic (im_bloom_parameters m !! index) ≫= λ parameters,
    Ok (field_synopsis, fs_data_type field, parameters).
Definition null_seeded_bounds (s : FieldSynopsis) : TruthSet * option (Value.t * Value.t) :=
  let truths := if fy_has_null s then TruthSet_insert TruthSet_EMPTY TruthValue.Unknown
                else TruthSet_EMPTY in
  let bounds := match fy_minimum s, fy_maximum s with
                | Some minimum, Some maximum => Some (minimum, maximum)
                | _, _ => None
                end in
  (truths, bounds).
Definition insert_when (b : bool) (t : TruthValue.t) (s : TruthSet) : TruthSet :=
  if b then TruthSet_insert s t else s.
Definition presence_truths (true_possible false_possible : bool) : result TruthSet :=
  let truths := insert_when false_possible TruthValue.False
                  (insert_when true_possible TruthValue.True TruthSet_EMPTY) in
  if truths =? TruthSet_EMPTY then Err Corruption else Ok truths.

Section hash.
Variable xxh3_128 : Z → list Z → Z.

(** [minimum_order != Greater && maximum_order != Less && bloom_might_contain]. *)
Definition equality_possible (s : FieldSynopsis) (minimum_order maximum_order : comparison)
    (value : Value.t) (ty : DataType.t) (parameters : option BloomParameters) : result bool :=
  if bool_decide (minimum_order ≠ Gt) && bool_decide (maximum_order ≠ Lt)
  then bloom_might_contain xxh3_128 s value ty parameters else Ok false.
Definition compare_truths (s : FieldSynopsis) (op : CompareOp.t) (value : Value.t)
    (ty : DataType.t) (parameters : option BloomParameters) : result TruthSet :=
  let '(truths, bounds) := null_seeded_bounds s in
  match bounds with
  | None => Ok truths
  | Some (minimum, maximum) =>
      ok_or Corruption (typed_order minimum value) ≫= λ minimum_order,
      ok_or Corruption (typed_order maximum value) ≫= λ maximum_order,
      match op with
      | CompareOp.Eq | CompareOp.NotEq =>
          equality_possible s minimum_order maximum_order value ty parameters
            ≫= λ possible : bool,
          let certain := bool_decide (minimum_order = Eq) && bool_decide (maximum_order = Eq) in
          Ok (if bool_decide (op = CompareOp.Eq) then (possible, negb certain)
              else (negb certain, possible))
      | CompareOp.Lt => Ok (bool_decide (minimum_order = Lt), bool_decide (maximum_order ≠ Lt))
      | CompareOp.LessOrEqual =>
          Ok (bool_decide (minimum_order ≠ Gt), bool_decide (maximum_order = Gt))
      | CompareOp.Gt => Ok (bool_decide (maximum_order = Gt), bool_decide (minimum_order ≠ Gt))
      | CompareOp.GreaterOrEqual =>
          Ok (bool_decide (maximum_order ≠ Lt), bool_decide (minimum_order = Lt))
      end ≫= λ '(true_possible, false_possible),
      Ok (insert_when false_possible TruthValue.False
           (insert_when true_possible TruthValue.True truths))
  end.
(** The loop that sets [true_possible] and breaks. *)
Fixpoint in_possible_loop (s : FieldSynopsis) (minimum maximum : Value.t) (values : list Value.t)
    (ty : DataType.t) (parameters : option BloomParameters) : result bool :=
  match values with
  | [] => Ok false
  | value :: values =>
      ok_or Corruption (typed_order minimum value) ≫= λ minimum_order,
      ok_or Corruption (typed_order maximum value) ≫= λ maximum_order,
      equality_possible s minimum_order maximum_order value ty parameters ≫= λ possible : bool,
      if possible then Ok true else in_possible_loop s minimum maximum values ty parameters
  end.
Definition in_truths (s : FieldSynopsis) (values : list Value.t) (ty : DataType.t)
    (parameters : option BloomParameters) : result TruthSet :=
  if decide (values = []) then Ok TruthSet_FALSE
  else
    let '(truths, bounds) := null_seeded_bounds s in
    match bounds with
    | None => Ok truths
    | Some (minimum, maximum) =>
        in_possible_loop s minimum maximum values ty parameters ≫= λ true_possible,
        let truths := insert_when true_possible TruthValue.True truths in
        (if bool_decide (typed_order minimum maximum = Some Eq)
         then binary_search values (λ value, or_panic (typed_order value minimum))
         else Ok false) ≫= λ only_value_is_listed,
        Ok (insert_when (negb only_value_is_listed) TruthValue.False truths)
    end.

Fixpoint possible_truths (e : CompiledExpression.t) (m : IndexManifest) (s : PartitionSynopsis)
    : result TruthSet :=
  let fold := fix fold (op : TruthSet → TruthSet → TruthSet) (cs : list CompiledExpression.t)
      (acc : TruthSet) : result TruthSet :=
    match cs with
    | [] => Ok acc
    | c :: cs => possible_truths c m s ≫= λ t, fold op cs (op acc t)
    end in
  match e with
  | CompiledExpression.And cs => fold TruthSet_and cs TruthSet_TRUE
  | CompiledExpression.Or cs => fold TruthSet_or cs TruthSet_FALSE
  | CompiledExpression.Not c => possible_truths c m s ≫= λ t, Ok (TruthSet_not t)
  | CompiledExpression.Compare field op value =>
      synopsis_field m s field ≫= λ '(fy, ty, parameters), compare_truths fy op value ty parameters
  | CompiledExpression.In field values =>
      synopsis_field m s field ≫= λ '(fy, ty, parameters), in_truths fy values ty parameters
  | CompiledExpression.IsNull field =>
      synopsis_field m s field ≫= λ '(fy, _, _),
      presence_truths (fy_has_null fy) (negb (bool_decide (fy_minimum fy = None)))
  | CompiledExpression.IsNotNull field =>
      synopsis_field m s field ≫= λ '(fy, _, _),
      presence_truths (negb (bool_decide (fy_minimum fy = None))) (fy_has_null fy)
  end.

(** A referenced field the manifest lacks, or whose type or nullability differs. *)
Definition field_disagrees (m : IndexManifest) (cf : CompiledField) : bool :=
  match fields m !! cf_index cf with
  | None => true
  | Some field =>
      negb (bool_decide (fs_data_type field = cf_data_type cf))
      || negb (bool_decide (fs_nullable field = cf_nullable cf))
  end.
Definition classify (c : CompiledPredicate) (m : IndexManifest) (s : PartitionSynopsis)
    (entry_count : Z) : result SynopsisClassification.t :=
  if negb (len (fields m) =? cp_field_count c) || negb (is_ok (validate_synopsis_shape s m))
     || existsb (field_disagrees m) (cp_referenced_fields c)
  then Err Corruption
  else if entry_count =? 0 then Ok SynopsisClassification.NoMatch
  else if existsb (λ fy, negb (fy_has_null fy) && bool_decide (fy_minimum fy = None)) s
  then Err Corruption
  else
    possible_truths (cp_expression c) m s ≫= λ possible,
    if negb (TruthSet_contains possible TruthValue.True) then Ok SynopsisClassification.NoMatch
    else if possible =? TruthSet_TRUE then Ok SynopsisClassification.AllMatch
    else Ok SynopsisClassification.MayMatch.
End hash.

(** ** Reference semantics: SQL three-valued logic on the public predicate

    Written from SQL's rules and from the value domains alone: none of the
    code's truth tables, orderings or operator tables appears in it.

    A finite [f64] pattern of exponent field [e] and fraction [f] denotes
    [f * 2^-1074] when [e] is 0 and [(2^52 + f) * 2^(e - 1075)] otherwise; the
    numeral is that value times [2^1074]. *)
Definition f64_numeral_of (magnitude : Z) : Z :=
  let e := magnitude / 2 ^ 52 in
  let f := magnitude mod 2 ^ 52 in
  if e =? 0 then f else (2 ^ 52 + f) * 2 ^ (e - 1).
Definition f64_numeral (bits : Z) : Z :=
  if bits <? 2 ^ 63 then f64_numeral_of (bits mod 2 ^ 63) else - f64_numeral_of (bits mod 2 ^ 63).
(** The exponent field is not all ones. *)
Definition f64_number (bits : Z) : bool := (bits mod 2 ^ 63) / 2 ^ 52 <? 2047.
Fixpoint bytes_less (a b : list Z) : bool :=
  match a, b with
  | _, [] => false
  | [], _ :: _ => true
  | x :: a, y :: b => (x <? y) || ((x =? y) && bytes_less a b)
  end.
(** Values of one scalar domain, NULL, NaN and the infinities excluded, compare. *)
Definition sql_comparable (x y : Value.t) : bool :=
  match x, y with
  | Value.Bool _, Value.Bool _ | Value.I64 _, Value.I64 _ | Value.String _, Value.String _ => true
  | Value.F64 a, Value.F64 b => f64_number a && f64_number b
  | _, _ => false
  end.
Definition sql_less (x y : Value.t) : bool :=
  match x, y with
  | Value.Bool a, Value.Bool b => negb a && b
  | Value.I64 a, Value.I64 b => a <? b
  | Value.F64 a, Value.F64 b => f64_numeral a <? f64_numeral b
  | Value.String a, Value.String b => bytes_less a b
  | _, _ => false
  end.
Definition sql_same (x y : Value.t) : bool :=
  match x, y with
  | Value.Bool a, Value.Bool b => Bool.eqb a b
  | Value.I64 a, Value.I64 b => a =? b
  | Value.F64 a, Value.F64 b => f64_numeral a =? f64_numeral b
  | Value.String a, Value.String b => bool_decide (a = b)
  | _, _ => false
  end.
Definition sql_relates (op : CompareOp.t) (x y : Value.t) : bool :=
  match op with
  | CompareOp.Eq => sql_same x y
  | CompareOp.NotEq => negb (sql_same x y)
  | CompareOp.Lt => sql_less x y
  | CompareOp.LessOrEqual => sql_less x y || sql_same x y
  | CompareOp.Gt => sql_less y x
  | CompareOp.GreaterOrEqual => sql_less y x || sql_same x y
  end.
(** Truth as a number: FALSE is -1, UNKNOWN 0 and TRUE 1, so that AND is the
    minimum, OR the maximum and NOT the opposite. *)
Definition sql_number (b : bool) : Z := if b then 1 else -1.
Definition sql_compare (op : CompareOp.t) (stored : option Value.t) (literal : Value.t) : Z :=
  match stored with
  | Some v => if sql_comparable v literal then sql_number (sql_relates op v literal) else 0
  | None => 0
  end.
(** [x IN (a, b, ..)] is [x = a OR x = b OR ..], FALSE for the empty list. *)
Fixpoint sql_rank (row : list Value.t) (p : Predicate.t) : Z :=
  match p with
  | Predicate.And ps => foldr Z.min 1 (sql_rank row <$> ps)
  | Predicate.Or ps => foldr Z.max (-1) (sql_rank row <$> ps)
  | Predicate.Not p => - sql_rank row p
  | Predicate.Compare field op value => sql_compare op (row !! Z.to_nat field) value
  | Predicate.In field values =>
      foldr Z.max (-1) (sql_compare CompareOp.Eq (row !! Z.to_nat field) <$> values)
  | Predicate.IsNull field => sql_number (bool_decide (row !! Z.to_nat field = Some Value.Null))
  | Predicate.IsNotNull field => sql_number (bool_decide (row !! Z.to_nat field ≠ Some Value.Null))
  end.
Definition sql_truth (row : list Value.t) (p : Predicate.t) : TruthValue.t :=
  match sql_rank row p with
  | 1 => TruthValue.True
  | -1 => TruthValue.False
  | _ => TruthValue.Unknown
  end.

(** ** The same meaning through the code's truth tables

    [ref_truth] evaluates the public predicate with the connectives and the
    ordering of the code; [sql_truth_ref] shows that it is SQL's. *)
Definition ref_compare (op : CompareOp.t) (stored : option Value.t) (literal : Value.t)
    : TruthValue.t :=
  match stored with
  | Some v =>
      if Value_is_null v then TruthValue.Unknown
      else match typed_order v literal with
           | Some o => TruthValue_from_bool (compare_op op o)
           | None => TruthValue.Unknown
           end
  | None => TruthValue.Unknown
  end.
Definition ref_is_null (stored : option Value.t) : bool :=
  match stored with Some v => Value_is_null v | None => false end.
(** [x IN (a, b, ..)] is [x = a OR x = b OR ..], FALSE for the empty list. *)
Fixpoint ref_truth (row : list Value.t) (p : Predicate.t) : TruthValue.t :=
  match p with
  | Predicate.And ps => foldr TruthValue_and TruthValue.True (ref_truth row <$> ps)
  | Predicate.Or ps => foldr TruthValue_or TruthValue.False (ref_truth row <$> ps)
  | Predicate.Not p => TruthValue_not (ref_truth row p)
  | Predicate.Compare field op value => ref_compare op (row !! Z.to_nat field) value
  | Predicate.In field values =>
      foldr TruthValue_or TruthValue.False (ref_compare CompareOp.Eq (row !! Z.to_nat field) <$> values)
  | Predicate.IsNull field => TruthValue_from_bool (ref_is_null (row !! Z.to_nat field))
  | Predicate.IsNotNull field => TruthValue_from_bool (negb (ref_is_null (row !! Z.to_nat field)))
  end.
Lemma f64_numeral_mono a b : 0 <= a < b → f64_numeral_of a < f64_numeral_of b.
Proof.
  intros [Ha Hab]. unfold f64_numeral_of.
  pose proof (Z.div_mod a (2 ^ 52) ltac:(lia)) as Ea. pose proof (Z.mod_pos_bound a (2 ^ 52) ltac:(lia)) as Fa.
  pose proof (Z.div_mod b (2 ^ 52) ltac:(lia)) as Eb. pose proof (Z.mod_pos_bound b (2 ^ 52) ltac:(lia)) as Fb.
  set (ea := a / 2 ^ 52) in *. set (eb := b / 2 ^ 52) in *. set (fa := a mod 2 ^ 52) in *. set (fb := b mod 2 ^ 52) in *.
  assert (0 <= ea <= eb) as [H0 Hle] by lia.
  destruct (decide (ea = eb)) as [->|Hne].
  { destruct (Z.eqb_spec eb 0); [lia|]. pose proof (Z.pow_pos_nonneg 2 (eb - 1)). nia. }
  destruct (Z.eqb_spec eb 0); [lia|]. destruct (Z.eqb_spec ea 0) as [|Hea].
  - pose proof (Z.pow_pos_nonneg 2 (eb - 1)). nia.
  - pose proof (Z.pow_pos_nonneg 2 (ea - 1)). pose proof (Z.pow_le_mono_r 2 ea (eb - 1)).
    assert (2 ^ ea = 2 * 2 ^ (ea - 1)) by (rewrite <-Z.pow_succ_r by lia; f_equal; lia). nia.
Qed.
Lemma f64_numeral_cmp a b : (f64_numeral a ?= f64_numeral b) = F64.cmp a b.
Proof.
  unfold f64_numeral, F64.cmp, F64.value_key, F64.sign_negative, F64.magnitude. rewrite !Z.ltb_antisym.
  pose proof (Z.mod_pos_bound a (2 ^ 63) ltac:(lia)) as Ha. pose proof (Z.mod_pos_bound b (2 ^ 63) ltac:(lia)) as Hb.
  set (x := a mod 2 ^ 63) in *. set (y := b mod 2 ^ 63) in *.
  assert (∀ z, 0 <= z → 0 <= f64_numeral_of z ∧ (0 < z → 0 < f64_numeral_of z)) as Hpos.
  { intros z Hz. assert (f64_numeral_of 0 = 0) as E by reflexivity.
    destruct (decide (z = 0)) as [->|]; [rewrite E; lia|]. pose proof (f64_numeral_mono 0 z). lia. }
  pose proof (Hpos x) as [Px Qx]; [lia|]. pose proof (Hpos y) as [Py Qy]; [lia|].
  pose proof (f64_numeral_mono x y) as Mxy. pose proof (f64_numeral_mono y x) as Myx.
  assert (x = y → f64_numeral_of x = f64_numeral_of y) as Exy by by intros ->.
  assert (f64_numeral_of 0 = 0) as E0 by reflexivity.
  assert (x = 0 → f64_numeral_of x = 0) as Ex0 by by intros ->.
  assert (y = 0 → f64_numeral_of y = 0) as Ey0 by by intros ->.
  destruct (2 ^ 63 <=? a), (2 ^ 63 <=? b); cbn [negb];
    destruct (Z.compare_spec (f64_numeral_of x) (f64_numeral_of y)) as [?|?|?];
    repeat match goal with |- context [?u ?= ?v] => destruct (Z.compare_spec u v) end; done || lia.
Qed.
Lemma f64_number_finite bits : f64_number bits = F64.is_finite bits.
Proof.
  unfold f64_number, F64.is_finite, F64.magnitude. apply eq_true_iff_eq. rewrite !Z.ltb_lt.
  pose proof (Z.div_mod (bits mod 2 ^ 63) (2 ^ 52) ltac:(lia)). pose proof (Z.mod_pos_bound (bits mod 2 ^ 63) (2 ^ 52)). lia.
Qed.
Lemma bytes_less_lex a b : bytes_less a b = match lex_cmp a b with Lt => true | _ => false end.
Proof.
  revert b. induction a as [|x a IH]; intros [|y b]; try done. cbn [bytes_less lex_cmp]. rewrite IH.
  destruct (Z.compare_spec x y) as [->|?|?].
  - by rewrite Z.ltb_irrefl, Z.eqb_refl.
  - by rewrite (proj2 (Z.ltb_lt x y)).
  - rewrite (proj2 (Z.ltb_ge x y)), (proj2 (Z.eqb_neq x y)) by lia. done.
Qed.
(** The two orders of a scalar domain are the code's comparison. *)
Lemma sql_order x y :
  match typed_order x y with
  | Some o => sql_comparable x y = true ∧ sql_less x y = bool_decide (o = Lt) ∧
      sql_less y x = bool_decide (o = Gt) ∧ sql_same x y = bool_decide (o = Eq)
  | None => sql_comparable x y = false
  end.
Proof.
  destruct x as [|a|a|a|a], y as [|b|b|b|b]; try done; cbn [typed_order sql_comparable sql_less sql_same].
  - by destruct a, b.
  - split; [done|]. destruct (Z.compare_spec a b); split_and!; rewrite ?bool_decide_true, ?bool_decide_false by done; lia.
  - rewrite !f64_number_finite. destruct (_ && _); [|done]. rewrite <-f64_numeral_cmp. split; [done|].
    destruct (Z.compare_spec (f64_numeral a) (f64_numeral b)); split_and!;
      rewrite ?bool_decide_true, ?bool_decide_false by done; lia.
  - split; [done|]. rewrite !bytes_less_lex. split_and!.
    + by destruct (lex_cmp a b).
    + rewrite (lex_cmp_opp a b). by destruct (lex_cmp a b).
    + apply bool_decide_ext. by rewrite lex_cmp_eq.
Qed.

Definition truth_number (t : TruthValue.t) : Z :=
  match t with TruthValue.False => -1 | TruthValue.Unknown => 0 | TruthValue.True => 1 end.
Lemma truth_number_fold (f : TruthValue.t → TruthValue.t → TruthValue.t) (g : Z → Z → Z) a
    {A} (u : A → TruthValue.t) (v : A → Z) (l : list A) :
  (∀ x y, truth_number (f x y) = g (truth_number x) (truth_number y)) →
  Forall (λ x, v x = truth_number (u x)) l →
  foldr g (truth_number a) (v <$> l) = truth_number (foldr f a (u <$> l)).
Proof. intros Hf. induction 1 as [|x l Hx _ IH]; [done|]. rewrite !fmap_cons. cbn [foldr]. by rewrite Hf, Hx, IH. Qed.
Lemma sql_compare_ref op stored literal : sql_compare op stored literal = truth_number (ref_compare op stored literal).
Proof.
  destruct stored as [v|]; [|done]. cbn [sql_compare ref_compare].
  destruct (Value_is_null v) eqn:En; [by destruct v|]. pose proof (sql_order v literal) as H.
  destruct (typed_order v literal) as [o|]; [|by rewrite H]. destruct H as (-> & H1 & H2 & H3).
  unfold sql_relates. rewrite H1, H2, H3. by destruct op, o.
Qed.
Lemma sql_rank_ref row p : sql_rank row p = truth_number (ref_truth row p).
Proof.
  induction p as [ps IH|ps IH|p IH|f op v|f vs|f|f] using predicate_ind; cbn [sql_rank ref_truth].
  - apply (truth_number_fold TruthValue_and Z.min TruthValue.True); [by intros [] []|done].
  - apply (truth_number_fold TruthValue_or Z.max TruthValue.False); [by intros [] []|done].
  - rewrite IH. by destruct (ref_truth row p).
  - apply sql_compare_ref.
  - apply (truth_number_fold TruthValue_or Z.max TruthValue.False); [by intros [] []|].
    apply Forall_forall. intros x _. apply sql_compare_ref.
  - destruct (row !! Z.to_nat f) as [[]|]; done.
  - destruct (row !! Z.to_nat f) as [[]|]; done.
Qed.
Lemma sql_truth_ref row p : sql_truth row p = ref_truth row p.
Proof. unfold sql_truth. rewrite sql_rank_ref. by destruct (ref_truth row p). Qed.

(** The literals and the field references of a predicate. *)
Fixpoint literals (p : Predicate.t) : list Value.t :=
  match p with
  | Predicate.And ps | Predicate.Or ps => concat (literals <$> ps)
  | Predicate.Not p => literals p
  | Predicate.Compare _ _ value => [value]
  | Predicate.In _ values => values
  | Predicate.IsNull _ | Predicate.IsNotNull _ => []
  end.
Fixpoint referenced (p : Predicate.t) : list Z :=
  match p with
  | Predicate.And ps | Predicate.Or ps => concat (referenced <$> ps)
  | Predicate.Not p => referenced p
  | Predicate.Compare field _ _ | Predicate.In field _
  | Predicate.IsNull field | Predicate.IsNotNull field => [field]
  end.
(** The values a stored row holds in one field of the schema. *)
Definition stored_field (schema : list FieldSchema) (row : list Value.t) (field : Z) : bool :=
  match schema !! Z.to_nat field, row !! Z.to_nat field with
  | Some f, Some v => stored_valid (fs_data_type f) (fs_nullable f) v
  | _, _ => false
  end.
(** Whether the fields a predicate observes conform to the schema. *)
Definition row_conforms (schema : list FieldSchema) (p : Predicate.t) (row : list Value.t) : bool :=
  (len row =? len schema) && forallb (stored_field schema row) (referenced p).

(** A predicate whose literals were validated against a schema. *)
Definition literal_ok (f : FieldSchema) (v : Value.t) : Prop :=
  value_ok v ∧ typed_value (fs_data_type f) v = true.
Inductive predicate_valid (schema : list FieldSchema) : Predicate.t → Prop :=
  | valid_and ps : Forall (predicate_valid schema) ps → predicate_valid schema (Predicate.And ps)
  | valid_or ps : Forall (predicate_valid schema) ps → predicate_valid schema (Predicate.Or ps)
  | valid_not p : predicate_valid schema p → predicate_valid schema (Predicate.Not p)
  | valid_compare field op value f :
      schema !! Z.to_nat field = Some f → literal_ok f value →
      predicate_valid schema (Predicate.Compare field op value)
  | valid_in field values f :
      schema !! Z.to_nat field = Some f → Forall (literal_ok f) values →
      predicate_valid schema (Predicate.In field values)
  | valid_null field f :
      schema !! Z.to_nat field = Some f → predicate_valid schema (Predicate.IsNull field)
  | valid_not_null field f :
      schema !! Z.to_nat field = Some f → predicate_valid schema (Predicate.IsNotNull field).

(** ** Validation keeps the meaning *)
Lemma validate_for_literal v ty v' :
  value_ok v → validate_for v ty false = Ok v' →
  value_ok v' ∧ typed_value ty v' = true ∧ ∀ x, value_ok x → typed_order x v' = typed_order x v.
Proof.
  intros Hv H. pose proof (validate_for_ok _ _ _ _ Hv H) as [Hok [[_ ?]|Hty]]; [done|].
  split_and!; [done..|]. intros x Hx. destruct v; simpl in H; inv_ok; try done.
  destruct (F64.is_zero bits) eqn:Ez; [|done]. destruct x; try done. simpl.
  destruct (f64_cmp_zero bits bits0 Hv Ez) as [_ ->].
  by replace (F64.is_finite bits) with true.
Qed.
Lemma ref_compare_literal op row field v v' :
  Forall value_ok row → (∀ x, value_ok x → typed_order x v' = typed_order x v) →
  ref_compare op (row !! field) v' = ref_compare op (row !! field) v.
Proof.
  intros Hrow He. destruct (row !! field) as [x|] eqn:E; [|done]. simpl. rewrite He; [done|].
  by eapply Forall_lookup_1.
Qed.
Lemma validate_values_ok ty vs vs' :
  Forall value_ok vs → validate_values ty vs = Ok vs' →
  Forall2 (λ v v', value_ok v' ∧ typed_value ty v' = true ∧
    ∀ x, value_ok x → typed_order x v' = typed_order x v) vs vs'.
Proof.
  intros Hvs. revert vs'. induction Hvs as [|v vs Hv _ IH]; intros vs' H; cbn [validate_values] in H.
  { apply Ok_inj in H as <-. constructor. }
  apply bind_ok in H as (v1 & H1 & H). apply bind_ok in H as (vs1 & H2 & H). apply Ok_inj in H as <-.
  constructor; [by apply validate_for_literal|auto].
Qed.
Definition validate_children (schema : list FieldSchema) :=
  fix go (ps : list Predicate.t) (depth nodes : Z) : result (list Predicate.t * Z) :=
    match ps with
    | [] => Ok ([], nodes)
    | p :: ps =>
        validate_at schema p depth nodes ≫= λ '(p', nodes),
        go ps depth nodes ≫= λ '(ps', nodes), Ok (p' :: ps', nodes)
    end.
Lemma validate_children_ok schema ps depth nodes ps' n :
  validate_children schema ps depth nodes = Ok (ps', n) →
  Forall2 (λ p p', ∃ d k l, validate_at schema p d k = Ok (p', l)) ps ps'.
Proof.
  revert nodes ps' n. induction ps as [|p ps IH]; intros nodes ps' n H; cbn [validate_children] in H.
  { injection H as <- <-. constructor. }
  apply bind_ok in H as ([p' k] & H1 & H). apply bind_ok in H as ([ps1 l] & H2 & H). injection H as <- <-.
  constructor; eauto.
Qed.

Definition same_meaning (schema : list FieldSchema) (p p' : Predicate.t) : Prop :=
  predicate_valid schema p' ∧ referenced p' = referenced p ∧
  ∀ row, Forall value_ok row → ref_truth row p' = ref_truth row p.
Lemma children_meaning schema ps depth nodes ps' n :
  Forall (λ p, ∀ depth nodes p' n, Forall value_ok (literals p) →
    validate_at schema p depth nodes = Ok (p', n) → same_meaning schema p p') ps →
  Forall value_ok (concat (literals <$> ps)) → validate_children schema ps depth nodes = Ok (ps', n) →
  Forall (predicate_valid schema) ps' ∧ referenced <$> ps' = referenced <$> ps ∧
  ∀ row, Forall value_ok row → ref_truth row <$> ps' = ref_truth row <$> ps.
Proof.
  intros IH Hl H%validate_children_ok. induction H as [|p p' ps ps' (d & k & l & H) _ IHF]; [done|].
  apply Forall_cons_iff in IH as [Hp IH]. apply Forall_app in Hl as [Hlp Hl].
  destruct (Hp d k p' l Hlp H) as (? & Hr & Hs), (IHF IH Hl) as (? & Hrs & Hss).
  cbn [fmap list_fmap]. split; [by constructor|]. split; [f_equal; done|].
  intros row Hrow. rewrite Hs by done. f_equal. by apply Hss.
Qed.
Lemma validate_at_ok schema p depth nodes p' n :
  Forall value_ok (literals p) → validate_at schema p depth nodes = Ok (p', n) →
  same_meaning schema p p'.
Proof.
  revert depth nodes p' n. induction p as [ps IH|ps IH|p IH|f op v|f vs|f|f] using predicate_ind;
    intros depth nodes p' n Hl H; cbn [validate_at literals] in *; cbv zeta in H;
    (destruct (_ <=? _); [done|]); (destruct (_ || _); [done|]).
  - fold (validate_children schema) in H. apply bind_ok in H as ([ps' k] & H & He). injection He as <- <-.
    destruct (children_meaning _ _ _ _ _ _ IH Hl H) as (Hv & Hr & Hs). split; [by constructor|].
    cbn [referenced ref_truth]. rewrite Hr. split; [done|]. intros row Hrow. by rewrite Hs.
  - fold (validate_children schema) in H. apply bind_ok in H as ([ps' k] & H & He). injection He as <- <-.
    destruct (children_meaning _ _ _ _ _ _ IH Hl H) as (Hv & Hr & Hs). split; [by constructor|].
    cbn [referenced ref_truth]. rewrite Hr. split; [done|]. intros row Hrow. by rewrite Hs.
  - apply bind_ok in H as ([p1 k] & H & He). injection He as <- <-.
    destruct (IH _ _ _ _ Hl H) as (Hv & Hr & Hs). split; [by constructor|]. split; [done|].
    intros row Hrow. cbn [ref_truth]. by rewrite Hs.
  - destruct (Value_is_null v); [done|]. apply bind_ok in H as (fs & Hf%ok_or_ok & H).
    apply bind_ok in H as (v' & Hv & He). injection He as <- <-. apply Forall_cons_iff in Hl as [Hl _].
    apply validate_for_literal in Hv as (? & ? & Ho); [|done].
    split; [by econstructor|]. split; [done|]. intros row Hrow. by apply ref_compare_literal.
  - apply bind_ok in H as (fs & Hf%ok_or_ok & H). destruct (_ || _); [done|].
    apply bind_ok in H as (vs' & Hv & He). injection He as <- <-.
    apply validate_values_ok in Hv; [|done]. split; [|split; [done|]].
    + econstructor; [done|]. clear -Hv. induction Hv as [|v v' vs vs' (? & ? & _)]; by constructor.
    + intros row Hrow. cbn [ref_truth]. f_equal. clear -Hv Hrow.
      induction Hv as [|v v' vs vs' (_ & _ & Ho) _ IH]; [done|]. cbn [fmap list_fmap].
      f_equal; [by apply ref_compare_literal|done].
  - apply bind_ok in H as (fs & Hf%ok_or_ok & He). injection He as <- <-.
    split; [by econstructor|done].
  - apply bind_ok in H as (fs & Hf%ok_or_ok & He). injection He as <- <-.
    split; [by econstructor|done].
Qed.

(** ** Membership sets: sorting, deduplication, binary search *)
Definition cmp_le (a b : comparison) : Prop :=
  match a, b with Gt, Lt | Gt, Eq | Eq, Lt => False | _, _ => True end.
Lemma typed_order_mono a b x c1 c2 :
  typed_le a b → typed_order a x = Some c1 → typed_order b x = Some c2 → cmp_le c1 c2.
Proof.
  intros Hab H1 H2.
  assert (c1 = Gt → c2 = Gt) as HG.
  { intros ->. destruct (decide (c2 = Gt)) as [|Hn]; [done|].
    assert (typed_le a x) as (c & ? & ?) by (eapply typed_le_trans; [done|by exists c2]). congruence. }
  assert (c1 = Eq → c2 ≠ Lt) as HE.
  { intros -> ->. apply typed_order_opp in H1, H2.
    assert (typed_le x b) as (c & ? & ?) by (eapply typed_le_trans; [by exists Eq|done]).
    simpl in *. congruence. }
  destruct c1, c2; naive_solver.
Qed.

Section search.
Context (values : list Value.t) (f : Value.t → result comparison) (g : Value.t → comparison).
Hypothesis defined : ∀ i v, values !! i = Some v → f v = Ok (g v).
Hypothesis mono : ∀ i j a b, (i ≤ j)%nat → values !! i = Some a → values !! j = Some b → cmp_le (g a) (g b).

Lemma search_loop_ok fuel base size :
  (size ≤ fuel)%nat → (1 ≤ size)%nat → (base + size ≤ length values)%nat →
  (base = 0%nat ∨ ∃ v, values !! base = Some v ∧ g v ≠ Gt) →
  (∀ k v, (base + size ≤ k)%nat → values !! k = Some v → g v = Gt) →
  ∃ b, search_loop fuel values f base size = Ok b ∧ (b < length values)%nat ∧
    (b = 0%nat ∨ ∃ v, values !! b = Some v ∧ g v ≠ Gt) ∧
    (∀ k v, (b < k)%nat → values !! k = Some v → g v = Gt).
Proof.
  revert base size. induction fuel as [|fuel IH]; intros base size Hf Hs Hb Hlow Hhigh; [lia|].
  cbn [search_loop]. case_decide as Hd.
  2:{ exists base. split_and!; [done|lia|done|]. intros k v Hk. apply Hhigh. lia. }
  cbv zeta. pose proof (Nat.div_lt size 2 ltac:(lia) ltac:(lia)).
  pose proof (Nat.div_str_pos size 2 ltac:(lia)).
  pose proof (Nat.Div0.mul_div_le size 2). set (half := (size / 2)%nat) in *.
  destruct (lookup_lt_is_Some_2 values (base + half)) as [x Hx]; [lia|].
  rewrite Hx. cbn [or_panic mbind result_bind]. rewrite (defined _ _ Hx). cbn [mbind result_bind].
  destruct (decide (g x = Gt)) as [Hg|Hg].
  - rewrite Hg. apply IH; try lia; [done|]. intros k v Hk Hv.
    destruct (decide (base + size ≤ k)%nat); [eauto|].
    assert (cmp_le (g x) (g v)) as Hm by (eapply (mono (base + half) k); [|done..]; lia).
    rewrite Hg in Hm. by destruct (g v).
  - replace (match g x with Gt => base | _ => (base + half)%nat end) with (base + half)%nat by by destruct (g x).
    apply IH; try lia; [right; eauto|]. intros k v Hk. apply Hhigh. lia.
Qed.
Lemma binary_search_ok :
  binary_search values f = Ok (existsb (λ v, bool_decide (g v = Eq)) values).
Proof.
  unfold binary_search. case_decide as Hl; [by destruct values|].
  destruct (search_loop_ok (length values) 0 (length values)) as (b & -> & Hb & Hlow & Hhigh); try lia.
  { intros k v Hk Hv. apply lookup_lt_Some in Hv. lia. }
  cbn [mbind result_bind]. destruct (lookup_lt_is_Some_2 _ _ Hb) as [x Hx]. rewrite Hx.
  cbn [or_panic mbind result_bind]. rewrite (defined _ _ Hx). cbn [mbind result_bind]. f_equal. symmetry. destruct (bool_decide (g x = Eq)) eqn:E.
  { apply existsb_exists. exists x. split; [|done]. by eapply list_elem_of_In, list_elem_of_lookup_2. }
  apply not_true_is_false. intros (v & Hv & Hg)%existsb_exists. apply bool_decide_eq_true in Hg.
  apply list_elem_of_In, list_elem_of_lookup in Hv as [k Hk]. apply bool_decide_eq_false in E.
  destruct (decide (b < k)%nat) as [Hlt|Hge]; [specialize (Hhigh k v Hlt Hk); congruence|].
  pose proof (mono k b v x ltac:(lia) Hk Hx) as Hm. rewrite Hg in Hm.
  destruct Hlow as [->|(y & Hy & Hn)].
  - assert (k = 0%nat) as -> by lia. congruence.
  - rewrite Hx in Hy. injection Hy as <-. by destruct (g x).
Qed.
End search.

Definition typed_values (ty : DataType.t) (vs : list Value.t) : Prop :=
  Forall (λ v, value_ok v ∧ typed_value ty v = true) vs.
Lemma sort_insert_ok ty v l :
  typed_value ty v = true → typed_values ty l → StronglySorted typed_le l →
  ∃ l', sort_insert v l = Ok l' ∧ l' ≡ₚ v :: l ∧ StronglySorted typed_le l'.
Proof.
  intros Hv. induction l as [|x l IH]; intros Hl Hs; cbn [sort_insert].
  { exists [v]. split_and!; [done..|]. repeat constructor. }
  apply Forall_cons_iff in Hl as [[_ Hx] Hl]. inversion Hs as [|? ? Hs' Hall]; subst.
  destruct (typed_order_some ty v x Hv Hx) as [c Hc]. rewrite Hc. cbn [or_panic mbind result_bind].
  destruct (decide (c = Gt)) as [->|Hn].
  - destruct (IH Hl Hs') as (l' & -> & Hp & Hs1). cbn [mbind result_bind]. exists (x :: l').
    split_and!; [done|by rewrite Hp, Permutation_swap|]. constructor; [done|]. rewrite Hp. constructor; [|done].
    exists Lt. split; [|done]. by apply typed_order_opp in Hc.
  - exists (v :: x :: l). assert (typed_le v x) by by exists c.
    split_and!; [by destruct c|done|]. constructor; [done|]. constructor; [done|].
    eapply Forall_impl; [|exact Hall]. intros y ?. by eapply typed_le_trans.
Qed.
Lemma sort_values_ok ty vs :
  typed_values ty vs → ∃ l, sort_values vs = Ok l ∧ l ≡ₚ vs ∧ StronglySorted typed_le l.
Proof.
  induction vs as [|v vs IH]; intros Hl; [exists []; by repeat constructor|].
  pose proof Hl as [[_ Hv] Hvs]%Forall_cons_iff. destruct (IH Hvs) as (l & E & Hp & Hs).
  destruct (sort_insert_ok ty v l Hv) as (l' & E' & Hp' & Hs'); [by unfold typed_values; rewrite Hp|done|].
  exists l'. cbn [sort_values]. rewrite E. split_and!; [done|by rewrite Hp', Hp|done].
Qed.
Lemma dedup_after_ok ty kept l :
  value_ok kept → typed_value ty kept = true → typed_values ty l → StronglySorted typed_le (kept :: l) →
  StronglySorted typed_le (kept :: dedup_after kept l) ∧
  ∀ v, v ∈ kept :: dedup_after kept l ↔ v ∈ kept :: l.
Proof.
  revert kept. induction l as [|x l IH]; intros kept Hk Tk Hl Hs; [done|]. cbn [dedup_after].
  pose proof Hl as [[Hx Tx] Hl']%Forall_cons_iff. inversion Hs as [|? ? Hs' Hall]; subst.
  pose proof Hall as [Hkx Hkl]%Forall_cons_iff. inversion Hs' as [|? ? Hs'' Hall']; subst.
  case_bool_decide as He.
  - apply (typed_order_eq ty) in He as ->; [|done..].
    destruct (IH kept Hk Tk Hl') as [Hd Hm]; [by constructor|]. split; [done|]. set_solver.
  - destruct (IH x Hx Tx Hl' Hs') as [Hd Hm]. split; [|set_solver]. constructor; [done|].
    apply Forall_forall. intros y Hy. apply list_elem_of_In, Hm in Hy.
    eapply Forall_forall in Hall; [done|]. by apply list_elem_of_In.
Qed.
Lemma CompiledIn_compile_ok ty vs :
  typed_values ty vs →
  ∃ l, CompiledIn_compile vs = Ok l ∧ StronglySorted typed_le l ∧ ∀ v, v ∈ l ↔ v ∈ vs.
Proof.
  intros Hvs. destruct (sort_values_ok ty vs Hvs) as (l & E & Hp & Hs). unfold CompiledIn_compile.
  rewrite E. cbn [mbind result_bind]. exists (dedup_values l). split; [done|].
  assert (typed_values ty l) as Hl by (unfold typed_values; by rewrite Hp).
  assert (∀ v, v ∈ l ↔ v ∈ vs) as Hm by (intros; by rewrite Hp). clear Hp E Hvs.
  destruct l as [|x l]; [done|]. pose proof Hl as [[Hx Tx] Hl']%Forall_cons_iff. cbn [dedup_values].
  destruct (dedup_after_ok ty x l Hx Tx Hl' Hs) as [? Hd]. split; [done|]. intros v. by rewrite Hd.
Qed.
Lemma sorted_lookup l i j a b :
  StronglySorted typed_le l → (i < j)%nat → l !! i = Some a → l !! j = Some b → typed_le a b.
Proof.
  intros Hs. revert i j. induction Hs as [|x l _ IH Hall]; intros [|i] [|j] Hij Ha Hb; try lia; try done.
  - injection Ha as <-. by eapply Forall_lookup_1.
  - eapply IH; [|done..]. lia.
Qed.
(** Searching a compiled set decides membership. *)
Lemma binary_search_member ty l x :
  typed_values ty l → StronglySorted typed_le l → value_ok x → typed_value ty x = true →
  binary_search l (λ v, or_panic (typed_order v x)) = Ok (bool_decide (x ∈ l)).
Proof.
  intros Hl Hs Hx Tx. set (g := λ v, default Eq (typed_order v x)).
  assert (∀ i v, l !! i = Some v → typed_order v x = Some (g v)) as Hg.
  { intros i v [_ Tv]%(Forall_lookup_1 _ _ _ _ Hl). unfold g.
    by destruct (typed_order_some ty v x Tv Tx) as [c ->]. }
  rewrite (binary_search_ok l _ g).
  - f_equal. apply eq_true_iff_eq. rewrite bool_decide_eq_true, existsb_exists. split.
    + intros (v & [i Hi]%list_elem_of_In%list_elem_of_lookup & Hv%bool_decide_eq_true).
      pose proof (Hg i v Hi) as Hgv. rewrite Hv in Hgv.
      pose proof (Forall_lookup_1 _ _ _ _ Hl Hi) as [? ?].
      apply (typed_order_eq ty) in Hgv as ->; [|done..]. by eapply list_elem_of_lookup_2.
    + intros Hin. exists x. split; [by apply list_elem_of_In|]. apply bool_decide_eq_true.
      unfold g. by rewrite (typed_order_refl ty x Tx).
  - intros i v Hi. by rewrite (Hg i v Hi).
  - intros i j a b Hij Ha Hb. destruct (decide (i = j)) as [->|].
    { assert (a = b) as -> by congruence. by destruct (g b). }
    eapply typed_order_mono; [|by eapply Hg..].
    eapply sorted_lookup; [done| |done..]. lia.
Qed.

(** ** Compilation *)
Lemma compile_total schema p : predicate_valid schema p → ∃ e, compile_expression p = Ok e.
Proof.
  induction p as [ps IH|ps IH|p IH|f op v|f vs|f|f] using predicate_ind;
    intros Hv; inversion Hv as [? Hps|? Hps| | |? ? fs Hf Hvs| |]; subst; cbn [compile_expression]; try by eexists.
  1,2: assert (∃ cs, mapM compile_expression ps = Ok cs) as [cs ->]; [|by eexists];
    clear Hv; induction ps as [|p ps IHps]; [by eexists|];
    apply Forall_cons_iff in Hps as [Hp Hps], IH as [IH IHs];
    destruct (IH Hp) as [c Hc], (IHps IHs Hps) as [cs Hcs];
    exists (c :: cs); apply mapM_ok; constructor; [done|by apply mapM_ok].
  - destruct IH as [c ->]; [done|]. by eexists.
  - destruct (CompiledIn_compile_ok (fs_data_type fs) vs Hvs) as (l & -> & _). by eexists.
Qed.

(** ** Evaluation meets the SQL semantics *)
Lemma stored_valid_typed ty nullable v :
  value_ok v → stored_valid ty nullable v = true → Value_is_null v = false → typed_value ty v = true.
Proof.
  destruct v; cbn [stored_valid Value_is_null typed_value value_ok]; intros Hv Hs Hn; try done; bprop.
  - subst. done.
  - subst. done.
  - destruct Hs as [[-> Hf] Hz]. cbn [typed_value]. unfold F64.canonical. rewrite Hf. cbn [andb].
    destruct (F64.is_zero bits) eqn:Ez; [|done]. destruct Hz as [|E]; [done|]. by subst.
  - destruct Hs as [-> Hl]. cbn [typed_value]. by apply Z.leb_le.
Qed.
Lemma foldr_or_existsb {A} (f : A → bool) l :
  foldr TruthValue_or TruthValue.False ((λ x, TruthValue_from_bool (f x)) <$> l)
  = TruthValue_from_bool (existsb f l).
Proof.
  induction l as [|x l IH]; [done|]. rewrite fmap_cons. cbn [foldr existsb]. rewrite IH.
  by destruct (f x), (existsb f l).
Qed.
Lemma foldr_or_unknown {A} (f : A → TruthValue.t) l :
  (∀ x, f x = TruthValue.Unknown) → l ≠ [] →
  foldr TruthValue_or TruthValue.False (f <$> l) = TruthValue.Unknown.
Proof.
  intros Hf. induction l as [|x l IH]; [done|]. intros _. rewrite fmap_cons. cbn [foldr]. rewrite Hf.
  destruct l; [done|]. by rewrite IH.
Qed.
(** Membership of a stored value in a literal list, in both semantics. *)
Lemma ref_in_typed ty x vs :
  value_ok x → typed_value ty x = true → typed_values ty vs →
  foldr TruthValue_or TruthValue.False (ref_compare CompareOp.Eq (Some x) <$> vs)
  = TruthValue_from_bool (bool_decide (x ∈ vs)).
Proof.
  intros Hx Tx Hvs.
  assert (ref_compare CompareOp.Eq (Some x) <$> vs = (λ v, TruthValue_from_bool (bool_decide (x = v))) <$> vs) as ->.
  { induction Hvs as [|v vs [Hv Tv] _ IH]; [done|]. cbn [fmap list_fmap]. f_equal; [|exact IH]. cbn [ref_compare].
    assert (Value_is_null x = false) as -> by by destruct ty, x.
    destruct (typed_order_some ty x v Tx Tv) as [c Hc]. rewrite Hc. cbn [compare_op]. f_equal.
    apply bool_decide_ext. split; [|intros ->; rewrite (typed_order_refl ty v Tv) in Hc; congruence].
    intros ->. by eapply typed_order_eq. }
  rewrite foldr_or_existsb. f_equal. apply eq_true_iff_eq. rewrite bool_decide_eq_true, existsb_exists. split.
  - intros (v & Hin%list_elem_of_In & Hv%bool_decide_eq_true). by subst.
  - intros Hin. exists x. split; [by apply list_elem_of_In|]. by apply bool_decide_eq_true.
Qed.
Lemma CompiledIn_evaluate_ok ty nullable vs l x :
  typed_values ty vs → CompiledIn_compile vs = Ok l → value_ok x → stored_valid ty nullable x = true →
  CompiledIn_evaluate l x = Ok (foldr TruthValue_or TruthValue.False (ref_compare CompareOp.Eq (Some x) <$> vs)).
Proof.
  intros Hvs Hl Hx Hs. destruct (CompiledIn_compile_ok ty vs Hvs) as (l' & E & Hsort & Hm).
  rewrite E in Hl. apply Ok_inj in Hl as <-. unfold CompiledIn_evaluate.
  case_decide as Hn.
  { subst. destruct vs as [|v vs]; [done|]. destruct (Hm v) as [_ H]. exfalso. revert H. set_solver. }
  assert (vs ≠ []) as Hne by (intros ->; destruct l' as [|y l']; [done|]; destruct (Hm y) as [H _]; set_solver).
  destruct (Value_is_null x) eqn:En.
  { rewrite foldr_or_unknown; [done| |done]. intros v. cbn [ref_compare]. by rewrite En. }
  pose proof (stored_valid_typed ty nullable x Hx Hs En) as Tx.
  assert (typed_values ty l') as Hl'.
  { apply Forall_forall. intros v Hv%list_elem_of_In%Hm. eapply Forall_forall in Hvs; [done|]. by apply list_elem_of_In. }
  rewrite (binary_search_member ty) by done. cbn [mbind result_bind]. rewrite (ref_in_typed ty) by done.
  do 2 f_equal. by apply bool_decide_ext.
Qed.

Definition eval_all (row : list Value.t) :=
  fix all (cs : list CompiledExpression.t) (acc : TruthValue.t) : result TruthValue.t :=
    match cs with
    | [] => Ok acc
    | c :: cs =>
        evaluate c row ≫= λ t,
        match t with
        | TruthValue.False => Ok TruthValue.False
        | TruthValue.Unknown => all cs TruthValue.Unknown
        | TruthValue.True => all cs acc
        end
    end.
Definition eval_any (row : list Value.t) :=
  fix any (cs : list CompiledExpression.t) (acc : TruthValue.t) : result TruthValue.t :=
    match cs with
    | [] => Ok acc
    | c :: cs =>
        evaluate c row ≫= λ t,
        match t with
        | TruthValue.True => Ok TruthValue.True
        | TruthValue.Unknown => any cs TruthValue.Unknown
        | TruthValue.False => any cs acc
        end
    end.
Lemma eval_all_ok row cs ts acc :
  Forall2 (λ c t, evaluate c row = Ok t) cs ts → acc ≠ TruthValue.False →
  eval_all row cs acc = Ok (TruthValue_and acc (foldr TruthValue_and TruthValue.True ts)).
Proof.
  intros H. revert acc. induction H as [|c t cs ts H _ IH]; intros acc Ha; cbn [eval_all foldr];
    [by destruct acc|]. rewrite H. cbn [mbind result_bind].
  destruct t; [by destruct acc|rewrite IH by done|rewrite IH by done];
    by destruct acc, (foldr TruthValue_and TruthValue.True ts).
Qed.
Lemma eval_any_ok row cs ts acc :
  Forall2 (λ c t, evaluate c row = Ok t) cs ts → acc ≠ TruthValue.True →
  eval_any row cs acc = Ok (TruthValue_or acc (foldr TruthValue_or TruthValue.False ts)).
Proof.
  intros H. revert acc. induction H as [|c t cs ts H _ IH]; intros acc Ha; cbn [eval_any foldr];
    [by destruct acc|]. rewrite H. cbn [mbind result_bind].
  destruct t; [rewrite IH by done|by destruct acc|rewrite IH by done];
    by destruct acc, (foldr TruthValue_or TruthValue.False ts).
Qed.
(** The children of a conjunction or disjunction evaluate to their SQL truths. *)
Lemma children_evaluate schema row ps cs :
  Forall (λ p, ∀ e, predicate_valid schema p → compile_expression p = Ok e →
    forallb (stored_field schema row) (referenced p) = true → evaluate e row = Ok (ref_truth row p)) ps →
  Forall (predicate_valid schema) ps → Forall2 (λ p c, compile_expression p = Ok c) ps cs →
  forallb (stored_field schema row) (concat (referenced <$> ps)) = true →
  Forall2 (λ c t, evaluate c row = Ok t) cs (ref_truth row <$> ps).
Proof.
  intros IH Hv Hc Hr. induction Hc as [|p c ps cs Hp _ IHF]; [constructor|].
  rewrite fmap_cons. rewrite fmap_cons, concat_cons, forallb_app in Hr. apply andb_true_iff in Hr as [Hr1 Hr].
  apply Forall_cons_iff in IH as [IH IHs], Hv as [Hv Hvs]. constructor; auto.
Qed.
Lemma stored_field_ok schema row field f :
  Forall value_ok row → schema !! Z.to_nat field = Some f → forallb (stored_field schema row) [field] = true →
  ∃ v, row !! Z.to_nat field = Some v ∧ value_ok v ∧ stored_valid (fs_data_type f) (fs_nullable f) v = true.
Proof.
  intros Hrow Hf. cbn [forallb]. unfold stored_field. rewrite Hf, andb_true_r.
  destruct (row !! Z.to_nat field) as [v|] eqn:E; [|done]. intros. exists v. split_and!; try done.
  by eapply Forall_lookup_1.
Qed.
Lemma evaluate_ok schema row p e :
  Forall value_ok row → predicate_valid schema p → compile_expression p = Ok e →
  forallb (stored_field schema row) (referenced p) = true → evaluate e row = Ok (ref_truth row p).
Proof.
  intros Hrow. revert e. induction p as [ps IH|ps IH|p IH|f op v|f vs|f|f] using predicate_ind;
    intros e Hv He Hr; inversion Hv as [? Hps|? Hps|? Hp|? ? ? fs Hf Hl|? ? fs Hf Hvs|? fs Hf|? fs Hf]; subst;
    cbn [compile_expression referenced ref_truth] in *.
  - apply bind_ok in He as (cs & Hcs & He). apply Ok_inj in He as <-. apply mapM_ok in Hcs.
    cbn [evaluate]. fold (eval_all row).
    rewrite (eval_all_ok row cs (ref_truth row <$> ps)); [|by eapply children_evaluate|done].
    by destruct (foldr TruthValue_and TruthValue.True (ref_truth row <$> ps)).
  - apply bind_ok in He as (cs & Hcs & He). apply Ok_inj in He as <-. apply mapM_ok in Hcs.
    cbn [evaluate]. fold (eval_any row).
    rewrite (eval_any_ok row cs (ref_truth row <$> ps)); [|by eapply children_evaluate|done].
    by destruct (foldr TruthValue_or TruthValue.False (ref_truth row <$> ps)).
  - apply bind_ok in He as (c & Hc & He). apply Ok_inj in He as <-. cbn [evaluate]. by rewrite (IH c).
  - apply Ok_inj in He as <-. destruct (stored_field_ok schema row f fs Hrow Hf Hr) as (x & Hx & Hok & Hs).
    cbn [evaluate]. rewrite Hx. cbn [or_panic mbind result_bind ref_compare].
    destruct (Value_is_null x) eqn:En; [done|]. destruct Hl as [_ Tv].
    pose proof (stored_valid_typed _ _ x Hok Hs En) as Tx.
    destruct (typed_order_some _ x v Tx Tv) as [c Hc]. unfold compare, stored_order. by rewrite Hc.
  - apply bind_ok in He as (l & Hl & He). apply Ok_inj in He as <-.
    destruct (stored_field_ok schema row f fs Hrow Hf Hr) as (x & Hx & Hok & Hs).
    cbn [evaluate]. rewrite Hx. cbn [or_panic mbind result_bind]. by eapply CompiledIn_evaluate_ok.
  - apply Ok_inj in He as <-. destruct (stored_field_ok schema row f fs Hrow Hf Hr) as (x & Hx & _ & _).
    cbn [evaluate]. by rewrite Hx.
  - apply Ok_inj in He as <-. destruct (stored_field_ok schema row f fs Hrow Hf Hr) as (x & Hx & _ & _).
    cbn [evaluate]. by rewrite Hx.
Qed.

(** ** Referenced fields *)
Definition mark_children :=
  fix go (ps : list Predicate.t) (flags : list bool) : result (list bool) :=
    match ps with
    | [] => Ok flags
    | p :: ps => mark_referenced_fields p flags ≫= go ps
    end.
(** [flags'] is [flags] with the listed fields marked. *)
Definition marked (fs : list Z) (flags flags' : list bool) : Prop :=
  length flags' = length flags ∧
  ∀ i, flags' !! i = Some true ↔ flags !! i = Some true ∨ i ∈ Z.to_nat <$> fs.
Lemma mark_ok field flags :
  (Z.to_nat field < length flags)%nat → ∃ flags', mark field flags = Ok flags' ∧ marked [field] flags flags'.
Proof.
  intros Hl. unfold mark. destruct (lookup_lt_is_Some_2 _ _ Hl) as [b ->]. cbn [or_panic mbind result_bind].
  eexists. split; [done|]. split; [apply length_insert|]. intros i. cbn [fmap list_fmap].
  destruct (decide (i = Z.to_nat field)) as [->|Hne].
  - rewrite list_lookup_insert_eq by done. set_solver.
  - rewrite list_lookup_insert_ne by done. set_solver.
Qed.
Lemma mark_referenced_ok schema p flags :
  predicate_valid schema p → length flags = length schema →
  ∃ flags', mark_referenced_fields p flags = Ok flags' ∧ marked (referenced p) flags flags'.
Proof.
  revert flags. induction p as [ps IH|ps IH|p IH|f op v|f vs|f|f] using predicate_ind;
    intros flags Hv Hl; inversion Hv as [? Hps|? Hps|? Hp|? ? ? fs Hf _|? ? fs Hf _|? fs Hf|? fs Hf]; subst;
    cbn [mark_referenced_fields referenced];
    try (apply mark_ok; rewrite Hl; by eapply lookup_lt_Some); [| |by apply IH].
  all: fold mark_children; clear Hv; revert flags Hl; induction ps as [|p ps IHps]; intros flags Hl;
    [exists flags; split; [done|]; split; [done|]; intros; cbn [fmap list_fmap concat]; set_solver|].
  all: apply Forall_cons_iff in Hps as [Hp Hps], IH as [IH IHs]; destruct (IH flags Hp Hl) as (fl1 & E1 & L1 & M1);
    destruct (IHps IHs Hps fl1) as (fl2 & E2 & L2 & M2); [congruence|];
    exists fl2; cbn [mark_children]; rewrite E1; cbn [mbind result_bind]; split; [done|]; split; [congruence|];
    intros i; rewrite M2, M1, fmap_cons, concat_cons, fmap_app, elem_of_app; tauto.
Qed.
Lemma compiled_fields_ok schema index flags :
  length flags = (index + length schema)%nat →
  ∃ cfs, compiled_fields schema index flags = Ok cfs ∧
    ∀ cf, cf ∈ cfs ↔ ∃ i f, schema !! i = Some f ∧ flags !! (index + i)%nat = Some true ∧
      cf = mkCompiledField (index + i) (fs_data_type f) (fs_nullable f).
Proof.
  revert index. induction schema as [|f schema IH]; intros index Hl; cbn [compiled_fields].
  { exists []. split; [done|]. set_solver. }
  cbn [length] in Hl. destruct (lookup_lt_is_Some_2 flags index) as [r Hr]; [lia|]. rewrite Hr.
  cbn [or_panic mbind result_bind]. destruct (IH (S index)) as (cfs & -> & Hm); [lia|]. cbn [mbind result_bind].
  eexists. split; [done|]. intros cf.
  assert (cf ∈ cfs ↔ ∃ i f0, (f :: schema) !! S i = Some f0 ∧ flags !! (index + S i)%nat = Some true ∧
    cf = mkCompiledField (index + S i) (fs_data_type f0) (fs_nullable f0)) as Hm'.
  { rewrite Hm. split; intros (i & f0 & H1 & H2 & H3); exists i, f0; simpl in *;
      rewrite Nat.add_succ_r in *; done. }
  assert (cf ∈ (if r then mkCompiledField index (fs_data_type f) (fs_nullable f) :: cfs else cfs) ↔
    (r = true ∧ cf = mkCompiledField index (fs_data_type f) (fs_nullable f)) ∨ cf ∈ cfs) as ->
    by (destruct r; set_solver).
  rewrite Hm'. split.
  - intros [[-> ->]|(i & f0 & ?)]; [|by exists (S i), f0]. exists 0%nat, f. by rewrite Nat.add_0_r.
  - intros ([|i] & f0 & H1 & H2 & ->); [left|right; by exists i, f0].
    injection H1 as <-. rewrite Nat.add_0_r in *. split; congruence.
Qed.
Lemma validate_stored_loop_ok cfs row :
  Forall (λ cf, (cf_index cf < length row)%nat) cfs →
  validate_stored_loop cfs row =
    if forallb (λ cf, match row !! cf_index cf with
                      | Some v => stored_valid (cf_data_type cf) (cf_nullable cf) v | None => false end) cfs
    then Ok tt else Err Corruption.
Proof.
  induction 1 as [|cf cfs Hc _ IH]; [done|]. cbn [validate_stored_loop forallb].
  destruct (lookup_lt_is_Some_2 _ _ Hc) as [v ->]. cbn [or_panic mbind result_bind].
  by destruct (stored_valid _ _ v).
Qed.
Lemma compile_ok schema p c :
  Forall value_ok (literals p) → CompiledPredicate_compile p schema = Ok c →
  ∃ p' flags, same_meaning schema p p' ∧ compile_expression p' = Ok (cp_expression c) ∧
    cp_field_count c = len schema ∧ marked (referenced p) (replicate (length schema) false) flags ∧
    ∀ cf, cf ∈ cp_referenced_fields c ↔ ∃ i f, schema !! i = Some f ∧ flags !! i = Some true ∧
      cf = mkCompiledField i (fs_data_type f) (fs_nullable f).
Proof.
  intros Hl H. unfold CompiledPredicate_compile, Predicate_validate in H.
  apply bind_ok in H as (p' & Hp & H). apply bind_ok in Hp as ([p1 n] & Hp & He). apply Ok_inj in He as ->.
  apply validate_at_ok in Hp as Hm; [|done]. pose proof Hm as (Hv & Hr & _).
  destruct (mark_referenced_ok schema p' (replicate (length schema) false) Hv) as (flags & Ef & Hfl);
    [by rewrite length_replicate|].
  rewrite Ef in H. cbn [mbind result_bind] in H. pose proof Hfl as [Hlen _]. rewrite length_replicate in Hlen.
  destruct (compiled_fields_ok schema 0 flags) as (cfs & Ec & Hcf); [lia|]. rewrite Ec in H.
  cbn [mbind result_bind] in H. apply bind_ok in H as (e & Hce & H). apply Ok_inj in H as <-.
  exists p', flags. rewrite <-Hr. by split_and!.
Qed.

Lemma validate_stored_fields_ok schema p c row :
  Forall value_ok (literals p) → CompiledPredicate_compile p schema = Ok c →
  validate_stored_fields c row = if row_conforms schema p row then Ok tt else Err Corruption.
Proof.
  intros Hl H. destruct (compile_ok schema p c Hl H) as (p' & flags & (Hv & Hr & _) & _ & Hc & [Hfl Hm] & Hcf).
  rewrite length_replicate in Hfl. unfold validate_stored_fields, row_conforms. rewrite Hc.
  destruct (Z.eqb_spec (len row) (len schema)) as [El|]; [|done]. cbn [negb andb].
  assert (length row = length schema) as Elen by (unfold len in El; lia).
  rewrite validate_stored_loop_ok.
  2:{ apply Forall_forall. intros cf (i & f & Hi & _ & ->)%list_elem_of_In%Hcf. simpl. rewrite Elen.
      by eapply lookup_lt_Some. }
  assert (∀ b b' : bool, (b = true ↔ b' = true) →
    (if b then Ok tt else Err Corruption) = (if b' then Ok tt else Err Corruption : result unit)) as Hif
    by (intros [] []; naive_solver).
  apply Hif. rewrite !forallb_forall. split.
  - intros Hall field Hin. assert (is_Some (schema !! Z.to_nat field)) as [f Hf].
    { apply lookup_lt_is_Some. rewrite <-Hfl. eapply lookup_lt_Some. apply Hm. right.
      apply list_elem_of_In in Hin. apply list_elem_of_fmap. eauto. }
    specialize (Hall (mkCompiledField (Z.to_nat field) (fs_data_type f) (fs_nullable f))).
    unfold stored_field. rewrite Hf. cbn [cf_index cf_data_type cf_nullable] in Hall. apply Hall.
    apply list_elem_of_In, Hcf. exists (Z.to_nat field), f. split_and!; try done. apply Hm. right.
    apply list_elem_of_fmap. exists field. split; [done|]. by apply list_elem_of_In.
  - intros Hall cf Hin%list_elem_of_In. apply Hcf in Hin as (i & f & Hf & Hi & ->).
    apply Hm in Hi as [Hi|Hi].
    { by apply lookup_replicate in Hi as [? _]. }
    apply list_elem_of_fmap in Hi as (field & -> & Hin%list_elem_of_In). specialize (Hall field Hin).
    unfold stored_field in Hall. rewrite Hf in Hall. done.
Qed.

(** C27: Exact evaluation implements SQL three-valued logic: whatever predicate
    compiles against a schema, [matches] returns whether the SQL truth of the
    caller's predicate on the stored row is TRUE (sorting, deduplication, binary
    search and short-circuiting included) when the observed fields conform to
    the schema, reports corruption when they do not, and never panics. *)
Theorem predicate_matches_sql schema p c row :
  Forall value_ok (literals p) → Forall value_ok row → CompiledPredicate_compile p schema = Ok c →
  matches c row =
    if row_conforms schema p row then Ok (bool_decide (sql_truth row p = TruthValue.True))
    else Err Corruption.
Proof.
  intros Hl Hrow H. rewrite sql_truth_ref. unfold matches, evaluate_truth.
  rewrite (validate_stored_fields_ok schema p c row Hl H).
  destruct (row_conforms schema p row) eqn:Hc; [|done]. cbn [mbind result_bind].
  destruct (compile_ok schema p c Hl H) as (p' & flags & (Hv & Hr & Hs) & He & _).
  unfold row_conforms in Hc. apply andb_true_iff in Hc as [_ Hc].
  rewrite (evaluate_ok schema row p'); [by rewrite Hs|done..|by rewrite Hr].
Qed.

(** ** Which predicates compile *)
Fixpoint node_count (p : Predicate.t) : Z :=
  match p with
  | Predicate.And ps | Predicate.Or ps => 1 + foldr Z.add 0 (node_count <$> ps)
  | Predicate.Not p => 1 + node_count p
  | _ => 1
  end.
Fixpoint depth_of (p : Predicate.t) : Z :=
  match p with
  | Predicate.And ps | Predicate.Or ps => 1 + foldr Z.max 0 (depth_of <$> ps)
  | Predicate.Not p => 1 + depth_of p
  | _ => 1
  end.
(** The literal conforms to the field, NULL excluded. *)
Definition literal_accepted (f : FieldSchema) (v : Value.t) : bool :=
  match v with
  | Value.Null => false
  | Value.Bool _ => bool_decide (fs_data_type f = DataType.Bool)
  | Value.I64 _ => bool_decide (fs_data_type f = DataType.I64)
  | Value.F64 bits => bool_decide (fs_data_type f = DataType.F64) && F64.is_finite bits
  | Value.String s => bool_decide (fs_data_type f = DataType.String) && (len s <=? MAX_STRING_BYTES)
  end.
Definition with_field (schema : list FieldSchema) (field : Z) (k : FieldSchema → bool) : bool :=
  match schema !! Z.to_nat field with Some f => k f | None => false end.
Fixpoint leaves_accepted (schema : list FieldSchema) (p : Predicate.t) : bool :=
  match p with
  | Predicate.And ps | Predicate.Or ps => forallb id (leaves_accepted schema <$> ps)
  | Predicate.Not p => leaves_accepted schema p
  | Predicate.Compare field _ v => with_field schema field (λ f, literal_accepted f v)
  | Predicate.In field vs =>
      with_field schema field (λ f, (len vs <=? MAX_IN_VALUES) && forallb (literal_accepted f) vs)
  | Predicate.IsNull field | Predicate.IsNotNull field => with_field schema field (λ _, true)
  end.
Definition predicate_accepted (schema : list FieldSchema) (p : Predicate.t) : bool :=
  (node_count p <=? MAX_PREDICATE_NODES) && (depth_of p <=? MAX_PREDICATE_DEPTH) && leaves_accepted schema p.

Lemma node_count_pos p : 1 ≤ node_count p.
Proof.
  induction p as [ps IH|ps IH|p IH|f op v|f vs|f|f] using predicate_ind; cbn [node_count]; try lia.
  all: enough (0 ≤ foldr Z.add 0 (node_count <$> ps)) by lia; induction IH as [|p ps Hp _ IHps]; [done|];
    rewrite fmap_cons; cbn [foldr]; lia.
Qed.
Lemma depth_of_pos p : 1 ≤ depth_of p.
Proof.
  assert (∀ ps, 0 ≤ foldr Z.max 0 (depth_of <$> ps)) by (induction ps; rewrite ?fmap_cons; simpl; lia).
  induction p as [ps IH|ps IH|p IH|f op v|f vs|f|f] using predicate_ind; cbn [depth_of]; try lia;
    specialize (H ps); lia.
Qed.
Lemma validate_for_accepted v f :
  if literal_accepted f v then ∃ v', validate_for v (fs_data_type f) false = Ok v'
  else validate_for v (fs_data_type f) false = Err InvalidArgument.
Proof.
  destruct v; cbn [literal_accepted validate_for]; [done| | | |];
    destruct (decide _) as [->|]; rewrite ?bool_decide_eq_true_2, ?bool_decide_eq_false_2 by done; cbn [andb];
    try case_match; by try eexists.
Qed.
Lemma validate_values_accepted vs f :
  if forallb (literal_accepted f) vs then ∃ vs', validate_values (fs_data_type f) vs = Ok vs'
  else validate_values (fs_data_type f) vs = Err InvalidArgument.
Proof.
  induction vs as [|v vs IH]; [by eexists|]. cbn [forallb validate_values].
  pose proof (validate_for_accepted v f) as Hv. destruct (literal_accepted f v); cbn [andb];
    [|by rewrite Hv]. destruct Hv as [v' ->]. cbn [mbind result_bind].
  destruct (forallb _ vs); [|by rewrite IH]. destruct IH as [vs' ->]. by eexists.
Qed.
(** The recursive check, at a depth and after a number of nodes. *)
Definition accepted_at (schema : list FieldSchema) (p : Predicate.t) (depth nodes : Z) : bool :=
  (nodes + node_count p <=? MAX_PREDICATE_NODES) && (depth + depth_of p - 1 <=? MAX_PREDICATE_DEPTH)
  && leaves_accepted schema p.
Definition checks (schema : list FieldSchema) (p : Predicate.t) (depth nodes : Z) : Prop :=
  if accepted_at schema p depth nodes
  then ∃ p', validate_at schema p depth nodes = Ok (p', nodes + node_count p)
  else validate_at schema p depth nodes = Err InvalidArgument.
Definition children_accepted (schema : list FieldSchema) (ps : list Predicate.t) (depth nodes : Z) : bool :=
  (nodes + foldr Z.add 0 (node_count <$> ps) <=? MAX_PREDICATE_NODES)
  && (depth + foldr Z.max 0 (depth_of <$> ps) - 1 <=? MAX_PREDICATE_DEPTH)
  && forallb id (leaves_accepted schema <$> ps).
Lemma children_accepted_cons schema p ps depth nodes :
  nodes ≤ MAX_PREDICATE_NODES → depth - 1 ≤ MAX_PREDICATE_DEPTH →
  children_accepted schema (p :: ps) depth nodes =
  accepted_at schema p depth nodes && children_accepted schema ps depth (nodes + node_count p).
Proof.
  intros Hn Hd. unfold children_accepted, accepted_at. rewrite !fmap_cons. cbn [foldr forallb id].
  pose proof (depth_of_pos p). assert (0 ≤ foldr Z.add 0 (node_count <$> ps)).
  { clear. induction ps as [|p ps IH]; [done|]. rewrite fmap_cons. cbn [foldr]. pose proof (node_count_pos p). lia. }
  apply eq_true_iff_eq. rewrite !andb_true_iff, !Z.leb_le. unfold id. intuition lia.
Qed.
Lemma children_checks schema ps depth nodes :
  Forall (λ p, ∀ depth nodes, 0 ≤ nodes ≤ MAX_PREDICATE_NODES → checks schema p depth nodes) ps →
  0 ≤ nodes ≤ MAX_PREDICATE_NODES → depth - 1 ≤ MAX_PREDICATE_DEPTH →
  if children_accepted schema ps depth nodes
  then ∃ ps', validate_children schema ps depth nodes = Ok (ps', nodes + foldr Z.add 0 (node_count <$> ps))
  else validate_children schema ps depth nodes = Err InvalidArgument.
Proof.
  intros Hps. revert nodes. induction Hps as [|p ps Hp _ IH]; intros nodes Hn Hd.
  { unfold children_accepted. cbn [fmap list_fmap foldr forallb]. rewrite !(proj2 (Z.leb_le _ _)) by lia.
    exists []. cbn [validate_children]. by rewrite Z.add_0_r. }
  rewrite children_accepted_cons by lia. cbn [validate_children].
  specialize (Hp depth nodes ltac:(lia)). unfold checks in Hp.
  destruct (accepted_at schema p depth nodes) eqn:Ha; cbn [andb]; [|by rewrite Hp].
  destruct Hp as [p' ->]. cbn [mbind result_bind]. pose proof (node_count_pos p).
  unfold accepted_at in Ha. rewrite !andb_true_iff, !Z.leb_le in Ha.
  specialize (IH (nodes + node_count p) ltac:(lia) Hd).
  destruct (children_accepted schema ps depth (nodes + node_count p)); [|by rewrite IH].
  destruct IH as [ps' ->]. exists (p' :: ps'). cbn [mbind result_bind]. rewrite fmap_cons. cbn [foldr].
  by rewrite Z.add_assoc.
Qed.
Lemma accepted_guard schema p depth nodes :
  (MAX_PREDICATE_DEPTH <? depth) || (MAX_PREDICATE_NODES <? nodes + 1) = true →
  accepted_at schema p depth nodes = false.
Proof.
  rewrite orb_true_iff, !Z.ltb_lt. pose proof (node_count_pos p). pose proof (depth_of_pos p). intros Hg.
  apply not_true_is_false. unfold accepted_at. rewrite !andb_true_iff, !Z.leb_le. lia.
Qed.
Lemma accepted_leaf schema p depth nodes :
  (MAX_PREDICATE_DEPTH <? depth) || (MAX_PREDICATE_NODES <? nodes + 1) = false →
  node_count p = 1 → depth_of p = 1 → accepted_at schema p depth nodes = leaves_accepted schema p.
Proof.
  rewrite orb_false_iff, !Z.ltb_ge. intros Hg Hn Hd. unfold accepted_at. rewrite Hn, Hd.
  by rewrite !(proj2 (Z.leb_le _ _)) by lia.
Qed.
Lemma accepted_children schema ps p depth nodes :
  node_count p = 1 + foldr Z.add 0 (node_count <$> ps) → depth_of p = 1 + foldr Z.max 0 (depth_of <$> ps) →
  leaves_accepted schema p = forallb id (leaves_accepted schema <$> ps) →
  accepted_at schema p depth nodes = children_accepted schema ps (depth + 1) (nodes + 1).
Proof.
  intros Hn Hd Hl. unfold accepted_at, children_accepted. rewrite Hn, Hd, Hl. do 3 f_equal; lia.
Qed.
Lemma validate_at_checks schema p depth nodes :
  0 ≤ nodes ≤ MAX_PREDICATE_NODES → checks schema p depth nodes.
Proof.
  revert depth nodes. induction p as [ps IH|ps IH|p IH|f op v|f vs|f|f] using predicate_ind;
    intros depth nodes Hn; unfold checks; cbn [validate_at]; cbv zeta; fold (validate_children schema);
    (destruct (Z.leb_spec (2 ^ 64) (nodes + 1)); [unfold MAX_PREDICATE_NODES in Hn; lia|]);
    (destruct ((MAX_PREDICATE_DEPTH <? depth) || (MAX_PREDICATE_NODES <? nodes + 1)) eqn:Hg;
      [by rewrite accepted_guard|]);
    try (rewrite accepted_leaf by done; cbn [leaves_accepted node_count]; unfold with_field, field_schema;
      destruct (schema !! Z.to_nat f) as [fs|] eqn:Ef; cbn [ok_or mbind result_bind]);
    try by (eexists || done).
  1,2: rewrite (accepted_children schema ps) by done;
    apply orb_false_iff in Hg as [Hg1%Z.ltb_ge Hg2%Z.ltb_ge];
    pose proof (children_checks schema ps (depth + 1) (nodes + 1) IH ltac:(lia) ltac:(lia)) as Hc;
    destruct (children_accepted _ _ _ _); [|by rewrite Hc]; destruct Hc as [ps' ->]; cbn [mbind result_bind node_count];
    eexists; rewrite Z.add_assoc; reflexivity.
  - apply orb_false_iff in Hg as [Hg1%Z.ltb_ge Hg2%Z.ltb_ge].
    specialize (IH (depth + 1) (nodes + 1) ltac:(lia)). unfold checks in IH.
    replace (accepted_at schema (Predicate.Not p) depth nodes) with (accepted_at schema p (depth + 1) (nodes + 1))
      by (unfold accepted_at; cbn [node_count depth_of leaves_accepted]; do 3 f_equal; lia).
    destruct (accepted_at schema p (depth + 1) (nodes + 1)); [|by rewrite IH]. destruct IH as [p' ->].
    cbn [mbind result_bind node_count]. eexists. rewrite Z.add_assoc. reflexivity.
  - pose proof (validate_for_accepted v fs) as Hv.
    assert (literal_accepted fs v = true → Value_is_null v = false) as Hnull by by destruct v.
    destruct (literal_accepted fs v); [rewrite Hnull by done; destruct Hv as [v' ->]; by eexists|].
    destruct (Value_is_null v); [done|]. by rewrite Hv.
  - by destruct (Value_is_null v).
  - pose proof (validate_values_accepted vs fs) as Hv. rewrite Z.leb_antisym.
    destruct (MAX_IN_VALUES <? len vs); cbn [negb andb orb]; [done|].
    destruct (existsb Value_is_null vs) eqn:En.
    { replace (forallb (literal_accepted fs) vs) with false; [done|]. symmetry. apply not_true_is_false.
      rewrite forallb_forall. apply existsb_exists in En as (v & Hin & Hnull). intros H1. specialize (H1 v Hin).
      by destruct v. }
    destruct (forallb _ vs); [destruct Hv as [vs' ->]; by eexists|by rewrite Hv].
Qed.

(** C33: Exactly the bounded, schema-conforming predicates compile: at most 1024
    nodes, 64 levels and 1024 values per IN, every field in the schema and every
    literal a finite, length-bounded value of its field's type; any other
    predicate is an invalid argument, and compilation never panics. *)
Theorem predicate_compile_exact schema p :
  Forall value_ok (literals p) →
  if predicate_accepted schema p then ∃ c, CompiledPredicate_compile p schema = Ok c
  else CompiledPredicate_compile p schema = Err InvalidArgument.
Proof.
  intros Hl. pose proof (validate_at_checks schema p 1 0 ltac:(done)) as Hc. unfold checks in Hc.
  replace (accepted_at schema p 1 0) with (predicate_accepted schema p) in Hc
    by (unfold accepted_at, predicate_accepted; do 3 f_equal; lia).
  unfold CompiledPredicate_compile, Predicate_validate.
  destruct (predicate_accepted schema p); [|by rewrite Hc]. destruct Hc as [p' Hp]. rewrite Hp.
  cbn [mbind result_bind]. apply validate_at_ok in Hp as (Hv & _ & _); [|done].
  destruct (mark_referenced_ok schema p' (replicate (length schema) false) Hv) as (flags & -> & Hfl & _);
    [by rewrite length_replicate|]. rewrite length_replicate in Hfl. cbn [mbind result_bind].
  destruct (compiled_fields_ok schema 0 flags) as (cfs & -> & _); [lia|]. cbn [mbind result_bind].
  destruct (compile_total schema p' Hv) as [e ->]. by eexists.
Qed.

(** ** Truth sets *)
Lemma contains_insert s t t' :
  TruthSet_contains (TruthSet_insert s t) t' = TruthSet_contains s t' || bool_decide (t = t').
Proof.
  unfold TruthSet_contains, TruthSet_insert.
  rewrite !land_bit, Z.lor_spec by (destruct t'; done). f_equal. by destruct t, t'.
Qed.
Lemma contains_empty t : TruthSet_contains TruthSet_EMPTY t = false.
Proof. by destruct t. Qed.
Create Rewrite HintDb truths.
#[export] Hint Rewrite contains_insert contains_empty orb_true_iff bool_decide_eq_true : truths.
Lemma contains_not s t :
  TruthSet_contains s t = true → TruthSet_contains (TruthSet_not s) (TruthValue_not t) = true.
Proof.
  intros Ht. unfold TruthSet_not, VALUES. cbn [foldl].
  destruct (TruthSet_contains s TruthValue.False) eqn:E1, (TruthSet_contains s TruthValue.True) eqn:E2,
    (TruthSet_contains s TruthValue.Unknown) eqn:E3; destruct t; (congruence || reflexivity).
Qed.
Lemma contains_map_binary l r op a b :
  TruthSet_contains l a = true → TruthSet_contains r b = true →
  TruthSet_contains (map_binary l r op) (op a b) = true.
Proof.
  intros Ha Hb. unfold map_binary, VALUES. cbn [List.filter].
  destruct (TruthSet_contains l TruthValue.False) eqn:L1, (TruthSet_contains l TruthValue.True) eqn:L2,
    (TruthSet_contains l TruthValue.Unknown) eqn:L3; destruct a; try congruence;
  destruct (TruthSet_contains r TruthValue.False) eqn:R1, (TruthSet_contains r TruthValue.True) eqn:R2,
    (TruthSet_contains r TruthValue.Unknown) eqn:R3; destruct b; try congruence;
  cbn [foldl]; autorewrite with truths; auto 12.
Qed.
Lemma contains_insert_when c t s t' :
  TruthSet_contains (insert_when c t s) t' = TruthSet_contains s t' || (c && bool_decide (t = t')).
Proof. destruct c; cbn [insert_when andb]; [apply contains_insert|by rewrite orb_false_r]. Qed.

(** ** Pruning is conservative *)
Lemma typed_value_valid ty v : typed_value ty v = true → value_valid ty v.
Proof.
  unfold value_valid. destruct ty, v; simpl; try done.
  - unfold F64.canonical. by intros [-> _]%andb_true_iff.
  - intros H%Z.leb_le. by rewrite (proj2 (Z.ltb_ge _ _)).
Qed.
Lemma cmp_le_trans a b c : cmp_le a b → cmp_le b c → cmp_le a c.
Proof. by destruct a, b, c. Qed.

Lemma typed_le_antisym a b : typed_le a b → typed_le b a → typed_order a b = Some Eq.
Proof. intros (c & H1 & N1) (d & H2 & N2). apply typed_order_opp in H2. destruct c, d; simpl in *; congruence. Qed.
Lemma typed_order_le a b : typed_order a b = Some Eq → typed_le a b ∧ typed_le b a.
Proof. intros H. split; [by exists Eq|]. exists Eq. split; [|done]. by apply typed_order_opp in H. Qed.

Section pruning.
Variable xxh3_128 : Z → list Z → Z.

(** One field of a leaf: its synopsis is well shaped and admits a stored value. *)
Record field_admits (fy : FieldSynopsis) (f : FieldSchema) (p : option BloomParameters) (v : Value.t) : Prop := {
  fa_value : value_ok v;
  fa_stored : stored_valid (fs_data_type f) (fs_nullable f) v = true;
  fa_typed : synopsis_typed fy;
  fa_parameters : parameters_ok p;
  fa_shape : validate_field_synopsis fy f p = Ok tt;
  fa_covers : covers xxh3_128 fy (fs_data_type f) p v
}.

Lemma might_contain_total fy f p v value :
  field_admits fy f p v → literal_ok f value →
  ∃ b, bloom_might_contain xxh3_128 fy value (fs_data_type f) p = Ok b.
Proof.
  intros [_ _ Hty Hp Hs _] [_ Tl]. apply validate_field_synopsis_ok in Hs as (_ & _ & Hbs); [|done..].
  destruct Hty as [_ Hb].
  unfold bloom_shape_ok in Hbs. destruct p as [p|]; [|by eexists].
  destruct (fy_bloom fy) as [bs|] eqn:Ebs; [|done].
  destruct (might_contain_bit xxh3_128 fy value (fs_data_type f) p bs) as (bit & _ & _ & ->);
    [done|by apply Hb|by apply typed_value_valid|by apply Hp|by apply Hbs|by eexists].
Qed.
(** The extrema against a literal: their orders exist, bracket the stored value
    and decide possible equality. *)
Lemma extrema_orders fy f p v value minimum maximum :
  field_admits fy f p v → literal_ok f value →
  fy_minimum fy = Some minimum → fy_maximum fy = Some maximum →
  ∃ mo xo possible, typed_order minimum value = Some mo ∧ typed_order maximum value = Some xo ∧
    equality_possible xxh3_128 fy mo xo value (fs_data_type f) p = Ok possible ∧ cmp_le mo xo ∧
    (Value_is_null v = false → ∃ o, typed_order v value = Some o ∧ cmp_le mo o ∧ cmp_le o xo ∧
       (o = Eq → possible = true)).
Proof.
  intros Ha Hl Emn Emx. pose proof Ha as [Hv Hst Hty Hp Hs Hc]. pose proof Hl as [Lok Lty].
  apply validate_field_synopsis_ok in Hs as (_ & He & _); [|done..]. unfold extrema_ok in He.
  rewrite Emn, Emx in He. destruct He as (Vmn & Vmx & Hle).
  destruct (value_valid_order _ minimum value Vmn (typed_value_valid _ _ Lty)) as [mo Hmo].
  destruct (value_valid_order _ maximum value Vmx (typed_value_valid _ _ Lty)) as [xo Hxo].
  destruct (might_contain_total fy f p v value Ha Hl) as [b Hb].
  exists mo, xo, (if bool_decide (mo ≠ Gt) && bool_decide (xo ≠ Lt) then b else false).
  split_and!; [done|done| |by eapply typed_order_mono|].
  { unfold equality_possible. by destruct (_ && _). }
  intros Hn. pose proof (stored_valid_typed _ _ v Hv Hst Hn) as Tv.
  destruct (typed_order_some _ v value Tv Lty) as [o Ho]. exists o.
  assert (covers xxh3_128 fy (fs_data_type f) p v →
    typed_le minimum v ∧ typed_le v maximum ∧ bloom_might_contain xxh3_128 fy v (fs_data_type f) p = Ok true)
    as Hcov by (unfold covers; destruct v; try done; naive_solver).
  destruct (Hcov Hc) as (H1 & H2 & H3).
  assert (cmp_le mo o) as C1 by by eapply (typed_order_mono minimum v value).
  assert (cmp_le o xo) as C2 by by eapply (typed_order_mono v maximum value).
  split_and!; [done..|]. intros ->.
  assert (v = value) as -> by by eapply (typed_order_eq (fs_data_type f)).
  rewrite H3 in Hb. apply Ok_inj in Hb as <-.
  rewrite !bool_decide_eq_true_2; [done| |]; intros ->; done.
Qed.
Lemma null_seed fy f p v :
  field_admits fy f p v → Value_is_null v = true →
  TruthSet_contains (null_seeded_bounds fy).1 TruthValue.Unknown = true.
Proof.
  intros [_ _ _ _ _ Hc] Hn. destruct v; try done. unfold null_seeded_bounds. cbn [fst]. simpl in Hc. by rewrite Hc.
Qed.
Lemma bounds_some fy f p v :
  field_admits fy f p v → Value_is_null v = false →
  ∃ minimum maximum, fy_minimum fy = Some minimum ∧ fy_maximum fy = Some maximum ∧
    typed_le minimum v ∧ typed_le v maximum.
Proof. intros [_ _ _ _ _ Hc] Hn. destruct v; try done; destruct Hc as (a & b & ?); exists a, b; naive_solver. Qed.

Lemma compare_truths_ok fy f p v op value :
  field_admits fy f p v → literal_ok f value →
  ∃ ts, compare_truths xxh3_128 fy op value (fs_data_type f) p = Ok ts ∧
    TruthSet_contains ts (ref_compare op (Some v) value) = true.
Proof.
  intros Ha Hl. unfold compare_truths. cbn [ref_compare].
  pose proof (null_seed fy f p v Ha) as Hseed. pose proof (bounds_some fy f p v Ha) as Hb.
  unfold null_seeded_bounds in *. cbn [fst] in Hseed.
  set (truths := if fy_has_null fy then _ else _) in *.
  destruct (fy_minimum fy) as [mn|] eqn:Emn, (fy_maximum fy) as [mx|] eqn:Emx;
    try (destruct (Value_is_null v); [eexists; split; [done|auto]|]; destruct (Hb eq_refl) as (? & ? & ? & ? & _); done).
  destruct (extrema_orders fy f p v value mn mx Ha Hl Emn Emx) as (mo & xo & possible & -> & -> & Eq & Hmx & Hnn).
  cbn [ok_or mbind result_bind].
  destruct (Value_is_null v) eqn:En.
  - destruct op; rewrite ?Eq; cbn [mbind result_bind]; eexists; (split; [done|]);
      repeat case_bool_decide; rewrite !contains_insert_when, Hseed; done.
  - destruct (Hnn eq_refl) as (o & -> & C1 & C2 & Hposs).
    destruct op; rewrite ?Eq; cbn [mbind result_bind compare_op]; eexists; (split; [done|]);
      rewrite ?bool_decide_eq_true_2, ?bool_decide_eq_false_2 by done; rewrite !contains_insert_when;
      destruct mo, o, xo; try done; try (rewrite Hposs by done); cbn; by rewrite ?orb_true_r.
Qed.

Lemma in_possible_ok fy f p v l minimum maximum :
  field_admits fy f p v → Forall (literal_ok f) l →
  fy_minimum fy = Some minimum → fy_maximum fy = Some maximum →
  ∃ b, in_possible_loop xxh3_128 fy minimum maximum l (fs_data_type f) p = Ok b ∧
    (Value_is_null v = false → v ∈ l → b = true).
Proof.
  intros Ha Hl Emn Emx. induction Hl as [|w l Hw _ (b & Eb & IH)]; [exists false; split; [done|set_solver]|].
  cbn [in_possible_loop].
  destruct (extrema_orders fy f p v w minimum maximum Ha Hw Emn Emx) as (mo & xo & q & -> & -> & Eq & _ & Hnn).
  cbn [ok_or mbind result_bind]. rewrite Eq. cbn [mbind result_bind]. destruct q; [by exists true|].
  exists b. split; [done|]. intros Hn [->|Hin]%elem_of_cons; [|by apply IH].
  destruct (Hnn Hn) as (o & Ho & _ & _ & Hq). exfalso. enough (false = true) by done. apply Hq.
  destruct Hw as [_ Tw]. rewrite (typed_order_refl _ w Tw) in Ho. congruence.
Qed.
(** Searching the set for a synopsis bound finds a value equal to it. *)
Lemma search_bound ty l mn :
  typed_values ty l → StronglySorted typed_le l → value_valid ty mn →
  binary_search l (λ v, or_panic (typed_order v mn))
  = Ok (existsb (λ v, bool_decide (typed_order v mn = Some Eq)) l).
Proof.
  intros Hl Hs Hmn. set (g := λ v, default Eq (typed_order v mn)).
  assert (∀ v, v ∈ l → typed_order v mn = Some (g v)) as Hg.
  { intros v Hv%list_elem_of_In. eapply Forall_forall in Hl as [_ Tv]; [|done]. unfold g.
    by destruct (value_valid_order ty v mn (typed_value_valid _ _ Tv) Hmn) as [c ->]. }
  rewrite (binary_search_ok l _ g).
  - f_equal. clear -Hg. induction l as [|v l IH]; [done|]. cbn [existsb]. f_equal.
    + rewrite Hg by set_solver. apply bool_decide_ext. split; [by intros ->|by intros [= ->]].
    + apply IH. set_solver.
  - intros i v Hi. by rewrite Hg by (by eapply list_elem_of_lookup_2).
  - intros i j a b Hij Ha Hb. destruct (decide (i = j)) as [->|].
    { assert (a = b) as -> by congruence. by destruct (g b). }
    eapply (typed_order_mono a b mn); [|apply Hg; by eapply list_elem_of_lookup_2..].
    eapply sorted_lookup; [done| |done..]. lia.
Qed.
Lemma in_truths_ok fy f p v vs l :
  field_admits fy f p v → typed_values (fs_data_type f) vs → CompiledIn_compile vs = Ok l →
  ∃ ts, in_truths xxh3_128 fy l (fs_data_type f) p = Ok ts ∧
    TruthSet_contains ts
      (foldr TruthValue_or TruthValue.False (ref_compare CompareOp.Eq (Some v) <$> vs)) = true.
Proof.
  intros Ha Hvs Hl. pose proof Ha as [Hv Hst Hty Hp Hs _].
  pose proof (CompiledIn_evaluate_ok _ _ vs l v Hvs Hl Hv Hst) as Hev. unfold CompiledIn_evaluate in Hev.
  destruct (CompiledIn_compile_ok _ vs Hvs) as (l' & E & Hsort & Hm). rewrite E in Hl. apply Ok_inj in Hl as <-.
  unfold in_truths. case_decide as Hn; [apply Ok_inj in Hev as <-; by eexists|].
  assert (typed_values (fs_data_type f) l') as Hl'.
  { apply Forall_forall. intros w Hw%list_elem_of_In%Hm. eapply Forall_forall in Hvs; [done|]. by apply list_elem_of_In. }
  pose proof (null_seed fy f p v Ha) as Hseed. pose proof (bounds_some fy f p v Ha) as Hb.
  unfold null_seeded_bounds in *. cbn [fst] in Hseed. set (truths := if fy_has_null fy then _ else _) in *.
  apply validate_field_synopsis_ok in Hs as (_ & He & _); [|done..]. unfold extrema_ok in He.
  destruct (fy_minimum fy) as [mn|] eqn:Emn, (fy_maximum fy) as [mx|] eqn:Emx; try done.
  2:{ destruct (Value_is_null v); [|destruct (Hb eq_refl) as (? & ? & ? & ? & _); done].
      apply Ok_inj in Hev as <-. eexists. split; [done|auto]. }
  destruct (in_possible_ok fy f p v l' mn mx Ha Hl' Emn Emx) as (b & -> & Hposs). cbn [mbind result_bind].
  destruct He as (Vmn & _ & _). rewrite (search_bound (fs_data_type f)) by done.
  set (listed := existsb _ l').
  assert ((if bool_decide (typed_order mn mx = Some Eq) then Ok listed else Ok false)
    = Ok (bool_decide (typed_order mn mx = Some Eq) && listed)) as -> by (by case_bool_decide).
  cbn [mbind result_bind]. eexists. split; [done|]. rewrite !contains_insert_when.
  destruct (Value_is_null v) eqn:En; [apply Ok_inj in Hev as <-; by rewrite Hseed|].
  pose proof (stored_valid_typed _ _ v Hv Hst En) as Tv.
  rewrite (binary_search_member (fs_data_type f)) in Hev by done. apply Ok_inj in Hev as <-.
  destruct (Hb eq_refl) as (a & c & [= <-] & [= <-] & L1 & L2).
  case_bool_decide as Hin; cbn [TruthValue_from_bool].
  - rewrite Hposs by done. cbn. by rewrite orb_true_r.
  - destruct (bool_decide (typed_order mn mx = Some Eq) && listed) eqn:El; [|cbn; by rewrite orb_true_r].
    exfalso. apply andb_true_iff in El as [Heq%bool_decide_eq_true Hli].
    apply existsb_exists in Hli as (w & Hw%list_elem_of_In & Ew%bool_decide_eq_true).
    apply typed_order_le in Heq as [_ X1], Ew as [X2 X3].
    assert (typed_order v w = Some Eq) as Evw
      by (apply typed_le_antisym; eauto using typed_le_trans).
    eapply Forall_forall in Hl' as [Ow Tw]; [|by apply list_elem_of_In].
    apply (typed_order_eq (fs_data_type f)) in Evw as ->; done.
Qed.

(** One row of a leaf whose synopsis covers it. *)
Section row.
Context (m : IndexManifest) (s : PartitionSynopsis) (row : list Value.t).
Context (Hm : manifest_ok m) (Hs : synopsis_shape m s) (Hrow : Forall value_ok row).
Context (Hcov : synopsis_covers xxh3_128 m s row).

Lemma covers_lookup i f :
  fields m !! i = Some f →
  ∃ fy p v, s !! i = Some fy ∧ im_bloom_parameters m !! i = Some p ∧ row !! i = Some v ∧
    synopsis_typed fy ∧ parameters_ok p ∧ validate_field_synopsis fy f p = Ok tt ∧
    covers xxh3_128 fy (fs_data_type f) p v.
Proof.
  destruct Hs as [Hty Hshape]. unfold validate_synopsis_shape in Hshape.
  destruct (negb _); [done|]. pose proof (manifest_parameters m Hm) as Hpar. unfold synopsis_covers in Hcov.
  revert i Hty Hshape Hpar Hcov. clear. generalize (fields m), (im_bloom_parameters m). intros fs ps.
  revert s row fs ps. intros s. induction s as [|fy s IH]; intros row [|f' fs] [|p ps] i Hty Hshape Hpar Hcov Hf;
    try done; destruct row as [|v row]; try done.
  cbn [covers_all validate_shape_loop] in *. apply ok_tt_bind in Hshape as [Hsh Hshape].
  apply Forall_cons_iff in Hty as [Hfy Hty], Hpar as [Hp Hpar]. destruct Hcov as [Hc Hcov].
  destruct i as [|i]; [injection Hf as <-; by exists fy, p, v|]. by apply (IH row fs ps i).
Qed.
Lemma synopsis_field_ok field f :
  fields m !! Z.to_nat field = Some f → forallb (stored_field (fields m) row) [field] = true →
  ∃ fy p v, synopsis_field m s (Z.to_nat field) = Ok (fy, fs_data_type f, p) ∧
    row !! Z.to_nat field = Some v ∧ field_admits fy f p v.
Proof.
  intros Hf Hst. destruct (stored_field_ok (fields m) row field f Hrow Hf Hst) as (v & Ev & Hv & Hsv).
  destruct (covers_lookup _ f Hf) as (fy & p & v' & Es & Ep & Ev' & Hty & Hp & Hsh & Hc).
  rewrite Ev in Ev'. injection Ev' as <-. exists fy, p, v. split_and!; [|done|by constructor].
  unfold synopsis_field. rewrite Hf. cbn [ok_or mbind result_bind]. rewrite Es. cbn [ok_or mbind result_bind].
  assert (negb (fy_has_null fy) && bool_decide (fy_minimum fy = None) = false) as ->; [|by rewrite Ep].
  destruct (fy_has_null fy) eqn:En; [done|]. cbn [negb andb]. apply bool_decide_eq_false_2. intros Emn.
  destruct v; simpl in Hc; [congruence|..]; destruct Hc as (a & b & ? & _); congruence.
Qed.
Lemma presence_ok fy f p v (null : bool) :
  field_admits fy f p v →
  ∃ ts, presence_truths (if null then fy_has_null fy else negb (bool_decide (fy_minimum fy = None)))
      (if null then negb (bool_decide (fy_minimum fy = None)) else fy_has_null fy) = Ok ts ∧
    TruthSet_contains ts
      (TruthValue_from_bool (if null then Value_is_null v else negb (Value_is_null v))) = true.
Proof.
  intros [_ _ _ _ _ Hc]. unfold presence_truths. destruct (Value_is_null v) eqn:En.
  - destruct v; try done. simpl in Hc. rewrite Hc.
    destruct null, (bool_decide (fy_minimum fy = None)); by eexists.
  - assert (bool_decide (fy_minimum fy = None) = false) as ->.
    { apply bool_decide_eq_false_2. destruct v; try done; destruct Hc as (a & b & -> & _); done. }
    destruct null, (fy_has_null fy); by eexists.
Qed.
Definition possible_fold :=
  fix fold (op : TruthSet → TruthSet → TruthSet) (cs : list CompiledExpression.t) (acc : TruthSet)
      : result TruthSet :=
    match cs with
    | [] => Ok acc
    | c :: cs => possible_truths xxh3_128 c m s ≫= λ t, fold op cs (op acc t)
    end.
Lemma possible_fold_ok op cs ts acc a :
  (∀ a b c, op (op a b) c = op a (op b c)) →
  Forall2 (λ c t, ∃ S, possible_truths xxh3_128 c m s = Ok S ∧ TruthSet_contains S t = true) cs ts →
  TruthSet_contains acc a = true → ∀ e, (∀ a, op a e = a) →
  ∃ S, possible_fold (λ l r, map_binary l r op) cs acc = Ok S ∧
    TruthSet_contains S (op a (foldr op e ts)) = true.
Proof.
  intros Hassoc H. revert acc a. induction H as [|c t cs ts (S & HS & Ht) _ IH]; intros acc a Ha e He; cbn [possible_fold foldr].
  { exists acc. by rewrite He. }
  rewrite HS. cbn [mbind result_bind]. rewrite <-Hassoc.
  apply IH; [|done]. by apply contains_map_binary.
Qed.
Lemma children_possible ps cs :
  Forall (λ p, ∀ e, predicate_valid (fields m) p → compile_expression p = Ok e →
    forallb (stored_field (fields m) row) (referenced p) = true →
    ∃ S, possible_truths xxh3_128 e m s = Ok S ∧ TruthSet_contains S (ref_truth row p) = true) ps →
  Forall (predicate_valid (fields m)) ps → Forall2 (λ p c, compile_expression p = Ok c) ps cs →
  forallb (stored_field (fields m) row) (concat (referenced <$> ps)) = true →
  Forall2 (λ c t, ∃ S, possible_truths xxh3_128 c m s = Ok S ∧ TruthSet_contains S t = true)
    cs (ref_truth row <$> ps).
Proof.
  intros IH Hv Hc Hr. induction Hc as [|p c ps cs Hp _ IHF]; [constructor|].
  rewrite fmap_cons. rewrite fmap_cons, concat_cons, forallb_app in Hr. apply andb_true_iff in Hr as [Hr1 Hr].
  apply Forall_cons_iff in IH as [IH IHs], Hv as [Hv Hvs]. constructor; auto.
Qed.
Lemma possible_truths_ok p e :
  predicate_valid (fields m) p → compile_expression p = Ok e →
  forallb (stored_field (fields m) row) (referenced p) = true →
  ∃ S, possible_truths xxh3_128 e m s = Ok S ∧ TruthSet_contains S (ref_truth row p) = true.
Proof.
  revert e. induction p as [ps IH|ps IH|p IH|f op v|f vs|f|f] using predicate_ind;
    intros e Hv He Hr; inversion Hv as [? Hps|? Hps|? Hp|? ? ? fs Hf Hl|? ? fs Hf Hvs|? fs Hf|? fs Hf]; subst;
    cbn [compile_expression referenced ref_truth] in *;
    try (destruct (synopsis_field_ok f fs Hf Hr) as (fy & p & x & Ef & Ex & Ha); rewrite Ex).
  - apply bind_ok in He as (cs & Hcs & He). apply Ok_inj in He as <-. apply mapM_ok in Hcs.
    cbn [possible_truths]. fold possible_fold.
    destruct (possible_fold_ok TruthValue_and cs (ref_truth row <$> ps) TruthSet_TRUE TruthValue.True)
      with (e := TruthValue.True) as (S & HS & Ht); [by intros [] [] []|by eapply children_possible|done|by intros []|].
    exists S. split; [exact HS|]. by destruct (foldr TruthValue_and _ _).
  - apply bind_ok in He as (cs & Hcs & He). apply Ok_inj in He as <-. apply mapM_ok in Hcs.
    cbn [possible_truths]. fold possible_fold.
    destruct (possible_fold_ok TruthValue_or cs (ref_truth row <$> ps) TruthSet_FALSE TruthValue.False)
      with (e := TruthValue.False) as (S & HS & Ht); [by intros [] [] []|by eapply children_possible|done|by intros []|].
    exists S. split; [exact HS|]. by destruct (foldr TruthValue_or _ _).
  - apply bind_ok in He as (c & Hc & He). apply Ok_inj in He as <-. destruct (IH c Hp Hc Hr) as (S & HS & Ht).
    cbn [possible_truths]. rewrite HS. eexists. split; [done|]. by apply contains_not.
  - apply Ok_inj in He as <-. cbn [possible_truths]. rewrite Ef. by apply compare_truths_ok.
  - apply bind_ok in He as (l & Hl & He). apply Ok_inj in He as <-. cbn [possible_truths]. rewrite Ef.
    by apply in_truths_ok with (v := x).
  - apply Ok_inj in He as <-. cbn [possible_truths]. rewrite Ef. apply (presence_ok fy fs p x true Ha).
  - apply Ok_inj in He as <-. cbn [possible_truths]. rewrite Ef. apply (presence_ok fy fs p x false Ha).
Qed.
End row.
End pruning.

(** ** Classification *)
Section classify.
Context (xxh3_128 : Z → list Z → Z) (m : IndexManifest) (Hm : manifest_ok m).
Context (p : Predicate.t) (Hl : Forall value_ok (literals p)).
Context (c : CompiledPredicate) (Hc : CompiledPredicate_compile p (fields m) = Ok c).

(** A stored row of a leaf: typed values, conforming where [p] looks, covered. *)
Definition leaf_row (s : PartitionSynopsis) (row : list Value.t) : Prop :=
  Forall value_ok row ∧ row_conforms (fields m) p row = true ∧ synopsis_covers xxh3_128 m s row.

Lemma fields_agree : existsb (field_disagrees m) (cp_referenced_fields c) = false.
Proof.
  destruct (compile_ok _ _ _ Hl Hc) as (p' & flags & _ & _ & _ & _ & Hcf).
  apply not_true_is_false. rewrite existsb_exists. intros (cf & Hin%list_elem_of_In & Hd).
  apply Hcf in Hin as (i & f & Hf & _ & ->). unfold field_disagrees in Hd. cbn [cf_index cf_data_type cf_nullable] in Hd.
  rewrite Hf in Hd. by rewrite !bool_decide_eq_true_2 in Hd.
Qed.
Lemma covered_nonempty s row fs ps :
  covers_all xxh3_128 s row fs ps →
  existsb (λ fy, negb (fy_has_null fy) && bool_decide (fy_minimum fy = None)) s = false.
Proof.
  revert row fs ps. induction s as [|fy s IH]; intros [|v row] [|f fs] [|q ps]; try done.
  cbn [covers_all existsb]. intros [Hcv Hr]. rewrite (IH _ _ _ Hr), orb_false_r.
  destruct (fy_has_null fy) eqn:En; [done|]. apply bool_decide_eq_false_2. intros E.
  destruct v; simpl in Hcv; [congruence|..]; destruct Hcv as (a & b & ? & _); congruence.
Qed.
Lemma matches_row s row :
  leaf_row s row → matches c row = Ok (bool_decide (ref_truth row p = TruthValue.True)).
Proof.
  intros (Hrow & Hconf & _). unfold matches, evaluate_truth.
  rewrite (validate_stored_fields_ok (fields m) p c row Hl Hc), Hconf. cbn [mbind result_bind].
  destruct (compile_ok _ _ _ Hl Hc) as (p' & flags & (Hv & Hr & Hsq) & He & _).
  unfold row_conforms in Hconf. apply andb_true_iff in Hconf as [_ Hconf].
  rewrite (evaluate_ok (fields m) row p'); [by rewrite Hsq|done..|by rewrite Hr].
Qed.
Lemma classify_ok s rows :
  synopsis_shape m s → Forall (leaf_row s) rows →
  ∃ k, classify xxh3_128 c m s (len rows) = Ok k ∧
    match k with
    | SynopsisClassification.NoMatch => Forall (λ row, matches c row = Ok false) rows
    | SynopsisClassification.AllMatch => rows ≠ [] ∧ Forall (λ row, matches c row = Ok true) rows
    | SynopsisClassification.MayMatch => rows ≠ []
    end.
Proof.
  intros Hs Hrows. destruct (compile_ok _ _ _ Hl Hc) as (p' & flags & (Hv & Hr & Hsq) & He & Hfc & _).
  unfold classify. rewrite Hfc, Z.eqb_refl, fields_agree. pose proof Hs as [_ ->]. cbn [is_ok negb orb].
  destruct rows as [|row rows]; [by exists SynopsisClassification.NoMatch|].
  destruct (Z.eqb_spec (len (row :: rows)) 0) as [E|_]; [rewrite len_cons in E; pose proof (len_nonneg rows); lia|].
  assert (Forall (λ row, ∃ S, possible_truths xxh3_128 (cp_expression c) m s = Ok S ∧
    TruthSet_contains S (ref_truth row p) = true) (row :: rows)) as Hall.
  { eapply Forall_impl; [|exact Hrows]. intros r (Hval & Hconf & Hcov). rewrite <-Hsq by done.
    eapply possible_truths_ok; [done..|]. unfold row_conforms in Hconf. apply andb_true_iff in Hconf as [_ ?].
    by rewrite Hr. }
  pose proof (Forall_inv Hrows) as (_ & _ & Hcov). unfold synopsis_covers in Hcov.
  rewrite (covered_nonempty s row _ _ Hcov). pose proof (Forall_inv Hall) as (S & HS & _). rewrite HS.
  cbn [mbind result_bind].
  assert (∀ b, (∀ t, TruthSet_contains S t = true → bool_decide (t = TruthValue.True) = b) →
    Forall (λ row, matches c row = Ok b) (row :: rows)) as Hdec.
  { intros b Hb. apply Forall_forall. intros r Hin.
    rewrite (matches_row s) by (by eapply Forall_forall in Hrows). f_equal. apply Hb.
    eapply Forall_forall in Hall as (S' & HS' & Ht); [|done]. rewrite HS in HS'. by apply Ok_inj in HS' as <-. }
  destruct (TruthSet_contains S TruthValue.True) eqn:Et; cbn [negb].
  - destruct (Z.eqb_spec S TruthSet_TRUE) as [->|]; [|by exists SynopsisClassification.MayMatch].
    exists SynopsisClassification.AllMatch. split; [done|]. split; [done|]. apply Hdec. by intros [].
  - exists SynopsisClassification.NoMatch. split; [done|]. apply Hdec. intros t Ht.
    apply bool_decide_eq_false_2. congruence.
Qed.
End classify.

(** Leaf pruning is sound: for a leaf whose synopsis covers its rows,
    classification succeeds, NoMatch means exact evaluation rejects every row,
    AllMatch means it accepts every row, and an empty leaf is NoMatch. *)
Lemma classify_sound xxh3_128 m p c s rows :
  manifest_ok m → Forall value_ok (literals p) → CompiledPredicate_compile p (fields m) = Ok c →
  synopsis_shape m s → Forall (leaf_row xxh3_128 m p s) rows →
  ∃ k, classify xxh3_128 c m s (len rows) = Ok k ∧
    match k with
    | SynopsisClassification.NoMatch => Forall (λ row, matches c row = Ok false) rows
    | SynopsisClassification.AllMatch => rows ≠ [] ∧ Forall (λ row, matches c row = Ok true) rows
    | SynopsisClassification.MayMatch => rows ≠ []
    end.
Proof. intros Hm Hl Hc. by apply classify_ok. Qed.

(** C16: Pruning never loses a record: build the synopsis of a leaf by expanding
    the empty synopsis with the projection of every record that enters it; then
    whichever subset of those records is still present, classification decides
    them correctly. *)
Theorem pruning_history_sound xxh3_128 m p c history rows :
  manifest_ok m → Forall value_ok (literals p) → CompiledPredicate_compile p (fields m) = Ok c →
  Forall (projection_shape m) history → rows ⊆ history →
  Forall (λ row, row_conforms (fields m) p row = true) rows →
  ∃ s k, expand_many xxh3_128 (PartitionSynopsis_empty m) m history = Ok s ∧
    classify xxh3_128 c m s (len rows) = Ok k ∧
    ∀ row, row ∈ rows → sql_truth row p = TruthValue.True → k ≠ SynopsisClassification.NoMatch.
Proof.
  intros Hm Hl Hc Hh Hsub Hconf. destruct (covers_history xxh3_128 m history Hm Hh) as (s & Hs & Hshape & Hcov).
  assert (Forall (leaf_row xxh3_128 m p s) rows) as Hrows.
  { apply Forall_forall. intros row Hin. eapply Forall_forall in Hconf; [|done].
    apply list_elem_of_In, Hsub, list_elem_of_In in Hin. eapply Forall_forall in Hcov; [|done].
    eapply Forall_forall in Hh as [? _]; [|done]. done. }
  destruct (classify_ok xxh3_128 m Hm p Hl c Hc s rows Hshape Hrows) as (k & Hk & Hspec).
  exists s, k. split_and!; [done..|]. intros row Hin Ht ->. rewrite sql_truth_ref in Ht. apply list_elem_of_In in Hin.
  eapply Forall_forall in Hspec; [|done]. eapply Forall_forall in Hrows; [|done].
  rewrite (matches_row xxh3_128 m p Hl c Hc s row Hrows) in Hspec. by rewrite bool_decide_eq_true_2 in Hspec.
Qed.

(** ** Concrete instances: [n IN (5, 3, 5) AND NOT f < -0.0] over the sample index *)
Definition sample_predicate : Predicate.t :=
  Predicate.And
    [Predicate.In 0 [Value.I64 5; Value.I64 3; Value.I64 5];
     Predicate.Not (Predicate.Compare 1 CompareOp.Lt (Value.F64 0x8000000000000000))].
Definition sample_compiled : CompiledPredicate :=
  mkCompiledPredicate
    (CompiledExpression.And
      [CompiledExpression.In 0 [Value.I64 3; Value.I64 5];
       CompiledExpression.Not (CompiledExpression.Compare 1 CompareOp.Lt (Value.F64 0))])
    2 [mkCompiledField 0 DataType.I64 true; mkCompiledField 1 DataType.F64 false].
Lemma sample_compiles : CompiledPredicate_compile sample_predicate (fields sample_manifest) = Ok sample_compiled.
Proof. reflexivity. Qed.
Lemma sample_literals : Forall value_ok (literals sample_predicate).
Proof. dec_compute. Qed.

Lemma predicate_matches_sql_witness : matches sample_compiled [Value.I64 5; Value.F64 0] = Ok true.
Proof.
  rewrite (predicate_matches_sql (fields sample_manifest) sample_predicate sample_compiled
    [Value.I64 5; Value.F64 0] sample_literals ltac:(dec_compute) sample_compiles).
  reflexivity.
Defined.
Lemma predicate_compile_exact_witness :
  ∃ c, CompiledPredicate_compile sample_predicate (fields sample_manifest) = Ok c.
Proof. exact (predicate_compile_exact (fields sample_manifest) sample_predicate sample_literals). Defined.
Lemma pruning_history_sound_witness :
  ∃ s k, expand_many sample_hash (PartitionSynopsis_empty sample_manifest) sample_manifest
      [[Value.I64 5; Value.F64 0]; [Value.Null; Value.F64 0]] = Ok s ∧
    classify sample_hash sample_compiled sample_manifest s 1 = Ok k ∧
    k ≠ SynopsisClassification.NoMatch.
Proof.
  destruct (pruning_history_sound sample_hash sample_manifest sample_predicate sample_compiled
    [[Value.I64 5; Value.F64 0]; [Value.Null; Value.F64 0]] [[Value.I64 5; Value.F64 0]]
    sample_manifest_ok sample_literals sample_compiles) as (s & k & He & Hk & Hn).
  - apply List.Forall_cons; [split; [dec_compute|reflexivity]|].
    apply List.Forall_cons; [split; [dec_compute|reflexivity]|apply List.Forall_nil].
  - intros row Hin. set_solver.
  - apply List.Forall_cons; [reflexivity|apply List.Forall_nil].
  - exists s, k. split; [done|]. split; [done|].
    apply (Hn [Value.I64 5; Value.F64 0]); [by left|vm_compute; reflexivity].
Defined.
