(* ===== verification/Backend.v ===== *)
(** The storage-backend contract (src/src/storage/backend.rs): limits and
    budgets, scan pages with their continuation, mutations, and the commit
    claim raced by a commit and its cancellation. *)
From S2P Require Import Prelude RustStd Keys KeyRanges.

(** ** Limits *)
Record HardLimits := mkHardLimits { hl_max_key_bytes : Z; hl_max_value_bytes : Z }.
Record AdmissionBudget := mkBudget {
  ab_max_mutations : Z; ab_max_mutation_bytes : Z; ab_mutation_key_overhead_bytes : Z
}.
Record ScanLimits := mkScanLimits { sl_item_limit : Z; sl_byte_limit : Z }.

(** ** The commit claim *)

(** The [AtomicBool] shared by a [CommitStart] and its [CommitCancellation]:
    [compare_exchange(false, true)] returns the claim afterwards and whether it
    was won. *)
Definition compare_exchange (claim : bool) : bool * bool := (true, negb claim).
(** A [CommitStart] without a claim is uncontrolled. *)
Definition CommitStart_begin (claim : option bool) : option bool * result unit :=
  match claim with
  | None => (None, Ok tt)
  | Some c => let '(c', won) := compare_exchange c in (Some c', if won then Ok tt else Err Cancelled)
  end.
Definition CommitCancellation_pair : bool := false.
Definition CommitCancellation_cancel (claim : bool) : bool * bool := compare_exchange claim.

(** ** Scan pages *)
Record ScanItem := mkItem { si_key : list Z; si_value : list Z }.
Record ScanPage := mkPage { sp_items : list ScanItem; sp_next_start : option (list Z) }.
Definition ScanPage_terminal (items : list ScanItem) : ScanPage := mkPage items None.
Definition scan_successor (key : list Z) (max_key_bytes : Z) : list Z :=
  if len key <? max_key_bytes then key ++ [0] else successor key.
Definition ScanPage_continued (items : list ScanItem) (max_key_bytes : Z) : result ScanPage :=
  ok_or Backend (si_key <$> list_basics.list.last items) ≫= λ last_key,
  Ok (mkPage items (Some (scan_successor last_key max_key_bytes))).
Definition ScanPage_is_terminal (p : ScanPage) : bool :=
  match sp_next_start p with None => true | Some _ => false end.

(** ** Mutations *)
Module Mutation.
Inductive t :=
  | Put (key value : list Z)
  | Delete (key : list Z).
End Mutation.
Module InsertOutcome.
Inductive t := Inserted | AlreadyExists.
#[export] Instance eq_dec : EqDecision t.
Proof. solve_decision. Defined.
End InsertOutcome.
Export (hints) InsertOutcome.

(** ** The commit race *)

(** The two atomic operations on one claim. *)
Inductive claim_op := BeginOp | CancelOp.
Definition claim_step (op : claim_op) (claim : bool) : bool * bool :=
  match op with
  | BeginOp => match CommitStart_begin (Some claim) with
               | (Some c, r) => (c, is_ok r)
               | (None, r) => (claim, is_ok r)
               end
  | CancelOp => CommitCancellation_cancel claim
  end.
(** The winners of a sequence of attempts. *)
Fixpoint claim_winners (ops : list claim_op) (claim : bool) : list bool :=
  match ops with
  | [] => []
  | op :: ops => let '(c, won) := claim_step op claim in won :: claim_winners ops c
  end.

Lemma claim_taken ops : claim_winners ops true = replicate (length ops) false.
Proof. induction ops as [|[] ops IH]; [done|..]; cbn; by rewrite IH. Qed.

(** However begins and cancellations of one commit are ordered, the first
    attempt on the claim wins and every later one loses: a commit never starts
    after a successful cancellation, and a cancellation never succeeds after the
    commit started. *)
Lemma commit_claim_exclusive op ops :
  claim_winners (op :: ops) CommitCancellation_pair = true :: replicate (length ops) false.
Proof. destruct op; cbn; by rewrite claim_taken. Qed.

(** ** Continuations *)

(** Keys a backend with the limit accepts. *)
Definition backend_key (max_key_bytes : Z) (key : list Z) : Prop :=
  bytes_ok key ∧ len key ≤ max_key_bytes.

Lemma successor_len (p : list Z) : len (successor p) ≤ len p.
Proof.
  induction p as [|b p IH]; [done|]. rewrite successor_cons. pose proof (len_nonneg p).
  destruct (successor p) as [|x s]; [destruct (b =? 255)|]; rewrite ?len_cons, ?len_nil in *; lia.
Qed.
Lemma prefix_full (p k : list Z) : p `prefix_of` k → len k ≤ len p → k = p.
Proof.
  intros [s ->] Hl. rewrite len_app in Hl. destruct s as [|x s]; [by rewrite app_nil_r|].
  rewrite len_cons in Hl. pose proof (len_nonneg s). lia.
Qed.
(** At the length limit, a key above another has a nonempty successor. *)
Lemma successor_exists k x :
  bytes_ok k → bytes_ok x → len x ≤ len k → k <ₗ x → successor k ≠ [].
Proof.
  intros Hk Hx Hl Hlt E. pose proof (lex_lt_le _ _ Hlt) as Hle. apply all_ff_le in Hle; [|done..].
  apply prefix_full in Hle as ->; [|done]. by apply lex_lt_irrefl in Hlt.
Qed.
(** The continuation of a page neither skips nor repeats a key. *)
Lemma scan_successor_spec max_key_bytes k x :
  backend_key max_key_bytes k → backend_key max_key_bytes x →
  len k < max_key_bytes ∨ successor k ≠ [] →
  scan_successor k max_key_bytes ≤ₗ x ↔ k <ₗ x.
Proof.
  intros [Hk Hlk] [Hx Hlx] Hs. unfold scan_successor. destruct (Z.ltb_spec (len k) max_key_bytes).
  { by apply lex_le_snoc0. }
  destruct Hs as [|Hs]; [lia|]. pose proof (prefix_range_spec k x Hk Hx Hs) as Hr.
  pose proof (proj2 (prefix_range_spec k k Hk Hk Hs) (reflexivity k)) as [_ Hkk].
  unfold in_key_range, prefix_range in Hr. cbn [range_start range_end] in Hr, Hkk. split.
  - intros Hge. destruct (decide (k <ₗ x)) as [|Hn%lex_le_not_lt]; [done|]. exfalso.
    apply (lex_lt_irrefl k). eapply lex_lt_le_trans; [exact Hkk|]. by etrans.
  - intros Hlt. apply lex_le_not_lt. intros Hsx.
    assert (k `prefix_of` x) as ->%prefix_full by (apply Hr; split; [by apply lex_lt_le|done]); [|lia].
    by apply lex_lt_irrefl in Hlt.
Qed.
Lemma scan_successor_len k max_key_bytes : len k ≤ max_key_bytes → len (scan_successor k max_key_bytes) ≤ max_key_bytes.
Proof.
  intros Hl. unfold scan_successor. destruct (Z.ltb_spec (len k) max_key_bytes).
  - rewrite len_app. change (len [0]) with 1. lia.
  - pose proof (successor_len k). lia.
Qed.
