(* ===== verification/Memory.v ===== *)
(** The in-memory transactional backend (src/ktann-memory/src/lib.rs, default
    features): committed data, conflict evidence kept while write snapshots
    live, private write transactions and their optimistic commit. *)
From stdpp Require Import gmap sorting.
From S2P Require Import Prelude RustStd Keys KeyRanges Backend.

Definition HARD_LIMITS : HardLimits := mkHardLimits 10000 100000.
Definition BUDGET : AdmissionBudget := mkBudget 10000 (2 ^ 20) 0.
Definition MAX_HISTORY_KEYS : Z := 100000.
Definition MAX_HISTORY_BYTES : Z := 8 * 2 ^ 20.

(** ** Committed state *)
Record Revision := mkRevision { rv_number : Z; rv_keys : list (list Z) }.
Record State := mkState {
  st_data : gmap (list Z) (list Z);
  st_revision : Z;
  st_writers : gmap Z Z;
  st_modified : gmap (list Z) Z;
  st_history : list Revision;
  st_history_keys : Z;
  st_history_bytes : Z;
  st_conflict_floor : Z
}.
Definition State_default : State := mkState ∅ 0 ∅ ∅ [] 0 0 0.

(** [usize] subtraction, which panics on underflow in checked builds. *)
Definition sub_usize (a b : Z) : result Z := if a <? b then Panic else Ok (a - b).

(** [writers.first_key_value()]: the least registered revision. *)
Definition first_key (m : gmap Z Z) : option Z :=
  foldr (λ r acc, Some (match acc with Some a => Z.min r a | None => r end)) None (map_to_list m).*1.

(** The body of one pruning iteration, for the popped revision. *)
Fixpoint forget_keys (number : Z) (keys : list (list Z)) (bytes : Z) (modified : gmap (list Z) Z)
    : result (Z * gmap (list Z) Z) :=
  match keys with
  | [] => Ok (bytes, modified)
  | key :: keys =>
      sub_usize bytes (len key) ≫= λ bytes,
      forget_keys number keys bytes
        (if decide (modified !! key = Some number) then delete key modified else modified)
  end.
Definition history_full (keys bytes count : Z) : bool :=
  (MAX_HISTORY_KEYS <? keys) || (MAX_HISTORY_BYTES <? bytes) || (MAX_HISTORY_KEYS <? count).
(** The pruning loop; every iteration pops the front of the history. *)
Fixpoint prune_loop (oldest : Z) (history : list Revision) (keys bytes floor : Z)
    (modified : gmap (list Z) Z) : result (list Revision * Z * Z * Z * gmap (list Z) Z) :=
  match history with
  | [] =>
      if history_full keys bytes (len history) then Panic
      else Ok (history, keys, bytes, floor, modified)
  | revision :: rest =>
      if (rv_number revision <=? oldest) || history_full keys bytes (len history)
      then
        sub_usize keys (len (rv_keys revision)) ≫= λ keys,
        forget_keys (rv_number revision) (rv_keys revision) bytes modified ≫= λ '(bytes, modified),
        prune_loop oldest rest keys bytes (rv_number revision) modified
      else Ok (history, keys, bytes, floor, modified)
  end.
Definition prune_history (s : State) : result State :=
  let oldest := default (st_revision s) (first_key (st_writers s)) in
  prune_loop oldest (st_history s) (st_history_keys s) (st_history_bytes s) (st_conflict_floor s)
    (st_modified s) ≫= λ '(history, keys, bytes, floor, modified),
  Ok (mkState (st_data s) (st_revision s) (st_writers s) modified history keys bytes floor).
Definition release_writer (s : State) (revision : Z) : result State :=
  or_panic (st_writers s !! revision) ≫= λ count,
  sub_usize count 1 ≫= λ count,
  let writers := if count =? 0 then delete revision (st_writers s)
                 else <[revision := count]> (st_writers s) in
  prune_history (mkState (st_data s) (st_revision s) writers (st_modified s) (st_history s)
    (st_history_keys s) (st_history_bytes s) (st_conflict_floor s)).

(** ** Reads *)
Definition validate_key (key : list Z) : result unit :=
  if hl_max_key_bytes HARD_LIMITS <? len key then Err LimitExceeded else Ok tt.
Definition lookup_key (data : gmap (list Z) (list Z)) (key : list Z) : result (option (list Z)) :=
  validate_key key ≫= λ _, Ok (data !! key).
Definition lookup_batch (data : gmap (list Z) (list Z)) (keys : list (list Z))
    : result (list (option (list Z))) := mapM (lookup_key data) keys.
Definition validate_scan (limits : ScanLimits) : result unit :=
  if (sl_item_limit limits =? 0) || (sl_byte_limit limits =? 0) then Err InvalidArgument else Ok tt.

(** The entries of an [OrdMap] in key order, and those of a half-open range. *)
Definition entry_le (a b : ScanItem) : Prop := si_key a ≤ₗ si_key b.
#[global] Instance entry_le_dec : RelDecision entry_le.
Proof. intros a b. unfold entry_le. apply _. Defined.
Definition ordered (data : gmap (list Z) (list Z)) : list ScanItem :=
  merge_sort entry_le ((λ '(k, v), mkItem k v) <$> map_to_list data).
Definition in_bounds (range : KeyRange) (item : ScanItem) : bool :=
  bool_decide (range_start range ≤ₗ si_key item) && bool_decide (si_key item <ₗ range_end range).
Definition range_entries (data : gmap (list Z) (list Z)) (range : KeyRange) : list ScanItem :=
  List.filter (in_bounds range) (ordered data).

(** The page loop: [items] is the page so far. *)
Fixpoint scan_loop (entries items : list ScanItem) (bytes : Z) (limits : ScanLimits) : result ScanPage :=
  match entries with
  | [] => Ok (ScanPage_terminal items)
  | entry :: entries =>
      let item_bytes := len (si_key entry) + len (si_value entry) in
      if negb (len items =? 0)
         && ((len items =? sl_item_limit limits)
             || (Z.max 0 (sl_byte_limit limits - bytes) <? item_bytes))
      then ScanPage_continued items (hl_max_key_bytes HARD_LIMITS)
      else scan_loop entries (items ++ [entry]) (bytes + item_bytes) limits
  end.
Definition scan_page (data : gmap (list Z) (list Z)) (range : KeyRange) (limits : ScanLimits)
    : result ScanPage :=
  validate_scan limits ≫= λ _,
  if decide (range_end range ≤ₗ range_start range) then Ok (ScanPage_terminal [])
  else
    validate_key (range_start range) ≫= λ _,
    validate_key (range_end range) ≫= λ _,
    scan_loop (range_entries data range) [] 0 limits.
Definition batch_scan (data : gmap (list Z) (list Z)) (ranges : list KeyRange) (limits : ScanLimits)
    : result (list ScanPage) :=
  validate_scan limits ≫= λ _, mapM (λ range, scan_page data range limits) ranges.

(** ** Transactions *)
(** A read transaction is its snapshot, the data it cloned. *)
Definition begin_read (s : State) : gmap (list Z) (list Z) := st_data s.
Record WriteTxn := mkTxn {
  tx_revision : Z;
  tx_view : gmap (list Z) (list Z);
  tx_protected : gset (list Z);
  tx_writes : gmap (list Z) (option (list Z));
  tx_mutation_count : Z;
  tx_mutation_bytes : Z
}.
Definition begin_write (s : State) : State * WriteTxn :=
  let revision := st_revision s in
  let count := default 0 (st_writers s !! revision) + 1 in
  (mkState (st_data s) revision (<[revision := count]> (st_writers s)) (st_modified s)
     (st_history s) (st_history_keys s) (st_history_bytes s) (st_conflict_floor s),
   mkTxn revision (st_data s) ∅ ∅ 0 0).

(** Setting one key of a map to an optional value. *)
Definition set_key {A} (key : list Z) (value : option A) (m : gmap (list Z) A) : gmap (list Z) A :=
  match value with Some v => <[key := v]> m | None => delete key m end.
Definition apply_point (t : WriteTxn) (key : list Z) (value : option (list Z)) : WriteTxn :=
  mkTxn (tx_revision t) (set_key key value (tx_view t)) (tx_protected t)
    (<[key := value]> (tx_writes t)) (tx_mutation_count t) (tx_mutation_bytes t).
Definition with_counts (t : WriteTxn) (count bytes : Z) : WriteTxn :=
  mkTxn (tx_revision t) (tx_view t) (tx_protected t) (tx_writes t) count bytes.
Definition value_len (value : option (list Z)) : Z :=
  match value with Some v => len v | None => 0 end.
Definition stage (t : WriteTxn) (key : list Z) (value : option (list Z)) : result WriteTxn :=
  validate_key key ≫= λ _,
  let value_bytes := value_len value in
  if hl_max_value_bytes HARD_LIMITS <? value_bytes then Err LimitExceeded
  else if tx_mutation_count t =? ab_max_mutations BUDGET then Err LimitExceeded
  else
    sub_usize (ab_max_mutation_bytes BUDGET) (tx_mutation_bytes t) ≫= λ room,
    if room <? len key + value_bytes then Err LimitExceeded
    else
      Ok (apply_point (with_counts t (tx_mutation_count t + 1)
            (tx_mutation_bytes t + (len key + value_bytes))) key value).
Definition protect (t : WriteTxn) (keys : list (list Z)) : WriteTxn :=
  mkTxn (tx_revision t) (tx_view t) (tx_protected t ∪ list_to_set keys) (tx_writes t)
    (tx_mutation_count t) (tx_mutation_bytes t).

(** Operations return the transaction afterwards together with the outcome: a
    failed [insert] has still protected its key. *)
Definition get_for_update (t : WriteTxn) (key : list Z) : WriteTxn * result (option (list Z)) :=
  match lookup_key (tx_view t) key with
  | Ok value => (protect t [key], Ok value)
  | Err e => (t, Err e)
  | Panic => (t, Panic)
  end.
Definition batch_get_for_update (t : WriteTxn) (keys : list (list Z))
    : WriteTxn * result (list (option (list Z))) :=
  match lookup_batch (tx_view t) keys with
  | Ok values => (protect t keys, Ok values)
  | Err e => (t, Err e)
  | Panic => (t, Panic)
  end.
Definition staged (t : WriteTxn) (r : result WriteTxn) : WriteTxn * result unit :=
  match r with Ok t' => (t', Ok tt) | Err e => (t, Err e) | Panic => (t, Panic) end.
Definition put (t : WriteTxn) (key value : list Z) : WriteTxn * result unit :=
  staged t (stage t key (Some value)).
Definition delete_key (t : WriteTxn) (key : list Z) : WriteTxn * result unit :=
  staged t (stage t key None).
Definition insert_key (t : WriteTxn) (key value : list Z) : WriteTxn * result InsertOutcome.t :=
  if hl_max_value_bytes HARD_LIMITS <? len value then (t, Err LimitExceeded)
  else match lookup_key (tx_view t) key with
  | Ok previous =>
      let t := protect t [key] in
      match previous with
      | Some _ => (t, Ok InsertOutcome.AlreadyExists)
      | None =>
          match stage t key (Some value) with
          | Ok t' => (t', Ok InsertOutcome.Inserted)
          | Err e => (t, Err e)
          | Panic => (t, Panic)
          end
      end
  | Err e => (t, Err e)
  | Panic => (t, Panic)
  end.

Definition mutation_parts (m : Mutation.t) : list Z * option (list Z) :=
  match m with
  | Mutation.Put key value => (key, Some value)
  | Mutation.Delete key => (key, None)
  end.
(** The validation pass: the byte total of the whole batch. *)
Fixpoint batch_admit (mutations : list Mutation.t) (bytes : Z) : result Z :=
  match mutations with
  | [] => Ok bytes
  | m :: mutations =>
      let '(key, value) := mutation_parts m in
      validate_key key ≫= λ _,
      if hl_max_value_bytes HARD_LIMITS <? value_len value then Err LimitExceeded
      else
        sub_usize (ab_max_mutation_bytes BUDGET) bytes ≫= λ room,
        if room <? len key + value_len value then Err LimitExceeded
        else batch_admit mutations (bytes + (len key + value_len value))
  end.
Fixpoint batch_apply (mutations : list Mutation.t) (t : WriteTxn) : WriteTxn :=
  match mutations with
  | [] => t
  | m :: mutations =>
      let '(key, value) := mutation_parts m in batch_apply mutations (apply_point t key value)
  end.
Definition batch_mutate_txn (t : WriteTxn) (mutations : list Mutation.t) : result WriteTxn :=
  sub_usize (ab_max_mutations BUDGET) (tx_mutation_count t) ≫= λ room,
  if room <? len mutations then Err LimitExceeded
  else
    batch_admit mutations (tx_mutation_bytes t) ≫= λ bytes,
    Ok (batch_apply mutations (with_counts t (tx_mutation_count t + len mutations) bytes)).
Definition batch_mutate (t : WriteTxn) (mutations : list Mutation.t) : WriteTxn * result unit :=
  staged t (batch_mutate_txn t mutations).
Definition clear_range (t : WriteTxn) (range : KeyRange) : WriteTxn * result unit :=
  (t, Err Unsupported).

(** ** Commit *)
Definition conflicts (s : State) (t : WriteTxn) : bool :=
  negb (bool_decide (tx_protected t = ∅))
  && ((tx_revision t <? st_conflict_floor s)
      || existsb (λ key, match st_modified s !! key with
                         | Some r => tx_revision t <? r
                         | None => false
                         end) (elements (tx_protected t))).
(** The keys of a [BTreeMap] in order. *)
Definition sorted_keys {A} (m : gmap (list Z) A) : list (list Z) := merge_sort lex_le (map_to_list m).*1.
Definition apply_writes (writes : gmap (list Z) (option (list Z))) (data : gmap (list Z) (list Z))
    : gmap (list Z) (list Z) :=
  foldl (λ d '(k, v), set_key k v d) data (map_to_list writes).
Definition publish (s : State) (t : WriteTxn) (revision : Z) : result State :=
  let keys := sorted_keys (tx_writes t) in
  prune_history (mkState (apply_writes (tx_writes t) (st_data s)) revision (st_writers s)
    (foldl (λ m k, <[k := revision]> m) (st_modified s) keys)
    (st_history s ++ [mkRevision revision keys])
    (st_history_keys s + len keys)
    (st_history_bytes s + foldr (λ k acc, len k + acc) 0 keys)
    (st_conflict_floor s)).
(** The body of [commit_with], before the transaction is dropped. *)
Definition commit_body (start : result unit) (t : WriteTxn) (s : State) : result State :=
  start ≫= λ _,
  if conflicts s t then Err RetryableAbort
  else if 2 ^ 64 <=? st_revision s + 1 then Err LimitExceeded
  else publish s t (st_revision s + 1).
(** [Drop]: also the whole of [rollback]. *)
Definition drop_txn (t : WriteTxn) (s : State) : result State := release_writer s (tx_revision t).
(** [commit_with] consumes the transaction: its outcome and the state after the
    transaction is dropped. *)
Definition commit_with (start : result unit) (t : WriteTxn) (s : State)
    : result (result unit * State) :=
  match commit_body start t s with
  | Ok s' => drop_txn t s' ≫= λ s', Ok (Ok tt, s')
  | Err e => drop_txn t s ≫= λ s', Ok (Err e, s')
  | Panic => Panic
  end.

(** ** The system: one shared state and the live write transactions *)
Record Sys := mkSys { sys_state : State; sys_live : list WriteTxn }.

(** What a client does with a live transaction between begin and commit. *)
Inductive txn_op :=
  | OpGetForUpdate (key : list Z)
  | OpBatchGetForUpdate (keys : list (list Z))
  | OpPut (key value : list Z)
  | OpInsert (key value : list Z)
  | OpDelete (key : list Z)
  | OpBatchMutate (mutations : list Mutation.t)
  | OpClearRange (range : KeyRange).
Definition run_op (op : txn_op) (t : WriteTxn) : WriteTxn :=
  match op with
  | OpGetForUpdate key => (get_for_update t key).1
  | OpBatchGetForUpdate keys => (batch_get_for_update t keys).1
  | OpPut key value => (put t key value).1
  | OpInsert key value => (insert_key t key value).1
  | OpDelete key => (delete_key t key).1
  | OpBatchMutate mutations => (batch_mutate t mutations).1
  | OpClearRange range => (clear_range t range).1
  end.

(** ** Abstract specification: a log of committed write sets *)
Abbreviation write_set := (gmap (list Z) (option (list Z))).
Definition replay_from (d : gmap (list Z) (list Z)) (log : list write_set) : gmap (list Z) (list Z) :=
  foldl (λ d w, apply_writes w d) d log.
Definition replay (log : list write_set) : gmap (list Z) (list Z) := replay_from ∅ log.
(** The data a transaction that began after [n] commits reads. *)
Definition snapshot_at (log : list write_set) (n : Z) : gmap (list Z) (list Z) := replay (ztake n log).
(** A protected read conflicts when a later commit wrote its key. *)
Definition log_conflict (log : list write_set) (t : WriteTxn) : Prop :=
  ∃ key w, key ∈ tx_protected t ∧ w ∈ zdrop (tx_revision t) log ∧ is_Some (w !! key).

(** Every interleaving of transactions, with the log their successful commits
    produce. *)
Inductive reaches : Sys → list write_set → Prop :=
  | reaches_init : reaches (mkSys State_default []) []
  | reaches_begin s live log s' t :
      reaches (mkSys s live) log → begin_write s = (s', t) → reaches (mkSys s' (t :: live)) log
  | reaches_op s l1 t l2 log op :
      reaches (mkSys s (l1 ++ t :: l2)) log → reaches (mkSys s (l1 ++ run_op op t :: l2)) log
  | reaches_drop s l1 t l2 log s' :
      reaches (mkSys s (l1 ++ t :: l2)) log → drop_txn t s = Ok s' → reaches (mkSys s' (l1 ++ l2)) log
  | reaches_commit s l1 t l2 log start r s' :
      reaches (mkSys s (l1 ++ t :: l2)) log → commit_with start t s = Ok (r, s') →
      reaches (mkSys s' (l1 ++ l2)) (log ++ match r with Ok _ => [tx_writes t] | _ => [] end).

(** ** Data and write sets *)
Lemma set_key_lookup {A} k (v : option A) m k' :
  set_key k v m !! k' = if decide (k = k') then v else m !! k'.
Proof.
  destruct v as [v|]; cbn [set_key]; case_decide as E; subst;
    by rewrite ?lookup_insert_eq, ?lookup_delete_eq, ?lookup_insert_ne, ?lookup_delete_ne.
Qed.
Lemma apply_list_lookup l d k :
  NoDup l.*1 →
  foldl (λ d '(k, v), set_key k v d) d l !! k
  = match (list_to_map l : gmap (list Z) (option (list Z))) !! k with Some v => v | None => d !! k end.
Proof.
  revert d. induction l as [|[k0 v0] l IH]; intros d Hnd; [by rewrite list_to_map_nil, lookup_empty|].
  apply list.NoDup_cons in Hnd as [Hnin Hnd]. cbn [foldl]. rewrite IH by done.
  destruct (decide (k0 = k)) as [->|Hne].
  - rewrite not_elem_of_list_to_map_1 by done. rewrite list_to_map_cons, lookup_insert_eq, set_key_lookup.
    by rewrite decide_True.
  - rewrite list_to_map_cons, lookup_insert_ne by done. rewrite set_key_lookup. by rewrite decide_False.
Qed.
Lemma apply_writes_lookup w d k :
  apply_writes w d !! k = match w !! k with Some v => v | None => d !! k end.
Proof.
  unfold apply_writes. rewrite apply_list_lookup by apply NoDup_fst_map_to_list.
  by rewrite list_to_map_to_list.
Qed.
Lemma apply_writes_set w d k v :
  apply_writes (<[k := v]> w) d = set_key k v (apply_writes w d).
Proof.
  apply map_eq. intros k'. rewrite set_key_lookup, !apply_writes_lookup.
  destruct (decide (k = k')) as [->|]; [by rewrite lookup_insert_eq|by rewrite lookup_insert_ne].
Qed.
Lemma apply_writes_empty d : apply_writes ∅ d = d.
Proof. apply map_eq. intros k. by rewrite apply_writes_lookup, lookup_empty. Qed.
Lemma replay_app d l1 l2 : replay_from d (l1 ++ l2) = replay_from (replay_from d l1) l2.
Proof. apply foldl_app. Qed.
Lemma replay_untouched d log k :
  (∀ w, w ∈ log → w !! k = None) → replay_from d log !! k = d !! k.
Proof.
  revert d. induction log as [|w log IH]; intros d H; [done|]. cbn [replay_from foldl].
  change (replay_from (apply_writes w d) log !! k = d !! k).
  rewrite IH by (intros; apply H; by right). rewrite apply_writes_lookup, H by by left. done.
Qed.

(** ** Conflict evidence *)

(** The last revision of [log] that wrote a key, when the first entry of [log]
    is revision [n + 1]. *)
Fixpoint last_write (n : Z) (log : list write_set) (key : list Z) : option Z :=
  match log with
  | [] => None
  | w :: log =>
      match last_write (n + 1) log key with
      | Some r => Some r
      | None => match w !! key with Some _ => Some (n + 1) | None => None end
      end
  end.
(** The retained history of a log suffix, and what it costs. *)
Fixpoint history_of (n : Z) (log : list write_set) : list Revision :=
  match log with
  | [] => []
  | w :: log => mkRevision (n + 1) (sorted_keys w) :: history_of (n + 1) log
  end.
Definition key_bytes (keys : list (list Z)) : Z := foldr (λ k acc, len k + acc) 0 keys.
Definition evidence_keys (log : list write_set) : Z := foldr (λ w acc, len (sorted_keys w) + acc) 0 log.
Definition evidence_bytes (log : list write_set) : Z := foldr (λ w acc, key_bytes (sorted_keys w) + acc) 0 log.

Lemma last_write_bounds n log k r : last_write n log k = Some r → n < r ≤ n + len log.
Proof.
  revert n. induction log as [|w log IH]; intros n H; [done|]. cbn [last_write] in H. rewrite len_cons.
  pose proof (len_nonneg log). destruct (last_write (n + 1) log k) eqn:E.
  - injection H as <-. apply IH in E. lia.
  - destruct (w !! k); [|done]. injection H as <-. lia.
Qed.
Lemma last_write_none n log k : last_write n log k = None ↔ ∀ w, w ∈ log → w !! k = None.
Proof.
  revert n. induction log as [|w log IH]; intros n; cbn [last_write].
  { split; [by intros _ w ?%elem_of_nil|done]. }
  specialize (IH (n + 1)). destruct (last_write (n + 1) log k) as [r|].
  - split; [done|]. intros H. exfalso. enough (Some r = None) by done. apply IH. intros. apply H. by right.
  - destruct (w !! k) eqn:E; split; [done| | |done].
    + intros H. specialize (H w). rewrite E in H. by discriminate H; left.
    + intros _ w' [->|Hin]%elem_of_cons; [done|]. by apply IH.
Qed.
Lemma last_write_app n l1 l2 k :
  last_write n (l1 ++ l2) k
  = match last_write (n + len l1) l2 k with Some r => Some r | None => last_write n l1 k end.
Proof.
  revert n. induction l1 as [|w l1 IH]; intros n; cbn [app last_write].
  { rewrite len_nil, Z.add_0_r. by destruct (last_write n l2 k). }
  rewrite IH, len_cons. replace (n + 1 + len l1) with (n + (1 + len l1)) by lia.
  by destruct (last_write _ l2 k).
Qed.
Lemma history_of_app n l1 l2 : history_of n (l1 ++ l2) = history_of n l1 ++ history_of (n + len l1) l2.
Proof.
  revert n. induction l1 as [|w l1 IH]; intros n; cbn [app history_of].
  { by rewrite len_nil, Z.add_0_r. }
  rewrite IH, len_cons. do 3 f_equal. lia.
Qed.
Lemma len_history_of n log : len (history_of n log) = len log.
Proof. revert n. induction log as [|w log IH]; intros n; [done|]. cbn [history_of]. by rewrite !len_cons, IH. Qed.
Lemma key_bytes_nonneg keys : 0 ≤ key_bytes keys.
Proof. induction keys as [|k keys IH]; [done|]. cbn. pose proof (len_nonneg k). unfold key_bytes in *. lia. Qed.
Lemma evidence_nonneg log : 0 ≤ evidence_keys log ∧ 0 ≤ evidence_bytes log.
Proof.
  induction log as [|w log IH]; [done|]. cbn. pose proof (len_nonneg (sorted_keys w)).
  pose proof (key_bytes_nonneg (sorted_keys w)). unfold evidence_keys, evidence_bytes in *. lia.
Qed.
Lemma evidence_app l1 l2 :
  evidence_keys (l1 ++ l2) = evidence_keys l1 + evidence_keys l2 ∧
  evidence_bytes (l1 ++ l2) = evidence_bytes l1 + evidence_bytes l2.
Proof. induction l1 as [|w l1 IH]; [done|]. cbn. unfold evidence_keys, evidence_bytes in *. lia. Qed.
Lemma elem_of_sorted_keys {A} (m : gmap (list Z) A) k : k ∈ sorted_keys m ↔ is_Some (m !! k).
Proof.
  unfold sorted_keys. rewrite merge_sort_Permutation. rewrite list_elem_of_fmap. split.
  - intros ([k' v] & -> & H%elem_of_map_to_list). by eexists.
  - intros [v Hv]. exists (k, v). split; [done|]. by apply elem_of_map_to_list.
Qed.

Lemma forget_keys_ok number keys bytes modified :
  key_bytes keys ≤ bytes →
  ∃ modified', forget_keys number keys bytes modified = Ok (bytes - key_bytes keys, modified') ∧
    ∀ k, modified' !! k = if decide (k ∈ keys ∧ modified !! k = Some number) then None else modified !! k.
Proof.
  revert bytes modified. induction keys as [|key keys IH]; intros bytes modified Hb; cbn [forget_keys].
  { exists modified. cbn. split; [by rewrite Z.sub_0_r|]. intros k. case_decide as Hd; [|done].
    destruct Hd as [Hd _]. by apply elem_of_nil in Hd. }
  change (key_bytes (key :: keys)) with (len key + key_bytes keys) in *. pose proof (key_bytes_nonneg keys).
  unfold sub_usize. destruct (Z.ltb_spec bytes (len key)); [lia|]. cbn [mbind result_bind].
  destruct (IH (bytes - len key) (if decide (modified !! key = Some number) then delete key modified else modified))
    as (m' & -> & Hm); [lia|]. exists m'. split; [do 2 f_equal; lia|]. intros k. rewrite Hm.
  destruct (decide (modified !! key = Some number)) as [Hk|Hk].
  - destruct (decide (key = k)) as [->|Hne].
    + rewrite lookup_delete_eq. rewrite !decide_False by naive_solver. symmetry. apply decide_True. split; [by left|done].
    + rewrite lookup_delete_ne by done. apply decide_ext. rewrite elem_of_cons. naive_solver.
  - apply decide_ext. rewrite elem_of_cons. naive_solver.
Qed.

(** The state holds exactly the evidence of the log suffix [recent] above the
    conflict floor. *)
Definition evidence (recent : list write_set) (floor : Z) (history : list Revision) (keys bytes : Z)
    (modified : gmap (list Z) Z) : Prop :=
  history = history_of floor recent ∧ keys = evidence_keys recent ∧ bytes = evidence_bytes recent ∧
  ∀ k, modified !! k = last_write floor recent k.
(** Pruning never panics, keeps exact evidence of a shorter suffix, and stops
    within its bounds with every retained revision above the oldest snapshot. *)
Lemma prune_loop_ok oldest recent floor history keys bytes modified :
  evidence recent floor history keys bytes modified →
  ∃ gone recent' history' keys' bytes' modified',
    recent = gone ++ recent' ∧
    prune_loop oldest history keys bytes floor modified
      = Ok (history', keys', bytes', floor + len gone, modified') ∧
    evidence recent' (floor + len gone) history' keys' bytes' modified' ∧
    history_full keys' bytes' (len history') = false ∧
    (∀ r, r ∈ history' → oldest < rv_number r).
Proof.
  intros (-> & -> & -> & Hm). revert floor modified Hm.
  induction recent as [|w recent IH]; intros floor modified Hm.
  { exists [], [], [], 0, 0, modified. rewrite (@len_nil write_set), Z.add_0_r. split_and!; try done.
    by intros r ?%elem_of_nil. }
  cbn [history_of prune_loop rv_number rv_keys].
  assert (∀ r, r ∈ history_of floor (w :: recent) → floor + 1 ≤ rv_number r) as Hnum.
  { clear. generalize (w :: recent) as l. intros l. revert floor.
    induction l as [|x l IH]; intros floor r; cbn [history_of]; [by intros ?%elem_of_nil|].
    intros [->|Hin]%elem_of_cons; [done|]. apply IH in Hin. lia. }
  destruct ((floor + 1 <=? oldest) || _) eqn:Hc.
  - destruct (evidence_nonneg recent) as [Hk Hb].
    change (evidence_keys (w :: recent)) with (len (sorted_keys w) + evidence_keys recent).
    change (evidence_bytes (w :: recent)) with (key_bytes (sorted_keys w) + evidence_bytes recent).
    pose proof (key_bytes_nonneg (sorted_keys w)).
    unfold sub_usize. destruct (Z.ltb_spec (len (sorted_keys w) + evidence_keys recent) (len (sorted_keys w)));
      [lia|]. cbn [mbind result_bind].
    destruct (forget_keys_ok (floor + 1) (sorted_keys w) (key_bytes (sorted_keys w) + evidence_bytes recent)
      modified) as (m' & -> & Hm'); [lia|]. cbn [mbind result_bind].
    replace (len (sorted_keys w) + evidence_keys recent - len (sorted_keys w)) with (evidence_keys recent) by lia.
    replace (key_bytes (sorted_keys w) + evidence_bytes recent - key_bytes (sorted_keys w))
      with (evidence_bytes recent) by lia.
    destruct (IH (floor + 1) m') as (gone & recent' & h' & k' & b' & m2 & -> & E & He & Hf & Hn).
    { intros k. rewrite Hm'. pose proof (Hm k) as Hk'. pose proof (elem_of_sorted_keys w k) as Hs.
      cbn [last_write] in Hk'. destruct (last_write (floor + 1) recent k) as [r|] eqn:El.
      - apply last_write_bounds in El. case_decide as Hd; [|done]. destruct Hd as [_ Hd].
        rewrite Hk' in Hd. injection Hd. lia.
      - destruct (w !! k) as [v|]; case_decide as Hd; naive_solver. }
    exists (w :: gone), recent', h', k', b', m2. rewrite len_cons.
    replace (floor + (1 + len gone)) with (floor + 1 + len gone) by lia. done.
  - apply orb_false_iff in Hc as [Ho Hc]. apply Z.leb_gt in Ho.
    exists [], (w :: recent), (history_of floor (w :: recent)), (evidence_keys (w :: recent)),
      (evidence_bytes (w :: recent)), modified.
    rewrite (@len_nil write_set), Z.add_0_r. split_and!; try done. intros r Hr%Hnum. lia.
Qed.

(** ** The invariant *)
Definition evident (s : State) (log : list write_set) : Prop :=
  ∃ old recent, log = old ++ recent ∧ st_conflict_floor s = len old ∧
    evidence recent (len old) (st_history s) (st_history_keys s) (st_history_bytes s) (st_modified s).
Definition history_bounded (s : State) : Prop :=
  history_full (st_history_keys s) (st_history_bytes s) (len (st_history s)) = false.
Definition count_at (r : Z) (live : list WriteTxn) : Z :=
  len (List.filter (λ t, tx_revision t =? r) live).
Definition registered (writers : gmap Z Z) (live : list WriteTxn) : Prop :=
  ∀ r, writers !! r = let c := count_at r live in if c =? 0 then None else Some c.
(** Every retained revision is newer than the snapshot of a live transaction. *)
Definition needed (s : State) (live : list WriteTxn) : Prop :=
  ∀ r, r ∈ st_history s → ∃ t, t ∈ live ∧ tx_revision t < rv_number r.
Record txn_inv (log : list write_set) (t : WriteTxn) : Prop := {
  ti_revision : 0 ≤ tx_revision t ≤ len log;
  ti_view : tx_view t = apply_writes (tx_writes t) (snapshot_at log (tx_revision t));
  ti_count : Z.of_nat (size (tx_writes t)) ≤ tx_mutation_count t ≤ ab_max_mutations BUDGET;
  ti_bytes : 0 ≤ tx_mutation_bytes t ≤ ab_max_mutation_bytes BUDGET
}.
Record sys_inv (sys : Sys) (log : list write_set) : Prop := {
  si_evident : evident (sys_state sys) log;
  si_bounded : history_bounded (sys_state sys);
  si_revision : st_revision (sys_state sys) = len log;
  si_range : len log < 2 ^ 64;
  si_data : st_data (sys_state sys) = replay log;
  si_writers : registered (st_writers (sys_state sys)) (sys_live sys);
  si_live : Forall (txn_inv log) (sys_live sys);
  si_needed : needed (sys_state sys) (sys_live sys)
}.

Lemma prune_history_ok s log :
  evident s log →
  ∃ s', prune_history s = Ok s' ∧ evident s' log ∧ history_bounded s' ∧
    st_data s' = st_data s ∧ st_revision s' = st_revision s ∧ st_writers s' = st_writers s ∧
    (∀ r, r ∈ st_history s' → default (st_revision s) (first_key (st_writers s)) < rv_number r).
Proof.
  intros (old & recent & -> & Hf & He). unfold prune_history. rewrite Hf.
  destruct (prune_loop_ok (default (st_revision s) (first_key (st_writers s))) _ _ _ _ _ _ He)
    as (gone & recent' & h & k & b & m & -> & -> & He' & Hb & Hn). cbn [mbind result_bind].
  eexists. split; [done|]. split_and!; try done. exists (old ++ gone), recent'.
  rewrite len_app. by rewrite <-app_assoc.
Qed.

(** Registration follows the live transactions. *)
Lemma count_at_nonneg r live : 0 ≤ count_at r live.
Proof. apply len_nonneg. Qed.
Lemma count_at_cons r t live :
  count_at r (t :: live) = (if tx_revision t =? r then 1 else 0) + count_at r live.
Proof. unfold count_at. cbn [List.filter]. destruct (_ =? _); [by rewrite len_cons|done]. Qed.
Lemma count_at_middle r l1 t l2 : count_at r (l1 ++ t :: l2) = count_at r (t :: l1 ++ l2).
Proof.
  rewrite count_at_cons. unfold count_at. rewrite !List.filter_app, !len_app. cbn [List.filter].
  destruct (_ =? _); rewrite ?len_cons; lia.
Qed.
Lemma registered_middle writers l1 t l2 :
  registered writers (l1 ++ t :: l2) ↔ registered writers (t :: l1 ++ l2).
Proof. unfold registered. split; intros H r; rewrite H; cbv zeta; by rewrite count_at_middle. Qed.
Lemma registered_begin writers live t :
  registered writers live →
  registered (<[tx_revision t := default 0 (writers !! tx_revision t) + 1]> writers) (t :: live).
Proof.
  intros H r. cbv zeta. rewrite count_at_cons. pose proof (count_at_nonneg r live).
  destruct (Z.eqb_spec (tx_revision t) r) as [<-|Hne].
  - rewrite lookup_insert_eq, H. cbv zeta. destruct (Z.eqb_spec (count_at (tx_revision t) live) 0) as [->|];
      cbn [default from_option]; [done|]. rewrite (proj2 (Z.eqb_neq _ _)) by lia. f_equal. unfold id. lia.
  - rewrite lookup_insert_ne by done. by rewrite H.
Qed.
Lemma registered_release writers live t :
  registered writers (t :: live) →
  ∃ c, writers !! tx_revision t = Some c ∧ 1 ≤ c ∧
    registered (if c - 1 =? 0 then delete (tx_revision t) writers else <[tx_revision t := c - 1]> writers) live.
Proof.
  intros H. exists (1 + count_at (tx_revision t) live). pose proof (count_at_nonneg (tx_revision t) live).
  assert (writers !! tx_revision t = Some (1 + count_at (tx_revision t) live)) as E.
  { rewrite H. cbv zeta. rewrite count_at_cons, Z.eqb_refl. by rewrite (proj2 (Z.eqb_neq _ _)) by lia. }
  split; [done|]. split; [lia|]. replace (1 + count_at (tx_revision t) live - 1) with (count_at (tx_revision t) live) by lia.
  intros r. cbv zeta. destruct (decide (tx_revision t = r)) as [<-|Hne].
  - destruct (Z.eqb_spec (count_at (tx_revision t) live) 0) as [E0|];
      by rewrite ?lookup_delete_eq, ?lookup_insert_eq.
  - assert (writers !! r = if count_at r live =? 0 then None else Some (count_at r live)) as Hr.
    { rewrite H. cbv zeta. rewrite count_at_cons. by rewrite (proj2 (Z.eqb_neq (tx_revision t) r) Hne). }
    destruct (count_at (tx_revision t) live =? 0);
      rewrite ?lookup_delete_ne, ?lookup_insert_ne by done; exact Hr.
Qed.
Lemma first_key_some m : first_key m ≠ None → ∃ a, first_key m = Some a ∧ is_Some (m !! a).
Proof.
  unfold first_key. assert (∀ r, r ∈ (map_to_list m).*1 → is_Some (m !! r)) as Hin.
  { intros r ([r' c] & -> & H%elem_of_map_to_list)%list_elem_of_fmap. by eexists. }
  revert Hin. generalize (map_to_list m).*1. induction l as [|r l IH]; intros Hin Hne; [done|]. cbn [foldr] in *.
  destruct (foldr _ None l) as [a|] eqn:E.
  - destruct IH as (b & [= <-] & Hb); [intros; apply Hin; by right|done|].
    destruct (Z.min_dec r a) as [->| ->]; eexists; (split; [done|]); [apply Hin; by left|done].
  - exists r. split; [done|]. apply Hin. by left.
Qed.
Lemma first_key_empty m : first_key m = None → m = ∅.
Proof.
  unfold first_key. intros H. apply map_to_list_empty_iff. destruct (map_to_list m) as [|[r c] l]; [done|].
  cbn in H. destruct (foldr _ None _); done.
Qed.
Lemma history_numbers n log r : r ∈ history_of n log → n < rv_number r ≤ n + len log.
Proof.
  revert n. induction log as [|w log IH]; intros n; cbn [history_of]; [by intros ?%elem_of_nil|].
  rewrite len_cons. pose proof (len_nonneg log). intros [->|Hin]%elem_of_cons; [cbn; lia|]. apply IH in Hin. lia.
Qed.
Lemma registered_live writers live r : registered writers live → is_Some (writers !! r) → ∃ t, t ∈ live ∧ tx_revision t = r.
Proof.
  intros H [c Hc]. rewrite H in Hc. cbv zeta in Hc. destruct (Z.eqb_spec (count_at r live) 0) as [|Hn]; [done|].
  unfold count_at in Hn. destruct (List.filter _ live) as [|t l] eqn:E; [done|].
  assert (In t (List.filter (λ t, tx_revision t =? r) live)) as Hin by (rewrite E; by left).
  apply filter_In in Hin as [Hin Ht]. exists t. split; [by apply list_elem_of_In|]. by apply Z.eqb_eq.
Qed.
Lemma release_ok s log live t :
  evident s log → st_revision s = len log → registered (st_writers s) (t :: live) →
  ∃ s', drop_txn t s = Ok s' ∧ evident s' log ∧ history_bounded s' ∧
    st_data s' = st_data s ∧ st_revision s' = st_revision s ∧ registered (st_writers s') live ∧ needed s' live.
Proof.
  intros He Hrev Hw. destruct (registered_release _ _ _ Hw) as (c & Hc & Hc1 & Hw').
  unfold drop_txn, release_writer. rewrite Hc. cbn [or_panic mbind result_bind]. unfold sub_usize.
  destruct (Z.ltb_spec c 1); [lia|]. cbn [mbind result_bind]. cbv zeta.
  destruct (prune_history_ok (mkState (st_data s) (st_revision s)
    (if c - 1 =? 0 then delete (tx_revision t) (st_writers s) else <[tx_revision t := c - 1]> (st_writers s))
    (st_modified s) (st_history s) (st_history_keys s) (st_history_bytes s) (st_conflict_floor s)) log He)
    as (s' & -> & He' & Hb & Hd & Hr & Hws & Hn).
  exists s'. split_and!; try done; [by rewrite Hws|]. intros r Hin. pose proof (Hn r Hin) as Hold.
  cbn [st_revision st_writers] in Hold. destruct (first_key _) as [a|] eqn:Ea; cbn [default from_option] in Hold.
  - destruct (first_key_some _ ltac:(rewrite Ea; done)) as (b & Eb & Hb'). rewrite Ea in Eb. injection Eb as <-.
    destruct (registered_live _ _ _ Hw' Hb') as (t' & ? & Et). exists t'. split; [done|]. unfold id in Hold. lia.
  - destruct He' as (old & recent & -> & _ & Hh & _). rewrite Hh in Hin. apply history_numbers in Hin.
    rewrite len_app in Hrev. unfold id in Hold. lia.
Qed.

(** ** Client operations keep the transaction invariant *)
Lemma snapshot_at_app log more n : 0 ≤ n ≤ len log → snapshot_at (log ++ more) n = snapshot_at log n.
Proof.
  intros Hn. unfold snapshot_at. f_equal. unfold ztake. apply take_app_le. unfold len in Hn. lia.
Qed.
Lemma txn_inv_app log more t : txn_inv log t → txn_inv (log ++ more) t.
Proof.
  intros [Hr Hv Hc Hb]. pose proof (len_nonneg more). split; try done; [rewrite len_app; lia|].
  by rewrite snapshot_at_app.
Qed.
Lemma apply_point_inv log t key value count bytes :
  txn_inv log t → tx_mutation_count t + 1 ≤ count ≤ ab_max_mutations BUDGET →
  0 ≤ bytes ≤ ab_max_mutation_bytes BUDGET →
  txn_inv log (apply_point (with_counts t count bytes) key value).
Proof.
  intros [Hr Hv Hc Hb] Hcount Hbytes. split; cbn [apply_point with_counts tx_revision tx_view tx_writes
    tx_mutation_count tx_mutation_bytes]; [done| |split; [|lia]|done].
  - by rewrite Hv, apply_writes_set.
  - destruct (tx_writes t !! key) eqn:E; [rewrite map_size_insert_Some by done|rewrite map_size_insert_None by done]; lia.
Qed.
Lemma stage_inv log t key value t' : txn_inv log t → stage t key value = Ok t' → txn_inv log t'.
Proof.
  intros Hi H. pose proof Hi as [_ _ Hc Hb]. unfold stage in H. apply bind_ok in H as ([] & _ & H).
  cbv zeta in H. destruct (_ <? value_len value); [done|].
  destruct (Z.eqb_spec (tx_mutation_count t) (ab_max_mutations BUDGET)); [done|].
  apply bind_ok in H as (room & Hroom & H). unfold sub_usize in Hroom.
  destruct (_ <? tx_mutation_bytes t); [done|]. apply Ok_inj in Hroom as <-.
  destruct (Z.ltb_spec (ab_max_mutation_bytes BUDGET - tx_mutation_bytes t) (len key + value_len value)); [done|].
  apply Ok_inj in H as <-. assert (0 ≤ value_len value) by (destruct value; [apply len_nonneg|done]).
  pose proof (len_nonneg key). apply apply_point_inv; [done|lia|lia].
Qed.
Lemma protect_inv log t keys : txn_inv log t → txn_inv log (protect t keys).
Proof. by intros [??? ?]. Qed.
Lemma batch_apply_inv log ms t total bytes :
  txn_inv log t → tx_mutation_count t + len ms ≤ total ≤ ab_max_mutations BUDGET →
  0 ≤ bytes ≤ ab_max_mutation_bytes BUDGET → txn_inv log (batch_apply ms (with_counts t total bytes)).
Proof.
  revert t. induction ms as [|m ms IH]; intros t Hi Ht Hb; cbn [batch_apply].
  { rewrite len_nil in Ht. destruct Hi as [? ? [? ?] ?]. split; cbn [with_counts tx_revision tx_view tx_writes
      tx_mutation_count tx_mutation_bytes]; try done. lia. }
  rewrite len_cons in Ht. pose proof (len_nonneg ms). destruct (mutation_parts m) as [key value].
  change (apply_point (with_counts t total bytes) key value)
    with (with_counts (apply_point (with_counts t (tx_mutation_count t + 1) bytes) key value) total bytes).
  apply IH; [|cbn [apply_point with_counts tx_mutation_count]; lia|done].
  apply apply_point_inv; [done|lia|done].
Qed.
Lemma batch_admit_bounds ms bytes total :
  0 ≤ bytes ≤ ab_max_mutation_bytes BUDGET → batch_admit ms bytes = Ok total →
  bytes ≤ total ≤ ab_max_mutation_bytes BUDGET.
Proof.
  revert bytes. induction ms as [|m ms IH]; intros bytes Hb H; cbn [batch_admit] in H.
  { apply Ok_inj in H as <-. lia. }
  destruct (mutation_parts m) as [key value]. apply bind_ok in H as ([] & _ & H).
  destruct (_ <? value_len value); [done|]. apply bind_ok in H as (room & Hroom & H). unfold sub_usize in Hroom.
  destruct (_ <? bytes); [done|]. apply Ok_inj in Hroom as <-.
  destruct (Z.ltb_spec (ab_max_mutation_bytes BUDGET - bytes) (len key + value_len value)); [done|].
  assert (0 ≤ value_len value) by (destruct value; [apply len_nonneg|done]). pose proof (len_nonneg key).
  apply IH in H; lia.
Qed.
Lemma batch_mutate_inv log t ms t' : txn_inv log t → batch_mutate_txn t ms = Ok t' → txn_inv log t'.
Proof.
  intros Hi H. pose proof Hi as [_ _ Hc Hb]. unfold batch_mutate_txn in H.
  apply bind_ok in H as (room & Hroom & H). unfold sub_usize in Hroom.
  destruct (_ <? tx_mutation_count t); [done|]. apply Ok_inj in Hroom as <-.
  destruct (Z.ltb_spec (ab_max_mutations BUDGET - tx_mutation_count t) (len ms)); [done|].
  apply bind_ok in H as (bytes & Hbytes & H). apply Ok_inj in H as <-.
  apply batch_admit_bounds in Hbytes; [|done]. apply batch_apply_inv; [done|lia|lia].
Qed.
Lemma run_op_inv log op t : txn_inv log t → txn_inv log (run_op op t).
Proof.
  intros Hi. destruct op; cbn [run_op];
    unfold get_for_update, batch_get_for_update, put, delete_key, insert_key, batch_mutate, clear_range, staged.
  - destruct (lookup_key _ _); [by apply protect_inv|done..].
  - destruct (lookup_batch _ _); [by apply protect_inv|done..].
  - destruct (stage _ _ _) eqn:E; try done. by eapply stage_inv.
  - destruct (_ <? len value); [done|]. destruct (lookup_key _ _) as [[]| |]; [by apply protect_inv| |done..].
    destruct (stage _ _ _) eqn:E; [|by apply protect_inv..]. eapply stage_inv; [|done]. by apply protect_inv.
  - destruct (stage _ _ _) eqn:E; try done. by eapply stage_inv.
  - destruct (batch_mutate_txn _ _) eqn:E; try done. by eapply batch_mutate_inv.
  - done.
Qed.
Lemma batch_apply_revision ms t : tx_revision (batch_apply ms t) = tx_revision t.
Proof. revert t. induction ms as [|m ms IH]; intros t; [done|]. cbn [batch_apply]. destruct (mutation_parts m). by rewrite IH. Qed.
Lemma stage_revision t key value t' : stage t key value = Ok t' → tx_revision t' = tx_revision t.
Proof.
  unfold stage. intros H. apply bind_ok in H as ([] & _ & H). cbv zeta in H.
  destruct (_ <? _); [done|]. destruct (_ =? _); [done|]. apply bind_ok in H as (room & _ & H).
  destruct (_ <? _); [done|]. by apply Ok_inj in H as <-.
Qed.
Lemma run_op_revision op t : tx_revision (run_op op t) = tx_revision t.
Proof.
  destruct op; cbn [run_op];
    unfold get_for_update, batch_get_for_update, put, delete_key, insert_key, batch_mutate, clear_range, staged.
  - by destruct (lookup_key _ _).
  - by destruct (lookup_batch _ _).
  - destruct (stage _ _ _) eqn:E; try done. by apply stage_revision in E.
  - destruct (_ <? len value); [done|]. destruct (lookup_key _ _) as [[]| |]; try done.
    destruct (stage _ _ _) eqn:E; try done. by apply stage_revision in E.
  - destruct (stage _ _ _) eqn:E; try done. by apply stage_revision in E.
  - destruct (batch_mutate_txn _ _) eqn:E; try done. unfold batch_mutate_txn in E. inv_ok.
    by rewrite batch_apply_revision.
  - done.
Qed.

(** ** Commit *)
Lemma mark_modified_lookup (keys : list (list Z)) (revision : Z) (m : gmap (list Z) Z) (k : list Z) :
  foldl (λ m k, <[k := revision]> m) m keys !! k = if decide (k ∈ keys) then Some revision else m !! k.
Proof.
  revert m. induction keys as [|key keys IH]; intros m; cbn [foldl].
  { by rewrite decide_False by (by intros ?%elem_of_nil). }
  rewrite IH. destruct (decide (k ∈ keys)); [by rewrite decide_True by by right|].
  destruct (decide (key = k)) as [->|Hne].
  - rewrite lookup_insert_eq. by rewrite decide_True by by left.
  - rewrite lookup_insert_ne by done. by rewrite decide_False by (intros [->|?]%elem_of_cons; done).
Qed.
Lemma publish_ok s t log :
  evident s log → st_revision s = len log →
  ∃ s', publish s t (len log + 1) = Ok s' ∧ evident s' (log ++ [tx_writes t]) ∧ history_bounded s' ∧
    st_data s' = apply_writes (tx_writes t) (st_data s) ∧ st_revision s' = len log + 1 ∧
    st_writers s' = st_writers s.
Proof.
  intros (old & recent & -> & Hf & Hh & Hk & Hb & Hm) Hr. unfold publish. cbv zeta.
  set (s1 := mkState _ _ _ _ _ _ _ _).
  destruct (prune_history_ok s1 ((old ++ recent) ++ [tx_writes t])) as (s' & -> & He & Hbd & Hd & Hrv & Hw & _).
  2:{ by exists s'. }
  exists old, (recent ++ [tx_writes t]). unfold s1. cbn [st_conflict_floor st_history st_history_keys
    st_history_bytes st_modified]. split; [by rewrite app_assoc|]. split; [done|].
  destruct (evidence_app recent [tx_writes t]) as [E1 E2]. rewrite len_app in Hr |- *. split_and!.
  - rewrite history_of_app, Hh. done.
  - rewrite E1, Hk. cbn. lia.
  - rewrite E2, Hb. cbn. fold (key_bytes (sorted_keys (tx_writes t))). lia.
  - intros k. rewrite mark_modified_lookup, last_write_app. cbn [last_write].
    pose proof (elem_of_sorted_keys (tx_writes t) k) as Hs. rewrite Hm.
    destruct (tx_writes t !! k) as [v|]; case_decide as Hd; try done.
    + exfalso. apply Hd, Hs. by eexists.
    + apply Hs in Hd as [? ?]. done.
Qed.
Lemma conflicts_sound s t log :
  evident s log → 0 ≤ tx_revision t ≤ len log → conflicts s t = false → ¬ log_conflict log t.
Proof.
  intros (old & recent & -> & Hf & Hh & Hk & Hb & Hm) Hr Hc (key & w & Hkey & Hw & Hsome).
  unfold conflicts in Hc. apply andb_false_iff in Hc as [Hc|Hc].
  { apply negb_false_iff, bool_decide_eq_true in Hc. set_solver. }
  apply orb_false_iff in Hc as [Hfl%Z.ltb_ge Hc]. rewrite Hf in Hfl.
  assert (zdrop (tx_revision t) (old ++ recent) = zdrop (tx_revision t - len old) recent) as Ed.
  { unfold zdrop. rewrite drop_app_ge by (unfold len in *; lia). f_equal. unfold len in *. lia. }
  rewrite Ed in Hw. set (n := tx_revision t - len old) in *.
  assert (last_write (len old + n) (zdrop n recent) key ≠ None) as Hne.
  { intros E. rewrite last_write_none in E. rewrite (E w Hw) in Hsome. by destruct Hsome. }
  destruct (last_write (len old + n) (zdrop n recent) key) as [r|] eqn:Er; [|done].
  assert (last_write (len old) recent key = Some r) as Elw.
  { rewrite <-(take_drop (Z.to_nat n) recent). rewrite last_write_app.
    assert (len (take (Z.to_nat n) recent) = n) as ->.
    { unfold len in *. rewrite length_take. rewrite length_app in Hr. lia. }
    unfold zdrop in Er. by rewrite Er. }
  apply not_true_iff_false in Hc. apply Hc, existsb_exists. exists key.
  split; [by apply list_elem_of_In, elem_of_elements|]. rewrite Hm, Elw. apply Z.ltb_lt.
  apply last_write_bounds in Er. lia.
Qed.
Lemma conflicts_real s t log :
  evident s log → 0 ≤ tx_revision t ≤ len log → conflicts s t = true →
  log_conflict log t ∨ tx_revision t < st_conflict_floor s.
Proof.
  intros (old & recent & -> & Hf & Hh & Hk & Hb & Hm) Hr Hc. unfold conflicts in Hc.
  apply andb_true_iff in Hc as [_ Hc]. apply orb_true_iff in Hc as [Hc%Z.ltb_lt|Hc]; [by right|left].
  apply existsb_exists in Hc as (key & Hin & Hc). apply list_elem_of_In, elem_of_elements in Hin.
  rewrite Hm in Hc. destruct (last_write (len old) recent key) as [r|] eqn:Er; [|done]. apply Z.ltb_lt in Hc.
  assert (last_write 0 (old ++ recent) key = Some r) as Elw by by rewrite last_write_app, Z.add_0_l, Er.
  rewrite <-(take_drop (Z.to_nat (tx_revision t)) (old ++ recent)), last_write_app in Elw.
  set (l := drop (Z.to_nat (tx_revision t)) (old ++ recent)) in *.
  destruct (last_write _ l key) as [r'|] eqn:E'.
  2:{ apply last_write_bounds in Elw. unfold len in Elw, Hr. rewrite length_take in Elw. lia. }
  destruct (decide (Exists (λ w, is_Some (w !! key)) l)) as [(w & Hw & Hs)%Exists_exists|Hn].
  { apply list_elem_of_In in Hw. by exists key, w. }
  exfalso. enough (last_write (0 + len (take (Z.to_nat (tx_revision t)) (old ++ recent))) l key = None) by congruence.
  apply last_write_none. intros w Hw. destruct (w !! key) eqn:Ew; [|done].
  destruct Hn. apply Exists_exists. exists w. split; [by apply list_elem_of_In|by eexists].
Qed.

Lemma commit_ok start t s l1 l2 log :
  start ≠ Panic → sys_inv (mkSys s (l1 ++ t :: l2)) log →
  ∃ r s', commit_with start t s = Ok (r, s') ∧
    match r with
    | Ok _ => start = Ok tt ∧ ¬ log_conflict log t ∧ sys_inv (mkSys s' (l1 ++ l2)) (log ++ [tx_writes t])
    | Err e => sys_inv (mkSys s' (l1 ++ l2)) log ∧
        (start = Err e ∨ e = RetryableAbort ∧ (log_conflict log t ∨ tx_revision t < st_conflict_floor s) ∨
         e = LimitExceeded ∧ len log = 2 ^ 64 - 1)
    | Panic => False
    end.
Proof.
  intros Hst [He Hbd Hr Hrg Hd Hw Hl Hnd]. cbn [sys_state sys_live] in *.
  assert (Forall (txn_inv log) (t :: l1 ++ l2)) as Hall by (by rewrite Permutation_middle).
  apply Forall_cons_iff in Hall as [Ht Hrest]. pose proof Ht as [Htr _ _ _].
  apply registered_middle in Hw. unfold commit_with, commit_body.
  assert (∀ e : ErrorKind, ∃ s', drop_txn t s = Ok s' ∧ sys_inv (mkSys s' (l1 ++ l2)) log) as Hdrop.
  { intros _. destruct (release_ok s log (l1 ++ l2) t He Hr Hw) as (s' & E & He' & Hb' & Hd' & Hr' & Hw' & Hn').
    exists s'. split; [done|]. split; cbn [sys_state sys_live]; (congruence || done). }
  destruct start as [[]|e|]; cbn [mbind result_bind]; [|destruct (Hdrop e) as (s' & -> & Hs')|done].
  2:{ exists (Err e), s'. split; [done|]. split; [done|]. by left. }
  destruct (conflicts s t) eqn:Hc.
  { destruct (Hdrop RetryableAbort) as (s' & -> & Hs'). exists (Err RetryableAbort), s'. split; [done|].
    split; [done|]. right. left. split; [done|]. by eapply conflicts_real. }
  destruct (Z.leb_spec (2 ^ 64) (st_revision s + 1)).
  { destruct (Hdrop LimitExceeded) as (s' & -> & Hs'). exists (Err LimitExceeded), s'. split; [done|].
    split; [done|]. right. right. split; [done|]. lia. }
  rewrite Hr. destruct (publish_ok s t log He Hr) as (s1 & -> & He1 & Hb1 & Hd1 & Hr1 & Hw1).
  assert (len (log ++ [tx_writes t]) = len log + 1) as El by by rewrite len_app.
  destruct (release_ok s1 (log ++ [tx_writes t]) (l1 ++ l2) t He1) as (s' & -> & He' & Hb' & Hd' & Hr' & Hw' & Hn');
    [congruence|by rewrite Hw1|]. exists (Ok tt), s'. split; [done|]. split; [done|]. split; [by eapply conflicts_sound|].
  split; cbn [sys_state sys_live]; try done; try lia.
  - rewrite Hd', Hd1, Hd. unfold replay. by rewrite replay_app.
  - eapply Forall_impl; [|exact Hrest]. intros. by apply txn_inv_app.
Qed.
Lemma reaches_inv sys log : reaches sys log → sys_inv sys log.
Proof.
  induction 1 as [|s live log s' t Hre IH Hb|s l1 t l2 log op Hre IH|s l1 t l2 log s' Hre IH Hd
    |s l1 t l2 log start r s' Hre IH Hc].
  - split; cbn [sys_state sys_live]; try done; [|by intros r ?%elem_of_nil].
    exists [], []. split; [done|]. split; [done|]. by split_and!.
  - destruct IH as [He Hbd Hr Hrg Hd Hw Hl Hnd]. cbn [sys_state sys_live] in *. unfold begin_write in Hb.
    injection Hb as <- <-. split; cbn [sys_state sys_live]; try done.
    + by apply (registered_begin (st_writers s) live (mkTxn (st_revision s) (st_data s) ∅ ∅ 0 0)).
    + constructor; [|done]. split; cbn [tx_revision tx_view tx_writes tx_mutation_count tx_mutation_bytes].
      * rewrite Hr. pose proof (len_nonneg log). lia.
      * rewrite apply_writes_empty, Hr, Hd. unfold snapshot_at. by rewrite ztake_all.
      * rewrite map_size_empty. done.
      * done.
    + intros r Hin. destruct (Hnd r Hin) as (t & ? & ?). exists t. split; [by right|done].
  - destruct IH as [He Hbd Hr Hrg Hd Hw Hl Hnd]. cbn [sys_state sys_live] in *. split; cbn [sys_state sys_live]; try done.
    + intros r. rewrite Hw. cbv zeta. by rewrite !count_at_middle, !count_at_cons, run_op_revision.
    + rewrite <-Permutation_middle in Hl |- *. apply Forall_cons_iff in Hl as [Ht Hl].
      constructor; [by apply run_op_inv|done].
    + intros r Hin. destruct (Hnd r Hin) as (t' & Ht' & Hlt).
      apply elem_of_app in Ht' as [Ht'|[->|Ht']%elem_of_cons].
      * exists t'. split; [by apply elem_of_app; left|done].
      * exists (run_op op t). rewrite run_op_revision. split; [|done]. apply elem_of_app. right. by left.
      * exists t'. split; [by apply elem_of_app; right; right|done].
  - destruct IH as [He Hbd Hr Hrg Hd' Hw Hl Hnd]. cbn [sys_state sys_live] in *. apply registered_middle in Hw.
    destruct (release_ok s log (l1 ++ l2) t He Hr Hw) as (s1 & E & He' & Hb' & Hd1 & Hr' & Hw' & Hn').
    rewrite E in Hd. apply Ok_inj in Hd as <-. rewrite <-Permutation_middle in Hl.
    apply Forall_cons_iff in Hl as [_ Hl]. split; cbn [sys_state sys_live]; (congruence || done).
  - assert (start ≠ Panic) as Hst by by (intros ->).
    destruct (commit_ok start t s l1 l2 log Hst IH) as (r' & s1 & E & Hspec). rewrite E in Hc.
    injection Hc as <- <-. destruct r'; [by destruct Hspec as (_ & _ & ?)| |done].
    destruct Hspec as [Hs _]. by rewrite app_nil_r.
Qed.

(** C1: Commits are serializable on protected reads, whatever transactions
    interleave: when a commit succeeds, every key the transaction protected
    still has, at the commit point, the value of the transaction's snapshot, and
    the commit's effect is exactly its writes applied to the latest committed
    data, so concurrent commits to other keys are preserved. *)
Theorem memory_commit_serializable s l1 t l2 log start s' :
  reaches (mkSys s (l1 ++ t :: l2)) log → commit_with start t s = Ok (Ok tt, s') →
  (∀ key, key ∈ tx_protected t → st_data s !! key = snapshot_at log (tx_revision t) !! key) ∧
  (∀ key, st_data s' !! key = match tx_writes t !! key with Some v => v | None => st_data s !! key end).
Proof.
  intros Hre Hc. pose proof (reaches_inv _ _ Hre) as Hi. assert (start ≠ Panic) as Hst by by (intros ->).
  destruct (commit_ok start t s l1 l2 log Hst Hi) as (r & s1 & E & Hspec). rewrite E in Hc.
  injection Hc as -> ->. destruct Hspec as (_ & Hn & [_ _ _ _ Hd' _ _ _]).
  destruct Hi as [_ _ _ _ Hd _ Hl _]. cbn [sys_state sys_live] in *. split.
  - intros key Hkey. rewrite Hd. unfold snapshot_at, replay.
    rewrite <-(take_drop (Z.to_nat (tx_revision t)) log) at 1. rewrite replay_app.
    apply replay_untouched. intros w Hw. destruct (w !! key) eqn:Ew; [|done]. destruct Hn.
    exists key, w. split_and!; [done|done|by eexists].
  - intros key. rewrite Hd', Hd. unfold replay. rewrite replay_app. apply apply_writes_lookup.
Qed.

(** C2: The backend refines a log of write sets: in every reachable state the
    committed data is the replay of the log of successful commits, and each live
    transaction reads its own staged writes over the log prefix it began at. *)
Theorem memory_refines_log sys log :
  reaches sys log →
  st_data (sys_state sys) = replay log ∧ st_revision (sys_state sys) = len log ∧
  ∀ t key, t ∈ sys_live sys →
    tx_view t !! key = match tx_writes t !! key with
                       | Some v => v
                       | None => snapshot_at log (tx_revision t) !! key
                       end.
Proof.
  intros [_ _ Hr _ Hd _ Hl _]%reaches_inv. split; [done|]. split; [done|]. intros t key Hin%list_elem_of_In.
  eapply Forall_forall in Hl as [_ -> _ _]; [|done]. apply apply_writes_lookup.
Qed.

(** C3: A commit never panics and its outcome is exact: it succeeds precisely
    when it was not cancelled, no protected key was written by a commit after
    its snapshot, its conflict evidence was not evicted, and the revision
    counter has room; it then extends the log by its writes. *)
Theorem memory_commit_exact s l1 t l2 log start :
  reaches (mkSys s (l1 ++ t :: l2)) log → start ≠ Panic →
  ∃ r s', commit_with start t s = Ok (r, s') ∧ r ≠ Panic ∧
    (r = Ok tt ↔ start = Ok tt ∧ len log < 2 ^ 64 - 1 ∧
       (tx_protected t = ∅ ∨ ¬ log_conflict log t ∧ st_conflict_floor s ≤ tx_revision t)).
Proof.
  intros Hre Hst. pose proof (reaches_inv _ _ Hre) as Hi.
  destruct (commit_ok start t s l1 l2 log Hst Hi) as (r & s' & E & Hspec). exists r, s'. split; [done|].
  destruct Hi as [He _ Hr Hrg _ _ Hl _]. cbn [sys_state sys_live] in *.
  rewrite <-Permutation_middle in Hl. apply Forall_cons_iff in Hl as [[Htr _ _ _] _].
  unfold commit_with, commit_body in E. destruct r as [[]|e|]; [| |done].
  - split; [done|]. split; [intros _|done]. destruct Hspec as (-> & Hn & [_ _ _ Hrg' _ _ _ _]).
    rewrite len_app in Hrg'. change (len [tx_writes t]) with 1 in Hrg'. split; [done|]. split; [lia|].
    cbn [mbind result_bind] in E. destruct (conflicts s t) eqn:Hc.
    { destruct (drop_txn t s); done. }
    unfold conflicts in Hc. apply andb_false_iff in Hc as [Hc|Hc].
    + left. by apply negb_false_iff, bool_decide_eq_true in Hc.
    + right. apply orb_false_iff in Hc as [Hc%Z.ltb_ge _]. done.
  - split; [done|]. split; [done|]. intros (-> & Hlim & Hp).
    destruct Hspec as [_ [Hs|[(-> & Hs)|(_ & Hs)]]]; [done| |lia]. cbn [mbind result_bind] in E.
    destruct (conflicts s t) eqn:Hc.
    + destruct Hp as [Hp|[Hp1 Hp2]].
      * unfold conflicts in Hc. by rewrite bool_decide_eq_true_2 in Hc.
      * destruct Hs as [|]; [done|lia].
    + destruct (2 ^ 64 <=? st_revision s + 1); [by destruct (drop_txn t s)|].
      destruct (publish s t (st_revision s + 1)) as [s1| |] eqn:Ep; [by destruct (drop_txn t s1)| |done].
      exfalso. destruct (publish_ok s t log He Hr) as (s1 & Ep' & _). rewrite Hr in Ep. congruence.
Qed.

(** C4: Conflict evidence is bounded, accounted exactly and not leaked: retained
    revisions stay within the key, byte and entry limits, the counters equal
    what is retained, every retained revision is newer than some live snapshot,
    and with no live writer nothing is retained. *)
Theorem memory_history_bounded sys log :
  reaches sys log →
  let s := sys_state sys in
  st_history_keys s = foldr (λ r acc, len (rv_keys r) + acc) 0 (st_history s) ∧
  st_history_bytes s = foldr (λ r acc, key_bytes (rv_keys r) + acc) 0 (st_history s) ∧
  st_history_keys s ≤ MAX_HISTORY_KEYS ∧ st_history_bytes s ≤ MAX_HISTORY_BYTES ∧
  len (st_history s) ≤ MAX_HISTORY_KEYS ∧
  (∀ r, r ∈ st_history s → ∃ t, t ∈ sys_live sys ∧ tx_revision t < rv_number r) ∧
  (sys_live sys = [] → st_history s = [] ∧ st_modified s = ∅ ∧ st_writers s = ∅).
Proof.
  intros [He Hb _ _ _ Hw _ Hn]%reaches_inv s. unfold s.
  destruct He as (old & recent & -> & Hf & Hh & Hk & Hby & Hm).
  assert (∀ n l, foldr (λ r acc, len (rv_keys r) + acc) 0 (history_of n l) = evidence_keys l ∧
    foldr (λ r acc, key_bytes (rv_keys r) + acc) 0 (history_of n l) = evidence_bytes l) as Hsum.
  { intros n l. revert n. induction l as [|w l IH]; intros n; [done|]. cbn. destruct (IH (n + 1)) as [-> ->]. done. }
  destruct (Hsum (len old) recent) as [Hs1 Hs2].
  unfold history_bounded, history_full in Hb. rewrite !orb_false_iff, !Z.ltb_ge in Hb.
  split_and!; try lia; try (rewrite Hh; congruence); [done|].
  intros Hl. assert (recent = []) as Hnil.
  { destruct recent as [|w recent]; [done|]. rewrite Hl in Hn.
    destruct (Hn (mkRevision (len old + 1) (sorted_keys w))) as (t & ?%elem_of_nil & _); [|done].
    rewrite Hh. by left. }
  rewrite Hnil in *. split_and!; [done|apply map_eq; intros k; by rewrite Hm|].
  apply map_eq. intros r. by rewrite Hw, Hl.
Qed.

(** ** Batches *)
Fixpoint stage_all (t : WriteTxn) (mutations : list Mutation.t) : result WriteTxn :=
  match mutations with
  | [] => Ok t
  | m :: mutations =>
      let '(key, value) := mutation_parts m in stage t key value ≫= λ t, stage_all t mutations
  end.
Definition within_budget (t : WriteTxn) : Prop :=
  0 ≤ tx_mutation_count t ≤ ab_max_mutations BUDGET ∧
  0 ≤ tx_mutation_bytes t ≤ ab_max_mutation_bytes BUDGET.
(** Staging, once the byte check is known. *)
Definition admits (key : list Z) (value : option (list Z)) (bytes : Z) : bool :=
  (len key <=? hl_max_key_bytes HARD_LIMITS) && (value_len value <=? hl_max_value_bytes HARD_LIMITS)
  && (len key + value_len value <=? ab_max_mutation_bytes BUDGET - bytes).
Lemma stage_cases t key value :
  within_budget t →
  stage t key value =
    if admits key value (tx_mutation_bytes t) && negb (tx_mutation_count t =? ab_max_mutations BUDGET)
    then Ok (apply_point (with_counts t (tx_mutation_count t + 1)
               (tx_mutation_bytes t + (len key + value_len value))) key value)
    else Err LimitExceeded.
Proof.
  intros [Hc Hb]. unfold stage, admits, validate_key, sub_usize. rewrite !Z.leb_antisym.
  destruct (_ <? len key); [done|]. cbn [mbind result_bind negb andb]. cbv zeta.
  destruct (_ <? value_len value); [done|]. cbn [negb andb].
  destruct (_ =? ab_max_mutations BUDGET); [by rewrite andb_false_r|]. rewrite andb_true_r.
  rewrite (proj2 (Z.ltb_ge (ab_max_mutation_bytes BUDGET) (tx_mutation_bytes t))) by lia. cbn [mbind result_bind].
  by destruct (_ <? len key + value_len value).
Qed.
Lemma admit_cases m ms bytes :
  0 ≤ bytes ≤ ab_max_mutation_bytes BUDGET →
  batch_admit (m :: ms) bytes =
    let '(key, value) := mutation_parts m in
    if admits key value bytes then batch_admit ms (bytes + (len key + value_len value)) else Err LimitExceeded.
Proof.
  intros Hb. cbn [batch_admit]. destruct (mutation_parts m) as [key value].
  unfold admits, validate_key, sub_usize. rewrite !Z.leb_antisym.
  destruct (_ <? len key); [done|]. cbn [mbind result_bind negb andb].
  destruct (_ <? value_len value); [done|]. cbn [negb andb].
  rewrite (proj2 (Z.ltb_ge (ab_max_mutation_bytes BUDGET) bytes)) by lia. cbn [mbind result_bind].
  by destruct (_ <? len key + value_len value).
Qed.
Lemma value_len_nonneg value : 0 ≤ value_len value.
Proof. destruct value; [apply len_nonneg|done]. Qed.
Lemma admits_room key value bytes :
  admits key value bytes = true → bytes + (len key + value_len value) ≤ ab_max_mutation_bytes BUDGET.
Proof. unfold admits. rewrite !andb_true_iff, !Z.leb_le. lia. Qed.
(** Staging one by one, from the totals the batch pass computes. *)
Lemma stage_all_ok ms t :
  within_budget t → len ms ≤ ab_max_mutations BUDGET - tx_mutation_count t →
  stage_all t ms =
    (batch_admit ms (tx_mutation_bytes t) ≫= λ bytes,
     Ok (batch_apply ms (with_counts t (tx_mutation_count t + len ms) bytes))).
Proof.
  revert t. induction ms as [|m ms IH]; intros t Ht Hl.
  { cbn. rewrite len_nil, Z.add_0_r. by destruct t. }
  pose proof Ht as [Hc Hb]. rewrite len_cons in *. pose proof (len_nonneg ms).
  rewrite admit_cases by done. cbn [stage_all]. destruct (mutation_parts m) as [key value] eqn:Em.
  rewrite stage_cases by done.
  rewrite (proj2 (Z.eqb_neq (tx_mutation_count t) (ab_max_mutations BUDGET))) by lia. rewrite andb_true_r.
  destruct (admits key value (tx_mutation_bytes t)) eqn:Ha; [|done].
  pose proof (admits_room _ _ _ Ha). pose proof (len_nonneg key). pose proof (value_len_nonneg value).
  cbn [mbind result_bind]. rewrite IH.
  - cbn [apply_point with_counts tx_mutation_bytes tx_mutation_count].
    destruct (batch_admit ms _) as [bytes| |]; [|done..]. cbn [mbind result_bind batch_apply]. rewrite Em.
    do 2 f_equal. unfold apply_point, with_counts.
    cbn [tx_revision tx_view tx_protected tx_writes tx_mutation_count tx_mutation_bytes]. f_equal. lia.
  - split; cbn [apply_point with_counts tx_mutation_count tx_mutation_bytes]; lia.
  - cbn [apply_point with_counts tx_mutation_count]. lia.
Qed.
(** A batch longer than the remaining mutation count cannot be staged either. *)
Lemma stage_all_over ms t :
  within_budget t → ab_max_mutations BUDGET - tx_mutation_count t < len ms →
  stage_all t ms = Err LimitExceeded.
Proof.
  revert t. induction ms as [|m ms IH]; intros t Ht Hl.
  { destruct Ht. rewrite len_nil in Hl. lia. }
  pose proof Ht as [Hc Hb]. rewrite len_cons in *. cbn [stage_all]. destruct (mutation_parts m) as [key value].
  rewrite stage_cases by done. destruct (admits key value (tx_mutation_bytes t)) eqn:Ha; [|done].
  destruct (Z.eqb_spec (tx_mutation_count t) (ab_max_mutations BUDGET)); [done|]. cbn [negb andb mbind result_bind].
  pose proof (admits_room _ _ _ Ha). pose proof (len_nonneg key). pose proof (value_len_nonneg value).
  apply IH; [split|]; cbn [apply_point with_counts tx_mutation_count tx_mutation_bytes]; lia.
Qed.

(** C6: A batch is equivalent to staging its mutations one by one, in order, with
    one verdict for the whole batch: it is admitted exactly when every single
    staging would be, leaves the same transaction, and a rejected batch leaves
    the transaction untouched. *)
Theorem batch_mutate_sequential t ms :
  within_budget t →
  batch_mutate t ms = match stage_all t ms with
                      | Ok t' => (t', Ok tt)
                      | _ => (t, Err LimitExceeded)
                      end.
Proof.
  intros Ht. pose proof Ht as [Hc Hb]. unfold batch_mutate, batch_mutate_txn, sub_usize.
  rewrite (proj2 (Z.ltb_ge _ (tx_mutation_count t))) by lia. cbn [mbind result_bind].
  destruct (Z.ltb_spec (ab_max_mutations BUDGET - tx_mutation_count t) (len ms)).
  { by rewrite stage_all_over. }
  rewrite stage_all_ok by (done || lia).
  assert (∀ ms bytes, 0 ≤ bytes ≤ ab_max_mutation_bytes BUDGET →
    (∃ total, batch_admit ms bytes = Ok total) ∨ batch_admit ms bytes = Err LimitExceeded) as Htot.
  { clear. induction ms as [|m ms IH]; intros bytes Hb; [left; by eexists|]. rewrite admit_cases by done.
    destruct (mutation_parts m) as [key value]. destruct (admits key value bytes) eqn:Ha; [|by right].
    pose proof (admits_room _ _ _ Ha). pose proof (len_nonneg key). pose proof (value_len_nonneg value).
    apply IH. lia. }
  destruct (Htot ms (tx_mutation_bytes t) Hb) as [[total ->]| ->]; done.
Qed.

(** ** Scans *)
Definition key_lt (a b : ScanItem) : Prop := si_key a <ₗ si_key b.
#[global] Instance entry_le_trans : Transitive entry_le.
Proof. intros a b c. unfold entry_le. by etrans. Qed.
#[global] Instance entry_le_total : Total entry_le.
Proof. intros a b. unfold entry_le. apply (total lex_le). Qed.
Lemma ordered_elem data item : item ∈ ordered data ↔ data !! si_key item = Some (si_value item).
Proof.
  unfold ordered. rewrite merge_sort_Permutation, list_elem_of_fmap. split.
  - intros ([k v] & -> & H%elem_of_map_to_list). done.
  - intros H. exists (si_key item, si_value item). split; [by destruct item|]. by apply elem_of_map_to_list.
Qed.
Lemma ordered_strict data : StronglySorted key_lt (ordered data).
Proof.
  assert (NoDup (si_key <$> ordered data)) as Hnd.
  { unfold ordered. rewrite merge_sort_Permutation, <-list_fmap_compose.
    replace (compose si_key _ <$> map_to_list data) with (map_to_list data).*1; [apply NoDup_fst_map_to_list|].
    apply list_fmap_ext. by intros ? [k v]. }
  pose proof (StronglySorted_merge_sort entry_le ((λ '(k, v), mkItem k v) <$> map_to_list data)) as Hs.
  fold (ordered data) in Hs. induction Hs as [|x l _ IH Hall]; [constructor|].
  rewrite fmap_cons in Hnd. apply list.NoDup_cons in Hnd as [Hnin Hnd]. constructor; [auto|].
  apply Forall_forall. intros y Hy. eapply Forall_forall in Hall; [|done]. unfold entry_le, key_lt in *.
  apply lex_le_lt_eq in Hall as [|E]; [done|]. destruct Hnin. rewrite E. apply list_elem_of_fmap.
  exists y. split; [done|]. by apply list_elem_of_In.
Qed.
Lemma sorted_filter (P : ScanItem → bool) l : StronglySorted key_lt l → StronglySorted key_lt (List.filter P l).
Proof.
  induction 1 as [|x l _ IH Hall]; cbn [List.filter]; [constructor|]. destruct (P x); [|done].
  constructor; [done|]. apply Forall_forall. intros y [Hy _]%filter_In. by eapply Forall_forall in Hall.
Qed.
Lemma range_entries_elem data range item :
  item ∈ range_entries data range ↔
  data !! si_key item = Some (si_value item) ∧ in_key_range range (si_key item).
Proof.
  unfold range_entries. rewrite list_elem_of_In, filter_In, <-list_elem_of_In, ordered_elem.
  unfold in_bounds, in_key_range. by rewrite andb_true_iff, !bool_decide_eq_true.
Qed.
(** What one page holds: all entries, or a nonempty proper prefix of them. *)
Definition page_of (entries : list ScanItem) (max_key_bytes : Z) (p : ScanPage) : Prop :=
  (p = ScanPage_terminal entries) ∨
  ∃ taken last rest, entries = (taken ++ [last]) ++ rest ∧ rest ≠ [] ∧
    p = mkPage (taken ++ [last]) (Some (scan_successor (si_key last) max_key_bytes)).
Definition page_bytes (items : list ScanItem) : Z :=
  foldr (λ i acc, len (si_key i) + len (si_value i) + acc) 0 items.
Definition page_fits (limits : ScanLimits) (items : list ScanItem) : Prop :=
  len items ≤ sl_item_limit limits ∧ (page_bytes items ≤ sl_byte_limit limits ∨ len items = 1).
Lemma page_bytes_snoc items i : page_bytes (items ++ [i]) = page_bytes items + (len (si_key i) + len (si_value i)).
Proof. induction items as [|x items IH]; cbn; [lia|]. unfold page_bytes in *. lia. Qed.
Lemma scan_loop_ok entries items limits :
  1 ≤ sl_item_limit limits → page_fits limits items ∨ items = [] →
  (∀ e, e ∈ tail (items ++ entries) → 1 ≤ len (si_key e)) →
  ∃ p, scan_loop entries items (page_bytes items) limits = Ok p ∧
    page_of (items ++ entries) (hl_max_key_bytes HARD_LIMITS) p ∧ (page_fits limits (sp_items p) ∨ sp_items p = []).
Proof.
  intros Hlim. revert items. induction entries as [|e entries IH]; intros items Hf Hk; cbn [scan_loop].
  { eexists. split; [done|]. rewrite app_nil_r. split; [by left|done]. }
  cbv zeta. destruct (negb (len items =? 0) && _) eqn:Hc.
  - apply andb_true_iff in Hc as [Hne _]. destruct (exists_last (l := items)) as (taken & x & ->).
    { intros ->. done. }
    unfold ScanPage_continued. rewrite last_snoc. cbn [fmap option_fmap option_map ok_or mbind result_bind].
    eexists. split; [done|]. split; [|done]. right. by exists taken, x, (e :: entries).
  - rewrite <-page_bytes_snoc. replace (items ++ e :: entries) with ((items ++ [e]) ++ entries) in *
      by by rewrite <-app_assoc.
    apply IH; [|done]. left. unfold page_fits. rewrite len_app, page_bytes_snoc. change (len [e]) with 1.
    pose proof (len_nonneg items). destruct (Z.eqb_spec (len items) 0) as [E|Hn]; [lia|]. cbn [negb andb] in Hc.
    apply orb_false_iff in Hc as [Hc1%Z.eqb_neq Hc2%Z.ltb_ge].
    destruct Hf as [[Hf1 Hf2]|Hf]; [|by subst]. split; [lia|]. left.
    pose proof (len_nonneg (si_value e)). assert (1 ≤ len (si_key e)); [|lia]. apply Hk.
    destruct items as [|x items]; [done|]. cbn [app tail]. apply elem_of_app. left. apply elem_of_app. right. by left.
Qed.

Lemma sorted_tail_nonempty l : StronglySorted key_lt l → ∀ e, e ∈ tail l → 1 ≤ len (si_key e).
Proof.
  intros Hs e He. destruct Hs as [|x l _ Hall]; [by apply elem_of_nil in He|]. cbn [tail] in He.
  apply list_elem_of_In in He. eapply Forall_forall in Hall; [|done]. unfold key_lt in Hall.
  destruct (si_key e) as [|b k]; [by destruct (si_key x)|]. rewrite len_cons. pose proof (len_nonneg k). lia.
Qed.
Lemma scan_page_ok data range limits :
  1 ≤ sl_item_limit limits → 1 ≤ sl_byte_limit limits →
  len (range_start range) ≤ hl_max_key_bytes HARD_LIMITS → len (range_end range) ≤ hl_max_key_bytes HARD_LIMITS →
  ∃ p, scan_page data range limits = Ok p ∧
    page_of (range_entries data range) (hl_max_key_bytes HARD_LIMITS) p ∧
    (page_fits limits (sp_items p) ∨ sp_items p = []).
Proof.
  intros H1 H2 Hs He. unfold scan_page, validate_scan, validate_key.
  rewrite (proj2 (Z.eqb_neq (sl_item_limit limits) 0)), (proj2 (Z.eqb_neq (sl_byte_limit limits) 0)) by lia.
  cbn [orb mbind result_bind]. case_decide as Hd.
  { eexists. split; [done|]. split; [|by right]. left. f_equal. symmetry. apply elem_of_nil_inv. intros item Hin.
    apply range_entries_elem in Hin as [_ [Hge Hlt]]. apply (lex_lt_irrefl (si_key item)).
    eapply lex_lt_le_trans; [exact Hlt|]. by etrans. }
  rewrite !(proj2 (Z.ltb_ge _ _)) by done. cbn [mbind result_bind].
  apply (scan_loop_ok (range_entries data range) [] limits H1); [by right|]. cbn [app].
  apply sorted_tail_nonempty, sorted_filter, ordered_strict.
Qed.
(** The entries above the last returned key are those of the continued range. *)
Lemma continued_entries max_key_bytes data range taken lst rest :
  (∀ k v, data !! k = Some v → backend_key max_key_bytes k) →
  range_entries data range = (taken ++ [lst]) ++ rest → rest ≠ [] →
  range_entries data (mkRange (scan_successor (si_key lst) max_key_bytes) (range_end range)) = rest.
Proof.
  intros Hkeys E Hne. set (next := scan_successor _ _).
  assert (∀ x, x ∈ range_entries data range → backend_key max_key_bytes (si_key x)) as Hbk.
  { intros x [Hx _]%range_entries_elem. by eapply Hkeys. }
  pose proof (sorted_filter (in_bounds range) _ (ordered_strict data)) as Hsort. fold (range_entries data range) in Hsort.
  rewrite E in Hsort, Hbk. apply StronglySorted_app in Hsort as (Hcross & Hs1 & _).
  apply StronglySorted_app in Hs1 as (Hcross1 & _ & _).
  assert (∀ x, x ∈ rest → si_key lst <ₗ si_key x) as Hrest.
  { intros x Hx. apply (Hcross lst x); [|done]. apply elem_of_app. right. by left. }
  assert (∀ x, backend_key max_key_bytes (si_key x) → next ≤ₗ si_key x ↔ si_key lst <ₗ si_key x) as Hnext.
  { intros x Hx. apply scan_successor_spec; [apply Hbk, elem_of_app; left; apply elem_of_app; right; by left|done|].
    destruct rest as [|y rest]; [done|]. pose proof (Hrest y ltac:(by left)) as Hy.
    assert (backend_key max_key_bytes (si_key y)) as [Hyb Hyl] by (apply Hbk, elem_of_app; right; by left).
    assert (backend_key max_key_bytes (si_key lst)) as [Hlb Hll]
      by (apply Hbk, elem_of_app; left; apply elem_of_app; right; by left).
    destruct (decide (len (si_key lst) < max_key_bytes)); [by left|right].
    eapply successor_exists; [done|exact Hyb|lia|done]. }
  assert (range_entries data (mkRange next (range_end range))
    = List.filter (λ x, bool_decide (si_key lst <ₗ si_key x)) (range_entries data range)) as ->.
  { unfold range_entries.
    assert (si_key lst ∈ si_key <$> range_entries data range) as Hin.
    { rewrite E. apply list_elem_of_fmap. exists lst. split; [done|]. apply elem_of_app. left. apply elem_of_app. right. by left. }
    apply list_elem_of_fmap in Hin as (y & Ey & Hy). apply range_entries_elem in Hy as [_ [Hy _]]. rewrite <-Ey in Hy.
    assert (∀ x, x ∈ ordered data → backend_key max_key_bytes (si_key x)) as Hall.
    { intros x Hx%ordered_elem. by eapply Hkeys. }
    clear -Hnext Hall Hy. induction (ordered data) as [|x l IH]; [done|]. cbn [List.filter].
    rewrite IH by (intros x' Hx'; apply Hall; by right). specialize (Hnext x (Hall x ltac:(by left))).
    change (in_bounds (mkRange next (range_end range)) x)
      with (bool_decide (next ≤ₗ si_key x) && bool_decide (si_key x <ₗ range_end range)).
    change (in_bounds range x)
      with (bool_decide (range_start range ≤ₗ si_key x) && bool_decide (si_key x <ₗ range_end range)).
    destruct (bool_decide (si_key x <ₗ range_end range)) eqn:Ee; [|by rewrite !andb_false_r]. rewrite !andb_true_r.
    destruct (decide (si_key lst <ₗ si_key x)) as [Hlt|Hn].
    - rewrite (bool_decide_eq_true_2 (next ≤ₗ si_key x)) by by apply Hnext.
      rewrite (bool_decide_eq_true_2 (range_start range ≤ₗ si_key x)) by (etrans; [exact Hy|by apply lex_lt_le]).
      cbn [List.filter]. by rewrite (bool_decide_eq_true_2 (si_key lst <ₗ si_key x)).
    - rewrite (bool_decide_eq_false_2 (next ≤ₗ si_key x)) by (by rewrite Hnext).
      destruct (bool_decide (range_start range ≤ₗ si_key x)); [|done]. cbn [List.filter].
      by rewrite (bool_decide_eq_false_2 (si_key lst <ₗ si_key x)). }
  rewrite E, !List.filter_app. cbn [List.filter]. rewrite bool_decide_eq_false_2 by apply lex_lt_irrefl.
  assert (List.filter (λ x, bool_decide (si_key lst <ₗ si_key x)) taken = []) as ->.
  { apply elem_of_nil_inv. intros x [Hx Hlt%bool_decide_eq_true]%list_elem_of_In%filter_In.
    apply list_elem_of_In in Hx. specialize (Hcross1 x lst Hx ltac:(by left)). unfold key_lt in Hcross1.
    apply (lex_lt_irrefl (si_key x)). by eapply lex_lt_trans. }
  rewrite app_nil_r. cbn [app]. clear -Hrest. induction rest as [|x rest IH]; [done|]. cbn [List.filter].
  rewrite bool_decide_eq_true_2 by (apply Hrest; by left). f_equal. apply IH. intros; apply Hrest; by right.
Qed.

(** Reading a range page by page, as the backend's clients do. *)
Fixpoint scan_all (fuel : nat) (data : gmap (list Z) (list Z)) (range : KeyRange) (limits : ScanLimits)
    : result (list ScanItem) :=
  match fuel with
  | O => Err Other
  | S fuel =>
      scan_page data range limits ≫= λ page,
      match sp_next_start page with
      | None => Ok (sp_items page)
      | Some next =>
          scan_all fuel data (mkRange next (range_end range)) limits ≫= λ rest, Ok (sp_items page ++ rest)
      end
  end.

(** C5: Paged scans are exact: with any nonzero limits, following continuations
    from the start of a range terminates within one page per entry plus one, and
    returns every entry of the range once, in key order, with no key skipped at
    a page boundary, also at the key-length limit; each page respects the item
    limit, and the byte limit unless it is a single oversized item. *)
Theorem scan_pages_exact data range limits fuel :
  1 ≤ sl_item_limit limits → 1 ≤ sl_byte_limit limits →
  len (range_start range) ≤ hl_max_key_bytes HARD_LIMITS → len (range_end range) ≤ hl_max_key_bytes HARD_LIMITS →
  (∀ k v, data !! k = Some v → backend_key (hl_max_key_bytes HARD_LIMITS) k) →
  (length (range_entries data range) < fuel)%nat →
  scan_all fuel data range limits = Ok (range_entries data range) ∧
  StronglySorted key_lt (range_entries data range) ∧
  (∀ item, item ∈ range_entries data range ↔
    data !! si_key item = Some (si_value item) ∧ in_key_range range (si_key item)) ∧
  (∃ page, scan_page data range limits = Ok page ∧ (page_fits limits (sp_items page) ∨ sp_items page = [])).
Proof.
  intros H1 H2 Hs He Hkeys Hfuel. split_and!.
  - revert range Hs He Hfuel. induction fuel as [|fuel IH]; intros range Hs He Hfuel; [lia|]. cbn [scan_all].
    destruct (scan_page_ok data range limits H1 H2 Hs He) as (p & -> & Hp & _). cbn [mbind result_bind].
    destruct Hp as [->|(taken & lst & rest & E & Hne & ->)]; [done|]. cbn [sp_next_start sp_items].
    pose proof (continued_entries _ data range taken lst rest Hkeys E Hne) as Ec.
    rewrite (IH (mkRange (scan_successor (si_key lst) (hl_max_key_bytes HARD_LIMITS)) (range_end range))).
    + rewrite Ec. cbn [mbind result_bind]. by rewrite E.
    + cbn [range_start]. apply scan_successor_len.
      assert (lst ∈ range_entries data range) as [Hl _]%range_entries_elem.
      { rewrite E. apply elem_of_app. left. apply elem_of_app. right. by left. }
      by apply Hkeys in Hl as [_ ?].
    + done.
    + rewrite Ec. rewrite E, !length_app in Hfuel. cbn [length] in Hfuel. lia.
  - apply sorted_filter, ordered_strict.
  - apply range_entries_elem.
  - destruct (scan_page_ok data range limits H1 H2 Hs He) as (p & ? & _ & ?). by exists p.
Qed.

(** ** A concrete run: one transaction reads key [1] for update and writes it *)
Definition sample_begin : State * WriteTxn := begin_write State_default.
Definition sample_state : State := sample_begin.1.
Definition sample_txn : WriteTxn := run_op (OpPut [1] [7]) (run_op (OpGetForUpdate [1]) sample_begin.2).
Definition sample_after : State :=
  match commit_with (Ok tt) sample_txn sample_state with Ok (_, s) => s | _ => State_default end.
Lemma sample_reaches : reaches (mkSys sample_state ([] ++ sample_txn :: [])) [].
Proof.
  apply (reaches_op _ [] _ [] _ (OpPut [1] [7])), (reaches_op _ [] _ [] _ (OpGetForUpdate [1])).
  by eapply (reaches_begin State_default []); [constructor|].
Qed.
Lemma sample_commits : commit_with (Ok tt) sample_txn sample_state = Ok (Ok tt, sample_after).
Proof. vm_compute. reflexivity. Qed.

Lemma memory_commit_serializable_witness :
  commit_with (Ok tt) sample_txn sample_state = Ok (Ok tt, sample_after) ∧ st_data sample_after !! [1] = Some [7].
Proof.
  split; [apply sample_commits|].
  rewrite (proj2 (memory_commit_serializable _ _ _ _ _ _ _ sample_reaches sample_commits)). vm_compute. reflexivity.
Defined.
Lemma memory_refines_log_witness : tx_view sample_txn !! [1] = Some [7].
Proof.
  destruct (memory_refines_log _ _ sample_reaches) as (_ & _ & H).
  rewrite (H sample_txn [1]); [|by left]. vm_compute. reflexivity.
Defined.
Lemma memory_commit_exact_witness :
  ∃ r s', commit_with (Ok tt) sample_txn sample_state = Ok (r, s') ∧ r = Ok tt.
Proof.
  destruct (memory_commit_exact _ _ _ _ _ (Ok tt) sample_reaches ltac:(done)) as (r & s' & E & _ & H).
  exists r, s'. split; [done|]. apply H. split; [done|]. split; [done|]. right.
  split; [|vm_compute; discriminate]. intros (key & w & _ & Hw & _). by apply elem_of_nil in Hw.
Defined.
Lemma memory_history_bounded_witness : st_history_keys sample_state ≤ MAX_HISTORY_KEYS.
Proof. apply (memory_history_bounded _ _ sample_reaches). Defined.
Lemma batch_mutate_sequential_witness :
  (batch_mutate sample_txn [Mutation.Put [2] [8]; Mutation.Delete [1]]).2 = Ok tt.
Proof.
  rewrite (batch_mutate_sequential sample_txn [Mutation.Put [2] [8]; Mutation.Delete [1]]).
  - vm_compute. reflexivity.
  - vm_compute. split_and!; discriminate.
Defined.
Lemma sample_keys k v : st_data sample_after !! k = Some v → backend_key (hl_max_key_bytes HARD_LIMITS) k.
Proof.
  replace (st_data sample_after) with ({[ [1] := [7] ]} : gmap (list Z) (list Z)) by (vm_compute; reflexivity).
  intros [<- _]%lookup_singleton_Some. split; [dec_compute|done].
Qed.
Lemma scan_pages_exact_witness :
  scan_all 3 (st_data sample_after) (mkRange [0] [255]) (mkScanLimits 1 1) = Ok [mkItem [1] [7]].
Proof.
  rewrite (proj1 (scan_pages_exact (st_data sample_after) (mkRange [0] [255]) (mkScanLimits 1 1) 3
    ltac:(done) ltac:(done) ltac:(done) ltac:(done) sample_keys ltac:(vm_compute; lia))).
  vm_compute. reflexivity.
Defined.
