(* ===== verification/NextValue.v ===== *)
(** Typed successors of canonical values (the helpers [next_value],
    [next_string] and [next_finite] of src/src/search/plan.rs).  A string at the
    length ceiling has no appended successor, so the code searches for the
    smallest greater well-formed UTF-8 string; the proofs follow the UTF-8
    automaton. *)
From S2P Require Import Prelude RustStd Api TreeKey.

(** ** Characters *)

(** The [while] loop of [char_span]; indexing panics out of range. *)
Fixpoint lead_loop (bytes : list Z) (lead_pos : nat) : result nat :=
  match lead_pos with
  | O => Ok O
  | S previous =>
      or_panic (bytes !! lead_pos) ≫= λ b,
      if Z.land b 0xC0 =? 0x80 then lead_loop bytes previous else Ok lead_pos
  end.
Definition char_len (lead : Z) : nat :=
  if in_range 0x00 0x7F lead then 1
  else if in_range 0xC2 0xDF lead then 2
  else if in_range 0xE0 0xEF lead then 3
  else 4.
Definition char_span (bytes : list Z) (k : nat) : result (nat * nat) :=
  lead_loop bytes k ≫= λ lead_pos,
  or_panic (bytes !! lead_pos) ≫= λ lead, Ok (lead_pos, char_len lead).
Definition first_continuation_valid (lead byte : Z) : bool :=
  if lead =? 0xE0 then 0xA0 <=? byte
  else if lead =? 0xED then byte <=? 0x9F
  else if lead =? 0xF0 then 0x90 <=? byte
  else if lead =? 0xF4 then byte <=? 0x8F
  else in_range 0x80 0xBF byte.
Definition minimal_tail (lead : Z) : option (list Z) :=
  if in_range 0x00 0x7F lead then Some []
  else if in_range 0xC2 0xDF lead then Some [0x80]
  else if lead =? 0xE0 then Some [0xA0; 0x80]
  else if in_range 0xE1 0xEF lead then Some [0x80; 0x80]
  else if lead =? 0xF0 then Some [0x90; 0x80; 0x80]
  else if in_range 0xF1 0xF3 lead then Some [0x80; 0x80; 0x80]
  else if lead =? 0xF4 then Some [0x80; 0x80; 0x80]
  else None.

(** ** Strings *)

(** [&[0x80; 3][..n]]. *)
Definition continuation_tail (n : nat) : result (list Z) :=
  if decide (n ≤ 3)%nat then Ok (replicate n 0x80) else Panic.
(** [usize] subtraction, which panics below zero in checked builds. *)
Definition checked_nat_sub (a b : nat) : result nat :=
  if decide (b ≤ a)%nat then Ok (a - b)%nat else Panic.

(** The inner loop over candidate bytes; [Ok None] leaves it without a return
    (by [break] or exhaustion). *)
Fixpoint candidate_loop (bytes : list Z) (max_len : Z) (k lead_pos clen : nat) (cs : list Z)
    : result (option (list Z)) :=
  let try_tail (candidate : Z) (tail : list Z) (continue : result (option (list Z))) :=
    if Z.of_nat k + 1 + len tail <=? max_len then
      let next := take k bytes ++ candidate :: tail in
      if utf8_valid next then Ok (Some next) else Err Corruption
    else continue in
  match cs with
  | [] => Ok None
  | candidate :: cs =>
      let continue := candidate_loop bytes max_len k lead_pos clen cs in
      if decide (lead_pos < k)%nat then
        if 0xBF <? candidate then Ok None
        else
          let position := (k - lead_pos)%nat in
          or_panic (bytes !! lead_pos) ≫= λ lead,
          if bool_decide (position = 1%nat) && negb (first_continuation_valid lead candidate)
          then continue
          else
            checked_nat_sub clen position ≫= λ n,
            checked_nat_sub n 1 ≫= λ n,
            continuation_tail n ≫= λ tail,
            try_tail candidate tail continue
      else match minimal_tail candidate with
           | None => continue
           | Some tail => try_tail candidate tail continue
           end
  end.
(** [for k in (0..n).rev()]. *)
Fixpoint position_loop (bytes : list Z) (max_len : Z) (n : nat) : result (option (list Z)) :=
  match n with
  | O => Ok None
  | S k =>
      char_span bytes k ≫= λ '(lead_pos, clen),
      or_panic (bytes !! k) ≫= λ b,
      candidate_loop bytes max_len k lead_pos clen (seqZ (b + 1) (255 - b)) ≫= λ found,
      match found with
      | Some next => Ok (Some next)
      | None => position_loop bytes max_len k
      end
  end.
Definition next_string (value : list Z) (max_len : Z) : result (option (list Z)) :=
  if len value <? max_len then Ok (Some (value ++ [0]))
  else position_loop value max_len (length value).

(** ** Floats and values *)

(** [value >= 0.0] is false for NaN; zero of either sign compares equal. *)
Definition next_finite (bits : Z) : option Z :=
  let nan := 0x7FF0000000000000 <? F64.magnitude bits in
  (if negb nan && (0 <=? F64.value_key bits)
   then if bits + 1 <? 2 ^ 64 then Some (bits + 1) else None
   else if 0 <=? bits - 1 then Some (bits - 1) else None) ≫= λ next,
  let candidate := if F64.is_zero next then 0 else next in
  if F64.is_finite candidate then Some candidate else None.
Definition next_value (ty : DataType.t) (value : Value.t) : result (option Value.t) :=
  match ty, value with
  | DataType.Bool, Value.Bool false => Ok (Some (Value.Bool true))
  | DataType.I64, Value.I64 value =>
      Ok (if value + 1 <? 2 ^ 63 then Some (Value.I64 (value + 1)) else None)
  | DataType.F64, Value.F64 bits => Ok (option_map Value.F64 (next_finite bits))
  | DataType.String, Value.String s =>
      next_string s MAX_STRING_BYTES ≫= λ next, Ok (option_map Value.String next)
  | _, _ => Ok None
  end.
(** [f64::MIN] is the pattern of the greatest finite magnitude, negated. *)
Definition F64_MIN : Z := 0xFFEFFFFFFFFFFFFF.
Definition min_value (ty : DataType.t) : Value.t :=
  match ty with
  | DataType.Bool => Value.Bool false
  | DataType.I64 => Value.I64 (- 2 ^ 63)
  | DataType.F64 => Value.F64 F64_MIN
  | DataType.String => Value.String []
  end.

(** ** The UTF-8 automaton *)
Inductive utf8_state := U0 | U1 | U2 | U3 | UE0 | UED | UF0 | UF4.
#[export] Instance utf8_state_eq_dec : EqDecision utf8_state.
Proof. solve_decision. Defined.

Definition utf8_lead (b : Z) : option utf8_state :=
  if b <? 128 then Some U0
  else if in_range 0xC2 0xDF b then Some U1
  else if in_range 0xE0 0xEF b then
    Some (if b =? 0xE0 then UE0 else if b =? 0xED then UED else U2)
  else if in_range 0xF0 0xF4 b then
    Some (if b =? 0xF0 then UF0 else if b =? 0xF4 then UF4 else U3)
  else None.
Definition utf8_step (q : utf8_state) (b : Z) : option utf8_state :=
  match q with
  | U0 => utf8_lead b
  | U1 => if cont b then Some U0 else None
  | U2 => if cont b then Some U1 else None
  | U3 => if cont b then Some U2 else None
  | UE0 => if in_range 0xA0 0xBF b then Some U1 else None
  | UED => if in_range 0x80 0x9F b then Some U1 else None
  | UF0 => if in_range 0x90 0xBF b then Some U2 else None
  | UF4 => if in_range 0x80 0x8F b then Some U2 else None
  end.
Fixpoint utf8_run (q : utf8_state) (bs : list Z) : option utf8_state :=
  match bs with
  | [] => Some q
  | b :: bs => utf8_step q b ≫= λ q, utf8_run q bs
  end.

Lemma utf8_run_app q a b : utf8_run q (a ++ b) = utf8_run q a ≫= λ q, utf8_run q b.
Proof.
  revert q. induction a as [|x a IH]; intros q; [done|]. cbn. destruct (utf8_step q x); [apply IH|done].
Qed.

Lemma in_range_spec lo hi b : in_range lo hi b = true ↔ lo ≤ b ≤ hi.
Proof. unfold in_range. bprop. lia. Qed.

(** Validation accepts what the automaton accepts. *)
Ltac run_utf8 := cbn [mbind option_bind utf8_run utf8_step].

Lemma utf8_valid_run s : utf8_valid s = bool_decide (utf8_run U0 s = Some U0).
Proof.
  induction s as [s IH] using list_len_ind. destruct s as [|b t]; [done|].
  rewrite utf8_valid_cons. cbn [utf8_run utf8_step]. unfold utf8_lead.
  destruct (b <? 128); [apply IH; simpl; lia|].
  destruct (in_range 0xC2 0xDF b).
  { destruct t as [|c1 t]; [done|]. run_utf8. destruct (cont c1); [apply IH; simpl; lia|done]. }
  destruct (in_range 0xE0 0xEF b).
  { destruct t as [|c1 [|c2 t]]; [by destruct (b =? 0xE0), (b =? 0xED)|..].
    - destruct (b =? 0xE0), (b =? 0xED); run_utf8; by case_match.
    - assert (utf8_valid t = bool_decide (utf8_run U0 t = Some U0)) as -> by (apply IH; simpl; lia).
      destruct (b =? 0xE0), (b =? 0xED); run_utf8;
        case_match; run_utf8; try done; by destruct (cont c2). }
  destruct (in_range 0xF0 0xF4 b); [|done].
  destruct t as [|c1 [|c2 [|c3 t]]]; [by destruct (b =? 0xF0), (b =? 0xF4)|..].
  - destruct (b =? 0xF0), (b =? 0xF4); run_utf8; by case_match.
  - destruct (b =? 0xF0), (b =? 0xF4); run_utf8; case_match; run_utf8; try done; by case_match.
  - assert (utf8_valid t = bool_decide (utf8_run U0 t = Some U0)) as -> by (apply IH; simpl; lia).
    destruct (b =? 0xF0), (b =? 0xF4); run_utf8; case_match; run_utf8; try done;
      destruct (cont c2); run_utf8; try done; by destruct (cont c3).
Qed.

(** The least completion of a character begun in state [q], and its length. *)
Definition min_tail (q : utf8_state) : list Z :=
  match q with
  | U0 => []
  | U1 => [0x80]
  | U2 => [0x80; 0x80]
  | U3 => [0x80; 0x80; 0x80]
  | UE0 => [0xA0; 0x80]
  | UED => [0x80; 0x80]
  | UF0 => [0x90; 0x80; 0x80]
  | UF4 => [0x80; 0x80; 0x80]
  end.
Definition need (q : utf8_state) : nat := length (min_tail q).

Lemma min_tail_run q : utf8_run q (min_tail q) = Some U0.
Proof. by destruct q. Qed.
Lemma min_tail_ok q : bytes_ok (min_tail q).
Proof. destruct q; dec_compute. Qed.

(** A nonempty completion starts with a byte at least the least one's. *)
Lemma step_least q b q' :
  q ≠ U0 → utf8_step q b = Some q' →
  ∃ m, min_tail q = m :: min_tail q' ∧ m ≤ b ∧ 0x80 ≤ b ≤ 0xBF.
Proof.
  intros Hq Hs. destruct q; cbn in *; try done; unfold cont, in_range in Hs;
    case_match; simplify_eq/=; bprop; eexists; (split; [done|]); lia.
Qed.
Lemma min_tail_least q t :
  utf8_run q t = Some U0 → (need q ≤ length t)%nat ∧ min_tail q ≤ₗ t.
Proof.
  revert q. induction t as [|b t IH]; intros q Hr; cbn in Hr.
  { simplify_eq. split; [done|]. apply lex_le_refl. }
  apply bind_Some in Hr as (q' & Hs & Hr). apply IH in Hr as [Hl Hle].
  destruct (decide (q = U0)) as [->|Hq]; [by split; [cbn; lia|]|].
  destruct (step_least _ _ _ Hq Hs) as (m & Hm & Hmb & _). unfold need in *. rewrite Hm.
  split; [simpl; lia|]. unfold lex_le in *. cbn [lex_cmp]. by destruct (Z.compare_spec m b); [|..|lia].
Qed.

(** ** Characters and automaton states *)
Definition is_cont (b : Z) : bool := Z.land b 0xC0 =? 0x80.

(** A property of bytes decided by enumeration. *)
Lemma byte_forall (P : Z → bool) :
  forallb P (seqZ 0 256) = true → ∀ b, byte_ok b → P b = true.
Proof.
  intros H b [??]. rewrite forallb_forall in H. apply H. apply list_elem_of_In, elem_of_seqZ. lia.
Qed.
Lemma is_cont_spec b : byte_ok b → is_cont b = cont b.
Proof.
  intros Hb. apply eqb_prop. revert b Hb. apply (byte_forall (λ b, Bool.eqb (is_cont b) (cont b))).
  by vm_compute.
Qed.
Lemma lead_not_cont b q : utf8_lead b = Some q → cont b = false.
Proof.
  unfold utf8_lead, cont, in_range. intros H. apply not_true_is_false. intros Hc.
  repeat case_match; simplify_eq; bprop; lia.
Qed.

(** The state inside a character determines how many bytes it still has; only
    the state right after the lead byte restricts the continuation. *)
Definition inside (lead : Z) (cs : list Z) (q : utf8_state) : Prop :=
  char_len lead = (S (length cs) + need q)%nat ∧
  ∀ c, 0x80 ≤ c ≤ 0xBF →
    utf8_step q c =
    if bool_decide (length cs = 0%nat) && negb (first_continuation_valid lead c) then None
    else Some (match need q with 1 => U0 | 2 => U1 | _ => U2 end)%nat.

Definition lead_check (b : Z) : bool :=
  match utf8_lead b with
  | None | Some U0 => true
  | Some q =>
      bool_decide (char_len b = S (need q))
      && forallb (λ c, bool_decide (utf8_step q c =
           if negb (first_continuation_valid b c) then None
           else Some (match need q with 1 => U0 | 2 => U1 | _ => U2 end)%nat)) (seqZ 0x80 0x40)
  end.
Lemma inside_lead b q : byte_ok b → utf8_lead b = Some q → q ≠ U0 → inside b [] q.
Proof.
  intros Hb Hl Hq. assert (lead_check b = true) as Hc.
  { clear Hl. revert b Hb. apply byte_forall. by vm_compute. }
  unfold lead_check in Hc. rewrite Hl in Hc. destruct q; [done|..];
    apply andb_prop in Hc as [Hn Hc]; rewrite bool_decide_eq_true in Hn;
    rewrite forallb_forall in Hc; (split; [done|]); intros c Hr;
    (apply (bool_decide_unpack _), Is_true_true, Hc, list_elem_of_In, elem_of_seqZ; lia).
Qed.
Lemma inside_step lead cs q c q' :
  inside lead cs q → q ≠ U0 → 0x80 ≤ c ≤ 0xBF → utf8_step q c = Some q' → q' ≠ U0 →
  inside lead (cs ++ [c]) q'.
Proof.
  intros [Hl Hi] Hq Hc Hs Hq'. pose proof (step_least _ _ _ Hq Hs) as (m & Hm & _ & _).
  assert (need q = S (need q')) as Hn by (unfold need; by rewrite Hm).
  split; [rewrite length_app; simpl; lia|]. intros x Hx.
  rewrite bool_decide_eq_false_2 by (rewrite length_app; simpl; lia). cbn [andb].
  assert (cont x = true) as Hcx by (unfold cont; bprop; lia).
  rewrite Hi in Hs by done. case_match; [done|]. injection Hs as <-.
  destruct q; cbn in *; try done; by rewrite Hcx.
Qed.

(** Inside a character, the bytes since its lead byte are continuations. *)
Lemma run_inside p q :
  bytes_ok p → utf8_run U0 p = Some q → q ≠ U0 →
  ∃ p' lead cs, p = p' ++ lead :: cs ∧ byte_ok lead ∧ cont lead = false ∧
    Forall (λ c, is_cont c = true) cs ∧ inside lead cs q.
Proof.
  revert q. induction p as [|c p IH] using rev_ind; intros q Hok Hr Hq; [by simplify_eq/=|].
  apply bytes_ok_app in Hok as [Hp Hc]. apply bytes_ok_cons in Hc as [Hc _].
  rewrite utf8_run_app in Hr. apply bind_Some in Hr as (q0 & Hr & Hs).
  cbn in Hs. apply bind_Some in Hs as (q1 & Hs & [= ->]).
  destruct (decide (q0 = U0)) as [->|Hq0].
  - exists p, c, []. split_and!; [done..|by eapply lead_not_cont|done|by apply inside_lead].
  - destruct (IH q0 Hp Hr Hq0) as (p' & lead & cs & -> & Hl & Hnc & Hcs & Hi).
    pose proof (step_least _ _ _ Hq0 Hs) as (_ & _ & _ & Hrange).
    exists p', lead, (cs ++ [c]). rewrite <-app_assoc. split_and!; [done..| |by eapply inside_step].
    apply Forall_app. split; [done|]. repeat constructor. rewrite is_cont_spec by done. unfold cont. bprop. lia.
Qed.

Lemma lead_loop_spec p lead cs rest :
  is_cont lead = false → Forall (λ c, is_cont c = true) cs →
  lead_loop (p ++ lead :: cs ++ rest) (length p + length cs) = Ok (length p).
Proof.
  intros Hl. revert rest. induction cs as [|c cs IH] using rev_ind; intros rest Hcs.
  - rewrite Nat.add_0_r. destruct (length p) as [|n] eqn:E; [done|]. cbn [lead_loop]. rewrite <-E.
    rewrite list_lookup_middle by done. cbn [or_panic mbind result_bind].
    unfold is_cont in Hl. by rewrite Hl.
  - apply Forall_app in Hcs as [Hcs Hc]. apply Forall_cons_iff in Hc as [Hc _].
    rewrite length_app. cbn [length]. replace (length p + (length cs + 1))%nat with (S (length p + length cs)) by lia.
    cbn [lead_loop].
    assert ((p ++ lead :: (cs ++ [c]) ++ rest) !! S (length p + length cs) = Some c) as ->.
    { replace (p ++ lead :: (cs ++ [c]) ++ rest) with ((p ++ lead :: cs) ++ c :: rest)
        by (rewrite <-!app_assoc; done).
      apply list_lookup_middle. rewrite length_app. simpl. lia. }
    cbn [or_panic mbind result_bind]. unfold is_cont in Hc. rewrite Hc. rewrite <-app_assoc. by apply IH.
Qed.

(** ** The reference search

    [spec_loop] tries the candidates with the automaton: a byte that leads to a
    state is completed minimally. *)
Fixpoint spec_loop (p : list Z) (q : utf8_state) (max_len : Z) (cs : list Z) : option (list Z) :=
  match cs with
  | [] => None
  | c :: cs =>
      match utf8_step q c with
      | Some q' =>
          if len p + 1 + len (min_tail q') <=? max_len then Some (p ++ c :: min_tail q')
          else spec_loop p q max_len cs
      | None => spec_loop p q max_len cs
      end
  end.

Lemma spec_loop_none p q max_len cs :
  (∀ c, c ∈ cs → utf8_step q c = None) → spec_loop p q max_len cs = None.
Proof.
  induction cs as [|c cs IH]; intros H; [done|]. cbn. rewrite (H c) by apply list_elem_of_here.
  apply IH. intros. apply H. by apply list_elem_of_further.
Qed.
Lemma minimal_tail_spec c : byte_ok c → minimal_tail c = min_tail <$> utf8_lead c.
Proof.
  intros Hc. apply (bool_decide_unpack _), Is_true_true. revert c Hc.
  apply (byte_forall (λ c, bool_decide (minimal_tail c = min_tail <$> utf8_lead c))). by vm_compute.
Qed.
Lemma candidate_valid p q c q' :
  utf8_run U0 p = Some q → utf8_step q c = Some q' → utf8_valid (p ++ c :: min_tail q') = true.
Proof.
  intros Hp Hs. rewrite utf8_valid_run, bool_decide_eq_true, utf8_run_app, Hp.
  cbn [mbind option_bind utf8_run]. rewrite Hs. apply min_tail_run.
Qed.

(** At a lead byte, the code's candidates are the reference's. *)
Lemma candidate_loop_lead p rest max_len clen cs :
  utf8_run U0 p = Some U0 → bytes_ok cs →
  candidate_loop (p ++ rest) max_len (length p) (length p) clen cs = Ok (spec_loop p U0 max_len cs).
Proof.
  intros Hp. induction cs as [|c cs IH]; intros Hok; [done|].
  apply bytes_ok_cons in Hok as [Hc Hok]. specialize (IH Hok). cbn [candidate_loop spec_loop utf8_step].
  rewrite decide_False by lia. rewrite minimal_tail_spec by done.
  destruct (utf8_lead c) as [q'|] eqn:E; cbn [fmap option_fmap option_map]; [|done].
  rewrite take_app_length, (candidate_valid p U0 c q') by done.
  change (Z.of_nat (length p)) with (len p). by destruct (_ <=? max_len).
Qed.

(** Inside a character, too: a byte above [0xBF] ends the search. *)
Lemma candidate_loop_inside p lead conts rest q max_len c0 n :
  let pre := p ++ lead :: conts in
  utf8_run U0 pre = Some q → q ≠ U0 → inside lead conts q → 0x80 ≤ c0 → c0 + n ≤ 256 →
  candidate_loop (pre ++ rest) max_len (length pre) (length p) (char_len lead) (seqZ c0 n)
  = Ok (spec_loop pre q max_len (seqZ c0 n)).
Proof.
  intros pre Hp Hq Hi Hc0 Hn. destruct (decide (n ≤ 0)) as [Hn0|Hn0]; [by rewrite seqZ_nil|].
  assert (∃ k, n = Z.of_nat k) as [k ->] by (exists (Z.to_nat n); lia). clear Hn0.
  revert c0 Hc0 Hn. induction k as [|k IH]; intros c0 Hc0 Hn; [done|].
  rewrite seqZ_cons by lia. replace (Z.pred (Z.of_nat (S k))) with (Z.of_nat k) by lia.
  unfold Z.succ. specialize (IH (c0 + 1) ltac:(lia) ltac:(lia)).
  assert (length pre = (length p + S (length conts))%nat) as Hlen by (unfold pre; by rewrite length_app).
  cbn [candidate_loop spec_loop]. rewrite decide_True by lia.
  destruct (Z.ltb_spec 0xBF c0) as [Hbf|Hbf].
  { assert (∀ c, 0xBF < c → utf8_step q c = None) as Hnone.
    { intros c Hc. destruct (utf8_step q c) eqn:E; [|done].
      apply step_least in E as (_ & _ & _ & ?); [lia|done]. }
    rewrite Hnone by lia. f_equal. symmetry. apply spec_loop_none. intros c Hc%elem_of_seqZ. apply Hnone. lia. }
  assert ((pre ++ rest) !! length p = Some lead) as ->.
  { unfold pre. rewrite <-app_assoc. by apply list_lookup_middle. }
  cbn [or_panic mbind result_bind]. destruct Hi as [Hcl Hi].
  replace (length pre - length p)%nat with (S (length conts)) by lia.
  rewrite (bool_decide_ext (S (length conts) = 1%nat) (length conts = 0%nat)) by lia.
  pose proof (Hi c0 ltac:(lia)) as Hs. destruct (bool_decide _ && negb _) eqn:Eg; rewrite Hs; [exact IH|].
  pose proof (step_least q c0 _ Hq Hs) as (m & Hm & _ & _).
  assert (need q = S (need (match need q with 1 => U0 | 2 => U1 | _ => U2 end)%nat)) as Hnd
    by (unfold need at 1; by rewrite Hm).
  set (q' := match need q with 1 => U0 | 2 => U1 | _ => U2 end%nat) in *.
  unfold checked_nat_sub. rewrite decide_True by lia. cbn [mbind result_bind].
  rewrite decide_True by lia. cbn [mbind result_bind].
  replace (char_len lead - S (length conts) - 1)%nat with (need q') by lia.
  unfold continuation_tail. rewrite decide_True by (destruct q'; cbn; lia). cbn [mbind result_bind].
  assert (replicate (need q') 0x80 = min_tail q') as -> by (subst q'; by repeat case_match).
  rewrite take_app_length, (candidate_valid pre q c0 q') by done.
  change (Z.of_nat (length pre)) with (len pre). by destruct (_ <=? max_len).
Qed.

(** ** The least greater string *)

(** A well-formed string that a length limit admits. *)
Definition admitted (max_len : Z) (w : list Z) : Prop := string_ok w ∧ len w ≤ max_len.
(** [next] is the least admitted string of the family [F], or there is none. *)
Definition least_of (max_len : Z) (F : list Z → Prop) (next : option (list Z)) : Prop :=
  match next with
  | Some s => admitted max_len s ∧ F s ∧ ∀ w, admitted max_len w → F w → s ≤ₗ w
  | None => ∀ w, admitted max_len w → ¬ F w
  end.

Lemma spec_loop_least p q max_len c0 n :
  bytes_ok p → utf8_run U0 p = Some q → 0 ≤ c0 → c0 + n ≤ 256 →
  least_of max_len (λ w, ∃ c t, w = p ++ c :: t ∧ c0 ≤ c < c0 + n)
    (spec_loop p q max_len (seqZ c0 n)).
Proof.
  intros Hok Hp. destruct (decide (n ≤ 0)) as [Hn0|Hn0].
  { rewrite seqZ_nil by lia. intros _ _ w _ (c & t & _ & ?). lia. }
  assert (∃ k, n = Z.of_nat k) as [k ->] by (exists (Z.to_nat n); lia). clear Hn0.
  revert c0. induction k as [|k IH]; intros c0 Hc0 Hn.
  { intros w _ (c & t & _ & ?). lia. }
  rewrite seqZ_cons by lia. replace (Z.pred (Z.of_nat (S k))) with (Z.of_nat k) by lia.
  specialize (IH (c0 + 1) ltac:(lia) ltac:(lia)). unfold Z.succ. cbn [spec_loop].
  (* an admitted string through [c0] completes the character *)
  assert (∀ t, admitted max_len (p ++ c0 :: t) →
    ∃ q', utf8_step q c0 = Some q' ∧ len p + 1 + len (min_tail q') ≤ max_len ∧ min_tail q' ≤ₗ t) as Hhit.
  { intros t [[_ Hv] Hl]. rewrite utf8_valid_run, bool_decide_eq_true, utf8_run_app, Hp in Hv.
    cbn [mbind option_bind utf8_run] in Hv. apply bind_Some in Hv as (q' & Hs & Hr).
    exists q'. apply min_tail_least in Hr as [Hn' Hle]. split_and!; [done| |done].
    rewrite len_app, len_cons in Hl. unfold need, len in *. lia. }
  assert (∀ w, (∃ c t, w = p ++ c :: t ∧ c0 ≤ c < c0 + Z.of_nat (S k)) →
    (∃ t, w = p ++ c0 :: t) ∨ ∃ c t, w = p ++ c :: t ∧ c0 + 1 ≤ c < c0 + 1 + Z.of_nat k) as Hsplit.
  { intros w (c & t & -> & Hc). destruct (decide (c = c0)) as [->|]; [eauto|]. right. exists c, t. split; [done|lia]. }
  assert ((∀ t, ¬ admitted max_len (p ++ c0 :: t)) →
    least_of max_len (λ w, ∃ c t, w = p ++ c :: t ∧ c0 ≤ c < c0 + Z.of_nat (S k))
      (spec_loop p q max_len (seqZ (c0 + 1) (Z.of_nat k)))) as Hskip.
  { intros Hno. destruct (spec_loop _ _ _ _) as [s|]; cbn [least_of] in *.
    - destruct IH as (Ha & (c & t & -> & Hc) & Hmin). split_and!; [done|exists c, t; split; [done|lia]|].
      intros w Hw [[t' ->]|HF]%Hsplit; [by apply Hno in Hw|by apply Hmin].
    - intros w Hw [[t' ->]|HF]%Hsplit; [by apply Hno in Hw|by eapply IH]. }
  destruct (utf8_step q c0) as [q'|] eqn:Es; [destruct (Z.leb_spec (len p + 1 + len (min_tail q')) max_len)|].
  - cbn [least_of]. split_and!.
    + split; [split|rewrite len_app, len_cons; lia]; [|by eapply candidate_valid].
      apply bytes_ok_app. split; [done|]. apply bytes_ok_cons. split; [split; lia|apply min_tail_ok].
    + exists c0, (min_tail q'). split; [done|lia].
    + intros w Hw [[t ->]|(c & t & -> & Hc)]%Hsplit; unfold lex_le; rewrite lex_cmp_app; cbn [lex_cmp].
      * rewrite Z.compare_refl. by apply Hhit in Hw as (? & [= <-] & _ & ?).
      * by rewrite (proj2 (Z.compare_lt_iff c0 c)) by lia.
  - apply Hskip. intros t (? & [= <-] & ? & _)%Hhit. lia.
  - apply Hskip. by intros t (? & ? & _)%Hhit.
Qed.

(** At every position, the code's inner search is the reference search. *)
Lemma position_search p x r max_len :
  string_ok (p ++ x :: r) →
  ∃ q, utf8_run U0 p = Some q ∧
    (char_span (p ++ x :: r) (length p) ≫= λ '(lead_pos, clen),
     candidate_loop (p ++ x :: r) max_len (length p) lead_pos clen (seqZ (x + 1) (255 - x)))
    = Ok (spec_loop p q max_len (seqZ (x + 1) (255 - x))).
Proof.
  intros [Hok Hv]. apply bytes_ok_app in Hok as [Hp Hx]. apply bytes_ok_cons in Hx as [[Hx0 Hx1] Hr].
  rewrite utf8_valid_run, bool_decide_eq_true, utf8_run_app in Hv.
  apply bind_Some in Hv as (q & Hq & Hv). cbn in Hv. apply bind_Some in Hv as (q' & Hs & _).
  exists q. split; [done|]. unfold char_span. destruct (decide (q = U0)) as [->|Hne].
  - pose proof (lead_loop_spec p x [] r) as Hl. cbn [length app] in Hl. rewrite Nat.add_0_r in Hl.
    rewrite Hl; [|rewrite is_cont_spec by done; by eapply lead_not_cont|done].
    cbn [mbind result_bind]. rewrite list_lookup_middle by done. cbn [or_panic mbind result_bind].
    apply candidate_loop_lead; [done|]. apply Forall_forall. intros c Hc%list_elem_of_In%elem_of_seqZ. split; lia.
  - pose proof (step_least _ _ _ Hne Hs) as (_ & _ & _ & Hcx).
    destruct (run_inside p q Hp Hq Hne) as (p' & lead & cs & -> & Hlead & Hnc & Hcs & Hi).
    pose proof (lead_loop_spec p' lead (cs ++ [x]) r) as Hl.
    rewrite <-(app_assoc cs), length_app in Hl. cbn [length app] in Hl.
    replace (length p' + (length cs + 1))%nat with (length (p' ++ lead :: cs)) in Hl
      by (rewrite length_app; simpl; lia).
    replace ((p' ++ lead :: cs) ++ x :: r) with (p' ++ lead :: cs ++ x :: r) by (by rewrite <-app_assoc).
    rewrite Hl; [|by rewrite is_cont_spec|].
    2: { apply Forall_app. split; [done|]. repeat constructor. rewrite is_cont_spec by done. unfold cont. bprop. lia. }
    cbn [mbind result_bind]. rewrite list_lookup_middle by done. cbn [or_panic mbind result_bind].
    replace (p' ++ lead :: cs ++ x :: r) with ((p' ++ lead :: cs) ++ x :: r) by (by rewrite <-app_assoc).
    apply candidate_loop_inside; [done..|lia|lia].
Qed.

(** Strings that first exceed [v] before position [n]. *)
Definition exceeds_before (v : list Z) (n : nat) (w : list Z) : Prop :=
  ∃ j b c t, (j < n)%nat ∧ v !! j = Some b ∧ b < c < 256 ∧ w = take j v ++ c :: t.

Lemma position_loop_least v max_len n :
  string_ok v → (n ≤ length v)%nat →
  ∃ next, position_loop v max_len n = Ok next ∧ least_of max_len (exceeds_before v n) next.
Proof.
  intros Hv. induction n as [|k IH]; intros Hn.
  { exists None. split; [done|]. intros w _ (j & b & c & t & Hj & _). lia. }
  destruct IH as (next & Hnext & Hleast); [lia|].
  destruct (lookup_lt_is_Some_2 v k) as [x Hx]; [lia|].
  pose proof (take_drop_middle v k x Hx) as E. set (p := take k v) in *. set (r := drop (S k) v) in *.
  assert (length p = k) as Hpk by (unfold p; rewrite length_take; lia).
  rewrite <-E in Hv. destruct (position_search p x r max_len Hv) as (q & Hq & Hsearch).
  rewrite Hpk, E in Hsearch. apply bind_ok in Hsearch as ([lp cl] & Hspan & Hsearch).
  destruct Hv as [Hok _]. apply bytes_ok_app in Hok as [Hp Hxr]. apply bytes_ok_cons in Hxr as [[Hx0 Hx1] _].
  pose proof (spec_loop_least p q max_len (x + 1) (255 - x) Hp Hq ltac:(lia) ltac:(lia)) as Hspec.
  cbn [position_loop]. rewrite Hspan. cbn [mbind result_bind]. rewrite Hx. cbn [or_panic mbind result_bind].
  rewrite Hsearch. cbn [mbind result_bind].
  assert (∀ w, exceeds_before v (S k) w →
    (∃ c t, w = p ++ c :: t ∧ x + 1 ≤ c < x + 1 + (255 - x)) ∨ exceeds_before v k w) as Hsplit.
  { intros w (j & b & c & t & Hj & Hb & Hc & ->). destruct (decide (j = k)) as [->|].
    - left. rewrite Hx in Hb. injection Hb as ->. exists c, t. split; [done|lia].
    - right. exists j, b, c, t. split_and!; [lia|done|lia|lia|done]. }
  destruct (spec_loop _ _ _ _) as [s|]; cbn [least_of] in Hspec.
  - exists (Some s). split; [done|]. destruct Hspec as (Ha & (c & t & -> & Hc) & Hmin). split_and!; [done|..].
    + exists k, x, c, t. split_and!; [lia|done|lia..|done].
    + intros w Hw [HF|(j & b & c' & t' & Hj & Hb & Hc' & ->)]%Hsplit; [by apply Hmin|].
      apply lex_lt_le. unfold lex_lt.
      assert (p = take j v ++ b :: drop (S j) p) as ->.
      { rewrite <-(take_drop_middle p j b) at 1; [unfold p; rewrite take_take; do 2 f_equal; lia|].
        unfold p. by rewrite lookup_take_lt. }
      rewrite <-app_assoc, lex_cmp_app. cbn [app lex_cmp]. by rewrite (proj2 (Z.compare_lt_iff b c')) by lia.
  - exists next. split; [done|]. destruct next as [s|]; cbn [least_of] in *.
    + destruct Hleast as (Ha & (j & b & c & t & Hj & Hb & Hc & Hw) & Hmin). split_and!; [done|..].
      * exists j, b, c, t. split_and!; [lia|done|lia..|done].
      * intros w Hw' [HF|HF]%Hsplit; [by apply Hspec in HF|by apply Hmin].
    + intros w Hw' [HF|HF]%Hsplit; [by eapply Hspec|by eapply Hleast].
Qed.

Lemma lex_lt_exceeds v w :
  bytes_ok w → len w ≤ len v → v <ₗ w ↔ exceeds_before v (length v) w.
Proof.
  intros Hok Hl. split.
  - revert w Hok Hl. unfold lex_lt. induction v as [|x v IH]; intros [|y w] Hok Hl Hlt; cbn in Hlt; try done.
    apply bytes_ok_cons in Hok as [[Hy0 Hy1] Hok]. rewrite !len_cons in Hl.
    destruct (Z.compare_spec x y) as [->|Hxy|]; [|by exists 0%nat, x, y, w; split_and!; [simpl; lia|..]|done].
    destruct (IH w Hok ltac:(lia) Hlt) as (j & b & c & t & Hj & Hb & Hc & ->).
    exists (S j), b, c, t. split_and!; [simpl; lia|done|lia|lia|done].
  - intros (j & b & c & t & Hj & Hb & Hc & ->). unfold lex_lt.
    rewrite <-(take_drop_middle v j b Hb) at 1. rewrite lex_cmp_app. cbn [lex_cmp].
    by rewrite (proj2 (Z.compare_lt_iff b c)) by lia.
Qed.

(** [next_string] finds the least admitted string above the value. *)
Lemma next_string_least v max_len :
  string_ok v → ∃ next, next_string v max_len = Ok next ∧ least_of max_len (λ w, v <ₗ w) next.
Proof.
  intros Hv. unfold next_string. destruct (Z.ltb_spec (len v) max_len) as [Hl|Hl].
  - exists (Some (v ++ [0])). split; [done|]. split_and!.
    + split; [|rewrite len_app; change (len [0]) with 1; lia]. destruct Hv as [Hok Hu]. split.
      * apply bytes_ok_app. split; [done|]. by repeat constructor.
      * by rewrite utf8_valid_split, Hu.
    + apply (lex_le_snoc0 v (v ++ [0])); [|apply lex_le_refl].
      apply bytes_ok_app. split; [apply Hv|by repeat constructor].
    + intros w [[Hok _] _] Hlt. by apply lex_le_snoc0.
  - destruct (position_loop_least v max_len (length v) Hv ltac:(done)) as (next & -> & Hleast).
    exists next. split; [done|].
    assert (∀ w, admitted max_len w → exceeds_before v (length v) w ↔ v <ₗ w) as Heq.
    { intros w [[Hok _] Hlw]. symmetry. apply lex_lt_exceeds; [done|lia]. }
    destruct next as [s|]; cbn [least_of] in *.
    + destruct Hleast as (Ha & HF & Hmin). split_and!; [done|by apply Heq|].
      intros w Hw Hlt. apply Hmin; [done|by apply Heq].
    + intros w Hw Hlt. eapply Hleast; [done|by apply Heq].
Qed.

(** ** Floats *)

(** Canonical patterns are the integers of one interval under [value_key]. *)
Lemma f64_canonical_key b :
  u64_ok b → F64.canonical b = true →
  - 0x7FF0000000000000 < F64.value_key b < 0x7FF0000000000000 ∧
  b = if F64.value_key b <? 0 then 2 ^ 63 - F64.value_key b else F64.value_key b.
Proof.
  intros Hb. unfold F64.canonical, F64.is_finite, F64.is_zero, F64.value_key.
  rewrite !f64_magnitude by done. unfold F64.sign_negative, u64_ok in *. intros Hc.
  destruct (Z.leb_spec (2 ^ 63) b); bprop; destruct Hc as [Hf Hz]; (split; [lia|]).
  - destruct (Z.ltb_spec (- (b - 2 ^ 63)) 0); lia.
  - destruct (Z.ltb_spec b 0); lia.
Qed.

Lemma next_finite_spec b :
  u64_ok b → F64.canonical b = true →
  match next_finite b with
  | Some n => u64_ok n ∧ F64.canonical n = true ∧ F64.value_key n = F64.value_key b + 1
  | None => F64.value_key b = 0x7FF0000000000000 - 1
  end.
Proof.
  intros Hb Hc. pose proof (f64_canonical_key b Hb Hc) as [Hr _].
  assert (F64.magnitude b < 0x7FF0000000000000) as Hm by (unfold F64.canonical, F64.is_finite in Hc; bprop; tauto).
  unfold next_finite. rewrite (proj2 (Z.ltb_ge _ _)) by lia. cbn [negb andb].
  assert (∀ n, u64_ok n → (n < 2 ^ 63 → F64.magnitude n = n ∧ F64.value_key n = n) ∧
    (2 ^ 63 ≤ n → F64.magnitude n = n - 2 ^ 63 ∧ F64.value_key n = - (n - 2 ^ 63))) as Hk.
  { intros n Hn. unfold F64.value_key. rewrite f64_magnitude by done. unfold F64.sign_negative.
    destruct (Z.leb_spec (2 ^ 63) n); lia. }
  pose proof (Hk b Hb) as [Hb1 Hb2]. unfold u64_ok in *. unfold F64.canonical in Hc. bprop. destruct Hc as [_ Hz].
  assert (F64.is_zero b = true → b < 2 ^ 63) as Hz'.
  { intros E. destruct Hz as [Hz|Hz]; [congruence|]. unfold F64.sign_negative in Hz. bprop. lia. }
  destruct (Z.leb_spec 0 (F64.value_key b)) as [Hp|Hp].
  - assert (b < 2 ^ 63) as Hlt.
    { destruct (Z.lt_ge_cases b (2 ^ 63)); [done|]. apply Hz'. unfold F64.is_zero. apply Z.eqb_eq. lia. }
    rewrite (proj2 (Z.ltb_lt _ _)) by lia. cbn [mbind option_bind].
    pose proof (Hk (b + 1) ltac:(lia)) as [Hn _]. destruct Hn as [Hn1 Hn2]; [lia|].
    unfold F64.is_zero, F64.is_finite. rewrite Hn1. rewrite (proj2 (Z.eqb_neq _ _)) by lia. rewrite Hn1.
    destruct (Z.ltb_spec (b + 1) 0x7FF0000000000000); [|lia]. split; [lia|]. split; [|lia].
    unfold F64.canonical, F64.is_finite, F64.is_zero. rewrite Hn1. bprop. split; [lia|left; lia].
  - assert (2 ^ 63 < b) as Hlt by (destruct (Z.lt_ge_cases (2 ^ 63) b); [done|]; lia).
    rewrite (proj2 (Z.leb_le _ _)) by lia. cbn [mbind option_bind].
    pose proof (Hk (b - 1) ltac:(lia)) as [_ Hn]. destruct Hn as [Hn1 Hn2]; [lia|].
    unfold F64.is_zero. rewrite Hn1. destruct (Z.eqb_spec (b - 1 - 2 ^ 63) 0) as [E|E].
    + change (F64.is_finite 0) with true. cbv iota. split; [lia|]. split; [done|]. change (F64.value_key 0) with 0. lia.
    + unfold F64.is_finite. rewrite Hn1. rewrite (proj2 (Z.ltb_lt _ _)) by lia. split; [lia|]. split; [|lia].
      unfold F64.canonical, F64.is_finite, F64.is_zero. rewrite Hn1. bprop. split; [lia|left; lia].
Qed.

(** ** The typed successor *)
Definition typed_lt (a b : Value.t) : Prop := typed_order a b = Some Lt.

(** [next] is the least canonical value of the domain above [v], or [v] is its
    maximum. *)
Definition typed_successor (ty : DataType.t) (v : Value.t) (next : option Value.t) : Prop :=
  match next with
  | Some n => field_ok ty n ∧ typed_lt v n ∧ ∀ w, field_ok ty w → typed_lt v w → typed_le n w
  | None => ∀ w, field_ok ty w → ¬ typed_lt v w
  end.

Lemma next_f64_successor bits :
  field_ok DataType.F64 (Value.F64 bits) →
  typed_successor DataType.F64 (Value.F64 bits) (option_map Value.F64 (next_finite bits)).
Proof.
  intros [Hu Hc]. pose proof (next_finite_spec bits Hu Hc) as Hn.
  assert (∀ b, F64.canonical b = true → F64.is_finite b = true) as Hfin.
  { unfold F64.canonical. intros b Hb. bprop. tauto. }
  assert (∀ w, field_ok DataType.F64 w → ∃ b, w = Value.F64 b ∧ u64_ok b ∧ F64.canonical b = true) as Hdom.
  { intros [] [Hw Tw]; try done. eauto. }
  assert (∀ a b, F64.canonical a = true → F64.canonical b = true →
    typed_order (Value.F64 a) (Value.F64 b) = Some (F64.value_key a ?= F64.value_key b)) as Hord.
  { intros a b Ha Hb. cbn [typed_order]. by rewrite !Hfin by done. }
  destruct (next_finite bits) as [n|]; cbn [option_map typed_successor].
  - destruct Hn as (Hun & Hcn & Hk). split_and!; [done|..].
    + unfold typed_lt. rewrite Hord by done. f_equal. apply Z.compare_lt_iff. lia.
    + intros w (b & -> & Hb & Hcb)%Hdom. unfold typed_lt, typed_le. rewrite !Hord by done.
      intros Hlt%(inj Some). change (F64.value_key bits < F64.value_key b) in Hlt. eexists. split; [done|]. apply Z.compare_le_iff. lia.
  - intros w (b & -> & Hb & Hcb)%Hdom. unfold typed_lt. rewrite Hord by done.
    intros Hlt%(inj Some). change (F64.value_key bits < F64.value_key b) in Hlt. pose proof (f64_canonical_key b Hb Hcb). lia.
Qed.

Lemma next_value_successor ty v :
  field_ok ty v → ∃ next, next_value ty v = Ok next ∧ typed_successor ty v next.
Proof.
  intros Hv. pose proof Hv as [Hok Ht]. destruct ty, v; try done; cbn [next_value].
  - destruct value; eexists; (split; [done|]); cbn.
    + intros [] [_ Tw] Hlt; try done. by destruct value.
    + split_and!; [done..|]. intros [] [_ Tw] Hlt; try done. destruct value; [|done]. by exists Eq.
  - eexists. split; [done|]. cbn in Hok. unfold i64_ok in *. destruct (Z.ltb_spec (value + 1) (2 ^ 63)); cbn.
    + split_and!; [split; [cbn; unfold i64_ok; lia|done]|unfold typed_lt; cbn; f_equal; apply Z.compare_lt_iff; lia|].
      intros [] [_ Tw] Hlt; try done. unfold typed_lt in Hlt. cbn in Hlt. injection Hlt as Hlt; change (value < value0) in Hlt.
      eexists. split; [done|]. apply Z.compare_le_iff. lia.
    + intros [] [Hw Tw] Hlt; try done. cbn in Hw. unfold typed_lt, i64_ok in *. cbn in Hlt.
      injection Hlt as Hlt; change (value < value0) in Hlt. lia.
  - eexists. split; [done|]. by apply next_f64_successor.
  - destruct (next_string_least bytes MAX_STRING_BYTES Hok) as (next & -> & Hleast).
    cbn [mbind result_bind]. eexists. split; [done|].
    assert (∀ w, field_ok DataType.String w → ∃ s, w = Value.String s ∧ admitted MAX_STRING_BYTES s) as Hdom.
    { intros [] [Hw Tw]; try done. cbn in Tw. bprop. eexists. by split. }
    destruct next as [s|]; cbn [least_of typed_successor option_map] in *.
    + destruct Hleast as ([Hs Hl] & Hlt & Hmin). split_and!.
      * split; [done|]. by apply Z.leb_le.
      * unfold typed_lt. cbn. by rewrite Hlt.
      * intros w (b & -> & Hb)%Hdom Hw. unfold typed_lt in Hw. cbn in Hw. injection Hw as Hw.
        eexists. split; [done|]. by apply Hmin.
    + intros w (b & -> & Hb)%Hdom Hw. unfold typed_lt in Hw. cbn in Hw. injection Hw as Hw. by eapply Hleast.
Qed.

Lemma min_value_least ty w : field_ok ty w → field_ok ty (min_value ty) ∧ typed_le (min_value ty) w.
Proof.
  intros [Hw Tw]. destruct ty, w; try done; cbn [min_value].
  - split; [done|]. by destruct value; eexists.
  - cbn in Hw. unfold i64_ok in *. split; [split; [cbn; unfold i64_ok; lia|done]|]. eexists. split; [done|].
    apply Z.compare_le_iff. lia.
  - split; [split; [cbn; unfold u64_ok, F64_MIN; lia|done]|].
    cbn in Hw, Tw. pose proof (f64_canonical_key bits Hw Tw) as [Hk _]. exists (F64.cmp F64_MIN bits). split.
    + cbn [typed_order]. unfold F64.canonical in Tw. apply andb_prop in Tw as [-> _]. done.
    + unfold F64.cmp. apply Z.compare_le_iff. change (F64.value_key F64_MIN) with (- 0x7FEFFFFFFFFFFFFF). lia.
  - split; [split; [split; [constructor|done]|done]|]. eexists. split; [done|]. by destruct bytes.
Qed.

(** C36: [next_value] computes the typed successor in every scalar domain: for
    each canonical value it succeeds without a panic and returns the least
    canonical value above it, or none exactly at the domain's maximum.  For
    strings at the length ceiling this is the least greater well-formed UTF-8
    string of at most 1024 bytes. *)
Theorem next_value_exact ty v :
  field_ok ty v → ∃ next, next_value ty v = Ok next ∧ typed_successor ty v next.
Proof. apply next_value_successor. Qed.
Lemma next_value_exact_witness :
  ∃ next, next_value DataType.String (Value.String (replicate 1022 97 ++ [0xC3; 0xBF])) = Ok next ∧
    typed_successor DataType.String (Value.String (replicate 1022 97 ++ [0xC3; 0xBF])) next.
Proof. apply (next_value_exact DataType.String). split; [dec_compute|vm_compute; reflexivity]. Defined.
