(* ===== verification/Intervals.v ===== *)
(** Typed interval sets of the Tree Key planner (the [Interval], [FieldSet] and
    [FieldCheck] parts of src/src/search/plan.rs): normalization, union,
    intersection, complement and membership.  The canonical values of one scalar
    domain embed in [Z] by an order-preserving rank, which turns the interval
    algebra into linear arithmetic. *)
From stdpp Require Import sorting.
From S2P Require Import Prelude RustStd Api TreeKey PredicateEval NextValue.

(** ** Intervals and their bounds *)
Record Interval := mkInterval { iv_lo : option Value.t; iv_hi : option Value.t }.
Record FieldSet := mkFieldSet { fst_ty : DataType.t; fst_intervals : list Interval }.

Definition bound_order (l r : Value.t) : comparison := default Eq (typed_order l r).
Definition interval_is_empty (ty : DataType.t) (interval : Interval) : bool :=
  match iv_lo interval, iv_hi interval with
  | Some lo, Some hi => bool_decide (bound_order lo hi ≠ Lt)
  | None, Some hi => bool_decide (bound_order (min_value ty) hi ≠ Lt)
  | _, _ => false
  end.
Definition cmp_lower (l r : option Value.t) : comparison :=
  match l, r with
  | None, None => Eq
  | None, Some _ => Lt
  | Some _, None => Gt
  | Some l, Some r => bound_order l r
  end.
Definition cmp_upper (l r : option Value.t) : comparison :=
  match l, r with
  | None, None => Eq
  | None, Some _ => Gt
  | Some _, None => Lt
  | Some l, Some r => bound_order l r
  end.
Definition cmp_intervals (l r : Interval) : comparison :=
  match cmp_lower (iv_lo l) (iv_lo r) with
  | Eq => cmp_upper (iv_hi l) (iv_hi r)
  | c => c
  end.
Definition overlaps_or_adjacent (last next : Interval) : bool :=
  match iv_lo next, iv_hi last with
  | _, None | None, _ => true
  | Some lo, Some hi => bool_decide (bound_order lo hi ≠ Gt)
  end.
Definition max_lo (l r : option Value.t) : option Value.t :=
  if decide (cmp_lower l r = Lt) then r else l.
Definition min_hi (l r : option Value.t) : option Value.t :=
  if decide (cmp_upper l r = Gt) then r else l.
Definition max_hi (l r : option Value.t) : option Value.t :=
  if decide (cmp_upper l r = Lt) then r else l.

(** ** Sorting

    [slice::sort_by]: the stable order of a total comparison is unique, so the
    model sorts by insertion, before the first element that is not smaller. *)
Section sort_by.
Context {A : Type} (cmp : A → A → comparison).
Fixpoint insert_by (x : A) (l : list A) : list A :=
  match l with
  | [] => [x]
  | y :: l => match cmp x y with Gt => y :: insert_by x l | _ => x :: y :: l end
  end.
Definition sort_by (l : list A) : list A := foldr insert_by [] l.

Lemma insert_by_perm x l : insert_by x l ≡ₚ x :: l.
Proof.
  induction l as [|y l IH]; [done|]. cbn. destruct (cmp x y); [done..|].
  rewrite IH. apply Permutation_swap.
Qed.
Lemma sort_by_perm l : sort_by l ≡ₚ l.
Proof. induction l as [|x l IH]; [done|]. cbn. rewrite insert_by_perm. by f_equiv. Qed.

Definition cmp_le (a b : A) : Prop := cmp a b ≠ Gt.
Context (P : A → Prop) (Htotal : ∀ a b, P a → P b → cmp a b = Gt → cmp b a ≠ Gt).
Lemma insert_by_sorted x l : P x → Forall P l → Sorted cmp_le l → Sorted cmp_le (insert_by x l).
Proof using Htotal.
  intros Hx Hl Hs. induction Hs as [|y l Hs IH Hd]; cbn; [by repeat constructor|].
  apply Forall_cons_iff in Hl as [Hy Hl]. destruct (cmp x y) eqn:E.
  1-2: constructor; [by constructor|constructor; unfold cmp_le; by rewrite E].
  constructor; [by apply IH|]. destruct Hd as [|z l Hz]; cbn.
  - constructor. by apply Htotal.
  - destruct (cmp x z); constructor; try done; by apply Htotal.
Qed.
Lemma sort_by_sorted l : Forall P l → Sorted cmp_le (sort_by l).
Proof using Htotal.
  induction 1 as [|x l Hx Hl IH]; [constructor|]. cbn. apply insert_by_sorted; [done| |done].
  by rewrite sort_by_perm.
Qed.
End sort_by.

(** ** Interval sets *)
Definition FieldSet_empty (ty : DataType.t) : FieldSet := mkFieldSet ty [].

(** The merge loop, with the last interval of [merged] carried as [last]. *)
Fixpoint merge_loop (last : Interval) (intervals : list Interval) : list Interval :=
  match intervals with
  | [] => [last]
  | interval :: intervals =>
      if overlaps_or_adjacent last interval then
        merge_loop (mkInterval (iv_lo last) (max_hi (iv_hi last) (iv_hi interval))) intervals
      else last :: merge_loop interval intervals
  end.
Definition merge_intervals (intervals : list Interval) : list Interval :=
  match intervals with [] => [] | i :: rest => merge_loop i rest end.
Definition normalize (ty : DataType.t) (intervals : list Interval) : FieldSet :=
  let intervals := List.filter (λ interval, negb (interval_is_empty ty interval)) intervals in
  let intervals := sort_by cmp_intervals intervals in
  mkFieldSet ty (merge_intervals intervals).

Definition from_compare (ty : DataType.t) (op : CompareOp.t) (value : Value.t) : result FieldSet :=
  next_value ty value ≫= λ next,
  let intervals :=
    match op with
    | CompareOp.Eq => [mkInterval (Some value) next]
    | CompareOp.NotEq =>
        mkInterval None (Some value) ::
        match next with Some next => [mkInterval (Some next) None] | None => [] end
    | CompareOp.Lt => [mkInterval None (Some value)]
    | CompareOp.LessOrEqual => [mkInterval None next]
    | CompareOp.Gt => match next with Some next => [mkInterval (Some next) None] | None => [] end
    | CompareOp.GreaterOrEqual => [mkInterval (Some value) None]
    end in
  Ok (normalize ty intervals).
Definition FieldSet_union (s other : FieldSet) : FieldSet :=
  normalize (fst_ty s) (fst_intervals s ++ fst_intervals other).
Definition FieldSet_intersect (s other : FieldSet) : FieldSet :=
  normalize (fst_ty s)
    (l ← fst_intervals s; r ← fst_intervals other;
     [mkInterval (max_lo (iv_lo l) (iv_lo r)) (min_hi (iv_hi l) (iv_hi r))]).
Fixpoint complement_loop (cursor : option Value.t) (intervals : list Interval) : list Interval :=
  match intervals with
  | [] => match cursor with Some _ => [mkInterval cursor None] | None => [] end
  | interval :: intervals =>
      (if bool_decide (is_Some cursor) || bool_decide (is_Some (iv_lo interval))
       then [mkInterval cursor (iv_lo interval)] else [])
      ++ complement_loop (iv_hi interval) intervals
  end.
Definition FieldSet_complement (s : FieldSet) : FieldSet :=
  match fst_intervals s with
  | [] => normalize (fst_ty s) [mkInterval None None]
  | intervals => normalize (fst_ty s) (complement_loop None intervals)
  end.
Definition point_value (s : FieldSet) (interval : Interval) : result (option Value.t) :=
  match iv_lo interval with
  | None => Ok None
  | Some lo =>
      next_value (fst_ty s) lo ≫= λ next,
      Ok (match iv_hi interval, next with
          | Some hi, Some next => if bool_decide (typed_order hi next = Some Eq) then Some lo else None
          | None, None => Some lo
          | _, _ => None
          end)
  end.
(** [FieldCheck::contains]. *)
Fixpoint contains (intervals : list Interval) (value : Value.t) : bool :=
  match intervals with
  | [] => false
  | interval :: intervals =>
      let below := match iv_lo interval with
                   | Some lo => bool_decide (bound_order value lo = Lt)
                   | None => false
                   end in
      if below then false
      else match iv_hi interval with
           | Some hi => if bool_decide (bound_order value hi = Lt) then true
                        else contains intervals value
           | None => true
           end
  end.

(** ** Ranks

    Strings of at most [n] bytes as [n]-digit numbers in base 257, with digit 0
    past the end. *)
Fixpoint string_rank (n : nat) (s : list Z) : Z :=
  match n, s with
  | S n, b :: t => (b + 1) * 257 ^ Z.of_nat n + string_rank n t
  | _, _ => 0
  end.
Definition rank (v : Value.t) : Z :=
  match v with
  | Value.Null => 0
  | Value.Bool b => if b then 1 else 0
  | Value.I64 x => x
  | Value.F64 bits => F64.value_key bits
  | Value.String s => string_rank (Z.to_nat MAX_STRING_BYTES) s
  end.

Lemma string_rank_bound n s : bytes_ok s → 0 ≤ string_rank n s < 257 ^ Z.of_nat n.
Proof.
  revert s. induction n as [|n IH]; intros [|b t] Hs; cbn [string_rank]; [lia..|].
  apply bytes_ok_cons in Hs as [[??] Ht]. specialize (IH t Ht).
  rewrite Nat2Z.inj_succ, Z.pow_succ_r by lia. nia.
Qed.
Lemma string_rank_compare n a b :
  bytes_ok a → bytes_ok b → (length a ≤ n)%nat → (length b ≤ n)%nat →
  lex_cmp a b = (string_rank n a ?= string_rank n b).
Proof.
  revert a b. induction n as [|n IH]; intros [|x a] [|y b] Ha Hb Hla Hlb; cbn [length] in *; try done; try lia.
  - rewrite bytes_ok_cons in Hb. destruct Hb as [[??] Hb]. pose proof (string_rank_bound n b Hb).
    cbn [lex_cmp string_rank]. symmetry. apply Z.compare_lt_iff. nia.
  - rewrite bytes_ok_cons in Ha. destruct Ha as [[??] Ha]. pose proof (string_rank_bound n a Ha).
    cbn [lex_cmp string_rank]. symmetry. apply Z.compare_gt_iff. nia.
  - apply bytes_ok_cons in Ha as [[??] Ha], Hb as [[??] Hb].
    pose proof (string_rank_bound n a Ha). pose proof (string_rank_bound n b Hb).
    cbn [lex_cmp string_rank]. rewrite (IH a b) by (try done; lia).
    destruct (Z.compare_spec x y) as [->| |]; symmetry.
    + destruct (Z.compare_spec (string_rank n a) (string_rank n b)) as [E|E|E].
      * apply Z.compare_eq_iff. lia.
      * apply Z.compare_lt_iff. lia.
      * apply Z.compare_gt_iff. lia.
    + apply Z.compare_lt_iff. nia.
    + apply Z.compare_gt_iff. nia.
Qed.

(** The typed order of canonical values of one domain is the order of ranks. *)
Lemma typed_order_rank ty a b :
  field_ok ty a → field_ok ty b → typed_order a b = Some (rank a ?= rank b).
Proof.
  intros [Ha Ta] [Hb Tb]. destruct ty, a, b; try done; cbn [typed_order rank].
  - f_equal. by destruct value, value0.
  - cbn in Ta, Tb. unfold F64.canonical in *. apply andb_prop in Ta as [-> _], Tb as [-> _]. done.
  - f_equal. cbn in Ta, Tb. unfold MAX_STRING_BYTES, len in *. bprop.
    apply string_rank_compare; [apply Ha|apply Hb|lia..].
Qed.
Lemma bound_order_rank ty a b : field_ok ty a → field_ok ty b → bound_order a b = (rank a ?= rank b).
Proof. intros Ha Hb. unfold bound_order. by rewrite (typed_order_rank ty). Qed.
Lemma rank_inj ty a b : field_ok ty a → field_ok ty b → rank a = rank b → a = b.
Proof.
  intros Ha Hb E. pose proof (typed_order_rank ty a b Ha Hb) as Ho. rewrite E, Z.compare_refl in Ho.
  destruct Ha, Hb. by eapply typed_order_eq.
Qed.
#[global] Arguments rank : simpl never.

(** ** Membership *)
Definition lo_le (b : option Value.t) (v : Value.t) : Prop :=
  match b with None => True | Some l => rank l ≤ rank v end.
Definition hi_gt (b : option Value.t) (v : Value.t) : Prop :=
  match b with None => True | Some h => rank v < rank h end.
Definition in_interval (i : Interval) (v : Value.t) : Prop := lo_le (iv_lo i) v ∧ hi_gt (iv_hi i) v.
Definition in_intervals (l : list Interval) (v : Value.t) : Prop := ∃ i, i ∈ l ∧ in_interval i v.

Lemma in_intervals_nil v : in_intervals [] v ↔ False.
Proof. unfold in_intervals. split; [|done]. intros (i & Hi & _). by apply elem_of_nil in Hi. Qed.
Lemma in_intervals_cons i l v : in_intervals (i :: l) v ↔ in_interval i v ∨ in_intervals l v.
Proof. unfold in_intervals. setoid_rewrite elem_of_cons. naive_solver. Qed.
Lemma in_intervals_app a b v : in_intervals (a ++ b) v ↔ in_intervals a v ∨ in_intervals b v.
Proof. unfold in_intervals. setoid_rewrite elem_of_app. naive_solver. Qed.

Section domain.
Context (ty : DataType.t).
Definition bound_ok (b : option Value.t) : Prop :=
  match b with None => True | Some v => field_ok ty v end.
Definition interval_ok (i : Interval) : Prop := bound_ok (iv_lo i) ∧ bound_ok (iv_hi i).
(** The intervals are nonempty and separated by gaps, in increasing order. *)
Definition separated (i j : Interval) : Prop :=
  match iv_hi i, iv_lo j with Some h, Some l => rank h < rank l | _, _ => False end.
Fixpoint normal (l : list Interval) : Prop :=
  match l with
  | [] => True
  | i :: l =>
      interval_ok i ∧ interval_is_empty ty i = false ∧
      match l with [] => True | j :: _ => separated i j end ∧ normal l
  end.

Lemma cmp_lower_rank a b :
  bound_ok a → bound_ok b → cmp_lower a b =
  match a, b with
  | None, None => Eq | None, Some _ => Lt | Some _, None => Gt
  | Some a, Some b => rank a ?= rank b
  end.
Proof. destruct a, b; try done. intros. by apply (bound_order_rank ty). Qed.
Lemma cmp_upper_rank a b :
  bound_ok a → bound_ok b → cmp_upper a b =
  match a, b with
  | None, None => Eq | None, Some _ => Gt | Some _, None => Lt
  | Some a, Some b => rank a ?= rank b
  end.
Proof. destruct a, b; try done. intros. by apply (bound_order_rank ty). Qed.

Lemma interval_empty_spec i v :
  interval_ok i → field_ok ty v → interval_is_empty ty i = true → ¬ in_interval i v.
Proof.
  destruct i as [[lo|] [hi|]]; intros [Hlo Hhi] Hv; unfold interval_is_empty; cbn; try done; rewrite bool_decide_eq_true.
  - rewrite (bound_order_rank ty) by done. intros Hn [Hl Hh]; cbn in *. apply Hn, Z.compare_lt_iff. lia.
  - destruct (min_value_least ty v Hv) as [Hm (c & Hc & Hne)].
    rewrite (typed_order_rank ty) in Hc by done. injection Hc as <-. change (rank (min_value ty) ≤ rank v) in Hne.
    rewrite (bound_order_rank ty) by done. intros Hn [_ Hh]; cbn in *. apply Hn, Z.compare_lt_iff. lia.
Qed.
Lemma interval_nonempty_spec i lo hi :
  interval_ok i → interval_is_empty ty i = false → iv_lo i = Some lo → iv_hi i = Some hi → rank lo < rank hi.
Proof.
  destruct i as [l h]; cbn. intros [Hlo Hhi] He -> ->. unfold interval_is_empty in He. cbn in *.
  apply bool_decide_eq_false in He. rewrite (bound_order_rank ty) in He by done.
  apply dec_stable in He. exact He.
Qed.

(** Members of normal sets lie above the lower bound of the first interval. *)
Lemma normal_above i l v : normal (i :: l) → in_intervals (i :: l) v → lo_le (iv_lo i) v.
Proof.
  revert i. induction l as [|j l IH]; intros i (Hok & He & Hsep & Hn) Hin; apply in_intervals_cons in Hin as [[Hlo _]|Hin]; try done.
  - by apply in_intervals_nil in Hin.
  - apply IH in Hin; [|done]. unfold separated in Hsep. destruct (iv_lo i) as [lo|] eqn:El; [|done].
    destruct (iv_hi i) as [hi|] eqn:Eh; [|done]. destruct (iv_lo j) as [lj|]; [|done].
    pose proof (interval_nonempty_spec i lo hi Hok He El Eh). cbn in *. lia.
Qed.
Lemma normal_not_below i j l v :
  separated i j → normal (j :: l) → in_intervals (j :: l) v → ¬ hi_gt (iv_hi i) v.
Proof.
  intros Hsep Hn Hin. apply normal_above in Hin; [|done]. unfold separated in Hsep.
  destruct (iv_hi i), (iv_lo j); try done. cbn in *. lia.
Qed.

(** ** Normalization *)
Lemma max_hi_spec a b v : bound_ok a → bound_ok b → hi_gt (max_hi a b) v ↔ hi_gt a v ∨ hi_gt b v.
Proof.
  intros Ha Hb. unfold max_hi. case_decide as E; rewrite cmp_upper_rank in E by done; destruct a, b; cbn; try done; try tauto.
  - rewrite Z.compare_lt_iff in E. lia.
  - rewrite Z.compare_nlt_iff in E. lia.
Qed.
Lemma min_hi_spec a b v : bound_ok a → bound_ok b → hi_gt (min_hi a b) v ↔ hi_gt a v ∧ hi_gt b v.
Proof.
  intros Ha Hb. unfold min_hi. case_decide as E; rewrite cmp_upper_rank in E by done; destruct a, b; cbn; try done; try tauto.
  - rewrite Z.compare_gt_iff in E. lia.
  - rewrite Z.compare_ngt_iff in E. lia.
Qed.
Lemma max_lo_spec a b v : bound_ok a → bound_ok b → lo_le (max_lo a b) v ↔ lo_le a v ∧ lo_le b v.
Proof.
  intros Ha Hb. unfold max_lo. case_decide as E; rewrite cmp_lower_rank in E by done; destruct a, b; cbn; try done; try tauto.
  - rewrite Z.compare_lt_iff in E. lia.
  - rewrite Z.compare_nlt_iff in E. lia.
Qed.
Lemma max_hi_ok a b : bound_ok a → bound_ok b → bound_ok (max_hi a b).
Proof. unfold max_hi. by case_decide. Qed.
Lemma min_hi_ok a b : bound_ok a → bound_ok b → bound_ok (min_hi a b).
Proof. unfold min_hi. by case_decide. Qed.
Lemma max_lo_ok a b : bound_ok a → bound_ok b → bound_ok (max_lo a b).
Proof. unfold max_lo. by case_decide. Qed.

(** Sorted by lower bound, as the sort leaves them. *)
Definition lower_le (i j : Interval) : Prop := cmp_lower (iv_lo i) (iv_lo j) ≠ Gt.
Lemma lower_le_spec i j v : interval_ok i → interval_ok j → lower_le i j → lo_le (iv_lo j) v → lo_le (iv_lo i) v.
Proof.
  intros [Hi _] [Hj _]. unfold lower_le. rewrite cmp_lower_rank by done.
  destruct (iv_lo i), (iv_lo j); cbn; try done. rewrite Z.compare_ngt_iff. lia.
Qed.
Lemma cmp_intervals_lower i j : cmp_le cmp_intervals i j → lower_le i j.
Proof. unfold cmp_le, cmp_intervals, lower_le. by destruct (cmp_lower _ _). Qed.
Lemma cmp_intervals_total i j :
  interval_ok i → interval_ok j → cmp_intervals i j = Gt → cmp_intervals j i ≠ Gt.
Proof.
  intros [Hi1 Hi2] [Hj1 Hj2]. unfold cmp_intervals. rewrite !cmp_lower_rank, !cmp_upper_rank by done.
  destruct (iv_lo i) as [a|], (iv_lo j) as [b|], (iv_hi i) as [c|], (iv_hi j) as [d|]; try done;
    rewrite ?(Z.compare_antisym (rank a) (rank b)), ?(Z.compare_antisym (rank c) (rank d));
    repeat (destruct (_ ?= _); cbn; try done).
Qed.

Lemma merged_in_interval last next v :
  interval_ok last → interval_ok next → lower_le last next → overlaps_or_adjacent last next = true →
  in_interval (mkInterval (iv_lo last) (max_hi (iv_hi last) (iv_hi next))) v
  ↔ in_interval last v ∨ in_interval next v.
Proof.
  intros Hl Hn Hle Ho. pose proof (lower_le_spec _ _ v Hl Hn Hle) as Hlow.
  destruct Hl as [Hl1 Hl2], Hn as [Hn1 Hn2]. unfold in_interval. cbn [iv_lo iv_hi].
  rewrite max_hi_spec by done. split; [|tauto]. intros [Hlo [Hh|Hh]]; [tauto|].
  unfold overlaps_or_adjacent in Ho. destruct (iv_lo next) as [ln|] eqn:En; [|cbn; tauto].
  destruct (iv_hi last) as [hl|] eqn:El; [|cbn; tauto].
  rewrite bool_decide_eq_true, (bound_order_rank ty), Z.compare_ngt_iff in Ho by done. cbn.
  destruct (Z.lt_ge_cases (rank v) (rank hl)); [tauto|]. right. split; [lia|done].
Qed.
Lemma merged_nonempty last next :
  interval_ok last → interval_ok next → interval_is_empty ty last = false →
  interval_is_empty ty (mkInterval (iv_lo last) (max_hi (iv_hi last) (iv_hi next))) = false.
Proof.
  intros [Hl1 Hl2] [Hn1 Hn2] He. unfold interval_is_empty in *. cbn [iv_lo iv_hi].
  unfold max_hi. case_decide as E; [|exact He]. rewrite cmp_upper_rank in E by done.
  destruct (iv_hi last) as [h|], (iv_hi next) as [h'|]; try done; [|by destruct (iv_lo last)].
  change (rank h < rank h') in E. destruct (min_value_least ty h Hl2) as [Hm _].
  destruct (iv_lo last) as [l|]; apply bool_decide_eq_false in He; apply bool_decide_eq_false; intros Hn; apply He;
    (rewrite (bound_order_rank ty) in * by done); rewrite Z.compare_nlt_iff in *; lia.
Qed.

Lemma merge_loop_spec last l :
  interval_ok last → interval_is_empty ty last = false →
  Forall interval_ok l → Forall (λ i, interval_is_empty ty i = false) l →
  Sorted lower_le (last :: l) →
  (∃ i l', merge_loop last l = i :: l' ∧ iv_lo i = iv_lo last) ∧
  normal (merge_loop last l) ∧
  ∀ v, in_intervals (merge_loop last l) v ↔ in_intervals (last :: l) v.
Proof.
  revert last. induction l as [|i l IH]; intros last Hok He Hl Hel Hs; cbn [merge_loop].
  { split_and!; [by eexists _, _|done..]. }
  apply Forall_cons_iff in Hl as [Hi Hl], Hel as [Hei Hel].
  apply Sorted_inv in Hs as [Hs Hd]. apply HdRel_inv in Hd.
  destruct (overlaps_or_adjacent last i) eqn:Eo.
  - set (m := mkInterval (iv_lo last) (max_hi (iv_hi last) (iv_hi i))).
    destruct (IH m) as (Hhead & Hn & Hin); [|by apply merged_nonempty|done..| |].
    + split; [apply Hok|]. apply max_hi_ok; [apply Hok|apply Hi].
    + apply Sorted_inv in Hs as [Hs Hd']. constructor; [done|].
      destruct Hd' as [|j l Hj]; constructor. unfold lower_le, m in *. cbn [iv_lo].
      apply Forall_cons_iff in Hl as [Hj' _]. destruct Hok as [Ho _], Hi as [Hi _], Hj' as [Hj' _].
      rewrite cmp_lower_rank in * by done.
      destruct (iv_lo last), (iv_lo i), (iv_lo j); try done. rewrite Z.compare_ngt_iff in *. lia.
    + split_and!; [done..|]. intros v. rewrite Hin, !in_intervals_cons. unfold m.
      rewrite merged_in_interval by done. tauto.
  - destruct (IH i) as ((j & l' & Hj & Hlo) & Hn & Hin); [done..|].
    split_and!; [by eexists _, _| |].
    + cbn [normal]. split_and!; [done..| |done]. rewrite Hj. unfold separated. rewrite Hlo.
      unfold overlaps_or_adjacent in Eo. destruct (iv_lo i) as [li|] eqn:Ei; [|by destruct (iv_hi last)].
      destruct (iv_hi last) as [hl|] eqn:El; [|done]. apply bool_decide_eq_false, dec_stable in Eo.
      destruct Hok as [_ Hok], Hi as [Hi _]. rewrite Ei in Hi. rewrite El in Hok.
      rewrite (bound_order_rank ty), Z.compare_gt_iff in Eo by done. lia.
    + intros v. rewrite in_intervals_cons, Hin, (in_intervals_cons last). done.
Qed.

Lemma normalize_spec l :
  Forall interval_ok l →
  normal (fst_intervals (normalize ty l)) ∧
  ∀ v, field_ok ty v → in_intervals (fst_intervals (normalize ty l)) v ↔ in_intervals l v.
Proof.
  intros Hl. unfold normalize. cbn [fst_intervals].
  set (f := List.filter _ l). set (s := sort_by cmp_intervals f).
  assert (∀ i, i ∈ s ↔ i ∈ l ∧ interval_is_empty ty i = false) as Hmem.
  { intros i. unfold s. rewrite sort_by_perm. unfold f. rewrite list_elem_of_In, filter_In, negb_true_iff.
    by rewrite list_elem_of_In. }
  assert (∀ i, i ∈ l → interval_ok i) as Hok.
  { intros i Hi. rewrite Forall_forall in Hl. by apply Hl, list_elem_of_In. }
  assert (Forall interval_ok s) as Hsok.
  { apply Forall_forall. intros i [Hi _]%list_elem_of_In%Hmem. by apply Hok. }
  assert (Forall (λ i, interval_is_empty ty i = false) s) as Hse.
  { apply Forall_forall. by intros i [_ Hi]%list_elem_of_In%Hmem. }
  assert (Sorted lower_le s) as Hsort.
  { assert (Sorted (cmp_le cmp_intervals) s) as HS.
    { apply (sort_by_sorted _ interval_ok); [apply cmp_intervals_total|]. unfold s in Hsok. by rewrite sort_by_perm in Hsok. }
    clear -HS. induction HS as [|i l0 _ IH Hd]; constructor; [done|].
    destruct Hd; constructor. by apply cmp_intervals_lower. }
  assert (∀ v, field_ok ty v → in_intervals s v ↔ in_intervals l v) as Hs.
  { intros v Hv. unfold in_intervals. split.
    - intros (i & [Hi _]%Hmem & Hin). eauto.
    - intros (i & Hi & Hin). exists i. split; [|done]. apply Hmem. split; [done|].
      apply not_true_is_false. intros He. eapply interval_empty_spec; eauto. }
  destruct s as [|i s]; [by split|]. cbn [merge_intervals].
  apply Forall_cons_iff in Hsok as [Hi Hsok], Hse as [Hei Hse].
  destruct (merge_loop_spec i s) as (_ & Hn & Hin); [done..|]. split; [done|].
  intros v Hv. by rewrite Hin, Hs.
Qed.

(** ** Set operations *)
Definition set_ok (s : FieldSet) : Prop := fst_ty s = ty ∧ normal (fst_intervals s).
Definition in_set (s : FieldSet) (v : Value.t) : Prop := in_intervals (fst_intervals s) v.

Lemma normal_ok l : normal l → Forall interval_ok l.
Proof. induction l as [|i l IH]; [constructor|]. intros (? & ? & ? & ?). constructor; auto. Qed.
Lemma normalize_ok l : Forall interval_ok l → set_ok (normalize ty l).
Proof. intros Hl. split; [done|]. by apply normalize_spec. Qed.
Lemma normalize_in l v :
  Forall interval_ok l → field_ok ty v → in_set (normalize ty l) v ↔ in_intervals l v.
Proof. intros Hl. by apply normalize_spec. Qed.

Lemma empty_ok : set_ok (FieldSet_empty ty).
Proof. done. Qed.
Lemma union_ok s t : set_ok s → set_ok t → set_ok (FieldSet_union s t).
Proof.
  intros [Es Hs] [_ Ht]. unfold FieldSet_union. rewrite Es. apply normalize_ok, Forall_app. by split; apply normal_ok.
Qed.
Lemma union_in s t v :
  set_ok s → set_ok t → field_ok ty v → in_set (FieldSet_union s t) v ↔ in_set s v ∨ in_set t v.
Proof.
  intros [Es Hs] [_ Ht] Hv. unfold FieldSet_union. rewrite Es, normalize_in, in_intervals_app; [done| |done].
  apply Forall_app. by split; apply normal_ok.
Qed.

Lemma intersections_ok (a b : list Interval) :
  Forall interval_ok a → Forall interval_ok b →
  Forall interval_ok (l ← a; r ← b; [mkInterval (max_lo (iv_lo l) (iv_lo r)) (min_hi (iv_hi l) (iv_hi r))]).
Proof.
  rewrite !Forall_forall. intros Ha Hb i Hi%list_elem_of_In.
  apply list_elem_of_bind in Hi as (l & Hi & Hl). apply list_elem_of_bind in Hi as (r & Hi & Hr).
  apply list_elem_of_singleton in Hi as ->.
  destruct (Ha l ltac:(by apply list_elem_of_In)), (Hb r ltac:(by apply list_elem_of_In)).
  split; [by apply max_lo_ok|by apply min_hi_ok].
Qed.
Lemma intersect_ok s t : set_ok s → set_ok t → set_ok (FieldSet_intersect s t).
Proof.
  intros [Es Hs] [_ Ht]. unfold FieldSet_intersect. rewrite Es.
  apply normalize_ok, intersections_ok; by apply normal_ok.
Qed.
Lemma intersect_in s t v :
  set_ok s → set_ok t → field_ok ty v → in_set (FieldSet_intersect s t) v ↔ in_set s v ∧ in_set t v.
Proof.
  intros [Es Hs%normal_ok] [_ Ht%normal_ok] Hv. unfold FieldSet_intersect.
  rewrite Es, normalize_in; [|by apply intersections_ok|done].
  assert (∀ l r, l ∈ fst_intervals s → r ∈ fst_intervals t →
    in_interval (mkInterval (max_lo (iv_lo l) (iv_lo r)) (min_hi (iv_hi l) (iv_hi r))) v
    ↔ in_interval l v ∧ in_interval r v) as Hpair.
  { rewrite Forall_forall in Hs, Ht. intros l r Hl%list_elem_of_In%Hs Hr%list_elem_of_In%Ht.
    destruct Hl, Hr. unfold in_interval. cbn. rewrite max_lo_spec, min_hi_spec by done. tauto. }
  unfold in_set, in_intervals. split.
  - intros (i & Hi & Hin). apply list_elem_of_bind in Hi as (l & Hi & Hl).
    apply list_elem_of_bind in Hi as (r & Hi & Hr). apply list_elem_of_singleton in Hi as ->.
    apply Hpair in Hin as [Hinl Hinr]; [|done..]. split; [by exists l|by exists r].
  - intros [(l & Hl & Hinl) (r & Hr & Hinr)]. eexists. split; [|by apply (Hpair l r)].
    apply list_elem_of_bind. exists l. split; [|done]. apply list_elem_of_bind. exists r. split; [|done].
    by apply list_elem_of_singleton.
Qed.

Lemma complement_loop_ok cursor l :
  bound_ok cursor → Forall interval_ok l → Forall interval_ok (complement_loop cursor l).
Proof.
  intros Hc Hl. revert cursor Hc. induction Hl as [|i l [Hlo Hhi] Hl IH]; intros cursor Hc; cbn.
  - destruct cursor; [|constructor]. constructor; [by split|constructor].
  - apply Forall_app. split; [|by apply IH]. case_match; [|constructor]. constructor; [by split|constructor].
Qed.
(** Past a bound below the remaining intervals, the loop emits exactly the gaps. *)
Lemma complement_loop_in c l v :
  normal l → match l with [] => True | j :: _ => separated (mkInterval None (Some c)) j end →
  in_intervals (complement_loop (Some c) l) v ↔ rank c ≤ rank v ∧ ¬ in_intervals l v.
Proof.
  revert c. induction l as [|i l IH]; intros c Hn Hsep; cbn [complement_loop].
  { rewrite in_intervals_cons, !in_intervals_nil. unfold in_interval. cbn. tauto. }
  pose proof (normal_above i l v Hn) as Habove. destruct Hn as (Hok & He & Hs & Hn).
  unfold separated in Hsep. cbn [iv_hi] in Hsep. destruct (iv_lo i) as [lo|] eqn:El; [|done].
  rewrite bool_decide_eq_true_2 by eauto. cbn [orb app].
  rewrite !in_intervals_cons in *. unfold in_interval at 1 2. cbn [iv_lo iv_hi lo_le hi_gt].
  assert (in_intervals (complement_loop (iv_hi i) l) v ↔
    match iv_hi i with Some hi => rank hi ≤ rank v | None => False end ∧ ¬ in_intervals l v) as ->.
  { destruct (iv_hi i) as [hi|] eqn:Eh.
    - apply IH; [done|]. destruct l as [|j l]; [done|]. unfold separated in *. by rewrite Eh in Hs.
    - destruct l as [|j l]; [|unfold separated in Hs; by rewrite Eh in Hs]. cbn. rewrite in_intervals_nil. tauto. }
  unfold in_interval in Habove. rewrite El. cbn [lo_le] in *. rewrite El in Habove.
  destruct (iv_hi i) as [hi|] eqn:Eh; cbn [hi_gt] in *.
  - pose proof (interval_nonempty_spec i lo hi Hok He El Eh).
    destruct (Z.lt_ge_cases (rank v) (rank lo)); [|destruct (Z.lt_ge_cases (rank v) (rank hi))]; split; intros; try lia; try tauto.
    all: try (split; [lia|]). all: try (intros Hin; specialize (Habove Hin)); try lia; try tauto.
    all: try (destruct_or?; destruct_and?; try lia; tauto).
  - split.
    + intros [[? ?]|[[] _]]. split; [done|]. intros Hin. specialize (Habove Hin). lia.
    + intros [? Hnot]. left. split; [done|]. destruct (Z.lt_ge_cases (rank v) (rank lo)); [done|]. exfalso. apply Hnot. left. lia.
Qed.

Lemma complement_ok s : set_ok s → set_ok (FieldSet_complement s).
Proof.
  intros [Es Hs%normal_ok]. unfold FieldSet_complement. rewrite Es. destruct (fst_intervals s) eqn:E.
  - apply normalize_ok. by repeat constructor.
  - by apply normalize_ok, complement_loop_ok.
Qed.
Lemma complement_in s v :
  set_ok s → field_ok ty v → in_set (FieldSet_complement s) v ↔ ¬ in_set s v.
Proof.
  intros [Es Hn] Hv. pose proof (normal_ok _ Hn) as Hok. unfold FieldSet_complement, in_set at 2. rewrite Es.
  destruct (fst_intervals s) as [|i l].
  { rewrite normalize_in, in_intervals_cons, !in_intervals_nil by (try done; by repeat constructor).
    unfold in_interval. cbn. tauto. }
  rewrite normalize_in by (try done; by apply complement_loop_ok). cbn [complement_loop].
  pose proof (normal_above i l v Hn) as Habove. destruct Hn as (Hoki & He & Hs & Hn).
  rewrite in_intervals_app, in_intervals_cons in *.
  assert (in_intervals (complement_loop (iv_hi i) l) v ↔ ¬ hi_gt (iv_hi i) v ∧ ¬ in_intervals l v) as ->.
  { destruct (iv_hi i) as [hi|] eqn:Eh.
    - rewrite complement_loop_in; [|done|].
      + cbn. by rewrite Z.nlt_ge.
      + destruct l as [|j l]; [done|]. unfold separated in *. by rewrite Eh in Hs.
    - destruct l as [|j l]; [|unfold separated in Hs; by rewrite Eh in Hs]. cbn. rewrite in_intervals_nil. tauto. }
  rewrite (bool_decide_eq_false_2 (is_Some None)) by (intros [? ?]; done). cbn [orb].
  unfold in_interval in *. destruct (iv_lo i) as [lo|] eqn:El.
  - rewrite bool_decide_eq_true_2 by eauto. rewrite in_intervals_cons, in_intervals_nil. unfold in_interval.
    cbn [iv_lo iv_hi lo_le hi_gt] in *. destruct (iv_hi i) as [hi|] eqn:Eh; cbn [hi_gt] in *.
    + pose proof (interval_nonempty_spec i lo hi Hoki He El Eh). split.
      * intros [[?|?]|[? ?]] Hin; [|done|]; [specialize (Habove Hin); lia|]. destruct Hin as [?|?]; [lia|done].
      * intros Hnot. destruct (Z.lt_ge_cases (rank v) (rank lo)); [tauto|]. right. split; [lia|tauto].
    + split; [intros [[?|?]|[? ?]] Hin; [specialize (Habove Hin); lia|done..]|].
      intros Hnot. left. left. split; [done|]. destruct (Z.lt_ge_cases (rank v) (rank lo)); [done|]. exfalso. apply Hnot. left. lia.
  - rewrite bool_decide_eq_false_2 by (intros [? ?]; done). rewrite in_intervals_nil. cbn [lo_le]. tauto.
Qed.

(** [FieldCheck::contains] decides membership in a normal set. *)
Lemma contains_spec l v :
  normal l → field_ok ty v → contains l v = true ↔ in_intervals l v.
Proof.
  intros Hn Hv. induction l as [|i l IH]; [by rewrite in_intervals_nil|].
  pose proof (normal_above i l v Hn) as Habove. destruct Hn as ([Hlo Hhi] & He & Hs & Hn). cbn [contains].
  assert (match iv_lo i with Some lo => bool_decide (bound_order v lo = Lt) | None => false end = true
    ↔ ¬ lo_le (iv_lo i) v) as Hbelow.
  { destruct (iv_lo i) as [lo|]; cbn; [|naive_solver].
    rewrite bool_decide_eq_true, (bound_order_rank ty), Z.compare_lt_iff by done. lia. }
  destruct (match iv_lo i with Some _ => _ | None => _ end).
  { split; [done|]. intros Hin%Habove. exfalso. by apply (proj1 Hbelow). }
  assert (lo_le (iv_lo i) v) as Hlov.
  { destruct (iv_lo i) as [lo|]; [|done]. cbn in *. destruct (Z.le_gt_cases (rank lo) (rank v)); [done|]. exfalso.
    assert (false = true); [|done]. apply Hbelow. lia. }
  rewrite in_intervals_cons. unfold in_interval. destruct (iv_hi i) as [hi|] eqn:Eh; cbn [hi_gt]; [|naive_solver].
  case_bool_decide as Hb; rewrite (bound_order_rank ty) in Hb by done.
  - change (rank v < rank hi) in Hb. naive_solver.
  - rewrite Z.compare_nlt_iff in Hb. rewrite IH by done. intuition lia.
Qed.

(** ** Comparisons and points *)
Lemma next_rank value next v :
  typed_successor ty value next → field_ok ty value → field_ok ty v →
  bound_ok next ∧
  match next with
  | Some n => rank value < rank n ∧ (rank value < rank v ↔ rank n ≤ rank v)
  | None => rank v ≤ rank value
  end.
Proof.
  intros Hs Hval Hv. destruct next as [n|]; cbn in *.
  - destruct Hs as (Hn & Hlt & Hmin). split; [done|]. unfold typed_lt in *.
    rewrite (typed_order_rank ty) in Hlt by done. injection Hlt as Hlt. change (rank value < rank n) in Hlt.
    split; [done|]. split; [|lia]. intros Hlt'.
    destruct (Hmin v Hv) as (c & Hc & Hne).
    + rewrite (typed_order_rank ty) by done. f_equal. done.
    + rewrite (typed_order_rank ty) in Hc by done. injection Hc as <-. done.
  - split; [done|]. destruct (Z.le_gt_cases (rank v) (rank value)) as [|Hlt]; [done|]. exfalso.
    apply (Hs v Hv). unfold typed_lt. rewrite (typed_order_rank ty) by done. f_equal. by apply Z.compare_lt_iff.
Qed.

Lemma from_compare_spec op value :
  field_ok ty value →
  ∃ s, from_compare ty op value = Ok s ∧ set_ok s ∧
    ∀ v, field_ok ty v → in_set s v ↔ compare_op op (rank v ?= rank value) = true.
Proof.
  intros Hval. unfold from_compare. destruct (next_value_successor ty value Hval) as (next & -> & Hs).
  cbn [mbind result_bind]. eexists. split; [done|].
  assert (bound_ok next) as Hnext by (by destruct next; [apply Hs|]).
  assert (bound_ok (Some value)) as Hb by done. assert (bound_ok None) as Hb0 by done.
  match goal with |- set_ok (normalize _ ?l) ∧ _ => assert (Forall interval_ok l) as Hl end.
  { destruct op; try destruct next; repeat first [apply List.Forall_cons; [by split|] | apply List.Forall_nil]. }
  split; [by apply normalize_ok|]. intros v Hv. rewrite normalize_in by done.
  destruct (next_rank value next v Hs Hval Hv) as [_ Hr].
  destruct op; try destruct next as [n|]; rewrite ?in_intervals_cons, ?in_intervals_nil; unfold in_interval;
    cbn [iv_lo iv_hi lo_le hi_gt compare_op]; rewrite ?bool_decide_eq_true, ?Z.compare_eq_iff, ?Z.compare_lt_iff,
      ?Z.compare_gt_iff, ?Z.compare_ngt_iff, ?Z.compare_nlt_iff; lia.
Qed.

Lemma point_value_spec s i :
  set_ok s → interval_ok i →
  ∃ p, point_value s i = Ok p ∧
    ∀ x, p = Some x →
      field_ok ty x ∧ iv_lo i = Some x ∧ ∀ v, field_ok ty v → in_interval i v → v = x.
Proof.
  intros [Es _] [Hlo Hhi]. unfold point_value. destruct (iv_lo i) as [lo|] eqn:El; [|by eexists].
  destruct (next_value_successor ty lo Hlo) as (next & Hnx & Hs). rewrite Es, Hnx. cbn [mbind result_bind].
  eexists. split; [done|]. intros x Hx.
  assert (x = lo ∧ match iv_hi i, next with Some hi, Some n => rank hi = rank n | None, None => True | _, _ => False end)
    as [-> Hend].
  { destruct (iv_hi i) as [hi|] eqn:Eh, next as [n|]; try done; [|by injection Hx as ->].
    case_bool_decide as E; [|done]. injection Hx as ->. split; [done|]. destruct Hs as [Hn _].
    rewrite (typed_order_rank ty) in E by done. injection E as E%Z.compare_eq_iff. done. }
  split; [done|]. split; [done|]. intros v Hv [Hl Hh]. rewrite El in Hl. apply (rank_inj ty); [done..|].
  destruct (next_rank lo next v Hs Hlo Hv) as [_ Hr]. cbn in Hl.
  destruct (iv_hi i) as [hi|], next as [n|]; try done; cbn in Hh; lia.
Qed.

(** The intervals of an [IN] list. *)
Lemma point_interval_spec value :
  field_ok ty value →
  ∃ next, next_value ty value = Ok next ∧ interval_ok (mkInterval (Some value) next) ∧
    ∀ v, field_ok ty v → in_interval (mkInterval (Some value) next) v ↔ v = value.
Proof.
  intros Hval. destruct (next_value_successor ty value Hval) as (next & Hn & Hs).
  exists next. split; [done|]. split; [by split; [|destruct next; [apply Hs|]]|].
  intros v Hv. destruct (next_rank value next v Hs Hval Hv) as [_ Hr]. unfold in_interval. cbn. split.
  - intros [? ?]. apply (rank_inj ty); [done..|]. destruct next; cbn in *; lia.
  - intros ->. split; [lia|]. destruct next; cbn in *; [lia|done].
Qed.

(** ** How many intervals a set has

    The intervals of a normal set have distinct lower bounds, and every set
    operation takes its lower bounds from its operands. *)
Lemma merge_loop_lows last l b : b ∈ iv_lo <$> merge_loop last l → b ∈ iv_lo <$> last :: l.
Proof using.
  revert last. induction l as [|i l IH]; intros last; [done|]. cbn [merge_loop].
  case_match; rewrite ?fmap_cons, ?elem_of_cons.
  - intros Hb%IH. rewrite fmap_cons, elem_of_cons in Hb. cbn [iv_lo] in Hb. tauto.
  - intros [?|Hb%IH]; [by left|]. rewrite fmap_cons, elem_of_cons in Hb. tauto.
Qed.
Lemma normalize_lows l b : b ∈ iv_lo <$> fst_intervals (normalize ty l) → b ∈ iv_lo <$> l.
Proof using.
  unfold normalize. cbn [fst_intervals]. set (f := List.filter _ l). intros Hb.
  assert (b ∈ iv_lo <$> sort_by cmp_intervals f) as Hs.
  { unfold merge_intervals in Hb. destruct (sort_by cmp_intervals f); [done|]. by apply merge_loop_lows. }
  rewrite sort_by_perm in Hs. apply list_elem_of_fmap in Hs as (i & -> & Hi).
  apply list_elem_of_fmap_2. apply list_elem_of_In, filter_In in Hi as [Hi _]. by apply list_elem_of_In.
Qed.
Lemma merge_loop_length last l : (length (merge_loop last l) ≤ S (length l))%nat.
Proof using. revert last. induction l as [|i l IH]; intros last; cbn; [done|]. case_match; [etrans; [apply IH|lia]|]. cbn. specialize (IH i). lia. Qed.
Lemma normalize_length l : len (fst_intervals (normalize ty l)) ≤ len l.
Proof using.
  unfold normalize. cbn [fst_intervals]. set (f := List.filter _ l).
  assert (length (sort_by cmp_intervals f) ≤ length l)%nat as Hf by (rewrite sort_by_perm; apply filter_length_le).
  unfold len, merge_intervals. destruct (sort_by cmp_intervals f) as [|i r]; cbn in *; [lia|].
  pose proof (merge_loop_length i r). lia.
Qed.
Lemma normal_tail_lows i l j :
  normal (i :: l) → j ∈ l → ∃ b, iv_lo j = Some b ∧ match iv_lo i with Some a => rank a < rank b | None => True end.
Proof using.
  revert i. induction l as [|k l IH]; intros i (Hok & He & Hsep & Hn) Hj; [by apply elem_of_nil in Hj|].
  unfold separated in Hsep. destruct (iv_hi i) as [h|] eqn:Eh; [|done]. destruct (iv_lo k) as [lk|] eqn:Ek; [|done].
  assert (match iv_lo i with Some a => rank a < rank lk | None => True end) as Hik.
  { destruct (iv_lo i) as [a|] eqn:Ea; [|done]. pose proof (interval_nonempty_spec i a h Hok He Ea Eh). lia. }
  apply elem_of_cons in Hj as [->|Hj]; [eauto|]. destruct (IH k Hn Hj) as (b & Hb & Hkb). rewrite Ek in Hkb.
  exists b. split; [done|]. destruct (iv_lo i); [lia|done].
Qed.
Lemma normal_lows_NoDup l : normal l → NoDup (iv_lo <$> l).
Proof using.
  induction l as [|i l IH]; intros Hn; [constructor|]. rewrite fmap_cons. apply list.NoDup_cons. split; [|apply IH, Hn].
  intros (j & E & Hj)%list_elem_of_fmap. destruct (normal_tail_lows i l j Hn Hj) as (b & Hb & Hlt).
  rewrite E, Hb in Hlt. lia.
Qed.
Lemma normal_length l k : normal l → (∀ b, b ∈ iv_lo <$> l → b ∈ iv_lo <$> k) → len l ≤ len k.
Proof using.
  intros Hn%normal_lows_NoDup Hsub. unfold len. rewrite <-(length_fmap iv_lo l), <-(length_fmap iv_lo k).
  apply inj_le, submseteq_length, NoDup_submseteq; done.
Qed.
Lemma intersect_length s t :
  set_ok s → set_ok t → len (fst_intervals (FieldSet_intersect s t)) ≤ len (fst_intervals s) + len (fst_intervals t).
Proof using.
  intros Hs Ht. rewrite <-len_app. apply normal_length; [by apply intersect_ok|]. destruct Hs as [Es _].
  unfold FieldSet_intersect. rewrite Es. intros b Hb%normalize_lows.
  apply list_elem_of_fmap in Hb as (i & -> & Hi). apply list_elem_of_bind in Hi as (l & Hi & Hl).
  apply list_elem_of_bind in Hi as (r & ->%list_elem_of_singleton & Hr). cbn [iv_lo]. rewrite fmap_app, elem_of_app.
  unfold max_lo. case_decide; [right|left]; by apply list_elem_of_fmap_2.
Qed.
Lemma union_length s t :
  set_ok s → len (fst_intervals (FieldSet_union s t)) ≤ len (fst_intervals s) + len (fst_intervals t).
Proof using. intros [Es _]. unfold FieldSet_union. rewrite Es, <-len_app. apply normalize_length. Qed.
Lemma complement_loop_length cursor l : len (complement_loop cursor l) ≤ 1 + len l.
Proof using.
  revert cursor. induction l as [|i l IH]; intros cursor; cbn [complement_loop]; [by destruct cursor|].
  rewrite len_app, len_cons. specialize (IH (iv_hi i)). case_match; rewrite ?len_cons, ?len_nil; lia.
Qed.
Lemma complement_length s : set_ok s → len (fst_intervals (FieldSet_complement s)) ≤ 1 + len (fst_intervals s).
Proof using.
  intros [Es _]. unfold FieldSet_complement. rewrite Es. destruct (fst_intervals s) as [|i l]; [apply normalize_length|].
  etrans; [apply normalize_length|apply complement_loop_length].
Qed.
Lemma from_compare_length op value s : from_compare ty op value = Ok s → len (fst_intervals s) ≤ 2.
Proof using.
  unfold from_compare. intros (next & _ & H)%bind_ok. apply Ok_inj in H as <-. etrans; [apply normalize_length|].
  destruct op, next; by vm_compute.
Qed.
End domain.
