(* ===== verification/Config.v ===== *)
(** Configuration (src/src/api/config.rs, src/src/api/search.rs, the Bloom shape
    of src/src/api/schema.rs): the validation of index configurations, the
    derived Bloom parameters, Search Budgets with their resolution, and runtime
    configurations.  IEEE-754 arithmetic is Rocq's [SpecFloat] at binary64. *)
From Stdlib Require Import SpecFloat.
From S2P Require Import Prelude RustStd Api TreeKey RaBitQ Manifest.

(** ** binary64 arithmetic *)

(** The value of a bit pattern ([f64::from_bits]). *)
Definition f64_value (bits : Z) : spec_float :=
  let s := F64.sign_negative bits in
  let exponent := Z.shiftr (F64.magnitude bits) 52 in
  let fraction := Z.land (F64.magnitude bits) (2 ^ 52 - 1) in
  if exponent =? 2047 then if fraction =? 0 then S754_infinity s else S754_nan
  else if exponent =? 0 then
    match fraction with Zpos m => S754_finite s m (-1074) | _ => S754_zero s end
  else match fraction + 2 ^ 52 with Zpos m => S754_finite s m (exponent - 1075) | _ => S754_nan end.
(** [f64::from(u32)]. *)
Definition f64_from_u32 (n : Z) : spec_float := binary_normalize 53 1024 n 0 false.
Definition f64_div : spec_float → spec_float → spec_float := SFdiv 53 1024.
Definition f64_is_finite (x : spec_float) : bool :=
  match x with S754_zero _ | S754_finite _ _ _ => true | _ => false end.
(** [f64::ceil]. *)
Definition f64_ceil (x : spec_float) : spec_float :=
  match x with
  | S754_finite s m e =>
      if 0 <=? e then x
      else
        let d := 2 ^ (- e) in
        let q := if s then - (Zpos m / d) else (Zpos m + d - 1) / d in
        binary_normalize 53 1024 q 0 s
  | _ => x
  end.
(** [x as u32]: truncation, saturating, NaN to zero. *)
Definition f64_as_u32 (x : spec_float) : Z :=
  match x with
  | S754_finite false m e => Z.min (Z.shiftl (Zpos m) e) (2 ^ 32 - 1)
  | S754_infinity false => 2 ^ 32 - 1
  | _ => 0
  end.

(** ** Loops

    [iter_until f p s] runs at most [p] steps of a loop body that continues with
    [inl] and leaves with [inr]. *)
Fixpoint iter_until {S R} (f : S → S + R) (p : positive) (s : S) : S + R :=
  match p with
  | xH => f s
  | xO p => match iter_until f p s with inl s => iter_until f p s | inr r => inr r end
  | xI p =>
      match f s with
      | inl s => match iter_until f p s with inl s => iter_until f p s | inr r => inr r end
      | inr r => inr r
      end
  end.

(** ** Bloom shapes *)

(** One test and step of the [while] loop. *)
Definition bloom_step (distinct rate : spec_float) (bit_count : Z) : Z + result Z :=
  if SFltb rate (f64_div distinct (f64_from_u32 bit_count)) then
    if bit_count + 1 <? 2 ^ 32 then inl (bit_count + 1) else inr (Err InvalidArgument)
  else inr (Ok bit_count).
Definition bloom_loop (distinct rate : spec_float) (bit_count : Z) : result Z :=
  match iter_until (bloom_step distinct rate) (2 ^ 32) bit_count with
  | inr r => r
  | inl _ => Panic
  end.
Definition SynopsisConfig_bloom_shape (s : SynopsisConfig.t) : result (option (Z * Z)) :=
  match s with
  | SynopsisConfig.MinMax => Ok None
  | SynopsisConfig.MinMaxBloom expected_distinct false_positive_rate =>
      SynopsisConfig_validate s ≫= λ _,
      let rate := f64_value false_positive_rate in
      let distinct := f64_from_u32 expected_distinct in
      let bit_count := f64_ceil (f64_div distinct rate) in
      if negb (f64_is_finite bit_count) || SFleb bit_count (S754_zero false)
         || SFltb (f64_from_u32 (2 ^ 32 - 1)) bit_count
      then Err InvalidArgument
      else bloom_loop distinct rate (f64_as_u32 bit_count) ≫= λ bit_count, Ok (Some (bit_count, 1))
  end.
Definition SynopsisConfig_bloom_bytes (s : SynopsisConfig.t) : result Z :=
  SynopsisConfig_bloom_shape s ≫= λ shape,
  match shape with
  | None => Ok 0
  | Some (bit_count, _) =>
      if bit_count + 7 <? 2 ^ 64 then Ok ((bit_count + 7) / 8) else Err InvalidArgument
  end.

Example bloom_shape_1000 :
  SynopsisConfig_bloom_shape (SynopsisConfig.MinMaxBloom 1000 0x3F847AE147AE147B) = Ok (Some (100000, 1)).
Proof. vm_compute. reflexivity. Qed.

(** ** Index configurations *)
Definition MAX_BLOOM_FIELDS : Z := 4.
Definition DEFAULT_MIN_LEAF_PARTITION_ENTRIES : Z := 16.
Definition DEFAULT_MAX_LEAF_PARTITION_ENTRIES : Z := 128.
Definition DEFAULT_MIN_INTERNAL_PARTITION_ENTRIES : Z := 64.
Definition DEFAULT_MAX_INTERNAL_PARTITION_ENTRIES : Z := 16384.
Definition MAX_PARTITION_ENTRIES : Z := 65536.

Definition LocalGraphConfig_default : LocalGraphConfig :=
  mkGraphConfig 16 200 (7 :: replicate 31 0).

Definition checked_add (bits a b : Z) : result Z :=
  if a + b <? 2 ^ bits then Ok (a + b) else Err InvalidArgument.
Definition checked_mul (bits a b : Z) : result Z :=
  if a * b <? 2 ^ bits then Ok (a * b) else Err InvalidArgument.

Definition validate_partition_entries (minimum maximum : Z) : result unit :=
  if (minimum =? 0)
     || (if 2 * minimum <? 2 ^ 32 then maximum <? 2 * minimum else true)
     || (MAX_PARTITION_ENTRIES <? maximum)
  then Err InvalidArgument else Ok tt.

(** The loop of [validate_schema]: the names seen, the Bloom fields counted and
    the encoded synopsis bytes summed so far. *)
Fixpoint schema_loop (fs : list FieldSchema) (names : list (list Z)) (bloom_fields bytes : Z)
    : result (Z * Z) :=
  match fs with
  | [] => Ok (bloom_fields, bytes)
  | field :: fs =>
      if decide (fs_name field ∈ names) then Err InvalidArgument
      else
        let bloom_fields := match fs_synopsis field with
                            | SynopsisConfig.MinMaxBloom _ _ => bloom_fields + 1
                            | _ => bloom_fields
                            end in
        let encoded_value_bytes := match fs_data_type field with
                                   | DataType.String => MAX_STRING_BYTES + 5
                                   | DataType.Bool => 2
                                   | DataType.I64 | DataType.F64 => 9
                                   end in
        checked_mul 64 encoded_value_bytes 2 ≫= λ extrema_bytes,
        SynopsisConfig_bloom_bytes (fs_synopsis field) ≫= λ bloom_bytes,
        checked_add 64 2 extrema_bytes ≫= λ field_bytes,
        checked_add 64 field_bytes bloom_bytes ≫= λ field_bytes,
        checked_add 64 bytes field_bytes ≫= λ bytes,
        schema_loop fs (fs_name field :: names) bloom_fields bytes
  end.
Definition validate_schema (c : IndexConfig) : result unit :=
  if MAX_FIELDS <? len (ic_fields c) then Err InvalidArgument
  else
    schema_loop (ic_fields c) [] 0 0 ≫= λ '(bloom_fields, bytes),
    if (MAX_BLOOM_FIELDS <? bloom_fields) || (MAX_ENCODED_SYNOPSIS_BYTES <? bytes)
    then Err InvalidArgument else Ok tt.

(** The worst-case Tree Key bytes of one field. *)
Definition tree_field_bytes (ty : DataType.t) : Z :=
  match ty with
  | DataType.String => 2 * MAX_STRING_BYTES + 2
  | DataType.Bool => 3
  | DataType.I64 | DataType.F64 => 10
  end.
Fixpoint tree_fields_loop (fs : list FieldSchema) (ids seen : list Z) (bytes : Z) : result Z :=
  match ids with
  | [] => Ok bytes
  | id :: ids =>
      if decide (id ∈ seen) then Err InvalidArgument
      else
        ok_or InvalidArgument (fs !! Z.to_nat id) ≫= λ field,
        if fs_nullable field then Err InvalidArgument
        else
          checked_add 64 bytes (tree_field_bytes (fs_data_type field)) ≫= λ bytes,
          tree_fields_loop fs ids (id :: seen) bytes
  end.
Definition validate_tree_key_fields (c : IndexConfig) : result unit :=
  tree_fields_loop (ic_fields c) (ic_tree_key_fields c) [] 0 ≫= λ bytes,
  if MAX_TREE_KEY_BYTES <? bytes then Err InvalidArgument else Ok tt.

Definition IndexConfig_validate (c : IndexConfig) : result unit :=
  if negb ((1 <=? ic_dimension c) && (ic_dimension c <=? MAX_DIMENSION)) then Err InvalidArgument
  else if (16384 <? ic_max_internal_partition_entries c) || (128 <? ic_min_internal_partition_entries c)
  then Err InvalidArgument
  else
    validate_schema c ≫= λ _,
    validate_tree_key_fields c ≫= λ _,
    validate_partition_entries (ic_min_leaf_partition_entries c) (ic_max_leaf_partition_entries c) ≫= λ _,
    validate_partition_entries (ic_min_internal_partition_entries c) (ic_max_internal_partition_entries c).

(** *** Construction *)
Definition IndexConfig_new (dimension : Z) (metric : Metric.t) : result IndexConfig :=
  let config := mkIndexConfig (Some LocalGraphConfig_default) dimension metric [] []
    DEFAULT_MIN_LEAF_PARTITION_ENTRIES DEFAULT_MIN_INTERNAL_PARTITION_ENTRIES
    DEFAULT_MAX_LEAF_PARTITION_ENTRIES DEFAULT_MAX_INTERNAL_PARTITION_ENTRIES in
  IndexConfig_validate config ≫= λ _, Ok config.
Definition with_local_graph (c : IndexConfig) (graph : LocalGraphConfig) : IndexConfig :=
  mkIndexConfig (Some graph) (ic_dimension c) (ic_metric c) (ic_fields c) (ic_tree_key_fields c)
    (ic_min_leaf_partition_entries c) (ic_min_internal_partition_entries c)
    (ic_max_leaf_partition_entries c) (ic_max_internal_partition_entries c).
Definition without_local_graph (c : IndexConfig) : IndexConfig :=
  mkIndexConfig None (ic_dimension c) (ic_metric c) (ic_fields c) (ic_tree_key_fields c)
    (ic_min_leaf_partition_entries c) (ic_min_internal_partition_entries c)
    (ic_max_leaf_partition_entries c) (ic_max_internal_partition_entries c).
Definition with_fields (c : IndexConfig) (fs : list FieldSchema) : result IndexConfig :=
  let c := mkIndexConfig (ic_graph c) (ic_dimension c) (ic_metric c) fs (ic_tree_key_fields c)
    (ic_min_leaf_partition_entries c) (ic_min_internal_partition_entries c)
    (ic_max_leaf_partition_entries c) (ic_max_internal_partition_entries c) in
  validate_schema c ≫= λ _, Ok c.
(** [fields.iter().any(..)] with the set of fields seen. *)
Fixpoint has_duplicate (ids seen : list Z) : bool :=
  match ids with
  | [] => false
  | id :: ids => if decide (id ∈ seen) then true else has_duplicate ids (id :: seen)
  end.
Definition with_tree_key_fields (c : IndexConfig) (ids : list Z) : result IndexConfig :=
  let c := mkIndexConfig (ic_graph c) (ic_dimension c) (ic_metric c) (ic_fields c) ids
    (ic_min_leaf_partition_entries c) (ic_min_internal_partition_entries c)
    (ic_max_leaf_partition_entries c) (ic_max_internal_partition_entries c) in
  if has_duplicate ids [] then Err InvalidArgument else Ok c.
Definition with_leaf_partition_entries (c : IndexConfig) (minimum maximum : Z) : result IndexConfig :=
  let c := mkIndexConfig (ic_graph c) (ic_dimension c) (ic_metric c) (ic_fields c)
    (ic_tree_key_fields c) minimum (ic_min_internal_partition_entries c)
    maximum (ic_max_internal_partition_entries c) in
  validate_partition_entries minimum maximum ≫= λ _, Ok c.
Definition with_internal_partition_entries (c : IndexConfig) (minimum maximum : Z)
    : result IndexConfig :=
  validate_partition_entries minimum maximum ≫= λ _,
  if (16384 <? maximum) || (128 <? minimum) then Err InvalidArgument
  else Ok (mkIndexConfig (ic_graph c) (ic_dimension c) (ic_metric c) (ic_fields c)
    (ic_tree_key_fields c) (ic_min_leaf_partition_entries c) minimum
    (ic_max_leaf_partition_entries c) maximum).
Definition min_partition_entries (c : IndexConfig) (level : Z) : Z :=
  if level =? 1 then ic_min_leaf_partition_entries c else ic_min_internal_partition_entries c.
Definition max_partition_entries (c : IndexConfig) (level : Z) : Z :=
  if level =? 1 then ic_max_leaf_partition_entries c else ic_max_internal_partition_entries c.

(** ** Search Budgets (src/src/api/search.rs) *)
Definition MAX_K : Z := 65536.
Definition MAX_SCANNED_TREE_KEYS : Z := 65536.
Definition MAX_VISITED_PARTITIONS : Z := 16384.
Definition MAX_EXACT_RERANK_CANDIDATES : Z := 65536.
Definition MAX_LEAF_BEAM_SIZE : Z := MAX_VISITED_PARTITIONS.
(** [DEFAULT_LEAF_BEAM] of src/src/search/traverse.rs. *)
Definition DEFAULT_LEAF_BEAM : Z := 384.

Record SearchBudgets := mkBudgets {
  sb_scanned_tree_keys : Z;
  sb_visited_partitions : Z;
  sb_exact_rerank_candidates : Z
}.
Definition SearchBudgets_default : SearchBudgets := mkBudgets 4096 1024 65536.
Definition validate_override (value maximum : Z) : result unit :=
  if (value =? 0) || (maximum <? value) then Err InvalidArgument else Ok tt.
Definition SearchBudgets_new (scanned_tree_keys visited_partitions exact_rerank_candidates : Z)
    : result SearchBudgets :=
  validate_override scanned_tree_keys MAX_SCANNED_TREE_KEYS ≫= λ _,
  validate_override visited_partitions MAX_VISITED_PARTITIONS ≫= λ _,
  validate_override exact_rerank_candidates MAX_EXACT_RERANK_CANDIDATES ≫= λ _,
  Ok (mkBudgets scanned_tree_keys visited_partitions exact_rerank_candidates).

Module RoutingMode.
Inductive t := Exact | PartitionLocalHnsw (ef_search : Z).
End RoutingMode.
Record SearchOptions := mkOptions {
  so_scanned_tree_keys : option Z;
  so_visited_partitions : option Z;
  so_leaf_beam_size : option Z;
  so_routing_mode : RoutingMode.t
}.
Definition SearchOptions_default : SearchOptions :=
  mkOptions None None None (RoutingMode.PartitionLocalHnsw 64).
Definition with_routing_mode (o : SearchOptions) (mode : RoutingMode.t) : result SearchOptions :=
  match mode with
  | RoutingMode.PartitionLocalHnsw 0 => Err InvalidArgument
  | _ => Ok (mkOptions (so_scanned_tree_keys o) (so_visited_partitions o) (so_leaf_beam_size o) mode)
  end.
Definition with_scanned_tree_keys (o : SearchOptions) (value : Z) : result SearchOptions :=
  validate_override value MAX_SCANNED_TREE_KEYS ≫= λ _,
  Ok (mkOptions (Some value) (so_visited_partitions o) (so_leaf_beam_size o) (so_routing_mode o)).
Definition with_visited_partitions (o : SearchOptions) (value : Z) : result SearchOptions :=
  validate_override value MAX_VISITED_PARTITIONS ≫= λ _,
  Ok (mkOptions (so_scanned_tree_keys o) (Some value) (so_leaf_beam_size o) (so_routing_mode o)).
Definition with_leaf_beam_size (o : SearchOptions) (value : Z) : result SearchOptions :=
  validate_override value MAX_LEAF_BEAM_SIZE ≫= λ _,
  Ok (mkOptions (so_scanned_tree_keys o) (so_visited_partitions o) (Some value) (so_routing_mode o)).
Definition resolved_leaf_beam_size (o : SearchOptions) : Z :=
  default DEFAULT_LEAF_BEAM (so_leaf_beam_size o).
Definition default_exact_rerank (k : Z) : result Z :=
  if negb ((1 <=? k) && (k <=? MAX_K)) then Err InvalidArgument
  else
    checked_add 64 k (div_ceil k 4) ≫= λ value,
    let value := Z.min (Z.max value 64) MAX_K in
    if value <? 2 ^ 32 then Ok value else Err InvalidArgument.
Definition SearchOptions_resolve (o : SearchOptions) (defaults : SearchBudgets) (k : Z)
    : result SearchBudgets :=
  default_exact_rerank k ≫= λ exact_default,
  let budgets := mkBudgets
    (default (sb_scanned_tree_keys defaults) (so_scanned_tree_keys o))
    (default (sb_visited_partitions defaults) (so_visited_partitions o))
    (Z.min (sb_exact_rerank_candidates defaults) exact_default) in
  (if k <? 2 ^ 32 then Ok k else Err InvalidArgument) ≫= λ k,
  if sb_exact_rerank_candidates budgets <? k then Err InvalidArgument else Ok budgets.

Record SearchRequest := mkRequest {
  sr_vector : list Z; sr_k : Z; sr_predicate : option Predicate.t; sr_options : SearchOptions
}.
Definition SearchRequest_new (vector : list Z) (k : Z) : result SearchRequest :=
  if negb ((1 <=? k) && (k <=? MAX_K)) || existsb (λ value, negb (F32.is_finite value)) vector
  then Err InvalidArgument
  else Ok (mkRequest vector k None SearchOptions_default).
Definition with_predicate (r : SearchRequest) (p : Predicate.t) : SearchRequest :=
  mkRequest (sr_vector r) (sr_k r) (Some p) (sr_options r).
Definition with_options (r : SearchRequest) (o : SearchOptions) : SearchRequest :=
  mkRequest (sr_vector r) (sr_k r) (sr_predicate r) o.
(** [SearchRequest::validate(&mut self, ..)]: the budgets, and the request with
    its canonicalized predicate. *)
Definition SearchRequest_validate (r : SearchRequest) (dimension : Z) (fs : list FieldSchema)
    (defaults : SearchBudgets) : result (SearchBudgets * SearchRequest) :=
  if negb (len (sr_vector r) =? dimension) then Err InvalidArgument
  else
    match sr_predicate r with
    | Some p => Predicate_validate fs p ≫= λ p, Ok (Some p)
    | None => Ok None
    end ≫= λ p,
    SearchOptions_resolve (sr_options r) defaults (sr_k r) ≫= λ budgets,
    Ok (budgets, mkRequest (sr_vector r) (sr_k r) p (sr_options r)).

(** ** Runtime configurations

    A [Duration] is its nanoseconds; [usize] has 64 bits. *)
Definition DEFAULT_FIXUP_QUEUE_CAPACITY : Z := 1024.
Definition DEFAULT_FOREGROUND_OPERATION_LIMIT : Z := 1024.
Definition MAX_FOREGROUND_OPERATION_LIMIT : Z := 65536.
Definition DEFAULT_ATTEMPTS : Z := 8.
Definition DEFAULT_TREE_KEY_SCAN_RANGES : Z := 1024.
Definition DEFAULT_WRITE_BEAM_SIZE : Z := 4.
Definition MAX_WRITE_BEAM_SIZE : Z := 16384.
Definition MILLISECOND : Z := 1000000.
Definition SECOND : Z := 1000000000.

Record RuntimeConfig := mkRuntime {
  rt_foreground_operation_limit : Z;
  rt_maintenance_workers : Z;
  rt_fixup_queue_capacity : Z;
  rt_fixup_attempts : Z;
  rt_foreground_attempts : Z;
  rt_partition_cache_bytes : Z;
  rt_routing_working_bytes : Z;
  rt_default_search_budgets : SearchBudgets;
  rt_tree_key_scan_ranges : Z;
  rt_write_beam_size : Z;
  rt_stalled_timeout : option Z;
  rt_retry_initial_backoff : Z;
  rt_retry_max_backoff : Z
}.
(** The processor count and memory size the host reports are arguments. *)
Definition RuntimeConfig_default (available total_memory : Z) : RuntimeConfig :=
  mkRuntime DEFAULT_FOREGROUND_OPERATION_LIMIT (Z.min (Z.max available 1) 8)
    DEFAULT_FIXUP_QUEUE_CAPACITY DEFAULT_ATTEMPTS DEFAULT_ATTEMPTS
    (Z.min (total_memory / 4) (2 ^ 64 - 1)) (256 * 1024 * 1024) SearchBudgets_default
    DEFAULT_TREE_KEY_SCAN_RANGES DEFAULT_WRITE_BEAM_SIZE None MILLISECOND (100 * MILLISECOND).

Definition with_routing_working_bytes (c : RuntimeConfig) (bytes : Z) : result RuntimeConfig :=
  if bytes =? 0 then Err InvalidArgument
  else Ok (mkRuntime (rt_foreground_operation_limit c) (rt_maintenance_workers c)
    (rt_fixup_queue_capacity c) (rt_fixup_attempts c) (rt_foreground_attempts c)
    (rt_partition_cache_bytes c) bytes (rt_default_search_budgets c) (rt_tree_key_scan_ranges c)
    (rt_write_beam_size c) (rt_stalled_timeout c) (rt_retry_initial_backoff c) (rt_retry_max_backoff c)).
Definition with_stalled_timeout (c : RuntimeConfig) (timeout : Z) : result RuntimeConfig :=
  if timeout =? 0 then Err InvalidArgument
  else Ok (mkRuntime (rt_foreground_operation_limit c) (rt_maintenance_workers c)
    (rt_fixup_queue_capacity c) (rt_fixup_attempts c) (rt_foreground_attempts c)
    (rt_partition_cache_bytes c) (rt_routing_working_bytes c) (rt_default_search_budgets c)
    (rt_tree_key_scan_ranges c) (rt_write_beam_size c) (Some timeout) (rt_retry_initial_backoff c)
    (rt_retry_max_backoff c)).
Definition with_foreground_operation_limit (c : RuntimeConfig) (limit : Z) : result RuntimeConfig :=
  if (limit =? 0) || (MAX_FOREGROUND_OPERATION_LIMIT <? limit) then Err InvalidArgument
  else Ok (mkRuntime limit (rt_maintenance_workers c)
    (rt_fixup_queue_capacity c) (rt_fixup_attempts c) (rt_foreground_attempts c)
    (rt_partition_cache_bytes c) (rt_routing_working_bytes c) (rt_default_search_budgets c)
    (rt_tree_key_scan_ranges c) (rt_write_beam_size c) (rt_stalled_timeout c)
    (rt_retry_initial_backoff c) (rt_retry_max_backoff c)).
Definition with_maintenance (c : RuntimeConfig) (workers queue_capacity : Z) : result RuntimeConfig :=
  if (queue_capacity =? 0) || (queue_capacity <? workers) then Err InvalidArgument
  else Ok (mkRuntime (rt_foreground_operation_limit c) workers
    queue_capacity (rt_fixup_attempts c) (rt_foreground_attempts c)
    (rt_partition_cache_bytes c) (rt_routing_working_bytes c) (rt_default_search_budgets c)
    (rt_tree_key_scan_ranges c) (rt_write_beam_size c) (rt_stalled_timeout c)
    (rt_retry_initial_backoff c) (rt_retry_max_backoff c)).
Definition with_attempts (c : RuntimeConfig) (fixup foreground : Z) : result RuntimeConfig :=
  if (fixup =? 0) || (foreground =? 0) then Err InvalidArgument
  else Ok (mkRuntime (rt_foreground_operation_limit c) (rt_maintenance_workers c)
    (rt_fixup_queue_capacity c) fixup foreground
    (rt_partition_cache_bytes c) (rt_routing_working_bytes c) (rt_default_search_budgets c)
    (rt_tree_key_scan_ranges c) (rt_write_beam_size c) (rt_stalled_timeout c)
    (rt_retry_initial_backoff c) (rt_retry_max_backoff c)).
Definition with_partition_cache_bytes (c : RuntimeConfig) (bytes : Z) : result RuntimeConfig :=
  if 2 ^ 64 <=? bytes then Err InvalidArgument
  else Ok (mkRuntime (rt_foreground_operation_limit c) (rt_maintenance_workers c)
    (rt_fixup_queue_capacity c) (rt_fixup_attempts c) (rt_foreground_attempts c)
    bytes (rt_routing_working_bytes c) (rt_default_search_budgets c)
    (rt_tree_key_scan_ranges c) (rt_write_beam_size c) (rt_stalled_timeout c)
    (rt_retry_initial_backoff c) (rt_retry_max_backoff c)).
Definition with_default_search_budgets (c : RuntimeConfig) (budgets : SearchBudgets)
    : result RuntimeConfig :=
  Ok (mkRuntime (rt_foreground_operation_limit c) (rt_maintenance_workers c)
    (rt_fixup_queue_capacity c) (rt_fixup_attempts c) (rt_foreground_attempts c)
    (rt_partition_cache_bytes c) (rt_routing_working_bytes c) budgets
    (rt_tree_key_scan_ranges c) (rt_write_beam_size c) (rt_stalled_timeout c)
    (rt_retry_initial_backoff c) (rt_retry_max_backoff c)).
Definition with_tree_key_scan_ranges (c : RuntimeConfig) (ranges : Z) : result RuntimeConfig :=
  if ranges =? 0 then Err InvalidArgument
  else Ok (mkRuntime (rt_foreground_operation_limit c) (rt_maintenance_workers c)
    (rt_fixup_queue_capacity c) (rt_fixup_attempts c) (rt_foreground_attempts c)
    (rt_partition_cache_bytes c) (rt_routing_working_bytes c) (rt_default_search_budgets c)
    ranges (rt_write_beam_size c) (rt_stalled_timeout c)
    (rt_retry_initial_backoff c) (rt_retry_max_backoff c)).
Definition with_write_beam_size (c : RuntimeConfig) (beam : Z) : result RuntimeConfig :=
  if (beam =? 0) || (MAX_WRITE_BEAM_SIZE <? beam) then Err InvalidArgument
  else Ok (mkRuntime (rt_foreground_operation_limit c) (rt_maintenance_workers c)
    (rt_fixup_queue_capacity c) (rt_fixup_attempts c) (rt_foreground_attempts c)
    (rt_partition_cache_bytes c) (rt_routing_working_bytes c) (rt_default_search_budgets c)
    (rt_tree_key_scan_ranges c) beam (rt_stalled_timeout c)
    (rt_retry_initial_backoff c) (rt_retry_max_backoff c)).
Definition with_retry_backoff (c : RuntimeConfig) (initial maximum : Z) : result RuntimeConfig :=
  if (initial =? 0) || (maximum <? initial) then Err InvalidArgument
  else Ok (mkRuntime (rt_foreground_operation_limit c) (rt_maintenance_workers c)
    (rt_fixup_queue_capacity c) (rt_fixup_attempts c) (rt_foreground_attempts c)
    (rt_partition_cache_bytes c) (rt_routing_working_bytes c) (rt_default_search_budgets c)
    (rt_tree_key_scan_ranges c) (rt_write_beam_size c) (rt_stalled_timeout c) initial maximum).
Definition RuntimeConfig_validate (c : RuntimeConfig) : result unit :=
  if (rt_foreground_operation_limit c =? 0)
     || (MAX_FOREGROUND_OPERATION_LIMIT <? rt_foreground_operation_limit c)
     || (rt_fixup_queue_capacity c =? 0)
     || (rt_fixup_queue_capacity c <? rt_maintenance_workers c)
     || (rt_fixup_attempts c =? 0)
     || (rt_foreground_attempts c =? 0)
     || (2 ^ 64 <=? rt_partition_cache_bytes c)
     || (rt_routing_working_bytes c =? 0)
     || (rt_tree_key_scan_ranges c =? 0)
     || (rt_write_beam_size c =? 0)
     || (MAX_WRITE_BEAM_SIZE <? rt_write_beam_size c)
     || (rt_retry_initial_backoff c =? 0)
     || (rt_retry_max_backoff c <? rt_retry_initial_backoff c)
  then Err InvalidArgument else Ok tt.
Definition stalled_timeout (c : RuntimeConfig) (index : IndexConfig) (level : Z) : Z :=
  match rt_stalled_timeout c with
  | Some timeout => timeout
  | None => Z.max (max_partition_entries index level * SECOND / 128) MILLISECOND
  end.

(** ** Lemmas *)

(** A loop that only counts up leaves within its bound. *)
Lemma iter_until_count {R} (f : Z → Z + R) p s s' :
  (∀ x y, f x = inl y → y = x + 1) → iter_until f p s = inl s' → s' = s + Zpos p.
Proof.
  intros Hf. revert s s'. induction p as [p IH|p IH|]; intros s s' H; cbn in H.
  - destruct (f s) as [x|] eqn:E; [|done]. apply Hf in E as ->.
    destruct (iter_until f p (s + 1)) as [y|] eqn:E1; [|done]. apply IH in E1 as ->. apply IH in H. lia.
  - destruct (iter_until f p s) as [y|] eqn:E1; [|done]. apply IH in E1 as ->. apply IH in H. lia.
  - by apply Hf in H.
Qed.
Lemma iter_until_inv {S R} (f : S → S + R) (I : S → Prop) p s s' :
  (∀ x y, I x → f x = inl y → I y) → I s → iter_until f p s = inl s' → I s'.
Proof.
  intros Hf. revert s s'. induction p as [p IH|p IH|]; intros s s' Hs H; cbn in H; eauto.
  - destruct (f s) as [x|] eqn:E; [|done]. destruct (iter_until f p x) as [y|] eqn:E1; [|done]. eauto.
  - destruct (iter_until f p s) as [y|] eqn:E1; [|done]. eauto.
Qed.
(** What a loop leaves with, it left with in some step. *)
Lemma iter_until_exit {S R} (f : S → S + R) (I : S → Prop) p s r :
  (∀ x y, I x → f x = inl y → I y) → I s → iter_until f p s = inr r → ∃ x, I x ∧ f x = inr r.
Proof.
  intros Hf. revert s r. induction p as [p IH|p IH|]; intros s r Hs H; cbn in H; eauto.
  - destruct (f s) as [x|] eqn:E; [|naive_solver].
    destruct (iter_until f p x) as [y|] eqn:E1; [|simplify_eq; eauto].
    apply iter_until_inv with (I := I) in E1; eauto.
  - destruct (iter_until f p s) as [y|] eqn:E1; [|simplify_eq; eauto].
    apply iter_until_inv with (I := I) in E1; eauto.
Qed.

Lemma bloom_loop_spec distinct rate b :
  0 ≤ b < 2 ^ 32 →
  bloom_loop distinct rate b = Err InvalidArgument ∨
  ∃ b', bloom_loop distinct rate b = Ok b' ∧ b ≤ b' < 2 ^ 32 ∧
    SFltb rate (f64_div distinct (f64_from_u32 b')) = false.
Proof.
  intros Hb. unfold bloom_loop. set (f := bloom_step distinct rate).
  assert (∀ x y, f x = inl y → y = x + 1) as Hf.
  { unfold f, bloom_step. intros x y. repeat case_match; naive_solver. }
  assert (∀ x y, b ≤ x < 2 ^ 32 → f x = inl y → b ≤ y < 2 ^ 32) as HI.
  { unfold f, bloom_step. intros x y Hx H. repeat case_match; simplify_eq. bprop. lia. }
  destruct (iter_until f (2 ^ 32) b) as [s|r] eqn:E.
  - exfalso. pose proof (iter_until_inv f (λ x, b ≤ x < 2 ^ 32) _ _ _ HI (conj (Z.le_refl b) (proj2 Hb)) E) as Hs. cbv beta in Hs.
    apply iter_until_count in E; [|done]. change (Z.pos (2 ^ 32)) with (2 ^ 32) in E. lia.
  - apply (iter_until_exit f (λ x, b ≤ x < 2 ^ 32)) in E as (x & Hx & Hr); [|done|lia].
    unfold f, bloom_step in Hr. destruct (SFltb rate _) eqn:Es.
    + case_match; simplify_eq. by left.
    + injection Hr as <-. right. by exists x.
Qed.

Lemma bloom_shape_spec s :
  SynopsisConfig_bloom_shape s = Err InvalidArgument ∨
  (s = SynopsisConfig.MinMax ∧ SynopsisConfig_bloom_shape s = Ok None) ∨
  ∃ distinct rate b, s = SynopsisConfig.MinMaxBloom distinct rate ∧ SynopsisConfig_validate s = Ok tt ∧
    SynopsisConfig_bloom_shape s = Ok (Some (b, 1)) ∧ 0 ≤ b < 2 ^ 32 ∧
    SFltb (f64_value rate) (f64_div (f64_from_u32 distinct) (f64_from_u32 b)) = false.
Proof.
  destruct s as [|distinct rate]; [by right; left|]. unfold SynopsisConfig_bloom_shape.
  destruct (SynopsisConfig_validate _) as [[]|e|] eqn:Ev; cbn [mbind result_bind].
  2: { left. unfold SynopsisConfig_validate in Ev. case_match; naive_solver. }
  2: { unfold SynopsisConfig_validate in Ev. by case_match. }
  destruct (negb _ || _ || _); [by left|].
  set (x := f64_ceil _).
  assert (0 ≤ f64_as_u32 x < 2 ^ 32) as Hx.
  { unfold f64_as_u32. destruct x as [?|[]| |[] m e]; try lia.
    pose proof (Z.shiftl_nonneg (Zpos m) e). split; [apply Z.min_glb; lia|]. lia. }
  destruct (bloom_loop_spec (f64_from_u32 distinct) (f64_value rate) _ Hx) as [->|(b & -> & Hb & Hs)]; [by left|].
  right. right. exists distinct, rate, b. split_and!; try done; lia.
Qed.

(** C39: Deriving a Bloom shape terminates within the 32-bit range without a
    panic: it rejects the parameters or returns one probe and a bit count whose
    occupied-bit bound, the rounded quotient of the expected distinct values by
    the bits, is at most the requested false-positive rate. *)
Theorem bloom_shape_bounded distinct rate :
  match SynopsisConfig_bloom_shape (SynopsisConfig.MinMaxBloom distinct rate) with
  | Ok (Some (bits, probes)) =>
      probes = 1 ∧ 0 ≤ bits < 2 ^ 32 ∧
      SFltb (f64_value rate) (f64_div (f64_from_u32 distinct) (f64_from_u32 bits)) = false
  | Ok None => False
  | Err e => e = InvalidArgument
  | Panic => False
  end.
Proof.
  destruct (bloom_shape_spec (SynopsisConfig.MinMaxBloom distinct rate))
    as [->|[[[=] _]|(d & r & b & [= <- <-] & _ & -> & Hb & Hs)]]; done.
Qed.

Lemma bloom_bytes_nonneg s n : SynopsisConfig_bloom_bytes s = Ok n → 0 ≤ n.
Proof.
  unfold SynopsisConfig_bloom_bytes. intros (shape & Hs & H)%bind_ok.
  destruct (bloom_shape_spec s) as [E|[[_ E]|(d & r & b & _ & _ & E & Hb & _)]]; rewrite E in Hs; [done|..];
    apply Ok_inj in Hs as <-.
  - by apply Ok_inj in H as <-.
  - case_match; [|done]. apply Ok_inj in H as <-. apply Z.div_pos; lia.
Qed.

(** ** Tree Keys fit *)
Lemma scalar_bytes_len ty v : field_ok ty v → len (scalar_bytes v) ≤ tree_field_bytes ty.
Proof.
  intros [Hv Ht]. destruct ty, v; try done; cbn [scalar_bytes tree_field_bytes].
  cbn in Ht. bprop. pose proof (escape_len bytes). rewrite len_app, len_terminator. lia.
Qed.
Lemma tree_fields_loop_spec fs ids seen bytes total :
  tree_fields_loop fs ids seen bytes = Ok total →
  NoDup ids ∧ (∀ id, id ∈ ids → id ∉ seen) ∧
  Forall (λ id, ∃ f, fs !! Z.to_nat id = Some f ∧ fs_nullable f = false) ids ∧
  ∃ types, tree_types_loop fs ids = Ok types ∧
    ∀ vs, fields_ok types vs → bytes + len (fields_bytes vs) ≤ total.
Proof.
  revert seen bytes. induction ids as [|id ids IH]; intros seen bytes H; cbn in H.
  { apply Ok_inj in H as <-. split_and!; [constructor|by intros id ?%elem_of_nil|constructor|].
    exists []. split; [done|]. intros vs ->%Forall2_nil_inv_l. rewrite fields_bytes_nil, len_nil. lia. }
  case_decide as Hs; [done|]. apply bind_ok in H as (f & Hf%ok_or_ok & H).
  destruct (fs_nullable f) eqn:En; [done|]. apply bind_ok in H as (b & Hb & H).
  unfold checked_add in Hb. case_match; [|done]. apply Ok_inj in Hb as <-.
  destruct (IH _ _ H) as (Hnd & Hseen & Hall & types & Ht & Hlen). split_and!.
  - apply list.NoDup_cons. split; [|done]. intros Hin. apply (Hseen id Hin). apply list_elem_of_here.
  - intros x [->|Hx]%elem_of_cons; [done|]. intros Hin. apply (Hseen x Hx). by apply list_elem_of_further.
  - constructor; [by exists f|done].
  - exists (fs_data_type f :: types). cbn. rewrite Hf, Ht. cbn. split; [done|].
    intros vs (v & vs' & Hv & Hvs & ->)%Forall2_cons_inv_l.
    rewrite fields_bytes_cons, len_app. pose proof (scalar_bytes_len _ _ Hv). pose proof (Hlen vs' Hvs). lia.
Qed.

Lemma config_validate_inv c :
  IndexConfig_validate c = Ok tt →
  1 ≤ ic_dimension c ≤ MAX_DIMENSION ∧ validate_schema c = Ok tt ∧ validate_tree_key_fields c = Ok tt ∧
  validate_partition_entries (ic_min_leaf_partition_entries c) (ic_max_leaf_partition_entries c) = Ok tt ∧
  validate_partition_entries (ic_min_internal_partition_entries c) (ic_max_internal_partition_entries c) = Ok tt ∧
  ic_max_internal_partition_entries c ≤ 16384 ∧ ic_min_internal_partition_entries c ≤ 128.
Proof.
  unfold IndexConfig_validate. destruct (negb _) eqn:Ed; [done|]. destruct (_ || _) eqn:Ei; [done|].
  intros ([] & Hs & H)%bind_ok. apply bind_ok in H as ([] & Ht & H). apply bind_ok in H as ([] & Hl & H).
  bprop. split_and!; try done; lia.
Qed.

(** Distinct positions below a bound are at most that many. *)
Lemma distinct_ids_len (fs : list FieldSchema) ids :
  NoDup ids → Forall u16_ok ids → Forall (λ id, is_Some (fs !! Z.to_nat id)) ids → len ids ≤ len fs.
Proof.
  intros Hnd Hok Hin. unfold len. apply inj_le.
  assert (Z.to_nat <$> ids ⊆+ seq 0 (length fs)) as Hsub;
    [|apply submseteq_length in Hsub; by rewrite length_fmap, length_seq in Hsub].
  apply NoDup_submseteq.
  - clear Hin. induction Hnd as [|id ids Hid Hnd IH]; [constructor|]. apply Forall_cons_iff in Hok as [Ho Hok].
    rewrite fmap_cons. apply list.NoDup_cons. split; [|by apply IH].
    intros (id' & E & Hin)%list_elem_of_fmap. rewrite Forall_forall in Hok.
    pose proof (Hok id' ltac:(by apply list_elem_of_In)). unfold u16_ok in *. assert (id = id') as -> by lia. done.
  - intros n (id & -> & Hid)%list_elem_of_fmap. apply elem_of_seq. rewrite Forall_forall in Hin.
    destruct (Hin id ltac:(by apply list_elem_of_In)) as [f Hf]. apply lookup_lt_Some in Hf. lia.
Qed.

(** The schema of a validated configuration. *)
Lemma validated_tree_schema m :
  IndexConfig_validate (im_config m) = Ok tt → Forall u16_ok (ic_tree_key_fields (im_config m)) →
  ∃ types, tree_key_types m = Ok types ∧
    ∀ vs, fields_ok types vs → len (fields_bytes vs) ≤ MAX_TREE_KEY_BYTES.
Proof.
  intros (_ & Hs & Ht & _)%config_validate_inv Hids. unfold validate_tree_key_fields in Ht.
  apply bind_ok in Ht as (total & Hl & Ht). destruct (_ <? total) eqn:E; [done|]. apply Z.ltb_ge in E.
  apply tree_fields_loop_spec in Hl as (Hnd & _ & Hall & types & Htypes & Hlen).
  assert (len (ic_fields (im_config m)) ≤ MAX_FIELDS) as Hmax.
  { unfold validate_schema in Hs. destruct (MAX_FIELDS <? _) eqn:E'; [done|]. by apply Z.ltb_ge in E'. }
  pose proof (distinct_ids_len (ic_fields (im_config m)) (ic_tree_key_fields (im_config m)) Hnd Hids) as Hcount.
  assert (len (ic_tree_key_fields (im_config m)) ≤ MAX_FIELDS) as Hn.
  { etrans; [apply Hcount|done]. rewrite Forall_forall in *. intros id (f & Hf & _)%Hall. by exists f. }
  exists types. split; [|intros vs Hvs; pose proof (Hlen vs Hvs); lia]. unfold tree_key_types, fields.
  assert (ztake MAX_FIELDS (ic_tree_key_fields (im_config m)) = ic_tree_key_fields (im_config m)) as ->.
  { apply take_ge. unfold len in *. lia. }
  rewrite Htypes. cbn. by rewrite (proj2 (Z.ltb_ge _ _)).
Qed.

(** C38: A validated configuration admits every Tree Key: each tuple of canonical
    values of the declared Tree Key fields encodes within the key limit, so
    inserting or planning never meets an oversized Tree Key. *)
Theorem validated_tree_keys_fit m types vs :
  IndexConfig_validate (im_config m) = Ok tt → Forall u16_ok (ic_tree_key_fields (im_config m)) →
  tree_key_types m = Ok types → fields_ok types vs →
  ∃ key, TreeKey_encode types vs = Ok key.
Proof.
  intros Hv Hids Ht Hvs. destruct (validated_tree_schema m Hv Hids) as (types' & Ht' & Hlen).
  rewrite Ht in Ht'. apply Ok_inj in Ht' as <-. exists (fields_bytes vs). apply TreeKey_encode_spec.
  split_and!; [by apply fields_ok_split|done|by apply Hlen].
Qed.

(** A small configuration: Tree Keys over (b, a). *)
Definition plan_manifest : IndexManifest :=
  mkManifest IndexLifecycle.Active 7
    (mkIndexConfig None 4 Metric.L2
      [mkFieldSchema [97] DataType.I64 false SynopsisConfig.MinMax;
       mkFieldSchema [98] DataType.String false SynopsisConfig.MinMax;
       mkFieldSchema [99] DataType.Bool true SynopsisConfig.MinMax]
      [1; 0] 16 64 128 16384) (replicate 32 0) [None; None; None].
Lemma validated_tree_keys_fit_witness :
  ∃ key, TreeKey_encode [DataType.String; DataType.I64] [Value.String [0; 97]; Value.I64 (-1)] = Ok key.
Proof.
  apply (validated_tree_keys_fit plan_manifest).
  - vm_compute; reflexivity.
  - dec_compute.
  - reflexivity.
  - repeat constructor; dec_compute.
Defined.

(** ** Budgets *)
Definition budgets_ok (b : SearchBudgets) : Prop :=
  1 ≤ sb_scanned_tree_keys b ≤ MAX_SCANNED_TREE_KEYS ∧
  1 ≤ sb_visited_partitions b ≤ MAX_VISITED_PARTITIONS ∧
  1 ≤ sb_exact_rerank_candidates b ≤ MAX_EXACT_RERANK_CANDIDATES.
Definition options_ok (o : SearchOptions) : Prop :=
  (∀ n, so_scanned_tree_keys o = Some n → 1 ≤ n ≤ MAX_SCANNED_TREE_KEYS) ∧
  (∀ n, so_visited_partitions o = Some n → 1 ≤ n ≤ MAX_VISITED_PARTITIONS) ∧
  (∀ n, so_leaf_beam_size o = Some n → 1 ≤ n ≤ MAX_LEAF_BEAM_SIZE).
Lemma validate_override_ok value maximum :
  0 ≤ value → validate_override value maximum = Ok tt → 1 ≤ value ≤ maximum.
Proof. unfold validate_override. intros. case_match; [done|]. bprop. lia. Qed.

(** The option builders. *)
Module OptionStep.
Inductive t :=
  | Routing (mode : RoutingMode.t)
  | ScannedTreeKeys (value : Z)
  | VisitedPartitions (value : Z)
  | LeafBeamSize (value : Z).
End OptionStep.
Definition option_step (s : OptionStep.t) (o : SearchOptions) : result SearchOptions :=
  match s with
  | OptionStep.Routing mode => with_routing_mode o mode
  | OptionStep.ScannedTreeKeys v => with_scanned_tree_keys o v
  | OptionStep.VisitedPartitions v => with_visited_partitions o v
  | OptionStep.LeafBeamSize v => with_leaf_beam_size o v
  end.
Definition option_step_typed (s : OptionStep.t) : Prop :=
  match s with
  | OptionStep.Routing _ => True
  | OptionStep.ScannedTreeKeys v | OptionStep.VisitedPartitions v | OptionStep.LeafBeamSize v => u32_ok v
  end.
Fixpoint build_options (steps : list OptionStep.t) (o : SearchOptions) : result SearchOptions :=
  match steps with [] => Ok o | s :: steps => option_step s o ≫= build_options steps end.

Lemma option_step_ok s o o' :
  option_step_typed s → options_ok o → option_step s o = Ok o' → options_ok o'.
Proof.
  intros Hs (H1 & H2 & H3) H. destruct s as [mode|v|v|v]; cbn in *; unfold u32_ok in *.
  - unfold with_routing_mode in H. destruct mode as [|[| |]]; try done; by apply Ok_inj in H as <-.
  - apply bind_ok in H as ([] & Hv%validate_override_ok & H); [|lia]. apply Ok_inj in H as <-.
    split_and!; cbn; try done. by intros ? [= <-].
  - apply bind_ok in H as ([] & Hv%validate_override_ok & H); [|lia]. apply Ok_inj in H as <-.
    split_and!; cbn; try done. by intros ? [= <-].
  - apply bind_ok in H as ([] & Hv%validate_override_ok & H); [|lia]. apply Ok_inj in H as <-.
    split_and!; cbn; try done. by intros ? [= <-].
Qed.
Lemma build_options_ok steps o o' :
  Forall option_step_typed steps → options_ok o → build_options steps o = Ok o' → options_ok o'.
Proof.
  intros Hs. revert o. induction Hs as [|s steps Hs _ IH]; intros o Ho H; cbn in H; [by apply Ok_inj in H as <-|].
  apply bind_ok in H as (o1 & H1 & H). eapply IH; [|done]. by eapply option_step_ok.
Qed.

(** Budgets resolved for a Search stay within the hard caps and cover the
    request: whatever overrides were built and whatever valid defaults the
    Runtime has, a request for [k] hits is resolved exactly when [k] is in range
    and the default rerank budget is at least [k]; the resolved rerank budget is
    then between [k] and the cap. *)
Lemma resolved_budgets_ok steps options defaults k :
  Forall option_step_typed steps → build_options steps SearchOptions_default = Ok options →
  budgets_ok defaults → 0 ≤ k →
  (1 ≤ k ≤ MAX_K ∧ k ≤ sb_exact_rerank_candidates defaults →
   ∃ b, SearchOptions_resolve options defaults k = Ok b ∧ budgets_ok b ∧ k ≤ sb_exact_rerank_candidates b) ∧
  (¬ (1 ≤ k ≤ MAX_K ∧ k ≤ sb_exact_rerank_candidates defaults) →
   SearchOptions_resolve options defaults k = Err InvalidArgument).
Proof.
  intros Hs Hb Hd Hk. apply build_options_ok in Hb as (Ho1 & Ho2 & _); [|done|by split_and!].
  unfold SearchOptions_resolve, default_exact_rerank. unfold MAX_K in *.
  destruct (negb _) eqn:Er.
  { split; [|done]. bprop. lia. }
  assert (1 ≤ k ≤ 65536) as Hr by (bprop; lia). unfold div_ceil, checked_add.
  assert (0 ≤ (k + 4 - 1) / 4 ≤ k) as Hq.
  { split; [apply Z.div_pos; lia|]. apply Z.div_le_upper_bound; lia. }
  rewrite (proj2 (Z.ltb_lt _ (2 ^ 64))) by lia. cbn [mbind result_bind].
  rewrite (proj2 (Z.ltb_lt _ (2 ^ 32))) by lia. cbn [mbind result_bind].
  rewrite (proj2 (Z.ltb_lt _ (2 ^ 32))) by lia. cbn [mbind result_bind sb_exact_rerank_candidates].
  destruct Hd as (Hd1 & Hd2 & Hd3). unfold MAX_EXACT_RERANK_CANDIDATES in *.
  destruct (Z.ltb_spec (Z.min (sb_exact_rerank_candidates defaults)
    (Z.min (Z.max (k + (k + 4 - 1) / 4) 64) 65536)) k); (split; [|by intros; try lia]); [lia|].
  intros _. eexists. split; [done|]. unfold budgets_ok, MAX_EXACT_RERANK_CANDIDATES. cbn. split; [|lia]. split_and!; try lia.
  1-2: destruct (so_scanned_tree_keys options) as [n|]; cbn; [by destruct (Ho1 n eq_refl)|lia].
  1-2: destruct (so_visited_partitions options) as [n|]; cbn; [by destruct (Ho2 n eq_refl)|lia].
Qed.

(** ** Runtime configurations *)
Module RuntimeStep.
Inductive t :=
  | RoutingWorkingBytes (bytes : Z)
  | StalledTimeout (timeout : Z)
  | ForegroundOperationLimit (limit : Z)
  | Maintenance (workers queue_capacity : Z)
  | Attempts (fixup foreground : Z)
  | PartitionCacheBytes (bytes : Z)
  | DefaultSearchBudgets (budgets : SearchBudgets)
  | TreeKeyScanRanges (ranges : Z)
  | WriteBeamSize (beam : Z)
  | RetryBackoff (initial maximum : Z).
End RuntimeStep.
Definition runtime_step (s : RuntimeStep.t) (c : RuntimeConfig) : result RuntimeConfig :=
  match s with
  | RuntimeStep.RoutingWorkingBytes b => with_routing_working_bytes c b
  | RuntimeStep.StalledTimeout t => with_stalled_timeout c t
  | RuntimeStep.ForegroundOperationLimit l => with_foreground_operation_limit c l
  | RuntimeStep.Maintenance w q => with_maintenance c w q
  | RuntimeStep.Attempts f g => with_attempts c f g
  | RuntimeStep.PartitionCacheBytes b => with_partition_cache_bytes c b
  | RuntimeStep.DefaultSearchBudgets b => with_default_search_budgets c b
  | RuntimeStep.TreeKeyScanRanges r => with_tree_key_scan_ranges c r
  | RuntimeStep.WriteBeamSize b => with_write_beam_size c b
  | RuntimeStep.RetryBackoff i m => with_retry_backoff c i m
  end.
Fixpoint build_runtime (steps : list RuntimeStep.t) (c : RuntimeConfig) : result RuntimeConfig :=
  match steps with [] => Ok c | s :: steps => runtime_step s c ≫= build_runtime steps end.

Lemma runtime_step_valid s c c' :
  RuntimeConfig_validate c = Ok tt → runtime_step s c = Ok c' → RuntimeConfig_validate c' = Ok tt.
Proof.
  intros Hc Hs. unfold RuntimeConfig_validate in *. destruct (_ || _) eqn:E in Hc; [done|]. clear Hc.
  bprop. destruct s; cbn in Hs;
    unfold with_routing_working_bytes, with_stalled_timeout, with_foreground_operation_limit, with_maintenance,
      with_attempts, with_partition_cache_bytes, with_default_search_budgets, with_tree_key_scan_ranges,
      with_write_beam_size, with_retry_backoff in Hs;
    try (destruct (_ || _) eqn:G in Hs); try (destruct (_ =? _) eqn:G in Hs); try (destruct (_ <=? _) eqn:G in Hs);
    try done; apply Ok_inj in Hs as <-; bprop; cbn;
    (destruct (_ || _) eqn:F; [|done]); bprop; cbn in *; lia.
Qed.

(** Runtime configurations are valid by construction: every configuration
    built from the defaults by any sequence of accepted builder calls passes
    [validate], whatever the host reports. *)
Lemma runtime_config_valid available total_memory steps c :
  build_runtime steps (RuntimeConfig_default available total_memory) = Ok c →
  RuntimeConfig_validate c = Ok tt.
Proof.
  assert (RuntimeConfig_validate (RuntimeConfig_default available total_memory) = Ok tt) as Hd.
  { unfold RuntimeConfig_validate, RuntimeConfig_default, DEFAULT_FIXUP_QUEUE_CAPACITY,
      DEFAULT_FOREGROUND_OPERATION_LIMIT, MAX_FOREGROUND_OPERATION_LIMIT, DEFAULT_ATTEMPTS,
      DEFAULT_TREE_KEY_SCAN_RANGES, DEFAULT_WRITE_BEAM_SIZE, MAX_WRITE_BEAM_SIZE, MILLISECOND.
    cbn [rt_foreground_operation_limit rt_maintenance_workers rt_fixup_queue_capacity rt_fixup_attempts
      rt_foreground_attempts rt_partition_cache_bytes rt_routing_working_bytes rt_tree_key_scan_ranges
      rt_write_beam_size rt_retry_initial_backoff rt_retry_max_backoff].
    destruct (_ || _) eqn:F; [|done]. bprop. lia. }
  revert Hd. generalize (RuntimeConfig_default available total_memory).
  induction steps as [|s steps IH]; intros c0 Hc0 H; cbn in H; [by apply Ok_inj in H as <-|].
  apply bind_ok in H as (c1 & H1 & H). eapply IH; [|done]. by eapply runtime_step_valid.
Qed.
