(* ===== verification/ManifestCodec.v ===== *)
(** Index Manifests (src/src/storage/values/manifest.rs): construction and
    validation, and the persistent codec.  A constructed manifest has every
    property the serving codecs rely on, and the codec round-trips canonically. *)
From S2P Require Import Prelude RustStd Api TreeKey RaBitQ Manifest Wire ValueData Config.

Definition FORMAT_VERSION : Z := 1.
Definition ROTATION_SEED_BYTES : Z := 32.
Definition TAG_INDEX_MANIFEST : Z := 0x02.

(** ** Construction *)
Definition BloomParameters_derive (config : SynopsisConfig.t) : result (option BloomParameters) :=
  SynopsisConfig_bloom_shape config ≫= λ shape,
  match shape with
  | None => Ok None
  | Some (bit_count, hash_count) => BloomParameters_new bit_count hash_count ≫= λ p, Ok (Some p)
  end.
Fixpoint bloom_alignment_loop (fs : list FieldSchema) (ps : list (option BloomParameters)) : result unit :=
  match fs, ps with
  | field :: fs, parameters :: ps =>
      BloomParameters_derive (fs_synopsis field) ≫= λ derived,
      if decide (derived = parameters) then bloom_alignment_loop fs ps else Err InvalidArgument
  | _, _ => Ok tt
  end.
Definition IndexManifest_validate (m : IndexManifest) : result unit :=
  IndexConfig_validate (im_config m) ≫= λ _,
  if negb (len (im_bloom_parameters m) =? len (fields m)) then Err InvalidArgument
  else
    bloom_alignment_loop (fields m) (im_bloom_parameters m) ≫= λ _,
    if MAX_SYNOPSIS_BYTES <? maximum_synopsis_encoded_len m then Err InvalidArgument else Ok tt.
Definition IndexManifest_new (lifecycle : IndexLifecycle.t) (logical_index_id : Z)
    (config : IndexConfig) (rotation_seed : list Z) (bloom_parameters : list (option BloomParameters))
    : result IndexManifest :=
  let manifest := mkManifest lifecycle logical_index_id config rotation_seed bloom_parameters in
  IndexManifest_validate manifest ≫= λ _, Ok manifest.
Definition with_lifecycle (m : IndexManifest) (lifecycle : IndexLifecycle.t) : IndexManifest :=
  mkManifest lifecycle (im_logical_index_id m) (im_config m) (im_rotation_seed m) (im_bloom_parameters m).

(** ** Tags *)
Definition encode_lifecycle (l : IndexLifecycle.t) : Z :=
  match l with IndexLifecycle.Building => 2 | IndexLifecycle.Active => 0 | IndexLifecycle.Dropping => 1 end.
Definition decode_lifecycle (tag : Z) : result IndexLifecycle.t :=
  if tag =? 0 then Ok IndexLifecycle.Active
  else if tag =? 1 then Ok IndexLifecycle.Dropping
  else if tag =? 2 then Ok IndexLifecycle.Building
  else Err Corruption.
Definition encode_metric (m : Metric.t) : Z :=
  match m with Metric.L2 => 0 | Metric.Cosine => 1 | Metric.InnerProduct => 2 end.
Definition decode_metric (tag : Z) : result Metric.t :=
  if tag =? 0 then Ok Metric.L2
  else if tag =? 1 then Ok Metric.Cosine
  else if tag =? 2 then Ok Metric.InnerProduct
  else Err Corruption.
Definition encode_data_type (ty : DataType.t) : Z :=
  match ty with DataType.Bool => 0 | DataType.I64 => 1 | DataType.F64 => 2 | DataType.String => 3 end.
Definition decode_data_type (tag : Z) : result DataType.t :=
  if tag =? 0 then Ok DataType.Bool
  else if tag =? 1 then Ok DataType.I64
  else if tag =? 2 then Ok DataType.F64
  else if tag =? 3 then Ok DataType.String
  else Err Corruption.

(** ** Encoder *)
Definition encode_schema_field (field : FieldSchema) (bloom : option BloomParameters) (e : list Z)
    : result (list Z) :=
  Encoder_sized_u8_bytes (fs_name field) e ≫= λ e,
  let e := Encoder_u8 (encode_data_type (fs_data_type field)) e in
  let e := Encoder_bool (fs_nullable field) e in
  match fs_synopsis field with
  | SynopsisConfig.MinMax => Ok (Encoder_u8 0 e)
  | SynopsisConfig.MinMaxBloom expected_distinct false_positive_rate =>
      ok_or InvalidArgument bloom ≫= λ parameters,
      let e := Encoder_u8 1 e in
      let e := Encoder_u32 expected_distinct e in
      Encoder_f64 false_positive_rate e ≫= λ e,
      Ok (Encoder_u8 (bp_hash_count parameters) (Encoder_u32 (bp_bit_count parameters) e))
  end.
Fixpoint encode_schema_loop (fs : list FieldSchema) (ps : list (option BloomParameters)) (e : list Z)
    : result (list Z) :=
  match fs, ps with
  | field :: fs, bloom :: ps => encode_schema_field field bloom e ≫= encode_schema_loop fs ps
  | _, _ => Ok e
  end.
Definition encode_graph (graph : option LocalGraphConfig) (e : list Z) : list Z :=
  match graph with
  | None => Encoder_u8 0 e
  | Some g => Encoder_bytes (gc_seed g) (Encoder_u32 (gc_ef_construction g) (Encoder_u32 (gc_m g) (Encoder_u8 1 e)))
  end.
Definition encode_index_manifest (m : IndexManifest) (e : list Z) : result (list Z) :=
  let config := im_config m in
  let e := Encoder_u16 FORMAT_VERSION e in
  let e := Encoder_u8 (encode_lifecycle (im_lifecycle m)) e in
  let e := Encoder_u64 (im_logical_index_id m) e in
  try_from_usize 32 (ic_dimension config) ≫= λ dimension,
  let e := Encoder_u8 (encode_metric (ic_metric config)) (Encoder_u32 dimension e) in
  try_from_usize 16 (len (ic_fields config)) ≫= λ field_count,
  encode_schema_loop (ic_fields config) (im_bloom_parameters m) (Encoder_u16 field_count e) ≫= λ e,
  try_from_usize 16 (len (ic_tree_key_fields config)) ≫= λ tree_key_count,
  let e := foldl (λ e field, Encoder_u16 field e) (Encoder_u16 tree_key_count e) (ic_tree_key_fields config) in
  let e := Encoder_u32 (ic_min_leaf_partition_entries config) e in
  let e := Encoder_u32 (ic_max_leaf_partition_entries config) e in
  let e := Encoder_u32 (ic_min_internal_partition_entries config) e in
  let e := Encoder_u32 (ic_max_internal_partition_entries config) e in
  Ok (Encoder_bytes (im_rotation_seed m) (encode_graph (ic_graph config) e)).

(** ** Decoder *)
Definition decode_synopsis_config : Dec (SynopsisConfig.t * option BloomParameters) :=
  dlet synopsis_tag := Decoder_u8 in
  if synopsis_tag =? 0 then dec_ret (SynopsisConfig.MinMax, None)
  else if synopsis_tag =? 1 then
    dlet expected_distinct := Decoder_u32 in
    dlet expected_distinct := dec_lift (if expected_distinct =? 0 then Err Corruption else Ok expected_distinct) in
    dlet false_positive_rate := Decoder_canonical_f64 in
    dlet bit_count := Decoder_u32 in
    dlet hash_count := Decoder_u8 in
    dlet bloom := dec_lift (map_err Corruption (BloomParameters_new bit_count hash_count)) in
    dec_ret (SynopsisConfig.MinMaxBloom expected_distinct false_positive_rate, Some bloom)
  else dec_lift (Err Corruption).
Definition decode_schema_field : Dec (FieldSchema * option BloomParameters) :=
  dlet name_bytes := Decoder_sized_u8_bytes in
  dlet name := dec_lift (if utf8_valid name_bytes then Ok name_bytes else Err Corruption) in
  dlet data_type := (dlet tag := Decoder_u8 in dec_lift (decode_data_type tag)) in
  dlet nullable := Decoder_bool in
  dlet synopsis := decode_synopsis_config in
  dlet field := dec_lift (map_err Corruption (FieldSchema_new name data_type)) in
  dlet field := dec_lift (map_err Corruption
    (FieldSchema_with_synopsis (if nullable then FieldSchema_nullable field else field) synopsis.1)) in
  dec_ret (field, synopsis.2).
Fixpoint decode_schema_loop (n : nat) : Dec (list (FieldSchema * option BloomParameters)) :=
  match n with
  | O => dec_ret []
  | S n => dlet f := decode_schema_field in dlet fs := decode_schema_loop n in dec_ret (f :: fs)
  end.
Fixpoint decode_ids_loop (n : nat) : Dec (list Z) :=
  match n with
  | O => dec_ret []
  | S n => dlet id := Decoder_u16 in dlet ids := decode_ids_loop n in dec_ret (id :: ids)
  end.
Definition decode_graph : Dec (option LocalGraphConfig) :=
  dlet tag := Decoder_u8 in
  if tag =? 0 then dec_ret None
  else if tag =? 1 then
    dlet m := Decoder_u32 in
    dlet ef_construction := Decoder_u32 in
    dlet seed := Decoder_array 32 in
    dlet graph := dec_lift (map_err Corruption (LocalGraphConfig_new m ef_construction seed)) in
    dec_ret (Some graph)
  else dec_lift (Err Corruption).
(** The configuration rebuilt from its decoded parts. *)
Definition rebuild_config (dimension : Z) (metric : Metric.t) (fs : list FieldSchema) (ids : list Z)
    (minimum maximum internal_minimum internal_maximum : Z) (graph : option LocalGraphConfig)
    : result IndexConfig :=
  map_err Corruption
    (IndexConfig_new dimension metric ≫= λ config,
     with_fields config fs ≫= λ config,
     with_tree_key_fields config ids ≫= λ config,
     with_leaf_partition_entries config minimum maximum ≫= λ config,
     with_internal_partition_entries config internal_minimum internal_maximum) ≫= λ config,
  Ok (match graph with
      | Some graph => with_local_graph config graph
      | None => without_local_graph config
      end).
(** Everything after the Tree Key fields. *)
Definition decode_manifest_tail (lifecycle : IndexLifecycle.t) (logical_index_id dimension : Z)
    (metric : Metric.t) (schema : list (FieldSchema * option BloomParameters)) (tree_key_fields : list Z)
    : Dec IndexManifest :=
  dlet minimum := Decoder_u32 in
  dlet maximum := Decoder_u32 in
  dlet internal_minimum := Decoder_u32 in
  dlet internal_maximum := Decoder_u32 in
  dlet graph := decode_graph in
  dlet rotation_seed := Decoder_array ROTATION_SEED_BYTES in
  dec_lift (rebuild_config dimension metric (fst <$> schema) tree_key_fields minimum maximum
    internal_minimum internal_maximum graph ≫= λ config,
    map_err Corruption (IndexManifest_new lifecycle logical_index_id config rotation_seed (snd <$> schema))).
(** Everything after the format version. *)
Definition decode_manifest_body : Dec IndexManifest :=
  dlet lifecycle := (dlet tag := Decoder_u8 in dec_lift (decode_lifecycle tag)) in
  dlet logical_index_id := Decoder_logical_index_id in
  dlet dimension := Decoder_u32 in
  dlet metric := (dlet tag := Decoder_u8 in dec_lift (decode_metric tag)) in
  dlet field_count := Decoder_u16 in
  if MAX_FIELDS <? field_count then dec_lift (Err Corruption) else
  dlet schema := decode_schema_loop (Z.to_nat field_count) in
  dlet tree_key_count := Decoder_u16 in
  if field_count <? tree_key_count then dec_lift (Err Corruption) else
  dlet tree_key_fields := decode_ids_loop (Z.to_nat tree_key_count) in
  decode_manifest_tail lifecycle logical_index_id dimension metric schema tree_key_fields.
Definition decode_index_manifest : Dec IndexManifest :=
  dlet format_version := Decoder_u16 in
  if negb (format_version =? FORMAT_VERSION) then dec_lift (Err UnsupportedFormat)
  else decode_manifest_body.

(** ** Validation *)

(** What the Rust types of a manifest's parts guarantee. *)
Definition field_typed (f : FieldSchema) : Prop :=
  string_ok (fs_name f) ∧ 1 ≤ len (fs_name f) ≤ MAX_FIELD_NAME_BYTES ∧
  match fs_synopsis f with
  | SynopsisConfig.MinMax => True
  | SynopsisConfig.MinMaxBloom d r => 1 ≤ d < 2 ^ 32 ∧ u64_ok r
  end ∧ SynopsisConfig_validate (fs_synopsis f) = Ok tt.
Definition graph_typed (g : LocalGraphConfig) : Prop :=
  u32_ok (gc_m g) ∧ u32_ok (gc_ef_construction g) ∧ bytes_ok (gc_seed g) ∧ len (gc_seed g) = 32 ∧
  LocalGraphConfig_new (gc_m g) (gc_ef_construction g) (gc_seed g) = Ok g.
Definition config_typed (c : IndexConfig) : Prop :=
  Forall field_typed (ic_fields c) ∧ Forall u16_ok (ic_tree_key_fields c) ∧
  u32_ok (ic_min_leaf_partition_entries c) ∧ u32_ok (ic_max_leaf_partition_entries c) ∧
  u32_ok (ic_min_internal_partition_entries c) ∧ u32_ok (ic_max_internal_partition_entries c) ∧
  (∀ g, ic_graph c = Some g → graph_typed g).
Definition manifest_typed (m : IndexManifest) : Prop :=
  id_ok (im_logical_index_id m) ∧ config_typed (im_config m) ∧
  bytes_ok (im_rotation_seed m) ∧ len (im_rotation_seed m) = ROTATION_SEED_BYTES.

Lemma bloom_alignment_spec fs ps :
  length ps = length fs →
  bloom_alignment_loop fs ps = Ok tt ↔
  Forall2 (λ f p, BloomParameters_derive (fs_synopsis f) = Ok p) fs ps.
Proof.
  revert ps. induction fs as [|f fs IH]; intros [|p ps] Hl; try done; cbn.
  injection Hl as Hl. rewrite bind_ok, list.Forall2_cons, <-(IH ps Hl). split.
  - intros (d & Hd & H). case_decide; [by subst|done].
  - intros [Hd H]. exists p. by rewrite decide_True.
Qed.
Lemma bloom_derive_ok s p :
  BloomParameters_derive s = Ok (Some p) →
  BloomParameters_new (bp_bit_count p) (bp_hash_count p) = Ok p ∧ u32_ok (bp_bit_count p) ∧ bp_hash_count p = 1.
Proof.
  unfold BloomParameters_derive. intros (shape & Hs & H)%bind_ok.
  destruct (bloom_shape_spec s) as [E|[[_ E]|(d & r & b & _ & _ & E & Hb & _)]]; rewrite E in Hs; [done|..];
    apply Ok_inj in Hs as <-; [done|].
  apply bind_ok in H as (q & Hq & H). injection H as ->. pose proof Hq as Hq'. unfold BloomParameters_new in Hq'.
  case_match; [done|]. apply Ok_inj in Hq' as <-. cbn. split_and!; [done|unfold u32_ok; lia|done].
Qed.
Lemma manifest_validate_inv m :
  IndexManifest_validate m = Ok tt ↔
  IndexConfig_validate (im_config m) = Ok tt ∧ length (im_bloom_parameters m) = length (fields m) ∧
  Forall2 (λ f p, BloomParameters_derive (fs_synopsis f) = Ok p) (fields m) (im_bloom_parameters m) ∧
  maximum_synopsis_encoded_len m ≤ MAX_SYNOPSIS_BYTES.
Proof.
  unfold IndexManifest_validate. rewrite bind_ok. split.
  - intros ([] & Hc & H). destruct (Z.eqb_spec (len (im_bloom_parameters m)) (len (fields m))) as [El|]; [|done].
    assert (length (im_bloom_parameters m) = length (fields m)) as El' by (unfold len in El; lia).
    cbn [negb] in H. apply bind_ok in H as ([] & Hb & H). apply bloom_alignment_spec in Hb; [|done].
    destruct (_ <? _) eqn:E; [done|]. apply Z.ltb_ge in E. done.
  - intros (Hc & El & Hb & Hl). exists tt. split; [done|]. unfold len. rewrite El, Z.eqb_refl. cbn [negb].
    rewrite (proj2 (bloom_alignment_spec _ _ El) Hb). cbn [mbind result_bind]. by rewrite (proj2 (Z.ltb_ge _ _)).
Qed.

Lemma new_manifest_ok m :
  manifest_typed m → IndexManifest_validate m = Ok tt → manifest_ok m.
Proof.
  intros (Hid & Hct & _) (Hc & Hl & Hb & Hs)%manifest_validate_inv.
  pose proof (config_validate_inv _ Hc) as (Hd & Hsch & _).
  destruct (validated_tree_schema m Hc) as (types & Ht & _); [apply Hct|].
  unfold manifest_ok. split_and!; try done; [apply Hd|apply Hd| | |by exists types].
  - unfold validate_schema in Hsch. destruct (MAX_FIELDS <? _) eqn:E; [done|]. by apply Z.ltb_ge in E.
  - clear -Hb. induction Hb as [|f p fs ps Hfp _ IH]; constructor; [|done].
    intros b ->. apply bloom_derive_ok in Hfp as (? & ? & _). done.
Qed.

(** C37: A constructed Index Manifest has everything the serving codecs and keys
    rely on: a nonzero id, a dimension in range, at most 16 fields with aligned
    and bounded Bloom parameters, synopses that fit their limit, and Tree Key
    fields that exist.  Lifecycle transitions keep it. *)
Theorem constructed_manifest_ok lifecycle id config seed bloom m lifecycle' :
  IndexManifest_new lifecycle id config seed bloom = Ok m → manifest_typed m →
  manifest_ok m ∧ manifest_ok (with_lifecycle m lifecycle') ∧
  has_same_immutable_identity m (with_lifecycle m lifecycle') = true.
Proof.
  unfold IndexManifest_new. intros ([] & Hv & H)%bind_ok Ht. apply Ok_inj in H as <-.
  split; [by apply new_manifest_ok|]. split; [by apply (new_manifest_ok (with_lifecycle _ _))|].
  unfold has_same_immutable_identity. cbn. by rewrite Z.eqb_refl, !bool_decide_eq_true_2.
Qed.

(** ** Validation never panics *)
Lemma bloom_shape_no_panic s : no_panic (SynopsisConfig_bloom_shape s).
Proof.
  unfold no_panic. destruct (bloom_shape_spec s) as [E|[[_ E]|(d & r & b & _ & _ & E & _)]]; by rewrite E.
Qed.
Lemma bloom_bytes_no_panic s : no_panic (SynopsisConfig_bloom_bytes s).
Proof. apply bind_no_panic; [apply bloom_shape_no_panic|]. intros [[]|] _; [by case_match|done]. Qed.
Lemma schema_loop_no_panic fs names n bytes : no_panic (schema_loop fs names n bytes).
Proof.
  revert names n bytes. induction fs as [|f fs IH]; intros names n bytes; [done|]. cbn [schema_loop].
  case_decide; [done|]. unfold checked_mul, checked_add.
  apply bind_no_panic; [by case_match|intros ? _].
  apply bind_no_panic; [apply bloom_bytes_no_panic|intros ? _].
  do 3 (apply bind_no_panic; [by case_match|intros ? _]). apply IH.
Qed.
Lemma tree_fields_loop_no_panic fs ids seen bytes : no_panic (tree_fields_loop fs ids seen bytes).
Proof.
  revert seen bytes. induction ids as [|id ids IH]; intros seen bytes; [done|]. cbn [tree_fields_loop].
  case_decide; [done|]. apply bind_no_panic; [apply ok_or_no_panic|]. intros f _. case_match; [done|].
  unfold checked_add. apply bind_no_panic; [by case_match|]. intros; apply IH.
Qed.
Lemma validate_schema_no_panic c : no_panic (validate_schema c).
Proof.
  unfold validate_schema. case_match; [done|]. apply bind_no_panic; [apply schema_loop_no_panic|].
  intros [] _. by case_match.
Qed.
Lemma config_validate_no_panic c : no_panic (IndexConfig_validate c).
Proof.
  unfold IndexConfig_validate, validate_tree_key_fields, validate_partition_entries. repeat case_match; try done;
    (apply bind_no_panic; [apply validate_schema_no_panic|intros _ _]);
    (apply bind_no_panic; [|intros _ _; done]);
    (apply bind_no_panic; [apply tree_fields_loop_no_panic|intros ? _; by case_match]).
Qed.
Lemma manifest_validate_no_panic m : no_panic (IndexManifest_validate m).
Proof.
  unfold IndexManifest_validate. apply bind_no_panic; [apply config_validate_no_panic|intros _ _].
  destruct (negb _); [done|]. apply bind_no_panic; [|intros _ _; by case_match].
  generalize (im_bloom_parameters m). induction (fields m) as [|f fs IH]; intros [|p ps]; cbn [bloom_alignment_loop];
    try (unfold no_panic; discriminate).
  apply bind_no_panic; [|intros d _; case_decide; [apply IH|done]].
  apply bind_no_panic; [apply bloom_shape_no_panic|]. intros [[b h]|] _; [|done].
  apply bind_no_panic; [unfold BloomParameters_new; by case_match|done].
Qed.


(** ** Rebuilding *)
Lemma new_config_ok dimension metric c :
  IndexConfig_new dimension metric = Ok c ↔
  1 ≤ dimension ≤ MAX_DIMENSION ∧ c = mkIndexConfig (Some LocalGraphConfig_default) dimension metric [] [] 16 64 128 16384.
Proof.
  unfold IndexConfig_new, IndexConfig_validate. cbn [ic_dimension].
  destruct (negb _) eqn:E; cbn [mbind result_bind].
  - split; [done|]. bprop. lia.
  - bprop. split; [intros H; apply Ok_inj in H as <-; split; [lia|done]|]. by intros [_ ->].
Qed.
Lemma validate_schema_fields c c' : ic_fields c = ic_fields c' → validate_schema c = validate_schema c'.
Proof. unfold validate_schema. by intros ->. Qed.
Lemma has_duplicate_spec ids seen :
  has_duplicate ids seen = false ↔ NoDup ids ∧ ∀ id, id ∈ ids → id ∉ seen.
Proof.
  revert seen. induction ids as [|id ids IH]; intros seen; cbn.
  - split; [|done]. intros _. split; [constructor|]. by intros id ?%elem_of_nil.
  - rewrite list.NoDup_cons. setoid_rewrite elem_of_cons. case_decide as E; [naive_solver|]. rewrite IH.
    setoid_rewrite elem_of_cons. naive_solver.
Qed.

Lemma rebuild_config_spec dimension metric fs ids mn mx imn imx graph :
  let c := mkIndexConfig graph dimension metric fs ids mn imn mx imx in
  (∀ c', rebuild_config dimension metric fs ids mn mx imn imx graph = Ok c' → c' = c) ∧
  (IndexConfig_validate c = Ok tt → rebuild_config dimension metric fs ids mn mx imn imx graph = Ok c) ∧
  ok_or_corrupt (rebuild_config dimension metric fs ids mn mx imn imx graph).
Proof.
  intros c. unfold rebuild_config. split_and!.
  - intros c' (config & H%map_err_ok & Hc')%bind_ok.
    apply bind_ok in H as (c0 & (_ & ->)%new_config_ok & H). apply bind_ok in H as (c1 & H1 & H).
    apply bind_ok in H1 as ([] & _ & H1). apply Ok_inj in H1 as <-.
    apply bind_ok in H as (c2 & H2 & H). unfold with_tree_key_fields in H2.
    destruct (has_duplicate ids []); [done|]. apply Ok_inj in H2 as <-.
    apply bind_ok in H as (c3 & H3 & H). apply bind_ok in H3 as ([] & _ & H3). apply Ok_inj in H3 as <-.
    unfold with_internal_partition_entries in H. apply bind_ok in H as ([] & _ & H).
    destruct (_ || _); [done|]. apply Ok_inj in H as <-. apply Ok_inj in Hc' as <-. by destruct graph.
  - intros (Hd & Hs & Ht & Hl & Hi & Hmax & Hmin)%config_validate_inv. cbn in *.
    rewrite (proj2 (new_config_ok dimension metric _) (conj Hd eq_refl)). cbn [mbind result_bind].
    unfold with_fields. rewrite (validate_schema_fields _ c) by done. rewrite Hs. cbn [mbind result_bind].
    unfold with_tree_key_fields. unfold validate_tree_key_fields in Ht.
    apply bind_ok in Ht as (total & (Hnd & _)%tree_fields_loop_spec & _).
    rewrite (proj2 (has_duplicate_spec ids [])) by (split; [done|]; intros; by apply not_elem_of_nil).
    cbn [mbind result_bind]. unfold with_leaf_partition_entries. rewrite Hl. cbn [mbind result_bind].
    unfold with_internal_partition_entries. rewrite Hi. cbn [mbind result_bind].
    rewrite (proj2 (Z.ltb_ge 16384 imx)), (proj2 (Z.ltb_ge 128 imn)) by lia. cbn. by destruct graph.
  - apply ok_or_corrupt_bind; [|intros; left; by eexists]. apply map_err_corrupt.
    apply bind_no_panic; [apply bind_no_panic; [apply config_validate_no_panic|done]|intros c0 _].
    apply bind_no_panic; [apply bind_no_panic; [apply validate_schema_no_panic|done]|intros c1 _].
    unfold with_tree_key_fields, with_leaf_partition_entries, with_internal_partition_entries, validate_partition_entries.
    apply bind_no_panic; [by case_match|intros c2 _]. apply bind_no_panic; [by case_match|intros c3 _].
    apply bind_no_panic; [by case_match|intros ? _; by case_match].
Qed.

Lemma rebuild_manifest_ok lifecycle id dimension metric fs ids mn mx imn imx graph seed bloom m :
  (rebuild_config dimension metric fs ids mn mx imn imx graph ≫= λ config,
   map_err Corruption (IndexManifest_new lifecycle id config seed bloom)) = Ok m ↔
  m = mkManifest lifecycle id (mkIndexConfig graph dimension metric fs ids mn imn mx imx) seed bloom ∧
  IndexManifest_validate m = Ok tt.
Proof.
  destruct (rebuild_config_spec dimension metric fs ids mn mx imn imx graph) as (Heq & Hok & _). split.
  - intros (c & ->%Heq & Hm%map_err_ok)%bind_ok. unfold IndexManifest_new in Hm.
    apply bind_ok in Hm as ([] & Hv & Hm). by apply Ok_inj in Hm as <-.
  - intros [-> Hv]. rewrite Hok; [|by apply manifest_validate_inv in Hv as [? _]]. cbn [mbind result_bind].
    unfold IndexManifest_new. by rewrite Hv.
Qed.
Lemma rebuild_manifest_total lifecycle id dimension metric fs ids mn mx imn imx graph seed bloom :
  ok_or_corrupt (rebuild_config dimension metric fs ids mn mx imn imx graph ≫= λ config,
    map_err Corruption (IndexManifest_new lifecycle id config seed bloom)).
Proof.
  apply ok_or_corrupt_bind; [apply rebuild_config_spec|]. intros c _. apply map_err_corrupt.
  apply bind_no_panic; [apply manifest_validate_no_panic|done].
Qed.

(** ** Field schemas *)
Definition synopsis_ok (v : SynopsisConfig.t * option BloomParameters) : Prop :=
  match v with
  | (SynopsisConfig.MinMax, None) => True
  | (SynopsisConfig.MinMaxBloom d r, Some b) =>
      1 ≤ d < 2 ^ 32 ∧ u64_ok r ∧ F64.canonical r = true ∧
      BloomParameters_new (bp_bit_count b) (bp_hash_count b) = Ok b ∧
      u32_ok (bp_bit_count b) ∧ byte_ok (bp_hash_count b)
  | _ => False
  end.
Definition synopsis_body (v : SynopsisConfig.t * option BloomParameters) : list Z :=
  match v with
  | (SynopsisConfig.MinMaxBloom d r, Some b) =>
      1 :: be_bytes 4 d ++ be_bytes 8 r ++ be_bytes 4 (bp_bit_count b) ++ [bp_hash_count b]
  | _ => [0]
  end.
Definition schema_entry_ok (v : FieldSchema * option BloomParameters) : Prop :=
  field_typed v.1 ∧ synopsis_ok (fs_synopsis v.1, v.2).
Definition schema_entry_body (v : FieldSchema * option BloomParameters) : list Z :=
  (len (fs_name v.1) :: fs_name v.1) ++ [encode_data_type (fs_data_type v.1)] ++
  [if fs_nullable v.1 then 1 else 0] ++ synopsis_body (fs_synopsis v.1, v.2).

Lemma bloom_new_total b h : ok_or_corrupt (map_err Corruption (BloomParameters_new b h)).
Proof. apply map_err_corrupt. unfold BloomParameters_new. by case_match. Qed.
Lemma bloom_new_ok b h p : BloomParameters_new b h = Ok p → p = mkBloom b h.
Proof. unfold BloomParameters_new. case_match; [done|]. by intros [= <-]. Qed.

Lemma decode_bloom_spec :
  parses
    (dlet expected_distinct := Decoder_u32 in
     dlet expected_distinct := dec_lift (if expected_distinct =? 0 then Err Corruption else Ok expected_distinct) in
     dlet false_positive_rate := Decoder_canonical_f64 in
     dlet bit_count := Decoder_u32 in
     dlet hash_count := Decoder_u8 in
     dlet bloom := dec_lift (map_err Corruption (BloomParameters_new bit_count hash_count)) in
     dec_ret (SynopsisConfig.MinMaxBloom expected_distinct false_positive_rate, Some bloom))
    (λ v body, synopsis_ok v ∧ 1 :: body = synopsis_body v).
Proof.
  eapply parses_ext.
  - eapply parses_bind; [apply u32_spec|intros d ? _ _]. eapply parses_bind; [apply parses_lift, lift_if_total|intros d' ? _ _].
    eapply parses_bind; [apply canonical_f64_spec|intros r ? _ _]. eapply parses_bind; [apply u32_spec|intros b ? _ _].
    eapply parses_bind; [apply u8_spec|intros h ? _ _].
    eapply parses_bind; [apply parses_lift, bloom_new_total|intros p ? _ _]. apply parses_ret.
  - intros [s p] body _. unfold u32_ok. split.
    + intros (d & b1 & ? & [Hd ->] & (d' & b2 & ? & [Hd' ->] & (r & b3 & ? & (Hr & Hc & ->) &
        (b & b4 & ? & [Hb ->] & (h & b5 & ? & [Hh ->] & (q & b6 & b7 & [Hq%map_err_ok ->] & [[= -> ->] ->] & ->) & ->) & ->) & ->) & ->) & ->).
      destruct (Z.eqb_spec d 0); [done|]. apply Ok_inj in Hd' as <-. pose proof (bloom_new_ok _ _ _ Hq) as ->.
      cbn [synopsis_ok synopsis_body bp_bit_count bp_hash_count app]. rewrite ?app_nil_r. split_and!; done || lia.
    + intros [Hok E]. destruct s as [|d r], p as [[b h]|]; try done. cbn in Hok.
      destruct Hok as (Hd & Hr & Hc & Hq & Hb & Hh). cbn [synopsis_body] in E. injection E as ->. cbn.
      exists d, (be_bytes 4 d), (be_bytes 8 r ++ be_bytes 4 b ++ [h]). split; [split; [lia|done]|]. split; [|done].
      exists d, [], (be_bytes 8 r ++ be_bytes 4 b ++ [h]). rewrite (proj2 (Z.eqb_neq d 0)) by lia. split; [done|]. split; [|done].
      exists r, (be_bytes 8 r), (be_bytes 4 b ++ [h]). split; [done|]. split; [|done].
      exists b, (be_bytes 4 b), [h]. split; [done|]. split; [|done].
      exists h, [h], []. split; [done|]. split; [|done].
      exists (mkBloom b h), [], []. split; [by rewrite Hq|]. done.
Qed.
Lemma decode_synopsis_config_spec :
  parses decode_synopsis_config (λ v body, synopsis_ok v ∧ body = synopsis_body v).
Proof.
  unfold decode_synopsis_config. eapply parses_ext.
  - apply (parses_bind _ _ _ (λ tag v rest, synopsis_ok v ∧ tag :: rest = synopsis_body v) u8_spec).
    intros tag body _ _. destruct (Z.eqb_spec tag 0) as [->|N0].
    { eapply parses_ext; [apply parses_ret|]. intros [[|d r] [b|]] rest _; split; naive_solver. }
    destruct (Z.eqb_spec tag 1) as [->|N1]; [apply decode_bloom_spec|].
    apply parses_never. intros [[|d r] [b|]] rest _ [Hok E]; try done; cbn in E; injection E as -> _; done.
  - intros v body _. split.
    + by intros (tag & b1 & b2 & [_ ->] & [Hok <-] & ->).
    + intros [Hok ->]. destruct v as [[|d r] [b|]]; try done.
      * by exists 0, [0], [].
      * exists 1, [1], (be_bytes 4 d ++ be_bytes 8 r ++ be_bytes 4 (bp_bit_count b) ++ [bp_hash_count b]). done.
Qed.

Ltac solve_tag :=
  intros t a; repeat case_match; bprop; destruct a; cbn; (split; intros; [congruence|]); try congruence; try lia.
Lemma data_type_spec :
  parses (dlet tag := Decoder_u8 in dec_lift (decode_data_type tag)) (λ a body, True ∧ body = [encode_data_type a]).
Proof.
  apply parses_tag; [by intros []|..]; unfold decode_data_type.
  - solve_tag.
  - intros t. repeat case_match; auto with ktann.
Qed.
Lemma metric_spec :
  parses (dlet tag := Decoder_u8 in dec_lift (decode_metric tag)) (λ a body, True ∧ body = [encode_metric a]).
Proof.
  apply parses_tag; [by intros []|..]; unfold decode_metric.
  - solve_tag.
  - intros t. repeat case_match; auto with ktann.
Qed.
Lemma lifecycle_spec :
  parses (dlet tag := Decoder_u8 in dec_lift (decode_lifecycle tag)) (λ a body, True ∧ body = [encode_lifecycle a]).
Proof.
  apply parses_tag; [by intros []|..]; unfold decode_lifecycle.
  - solve_tag.
  - intros t. repeat case_match; auto with ktann.
Qed.

Lemma with_synopsis_ok f s f' :
  FieldSchema_with_synopsis f s = Ok f' ↔
  SynopsisConfig_validate s = Ok tt ∧ f' = mkFieldSchema (fs_name f) (fs_data_type f) (fs_nullable f) s.
Proof. unfold FieldSchema_with_synopsis. destruct (SynopsisConfig_validate s) as [[]| |]; cbn; naive_solver. Qed.
Lemma synopsis_validate_total s : no_panic (SynopsisConfig_validate s).
Proof. destruct s; cbn; [done|]. by case_match. Qed.

Lemma decode_schema_field_spec :
  parses decode_schema_field (λ v body, schema_entry_ok v ∧ body = schema_entry_body v).
Proof.
  unfold decode_schema_field, schema_entry_body.
  eapply (parses_step _ _ (λ n, bytes_ok n ∧ len n < 256) (λ n, len n :: n) (λ v, fs_name v.1)).
  { eapply parses_ext; [apply sized_u8_bytes_spec|]. naive_solver. }
  { intros [f p] [([Hn _] & Hl & _) _]. cbn in *. unfold MAX_FIELD_NAME_BYTES in *. split; [done|lia]. }
  intros name [Hname Hlen]. apply parses_lift_step; [auto with ktann| |].
  { intros [f p] [[([_ Hu] & _) _] <-]. cbn in *. rewrite Hu. by eexists. }
  intros name' E. destruct (utf8_valid name) eqn:Hu; [|done]. apply Ok_inj in E as <-.
  eapply (parses_step _ _ (λ _, True) (λ ty, [encode_data_type ty]) (λ v, fs_data_type v.1)); [apply data_type_spec|done|].
  intros ty _.
  eapply (parses_step _ _ (λ _, True) (λ b : bool, [if b then 1 else 0]) (λ v, fs_nullable v.1)).
  { eapply parses_ext; [apply bool_spec|]. naive_solver. }
  { done. }
  intros nullable _.
  apply (parses_last _ _ synopsis_ok synopsis_body (λ v : FieldSchema * option BloomParameters, (fs_synopsis v.1, v.2)));
    [apply decode_synopsis_config_spec|..].
  { by intros [f p] [[[[_ Hs] _] _] _]. }
  intros [s p] Hs. cbn [fst snd].
  apply parses_lift_step; [apply map_err_corrupt; unfold FieldSchema_new; by case_match| |].
  { intros [f q] [[[[[(_ & Hl & _) _] En] _] _] _]. cbn in *. rewrite En in Hl. unfold FieldSchema_new.
    rewrite (proj2 (Z.eqb_neq _ _)), (proj2 (Z.ltb_ge _ _)) by lia. by eexists. }
  intros f0 E%map_err_ok. unfold FieldSchema_new in E. destruct (_ || _) eqn:El; [done|]. apply Ok_inj in E as <-.
  bprop. pose proof (len_nonneg name).
  set (f1 := if nullable then _ else _).
  assert (f1 = mkFieldSchema name ty nullable SynopsisConfig.MinMax) as -> by (unfold f1; by destruct nullable).
  apply parses_lift_step.
  { apply map_err_corrupt. apply bind_no_panic; [apply synopsis_validate_total|done]. }
  { intros [f q] [[[[[(_ & _ & _ & Hv) _] _] _] _] E]. cbn in *. injection E as <- _.
    eexists. apply map_err_ok, with_synopsis_ok. done. }
  intros f2 [Hv ->]%map_err_ok%with_synopsis_ok. cbn [fs_name fs_data_type fs_nullable].
  apply parses_done. intros [[fn fty fnull fsyn] q]. cbn. split.
  - intros [[[[_ ->] ->] ->] [= -> ->]]. done.
  - intros [= -> -> -> -> ->]. split_and!; try done. split; [|done]. unfold field_typed. cbn.
    unfold MAX_FIELD_NAME_BYTES in *. split_and!; try done; try lia. destruct s as [|d r]; [done|].
    destruct p; [|done]. cbn in Hs. tauto.
Qed.

(** ** The manifest body *)
Lemma decode_schema_loop_spec n :
  parses (decode_schema_loop n)
    (λ l body, (Forall schema_entry_ok l ∧ length l = n) ∧ body = concat (schema_entry_body <$> l)).
Proof.
  induction n as [|n IH]; cbn [decode_schema_loop].
  { eapply parses_ext; [apply parses_ret|]. intros l body _. split; [by intros [-> ->]|].
    intros [[_ Hl] ->]. by destruct l. }
  eapply parses_ext.
  - eapply parses_bind; [apply decode_schema_field_spec|intros f ? _ _].
    eapply parses_bind; [exact IH|intros l ? _ _]. apply parses_ret.
  - intros l body _. split.
    + intros (f & b1 & ? & [Hf ->] & (l' & b2 & b3 & [[Hl Hn] ->] & [-> ->] & ->) & ->).
      rewrite fmap_cons, concat_cons, app_nil_r. split; [|done]. split; [by constructor|cbn; lia].
    + intros [[Hl Hn] ->]. destruct l as [|f l]; [done|]. apply Forall_cons_iff in Hl as [Hf Hl].
      rewrite fmap_cons, concat_cons. exists f, (schema_entry_body f), (concat (schema_entry_body <$> l)).
      split; [done|]. split; [|done]. exists l, (concat (schema_entry_body <$> l)), []. rewrite app_nil_r.
      split_and!; try done. cbn in Hn. lia.
Qed.
Lemma decode_ids_loop_spec n :
  parses (decode_ids_loop n) (λ l body, (Forall u16_ok l ∧ length l = n) ∧ body = concat (be_bytes 2 <$> l)).
Proof.
  induction n as [|n IH]; cbn [decode_ids_loop].
  { eapply parses_ext; [apply parses_ret|]. intros l body _. split; [by intros [-> ->]|].
    intros [[_ Hl] ->]. by destruct l. }
  eapply parses_ext.
  - eapply parses_bind; [apply u16_spec|intros f ? _ _].
    eapply parses_bind; [exact IH|intros l ? _ _]. apply parses_ret.
  - intros l body _. split.
    + intros (f & b1 & ? & [Hf ->] & (l' & b2 & b3 & [[Hl Hn] ->] & [-> ->] & ->) & ->).
      rewrite fmap_cons, concat_cons, app_nil_r. split; [|done]. split; [by constructor|cbn; lia].
    + intros [[Hl Hn] ->]. destruct l as [|f l]; [done|]. apply Forall_cons_iff in Hl as [Hf Hl].
      rewrite fmap_cons, concat_cons. exists f, (be_bytes 2 f), (concat (be_bytes 2 <$> l)).
      split; [done|]. split; [|done]. exists l, (concat (be_bytes 2 <$> l)), []. rewrite app_nil_r.
      split_and!; try done. cbn in Hn. lia.
Qed.

Definition graph_body (g : option LocalGraphConfig) : list Z :=
  match g with
  | None => [0]
  | Some g => [1] ++ be_bytes 4 (gc_m g) ++ be_bytes 4 (gc_ef_construction g) ++ gc_seed g
  end.
Definition graph_ok (g : option LocalGraphConfig) : Prop := ∀ x, g = Some x → graph_typed x.

Lemma graph_new_ok m ef seed g : LocalGraphConfig_new m ef seed = Ok g → g = mkGraphConfig m ef seed.
Proof. unfold LocalGraphConfig_new. case_match; [done|]. by intros [= <-]. Qed.
Lemma decode_graph_spec : parses decode_graph (λ g body, graph_ok g ∧ body = graph_body g).
Proof.
  unfold decode_graph. eapply parses_ext.
  - apply (parses_bind _ _ _ (λ tag g rest, graph_ok g ∧ tag :: rest = graph_body g) u8_spec).
    intros tag body _ _. destruct (Z.eqb_spec tag 0) as [->|N0].
    { eapply parses_ext; [apply parses_ret|]. intros [g|] rest _; cbn; split.
      - by intros [[=] _].
      - by intros [_ [=]].
      - intros [_ ->]. split; [|done]. by intros x [=].
      - by intros [_ [= ->]]. }
    destruct (Z.eqb_spec tag 1) as [->|N1].
    2: { apply parses_never. intros [g|] rest _ [Hok E]; cbn in E; injection E as -> _; done. }
    eapply parses_ext.
    + eapply parses_bind; [apply u32_spec|intros m ? _ _]. eapply parses_bind; [apply u32_spec|intros ef ? _ _].
      eapply parses_bind; [apply array_spec; lia|intros seed ? _ _].
      eapply parses_bind; [apply parses_lift, map_err_corrupt; unfold LocalGraphConfig_new; by case_match|intros g ? _ _].
      apply parses_ret.
    + intros g rest _. split.
      * intros (m & b1 & ? & [Hm ->] & (ef & b2 & ? & [He ->] & (seed & b3 & ? & (Hs & Hl & ->) &
          (g' & b4 & b5 & [Hg%map_err_ok ->] & [-> ->] & ->) & ->) & ->) & ->).
        pose proof (graph_new_ok _ _ _ _ Hg) as ->. cbn [app graph_body gc_m gc_ef_construction gc_seed].
        rewrite app_nil_r. split; [|done]. intros x [= <-]. by split_and!.
      * intros [Hok E]. destruct g as [[m ef seed]|]; [|done]. cbn in E. injection E as ->.
        destruct (Hok _ eq_refl) as (Hm & He & Hs & Hl & Hg). cbn in *.
        exists m, (be_bytes 4 m), (be_bytes 4 ef ++ seed). split; [done|]. split; [|done].
        exists ef, (be_bytes 4 ef), seed. split; [done|]. split; [|done].
        exists seed, seed, []. split; [done|]. rewrite app_nil_r. split; [|done].
        exists (mkGraphConfig m ef seed), [], []. by rewrite Hg.
  - intros g body _. split.
    + by intros (tag & b1 & b2 & [_ ->] & [Hok <-] & ->).
    + intros [Hok ->]. destruct g as [g|]; [by exists 1, [1], (be_bytes 4 (gc_m g) ++ be_bytes 4 (gc_ef_construction g) ++ gc_seed g)|].
      by exists 0, [0], [].
Qed.

(** ** Whole manifests *)
Definition manifest_valid (m : IndexManifest) : Prop :=
  manifest_typed m ∧ IndexManifest_validate m = Ok tt.
Definition manifest_entries (m : IndexManifest) : list (FieldSchema * option BloomParameters) :=
  zip (fields m) (im_bloom_parameters m).
Definition manifest_tail (m : IndexManifest) : list Z :=
  let c := im_config m in
  be_bytes 4 (ic_min_leaf_partition_entries c) ++ be_bytes 4 (ic_max_leaf_partition_entries c) ++
  be_bytes 4 (ic_min_internal_partition_entries c) ++ be_bytes 4 (ic_max_internal_partition_entries c) ++
  graph_body (ic_graph c) ++ im_rotation_seed m.
Definition manifest_body (m : IndexManifest) : list Z :=
  let c := im_config m in
  [encode_lifecycle (im_lifecycle m)] ++ be_bytes 8 (im_logical_index_id m) ++
  be_bytes 4 (dimension m) ++ [encode_metric (ic_metric c)] ++
  be_bytes 2 (len (fields m)) ++ concat (schema_entry_body <$> manifest_entries m) ++
  be_bytes 2 (len (ic_tree_key_fields c)) ++ concat (be_bytes 2 <$> ic_tree_key_fields c) ++
  manifest_tail m.

Lemma derived_synopsis_ok f p :
  field_typed f → BloomParameters_derive (fs_synopsis f) = Ok p → synopsis_ok (fs_synopsis f, p).
Proof.
  intros (_ & _ & Hs & Hv) Hd. destruct (fs_synopsis f) as [|d r]; [by injection Hd as <-|].
  destruct p as [b|].
  2: { unfold BloomParameters_derive in Hd. apply bind_ok in Hd as (shape & Hshape & Hd).
       destruct (bloom_shape_spec (SynopsisConfig.MinMaxBloom d r)) as [E|[[? _]|(? & ? & bits & _ & _ & E & _)]];
         [congruence|done|]. rewrite E in Hshape. apply Ok_inj in Hshape as <-.
       by apply bind_ok in Hd as (? & _ & ?). }
  apply bloom_derive_ok in Hd as (Hnew & Hbits & Hh). cbn. rewrite Hh in *. split_and!; try done; try lia; [apply Hs|].
  destruct Hs as [_ Hr]. unfold SynopsisConfig_validate in Hv. destruct (_ && _) eqn:E; [|done].
  unfold F64.cmp, F64.canonical, F64.is_zero, F64.value_key in *. rewrite andb_true_iff, andb_true_iff in E.
  destruct E as [[-> Hgt] _]. rewrite f64_magnitude in * by done.
  change (F64.sign_negative 0) with false in Hgt. cbn match in Hgt.
  replace (F64.magnitude 0) with 0 in Hgt by done.
  destruct (F64.sign_negative r) eqn:Es; [|by rewrite andb_false_r].
  unfold F64.sign_negative, u64_ok in *. bprop. destruct (Z.compare_spec (- (r - 2 ^ 63)) 0); [done|done|lia].
Qed.
Lemma manifest_counts m :
  manifest_valid m →
  1 ≤ dimension m ≤ MAX_DIMENSION ∧ len (fields m) ≤ MAX_FIELDS ∧
  len (ic_tree_key_fields (im_config m)) ≤ len (fields m) ∧
  length (im_bloom_parameters m) = length (fields m) ∧ Forall schema_entry_ok (manifest_entries m).
Proof.
  intros [(_ & (Hf & Hids & _) & _) (Hc & Hl & Hb & _)%manifest_validate_inv].
  pose proof (config_validate_inv _ Hc) as (Hd & Hs & Ht & _). split_and!; try done; try apply Hd.
  - unfold validate_schema in Hs. destruct (MAX_FIELDS <? _) eqn:E; [done|]. by apply Z.ltb_ge in E.
  - unfold validate_tree_key_fields in Ht. apply bind_ok in Ht as (total & (Hnd & _ & Hall & _)%tree_fields_loop_spec & _).
    apply distinct_ids_len; [done|done|]. eapply Forall_impl; [|exact Hall]. intros id (f & ? & _). by exists f.
  - unfold manifest_entries, fields in *. clear -Hf Hb. induction Hb as [|f p fs ps Hfp _ IH]; cbn; [constructor|].
    apply Forall_cons_iff in Hf as [Hf ?]. constructor; [|by apply IH]. split; [done|]. by apply derived_synopsis_ok.
Qed.

(** What precedes the tail. *)
Definition manifest_head (m : IndexManifest) :=
  (im_lifecycle m, im_logical_index_id m, dimension m, ic_metric (im_config m),
   manifest_entries m, ic_tree_key_fields (im_config m)).

Lemma entries_split m :
  manifest_valid m → fst <$> manifest_entries m = fields m ∧ snd <$> manifest_entries m = im_bloom_parameters m.
Proof.
  intros (_ & _ & _ & Hl & _)%manifest_counts. unfold manifest_entries. split; [apply fst_zip|apply snd_zip]; lia.
Qed.
Lemma decode_manifest_tail_spec lifecycle id dim metric schema ids :
  id_ok id → Forall schema_entry_ok schema → Forall u16_ok ids →
  parses (decode_manifest_tail lifecycle id dim metric schema ids)
    (λ m body, (manifest_valid m ∧ manifest_head m = (lifecycle, id, dim, metric, schema, ids)) ∧ body = manifest_tail m).
Proof.
  intros Hid Hschema Hids. unfold decode_manifest_tail, manifest_tail.
  apply (parses_step _ _ u32_ok (be_bytes 4) (λ m, ic_min_leaf_partition_entries (im_config m))); [apply u32_spec| |].
  { by intros m [[(_ & (_ & _ & ? & _) & _) _] _]. }
  intros mn Hmn.
  apply (parses_step _ _ u32_ok (be_bytes 4) (λ m, ic_max_leaf_partition_entries (im_config m))); [apply u32_spec| |].
  { by intros m [[[(_ & (_ & _ & _ & ? & _) & _) _] _] _]. }
  intros mx Hmx.
  apply (parses_step _ _ u32_ok (be_bytes 4) (λ m, ic_min_internal_partition_entries (im_config m))); [apply u32_spec| |].
  { by intros m [[[[(_ & (_ & _ & _ & _ & ? & _) & _) _] _] _] _]. }
  intros imn Himn.
  apply (parses_step _ _ u32_ok (be_bytes 4) (λ m, ic_max_internal_partition_entries (im_config m))); [apply u32_spec| |].
  { by intros m [[[[[(_ & (_ & _ & _ & _ & _ & ? & _) & _) _] _] _] _] _]. }
  intros imx Himx.
  apply (parses_step _ _ graph_ok graph_body (λ m, ic_graph (im_config m))); [apply decode_graph_spec| |].
  { by intros m [[[[[[(_ & (_ & _ & _ & _ & _ & _ & ?) & _) _] _] _] _] _] _]. }
  intros graph Hgraph.
  apply (parses_last _ _ (λ s, bytes_ok s ∧ len s = ROTATION_SEED_BYTES) (λ s, s) im_rotation_seed).
  { eapply parses_ext; [by apply array_spec|]. naive_solver. }
  { by intros m [[[[[[[(_ & _ & ? & ?) _] _] _] _] _] _] _]. }
  intros seed [Hseed Hslen]. apply parses_end; [apply rebuild_manifest_total|].
  intros m. rewrite rebuild_manifest_ok. split.
  - intros [-> Hv]. unfold manifest_valid, manifest_head, manifest_entries, fields, dimension. cbn.
    assert (Forall field_typed (fst <$> schema)).
    { rewrite Forall_fmap. eapply Forall_impl; [|exact Hschema]. by intros f [? _]. }
    rewrite zip_fst_snd. unfold manifest_typed, config_typed. cbn. by split_and!.
  - intros [[[[[[[Hm [= <- <- <- <- <- <-]] <-] <-] <-] <-] <-] <-].
    destruct (entries_split m Hm) as [-> ->]. destruct Hm as [_ Hv]. split; [|done]. by destruct m as [? ? [] ? ?].
Qed.
Lemma decode_manifest_body_spec :
  parses decode_manifest_body (λ m body, manifest_valid m ∧ body = manifest_body m).
Proof.
  unfold decode_manifest_body, manifest_body.
  apply (parses_step _ _ (λ _, True) (λ l, [encode_lifecycle l]) im_lifecycle); [apply lifecycle_spec|done|].
  intros lifecycle _.
  apply (parses_step _ _ id_ok (be_bytes 8) im_logical_index_id); [apply logical_index_id_spec|by intros m [[[? _] _] _]|].
  intros id Hid.
  apply (parses_step _ _ u32_ok (be_bytes 4) dimension); [apply u32_spec| |].
  { intros m [[Hm _] _]. pose proof (manifest_counts m Hm). unfold u32_ok, MAX_DIMENSION in *. lia. }
  intros dim Hdim.
  apply (parses_step _ _ (λ _, True) (λ l, [encode_metric l]) (λ m, ic_metric (im_config m))); [apply metric_spec|done|].
  intros metric _.
  apply (parses_step _ _ u16_ok (be_bytes 2) (λ m, len (fields m))); [apply u16_spec| |].
  { intros m [[[[Hm _] _] _] _]. pose proof (manifest_counts m Hm). pose proof (len_nonneg (fields m)).
    unfold u16_ok, MAX_FIELDS in *. lia. }
  intros n Hn. apply parses_unless.
  { intros m [[[[[Hm _] _] _] _] <-]. pose proof (manifest_counts m Hm). apply Z.ltb_ge. tauto. }
  apply (parses_step _ _ (λ l, Forall schema_entry_ok l ∧ length l = Z.to_nat n) (λ l, concat (schema_entry_body <$> l)) manifest_entries);
    [apply decode_schema_loop_spec| |].
  { intros m [[[[[Hm _] _] _] _] <-]. pose proof (manifest_counts m Hm) as (_ & _ & _ & Hl & Hf). split; [done|].
    unfold manifest_entries. rewrite length_zip_with. unfold len. lia. }
  intros schema Hschema.
  apply (parses_step _ _ u16_ok (be_bytes 2) (λ m, len (ic_tree_key_fields (im_config m)))); [apply u16_spec| |].
  { intros m [[[[[[Hm _] _] _] _] <-] _]. pose proof (manifest_counts m Hm).
    pose proof (len_nonneg (ic_tree_key_fields (im_config m))). unfold u16_ok, MAX_FIELDS in *. lia. }
  intros k Hk. apply parses_unless.
  { intros m [[[[[[[Hm _] _] _] _] <-] _] <-]. pose proof (manifest_counts m Hm). apply Z.ltb_ge. tauto. }
  apply (parses_step _ _ (λ l, Forall u16_ok l ∧ length l = Z.to_nat k) (λ l, concat (be_bytes 2 <$> l)) (λ m, ic_tree_key_fields (im_config m)));
    [apply decode_ids_loop_spec| |].
  { intros m [[[[[[[[(_ & (_ & ? & _) & _) _] _] _] _] _] _] _] <-]. split; [done|]. unfold len. lia. }
  intros ids [Hids Hidl]. destruct Hschema as [Hschema Hsl].
  eapply parses_ext; [by apply decode_manifest_tail_spec|].
  intros m body _. unfold manifest_head. split.
  - intros [[Hm [= <- <- <- <- <- <-]] ->]. split; [|done].
    pose proof (f_equal length (proj1 (entries_split m Hm))) as E. rewrite length_fmap, Hsl in E.
    unfold u16_ok, len in *. split_and!; try done; lia.
  - intros [[[[[[[[[Hm <-] <-] <-] <-] _] <-] _] <-] ->]. done.
Qed.


(** ** Encoding *)
Lemma encode_schema_field_ok v e :
  schema_entry_ok v → encode_schema_field v.1 v.2 e = Ok (e ++ schema_entry_body v).
Proof.
  destruct v as [[name ty nullable s] p]. intros [((Hb & _) & Hl & _) Hs]. cbn in Hb, Hl, Hs.
  unfold encode_schema_field, schema_entry_body, Encoder_sized_u8_bytes, Encoder_bool, Encoder_u8, Encoder_bytes. cbn.
  unfold MAX_FIELD_NAME_BYTES in Hl. rewrite (proj2 (try_from_usize_ok 8 (len name) (len name))) by (split; [lia|done]).
  cbn [mbind result_bind]. destruct s as [|d r], p as [b|]; try done; cbn.
  { by rewrite <-!app_assoc. }
  destruct Hs as (_ & Hr & Hc & _). unfold Encoder_f64, canonical_f64_bits, Encoder_u32, Encoder_u64.
  pose proof (f64_canonicalize_id r Hr Hc) as E. unfold f64_canonicalize in E. rewrite E.
  unfold F64.canonical in Hc. apply andb_true_iff in Hc as [-> _]. cbn. by rewrite <-!app_assoc.
Qed.
Lemma encode_schema_loop_ok fs ps e :
  length ps = length fs → Forall schema_entry_ok (zip fs ps) →
  encode_schema_loop fs ps e = Ok (e ++ concat (schema_entry_body <$> zip fs ps)).
Proof.
  revert ps e. induction fs as [|f fs IH]; intros [|p ps] e Hl H; try done; cbn.
  { by rewrite app_nil_r. }
  apply Forall_cons_iff in H as [H Hs]. pose proof (encode_schema_field_ok (f, p) e H) as E. cbn in E. rewrite E.
  cbn. rewrite IH by (done || (injection Hl as ?; done)). by rewrite <-app_assoc.
Qed.
Lemma foldl_ids_ok ids e :
  foldl (λ e field, Encoder_u16 field e) e ids = e ++ concat (be_bytes 2 <$> ids).
Proof.
  revert e. induction ids as [|id ids IH]; intros e; cbn; [by rewrite app_nil_r|]. rewrite IH.
  unfold Encoder_u16. by rewrite <-app_assoc.
Qed.
Lemma encode_graph_ok g e : encode_graph g e = e ++ graph_body g.
Proof.
  destruct g; [|done]. unfold encode_graph, graph_body, Encoder_bytes, Encoder_u32, Encoder_u8.
  by rewrite <-!app_assoc.
Qed.
Lemma encode_manifest_ok m e :
  manifest_valid m → encode_index_manifest m e = Ok (e ++ be_bytes 2 FORMAT_VERSION ++ manifest_body m).
Proof.
  intros Hm. pose proof (manifest_counts m Hm) as (Hd & Hf & Hids & Hl & Hs).
  unfold MAX_DIMENSION, MAX_FIELDS in *. unfold encode_index_manifest. fold (dimension m) (fields m).
  do 3 (rewrite (proj2 (try_from_usize_ok _ _ _)) by (split; [|reflexivity]; lia); cbn [mbind result_bind];
    rewrite ?encode_schema_loop_ok by done; cbn [mbind result_bind]).
  rewrite encode_graph_ok, foldl_ids_ok. unfold Encoder_bytes, Encoder_u8, Encoder_u16, Encoder_u32, Encoder_u64.
  unfold manifest_body, manifest_tail, manifest_entries. by rewrite <-!app_assoc.
Qed.

Lemma schema_entry_bytes v :
  schema_entry_ok v → bytes_ok (schema_entry_body v) ∧ len (schema_entry_body v) ≤ 300.
Proof.
  destruct v as [[name ty nullable s] p]. intros [((Hb & _) & Hl & _) Hs]. cbn in Hb, Hl, Hs.
  unfold MAX_FIELD_NAME_BYTES in Hl. unfold schema_entry_body. cbn [fst snd fs_name fs_data_type fs_nullable fs_synopsis].
  assert (bytes_ok (synopsis_body (s, p)) ∧ len (synopsis_body (s, p)) ≤ 18) as [Hsb Hsl].
  { destruct s as [|d r], p as [b|]; try done; cbn in Hs; [split; [by repeat constructor|done]|].
    destruct Hs as (_ & _ & _ & _ & _ & Hh). cbn [synopsis_body]. split.
    - solve_bytes.
    - by rewrite len_cons, !len_app, !len_be_bytes. }
  split.
  - solve_bytes; [unfold byte_ok; lia|by destruct ty|by destruct nullable].
  - rewrite !len_app, !len_cons, !len_nil. lia.
Qed.
Lemma concat_bytes {A} (f : A → list Z) (P : A → Prop) bound l :
  (∀ a, P a → bytes_ok (f a) ∧ len (f a) ≤ bound) → Forall P l →
  bytes_ok (concat (f <$> l)) ∧ len (concat (f <$> l)) ≤ bound * len l.
Proof.
  intros Hf. induction 1 as [|a l Ha _ [IHb IHl]]; [split; [apply bytes_ok_nil|unfold len; cbn; lia]|].
  rewrite fmap_cons, concat_cons, len_app, len_cons. destruct (Hf a Ha). split; [by apply Forall_app|lia].
Qed.
Lemma manifest_body_bytes m :
  manifest_valid m → bytes_ok (manifest_body m) ∧ len (manifest_body m) ≤ 8192.
Proof.
  intros Hm. pose proof (manifest_counts m Hm) as (Hd & Hf & Hids & Hl & Hs).
  destruct Hm as [(_ & (_ & Hu & _ & _ & _ & _ & Hg) & Hseed & Hsl) _].
  pose proof (concat_bytes schema_entry_body _ 300 _ schema_entry_bytes Hs) as [Hsb Hsn].
  destruct (concat_bytes (be_bytes 2) u16_ok 2 (ic_tree_key_fields (im_config m))) as [Hib Hin]; [|done|].
  { intros a _. split; [apply be_bytes_ok|by rewrite len_be_bytes]. }
  assert (bytes_ok (graph_body (ic_graph (im_config m))) ∧ len (graph_body (ic_graph (im_config m))) ≤ 41) as [Hgb Hgl].
  { destruct (ic_graph (im_config m)) as [g|]; [|cbn [graph_body]; by split; [solve_bytes|]].
    destruct (Hg g eq_refl) as (_ & _ & Hgs & Hgn & _). cbn [graph_body]. split.
    - solve_bytes.
    - rewrite !len_app, !len_be_bytes, Hgn. done. }
  unfold manifest_body, manifest_tail, MAX_FIELDS in *. split.
  - solve_bytes; [by destruct (im_lifecycle m)|by destruct (ic_metric (im_config m))].
  - assert (len (manifest_entries m) = len (fields m)) as El.
    { unfold manifest_entries, len. rewrite length_zip_with. lia. }
    unfold ROTATION_SEED_BYTES in *. rewrite !len_app, !len_be_bytes, !len_cons, len_nil. lia.
Qed.

(** ** Framing *)
Definition encode_manifest_value (m : IndexManifest) : result (list Z) :=
  encode_index_manifest m (Encoder_new TAG_INDEX_MANIFEST) ≫= Encoder_finish.
Definition decode_manifest_value (bytes : list Z) : result IndexManifest :=
  decode_framed TAG_INDEX_MANIFEST decode_index_manifest bytes.

(** The decoder with its version error flattened to [Corruption]. *)
Definition decode_manifest_flat : Dec IndexManifest :=
  dlet format_version := Decoder_u16 in
  if negb (format_version =? FORMAT_VERSION) then dec_lift (Err Corruption)
  else decode_manifest_body.
Lemma decode_manifest_flat_spec :
  parses decode_manifest_flat
    (λ m body, manifest_valid m ∧ body = be_bytes 2 FORMAT_VERSION ++ manifest_body m).
Proof.
  unfold decode_manifest_flat.
  apply (parses_step _ _ u16_ok (be_bytes 2) (λ _, FORMAT_VERSION)); [apply u16_spec|done|].
  intros v _. destruct (Z.eqb_spec v FORMAT_VERSION) as [->|N]; cbn [negb].
  - eapply parses_ext; [apply decode_manifest_body_spec|]. naive_solver.
  - apply parses_never. by intros m body _ [[_ <-] _].
Qed.
Definition manifest_family : ValueFamily IndexManifest.
Proof.
  refine {|
    vf_tag := TAG_INDEX_MANIFEST; vf_encode := encode_index_manifest; vf_decode := decode_manifest_flat;
    vf_typed := manifest_valid; vf_valid := λ _, True; vf_canonical := λ _, True;
    vf_body := λ m, be_bytes 2 FORMAT_VERSION ++ manifest_body m |}.
  - done.
  - intros m Hm _. apply manifest_body_bytes in Hm as [? _]. solve_bytes.
  - intros m Hm. unfold emits_at. rewrite encode_manifest_ok by done. split; [|by left; eexists].
    intros r. split; [|by intros [_ ->]]. intros E. by apply Ok_inj in E as <-.
  - eapply parses_ext; [apply decode_manifest_flat_spec|]. intros m body _. tauto.
Defined.

Lemma decode_manifest_flatten bytes :
  bytes_ok bytes →
  decode_manifest_value bytes = decode_family manifest_family bytes ∨
  decode_manifest_value bytes = Err UnsupportedFormat ∧ decode_family manifest_family bytes = Err Corruption ∧
  ∃ version rest, version ≠ FORMAT_VERSION ∧ bytes = TAG_INDEX_MANIFEST :: be_bytes 2 version ++ rest.
Proof.
  intros Hb.
  unfold decode_manifest_value, decode_family, decode_framed. cbn [vf_tag vf_decode manifest_family].
  destruct (Decoder_framed TAG_INDEX_MANIFEST bytes) as [d|e|] eqn:Ed; [|by left..]. cbn [mbind result_bind].
  unfold decode_index_manifest, decode_manifest_flat, dec_bind.
  destruct (Decoder_u16 d) as [[v d']|e|] eqn:Eu; [|by left..]. cbn [mbind result_bind].
  destruct (Z.eqb_spec v FORMAT_VERSION) as [|N]; cbn [negb]; [by left|]. right. split_and!; try done.
  unfold Decoder_framed in Ed. destruct bytes as [|t body]; [done|].
  destruct (_ || _) eqn:E; [done|]. apply Ok_inj in Ed as <-. bprop. destruct E as [Hl ->].
  assert (dec_ok (mkDecoder (TAG_INDEX_MANIFEST :: body) 1)) as Hd.
  { unfold dec_ok. cbn. rewrite len_cons in *. pose proof (len_nonneg body). split_and!; done || lia. }
  apply (u16_spec _ Hd) in Eu as (bs & rest & [_ ->] & Hr & _). exists v, rest. split; [done|]. by rewrite <-Hr.
Qed.

(** C28: Index Manifests round-trip canonically through their versioned frame:
    every manifest that a constructor can produce encodes, a byte string decodes
    to a manifest exactly when that manifest is valid and encodes to those very
    bytes, and a string that does not decode is reported as corrupt, or as an
    unsupported format when its version is not the current one. *)
Theorem index_manifest_roundtrip bytes m :
  bytes_ok bytes →
  (manifest_valid m → ∃ out, encode_manifest_value m = Ok out) ∧
  (decode_manifest_value bytes = Ok m ↔ manifest_valid m ∧ encode_manifest_value m = Ok bytes) ∧
  (decode_manifest_value bytes = Err UnsupportedFormat ∧
     (∃ version rest, version ≠ FORMAT_VERSION ∧ bytes = TAG_INDEX_MANIFEST :: be_bytes 2 version ++ rest) ∨
   ok_or_corrupt (decode_manifest_value bytes)).
Proof.
  intros Hb.
  assert (∀ v, manifest_valid v → encode_manifest_value v = Ok (TAG_INDEX_MANIFEST :: be_bytes 2 FORMAT_VERSION ++ manifest_body v)) as He.
  { intros v Hv. apply (encode_framed_ok manifest_family); [done|]. split_and!; try done. cbn [vf_tag vf_body manifest_family].
    apply manifest_body_bytes in Hv as [_ ?]. rewrite len_cons, len_app, len_be_bytes. unfold MAX_VALUE_BYTES. lia. }
  split_and!; [by eauto| |].
  - trans (decode_family manifest_family bytes = Ok m).
    { destruct (decode_manifest_flatten bytes Hb) as [->|(-> & -> & _)]; done. }
    rewrite decode_framed_ok by done. cbn [vf_tag vf_body vf_typed vf_valid vf_canonical manifest_family]. split.
    + intros (Hv & _ & _ & -> & _). split; [done|by apply He].
    + intros [Hv E]. apply (encode_framed_ok manifest_family) in E as (_ & -> & ?); done.
  - destruct (decode_manifest_flatten bytes Hb) as [->|(-> & _ & ?)]; [right|by left].
    by apply (decode_framed_total manifest_family).
Qed.


(** A manifest with a Bloom field (ten values at rate 1/2) and a Local Graph. *)
Definition codec_config : IndexConfig :=
  mkIndexConfig (Some (mkGraphConfig 8 32 (replicate 32 1))) 4 Metric.Cosine
    [mkFieldSchema [97] DataType.I64 false (SynopsisConfig.MinMaxBloom 10 0x3FE0000000000000);
     mkFieldSchema [98] DataType.String true SynopsisConfig.MinMax] [0] 16 64 128 16384.
Definition codec_manifest : IndexManifest :=
  mkManifest IndexLifecycle.Building 7 codec_config (replicate 32 0) [Some (mkBloom 20 1); None].
Definition codec_bytes : list Z :=
  TAG_INDEX_MANIFEST :: be_bytes 2 FORMAT_VERSION ++ manifest_body codec_manifest.

Lemma codec_manifest_typed : manifest_typed codec_manifest.
Proof.
  split; [dec_compute|]. split; [|split; dec_compute].
  split; [repeat constructor; vm_compute; intuition congruence|].
  do 5 (split; [dec_compute|]). intros g [= <-]. split_and!; first [reflexivity | dec_compute].
Qed.
Lemma index_manifest_roundtrip_witness :
  bytes_ok codec_bytes ∧
  ((manifest_valid codec_manifest → ∃ out, encode_manifest_value codec_manifest = Ok out) ∧
   (decode_manifest_value codec_bytes = Ok codec_manifest ↔
     manifest_valid codec_manifest ∧ encode_manifest_value codec_manifest = Ok codec_bytes) ∧
   (decode_manifest_value codec_bytes = Err UnsupportedFormat ∧
     (∃ version rest, version ≠ FORMAT_VERSION ∧ codec_bytes = TAG_INDEX_MANIFEST :: be_bytes 2 version ++ rest) ∨
   ok_or_corrupt (decode_manifest_value codec_bytes))) ∧
  decode_manifest_value codec_bytes = Ok codec_manifest.
Proof.
  assert (bytes_ok codec_bytes) as Hb by dec_compute. split; [done|].
  split; [exact (index_manifest_roundtrip codec_bytes codec_manifest Hb)|vm_compute; reflexivity].
Defined.
Lemma constructed_manifest_ok_witness :
  IndexManifest_new IndexLifecycle.Building 7 codec_config (replicate 32 0) [Some (mkBloom 20 1); None] = Ok codec_manifest ∧
  (manifest_ok codec_manifest ∧ manifest_ok (with_lifecycle codec_manifest IndexLifecycle.Active) ∧
   has_same_immutable_identity codec_manifest (with_lifecycle codec_manifest IndexLifecycle.Active) = true).
Proof.
  assert (IndexManifest_new IndexLifecycle.Building 7 codec_config (replicate 32 0) [Some (mkBloom 20 1); None]
    = Ok codec_manifest) as H by (vm_compute; reflexivity).
  split; [exact H|].
  exact (constructed_manifest_ok _ _ _ _ _ _ IndexLifecycle.Active H codec_manifest_typed).
Defined.

(** ** The schema bound and the synopsis bound

    One Bloom field of 262064 values at rate 1/2 takes 65516 filter bytes, which
    fills the schema-time bound exactly. *)
Definition boundary_config : IndexConfig :=
  mkIndexConfig None 4 Metric.L2
    [mkFieldSchema [97] DataType.I64 false (SynopsisConfig.MinMaxBloom 262064 0x3FE0000000000000)] []
    16 64 128 16384.

(** C40: The schema-time size check is not the conservative bound its comment
    says: it leaves out the Bloom length prefix and the synopsis header, so a
    configuration can validate on its own and still be rejected by every
    attempt to build its Index Manifest. *)
Theorem valid_config_without_manifest lifecycle id seed bloom :
  IndexConfig_validate boundary_config = Ok tt ∧
  IndexManifest_new lifecycle id boundary_config seed bloom = Err InvalidArgument.
Proof.
  assert (IndexConfig_validate boundary_config = Ok tt) as Hc by (vm_compute; reflexivity).
  assert (BloomParameters_derive (SynopsisConfig.MinMaxBloom 262064 0x3FE0000000000000) = Ok (Some (mkBloom 524128 1))) as Hd
    by (vm_compute; reflexivity).
  split; [exact Hc|]. unfold IndexManifest_new, IndexManifest_validate. cbn [im_config im_bloom_parameters]. rewrite Hc.
  cbn [mbind result_bind]. destruct bloom as [|p [|q bloom]]; [done| |].
  - cbn [fields im_config boundary_config ic_fields bloom_alignment_loop fs_synopsis]. rewrite Hd.
    cbn [mbind result_bind]. case_decide as Hp; [by subst p|done].
  - destruct (Z.eqb_spec (len (p :: q :: bloom)) (len (fields (mkManifest lifecycle id boundary_config seed (p :: q :: bloom)))))
      as [E|]; [|done].
    unfold len in E. cbn in E. lia.
Qed.
