(* ===== verification/Plan.v ===== *)
(** The Tree Key planner (src/src/search/plan.rs): per-field constraints derived
    from a Filter Predicate, the expansion of leading points into directory
    ranges, and the typed check that removes the ranges' false positives.  The
    theorems state that no tree holding a matching record is missed. *)
From stdpp Require Import sorting.
From S2P Require Import Prelude RustStd Api TreeKey Keys KeyRanges Manifest Config PredicateEval NextValue Intervals.

(** ** Tree schemas *)
Record TreeSchema := mkTreeSchema {
  ts_types : list DataType.t;
  ts_ordinal_by_schema_pos : list (option nat)
}.
(** [ordinal_by_schema_pos[usize::from(field_id.0)] = Some(ordinal)] for each
    Tree Key field. *)
Fixpoint ordinals_loop (ordinal : nat) (ids : list Z) (positions : list (option nat))
    : result (list (option nat)) :=
  match ids with
  | [] => Ok positions
  | id :: ids =>
      or_panic (positions !! Z.to_nat id) ≫= λ _,
      ordinals_loop (S ordinal) ids (<[Z.to_nat id := Some ordinal]> positions)
  end.
Definition TreeSchema_new (manifest : IndexManifest) : result TreeSchema :=
  tree_key_types manifest ≫= λ types,
  ordinals_loop 0 (ic_tree_key_fields (im_config manifest))
    (replicate (length (fields manifest)) None) ≫= λ positions,
  Ok (mkTreeSchema types positions).
Definition TreeSchema_ordinal (schema : TreeSchema) (field : Z) : result (option nat) :=
  ok_or InvalidArgument (ts_ordinal_by_schema_pos schema !! Z.to_nat field).

(** ** Constraints *)
Record Constraints := mkConstraints {
  c_sets : list (option FieldSet);
  c_exact : bool;
  c_tree_pure : bool
}.
Definition Constraints_full (types : list DataType.t) : Constraints :=
  mkConstraints (replicate (length types) None) true true.
Definition Constraints_non_tree (types : list DataType.t) : Constraints :=
  mkConstraints (c_sets (Constraints_full types)) true false.
Definition Constraints_wide (types : list DataType.t) : Constraints :=
  mkConstraints (c_sets (Constraints_full types)) false false.
Definition Constraints_impossible (types : list DataType.t) : Constraints :=
  mkConstraints ((λ ty, Some (FieldSet_empty ty)) <$> types) true true.

Definition intersect_field (l r : option FieldSet) : option FieldSet :=
  match l, r with
  | _, None => l
  | None, Some s => Some s
  | Some l, Some r => Some (FieldSet_intersect l r)
  end.
Definition union_field (l r : option FieldSet) : option FieldSet :=
  match l, r with
  | Some l, Some r => Some (FieldSet_union l r)
  | _, _ => None
  end.
(** [self.sets.iter_mut().zip(&other.sets)] leaves the unpaired rest. *)
Fixpoint zip_fields (f : option FieldSet → option FieldSet → option FieldSet)
    (ls rs : list (option FieldSet)) : list (option FieldSet) :=
  match ls, rs with
  | l :: ls, r :: rs => f l r :: zip_fields f ls rs
  | ls, _ => ls
  end.
Definition Constraints_intersect (c other : Constraints) : Constraints :=
  mkConstraints (zip_fields intersect_field (c_sets c) (c_sets other)) (c_exact c) (c_tree_pure c).
Definition Constraints_union (c other : Constraints) : Constraints :=
  mkConstraints (zip_fields union_field (c_sets c) (c_sets other)) (c_exact c) (c_tree_pure c).

(** [enumerate().filter_map(..)]: the constrained fields with their ordinals. *)
Fixpoint constrained (ordinal : nat) (sets : list (option FieldSet)) : list (nat * FieldSet) :=
  match sets with
  | [] => []
  | Some s :: sets => (ordinal, s) :: constrained (S ordinal) sets
  | None :: sets => constrained (S ordinal) sets
  end.
(** [negated.sets[ordinal] = Some(set)]. *)
Definition set_field (c : Constraints) (ordinal : nat) (s : FieldSet) : result Constraints :=
  or_panic (c_sets c !! ordinal) ≫= λ _,
  Ok (mkConstraints (<[ordinal := Some s]> (c_sets c)) (c_exact c) (c_tree_pure c)).
Definition Constraints_negated (c : Constraints) (types : list DataType.t) : result Constraints :=
  match constrained 0 (c_sets c) with
  | [] => Ok (Constraints_impossible types)
  | [(ordinal, s)] => set_field (Constraints_full types) ordinal (FieldSet_complement s)
  | _ => Ok (Constraints_wide types)
  end.

Definition check_typed (ty : DataType.t) (value : Value.t) : result unit :=
  let valid :=
    match ty, value with
    | DataType.Bool, Value.Bool _ | DataType.I64, Value.I64 _ => true
    | DataType.F64, Value.F64 bits => F64.is_finite bits && (negb (F64.is_zero bits) || (bits =? 0))
    | DataType.String, Value.String s => len s <=? MAX_STRING_BYTES
    | _, _ => false
    end in
  if valid then Ok tt else Err InvalidArgument.

(** The loop over the values of an [IN] list. *)
Fixpoint in_intervals_loop (ty : DataType.t) (values : list Value.t) : result (list Interval) :=
  match values with
  | [] => Ok []
  | value :: values =>
      check_typed ty value ≫= λ _,
      next_value ty value ≫= λ hi,
      in_intervals_loop ty values ≫= λ intervals, Ok (mkInterval (Some value) hi :: intervals)
  end.

(** The loops of [derive] over the children of a connective. *)
Definition and_loop (derive : Predicate.t → result Constraints) :=
  fix go (children : list Predicate.t) (result : Constraints) :=
    match children with
    | [] => Ok result
    | child :: children =>
        derive child ≫= λ c,
        let r := Constraints_intersect result c in
        go children (mkConstraints (c_sets r) (c_exact r && c_exact c) (c_tree_pure r && c_tree_pure c))
    end.
Definition or_loop (derive : Predicate.t → result Constraints) :=
  fix go (children : list Predicate.t) (result : Constraints) :=
    match children with
    | [] => Ok result
    | child :: children =>
        derive child ≫= λ c,
        let r := Constraints_union result c in
        go children (mkConstraints (c_sets r) (c_exact r) (c_tree_pure r && c_tree_pure c))
    end.
Fixpoint derive (p : Predicate.t) (schema : TreeSchema) : result Constraints :=
  let types := ts_types schema in
  match p with
  | Predicate.And children => and_loop (λ p, derive p schema) children (Constraints_full types)
  | Predicate.Or children =>
      or_loop (λ p, derive p schema) children (Constraints_impossible types) ≫= λ r,
      Ok (mkConstraints (c_sets r) false (c_tree_pure r))
  | Predicate.Not child =>
      derive child schema ≫= λ c,
      if c_exact c && c_tree_pure c then Constraints_negated c types else Ok (Constraints_wide types)
  | Predicate.Compare field op value =>
      TreeSchema_ordinal schema field ≫= λ o,
      match o with
      | Some ordinal =>
          or_panic (types !! ordinal) ≫= λ ty,
          check_typed ty value ≫= λ _,
          from_compare ty op value ≫= λ s,
          set_field (Constraints_full types) ordinal s
      | None => Ok (Constraints_non_tree types)
      end
  | Predicate.In field values =>
      TreeSchema_ordinal schema field ≫= λ o,
      match o with
      | Some ordinal =>
          or_panic (types !! ordinal) ≫= λ ty,
          in_intervals_loop ty values ≫= λ intervals,
          set_field (Constraints_full types) ordinal (normalize ty intervals)
      | None => Ok (Constraints_non_tree types)
      end
  | Predicate.IsNull field =>
      TreeSchema_ordinal schema field ≫= λ o,
      match o with
      | Some ordinal =>
          or_panic (types !! ordinal) ≫= λ ty,
          set_field (Constraints_full types) ordinal (FieldSet_empty ty)
      | None => Ok (Constraints_non_tree types)
      end
  | Predicate.IsNotNull field =>
      TreeSchema_ordinal schema field ≫= λ o,
      match o with
      | Some _ => Ok (Constraints_full types)
      | None => Ok (Constraints_non_tree types)
      end
  end.

(** ** Range plans *)
Record FieldCheck := mkFieldCheck { fc_ordinal : nat; fc_intervals : list Interval }.
Record TreeKeyPlan := mkPlan {
  pl_ranges : list KeyRange;
  pl_checks : list FieldCheck;
  pl_types : list DataType.t
}.

Definition encode_bound (ty : option DataType.t) (value : Value.t) : result (list Z) :=
  ok_or InvalidArgument ty ≫= λ ty, TreeKey_encode [ty] [value].
(** [Option::map(f).transpose()?]. *)
Definition transpose {A B} (f : A → result B) (o : option A) : result (option B) :=
  match o with None => Ok None | Some a => f a ≫= λ b, Ok (Some b) end.
Definition materialize_range (index : Z) (types : list DataType.t) (prefix_values : list Value.t)
    (lo hi : option Value.t) : result KeyRange :=
  (if decide (length prefix_values ≤ length types)%nat
   then Ok (take (length prefix_values) types) else Panic) ≫= λ leading,
  TreeKey_encode leading prefix_values ≫= λ prefix,
  let ty := types !! length prefix_values in
  transpose (encode_bound ty) lo ≫= λ lower,
  transpose (encode_bound ty) hi ≫= λ upper,
  Ok (tree_manifest_plan_range index prefix lower upper).

(** The last range of [merged] is carried as [last]. *)
Fixpoint merge_ranges_loop (last : KeyRange) (ranges : list KeyRange) : list KeyRange :=
  match ranges with
  | [] => [last]
  | range :: ranges =>
      if bool_decide (lex_le (range_start range) (range_end last)) then
        merge_ranges_loop
          (if bool_decide (lex_lt (range_end last) (range_end range))
           then mkRange (range_start last) (range_end range) else last) ranges
      else last :: merge_ranges_loop range ranges
  end.
Definition merge_ranges (ranges : list KeyRange) : list KeyRange :=
  match ranges with [] => [] | r :: ranges => merge_ranges_loop r ranges end.

(** [.collect::<Result<Option<Vec<_>>>>()] stops at the first error or [None]. *)
Fixpoint collect_points (s : FieldSet) (intervals : list Interval) : result (option (list Value.t)) :=
  match intervals with
  | [] => Ok (Some [])
  | i :: intervals =>
      point_value s i ≫= λ p,
      match p with
      | None => Ok None
      | Some v => collect_points s intervals ≫= λ vs, Ok (option_map (cons v) vs)
      end
  end.
(** [materialize_range(..)?] for each prefix and interval. *)
Definition materialize_all (index : Z) (types : list DataType.t) (prefixes : list (list Value.t))
    (intervals : list Interval) : result (list KeyRange) :=
  mapM (λ '(prefix, i), materialize_range index types prefix (iv_lo i) (iv_hi i))
    (prefix ← prefixes; i ← intervals; [(prefix, i)]).

(** The expansion loop: [None] is the early return of the empty plan; otherwise
    the ranges pushed so far and the remaining prefixes. *)
Fixpoint expand_loop (index : Z) (types : list DataType.t) (range_limit : Z)
    (sets : list (option FieldSet)) (prefixes : list (list Value.t))
    : result (option (list KeyRange * list (list Value.t))) :=
  match sets with
  | [] | None :: _ => Ok (Some ([], prefixes))
  | Some s :: sets =>
      if decide (fst_intervals s = []) then Ok None
      else
        let product := len prefixes * len (fst_intervals s) in
        if 2 ^ 64 <=? product then Err LimitExceeded
        else if range_limit <? product then Ok (Some ([], prefixes))
        else
          collect_points s (fst_intervals s) ≫= λ points,
          match points with
          | Some points =>
              expand_loop index types range_limit sets
                (prefix ← prefixes; value ← points; [prefix ++ [value]])
          | None =>
              materialize_all index types prefixes (fst_intervals s) ≫= λ ranges,
              Ok (Some (ranges, []))
          end
  end.
Fixpoint field_checks (ordinal : nat) (sets : list (option FieldSet)) : list FieldCheck :=
  match sets with
  | [] => []
  | Some s :: sets => mkFieldCheck ordinal (fst_intervals s) :: field_checks (S ordinal) sets
  | None :: sets => field_checks (S ordinal) sets
  end.
Definition plan_tree_keys (manifest : IndexManifest) (predicate : option Predicate.t)
    (range_limit : Z) : result TreeKeyPlan :=
  if range_limit =? 0 then Err InvalidArgument
  else
    TreeSchema_new manifest ≫= λ schema,
    let types := ts_types schema in
    match predicate with
    | Some p => derive p schema
    | None => Ok (Constraints_full types)
    end ≫= λ constraints,
    let index := im_logical_index_id manifest in
    expand_loop index types range_limit (c_sets constraints) [[]] ≫= λ expansion,
    match expansion with
    | None => Ok (mkPlan [] [] types)
    | Some (ranges, prefixes) =>
        mapM (λ prefix, materialize_range index types prefix None None) prefixes ≫= λ rest,
        Ok (mkPlan (merge_ranges (ranges ++ rest)) (field_checks 0 (c_sets constraints)) types)
    end.

(** [TreeKeyPlan::accepts]. *)
Fixpoint accepts_loop (checks : list FieldCheck) (values : list Value.t) : result bool :=
  match checks with
  | [] => Ok true
  | check :: checks =>
      ok_or Corruption (values !! fc_ordinal check) ≫= λ value,
      if contains (fc_intervals check) value then accepts_loop checks values else Ok false
  end.
Definition accepts (plan : TreeKeyPlan) (tree_key : list Z) : result bool :=
  if decide (pl_ranges plan = []) then Ok false
  else if decide (pl_checks plan = []) then Ok true
  else TreeKey_values tree_key (pl_types plan) ≫= λ values, accepts_loop (pl_checks plan) values.

(** ** Products of field sets *)
Definition in_field (s : option FieldSet) (v : Value.t) : Prop :=
  match s with None => True | Some s => in_set s v end.
Definition in_product (sets : list (option FieldSet)) (vs : list Value.t) : Prop :=
  Forall2 in_field sets vs.
Definition field_set_ok (ty : DataType.t) (s : option FieldSet) : Prop :=
  match s with None => True | Some s => set_ok ty s end.
Definition sets_ok (types : list DataType.t) (sets : list (option FieldSet)) : Prop :=
  Forall2 field_set_ok types sets.

Lemma full_sets_ok types : sets_ok types (c_sets (Constraints_full types)).
Proof. induction types; constructor; done. Qed.
Lemma full_in types vs : fields_ok types vs → in_product (c_sets (Constraints_full types)) vs.
Proof. induction 1; constructor; done. Qed.
Lemma impossible_sets_ok types : sets_ok types (c_sets (Constraints_impossible types)).
Proof. induction types; constructor; [apply empty_ok|done]. Qed.
Lemma impossible_in types vs :
  types ≠ [] → fields_ok types vs → ¬ in_product (c_sets (Constraints_impossible types)) vs.
Proof.
  intros Hne Hvs Hin. destruct Hvs; [done|]. apply Forall2_cons_1 in Hin as [Hin _].
  by apply in_intervals_nil in Hin.
Qed.

Lemma zip_intersect_spec types a b :
  sets_ok types a → sets_ok types b →
  sets_ok types (zip_fields intersect_field a b) ∧
  ∀ vs, fields_ok types vs →
    in_product (zip_fields intersect_field a b) vs ↔ in_product a vs ∧ in_product b vs.
Proof.
  intros Ha. revert b. induction Ha as [|ty l types a Hl Ha IH]; intros b Hb.
  - apply Forall2_nil_inv_l in Hb as ->. split; [constructor|]. intros vs Hvs.
    apply Forall2_nil_inv_l in Hvs as ->. split; [by split; constructor|by constructor].
  - apply Forall2_cons_inv_l in Hb as (r & b' & Hr & Hb & ->). destruct (IH b' Hb) as [Hok Hin].
    cbn [zip_fields]. split.
    + constructor; [|done]. destruct l, r; try done. by apply intersect_ok.
    + intros vs Hvs. apply Forall2_cons_inv_l in Hvs as (v & vs' & Hv & Hvs & ->). unfold in_product in *.
      rewrite !list.Forall2_cons, Hin by done.
      assert (in_field (intersect_field l r) v ↔ in_field l v ∧ in_field r v) as ->; [|tauto].
      destruct l, r; cbn; try tauto. by apply (intersect_in ty).
Qed.
Lemma zip_union_spec types a b :
  sets_ok types a → sets_ok types b →
  sets_ok types (zip_fields union_field a b) ∧
  ∀ vs, fields_ok types vs → in_product a vs ∨ in_product b vs → in_product (zip_fields union_field a b) vs.
Proof.
  intros Ha. revert b. induction Ha as [|ty l types a Hl Ha IH]; intros b Hb.
  - split; [constructor|]. intros vs Hvs _. apply Forall2_nil_inv_l in Hvs as ->. constructor.
  - apply Forall2_cons_inv_l in Hb as (r & b' & Hr & Hb & ->). destruct (IH b' Hb) as [Hok Hin].
    cbn [zip_fields]. split.
    + constructor; [|done]. destruct l, r; try done. by apply union_ok.
    + intros vs Hvs Hor. apply Forall2_cons_inv_l in Hvs as (v & vs' & Hv & Hvs & ->). unfold in_product in *.
      rewrite !list.Forall2_cons in *. split; [|apply Hin; [done|tauto]].
      destruct l, r; cbn in *; try tauto. rewrite (union_in ty) by done. tauto.
Qed.

(** One constrained field over the full product. *)
Definition single (n ordinal : nat) (s : FieldSet) : list (option FieldSet) :=
  <[ordinal := Some s]> (replicate n None).
Lemma single_lookup n ordinal s i :
  (ordinal < n)%nat →
  single n ordinal s !! i = if decide (i = ordinal) then Some (Some s)
                            else if decide (i < n)%nat then Some None else None.
Proof.
  intros Ho. unfold single. case_decide as E.
  - subst. apply list_lookup_insert_eq. by rewrite length_replicate.
  - rewrite list_lookup_insert_ne by done. case_decide.
    + by apply lookup_replicate_2.
    + apply lookup_ge_None_2. rewrite length_replicate. lia.
Qed.
Lemma single_forall2 {A} (R : A → option FieldSet → Prop) (l : list A) ordinal s a :
  (∀ x, R x None) → l !! ordinal = Some a →
  Forall2 R l (single (length l) ordinal s) ↔ R a (Some s).
Proof.
  intros HR Ha. assert (ordinal < length l)%nat as Ho by by eapply lookup_lt_Some. split.
  - intros HF. eapply Forall2_lookup_lr in HF; [exact HF|done|]. rewrite single_lookup by done. by rewrite decide_True.
  - intros Hs. apply Forall2_lookup. intros i. rewrite single_lookup by done. case_decide as E.
    + subst. rewrite Ha. by constructor.
    + case_decide as E'.
      * destruct (lookup_lt_is_Some_2 l i E') as [x ->]. by constructor.
      * rewrite lookup_ge_None_2 by lia. constructor.
Qed.
Lemma single_in types ordinal s vs v :
  fields_ok types vs → vs !! ordinal = Some v → in_product (single (length types) ordinal s) vs ↔ in_set s v.
Proof.
  intros Hvs Hv. apply Forall2_length in Hvs as ->.
  rewrite <-(single_forall2 (flip in_field) vs ordinal s v) by done.
  unfold in_product. split; intros HF; [by apply Forall2_flip|by apply Forall2_flip in HF].
Qed.
Lemma set_field_full types ordinal ty s :
  types !! ordinal = Some ty → set_ok ty s →
  set_field (Constraints_full types) ordinal s = Ok (mkConstraints (single (length types) ordinal s) true true) ∧
  sets_ok types (single (length types) ordinal s).
Proof.
  intros Hty Hs. assert (ordinal < length types)%nat as Hl by by eapply lookup_lt_Some. split.
  - unfold set_field, Constraints_full. cbn [c_sets]. by rewrite lookup_replicate_2.
  - by apply (single_forall2 field_set_ok types ordinal s ty).
Qed.

(** The shapes [negated] distinguishes. *)
Lemma constrained_nil n sets : constrained n sets = [] → sets = replicate (length sets) None.
Proof.
  revert n. induction sets as [|[s|] sets IH]; intros n H; cbn in *; [done..|]. f_equal. by eapply IH.
Qed.
Lemma constrained_one n sets o s :
  constrained n sets = [(o, s)] → ∃ i, o = (n + i)%nat ∧ (i < length sets)%nat ∧ sets = single (length sets) i s.
Proof.
  revert n. induction sets as [|[t|] sets IH]; intros n H; cbn in H; [done|..].
  - injection H as -> -> H. exists 0%nat. split_and!; [lia|cbn; lia|]. cbn. f_equal. by eapply constrained_nil.
  - destruct (IH _ H) as (i & -> & Hi & E). exists (S i). split_and!; [lia|cbn; lia|]. cbn. by f_equal.
Qed.

Lemma negated_spec types c :
  types ≠ [] → sets_ok types (c_sets c) →
  ∃ c', Constraints_negated c types = Ok c' ∧ sets_ok types (c_sets c') ∧
    ∀ vs, fields_ok types vs →
      (¬ in_product (c_sets c) vs → in_product (c_sets c') vs) ∧
      (c_exact c' = true → in_product (c_sets c') vs → ¬ in_product (c_sets c) vs).
Proof.
  intros Hne Hok. unfold Constraints_negated. pose proof (Forall2_length Hok) as Hlen.
  destruct (constrained 0 (c_sets c)) as [|[o s] [|]] eqn:E.
  - eexists. split; [done|]. split; [apply impossible_sets_ok|]. intros vs Hvs.
    apply constrained_nil in E. rewrite E, <-Hlen. split.
    + intros Hn. exfalso. apply Hn. by apply (full_in types).
    + intros _ Hin. by apply impossible_in in Hin.
  - apply constrained_one in E as (i & -> & Hi & E). cbn [Nat.add]. rewrite <-Hlen in *.
    destruct (lookup_lt_is_Some_2 types i Hi) as [ty Hty].
    assert (set_ok ty s) as Hs.
    { rewrite E in Hok. by apply (single_forall2 field_set_ok types i s ty) in Hok. }
    destruct (set_field_full types i ty (FieldSet_complement s) Hty) as [-> Hok']; [by apply complement_ok|].
    eexists. split; [done|]. split; [done|]. intros vs Hvs. cbn [c_sets c_exact]. rewrite E.
    destruct (Forall2_lookup_l _ _ _ _ _ Hvs Hty) as (v & Hv & Hfv).
    rewrite !(single_in types i _ vs v) by done. rewrite (complement_in ty) by done. tauto.
  - eexists. split; [done|]. split; [apply full_sets_ok|]. intros vs Hvs. split; [|done]. intros _. by apply full_in.
Qed.

(** ** Soundness of the derived constraints *)

(** The Tree Key values of a stored row. *)
Definition tree_row (ids : list Z) (row vs : list Value.t) : Prop :=
  Forall2 (λ id v, row !! Z.to_nat id = Some v) ids vs.
(** A schema whose ordinals name the Tree Key fields [ids]. *)
Definition schema_ok (ids : list Z) (schema : TreeSchema) : Prop :=
  length (ts_types schema) = length ids ∧
  ∀ field o, ts_ordinal_by_schema_pos schema !! Z.to_nat field = Some (Some o) →
    ∃ id, ids !! o = Some id ∧ Z.to_nat id = Z.to_nat field.

Lemma check_typed_ok ty v : value_ok v → check_typed ty v = Ok tt → field_ok ty v.
Proof.
  intros Hv Hc. split; [done|]. unfold check_typed in Hc. destruct ty, v; try done; cbn in *.
  - case_match; [|done]. unfold F64.canonical. bprop. destruct H as [Hf Hz]. split; [done|].
    destruct Hz as [->| ->]; [by left|by right].
  - by case_match.
Qed.
Lemma ref_compare_rank ty op v lit :
  field_ok ty v → field_ok ty lit →
  ref_compare op (Some v) lit = TruthValue_from_bool (compare_op op (rank v ?= rank lit)).
Proof.
  intros Hv Hlit. cbn [ref_compare]. rewrite (typed_order_rank ty) by done.
  destruct Hv as [_ Hv]. by destruct ty, v.
Qed.
Lemma in_intervals_loop_spec ty values l :
  Forall value_ok values → in_intervals_loop ty values = Ok l →
  typed_values ty values ∧ Forall (interval_ok ty) l ∧
  ∀ v, field_ok ty v → in_intervals l v ↔ v ∈ values.
Proof.
  revert l. induction values as [|x values IH]; intros l Hok H; cbn in H.
  { apply Ok_inj in H as <-. split_and!; [constructor..|]. intros v _. rewrite in_intervals_nil. split; [done|]. apply not_elem_of_nil. }
  apply Forall_cons_iff in Hok as [Hx Hok].
  apply bind_ok in H as ([] & Hc & H). apply bind_ok in H as (hi & Hhi & H). apply bind_ok in H as (l' & Hl' & H).
  apply Ok_inj in H as <-. apply check_typed_ok in Hc; [|done].
  destruct (IH l' Hok Hl') as (Ht & Hi & Hin). destruct (point_interval_spec ty x Hc) as (next & Hn & Hiok & Hpt).
  rewrite Hn in Hhi. apply Ok_inj in Hhi as ->.
  split_and!; [constructor; [apply Hc|done]|by constructor|].
  intros v Hv. rewrite in_intervals_cons, Hpt, Hin, elem_of_cons by done. done.
Qed.

Section derive.
Context (ids : list Z) (schema : TreeSchema) (Hschema : schema_ok ids schema).
Abbreviation types := (ts_types schema).

(** What [derive] promises: the product holds every matching key, and is the
    truth of the predicate itself when exact and a function of the key. *)
Definition sound (p : Predicate.t) (c : Constraints) : Prop :=
  sets_ok types (c_sets c) ∧
  ∀ row vs, tree_row ids row vs → fields_ok types vs →
    (ref_truth row p = TruthValue.True → in_product (c_sets c) vs) ∧
    (c_exact c = true → c_tree_pure c = true → types ≠ [] →
     (in_product (c_sets c) vs → ref_truth row p = TruthValue.True) ∧
     ref_truth row p ≠ TruthValue.Unknown).

Lemma tree_field field o :
  TreeSchema_ordinal schema field = Ok (Some o) →
  ∃ ty, types !! o = Some ty ∧
    ∀ row vs, tree_row ids row vs → fields_ok types vs →
      ∃ v, vs !! o = Some v ∧ field_ok ty v ∧ row !! Z.to_nat field = Some v.
Proof using Hschema.
  destruct Hschema as [Hlen Hord]. unfold TreeSchema_ordinal. rewrite ok_or_ok.
  intros (id & Hid & E)%Hord.
  destruct (lookup_lt_is_Some_2 types o) as [ty Hty]; [rewrite Hlen; by eapply lookup_lt_Some|].
  exists ty. split; [done|]. intros row vs Hrow Hvs.
  destruct (Forall2_lookup_l _ _ _ _ _ Hvs Hty) as (v & Hv & Hfv). exists v. split_and!; [done..|].
  rewrite <-E. exact (Forall2_lookup_lr _ _ _ _ _ _ Hrow Hid Hv).
Qed.

(** A leaf on one Tree Key field is sound when its set decides it. *)
Lemma leaf_sound p field o ty s :
  TreeSchema_ordinal schema field = Ok (Some o) → types !! o = Some ty → set_ok ty s →
  (∀ row v, row !! Z.to_nat field = Some v → field_ok ty v →
    ∃ b : bool, ref_truth row p = TruthValue_from_bool b ∧ (b = true ↔ in_set s v)) →
  ∃ c, set_field (Constraints_full types) o s = Ok c ∧ sound p c.
Proof using Hschema.
  intros Ho Hty Hs Hsql. destruct (set_field_full types o ty s Hty Hs) as [-> Hok].
  eexists. split; [done|]. split; [done|]. intros row vs Hrow Hvs. cbn [c_sets].
  destruct (tree_field field o Ho) as (ty' & Hty' & Hf). rewrite Hty in Hty'. injection Hty' as <-.
  destruct (Hf row vs Hrow Hvs) as (v & Hv & Hfv & Hrv). rewrite (single_in types o s vs v) by done.
  destruct (Hsql row v Hrv Hfv) as (b & -> & Hb). rewrite <-Hb. by destruct b.
Qed.
(** A leaf on another field constrains nothing. *)
Lemma full_sound p (exact : bool) : sound p (mkConstraints (c_sets (Constraints_full types)) exact false).
Proof using. split; [apply full_sets_ok|]. intros row vs _ Hvs. split; [intros _; by apply full_in|done]. Qed.

Lemma truth_and_assoc a b c : TruthValue_and a (TruthValue_and b c) = TruthValue_and (TruthValue_and a b) c.
Proof using. by destruct a, b, c. Qed.
Lemma truth_or_assoc a b c : TruthValue_or a (TruthValue_or b c) = TruthValue_or (TruthValue_or a b) c.
Proof using. by destruct a, b, c. Qed.
Lemma ref_and_snoc row ps p :
  ref_truth row (Predicate.And (ps ++ [p])) =
  TruthValue_and (ref_truth row (Predicate.And ps)) (ref_truth row p).
Proof using.
  cbn [ref_truth]. induction ps as [|q ps IH]; cbn [app]; rewrite ?fmap_cons; cbn [foldr].
  - by destruct (ref_truth row p).
  - rewrite IH. apply truth_and_assoc.
Qed.
Lemma ref_or_snoc row ps p :
  ref_truth row (Predicate.Or (ps ++ [p])) =
  TruthValue_or (ref_truth row (Predicate.Or ps)) (ref_truth row p).
Proof using.
  cbn [ref_truth]. induction ps as [|q ps IH]; cbn [app]; rewrite ?fmap_cons; cbn [foldr].
  - by destruct (ref_truth row p).
  - rewrite IH. apply truth_or_assoc.
Qed.
Lemma truth_and_true a b :
  TruthValue_and a b = TruthValue.True ↔ a = TruthValue.True ∧ b = TruthValue.True.
Proof using. destruct a, b; naive_solver. Qed.
Lemma truth_and_known a b :
  a ≠ TruthValue.Unknown → b ≠ TruthValue.Unknown → TruthValue_and a b ≠ TruthValue.Unknown.
Proof using. by destruct a, b. Qed.
Lemma truth_or_true a b :
  TruthValue_or a b = TruthValue.True ↔ a = TruthValue.True ∨ b = TruthValue.True.
Proof using. destruct a, b; naive_solver. Qed.

Lemma and_step_sound ps p acc c :
  sound (Predicate.And ps) acc → sound p c →
  let r := Constraints_intersect acc c in
  sound (Predicate.And (ps ++ [p]))
    (mkConstraints (c_sets r) (c_exact r && c_exact c) (c_tree_pure r && c_tree_pure c)).
Proof using.
  intros [Hok Ha] [Hokc Hc] r. destruct (zip_intersect_spec types _ _ Hok Hokc) as [Hok' Hin].
  split; [done|]. intros row vs Hrow Hvs. rewrite ref_and_snoc. cbn [c_sets c_exact c_tree_pure r Constraints_intersect].
  rewrite Hin, truth_and_true by done. destruct (Ha row vs Hrow Hvs) as [Ha1 Ha2], (Hc row vs Hrow Hvs) as [Hc1 Hc2].
  split; [tauto|]. intros [He1 He2]%andb_prop [Hp1 Hp2]%andb_prop Hne.
  destruct (Ha2 He1 Hp1 Hne), (Hc2 He2 Hp2 Hne). split; [tauto|by apply truth_and_known].
Qed.
Lemma or_step_sound ps p acc c :
  sound (Predicate.Or ps) (mkConstraints (c_sets acc) false (c_tree_pure acc)) → sound p c →
  let r := Constraints_union acc c in
  sound (Predicate.Or (ps ++ [p])) (mkConstraints (c_sets r) false (c_tree_pure r && c_tree_pure c)).
Proof using.
  intros [Hok Ha] [Hokc Hc] r. destruct (zip_union_spec types _ _ Hok Hokc) as [Hok' Hin].
  split; [done|]. intros row vs Hrow Hvs. rewrite ref_or_snoc. cbn [c_sets c_exact r Constraints_union].
  rewrite truth_or_true. destruct (Ha row vs Hrow Hvs) as [Ha1 _], (Hc row vs Hrow Hvs) as [Hc1 _].
  split; [|done]. intros Hor. apply Hin; [done|]. cbn in *. tauto.
Qed.

Lemma and_loop_sound f ps done acc c :
  Forall (λ p, ∀ c, f p = Ok c → sound p c) ps →
  sound (Predicate.And done) acc → and_loop f ps acc = Ok c → sound (Predicate.And (done ++ ps)) c.
Proof using.
  intros Hps. revert done acc. induction Hps as [|p ps Hp Hps IH]; intros done acc Hacc H; cbn in H.
  { apply Ok_inj in H as <-. by rewrite app_nil_r. }
  apply bind_ok in H as (cp & Hcp & H). rewrite cons_middle, app_assoc. eapply IH; [|exact H].
  apply and_step_sound; [done|by apply Hp].
Qed.
Lemma or_loop_sound f ps done acc c :
  Forall (λ p, ∀ c, f p = Ok c → sound p c) ps →
  sound (Predicate.Or done) (mkConstraints (c_sets acc) false (c_tree_pure acc)) →
  or_loop f ps acc = Ok c →
  sound (Predicate.Or (done ++ ps)) (mkConstraints (c_sets c) false (c_tree_pure c)).
Proof using.
  intros Hps. revert done acc. induction Hps as [|p ps Hp Hps IH]; intros done acc Hacc H; cbn in H.
  { apply Ok_inj in H as <-. by rewrite app_nil_r. }
  apply bind_ok in H as (cp & Hcp & H). rewrite cons_middle, app_assoc. eapply IH; [|exact H].
  apply or_step_sound; [done|by apply Hp].
Qed.
Lemma not_sound p c c' :
  sound p c → c_exact c = true → c_tree_pure c = true → Constraints_negated c types = Ok c' →
  sound (Predicate.Not p) c'.
Proof using.
  intros [Hok Hs] He Hp H. destruct (decide (types = [])) as [E|Hne].
  { (* without Tree Key fields every product is the whole domain *)
    assert (c_sets c' = []) as E'.
    { unfold Constraints_negated in H. rewrite E in *. apply Forall2_nil_inv_l in Hok. rewrite Hok in H.
      cbn in H. apply Ok_inj in H as <-. done. }
    split; [rewrite E, E'; constructor|]. intros row vs _ Hvs. rewrite E in *. apply Forall2_nil_inv_l in Hvs as ->.
    rewrite E'. split; [intros _; constructor|done]. }
  destruct (negated_spec types c Hne Hok) as (c'' & Hn & Hok' & Hin). rewrite H in Hn. apply Ok_inj in Hn as <-.
  split; [done|]. intros row vs Hrow Hvs. destruct (Hin vs Hvs) as [Hin1 Hin2].
  destruct (Hs row vs Hrow Hvs) as [Hs1 Hs2]. destruct (Hs2 He Hp Hne) as [Hs3 Hu]. cbn [ref_truth]. split.
  - intros Ht. apply Hin1. intros Hc. apply Hs3 in Hc. by rewrite Hc in Ht.
  - intros He' _ _. split; [|by destruct (ref_truth row p)].
    intros Hc'. pose proof (Hin2 He' Hc') as Hnot. destruct (ref_truth row p); [done| |done]. exfalso. by apply Hnot, Hs1.
Qed.

Lemma derive_sound p c :
  Forall value_ok (literals p) → derive p schema = Ok c → sound p c.
Proof using Hschema.
  revert c. induction p as [ps IH|ps IH|p IH|field op value|field values|field|field] using predicate_ind;
    intros c Hl H; cbn [derive literals] in *.
  1-2: assert (Forall (λ p, ∀ c, derive p schema = Ok c → sound p c) ps) as Hps
    by (clear H; induction IH as [|p ps Hp _ IH']; [constructor|]; rewrite fmap_cons, concat_cons in Hl;
        apply Forall_app in Hl as [Hlp Hl]; constructor; auto).
  - eapply (and_loop_sound _ ps []); [exact Hps| |exact H].
    split; [apply full_sets_ok|]. intros row vs _ Hvs. split; [intros _; by apply full_in|done].
  - apply bind_ok in H as (r & Hr & H). apply Ok_inj in H as <-.
    eapply (or_loop_sound _ ps []); [exact Hps| |exact Hr].
    split; [apply impossible_sets_ok|]. intros row vs _ Hvs. by split.
  - apply bind_ok in H as (cp & Hcp & H). apply IH in Hcp; [|done].
    destruct (c_exact cp && c_tree_pure cp) eqn:E; [|apply Ok_inj in H as <-; apply full_sound].
    apply andb_prop in E as [He Hp]. by eapply not_sound.
  - apply bind_ok in H as ([o|] & Ho & H); [|apply Ok_inj in H as <-; apply full_sound].
    apply bind_ok in H as (ty & Hty & H). apply or_panic_ok in Hty.
    apply bind_ok in H as ([] & Hc & H). apply Forall_cons_iff in Hl as [Hv _].
    apply check_typed_ok in Hc; [|done]. destruct (from_compare_spec ty op value Hc) as (s & Hs & Hok & Hin).
    rewrite Hs in H. cbn [mbind result_bind] in H.
    destruct (leaf_sound (Predicate.Compare field op value) field o ty s) as (c' & Hc' & Hsound); [done..| |congruence].
    intros row v Hrv Hfv. cbn [ref_truth]. rewrite Hrv, (ref_compare_rank ty) by done.
    eexists. split; [done|]. symmetry. by apply Hin.
  - apply bind_ok in H as ([o|] & Ho & H); [|apply Ok_inj in H as <-; apply full_sound].
    apply bind_ok in H as (ty & Hty & H). apply or_panic_ok in Hty.
    apply bind_ok in H as (l & Hloop & H). destruct (in_intervals_loop_spec ty values l Hl Hloop) as (Ht & Hi & Hin).
    destruct (leaf_sound (Predicate.In field values) field o ty (normalize ty l)) as (c' & Hc' & Hsound);
      [done..|by apply normalize_ok| |congruence].
    intros row v Hrv Hfv. cbn [ref_truth]. rewrite Hrv. rewrite (ref_in_typed ty) by (try apply Hfv; done).
    eexists. split; [done|]. rewrite bool_decide_eq_true, (normalize_in ty), Hin by done. done.
  - apply bind_ok in H as ([o|] & Ho & H); [|apply Ok_inj in H as <-; apply full_sound].
    apply bind_ok in H as (ty & Hty & H). apply or_panic_ok in Hty.
    destruct (leaf_sound (Predicate.IsNull field) field o ty (FieldSet_empty ty)) as (c' & Hc' & Hsound);
      [done..| |congruence].
    intros row v Hrv [_ Hfv]. cbn [ref_truth]. rewrite Hrv. eexists. split; [done|].
    unfold in_set. cbn [FieldSet_empty fst_intervals]. rewrite in_intervals_nil. by destruct ty, v.
  - apply bind_ok in H as ([o|] & Ho & H); apply Ok_inj in H as <-; [|apply full_sound].
    destruct (tree_field field o Ho) as (ty & Hty & Hf). split; [apply full_sets_ok|]. intros row vs Hrow Hvs.
    destruct (Hf row vs Hrow Hvs) as (v & _ & [_ Hfv] & Hrv). cbn [ref_truth]. rewrite Hrv.
    split; [intros _; by apply full_in|]. by destruct ty, v.
Qed.
End derive.

(** ** Schemas of a manifest *)
Lemma ordinals_loop_spec ids all n positions out :
  drop n all = ids →
  (∀ pos o, positions !! pos = Some (Some o) → ∃ id, all !! o = Some id ∧ Z.to_nat id = pos) →
  ordinals_loop n ids positions = Ok out →
  ∀ pos o, out !! pos = Some (Some o) → ∃ id, all !! o = Some id ∧ Z.to_nat id = pos.
Proof.
  revert n positions. induction ids as [|id ids IH]; intros n positions Hd Hpos H; cbn in H.
  { by apply Ok_inj in H as <-. }
  apply bind_ok in H as (x & Hx%or_panic_ok & H). eapply IH; [|clear H|exact H].
  - replace (S n) with (n + 1)%nat by lia. by rewrite <-drop_drop, Hd.
  - intros pos o. destruct (decide (pos = Z.to_nat id)) as [->|Hne].
    + rewrite list_lookup_insert_eq by (by eapply lookup_lt_Some). intros [= <-]. exists id. split; [|done].
      rewrite <-(Nat.add_0_r n), <-lookup_drop, Hd. done.
    + rewrite list_lookup_insert_ne by done. apply Hpos.
Qed.
Lemma tree_key_types_length m types :
  tree_key_types m = Ok types → length types = length (ic_tree_key_fields (im_config m)).
Proof.
  unfold tree_key_types. intros (ts & Hts & H)%bind_ok. case_match eqn:E; [done|]. apply Ok_inj in H as <-.
  rewrite (tree_types_loop_length _ _ _ Hts). apply Z.ltb_ge in E. unfold ztake, len, MAX_FIELDS in *.
  rewrite length_take. lia.
Qed.
Lemma TreeSchema_new_ok m schema :
  TreeSchema_new m = Ok schema →
  tree_key_types m = Ok (ts_types schema) ∧ schema_ok (ic_tree_key_fields (im_config m)) schema.
Proof.
  unfold TreeSchema_new. intros (types & Ht & H)%bind_ok. apply bind_ok in H as (positions & Hp & H).
  apply Ok_inj in H as <-. split; [done|]. split; [by apply tree_key_types_length|].
  intros field o Ho. eapply ordinals_loop_spec in Hp; [exact Hp|done| |exact Ho].
  intros pos o' Hpos. by apply lookup_replicate in Hpos as [? _].
Qed.

(** ** Materialized ranges *)
Lemma encode_bound_ok ty v b : encode_bound ty v = Ok b → b = scalar_bytes v.
Proof.
  unfold encode_bound. intros (t & _ & (_ & -> & _)%TreeKey_encode_spec)%bind_ok.
  by rewrite fields_bytes_cons, fields_bytes_nil, app_nil_r.
Qed.
Lemma transpose_bound_ok ty o b : transpose (encode_bound ty) o = Ok b → b = scalar_bytes <$> o.
Proof.
  destruct o as [v|]; cbn; [|by intros [= <-]]. intros (x & Hx & H)%bind_ok. apply Ok_inj in H as <-.
  by apply encode_bound_ok in Hx as ->.
Qed.
Lemma materialize_range_ok index types prefix lo hi r :
  materialize_range index types prefix lo hi = Ok r →
  r = tree_manifest_plan_range index (fields_bytes prefix) (scalar_bytes <$> lo) (scalar_bytes <$> hi).
Proof.
  unfold materialize_range. intros (lead & _ & H)%bind_ok.
  apply bind_ok in H as (p & (_ & -> & _)%TreeKey_encode_spec & H).
  apply bind_ok in H as (l & ->%transpose_bound_ok & H). apply bind_ok in H as (u & ->%transpose_bound_ok & H).
  by apply Ok_inj in H as <-.
Qed.

(** A whole prefix covers every key below it. *)
Lemma prefix_plan_covers types index pre rest :
  fields_ok types (pre ++ rest) →
  in_key_range (tree_manifest_plan_range index (fields_bytes pre) None None)
    (tree_manifest_key index (fields_bytes (pre ++ rest))).
Proof.
  intros Hf%fields_bytes_ok. unfold fields_bytes in *. rewrite fmap_app, concat_app in *.
  apply bytes_ok_app in Hf as [Hp Hr]. unfold tree_manifest_plan_range, tree_manifest_key.
  cbn [default]. rewrite app_nil_r.
  assert (bytes_ok (index_prefix index ++ [KIND_TREE_MANIFEST])) as Hi.
  { apply bytes_ok_app. split; [auto with ktann|by repeat constructor]. }
  change (mkRange ?p (successor ?p)) with (prefix_range p).
  apply prefix_range_spec; [by apply bytes_ok_app| |by apply successor_nonempty|].
  - apply bytes_ok_app. split; [done|]. by apply bytes_ok_app.
  - eexists. by rewrite <-!app_assoc.
Qed.

(** ** Order of the expansion *)

(** Every key under the first prefix is below every key under the second. *)
Definition pre_lt (a b : list Value.t) : Prop :=
  ∀ x y, (fields_bytes a ++ x) <ₗ (fields_bytes b ++ y).
Definition start_le (a b : KeyRange) : Prop := range_start a ≤ₗ range_start b.

Lemma fields_bytes_snoc a v x : fields_bytes (a ++ [v]) ++ x = fields_bytes a ++ scalar_bytes v ++ x.
Proof. unfold fields_bytes. rewrite fmap_app, concat_app. cbn. by rewrite app_nil_r, <-app_assoc. Qed.
Lemma scalar_rank_lt ty v w x y :
  field_ok ty v → field_ok ty w → rank v < rank w → (scalar_bytes v ++ x) <ₗ (scalar_bytes w ++ y).
Proof.
  intros Hv Hw Hlt. pose proof (scalar_compare ty v w x y Hv Hw) as Hc.
  rewrite (typed_order_rank ty), (proj2 (Z.compare_lt_iff _ _) Hlt) in Hc by done. by injection Hc.
Qed.
Lemma pre_lt_snoc a b v w : pre_lt a b → pre_lt (a ++ [v]) (b ++ [w]).
Proof. intros H x y. rewrite !fields_bytes_snoc. apply H. Qed.
Lemma pre_lt_last ty a v w :
  field_ok ty v → field_ok ty w → rank v < rank w → pre_lt (a ++ [v]) (a ++ [w]).
Proof.
  intros Hv Hw Hlt x y. rewrite !fields_bytes_snoc. unfold lex_lt. rewrite lex_cmp_app.
  by apply (scalar_rank_lt ty).
Qed.

Lemma StronglySorted_bind {A B} (S : A → A → Prop) (R : B → B → Prop) (f : A → list B) l :
  StronglySorted S l → (∀ a, a ∈ l → StronglySorted R (f a)) →
  (∀ a b x y, S a b → x ∈ f a → y ∈ f b → R x y) → StronglySorted R (l ≫= f).
Proof.
  intros Hl Hf Hcross. induction Hl as [|a l Hl IH Ha]; cbn; [constructor|].
  apply StronglySorted_app. split_and!.
  - intros x y Hx (b & Hy & Hb)%list_elem_of_bind. eapply Hcross; [|exact Hx|exact Hy].
    rewrite Forall_forall in Ha. by apply Ha, list_elem_of_In.
  - apply Hf, list_elem_of_here.
  - apply IH. intros b Hb. by apply Hf, list_elem_of_further.
Qed.
Lemma StronglySorted_map {A B} (S : A → A → Prop) (R : B → B → Prop) (l : list A) (k : list B)
    (P : A → B → Prop) :
  Forall2 P l k → StronglySorted S l → (∀ a b x y, S a b → P a x → P b y → R x y) → StronglySorted R k.
Proof.
  intros HP HS HR. revert HS. induction HP as [|a x l k Hax HP IH]; intros HS; [constructor|].
  apply StronglySorted_inv in HS as [HS Ha]. constructor; [by apply IH|].
  clear -HP Ha HR Hax. induction HP as [|b y l k Hby _ IH]; constructor; apply Forall_cons_iff in Ha as [Hab Ha];
    [by eapply HR|by apply IH].
Qed.

Lemma StronglySorted_with {A} (R : A → A → Prop) (P : A → Prop) l :
  StronglySorted R l → Forall P l → StronglySorted (λ x y, P x ∧ P y ∧ R x y) l.
Proof.
  intros HS. induction HS as [|x l HS IH Hx]; intros HP; [constructor|].
  apply Forall_cons_iff in HP as [Px HP]. constructor; [by apply IH|].
  rewrite Forall_forall in *. intros y Hy. split_and!; auto.
Qed.

(** Normal intervals have increasing lower bounds. *)
Definition lower_lt (i j : Interval) : Prop :=
  ∃ l, iv_lo j = Some l ∧ match iv_lo i with Some l' => rank l' < rank l | None => True end.
Lemma normal_sorted ty l : normal ty l → StronglySorted lower_lt l.
Proof.
  intros Hn. apply Sorted_StronglySorted.
  { intros i j k (lj & Ej & Hij) (lk & Ek & Hjk). exists lk. split; [done|]. rewrite Ej in Hjk.
    destruct (iv_lo i); [lia|done]. }
  induction l as [|i l IH]; [constructor|]. destruct Hn as (Hok & He & Hsep & Hn). constructor; [by apply IH|].
  destruct l as [|j l]; constructor. unfold separated in Hsep.
  destruct (iv_hi i) as [h|] eqn:Eh; [|done]. destruct (iv_lo j) as [lj|] eqn:Ej; [|done].
  exists lj. split; [done|]. destruct (iv_lo i) as [li|] eqn:Ei; [|done].
  pose proof (interval_nonempty_spec ty i li h Hok He Ei Eh). lia.
Qed.

Lemma collect_points_spec ty s l :
  set_ok ty s → Forall (interval_ok ty) l →
  ∃ o, collect_points s l = Ok o ∧
    ∀ points, o = Some points →
      Forall2 (λ i x, field_ok ty x ∧ iv_lo i = Some x ∧
        ∀ v, field_ok ty v → in_interval i v → v = x) l points.
Proof.
  intros Hs. induction 1 as [|i l Hi Hl (o & Ho & IH)]; cbn [collect_points].
  { exists (Some []). split; [done|]. intros points [= <-]. constructor. }
  destruct (point_value_spec ty s i Hs Hi) as (p & Hp & Hx). rewrite Hp, Ho. cbn [mbind result_bind].
  destruct p as [x|]; [|by exists None]. cbn [mbind result_bind]. eexists. split; [done|].
  intros points Hpts. destruct o as [points'|]; [|done]. injection Hpts as <-. constructor; [by apply Hx|by apply IH].
Qed.

Section expand.
Context (index : Z) (types : list DataType.t) (range_limit : Z).
Abbreviation tree_key vs := (tree_manifest_key index (fields_bytes vs)).

(** The expansion reaches every key of the product: through a pushed range or
    through one of the remaining prefixes. *)
Definition expansion_covers (n : nat) (sets : list (option FieldSet)) (prefixes : list (list Value.t))
    (out : option (list KeyRange * list (list Value.t))) : Prop :=
  ∀ vs, fields_ok types vs → take n vs ∈ prefixes → in_product sets (drop n vs) →
    ∃ ranges rest, out = Some (ranges, rest) ∧
      ((∃ r, r ∈ ranges ∧ in_key_range r (tree_key vs)) ∨ ∃ m, take m vs ∈ rest).

Lemma interval_range_covers n ty vs v i r :
  types !! n = Some ty → interval_ok ty i → fields_ok types vs → vs !! n = Some v → in_interval i v →
  materialize_range index types (take n vs) (iv_lo i) (iv_hi i) = Ok r → in_key_range r (tree_key vs).
Proof using.
  intros Hty [Hlo Hhi] Hvs Hv [Hlov Hhiv] ->%materialize_range_ok.
  assert (length (take n vs) = n) as Hlen by (rewrite length_take; apply lookup_lt_Some in Hv; lia).
  destruct (Forall2_lookup_l _ _ _ _ _ Hvs Hty) as (v' & Hv' & Hfv). rewrite Hv in Hv'. injection Hv' as <-.
  pose proof (take_drop_middle vs n v Hv) as E. rewrite <-E in Hvs.
  assert (tree_key vs = tree_key (take n vs ++ v :: drop (S n) vs)) as -> by (by rewrite E).
  apply (plan_range_covers types index (take n vs) v _ ty (iv_lo i) (iv_hi i)); [done|by rewrite Hlen|..].
  - intros l El. rewrite El in *. split; [done|]. rewrite (typed_order_rank ty) by done.
    intros [= Hgt%Z.compare_gt_iff]. cbn in Hlov. lia.
  - intros u Eu. rewrite Eu in *. split; [done|]. rewrite (typed_order_rank ty) by done.
    intros [= Hgt%Z.compare_gt_iff]. cbn in Hhiv. lia.
Qed.

Lemma expand_loop_covers n sets prefixes out :
  sets_ok (drop n types) sets → expand_loop index types range_limit sets prefixes = Ok out →
  expansion_covers n sets prefixes out.
Proof using.
  revert n prefixes. induction sets as [|s sets IH]; intros n prefixes Hok H; cbn in H.
  { apply Ok_inj in H as <-. intros vs _ Hin _. exists [], prefixes. split; [done|]. right. by exists n. }
  destruct s as [s|].
  2: { apply Ok_inj in H as <-. intros vs _ Hin _. exists [], prefixes. split; [done|]. right. by exists n. }
  apply Forall2_cons_inv_r in Hok as (ty & types' & Hs & Hok & Ed).
  assert (types !! n = Some ty) as Hty by (rewrite <-(Nat.add_0_r n), <-lookup_drop, Ed; done).
  intros vs Hvs Hin Hprod. destruct (Forall2_lookup_l _ _ _ _ _ Hvs Hty) as (v & Hv & Hfv).
  rewrite (drop_S vs v n Hv) in Hprod. apply Forall2_cons_1 in Hprod as [Hsv Hprod]. cbn [in_field] in Hsv.
  unfold in_set in Hsv. case_decide as E; [rewrite E in Hsv; by apply in_intervals_nil in Hsv|].
  destruct (2 ^ 64 <=? _); [done|]. destruct (range_limit <? _).
  { apply Ok_inj in H as <-. exists [], prefixes. split; [done|]. right. by exists n. }
  destruct (collect_points_spec ty s (fst_intervals s) Hs) as (o & Ho & Hpts); [by apply normal_ok, Hs|].
  rewrite Ho in H. cbn [mbind result_bind] in H. destruct Hsv as (i & Hi & Hiv). destruct o as [points|].
  - eapply (IH (S n)); [|exact H|done| |done].
    { replace (S n) with (n + 1)%nat by lia. by rewrite <-drop_drop, Ed. }
    rewrite (take_S_r vs n v Hv). apply list_elem_of_bind. exists (take n vs). split; [|done].
    apply list_elem_of_bind. exists v. split; [by apply list_elem_of_singleton|].
    apply list_elem_of_lookup in Hi as [k Hk].
    destruct (Forall2_lookup_l _ _ _ _ _ (Hpts points eq_refl) Hk) as (x & Hx & _ & _ & Hv').
    rewrite (Hv' v Hfv Hiv). by eapply list_elem_of_lookup_2.
  - apply bind_ok in H as (ranges & Hr & H). apply Ok_inj in H as <-. exists ranges, []. split; [done|]. left.
    unfold materialize_all in Hr. apply mapM_ok in Hr.
    assert ((take n vs, i) ∈ (prefix ← prefixes; i ← fst_intervals s; [(prefix, i)])) as Hpair.
    { apply list_elem_of_bind. exists (take n vs). split; [|done]. apply list_elem_of_bind. exists i.
      split; [by apply list_elem_of_singleton|done]. }
    apply list_elem_of_lookup in Hpair as [k Hk]. destruct (Forall2_lookup_l _ _ _ _ _ Hr Hk) as (r & Hrk & Hm).
    exists r. split; [by eapply list_elem_of_lookup_2|]. cbn in Hm.
    eapply interval_range_covers; [done| |done..].
    destruct Hs as [_ Hs%normal_ok]. rewrite Forall_forall in Hs. by apply Hs, list_elem_of_In.
Qed.

Lemma points_sorted ty (l : list Interval) points :
  normal ty l →
  Forall2 (λ i x, field_ok ty x ∧ iv_lo i = Some x ∧ ∀ v, field_ok ty v → in_interval i v → v = x) l points →
  StronglySorted (λ x y, field_ok ty x ∧ field_ok ty y ∧ rank x < rank y) points.
Proof using.
  intros Hn%normal_sorted HF. eapply StronglySorted_map; [exact HF|exact Hn|].
  intros i j x y (lj & Ej & Hij) (Hx & Exi & _) (Hy & Eyj & _). simplify_eq. by rewrite Exi in Hij.
Qed.
Lemma expand_loop_sorted n sets prefixes ranges rest :
  sets_ok (drop n types) sets → StronglySorted pre_lt prefixes →
  expand_loop index types range_limit sets prefixes = Ok (Some (ranges, rest)) →
  (ranges = [] ∧ StronglySorted pre_lt rest) ∨ (rest = [] ∧ StronglySorted start_le ranges).
Proof using.
  revert n prefixes. induction sets as [|s sets IH]; intros n prefixes Hok Hp H; cbn in H.
  { simplify_eq. by left. }
  destruct s as [s|]; [|simplify_eq; by left].
  apply Forall2_cons_inv_r in Hok as (ty & types' & Hs & Hok & Ed).
  case_decide; [done|]. destruct (2 ^ 64 <=? _); [done|]. destruct (range_limit <? _); [simplify_eq; by left|].
  destruct (collect_points_spec ty s (fst_intervals s) Hs) as (o & Ho & Hpts); [by apply normal_ok, Hs|].
  rewrite Ho in H. cbn [mbind result_bind] in H. destruct o as [points|].
  - eapply (IH (S n)); [| |exact H].
    { replace (S n) with (n + 1)%nat by lia. by rewrite <-drop_drop, Ed. }
    pose proof (points_sorted ty _ points (proj2 Hs) (Hpts points eq_refl)) as Hsorted.
    eapply StronglySorted_bind; [exact Hp|..].
    + intros a _. eapply StronglySorted_bind; [exact Hsorted|..].
      * intros x _. by repeat constructor.
      * intros x y p q (Hx & Hy & Hlt) ->%list_elem_of_singleton ->%list_elem_of_singleton. by eapply pre_lt_last.
    + intros a b p q Hab (x & ->%list_elem_of_singleton & _)%list_elem_of_bind
        (y & ->%list_elem_of_singleton & _)%list_elem_of_bind. by apply pre_lt_snoc.
  - right. apply bind_ok in H as (rs & Hr & H). apply Ok_inj in H. simplify_eq. split; [done|].
    unfold materialize_all in Hr. apply mapM_ok in Hr.
    pose proof (normal_ok ty _ (proj2 Hs)) as Hiok. rewrite Forall_forall in Hiok.
    eapply (StronglySorted_map (λ p q : list Value.t * Interval,
      pre_lt p.1 q.1 ∨ p.1 = q.1 ∧ interval_ok ty p.2 ∧ interval_ok ty q.2 ∧ lower_lt p.2 q.2)); [exact Hr|..].
    + eapply StronglySorted_bind; [exact Hp|..].
      * intros a _.
        assert (StronglySorted (λ i j, interval_ok ty i ∧ interval_ok ty j ∧ lower_lt i j) (fst_intervals s)) as Hss.
        { by apply StronglySorted_with, Forall_forall; [apply normal_sorted with ty, Hs|]. }
        eapply StronglySorted_bind; [exact Hss|..].
        -- intros i _. by repeat constructor.
        -- intros i j p q Hij ->%list_elem_of_singleton ->%list_elem_of_singleton. by right.
      * intros a b p q Hab (x & ->%list_elem_of_singleton & _)%list_elem_of_bind
          (y & ->%list_elem_of_singleton & _)%list_elem_of_bind. by left.
    + intros [p i] [q j] x y Hpq Hx%materialize_range_ok Hy%materialize_range_ok. cbn in *. subst.
      unfold start_le, tree_manifest_plan_range. cbn [range_start]. unfold lex_le. rewrite lex_cmp_app.
      destruct Hpq as [Hlt|(-> & [Hi _] & [Hj _] & l & El & Hl)].
      * specialize (Hlt (default [] (scalar_bytes <$> iv_lo i)) (default [] (scalar_bytes <$> iv_lo j))).
        unfold lex_lt in Hlt. by rewrite Hlt.
      * rewrite lex_cmp_app. rewrite El in *. destruct (iv_lo i) as [li|]; cbn.
        -- pose proof (scalar_rank_lt ty li l [] [] Hi Hj Hl) as Hlt. rewrite !app_nil_r in Hlt. unfold lex_lt in Hlt. by rewrite Hlt.
        -- by destruct (scalar_bytes l).
Qed.
End expand.

(** ** Merging *)
Definition covered (l : list KeyRange) (key : list Z) : Prop := ∃ r, r ∈ l ∧ in_key_range r key.
Definition gap (a b : KeyRange) : Prop := range_end a <ₗ range_start b.

Lemma covered_cons r l key : covered (r :: l) key ↔ in_key_range r key ∨ covered l key.
Proof. unfold covered. setoid_rewrite elem_of_cons. naive_solver. Qed.

(** Extending the last range by an overlapping one covers exactly both. *)
Lemma extended_range last range key :
  start_le last range → range_start range ≤ₗ range_end last →
  let merged := if bool_decide (range_end last <ₗ range_end range)
                then mkRange (range_start last) (range_end range) else last in
  in_key_range merged key ↔ in_key_range last key ∨ in_key_range range key.
Proof.
  intros Hs Ho merged. unfold in_key_range. subst merged. case_bool_decide as E; cbn [range_start range_end].
  - split.
    + intros [H1 H2]. destruct (decide (key <ₗ range_end last)) as [|Hge%lex_le_not_lt]; [by left|].
      right. split; [by etrans|done].
    + intros [[H1 H2]|[H1 H2]]; split; try done; [by eapply lex_lt_trans|by etrans].
  - apply lex_le_not_lt in E. split; [tauto|]. intros [?|[H1 H2]]; [done|]. split; [by etrans|by eapply lex_lt_le_trans].
Qed.
Lemma merge_ranges_loop_spec last l :
  StronglySorted start_le (last :: l) →
  (∃ r l', merge_ranges_loop last l = r :: l' ∧ range_start r = range_start last) ∧
  Sorted gap (merge_ranges_loop last l) ∧
  ∀ key, covered (merge_ranges_loop last l) key ↔ covered (last :: l) key.
Proof.
  revert last. induction l as [|r l IH]; intros last Hs; cbn [merge_ranges_loop].
  { split_and!; [by eexists _, _|by repeat constructor|done]. }
  apply StronglySorted_inv in Hs as [Hs Hd]. apply Forall_cons_iff in Hd as [Hlr Hd].
  case_bool_decide as Eo.
  - set (m := if bool_decide _ then _ else _).
    assert (range_start m = range_start last) as Em by (unfold m; by case_bool_decide).
    destruct (IH m) as ((r' & l' & E & Er) & Hgap & Hcov).
    { apply StronglySorted_inv in Hs as [Hs Hd']. constructor; [done|]. unfold start_le in *. by rewrite Em. }
    split_and!; [exists r', l'; by rewrite Er, Em|done|]. intros key.
    rewrite Hcov, !covered_cons. unfold m. rewrite extended_range by done. tauto.
  - destruct (IH r Hs) as ((r' & l' & E & Er) & Hgap & Hcov). split_and!; [by eexists _, _| |].
    + constructor; [done|]. rewrite E. constructor. unfold gap. rewrite Er.
      destruct (decide (range_end last <ₗ range_start r)) as [|Hn%lex_le_not_lt]; [done|]. by exfalso.
    + intros key. by rewrite covered_cons, Hcov, (covered_cons last).
Qed.
Lemma merge_ranges_spec l :
  StronglySorted start_le l →
  Sorted gap (merge_ranges l) ∧ ∀ key, covered (merge_ranges l) key ↔ covered l key.
Proof.
  intros Hs. destruct l as [|r l]; [by split; [constructor|]|]. by destruct (merge_ranges_loop_spec r l Hs) as (_ & ? & ?).
Qed.

(** ** Typed checks *)
Lemma accepts_loop_in types n sets vs :
  sets_ok (drop n types) sets → fields_ok types vs → in_product sets (drop n vs) →
  accepts_loop (field_checks n sets) vs = Ok true.
Proof.
  revert n. induction sets as [|s sets IH]; intros n Hok Hvs Hin; [done|].
  apply Forall2_cons_inv_r in Hok as (ty & types' & Hs & Hok & Ed).
  apply Forall2_cons_inv_l in Hin as (v & vs' & Hsv & Hin & Ev).
  assert (types !! n = Some ty) as Hty by (rewrite <-(Nat.add_0_r n), <-lookup_drop, Ed; done).
  assert (vs !! n = Some v) as Hv by (rewrite <-(Nat.add_0_r n), <-lookup_drop, Ev; done).
  assert (accepts_loop (field_checks (S n) sets) vs = Ok true) as IH'.
  { apply IH; [|done|]; replace (S n) with (n + 1)%nat by lia; rewrite <-drop_drop; [by rewrite Ed|by rewrite Ev]. }
  destruct s as [s|]; cbn [field_checks accepts_loop]; [|done]. cbn [fc_ordinal fc_intervals].
  rewrite Hv. cbn [ok_or mbind result_bind].
  assert (field_ok ty v) as Hfv by exact (Forall2_lookup_lr _ _ _ _ _ _ Hvs Hty Hv).
  by rewrite (proj2 (contains_spec ty _ v (proj2 Hs) Hfv)).
Qed.

(** The constraints of an optional predicate. *)
Definition derive_option (predicate : option Predicate.t) (schema : TreeSchema) : result Constraints :=
  match predicate with Some p => derive p schema | None => Ok (Constraints_full (ts_types schema)) end.
Definition row_matches (row : list Value.t) (predicate : option Predicate.t) : Prop :=
  match predicate with Some p => sql_truth row p = TruthValue.True | None => True end.
Definition literals_ok (predicate : option Predicate.t) : Prop :=
  match predicate with Some p => Forall value_ok (literals p) | None => True end.

Lemma derive_option_sound ids schema predicate c :
  schema_ok ids schema → literals_ok predicate → derive_option predicate schema = Ok c →
  sets_ok (ts_types schema) (c_sets c) ∧
  ∀ row vs, tree_row ids row vs → fields_ok (ts_types schema) vs → row_matches row predicate →
    in_product (c_sets c) vs.
Proof.
  intros Hs Hl Hd. destruct predicate as [p|]; cbn in *.
  - destruct (derive_sound ids schema Hs p c Hl Hd) as [Hok Hin]. split; [done|].
    intros row vs Hrow Hvs Hm. rewrite sql_truth_ref in Hm. by apply (Hin row vs Hrow Hvs).
  - apply Ok_inj in Hd as <-. split; [apply full_sets_ok|]. intros row vs _ Hvs _. by apply full_in.
Qed.

(** ** The plan *)
Lemma plan_tree_keys_ok m predicate range_limit plan :
  plan_tree_keys m predicate range_limit = Ok plan →
  ∃ schema c out, TreeSchema_new m = Ok schema ∧ derive_option predicate schema = Ok c ∧
    expand_loop (im_logical_index_id m) (ts_types schema) range_limit (c_sets c) [[]] = Ok out ∧
    match out with
    | None => plan = mkPlan [] [] (ts_types schema)
    | Some (ranges, rest) =>
        ∃ mats, mapM (λ p, materialize_range (im_logical_index_id m) (ts_types schema) p None None) rest = Ok mats ∧
          plan = mkPlan (merge_ranges (ranges ++ mats)) (field_checks 0 (c_sets c)) (ts_types schema)
    end.
Proof.
  unfold plan_tree_keys. destruct (range_limit =? 0); [done|]. intros (schema & Hs & H)%bind_ok.
  apply bind_ok in H as (c & Hc & H). apply bind_ok in H as (out & Ho & H).
  exists schema, c, out. split_and!; [done..|]. destruct out as [[ranges rest]|].
  - apply bind_ok in H as (mats & Hm & H). apply Ok_inj in H as <-. eauto.
  - by apply Ok_inj in H as <-.
Qed.

(** The ranges before merging start in order. *)
Lemma unmerged_sorted index types limit sets ranges rest mats :
  sets_ok types sets → expand_loop index types limit sets [[]] = Ok (Some (ranges, rest)) →
  mapM (λ p, materialize_range index types p None None) rest = Ok mats →
  StronglySorted start_le (ranges ++ mats).
Proof.
  intros Hok He Hm%mapM_ok.
  destruct (expand_loop_sorted index types limit 0 sets [[]] ranges rest) as [[-> Hs]|[-> Hs]];
    [done|by repeat constructor|done|..].
  - cbn [app]. eapply StronglySorted_map; [exact Hm|exact Hs|].
    intros p q x y Hlt ->%materialize_range_ok ->%materialize_range_ok.
    unfold start_le, tree_manifest_plan_range, lex_le. cbn [range_start]. rewrite lex_cmp_app.
    pose proof (Hlt [] []) as E. unfold lex_lt in E. cbn. by rewrite E.
  - apply Forall2_nil_inv_l in Hm as ->. by rewrite app_nil_r.
Qed.
Lemma unmerged_covers index types limit sets out vs :
  sets_ok types sets → expand_loop index types limit sets [[]] = Ok out →
  fields_ok types vs → in_product sets vs →
  ∃ ranges rest, out = Some (ranges, rest) ∧
    ∀ mats, mapM (λ p, materialize_range index types p None None) rest = Ok mats →
      covered (ranges ++ mats) (tree_manifest_key index (fields_bytes vs)).
Proof.
  intros Hok He Hvs Hin.
  destruct (expand_loop_covers index types limit 0 sets [[]] out Hok He vs Hvs) as (ranges & rest & -> & Hcov);
    [by apply list_elem_of_singleton|done|].
  exists ranges, rest. split; [done|]. intros mats Hm%mapM_ok. destruct Hcov as [(r & Hr & Hk)|(n & Hn)].
  - exists r. split; [|done]. apply elem_of_app. by left.
  - apply list_elem_of_lookup in Hn as [k Hk]. destruct (Forall2_lookup_l _ _ _ _ _ Hm Hk) as (r & Hr & ->%materialize_range_ok).
    eexists. split; [apply elem_of_app; right; by eapply list_elem_of_lookup_2|].
    rewrite <-(take_drop n vs) in Hvs. pose proof (prefix_plan_covers types index _ _ Hvs) as Hc.
    by rewrite take_drop in Hc.
Qed.

(** C17: The planner misses no tree: whatever the predicate, its negations and
    the range limit, the key of every tree that can hold a record satisfying the
    predicate under SQL semantics lies in one of the planned directory ranges,
    and the plan's typed check accepts it. *)
Theorem plan_misses_nothing m predicate range_limit plan types row vs key :
  plan_tree_keys m predicate range_limit = Ok plan → literals_ok predicate →
  tree_key_types m = Ok types → tree_row (ic_tree_key_fields (im_config m)) row vs →
  Forall value_ok vs → TreeKey_encode types vs = Ok key → row_matches row predicate →
  accepts plan key = Ok true ∧
  ∃ r, r ∈ pl_ranges plan ∧ in_key_range r (tree_manifest_key (im_logical_index_id m) key).
Proof.
  intros (schema & c & out & Hs & Hd & He & Hplan)%plan_tree_keys_ok Hl Ht Hrow Hv Hkey Hm.
  apply TreeSchema_new_ok in Hs as [Ht' Hschema]. rewrite Ht in Ht'. apply Ok_inj in Ht' as ->.
  destruct (derive_option_sound _ _ _ _ Hschema Hl Hd) as [Hok Hin].
  pose proof Hkey as (Htv & -> & Hlen)%TreeKey_encode_spec.
  assert (fields_ok (ts_types schema) vs) as Hvs by by apply fields_ok_split.
  specialize (Hin row vs Hrow Hvs Hm).
  destruct (unmerged_covers _ _ _ _ _ _ Hok He Hvs Hin) as (ranges & rest & -> & Hcov).
  destruct Hplan as (mats & Hmats & ->). specialize (Hcov mats Hmats).
  pose proof (unmerged_sorted _ _ _ _ _ _ _ Hok He Hmats) as Hsorted.
  apply merge_ranges_spec in Hsorted as [_ Hmerged]. apply Hmerged in Hcov. split; [|exact Hcov].
  unfold accepts. cbn [pl_ranges pl_checks pl_types].
  case_decide as E. { destruct Hcov as (r & Hr & _). rewrite E in Hr. by apply elem_of_nil in Hr. }
  case_decide; [done|]. unfold TreeKey_values.
  assert (decode_complete (ts_types schema) (fields_bytes vs) = Ok vs) as ->.
  { apply decode_complete_spec; [by eapply fields_bytes_ok|]. done. }
  cbn [mbind result_bind]. by apply (accepts_loop_in (ts_types schema) 0).
Qed.

(** The planned directory ranges are in key order with a gap between
    consecutive ranges, so paging through them visits no key twice. *)
Lemma plan_ranges_disjoint m predicate range_limit plan :
  plan_tree_keys m predicate range_limit = Ok plan → literals_ok predicate →
  Sorted (λ a b, range_end a <ₗ range_start b) (pl_ranges plan).
Proof.
  intros (schema & c & out & Hs & Hd & He & Hplan)%plan_tree_keys_ok Hl.
  apply TreeSchema_new_ok in Hs as [_ Hschema].
  destruct (derive_option_sound _ _ _ _ Hschema Hl Hd) as [Hok _].
  destruct out as [[ranges rest]|]; [|subst; constructor]. destruct Hplan as (mats & Hmats & ->).
  apply merge_ranges_spec. by eapply unmerged_sorted.
Qed.

(** NOT (b <> 'x') AND (a IN (3, 5) OR a > 9) AND c IS NULL *)
Definition plan_predicate : Predicate.t :=
  Predicate.And
    [Predicate.Not (Predicate.Compare 1 CompareOp.NotEq (Value.String [120]));
     Predicate.Or [Predicate.In 0 [Value.I64 3; Value.I64 5]; Predicate.Compare 0 CompareOp.Gt (Value.I64 9)];
     Predicate.IsNull 2].
Definition plan_result : TreeKeyPlan :=
  match plan_tree_keys plan_manifest (Some plan_predicate) 16 with
  | Ok plan => plan | _ => mkPlan [] [] [] end.
Lemma plan_misses_nothing_witness :
  accepts plan_result (fields_bytes [Value.String [120]; Value.I64 12]) = Ok true ∧
  ∃ r, r ∈ pl_ranges plan_result ∧
    in_key_range r (tree_manifest_key 7 (fields_bytes [Value.String [120]; Value.I64 12])).
Proof.
  apply (plan_misses_nothing plan_manifest (Some plan_predicate) 16 plan_result
    [DataType.String; DataType.I64] [Value.I64 12; Value.String [120]; Value.Null]
    [Value.String [120]; Value.I64 12]).
  - vm_compute; reflexivity.
  - dec_compute.
  - reflexivity.
  - repeat constructor.
  - dec_compute.
  - vm_compute; reflexivity.
  - vm_compute; reflexivity.
Defined.

(** ** Planning a validated request succeeds *)

(** The schema of a validated configuration, with the types of its fields. *)
Definition schema_typed (fs : list FieldSchema) (schema : TreeSchema) : Prop :=
  length (ts_ordinal_by_schema_pos schema) = length fs ∧
  ∀ field o f, ts_ordinal_by_schema_pos schema !! Z.to_nat field = Some (Some o) →
    fs !! Z.to_nat field = Some f → ts_types schema !! o = Some (fs_data_type f).

Lemma ordinals_loop_total n ids positions :
  Forall (λ id, (Z.to_nat id < length positions)%nat) ids →
  ∃ out, ordinals_loop n ids positions = Ok out ∧ length out = length positions.
Proof.
  revert n positions. induction ids as [|id ids IH]; intros n positions Hids; cbn; [eauto|].
  apply Forall_cons_iff in Hids as [Hid Hids]. destruct (lookup_lt_is_Some_2 positions (Z.to_nat id) Hid) as [x ->].
  cbn. destruct (IH (S n) (<[Z.to_nat id := Some n]> positions)) as (out & -> & Hl).
  - eapply Forall_impl; [|exact Hids]. intros y Hy. by rewrite length_insert.
  - exists out. by rewrite Hl, length_insert.
Qed.
Lemma tree_types_loop_lookup fs ids types o id f :
  tree_types_loop fs ids = Ok types → ids !! o = Some id → fs !! Z.to_nat id = Some f →
  types !! o = Some (fs_data_type f).
Proof.
  revert types o. induction ids as [|x ids IH]; intros types o H Ho Hf; cbn in H; [done|].
  apply bind_ok in H as (g & Hg%or_panic_ok & H). apply bind_ok in H as (ts & Hts & H). apply Ok_inj in H as <-.
  destruct o as [|o]; [|by apply (IH ts o Hts Ho Hf)]. injection Ho as ->. rewrite Hf in Hg. by injection Hg as ->.
Qed.
Lemma validated_schema m :
  IndexConfig_validate (im_config m) = Ok tt → Forall u16_ok (ic_tree_key_fields (im_config m)) →
  ∃ schema, TreeSchema_new m = Ok schema ∧ schema_typed (fields m) schema ∧
    schema_ok (ic_tree_key_fields (im_config m)) schema ∧
    ∀ vs, fields_ok (ts_types schema) vs → len (fields_bytes vs) ≤ MAX_TREE_KEY_BYTES.
Proof.
  intros Hv Hids. destruct (validated_tree_schema m Hv Hids) as (types & Ht & Hfit).
  apply config_validate_inv in Hv as (_ & _ & Htree & _). unfold validate_tree_key_fields in Htree.
  apply bind_ok in Htree as (total & (_ & _ & Hall & types' & Hloop & _)%tree_fields_loop_spec & _).
  destruct (ordinals_loop_total 0 (ic_tree_key_fields (im_config m)) (replicate (length (fields m)) None)) as (out & Ho & Hlen).
  { eapply Forall_impl; [|exact Hall]. intros id (f & Hf & _). rewrite length_replicate. by eapply lookup_lt_Some. }
  exists (mkTreeSchema types out).
  assert (TreeSchema_new m = Ok (mkTreeSchema types out)) as Hnew
    by (unfold TreeSchema_new; rewrite Ht; cbn; by rewrite Ho).
  destruct (TreeSchema_new_ok _ _ Hnew) as [_ Hok]. split_and!; [done| |done..].
  rewrite length_replicate in Hlen. split; [done|]. intros field o f Hpos Hf.
  destruct Hok as [_ Hord]. destruct (Hord field o Hpos) as (id & Hid & E). rewrite <-E in Hf.
  unfold tree_key_types in Ht. apply bind_ok in Ht as (ts & Hts & Ht). destruct (MAX_FIELDS <? _) eqn:En; [done|].
  apply Ok_inj in Ht as ->. cbn [ts_types]. eapply tree_types_loop_lookup; [exact Hts| |exact Hf].
  apply Z.ltb_ge in En. unfold ztake, len in *. rewrite take_ge by lia. done.
Qed.

Lemma predicate_valid_literals fs p : predicate_valid fs p → Forall value_ok (literals p).
Proof.
  induction p as [ps IH|ps IH|p IH|f op v|f vs|f|f] using predicate_ind; intros H; inversion H as [? Hps|? Hps|? Hp|???? Hf Hl|??? Hf Hl|?? Hf|?? Hf]; subst; cbn [literals].
  1-2: clear H; induction IH as [|p ps Hp _ IH']; [constructor|]; apply Forall_cons_iff in Hps as [Hv Hps];
    rewrite fmap_cons, concat_cons; apply Forall_app; auto.
  - auto.
  - constructor; [apply Hl|constructor].
  - eapply Forall_impl; [|exact Hl]. by intros x [? _].
  - constructor.
  - constructor.
Qed.
Lemma check_typed_total ty v : field_ok ty v → check_typed ty v = Ok tt.
Proof.
  unfold check_typed. intros [Hv Hc]. destruct ty, v; try done; cbn in *; [|by rewrite Hc].
  unfold F64.canonical, F64.is_zero in *. rewrite f64_magnitude in * by done. bprop. destruct Hc as [-> Hz]. cbn.
  destruct (F64.sign_negative bits) eqn:Es; [destruct Hz as [Hz|]; [by rewrite (proj2 (Z.eqb_neq _ _) Hz)|done]|]. by destruct (bits =? 0).
Qed.
Lemma in_intervals_loop_total ty values :
  Forall (field_ok ty) values → ∃ l, in_intervals_loop ty values = Ok l ∧ Forall (interval_ok ty) l.
Proof.
  induction 1 as [|v values Hv _ (l & IH & Hl)]; cbn; [by eexists|]. rewrite check_typed_total by done. cbn.
  destruct (point_interval_spec ty v Hv) as (next & -> & Hi & _). cbn. rewrite IH. cbn. eexists. split; [done|]. by constructor.
Qed.
Lemma loops_total (f : Predicate.t → result Constraints) ps acc :
  Forall (λ p, ∃ c, f p = Ok c) ps → (∃ c, and_loop f ps acc = Ok c) ∧ (∃ c, or_loop f ps acc = Ok c).
Proof.
  intros Hps. revert acc. induction Hps as [|p ps [c Hc] _ IH]; intros acc; [by split; eexists|].
  cbn. rewrite Hc. cbn. split; apply IH.
Qed.
Lemma set_field_total types o ty s :
  types !! o = Some ty → ∃ c, set_field (Constraints_full types) o s = Ok c.
Proof.
  intros Hty. unfold set_field, Constraints_full. cbn [c_sets].
  rewrite lookup_replicate_2 by (by eapply lookup_lt_Some). by eexists.
Qed.

Section total.
Context (fs : list FieldSchema) (ids : list Z) (schema : TreeSchema).
Context (Hschema : schema_ok ids schema) (Htyped : schema_typed fs schema).

Lemma ordinal_total field f :
  fs !! Z.to_nat field = Some f →
  ∃ o, TreeSchema_ordinal schema field = Ok o ∧
    ∀ n, o = Some n → ts_types schema !! n = Some (fs_data_type f).
Proof using Htyped.
  intros Hf. destruct Htyped as [Hlen Hty]. unfold TreeSchema_ordinal.
  destruct (lookup_lt_is_Some_2 (ts_ordinal_by_schema_pos schema) (Z.to_nat field)) as [o Ho].
  { rewrite Hlen. by eapply lookup_lt_Some. }
  rewrite Ho. exists o. split; [done|]. intros n ->. by eapply Hty.
Qed.
Lemma negated_total c :
  sets_ok (ts_types schema) (c_sets c) → ∃ c', Constraints_negated c (ts_types schema) = Ok c'.
Proof using.
  intros Hok. destruct (decide (ts_types schema = [])) as [E|Hne].
  - rewrite E in *. apply Forall2_nil_inv_l in Hok. unfold Constraints_negated. rewrite Hok. by eexists.
  - destruct (negated_spec _ _ Hne Hok) as (c' & -> & _). by eexists.
Qed.
Lemma derive_total p : predicate_valid fs p → ∃ c, derive p schema = Ok c.
Proof using Hschema Htyped.
  induction p as [ps IH|ps IH|p IH|field op v|field vs|field|field] using predicate_ind; intros Hv;
    pose proof (predicate_valid_literals _ _ Hv) as Hlit;
    inversion Hv as [? Hps|? Hps|? Hp|???? Hf [Hl Tl]|??? Hf Hl|?? Hf|?? Hf]; subst; cbn [derive].
  1-2: assert (Forall (λ p, ∃ c, derive p schema = Ok c) ps) as Hall
    by (rewrite Forall_forall in *; eauto).
  - by apply loops_total.
  - destruct (loops_total (λ p, derive p schema) ps (Constraints_impossible (ts_types schema)) Hall) as [_ [c ->]].
    by eexists.
  - destruct (IH Hp) as [c Hc]. rewrite Hc. cbn [mbind result_bind]. case_match; [|by eexists].
    apply negated_total. by apply (derive_sound ids schema Hschema p c Hlit).
  - destruct (ordinal_total field f Hf) as ([o|] & -> & Hty); cbn [mbind result_bind]; [|by eexists].
    rewrite (Hty o eq_refl). cbn [or_panic mbind result_bind].
    assert (field_ok (fs_data_type f) v) as Hfv by done. rewrite check_typed_total by done. cbn [mbind result_bind].
    destruct (from_compare_spec _ op v Hfv) as (s & -> & _). cbn [mbind result_bind]. eapply set_field_total; eauto.
  - destruct (ordinal_total field f Hf) as ([o|] & -> & Hty); cbn [mbind result_bind]; [|by eexists].
    rewrite (Hty o eq_refl). cbn [or_panic mbind result_bind].
    destruct (in_intervals_loop_total (fs_data_type f) vs Hl) as (l & -> & _). cbn [mbind result_bind]. eapply set_field_total; eauto.
  - destruct (ordinal_total field f Hf) as ([o|] & -> & Hty); cbn [mbind result_bind]; [|by eexists].
    rewrite (Hty o eq_refl). cbn [or_panic mbind result_bind]. eapply set_field_total; eauto.
  - destruct (ordinal_total field f Hf) as ([o|] & -> & Hty); cbn [mbind result_bind]; by eexists.
Qed.
End total.

(** ** How wide a derived set is

    Each literal of a predicate contributes at most two intervals, so the sets
    derived from a validated predicate stay far below the 64-bit products the
    expansion computes. *)
Fixpoint interval_weight (p : Predicate.t) : Z :=
  match p with
  | Predicate.And ps | Predicate.Or ps => foldr Z.add 0 (interval_weight <$> ps)
  | Predicate.Not p => 1 + interval_weight p
  | Predicate.Compare _ _ _ => 2
  | Predicate.In _ values => len values
  | Predicate.IsNull _ | Predicate.IsNotNull _ => 0
  end.
Definition field_narrow (k : Z) (s : option FieldSet) : Prop :=
  match s with Some s => len (fst_intervals s) ≤ k | None => True end.
Definition narrow (k : Z) (sets : list (option FieldSet)) : Prop := Forall (field_narrow k) sets.

Lemma interval_weight_nonneg p : 0 ≤ interval_weight p.
Proof.
  induction p as [ps IH|ps IH|p IH|f op v|f vs|f|f] using predicate_ind; cbn [interval_weight]; try lia; [..|apply len_nonneg].
  all: induction IH as [|p ps Hp _ IHps]; [done|]; rewrite fmap_cons; cbn [foldr]; lia.
Qed.
Lemma narrow_mono k l sets : k ≤ l → narrow k sets → narrow l sets.
Proof. intros Hkl. apply Forall_impl. intros [s|]; cbn; lia. Qed.
Lemma full_narrow k types : narrow k (c_sets (Constraints_full types)).
Proof. induction types; constructor; done. Qed.
Lemma impossible_narrow k types : 0 ≤ k → narrow k (c_sets (Constraints_impossible types)).
Proof. intros Hk. induction types; constructor; done. Qed.
Lemma set_field_narrow types o s c k :
  len (fst_intervals s) ≤ k → set_field (Constraints_full types) o s = Ok c → narrow k (c_sets c).
Proof.
  intros Hs (x & _ & H)%bind_ok. apply Ok_inj in H as <-. cbn [c_sets]. apply Forall_insert; [|done]. apply full_narrow.
Qed.
Lemma zip_narrow f types a b k l :
  (∀ ty s t, field_set_ok ty s → field_set_ok ty t → field_narrow k s → field_narrow l t → field_narrow (k + l) (f s t)) →
  sets_ok types a → sets_ok types b → narrow k a → narrow l b → narrow (k + l) (zip_fields f a b).
Proof.
  intros Hf Ha. revert b. induction Ha as [|ty s types a Hs Ha IH]; intros b Hb Hka Hlb; [constructor|].
  apply Forall2_cons_inv_l in Hb as (t & b' & Ht & Hb & ->).
  apply Forall_cons_iff in Hka as [Hk Hka], Hlb as [Hl Hlb]. cbn [zip_fields]. constructor; [by eapply Hf|by apply IH].
Qed.
Lemma intersect_narrow types a b k l :
  0 ≤ k → 0 ≤ l → sets_ok types a → sets_ok types b → narrow k a → narrow l b →
  narrow (k + l) (zip_fields intersect_field a b).
Proof.
  intros Hk Hl. apply zip_narrow. intros ty [s|] [t|] Hs Ht Hsk Htl; cbn [field_narrow field_set_ok intersect_field union_field] in *; try lia.
  pose proof (intersect_length ty s t Hs Ht). lia.
Qed.
Lemma union_narrow types a b k l :
  sets_ok types a → sets_ok types b → narrow k a → narrow l b → narrow (k + l) (zip_fields union_field a b).
Proof. apply zip_narrow. intros ty [s|] [t|] Hs Ht Hsk Htl; cbn [field_narrow field_set_ok intersect_field union_field] in *; try done. pose proof (union_length ty s t Hs). lia. Qed.

Section narrow.
Context (ids : list Z) (schema : TreeSchema) (Hschema : schema_ok ids schema).
Abbreviation types := (ts_types schema).
Definition derived (k : Z) (c : Constraints) : Prop := 0 ≤ k ∧ sets_ok types (c_sets c) ∧ narrow k (c_sets c).

Lemma loops_narrow f ps acc c k :
  Forall (λ p, ∀ c, f p = Ok c → derived (interval_weight p) c) ps → derived k acc →
  and_loop f ps acc = Ok c ∨ or_loop f ps acc = Ok c →
  derived (k + foldr Z.add 0 (interval_weight <$> ps)) c.
Proof using.
  intros Hps. revert acc k. induction Hps as [|p ps Hp Hps IH]; intros acc k Hacc H.
  { cbn. rewrite Z.add_0_r. destruct H as [H|H]; apply Ok_inj in H as <-; done. }
  rewrite fmap_cons. cbn [foldr]. rewrite Z.add_assoc. destruct Hacc as (Hk & Hok & Hn).
  destruct H as [(cp & Hcp & H)%bind_ok|(cp & Hcp & H)%bind_ok]; apply Hp in Hcp as (Hk' & Hok' & Hn').
  - eapply IH; [|left; exact H]. cbn [c_sets Constraints_intersect].
    split_and!; [lia|by apply zip_intersect_spec|by eapply intersect_narrow].
  - eapply IH; [|right; exact H]. cbn [c_sets Constraints_union].
    split_and!; [lia|by apply zip_union_spec|by eapply union_narrow].
Qed.
Lemma in_intervals_loop_length ty values l : in_intervals_loop ty values = Ok l → len l = len values.
Proof using.
  revert l. induction values as [|v values IH]; intros l H; cbn in H; [by apply Ok_inj in H as <-|].
  apply bind_ok in H as (? & _ & H). apply bind_ok in H as (hi & _ & H). apply bind_ok in H as (l' & Hl' & H).
  apply Ok_inj in H as <-. rewrite !len_cons. by rewrite (IH l').
Qed.
Lemma negated_narrow c c' k :
  derived k c → Constraints_negated c types = Ok c' → narrow (1 + k) (c_sets c').
Proof using.
  intros (Hk & Hok & Hn). unfold Constraints_negated. destruct (constrained 0 (c_sets c)) as [|[o s] [|]] eqn:E.
  - intros <-%Ok_inj. apply impossible_narrow. lia.
  - apply constrained_one in E as (i & -> & Hi & E). apply set_field_narrow. rewrite <-(Forall2_length Hok) in *.
    destruct (lookup_lt_is_Some_2 types i Hi) as [ty Hty]. unfold narrow in Hn. rewrite E in Hok, Hn.
    assert (set_ok ty s) as Hs by by apply (single_forall2 field_set_ok types i s ty) in Hok.
    pose proof (complement_length ty s Hs). enough (len (fst_intervals s) ≤ k) by (cbn; lia).
    eapply (Forall_lookup_1 _ _ i (Some s)) in Hn; [done|]. unfold single. rewrite list_lookup_insert_eq; [done|]. by rewrite length_replicate.
  - intros <-%Ok_inj. apply full_narrow.
Qed.
Lemma derive_narrow p c :
  Forall value_ok (literals p) → derive p schema = Ok c → narrow (interval_weight p) (c_sets c).
Proof using Hschema.
  revert c. induction p as [ps IH|ps IH|p IH|field op value|field values|field|field] using predicate_ind;
    intros c Hl H; cbn [derive literals interval_weight] in *.
  1-2: assert (Forall (λ p, ∀ c, derive p schema = Ok c → derived (interval_weight p) c) ps) as Hps
    by (clear H; induction IH as [|p ps Hp _ IH']; [constructor|]; rewrite fmap_cons, concat_cons in Hl;
        apply Forall_app in Hl as [Hlp Hl]; constructor; [|by apply IH']; intros d Hd;
        split_and!; [apply interval_weight_nonneg|by eapply derive_sound|by apply Hp]).
  - eapply (loops_narrow _ ps _ _ 0); [exact Hps| |left; exact H].
    split_and!; [done|apply full_sets_ok|apply full_narrow].
  - apply bind_ok in H as (r & Hr & H). apply Ok_inj in H as <-. cbn [c_sets].
    eapply (loops_narrow _ ps _ _ 0); [exact Hps| |right; exact Hr].
    split_and!; [done|apply impossible_sets_ok|by apply impossible_narrow].
  - apply bind_ok in H as (cp & Hcp & H). destruct (_ && _); [|apply Ok_inj in H as <-; apply full_narrow].
    eapply negated_narrow; [|exact H]. split_and!; [apply interval_weight_nonneg|by eapply derive_sound|by apply IH].
  - apply bind_ok in H as ([o|] & Ho & H); [|apply Ok_inj in H as <-; apply full_narrow].
    apply bind_ok in H as (ty & Hty & H). apply bind_ok in H as ([] & Hc & H). apply bind_ok in H as (s & Hs & H).
    eapply set_field_narrow; [|exact H]. by eapply from_compare_length.
  - apply bind_ok in H as ([o|] & Ho & H); [|apply Ok_inj in H as <-; apply full_narrow].
    apply bind_ok in H as (ty & Hty & H). apply bind_ok in H as (l & Hloop & H).
    eapply set_field_narrow; [|exact H]. rewrite <-(in_intervals_loop_length _ _ _ Hloop). apply normalize_length.
  - apply bind_ok in H as ([o|] & Ho & H); [|apply Ok_inj in H as <-; apply full_narrow].
    apply bind_ok in H as (ty & Hty & H). by apply (set_field_narrow types o (FieldSet_empty ty)).
  - apply bind_ok in H as ([o|] & Ho & H); apply Ok_inj in H as <-; apply full_narrow.
Qed.
End narrow.

(** Validation bounds the nodes of a predicate and the values of each [IN]. *)
Lemma validate_values_length ty vs vs' : validate_values ty vs = Ok vs' → len vs' = len vs.
Proof.
  revert vs'. induction vs as [|v vs IH]; intros vs' H; cbn in H; [by apply Ok_inj in H as <-|].
  apply bind_ok in H as (? & _ & H). apply bind_ok in H as (vs1 & Hvs & H). apply Ok_inj in H as <-.
  rewrite !len_cons. by rewrite (IH vs1).
Qed.
Definition weight_step (p' : Predicate.t) (nodes n : Z) : Prop :=
  interval_weight p' ≤ 1025 * (n - nodes) ∧ (nodes ≤ MAX_PREDICATE_NODES → n ≤ MAX_PREDICATE_NODES).
Lemma validate_weight schema p depth nodes p' n :
  validate_at schema p depth nodes = Ok (p', n) → weight_step p' nodes n.
Proof.
  revert depth nodes p' n. induction p as [ps IH|ps IH|p IH|f op v|f vs|f|f] using predicate_ind;
    intros depth nodes p' n H; cbn [validate_at] in H;
    destruct (2 ^ 64 <=? nodes + 1); try done;
    destruct (_ || _) eqn:Eb in H; try done; apply orb_false_iff in Eb as [_ Hn%Z.ltb_ge].
  1-2: apply bind_ok in H as ([ps' k] & H & Ho); injection Ho as <- <-; unfold weight_step in *; cbn [interval_weight];
    enough (foldr Z.add 0 (interval_weight <$> ps') ≤ 1025 * (k - (nodes + 1)) ∧ k ≤ MAX_PREDICATE_NODES) by lia;
    revert Hn H; generalize (nodes + 1) (depth + 1) ps' k; clear -IH;
    induction IH as [|p ps Hp _ IHps]; intros nodes depth ps' k Hn H; [injection H as <- <-; cbn; lia|];
    apply bind_ok in H as ([p' j] & H1 & H); apply bind_ok in H as ([qs l] & H2 & H); injection H as <- <-;
    destruct (Hp _ _ _ _ H1) as [Hw Hj]; destruct (IHps _ _ _ _ (Hj Hn) H2) as [Hw' Hl];
    rewrite fmap_cons; cbn [foldr]; lia.
  - apply bind_ok in H as ([c k] & H & Ho). injection Ho as <- <-. destruct (IH _ _ _ _ H) as [Hw Hk].
    unfold weight_step. cbn [interval_weight]. lia.
  - destruct (Value_is_null v); [done|]. apply bind_ok in H as (fs & _ & H). apply bind_ok in H as (v' & _ & H).
    injection H as <- <-. unfold weight_step. cbn [interval_weight]. lia.
  - apply bind_ok in H as (fs & _ & H). destruct (_ || _) eqn:Ei in H; [done|]. apply orb_false_iff in Ei as [Hm%Z.ltb_ge _].
    apply bind_ok in H as (vs' & Hv%validate_values_length & H). injection H as <- <-.
    unfold weight_step. cbn [interval_weight]. rewrite Hv. unfold MAX_IN_VALUES in Hm. lia.
  - apply bind_ok in H as (fs & _ & H). injection H as <- <-. unfold weight_step. cbn [interval_weight]. lia.
  - apply bind_ok in H as (fs & _ & H). injection H as <- <-. unfold weight_step. cbn [interval_weight]. lia.
Qed.

(** Leading fields of a key that fits fit as well. *)
Lemma prefix_fits types pre :
  (∀ vs, fields_ok types vs → len (fields_bytes vs) ≤ MAX_TREE_KEY_BYTES) →
  fields_ok (take (length pre) types) pre → len (fields_bytes pre) ≤ MAX_TREE_KEY_BYTES.
Proof.
  intros Hfit Hpre.
  assert (fields_ok types (pre ++ (min_value <$> drop (length pre) types))) as Hfull.
  { rewrite <-(take_drop (length pre) types) at 1. apply Forall2_app; [done|].
    generalize (drop (length pre) types). induction l as [|ty l IH]; constructor; [|done].
    destruct ty; split; dec_compute || done. }
  apply Hfit in Hfull. unfold fields_bytes in *. rewrite fmap_app, concat_app, len_app in Hfull.
  pose proof (len_nonneg (concat (scalar_bytes <$> (min_value <$> drop (length pre) types)))). lia.
Qed.
Lemma transpose_bound_total ty o : bound_ok ty o → ∃ b, transpose (encode_bound (Some ty)) o = Ok b.
Proof.
  destruct o as [v|]; cbn; [|by eexists]. intros Hv. pose proof (scalar_bytes_len ty v Hv) as Hl.
  assert (TreeKey_encode [ty] [v] = Ok (fields_bytes [v])) as ->; [|by eexists].
  apply TreeKey_encode_spec. split_and!; [by repeat constructor; apply Hv|done|].
  rewrite fields_bytes_cons, fields_bytes_nil, app_nil_r. etrans; [exact Hl|]. by destruct ty.
Qed.
Lemma materialize_total index types pre lo hi :
  (∀ vs, fields_ok types vs → len (fields_bytes vs) ≤ MAX_TREE_KEY_BYTES) →
  (length pre ≤ length types)%nat → fields_ok (take (length pre) types) pre →
  (∀ ty, types !! length pre = Some ty → bound_ok ty lo ∧ bound_ok ty hi) →
  (types !! length pre = None → lo = None ∧ hi = None) →
  ∃ r, materialize_range index types pre lo hi = Ok r.
Proof.
  intros Hfit Hlen Hpre Hsome Hnone. unfold materialize_range. rewrite decide_True by done. cbn [mbind result_bind].
  assert (TreeKey_encode (take (length pre) types) pre = Ok (fields_bytes pre)) as ->.
  { apply TreeKey_encode_spec. split_and!; [by apply fields_ok_split|done|by apply (prefix_fits types)]. }
  cbn [mbind result_bind]. destruct (types !! length pre) as [ty|].
  - destruct (Hsome ty eq_refl) as [Hlo Hhi].
    destruct (transpose_bound_total ty lo Hlo) as [l ->], (transpose_bound_total ty hi Hhi) as [h ->]. by eexists.
  - destruct (Hnone eq_refl) as [-> ->]. by eexists.
Qed.
Lemma mapM_total {A B} (f : A → result B) l :
  (∀ x, x ∈ l → ∃ y, f x = Ok y) → ∃ k, mapM f l = Ok k.
Proof.
  induction l as [|x l IH]; intros H; [by eexists|].
  destruct (H x) as [y Hy]; [apply list_elem_of_here|].
  destruct IH as [k Hk]; [intros; apply H; by apply list_elem_of_further|].
  exists (y :: k). apply mapM_ok. constructor; [done|by apply mapM_ok].
Qed.

Definition prefixes_ok (types : list DataType.t) (n : nat) (prefixes : list (list Value.t)) : Prop :=
  ∀ p, p ∈ prefixes → length p = n ∧ fields_ok (take n types) p.

Lemma len_product {A B C} (f : A → B → C) (a : list A) (b : list B) :
  len (x ← a; y ← b; [f x y]) = len a * len b.
Proof.
  induction a as [|x a IH]; [done|]. rewrite bind_cons, len_app, len_cons, IH.
  enough (len (y ← b; [f x y]) = len b) as -> by lia. clear IH.
  induction b as [|y b IH]; [done|]. by rewrite bind_cons, len_app, IH, !len_cons.
Qed.
Lemma mapM_length {A B} (f : A → result B) l k : mapM f l = Ok k → len k = len l.
Proof. intros H%mapM_ok%Forall2_length. unfold len. by rewrite H. Qed.
Lemma merge_ranges_length l : len (merge_ranges l) ≤ len l.
Proof.
  destruct l as [|r l]; [done|]. cbn [merge_ranges]. unfold len. cbn [length]. apply inj_le.
  revert r. induction l as [|x l IH]; intros r; cbn; [done|]. case_bool_decide; [etrans; [apply IH|lia]|]. cbn.
  specialize (IH x). lia.
Qed.

Lemma expand_loop_total index types limit n sets prefixes k :
  (∀ vs, fields_ok types vs → len (fields_bytes vs) ≤ MAX_TREE_KEY_BYTES) →
  narrow k sets → limit * k < 2 ^ 64 → len prefixes ≤ limit →
  sets_ok (drop n types) sets → (n ≤ length types)%nat → prefixes_ok types n prefixes →
  ∃ out, expand_loop index types limit sets prefixes = Ok out ∧
    ∀ ranges rest, out = Some (ranges, rest) →
      len ranges + len rest ≤ limit ∧ ∃ m, (m ≤ length types)%nat ∧ prefixes_ok types m rest.
Proof.
  intros Hfit Hk Hlim. revert n prefixes. induction Hk as [|s sets Hks Hk IH]; intros n prefixes Hlen Hok Hn Hp; cbn [expand_loop].
  { eexists. split; [done|]. intros ? ? [= <- <-]. rewrite len_nil. eauto. }
  assert (∃ out, Ok (Some (@nil KeyRange, prefixes)) = Ok out ∧ ∀ (ranges : list KeyRange) rest, out = Some (ranges, rest) →
    len ranges + len rest ≤ limit ∧ ∃ m, (m ≤ length types)%nat ∧ prefixes_ok types m rest) as Hwide.
  { eexists. split; [done|]. intros ? ? [= <- <-]. rewrite len_nil. eauto. }
  destruct s as [s|]; [|exact Hwide].
  apply Forall2_cons_inv_r in Hok as (ty & types' & Hs & Hok & Ed).
  assert (types !! n = Some ty) as Hty by (rewrite <-(Nat.add_0_r n), <-lookup_drop, Ed; done).
  case_decide; [by eexists|].
  destruct (Z.leb_spec (2 ^ 64) (len prefixes * len (fst_intervals s))) as [Hbig|_].
  { cbn in Hks. pose proof (len_nonneg prefixes). pose proof (len_nonneg (fst_intervals s)). nia. }
  destruct (Z.ltb_spec limit (len prefixes * len (fst_intervals s))) as [_|Hprod]; [exact Hwide|].
  pose proof (normal_ok ty _ (proj2 Hs)) as Hiok.
  destruct (collect_points_spec ty s (fst_intervals s) Hs Hiok) as (o & -> & Hpts). cbn [mbind result_bind].
  destruct o as [points|].
  - specialize (Hpts points eq_refl). apply (IH (S n)).
    { rewrite len_product. apply Forall2_length in Hpts. unfold len in *. by rewrite <-Hpts. }
    { replace (S n) with (n + 1)%nat by lia. by rewrite <-drop_drop, Ed. }
    { apply lookup_lt_Some in Hty. lia. }
    intros p (a & Hp' & Ha)%list_elem_of_bind. apply list_elem_of_bind in Hp' as (x & ->%list_elem_of_singleton & Hx).
    destruct (Hp a Ha) as [Hla Hfa]. rewrite length_app, Hla. split; [cbn; lia|].
    rewrite (take_S_r types n ty Hty). apply Forall2_app; [done|]. constructor; [|constructor].
    apply list_elem_of_lookup in Hx as [j Hj].
    destruct (Forall2_lookup_r _ _ _ _ _ Hpts Hj) as (i & _ & Hfx & _). done.
  - unfold materialize_all.
    destruct (mapM_total (λ '(prefix, i), materialize_range index types prefix (iv_lo i) (iv_hi i))
      (prefix ← prefixes; i ← fst_intervals s; [(prefix, i)])) as [ranges Hr].
    { intros [p i] (a & Hp' & Ha)%list_elem_of_bind. apply list_elem_of_bind in Hp' as (j & [= -> ->]%list_elem_of_singleton & Hj).
      destruct (Hp a Ha) as [Hla Hfa]. rewrite Forall_forall in Hiok. apply list_elem_of_In, Hiok in Hj as [Hlo Hhi].
      apply materialize_total; rewrite ?Hla; [done..| |].
      - intros ty' Hty'. rewrite Hty in Hty'. by injection Hty' as <-.
      - by rewrite Hty. }
    rewrite Hr. apply mapM_length in Hr. rewrite len_product in Hr.
    cbn [mbind result_bind]. eexists. split; [done|]. intros ? ? [= <- <-]. rewrite len_nil. split; [lia|].
    exists n. split; [done|]. intros p Hp'. by apply elem_of_nil in Hp'.
Qed.

(** A predicate of a request: absent, or the result of [validate]. *)
Definition predicate_validated (m : IndexManifest) (predicate : option Predicate.t) : Prop :=
  match predicate with
  | Some p' => ∃ p, Forall value_ok (literals p) ∧ Predicate_validate (fields m) p = Ok p'
  | None => True
  end.
Lemma derive_option_total m schema predicate :
  schema_ok (ic_tree_key_fields (im_config m)) schema → schema_typed (fields m) schema →
  predicate_validated m predicate →
  ∃ c, derive_option predicate schema = Ok c ∧ sets_ok (ts_types schema) (c_sets c) ∧
    narrow (1025 * MAX_PREDICATE_NODES) (c_sets c).
Proof.
  intros Hschema Htyped. destruct predicate as [p'|]; cbn [predicate_validated derive_option].
  - intros (p & Hlit & Hp). unfold Predicate_validate in Hp. apply bind_ok in Hp as ([q k] & Hp & He). apply Ok_inj in He as ->.
    pose proof (validate_weight _ _ _ _ _ _ Hp) as [Hw Hk]. apply validate_at_ok in Hp as (Hvalid & _); [|done].
    pose proof (predicate_valid_literals _ _ Hvalid) as Hlit'.
    destruct (derive_total (fields m) _ schema Hschema Htyped p' Hvalid) as [c Hc]. exists c. split_and!; [done|by eapply derive_sound|].
    eapply narrow_mono; [|by eapply derive_narrow]. unfold MAX_PREDICATE_NODES in *. lia.
  - intros _. eexists. split_and!; [done|apply full_sets_ok|apply full_narrow].
Qed.

(** C35: Planning a validated request always succeeds: with a validated
    configuration, no predicate or one accepted by [validate], and a positive
    32-bit range limit, the planner returns a plan of at most [range_limit]
    ranges; it never panics, a product over the limit widens the plan instead of
    refusing it, and the 64-bit product check never fires.  A zero limit is an
    invalid argument. *)
Theorem plan_total m predicate range_limit :
  IndexConfig_validate (im_config m) = Ok tt → Forall u16_ok (ic_tree_key_fields (im_config m)) →
  predicate_validated m predicate → u32_ok range_limit →
  if range_limit =? 0 then plan_tree_keys m predicate range_limit = Err InvalidArgument
  else ∃ plan, plan_tree_keys m predicate range_limit = Ok plan ∧ len (pl_ranges plan) ≤ range_limit.
Proof.
  intros Hv Hids Hp Hlim. destruct (Z.eqb_spec range_limit 0) as [->|Hz]; [done|].
  destruct (validated_schema m Hv Hids) as (schema & Hnew & Htyped & Hschema & Hfit).
  destruct (derive_option_total m schema predicate Hschema Htyped Hp) as (c & Hd & Hok & Hn).
  unfold plan_tree_keys. rewrite (proj2 (Z.eqb_neq _ _)), Hnew by done. cbn [mbind result_bind].
  unfold derive_option in Hd. rewrite Hd. cbn [mbind result_bind]. unfold u32_ok in Hlim.
  destruct (expand_loop_total (im_logical_index_id m) (ts_types schema) range_limit 0 (c_sets c) [[]] _ Hfit Hn)
    as (out & -> & Hrest); [unfold MAX_PREDICATE_NODES; lia|unfold len; cbn; lia|done|lia| |].
  { intros x ->%list_elem_of_singleton. split; [done|constructor]. }
  cbn [mbind result_bind]. destruct out as [[ranges rest]|]; [|eexists; split; [done|]; unfold len; cbn; lia].
  destruct (Hrest ranges rest eq_refl) as (Hlen & n & Hn' & Hpre).
  destruct (mapM_total (λ prefix, materialize_range (im_logical_index_id m) (ts_types schema) prefix None None) rest)
    as [mats Hm]; [intros x Hx; destruct (Hpre x Hx) as [<- Hfx]; by apply materialize_total|].
  rewrite Hm. eexists. split; [done|]. cbn [pl_ranges]. pose proof (merge_ranges_length (ranges ++ mats)) as Hmr.
  rewrite len_app, (mapM_length _ _ _ Hm) in Hmr. lia.
Qed.
(** A limit of one range: the three intervals of the second field stay unexpanded. *)
Lemma plan_total_witness :
  ∃ plan, plan_tree_keys plan_manifest (Some plan_predicate) 1 = Ok plan ∧ len (pl_ranges plan) ≤ 1.
Proof.
  apply (plan_total plan_manifest (Some plan_predicate) 1).
  - vm_compute; reflexivity.
  - dec_compute.
  - exists plan_predicate. split; [dec_compute|vm_compute; reflexivity].
  - dec_compute.
Defined.
