(* ===== verification/BuildValues.v ===== *)
(** Offline-build values: artifact identities (src/src/bulk/files.rs) and the
    codecs of build descriptors, workspaces, schedules, validation cursors and
    load checkpoints (src/src/storage/values/build.rs, workspace.rs, schedule.rs,
    validation.rs, load.rs).  Each is a [ValueFamily]; an artifact of another
    format version is reported as unsupported rather than corrupt.  The SHA-256
    function of the [sha2] crate is a parameter. *)
From S2P Require Import Prelude RustStd Api TreeKey RaBitQ Manifest Wire ValueData Records Backend Config ManifestCodec.

Definition TAG_BUILD_DESCRIPTOR : Z := 0x0d.
Definition TAG_BUILD_LOAD : Z := 0x0e.
Definition TAG_BUILD_WORKSPACE : Z := 0x0f.
Definition TAG_BUILD_VALIDATION : Z := 0x10.
Definition TAG_BUILD_SCHEDULE : Z := 0x11.

(** ** Artifact identities *)
Definition MAGIC : list Z := [75; 84; 65; 78; 78; 66; 70].
Definition ARTIFACT_HEADER_BYTES : Z := 42.
Definition FRAME_OVERHEAD : Z := 36.
Definition ARTIFACT_MANIFEST_BYTES : Z := 90.

Record ArtifactManifest := mkArtifact {
  am_kind : Z; am_binding : list Z; am_items : Z; am_bytes : Z; am_digest : list Z
}.
#[global] Instance ArtifactManifest_eq_dec : EqDecision ArtifactManifest.
Proof. solve_decision. Defined.
Definition ArtifactManifest_header (a : ArtifactManifest) : list Z :=
  MAGIC ++ be_bytes 2 FORMAT_VERSION ++ [am_kind a] ++ am_binding a.
Definition is_serving (a : ArtifactManifest) : bool := am_kind a =? 3.
Definition is_forest (a : ArtifactManifest) : bool := am_kind a =? 2.
Definition is_input (a : ArtifactManifest) : bool := am_kind a =? 0.
Definition ArtifactManifest_encode (a : ArtifactManifest) : list Z :=
  ArtifactManifest_header a ++ be_bytes 8 (am_items a) ++ be_bytes 8 (am_bytes a) ++ am_digest a.
(** [&bytes[start..end]]; every use is below the checked length. *)
Definition artifact_slice (bytes : list Z) (start end_ : Z) : list Z := ztake (end_ - start) (zdrop start bytes).
Definition ArtifactManifest_decode (bytes : list Z) : result ArtifactManifest :=
  if negb (len bytes =? ARTIFACT_MANIFEST_BYTES) then Err Corruption
  else if negb (bool_decide (artifact_slice bytes 0 7 = MAGIC)) then Err Corruption
  else if negb (be_value (artifact_slice bytes 7 9) =? FORMAT_VERSION) then Err UnsupportedFormat
  else
    or_panic (bytes !! 9%nat) ≫= λ kind,
    if negb ((kind =? 0) || (kind =? 2) || (kind =? 3)) then Err Corruption
    else
      let manifest := mkArtifact kind (artifact_slice bytes 10 42) (be_value (artifact_slice bytes 42 50))
        (be_value (artifact_slice bytes 50 58)) (artifact_slice bytes 58 90) in
      if (am_bytes manifest <? ARTIFACT_HEADER_BYTES)
         || ((am_bytes manifest - ARTIFACT_HEADER_BYTES) / (FRAME_OVERHEAD + 1) <? am_items manifest)
      then Err Corruption else Ok manifest.

(** ** Options *)
Record ConstructionOptions := mkConstruction {
  co_sample_items : Z; co_memory_bytes : Z; co_scratch_bytes : Z
}.
Definition ConstructionOptions_validate (o : ConstructionOptions) : result unit :=
  if (co_sample_items o <? 2) || (co_memory_bytes o =? 0) || (co_scratch_bytes o =? 0)
  then Err InvalidArgument else Ok tt.
Record BulkLoadOptions := mkLoadOptions { lo_max_mutations : Z; lo_max_bytes : Z }.
Record BulkWorkerOptions := mkWorkerOptions {
  wo_workspace : list Z;
  wo_sort_memory_bytes : Z; wo_sort_scratch_bytes : Z;
  wo_serving_memory_bytes : Z; wo_serving_scratch_bytes : Z;
  wo_graph_memory_bytes : Z; wo_refinement_memory_bytes : Z;
  wo_max_artifact_bytes : Z; wo_load : BulkLoadOptions
}.
(** A path is its bytes: [is_absolute] looks at the leading separator, [to_str]
    is UTF-8 validation. *)
Definition path_is_absolute (path : list Z) : bool := bool_decide (head path = Some 47).
Definition path_str_ok (path : list Z) (maximum : Z) : bool :=
  utf8_valid path && (len path <=? maximum) && negb (bool_decide (0 ∈ path)).
Definition BulkWorkerOptions_validate (o : BulkWorkerOptions) : result unit :=
  if negb (path_is_absolute (wo_workspace o)) || negb (path_str_ok (wo_workspace o) 3900)
     || (wo_sort_memory_bytes o =? 0) || (wo_sort_scratch_bytes o =? 0)
     || (wo_serving_memory_bytes o =? 0) || (wo_serving_scratch_bytes o =? 0)
     || (wo_graph_memory_bytes o =? 0) || (wo_refinement_memory_bytes o =? 0)
     || (wo_max_artifact_bytes o =? 0) || (lo_max_mutations (wo_load o) <? 2)
     || (lo_max_bytes (wo_load o) =? 0)
  then Err InvalidArgument else Ok tt.

(** ** Build Descriptors *)
Definition MAX_SOURCE_PATH_BYTES : Z := 4096.
Definition MAX_REFINEMENT_ROUNDS : Z := 5.
Record BuildDescriptor := mkBuildDescriptor {
  bd_source : list Z; bd_input : ArtifactManifest; bd_options : ConstructionOptions;
  bd_refinement_rounds : option Z
}.
Definition BuildDescriptor_new (source : list Z) (input : ArtifactManifest) (options : ConstructionOptions)
    : result BuildDescriptor :=
  if negb (is_input input) || negb (path_is_absolute source) || negb (path_str_ok source MAX_SOURCE_PATH_BYTES)
  then Err InvalidArgument
  else ConstructionOptions_validate options ≫= λ _, Ok (mkBuildDescriptor source input options None).
Definition with_refinement_rounds (d : BuildDescriptor) (rounds : option Z) : result BuildDescriptor :=
  if match rounds with Some rounds => MAX_REFINEMENT_ROUNDS <? rounds | None => false end
  then Err InvalidArgument
  else Ok (mkBuildDescriptor (bd_source d) (bd_input d) (bd_options d) rounds).
Definition rounds_tag (rounds : option Z) : result Z :=
  match rounds with
  | None => Ok 0
  | Some rounds => if rounds + 1 <? 256 then Ok (rounds + 1) else Panic
  end.
Definition encode_build_descriptor (d : BuildDescriptor) (e : list Z) : result (list Z) :=
  (if utf8_valid (bd_source d) then Ok (bd_source d) else Panic) ≫= λ path,
  Encoder_sized_bytes path MAX_SOURCE_PATH_BYTES e ≫= λ e,
  Encoder_sized_bytes (ArtifactManifest_encode (bd_input d)) ARTIFACT_MANIFEST_BYTES e ≫= λ e,
  let options := bd_options d in
  let e := Encoder_u64 (co_sample_items options) e in
  let e := Encoder_u64 (co_memory_bytes options) e in
  let e := Encoder_u64 (co_scratch_bytes options) e in
  rounds_tag (bd_refinement_rounds d) ≫= λ tag,
  Ok (Encoder_u8 tag e).
Definition decode_artifact : Dec ArtifactManifest :=
  dlet bytes := Decoder_sized_bytes ARTIFACT_MANIFEST_BYTES in dec_lift (ArtifactManifest_decode bytes).
Definition decode_rounds (tag : Z) : result (option Z) :=
  if tag =? 0 then Ok None else if (1 <=? tag) && (tag <=? 6) then Ok (Some (tag - 1)) else Err Corruption.
Definition decode_build_descriptor : Dec BuildDescriptor :=
  dlet path := Decoder_sized_bytes MAX_SOURCE_PATH_BYTES in
  dlet source := dec_lift (if utf8_valid path then Ok path else Err Corruption) in
  dlet input := decode_artifact in
  dlet sample_items := Decoder_u64 in
  dlet memory_bytes := Decoder_u64 in
  dlet scratch_bytes := Decoder_u64 in
  dlet refinement_rounds := (dlet tag := Decoder_u8 in dec_lift (decode_rounds tag)) in
  dec_lift (map_err Corruption
    (BuildDescriptor_new source input (mkConstruction sample_items memory_bytes scratch_bytes) ≫= λ d,
     with_refinement_rounds d refinement_rounds)).

(** ** Worker options *)
Definition encode_options (o : BulkWorkerOptions) (e : list Z) : result (list Z) :=
  BulkWorkerOptions_validate o ≫= λ _,
  (if utf8_valid (wo_workspace o) then Ok (wo_workspace o) else Err InvalidArgument) ≫= λ path,
  Encoder_sized_bytes path 3900 e ≫= λ e,
  Ok (foldl (λ e n, Encoder_u64 n e) e
    [wo_sort_memory_bytes o; wo_sort_scratch_bytes o; wo_serving_memory_bytes o;
     wo_serving_scratch_bytes o; wo_graph_memory_bytes o; wo_refinement_memory_bytes o;
     wo_max_artifact_bytes o; lo_max_mutations (wo_load o); lo_max_bytes (wo_load o)]).
Definition decode_options : Dec BulkWorkerOptions :=
  dlet path := Decoder_sized_bytes 3900 in
  dlet workspace := dec_lift (if utf8_valid path then Ok path else Err Corruption) in
  dlet sort_memory_bytes := Decoder_u64 in
  dlet sort_scratch_bytes := Decoder_u64 in
  dlet serving_memory_bytes := Decoder_u64 in
  dlet serving_scratch_bytes := Decoder_u64 in
  dlet graph_memory_bytes := Decoder_u64 in
  dlet refinement_memory_bytes := Decoder_u64 in
  dlet max_artifact_bytes := Decoder_u64 in
  dlet max_mutations := Decoder_u64 in
  dlet max_bytes := Decoder_u64 in
  let options := mkWorkerOptions workspace sort_memory_bytes sort_scratch_bytes serving_memory_bytes
    serving_scratch_bytes graph_memory_bytes refinement_memory_bytes max_artifact_bytes
    (mkLoadOptions max_mutations max_bytes) in
  dec_lift (map_err Corruption (BulkWorkerOptions_validate options) ≫= λ _, Ok options).

(** ** Workspaces *)
Record PreparedArtifact := mkPrepared { pa_epoch : Z; pa_manifest : ArtifactManifest }.
Record BuildWorkspace := mkWorkspace {
  bw_options : BulkWorkerOptions; bw_hard_limits : HardLimits; bw_token : list Z; bw_epoch : Z;
  bw_forest : option PreparedArtifact; bw_serving : option PreparedArtifact;
  bw_failure : option ErrorKind
}.
Definition is_some_and {A} (f : A → bool) (o : option A) : bool :=
  match o with Some a => f a | None => false end.
Definition BuildWorkspace_validate (w : BuildWorkspace) : result unit :=
  BulkWorkerOptions_validate (bw_options w) ≫= λ _,
  if (bw_epoch w =? 0) || bool_decide (bw_token w = replicate 32 0)
     || (hl_max_key_bytes (bw_hard_limits w) =? 0) || (hl_max_value_bytes (bw_hard_limits w) =? 0)
     || is_some_and (λ a, (pa_epoch a =? 0) || (bw_epoch w <? pa_epoch a) || negb (is_forest (pa_manifest a)))
          (bw_forest w)
     || is_some_and (λ a, (pa_epoch a =? 0) || (bw_epoch w <? pa_epoch a) || negb (is_serving (pa_manifest a))
          || match bw_forest w with None => true | Some _ => false end) (bw_serving w)
  then Err InvalidArgument else Ok tt.
Definition encode_prepared (artifact : option PreparedArtifact) (e : list Z) : result (list Z) :=
  match artifact with
  | None => Ok (Encoder_u8 0 e)
  | Some a =>
      Encoder_sized_bytes (ArtifactManifest_encode (pa_manifest a)) ARTIFACT_MANIFEST_BYTES
        (Encoder_u64 (pa_epoch a) (Encoder_u8 1 e))
  end.
Definition failure_tag (failure : option ErrorKind) : result Z :=
  match failure with
  | None => Ok 0
  | Some Corruption => Ok 1
  | Some InvalidArgument => Ok 2
  | Some LimitExceeded => Ok 3
  | Some Other => Ok 4
  | Some UnsupportedFormat => Ok 5
  | Some IdExhausted => Ok 6
  | Some RecordAlreadyExists => Ok 7
  | Some TransactionTooLarge => Ok 8
  | _ => Err InvalidArgument
  end.
Definition failure_of_tag (tag : Z) : result (option ErrorKind) :=
  if tag =? 0 then Ok None
  else if tag =? 1 then Ok (Some Corruption)
  else if tag =? 2 then Ok (Some InvalidArgument)
  else if tag =? 3 then Ok (Some LimitExceeded)
  else if tag =? 4 then Ok (Some Other)
  else if tag =? 5 then Ok (Some UnsupportedFormat)
  else if tag =? 6 then Ok (Some IdExhausted)
  else if tag =? 7 then Ok (Some RecordAlreadyExists)
  else if tag =? 8 then Ok (Some TransactionTooLarge)
  else Err Corruption.
Definition encode_workspace (w : BuildWorkspace) (e : list Z) : result (list Z) :=
  BuildWorkspace_validate w ≫= λ _,
  encode_options (bw_options w) e ≫= λ e,
  let e := Encoder_u64 (hl_max_key_bytes (bw_hard_limits w)) e in
  let e := Encoder_u64 (hl_max_value_bytes (bw_hard_limits w)) e in
  let e := Encoder_u64 (bw_epoch w) (Encoder_bytes (bw_token w) e) in
  encode_prepared (bw_forest w) e ≫= λ e,
  encode_prepared (bw_serving w) e ≫= λ e,
  failure_tag (bw_failure w) ≫= λ tag, Ok (Encoder_u8 tag e).
Definition decode_prepared : Dec (option PreparedArtifact) :=
  dlet tag := Decoder_u8 in
  if tag =? 0 then dec_ret None
  else if tag =? 1 then
    dlet epoch := Decoder_u64 in dlet manifest := decode_artifact in
    dec_ret (Some (mkPrepared epoch manifest))
  else dec_lift (Err Corruption).
Definition decode_workspace : Dec BuildWorkspace :=
  dlet options := decode_options in
  dlet max_key_bytes := Decoder_u64 in
  dlet max_value_bytes := Decoder_u64 in
  dlet token := Decoder_array 32 in
  dlet epoch := Decoder_u64 in
  dlet forest := decode_prepared in
  dlet serving := decode_prepared in
  dlet failure := (dlet tag := Decoder_u8 in dec_lift (failure_of_tag tag)) in
  let value := mkWorkspace options (mkHardLimits max_key_bytes max_value_bytes) token epoch forest serving failure in
  dec_lift (map_err Corruption (BuildWorkspace_validate value) ≫= λ _, Ok value).

(** ** Schedules *)
Record BuildSchedule := mkSchedule {
  bs_name : list Z; bs_options : BulkWorkerOptions; bs_owner : list Z; bs_expires_ms : Z
}.
Definition schedule_invalid (s : BuildSchedule) : bool :=
  negb (bool_decide (bs_owner s = replicate 32 0)) && (bs_expires_ms s =? 0).
Definition encode_schedule (s : BuildSchedule) (e : list Z) : result (list Z) :=
  if schedule_invalid s then Err InvalidArgument
  else
    Encoder_sized_bytes (bs_name s) 255 e ≫= λ e,
    encode_options (bs_options s) e ≫= λ e,
    Ok (Encoder_u64 (bs_expires_ms s) (Encoder_bytes (bs_owner s) e)).
Definition decode_schedule : Dec BuildSchedule :=
  dlet bytes := Decoder_sized_bytes 255 in
  dlet name := dec_lift (if utf8_valid bytes then Ok bytes else Err Corruption) in
  dlet name := dec_lift (map_err Corruption (IndexName_new name)) in
  dlet options := decode_options in
  dlet owner := Decoder_array 32 in
  dlet expires_ms := Decoder_u64 in
  let value := mkSchedule name options owner expires_ms in
  dec_lift (if schedule_invalid value then Err Corruption else Ok value).

(** ** Checkpoints over one serving artifact *)
Record BuildValidation := mkValidation {
  bv_artifact : ArtifactManifest; bv_cursor : list Z; bv_entries : Z; bv_prefix_sha256 : list Z;
  bv_complete : bool
}.
Record BuildLoad := mkLoad {
  bl_artifact : ArtifactManifest; bl_epoch : Z; bl_entries : Z; bl_prefix_sha256 : list Z;
  bl_complete : bool
}.
Section digest.
Context (sha256 : list Z → list Z).

Definition initial_sha256 (a : ArtifactManifest) : list Z := sha256 (ArtifactManifest_header a).
Definition BuildValidation_validate (v : BuildValidation) : result unit :=
  let a := bv_artifact v in
  if negb (is_serving a) || (16 * 1024 <? len (bv_cursor v)) || (am_items a <? bv_entries v)
     || ((bv_entries v =? 0) && negb (bool_decide (bv_prefix_sha256 v = initial_sha256 a)))
     || (bv_complete v && (negb (bool_decide (bv_cursor v = [])) || negb (bv_entries v =? am_items a)
                           || negb (bool_decide (bv_prefix_sha256 v = am_digest a))))
  then Err InvalidArgument else Ok tt.
Definition encode_validation (v : BuildValidation) (e : list Z) : result (list Z) :=
  BuildValidation_validate v ≫= λ _,
  Encoder_sized_bytes (ArtifactManifest_encode (bv_artifact v)) ARTIFACT_MANIFEST_BYTES e ≫= λ e,
  Encoder_sized_bytes (bv_cursor v) (16 * 1024) e ≫= λ e,
  Ok (Encoder_u8 (if bv_complete v then 1 else 0)
        (Encoder_bytes (bv_prefix_sha256 v) (Encoder_u64 (bv_entries v) e))).
Definition decode_flag (tag : Z) : result bool :=
  if tag =? 0 then Ok false else if tag =? 1 then Ok true else Err Corruption.
Definition decode_validation : Dec BuildValidation :=
  dlet artifact := decode_artifact in
  dlet cursor := Decoder_sized_bytes (16 * 1024) in
  dlet entries := Decoder_u64 in
  dlet prefix_sha256 := Decoder_array 32 in
  dlet complete := (dlet tag := Decoder_u8 in dec_lift (decode_flag tag)) in
  let v := mkValidation artifact cursor entries prefix_sha256 complete in
  dec_lift (map_err Corruption (BuildValidation_validate v) ≫= λ _, Ok v).
Definition BuildLoad_validate (l : BuildLoad) : result unit :=
  let a := bl_artifact l in
  if negb (is_serving a) || (bl_epoch l =? 0) || (am_items a <? bl_entries l)
     || ((bl_entries l =? 0) && negb (bool_decide (bl_prefix_sha256 l = initial_sha256 a)))
     || (bl_complete l && (negb (bl_entries l =? am_items a)
                           || negb (bool_decide (bl_prefix_sha256 l = am_digest a))))
  then Err InvalidArgument else Ok tt.
Definition encode_load (l : BuildLoad) (e : list Z) : result (list Z) :=
  BuildLoad_validate l ≫= λ _,
  Encoder_sized_bytes (ArtifactManifest_encode (bl_artifact l)) ARTIFACT_MANIFEST_BYTES e ≫= λ e,
  Ok (Encoder_u8 (if bl_complete l then 1 else 0)
        (Encoder_bytes (bl_prefix_sha256 l) (Encoder_u64 (bl_entries l) (Encoder_u64 (bl_epoch l) e)))).
Definition decode_load : Dec BuildLoad :=
  dlet artifact := decode_artifact in
  dlet epoch := Decoder_u64 in
  dlet entries := Decoder_u64 in
  dlet prefix_sha256 := Decoder_array 32 in
  dlet complete := (dlet tag := Decoder_u8 in dec_lift (decode_flag tag)) in
  let load := mkLoad artifact epoch entries prefix_sha256 complete in
  dec_lift (map_err Corruption (BuildLoad_validate load) ≫= λ _, Ok load).
End digest.

(** ** Reporting an unsupported artifact version as corruption

    [ArtifactManifest::decode] is the only decoder below the frame that fails
    with another error.  The specifications are about the decoders with that
    error flattened; [flat] commutes with sequencing, so a value decodes exactly
    when the flattened decoder decodes it. *)
Definition flatten {A} (r : result A) : result A :=
  match r with Err UnsupportedFormat => Err Corruption | r => r end.
Definition flat {A} (p : Dec A) : Dec A := λ d, flatten (p d).

Lemma flatten_ok {A} (r : result A) a : flatten r = Ok a ↔ r = Ok a.
Proof. destruct r as [|[]|]; cbn; naive_solver. Qed.
(** A decoder that already fails only with [Corruption]. *)
Lemma parses_flat {A} (p : Dec A) G : parses p G → parses (flat p) G.
Proof.
  intros Hp d Hd. unfold flat. destruct (Hp d Hd) as [Hv [[r E]|E]]; rewrite E in *; cbn; split; try done; [left|right]; eauto.
Qed.
Lemma parses_flat_bind {A B} (p : Dec A) (k : A → Dec B) G :
  parses (dec_bind (flat p) (λ a, flat (k a))) G → parses (flat (dec_bind p k)) G.
Proof.
  intros H d Hd. replace (flat (dec_bind p k) d) with (dec_bind (flat p) (λ a, flat (k a)) d); [by apply H|].
  unfold flat, dec_bind. destruct (p d) as [[]|[]|]; done.
Qed.
(** [parses_step] and [parses_last] under [flat]. *)
Lemma flat_step {A B} (p : Dec A) (k : A → Dec B) (P : A → Prop) (f : A → list Z)
    (proj : B → A) (R : B → Prop) (g : B → list Z) :
  parses (flat p) (λ a body, P a ∧ body = f a) → (∀ b, R b → P (proj b)) →
  (∀ a, P a → parses (flat (k a)) (λ b body, (R b ∧ proj b = a) ∧ body = g b)) →
  parses (flat (dec_bind p k)) (λ b body, R b ∧ body = f (proj b) ++ g b).
Proof. intros Hp HR Hk. apply parses_flat_bind. by eapply parses_step. Qed.
Lemma flat_last {A B} (p : Dec A) (k : A → Dec B) (P : A → Prop) (f : A → list Z)
    (proj : B → A) (R : B → Prop) :
  parses (flat p) (λ a body, P a ∧ body = f a) → (∀ b, R b → P (proj b)) →
  (∀ a, P a → parses (flat (k a)) (λ b body, (R b ∧ proj b = a) ∧ body = [])) →
  parses (flat (dec_bind p k)) (λ b body, R b ∧ body = f (proj b)).
Proof. intros Hp HR Hk. apply parses_flat_bind. by eapply parses_last. Qed.
Lemma flat_lift_step {A B} (r : result A) (k : A → Dec B) (R : B → Prop) (g : B → list Z) :
  ok_or_corrupt r → (∀ b, R b → ∃ a, r = Ok a) →
  (∀ a, r = Ok a → parses (flat (k a)) (λ b body, R b ∧ body = g b)) →
  parses (flat (dec_bind (dec_lift r) k)) (λ b body, R b ∧ body = g b).
Proof.
  intros Hr HR Hk. apply parses_flat_bind.
  assert (∀ d, flat (dec_lift r) d = dec_lift r d) as E.
  { intros d. unfold flat, dec_lift. by destruct Hr as [[a ->]| ->]. }
  intros d Hd. pose proof (parses_lift_step r (λ a, flat (k a)) R g Hr HR Hk d Hd) as H.
  unfold dec_bind in *. by rewrite E.
Qed.

(** ** Artifact identities *)
Definition artifact_ok (a : ArtifactManifest) : Prop :=
  am_kind a ∈ [0; 2; 3] ∧ (bytes_ok (am_binding a) ∧ len (am_binding a) = 32) ∧ u64_ok (am_items a) ∧
  u64_ok (am_bytes a) ∧ (bytes_ok (am_digest a) ∧ len (am_digest a) = 32) ∧
  ARTIFACT_HEADER_BYTES ≤ am_bytes a ∧
  am_items a ≤ (am_bytes a - ARTIFACT_HEADER_BYTES) / (FRAME_OVERHEAD + 1).
Lemma artifact_encode_len a : artifact_ok a → len (ArtifactManifest_encode a) = ARTIFACT_MANIFEST_BYTES.
Proof.
  intros (_ & [_ Hb] & _ & _ & [_ Hd] & _). unfold ArtifactManifest_encode, ArtifactManifest_header, MAGIC.
  rewrite !len_app, !len_be_bytes, !len_cons, len_nil, Hb, Hd. done.
Qed.
Lemma artifact_encode_bytes a : artifact_ok a → bytes_ok (ArtifactManifest_encode a).
Proof.
  intros (Hk & [Hb _] & _ & _ & [Hd _] & _). unfold ArtifactManifest_encode, ArtifactManifest_header, MAGIC.
  solve_bytes. rewrite !elem_of_cons, elem_of_nil in Hk. unfold byte_ok. lia.
Qed.

Lemma slice_split bs a b : 0 ≤ a ≤ b → zdrop a bs = artifact_slice bs a b ++ zdrop b bs.
Proof.
  intros Hab. unfold artifact_slice. rewrite <-(ztake_zdrop (b - a) (zdrop a bs)) at 1. f_equal.
  rewrite zdrop_zdrop by lia. f_equal. lia.
Qed.
Lemma slice_len bs a b : 0 ≤ a ≤ b → b ≤ len bs → len (artifact_slice bs a b) = b - a.
Proof. intros. unfold artifact_slice. rewrite len_ztake; [done|]. rewrite len_zdrop; lia. Qed.
Lemma slice_app (p x r : list Z) a b : a = len p → b = a + len x → artifact_slice (p ++ x ++ r) a b = x.
Proof.
  intros -> ->. unfold artifact_slice. rewrite zdrop_app. replace (len p + len x - len p) with (len x) by lia.
  apply ztake_app.
Qed.

Lemma artifact_parts bs :
  len bs = ARTIFACT_MANIFEST_BYTES →
  ∃ kind, bs !! 9%nat = Some kind ∧
  bs = artifact_slice bs 0 7 ++ artifact_slice bs 7 9 ++ [kind] ++ artifact_slice bs 10 42 ++
       artifact_slice bs 42 50 ++ artifact_slice bs 50 58 ++ artifact_slice bs 58 90.
Proof.
  intros Hl. unfold ARTIFACT_MANIFEST_BYTES in Hl.
  destruct (bs !! 9%nat) as [kind|] eqn:Ek; [|apply lookup_ge_None in Ek; unfold len in Hl; lia].
  exists kind. split; [done|].
  assert (artifact_slice bs 9 10 = [kind]) as <-.
  { unfold artifact_slice, ztake, zdrop. apply take_drop_middle in Ek. rewrite <-Ek at 1.
    rewrite drop_app_ge by (rewrite length_take; unfold len in *; lia). rewrite length_take.
    replace (Z.to_nat 9 - 9 `min` length bs)%nat with 0%nat by (unfold len in *; lia). done. }
  change bs with (zdrop 0 bs) at 1.
  rewrite (slice_split bs 0 7), (slice_split bs 7 9), (slice_split bs 9 10), (slice_split bs 10 42),
    (slice_split bs 42 50), (slice_split bs 50 58), (slice_split bs 58 90) by lia.
  replace (zdrop 90 bs) with (@nil Z); [by rewrite app_nil_r|].
  unfold zdrop. rewrite drop_ge; [done|]. unfold len in *. lia.
Qed.
Lemma artifact_decode_encode a : artifact_ok a → ArtifactManifest_decode (ArtifactManifest_encode a) = Ok a.
Proof.
  intros Ha. pose proof (artifact_encode_len a Ha) as Hl. unfold ArtifactManifest_decode. rewrite Hl, Z.eqb_refl.
  destruct Ha as (Hk & [_ Hb] & Hi & Hby & [_ Hd] & Hmin & Hmax). cbn [negb]. set (e := ArtifactManifest_encode a) in *.
  assert (∀ p x r i j, e = p ++ x ++ r → i = len p → j = i + len x → artifact_slice e i j = x) as Hs.
  { intros p x r i j -> -> ->. by apply slice_app. }
  set (v := be_bytes 2 FORMAT_VERSION) in *.
  assert (e = MAGIC ++ v ++ [am_kind a] ++ am_binding a ++ be_bytes 8 (am_items a) ++ be_bytes 8 (am_bytes a) ++ am_digest a ++ []) as He.
  { unfold e, ArtifactManifest_encode, ArtifactManifest_header. by rewrite app_nil_r, <-!app_assoc. }
  rewrite (Hs [] MAGIC _ 0 7 He) by done. rewrite (Hs MAGIC v _ 7 9 He) by done.
  assert (e !! 9%nat = Some (am_kind a)) as -> by (by rewrite He).
  rewrite (Hs (MAGIC ++ v ++ [am_kind a]) (am_binding a) (be_bytes 8 (am_items a) ++ be_bytes 8 (am_bytes a) ++ am_digest a ++ []) 10 42)
    by (first [by rewrite He, <-!app_assoc | done | by rewrite Hb]).
  rewrite (Hs (MAGIC ++ v ++ [am_kind a] ++ am_binding a) (be_bytes 8 (am_items a)) (be_bytes 8 (am_bytes a) ++ am_digest a ++ []) 42 50)
    by (first [by rewrite He, <-!app_assoc | by rewrite len_be_bytes | by rewrite !len_app, ?len_be_bytes, Hb]).
  rewrite (Hs (MAGIC ++ v ++ [am_kind a] ++ am_binding a ++ be_bytes 8 (am_items a)) (be_bytes 8 (am_bytes a)) (am_digest a ++ []) 50 58)
    by (first [by rewrite He, <-!app_assoc | by rewrite len_be_bytes | by rewrite !len_app, ?len_be_bytes, Hb]).
  rewrite (Hs (MAGIC ++ v ++ [am_kind a] ++ am_binding a ++ be_bytes 8 (am_items a) ++ be_bytes 8 (am_bytes a)) (am_digest a) [] 58 90)
    by (first [by rewrite He, <-!app_assoc | by rewrite len_be_bytes | by rewrite !len_app, ?len_be_bytes, Hb | by rewrite Hd]).
  rewrite bool_decide_eq_true_2 by done. cbn [negb]. unfold u64_ok in *.
  rewrite !be_value_bytes by lia. rewrite Z.eqb_refl. cbn [negb or_panic mbind result_bind].
  assert (negb ((am_kind a =? 0) || (am_kind a =? 2) || (am_kind a =? 3)) = false) as ->.
  { rewrite !elem_of_cons, elem_of_nil in Hk. destruct Hk as [->|[->|[->|[]]]]; done. }
  cbn [am_bytes am_items]. rewrite (proj2 (Z.ltb_ge _ _) Hmin), (proj2 (Z.ltb_ge _ _) Hmax). by destruct a.
Qed.
Lemma artifact_decode_spec bs a :
  bytes_ok bs → ArtifactManifest_decode bs = Ok a ↔ artifact_ok a ∧ bs = ArtifactManifest_encode a.
Proof.
  intros Hb. split; [|intros [Ha ->]; by apply artifact_decode_encode].
  unfold ArtifactManifest_decode. destruct (Z.eqb_spec (len bs) ARTIFACT_MANIFEST_BYTES) as [Hl|]; [|done]. cbn [negb].
  destruct (artifact_parts bs Hl) as (kind & -> & Hparts).
  case_bool_decide as Hm; [|done]. cbn [negb]. destruct (Z.eqb_spec (be_value (artifact_slice bs 7 9)) FORMAT_VERSION) as [Hv|]; [|done].
  cbn [negb or_panic mbind result_bind]. destruct (negb _) eqn:Ek; [done|]. cbv zeta. cbn [am_bytes am_items]. destruct ((_ <? ARTIFACT_HEADER_BYTES) || _) eqn:Er; [done|].
  intros E. apply Ok_inj in E as <-. unfold ARTIFACT_MANIFEST_BYTES in Hl.
  assert (∀ i j, bytes_ok (artifact_slice bs i j)) as Hs by (intros; by apply bytes_ok_take, bytes_ok_drop).
  assert (∀ i, 0 ≤ i → i + 8 ≤ 90 → u64_ok (be_value (artifact_slice bs i (i + 8))) ∧
    be_bytes 8 (be_value (artifact_slice bs i (i + 8))) = artifact_slice bs i (i + 8)) as Hu.
  { intros i Hi Hi8. pose proof (slice_len bs i (i + 8) ltac:(lia) ltac:(lia)) as Hn. split.
    - pose proof (be_value_bound _ (Hs i (i + 8))) as Hbd. rewrite Hn in Hbd. replace (i + 8 - i) with 8 in Hbd by lia.
      unfold u64_ok. lia.
    - replace 8%nat with (length (artifact_slice bs i (i + 8))) at 1; [by apply be_bytes_value|]. unfold len in Hn. lia. }
  pose proof (Hu 42 ltac:(lia) ltac:(lia)) as [Hi Hi']. pose proof (Hu 50 ltac:(lia) ltac:(lia)) as [Hby Hby'].
  change (42 + 8) with 50 in *. change (50 + 8) with 58 in *. cbn [am_bytes am_items] in Er. split.
  - unfold artifact_ok. cbn [am_kind am_binding am_items am_bytes am_digest]. bprop.
    split_and!; try done; try apply slice_len; try lia. rewrite !elem_of_cons. lia.
  - rewrite Hparts at 1. rewrite Hm. unfold ArtifactManifest_encode, ArtifactManifest_header. cbn [am_kind am_binding am_items am_bytes am_digest].
    rewrite Hi', Hby', <-!app_assoc. f_equal. f_equal. rewrite <-Hv. symmetry.
    replace 2%nat with (length (artifact_slice bs 7 9)) at 1; [by apply be_bytes_value|].
    pose proof (slice_len bs 7 9 ltac:(lia) ltac:(lia)). unfold len in *. lia.
Qed.
Lemma artifact_decode_total bs : ok_or_corrupt (flatten (ArtifactManifest_decode bs)).
Proof.
  unfold ArtifactManifest_decode. destruct (Z.eqb_spec (len bs) ARTIFACT_MANIFEST_BYTES) as [Hl|]; [|by right]. cbn [negb].
  destruct (artifact_parts bs Hl) as (kind & -> & _). cbn [or_panic mbind result_bind].
  repeat case_match; cbn; first [by right | left; by eexists].
Qed.
Definition artifact_body (a : ArtifactManifest) : list Z :=
  be_bytes 4 ARTIFACT_MANIFEST_BYTES ++ ArtifactManifest_encode a.
Lemma decode_artifact_spec : parses (flat decode_artifact) (λ a body, artifact_ok a ∧ body = artifact_body a).
Proof.
  apply parses_flat_bind. eapply parses_ext.
  - eapply parses_bind; [apply parses_flat, sized_bytes_spec|]. intros bs ? _ _.
    assert (parses (dec_lift (flatten (ArtifactManifest_decode bs))) (λ v body, flatten (ArtifactManifest_decode bs) = Ok v ∧ body = [])) as H
      by apply parses_lift, artifact_decode_total.
    intros d Hd. replace (flat (dec_lift (ArtifactManifest_decode bs)) d) with (dec_lift (flatten (ArtifactManifest_decode bs)) d);
      [exact (H d Hd)|]. unfold flat, dec_lift. by destruct (ArtifactManifest_decode bs) as [|[]|].
  - intros a body _. unfold artifact_body. split.
    + intros (bs & b1 & b2 & (Hb & Hl & _ & ->) & [E ->] & ->). pose proof (proj1 (flatten_ok _ _) E) as E'.
      apply artifact_decode_spec in E' as [Ha ->]; [|done]. rewrite artifact_encode_len, app_nil_r by done. done.
    + intros [Ha ->]. pose proof (artifact_encode_len a Ha) as Hl.
      exists (ArtifactManifest_encode a), (be_bytes 4 (len (ArtifactManifest_encode a)) ++ ArtifactManifest_encode a), [].
      rewrite app_nil_r, Hl. split_and!; try done; [by apply artifact_encode_bytes|].
      by rewrite artifact_decode_encode.
Qed.

(** ** Specification automation *)
Ltac peel := repeat match goal with H : _ ∧ _ |- _ => let H1 := fresh in let H2 := fresh in destruct H as [H1 H2] end.
(** The side condition of a step: the part read is well-typed in every value of
    the grammar. *)
Create HintDb typed.
Ltac typed_part := intros ? ?; autounfold with typed in *; peel; cbn in *; peel; done.
Ltac read_u64 proj :=
  apply (parses_step _ _ u64_ok (be_bytes 8) proj); [apply u64_spec|typed_part|let n := fresh "n" in let Hn := fresh "Hn" in intros n Hn].
Lemma validated_ok {A} (check : A → result unit) (v w : A) :
  (map_err Corruption (check v) ≫= λ _, Ok v) = Ok w ↔ check w = Ok tt ∧ w = v.
Proof.
  rewrite bind_ok. split.
  - intros ([] & H%map_err_ok & E). by apply Ok_inj in E as <-.
  - intros [H ->]. exists tt. split; [by apply map_err_ok|done].
Qed.
Lemma validated_total {A} (check : A → result unit) (v : A) :
  no_panic (check v) → ok_or_corrupt (map_err Corruption (check v) ≫= λ _, Ok v).
Proof. intros H. apply ok_or_corrupt_bind; [by apply map_err_corrupt|]. intros; left; by eexists. Qed.
Lemma parses_validated {A} (check : A → result unit) (v : A) (R : A → Prop) :
  no_panic (check v) → (∀ w, R w ↔ check w = Ok tt ∧ w = v) →
  parses (dec_lift (map_err Corruption (check v) ≫= λ _, Ok v)) (λ w body, R w ∧ body = []).
Proof.
  intros Hp HR. apply parses_end; [by apply validated_total|]. intros w. by rewrite validated_ok, HR.
Qed.
(** Steps under [flat]. *)
Ltac flat_u64 proj :=
  apply (flat_step _ _ u64_ok (be_bytes 8) proj); [apply parses_flat, u64_spec|typed_part|let n := fresh "n" in let Hn := fresh "Hn" in intros n Hn].
Ltac flat_artifact proj :=
  apply (flat_step _ _ artifact_ok artifact_body proj); [apply decode_artifact_spec|typed_part|let n := fresh "n" in let Hn := fresh "Hn" in intros n Hn].
Definition path_body (path : list Z) : list Z := be_bytes 4 (len path) ++ path.
Lemma sized_path_ok path maximum e :
  len path ≤ maximum → maximum < 2 ^ 32 → Encoder_sized_bytes path maximum e = Ok (e ++ path_body path).
Proof.
  intros Hl Hm. unfold Encoder_sized_bytes, try_from_usize, Encoder_bytes, Encoder_u32, path_body.
  rewrite (proj2 (Z.ltb_ge _ _) Hl), (proj2 (Z.ltb_lt _ (2 ^ 32))) by lia. cbn. by rewrite <-app_assoc.
Qed.
(** A path field: its bytes, then UTF-8 validation. *)
Lemma read_path {B} maximum (k : list Z → Dec B) (proj : B → list Z) (R : B → Prop) (g : B → list Z) :
  maximum < 2 ^ 32 →
  (∀ b, R b → string_ok (proj b) ∧ len (proj b) ≤ maximum) →
  (∀ path, string_ok path → parses (k path) (λ b body, (R b ∧ proj b = path) ∧ body = g b)) →
  parses (dlet path := Decoder_sized_bytes maximum in
          dlet path := dec_lift (if utf8_valid path then Ok path else Err Corruption) in k path)
    (λ b body, R b ∧ body = path_body (proj b) ++ g b).
Proof.
  intros Hmax HR Hk.
  apply (parses_step _ _ (λ p, bytes_ok p ∧ len p ≤ maximum) path_body proj).
  { eapply parses_ext; [apply sized_bytes_spec|]. intros v body _. unfold path_body. split; [naive_solver|].
    intros [[??] ->]. split_and!; try done. lia. }
  { intros b [[??]?]%HR. done. }
  intros path [Hb _]. apply parses_lift_step; [auto with ktann| |].
  { intros b [[[_ Hu] _]%HR <-]. rewrite Hu. by eexists. }
  intros path' E. destruct (utf8_valid path) eqn:Hu; [|done]. apply Ok_inj in E as <-. by apply Hk.
Qed.
Lemma flat_path {B} maximum (k : list Z → Dec B) (proj : B → list Z) (R : B → Prop) (g : B → list Z) :
  maximum < 2 ^ 32 →
  (∀ b, R b → string_ok (proj b) ∧ len (proj b) ≤ maximum) →
  (∀ path, string_ok path → parses (flat (k path)) (λ b body, (R b ∧ proj b = path) ∧ body = g b)) →
  parses (flat (dlet path := Decoder_sized_bytes maximum in
          dlet path := dec_lift (if utf8_valid path then Ok path else Err Corruption) in k path))
    (λ b body, R b ∧ body = path_body (proj b) ++ g b).
Proof.
  intros Hmax HR Hk d Hd. pose proof (read_path maximum (λ p, flat (k p)) proj R g Hmax HR Hk d Hd) as H.
  replace (flat _ d) with ((dlet path := Decoder_sized_bytes maximum in
    dlet path := dec_lift (if utf8_valid path then Ok path else Err Corruption) in flat (k path)) d); [exact H|].
  destruct (sized_bytes_spec maximum d Hd) as [_ Ht]. unfold flat, dec_bind.
  destruct Ht as [[[path d'] ->]| ->]; [|done]. unfold dec_lift. by destruct (utf8_valid path).
Qed.

(** ** Worker options *)
Definition options_typed (o : BulkWorkerOptions) : Prop :=
  bytes_ok (wo_workspace o) ∧ u64_ok (wo_sort_memory_bytes o) ∧ u64_ok (wo_sort_scratch_bytes o) ∧
  u64_ok (wo_serving_memory_bytes o) ∧ u64_ok (wo_serving_scratch_bytes o) ∧
  u64_ok (wo_graph_memory_bytes o) ∧ u64_ok (wo_refinement_memory_bytes o) ∧
  u64_ok (wo_max_artifact_bytes o) ∧ u64_ok (lo_max_mutations (wo_load o)) ∧ u64_ok (lo_max_bytes (wo_load o)).
Definition worker_options_ok (o : BulkWorkerOptions) : Prop :=
  options_typed o ∧ BulkWorkerOptions_validate o = Ok tt.
#[export] Hint Unfold options_typed worker_options_ok : typed.
Definition options_body (o : BulkWorkerOptions) : list Z :=
  path_body (wo_workspace o) ++ be_bytes 8 (wo_sort_memory_bytes o) ++ be_bytes 8 (wo_sort_scratch_bytes o) ++
  be_bytes 8 (wo_serving_memory_bytes o) ++ be_bytes 8 (wo_serving_scratch_bytes o) ++
  be_bytes 8 (wo_graph_memory_bytes o) ++ be_bytes 8 (wo_refinement_memory_bytes o) ++
  be_bytes 8 (wo_max_artifact_bytes o) ++ be_bytes 8 (lo_max_mutations (wo_load o)) ++
  be_bytes 8 (lo_max_bytes (wo_load o)).

Lemma options_path o : worker_options_ok o → string_ok (wo_workspace o) ∧ len (wo_workspace o) ≤ 3900.
Proof.
  intros [(Hb & _) Hv]. unfold BulkWorkerOptions_validate, path_str_ok in Hv.
  destruct (_ || _) eqn:E; [done|]. bprop. peel. by split_and!.
Qed.
Lemma options_no_panic o : no_panic (BulkWorkerOptions_validate o).
Proof. unfold BulkWorkerOptions_validate. by case_match. Qed.
Lemma decode_options_spec : parses decode_options (λ o body, worker_options_ok o ∧ body = options_body o).
Proof.
  unfold decode_options, options_body.
  apply (read_path 3900 _ wo_workspace); [done|apply options_path|]. intros path [Hp _].
  read_u64 wo_sort_memory_bytes. read_u64 wo_sort_scratch_bytes. read_u64 wo_serving_memory_bytes.
  read_u64 wo_serving_scratch_bytes. read_u64 wo_graph_memory_bytes. read_u64 wo_refinement_memory_bytes.
  read_u64 wo_max_artifact_bytes. read_u64 (λ o, lo_max_mutations (wo_load o)).
  apply (parses_last _ _ u64_ok (be_bytes 8) (λ o, lo_max_bytes (wo_load o))); [apply u64_spec|typed_part|let n := fresh "n" in let Hn := fresh "Hn" in intros n Hn].
  apply parses_validated; [apply options_no_panic|]. intros [? ? ? ? ? ? ? ? []]. cbn. split.
  - intros ?. autounfold with typed in *. peel. cbn in *. by simplify_eq.
  - intros [? [= -> -> -> -> -> -> -> -> -> ->]]. unfold worker_options_ok, options_typed. cbn. by split_and!.
Qed.

Lemma encode_options_ok o e : worker_options_ok o → encode_options o e = Ok (e ++ options_body o).
Proof.
  intros Ho. pose proof (options_path o Ho) as [[_ Hu] Hl]. destruct Ho as [_ Hv]. unfold encode_options. rewrite Hv, Hu.
  cbn [mbind result_bind]. rewrite sized_path_ok by done. cbn [mbind result_bind foldl].
  unfold Encoder_u64, options_body. by rewrite <-!app_assoc.
Qed.
Lemma options_body_bytes o : worker_options_ok o → bytes_ok (options_body o).
Proof. intros [(? & _) _]. unfold options_body, path_body. solve_bytes. Qed.
Lemma sized_artifact_ok a e :
  artifact_ok a → Encoder_sized_bytes (ArtifactManifest_encode a) ARTIFACT_MANIFEST_BYTES e = Ok (e ++ artifact_body a).
Proof.
  intros Ha. unfold Encoder_sized_bytes, try_from_usize. rewrite artifact_encode_len by done.
  change (ARTIFACT_MANIFEST_BYTES <? ARTIFACT_MANIFEST_BYTES) with false.
  change (ARTIFACT_MANIFEST_BYTES <? 2 ^ 32) with true. cbn [mbind result_bind].
  unfold Encoder_bytes, Encoder_u32, artifact_body. by rewrite <-app_assoc.
Qed.
Lemma artifact_body_bytes a : artifact_ok a → bytes_ok (artifact_body a).
Proof. intros Ha. apply bytes_ok_app. split; [apply be_bytes_ok|by apply artifact_encode_bytes]. Qed.

(** A family whose encoder succeeds on every well-typed valid value. *)
Lemma emits_if {A} (encode : A → list Z → result (list Z)) (v : A) (P : Prop) (body out : list Z) :
  (P → ∀ e, encode v e = Ok (e ++ body)) → (¬ P → ∀ e, encode v e = Err InvalidArgument) → Decision P →
  emits_at out (encode v) P body.
Proof.
  intros Hy Hn [HP|HP]; unfold emits_at.
  - rewrite Hy by done. split; [|by left; eexists]. intros r. split; [intros E; by apply Ok_inj in E as <-|by intros [_ ->]].
  - rewrite Hn by done. split; [|by right]. naive_solver.
Qed.

(** ** Build Descriptors *)
Definition build_descriptor_typed (d : BuildDescriptor) : Prop :=
  bytes_ok (bd_source d) ∧ artifact_ok (bd_input d) ∧ u64_ok (co_sample_items (bd_options d)) ∧
  u64_ok (co_memory_bytes (bd_options d)) ∧ u64_ok (co_scratch_bytes (bd_options d)) ∧
  (∀ r, bd_refinement_rounds d = Some r → 0 ≤ r).
(** What the constructors establish. *)
Definition build_descriptor_valid (d : BuildDescriptor) : Prop :=
  (BuildDescriptor_new (bd_source d) (bd_input d) (bd_options d) ≫= λ d', with_refinement_rounds d' (bd_refinement_rounds d)) = Ok d.
#[export] Hint Unfold build_descriptor_typed : typed.
Definition rounds_byte (rounds : option Z) : Z := match rounds with None => 0 | Some r => r + 1 end.
Definition build_descriptor_body (d : BuildDescriptor) : list Z :=
  path_body (bd_source d) ++ artifact_body (bd_input d) ++ be_bytes 8 (co_sample_items (bd_options d)) ++
  be_bytes 8 (co_memory_bytes (bd_options d)) ++ be_bytes 8 (co_scratch_bytes (bd_options d)) ++
  [rounds_byte (bd_refinement_rounds d)].
Definition rounds_ok (rounds : option Z) : Prop := ∀ r, rounds = Some r → 0 ≤ r ≤ 5.

Lemma build_descriptor_inv source input options rounds d :
  (BuildDescriptor_new source input options ≫= λ d', with_refinement_rounds d' rounds) = Ok d →
  d = mkBuildDescriptor source input options rounds ∧
  utf8_valid source = true ∧ len source ≤ MAX_SOURCE_PATH_BYTES ∧ ∀ r, rounds = Some r → r ≤ 5.
Proof.
  intros (d' & H & Hr)%bind_ok. unfold BuildDescriptor_new, path_str_ok in H. destruct (_ || _) eqn:E; [done|].
  apply bind_ok in H as ([] & _ & H). apply Ok_inj in H as <-. unfold with_refinement_rounds in Hr.
  assert (∀ r, rounds = Some r → r ≤ 5) as Hle.
  { intros r ->. unfold MAX_REFINEMENT_ROUNDS in Hr. destruct (Z.ltb_spec 5 r); [done|lia]. }
  destruct (match rounds with Some _ => _ | None => _ end); [done|]. apply Ok_inj in Hr as <-.
  bprop. peel. by split_and!.
Qed.
Lemma rounds_spec :
  parses (dlet tag := Decoder_u8 in dec_lift (decode_rounds tag)) (λ r body, rounds_ok r ∧ body = [rounds_byte r]).
Proof.
  eapply parses_ext; [apply parses_check; [apply u8_spec|]|].
  { intros t _ _. unfold decode_rounds. repeat case_match; auto with ktann. }
  intros r body _. unfold decode_rounds, rounds_ok. split.
  - intros (t & [_ ->] & E). destruct (Z.eqb_spec t 0) as [Ht|]; [apply Ok_inj in E as <-; by rewrite Ht|].
    destruct (_ && _) eqn:Er; [|done]. apply Ok_inj in E as <-. bprop. cbn. split; [intros ? [= <-]; lia|]. f_equal. lia.
  - intros [Hr ->]. exists (rounds_byte r). destruct r as [r|]; [|done]. specialize (Hr r eq_refl). cbn.
    rewrite (proj2 (Z.eqb_neq _ _)), (proj2 (Z.leb_le _ _)), (proj2 (Z.leb_le _ _)) by lia. cbn.
    split; [split; [unfold byte_ok; lia|done]|]. do 2 f_equal. lia.
Qed.
Lemma decode_build_descriptor_spec :
  parses (flat decode_build_descriptor)
    (λ d body, (build_descriptor_typed d ∧ build_descriptor_valid d) ∧ body = build_descriptor_body d).
Proof.
  unfold decode_build_descriptor, build_descriptor_body.
  apply (flat_path MAX_SOURCE_PATH_BYTES _ bd_source); [done| |].
  { intros d [(Hb & _) Hv]. apply build_descriptor_inv in Hv as (_ & Hu & Hl & _). by split_and!. }
  intros source [Hs _]. flat_artifact bd_input.
  flat_u64 (λ d, co_sample_items (bd_options d)). flat_u64 (λ d, co_memory_bytes (bd_options d)).
  flat_u64 (λ d, co_scratch_bytes (bd_options d)).
  apply (flat_last _ _ rounds_ok (λ r, [rounds_byte r]) bd_refinement_rounds); [apply parses_flat, rounds_spec| |].
  { intros d Hd r Hr. assert (build_descriptor_typed d ∧ build_descriptor_valid d) as [(_ & _ & _ & _ & _ & Hpos) Hv] by (by peel).
    split; [by apply Hpos|]. apply build_descriptor_inv in Hv as (_ & _ & _ & Hle). by apply Hle. }
  intros rounds Hr. apply parses_flat, parses_end.
  - apply map_err_corrupt. unfold BuildDescriptor_new, ConstructionOptions_validate, with_refinement_rounds.
    repeat (case_match; cbn [mbind result_bind]; try done).
  - intros d. rewrite map_err_ok. split.
    + intros H. pose proof (build_descriptor_inv _ _ _ _ _ H) as (-> & _).
      unfold build_descriptor_valid, build_descriptor_typed. cbn. split_and!; try done. intros r ->. by apply Hr.
    + intros Hd. peel. unfold build_descriptor_valid in *. destruct d as [? ? [] ?]. cbn in *. by simplify_eq.
Qed.
Lemma encode_build_descriptor_ok d e :
  build_descriptor_typed d → build_descriptor_valid d → encode_build_descriptor d e = Ok (e ++ build_descriptor_body d).
Proof.
  intros (_ & Ha & _ & _ & _ & Hpos) Hv. apply build_descriptor_inv in Hv as (_ & Hu & Hl & Hle).
  unfold encode_build_descriptor. rewrite Hu. cbn [mbind result_bind].
  rewrite sized_path_ok by done. cbn [mbind result_bind]. rewrite sized_artifact_ok by done. cbn [mbind result_bind].
  assert (rounds_tag (bd_refinement_rounds d) = Ok (rounds_byte (bd_refinement_rounds d))) as ->.
  { destruct (bd_refinement_rounds d) as [r|]; [|done]. cbn. rewrite (proj2 (Z.ltb_lt _ _)); [done|].
    specialize (Hle r eq_refl). lia. }
  cbn [mbind result_bind]. unfold Encoder_u8, Encoder_u64, Encoder_u32, Encoder_bytes, build_descriptor_body.
  by rewrite <-!app_assoc.
Qed.
(** The constructors are the only way to build a descriptor, so every typed
    descriptor is valid. *)
Definition build_descriptor_family : ValueFamily BuildDescriptor.
Proof.
  refine {| vf_tag := TAG_BUILD_DESCRIPTOR; vf_encode := encode_build_descriptor;
            vf_decode := flat decode_build_descriptor;
            vf_typed d := build_descriptor_typed d ∧ build_descriptor_valid d; vf_valid _ := True;
            vf_canonical _ := True; vf_body := build_descriptor_body |}.
  - done.
  - intros d [(Hs & Ha & _ & _ & _ & Hpos) Hv] _. apply build_descriptor_inv in Hv as (_ & _ & _ & Hle).
    unfold build_descriptor_body, path_body. rewrite !bytes_ok_app, bytes_ok_cons.
    split_and!; auto using bytes_ok_nil with ktann; [by apply artifact_body_bytes|].
    destruct (bd_refinement_rounds d) as [r|]; [|done]. specialize (Hle r eq_refl). specialize (Hpos r eq_refl).
    unfold byte_ok. cbn. lia.
  - intros d [Ht Hv]. apply emits_if; [intros _ e; by apply encode_build_descriptor_ok|done|by left].
  - eapply parses_ext; [apply decode_build_descriptor_spec|]. intros d body _. tauto.
Defined.

(** ** Workspaces *)
Definition prepared_ok (p : option PreparedArtifact) : Prop :=
  ∀ a, p = Some a → u64_ok (pa_epoch a) ∧ artifact_ok (pa_manifest a).
Definition prepared_body (p : option PreparedArtifact) : list Z :=
  match p with None => [0] | Some a => 1 :: be_bytes 8 (pa_epoch a) ++ artifact_body (pa_manifest a) end.
Lemma prepared_spec : parses (flat decode_prepared) (λ p body, prepared_ok p ∧ body = prepared_body p).
Proof.
  unfold decode_prepared. apply parses_flat_bind. eapply parses_ext.
  - apply (parses_bind _ _ _ (λ tag p rest, prepared_ok p ∧ tag :: rest = prepared_body p) (parses_flat _ _ u8_spec)).
    intros tag body _ _. destruct (Z.eqb_spec tag 0) as [->|N0].
    { apply parses_flat. eapply parses_ext; [apply parses_ret|]. intros [p|] rest _; cbn; split.
      - by intros [[=] _].
      - by intros [_ [=]].
      - intros [_ ->]. split; [|done]. by intros a [=].
      - by intros [_ [= ->]]. }
    destruct (Z.eqb_spec tag 1) as [->|N1].
    2: { apply parses_flat, parses_never. intros [p|] rest _ [_ E]; cbn in E; injection E as -> _; done. }
    apply parses_flat_bind. eapply parses_ext.
    + eapply parses_bind; [apply parses_flat, u64_spec|intros epoch ? _ _]. apply parses_flat_bind.
      eapply parses_bind; [apply decode_artifact_spec|intros a ? _ _]. apply parses_flat, parses_ret.
    + intros p rest _. split.
      * intros (ep & b1 & ? & [He ->] & (a & b2 & b3 & [Ha ->] & [-> ->] & ->) & ->). cbn. rewrite app_nil_r.
        split; [|done]. by intros x [= <-].
      * intros [Hp E]. destruct p as [[ep a]|]; [|done]. cbn in E. injection E as ->.
        destruct (Hp _ eq_refl) as [He Ha]. cbn in He, Ha.
        exists ep, (be_bytes 8 ep), (artifact_body a). split; [done|]. split; [|done].
        exists a, (artifact_body a), []. by rewrite app_nil_r.
  - intros p body _. split.
    + by intros (tag & b1 & b2 & [_ ->] & [Hok <-] & ->).
    + intros [Hok ->]. destruct p as [a|]; [by exists 1, [1], (be_bytes 8 (pa_epoch a) ++ artifact_body (pa_manifest a))|].
      by exists 0, [0], [].
Qed.
Lemma encode_prepared_ok p e : prepared_ok p → encode_prepared p e = Ok (e ++ prepared_body p).
Proof.
  destruct p as [a|]; [|done]. intros Hp. destruct (Hp a eq_refl) as [_ Ha]. cbn [encode_prepared]. rewrite sized_artifact_ok by done.
  unfold Encoder_u64, Encoder_u8. cbn [prepared_body]. by rewrite <-!app_assoc.
Qed.
Lemma prepared_bytes p : prepared_ok p → bytes_ok (prepared_body p).
Proof.
  destruct p as [a|]; [|intros _; by repeat constructor]. intros Hp. destruct (Hp a eq_refl) as [_ Ha]. cbn [prepared_body].
  rewrite bytes_ok_cons, bytes_ok_app. split_and!; [done|apply be_bytes_ok|by apply artifact_body_bytes].
Qed.
Definition failure_byte (f : option ErrorKind) : Z := match failure_tag f with Ok t => t | _ => 0 end.
Definition failure_ok (f : option ErrorKind) : Prop := ∃ t, failure_tag f = Ok t.
Lemma failure_spec :
  parses (dlet tag := Decoder_u8 in dec_lift (failure_of_tag tag)) (λ f body, failure_ok f ∧ body = [failure_byte f]).
Proof.
  eapply parses_ext; [apply parses_check; [apply u8_spec|]|].
  { intros t ? ?. unfold failure_of_tag. repeat case_match; auto with ktann. }
  intros f body _. unfold failure_ok, failure_byte. split.
  - intros (t & [_ ->] & E). unfold failure_of_tag in E.
    repeat match type of E with context [?a =? ?b] => destruct (Z.eqb_spec a b) as [Ht|]; [apply Ok_inj in E as <-; rewrite Ht; by split; [eexists|]|] end.
    done.
  - intros [[t E] ->]. rewrite E. exists t. destruct f as [[]|]; cbn in E; simplify_eq; by repeat split.
Qed.
Definition workspace_typed (w : BuildWorkspace) : Prop :=
  options_typed (bw_options w) ∧ u64_ok (hl_max_key_bytes (bw_hard_limits w)) ∧
  u64_ok (hl_max_value_bytes (bw_hard_limits w)) ∧ (bytes_ok (bw_token w) ∧ len (bw_token w) = 32) ∧
  u64_ok (bw_epoch w) ∧ prepared_ok (bw_forest w) ∧ prepared_ok (bw_serving w).
Definition workspace_valid (w : BuildWorkspace) : Prop :=
  BuildWorkspace_validate w = Ok tt ∧ failure_ok (bw_failure w).
#[export] Hint Unfold workspace_typed workspace_valid : typed.
Definition workspace_body (w : BuildWorkspace) : list Z :=
  options_body (bw_options w) ++ be_bytes 8 (hl_max_key_bytes (bw_hard_limits w)) ++
  be_bytes 8 (hl_max_value_bytes (bw_hard_limits w)) ++ bw_token w ++ be_bytes 8 (bw_epoch w) ++
  prepared_body (bw_forest w) ++ prepared_body (bw_serving w) ++ [failure_byte (bw_failure w)].
Lemma workspace_options w : BuildWorkspace_validate w = Ok tt → BulkWorkerOptions_validate (bw_options w) = Ok tt.
Proof. by intros ([] & ? & _)%bind_ok. Qed.
Lemma workspace_no_panic w : no_panic (BuildWorkspace_validate w).
Proof. apply bind_no_panic; [apply options_no_panic|]. intros [] _. by case_match. Qed.
Lemma decode_workspace_spec :
  parses (flat decode_workspace) (λ w body, (workspace_typed w ∧ workspace_valid w) ∧ body = workspace_body w).
Proof.
  unfold decode_workspace, workspace_body.
  apply (flat_step _ _ worker_options_ok options_body bw_options); [apply parses_flat, decode_options_spec| |].
  { intros w [[? _] [?%workspace_options _]]. done. }
  intros options [Ho _]. flat_u64 (λ w, hl_max_key_bytes (bw_hard_limits w)). flat_u64 (λ w, hl_max_value_bytes (bw_hard_limits w)).
  apply (flat_step _ _ (λ t, bytes_ok t ∧ len t = 32) (λ t, t) bw_token);
    [apply parses_flat; eapply parses_ext; [by apply array_spec|naive_solver]|typed_part|].
  intros token Htoken. flat_u64 bw_epoch.
  apply (flat_step _ _ prepared_ok prepared_body bw_forest); [apply prepared_spec|typed_part|]. intros forest Hforest.
  apply (flat_step _ _ prepared_ok prepared_body bw_serving); [apply prepared_spec|typed_part|]. intros serving Hserving.
  apply (flat_last _ _ failure_ok (λ f, [failure_byte f]) bw_failure); [apply parses_flat, failure_spec|typed_part|].
  intros failure Hfailure. apply parses_flat, parses_validated; [apply workspace_no_panic|].
  intros w. unfold workspace_typed, workspace_valid. split.
  - intros Hw. peel. destruct w as [? [] ? ? ? ? ?]. cbn in *. by simplify_eq.
  - intros [Hv ->]. cbn. peel. by split_and!.
Qed.
Definition workspace_family : ValueFamily BuildWorkspace.
Proof.
  refine {| vf_tag := TAG_BUILD_WORKSPACE; vf_encode := encode_workspace; vf_decode := flat decode_workspace;
            vf_typed := workspace_typed; vf_valid := workspace_valid; vf_canonical _ := True; vf_body := workspace_body |}.
  - done.
  - intros w (Ho & _ & _ & [? _] & _ & Hf & Hs) [Hv [t Ht]]. unfold workspace_body. rewrite !bytes_ok_app, bytes_ok_cons.
    split_and!; auto using bytes_ok_nil, prepared_bytes with ktann.
    + apply options_body_bytes. split; [done|by apply workspace_options].
    + unfold failure_byte. rewrite Ht. destruct (bw_failure w) as [[]|]; cbn in Ht; simplify_eq; done.
  - intros w (Ho & _ & _ & _ & _ & Hf & Hs). unfold emits_at, encode_workspace, workspace_valid.
    destruct (BuildWorkspace_validate w) as [[]|e|] eqn:Hv; cbn [mbind result_bind].
    2: { assert (e = InvalidArgument) as ->. { revert Hv. unfold BuildWorkspace_validate, BulkWorkerOptions_validate.
           repeat (case_match; cbn [mbind result_bind]; try done); by intros [= <-]. }
         split; [|by right]. naive_solver. }
    2: { by destruct (workspace_no_panic w). }
    rewrite encode_options_ok by (split; [done|by apply workspace_options]). cbn [mbind result_bind].
    rewrite encode_prepared_ok by done. cbn [mbind result_bind]. rewrite encode_prepared_ok by done. cbn [mbind result_bind].
    destruct (failure_tag (bw_failure w)) as [t|e|] eqn:Ht; cbn [mbind result_bind].
    + assert (failure_byte (bw_failure w) = t) as Hb by (unfold failure_byte; by rewrite Ht).
      unfold workspace_body, Encoder_u8, Encoder_u64, Encoder_bytes, failure_ok. rewrite Hb, <-!app_assoc. split; [|by left; eexists].
      intros r. split; [intros E; apply Ok_inj in E as <-; split; [split; [done|by eexists]|done]|by intros [_ ->]].
    + assert (e = InvalidArgument) as -> by (destruct (bw_failure w) as [[]|]; cbn in Ht; by simplify_eq).
      split; [|by right]. intros r. split; [done|]. intros [[_ [t E]] _]. congruence.
    + destruct (bw_failure w) as [[]|]; by cbn in Ht.
  - eapply parses_ext; [apply decode_workspace_spec|]. intros d body _. tauto.
Defined.

(** ** Schedules *)
Definition schedule_typed (s : BuildSchedule) : Prop :=
  index_name_ok (bs_name s) ∧ options_typed (bs_options s) ∧ (bytes_ok (bs_owner s) ∧ len (bs_owner s) = 32) ∧
  u64_ok (bs_expires_ms s).
Definition schedule_valid (s : BuildSchedule) : Prop :=
  BulkWorkerOptions_validate (bs_options s) = Ok tt ∧ schedule_invalid s = false.
#[export] Hint Unfold schedule_typed schedule_valid : typed.
Definition schedule_body (s : BuildSchedule) : list Z :=
  path_body (bs_name s) ++ options_body (bs_options s) ++ bs_owner s ++ be_bytes 8 (bs_expires_ms s).
Lemma index_name_len name : index_name_ok name → 1 ≤ len name ≤ 255.
Proof.
  intros [_ H]. unfold IndexName_new in H. destruct (_ || _) eqn:E; [done|]. bprop. pose proof (len_nonneg name). lia.
Qed.
Lemma decode_schedule_spec :
  parses decode_schedule (λ s body, (schedule_typed s ∧ schedule_valid s) ∧ body = schedule_body s).
Proof.
  unfold decode_schedule, schedule_body.
  apply (read_path 255 _ bs_name); [done| |].
  { intros s [(Hn & _) _]. split; [apply Hn|]. apply index_name_len in Hn. lia. }
  intros name Hname. apply parses_lift_step; [apply map_err_corrupt; unfold IndexName_new; by case_match| |].
  { intros s [[([_ Hn] & _) _] <-]. rewrite Hn. by eexists. }
  intros name' E%map_err_ok. assert (name' = name) as ->.
  { unfold IndexName_new in E. case_match; [done|]. by apply Ok_inj in E. }
  apply (parses_step _ _ worker_options_ok options_body bs_options); [apply decode_options_spec|typed_part|]. intros options [Ho Hov].
  apply (parses_step _ _ (λ t, bytes_ok t ∧ len t = 32) (λ t, t) bs_owner);
    [eapply parses_ext; [by apply array_spec|naive_solver]|typed_part|]. intros owner Howner.
  apply (parses_last _ _ u64_ok (be_bytes 8) bs_expires_ms); [apply u64_spec|typed_part|]. intros expires Hexp.
  apply parses_end; [auto with ktann|]. intros s. unfold schedule_typed, schedule_valid. split.
  - intros H. destruct (schedule_invalid _) eqn:Hs; [done|]. apply Ok_inj in H as <-. cbn. peel. by split_and!.
  - intros H. peel. destruct s. cbn in *. simplify_eq. by destruct (schedule_invalid _).
Qed.
Definition schedule_family : ValueFamily BuildSchedule.
Proof.
  refine {| vf_tag := TAG_BUILD_SCHEDULE; vf_encode := encode_schedule; vf_decode := decode_schedule;
            vf_typed := schedule_typed; vf_valid := schedule_valid; vf_canonical _ := True; vf_body := schedule_body |}.
  - done.
  - intros s ([[Hn _] _] & Ho & [? _] & _) [Hv _]. unfold schedule_body, path_body. rewrite !bytes_ok_app.
    split_and!; auto with ktann. by apply options_body_bytes.
  - intros s (Hn & Ho & _). apply index_name_len in Hn. unfold emits_at, encode_schedule, schedule_valid.
    destruct (schedule_invalid s); [split; [naive_solver|by right]|].
    rewrite sized_path_ok by lia. cbn [mbind result_bind].
    destruct (BulkWorkerOptions_validate (bs_options s)) as [[]|e|] eqn:Hv.
    + rewrite encode_options_ok by done. cbn [mbind result_bind]. unfold Encoder_u64, Encoder_bytes, schedule_body.
      rewrite <-!app_assoc. split; [|by left; eexists]. intros r. split; [intros E; by apply Ok_inj in E as <-|by intros [_ ->]].
    + unfold encode_options. rewrite Hv. assert (e = InvalidArgument) as ->.
      { unfold BulkWorkerOptions_validate in Hv. case_match; [|done]. by injection Hv as <-. }
      split; [|by right]. naive_solver.
    + by destruct (options_no_panic (bs_options s)).
  - eapply parses_ext; [apply decode_schedule_spec|]. intros d body _. tauto.
Defined.

(** ** Checkpoints *)
Section checkpoints.
Context (sha256 : list Z → list Z).

Definition flag_byte (b : bool) : Z := if b then 1 else 0.
Lemma flag_spec :
  parses (dlet tag := Decoder_u8 in dec_lift (decode_flag tag)) (λ b body, True ∧ body = [flag_byte b]).
Proof.
  apply parses_tag; [by intros []|..]; unfold decode_flag.
  - solve_tag.
  - intros t. repeat case_match; auto with ktann.
Qed.
(** A checkpoint encoder: validation, then a total printer. *)
Lemma emits_validated {A} (encode : A → list Z → result (list Z)) (check : A → result unit) (v : A) body out
    (k : A → list Z → result (list Z)) :
  (∀ e, encode v e = check v ≫= λ _, k v e) → (∀ e, k v e = Ok (e ++ body)) →
  (∀ e, check v = Err e → e = InvalidArgument) → no_panic (check v) →
  emits_at out (encode v) (check v = Ok tt) body.
Proof.
  intros He Hk Herr Hp. unfold emits_at. rewrite He.
  destruct (check v) as [[]|e|] eqn:E; [|rewrite (Herr e eq_refl)|done]; cbn [mbind result_bind].
  - rewrite Hk. split; [|by left; eexists]. intros r. split; [intros H; by apply Ok_inj in H as <-|by intros [_ ->]].
  - split; [|by right]. naive_solver.
Qed.

Definition validation_typed (v : BuildValidation) : Prop :=
  artifact_ok (bv_artifact v) ∧ bytes_ok (bv_cursor v) ∧ u64_ok (bv_entries v) ∧
  (bytes_ok (bv_prefix_sha256 v) ∧ len (bv_prefix_sha256 v) = 32).
Definition validation_valid (v : BuildValidation) : Prop := BuildValidation_validate sha256 v = Ok tt.
Definition validation_body (v : BuildValidation) : list Z :=
  artifact_body (bv_artifact v) ++ path_body (bv_cursor v) ++ be_bytes 8 (bv_entries v) ++
  bv_prefix_sha256 v ++ [flag_byte (bv_complete v)].
Hint Unfold validation_typed : typed.
Lemma validation_cursor v : validation_valid v → len (bv_cursor v) ≤ 16384.
Proof.
  unfold validation_valid, BuildValidation_validate. destruct (_ || _) eqn:E; [done|]. bprop. intros _. lia.
Qed.
Lemma validation_no_panic v : no_panic (BuildValidation_validate sha256 v).
Proof. unfold BuildValidation_validate. by case_match. Qed.
Lemma decode_validation_spec :
  parses (flat (decode_validation sha256)) (λ v body, (validation_typed v ∧ validation_valid v) ∧ body = validation_body v).
Proof.
  unfold decode_validation, validation_body. flat_artifact bv_artifact.
  apply (flat_step _ _ (λ c, bytes_ok c ∧ len c ≤ 16384) path_body bv_cursor).
  { apply parses_flat. eapply parses_ext; [apply sized_bytes_spec|]. intros v body _. unfold path_body.
    split; [naive_solver|]. intros [[??] ->]. split_and!; try done; lia. }
  { intros v [[(_ & ? & _) ?%validation_cursor] _]. done. }
  intros cursor [Hc _]. flat_u64 bv_entries.
  apply (flat_step _ _ (λ t, bytes_ok t ∧ len t = 32) (λ t, t) bv_prefix_sha256);
    [apply parses_flat; eapply parses_ext; [by apply array_spec|naive_solver]|typed_part|]. intros prefix Hprefix.
  apply (flat_last _ _ (λ _, True) (λ b, [flag_byte b]) bv_complete); [apply parses_flat, flag_spec|done|]. intros complete _.
  apply parses_flat, parses_validated; [apply validation_no_panic|]. intros v. unfold validation_typed, validation_valid. split.
  - intros H. peel. destruct v. cbn in *. by simplify_eq.
  - intros [Hv ->]. cbn. peel. by split_and!.
Qed.
Definition validation_family : ValueFamily BuildValidation.
Proof.
  refine {| vf_tag := TAG_BUILD_VALIDATION; vf_encode := encode_validation sha256; vf_decode := flat (decode_validation sha256);
            vf_typed := validation_typed; vf_valid := validation_valid; vf_canonical _ := True; vf_body := validation_body |}.
  - done.
  - intros v (Ha & ? & _ & [? _]) _. unfold validation_body, path_body. rewrite !bytes_ok_app, bytes_ok_cons.
    split_and!; auto using artifact_body_bytes, bytes_ok_nil with ktann. by destruct (bv_complete v).
  - intros v (Ha & _). unfold validation_valid. destruct (Z.leb_spec (len (bv_cursor v)) 16384) as [Hc|Hc].
    + eapply (emits_validated _ (BuildValidation_validate sha256) v _ _ (λ v e, _)); [done| |..].
      * intros e. rewrite sized_artifact_ok by done. cbn [mbind result_bind]. rewrite sized_path_ok by done.
        cbn [mbind result_bind]. unfold Encoder_u8, Encoder_bytes, Encoder_u64, validation_body, flag_byte. by rewrite <-!app_assoc.
      * intros e. unfold BuildValidation_validate. case_match; [|done]. by intros [= <-].
      * apply validation_no_panic.
    + assert (BuildValidation_validate sha256 v = Err InvalidArgument) as Hv.
      { destruct (BuildValidation_validate sha256 v) as [[]|e|] eqn:E.
        - apply validation_cursor in E. lia.
        - unfold BuildValidation_validate in E. case_match; [|done]. by injection E as <-.
        - by apply validation_no_panic in E. }
      unfold emits_at, encode_validation. rewrite Hv. split; [naive_solver|by right].
  - eapply parses_ext; [apply decode_validation_spec|]. intros d body _. tauto.
Defined.

Definition load_typed (l : BuildLoad) : Prop :=
  artifact_ok (bl_artifact l) ∧ u64_ok (bl_epoch l) ∧ u64_ok (bl_entries l) ∧
  (bytes_ok (bl_prefix_sha256 l) ∧ len (bl_prefix_sha256 l) = 32).
Definition load_valid (l : BuildLoad) : Prop := BuildLoad_validate sha256 l = Ok tt.
Definition load_body (l : BuildLoad) : list Z :=
  artifact_body (bl_artifact l) ++ be_bytes 8 (bl_epoch l) ++ be_bytes 8 (bl_entries l) ++
  bl_prefix_sha256 l ++ [flag_byte (bl_complete l)].
Hint Unfold load_typed : typed.
Lemma load_no_panic l : no_panic (BuildLoad_validate sha256 l).
Proof. unfold BuildLoad_validate. by case_match. Qed.
Lemma decode_load_spec :
  parses (flat (decode_load sha256)) (λ l body, (load_typed l ∧ load_valid l) ∧ body = load_body l).
Proof.
  unfold decode_load, load_body. flat_artifact bl_artifact. flat_u64 bl_epoch. flat_u64 bl_entries.
  apply (flat_step _ _ (λ t, bytes_ok t ∧ len t = 32) (λ t, t) bl_prefix_sha256);
    [apply parses_flat; eapply parses_ext; [by apply array_spec|naive_solver]|typed_part|]. intros prefix Hprefix.
  apply (flat_last _ _ (λ _, True) (λ b, [flag_byte b]) bl_complete); [apply parses_flat, flag_spec|done|]. intros complete _.
  apply parses_flat, parses_validated; [apply load_no_panic|]. intros l. unfold load_typed, load_valid. split.
  - intros H. peel. destruct l. cbn in *. by simplify_eq.
  - intros [Hv ->]. cbn. peel. by split_and!.
Qed.
Definition load_family : ValueFamily BuildLoad.
Proof.
  refine {| vf_tag := TAG_BUILD_LOAD; vf_encode := encode_load sha256; vf_decode := flat (decode_load sha256);
            vf_typed := load_typed; vf_valid := load_valid; vf_canonical _ := True; vf_body := load_body |}.
  - done.
  - intros l (Ha & _ & _ & [? _]) _. unfold load_body. rewrite !bytes_ok_app, bytes_ok_cons.
    split_and!; auto using artifact_body_bytes, bytes_ok_nil with ktann. by destruct (bl_complete l).
  - intros l (Ha & _). unfold load_valid.
    eapply (emits_validated _ (BuildLoad_validate sha256) l _ _ (λ l e, _)); [done| |..].
    + intros e. rewrite sized_artifact_ok by done. cbn [mbind result_bind].
      unfold Encoder_u8, Encoder_bytes, Encoder_u64, load_body, flag_byte. by rewrite <-!app_assoc.
    + intros e. unfold BuildLoad_validate. case_match; [|done]. by intros [= <-].
    + apply load_no_panic.
  - eapply parses_ext; [apply decode_load_spec|]. intros d body _. tauto.
Defined.
End checkpoints.
