(* ===== verification/Codec.v ===== *)
(** Dispatch of the persistent values (src/src/storage/values.rs): the value
    families, the value a logical key holds, and the codec bound to an optional
    Index Manifest.  Decoding a key's bytes succeeds exactly on the canonical
    encodings of values that agree with the key. *)
From S2P Require Import Prelude RustStd Api TreeKey Keys RaBitQ Manifest Wire ValueData Records Synopsis Values Config ManifestCodec BuildValues.

Module ValueKind.
Inductive t :=
  | GraphDescriptor | GraphChunk | BuildDescriptor | BuildWorkspace | BuildSchedule | BuildValidation
  | BuildLoad | IndexIdAllocator | IndexNameEntry | IndexManifest | TreeManifest | VectorRecord
  | OpaquePayload | RecordLocation | PartitionHeader | PartitionCentroid | ChildEntry | LeafEntry
  | PartitionSynopsis | PartitionState.
#[export] Instance eq_dec : EqDecision t.
Proof. solve_decision. Defined.
End ValueKind.
Export (hints) ValueKind.
Definition ValueKind_tag (kind : ValueKind.t) : Z :=
  match kind with
  | ValueKind.GraphDescriptor => TAG_GRAPH_DESCRIPTOR
  | ValueKind.GraphChunk => TAG_GRAPH_CHUNK
  | ValueKind.BuildDescriptor => TAG_BUILD_DESCRIPTOR
  | ValueKind.BuildWorkspace => TAG_BUILD_WORKSPACE
  | ValueKind.BuildSchedule => TAG_BUILD_SCHEDULE
  | ValueKind.BuildValidation => TAG_BUILD_VALIDATION
  | ValueKind.BuildLoad => TAG_BUILD_LOAD
  | ValueKind.IndexIdAllocator => TAG_INDEX_ID_ALLOCATOR
  | ValueKind.IndexNameEntry => TAG_INDEX_NAME_ENTRY
  | ValueKind.IndexManifest => TAG_INDEX_MANIFEST
  | ValueKind.TreeManifest => TAG_TREE_MANIFEST
  | ValueKind.VectorRecord => TAG_VECTOR_RECORD
  | ValueKind.OpaquePayload => TAG_OPAQUE_PAYLOAD
  | ValueKind.RecordLocation => TAG_RECORD_LOCATION
  | ValueKind.PartitionHeader => TAG_PARTITION_HEADER
  | ValueKind.PartitionCentroid => TAG_PARTITION_CENTROID
  | ValueKind.ChildEntry => TAG_CHILD_ENTRY
  | ValueKind.LeafEntry => TAG_LEAF_ENTRY
  | ValueKind.PartitionSynopsis => TAG_PARTITION_SYNOPSIS
  | ValueKind.PartitionState => TAG_PARTITION_STATE
  end.

Module PersistentValue.
Inductive t :=
  | GraphDescriptor (v : Records.GraphDescriptor)
  | GraphChunk (v : list Z)
  | BuildDescriptor (v : BuildValues.BuildDescriptor)
  | BuildWorkspace (v : BuildValues.BuildWorkspace)
  | BuildSchedule (v : BuildValues.BuildSchedule)
  | BuildValidation (v : BuildValues.BuildValidation)
  | BuildLoad (v : BuildValues.BuildLoad)
  | IndexIdAllocator (v : Z)
  | IndexNameEntry (v : Z)
  | IndexManifest (v : Manifest.IndexManifest)
  | TreeManifest (v : Records.TreeManifest)
  | VectorRecord (v : Records.VectorRecord)
  | OpaquePayload (v : list Z)
  | RecordLocation (v : Records.RecordLocation)
  | PartitionHeader (v : Records.PartitionHeader)
  | PartitionCentroid (v : list Z)
  | ChildEntry (v : Records.ChildEntry)
  | LeafEntry (v : Records.LeafEntry)
  | PartitionSynopsis (v : Synopsis.PartitionSynopsis)
  | PartitionState (v : PartitionTransition.t).
End PersistentValue.
Definition PersistentValue_kind (v : PersistentValue.t) : ValueKind.t :=
  match v with
  | PersistentValue.GraphDescriptor _ => ValueKind.GraphDescriptor
  | PersistentValue.GraphChunk _ => ValueKind.GraphChunk
  | PersistentValue.BuildDescriptor _ => ValueKind.BuildDescriptor
  | PersistentValue.BuildWorkspace _ => ValueKind.BuildWorkspace
  | PersistentValue.BuildSchedule _ => ValueKind.BuildSchedule
  | PersistentValue.BuildValidation _ => ValueKind.BuildValidation
  | PersistentValue.BuildLoad _ => ValueKind.BuildLoad
  | PersistentValue.IndexIdAllocator _ => ValueKind.IndexIdAllocator
  | PersistentValue.IndexNameEntry _ => ValueKind.IndexNameEntry
  | PersistentValue.IndexManifest _ => ValueKind.IndexManifest
  | PersistentValue.TreeManifest _ => ValueKind.TreeManifest
  | PersistentValue.VectorRecord _ => ValueKind.VectorRecord
  | PersistentValue.OpaquePayload _ => ValueKind.OpaquePayload
  | PersistentValue.RecordLocation _ => ValueKind.RecordLocation
  | PersistentValue.PartitionHeader _ => ValueKind.PartitionHeader
  | PersistentValue.PartitionCentroid _ => ValueKind.PartitionCentroid
  | PersistentValue.ChildEntry _ => ValueKind.ChildEntry
  | PersistentValue.LeafEntry _ => ValueKind.LeafEntry
  | PersistentValue.PartitionSynopsis _ => ValueKind.PartitionSynopsis
  | PersistentValue.PartitionState _ => ValueKind.PartitionState
  end.

(** The [expect_variant!] extractors. *)
Definition expect_tree_manifest (v : option PersistentValue.t) : result (option TreeManifest) :=
  match v with Some (PersistentValue.TreeManifest x) => Ok (Some x) | Some _ => Err Corruption | None => Ok None end.
Definition expect_record (v : option PersistentValue.t) : result (option VectorRecord) :=
  match v with Some (PersistentValue.VectorRecord x) => Ok (Some x) | Some _ => Err Corruption | None => Ok None end.
Definition expect_location (v : option PersistentValue.t) : result (option RecordLocation) :=
  match v with Some (PersistentValue.RecordLocation x) => Ok (Some x) | Some _ => Err Corruption | None => Ok None end.
Definition expect_header (v : option PersistentValue.t) : result (option PartitionHeader) :=
  match v with Some (PersistentValue.PartitionHeader x) => Ok (Some x) | Some _ => Err Corruption | None => Ok None end.
Definition expect_centroid (v : option PersistentValue.t) : result (option (list Z)) :=
  match v with Some (PersistentValue.PartitionCentroid x) => Ok (Some x) | Some _ => Err Corruption | None => Ok None end.
Definition expect_leaf_entry (v : option PersistentValue.t) : result (option LeafEntry) :=
  match v with Some (PersistentValue.LeafEntry x) => Ok (Some x) | Some _ => Err Corruption | None => Ok None end.
Definition expect_child_entry (v : option PersistentValue.t) : result (option ChildEntry) :=
  match v with Some (PersistentValue.ChildEntry x) => Ok (Some x) | Some _ => Err Corruption | None => Ok None end.
Definition expect_synopsis (v : option PersistentValue.t) : result (option PartitionSynopsis) :=
  match v with Some (PersistentValue.PartitionSynopsis x) => Ok (Some x) | Some _ => Err Corruption | None => Ok None end.
Definition expect_state (v : option PersistentValue.t) : result (option PartitionTransition.t) :=
  match v with Some (PersistentValue.PartitionState x) => Ok (Some x) | Some _ => Err Corruption | None => Ok None end.
Definition expect_child_entry_ref (v : PersistentValue.t) : result ChildEntry :=
  match v with PersistentValue.ChildEntry x => Ok x | _ => Err Corruption end.

Definition value_kind_for_key (key : LogicalKey.t) : ValueKind.t :=
  match key with
  | LogicalKey.GraphDescriptor _ _ _ => ValueKind.GraphDescriptor
  | LogicalKey.GraphChunk _ _ _ _ => ValueKind.GraphChunk
  | LogicalKey.IndexIdAllocator => ValueKind.IndexIdAllocator
  | LogicalKey.IndexNameDirectory _ => ValueKind.IndexNameEntry
  | LogicalKey.Manifest _ => ValueKind.IndexManifest
  | LogicalKey.BuildDescriptor _ => ValueKind.BuildDescriptor
  | LogicalKey.BuildWorkspace _ => ValueKind.BuildWorkspace
  | LogicalKey.BuildSchedule _ => ValueKind.BuildSchedule
  | LogicalKey.BuildValidation _ => ValueKind.BuildValidation
  | LogicalKey.BuildLoad _ => ValueKind.BuildLoad
  | LogicalKey.Record _ _ => ValueKind.VectorRecord
  | LogicalKey.Location _ _ => ValueKind.RecordLocation
  | LogicalKey.Payload _ _ => ValueKind.OpaquePayload
  | LogicalKey.TreeManifest _ _ => ValueKind.TreeManifest
  | LogicalKey.Header _ _ _ => ValueKind.PartitionHeader
  | LogicalKey.Synopsis _ _ _ => ValueKind.PartitionSynopsis
  | LogicalKey.State _ _ _ => ValueKind.PartitionState
  | LogicalKey.Centroid _ _ _ => ValueKind.PartitionCentroid
  | LogicalKey.LeafEntry _ _ _ _ => ValueKind.LeafEntry
  | LogicalKey.ChildEntry _ _ _ _ => ValueKind.ChildEntry
  end.
Definition validate_key_identity (key : LogicalKey.t) (value : PersistentValue.t)
    (manifest : option IndexManifest) : result unit :=
  if match manifest, LogicalKey_index key with
     | Some expected, Some actual => negb (im_logical_index_id expected =? actual)
     | _, _ => false
     end
  then Err Corruption
  else
    match key, value with
    | LogicalKey.Manifest expected, PersistentValue.IndexManifest actual =>
        if negb (expected =? im_logical_index_id actual) then Err Corruption
        else if is_some_and (λ expected, negb (has_same_immutable_identity expected actual)) manifest
        then Err Corruption else Ok tt
    | LogicalKey.Record _ id, PersistentValue.VectorRecord actual =>
        if decide (id = vr_record_id actual) then Ok tt else Err Corruption
    | LogicalKey.LeafEntry _ _ _ id, PersistentValue.LeafEntry actual =>
        if decide (id = le_record_id actual) then Ok tt else Err Corruption
    | LogicalKey.ChildEntry _ _ _ child, PersistentValue.ChildEntry actual =>
        if child =? ce_child actual then Ok tt else Err Corruption
    | _, _ => Ok tt
    end.

Section codec.
Context (xxh3_128 : Z → list Z → Z) (sha256 : list Z → list Z).

(** [ValueCodec::require_manifest]. *)
Definition require_manifest (manifest : option IndexManifest) : result IndexManifest :=
  ok_or InvalidArgument manifest.
Definition encode_value_body (manifest : option IndexManifest) (value : PersistentValue.t) (e : list Z)
    : result (list Z) :=
  match value with
  | PersistentValue.GraphDescriptor v => encode_descriptor v e
  | PersistentValue.GraphChunk v => encode_chunk v e
  | PersistentValue.BuildDescriptor v => encode_build_descriptor v e
  | PersistentValue.BuildWorkspace v => encode_workspace v e
  | PersistentValue.BuildSchedule v => encode_schedule v e
  | PersistentValue.BuildValidation v => encode_validation sha256 v e
  | PersistentValue.BuildLoad v => encode_load sha256 v e
  | PersistentValue.IndexIdAllocator v => Ok (encode_index_id_allocator v e)
  | PersistentValue.IndexNameEntry v => Ok (encode_index_name_entry v e)
  | PersistentValue.IndexManifest v => encode_index_manifest v e
  | PersistentValue.TreeManifest v => require_manifest manifest ≫= λ _, Ok (encode_tree_manifest v e)
  | PersistentValue.VectorRecord v => require_manifest manifest ≫= λ m, encode_vector_record m v e
  | PersistentValue.OpaquePayload v => require_manifest manifest ≫= λ _, encode_opaque_payload v e
  | PersistentValue.RecordLocation v => require_manifest manifest ≫= λ m, encode_record_location m v e
  | PersistentValue.PartitionHeader v => require_manifest manifest ≫= λ _, Ok (encode_partition_header v e)
  | PersistentValue.PartitionCentroid v => require_manifest manifest ≫= λ m, encode_partition_centroid m v e
  | PersistentValue.ChildEntry v => require_manifest manifest ≫= λ m, encode_child_entry m v e
  | PersistentValue.LeafEntry v => require_manifest manifest ≫= λ m, encode_leaf_entry m v e
  | PersistentValue.PartitionSynopsis v =>
      require_manifest manifest ≫= λ m, encode_partition_synopsis xxh3_128 m v e
  | PersistentValue.PartitionState v => require_manifest manifest ≫= λ _, encode_partition_state v e
  end.
Definition ValueCodec_encode (manifest : option IndexManifest) (value : PersistentValue.t) : result (list Z) :=
  encode_value_body manifest value (Encoder_new (ValueKind_tag (PersistentValue_kind value))) ≫= Encoder_finish.
Definition encode_for_key (manifest : option IndexManifest) (key : LogicalKey.t) (value : PersistentValue.t)
    : result (list Z) :=
  if negb (bool_decide (value_kind_for_key key = PersistentValue_kind value))
     || negb (is_ok (validate_key_identity key value manifest))
  then Err InvalidArgument
  else ValueCodec_encode manifest value.

(** A body decoder and the variant it fills. *)
Definition dec_map {A B} (f : A → B) (p : Dec A) : Dec B := dlet a := p in dec_ret (f a).
Definition decode_value_body (manifest : option IndexManifest) (kind : ValueKind.t) : Dec PersistentValue.t :=
  match kind with
  | ValueKind.BuildSchedule => dec_map PersistentValue.BuildSchedule decode_schedule
  | ValueKind.BuildWorkspace => dec_map PersistentValue.BuildWorkspace decode_workspace
  | ValueKind.BuildValidation => dec_map PersistentValue.BuildValidation (decode_validation sha256)
  | ValueKind.BuildLoad => dec_map PersistentValue.BuildLoad (decode_load sha256)
  | ValueKind.GraphDescriptor => dec_map PersistentValue.GraphDescriptor decode_descriptor
  | ValueKind.GraphChunk => dec_map PersistentValue.GraphChunk decode_chunk
  | ValueKind.BuildDescriptor => dec_map PersistentValue.BuildDescriptor decode_build_descriptor
  | ValueKind.IndexIdAllocator => dec_map PersistentValue.IndexIdAllocator decode_index_id_allocator
  | ValueKind.IndexNameEntry => dec_map PersistentValue.IndexNameEntry decode_index_name_entry
  | ValueKind.IndexManifest => dec_map PersistentValue.IndexManifest decode_index_manifest
  | ValueKind.TreeManifest =>
      dlet _ := dec_lift (require_manifest manifest) in dec_map PersistentValue.TreeManifest decode_tree_manifest
  | ValueKind.VectorRecord =>
      dlet m := dec_lift (require_manifest manifest) in dec_map PersistentValue.VectorRecord (decode_vector_record m)
  | ValueKind.OpaquePayload =>
      dlet _ := dec_lift (require_manifest manifest) in dec_map PersistentValue.OpaquePayload decode_opaque_payload
  | ValueKind.RecordLocation =>
      dlet m := dec_lift (require_manifest manifest) in dec_map PersistentValue.RecordLocation (decode_record_location m)
  | ValueKind.PartitionHeader =>
      dlet _ := dec_lift (require_manifest manifest) in dec_map PersistentValue.PartitionHeader decode_partition_header
  | ValueKind.PartitionCentroid =>
      dlet m := dec_lift (require_manifest manifest) in dec_map PersistentValue.PartitionCentroid (decode_partition_centroid m)
  | ValueKind.ChildEntry =>
      dlet m := dec_lift (require_manifest manifest) in dec_map PersistentValue.ChildEntry (decode_child_entry m)
  | ValueKind.LeafEntry =>
      dlet m := dec_lift (require_manifest manifest) in dec_map PersistentValue.LeafEntry (decode_leaf_entry m)
  | ValueKind.PartitionSynopsis =>
      dlet m := dec_lift (require_manifest manifest) in
      dec_map PersistentValue.PartitionSynopsis (decode_partition_synopsis xxh3_128 m)
  | ValueKind.PartitionState =>
      dlet _ := dec_lift (require_manifest manifest) in dec_map PersistentValue.PartitionState decode_partition_state
  end.
Definition ValueCodec_decode (manifest : option IndexManifest) (key : LogicalKey.t) (bytes : list Z)
    : result PersistentValue.t :=
  let expected := value_kind_for_key key in
  if bool_decide (expected = ValueKind.PartitionSynopsis) && (MAX_SYNOPSIS_BYTES <? len bytes) then Err Corruption
  else
    decode_framed (ValueKind_tag expected) (decode_value_body manifest expected) bytes ≫= λ value,
    validate_key_identity key value manifest ≫= λ _, Ok value.

(** ** Specification

    The values a codec can store: well typed and canonical in their family,
    with the manifest that the serving families are bound to. *)
Definition admits {A} (F : ValueFamily A) (v : A) : Prop := vf_typed v ∧ vf_canonical v.
Definition bound_to (manifest : option IndexManifest) (P : ∀ m, manifest_ok m → Prop) : Prop :=
  ∃ m Hm, manifest = Some m ∧ P m Hm.
Definition value_ok (manifest : option IndexManifest) (v : PersistentValue.t) : Prop :=
  match v with
  | PersistentValue.GraphDescriptor v => admits graph_descriptor_family v
  | PersistentValue.GraphChunk v => admits graph_chunk_family v
  | PersistentValue.BuildDescriptor v => admits build_descriptor_family v
  | PersistentValue.BuildWorkspace v => admits workspace_family v
  | PersistentValue.BuildSchedule v => admits schedule_family v
  | PersistentValue.BuildValidation v => admits (validation_family sha256) v
  | PersistentValue.BuildLoad v => admits (load_family sha256) v
  | PersistentValue.IndexIdAllocator v => admits allocator_family v
  | PersistentValue.IndexNameEntry v => admits name_entry_family v
  | PersistentValue.IndexManifest v => admits manifest_family v
  | PersistentValue.TreeManifest v => bound_to manifest (λ _ _, admits tree_manifest_family v)
  | PersistentValue.VectorRecord v => bound_to manifest (λ m Hm, admits (vector_record_family m Hm) v)
  | PersistentValue.OpaquePayload v => bound_to manifest (λ _ _, admits payload_family v)
  | PersistentValue.RecordLocation v => bound_to manifest (λ m Hm, admits (location_family m Hm) v)
  | PersistentValue.PartitionHeader v => bound_to manifest (λ _ _, admits header_family v)
  | PersistentValue.PartitionCentroid v => bound_to manifest (λ m Hm, admits (centroid_family m Hm) v)
  | PersistentValue.ChildEntry v => bound_to manifest (λ m Hm, admits (child_entry_family m Hm) v)
  | PersistentValue.LeafEntry v => bound_to manifest (λ m Hm, admits (leaf_entry_family m Hm) v)
  | PersistentValue.PartitionSynopsis v => bound_to manifest (λ m Hm, admits (synopsis_family xxh3_128 m Hm) v)
  | PersistentValue.PartitionState v => bound_to manifest (λ _ _, admits state_family v)
  end.
(** The families bound to the serving schema. *)
Definition needs_manifest (kind : ValueKind.t) : bool :=
  match kind with
  | ValueKind.TreeManifest | ValueKind.VectorRecord | ValueKind.OpaquePayload | ValueKind.RecordLocation
  | ValueKind.PartitionHeader | ValueKind.PartitionCentroid | ValueKind.ChildEntry | ValueKind.LeafEntry
  | ValueKind.PartitionSynopsis | ValueKind.PartitionState => true
  | _ => false
  end.
Definition bound_ok (manifest : option IndexManifest) : Prop := ∀ m, manifest = Some m → manifest_ok m.

(** A kind is carried by a family: its constructor, encoder and decoder (up to
    the version error) are the family's. *)
Record carried (manifest : option IndexManifest) (kind : ValueKind.t) {A} (F : ValueFamily A)
    (f : A → PersistentValue.t) : Prop := {
  carried_tag : ValueKind_tag kind = vf_tag;
  carried_kind v : PersistentValue_kind v = kind ↔ ∃ x, v = f x;
  carried_inj : Inj (=) (=) f;
  carried_encode x : encode_value_body manifest (f x) = vf_encode x;
  carried_decode d : flatten (decode_value_body manifest kind d) = flatten (dec_map f vf_decode d);
  carried_ok x : value_ok manifest (f x) ↔ admits F x;
}.

Lemma decode_framed_flatten {A B} tag (p : Dec A) (q : Dec B) (f : B → A) bytes :
  (∀ d, flatten (p d) = flatten (dec_map f q d)) →
  flatten (decode_framed tag p bytes) = flatten (decode_framed tag q bytes ≫= λ v, Ok (f v)).
Proof.
  intros H. unfold decode_framed. destruct (Decoder_framed tag bytes) as [d|[]|]; try done. cbn [mbind result_bind].
  specialize (H d). unfold dec_map, dec_bind, dec_ret in H.
  destruct (p d) as [[a d1]|[]|], (q d) as [[b d2]|[]|]; cbn in *; simplify_eq; try done;
    cbn; by destruct (Decoder_finish _) as [|[]|].
Qed.

Section carried.
Context (manifest : option IndexManifest) (kind : ValueKind.t) {A : Type} (F : ValueFamily A) (f : A → PersistentValue.t).
Context (Hc : carried manifest kind F f) (bytes : list Z) (Hb : bytes_ok bytes).

Lemma carried_decodes v :
  decode_framed (ValueKind_tag kind) (decode_value_body manifest kind) bytes = Ok v ↔
  PersistentValue_kind v = kind ∧ value_ok manifest v ∧ ValueCodec_encode manifest v = Ok bytes.
Proof.
  pose proof (carried_inj _ _ _ _ Hc) as Hi.
  rewrite <-flatten_ok, (decode_framed_flatten _ _ vf_decode f) by apply (carried_decode _ _ _ _ Hc).
  rewrite flatten_ok, (carried_tag _ _ _ _ Hc). fold (decode_family F bytes).
  assert (∀ x, ValueCodec_encode manifest (f x) = encode_framed F x) as He.
  { intros x. unfold ValueCodec_encode, encode_framed. rewrite (carried_encode _ _ _ _ Hc).
    rewrite (proj2 (carried_kind _ _ _ _ Hc (f x))), (carried_tag _ _ _ _ Hc) by eauto. done. }
  destruct (family_roundtrips_all F bytes Hb) as [Hv _]. rewrite bind_ok. split.
  - intros (x & (? & ? & ?)%Hv & [= <-]). rewrite (carried_kind _ _ _ _ Hc), (carried_ok _ _ _ _ Hc), He.
    split; [by eexists|by repeat split].
  - intros ([x ->]%(carried_kind _ _ _ _ Hc) & [??]%(carried_ok _ _ _ _ Hc) & E). rewrite He in E.
    exists x. split; [|done]. by apply Hv.
Qed.
Lemma carried_total :
  ok_or_corrupt (flatten (decode_framed (ValueKind_tag kind) (decode_value_body manifest kind) bytes)).
Proof.
  rewrite (decode_framed_flatten _ _ vf_decode f) by apply (carried_decode _ _ _ _ Hc).
  rewrite (carried_tag _ _ _ _ Hc). fold (decode_family F bytes).
  destruct (family_roundtrips_all F bytes Hb) as [_ [[x ->]| ->]]; cbn; [left; eauto|by right].
Qed.
End carried.

Lemma bound_to_some m Hm (P : ∀ m, manifest_ok m → Prop) :
  (∀ H, P m H ↔ P m Hm) → bound_to (Some m) P ↔ P m Hm.
Proof. intros HP. split; [|by exists m, Hm]. intros (? & H & [= <-] & ?). by apply (HP H). Qed.
(** A family whose dispatch arm is its own code, and one read under [flat]. *)
Ltac carry :=
  constructor; [done|intros []; split; intros H; try done; try (by eexists); by destruct H as [x [=]]
    |by intros ?? [=]|done| |].
Lemma flat_map {A B} (f : A → B) (p : Dec A) d : flatten (dec_map f p d) = flatten (dec_map f (flat p) d).
Proof. unfold dec_map, flat, dec_bind. by destruct (p d) as [[]|[]|]. Qed.
Lemma manifest_flat_map d :
  flatten (dec_map PersistentValue.IndexManifest decode_index_manifest d)
  = flatten (dec_map PersistentValue.IndexManifest decode_manifest_flat d).
Proof.
  unfold dec_map, decode_index_manifest, decode_manifest_flat, dec_bind. destruct (Decoder_u16 d) as [[]|[]|]; try done.
  by destruct (negb _).
Qed.

(** Every kind that has its manifest is carried by a family. *)
Definition carriable (manifest : option IndexManifest) (kind : ValueKind.t) : Prop :=
  ∃ A (F : ValueFamily A) f, carried manifest kind F f.
Lemma carry_by {A} manifest kind (F : ValueFamily A) f : carried manifest kind F f → carriable manifest kind.
Proof. by exists A, F, f. Qed.
Lemma namespace_kind_carried manifest kind : needs_manifest kind = false → carriable manifest kind.
Proof.
  intros Hk. destruct kind; try done.
  - by apply (carry_by _ _ graph_descriptor_family PersistentValue.GraphDescriptor); carry.
  - by apply (carry_by _ _ graph_chunk_family PersistentValue.GraphChunk); carry.
  - apply (carry_by _ _ build_descriptor_family PersistentValue.BuildDescriptor); carry; [apply flat_map|done].
  - apply (carry_by _ _ workspace_family PersistentValue.BuildWorkspace); carry; [apply flat_map|done].
  - by apply (carry_by _ _ schedule_family PersistentValue.BuildSchedule); carry.
  - apply (carry_by _ _ (validation_family sha256) PersistentValue.BuildValidation); carry; [apply flat_map|done].
  - apply (carry_by _ _ (load_family sha256) PersistentValue.BuildLoad); carry; [apply flat_map|done].
  - by apply (carry_by _ _ allocator_family PersistentValue.IndexIdAllocator); carry.
  - by apply (carry_by _ _ name_entry_family PersistentValue.IndexNameEntry); carry.
  - apply (carry_by _ _ manifest_family PersistentValue.IndexManifest); carry; [apply manifest_flat_map|done].
Qed.
Lemma serving_kind_carried m kind : manifest_ok m → needs_manifest kind = true → carriable (Some m) kind.
Proof.
  intros Hm Hk.
  destruct kind; try done;
    [apply (carry_by _ _ tree_manifest_family PersistentValue.TreeManifest)
    |apply (carry_by _ _ (vector_record_family m Hm) PersistentValue.VectorRecord)
    |apply (carry_by _ _ payload_family PersistentValue.OpaquePayload)
    |apply (carry_by _ _ (location_family m Hm) PersistentValue.RecordLocation)
    |apply (carry_by _ _ header_family PersistentValue.PartitionHeader)
    |apply (carry_by _ _ (centroid_family m Hm) PersistentValue.PartitionCentroid)
    |apply (carry_by _ _ (child_entry_family m Hm) PersistentValue.ChildEntry)
    |apply (carry_by _ _ (leaf_entry_family m Hm) PersistentValue.LeafEntry)
    |apply (carry_by _ _ (synopsis_family xxh3_128 m Hm) PersistentValue.PartitionSynopsis)
    |apply (carry_by _ _ state_family PersistentValue.PartitionState)];
    carry; try done; intros x; by apply (bound_to_some m Hm).
Qed.
Lemma kind_carried manifest kind :
  bound_ok manifest → (needs_manifest kind = true → is_Some manifest) → carriable manifest kind.
Proof.
  intros Hm Hn. destruct (needs_manifest kind) eqn:E; [|by apply namespace_kind_carried].
  destruct Hn as [m ->]; [done|]. apply serving_kind_carried; auto.
Qed.
Lemma unbound_decode kind tag bytes :
  needs_manifest kind = true →
  decode_framed tag (decode_value_body None kind) bytes = Err Corruption ∨
  decode_framed tag (decode_value_body None kind) bytes = Err InvalidArgument.
Proof.
  intros Hk. unfold decode_framed, Decoder_framed. destruct bytes; [by left|]. case_match; [by left|right].
  by destruct kind.
Qed.
Lemma stored_synopsis_len manifest v bytes :
  value_ok manifest v → PersistentValue_kind v = ValueKind.PartitionSynopsis →
  ValueCodec_encode manifest v = Ok bytes → len bytes ≤ MAX_SYNOPSIS_BYTES.
Proof.
  intros Hv Hk He. destruct v; try done. destruct Hv as (m & Hm & -> & [Hty _]).
  pose proof (encoded_synopsis_len xxh3_128 m Hm _ _ He Hty). pose proof Hm as (_ & _ & _ & _ & _ & ? & _). lia.
Qed.
Lemma key_identity_total key v manifest : ok_or_corrupt (validate_key_identity key v manifest).
Proof. unfold validate_key_identity. repeat case_match; auto with ktann. Qed.
Lemma encode_for_key_ok manifest key v bytes :
  encode_for_key manifest key v = Ok bytes ↔
  PersistentValue_kind v = value_kind_for_key key ∧ validate_key_identity key v manifest = Ok tt ∧
  ValueCodec_encode manifest v = Ok bytes.
Proof.
  unfold encode_for_key. case_bool_decide as Hk; cbn [negb orb]; [|split; [done|]; by intros (Hk' & _)].
  destruct (validate_key_identity key v manifest) as [[]|e|]; cbn; naive_solver.
Qed.

Lemma value_codec_decodes manifest key bytes v :
  bytes_ok bytes → bound_ok manifest →
  ValueCodec_decode manifest key bytes = Ok v ↔
  value_ok manifest v ∧ encode_for_key manifest key v = Ok bytes.
Proof.
  intros Hb Hm. rewrite encode_for_key_ok. unfold ValueCodec_decode. set (kind := value_kind_for_key key).
  assert (decode_framed (ValueKind_tag kind) (decode_value_body manifest kind) bytes = Ok v ↔
    PersistentValue_kind v = kind ∧ value_ok manifest v ∧ ValueCodec_encode manifest v = Ok bytes) as Hd.
  { destruct (needs_manifest kind) eqn:En; [destruct manifest as [m|]|].
    - destruct (serving_kind_carried m kind) as (A & F & f & Hc); auto. by apply (carried_decodes _ _ F f).
    - split; [by destruct (unbound_decode kind (ValueKind_tag kind) bytes En) as [-> | ->]|].
      intros (Hk & Hv & _). rewrite <-Hk in En. destruct v; try done; by destruct Hv as (? & ? & ? & _).
    - destruct (namespace_kind_carried manifest kind En) as (A & F & f & Hc). by apply (carried_decodes _ _ F f). }
  set (read := decode_framed _ _ bytes) in *. clearbody read.
  assert (read ≫= (λ value, validate_key_identity key value manifest ≫= λ _, Ok value) = Ok v ↔
    value_ok manifest v ∧ PersistentValue_kind v = kind ∧ validate_key_identity key v manifest = Ok tt ∧
    ValueCodec_encode manifest v = Ok bytes) as Hall.
  { split.
    - intros (v' & Hv' & H)%bind_ok. apply bind_ok in H as ([] & Hi & H). apply Ok_inj in H as ->.
      by apply Hd in Hv' as (? & ? & ?).
    - intros (? & ? & Hi & ?). rewrite (proj2 Hd) by done. cbn. by rewrite Hi. }
  case_bool_decide as Es; cbn [andb]; [|exact Hall].
  destruct (Z.ltb_spec MAX_SYNOPSIS_BYTES (len bytes)); [|exact Hall].
  split; [done|]. intros (Hv & Hk & _ & He). rewrite Es in Hk. pose proof (stored_synopsis_len _ _ _ Hv Hk He). lia.
Qed.
Lemma value_codec_total manifest key bytes :
  bytes_ok bytes → bound_ok manifest →
  ok_or_corrupt (flatten (ValueCodec_decode manifest key bytes)) ∨
  ValueCodec_decode manifest key bytes = Err InvalidArgument ∧ manifest = None ∧
    needs_manifest (value_kind_for_key key) = true.
Proof.
  intros Hb Hm. unfold ValueCodec_decode. set (kind := value_kind_for_key key). destruct (_ && _); [left; by right|].
  assert (∀ r : result PersistentValue.t, ok_or_corrupt (flatten r) →
    ok_or_corrupt (flatten (r ≫= λ value, validate_key_identity key value manifest ≫= λ _, Ok value))) as Hr.
  { intros [v|[]|] [[? E]|E]; try done; try (by right). cbn.
    destruct (key_identity_total key v manifest) as [[[] ->]| ->]; [left; by eexists|by right]. }
  destruct (needs_manifest kind) eqn:En; [destruct manifest as [m|]|].
  - destruct (serving_kind_carried m kind) as (A & F & f & Hc); auto. left. apply Hr. by apply (carried_total _ _ F f).
  - destruct (unbound_decode kind (ValueKind_tag kind) bytes En) as [-> | ->]; [left; by right|by right].
  - destruct (namespace_kind_carried manifest kind En) as (A & F & f & Hc). left. apply Hr. by apply (carried_total _ _ F f).
Qed.

Lemma value_codec_no_panic manifest key bytes :
  bytes_ok bytes → bound_ok manifest → no_panic (ValueCodec_decode manifest key bytes).
Proof.
  intros Hb Hm. destruct (value_codec_total manifest key bytes Hb Hm) as [[[v E]|E]|[-> _]]; [..|done].
  - apply (proj1 (flatten_ok _ _)) in E. by rewrite E.
  - by destruct (ValueCodec_decode manifest key bytes) as [|[]|].
Qed.
(** A well-formed value encodes to bytes, or is rejected. *)
Lemma encode_value_total manifest key v :
  bound_ok manifest → value_ok manifest v →
  (∃ bytes, encode_for_key manifest key v = Ok bytes ∧ bytes_ok bytes) ∨
  encode_for_key manifest key v = Err InvalidArgument.
Proof.
  intros Hm Hv. unfold encode_for_key. destruct (_ || _); [by right|].
  destruct (kind_carried manifest (PersistentValue_kind v)) as (A & F & f & Hc); [done| |].
  { intros Hn. destruct v; try done; destruct Hv as (m & _ & -> & _); by eexists. }
  destruct (proj1 (carried_kind _ _ _ _ Hc v) eq_refl) as [x ->]. apply (carried_ok _ _ _ _ Hc) in Hv as [Hty _].
  unfold ValueCodec_encode. rewrite (carried_encode _ _ _ _ Hc), (carried_tag _ _ _ _ Hc).
  destruct (vf_emits x Hty) as [He Ht]. destruct Ht as [[r Hr]| ->]; [|by right]. rewrite Hr. cbn [mbind result_bind].
  unfold Encoder_finish. case_match; [by right|]. left. exists r. split; [done|].
  apply He in Hr as [Hval ->]. apply bytes_ok_app. split; [|by apply vf_body_ok].
  apply bytes_ok_cons. split; [apply vf_tag_ok|apply bytes_ok_nil].
Qed.

(** C25: The value codec is canonical for every kind of key: decoding the bytes
    stored at a key returns a value exactly when that value is well formed,
    agrees with the key, and encodes for the key to those very bytes; every
    other byte string is reported as corrupt or as an unsupported format, and
    only a serving key read without its Index Manifest as an invalid argument. *)
Theorem value_codec_canonical manifest key bytes :
  bytes_ok bytes → bound_ok manifest →
  (∀ v, ValueCodec_decode manifest key bytes = Ok v ↔
     value_ok manifest v ∧ encode_for_key manifest key v = Ok bytes) ∧
  (ok_or_corrupt (ValueCodec_decode manifest key bytes) ∨
   ValueCodec_decode manifest key bytes = Err UnsupportedFormat ∨
   ValueCodec_decode manifest key bytes = Err InvalidArgument ∧ manifest = None ∧
     needs_manifest (value_kind_for_key key) = true).
Proof.
  intros Hb Hm. split; [intros v; by apply value_codec_decodes|].
  destruct (value_codec_total manifest key bytes Hb Hm) as [[[v E]|E]|?]; [| |by auto].
  - left. left. exists v. by apply flatten_ok.
  - destruct (ValueCodec_decode manifest key bytes) as [|[]|]; try done; auto with ktann.
Qed.
End codec.

Lemma value_codec_canonical_witness :
  ValueCodec_decode sample_hash (λ bs, bs) (Some sample_manifest) (LogicalKey.Location 7 [1])
    [6; 0; 0; 0; 8; 128; 0; 0; 0; 0; 0; 0; 0; 0; 0; 0; 0; 0; 0; 0; 9]
  = Ok (PersistentValue.RecordLocation (mkLocation [128; 0; 0; 0; 0; 0; 0; 0] 9)).
Proof.
  destruct (value_codec_canonical sample_hash (λ bs, bs) (Some sample_manifest) (LogicalKey.Location 7 [1])
    [6; 0; 0; 0; 8; 128; 0; 0; 0; 0; 0; 0; 0; 0; 0; 0; 0; 0; 0; 0; 9]) as [H _].
  - dec_compute.
  - intros m [= <-]. exact sample_manifest_ok.
  - apply H. split; [|reflexivity]. exists sample_manifest, sample_manifest_ok. split; [done|].
    split; [by split; [dec_compute|]|done].
Defined.
