(* ===== verification/Txn.v ===== *)
(** Raw backend transactions (the traits [ReadOps] and [WriteTxn] of
    src/src/storage/backend.rs): the effect monad of [&mut self] operations, the
    operations as a class, the contract their callers rely on, and the proof
    that the in-memory backend meets it. *)
From stdpp Require Import gmap sorting.
From S2P Require Import Prelude RustStd Keys KeyRanges Backend Memory.

(** ** Effects

    An operation on [&mut self]: the state afterwards, also after a failure,
    together with the outcome. *)
Definition M (T A : Type) : Type := T → T * result A.
Definition m_ret {T A} (a : A) : M T A := λ t, (t, Ok a).
Definition m_bind {T A B} (m : M T A) (f : A → M T B) : M T B := λ t,
  match m t with
  | (t', Ok a) => f a t'
  | (t', Err e) => (t', Err e)
  | (t', Panic) => (t', Panic)
  end.
(** A fallible computation that does not touch the state, under [?]. *)
Definition m_lift {T A} (r : result A) : M T A := λ t, (t, r).
Definition m_get {T} : M T T := λ t, (t, Ok t).
Definition m_put {T} (t : T) : M T unit := λ _, (t, Ok tt).
Notation "'let!' x ':=' p 'in' q" := (m_bind p (λ x, q))
  (at level 10, x pattern, p at level 100, q at level 200) : ktann_scope.

(** The weakest precondition of an operation: its outcome satisfies [Q], its
    errors satisfy [E], and it does not panic. *)
Definition wp {T A} (m : M T A) (Q : A → T → Prop) (E : ErrorKind → T → Prop) (t : T) : Prop :=
  match m t with
  | (t', Ok a) => Q a t'
  | (t', Err e) => E e t'
  | (_, Panic) => False
  end.

Section wp.
Context {T : Type}.
Implicit Types t : T.

Lemma wp_ret {A} (a : A) Q E t : Q a t → wp (m_ret a) Q E t.
Proof. done. Qed.
Lemma wp_bind {A B} (m : M T A) (f : A → M T B) Q E t :
  wp m (λ a t', wp (f a) Q E t') E t → wp (m_bind m f) Q E t.
Proof. unfold wp, m_bind. by destruct (m t) as [t' [a|e|]]. Qed.
Lemma wp_lift {A} (r : result A) Q E t :
  no_panic r → (∀ a, r = Ok a → Q a t) → (∀ e, r = Err e → E e t) → wp (m_lift r) Q E t.
Proof. unfold wp, m_lift, no_panic. destruct r; intros; auto. Qed.
Lemma wp_get Q E t : Q t t → wp m_get Q E t.
Proof. done. Qed.
Lemma wp_put (t' : T) Q E t : Q tt t' → wp (m_put t') Q E t.
Proof. done. Qed.
Lemma wp_mono {A} (m : M T A) (Q Q' : A → T → Prop) (E E' : ErrorKind → T → Prop) t :
  wp m Q E t → (∀ a t', Q a t' → Q' a t') → (∀ e t', E e t' → E' e t') → wp m Q' E' t.
Proof. unfold wp. destruct (m t) as [t' [a|e|]]; auto. Qed.
(** Sequencing with a specification of the first operation. *)
Lemma wp_step {A B} (m : M T A) (f : A → M T B) Q E Q' E' t :
  wp m Q E t → (∀ e t', E e t' → E' e t') → (∀ a t', Q a t' → wp (f a) Q' E' t') → wp (m_bind m f) Q' E' t.
Proof. intros Hm He Hf. apply wp_bind. eapply wp_mono; eauto. Qed.
Lemma wp_ok {A} (m : M T A) Q E t a t' : wp m Q E t → m t = (t', Ok a) → Q a t'.
Proof. unfold wp. intros H Em. by rewrite Em in H. Qed.
Lemma wp_err {A} (m : M T A) Q E t e t' : wp m Q E t → m t = (t', Err e) → E e t'.
Proof. unfold wp. intros H Em. by rewrite Em in H. Qed.
End wp.

(** ** The traits *)
Abbreviation bytes := (list Z).
Abbreviation store := (gmap (list Z) (list Z)).
Class ReadOps (T : Type) := {
  ro_get : bytes → M T (option bytes);
  ro_batch_get : list bytes → M T (list (option bytes));
  ro_scan : KeyRange → ScanLimits → M T ScanPage;
  ro_batch_scan : list KeyRange → ScanLimits → M T (list ScanPage);
}.
Class WriteOps (T : Type) `{ReadOps T} := {
  wo_get_for_update : bytes → M T (option bytes);
  wo_batch_get_for_update : list bytes → M T (list (option bytes));
  wo_put : bytes → bytes → M T unit;
  wo_insert : bytes → bytes → M T InsertOutcome.t;
  wo_delete : bytes → M T unit;
  wo_batch_mutate : list Mutation.t → M T unit;
  wo_clear_range : KeyRange → M T unit;
}.

(** ** The contract

    A transaction reads one view (its snapshot under its own writes) and has
    established conflicts on a set of keys.  Reads leave the view alone and
    answer from it; an update-protected read that succeeds has protected its
    keys; a mutation that succeeds has its effect on the view.  After a failed
    mutation nothing is said about the view. *)
Definition apply_mutation (m : Mutation.t) (view : store) : store :=
  let '(key, value) := mutation_parts m in set_key key value view.
Definition apply_mutations (ms : list Mutation.t) (view : store) : store :=
  foldl (λ v m, apply_mutation m v) view ms.
Definition scan_limits_ok (limits : ScanLimits) : Prop := 0 ≤ sl_item_limit limits ∧ 0 ≤ sl_byte_limit limits.

Class ReadLaws (T : Type) `{ReadOps T} := {
  view : T → store;
  protected : T → gset bytes;
  (** What the adapter keeps true of its own bookkeeping. *)
  txn_ok : T → Prop;
  max_key : Z;
  advances (t t' : T) : Prop := protected t ⊆ protected t' ∧ txn_ok t';
  observes (t t' : T) : Prop := view t' = view t ∧ advances t t';
  ro_get_law key t :
    txn_ok t → wp (ro_get key) (λ v t', v = view t !! key ∧ observes t t') (λ _ t', observes t t') t;
  ro_batch_get_law keys t :
    txn_ok t →
    wp (ro_batch_get keys) (λ vs t', vs = (view t !!.) <$> keys ∧ observes t t') (λ _ t', observes t t') t;
  ro_scan_law range limits t :
    txn_ok t → scan_limits_ok limits →
    wp (ro_scan range limits) (λ p t', page_of (range_entries (view t) range) max_key p ∧ observes t t')
      (λ _ t', observes t t') t;
  ro_batch_scan_law ranges limits t :
    txn_ok t → scan_limits_ok limits →
    wp (ro_batch_scan ranges limits)
      (λ ps t', Forall2 (λ range p, page_of (range_entries (view t) range) max_key p) ranges ps ∧ observes t t')
      (λ _ t', observes t t') t;
}.
Class WriteLaws (T : Type) `{WriteOps T, !ReadLaws T} := {
  wo_get_for_update_law key t :
    txn_ok t →
    wp (wo_get_for_update key)
      (λ v t', v = view t !! key ∧ observes t t' ∧ key ∈ protected t') (λ _ t', observes t t') t;
  wo_batch_get_for_update_law keys t :
    txn_ok t →
    wp (wo_batch_get_for_update keys)
      (λ vs t', vs = (view t !!.) <$> keys ∧ observes t t' ∧ ∀ k, k ∈ keys → k ∈ protected t')
      (λ _ t', observes t t') t;
  wo_put_law key value t :
    txn_ok t →
    wp (wo_put key value) (λ _ t', view t' = <[key := value]> (view t) ∧ advances t t') (λ _ t', advances t t') t;
  wo_delete_law key t :
    txn_ok t →
    wp (wo_delete key) (λ _ t', view t' = delete key (view t) ∧ advances t t') (λ _ t', advances t t') t;
  wo_insert_law key value t :
    txn_ok t →
    wp (wo_insert key value)
      (λ o t', advances t t' ∧
         match o with
         | InsertOutcome.Inserted => view t !! key = None ∧ view t' = <[key := value]> (view t)
         | InsertOutcome.AlreadyExists => is_Some (view t !! key) ∧ view t' = view t
         end) (λ _ t', advances t t') t;
  wo_batch_mutate_law ms t :
    txn_ok t →
    wp (wo_batch_mutate ms) (λ _ t', view t' = apply_mutations ms (view t) ∧ advances t t') (λ _ t', advances t t') t;
  wo_clear_range_law range t :
    txn_ok t →
    wp (wo_clear_range range)
      (λ _ t', view t' = filter (λ kv, ¬ in_key_range range kv.1) (view t) ∧ advances t t') (λ _ t', advances t t') t;
}.

(** ** The in-memory backend *)
#[global] Instance memory_read_ops : ReadOps store := {
  ro_get key := λ d, (d, lookup_key d key);
  ro_batch_get keys := λ d, (d, lookup_batch d keys);
  ro_scan range limits := λ d, (d, scan_page d range limits);
  ro_batch_scan ranges limits := λ d, (d, batch_scan d ranges limits);
}.
#[global] Instance memory_txn_read_ops : ReadOps WriteTxn := {
  ro_get key := λ t, (t, lookup_key (tx_view t) key);
  ro_batch_get keys := λ t, (t, lookup_batch (tx_view t) keys);
  ro_scan range limits := λ t, (t, scan_page (tx_view t) range limits);
  ro_batch_scan ranges limits := λ t, (t, batch_scan (tx_view t) ranges limits);
}.
#[global] Instance memory_txn_write_ops : WriteOps WriteTxn := {
  wo_get_for_update key := λ t, get_for_update t key;
  wo_batch_get_for_update keys := λ t, batch_get_for_update t keys;
  wo_put key value := λ t, put t key value;
  wo_insert key value := λ t, insert_key t key value;
  wo_delete key := λ t, delete_key t key;
  wo_batch_mutate ms := λ t, batch_mutate t ms;
  wo_clear_range range := λ t, clear_range t range;
}.

Lemma lookup_key_no_panic d key : no_panic (lookup_key d key).
Proof. unfold lookup_key, validate_key. by case_match. Qed.
Lemma lookup_key_ok d key v : lookup_key d key = Ok v → v = d !! key.
Proof. unfold lookup_key, validate_key. case_match; [done|]. by intros [= <-]. Qed.
Lemma lookup_batch_ok d keys vs : lookup_batch d keys = Ok vs → vs = (d !!.) <$> keys.
Proof.
  unfold lookup_batch. revert vs. induction keys as [|k keys IH]; intros vs; cbn [mapM]; [by intros [= <-]|].
  intros (v & Hv%lookup_key_ok & H)%bind_ok. apply bind_ok in H as (vs' & Hvs & H). apply Ok_inj in H as <-.
  rewrite fmap_cons. f_equal; auto.
Qed.
Lemma mapM_no_panic {A B} (f : A → result B) l : (∀ a, no_panic (f a)) → no_panic (mapM f l).
Proof.
  intros Hf. induction l as [|a l IH]; [done|]. cbn [mapM]. apply bind_no_panic; [apply Hf|]. intros b _.
  by apply bind_no_panic.
Qed.
Lemma scan_page_total data range limits : no_panic (scan_page data range limits).
Proof.
  unfold scan_page. apply bind_no_panic; [unfold validate_scan; by case_match|]. intros [] _. case_decide; [done|].
  apply bind_no_panic; [unfold validate_key; by case_match|]. intros [] _.
  apply bind_no_panic; [unfold validate_key; by case_match|]. intros [] _.
  generalize (range_entries data range), (@nil ScanItem), 0. induction l as [|e l IH]; intros items bytes; [done|].
  cbn [scan_loop]. cbv zeta. case_match; [|apply IH]. unfold ScanPage_continued.
  apply bind_no_panic; [by destruct (_ <$> _)|done].
Qed.
Lemma scan_page_of data range limits p :
  scan_limits_ok limits → scan_page data range limits = Ok p →
  page_of (range_entries data range) (hl_max_key_bytes HARD_LIMITS) p.
Proof.
  intros [H1 H2] Hp.
  destruct (decide (range_end range ≤ₗ range_start range)) as [Hd|Hd].
  - assert (range_entries data range = []) as ->.
    { apply elem_of_nil_inv. intros item [_ [Hge Hlt]]%range_entries_elem. apply (lex_lt_irrefl (si_key item)).
      eapply lex_lt_le_trans; [exact Hlt|]. by etrans. }
    left. unfold scan_page in Hp. apply bind_ok in Hp as ([] & _ & Hp). rewrite decide_True in Hp by done.
    by apply Ok_inj in Hp as <-.
  - assert (scan_page data range limits = Ok p) as Hp' by done. unfold scan_page in Hp.
    apply bind_ok in Hp as ([] & Hl & Hp). rewrite decide_False in Hp by done.
    apply bind_ok in Hp as ([] & Hs & Hp). apply bind_ok in Hp as ([] & He & _).
    unfold validate_scan, validate_key in *. case_match; [done|]. case_match; [done|]. case_match; [done|]. bprop.
    destruct (scan_page_ok data range limits) as (p' & Hp2 & ? & _); [lia..|]. congruence.
Qed.

Lemma batch_scan_total data ranges limits : no_panic (batch_scan data ranges limits).
Proof.
  unfold batch_scan. apply bind_no_panic; [unfold validate_scan; by case_match|]. intros [] _.
  apply mapM_no_panic. intros range. apply scan_page_total.
Qed.
Lemma batch_scan_of data ranges limits ps :
  scan_limits_ok limits → batch_scan data ranges limits = Ok ps →
  Forall2 (λ range p, page_of (range_entries data range) (hl_max_key_bytes HARD_LIMITS) p) ranges ps.
Proof.
  intros Hl. unfold batch_scan. intros ([] & _ & H)%bind_ok. revert ps H.
  induction ranges as [|range ranges IH]; intros ps; cbn [mapM]; [intros [= <-]; constructor|].
  intros (p & Hp & H)%bind_ok. apply bind_ok in H as (ps' & Hps & H). apply Ok_inj in H as <-.
  constructor; [by eapply scan_page_of|auto].
Qed.

#[global] Program Instance memory_read_laws : ReadLaws store := {
  view d := d; protected _ := ∅; txn_ok _ := True; max_key := hl_max_key_bytes HARD_LIMITS
}.
Next Obligation.
  intros key t _. apply (wp_lift (lookup_key t key)); [apply lookup_key_no_panic|by intros a ->%lookup_key_ok|done].
Qed.
Next Obligation.
  intros keys t _. apply (wp_lift (lookup_batch t keys));
    [apply mapM_no_panic, lookup_key_no_panic|by intros a ->%lookup_batch_ok|done].
Qed.
Next Obligation.
  intros range limits t _ Hl. apply (wp_lift (scan_page t range limits)); [apply scan_page_total| |done].
  intros p Hp. split; [by eapply scan_page_of|done].
Qed.
Next Obligation.
  intros ranges limits t _ Hl. apply (wp_lift (batch_scan t ranges limits)); [apply batch_scan_total| |done].
  intros p Hp. split; [by eapply batch_scan_of|done].
Qed.
#[global] Program Instance memory_txn_read_laws : ReadLaws WriteTxn := {
  view := tx_view; protected := tx_protected; txn_ok := within_budget; max_key := hl_max_key_bytes HARD_LIMITS
}.
Next Obligation.
  intros key t Ht. apply (wp_lift (lookup_key (tx_view t) key)); [apply lookup_key_no_panic|by intros a ->%lookup_key_ok|done].
Qed.
Next Obligation.
  intros keys t Ht. apply (wp_lift (lookup_batch (tx_view t) keys));
    [apply mapM_no_panic, lookup_key_no_panic|by intros a ->%lookup_batch_ok|done].
Qed.
Next Obligation.
  intros range limits t Ht Hl. apply (wp_lift (scan_page (tx_view t) range limits)); [apply scan_page_total| |done].
  intros p Hp. split; [by eapply scan_page_of|done].
Qed.
Next Obligation.
  intros ranges limits t Ht Hl. apply (wp_lift (batch_scan (tx_view t) ranges limits)); [apply batch_scan_total| |done].
  intros p Hp. split; [by eapply batch_scan_of|done].
Qed.

Lemma stage_wp t key value :
  within_budget t →
  wp (λ t, staged t (stage t key value))
    (λ _ t', tx_view t' = set_key key value (tx_view t) ∧ tx_protected t' = tx_protected t ∧ within_budget t')
    (λ _ t', t' = t) t.
Proof.
  intros Ht. unfold wp. rewrite stage_cases by done. destruct (admits key value (tx_mutation_bytes t)) eqn:Ha; [|done].
  pose proof (admits_room _ _ _ Ha). destruct Ht as [Hc Hb]. pose proof (len_nonneg key). pose proof (value_len_nonneg value).
  destruct (Z.eqb_spec (tx_mutation_count t) (ab_max_mutations BUDGET)); [done|]. cbn [andb negb staged].
  split_and!; [done..|]. split; cbn [apply_point with_counts tx_mutation_count tx_mutation_bytes]; lia.
Qed.
Lemma batch_apply_view ms t :
  tx_view (batch_apply ms t) = apply_mutations ms (tx_view t) ∧ tx_protected (batch_apply ms t) = tx_protected t ∧
  tx_mutation_count (batch_apply ms t) = tx_mutation_count t ∧ tx_mutation_bytes (batch_apply ms t) = tx_mutation_bytes t.
Proof.
  revert t. induction ms as [|m ms IH]; intros t; [done|]. cbn [batch_apply apply_mutations foldl]. unfold apply_mutation.
  destruct (mutation_parts m) as [key value]. destruct (IH (apply_point t key value)) as (-> & -> & -> & ->). done.
Qed.
Lemma batch_admit_total ms bytes :
  0 ≤ bytes ≤ ab_max_mutation_bytes BUDGET → no_panic (batch_admit ms bytes).
Proof.
  revert bytes. induction ms as [|m ms IH]; intros bytes Hb; [done|]. rewrite admit_cases by done.
  destruct (mutation_parts m) as [key value]. destruct (admits key value bytes) eqn:Ha; [|done].
  pose proof (admits_room _ _ _ Ha). pose proof (len_nonneg key). pose proof (value_len_nonneg value). apply IH. lia.
Qed.
#[global] Program Instance memory_write_laws : WriteLaws WriteTxn.
Next Obligation.
  intros key t Ht. unfold wp. cbn. unfold get_for_update. pose proof (lookup_key_no_panic (tx_view t) key).
  destruct (lookup_key (tx_view t) key) as [v|e|] eqn:E; [|done..]. apply lookup_key_ok in E as ->.
  unfold observes, advances. cbn. split_and!; [done|done|set_solver|done|set_solver].
Qed.
Next Obligation.
  intros keys t Ht. unfold wp. cbn. unfold batch_get_for_update.
  pose proof (mapM_no_panic (lookup_key (tx_view t)) keys (lookup_key_no_panic _)) as Hn. fold (lookup_batch (tx_view t) keys) in Hn.
  destruct (lookup_batch (tx_view t) keys) as [v|e|] eqn:E; [|done..]. apply lookup_batch_ok in E as ->.
  unfold observes, advances. cbn. split_and!; [done|done|set_solver|done|]. intros k Hk. set_solver.
Qed.
Next Obligation.
  intros key value t Ht. eapply wp_mono; [exact (stage_wp t key (Some value) Ht)| |by intros ? ? ->].
  intros [] t' (Hv & Hp & ?). unfold advances. cbn [view protected txn_ok memory_txn_read_laws]. by rewrite Hv, Hp.
Qed.
Next Obligation.
  intros key t Ht. eapply wp_mono; [exact (stage_wp t key None Ht)| |by intros ? ? ->].
  intros [] t' (Hv & Hp & ?). unfold advances. cbn [view protected txn_ok memory_txn_read_laws]. by rewrite Hv, Hp.
Qed.
Next Obligation.
  intros key value t Ht. unfold wp. cbn. unfold insert_key, advances. destruct (_ <? len value); [done|].
  pose proof (lookup_key_no_panic (tx_view t) key) as Hn.
  destruct (lookup_key (tx_view t) key) as [v|e|] eqn:E; [|done..]. apply lookup_key_ok in E as ->.
  assert (tx_protected t ⊆ tx_protected (protect t [key])) as Hsub by (cbn; set_solver).
  destruct (tx_view t !! key) eqn:El; [by split_and!|].
  pose proof (stage_wp (protect t [key]) key (Some value) Ht) as Hs. unfold wp in Hs.
  destruct (stage (protect t [key]) key (Some value)) as [t'|e|]; cbn [staged] in Hs; [|by split|done].
  destruct Hs as (Hv & Hp & ?). cbn [protected view txn_ok memory_txn_read_laws]. by rewrite Hp, Hv.
Qed.
Next Obligation.
  intros ms t Ht. unfold wp. cbn. unfold batch_mutate, batch_mutate_txn, sub_usize, advances. pose proof Ht as [Hc Hb].
  rewrite (proj2 (Z.ltb_ge (ab_max_mutations BUDGET) (tx_mutation_count t))) by lia. cbn [mbind result_bind].
  destruct (Z.ltb_spec (ab_max_mutations BUDGET - tx_mutation_count t) (len ms)); [done|].
  pose proof (batch_admit_total ms _ Hb) as Hn. destruct (batch_admit ms (tx_mutation_bytes t)) as [bytes|e|] eqn:E; [|done..].
  apply batch_admit_bounds in E; [|done]. cbn [mbind result_bind staged].
  destruct (batch_apply_view ms (with_counts t (tx_mutation_count t + len ms) bytes)) as (-> & Hp & Hcount & Hbytes).
  split_and!; [done|by cbn; rewrite Hp|]. cbn. split; rewrite ?Hcount, ?Hbytes; cbn [with_counts tx_mutation_count tx_mutation_bytes];
    pose proof (len_nonneg ms); lia.
Qed.
Next Obligation. intros range t Ht. by split. Qed.
