(* ===== verification/Logical.v ===== *)
(** Typed logical operations over raw transactions
    (src/src/storage/operations.rs): the binding of a transaction to an Index
    Manifest, typed ranges and scans, the bounded mutation builder, the write
    transaction with its read cache, and closed reads of record groups.  The
    cached transaction refines the view of its raw transaction. *)
From stdpp Require Import gmap sorting.
From S2P Require Import Prelude RustStd Api TreeKey Keys KeyRanges RaBitQ Manifest Wire ValueData Records Synopsis Values Backend Memory Txn Codec.

#[global] Instance IndexManifest_eq_dec : EqDecision IndexManifest.
Proof. solve_decision. Defined.
#[global] Instance KeyRange_eq_dec : EqDecision KeyRange.
Proof. solve_decision. Defined.
#[global] Instance in_key_range_dec range key : Decision (in_key_range range key).
Proof. unfold in_key_range. apply _. Defined.

(** [usize] arithmetic reported as an exceeded limit. *)
Definition checked_sub (a b : Z) : option Z := if b <=? a then Some (a - b) else None.
Definition checked_mul (a b : Z) : option Z := if a * b <? 2 ^ 64 then Some (a * b) else None.
Definition within_usize (o : option Z) : result Z := ok_or LimitExceeded o.

(** ** Schema, ranges and bindings *)
Record TreeKeySchema := mkSchema { ts_types : list DataType.t; ts_count : Z }.
#[global] Instance TreeKeySchema_eq_dec : EqDecision TreeKeySchema.
Proof. solve_decision. Defined.
(** The array has [MAX_FIELDS] slots, [Bool] beyond the declared fields. *)
Definition type_array (types : list DataType.t) : list DataType.t :=
  types ++ replicate (Z.to_nat (MAX_FIELDS - len types)) DataType.Bool.
Definition TreeKeySchema_for_index (m : IndexManifest) : result TreeKeySchema :=
  let ids := ic_tree_key_fields (im_config m) in
  tree_types_loop (fields m) (ztake MAX_FIELDS ids) ≫= λ types, Ok (mkSchema (type_array types) (len ids)).
(** [&self.types[..self.count]], panicking beyond the array. *)
Definition TreeKeySchema_types (s : TreeKeySchema) : result (list DataType.t) :=
  if len (ts_types s) <? ts_count s then Panic else Ok (ztake (ts_count s) (ts_types s)).

Record LogicalRange := mkLogicalRange { lr_index : Z; lr_schema : TreeKeySchema; lr_raw : KeyRange }.
#[global] Instance LogicalRange_eq_dec : EqDecision LogicalRange.
Proof. solve_decision. Defined.
Definition range_bind (m : IndexManifest) (raw : KeyRange) : result LogicalRange :=
  TreeKeySchema_for_index m ≫= λ schema, Ok (mkLogicalRange (im_logical_index_id m) schema raw).
Definition bind_partition (m : IndexManifest) (tree_key : list Z) (raw : KeyRange) : result LogicalRange :=
  TreeKeySchema_for_index m ≫= λ schema, TreeKeySchema_types schema ≫= λ types,
  map_err InvalidArgument (TreeKey_validate tree_key types) ≫= λ _, range_bind m raw.
Definition range_index (m : IndexManifest) : result LogicalRange :=
  range_bind m (index_range (im_logical_index_id m)).
Definition range_tree_manifests (m : IndexManifest) : result LogicalRange :=
  range_bind m (tree_manifest_range (im_logical_index_id m)).
Definition range_tree_manifests_with_prefix (m : IndexManifest) (prefix : list Value.t) : result LogicalRange :=
  TreeKeySchema_for_index m ≫= λ schema, TreeKeySchema_types schema ≫= λ types,
  tree_manifest_prefix_range (im_logical_index_id m) types prefix ≫= λ raw, range_bind m raw.
Definition range_tree_manifest_plan (m : IndexManifest) (raw : KeyRange) : result LogicalRange := range_bind m raw.
Definition range_partition (m : IndexManifest) (tree_key : list Z) (partition : Z) : result LogicalRange :=
  bind_partition m tree_key (partition_range (im_logical_index_id m) tree_key partition).
Definition range_leaf_entries (m : IndexManifest) (tree_key : list Z) (partition : Z) : result LogicalRange :=
  bind_partition m tree_key (leaf_entry_range (im_logical_index_id m) tree_key partition).
Definition range_child_entries (m : IndexManifest) (tree_key : list Z) (partition : Z) : result LogicalRange :=
  bind_partition m tree_key (child_entry_range (im_logical_index_id m) tree_key partition).
Definition range_graph_chunks (m : IndexManifest) (tree_key : list Z) (partition : Z) : result LogicalRange :=
  bind_partition m tree_key (graph_chunk_range (im_logical_index_id m) tree_key partition).

Record LogicalScanCursor := mkCursor { lc_range : LogicalRange; lc_next_start : list Z }.
Record LogicalScanItem := mkLogicalItem { li_key : LogicalKey.t; li_value : PersistentValue.t }.
Record LogicalScanPage := mkLogicalPage { lp_items : list LogicalScanItem; lp_next_cursor : option LogicalScanCursor }.

Record LogicalBinding := mkBinding {
  lb_manifest : option IndexManifest; lb_schema : TreeKeySchema; lb_allow_name_mapping : bool
}.
Definition binding_bootstrap : LogicalBinding :=
  mkBinding None (mkSchema (replicate (Z.to_nat MAX_FIELDS) DataType.Bool) 0) true.
Definition binding_for_index (m : IndexManifest) : result LogicalBinding :=
  TreeKeySchema_for_index m ≫= λ schema, Ok (mkBinding (Some m) schema false).
Definition binding_for_drop (m : IndexManifest) : result LogicalBinding :=
  TreeKeySchema_for_index m ≫= λ schema, Ok (mkBinding (Some m) schema true).
Definition binding_tree_key_types (b : LogicalBinding) : result (list DataType.t) := TreeKeySchema_types (lb_schema b).
Definition validate_tree_key (b : LogicalBinding) (tree_key : list Z) : result unit :=
  match lb_manifest b with
  | None => Err InvalidArgument
  | Some _ => TreeKeySchema_types (lb_schema b) ≫= λ types, map_err InvalidArgument (TreeKey_validate tree_key types)
  end.
Definition input_key_scope (b : LogicalBinding) (key : LogicalKey.t) : bool :=
  match lb_manifest b, LogicalKey_index key with
  | None, None => true
  | None, Some _ =>
      match key with
      | LogicalKey.Manifest _ | LogicalKey.BuildDescriptor _ | LogicalKey.BuildLoad _
      | LogicalKey.BuildValidation _ => true
      | _ => false
      end
  | Some m, Some index => index =? im_logical_index_id m
  | Some m, None =>
      match key with
      | LogicalKey.BuildSchedule id => id =? im_logical_index_id m
      | LogicalKey.IndexNameDirectory _ => lb_allow_name_mapping b
      | _ => false
      end
  end.
Definition validate_input_key (b : LogicalBinding) (key : LogicalKey.t) : result unit :=
  if negb (input_key_scope b key) then Err InvalidArgument
  else match LogicalKey_tree_key key with
       | Some tree_key => validate_tree_key b tree_key
       | None => Ok tt
       end.
Definition validate_range (b : LogicalBinding) (range : LogicalRange) : result unit :=
  match lb_manifest b with
  | Some m =>
      if (im_logical_index_id m =? lr_index range) && bool_decide (lb_schema b = lr_schema range) then Ok tt
      else Err InvalidArgument
  | None => Err InvalidArgument
  end.
Definition compatible_with (b other : LogicalBinding) : bool :=
  bool_decide (lb_manifest b = lb_manifest other)
  && Bool.eqb (lb_allow_name_mapping b) (lb_allow_name_mapping other).

(** ** Sizes and limits *)
Record TransactionSize := mkSize { ts_mutations : Z; ts_bytes : Z }.
Definition size_default : TransactionSize := mkSize 0 0.
Definition size_checked_add (a b : TransactionSize) : option TransactionSize :=
  checked_add (ts_mutations a) (ts_mutations b) ≫= λ mutations,
  checked_add (ts_bytes a) (ts_bytes b) ≫= λ bytes, Some (mkSize mutations bytes).
Definition mutation_bytes (key : list Z) (value : option (list Z)) : result Z :=
  within_usize (checked_add (len key) (value_len value)).
Definition check_hard_limits (limits : HardLimits) (key : list Z) (value : option (list Z)) : result unit :=
  if (hl_max_key_bytes limits <? len key)
     || match value with Some value => hl_max_value_bytes limits <? len value | None => false end
  then Err LimitExceeded else Ok tt.
Definition check_budget (budget : AdmissionBudget) (size : TransactionSize) : result unit :=
  if (ab_max_mutations budget <? ts_mutations size) || (ab_max_mutation_bytes budget <? ts_bytes size)
  then Err LimitExceeded else Ok tt.

(** The entries of a [BTreeMap] in key order. *)
Definition fst_le {A} (a b : list Z * A) : Prop := a.1 ≤ₗ b.1.
#[global] Instance fst_le_dec {A} : RelDecision (@fst_le A).
Proof. intros a b. unfold fst_le. apply _. Defined.
Definition in_key_order {A} (m : gmap (list Z) A) : list (list Z * A) := merge_sort fst_le (map_to_list m).

(** ** The mutation builder *)
Record MutationBuilder := mkBuilder {
  mb_binding : LogicalBinding; mb_hard_limits : HardLimits; mb_budget : AdmissionBudget;
  mb_entries : gmap (list Z) (option (list Z)); mb_size : TransactionSize
}.
Definition builder_new (b : LogicalBinding) (limits : HardLimits) (budget : AdmissionBudget) : MutationBuilder :=
  mkBuilder b limits budget ∅ size_default.
Definition builder_bootstrap (limits : HardLimits) (budget : AdmissionBudget) : MutationBuilder :=
  builder_new binding_bootstrap limits budget.
Definition builder_for_index (m : IndexManifest) (limits : HardLimits) (budget : AdmissionBudget) : result MutationBuilder :=
  binding_for_index m ≫= λ b, Ok (builder_new b limits budget).
Fixpoint builder_affected_loop (overhead total : Z) (entries : list (list Z * option (list Z))) : option Z :=
  match entries with
  | [] => Some total
  | (key, value) :: entries =>
      checked_add (len key) overhead ≫= λ key_bytes,
      checked_mul key_bytes 3 ≫= λ tripled,
      checked_add total tripled ≫= λ total,
      checked_add total (value_len value) ≫= λ total,
      checked_add total 64 ≫= λ total,
      builder_affected_loop overhead total entries
  end.
Definition builder_affected_bytes (mb : MutationBuilder) : result Z :=
  within_usize (builder_affected_loop (ab_mutation_key_overhead_bytes (mb_budget mb)) 0 (in_key_order (mb_entries mb))).
Definition builder_set (mb : MutationBuilder) (key : list Z) (value : option (list Z)) (size : TransactionSize)
    : MutationBuilder :=
  mkBuilder (mb_binding mb) (mb_hard_limits mb) (mb_budget mb) (<[key := value]> (mb_entries mb)) size.
Definition builder_queue (key : list Z) (value : option (list Z)) : M MutationBuilder unit :=
  let! mb := m_get in
  let! _ := m_lift (check_hard_limits (mb_hard_limits mb) key value) in
  let! new_bytes := m_lift (mutation_bytes key value) in
  let! next := m_lift
    match mb_entries mb !! key with
    | Some old =>
        mutation_bytes key old ≫= λ old_bytes,
        within_usize (checked_sub (ts_bytes (mb_size mb)) old_bytes ≫= λ bytes, checked_add bytes new_bytes) ≫= λ bytes,
        let next := mkSize (ts_mutations (mb_size mb)) bytes in
        check_budget (mb_budget mb) next ≫= λ _, Ok next
    | None =>
        ok_or LimitExceeded (size_checked_add (mb_size mb) (mkSize 1 new_bytes)) ≫= λ next,
        check_budget (mb_budget mb) next ≫= λ _, Ok next
    end in
  m_put (builder_set mb key value next).
Definition into_backend_mutations (mb : MutationBuilder) : list Mutation.t :=
  (λ '(key, value), match value with Some value => Mutation.Put key value | None => Mutation.Delete key end)
    <$> in_key_order (mb_entries mb).

(** ** Transactions *)
Record RecordGroupRead := mkGroup { rg_record : VectorRecord; rg_location : RecordLocation; rg_payload : option (list Z) }.
Record ReadCacheEntry := mkCacheEntry { rc_value : option (list Z); rc_update_protected : bool }.
Record WriteLogicalTxn (T : Type) := mkWriteTxn {
  wl_raw : T; wl_binding : LogicalBinding; wl_hard_limits : HardLimits; wl_budget : AdmissionBudget;
  wl_size : TransactionSize; wl_affected_bytes : Z; wl_read_cache : gmap (list Z) ReadCacheEntry
}.
Arguments mkWriteTxn {T}.
Arguments wl_raw {T}.
Arguments wl_binding {T}.
Arguments wl_hard_limits {T}.
Arguments wl_budget {T}.
Arguments wl_size {T}.
Arguments wl_affected_bytes {T}.
Arguments wl_read_cache {T}.

Section operations.
Context (xxh3_128 : Z → list Z → Z) (sha256 : list Z → list Z).

(** ** Typed keys, values and pages *)
Definition encode_input_key (b : LogicalBinding) (key : LogicalKey.t) : result (list Z) :=
  validate_input_key b key ≫= λ _, encode_key key.
Definition codec_encode_for_key (b : LogicalBinding) (key : LogicalKey.t) (value : PersistentValue.t)
    : result (list Z) := encode_for_key xxh3_128 sha256 (lb_manifest b) key value.
Definition codec_decode (b : LogicalBinding) (key : LogicalKey.t) (bytes : list Z) : result PersistentValue.t :=
  ValueCodec_decode xxh3_128 sha256 (lb_manifest b) key bytes.
Definition decode_value (b : LogicalBinding) (key : LogicalKey.t) (bytes : option (list Z))
    : result (option PersistentValue.t) :=
  match bytes with None => Ok None | Some bytes => codec_decode b key bytes ≫= λ v, Ok (Some v) end.
Definition decode_batch (b : LogicalBinding) (keys : list LogicalKey.t) (values : list (option (list Z)))
    : result (list (option PersistentValue.t)) :=
  if negb (len keys =? len values) then Err Backend
  else mapM (λ '(key, value), decode_value b key value) (zip keys values).
Definition scan_raw_range (b : LogicalBinding) (range : LogicalRange) (cursor : option LogicalScanCursor)
    : result KeyRange :=
  validate_range b range ≫= λ _,
  match cursor with
  | Some cursor =>
      if decide (lc_range cursor = range) then Ok (mkRange (lc_next_start cursor) (range_end (lr_raw range)))
      else Err InvalidArgument
  | None => Ok (lr_raw range)
  end.
Fixpoint decode_items_loop (b : LogicalBinding) (raw_range : KeyRange) (previous : option (list Z))
    (items : list ScanItem) : result (list LogicalScanItem) :=
  match items with
  | [] => Ok []
  | item :: items =>
      if bool_decide (si_key item <ₗ range_start raw_range)
         || bool_decide (range_end raw_range ≤ₗ si_key item)
         || match previous with Some previous => bool_decide (si_key item ≤ₗ previous) | None => false end
      then Err Backend
      else
        binding_tree_key_types b ≫= λ types,
        decode_key types (si_key item) ≫= λ key,
        codec_decode b key (si_value item) ≫= λ value,
        decode_items_loop b raw_range (Some (si_key item)) items ≫= λ rest,
        Ok (mkLogicalItem key value :: rest)
  end.
Definition decode_scan_page (b : LogicalBinding) (range : LogicalRange) (raw_range : KeyRange) (raw_page : ScanPage)
    : result LogicalScanPage :=
  decode_items_loop b raw_range None (sp_items raw_page) ≫= λ items,
  match sp_next_start raw_page with
  | Some next_start =>
      if match list_basics.list.last (sp_items raw_page) with
         | Some last => bool_decide (si_key last <ₗ next_start)
         | None => false
         end && bool_decide (next_start <ₗ range_end (lr_raw range))
      then Ok (mkLogicalPage items (Some (mkCursor range next_start)))
      else Err Backend
  | None => Ok (mkLogicalPage items None)
  end.

Section reads.
Context {T : Type} `{ReadOps T}.

Definition get_logical (b : LogicalBinding) (key : LogicalKey.t) : M T (option PersistentValue.t) :=
  let! encoded := m_lift (encode_input_key b key) in
  let! value := ro_get encoded in
  m_lift (decode_value b key value).
Definition batch_get_logical (b : LogicalBinding) (keys : list LogicalKey.t) : M T (list (option PersistentValue.t)) :=
  let! encoded := m_lift (mapM (encode_input_key b) keys) in
  let! values := ro_batch_get encoded in
  m_lift (decode_batch b keys values).
Definition scan_logical (b : LogicalBinding) (range : LogicalRange) (cursor : option LogicalScanCursor)
    (limits : ScanLimits) : M T LogicalScanPage :=
  let! raw_range := m_lift (scan_raw_range b range cursor) in
  let! raw_page := ro_scan raw_range limits in
  m_lift (decode_scan_page b range raw_range raw_page).
Definition batch_scan_logical (b : LogicalBinding) (legs : list (LogicalRange * option LogicalScanCursor))
    (limits : ScanLimits) : M T (list LogicalScanPage) :=
  let! raw_ranges := m_lift (mapM (λ '(range, cursor), scan_raw_range b range cursor) legs) in
  let! raw_pages := ro_batch_scan raw_ranges limits in
  if negb (len raw_pages =? len legs) then m_lift (Err Backend)
  else m_lift (mapM (λ '(((range, _), raw_range), raw_page), decode_scan_page b range raw_range raw_page)
                 (zip (zip legs raw_ranges) raw_pages)).

(** ** Closed reads of record groups *)
Definition group_keys (index : Z) (include_payload : bool) (ids : list (list Z)) : list LogicalKey.t :=
  id ← ids;
  LogicalKey.Record index id :: LogicalKey.Location index id ::
    (if include_payload then [LogicalKey.Payload index id] else []).
Fixpoint key_bytes_fold (bytes : Z) (keys : list (list Z)) : option Z :=
  match keys with
  | [] => Some bytes
  | key :: keys => checked_add bytes (len key) ≫= λ bytes, key_bytes_fold bytes keys
  end.
Definition group_of (record location payload : option PersistentValue.t) : result (option RecordGroupRead) :=
  match record, location, payload with
  | None, None, None => Ok None
  | Some (PersistentValue.VectorRecord record), Some (PersistentValue.RecordLocation location), payload =>
      match payload with
      | Some (PersistentValue.OpaquePayload payload) => Ok (Some (mkGroup record location (Some payload)))
      | None => Ok (Some (mkGroup record location None))
      | Some _ => Err Corruption
      end
  | _, _, _ => Err Corruption
  end.
(** The iterator over the decoded values, panicking when it runs out. *)
Fixpoint groups_loop (include_payload : bool) (ids : list (list Z)) (values : list (option PersistentValue.t))
    : result (list (option RecordGroupRead)) :=
  match ids with
  | [] => Ok []
  | _ :: ids =>
      match values with
      | record :: location :: values =>
          (if include_payload then match values with payload :: values => Ok (payload, values) | [] => Panic end
           else Ok (None, values)) ≫= λ '(payload, values),
          group_of record location payload ≫= λ group,
          groups_loop include_payload ids values ≫= λ groups, Ok (group :: groups)
      | _ => Panic
      end
  end.
Definition read_record_groups (b : LogicalBinding) (ids : list (list Z)) (include_payload : bool)
    : M T (list (option RecordGroupRead)) :=
  match lb_manifest b with
  | None => m_lift (Err InvalidArgument)
  | Some m =>
      let! _ := m_lift (within_usize (checked_mul (len ids) (if include_payload then 3 else 2))) in
      let keys := group_keys (im_logical_index_id m) include_payload ids in
      let! encoded := m_lift (mapM (encode_input_key b) keys) in
      let! _ := m_lift (within_usize (key_bytes_fold 0 encoded)) in
      let! values := ro_batch_get encoded in
      let! values := m_lift (decode_batch b keys values) in
      m_lift (groups_loop include_payload ids values)
  end.
(** [groups.pop().expect(...)] takes the last group. *)
Definition read_record_group (b : LogicalBinding) (id : list Z) (include_payload : bool) : M T (option RecordGroupRead) :=
  let! groups := read_record_groups b [id] include_payload in
  m_lift (or_panic (list_basics.list.last groups)).
End reads.

(** ** The builder's typed methods *)
Definition builder_put (key : LogicalKey.t) (value : PersistentValue.t) : M MutationBuilder unit :=
  let! mb := m_get in
  let! encoded_key := m_lift (encode_input_key (mb_binding mb) key) in
  let! encoded_value := m_lift (codec_encode_for_key (mb_binding mb) key value) in
  builder_queue encoded_key (Some encoded_value).
Definition builder_put_encoded (key value : list Z) : M MutationBuilder unit := builder_queue key (Some value).
Definition builder_delete (key : LogicalKey.t) : M MutationBuilder unit :=
  let! mb := m_get in
  let! encoded_key := m_lift (encode_input_key (mb_binding mb) key) in
  builder_queue encoded_key None.

(** ** Write transactions *)
Section writes.
Context {T : Type} `{WriteOps T}.
Implicit Types t : WriteLogicalTxn T.

Definition write_new (raw : T) (b : LogicalBinding) (limits : HardLimits) (budget : AdmissionBudget) : WriteLogicalTxn T :=
  mkWriteTxn raw b limits budget size_default 0 ∅.
Definition write_bootstrap (raw : T) (limits : HardLimits) (budget : AdmissionBudget) : WriteLogicalTxn T :=
  write_new raw binding_bootstrap limits budget.
Definition write_for_index (raw : T) (m : IndexManifest) (limits : HardLimits) (budget : AdmissionBudget)
    : result (WriteLogicalTxn T) :=
  binding_for_index m ≫= λ b, Ok (write_new raw b limits budget).
Definition write_for_drop (raw : T) (m : IndexManifest) (limits : HardLimits) (budget : AdmissionBudget)
    : result (WriteLogicalTxn T) :=
  if decide (im_lifecycle m = IndexLifecycle.Dropping)
  then binding_for_drop m ≫= λ b, Ok (write_new raw b limits budget)
  else Err InvalidArgument.
Definition with_raw (t : WriteLogicalTxn T) (raw : T) : WriteLogicalTxn T :=
  mkWriteTxn raw (wl_binding t) (wl_hard_limits t) (wl_budget t) (wl_size t) (wl_affected_bytes t) (wl_read_cache t).
Definition with_cache (t : WriteLogicalTxn T) (cache : gmap (list Z) ReadCacheEntry) : WriteLogicalTxn T :=
  mkWriteTxn (wl_raw t) (wl_binding t) (wl_hard_limits t) (wl_budget t) (wl_size t) (wl_affected_bytes t) cache.
Definition with_charge (t : WriteLogicalTxn T) (size : TransactionSize) (affected : Z) : WriteLogicalTxn T :=
  mkWriteTxn (wl_raw t) (wl_binding t) (wl_hard_limits t) (wl_budget t) size affected (wl_read_cache t).
(** An operation on the raw transaction. *)
Definition on_raw {A} (m : M T A) : M (WriteLogicalTxn T) A := λ t,
  let '(raw, r) := m (wl_raw t) in (with_raw t raw, r).
Definition modify {S} (f : S → S) : M S unit := λ s, (f s, Ok tt).
Definition require_bound_manifest (t : WriteLogicalTxn T) : result IndexManifest :=
  ok_or InvalidArgument (lb_manifest (wl_binding t)).
Definition affected_key_bytes (t : WriteLogicalTxn T) (key : list Z) (copies : Z) : result Z :=
  within_usize (checked_add (len key) (ab_mutation_key_overhead_bytes (wl_budget t)) ≫= λ n,
    checked_mul n copies ≫= λ n, checked_add n 64).
Definition add_affected (t : WriteLogicalTxn T) (bytes : Z) : result Z :=
  within_usize (checked_add (wl_affected_bytes t) bytes).
Definition saturating_sub (a b : Z) : Z := Z.max 0 (a - b).
Definition mutations (t : WriteLogicalTxn T) : MutationBuilder :=
  builder_new (wl_binding t) (wl_hard_limits t)
    (mkBudget (saturating_sub (ab_max_mutations (wl_budget t)) (ts_mutations (wl_size t)))
       (saturating_sub (ab_max_mutation_bytes (wl_budget t)) (ts_bytes (wl_size t)))
       (ab_mutation_key_overhead_bytes (wl_budget t))).
(** The cached value that can serve a read. *)
Definition serves (t : WriteLogicalTxn T) (key : list Z) (for_update : bool) : option (option (list Z)) :=
  match wl_read_cache t !! key with
  | Some entry => if rc_update_protected entry || negb for_update then Some (rc_value entry) else None
  | None => None
  end.
Definition cache_read (key : list Z) (value : option (list Z)) (for_update : bool) (t : WriteLogicalTxn T) : WriteLogicalTxn T :=
  with_cache t (<[key := mkCacheEntry value for_update]> (wl_read_cache t)).
Definition get_raw (key : list Z) (for_update : bool) : M (WriteLogicalTxn T) (option (list Z)) :=
  let! t := m_get in
  match serves t key for_update with
  | Some value => m_ret value
  | None =>
      let! next_affected := m_lift
        (if for_update then affected_key_bytes t key 2 ≫= add_affected t else Ok (wl_affected_bytes t)) in
      let! value := on_raw (if for_update then wo_get_for_update key else ro_get key) in
      let! _ := modify (λ t, cache_read key value for_update (with_charge t (wl_size t) next_affected)) in
      m_ret value
  end.

(** [batch_get_raw]: the values the cache serves, with the positions it misses. *)
Fixpoint serve_loop (t : WriteLogicalTxn T) (for_update : bool) (index : nat) (keys : list (list Z))
    : list (option (list Z)) * list (nat * list Z) :=
  match keys with
  | [] => ([], [])
  | key :: keys =>
      let '(values, missing) := serve_loop t for_update (S index) keys in
      match serves t key for_update with
      | Some value => (value :: values, missing)
      | None => (None :: values, (index, key) :: missing)
      end
  end.
Definition snd_le (a b : nat * list Z) : Prop := a.2 ≤ₗ b.2.
#[export] Instance snd_le_dec : RelDecision snd_le.
Proof. intros a b. unfold snd_le. apply _. Defined.
(** [Vec::dedup] and [chunk_by] on equal keys. *)
Fixpoint dedup (keys : list (list Z)) : list (list Z) :=
  match keys with
  | [] => []
  | key :: keys =>
      match dedup keys with
      | next :: rest => if decide (key = next) then next :: rest else key :: next :: rest
      | [] => [key]
      end
  end.
Fixpoint chunk_by_key (missing : list (nat * list Z)) : list (list (nat * list Z)) :=
  match missing with
  | [] => []
  | (index, key) :: missing =>
      match chunk_by_key missing with
      | ((index', key') :: chunk) :: chunks =>
          if decide (key = key') then ((index, key) :: (index', key') :: chunk) :: chunks
          else [(index, key)] :: ((index', key') :: chunk) :: chunks
      | chunks => [(index, key)] :: chunks
      end
  end.
Fixpoint batch_affected_loop (t : WriteLogicalTxn T) (total : Z) (keys : list (list Z)) : result Z :=
  match keys with
  | [] => Ok total
  | key :: keys =>
      affected_key_bytes t key 2 ≫= λ bytes,
      within_usize (checked_add total bytes) ≫= λ total, batch_affected_loop t total keys
  end.
(** Scattering one fetched value to its input positions. *)
Definition scatter (value : option (list Z)) (positions : list (nat * list Z)) (values : list (option (list Z)))
    : list (option (list Z)) := foldl (λ values '(index, _), <[index := value]> values) values positions.
Fixpoint scatter_loop (for_update : bool) (chunks : list (list (nat * list Z) * option (list Z)))
    (values : list (option (list Z))) : M (WriteLogicalTxn T) (list (option (list Z))) :=
  match chunks with
  | [] => m_ret values
  | (positions, value) :: chunks =>
      let! key := m_lift (or_panic (snd <$> head positions)) in
      let! _ := modify (cache_read key value for_update) in
      scatter_loop for_update chunks (scatter value positions values)
  end.
Definition batch_get_raw (keys : list (list Z)) (for_update : bool) : M (WriteLogicalTxn T) (list (option (list Z))) :=
  let! t := m_get in
  let '(values, missing) := serve_loop t for_update 0 keys in
  if decide (missing = []) then m_ret values
  else
    let missing := merge_sort snd_le missing in
    let missing_keys := dedup (snd <$> missing) in
    let! next_affected := m_lift
      (if for_update then batch_affected_loop t (wl_affected_bytes t) missing_keys else Ok (wl_affected_bytes t)) in
    let! fetched := on_raw (if for_update then wo_batch_get_for_update missing_keys else ro_batch_get missing_keys) in
    if negb (len fetched =? len missing_keys) then m_lift (Err Backend)
    else
      let! _ := modify (λ t, with_charge t (wl_size t) next_affected) in
      scatter_loop for_update (zip (chunk_by_key missing) fetched) values.

(** *** Typed reads *)
Definition read_one (for_update : bool) (key : LogicalKey.t) : M (WriteLogicalTxn T) (option PersistentValue.t) :=
  let! t := m_get in
  let! encoded := m_lift (encode_input_key (wl_binding t) key) in
  let! value := get_raw encoded for_update in
  m_lift (decode_value (wl_binding t) key value).
Definition read_batch (for_update : bool) (keys : list LogicalKey.t)
    : M (WriteLogicalTxn T) (list (option PersistentValue.t)) :=
  let! t := m_get in
  let! encoded := m_lift (mapM (encode_input_key (wl_binding t)) keys) in
  let! values := batch_get_raw encoded for_update in
  m_lift (decode_batch (wl_binding t) keys values).
Definition get : LogicalKey.t → M (WriteLogicalTxn T) (option PersistentValue.t) := read_one false.
Definition batch_get : list LogicalKey.t → M (WriteLogicalTxn T) (list (option PersistentValue.t)) := read_batch false.
Definition get_for_update : LogicalKey.t → M (WriteLogicalTxn T) (option PersistentValue.t) := read_one true.
Definition batch_get_for_update : list LogicalKey.t → M (WriteLogicalTxn T) (list (option PersistentValue.t)) :=
  read_batch true.
Definition warm_for_update (keys : list LogicalKey.t) : M (WriteLogicalTxn T) unit :=
  let! t := m_get in
  let! encoded := m_lift (mapM (encode_input_key (wl_binding t)) keys) in
  let! _ := batch_get_raw encoded true in
  m_ret tt.
Definition scan (range : LogicalRange) (cursor : option LogicalScanCursor) (limits : ScanLimits)
    : M (WriteLogicalTxn T) LogicalScanPage :=
  let! t := m_get in on_raw (scan_logical (wl_binding t) range cursor limits).
Definition batch_scan (legs : list (LogicalRange * option LogicalScanCursor)) (limits : ScanLimits)
    : M (WriteLogicalTxn T) (list LogicalScanPage) :=
  let! t := m_get in on_raw (batch_scan_logical (wl_binding t) legs limits).

(** *** Mutations *)
Definition cache_write (key : list Z) (value : option (list Z)) (t : WriteLogicalTxn T) : WriteLogicalTxn T :=
  let protected := match wl_read_cache t !! key with Some entry => rc_update_protected entry | None => false end in
  with_cache t (<[key := mkCacheEntry value protected]> (wl_read_cache t)).
Definition insert (key : LogicalKey.t) (value : PersistentValue.t) : M (WriteLogicalTxn T) InsertOutcome.t :=
  let! t := m_get in
  let! encoded_key := m_lift (encode_input_key (wl_binding t) key) in
  let! encoded_value := m_lift (codec_encode_for_key (wl_binding t) key value) in
  let! _ := m_lift (check_hard_limits (wl_hard_limits t) encoded_key (Some encoded_value)) in
  let! bytes := m_lift (mutation_bytes encoded_key (Some encoded_value)) in
  let! existing := get_raw encoded_key true in
  match existing with
  | Some existing =>
      let! _ := m_lift (codec_decode (wl_binding t) key existing) in
      m_ret InsertOutcome.AlreadyExists
  | None =>
      let! t := m_get in
      let! next := m_lift (ok_or LimitExceeded (size_checked_add (wl_size t) (mkSize 1 bytes))) in
      let! _ := m_lift (check_budget (wl_budget t) next) in
      let! key_bytes := m_lift (affected_key_bytes t encoded_key 3) in
      let! bytes := m_lift (within_usize (checked_add key_bytes (len encoded_value))) in
      let! next_affected := m_lift (add_affected t bytes) in
      let! outcome := on_raw (wo_insert encoded_key encoded_value) in
      if decide (outcome = InsertOutcome.Inserted) then
        let! _ := modify (λ t, cache_write encoded_key (Some encoded_value) (with_charge t next next_affected)) in
        m_ret outcome
      else m_ret outcome
  end.
Fixpoint entry_limits_loop (limits : HardLimits) (entries : list (list Z * option (list Z))) : result unit :=
  match entries with
  | [] => Ok tt
  | (key, value) :: entries => check_hard_limits limits key value ≫= λ _, entry_limits_loop limits entries
  end.
Definition apply (builder : MutationBuilder) : M (WriteLogicalTxn T) unit :=
  let! t := m_get in
  if negb (compatible_with (wl_binding t) (mb_binding builder)) then m_lift (Err InvalidArgument)
  else if decide (mb_entries builder = ∅) then m_ret tt
  else
    let! _ := m_lift (entry_limits_loop (wl_hard_limits t) (in_key_order (mb_entries builder))) in
    let! next := m_lift (ok_or LimitExceeded (size_checked_add (wl_size t) (mb_size builder))) in
    let! _ := m_lift (check_budget (wl_budget t) next) in
    let! affected := m_lift (builder_affected_bytes builder) in
    let! next_affected := m_lift (add_affected t affected) in
    let! _ := on_raw (wo_batch_mutate (into_backend_mutations builder)) in
    modify (λ t, with_charge (foldl (λ t '(key, value), cache_write key value t) t (in_key_order (mb_entries builder)))
                   next next_affected).
(** A builder method run on a fresh builder of the transaction, then applied. *)
Definition build_and_apply (build : M MutationBuilder unit) : M (WriteLogicalTxn T) unit :=
  let! t := m_get in
  match build (mutations t) with
  | (builder, Ok _) => apply builder
  | (_, Err e) => m_lift (Err e)
  | (_, Panic) => m_lift Panic
  end.
Definition put (key : LogicalKey.t) (value : PersistentValue.t) : M (WriteLogicalTxn T) unit :=
  build_and_apply (builder_put key value).
Definition delete_key (key : LogicalKey.t) : M (WriteLogicalTxn T) unit := build_and_apply (builder_delete key).
Definition clear_range (range : LogicalRange) : M (WriteLogicalTxn T) unit :=
  let! t := m_get in
  let! _ := m_lift (validate_range (wl_binding t) range) in
  let! bytes := m_lift (within_usize (checked_add (len (range_start (lr_raw range))) (len (range_end (lr_raw range))))) in
  let! next := m_lift (ok_or LimitExceeded (size_checked_add (wl_size t) (mkSize 1 bytes))) in
  let! _ := m_lift (check_budget (wl_budget t) next) in
  let! overhead := m_lift (within_usize (checked_mul (ab_mutation_key_overhead_bytes (wl_budget t)) 2)) in
  let! affected := m_lift (within_usize (checked_add bytes overhead ≫= λ n, checked_mul n 3 ≫= λ n, checked_add n 64)) in
  let! next_affected := m_lift (add_affected t affected) in
  let! _ := on_raw (wo_clear_range (lr_raw range)) in
  modify (λ t, with_charge (with_cache t ∅) next next_affected).
End writes.
End operations.
