(* ===== verification/LogicalSpec.v ===== *)
(** Correctness of the typed logical operations (src/src/storage/operations.rs):
    the read cache is coherent with the raw transaction, typed reads and writes
    refine operations on its view, and the mutation builder accounts exactly for
    the writes it coalesces. *)
From stdpp Require Import gmap sorting.
From S2P Require Import Prelude RustStd Api TreeKey Keys KeyRanges RaBitQ Manifest Wire Records Synopsis Values Backend Memory Txn Codec Logical.

(** ** Computations that fail only with an exceeded limit *)
Definition limited {A} (r : result A) : Prop := (∃ a, r = Ok a) ∨ r = Err LimitExceeded.
Create HintDb limited.
Lemma limited_ok {A} (a : A) : limited (Ok a).
Proof. left. by eexists. Qed.
Lemma limited_ok_or {A} (o : option A) : limited (ok_or LimitExceeded o).
Proof. destruct o; [left; by eexists|by right]. Qed.
Lemma limited_within o : limited (within_usize o).
Proof. apply limited_ok_or. Qed.
Lemma limited_hard_limits limits key value : limited (check_hard_limits limits key value).
Proof. unfold check_hard_limits. case_match; [by right|left; by eexists]. Qed.
Lemma limited_budget budget size : limited (check_budget budget size).
Proof. unfold check_budget. case_match; [by right|left; by eexists]. Qed.
Lemma limited_mutation_bytes key value : limited (mutation_bytes key value).
Proof. apply limited_ok_or. Qed.
Lemma limited_bind {A B} (r : result A) (f : A → result B) : limited r → (∀ a, r = Ok a → limited (f a)) → limited (r ≫= f).
Proof. intros [[a ->]| ->] Hf; [by apply Hf|by right]. Qed.
#[export] Hint Resolve limited_ok limited_ok_or limited_within limited_hard_limits limited_budget
  limited_mutation_bytes limited_bind : limited.
Lemma wp_limited {T A} (r : result A) (Q : A → T → Prop) (E : ErrorKind → T → Prop) t :
  limited r → (∀ a, r = Ok a → Q a t) → E LimitExceeded t → wp (m_lift r) Q E t.
Proof. intros Hr HQ HE. apply wp_lift; [by destruct Hr as [[a ->]| ->]|done|]. intros e ->. by destruct Hr as [[a [=]]|[= ->]]. Qed.
(** One checked step of a method body. *)
Ltac limit_step a Ha := apply wp_bind, wp_limited; [auto with limited|intros a Ha|try done].

Lemma wp_modify {T} (f : T → T) (Q : unit → T → Prop) (E : ErrorKind → T → Prop) t : Q tt (f t) → wp (modify f) Q E t.
Proof. done. Qed.

(** ** Entries in key order *)
Lemma in_key_order_perm {A} (m : gmap (list Z) A) : in_key_order m ≡ₚ map_to_list m.
Proof. apply merge_sort_Permutation. Qed.
Lemma in_key_order_nodup {A} (m : gmap (list Z) A) : NoDup (in_key_order m).*1.
Proof. rewrite in_key_order_perm. apply NoDup_fst_map_to_list. Qed.
Lemma in_key_order_map (m : gmap (list Z) (option (list Z))) :
  (list_to_map (in_key_order m) : gmap (list Z) (option (list Z))) = m.
Proof.
  rewrite (list_to_map_proper (in_key_order m) (map_to_list m));
    [apply list_to_map_to_list|apply in_key_order_nodup|apply in_key_order_perm].
Qed.
Lemma mutations_in_order mb view :
  apply_mutations (into_backend_mutations mb) view = apply_writes (mb_entries mb) view.
Proof.
  transitivity (foldl (λ d '(k, v), set_key k v d) view (in_key_order (mb_entries mb))).
  - unfold apply_mutations, into_backend_mutations. generalize (in_key_order (mb_entries mb)). intros l.
    revert view. induction l as [|[k [v|]] l IH]; intros view; [done|..]; rewrite fmap_cons; cbn [foldl]; apply IH.
  - apply map_eq. intros k. rewrite apply_list_lookup, in_key_order_map, apply_writes_lookup; [done|apply in_key_order_nodup].
Qed.

(** ** The builder's accounting *)
Definition entries_bytes (m : gmap (list Z) (option (list Z))) : Z :=
  map_fold (λ key value acc, len key + value_len value + acc) 0 m.
Lemma entries_bytes_insert m key value :
  m !! key = None → entries_bytes (<[key := value]> m) = len key + value_len value + entries_bytes m.
Proof. intros. unfold entries_bytes. rewrite map_fold_insert_L; [done| |done]. intros. lia. Qed.
Lemma entries_bytes_replace m key old value :
  m !! key = Some old →
  entries_bytes (<[key := value]> m) = entries_bytes m - (len key + value_len old) + (len key + value_len value).
Proof.
  intros Hk. rewrite <-insert_delete_eq, entries_bytes_insert by apply lookup_delete_eq.
  rewrite <-(insert_delete_id m key old) at 2 by done. rewrite entries_bytes_insert by apply lookup_delete_eq. lia.
Qed.
Lemma entries_bytes_nonneg m : 0 ≤ entries_bytes m.
Proof.
  unfold entries_bytes. apply (map_fold_weak_ind (λ r _, 0 ≤ r)); [done|]. intros k v m' r _ Hr.
  pose proof (len_nonneg k). pose proof (value_len_nonneg v). lia.
Qed.
(** The builder's size is exactly the footprint of its entries, and within its
    budget once anything is queued. *)
Definition exact_size (mb : MutationBuilder) : Prop :=
  mb_size mb = mkSize (Z.of_nat (size (mb_entries mb))) (entries_bytes (mb_entries mb)).
Definition builder_ok (mb : MutationBuilder) : Prop :=
  exact_size mb ∧
  (mb_entries mb = ∅ ∨ ts_mutations (mb_size mb) ≤ ab_max_mutations (mb_budget mb) ∧
                        ts_bytes (mb_size mb) ≤ ab_max_mutation_bytes (mb_budget mb)) ∧
  (∀ key value, mb_entries mb !! key = Some value → check_hard_limits (mb_hard_limits mb) key value = Ok tt).
Definition same_builder (mb mb' : MutationBuilder) : Prop :=
  mb_binding mb' = mb_binding mb ∧ mb_hard_limits mb' = mb_hard_limits mb ∧ mb_budget mb' = mb_budget mb.

Lemma builder_new_ok b limits budget : builder_ok (builder_new b limits budget).
Proof.
  split; [|split; [by left|]]; [done|]. intros key value Hk. cbn in Hk. by rewrite lookup_empty in Hk.
Qed.
Lemma check_budget_ok budget size :
  check_budget budget size = Ok tt ↔ ts_mutations size ≤ ab_max_mutations budget ∧ ts_bytes size ≤ ab_max_mutation_bytes budget.
Proof. unfold check_budget. case_match; bprop; split; intros; try done; lia. Qed.
Lemma size_add_ok a b c :
  ok_or LimitExceeded (size_checked_add a b) = Ok c ↔
  c = mkSize (ts_mutations a + ts_mutations b) (ts_bytes a + ts_bytes b) ∧
  ts_mutations a + ts_mutations b < 2 ^ 64 ∧ ts_bytes a + ts_bytes b < 2 ^ 64.
Proof.
  rewrite ok_or_ok. unfold size_checked_add, checked_add.
  destruct (Z.ltb_spec (ts_mutations a + ts_mutations b) (2 ^ 64)); cbn;
    [destruct (Z.ltb_spec (ts_bytes a + ts_bytes b) (2 ^ 64)); cbn|]; split; intros; simplify_eq; try done; naive_solver lia.
Qed.

Lemma builder_queue_spec key value mb :
  builder_ok mb →
  wp (builder_queue key value)
    (λ _ mb', builder_ok mb' ∧ same_builder mb mb' ∧ mb_entries mb' = <[key := value]> (mb_entries mb))
    (λ e mb', mb' = mb ∧ e = LimitExceeded) mb.
Proof.
  intros (Hs & Hb & Hl). unfold builder_queue. apply wp_bind, wp_get.
  limit_step u Hlim. destruct u. limit_step new_bytes Hnew.
  assert (new_bytes = len key + value_len value) as ->.
  { unfold mutation_bytes, within_usize, checked_add in Hnew. apply ok_or_ok in Hnew. case_match; by simplify_eq. }
  set (exact := mkSize (Z.of_nat (size (<[key := value]> (mb_entries mb)))) (entries_bytes (<[key := value]> (mb_entries mb)))).
  apply (wp_step _ _ (λ next mb', mb' = mb ∧ next = exact ∧ check_budget (mb_budget mb) exact = Ok tt)
    (λ e mb', mb' = mb ∧ e = LimitExceeded)); [|done|].
  - destruct (mb_entries mb !! key) as [old|] eqn:Hk; (apply wp_limited; [by auto 6 with limited| |done]).
    + intros next (old_bytes & Hold & H)%bind_ok. apply bind_ok in H as (bytes & Hbytes & H).
      apply bind_ok in H as ([] & Hbud & H). apply Ok_inj in H as <-. split; [done|].
      assert (old_bytes = len key + value_len old) as ->.
      { unfold mutation_bytes, within_usize, checked_add in Hold. apply ok_or_ok in Hold. case_match; by simplify_eq. }
      assert (mkSize (ts_mutations (mb_size mb)) bytes = exact) as <-; [|done].
      unfold exact. rewrite Hs in *. cbn [ts_mutations ts_bytes] in *. f_equal.
      { rewrite map_size_insert_Some; [done|by rewrite Hk]. }
      rewrite (entries_bytes_replace _ _ old) by done. apply ok_or_ok in Hbytes. unfold checked_sub, checked_add in Hbytes.
      case_match; [|done]. cbn in Hbytes. case_match; [|done]. by simplify_eq.
    + intros next (sz & Hsz & H)%bind_ok. apply bind_ok in H as ([] & Hbud & H). apply Ok_inj in H as <-.
      split; [done|]. assert (sz = exact) as ->; [|done]. apply size_add_ok in Hsz as (-> & _).
      unfold exact. rewrite Hs. cbn [ts_mutations ts_bytes]. f_equal.
      * rewrite map_size_insert_None by done. lia.
      * rewrite entries_bytes_insert by done. lia.
  - intros next mb' (-> & -> & Hbud). apply wp_put. split; [|done]. split; [done|].
    split; [right; by apply check_budget_ok in Hbud|].
    intros k v. cbn [mb_entries builder_set mb_hard_limits]. intros [[<- <-]|[_ Hk]]%lookup_insert_Some; [done|by apply Hl].
Qed.

(** ** Bindings *)
(** A manifest's schema has the types its Tree Keys are checked with. *)
Lemma schema_of_manifest m types :
  tree_key_types m = Ok types →
  ∃ schema, TreeKeySchema_for_index m = Ok schema ∧ TreeKeySchema_types schema = Ok types.
Proof.
  unfold tree_key_types, TreeKeySchema_for_index. cbv zeta. intros (ts & Hts & H)%bind_ok.
  destruct (Z.ltb_spec MAX_FIELDS (len (ic_tree_key_fields (im_config m)))) as [|Hl]; [done|]. apply Ok_inj in H as ->.
  rewrite Hts. cbn [mbind result_bind]. eexists. split; [done|]. unfold TreeKeySchema_types. cbn [ts_types ts_count].
  apply tree_types_loop_length in Hts.
  assert (len (ic_tree_key_fields (im_config m)) = len types) as ->.
  { unfold ztake, len, MAX_FIELDS in *. rewrite Hts, length_take. lia. }
  unfold type_array. pose proof (len_nonneg (replicate (Z.to_nat (MAX_FIELDS - len types)) DataType.Bool)).
  rewrite (proj2 (Z.ltb_ge _ _)) by (rewrite len_app; lia). by rewrite ztake_app.
Qed.
(** A binding made by a constructor over a well-formed manifest. *)
Record binding_ok (b : LogicalBinding) (types : list DataType.t) : Prop := {
  bound_manifest_ok : bound_ok (lb_manifest b);
  bound_types : TreeKeySchema_types (lb_schema b) = Ok types;
}.
Lemma binding_bootstrap_ok : binding_ok binding_bootstrap [].
Proof. by split. Qed.
Lemma binding_for_index_ok m :
  manifest_ok m →
  ∃ types b, tree_key_types m = Ok types ∧ binding_for_index m = Ok b ∧ binding_ok b types ∧ lb_manifest b = Some m ∧
    TreeKeySchema_for_index m = Ok (lb_schema b).
Proof.
  intros Hm. pose proof Hm as (_ & _ & _ & _ & _ & _ & types & Ht). exists types.
  destruct (schema_of_manifest m types Ht) as (schema & Hs & Hty). exists (mkBinding (Some m) schema false).
  unfold binding_for_index. rewrite Hs. split_and!; try done. split; [|done]. by intros ? [= <-].
Qed.

(** What the Rust types of a key's parts guarantee. *)
Definition key_typed (k : LogicalKey.t) : Prop :=
  match k with
  | LogicalKey.IndexIdAllocator => True
  | LogicalKey.IndexNameDirectory name => index_name_ok name
  | LogicalKey.Manifest i | LogicalKey.BuildDescriptor i | LogicalKey.BuildLoad i
  | LogicalKey.BuildWorkspace i | LogicalKey.BuildSchedule i | LogicalKey.BuildValidation i => id_ok i
  | LogicalKey.Record i id | LogicalKey.Location i id | LogicalKey.Payload i id => id_ok i ∧ bytes_ok id
  | LogicalKey.TreeManifest i tk => id_ok i ∧ bytes_ok tk
  | LogicalKey.Header i tk p | LogicalKey.Synopsis i tk p | LogicalKey.State i tk p
  | LogicalKey.Centroid i tk p | LogicalKey.GraphDescriptor i tk p => id_ok i ∧ bytes_ok tk ∧ id_ok p
  | LogicalKey.LeafEntry i tk p id => id_ok i ∧ bytes_ok tk ∧ id_ok p ∧ bytes_ok id
  | LogicalKey.GraphChunk i tk p chunk => id_ok i ∧ bytes_ok tk ∧ id_ok p ∧ u32_ok chunk
  | LogicalKey.ChildEntry i tk p child => id_ok i ∧ bytes_ok tk ∧ id_ok p ∧ id_ok child
  end.
Lemma key_typed_tree_key k tk : key_typed k → LogicalKey_tree_key k = Some tk → bytes_ok tk.
Proof. destruct k; cbn; try done; intros Hk [= <-]; by destruct_and?. Qed.

Lemma check_record_id_no_panic id : no_panic (check_record_id id).
Proof. unfold check_record_id. by case_match. Qed.
Lemma encode_key_no_panic k : no_panic (encode_key k).
Proof.
  destruct k; try done; cbn [encode_key]; unfold record_key, location_key, payload_key, leaf_entry_key, record_group_prefix;
    repeat (apply bind_no_panic; [|done]); apply check_record_id_no_panic.
Qed.

Section binding.
Context (b : LogicalBinding) (types : list DataType.t) (Hb : binding_ok b types).

Lemma validate_tree_key_no_panic tk : bytes_ok tk → no_panic (validate_tree_key b tk).
Proof.
  intros Htk. unfold validate_tree_key. destruct (lb_manifest b); [|done].
  rewrite (bound_types b types Hb). cbn [mbind result_bind]. unfold TreeKey_validate.
  by destruct (check_complete_total types tk Htk) as [[[] ->]| ->].
Qed.
Lemma encode_input_key_no_panic k : key_typed k → no_panic (encode_input_key b k).
Proof.
  intros Hk. apply bind_no_panic; [|intros _ _; apply encode_key_no_panic]. unfold validate_input_key.
  case_match; [done|]. destruct (LogicalKey_tree_key k) eqn:E; [|done].
  by eapply validate_tree_key_no_panic, key_typed_tree_key.
Qed.
(** An accepted key is well formed under the binding's schema. *)
Lemma encode_input_key_ok k bytes :
  key_typed k → encode_input_key b k = Ok bytes → key_ok types k ∧ encode_key k = Ok bytes ∧ input_key_scope b k = true.
Proof.
  intros Hk (? & Hv & He)%bind_ok. unfold validate_input_key in Hv. destruct (input_key_scope b k); [|done]. cbn [negb] in Hv.
  split; [|done].
  assert (∀ tk, LogicalKey_tree_key k = Some tk → tree_key_ok types tk) as Htk.
  { intros tk E. rewrite E in Hv. unfold validate_tree_key in Hv. destruct (lb_manifest b); [|done].
    rewrite (bound_types b types Hb) in Hv. cbn [mbind result_bind] in Hv. apply map_err_ok in Hv. destruct x.
    apply check_complete_spec in Hv; [done|]. by eapply key_typed_tree_key. }
  assert (∀ id, check_record_id id = Ok tt → bytes_ok id → record_id_ok id) as Hid.
  { intros id ?%check_record_id_ok. by split. }
  destruct k; cbn [key_ok key_typed LogicalKey_tree_key encode_key] in *; try done;
    try specialize (Htk _ eq_refl); try (by destruct_and?).
  all: unfold record_key, location_key, payload_key, leaf_entry_key, record_group_prefix in He;
    repeat (apply bind_ok in He as (? & He & _)); destruct_and?; try match goal with u : () |- _ => destruct u end; auto.
Qed.
Lemma encode_input_key_bytes k bytes : key_typed k → encode_input_key b k = Ok bytes → bytes_ok bytes.
Proof. intros Hk He. destruct (encode_input_key_ok k bytes Hk He) as (Hok & Hkey & _). by eapply encode_key_bytes. Qed.
Lemma encode_input_key_inj k k' bytes :
  key_typed k → key_typed k' → encode_input_key b k = Ok bytes → encode_input_key b k' = Ok bytes → k = k'.
Proof.
  intros Hk Hk' (Ho & He & _)%encode_input_key_ok (Ho' & He' & _)%encode_input_key_ok; [|done..].
  pose proof (decode_encode _ _ _ Ho He) as Hd. pose proof (decode_encode _ _ _ Ho' He') as Hd'. congruence.
Qed.
End binding.

(** ** The write transaction and its cache *)
Section write_txn.
Context {T : Type} `{WriteLaws T}.
Implicit Types t : WriteLogicalTxn T.

(** The bytes a transaction reads, and the keys it has conflicts on. *)
Definition lt_view t : store := view (wl_raw t).
Definition lt_protected t : gset (list Z) := protected (wl_raw t).
(** Cached values are those of the view, and an entry marked protected has its
    conflict established natively. *)
Record coherent t : Prop := {
  co_raw : txn_ok (wl_raw t);
  co_limits : hl_max_key_bytes (wl_hard_limits t) ≤ max_key;
  co_keys key value : lt_view t !! key = Some value → backend_key max_key key;
  co_bytes key value : lt_view t !! key = Some value → bytes_ok value;
  co_cache key entry : wl_read_cache t !! key = Some entry →
    rc_value entry = lt_view t !! key ∧ (rc_update_protected entry = true → key ∈ lt_protected t);
}.
Record same_txn t t' : Prop := {
  sm_binding : wl_binding t' = wl_binding t;
  sm_limits : wl_hard_limits t' = wl_hard_limits t;
  sm_budget : wl_budget t' = wl_budget t;
  sm_protected : lt_protected t ⊆ lt_protected t';
}.
(** What a read does: the view and the mutation charge are unchanged. *)
Record reads t t' : Prop := {
  rd_coherent : coherent t';
  rd_view : lt_view t' = lt_view t;
  rd_same : same_txn t t';
  rd_size : wl_size t' = wl_size t;
}.

#[export] Instance same_txn_refl : Reflexive same_txn.
Proof. by split. Qed.
#[export] Instance same_txn_trans : Transitive same_txn.
Proof. intros a b c [] []. split; [congruence..|set_solver]. Qed.
Lemma reads_refl t : coherent t → reads t t.
Proof. by split. Qed.
#[export] Instance reads_trans : Transitive reads.
Proof. intros a b c [] []. split; [done|congruence|by etrans|congruence]. Qed.

Lemma on_raw_wp {A} (m : M T A) Q E t :
  wp m Q E (wl_raw t) →
  wp (on_raw m) (λ a t', ∃ raw, Q a raw ∧ t' = with_raw t raw) (λ e t', ∃ raw, E e raw ∧ t' = with_raw t raw) t.
Proof. unfold wp, on_raw. destruct (m (wl_raw t)) as [raw [a|e|]]; [eauto..|done]. Qed.
Lemma with_raw_reads t raw : coherent t → observes (wl_raw t) raw → reads t (with_raw t raw).
Proof.
  intros [Hr Hl Hk Hb Hc] [Hv [Hp Hok]]. unfold lt_view, lt_protected in *. split; [|done|by split|done]. split; [done|done|..].
  - unfold lt_view. cbn [with_raw wl_raw]. by rewrite Hv.
  - unfold lt_view. cbn [with_raw wl_raw]. by rewrite Hv.
  - intros key entry He. apply Hc in He as [E Hprot]. unfold lt_view, lt_protected. cbn [with_raw wl_raw]. rewrite Hv. auto.
Qed.
Lemma cache_read_reads t key value for_update affected :
  coherent t → value = lt_view t !! key → (for_update = true → key ∈ lt_protected t) →
  reads t (cache_read key value for_update (with_charge t (wl_size t) affected)).
Proof.
  intros [Hr Hl Hk Hb Hc] -> Hp. split; [|done|done|done]. split; [done..|].
  intros k e. cbn [cache_read with_cache with_charge wl_read_cache]. intros [[<- <-]|[_ He]]%lookup_insert_Some; [done|by apply Hc].
Qed.
Lemma serves_ok t key for_update value :
  coherent t → serves t key for_update = Some value →
  value = lt_view t !! key ∧ (for_update = true → key ∈ lt_protected t).
Proof.
  intros Hco. unfold serves. destruct (wl_read_cache t !! key) as [entry|] eqn:E; [|done].
  apply (co_cache t Hco) in E as [Hv Hp]. case_match eqn:Es; [|done]. intros [= <-]. split; [done|]. intros ->.
  apply Hp. by rewrite orb_false_r in Es.
Qed.
Lemma limited_affected t key copies : limited (affected_key_bytes t key copies).
Proof. apply limited_within. Qed.
Lemma limited_add t bytes : limited (add_affected t bytes).
Proof. apply limited_within. Qed.
Hint Resolve limited_affected limited_add : limited.

Lemma native_get_wp t key for_update :
  coherent t →
  wp (on_raw (if for_update : bool then wo_get_for_update key else ro_get key))
    (λ v t', v = lt_view t !! key ∧ reads t t' ∧ (for_update = true → key ∈ lt_protected t')) (λ _ t', reads t t') t.
Proof.
  intros Hco. pose proof (co_raw t Hco). eapply wp_mono.
  - apply (on_raw_wp _ (λ v raw, v = lt_view t !! key ∧ observes (wl_raw t) raw ∧ (for_update = true → key ∈ protected raw))
      (λ _ raw, observes (wl_raw t) raw)).
    destruct for_update.
    + eapply wp_mono; [by apply wo_get_for_update_law| |done]. by intros v raw (-> & ? & ?).
    + eapply wp_mono; [by apply ro_get_law| |done]. by intros v raw (-> & ?).
  - intros v t' (raw & (-> & Ho & Hp) & ->). split_and!; [done|by apply with_raw_reads|done].
  - intros e t' (raw & Ho & ->). by apply with_raw_reads.
Qed.
Lemma get_raw_spec key for_update t :
  coherent t →
  wp (get_raw key for_update)
    (λ v t', v = lt_view t !! key ∧ reads t t' ∧ (for_update = true → key ∈ lt_protected t')) (λ _ t', reads t t') t.
Proof.
  intros Hco. unfold get_raw. apply wp_bind, wp_get. destruct (serves t key for_update) as [value|] eqn:Es.
  { apply wp_ret. apply serves_ok in Es as [-> Hp]; [|done]. split_and!; [done|by apply reads_refl|done]. }
  apply wp_bind, wp_limited; [by destruct for_update; auto with limited| |by apply reads_refl]. intros affected _.
  eapply wp_step; [by apply native_get_wp|done|]. intros v t' (-> & Hr & Hp). cbn beta.
  apply wp_bind, wp_modify, wp_ret.
  pose proof (rd_coherent _ _ Hr) as Hco'.
  assert (reads t' (cache_read key (lt_view t !! key) for_update (with_charge t' (wl_size t') affected))) as Hr'.
  { apply cache_read_reads; [done| |done]. by rewrite (rd_view _ _ Hr). }
  split_and!; [done|by etrans|done].
Qed.

(** *** Batches *)
Definition lookup_into (view : store) (values : list (option (list Z))) (positions : list (nat * list Z))
    : list (option (list Z)) := foldl (λ values '(index, key), <[index := view !! key]> values) values positions.
(** Scattering the value of every missed position completes the answer. *)
Lemma lookup_into_all view target positions values :
  (∀ i k, (i, k) ∈ positions → target !! i = Some (view !! k)) →
  (∀ j, values !! j = target !! j ∨ ∃ k, (j, k) ∈ positions) → length values = length target →
  lookup_into view values positions = target.
Proof.
  revert values. induction positions as [|[i k] positions IH]; intros values Ht Hv Hl; cbn [lookup_into foldl].
  { apply list_eq. intros j. destruct (Hv j) as [|[k Hk]]; [done|]. by apply elem_of_nil in Hk. }
  apply IH; [intros; apply Ht; by right| |by rewrite length_insert].
  intros j. pose proof (Ht i k ltac:(by left)) as Hi. destruct (decide (j = i)) as [->|Hne].
  - left. rewrite list_lookup_insert_eq; [done|]. rewrite Hl. by apply lookup_lt_Some in Hi.
  - rewrite list_lookup_insert_ne by done. destruct (Hv j) as [|[k' Hk']]; [by left|right]. exists k'.
    apply elem_of_cons in Hk' as [[= -> _]|]; done.
Qed.
Definition chunk_of (chunk : list (nat * list Z)) (key : list Z) : Prop :=
  chunk ≠ [] ∧ Forall (λ p, p.2 = key) chunk.
Lemma chunks_dedup missing :
  Forall2 chunk_of (chunk_by_key missing) (dedup missing.*2) ∧ concat (chunk_by_key missing) = missing.
Proof.
  induction missing as [|[i k] missing [IH Hc]]; [done|]. cbn [chunk_by_key fmap list_fmap dedup].
  destruct IH as [|chunk key chunks keys [Hne Hall] Hrest]; cbn in Hc.
  { subst missing. split; [|done]. repeat constructor; done. }
  destruct chunk as [|[i' k'] chunk]; [done|]. pose proof Hall as [Hk' _]%Forall_cons_iff. cbn in Hk'. subst k'.
  case_decide as E; case_decide as E'; try done; (split; [|cbn; by rewrite <-Hc]).
  - subst k. constructor; [|done]. split; [done|by constructor].
  - constructor; [split; [done|by repeat constructor]|]. by constructor.
Qed.
Lemma dedup_elem keys k : k ∈ dedup keys ↔ k ∈ keys.
Proof.
  induction keys as [|key keys IH]; [done|]. cbn [dedup]. rewrite elem_of_cons, <-IH.
  destruct (dedup keys) as [|next rest]; [by rewrite list_elem_of_singleton; set_solver|]. case_decide; subst; set_solver.
Qed.
Lemma serve_loop_spec t for_update index keys values missing :
  coherent t → serve_loop t for_update index keys = (values, missing) →
  length values = length keys ∧
  (∀ j k, keys !! j = Some k →
     values !! j = Some (lt_view t !! k) ∧ (for_update = true → k ∈ lt_protected t) ∨ ((index + j)%nat, k) ∈ missing) ∧
  (∀ i k, (i, k) ∈ missing → ∃ j, i = (index + j)%nat ∧ keys !! j = Some k).
Proof.
  intros Hco. revert index values missing. induction keys as [|key keys IH]; intros index values missing; cbn [serve_loop].
  { intros [= <- <-]. split_and!; [done|done|]. intros i k Hk. by apply elem_of_nil in Hk. }
  destruct (serve_loop t for_update (S index) keys) as [vs ms] eqn:El. destruct (IH _ _ _ El) as (Hlen & Hv & Hm).
  assert (∀ i k, (i, k) ∈ ms → ∃ j, i = (index + j)%nat ∧ (key :: keys) !! j = Some k) as Hm'.
  { intros i k Hk. apply Hm in Hk as (j & -> & Hj). exists (S j). split; [lia|done]. }
  destruct (serves t key for_update) as [value|] eqn:Es; intros [= <- <-]; (split; [cbn; lia|]).
  - split; [|done]. intros [|j] k; cbn [lookup list_lookup].
    + intros [= <-]. left. apply serves_ok in Es as [-> ?]; done.
    + intros Hk. destruct (Hv j k Hk) as [?|?]; [by left|right]. by replace (index + S j)%nat with (S index + j)%nat by lia.
  - split.
    + intros [|j] k; cbn [lookup list_lookup].
      * intros [= <-]. right. rewrite Nat.add_0_r. by left.
      * intros Hk. destruct (Hv j k Hk) as [?|?]; [by left|right]. right. by replace (index + S j)%nat with (S index + j)%nat by lia.
    + intros i k [[= -> ->]|Hk]%elem_of_cons; [|by apply Hm']. exists O. split; [lia|done].
Qed.
Lemma scatter_lookup view key positions values :
  Forall (λ p, p.2 = key) positions → scatter (view !! key) positions values = lookup_into view values positions.
Proof.
  unfold scatter, lookup_into. revert values. induction positions as [|[i k] positions IH]; intros values; [done|].
  intros [Hk Hall]%Forall_cons_iff. cbn in Hk. subst k. cbn [foldl]. by apply IH.
Qed.
Lemma scatter_loop_spec for_update chunks keys values t :
  coherent t → Forall2 chunk_of chunks keys → (for_update = true → ∀ k, k ∈ keys → k ∈ lt_protected t) →
  wp (scatter_loop for_update (zip chunks ((lt_view t !!.) <$> keys)) values)
    (λ vs t', vs = lookup_into (lt_view t) values (concat chunks) ∧ reads t t') (λ _ _, False) t.
Proof.
  intros Hco Hc. revert t values Hco. induction Hc as [|chunk key chunks keys [Hne Hall] _ IH]; intros t values Hco Hp.
  { apply wp_ret. split; [done|by apply reads_refl]. }
  rewrite fmap_cons. cbn [zip zip_with scatter_loop].
  apply wp_bind, (wp_lift (or_panic (snd <$> head chunk)));
    [by destruct chunk| |by destruct chunk]. intros k Hk.
  assert (k = key) as ->. { destruct chunk as [|[i k'] chunk]; [done|]. cbn in Hk. apply Ok_inj in Hk as <-. by apply Forall_cons_iff in Hall as [? _]. }
  apply wp_bind, wp_modify.
  assert (reads t (cache_read key (lt_view t !! key) for_update t)) as Hr.
  { pose proof (cache_read_reads t key (lt_view t !! key) for_update (wl_affected_bytes t) Hco eq_refl) as Hr. destruct t.
    apply Hr. intros. apply Hp; [done|by left]. }
  rewrite scatter_lookup by done. eapply (wp_mono _ _ _ (λ _ _, False)); [| |done].
  - rewrite <-(rd_view _ _ Hr). apply IH; [by apply rd_coherent in Hr|]. intros Hf k Hin. apply (sm_protected _ _ (rd_same _ _ Hr)).
    apply Hp; [done|by right].
  - intros vs t' [-> Hr']. split; [|by etrans]. cbn [concat]. unfold lookup_into. rewrite foldl_app.
    by rewrite (rd_view _ _ Hr).
Qed.
Lemma native_batch_wp t keys for_update :
  coherent t →
  wp (on_raw (if for_update : bool then wo_batch_get_for_update keys else ro_batch_get keys))
    (λ vs t', vs = (lt_view t !!.) <$> keys ∧ reads t t' ∧ (for_update = true → ∀ k, k ∈ keys → k ∈ lt_protected t'))
    (λ _ t', reads t t') t.
Proof.
  intros Hco. pose proof (co_raw t Hco). eapply wp_mono.
  - apply (on_raw_wp _ (λ vs raw, vs = (lt_view t !!.) <$> keys ∧ observes (wl_raw t) raw ∧
        (for_update = true → ∀ k, k ∈ keys → k ∈ protected raw)) (λ _ raw, observes (wl_raw t) raw)).
    destruct for_update.
    + eapply wp_mono; [by apply wo_batch_get_for_update_law| |done]. by intros v raw (-> & ? & ?).
    + eapply wp_mono; [by apply ro_batch_get_law| |done]. by intros v raw (-> & ?).
  - intros v t' (raw & (-> & Ho & Hp) & ->). split_and!; [done|by apply with_raw_reads|done].
  - intros e t' (raw & Ho & ->). by apply with_raw_reads.
Qed.
Lemma limited_batch_affected t total keys : limited (batch_affected_loop t total keys).
Proof. revert total. induction keys as [|k keys IH]; intros total; cbn [batch_affected_loop]; auto with limited. Qed.
Lemma batch_get_raw_spec keys for_update t :
  coherent t →
  wp (batch_get_raw keys for_update)
    (λ vs t', vs = (lt_view t !!.) <$> keys ∧ reads t t' ∧ (for_update = true → ∀ k, k ∈ keys → k ∈ lt_protected t'))
    (λ _ t', reads t t') t.
Proof.
  intros Hco. unfold batch_get_raw. apply wp_bind, wp_get.
  destruct (serve_loop t for_update 0 keys) as [values missing] eqn:El.
  destruct (serve_loop_spec _ _ _ _ _ _ Hco El) as (Hlen & Hv & Hm).
  set (sorted := merge_sort snd_le missing).
  assert (∀ i k, (i, k) ∈ sorted ↔ (i, k) ∈ missing) as Hsort.
  { intros i k. unfold sorted. by rewrite merge_sort_Permutation. }
  assert (∀ k, k ∈ dedup sorted.*2 ↔ ∃ i, (i, k) ∈ missing) as Hkeys.
  { intros k. rewrite dedup_elem, list_elem_of_fmap. split.
    - intros ([i k'] & -> & Hin). exists i. by apply Hsort.
    - intros [i Hin]. exists (i, k). split; [done|by apply Hsort]. }
  assert (lookup_into (lt_view t) values sorted = (lt_view t !!.) <$> keys) as Hfill.
  { apply lookup_into_all; [| |by rewrite length_fmap].
    - intros i k Hin. apply Hsort, Hm in Hin as (j & -> & Hj). cbn. by rewrite list_lookup_fmap, Hj.
    - intros j. rewrite list_lookup_fmap. destruct (keys !! j) as [k|] eqn:Ek.
      + destruct (Hv j k Ek) as [[-> _]|Hin]; [by left|right]. exists k. by apply Hsort.
      + left. cbn. apply lookup_ge_None. rewrite Hlen. by apply lookup_ge_None. }
  case_decide as Hnone.
  { apply wp_ret. subst missing. split_and!; [|by apply reads_refl|].
    - by rewrite <-Hfill.
    - intros Hf k [j Hj]%list_elem_of_lookup. destruct (Hv j k Hj) as [[_ Hp]|Hin]; [by apply Hp|]. by apply elem_of_nil in Hin. }
  apply wp_bind, wp_limited; [by destruct for_update; auto using limited_batch_affected with limited| |by apply reads_refl].
  intros affected _. eapply wp_step; [by apply native_batch_wp|done|]. intros fetched t' (-> & Hr & Hp). cbn beta.
  unfold len. rewrite length_fmap, Z.eqb_refl. cbn [negb]. apply wp_bind, wp_modify.
  set (t1 := with_charge t' (wl_size t') affected).
  assert (reads t t1) as Hr1.
  { destruct Hr as [[] ? [] ?]. split; [by split|done|by split|done]. }
  destruct (chunks_dedup sorted) as [Hc Hcat].
  eapply (wp_mono _ _ _ (λ _ _, False)); [| |done].
  - rewrite <-(rd_view _ _ Hr1). apply scatter_loop_spec; [by apply rd_coherent in Hr1|exact Hc|exact Hp].
  - intros vs t2 [-> Hr2]. rewrite Hcat, (rd_view _ _ Hr1). assert (reads t t2) as Hr3 by by etrans.
    split_and!; [done|done|]. intros Hf k [j Hj]%list_elem_of_lookup. apply (sm_protected _ _ (rd_same _ _ Hr2)).
    destruct (Hv j k Hj) as [[_ Hpk]|Hin].
    + apply (sm_protected _ _ (rd_same _ _ Hr1)). by apply Hpk.
    + apply Hp; [done|]. apply Hkeys. by eexists.
Qed.

(** *** Typed reads *)
Context (xxh3_128 : Z → list Z → Z) (sha256 : list Z → list Z).
Abbreviation decode_value := (Logical.decode_value xxh3_128 sha256).
Abbreviation decode_batch := (Logical.decode_batch xxh3_128 sha256).

(** The value a binding reads at a key of a view: the specification of every
    typed point read. *)
Definition typed_at (b : LogicalBinding) (v : store) (key : LogicalKey.t) : result (option PersistentValue.t) :=
  encode_input_key b key ≫= λ k, decode_value b key (v !! k).

Lemma decode_value_no_panic b types key value :
  binding_ok b types → (∀ bs, value = Some bs → bytes_ok bs) → no_panic (decode_value b key value).
Proof.
  intros Hb Hv. destruct value as [bs|]; [|done]. cbn [Logical.decode_value]. apply bind_no_panic; [|done].
  apply value_codec_no_panic; [by apply Hv|by eapply bound_manifest_ok].
Qed.
Lemma read_one_spec types for_update key t :
  coherent t → binding_ok (wl_binding t) types → key_typed key →
  wp (read_one xxh3_128 sha256 for_update key)
    (λ v t', typed_at (wl_binding t) (lt_view t) key = Ok v ∧ reads t t' ∧
       (for_update = true → ∀ k, encode_key key = Ok k → k ∈ lt_protected t'))
    (λ _ t', reads t t') t.
Proof.
  intros Hco Hb Hk. unfold read_one. apply wp_bind, wp_get. apply wp_bind, wp_lift;
    [by eapply encode_input_key_no_panic| |by intros; apply reads_refl].
  intros k He. eapply wp_step; [by apply get_raw_spec|done|]. intros value t' (-> & Hr & Hp). cbn beta.
  apply wp_lift; [| |done].
  - eapply decode_value_no_panic; [done|]. intros bs. apply (co_bytes t Hco).
  - intros v Hv. unfold typed_at. rewrite He. split_and!; [done..|]. intros Hf k' Hk'.
    eapply encode_input_key_ok in He as (_ & He & _); [|done..]. assert (k' = k) as -> by congruence. by apply Hp.
Qed.

Lemma decode_batch_ok b keys values vs :
  length keys = length values →
  decode_batch b keys values = Ok vs ↔
  Forall2 (λ kv v, decode_value b kv.1 kv.2 = Ok v) (zip keys values) vs.
Proof.
  intros Hl. unfold Logical.decode_batch. assert (len keys = len values) as -> by (unfold len; lia). rewrite Z.eqb_refl. cbn [negb].
  rewrite mapM_ok. split; intros Hf; (eapply Forall2_impl; [|exact Hf]; by intros [] ?).
Qed.
Lemma mapM_no_panic_Forall {A B} (f : A → result B) l : Forall (λ a, no_panic (f a)) l → no_panic (mapM f l).
Proof.
  induction 1 as [|a l Ha _ IH]; [done|]. cbn [mapM]. apply bind_no_panic; [done|]. intros b _. by apply bind_no_panic.
Qed.
Lemma read_batch_spec types for_update keys t :
  coherent t → binding_ok (wl_binding t) types → Forall key_typed keys →
  wp (read_batch xxh3_128 sha256 for_update keys)
    (λ vs t', Forall2 (λ key v, typed_at (wl_binding t) (lt_view t) key = Ok v) keys vs ∧ reads t t' ∧
       (for_update = true → ∀ key k, key ∈ keys → encode_key key = Ok k → k ∈ lt_protected t'))
    (λ _ t', reads t t') t.
Proof.
  intros Hco Hb Hks. unfold read_batch. apply wp_bind, wp_get. apply wp_bind, wp_lift; [|
    |by intros; apply reads_refl].
  { apply mapM_no_panic_Forall. eapply Forall_impl; [|exact Hks]. intros key Hk. by eapply encode_input_key_no_panic. }
  intros encoded He%mapM_ok. eapply wp_step; [by apply batch_get_raw_spec|done|]. intros values t' (-> & Hr & Hp). cbn beta.
  apply wp_lift; [| |done].
  - unfold Logical.decode_batch. case_match; [done|]. apply mapM_no_panic_Forall, Forall_forall. intros [key value] Hin.
    eapply decode_value_no_panic; [done|]. intros bs ->. apply list_elem_of_In, elem_of_zip_r in Hin.
    apply list_elem_of_fmap in Hin as (k & Hk & _). by eapply co_bytes.
  - intros vs Hvs. apply decode_batch_ok in Hvs; [|rewrite length_fmap; by eapply Forall2_length].
    split_and!; [|done|].
    + clear -He Hvs. unfold typed_at. revert vs Hvs. induction He as [|key k keys encoded Hk _ IH]; intros vs Hvs.
      { apply Forall2_nil_inv_l in Hvs as ->. constructor. }
      rewrite fmap_cons in Hvs. cbn [zip zip_with] in Hvs. apply Forall2_cons_inv_l in Hvs as (v & vs' & Hv & Hvs & ->).
      constructor; [|by apply IH]. by rewrite Hk.
    + intros Hf key k Hkey Hk. apply Hp; [done|]. apply list_elem_of_lookup in Hkey as [j Hj].
      destruct (Forall2_lookup_l _ _ _ _ _ He Hj) as (k' & Hk' & Hek).
      assert (k' = k) as ->; [|by eapply list_elem_of_lookup_2].
      eapply encode_input_key_ok in Hek as (_ & Hek & _); [congruence|done|]. by eapply Forall_lookup_1 in Hks.
Qed.

(** *** Mutations *)
Record wrote t t' (v : store) : Prop := {
  wr_coherent : coherent t';
  wr_view : lt_view t' = v;
  wr_same : same_txn t t';
}.
Lemma cache_write_fold l t :
  NoDup l.*1 →
  foldl (λ t '(key, value), cache_write key value t) t l
  = with_cache t (wl_read_cache (foldl (λ t '(key, value), cache_write key value t) t l)) ∧
  ∀ key entry, wl_read_cache (foldl (λ t '(key, value), cache_write key value t) t l) !! key = Some entry →
    match (list_to_map l : gmap (list Z) (option (list Z))) !! key with
    | Some value => rc_value entry = value ∧
        (rc_update_protected entry = true → ∃ e, wl_read_cache t !! key = Some e ∧ rc_update_protected e = true)
    | None => wl_read_cache t !! key = Some entry
    end.
Proof.
  revert t. induction l as [|[k v] l IH]; intros t Hnd; [by split; [destruct t|]|].
  apply list.NoDup_cons in Hnd as [Hnin Hnd]. cbn [foldl]. destruct (IH (cache_write k v t) Hnd) as [E Hc]. split; [exact E|].
  intros key entry He. specialize (Hc key entry He). rewrite list_to_map_cons. destruct (decide (k = key)) as [->|Hne].
  - rewrite not_elem_of_list_to_map_1 in Hc by done. rewrite lookup_insert_eq.
    cbn [cache_write with_cache wl_read_cache] in Hc. rewrite lookup_insert_eq in Hc. injection Hc as <-. split; [done|]. cbn.
    destruct (wl_read_cache t !! key) as [e|]; [|done]. intros Hp. by exists e.
  - rewrite lookup_insert_ne by done. cbn [cache_write with_cache wl_read_cache] in Hc.
    rewrite lookup_insert_ne in Hc by done. exact Hc.
Qed.
Definition entries_ok (entries : gmap (list Z) (option (list Z))) : Prop :=
  ∀ key value, entries !! key = Some value → bytes_ok key ∧ ∀ bytes, value = Some bytes → bytes_ok bytes.
Definition keys_within (limits : HardLimits) (entries : gmap (list Z) (option (list Z))) : Prop :=
  ∀ key value, entries !! key = Some value → len key ≤ hl_max_key_bytes limits.
Lemma write_entries_coherent t raw entries size affected :
  coherent t → entries_ok entries → keys_within (wl_hard_limits t) entries →
  view raw = apply_writes entries (lt_view t) → advances (wl_raw t) raw →
  wrote t (with_charge (foldl (λ t '(key, value), cache_write key value t) (with_raw t raw) (in_key_order entries)) size affected)
    (apply_writes entries (lt_view t)).
Proof.
  intros [Hr Hl Hk Hb Hc] He Hw Hv [Hp Hok]. destruct (cache_write_fold (in_key_order entries) (with_raw t raw) (in_key_order_nodup _)) as [-> Hcache].
  rewrite in_key_order_map in Hcache. split; [|exact Hv|by split]. split; [exact Hok|exact Hl|..].
  - intros key value. unfold lt_view at 1. cbn [with_charge with_cache with_raw wl_raw]. rewrite Hv, apply_writes_lookup.
    destruct (entries !! key) as [w|] eqn:E; [|by apply Hk]. intros _. split; [exact (proj1 (He _ _ E))|]. etrans; [by eapply Hw|done].
  - intros key value. unfold lt_view at 1. cbn [with_charge with_cache with_raw wl_raw]. rewrite Hv, apply_writes_lookup.
    destruct (entries !! key) as [[v|]|] eqn:E; [intros [= ->]; by apply (proj2 (He _ _ E))|done|by apply Hb].
  - intros key entry Hk'. specialize (Hcache key entry Hk'). unfold lt_view at 1, lt_protected.
    cbn [with_charge with_cache with_raw wl_raw]. rewrite Hv, apply_writes_lookup.
    destruct (entries !! key) as [v|].
    + destruct Hcache as [-> Hprot]. split; [done|]. intros (e & Hce & Hpe)%Hprot. apply Hp. by apply (Hc key e).
    + destruct (Hc key entry Hcache) as [-> Hprot]. split; [done|]. intros Hpe. apply Hp. by apply Hprot.
Qed.
Lemma limited_entry_limits limits entries : limited (entry_limits_loop limits entries).
Proof. induction entries as [|[k v] entries IH]; cbn [entry_limits_loop]; auto with limited. Qed.
Lemma limited_builder_affected mb : limited (builder_affected_bytes mb).
Proof. apply limited_within. Qed.
Hint Resolve limited_entry_limits limited_builder_affected : limited.
Lemma entry_limits_within limits entries u : entry_limits_loop limits (in_key_order entries) = Ok u → keys_within limits entries.
Proof.
  intros Hl key value E. apply elem_of_map_to_list in E. rewrite <-in_key_order_perm in E. induction (in_key_order entries) as [|[k v] l IH]; [by apply elem_of_nil in E|].
  cbn [entry_limits_loop] in Hl. apply bind_ok in Hl as (? & Hc & Hl). apply elem_of_cons in E as [[= -> ->]|E]; [|by apply IH].
  unfold check_hard_limits in Hc. destruct (Z.ltb_spec (hl_max_key_bytes limits) (len k)); [done|lia].
Qed.
Lemma apply_spec mb t :
  coherent t → entries_ok (mb_entries mb) →
  wp (apply mb)
    (λ _ t', wrote t t' (apply_writes (mb_entries mb) (lt_view t)) ∧
       (mb_entries mb = ∅ ∧ t' = t ∨
        wl_size t' = mkSize (ts_mutations (wl_size t) + ts_mutations (mb_size mb)) (ts_bytes (wl_size t) + ts_bytes (mb_size mb)) ∧
        check_budget (wl_budget t) (wl_size t') = Ok tt)) (λ _ t', same_txn t t') t.
Proof.
  intros Hco He. unfold apply. apply wp_bind, wp_get. case_match.
  { apply wp_lift; [done..|]. by intros _ _. }
  case_decide as Hempty.
  { apply wp_ret. rewrite Hempty, apply_writes_empty. split; [by split|by left]. }
  limit_step u Hl. limit_step next Hnext. limit_step u' Hbud. limit_step affected Ha. limit_step charged Ht.
  eapply wp_step.
  - apply on_raw_wp, wo_batch_mutate_law, (co_raw t Hco).
  - intros e t' (raw & [Hp _] & ->). by split.
  - intros [] t' (raw & [Hv Had] & ->). apply wp_modify. rewrite mutations_in_order in Hv.
    split; [apply write_entries_coherent; try done; by eapply entry_limits_within|]. right. apply size_add_ok in Hnext as (-> & _). cbn [with_charge wl_size].
    split; [done|]. by destruct u'.
Qed.

(** A typed point mutation, and the bytes it stands for. *)
Abbreviation typed_mutation := (LogicalKey.t * option PersistentValue.t)%type.
Definition mutation_typed (b : LogicalBinding) (m : typed_mutation) : Prop :=
  key_typed m.1 ∧ ∀ v, m.2 = Some v → value_ok xxh3_128 sha256 (lb_manifest b) v.
Definition encodes_to (b : LogicalBinding) (m : typed_mutation) (e : list Z * option (list Z)) : Prop :=
  encode_input_key b m.1 = Ok e.1 ∧
  match m.2, e.2 with
  | Some v, Some bytes => codec_encode_for_key xxh3_128 sha256 b m.1 v = Ok bytes ∧ bytes_ok bytes
  | None, None => True
  | _, _ => False
  end.
Definition build_one (m : typed_mutation) : M MutationBuilder unit :=
  match m.2 with Some v => builder_put xxh3_128 sha256 m.1 v | None => builder_delete m.1 end.
Fixpoint build (ms : list typed_mutation) : M MutationBuilder unit :=
  match ms with
  | [] => m_ret tt
  | m :: ms => let! _ := build_one m in build ms
  end.
Definition set_all (es : list (list Z * option (list Z))) (v : store) : store :=
  foldl (λ d '(k, e), set_key k e d) v es.

Lemma build_one_spec types m mb :
  binding_ok (mb_binding mb) types → builder_ok mb → mutation_typed (mb_binding mb) m →
  wp (build_one m)
    (λ _ mb', ∃ e, encodes_to (mb_binding mb) m e ∧ builder_ok mb' ∧ same_builder mb mb' ∧
       mb_entries mb' = <[e.1 := e.2]> (mb_entries mb)) (λ _ mb', mb' = mb) mb.
Proof.
  intros Hb Hmb [Hk Hv]. destruct m as [key [v|]]; cbn [fst snd build_one] in *; unfold build_one; cbn [fst snd].
  - unfold builder_put. apply wp_bind, wp_get. apply wp_bind, wp_lift; [by eapply encode_input_key_no_panic| |done].
    intros k Hke. apply wp_bind, wp_lift; [| |done].
    { unfold codec_encode_for_key. by destruct (encode_value_total xxh3_128 sha256 (lb_manifest (mb_binding mb)) key v
        (bound_manifest_ok _ _ Hb) (Hv v eq_refl)) as [(bs & -> & _)| ->]. }
    intros bs Hbs. eapply wp_mono; [by apply builder_queue_spec| |by intros e mb' [-> _]].
    intros [] mb' (? & ? & ->). exists (k, Some bs). split_and!; [split; [done|]|done..]. split; [done|].
    destruct (encode_value_total xxh3_128 sha256 (lb_manifest (mb_binding mb)) key v (bound_manifest_ok _ _ Hb) (Hv v eq_refl))
      as [(bs' & E & ?)|E]; unfold codec_encode_for_key in Hbs; [|congruence]. by assert (bs' = bs) as <- by congruence.
  - unfold builder_delete. apply wp_bind, wp_get. apply wp_bind, wp_lift; [by eapply encode_input_key_no_panic| |done].
    intros k Hke. eapply wp_mono; [by apply builder_queue_spec| |by intros e mb' [-> _]].
    intros [] mb' (? & ? & ->). by exists (k, None).
Qed.
Lemma encodes_bytes b types m e :
  binding_ok b types → mutation_typed b m → encodes_to b m e → bytes_ok e.1 ∧ ∀ bytes, e.2 = Some bytes → bytes_ok bytes.
Proof.
  intros Hb [Hk _] [He Hv]. split; [by eapply encode_input_key_bytes|]. intros bytes E. rewrite E in Hv. destruct (m.2); [by destruct Hv|done].
Qed.
Lemma build_spec types ms mb :
  binding_ok (mb_binding mb) types → builder_ok mb → entries_ok (mb_entries mb) →
  Forall (mutation_typed (mb_binding mb)) ms →
  wp (build ms)
    (λ _ mb', ∃ es, Forall2 (encodes_to (mb_binding mb)) ms es ∧ builder_ok mb' ∧ entries_ok (mb_entries mb') ∧
       same_builder mb mb' ∧ ∀ v, apply_writes (mb_entries mb') v = set_all es (apply_writes (mb_entries mb) v))
    (λ _ _, True) mb.
Proof.
  intros Hb Hmb He Hms. revert mb Hb Hmb He Hms. induction ms as [|m ms IH]; intros mb Hb Hmb He Hms; cbn [build].
  { apply wp_ret. by exists []. }
  apply Forall_cons_iff in Hms as [Hm Hms]. eapply wp_step; [by eapply build_one_spec|done|].
  intros [] mb1 (e & Hen & Hmb1 & Hsame & Hent). pose proof Hsame as (Hbind & Hlim & Hbud).
  eapply wp_mono; [apply IH; rewrite ?Hbind; try done| |done].
  - rewrite Hent. intros key value [[<- <-]|[_ Hk]]%lookup_insert_Some; [|by eapply He]. by eapply encodes_bytes.
  - intros [] mb2 (es & Hes & Hmb2 & He2 & (Hb2 & Hl2 & Hbu2) & Hap). exists (e :: es). split_and!; try done.
    + constructor; [done|]. by rewrite <-Hbind.
    + split_and!; congruence.
    + intros v. rewrite Hap. destruct e as [k w]. cbn [fst snd] in *. cbn [set_all foldl]. by rewrite Hent, apply_writes_set.
Qed.

(** The typed effect of a transaction's mutations. *)
Definition mutate (ms : list typed_mutation) : M (WriteLogicalTxn T) unit := build_and_apply (build ms).
Lemma mutate_spec types ms t :
  coherent t → binding_ok (wl_binding t) types → Forall (mutation_typed (wl_binding t)) ms →
  wp (mutate ms)
    (λ _ t', ∃ es, Forall2 (encodes_to (wl_binding t)) ms es ∧ wrote t t' (set_all es (lt_view t)))
    (λ _ t', same_txn t t') t.
Proof.
  intros Hco Hb Hms. unfold mutate, build_and_apply. apply wp_bind, wp_get.
  pose proof (build_spec types ms (mutations t) Hb (builder_new_ok _ _ _)) as Hbuild. unfold wp in Hbuild.
  destruct (build ms (mutations t)) as [mb [[]|e|]].
  - destruct Hbuild as (es & Hes & _ & He & _ & Hap); [by intros ?|done|].
    eapply wp_mono; [by apply apply_spec| |done]. intros [] t' [Hw _]. exists es. split; [done|].
    rewrite Hap in Hw. cbn in Hw. by rewrite apply_writes_empty in Hw.
  - by apply wp_lift.
  - destruct Hbuild; [by intros ?|done].
Qed.
Lemma put_mutate key value t : put xxh3_128 sha256 key value t = mutate [(key, Some value)] t.
Proof.
  unfold put, mutate, build_and_apply, m_bind, m_get. cbn [build build_one fst snd]. unfold m_bind, m_ret, build_one. cbn [fst snd].
  by destruct (builder_put _ _ key value (mutations t)) as [mb [[]|e|]].
Qed.
Lemma delete_mutate key t : delete_key key t = mutate [(key, None)] t.
Proof.
  unfold delete_key, mutate, build_and_apply, m_bind, m_get. cbn [build build_one fst snd]. unfold m_bind, m_ret, build_one. cbn [fst snd].
  by destruct (builder_delete key (mutations t)) as [mb [[]|e|]].
Qed.
Lemma wrote_reads t t1 t2 v : reads t t1 → wrote t1 t2 v → wrote t t2 v.
Proof. intros [] []. split; [done..|by etrans]. Qed.
Lemma insert_coherent t raw key value size affected :
  coherent t → bytes_ok value → bytes_ok key → len key ≤ hl_max_key_bytes (wl_hard_limits t) →
  view raw = <[key := value]> (lt_view t) → advances (wl_raw t) raw →
  wrote t (cache_write key (Some value) (with_charge (with_raw t raw) size affected)) (<[key := value]> (lt_view t)).
Proof.
  intros [Hr Hl Hk' Hb Hc] He Hkb Hkl Hv [Hp Hok]. split; [|exact Hv|by split]. split; [exact Hok|exact Hl|..].
  - intros k v. unfold lt_view at 1. cbn [cache_write with_charge with_cache with_raw wl_raw]. rewrite Hv.
    intros [[<- <-]|[_ Hk]]%lookup_insert_Some; [split; [done|by etrans]|by eapply Hk'].
  - intros k v. unfold lt_view at 1. cbn [cache_write with_charge with_cache with_raw wl_raw]. rewrite Hv.
    intros [[<- <-]|[_ Hk]]%lookup_insert_Some; [done|by eapply Hb].
  - intros k entry. unfold lt_view at 1, lt_protected. cbn [cache_write with_charge with_cache with_raw wl_raw wl_read_cache].
    rewrite Hv. intros [[<- <-]|[Hne Hk]]%lookup_insert_Some.
    + rewrite lookup_insert_eq. split; [done|]. cbn. destruct (wl_read_cache t !! key) as [e|] eqn:Ee; [|done].
      intros Hpe. apply Hp. by apply (Hc key e).
    + rewrite lookup_insert_ne by done. destruct (Hc k entry Hk) as [-> Hprot]. split; [done|]. intros. by apply Hp, Hprot.
Qed.
Lemma insert_spec types key value t :
  coherent t → binding_ok (wl_binding t) types → mutation_typed (wl_binding t) (key, Some value) →
  wp (insert xxh3_128 sha256 key value)
    (λ o t', (∀ k, encode_key key = Ok k → k ∈ lt_protected t') ∧
       match o with
       | InsertOutcome.Inserted => typed_at (wl_binding t) (lt_view t) key = Ok None ∧
           ∃ e, encodes_to (wl_binding t) (key, Some value) e ∧ wrote t t' (set_key e.1 e.2 (lt_view t))
       | InsertOutcome.AlreadyExists => ∃ v, typed_at (wl_binding t) (lt_view t) key = Ok (Some v) ∧ reads t t'
       end) (λ _ t', same_txn t t') t.
Proof.
  intros Hco Hb [Hk Hv]. cbn [fst snd] in *. unfold insert. apply wp_bind, wp_get.
  apply wp_bind, wp_lift; [by eapply encode_input_key_no_panic| |done]. intros k Hke.
  pose proof (encode_value_total xxh3_128 sha256 (lb_manifest (wl_binding t)) key value (bound_manifest_ok _ _ Hb) (Hv value eq_refl)) as Hen.
  apply wp_bind, wp_lift; [unfold codec_encode_for_key; by destruct Hen as [(? & -> & _)| ->]| |done]. intros bs Hbs.
  assert (bytes_ok bs) as Hbok.
  { unfold codec_encode_for_key in Hbs. destruct Hen as [(? & E & ?)|E]; congruence. }
  limit_step u Hl. limit_step sz Hsize.
  eapply wp_step; [by apply get_raw_spec|by intros e t' [_ _ ? _]|]. intros existing t1 (-> & Hr & Hp). specialize (Hp eq_refl).
  assert (∀ k', encode_key key = Ok k' → k' = k) as Hkk.
  { intros k' Hk'. eapply encode_input_key_ok in Hke as (_ & Hke & _); [congruence|done..]. }
  destruct (lt_view t !! k) as [old|] eqn:Eold.
  - apply wp_bind, wp_lift; [| |by intros; apply rd_same in Hr].
    + apply value_codec_no_panic; [by eapply co_bytes|by eapply bound_manifest_ok].
    + intros v Hd. apply wp_ret. split; [by intros k' ->%Hkk|]. exists v. split; [|done]. unfold typed_at. rewrite Hke.
      cbn [mbind result_bind]. rewrite Eold. cbn [Logical.decode_value]. by rewrite Hd.
  - apply wp_bind, wp_get. pose proof (rd_same _ _ Hr) as Hsame.
    limit_step next Hnext. limit_step u' Hbud. limit_step kb Hkb. limit_step nb Hnb. limit_step na Hna.
    pose proof (rd_coherent _ _ Hr) as Hco1.
    eapply wp_step; [apply on_raw_wp, wo_insert_law, (co_raw t1 Hco1)| |].
    + intros e t2 (raw & [Hprot _] & ->). etrans; [exact Hsame|by split].
    + intros o t2 (raw & [[Hprot Hok] Ho] & ->). destruct o.
      * rewrite decide_True by done. apply wp_bind, wp_modify, wp_ret. destruct Ho as [_ Hview].
        assert (lt_view t1 = lt_view t) as Ev by by apply rd_view in Hr.
        split; [intros k' ->%Hkk; by apply Hprot|]. split; [unfold typed_at; rewrite Hke; cbn; by rewrite Eold|].
        exists (k, Some bs). split; [by split|]. cbn [set_key fst snd]. eapply wrote_reads; [exact Hr|].
        rewrite <-Ev. apply insert_coherent; try done; [by eapply encode_input_key_bytes|].
        rewrite (sm_limits _ _ Hsame). unfold check_hard_limits in Hl. destruct (Z.ltb_spec (hl_max_key_bytes (wl_hard_limits t)) (len k)); [done|lia].
      * destruct Ho as [Hsome _]. change (view (wl_raw t1)) with (lt_view t1) in Hsome. rewrite (rd_view _ _ Hr), Eold in Hsome.
        by destruct Hsome.
Qed.
Lemma clear_range_spec range t :
  coherent t →
  wp (clear_range range)
    (λ _ t', wrote t t' (filter (λ kv, ¬ in_key_range (lr_raw range) kv.1) (lt_view t))) (λ _ t', same_txn t t') t.
Proof.
  intros Hco. unfold clear_range. apply wp_bind, wp_get. apply wp_bind, wp_lift; [| |done].
  { unfold validate_range. by repeat case_match. }
  intros u _. limit_step nb Hbytes. limit_step next Hnext. limit_step u' Hbud. limit_step oh Hoh. limit_step af Haf. limit_step na Hna.
  eapply wp_step; [apply on_raw_wp, wo_clear_range_law, (co_raw t Hco)| |].
  - intros e t2 (raw & [Hprot _] & ->). by split.
  - intros [] t2 (raw & [Hv [Hprot Hok]] & ->). apply wp_modify. split; [|exact Hv|by split]. split; [exact Hok|apply (co_limits t Hco)|..].
    + intros k v. unfold lt_view at 1. cbn [with_charge with_cache with_raw wl_raw]. rewrite Hv.
      intros [Hk _]%map_lookup_filter_Some. by eapply (co_keys t Hco).
    + intros k v. unfold lt_view at 1. cbn [with_charge with_cache with_raw wl_raw]. rewrite Hv.
      intros [Hk _]%map_lookup_filter_Some. by eapply (co_bytes t Hco).
    + intros k e. cbn [with_charge with_cache wl_read_cache]. by rewrite lookup_empty.
Qed.

(** ** Transactions as typed maps *)
Definition typed_map : Type := LogicalKey.t → result (option PersistentValue.t).
Definition same_map (f g : typed_map) : Prop := ∀ key, key_typed key → f key = g key.
Definition set_typed (f : typed_map) (m : typed_mutation) : typed_map := λ key,
  if decide (key = m.1) then Ok m.2 else f key.

Lemma typed_at_set b types m e v :
  binding_ok b types → mutation_typed b m → encodes_to b m e →
  same_map (typed_at b (set_key e.1 e.2 v)) (set_typed (typed_at b v) m).
Proof.
  intros Hb [Hk Hv] [He Hval] key Hkey. unfold typed_at, set_typed. destruct m as [mk mv], e as [k w]. cbn [fst snd] in *.
  case_decide as E.
  - subst mk. rewrite He. cbn [mbind result_bind]. rewrite set_key_lookup, decide_True by done.
    destruct mv as [mv|], w as [bs|]; try done. destruct Hval as [Hen Hbs]. cbn [Logical.decode_value]. unfold codec_decode.
    rewrite (proj2 (value_codec_decodes xxh3_128 sha256 (lb_manifest b) key bs mv Hbs (bound_manifest_ok _ _ Hb))); [done|].
    split; [by apply Hv|done].
  - destruct (encode_input_key b key) as [k'| |] eqn:Ek; [|done..]. cbn [mbind result_bind].
    rewrite set_key_lookup, decide_False; [done|]. intros ->. by eapply E, encode_input_key_inj.
Qed.
Lemma typed_at_set_all b types ms es v :
  binding_ok b types → Forall (mutation_typed b) ms → Forall2 (encodes_to b) ms es →
  same_map (typed_at b (set_all es v)) (foldl set_typed (typed_at b v) ms).
Proof.
  intros Hb Hms He. revert v Hms. induction He as [|m [k w] ms es Hm _ IH]; intros v Hms; [done|].
  apply Forall_cons_iff in Hms as [Hmt Hms]. intros key Hkey.
  change (typed_at b (set_all es (set_key k w v)) key = foldl set_typed (set_typed (typed_at b v) m) ms key). rewrite (IH (set_key k w v) Hms key Hkey).
  pose proof (typed_at_set b types m (k, w) v Hb Hmt Hm) as Hset. clear -Hset Hkey. cbn [fst snd] in Hset.
  assert (∀ f g, same_map f g → same_map (foldl set_typed f ms) (foldl set_typed g ms)) as Hext; [|by apply Hext].
  induction ms as [|m' ms IH]; [done|]. intros f g Hfg. cbn [foldl]. apply IH. intros k' Hk'. unfold set_typed. by case_decide; auto.
Qed.

(** *** Programs of typed operations *)
Inductive typed_op :=
  | OpGet (for_update : bool) (key : LogicalKey.t)
  | OpBatchGet (for_update : bool) (keys : list LogicalKey.t)
  | OpMutate (ms : list typed_mutation)
  | OpInsert (key : LogicalKey.t) (value : PersistentValue.t).
Inductive typed_out :=
  | OutValue (v : option PersistentValue.t)
  | OutValues (vs : list (option PersistentValue.t))
  | OutDone
  | OutInsert (o : InsertOutcome.t).
Definition run_typed (op : typed_op) : M (WriteLogicalTxn T) typed_out :=
  match op with
  | OpGet for_update key => let! v := read_one xxh3_128 sha256 for_update key in m_ret (OutValue v)
  | OpBatchGet for_update keys => let! vs := read_batch xxh3_128 sha256 for_update keys in m_ret (OutValues vs)
  | OpMutate ms => let! _ := mutate ms in m_ret OutDone
  | OpInsert key value => let! o := insert xxh3_128 sha256 key value in m_ret (OutInsert o)
  end.
Fixpoint run_program (ops : list typed_op) : M (WriteLogicalTxn T) (list typed_out) :=
  match ops with
  | [] => m_ret []
  | op :: ops => let! o := run_typed op in let! os := run_program ops in m_ret (o :: os)
  end.
Definition op_typed (b : LogicalBinding) (op : typed_op) : Prop :=
  match op with
  | OpGet _ key => key_typed key
  | OpBatchGet _ keys => Forall key_typed keys
  | OpMutate ms => Forall (mutation_typed b) ms
  | OpInsert key value => mutation_typed b (key, Some value)
  end.
(** One operation on a map without a cache: the reference semantics. *)
Definition map_step (f : typed_map) (op : typed_op) (o : typed_out) (g : typed_map) : Prop :=
  match op, o with
  | OpGet _ key, OutValue v => f key = Ok v ∧ same_map g f
  | OpBatchGet _ keys, OutValues vs => Forall2 (λ key v, f key = Ok v) keys vs ∧ same_map g f
  | OpMutate ms, OutDone => same_map g (foldl set_typed f ms)
  | OpInsert key value, OutInsert InsertOutcome.Inserted => f key = Ok None ∧ same_map g (set_typed f (key, Some value))
  | OpInsert key value, OutInsert InsertOutcome.AlreadyExists => (∃ v, f key = Ok (Some v)) ∧ same_map g f
  | _, _ => False
  end.
Inductive map_run : typed_map → list typed_op → list typed_out → typed_map → Prop :=
  | map_run_nil f g : same_map g f → map_run f [] [] g
  | map_run_cons f op o g ops os h : map_step f op o g → map_run g ops os h → map_run f (op :: ops) (o :: os) h.
(** The keys an operation must have protected. *)
Definition must_protect (op : typed_op) : list LogicalKey.t :=
  match op with
  | OpGet true key => [key]
  | OpBatchGet true keys => keys
  | OpInsert key _ => [key]
  | _ => []
  end.
Definition protects (op : typed_op) t : Prop :=
  ∀ key k, key ∈ must_protect op → encode_key key = Ok k → k ∈ lt_protected t.

Lemma run_typed_spec types op t :
  coherent t → binding_ok (wl_binding t) types → op_typed (wl_binding t) op →
  wp (run_typed op)
    (λ o t', coherent t' ∧ same_txn t t' ∧ protects op t' ∧
       map_step (typed_at (wl_binding t) (lt_view t)) op o (typed_at (wl_binding t) (lt_view t')))
    (λ _ t', same_txn t t') t.
Proof.
  intros Hco Hb Hop. unfold protects.
  destruct op as [fu key|fu keys|ms|key value]; cbn [op_typed run_typed must_protect] in *.
  - eapply wp_step; [by eapply read_one_spec|by intros e t' [_ _ ? _]|]. intros v t' (Hv & [Hco' Ev Hs _] & Hp). apply wp_ret.
    split_and!; [done..| |]; [|cbn; split; [done|by rewrite Ev]]. intros key' k Hin Hk. destruct fu; [|by apply elem_of_nil in Hin].
    apply list_elem_of_singleton in Hin as ->. by apply Hp.
  - eapply wp_step; [by eapply read_batch_spec|by intros e t' [_ _ ? _]|]. intros v t' (Hv & [Hco' Ev Hs _] & Hp). apply wp_ret.
    split_and!; [done..| |]; [|cbn; split; [done|by rewrite Ev]]. intros key' k Hin Hk. destruct fu; [|by apply elem_of_nil in Hin].
    by eapply Hp.
  - eapply wp_step; [by eapply mutate_spec|done|]. intros [] t' (es & Hes & [Hco' Ev Hs]). apply wp_ret.
    split_and!; [done..| |]; [by intros ? ? ?%elem_of_nil|]. cbn. rewrite Ev. by eapply typed_at_set_all.
  - eapply wp_step; [by eapply insert_spec|done|]. intros o t' (Hp & Ho). apply wp_ret. cbn [map_step]. destruct o.
    + destruct Ho as (Hnone & e & He & [Hco' Ev Hs]). split_and!; [done..| |done|].
      { intros key' k ->%list_elem_of_singleton Hk. by apply Hp. }
      rewrite Ev. by eapply typed_at_set.
    + destruct Ho as (v & Hv & [Hco' Ev Hs _]). split_and!; [done..| |by eexists|by rewrite Ev].
      intros key' k ->%list_elem_of_singleton Hk. by apply Hp.
Qed.
Lemma run_program_spec types ops t :
  coherent t → binding_ok (wl_binding t) types → Forall (op_typed (wl_binding t)) ops →
  wp (run_program ops)
    (λ os t', coherent t' ∧ same_txn t t' ∧ Forall (λ op, protects op t') ops ∧
       map_run (typed_at (wl_binding t) (lt_view t)) ops os (typed_at (wl_binding t) (lt_view t')))
    (λ _ t', same_txn t t') t.
Proof.
  revert t. induction ops as [|op ops IH]; intros t Hco Hb Hops; cbn [run_program].
  { apply wp_ret. split_and!; [done|done|by constructor|by constructor]. }
  apply Forall_cons_iff in Hops as [Hop Hops]. eapply wp_step; [by eapply run_typed_spec|done|].
  intros o t1 (Hco1 & Hs1 & Hp1 & Hm1). pose proof (sm_binding _ _ Hs1) as Eb. eapply wp_step.
  - apply IH; [done|by rewrite Eb|]. by rewrite Eb.
  - intros e t2 Hs2. by etrans.
  - intros os t2 (Hco2 & Hs2 & Hp2 & Hm2). apply wp_ret. rewrite Eb in Hm2. split_and!; [done|by etrans| |by econstructor].
    constructor; [|done]. intros key k Hin Hk. apply (sm_protected _ _ Hs2). by eapply Hp1.
Qed.
End write_txn.

(** ** Typed steps, for the operations built on transactions *)
Section typed_steps.
Context {T : Type} `{WriteLaws T} (xxh3_128 : Z → list Z → Z) (sha256 : list Z → list Z).
Implicit Types t : WriteLogicalTxn T.
Abbreviation value_ok := (Codec.value_ok xxh3_128 sha256).

Definition typed_view t : typed_map := typed_at xxh3_128 sha256 (wl_binding t) (lt_view t).
Record ready t (types : list DataType.t) : Prop := { rdy_coherent : coherent t; rdy_binding : binding_ok (wl_binding t) types }.
(** A step that turns the typed view into [g], and a step that reads it. *)
Record typed_wrote t t' (g : typed_map) : Prop := {
  tw_coherent : coherent t'; tw_same : same_txn t t'; tw_view : same_map (typed_view t') g
}.
Definition key_protected (key : LogicalKey.t) t : Prop := ∀ k, encode_key key = Ok k → k ∈ lt_protected t.

#[export] Instance same_map_refl : Reflexive same_map.
Proof. by intros f key _. Qed.
#[export] Instance same_map_sym : Symmetric same_map.
Proof. intros f g Hfg key Hk. by rewrite Hfg. Qed.
#[export] Instance same_map_trans : Transitive same_map.
Proof. intros f g h Hfg Hgh key Hk. by rewrite Hfg, Hgh. Qed.
#[export] Instance set_typed_proper : Proper (same_map ==> (=) ==> same_map) set_typed.
Proof. intros f g Hfg m _ <- key Hk. unfold set_typed. case_decide; auto. Qed.
#[export] Instance set_typed_fold_proper : Proper (same_map ==> (=) ==> same_map) (foldl set_typed).
Proof.
  intros f g Hfg ms _ <-. revert f g Hfg. induction ms as [|m ms IH]; intros f g Hfg; [done|]. cbn [foldl].
  apply IH. by rewrite Hfg.
Qed.

Lemma reads_typed t t' : reads t t' → same_map (typed_view t') (typed_view t).
Proof. intros [_ Ev [Eb _ _ _] _] key _. unfold typed_view. by rewrite Ev, Eb. Qed.
Lemma reads_ready t t' types : ready t types → reads t t' → ready t' types.
Proof. intros [_ Hb] [Hc _ [Eb _ _ _] _]. split; [done|by rewrite Eb]. Qed.
Lemma wrote_ready t t' types g : ready t types → typed_wrote t t' g → ready t' types.
Proof. intros [_ Hb] [Hc [Eb _ _ _] _]. split; [done|by rewrite Eb]. Qed.
Lemma reads_wrote t t1 t2 g : reads t t1 → typed_wrote t1 t2 g → typed_wrote t t2 g.
Proof. intros [] []. split; [done|by etrans|done]. Qed.
Lemma key_protected_mono key t t' : same_txn t t' → key_protected key t → key_protected key t'.
Proof. intros [_ _ _ Hp] Hk k E. by apply Hp, Hk. Qed.

(** What a typed read returns is well formed and belongs at its key. *)
Lemma typed_view_value t types key v :
  ready t types → typed_view t key = Ok (Some v) →
  value_ok (lb_manifest (wl_binding t)) v ∧ PersistentValue_kind v = value_kind_for_key key ∧
  validate_key_identity key v (lb_manifest (wl_binding t)) = Ok tt.
Proof.
  intros [Hco Hb] Hv. unfold typed_view, typed_at in Hv. apply bind_ok in Hv as (k & Hk & Hv).
  destruct (lt_view t !! k) as [bs|] eqn:Eb; [|done]. cbn [decode_value] in Hv. apply bind_ok in Hv as (v' & Hd & Hv).
  apply Ok_inj in Hv as [= ->]. apply value_codec_decodes in Hd as [Hok He]; [|by eapply co_bytes|by eapply bound_manifest_ok].
  apply encode_for_key_ok in He as (? & ? & _). done.
Qed.
Lemma typed_get_spec types for_update key t :
  ready t types → key_typed key →
  wp (read_one xxh3_128 sha256 for_update key)
    (λ v t', typed_view t key = Ok v ∧ reads t t' ∧ (for_update = true → key_protected key t')) (λ _ t', reads t t') t.
Proof. intros [Hco Hb] Hk. by eapply read_one_spec. Qed.
Lemma typed_mutate_spec types ms t :
  ready t types → Forall (mutation_typed xxh3_128 sha256 (wl_binding t)) ms →
  wp (mutate xxh3_128 sha256 ms) (λ _ t', typed_wrote t t' (foldl set_typed (typed_view t) ms)) (λ _ t', same_txn t t') t.
Proof.
  intros [Hco Hb] Hms. eapply wp_mono; [by eapply mutate_spec| |done]. intros [] t' (es & Hes & [Hc Ev Hs]).
  split; [done..|]. unfold typed_view. rewrite Ev, (sm_binding _ _ Hs). by eapply typed_at_set_all.
Qed.
Lemma typed_put_spec types key value t :
  ready t types → mutation_typed xxh3_128 sha256 (wl_binding t) (key, Some value) →
  wp (put xxh3_128 sha256 key value) (λ _ t', typed_wrote t t' (set_typed (typed_view t) (key, Some value)))
    (λ _ t', same_txn t t') t.
Proof.
  intros Hr Hm. unfold wp. rewrite put_mutate. apply (typed_mutate_spec types [(key, Some value)]); [done|]. by constructor.
Qed.
Lemma typed_insert_spec types key value t :
  ready t types → mutation_typed xxh3_128 sha256 (wl_binding t) (key, Some value) →
  wp (insert xxh3_128 sha256 key value)
    (λ o t', key_protected key t' ∧
       match o with
       | InsertOutcome.Inserted => typed_view t key = Ok None ∧ typed_wrote t t' (set_typed (typed_view t) (key, Some value))
       | InsertOutcome.AlreadyExists => (∃ v, typed_view t key = Ok (Some v)) ∧ reads t t'
       end) (λ _ t', same_txn t t') t.
Proof.
  intros [Hco Hb] Hm. eapply wp_mono; [by eapply insert_spec| |done]. intros o t' (Hp & Ho). split; [done|]. destruct o.
  - destruct Ho as (Hn & e & He & [Hc Ev Hs]). split; [done|]. split; [done..|]. unfold typed_view.
    rewrite Ev, (sm_binding _ _ Hs). by eapply typed_at_set.
  - destruct Ho as (v & Hv & Hr). split; [by eexists|done].
Qed.
End typed_steps.

(** C20: A cached write transaction refines a plain typed map, over any backend
    that meets its contract: every sequence of typed reads (single, batched,
    update-protected), mutation batches and inserts that succeeds returns what
    the same sequence returns on the map of decoded values, own writes included,
    although repeated reads never reach the backend; the map afterwards is the
    decoded view; every key read for update or inserted is protected by a native
    conflict; and no sequence panics. *)
Theorem cached_txn_refines_map {T} `{WriteLaws T} xxh3_128 sha256 types ops (t t' : WriteLogicalTxn T) r :
  coherent t → binding_ok (wl_binding t) types → Forall (op_typed xxh3_128 sha256 (wl_binding t)) ops →
  run_program xxh3_128 sha256 ops t = (t', r) →
  no_panic r ∧
  ∀ os, r = Ok os →
    coherent t' ∧ Forall (λ op, protects op t') ops ∧
    map_run (typed_at xxh3_128 sha256 (wl_binding t) (lt_view t)) ops os
      (typed_at xxh3_128 sha256 (wl_binding t) (lt_view t')).
Proof.
  intros Hco Hb Hops Hrun. pose proof (run_program_spec xxh3_128 sha256 types ops t Hco Hb Hops) as Hw.
  unfold wp in Hw. rewrite Hrun in Hw. destruct r as [os|e|]; [|by split|done]. split; [done|].
  intros os' [= <-]. destruct Hw as (? & _ & ? & ?). done.
Qed.

Lemma in_key_order_strict {A} (m : gmap (list Z) A) : StronglySorted lex_lt (in_key_order m).*1.
Proof.
  assert (StronglySorted fst_le (in_key_order m)) as Hs.
  { apply StronglySorted_merge_sort.
    - intros a b c. unfold fst_le. by etrans.
    - intros a b. unfold fst_le. apply (total lex_le). }
  pose proof (in_key_order_nodup m) as Hnd. induction Hs as [|[k v] l _ IH Hall]; [constructor|].
  rewrite fmap_cons in *. apply list.NoDup_cons in Hnd as [Hnin Hnd]. constructor; [auto|].
  apply Forall_fmap. eapply Forall_impl; [|apply Forall_forall; intros y Hy; exact (conj Hy (proj1 (Forall_forall _ _) Hall y Hy))].
  intros [k' v'] [Hin Hle]. cbn. unfold fst_le in Hle. cbn in Hle. apply lex_le_lt_eq in Hle as [|E]; [done|]. destruct Hnin. cbn. rewrite E.
  apply list_elem_of_fmap. exists (k', v'). split; [done|]. by apply list_elem_of_In.
Qed.

(** C22: The mutation builder coalesces exactly: queueing any sequence of typed
    puts and deletes yields mutations in strictly increasing key order whose
    effect is that of the sequence one by one, charges exactly the number and
    bytes of the final mutations, stays within the budget and the hard limits,
    and a rejected mutation leaves the builder as it was. *)
Theorem mutation_builder_exact xxh3_128 sha256 types ms mb :
  binding_ok (mb_binding mb) types → builder_ok mb → entries_ok (mb_entries mb) →
  Forall (mutation_typed xxh3_128 sha256 (mb_binding mb)) ms →
  (∀ m mb' e, m ∈ ms → build_one xxh3_128 sha256 m mb = (mb', Err e) → mb' = mb) ∧
  match build xxh3_128 sha256 ms mb with
  | (mb', Ok _) =>
      builder_ok mb' ∧
      StronglySorted lex_lt (fst ∘ mutation_parts <$> into_backend_mutations mb') ∧
      ∃ es, Forall2 (encodes_to xxh3_128 sha256 (mb_binding mb)) ms es ∧
        ∀ v, apply_mutations (into_backend_mutations mb') v = set_all es (apply_mutations (into_backend_mutations mb) v)
  | (_, Err _) => True
  | (_, Panic) => False
  end.
Proof.
  intros Hb Hmb He Hms. split.
  - intros m mb' e Hin Hm. eapply Forall_forall in Hms; [|by apply list_elem_of_In].
    exact (wp_err _ _ _ _ _ _ (build_one_spec xxh3_128 sha256 types m mb Hb Hmb Hms) Hm).
  - pose proof (build_spec xxh3_128 sha256 types ms mb Hb Hmb He Hms) as Hw. unfold wp in Hw.
    destruct (build xxh3_128 sha256 ms mb) as [mb' [[]|e|]]; [|done..].
    destruct Hw as (es & Hes & Hmb' & _ & _ & Hap). split; [done|]. split.
    + unfold into_backend_mutations. rewrite <-list_fmap_compose.
      replace (_ <$> in_key_order (mb_entries mb')) with (in_key_order (mb_entries mb')).*1; [apply in_key_order_strict|].
      apply list_fmap_ext. by intros ? [k [v|]].
    + exists es. split; [done|]. intros v. by rewrite !mutations_in_order.
Qed.

(** ** Closed record reads *)
Section record_groups.
Context {T : Type} `{ReadLaws T} (xxh3_128 : Z → list Z → Z) (sha256 : list Z → list Z).
Context (b : LogicalBinding) (types : list DataType.t) (Hb : binding_ok b types).
Abbreviation typed_at := (LogicalSpec.typed_at xxh3_128 sha256).

Definition view_bytes (v : store) : Prop := ∀ key value, v !! key = Some value → bytes_ok value.
(** The group of one record in a view. *)
Definition group_at (v : store) (index : Z) (include_payload : bool) (id : list Z) : result (option RecordGroupRead) :=
  typed_at b v (LogicalKey.Record index id) ≫= λ record,
  typed_at b v (LogicalKey.Location index id) ≫= λ location,
  (if include_payload then typed_at b v (LogicalKey.Payload index id) else Ok None) ≫= λ payload,
  group_of record location payload.

Lemma batch_values_spec keys encoded v :
  view_bytes v → Forall2 (λ key k, encode_input_key b key = Ok k) keys encoded →
  no_panic (decode_batch xxh3_128 sha256 b keys ((v !!.) <$> encoded)) ∧
  ∀ vs, decode_batch xxh3_128 sha256 b keys ((v !!.) <$> encoded) = Ok vs → Forall2 (λ key x, typed_at b v key = Ok x) keys vs.
Proof.
  intros Hv He. split.
  - unfold decode_batch. case_match; [done|]. apply mapM_no_panic_Forall, Forall_forall. intros [key value] Hin.
    eapply decode_value_no_panic; [done|]. intros bs ->. apply list_elem_of_In, elem_of_zip_r in Hin.
    apply list_elem_of_fmap in Hin as (k & Hk & _). by eapply Hv.
  - intros vs Hvs. apply decode_batch_ok in Hvs; [|rewrite length_fmap; by eapply Forall2_length].
    clear -He Hvs. unfold LogicalSpec.typed_at. revert vs Hvs. induction He as [|key k keys encoded Hk _ IH]; intros vs Hvs.
    { apply Forall2_nil_inv_l in Hvs as ->. constructor. }
    rewrite fmap_cons in Hvs. cbn [zip zip_with] in Hvs. apply Forall2_cons_inv_l in Hvs as (x & vs' & Hx & Hvs & ->).
    constructor; [|by apply IH]. by rewrite Hk.
Qed.
Lemma group_of_no_panic r l p : no_panic (group_of r l p).
Proof. unfold group_of. by repeat case_match. Qed.

(** A stored value decodes to the family of its key. *)
Lemma typed_at_kind v key x :
  view_bytes v → typed_at b v key = Ok (Some x) → PersistentValue_kind x = value_kind_for_key key.
Proof using Hb.
  intros Hv Hx. unfold LogicalSpec.typed_at in Hx. apply bind_ok in Hx as (k & _ & Hx).
  destruct (v !! k) as [bs|] eqn:Ek; [|done]. apply bind_ok in Hx as (x' & Hx & E). injection E as <-.
  apply value_codec_decodes in Hx as [_ (Hk & _)%encode_for_key_ok]; [done|by eapply Hv|by eapply bound_manifest_ok].
Qed.
(** A group that is neither whole nor absent: one of record and location is
    stored without the other, or a payload is stored without either. *)
Definition group_torn (v : store) (index : Z) (include_payload : bool) (id : list Z) : Prop :=
  ∃ record location payload,
    typed_at b v (LogicalKey.Record index id) = Ok record ∧
    typed_at b v (LogicalKey.Location index id) = Ok location ∧
    (if include_payload then typed_at b v (LogicalKey.Payload index id) else Ok None) = Ok payload ∧
    ((is_Some record ∧ location = None) ∨ (record = None ∧ is_Some location) ∨
     (record = None ∧ location = None ∧ is_Some payload)).
Lemma group_of_err v index (include_payload : bool) id r l p e :
  view_bytes v → typed_at b v (LogicalKey.Record index id) = Ok r → typed_at b v (LogicalKey.Location index id) = Ok l →
  (if include_payload then typed_at b v (LogicalKey.Payload index id) else Ok None) = Ok p →
  group_of r l p = Err e → e = Corruption ∧ group_torn v index include_payload id.
Proof using Hb.
  intros Hv Hr Hl Hp Hg. split; [by unfold group_of in Hg; repeat case_match; simplify_eq|]. exists r, l, p. split_and!; [done..|].
  assert (∀ x : PersistentValue.t, r = Some x → ∃ y, x = PersistentValue.VectorRecord y) as Fr.
  { intros x ->. apply typed_at_kind in Hr; [|done]. destruct x; try done. by eexists. }
  assert (∀ x : PersistentValue.t, l = Some x → ∃ y, x = PersistentValue.RecordLocation y) as Fl.
  { intros x ->. apply typed_at_kind in Hl; [|done]. destruct x; try done. by eexists. }
  assert (∀ x : PersistentValue.t, p = Some x → ∃ y, x = PersistentValue.OpaquePayload y) as Fp.
  { intros x ->. destruct include_payload; [|done]. apply typed_at_kind in Hp; [|done]. destruct x; try done. by eexists. }
  destruct r as [r|]; [destruct (Fr r eq_refl) as [? ->]|]; (destruct l as [l|]; [destruct (Fl l eq_refl) as [? ->]|]);
    (destruct p as [p|]; [destruct (Fp p eq_refl) as [? ->]|]); try done; naive_solver.
Qed.
Lemma mapM_err {A B} (f : A → result B) l e : mapM f l = Err e → ∃ x, x ∈ l ∧ f x = Err e.
Proof using.
  induction l as [|x l IH]; cbn [mapM]; [done|]. destruct (f x) as [y|e'|] eqn:Ex; cbn [mbind result_bind]; [|intros [= ->]; eauto using list_elem_of_here|done].
  destruct (mapM f l); cbn; intros [= ->]. destruct IH as (z & Hz & Ez); [done|]. exists z. split; [by apply list_elem_of_further|done].
Qed.
Lemma batch_values_err keys encoded v e :
  Forall2 (λ key k, encode_input_key b key = Ok k) keys encoded →
  decode_batch xxh3_128 sha256 b keys ((v !!.) <$> encoded) = Err e → ∃ key, key ∈ keys ∧ typed_at b v key = Err e.
Proof using.
  intros He. unfold Logical.decode_batch.
  assert (len keys = len ((v !!.) <$> encoded)) as -> by (unfold len; rewrite length_fmap; by rewrite (Forall2_length He)).
  rewrite Z.eqb_refl. cbn [negb]. intros ([key value] & Hin & Hd)%mapM_err.
  apply list_elem_of_lookup in Hin as [i Hi]. apply lookup_zip_with_Some in Hi as (k & x & [= <- <-] & Hk & Hx).
  exists key. split; [by eapply list_elem_of_lookup_2|]. apply list_lookup_fmap_Some in Hx as (enc & -> & Henc).
  unfold LogicalSpec.typed_at. by rewrite (Forall2_lookup_lr _ _ _ _ _ _ He Hk Henc).
Qed.
Lemma groups_loop_spec v index include_payload ids vs :
  view_bytes v → Forall2 (λ key x, typed_at b v key = Ok x) (group_keys index include_payload ids) vs →
  no_panic (groups_loop include_payload ids vs) ∧
  (∀ gs, groups_loop include_payload ids vs = Ok gs → Forall2 (λ id g, group_at v index include_payload id = Ok g) ids gs) ∧
  ∀ e, groups_loop include_payload ids vs = Err e → e = Corruption ∧ ∃ id, id ∈ ids ∧ group_torn v index include_payload id.
Proof using Hb.
  intros Hv. revert vs. induction ids as [|id ids IH]; intros vs Hvs.
  { split_and!; [done| |done]. intros gs [= <-]. constructor. }
  unfold group_keys in Hvs. cbn [mbind list_bind app] in Hvs.
  apply Forall2_cons_inv_l in Hvs as (r & vs1 & Hr & Hvs & ->). apply Forall2_cons_inv_l in Hvs as (l & vs2 & Hl & Hvs & ->).
  cbn [groups_loop].
  assert (∃ p vs3, (if include_payload then match vs2 with payload :: values => Ok (payload, values) | [] => Panic end
      else Ok (None, vs2)) = Ok (p, vs3) ∧ (if include_payload then typed_at b v (LogicalKey.Payload index id) else Ok None) = Ok p ∧
      Forall2 (λ key x, typed_at b v key = Ok x) (group_keys index include_payload ids) vs3) as (p & vs3 & -> & Hp & Hrest).
  { destruct include_payload; [|by exists None, vs2]. apply Forall2_cons_inv_l in Hvs as (p & vs3 & Hp & Hvs & ->). by exists p, vs3. }
  cbn [mbind result_bind]. destruct (IH vs3 Hrest) as (Hn & Hgs & Herr). split_and!.
  - apply bind_no_panic; [apply group_of_no_panic|]. intros g _. by apply bind_no_panic.
  - intros gs (g & Hg & H1)%bind_ok. apply bind_ok in H1 as (gs' & Hgs' & H1). apply Ok_inj in H1 as <-.
    constructor; [|by apply Hgs]. unfold group_at. rewrite Hr. cbn [mbind result_bind]. rewrite Hl. cbn [mbind result_bind].
    by rewrite Hp.
  - intros e. destruct (group_of r l p) as [g|e'|] eqn:Eg; cbn [mbind result_bind]; [|intros [= <-]|done].
    + destruct (groups_loop include_payload ids vs3) as [gs|e'|] eqn:El; cbn; intros [= <-].
      destruct (Herr e' eq_refl) as (-> & i & Hi & Ht). split; [done|]. exists i. split; [by apply list_elem_of_further|done].
    + apply (group_of_err v index include_payload id) in Eg as [-> Ht]; [|done..].
      split; [done|]. exists id. split; [apply list_elem_of_here|done].
Qed.
Lemma group_keys_typed index include_payload ids :
  id_ok index → Forall bytes_ok ids → Forall key_typed (group_keys index include_payload ids).
Proof.
  intros Hi. induction 1 as [|id ids Hid _ IH]; [constructor|]. unfold group_keys. cbn [mbind list_bind app].
  destruct include_payload; repeat (constructor; [done|]); exact IH.
Qed.
Definition keys_bytes (keys : list (list Z)) : Z := foldr (λ key n, len key + n) 0 keys.
Lemma keys_bytes_nonneg keys : 0 ≤ keys_bytes keys.
Proof using. induction keys as [|k keys IH]; [done|]. change (0 ≤ len k + keys_bytes keys). pose proof (len_nonneg k). lia. Qed.
Lemma key_bytes_fold_none n keys : n + keys_bytes keys < 2 ^ 64 → key_bytes_fold n keys ≠ None.
Proof using.
  revert n. induction keys as [|k keys IH]; intros n; cbn [key_bytes_fold keys_bytes foldr]; [done|].
  fold (keys_bytes keys). intros Hn. pose proof (keys_bytes_nonneg keys). unfold checked_add.
  rewrite (proj2 (Z.ltb_lt _ _)) by lia. cbn [mbind option_bind]. apply IH. lia.
Qed.
(** Why a read of record groups fails: the request exceeds 64-bit sizes, the
    backend's batch read fails, a key or a stored value of a group is rejected
    by the codecs, or a group is torn, which is corruption. *)
Inductive group_failure (t : T) (index : Z) (include_payload : bool) (ids : list (list Z)) (e : ErrorKind) : Prop :=
  | failed_count : e = LimitExceeded → 2 ^ 64 ≤ len ids * (if include_payload then 3 else 2) →
      group_failure t index include_payload ids e
  | failed_size encoded : e = LimitExceeded → mapM (encode_input_key b) (group_keys index include_payload ids) = Ok encoded →
      2 ^ 64 ≤ keys_bytes encoded → group_failure t index include_payload ids e
  | failed_backend encoded t' : mapM (encode_input_key b) (group_keys index include_payload ids) = Ok encoded →
      ro_batch_get encoded t = (t', Err e) → group_failure t index include_payload ids e
  | failed_codec key : key ∈ group_keys index include_payload ids → typed_at b (view t) key = Err e →
      group_failure t index include_payload ids e
  | failed_torn id : e = Corruption → id ∈ ids → group_torn (view t) index include_payload id →
      group_failure t index include_payload ids e.
Lemma wp_eq {A} (c : M T A) (Q : A → T → Prop) (E : ErrorKind → T → Prop) t :
  wp c Q E t → wp c (λ a t', c t = (t', Ok a) ∧ Q a t') (λ e t', c t = (t', Err e) ∧ E e t') t.
Proof using. unfold wp. by destruct (c t) as [t' [a|e|]]. Qed.
Lemma read_record_groups_spec m ids include_payload (t : T) :
  lb_manifest b = Some m → txn_ok t → view_bytes (view t) → Forall bytes_ok ids →
  wp (read_record_groups xxh3_128 sha256 b ids include_payload)
    (λ gs t', Forall2 (λ id g, group_at (view t) (im_logical_index_id m) include_payload id = Ok g) ids gs ∧ observes t t')
    (λ e t', group_failure t (im_logical_index_id m) include_payload ids e ∧ observes t t') t.
Proof using Hb.
  intros Hm Ht Hv Hids. assert (observes t t) as Hrefl by done. unfold read_record_groups. rewrite Hm.
  apply wp_bind, wp_lift; [by unfold checked_mul; case_match|intros n Hn|].
  2: { unfold checked_mul. intros e He. destruct (Z.ltb_spec (len ids * (if include_payload then 3 else 2)) (2 ^ 64)); [done|].
       injection He as <-. split; [by apply failed_count|done]. }
  cbv zeta.
  assert (Forall key_typed (group_keys (im_logical_index_id m) include_payload ids)) as Hkeys.
  { apply group_keys_typed; [|done]. by apply (bound_manifest_ok _ _ Hb) in Hm as [? _]. }
  apply wp_bind, wp_lift; [|intros encoded He|].
  { apply mapM_no_panic_Forall. eapply Forall_impl; [|exact Hkeys]. intros key Hk. by eapply encode_input_key_no_panic. }
  2: { intros e (key & Hin & Hk)%mapM_err. split; [|done]. eapply failed_codec; [done|].
       unfold LogicalSpec.typed_at. by rewrite Hk. }
  apply wp_bind, wp_lift; [by destruct (key_bytes_fold 0 encoded)|intros n' Hn'|].
  2: { intros e Hf. destruct (key_bytes_fold 0 encoded) eqn:Ef; [done|]. injection Hf as <-. split; [|done].
       eapply failed_size; [done..|]. destruct (Z.lt_ge_cases (keys_bytes encoded) (2 ^ 64)); [|done].
       by destruct (key_bytes_fold_none 0 encoded). }
  eapply wp_step; [by apply wp_eq, ro_batch_get_law| |].
  { intros e t' [Hg Ho]. split; [by eapply failed_backend|done]. }
  intros values t' (_ & -> & Ho). apply mapM_ok in He.
  destruct (batch_values_spec _ encoded (view t) Hv He) as [Hnp Hvs].
  apply wp_bind, wp_lift; [done|intros vs Hd|].
  2: { intros e (key & Hin & Hk)%batch_values_err; [|done]. split; [by eapply failed_codec|done]. }
  destruct (groups_loop_spec _ _ _ _ _ Hv (Hvs vs Hd)) as (Hnp' & Hgs & Herr). apply wp_lift; [done|intros gs Hg|].
  - split; [by apply Hgs|done].
  - intros e (-> & id & Hid & Htorn)%Herr. split; [by eapply failed_torn|done].
Qed.
End record_groups.

(** C24: Record groups are read closed: over one snapshot, each requested id
    yields nothing exactly when neither record nor location (nor a requested
    payload) is stored, and the decoded record, location and payload when both
    are; groups come in input order with duplicates.  The read never panics, and
    it fails only when the request exceeds 64-bit sizes, the backend's batch read
    fails, the codecs reject a key or a stored value of a group, or a group is
    torn (one of record and location without the other, or a payload without
    either), and that is corruption. *)
Theorem record_groups_closed {T} `{ReadLaws T} xxh3_128 sha256 b types m ids include_payload (t : T) :
  binding_ok b types → lb_manifest b = Some m → txn_ok t → view_bytes (view t) → Forall bytes_ok ids →
  match read_record_groups xxh3_128 sha256 b ids include_payload t with
  | (t', Ok groups) =>
      view t' = view t ∧
      Forall2 (λ id group,
        let at_ key := typed_at xxh3_128 sha256 b (view t) (key (im_logical_index_id m) id) in
        match group with
        | None => at_ LogicalKey.Record = Ok None ∧ at_ LogicalKey.Location = Ok None ∧
                  (include_payload = true → at_ LogicalKey.Payload = Ok None)
        | Some g => at_ LogicalKey.Record = Ok (Some (PersistentValue.VectorRecord (rg_record g))) ∧
                    at_ LogicalKey.Location = Ok (Some (PersistentValue.RecordLocation (rg_location g))) ∧
                    if include_payload then at_ LogicalKey.Payload = Ok (PersistentValue.OpaquePayload <$> rg_payload g)
                    else rg_payload g = None
        end) ids groups
  | (t', Err e) =>
      view t' = view t ∧ group_failure xxh3_128 sha256 b t (im_logical_index_id m) include_payload ids e
  | (_, Panic) => False
  end.
Proof.
  intros Hb Hm Ht Hv Hids. pose proof (read_record_groups_spec xxh3_128 sha256 b types Hb m ids include_payload t Hm Ht Hv Hids) as Hw.
  unfold wp in Hw. destruct (read_record_groups _ _ b ids include_payload t) as [t' [gs|e|]]; [|by destruct Hw as [? [? _]]|done].
  destruct Hw as [Hgs [Hview _]]. split; [done|]. eapply Forall2_impl; [|exact Hgs]. intros id g Hg. cbv zeta.
  unfold group_at in Hg. apply bind_ok in Hg as (r & Hr & Hg). apply bind_ok in Hg as (l & Hl & Hg).
  apply bind_ok in Hg as (p & Hp & Hg). unfold group_of in Hg. rewrite Hr, Hl.
  destruct r as [[]|], l as [[]|], p as [[]|]; try done; apply Ok_inj in Hg as <-; cbn [rg_record rg_location rg_payload];
    destruct include_payload; try done; by rewrite Hp.
Qed.

(** ** A concrete transaction over the in-memory backend *)
Definition sample_binding : LogicalBinding :=
  mkBinding (Some sample_manifest) (mkSchema (type_array [DataType.F64]) 1) false.
Definition sample_write : WriteLogicalTxn WriteTxn := write_new sample_begin.2 sample_binding HARD_LIMITS BUDGET.
Definition sample_location : PersistentValue.t :=
  PersistentValue.RecordLocation (mkLocation [128; 0; 0; 0; 0; 0; 0; 0] 9).
Definition sample_key : LogicalKey.t := LogicalKey.Location 7 [1].

Lemma sample_bound : binding_for_index sample_manifest = Ok sample_binding.
Proof. reflexivity. Qed.
Lemma sample_binding_ok : binding_ok sample_binding [DataType.F64].
Proof. split; [|reflexivity]. intros m [= <-]. exact sample_manifest_ok. Qed.
Lemma sample_write_coherent : coherent sample_write.
Proof.
  split; [split; cbn; lia|done|..].
  - intros key value Hk. change (lt_view sample_write) with (∅ : store) in Hk. by apply lookup_empty_Some in Hk.
  - intros key value Hk. change (lt_view sample_write) with (∅ : store) in Hk. by apply lookup_empty_Some in Hk.
  - intros key entry Hk. cbn [sample_write write_new wl_read_cache] in Hk. by rewrite lookup_empty in Hk.
Qed.
Lemma sample_mutation_typed : mutation_typed sample_hash (λ bs, bs) sample_binding (sample_key, Some sample_location).
Proof.
  split; [split; dec_compute|]. intros v [= <-]. exists sample_manifest, sample_manifest_ok. split; [done|].
  split; [by split; [dec_compute|]|done].
Qed.
Lemma cached_txn_refines_map_witness :
  ∃ t', map_run (typed_at sample_hash (λ bs, bs) sample_binding ∅)
    [OpInsert sample_key sample_location; OpGet true sample_key; OpMutate [(sample_key, None)]; OpGet false sample_key]
    [OutInsert InsertOutcome.Inserted; OutValue (Some sample_location); OutDone; OutValue None]
    (typed_at sample_hash (λ bs, bs) sample_binding (lt_view t')).
Proof.
  set (ops := [OpInsert sample_key sample_location; OpGet true sample_key; OpMutate [(sample_key, None)]; OpGet false sample_key]).
  destruct (run_program sample_hash (λ bs, bs) ops sample_write) as [t' r] eqn:E.
  destruct (cached_txn_refines_map sample_hash (λ bs, bs) [DataType.F64] ops sample_write t' r) as [_ H].
  - exact sample_write_coherent.
  - exact sample_binding_ok.
  - repeat (apply List.Forall_cons || apply List.Forall_nil); [exact sample_mutation_typed|split; dec_compute| |split; dec_compute].
    split; [split; dec_compute|by intros ? [=]].
  - exact E.
  - exists t'. apply H. transitivity (run_program sample_hash (λ bs, bs) ops sample_write).2; [by rewrite E|].
    vm_compute. reflexivity.
Defined.
Lemma mutation_builder_exact_witness :
  match build sample_hash (λ bs, bs) [(sample_key, Some sample_location); (sample_key, None)] (mutations sample_write) with
  | (mb', Ok _) => builder_ok mb' ∧ mb_size mb' = mkSize 1 14
  | _ => False
  end.
Proof.
  pose proof (mutation_builder_exact sample_hash (λ bs, bs) [DataType.F64]
    [(sample_key, Some sample_location); (sample_key, None)] (mutations sample_write) sample_binding_ok
    (builder_new_ok _ _ _)) as H.
  destruct H as [_ H].
  - intros key value Hk. cbn [mutations builder_new mb_entries] in Hk. by rewrite lookup_empty in Hk.
  - apply List.Forall_cons; [exact sample_mutation_typed|]. apply List.Forall_cons; [|apply List.Forall_nil].
    split; [split; dec_compute|by intros ? [=]].
  - destruct (build _ _ _ _) as [mb' [[]|e|]] eqn:E; [|by vm_compute in E|done].
    split; [by destruct H|]. replace mb' with (build sample_hash (λ bs, bs)
      [(sample_key, Some sample_location); (sample_key, None)] (mutations sample_write)).1 by by rewrite E.
    vm_compute. reflexivity.
Defined.
(** A store with the whole group of record [1] and a location without a record at [2]. *)
Definition sample_put (key : LogicalKey.t) (value : PersistentValue.t) (v : store) : store :=
  match encode_input_key sample_binding key, codec_encode_for_key sample_hash (λ bs, bs) sample_binding key value with
  | Ok k, Ok bytes => <[k := bytes]> v
  | _, _ => v
  end.
Definition sample_vector : VectorRecord := mkVectorRecord [1] [0; 0] [Value.I64 5; Value.F64 0].
Definition sample_groups : store :=
  sample_put (LogicalKey.Record 7 [1]) (PersistentValue.VectorRecord sample_vector)
    (sample_put (LogicalKey.Location 7 [1]) sample_location
      (sample_put (LogicalKey.Location 7 [2]) sample_location ∅)).
Lemma sample_groups_bytes : view_bytes sample_groups.
Proof. change (map_Forall (λ _ value, bytes_ok value) sample_groups). dec_compute. Qed.
Definition sample_read (ids : list (list Z)) : store * result (list (option RecordGroupRead)) :=
  read_record_groups sample_hash (λ bs, bs) sample_binding ids true sample_groups.
Lemma record_groups_closed_witness :
  (sample_read [[1]; [3]; [1]]).2 =
    Ok [Some (mkGroup sample_vector (mkLocation [128; 0; 0; 0; 0; 0; 0; 0] 9) None); None;
        Some (mkGroup sample_vector (mkLocation [128; 0; 0; 0; 0; 0; 0; 0] 9) None)] ∧
  typed_at sample_hash (λ bs, bs) sample_binding sample_groups sample_key = Ok (Some sample_location) ∧
  (sample_read [[1]; [2]]).2 = Err Corruption ∧
  group_failure sample_hash (λ bs, bs) sample_binding sample_groups 7 true [[1]; [2]] Corruption.
Proof.
  assert (∀ ids, Forall bytes_ok ids → _) as H by exact (λ ids,
    record_groups_closed sample_hash (λ bs, bs) sample_binding [DataType.F64] sample_manifest ids true
      sample_groups sample_binding_ok eq_refl I sample_groups_bytes).
  split_and!.
  - vm_compute. reflexivity.
  - specialize (H [[1]; [3]; [1]] ltac:(dec_compute)).
    assert ((sample_read [[1]; [3]; [1]]).2 = Ok [Some (mkGroup sample_vector (mkLocation [128; 0; 0; 0; 0; 0; 0; 0] 9) None); None;
        Some (mkGroup sample_vector (mkLocation [128; 0; 0; 0; 0; 0; 0; 0] 9) None)]) as E by (vm_compute; reflexivity).
    unfold sample_read in E. destruct (read_record_groups _ _ _ _ _ _) as [t' r]. cbn [snd] in E. rewrite E in H.
    destruct H as [_ H]. apply Forall2_cons_inv_l in H as (g & gs & Hg & _ & [= <- _]). destruct Hg as (_ & Hl & _). exact Hl.
  - vm_compute. reflexivity.
  - specialize (H [[1]; [2]] ltac:(dec_compute)).
    assert ((sample_read [[1]; [2]]).2 = Err Corruption) as E by (vm_compute; reflexivity).
    unfold sample_read in E. destruct (read_record_groups _ _ _ _ _ _) as [t' r]. cbn [snd] in E. rewrite E in H. apply H.
Defined.
