(* ===== verification/Reader.v ===== *)
(** Typed readers (the trait [LogicalReader] of src/src/storage/operations.rs):
    the read-only logical transaction, the trait as a class with its two
    implementations, what their clients rely on, and the proof that both keep
    it, paged scans included. *)
From stdpp Require Import gmap sorting.
From S2P Require Import Prelude RustStd Api TreeKey Keys KeyRanges RaBitQ Manifest Wire ValueData Records Synopsis Values Backend Memory Txn Codec Logical LogicalSpec.

(** ** The read-only transaction *)
Record ReadLogicalTxn (T : Type) := mkReadTxn { rt_raw : T; rt_binding : LogicalBinding }.
Arguments mkReadTxn {T}.
Arguments rt_raw {T}.
Arguments rt_binding {T}.
Definition read_bootstrap {T} (raw : T) : ReadLogicalTxn T := mkReadTxn raw binding_bootstrap.
Definition read_for_index {T} (raw : T) (m : IndexManifest) : result (ReadLogicalTxn T) :=
  binding_for_index m ≫= λ b, Ok (mkReadTxn raw b).
Definition on_read {T A} (op : LogicalBinding → M T A) : M (ReadLogicalTxn T) A := λ t,
  let '(raw, r) := op (rt_binding t) (rt_raw t) in (mkReadTxn raw (rt_binding t), r).

(** ** The trait *)
Class LogicalReader (R : Type) := {
  rdr_get : LogicalKey.t → M R (option PersistentValue.t);
  rdr_batch_get : list LogicalKey.t → M R (list (option PersistentValue.t));
  rdr_scan : LogicalRange → option LogicalScanCursor → ScanLimits → M R LogicalScanPage;
  rdr_batch_scan : list (LogicalRange * option LogicalScanCursor) → ScanLimits → M R (list LogicalScanPage);
}.
Section instances.
Context (xxh3_128 : Z → list Z → Z) (sha256 : list Z → list Z).
Definition read_txn_reader (T : Type) `{ReadOps T} : LogicalReader (ReadLogicalTxn T) := {|
  rdr_get key := on_read (λ b, get_logical xxh3_128 sha256 b key);
  rdr_batch_get keys := on_read (λ b, batch_get_logical xxh3_128 sha256 b keys);
  rdr_scan range cursor limits := on_read (λ b, scan_logical xxh3_128 sha256 b range cursor limits);
  rdr_batch_scan legs limits := on_read (λ b, batch_scan_logical xxh3_128 sha256 b legs limits);
|}.
Definition write_txn_reader (T : Type) `{WriteOps T} : LogicalReader (WriteLogicalTxn T) := {|
  rdr_get := Logical.get xxh3_128 sha256;
  rdr_batch_get := Logical.batch_get xxh3_128 sha256;
  rdr_scan := Logical.scan xxh3_128 sha256;
  rdr_batch_scan := Logical.batch_scan xxh3_128 sha256;
|}.
End instances.

(** ** Typed pages *)
Section pages.
Context (xxh3_128 : Z → list Z → Z) (sha256 : list Z → list Z) (b : LogicalBinding) (types : list DataType.t) (Hb : binding_ok b types).
Implicit Types (v : store) (leg : LogicalRange * option LogicalScanCursor).

Definition leg_range leg : KeyRange :=
  mkRange (match leg.2 with Some cursor => lc_next_start cursor | None => range_start (lr_raw leg.1) end) (range_end (lr_raw leg.1)).
Definition remaining v leg : list ScanItem := range_entries v (leg_range leg).
(** One stored pair, decoded. *)
Definition decoded (item : ScanItem) (x : LogicalScanItem) : Prop :=
  decode_key types (si_key item) = Ok (li_key x) ∧
  codec_decode xxh3_128 sha256 b (li_key x) (si_value item) = Ok (li_value x).
(** One page of a leg: a prefix of what is left, and a cursor to the rest. *)
Definition typed_page v leg (page : LogicalScanPage) : Prop :=
  ∃ taken rest, remaining v leg = taken ++ rest ∧ Forall2 decoded taken (lp_items page) ∧
    match lp_next_cursor page with
    | None => rest = []
    | Some cursor => taken ≠ [] ∧ lc_range cursor = leg.1 ∧ remaining v (leg.1, Some cursor) = rest
    end.

Lemma decode_items_ok raw_range previous items xs :
  decode_items_loop xxh3_128 sha256 b raw_range previous items = Ok xs → Forall2 decoded items xs.
Proof.
  revert previous xs. induction items as [|item items IH]; intros previous xs; cbn [decode_items_loop]; [intros [= <-]; constructor|].
  case_match; [done|]. unfold binding_tree_key_types. rewrite (bound_types _ _ Hb). cbn [mbind result_bind].
  intros (key & Hk & H1)%bind_ok. apply bind_ok in H1 as (value & Hv & H1). apply bind_ok in H1 as (rest & Hr & H1). apply Ok_inj in H1 as <-.
  constructor; [by split|by eapply IH].
Qed.
Lemma decode_items_no_panic raw_range previous items :
  Forall (λ item, bytes_ok (si_key item) ∧ bytes_ok (si_value item)) items → no_panic (decode_items_loop xxh3_128 sha256 b raw_range previous items).
Proof.
  intros Hi. revert previous. induction Hi as [|item items [Hk Hv] _ IH]; intros previous; cbn [decode_items_loop]; [done|].
  case_match; [done|]. unfold binding_tree_key_types. rewrite (bound_types _ _ Hb). cbn [mbind result_bind].
  apply bind_no_panic; [by destruct (decode_key_total types (si_key item) Hk) as [[? ->]| ->]|]. intros key _.
  apply bind_no_panic; [apply value_codec_no_panic; [done|by eapply bound_manifest_ok]|]. intros value _.
  by apply bind_no_panic.
Qed.
Lemma scan_raw_range_ok range cursor raw : scan_raw_range b range cursor = Ok raw → raw = leg_range (range, cursor).
Proof.
  unfold scan_raw_range, leg_range. intros (? & _ & H1)%bind_ok. cbn [fst snd]. destruct cursor as [c|]; [|by destruct range as [? ? []]; apply Ok_inj in H1 as <-].
  case_decide; [|done]. by apply Ok_inj in H1 as <-.
Qed.
Lemma scan_raw_range_no_panic range cursor : no_panic (scan_raw_range b range cursor).
Proof.
  unfold scan_raw_range, validate_range. apply bind_no_panic; [by repeat case_match|]. intros _ _. destruct cursor; [|done]. by case_decide.
Qed.
Definition store_ok (max_key : Z) v : Prop := ∀ key value, v !! key = Some value → backend_key max_key key ∧ bytes_ok value.
Lemma page_decodes max_key v leg raw raw_page :
  store_ok max_key v → scan_raw_range b leg.1 leg.2 = Ok raw → page_of (range_entries v raw) max_key raw_page →
  no_panic (decode_scan_page xxh3_128 sha256 b leg.1 raw raw_page) ∧
  ∀ page, decode_scan_page xxh3_128 sha256 b leg.1 raw raw_page = Ok page → typed_page v leg page.
Proof.
  intros Hv Hraw Hp. assert (raw = leg_range leg) as -> by (destruct leg; by apply scan_raw_range_ok).
  assert (∀ items rest, range_entries v (leg_range leg) = items ++ rest → Forall (λ item, bytes_ok (si_key item) ∧ bytes_ok (si_value item)) items) as Hbs.
  { intros items rest E. apply Forall_forall. intros item Hin%list_elem_of_In.
    assert (item ∈ range_entries v (leg_range leg)) as [Hi _]%range_entries_elem by (rewrite E; apply elem_of_app; by left).
    by apply Hv in Hi as [[? _] ?]. }
  unfold decode_scan_page. destruct Hp as [->|(taken & lst & rest & E & Hne & ->)].
  - cbn [ScanPage_terminal sp_items sp_next_start]. split.
    + apply bind_no_panic; [apply decode_items_no_panic, (Hbs _ []); by rewrite app_nil_r|done].
    + intros page (xs & Hx%decode_items_ok & H1)%bind_ok. apply Ok_inj in H1 as <-. exists (range_entries v (leg_range leg)), [].
      by rewrite app_nil_r.
  - cbn [sp_items sp_next_start]. split.
    + apply bind_no_panic; [apply decode_items_no_panic, (Hbs _ rest E)|]. intros xs _. by case_match.
    + intros page (xs & Hx%decode_items_ok & H1)%bind_ok. case_match; [|done]. apply Ok_inj in H1 as <-.
      exists (taken ++ [lst]), rest. split_and!; [exact E|exact Hx|]. cbn [lp_next_cursor]. split_and!; [by destruct taken|done|].
      unfold remaining, leg_range. cbn [fst snd lc_next_start].
      apply (continued_entries max_key v (leg_range leg) taken lst rest); [|exact E|done]. intros k w Hk. by destruct (Hv _ _ Hk).
Qed.
End pages.

(** ** What clients rely on

    A reader serves one typed map and its reads leave it alone. *)
Class ReaderLaws (xxh3_128 : Z → list Z → Z) (sha256 : list Z → list Z) (R : Type) `{LogicalReader R} := {
  rdr_binding : R → LogicalBinding;
  rdr_store : R → store;
  rdr_ok : R → Prop;
  rdr_max_key : Z;
  rdr_store_ok r : rdr_ok r → store_ok rdr_max_key (rdr_store r);
  rdr_keeps : relation R;
  rdr_keeps_refl r : rdr_ok r → rdr_keeps r r;
  rdr_keeps_trans : Transitive rdr_keeps;
  rdr_keeps_same r r' : rdr_keeps r r' → rdr_binding r' = rdr_binding r ∧ rdr_store r' = rdr_store r ∧ rdr_ok r';
  rdr_get_law types key r :
    rdr_ok r → binding_ok (rdr_binding r) types → key_typed key →
    wp (rdr_get key) (λ v r', typed_at xxh3_128 sha256 (rdr_binding r) (rdr_store r) key = Ok v ∧ rdr_keeps r r') (λ _ r', rdr_keeps r r') r;
  rdr_batch_get_law types keys r :
    rdr_ok r → binding_ok (rdr_binding r) types → Forall key_typed keys →
    wp (rdr_batch_get keys)
      (λ vs r', Forall2 (λ key v, typed_at xxh3_128 sha256 (rdr_binding r) (rdr_store r) key = Ok v) keys vs ∧ rdr_keeps r r')
      (λ _ r', rdr_keeps r r') r;
  rdr_scan_law types range cursor limits r :
    rdr_ok r → binding_ok (rdr_binding r) types → scan_limits_ok limits →
    wp (rdr_scan range cursor limits)
      (λ page r', typed_page xxh3_128 sha256 (rdr_binding r) types (rdr_store r) (range, cursor) page ∧ rdr_keeps r r') (λ _ r', rdr_keeps r r') r;
  rdr_batch_scan_law types legs limits r :
    rdr_ok r → binding_ok (rdr_binding r) types → scan_limits_ok limits →
    wp (rdr_batch_scan legs limits)
      (λ pages r', Forall2 (typed_page xxh3_128 sha256 (rdr_binding r) types (rdr_store r)) legs pages ∧ rdr_keeps r r') (λ _ r', rdr_keeps r r') r;
}.
#[export] Existing Instance rdr_keeps_trans.

(** *** Raw transactions under a binding *)
Section raw_reads.
Context (xxh3_128 : Z → list Z → Z) (sha256 : list Z → list Z) {T : Type} `{ReadLaws T} (b : LogicalBinding) (types : list DataType.t) (Hb : binding_ok b types).
Implicit Types t : T.

Lemma observes_refl t : txn_ok t → observes t t.
Proof. done. Qed.
Lemma get_logical_spec key t :
  txn_ok t → store_ok max_key (view t) → key_typed key →
  wp (get_logical xxh3_128 sha256 b key) (λ v t', typed_at xxh3_128 sha256 b (view t) key = Ok v ∧ observes t t') (λ _ t', observes t t') t.
Proof.
  intros Ht Hv Hk. unfold get_logical. apply wp_bind, wp_lift; [by eapply encode_input_key_no_panic| |by intros; apply observes_refl].
  intros k Hke. eapply wp_step; [by apply ro_get_law|done|]. intros v t' [-> Ho]. apply wp_lift; [| |done].
  - eapply decode_value_no_panic; [exact Hb|]. intros bs E. by apply Hv in E as [_ ?].
  - intros x Hx. split; [|done]. unfold typed_at. by rewrite Hke.
Qed.
Lemma batch_get_logical_spec keys t :
  txn_ok t → store_ok max_key (view t) → Forall key_typed keys →
  wp (batch_get_logical xxh3_128 sha256 b keys)
    (λ vs t', Forall2 (λ key v, typed_at xxh3_128 sha256 b (view t) key = Ok v) keys vs ∧ observes t t') (λ _ t', observes t t') t.
Proof.
  intros Ht Hv Hk. unfold batch_get_logical. apply wp_bind, wp_lift; [| |by intros; apply observes_refl].
  { apply mapM_no_panic_Forall. eapply Forall_impl; [|exact Hk]. intros key Hkey. by eapply encode_input_key_no_panic. }
  intros encoded He%mapM_ok. eapply wp_step; [by apply ro_batch_get_law|done|]. intros values t' [-> Ho].
  destruct (batch_values_spec xxh3_128 sha256 b types Hb keys encoded (view t)) as [Hn Hok]; [|done|].
  { intros k x E. by apply Hv in E as [_ ?]. }
  apply wp_lift; [done| |done]. intros vs Hvs. split; [by apply Hok|done].
Qed.
Lemma scan_logical_spec range cursor limits t :
  txn_ok t → store_ok max_key (view t) → scan_limits_ok limits →
  wp (scan_logical xxh3_128 sha256 b range cursor limits)
    (λ page t', typed_page xxh3_128 sha256 b types (view t) (range, cursor) page ∧ observes t t') (λ _ t', observes t t') t.
Proof.
  intros Ht Hv Hl. unfold scan_logical. apply wp_bind, wp_lift; [apply scan_raw_range_no_panic| |by intros; apply observes_refl].
  intros raw Hraw. eapply wp_step; [by apply ro_scan_law|done|]. intros p t' [Hp Ho].
  destruct (page_decodes xxh3_128 sha256 b types Hb max_key (view t) (range, cursor) raw p Hv Hraw Hp) as [Hn Hok].
  apply wp_lift; [done| |done]. intros page Hpage. split; [by apply Hok|done].
Qed.
Lemma pages_decode v legs raws raw_pages :
  store_ok max_key v → Forall2 (λ leg raw, scan_raw_range b leg.1 leg.2 = Ok raw) legs raws →
  Forall2 (λ range p, page_of (range_entries v range) max_key p) raws raw_pages →
  let decode := mapM (λ '(((range, _), raw_range), raw_page), decode_scan_page xxh3_128 sha256 b range raw_range raw_page) (zip (zip legs raws) raw_pages) in
  no_panic decode ∧ ∀ pages, decode = Ok pages → Forall2 (typed_page xxh3_128 sha256 b types v) legs pages.
Proof.
  intros Hv Hl. revert raw_pages. induction Hl as [|[range cursor] raw legs raws Hraw _ IH]; intros raw_pages Hp; cbv zeta.
  { apply Forall2_nil_inv_l in Hp as ->. split; [done|]. intros pages [= <-]. constructor. }
  apply Forall2_cons_inv_l in Hp as (p & ps & Hp & Hps & ->). cbn [zip zip_with mapM].
  destruct (page_decodes xxh3_128 sha256 b types Hb max_key v (range, cursor) raw p Hv Hraw Hp) as [Hn Hok].
  destruct (IH ps Hps) as [Hn' Hok']. split.
  - apply bind_no_panic; [done|]. intros page _. by apply bind_no_panic.
  - intros pages (page & Hpage & H1)%bind_ok. apply bind_ok in H1 as (rest & Hrest & H1). apply Ok_inj in H1 as <-.
    constructor; [by apply Hok|by apply Hok'].
Qed.
Lemma batch_scan_logical_spec legs limits t :
  txn_ok t → store_ok max_key (view t) → scan_limits_ok limits →
  wp (batch_scan_logical xxh3_128 sha256 b legs limits)
    (λ pages t', Forall2 (typed_page xxh3_128 sha256 b types (view t)) legs pages ∧ observes t t') (λ _ t', observes t t') t.
Proof.
  intros Ht Hv Hl. unfold batch_scan_logical. apply wp_bind, wp_lift; [| |by intros; apply observes_refl].
  { apply mapM_no_panic. intros []. apply scan_raw_range_no_panic. }
  intros raws Hraws%mapM_ok. eapply wp_step; [by apply ro_batch_scan_law|done|]. intros ps t' [Hps Ho].
  assert (len ps = len legs) as ->.
  { unfold len. f_equal. etrans; [symmetry; by eapply Forall2_length|]. symmetry. by eapply Forall2_length. }
  rewrite Z.eqb_refl. cbn [negb].
  destruct (pages_decode (view t) legs raws ps Hv) as [Hn Hok]; [|done|].
  { eapply Forall2_impl; [|exact Hraws]. by intros []. }
  apply wp_lift; [done| |done]. intros pages Hp. split; [by apply Hok|done].
Qed.
End raw_reads.

(** ** Both implementations keep the contract *)
Section laws.
Context (xxh3_128 : Z → list Z → Z) (sha256 : list Z → list Z).
#[local] Existing Instance read_txn_reader.
#[local] Existing Instance write_txn_reader.

Lemma on_read_wp {T A} (op : LogicalBinding → M T A) Q E t :
  wp (op (rt_binding t)) Q E (rt_raw t) →
  wp (on_read op) (λ a t', Q a (rt_raw t') ∧ rt_binding t' = rt_binding t) (λ e t', E e (rt_raw t') ∧ rt_binding t' = rt_binding t) t.
Proof. unfold wp, on_read. by destruct (op (rt_binding t) (rt_raw t)) as [raw [a|e|]]. Qed.
Record read_keeps {T} `{ReadLaws T} (t t' : ReadLogicalTxn T) : Prop := {
  rk_binding : rt_binding t' = rt_binding t;
  rk_observes : observes (rt_raw t) (rt_raw t');
  rk_store : store_ok max_key (view (rt_raw t'));
}.
Ltac read_law spec :=
  eapply wp_mono; [by eapply on_read_wp, spec| |];
  [intros ? ? [[? ?] ?]; split; [done|]|intros ? ? [? ?]];
  (split; [done..|]; match goal with Ho : observes _ _ |- _ => by rewrite (proj1 Ho) end).
Definition read_txn_laws (T : Type) `{ReadLaws T} : ReaderLaws xxh3_128 sha256 (ReadLogicalTxn T) (H := read_txn_reader xxh3_128 sha256 T).
Proof.
  refine (@Build_ReaderLaws xxh3_128 sha256 (ReadLogicalTxn T) (read_txn_reader xxh3_128 sha256 T) rt_binding (λ t, view (rt_raw t)) (λ t, txn_ok (rt_raw t) ∧ store_ok max_key (view (rt_raw t)))
    max_key _ read_keeps _ _ _ _ _ _ _).
  - by intros t [_ ?].
  - intros t [? ?]. by split.
  - intros t1 t2 t3 [E1 [V1 [P1 O1]] S1] [E2 [V2 [P2 O2]] S2]. split; [congruence| |done]. split; [congruence|]. split; [by etrans|done].
  - intros t t' [? [? [_ ?]] ?]. done.
  - intros types key t [Ht Hv] Hb Hk. read_law get_logical_spec.
  - intros types keys t [Ht Hv] Hb Hk. read_law batch_get_logical_spec.
  - intros types range cursor limits t [Ht Hv] Hb Hl. read_law scan_logical_spec.
  - intros types legs limits t [Ht Hv] Hb Hl. read_law batch_scan_logical_spec.
Defined.
Lemma coherent_store {T} `{WriteLaws T} (t : WriteLogicalTxn T) : coherent t → store_ok max_key (lt_view t).
Proof. intros Hco k v E. split; [by eapply (co_keys t Hco)|by eapply (co_bytes t Hco)]. Qed.
Lemma on_raw_reads {T A} `{WriteLaws T} (op : LogicalBinding → M T A) (Q : A → Prop) (t : WriteLogicalTxn T) :
  coherent t → wp (op (wl_binding t)) (λ a raw, Q a ∧ observes (wl_raw t) raw) (λ _ raw, observes (wl_raw t) raw) (wl_raw t) →
  wp (let! t := m_get in on_raw (op (wl_binding t))) (λ a t', Q a ∧ reads t t') (λ _ t', reads t t') t.
Proof.
  intros Hco Hw. apply wp_bind, wp_get. eapply wp_mono; [by apply on_raw_wp| |].
  - intros a t' (raw & [? Ho] & ->). split; [done|by apply with_raw_reads].
  - intros e t' (raw & Ho & ->). by apply with_raw_reads.
Qed.
Definition write_txn_laws (T : Type) `{WriteLaws T} : ReaderLaws xxh3_128 sha256 (WriteLogicalTxn T) (H := write_txn_reader xxh3_128 sha256 T).
Proof.
  refine (@Build_ReaderLaws xxh3_128 sha256 (WriteLogicalTxn T) (write_txn_reader xxh3_128 sha256 T) wl_binding lt_view coherent max_key _ reads _ _ _ _ _ _ _).
  - apply coherent_store.
  - apply reads_refl.
  - intros t t' [? ? [? _ _ _] _]. done.
  - intros types key t Hco Hb Hk. eapply wp_mono; [by eapply (read_one_spec xxh3_128 sha256 types false)| |done]. by intros v t' (? & ? & _).
  - intros types keys t Hco Hb Hk. eapply wp_mono; [by eapply (read_batch_spec xxh3_128 sha256 types false)| |done]. by intros v t' (? & ? & _).
  - intros types range cursor limits t Hco Hb Hl.
    apply (on_raw_reads (λ b, scan_logical xxh3_128 sha256 b range cursor limits)); [done|].
    apply scan_logical_spec; [done|apply (co_raw t Hco)|by apply coherent_store|done].
  - intros types legs limits t Hco Hb Hl.
    apply (on_raw_reads (λ b, batch_scan_logical xxh3_128 sha256 b legs limits)); [done|].
    apply batch_scan_logical_spec; [done|apply (co_raw t Hco)|by apply coherent_store|done].
Defined.
End laws.
