(* ===== verification/TreeOps.v ===== *)
(** Tree Manifest creation and Partition Key allocation
    (src/src/storage/tree_manifest.rs) over typed transactions: a tree is created
    whole or not at all, and no Partition Key is ever handed out twice. *)
From stdpp Require Import gmap sorting.
From S2P Require Import Prelude RustStd Api TreeKey Keys KeyRanges RaBitQ Manifest Wire Records Synopsis Values Backend Memory Txn Codec Logical LogicalSpec.

Definition DEFAULT_PARTITION_KEY_RESERVATION : Z := 1024.
Module TreeCreation.
Inductive t := Created | AlreadyExists.
End TreeCreation.
Record PartitionKeyReservation := mkReservation { pr_next : Z; pr_last : Z }.
Definition reservation_count (r : PartitionKeyReservation) : Z := pr_last r - pr_next r + 1.

Definition tree_manifest_key_for (m : IndexManifest) (tree_key : list Z) : LogicalKey.t :=
  LogicalKey.TreeManifest (im_logical_index_id m) tree_key.
Definition partition_key (value : Z) : result Z := map_err Corruption (PartitionKey_new value).
(** [u64::saturating_add]. *)
Definition saturating_add_u64 (a b : Z) : Z := Z.min (2 ^ 64 - 1) (a + b).

Section tree_ops.
Context (xxh3_128 : Z → list Z → Z) (sha256 : list Z → list Z).

Definition read_tree_manifest {T} `{ReadOps T} (b : LogicalBinding) (tree_key : list Z) : M T (option TreeManifest) :=
  let! m := m_lift (ok_or InvalidArgument (lb_manifest b)) in
  let! v := get_logical xxh3_128 sha256 b (tree_manifest_key_for m tree_key) in
  m_lift (expect_tree_manifest v).

Section writes.
Context {T : Type} `{WriteOps T}.

Definition read_tree_manifest_for_update (tree_key : list Z) : M (WriteLogicalTxn T) (option TreeManifest) :=
  let! t := m_get in
  let! m := m_lift (require_bound_manifest t) in
  let! v := get_for_update xxh3_128 sha256 (tree_manifest_key_for m tree_key) in
  m_lift (expect_tree_manifest v).
Definition create_tree (tree_key : list Z) (started_at_unix_millis : Z) : M (WriteLogicalTxn T) TreeCreation.t :=
  let! t := m_get in
  let! m := m_lift (require_bound_manifest t) in
  let index := im_logical_index_id m in
  let! root := m_lift (partition_key 1) in
  let! tree_manifest := m_lift (TreeManifest_new root root) in
  let! outcome := insert xxh3_128 sha256 (LogicalKey.TreeManifest index tree_key) (PersistentValue.TreeManifest tree_manifest) in
  if decide (outcome = InsertOutcome.Inserted) then
    let! header := m_lift (PartitionHeader_new 1 0 0 PartitionState.Ready) in
    let! _ := put xxh3_128 sha256 (LogicalKey.Header index tree_key root) (PersistentValue.PartitionHeader header) in
    let! _ := put xxh3_128 sha256 (LogicalKey.Synopsis index tree_key root)
                (PersistentValue.PartitionSynopsis (PartitionSynopsis_empty m)) in
    let! _ := put xxh3_128 sha256 (LogicalKey.State index tree_key root)
                (PersistentValue.PartitionState (PartitionTransition.Ready started_at_unix_millis)) in
    m_ret TreeCreation.Created
  else m_ret TreeCreation.AlreadyExists.
Definition reserve_partition_keys (tree_key : list Z) (count : Z) : M (WriteLogicalTxn T) PartitionKeyReservation :=
  if count =? 0 then m_lift (Err InvalidArgument)
  else
    let! t := m_get in
    let! m := m_lift (require_bound_manifest t) in
    let key := tree_manifest_key_for m tree_key in
    let! v := get_for_update xxh3_128 sha256 key in
    let! found := m_lift (expect_tree_manifest v) in
    let! tree_manifest := m_lift (ok_or InvalidArgument found) in
    let high_water := tm_partition_key_high_water tree_manifest in
    if high_water =? 2 ^ 64 - 1 then m_lift (Err IdExhausted)
    else
      let next := high_water + 1 in
      let! last := m_lift (partition_key (saturating_add_u64 high_water count)) in
      let! updated := m_lift (TreeManifest_new (tm_root tree_manifest) last) in
      let! _ := put xxh3_128 sha256 key (PersistentValue.TreeManifest updated) in
      let! next := m_lift (partition_key next) in
      m_ret (mkReservation next last).
(** Reservations made one after the other in one transaction. *)
Fixpoint reserve_all (tree_key : list Z) (counts : list Z) : M (WriteLogicalTxn T) (list PartitionKeyReservation) :=
  match counts with
  | [] => m_ret []
  | count :: counts =>
      let! r := reserve_partition_keys tree_key count in
      let! rs := reserve_all tree_key counts in
      m_ret (r :: rs)
  end.
End writes.

Section specs.
Context {T : Type} `{WriteLaws T}.
Implicit Types t : WriteLogicalTxn T.
Abbreviation typed_view := (LogicalSpec.typed_view xxh3_128 sha256).
Abbreviation typed_wrote := (LogicalSpec.typed_wrote xxh3_128 sha256).

(** A transaction bound to an index. *)
Record bound t (m : IndexManifest) (types : list DataType.t) : Prop := {
  bd_ready : ready t types;
  bd_manifest : lb_manifest (wl_binding t) = Some m;
}.
Lemma bound_index t m types : bound t m types → manifest_ok m ∧ id_ok (im_logical_index_id m).
Proof.
  intros [[_ Hb] Hm]. apply (bound_manifest_ok _ _ Hb) in Hm. split; [done|]. by destruct Hm.
Qed.
Lemma bound_mono t t' m types g : bound t m types → typed_wrote t t' g → bound t' m types.
Proof. intros [Hr Hm] Hw. split; [by eapply wrote_ready|]. destruct Hw as [_ [Eb _ _ _] _]. by rewrite Eb. Qed.
Lemma bound_reads t t' m types : bound t m types → reads t t' → bound t' m types.
Proof. intros [Hr Hm] Hw. split; [by eapply reads_ready|]. destruct Hw as [_ _ [Eb _ _ _] _]. by rewrite Eb. Qed.
(** The writes of well-formed values of a bound transaction. *)
Lemma serving_put t m types key v (P : ∀ m, manifest_ok m → Prop) :
  bound t m types → key_typed key → (bound_to (Some m) P → value_ok xxh3_128 sha256 (Some m) v) →
  (∀ Hm : manifest_ok m, P m Hm) → mutation_typed xxh3_128 sha256 (wl_binding t) (key, Some v).
Proof.
  intros Hb Hk Hv HP. split; [done|]. intros v' [= <-]. rewrite (bd_manifest _ _ _ Hb). apply Hv.
  destruct (bound_index _ _ _ Hb) as [Hm _]. by exists m, Hm.
Qed.

Definition tree_manifest_at (f : typed_map) (m : IndexManifest) (tree_key : list Z) : result (option PersistentValue.t) :=
  f (tree_manifest_key_for m tree_key).
Lemma reserve_spec m types tree_key count t :
  bound t m types → bytes_ok tree_key → 0 ≤ count →
  wp (reserve_partition_keys tree_key count)
    (λ r t', ∃ hw, tree_manifest_at (typed_view t) m tree_key = Ok (Some (PersistentValue.TreeManifest (mkTreeManifest 1 hw))) ∧
       hw < 2 ^ 64 - 1 ∧ 0 < count ∧ pr_next r = hw + 1 ∧ pr_last r = Z.min (2 ^ 64 - 1) (hw + count) ∧
       typed_wrote t t' (set_typed (typed_view t) (tree_manifest_key_for m tree_key,
         Some (PersistentValue.TreeManifest (mkTreeManifest 1 (pr_last r))))) ∧
       key_protected (tree_manifest_key_for m tree_key) t')
    (λ _ t', same_txn t t') t.
Proof.
  intros Hbd Htk Hc. pose proof (bound_index _ _ _ Hbd) as [Hm Hid]. pose proof Hbd as [Hr Em].
  unfold reserve_partition_keys. destruct (Z.eqb_spec count 0); [by apply wp_lift|].
  apply wp_bind, wp_get. unfold require_bound_manifest. rewrite Em. apply wp_bind, wp_lift; [done| |done]. intros _ [= <-].
  cbv zeta. set (key := tree_manifest_key_for m tree_key). assert (key_typed key) as Hkey by done.
  eapply wp_step; [by apply (typed_get_spec xxh3_128 sha256 types true key t)|by intros e t' [_ _ ? _]|].
  intros v t1 (Hv & Hr1 & Hp). specialize (Hp eq_refl). pose proof (rd_same _ _ Hr1) as Hs1.
  apply wp_bind, wp_lift; [by destruct v as [[]|]| |done]. intros found Hf.
  apply wp_bind, wp_lift; [by destruct found| |done]. intros tm Hok%ok_or_ok. subst found.
  assert (v = Some (PersistentValue.TreeManifest tm)) as ->. { destruct v as [[]|]; try done. by injection Hf as ->. }
  pose proof (typed_view_value xxh3_128 sha256 t types key _ Hr Hv) as [Hval _]. rewrite Em in Hval.
  destruct Hval as (m' & Hm' & _ & [[Hroot Hhw] _]). cbn in Hroot, Hhw. destruct tm as [root hw]. cbn [tm_root tm_partition_key_high_water] in *.
  subst root. destruct (Z.eqb_spec hw (2 ^ 64 - 1)); [by apply wp_lift|].
  unfold saturating_add_u64, partition_key, PartitionKey_new, id_ok in *.
  rewrite (proj2 (Z.eqb_neq _ 0)) by lia. apply wp_bind, wp_lift; [done| |done]. intros last [= <-].
  set (last := Z.min (2 ^ 64 - 1) (hw + count)). assert (hw < last < 2 ^ 64) as Hlast by lia.
  rewrite (proj2 (tree_manifest_new_ok 1 last (mkTreeManifest 1 last))) by (split_and!; try done; lia).
  apply wp_bind, wp_lift; [done| |done]. intros u [= <-].
  pose proof (bound_reads _ _ _ _ Hbd Hr1) as Hbd1.
  eapply wp_step.
  - apply (typed_put_spec xxh3_128 sha256 types); [apply Hbd1|].
    apply (serving_put t1 m types _ _ (λ _ _, admits tree_manifest_family (mkTreeManifest 1 last))); [done..|].
    intros _. split; [|done]. cbn. split; [done|]. unfold id_ok. lia.
  - intros e t2 Hs2. by etrans.
  - intros [] t2 Hw. rewrite (proj2 (Z.eqb_neq _ 0)) by lia. apply wp_bind, wp_lift; [done| |].
    2: { intros e [=]. }
    intros next [= <-]. apply wp_ret. exists hw. split_and!; try done; try lia.
    + destruct Hw as [Hco2 Hs2 Hv2]. split; [done|by etrans|]. rewrite Hv2. by rewrite (reads_typed _ _ _ _ Hr1).
    + eapply key_protected_mono; [apply Hw|done].
Qed.
(** The four values of a new tree. *)
Definition new_tree (m : IndexManifest) (tree_key : list Z) (started_at : Z) : list (LogicalKey.t * option PersistentValue.t) :=
  let index := im_logical_index_id m in
  [(LogicalKey.TreeManifest index tree_key, Some (PersistentValue.TreeManifest (mkTreeManifest 1 1)));
   (LogicalKey.Header index tree_key 1, Some (PersistentValue.PartitionHeader (mkPartitionHeader 1 0 0 PartitionState.Ready)));
   (LogicalKey.Synopsis index tree_key 1, Some (PersistentValue.PartitionSynopsis (PartitionSynopsis_empty m)));
   (LogicalKey.State index tree_key 1, Some (PersistentValue.PartitionState (PartitionTransition.Ready started_at)))].
Lemma empty_synopsis_admitted m (Hm : manifest_ok m) : admits (synopsis_family xxh3_128 m Hm) (PartitionSynopsis_empty m).
Proof.
  destruct (empty_spec xxh3_128 m Hm) as [[Hty _] _]. split; [exact Hty|]. cbn. unfold PartitionSynopsis_empty. apply Forall_fmap, Forall_forall.
  by intros p _ v [|].
Qed.
Lemma new_tree_typed t m types tree_key started_at :
  bound t m types → bytes_ok tree_key → u64_ok started_at →
  Forall (mutation_typed xxh3_128 sha256 (wl_binding t)) (new_tree m tree_key started_at).
Proof.
  intros Hbd Htk Hat. pose proof (bound_index _ _ _ Hbd) as [Hm Hid]. unfold new_tree. cbv zeta.
  assert (id_ok 1) by (unfold id_ok; lia).
  repeat (apply List.Forall_cons || apply List.Forall_nil).
  - by apply (serving_put t m types _ _ (λ _ _, admits tree_manifest_family (mkTreeManifest 1 1))).
  - by apply (serving_put t m types _ _ (λ _ _, admits header_family (mkPartitionHeader 1 0 0 PartitionState.Ready))).
  - apply (serving_put t m types _ _ (λ m' Hm', admits (synopsis_family xxh3_128 m' Hm') (PartitionSynopsis_empty m))); [done..|].
    intros Hm'. apply empty_synopsis_admitted.
  - by apply (serving_put t m types _ _ (λ _ _, admits state_family (PartitionTransition.Ready started_at))).
Qed.
Lemma wrote_put t t1 t2 g m v :
  typed_wrote t t1 g → typed_wrote t1 t2 (set_typed (typed_view t1) (m, v)) → typed_wrote t t2 (set_typed g (m, v)).
Proof. intros [? Hs1 Hv1] [? Hs2 Hv2]. split; [done|by etrans|]. by rewrite Hv2, Hv1. Qed.
Lemma create_tree_spec m types tree_key started_at t :
  bound t m types → bytes_ok tree_key → u64_ok started_at →
  wp (create_tree tree_key started_at)
    (λ o t', key_protected (tree_manifest_key_for m tree_key) t' ∧
       match o with
       | TreeCreation.Created => tree_manifest_at (typed_view t) m tree_key = Ok None ∧
           typed_wrote t t' (foldl set_typed (typed_view t) (new_tree m tree_key started_at))
       | TreeCreation.AlreadyExists => (∃ v, tree_manifest_at (typed_view t) m tree_key = Ok (Some v)) ∧ reads t t'
       end) (λ _ t', same_txn t t') t.
Proof.
  intros Hbd Htk Hat. pose proof (new_tree_typed _ _ _ _ _ Hbd Htk Hat) as Hty. pose proof Hbd as [Hr Em].
  unfold new_tree in Hty. cbv zeta in Hty. apply Forall_cons_iff in Hty as [Hm1 Hty]. apply Forall_cons_iff in Hty as [Hm2 Hty].
  apply Forall_cons_iff in Hty as [Hm3 Hty]. apply Forall_cons_iff in Hty as [Hm4 _].
  unfold create_tree. apply wp_bind, wp_get. unfold require_bound_manifest. rewrite Em.
  apply wp_bind, wp_lift; [done| |done]. intros _ [= <-]. cbv zeta.
  apply wp_bind, wp_lift; [done| |done]. intros root [= <-]. apply wp_bind, wp_lift; [done| |done]. intros tm [= <-].
  eapply wp_step; [by apply (typed_insert_spec xxh3_128 sha256 types)|done|]. intros o t1 [Hp Ho]. destruct o.
  2: { rewrite decide_False by done. by apply wp_ret. }
  rewrite decide_True by done. destruct Ho as [Hnone Hw1]. apply wp_bind, wp_lift; [done| |done]. intros h [= <-].
  assert (∀ ti g key v, typed_wrote t ti g → mutation_typed xxh3_128 sha256 (wl_binding t) (key, Some v) →
    wp (put xxh3_128 sha256 key v) (λ _ t', typed_wrote t t' (set_typed g (key, Some v)) ∧ same_txn ti t') (λ _ t', same_txn t t') ti) as Hput.
  { intros ti g key v Hw Hm. eapply wp_mono; [apply (typed_put_spec xxh3_128 sha256 types); [by eapply wrote_ready|]| |].
    - by rewrite (sm_binding _ _ (tw_same _ _ _ _ _ Hw)).
    - intros [] t' Hw'. split; [by eapply wrote_put|apply Hw'].
    - intros e t' Hs. etrans; [apply Hw|done]. }
  eapply wp_step; [by apply Hput|done|]. intros [] t2 [Hw2 Hs2]. eapply wp_step; [by apply Hput|done|]. intros [] t3 [Hw3 Hs3].
  eapply wp_step; [by apply Hput|done|]. intros [] t4 [Hw4 Hs4]. apply wp_ret. split; [|by split].
  eapply key_protected_mono; [|exact Hp]. by do 2 (etrans; [eassumption|]).
Qed.

(** Reservations that follow one another from a high-water mark. *)
Fixpoint chained (high_water : Z) (counts : list Z) (rs : list PartitionKeyReservation) : Prop :=
  match counts, rs with
  | [], [] => True
  | count :: counts, r :: rs =>
      high_water < 2 ^ 64 - 1 ∧ pr_next r = high_water + 1 ∧ pr_last r = Z.min (2 ^ 64 - 1) (high_water + count) ∧
      chained (pr_last r) counts rs
  | _, _ => False
  end.
Definition high_water_after (high_water : Z) (rs : list PartitionKeyReservation) : Z :=
  match list_basics.list.last rs with Some r => pr_last r | None => high_water end.
Lemma chained_above high_water counts rs r :
  Forall (λ c, 0 < c) counts → chained high_water counts rs → r ∈ rs →
  high_water < pr_next r ≤ pr_last r ∧ pr_last r < 2 ^ 64.
Proof.
  revert high_water rs. induction counts as [|count counts IH]; intros hw [|r0 rs] Hc Hch Hin; try done.
  { by apply elem_of_nil in Hin. }
  apply Forall_cons_iff in Hc as [Hc0 Hc]. destruct Hch as (? & Hn & Hl & Hch).
  apply elem_of_cons in Hin as [->|Hin]; [lia|]. specialize (IH _ _ Hc Hch Hin). lia.
Qed.
Lemma chained_disjoint high_water counts rs :
  Forall (λ c, 0 < c) counts → chained high_water counts rs → StronglySorted (λ r r', pr_last r < pr_next r') rs.
Proof.
  revert high_water rs. induction counts as [|count counts IH]; intros hw [|r0 rs] Hc Hch; try done; [constructor|].
  apply Forall_cons_iff in Hc as [Hc0 Hc]. destruct Hch as (? & Hn & Hl & Hch). constructor; [by eapply IH|].
  apply Forall_forall. intros r Hr%list_elem_of_In. by eapply chained_above.
Qed.
Lemma reserve_all_spec m types tree_key counts t hw :
  bound t m types → bytes_ok tree_key → Forall (λ c, 0 ≤ c) counts →
  tree_manifest_at (typed_view t) m tree_key = Ok (Some (PersistentValue.TreeManifest (mkTreeManifest 1 hw))) →
  wp (reserve_all tree_key counts)
    (λ rs t', Forall (λ c, 0 < c) counts ∧ chained hw counts rs ∧ (coherent t' ∧ same_txn t t') ∧
       tree_manifest_at (typed_view t') m tree_key
         = Ok (Some (PersistentValue.TreeManifest (mkTreeManifest 1 (high_water_after hw rs)))) ∧
       (∀ key, key_typed key → key ≠ tree_manifest_key_for m tree_key → typed_view t' key = typed_view t key) ∧
       (counts ≠ [] → key_protected (tree_manifest_key_for m tree_key) t'))
    (λ _ t', same_txn t t') t.
Proof.
  intros Hbd Htk Hc. revert t hw Hbd. induction Hc as [|count counts Hc0 Hc IH]; intros t hw Hbd Hat; cbn [reserve_all].
  { apply wp_ret. split_and!; try done. apply Hbd. }
  pose proof (bound_index _ _ _ Hbd) as [_ Hid].
  eapply wp_step; [by eapply reserve_spec|done|]. intros r t1 (hw' & Hat' & Hlt & Hpos & Hn & Hl & Hw & Hp).
  rewrite Hat in Hat'. assert (hw' = hw) as -> by congruence. pose proof (bound_mono _ _ _ _ _ Hbd Hw) as Hbd1.
  assert (key_typed (tree_manifest_key_for m tree_key)) as Hkt by done.
  eapply wp_step.
  - apply (IH t1 (pr_last r)); [done|]. unfold tree_manifest_at. rewrite (tw_view _ _ _ _ _ Hw) by done.
    unfold set_typed. by rewrite decide_True.
  - intros e t2 Hs. etrans; [apply Hw|done].
  - intros rs t2 (Hcs & Hch & [Hco Hs] & Hfin & Hrest & Hpr). apply wp_ret. split_and!; try done.
    + by constructor.
    + etrans; [apply Hw|done].
    + rewrite Hfin. unfold high_water_after. destruct rs as [|r' rs]; [done|]. rewrite last_cons_cons.
      destruct (list_basics.list.last (r' :: rs)) eqn:El; [done|]. by apply last_None in El.
    + intros key Hk Hne. rewrite Hrest, (tw_view _ _ _ _ _ Hw) by done. unfold set_typed. by rewrite decide_False.
    + intros _. by eapply key_protected_mono.
Qed.
End specs.
End tree_ops.

(** C21: Partition Keys are never reused: reservations made in a transaction start
    right above the persisted high-water mark, are nonempty, ascending and
    pairwise disjoint, and shorter than requested only at the end of the
    identifier space; the mark then persists at the last key handed out, no
    other value changes, and the mark is protected, so that no concurrent
    transaction can commit an overlapping reservation. *)
Theorem partition_keys_never_reused {T} `{WriteLaws T} xxh3_128 sha256 m types tree_key counts (t t' : WriteLogicalTxn T) rs hw :
  bound t m types → bytes_ok tree_key → Forall (λ c, 0 ≤ c) counts → counts ≠ [] →
  tree_manifest_at (typed_view xxh3_128 sha256 t) m tree_key
    = Ok (Some (PersistentValue.TreeManifest (mkTreeManifest 1 hw))) →
  reserve_all xxh3_128 sha256 tree_key counts t = (t', Ok rs) →
  chained hw counts rs ∧ Forall (λ r, hw < pr_next r ≤ pr_last r ∧ pr_last r < 2 ^ 64) rs ∧
  StronglySorted (λ r r', pr_last r < pr_next r') rs ∧
  tree_manifest_at (typed_view xxh3_128 sha256 t') m tree_key
    = Ok (Some (PersistentValue.TreeManifest (mkTreeManifest 1 (high_water_after hw rs)))) ∧
  (∀ key, key_typed key → key ≠ tree_manifest_key_for m tree_key →
     typed_view xxh3_128 sha256 t' key = typed_view xxh3_128 sha256 t key) ∧
  key_protected (tree_manifest_key_for m tree_key) t'.
Proof.
  intros Hbd Htk Hc Hne Hat Hrun.
  destruct (wp_ok _ _ _ _ _ _ (reserve_all_spec xxh3_128 sha256 m types tree_key counts t hw Hbd Htk Hc Hat) Hrun)
    as (Hpos & Hch & _ & Hfin & Hrest & Hp). split_and!; try done; [| |by apply Hp].
  - apply Forall_forall. intros r Hr%list_elem_of_In. by eapply chained_above.
  - by eapply chained_disjoint.
Qed.

(** C23: A tree is created whole or not at all: creation installs the Tree
    Manifest with root 1, the empty Ready root leaf, its empty synopsis and its
    state, and changes nothing else; when the tree exists, nothing changes at
    all; either way the Tree Manifest key is protected, and creation never
    panics. *)
Theorem create_tree_atomic {T} `{WriteLaws T} xxh3_128 sha256 m types tree_key started_at (t : WriteLogicalTxn T) :
  bound t m types → bytes_ok tree_key → u64_ok started_at →
  match create_tree xxh3_128 sha256 tree_key started_at t with
  | (t', Ok TreeCreation.Created) =>
      tree_manifest_at (typed_view xxh3_128 sha256 t) m tree_key = Ok None ∧
      same_map (typed_view xxh3_128 sha256 t')
        (foldl set_typed (typed_view xxh3_128 sha256 t) (new_tree m tree_key started_at)) ∧
      key_protected (tree_manifest_key_for m tree_key) t'
  | (t', Ok TreeCreation.AlreadyExists) =>
      (∃ v, tree_manifest_at (typed_view xxh3_128 sha256 t) m tree_key = Ok (Some v)) ∧
      same_map (typed_view xxh3_128 sha256 t') (typed_view xxh3_128 sha256 t) ∧
      key_protected (tree_manifest_key_for m tree_key) t'
  | (_, Err _) => True
  | (_, Panic) => False
  end.
Proof.
  intros Hbd Htk Hat. pose proof (create_tree_spec xxh3_128 sha256 m types tree_key started_at t Hbd Htk Hat) as Hw.
  unfold wp in Hw. destruct (create_tree xxh3_128 sha256 tree_key started_at t) as [t' [[]|e|]]; [| |done..].
  - destruct Hw as (Hp & Hn & [_ _ Hv]). done.
  - destruct Hw as (Hp & Hv & Hr). split_and!; [done| |done]. by apply reads_typed.
Qed.

(** ** A concrete tree over the in-memory backend *)
Definition sample_tree_key : list Z := [128; 0; 0; 0; 0; 0; 0; 0].
Lemma sample_write_bound : bound sample_write sample_manifest [DataType.F64].
Proof. split; [split; [exact sample_write_coherent|exact sample_binding_ok]|reflexivity]. Qed.
Definition sample_tree : WriteLogicalTxn WriteTxn := (create_tree sample_hash (λ bs, bs) sample_tree_key 5 sample_write).1.
Lemma create_tree_atomic_witness :
  tree_manifest_at (typed_view sample_hash (λ bs, bs) sample_tree) sample_manifest sample_tree_key
  = Ok (Some (PersistentValue.TreeManifest (mkTreeManifest 1 1))).
Proof.
  pose proof (create_tree_atomic sample_hash (λ bs, bs) sample_manifest [DataType.F64] sample_tree_key 5 sample_write
    sample_write_bound) as H.
  assert ((create_tree sample_hash (λ bs, bs) sample_tree_key 5 sample_write).2 = Ok TreeCreation.Created) as E
    by (vm_compute; reflexivity).
  unfold sample_tree. destruct (create_tree _ _ _ _ _) as [t' r]. cbn [fst snd] in *. subst r.
  destruct H as (_ & Hv & _); [dec_compute|by split|]. unfold tree_manifest_at. rewrite Hv; [reflexivity|].
  split; dec_compute.
Defined.
Lemma partition_keys_never_reused_witness :
  ∃ t' rs, reserve_all sample_hash (λ bs, bs) sample_tree_key [2; 3] sample_tree = (t', Ok rs) ∧
    rs = [mkReservation 2 3; mkReservation 4 6] ∧ StronglySorted (λ r r', pr_last r < pr_next r') rs.
Proof.
  destruct (reserve_all sample_hash (λ bs, bs) sample_tree_key [2; 3] sample_tree) as [t' r] eqn:E.
  assert (r = Ok [mkReservation 2 3; mkReservation 4 6]) as ->.
  { transitivity (reserve_all sample_hash (λ bs, bs) sample_tree_key [2; 3] sample_tree).2; [by rewrite E|]. vm_compute. reflexivity. }
  exists t', [mkReservation 2 3; mkReservation 4 6]. split; [done|]. split; [done|].
  apply (partition_keys_never_reused sample_hash (λ bs, bs) sample_manifest [DataType.F64] sample_tree_key [2; 3] sample_tree t' _ 1).
  - pose proof (create_tree_spec sample_hash (λ bs, bs) sample_manifest [DataType.F64] sample_tree_key 5 sample_write
      sample_write_bound ltac:(dec_compute) ltac:(by split)) as H. unfold wp in H.
    assert ((create_tree sample_hash (λ bs, bs) sample_tree_key 5 sample_write).2 = Ok TreeCreation.Created) as Ec
      by (vm_compute; reflexivity).
    unfold sample_tree. destruct (create_tree _ _ _ _ _) as [t1 r1]. cbn [fst snd] in *. subst r1.
    destruct H as (_ & _ & Hw). eapply bound_mono; [exact sample_write_bound|exact Hw].
  - dec_compute.
  - repeat constructor; lia.
  - done.
  - vm_compute. reflexivity.
  - exact E.
Defined.
