(* ===== verification/Membership.v ===== *)
(** Foreground mutations of exact record membership
    (src/src/storage/membership.rs): insert, replace and delete of one record's
    whole group, with the writes of a batch queued into one builder and the
    Header and Synopsis changes of each leaf accumulated, the protected location
    reads, and the prefetch that warms the transaction's read cache. *)
From stdpp Require Import gmap sorting.
From S2P Require Import Prelude RustStd Api TreeKey Keys KeyRanges RaBitQ Manifest Wire Records Synopsis Values Backend Memory Txn Codec Logical.

#[global] Instance RecordLocation_eq_dec : EqDecision RecordLocation.
Proof. solve_decision. Defined.

(** ** Outcomes *)
Module DeleteOutcome.
Inductive t := Deleted (location : RecordLocation) | NotFound.
End DeleteOutcome.
Module DeleteReport.
Inductive t := Deleted (location : RecordLocation) (header : PartitionHeader) | NotFound.
End DeleteReport.
Record ReplacementHeaders := mkReplacement { rh_source : option PartitionHeader; rh_target : PartitionHeader }.

(** ** Keys *)
Definition record_key (index : Z) (id : list Z) : LogicalKey.t := LogicalKey.Record index id.
Definition location_key (index : Z) (id : list Z) : LogicalKey.t := LogicalKey.Location index id.
Definition payload_key (index : Z) (id : list Z) : LogicalKey.t := LogicalKey.Payload index id.
Definition header_key (index : Z) (l : RecordLocation) : LogicalKey.t :=
  LogicalKey.Header index (rl_tree_key l) (rl_leaf l).
Definition synopsis_key (index : Z) (l : RecordLocation) : LogicalKey.t :=
  LogicalKey.Synopsis index (rl_tree_key l) (rl_leaf l).
Definition entry_key (index : Z) (l : RecordLocation) (id : list Z) : LogicalKey.t :=
  LogicalKey.LeafEntry index (rl_tree_key l) (rl_leaf l) id.

(** ** Header arithmetic *)
(** [u32] and [u64] checked arithmetic, a failure being corruption. *)
Definition checked_bump (bits a : Z) : result Z := if a + 1 <? 2 ^ bits then Ok (a + 1) else Err Corruption.
Definition adjust_header (h : PartitionHeader) (entry_count : Z) : result PartitionHeader :=
  checked_bump 64 (ph_cache_epoch h) ≫= λ cache_epoch,
  map_err Corruption (PartitionHeader_new (ph_level h) entry_count cache_epoch (ph_state h)).
Definition added_entry (h : PartitionHeader) : result PartitionHeader :=
  checked_bump 32 (ph_entry_count h) ≫= adjust_header h.
Definition removed_entry (h : PartitionHeader) : result PartitionHeader :=
  (if 1 <=? ph_entry_count h then Ok (ph_entry_count h - 1) else Err Corruption) ≫= adjust_header h.
Definition touched_entry (h : PartitionHeader) : result PartitionHeader := adjust_header h (ph_entry_count h).
Definition expect_write_target (h : PartitionHeader) : result PartitionHeader :=
  if (ph_level h =? 1) && PartitionState_accepts_writes (ph_state h) then Ok h else Err Corruption.
Definition expect_inserted (o : InsertOutcome.t) : result unit :=
  match o with InsertOutcome.Inserted => Ok tt | InsertOutcome.AlreadyExists => Err Corruption end.
Definition classify_location_pair (record location : option PersistentValue.t) : result (option RecordLocation) :=
  expect_record record ≫= λ record, expect_location location ≫= λ location,
  match record, location with
  | None, None => Ok None
  | Some _, Some location => Ok (Some location)
  | _, _ => Err Corruption
  end.

(** ** The accumulator *)
Abbreviation leaf_key := (list Z * Z)%type.
Definition leaf_of (l : RecordLocation) : leaf_key := (rl_tree_key l, rl_leaf l).
Record SynopsisExpansion := mkExpansion { se_synopsis : PartitionSynopsis; se_changed : bool }.
Record LeafAccumulator := mkLeaves {
  la_headers : gmap leaf_key PartitionHeader; la_synopses : gmap leaf_key SynopsisExpansion
}.
Definition LeafAccumulator_new : LeafAccumulator := mkLeaves ∅ ∅.
(** The order of a [BTreeMap] keyed by Tree Key and Partition Key. *)
Definition leaf_le {A} (a b : leaf_key * A) : Prop := a.1.1 <ₗ b.1.1 ∨ a.1.1 = b.1.1 ∧ a.1.2 ≤ b.1.2.
#[global] Instance leaf_le_dec {A} : RelDecision (@leaf_le A).
Proof. intros a b. unfold leaf_le. apply _. Defined.
Definition in_leaf_order {A} (m : gmap leaf_key A) : list (leaf_key * A) := merge_sort leaf_le (map_to_list m).

(** The transaction with the two write sinks that travel with it. *)
Record MemberState (T : Type) := mkMember {
  ms_txn : WriteLogicalTxn T; ms_deferred : MutationBuilder; ms_leaves : LeafAccumulator
}.
Arguments mkMember {T}.
Arguments ms_txn {T}.
Arguments ms_deferred {T}.
Arguments ms_leaves {T}.

Module MembershipPrefetch.
Inductive t :=
  | Insert (id : list Z) (payload : bool) (target : RecordLocation)
  | Replace (id : list Z) (expected target : RecordLocation)
  | Delete (id : list Z).
End MembershipPrefetch.
Definition MEMBERSHIP_READ_CHUNK : nat := 1024.
(** [slice::chunks]; every chunk takes at least one element. *)
Fixpoint chunks_fuel {A} (fuel n : nat) (l : list A) : list (list A) :=
  match fuel, l with
  | S fuel, _ :: _ => take n l :: chunks_fuel fuel n (drop n l)
  | _, _ => []
  end.
Definition chunks {A} (n : nat) (l : list A) : list (list A) := chunks_fuel (length l) n l.

Section membership.
Context (xxh3_128 : Z → list Z → Z) (sha256 : list Z → list Z).
Context {T : Type} `{WriteOps T}.
Abbreviation St := (MemberState T).

Definition on_txn {A} (m : M (WriteLogicalTxn T) A) : M St A := λ s,
  let '(txn, r) := m (ms_txn s) in (mkMember txn (ms_deferred s) (ms_leaves s), r).
Definition on_deferred {A} (m : M MutationBuilder A) : M St A := λ s,
  let '(deferred, r) := m (ms_deferred s) in (mkMember (ms_txn s) deferred (ms_leaves s), r).
Definition set_header (l : RecordLocation) (h : PartitionHeader) (s : St) : St :=
  mkMember (ms_txn s) (ms_deferred s)
    (mkLeaves (<[leaf_of l := h]> (la_headers (ms_leaves s))) (la_synopses (ms_leaves s))).
Definition set_synopsis (l : RecordLocation) (e : SynopsisExpansion) (s : St) : St :=
  mkMember (ms_txn s) (ms_deferred s)
    (mkLeaves (la_headers (ms_leaves s)) (<[leaf_of l := e]> (la_synopses (ms_leaves s)))).
Definition get_typed (key : LogicalKey.t) : M St (option PersistentValue.t) :=
  on_txn (get_for_update xxh3_128 sha256 key).
Definition defer_put (key : LogicalKey.t) (value : PersistentValue.t) : M St unit :=
  on_deferred (builder_put xxh3_128 sha256 key value).
Definition defer_delete (key : LogicalKey.t) : M St unit := on_deferred (builder_delete key).

Definition acc_header (index : Z) (l : RecordLocation) : M St PartitionHeader :=
  let! s := m_get in
  match la_headers (ms_leaves s) !! leaf_of l with
  | Some header => m_ret header
  | None =>
      let! v := get_typed (header_key index l) in
      let! header := m_lift (expect_header v ≫= ok_or Corruption) in
      let! _ := modify (set_header l header) in
      m_ret header
  end.
Definition acc_expand (m : IndexManifest) (target : RecordLocation) (projection : list Value.t) : M St unit :=
  let! s := m_get in
  let! expansion :=
    match la_synopses (ms_leaves s) !! leaf_of target with
    | Some expansion => m_ret expansion
    | None =>
        let! v := get_typed (synopsis_key (im_logical_index_id m) target) in
        let! stored := m_lift (expect_synopsis v ≫= ok_or Corruption) in
        let! _ := modify (set_synopsis target (mkExpansion stored false)) in
        m_ret (mkExpansion stored false)
    end in
  let! expanded := m_lift (PartitionSynopsis_expand xxh3_128 (se_synopsis expansion) m projection) in
  modify (set_synopsis target (mkExpansion expanded.1 (se_changed expansion || expanded.2))).

Definition expect_absent (key : LogicalKey.t) : M St unit :=
  let! v := get_typed key in
  match v with Some _ => m_lift (Err Corruption) | None => m_ret tt end.
Definition validated_input (record : VectorRecord) (entry : LeafEntry) : M St IndexManifest :=
  let! s := m_get in
  if decide (vr_record_id record = le_record_id entry) then m_lift (require_bound_manifest (ms_txn s))
  else m_lift (Err InvalidArgument).

(** ** One record *)
Definition insert_record_with_header (record : VectorRecord) (payload : option (list Z)) (target : RecordLocation)
    (entry : LeafEntry) : M St PartitionHeader :=
  let! m := validated_input record entry in
  let index := im_logical_index_id m in
  let id := vr_record_id record in
  let! existing := get_typed (record_key index id) in
  match existing with
  | Some _ => m_lift (Err RecordAlreadyExists)
  | None =>
      let! _ := defer_put (record_key index id) (PersistentValue.VectorRecord record) in
      let! _ := expect_absent (location_key index id) in
      let! _ := defer_put (location_key index id) (PersistentValue.RecordLocation target) in
      let! _ :=
        match payload with
        | Some payload =>
            let! _ := expect_absent (payload_key index id) in
            defer_put (payload_key index id) (PersistentValue.OpaquePayload payload)
        | None => m_ret tt
        end in
      let! header := acc_header index target in
      let! adjusted := m_lift (expect_write_target header ≫= added_entry) in
      let! _ := modify (set_header target adjusted) in
      let! _ := acc_expand m target (le_fields entry) in
      let! _ := expect_absent (entry_key index target id) in
      let! _ := defer_put (entry_key index target id) (PersistentValue.LeafEntry entry) in
      m_ret adjusted
  end.
Definition replace_source (index : Z) (id : list Z) (expected target : RecordLocation) (entry : LeafEntry)
    : M St (option PartitionHeader) :=
  if decide (expected = target) then
    let! v := get_typed (entry_key index target id) in
    let! _ := m_lift (expect_leaf_entry v ≫= ok_or Corruption) in
    let! _ := defer_put (entry_key index target id) (PersistentValue.LeafEntry entry) in
    m_ret None
  else
    let! v := get_typed (entry_key index expected id) in
    let! _ := m_lift (expect_leaf_entry v ≫= ok_or Corruption) in
    let! _ := defer_delete (entry_key index expected id) in
    let! _ := expect_absent (entry_key index target id) in
    let! _ := defer_put (entry_key index target id) (PersistentValue.LeafEntry entry) in
    let! source := acc_header index expected in
    let! adjusted := m_lift (removed_entry source) in
    let! _ := modify (set_header expected adjusted) in
    m_ret (Some adjusted).
Definition replace_record_with_headers (record : VectorRecord) (payload : option (list Z))
    (expected target : RecordLocation) (entry : LeafEntry) : M St ReplacementHeaders :=
  let! m := validated_input record entry in
  let index := im_logical_index_id m in
  let id := vr_record_id record in
  let! _ := defer_put (record_key index id) (PersistentValue.VectorRecord record) in
  let! _ :=
    if decide (target = expected) then m_ret tt
    else defer_put (location_key index id) (PersistentValue.RecordLocation target) in
  let! _ :=
    match payload with
    | Some payload => defer_put (payload_key index id) (PersistentValue.OpaquePayload payload)
    | None => defer_delete (payload_key index id)
    end in
  let! source := replace_source index id expected target entry in
  let! header := acc_header index target in
  let! target_header := m_lift (expect_write_target header) in
  let! adjusted := m_lift (if decide (expected = target) then touched_entry target_header else added_entry target_header) in
  let! _ := modify (set_header target adjusted) in
  let! _ := acc_expand m target (le_fields entry) in
  m_ret (mkReplacement source adjusted).
Definition delete_record_with_header (id : list Z) (prefetched_location : option RecordLocation) : M St DeleteReport.t :=
  let! s := m_get in
  let! m := m_lift (require_bound_manifest (ms_txn s)) in
  let index := im_logical_index_id m in
  let! v := get_typed (record_key index id) in
  let! record := m_lift (expect_record v) in
  match record with
  | None => m_ret DeleteReport.NotFound
  | Some _ =>
      let! location :=
        match prefetched_location with
        | Some location => m_ret location
        | None =>
            let! v := get_typed (location_key index id) in
            m_lift (expect_location v ≫= ok_or Corruption)
        end in
      let! v := get_typed (entry_key index location id) in
      let! _ := m_lift (expect_leaf_entry v ≫= ok_or Corruption) in
      let! _ := defer_delete (record_key index id) in
      let! _ := defer_delete (location_key index id) in
      let! _ := defer_delete (entry_key index location id) in
      let! _ := defer_delete (payload_key index id) in
      let! stored := acc_header index location in
      let! header := m_lift (removed_entry stored) in
      let! _ := modify (set_header location header) in
      m_ret (DeleteReport.Deleted location header)
  end.

(** [LeafAccumulator::flush]: the accumulator is consumed. *)
Fixpoint flush_headers (index : Z) (headers : list (leaf_key * PartitionHeader)) : M MutationBuilder unit :=
  match headers with
  | [] => m_ret tt
  | ((tree_key, partition), header) :: headers =>
      let! _ := builder_put xxh3_128 sha256 (LogicalKey.Header index tree_key partition) (PersistentValue.PartitionHeader header) in
      flush_headers index headers
  end.
Fixpoint flush_synopses (index : Z) (synopses : list (leaf_key * SynopsisExpansion)) : M MutationBuilder unit :=
  match synopses with
  | [] => m_ret tt
  | ((tree_key, partition), expansion) :: synopses =>
      let! _ :=
        if se_changed expansion
        then builder_put xxh3_128 sha256 (LogicalKey.Synopsis index tree_key partition)
               (PersistentValue.PartitionSynopsis (se_synopsis expansion))
        else m_ret tt in
      flush_synopses index synopses
  end.
Definition acc_flush : M St unit :=
  let! s := m_get in
  let! m := m_lift (require_bound_manifest (ms_txn s)) in
  let! _ := on_deferred (flush_headers (im_logical_index_id m) (in_leaf_order (la_headers (ms_leaves s)))) in
  on_deferred (flush_synopses (im_logical_index_id m) (in_leaf_order (la_synopses (ms_leaves s)))).

(** The public single-record operations: an accumulator of their own. *)
Definition with_leaves {A} (op : M St A) : M (WriteLogicalTxn T * MutationBuilder) A := λ '(txn, deferred),
  match op (mkMember txn deferred LeafAccumulator_new) with
  | (s, r) => ((ms_txn s, ms_deferred s), r)
  end.
Definition insert_record (record : VectorRecord) (payload : option (list Z)) (target : RecordLocation) (entry : LeafEntry)
    : M (WriteLogicalTxn T * MutationBuilder) unit :=
  with_leaves (
    let! _ := insert_record_with_header record payload target entry in
    acc_flush).
Definition replace_record (record : VectorRecord) (payload : option (list Z)) (expected target : RecordLocation)
    (entry : LeafEntry) : M (WriteLogicalTxn T * MutationBuilder) unit :=
  with_leaves (
    let! m := validated_input record entry in
    let index := im_logical_index_id m in
    let id := vr_record_id record in
    let! v := get_typed (record_key index id) in
    let! _ := m_lift (expect_record v ≫= ok_or Corruption) in
    let! v := get_typed (location_key index id) in
    let! location := m_lift (expect_location v ≫= ok_or Corruption) in
    if decide (location = expected) then
      let! _ := replace_record_with_headers record payload expected target entry in
      acc_flush
    else m_lift (Err Corruption)).
Definition delete_record (id : list Z) : M (WriteLogicalTxn T * MutationBuilder) DeleteOutcome.t :=
  with_leaves (
    let! report := delete_record_with_header id None in
    let! _ := acc_flush in
    m_ret match report with
          | DeleteReport.Deleted location _ => DeleteOutcome.Deleted location
          | DeleteReport.NotFound => DeleteOutcome.NotFound
          end).

(** ** Protected location reads *)
Fixpoint locations_loop (index : Z) (ids : list (list Z)) : M (WriteLogicalTxn T) (list (option RecordLocation)) :=
  match ids with
  | [] => m_ret []
  | id :: ids =>
      let! record := get_for_update xxh3_128 sha256 (record_key index id) in
      let! location := get_for_update xxh3_128 sha256 (location_key index id) in
      let! location := m_lift (classify_location_pair record location) in
      let! locations := locations_loop index ids in
      m_ret (location :: locations)
  end.
Definition read_locations_for_update (ids : list (list Z)) : M (WriteLogicalTxn T) (list (option RecordLocation)) :=
  let! t := m_get in
  let! m := m_lift (require_bound_manifest t) in
  let index := im_logical_index_id m in
  let! _ := warm_for_update (id ← ids; [record_key index id; location_key index id]) in
  locations_loop index ids.

(** ** Prefetching *)

(** An operation whose failure is ignored. *)
Definition attempt {S A} (op : M S A) : M S (option A) := λ s,
  match op s with
  | (s', Ok a) => (s', Ok (Some a))
  | (s', Err _) => (s', Ok None)
  | (s', Panic) => (s', Panic)
  end.
Fixpoint warm_chunks_loop (chunked : list (list LogicalKey.t)) : M (WriteLogicalTxn T) bool :=
  match chunked with
  | [] => m_ret true
  | chunk :: chunked =>
      let! warmed := attempt (warm_for_update chunk) in
      match warmed with
      | Some _ => warm_chunks_loop chunked
      | None => m_ret false
      end
  end.
Definition warm_chunks_for_update (keys : list LogicalKey.t) : M (WriteLogicalTxn T) bool :=
  warm_chunks_loop (chunks MEMBERSHIP_READ_CHUNK keys).
(** A leaf-level key, once per distinct leaf: [BTreeSet::insert]. *)
Definition warm_once (warmed : gset leaf_key) (l : RecordLocation) (key : LogicalKey.t) : gset leaf_key * list LogicalKey.t :=
  if decide (leaf_of l ∈ warmed) then (warmed, []) else ({[leaf_of l]} ∪ warmed, [key]).
Fixpoint prefetch_keys (index : Z) (items : list MembershipPrefetch.t) (synopses headers : gset leaf_key)
    : list LogicalKey.t * gset leaf_key :=
  match items with
  | [] => ([], headers)
  | MembershipPrefetch.Insert id payload target :: items =>
      let '(synopses, synopsis) := warm_once synopses target (synopsis_key index target) in
      let '(keys, headers) := prefetch_keys index items synopses headers in
      ([record_key index id; location_key index id] ++ (if payload then [payload_key index id] else []) ++
         [entry_key index target id] ++ synopsis ++ keys, headers)
  | MembershipPrefetch.Replace id expected target :: items =>
      let '(synopses, synopsis) := warm_once synopses target (synopsis_key index target) in
      let '(headers, header) :=
        if decide (expected = target) then (headers, [])
        else let '(headers, header) := warm_once headers expected (header_key index expected) in
             (headers, entry_key index expected id :: header) in
      let '(keys, headers) := prefetch_keys index items synopses headers in
      (entry_key index target id :: synopsis ++ header ++ keys, headers)
  | MembershipPrefetch.Delete id :: items =>
      let '(keys, headers) := prefetch_keys index items synopses headers in
      (record_key index id :: location_key index id :: keys, headers)
  end.
Definition deleted_ids (items : list MembershipPrefetch.t) : list (list Z) :=
  omap (λ item, match item with MembershipPrefetch.Delete id => Some id | _ => None end) items.
(** The second wave: the leaf keys of the located deletes, and their locations;
    nothing when the read values run out or have another family. *)
Fixpoint located_keys (index : Z) (ids : list (list Z)) (locations : list (option PersistentValue.t))
    (headers : gset leaf_key) : option (list LogicalKey.t * list (option RecordLocation)) :=
  match ids with
  | [] => Some ([], [])
  | id :: ids =>
      match locations with
      | Some (PersistentValue.RecordLocation location) :: locations =>
          let '(headers, header) := warm_once headers location (header_key index location) in
          located_keys index ids locations headers ≫= λ '(keys, prefetched),
          Some (entry_key index location id :: header ++ keys, Some location :: prefetched)
      | None :: locations =>
          located_keys index ids locations headers ≫= λ '(keys, prefetched), Some (keys, None :: prefetched)
      | _ => None
      end
  end.
Definition prefetch_membership_for_update (items : list MembershipPrefetch.t)
    : M (WriteLogicalTxn T) (list (option RecordLocation)) :=
  let! t := m_get in
  match lb_manifest (wl_binding t) with
  | None => m_ret []
  | Some m =>
      let index := im_logical_index_id m in
      let '(keys, headers) := prefetch_keys index items ∅ ∅ in
      let! warmed := warm_chunks_for_update keys in
      if warmed then
        let! locations := attempt (batch_get_for_update xxh3_128 sha256 (location_key index <$> deleted_ids items)) in
        match locations ≫= λ locations, located_keys index (deleted_ids items) locations headers with
        | Some (leaf_keys, prefetched) =>
            let! _ := warm_chunks_for_update leaf_keys in
            m_ret prefetched
        | None => m_ret []
        end
      else m_ret []
  end.
End membership.
