(* ===== verification/MembershipSpec.v ===== *)
(** Correctness of the membership operations
    (src/src/storage/membership.rs): a batch with deferred writes and
    accumulated leaf state refines the records changed one after the other, and
    every change keeps records, locations, leaf entries, exact counts and
    synopses in agreement. *)
From stdpp Require Import gmap sorting.
From S2P Require Import Prelude RustStd Api TreeKey Keys KeyRanges RaBitQ Manifest Wire ValueData Records Synopsis Values Backend Memory Txn Codec Logical LogicalSpec TreeOps Membership.

(** ** Header arithmetic *)
Lemma adjust_header_no_panic h n : no_panic (adjust_header h n).
Proof.
  unfold adjust_header, checked_bump. apply bind_no_panic; [by case_match|]. intros e _. unfold PartitionHeader_new.
  by repeat case_match.
Qed.
Lemma adjust_header_ok h n h' :
  header_typed h → u32_ok n → adjust_header h n = Ok h' →
  header_typed h' ∧ h' = mkPartitionHeader (ph_level h) n (ph_cache_epoch h + 1) (ph_state h).
Proof.
  intros (Hl & Hl0 & Hc & He) Hn. unfold adjust_header, checked_bump. intros (e & Hb & Hh)%bind_ok.
  destruct (Z.ltb_spec (ph_cache_epoch h + 1) (2 ^ 64)); [|done]. apply Ok_inj in Hb as <-. apply map_err_ok in Hh.
  unfold PartitionHeader_new in Hh. case_match; [done|]. apply Ok_inj in Hh as <-. split; [|done].
  unfold header_typed, u32_ok, u64_ok in *. cbn. split_and!; try done; lia.
Qed.
Lemma added_entry_no_panic h : no_panic (added_entry h).
Proof. unfold added_entry, checked_bump. apply bind_no_panic; [by case_match|]. intros n _. apply adjust_header_no_panic. Qed.
Lemma added_entry_ok h h' :
  header_typed h → added_entry h = Ok h' →
  header_typed h' ∧ h' = mkPartitionHeader (ph_level h) (ph_entry_count h + 1) (ph_cache_epoch h + 1) (ph_state h).
Proof.
  intros Hh. pose proof Hh as (_ & _ & Hc & _). unfold added_entry, checked_bump. intros (n & Hn & Ha)%bind_ok.
  case_match; [|done]. apply Ok_inj in Hn as <-. bprop. unfold u32_ok in Hc. apply adjust_header_ok in Ha; [done..|]. unfold u32_ok. lia.
Qed.
Lemma removed_entry_no_panic h : no_panic (removed_entry h).
Proof. unfold removed_entry. apply bind_no_panic; [by case_match|]. intros n _. apply adjust_header_no_panic. Qed.
Lemma removed_entry_ok h h' :
  header_typed h → removed_entry h = Ok h' →
  header_typed h' ∧ 1 ≤ ph_entry_count h ∧
  h' = mkPartitionHeader (ph_level h) (ph_entry_count h - 1) (ph_cache_epoch h + 1) (ph_state h).
Proof.
  intros Hh. pose proof Hh as (_ & _ & Hc & _). unfold removed_entry. intros (n & Hn & Ha)%bind_ok.
  case_match; [|done]. apply Ok_inj in Hn as <-. bprop. unfold u32_ok in Hc.
  apply adjust_header_ok in Ha as [? ?]; [by split_and!|done|]. unfold u32_ok. lia.
Qed.
Lemma touched_entry_ok h h' :
  header_typed h → touched_entry h = Ok h' →
  header_typed h' ∧ h' = mkPartitionHeader (ph_level h) (ph_entry_count h) (ph_cache_epoch h + 1) (ph_state h).
Proof. intros Hh Ha. apply adjust_header_ok in Ha; [done..|]. by destruct Hh as (_ & _ & ? & _). Qed.
Lemma write_target_ok h h' :
  expect_write_target h = Ok h' ↔ h' = h ∧ ph_level h = 1 ∧ PartitionState_accepts_writes (ph_state h) = true.
Proof.
  unfold expect_write_target. destruct (Z.eqb_spec (ph_level h) 1), (PartitionState_accepts_writes (ph_state h)); cbn [andb];
    split; try done; try (by intros (_ & ? & ?)); [by intros [= <-]|by intros (-> & _)].
Qed.
Lemma write_target_no_panic h : no_panic (expect_write_target h).
Proof. unfold expect_write_target. by case_match. Qed.

(** ** Synopses keep their canonical form *)
Section synopses.
Context (xxh3_128 : Z → list Z → Z).

Lemma expand_field_canonical s v field p s' c :
  synopsis_canonical s → Api.value_ok v → projection_valid field v →
  expand_field xxh3_128 s v (fs_data_type field) p = Ok (s', c) → synopsis_canonical s'.
Proof.
  intros Hs Hv Hp He.
  assert (v ≠ Value.Null → value_canonical (canonical_value v)) as Hc.
  { intros Hn. apply (canonical_value_spec xxh3_128 (fs_data_type field)); [done|]. by destruct v. }
  assert (∀ b : bool, v ≠ Value.Null → ∀ w, (if b then Some (canonical_value v) else fy_minimum s) = Some w → value_canonical w) as Hmin.
  { intros [] Hn w; [intros [= <-]; auto|]. intros E. apply Hs. by left. }
  assert (∀ b : bool, v ≠ Value.Null → ∀ w, (if b then Some (canonical_value v) else fy_maximum s) = Some w → value_canonical w) as Hmax.
  { intros [] Hn w; [intros [= <-]; auto|]. intros E. apply Hs. by right. }
  unfold expand_field in He.
  destruct v; [by apply Ok_inj in He as [= <- _]|..];
    (apply bind_ok in He as (b1 & _ & He); apply bind_ok in He as (b2 & _ & He); cbv zeta in He;
     destruct p as [p|], (fy_bloom s) as [bloom|];
     repeat match type of He with (_ ≫= _) = _ => apply bind_ok in He as (? & _ & He) end;
     apply Ok_inj in He as [= <- _]; intros w [Hw|Hw]; cbn [fy_minimum fy_maximum] in Hw; first [by apply (Hmin b1)|by apply (Hmax b2)]).
Qed.
Lemma expand_loop_canonical s projection fs ps changed s' c :
  Forall synopsis_canonical s → Forall Api.value_ok projection → validate_projection_loop projection fs = Ok tt →
  expand_loop xxh3_128 s projection fs ps changed = Ok (s', c) → Forall synopsis_canonical s'.
Proof.
  revert projection fs ps changed s' c. induction s as [|x s IH]; intros projection fs ps changed s' c Hs Hv Hp He.
  { by apply Ok_inj in He as [= <- _]. }
  destruct projection as [|v projection], fs as [|field fs], ps as [|p ps]; try (by apply Ok_inj in He as [= <- _]).
  cbn [expand_loop validate_projection_loop] in *. apply Forall_cons_iff in Hs as [Hx Hs]. apply Forall_cons_iff in Hv as [Hv Hvs].
  apply bind_ok in He as ([x' c'] & Hx' & He). apply bind_ok in He as ([rest c''] & Hr & He). apply Ok_inj in He as [= <- _].
  apply bind_ok in Hp as (? & Hpv & Hp). constructor; [|by eapply IH].
  eapply expand_field_canonical; [exact Hx|exact Hv| |exact Hx']. unfold projection_valid, value_valid. destruct x0. by destruct v; try case_match.
Qed.
Lemma validate_projection_no_panic projection fs : no_panic (validate_projection_loop projection fs).
Proof.
  revert fs. induction projection as [|v projection IH]; intros [|f fs]; try done. cbn [validate_projection_loop].
  apply bind_no_panic; [|intros _ _; apply IH]. unfold validate_non_null_value.
  destruct v; [by case_match|..]; destruct (fs_data_type f); try done; by case_match.
Qed.
(** Expanding a stored synopsis yields one that can be stored. *)
Lemma expand_stored m (Hm : manifest_ok m) s projection :
  admits (synopsis_family xxh3_128 m Hm) s → Forall Api.value_ok projection →
  no_panic (PartitionSynopsis_expand xxh3_128 s m projection) ∧
  ∀ s' c, PartitionSynopsis_expand xxh3_128 s m projection = Ok (s', c) →
    admits (synopsis_family xxh3_128 m Hm) s' ∧ (c = false → s' = s) ∧
    synopsis_covers xxh3_128 m s' projection ∧ (∀ w, synopsis_covers xxh3_128 m s w → synopsis_covers xxh3_128 m s' w).
Proof.
  intros [Hty Hcan] Hv. cbn in Hty, Hcan.
  destruct (validate_synopsis_shape s m) as [[]|e|] eqn:Es.
  - destruct (validate_projection projection (fields m)) as [[]|e|] eqn:Ep.
    + destruct (expand_spec xxh3_128 m s projection Hm (conj Hty Es) (conj Hv Ep)) as (s1 & c1 & He & [Hty1 _] & Hcov & Hmono & Hch & _).
      rewrite He. split; [done|]. intros s' c [= <- <-]. split_and!; [split; [done|]|by apply Hch|done..].
      unfold PartitionSynopsis_expand in He. rewrite Es, Ep in He. cbn [mbind result_bind] in He.
      eapply expand_loop_canonical; [exact Hcan|exact Hv| |exact He]. unfold validate_projection in Ep. by case_match.
    + unfold PartitionSynopsis_expand. rewrite Es, Ep. done.
    + exfalso. revert Ep. unfold validate_projection. case_match; [done|]. apply validate_projection_no_panic.
  - unfold PartitionSynopsis_expand. rewrite Es. done.
  - destruct (validate_synopsis_total xxh3_128 m s Hm Hty) as [[? Ht]|Ht]; unfold validate_synopsis in Ht; by rewrite Es in Ht.
Qed.
End synopses.

(** ** Changing records one after the other

    The specification: each change reads a typed map and describes the next. *)
Section steps.
Context (xxh3_128 : Z → list Z → Z) (m : IndexManifest).
Abbreviation index := (im_logical_index_id m).
Implicit Types f g : typed_map.

Definition header_at f (l : RecordLocation) (h : PartitionHeader) : Prop :=
  f (header_key index l) = Ok (Some (PersistentValue.PartitionHeader h)).
Definition synopsis_at f (l : RecordLocation) (s : PartitionSynopsis) : Prop :=
  f (synopsis_key index l) = Ok (Some (PersistentValue.PartitionSynopsis s)).
Definition entry_at f (l : RecordLocation) (id : list Z) (e : LeafEntry) : Prop :=
  f (entry_key index l id) = Ok (Some (PersistentValue.LeafEntry e)).
Definition record_at f (id : list Z) (r : VectorRecord) : Prop :=
  f (record_key index id) = Ok (Some (PersistentValue.VectorRecord r)).
Definition located_at f (id : list Z) (l : RecordLocation) : Prop :=
  f (location_key index id) = Ok (Some (PersistentValue.RecordLocation l)).
Definition put_header (l : RecordLocation) (h : PartitionHeader) : LogicalKey.t * option PersistentValue.t :=
  (header_key index l, Some (PersistentValue.PartitionHeader h)).
Definition put_synopsis (l : RecordLocation) (s : PartitionSynopsis) : LogicalKey.t * option PersistentValue.t :=
  (synopsis_key index l, Some (PersistentValue.PartitionSynopsis s)).
Definition put_entry (l : RecordLocation) (e : LeafEntry) : LogicalKey.t * option PersistentValue.t :=
  (entry_key index l (le_record_id e), Some (PersistentValue.LeafEntry e)).

Inductive member_item :=
  | ItemInsert (record : VectorRecord) (payload : option (list Z)) (target : RecordLocation) (entry : LeafEntry)
  | ItemReplace (record : VectorRecord) (payload : option (list Z)) (expected target : RecordLocation) (entry : LeafEntry)
  | ItemDelete (id : list Z).
Definition item_id (i : member_item) : list Z :=
  match i with ItemInsert r _ _ _ | ItemReplace r _ _ _ _ => vr_record_id r | ItemDelete id => id end.

(** An entry enters a leaf: a write-accepting Header and a synopsis that expands
    by the entry's projection. *)
Definition enters f (l : RecordLocation) (e : LeafEntry) (bump : PartitionHeader → result PartitionHeader)
    (h : PartitionHeader) (s : PartitionSynopsis) : Prop :=
  (∃ h0, header_at f l h0 ∧ expect_write_target h0 = Ok h0 ∧ bump h0 = Ok h) ∧
  ∃ s0 c, synopsis_at f l s0 ∧ PartitionSynopsis_expand xxh3_128 s0 m (le_fields e) = Ok (s, c).
Inductive member_step f : member_item → typed_map → Prop :=
  | step_insert r p l e h s g :
      vr_record_id r = le_record_id e →
      f (record_key index (vr_record_id r)) = Ok None → f (location_key index (vr_record_id r)) = Ok None →
      (p ≠ None → f (payload_key index (vr_record_id r)) = Ok None) → f (entry_key index l (vr_record_id r)) = Ok None →
      enters f l e added_entry h s →
      same_map g (foldl set_typed f
        ([(record_key index (vr_record_id r), Some (PersistentValue.VectorRecord r));
          (location_key index (vr_record_id r), Some (PersistentValue.RecordLocation l))] ++
         match p with Some p => [(payload_key index (vr_record_id r), Some (PersistentValue.OpaquePayload p))] | None => [] end ++
         [put_header l h; put_synopsis l s; put_entry l e])) →
      member_step f (ItemInsert r p l e) g
  | step_replace_same r r0 p l e e0 h s g :
      vr_record_id r = le_record_id e → record_at f (vr_record_id r) r0 → located_at f (vr_record_id r) l → entry_at f l (vr_record_id r) e0 →
      enters f l e touched_entry h s →
      same_map g (foldl set_typed f
        [(record_key index (vr_record_id r), Some (PersistentValue.VectorRecord r));
         (payload_key index (vr_record_id r), PersistentValue.OpaquePayload <$> p);
         put_entry l e; put_header l h; put_synopsis l s]) →
      member_step f (ItemReplace r p l l e) g
  | step_replace_move r r0 p l0 l e e0 h0 h0' h s g :
      l0 ≠ l → vr_record_id r = le_record_id e → record_at f (vr_record_id r) r0 → located_at f (vr_record_id r) l0 → entry_at f l0 (vr_record_id r) e0 →
      f (entry_key index l (vr_record_id r)) = Ok None → header_at f l0 h0 → removed_entry h0 = Ok h0' →
      enters f l e added_entry h s →
      same_map g (foldl set_typed f
        [(record_key index (vr_record_id r), Some (PersistentValue.VectorRecord r));
         (location_key index (vr_record_id r), Some (PersistentValue.RecordLocation l));
         (payload_key index (vr_record_id r), PersistentValue.OpaquePayload <$> p);
         (entry_key index l0 (vr_record_id r), None);
         put_entry l e; put_header l0 h0'; put_header l h; put_synopsis l s]) →
      member_step f (ItemReplace r p l0 l e) g
  | step_delete id r l e h0 h g :
      record_at f id r → located_at f id l → entry_at f l id e → header_at f l h0 → removed_entry h0 = Ok h →
      same_map g (foldl set_typed f
        [(record_key index id, None); (location_key index id, None); (entry_key index l id, None);
         (payload_key index id, None); put_header l h]) →
      member_step f (ItemDelete id) g
  | step_absent id g : f (record_key index id) = Ok None → same_map g f → member_step f (ItemDelete id) g.
Inductive member_steps : typed_map → list member_item → typed_map → Prop :=
  | steps_nil f g : same_map g f → member_steps f [] g
  | steps_cons f i g items h : member_step f i g → member_steps g items h → member_steps f (i :: items) h.
End steps.

(** ** The batch state

    What the deferred builder and the accumulator stand for: a typed map over the
    one the transaction reads. *)
Definition member_id (key : LogicalKey.t) : option (list Z) :=
  match key with
  | LogicalKey.Record _ id | LogicalKey.Location _ id | LogicalKey.Payload _ id | LogicalKey.LeafEntry _ _ _ id => Some id
  | _ => None
  end.
Section batch.
Context (xxh3_128 : Z → list Z → Z) (sha256 : list Z → list Z) {T : Type} `{WriteLaws T}.
Context (m : IndexManifest) (Hm : manifest_ok m) (types : list DataType.t).
Abbreviation ix := (im_logical_index_id m).
Abbreviation typed_view := (LogicalSpec.typed_view xxh3_128 sha256).
Abbreviation mutation_typed := (LogicalSpec.mutation_typed xxh3_128 sha256).
Implicit Types (s : MemberState T) (f : typed_map) (ms : list (LogicalKey.t * option PersistentValue.t)).

Definition pend f ms (leaves : LeafAccumulator) : typed_map := λ key,
  match key with
  | LogicalKey.Header i tk p =>
      match la_headers leaves !! (tk, p) with
      | Some h => if i =? ix then Ok (Some (PersistentValue.PartitionHeader h)) else f key
      | None => f key
      end
  | LogicalKey.Synopsis i tk p =>
      match la_synopses leaves !! (tk, p) with
      | Some e => if i =? ix then Ok (Some (PersistentValue.PartitionSynopsis (se_synopsis e))) else f key
      | None => f key
      end
  | key => foldl set_typed f ms key
  end.
Lemma foldl_set_typed_other f ms key : (∀ k v, (k, v) ∈ ms → k ≠ key) → foldl set_typed f ms key = f key.
Proof.
  revert f. induction ms as [|[k v] ms IH]; intros f Hk; [done|]. cbn [foldl]. rewrite IH by (intros; eapply Hk; by right).
  unfold set_typed. cbn [fst]. rewrite decide_False; [done|]. intros ->. by eapply Hk; [left|].
Qed.
Lemma pend_put f ms leaves k v :
  is_Some (member_id k) → same_map (pend f (ms ++ [(k, v)]) leaves) (set_typed (pend f ms leaves) (k, v)).
Proof.
  intros [id Hid] key _. unfold set_typed. cbn [fst snd].
  assert (foldl set_typed f (ms ++ [(k, v)]) key = if decide (key = k) then Ok v else foldl set_typed f ms key) as E.
  { rewrite foldl_app. done. }
  destruct key; cbn [pend]; try exact E; (rewrite decide_False; [done|by intros <-]).
Qed.
Lemma pend_header f ms leaves l h :
  same_map (pend f ms (mkLeaves (<[leaf_of l := h]> (la_headers leaves)) (la_synopses leaves)))
    (set_typed (pend f ms leaves) (put_header m l h)).
Proof.
  intros key _. unfold set_typed, put_header. cbn [fst snd].
  destruct key; cbn [pend la_headers la_synopses]; try (rewrite decide_False; [done|by intros [=]]).
  destruct (decide ((tree_key, partition) = leaf_of l)) as [E|E].
  - rewrite E, lookup_insert_eq. unfold leaf_of in E. injection E as -> ->. destruct (Z.eqb_spec index ix) as [->|N].
    + by rewrite decide_True.
    + rewrite decide_False by (intros [= ->]; done). by case_match.
  - rewrite lookup_insert_ne by congruence. rewrite decide_False; [done|]. intros [= _ -> ->]. done.
Qed.
Lemma pend_synopsis f ms leaves l e :
  same_map (pend f ms (mkLeaves (la_headers leaves) (<[leaf_of l := e]> (la_synopses leaves))))
    (set_typed (pend f ms leaves) (put_synopsis m l (se_synopsis e))).
Proof.
  intros key _. unfold set_typed, put_synopsis. cbn [fst snd].
  destruct key; cbn [pend la_headers la_synopses]; try (rewrite decide_False; [done|by intros [=]]).
  destruct (decide ((tree_key, partition) = leaf_of l)) as [E|E].
  - rewrite E, lookup_insert_eq. unfold leaf_of in E. injection E as -> ->. destruct (Z.eqb_spec index ix) as [->|N].
    + by rewrite decide_True.
    + rewrite decide_False by (intros [= ->]; done). by case_match.
  - rewrite lookup_insert_ne by congruence. rewrite decide_False; [done|]. intros [= _ -> ->]. done.
Qed.

(** The batch state after some items: [f] is the map the transaction reads, [t0]
    the transaction the batch started from, [ids] the records touched so far. *)
Context (f : typed_map) (t0 : WriteLogicalTxn T).
Record batch_ok s ms (ids : list (list Z)) : Prop := {
  bk_bound : bound (ms_txn s) m types;
  bk_same : same_txn t0 (ms_txn s);
  bk_view : same_map (typed_view (ms_txn s)) f;
  bk_builder : builder_ok (ms_deferred s);
  bk_entries : entries_ok (mb_entries (ms_deferred s));
  bk_binding : mb_binding (ms_deferred s) = wl_binding (ms_txn s);
  bk_stands : ∃ es, Forall2 (encodes_to xxh3_128 sha256 (wl_binding (ms_txn s))) ms es ∧
    ∀ v, apply_writes (mb_entries (ms_deferred s)) v = set_all es v;
  bk_typed : Forall (mutation_typed (wl_binding (ms_txn s))) ms;
  bk_ids k v : (k, v) ∈ ms → ∃ id, member_id k = Some id ∧ id ∈ ids;
  bk_headers tk p h : la_headers (ms_leaves s) !! (tk, p) = Some h → header_typed h ∧ bytes_ok tk ∧ id_ok p;
  bk_synopses tk p e : la_synopses (ms_leaves s) !! (tk, p) = Some e →
    admits (synopsis_family xxh3_128 m Hm) (se_synopsis e) ∧ bytes_ok tk ∧ id_ok p ∧
    (se_changed e = false → f (LogicalKey.Synopsis ix tk p) = Ok (Some (PersistentValue.PartitionSynopsis (se_synopsis e))));
}.
(** The state stands for the typed map [g]. *)
Definition tracks s ids (g : typed_map) : Prop :=
  ∃ ms, batch_ok s ms ids ∧ same_map (pend f ms (ms_leaves s)) g.
Definition location_typed (l : RecordLocation) : Prop := bytes_ok (rl_tree_key l) ∧ id_ok (rl_leaf l).
Abbreviation failed := (λ (_ : ErrorKind) s', same_txn t0 (ms_txn s')).

Lemma index_ok : id_ok ix.
Proof. by destruct Hm. Qed.
Lemma batch_ok_mono s ms ids ids' : batch_ok s ms ids → (∀ id, id ∈ ids → id ∈ ids') → batch_ok s ms ids'.
Proof. intros [] Hi. split; try done. intros k v Hk. destruct (bk_ids0 k v Hk) as (id & ? & ?). eauto. Qed.
Lemma tracks_mono s ids ids' g : tracks s ids g → (∀ id, id ∈ ids → id ∈ ids') → tracks s ids' g.
Proof. intros (ms & Hb & Hg) Hi. exists ms. split; [by eapply batch_ok_mono|done]. Qed.
Lemma tracks_fresh s ids g id key :
  tracks s ids g → id ∉ ids → member_id key = Some id → key_typed key → g key = f key.
Proof.
  intros (ms & Hb & Hg) Hid Hk Hty. rewrite <-Hg by done.
  assert (foldl set_typed f ms key = f key) as E.
  { apply foldl_set_typed_other. intros k v Hin ->. destruct (bk_ids _ _ _ Hb key v Hin) as (id' & E & ?). congruence. }
  by destruct key.
Qed.
Lemma tracks_same s ids g : tracks s ids g → same_txn t0 (ms_txn s).
Proof. intros (ms & Hb & _). by apply bk_same in Hb. Qed.
Lemma tracks_ext s ids g g' : tracks s ids g → same_map g g' → tracks s ids g'.
Proof. intros (ms & Hb & Hg) E. exists ms. split; [done|]. by rewrite Hg. Qed.

Lemma get_typed_spec s ids g key :
  tracks s ids g → key_typed key →
  wp (get_typed xxh3_128 sha256 key) (λ v s', f key = Ok v ∧ tracks s' ids g ∧ ms_leaves s' = ms_leaves s) failed s.
Proof.
  intros (ms & Hb & Hg) Hk. unfold wp, get_typed, on_txn.
  pose proof (typed_get_spec xxh3_128 sha256 types true key (ms_txn s) (bd_ready _ _ _ (bk_bound _ _ _ Hb)) Hk) as Hw.
  unfold wp, get_for_update in *. destruct (read_one xxh3_128 sha256 true key (ms_txn s)) as [t' [v|e|]]; [| |done].
  - destruct Hw as (Hv & Hr & _). split; [by rewrite <-(bk_view _ _ _ Hb)|]. split; [|done]. exists ms. split; [|done].
    pose proof (sm_binding _ _ (rd_same _ _ Hr)) as Eb. destruct Hb.
    split; cbn [ms_txn ms_deferred ms_leaves]; rewrite ?Eb; try done.
    + by eapply bound_reads.
    + etrans; [done|apply Hr].
    + by rewrite (reads_typed _ _ _ _ Hr).
  - etrans; [by apply bk_same in Hb|apply Hw].
Qed.
Lemma defer_spec s ids g key value id :
  tracks s ids g → key_typed key → member_id key = Some id → id ∈ ids →
  (∀ v, value = Some v → value_ok xxh3_128 sha256 (Some m) v) →
  wp (on_deferred (build_one xxh3_128 sha256 (key, value)))
    (λ _ s', tracks s' ids (set_typed g (key, value)) ∧ ms_leaves s' = ms_leaves s) failed s.
Proof.
  intros (ms & Hb & Hg) Hk Hmid Hid Hv. unfold wp, on_deferred.
  pose proof (bk_bound _ _ _ Hb) as [[Hco Hbind] Em].
  assert (mutation_typed (wl_binding (ms_txn s)) (key, value)) as Hmt by (split; [done|]; by rewrite Em).
  pose proof (build_one_spec xxh3_128 sha256 types (key, value) (ms_deferred s)) as Hw.
  rewrite (bk_binding _ _ _ Hb) in Hw. specialize (Hw Hbind (bk_builder _ _ _ Hb) Hmt). unfold wp in Hw.
  destruct (build_one xxh3_128 sha256 (key, value) (ms_deferred s)) as [mb [[]|e|]]; [| |done].
  - destruct Hw as (e & He & Hmb & (Eb & El & Ebu) & Hent). split; [|done]. exists (ms ++ [(key, value)]). split.
    + destruct Hb as [? ? ? ? Hentries Hbi (es & Hes & Hap) Hty Hids Hh Hs]. split; cbn [ms_txn ms_deferred ms_leaves]; try done.
      * rewrite Hent. intros k w [[<- <-]|[_ Hkw]]%lookup_insert_Some; [|by eapply Hentries]. by eapply encodes_bytes.
      * by rewrite Eb.
      * exists (es ++ [e]). split; [apply Forall2_app; [done|by constructor]|]. intros v. rewrite Hent, apply_writes_set, Hap.
        unfold set_all. rewrite foldl_app. by destruct e.
      * apply Forall_app. split; [done|by constructor].
      * intros k v [Hin|Hin]%elem_of_app; [by eapply Hids|]. apply list_elem_of_singleton in Hin as [= -> ->]. by exists id.
    + cbn [ms_leaves]. rewrite pend_put by by eexists. by rewrite Hg.
  - subst mb. by apply bk_same in Hb.
Qed.

(** Values read through the transaction are well formed. *)
Lemma tracks_value s ids g key v :
  tracks s ids g → key_typed key → f key = Ok (Some v) → value_ok xxh3_128 sha256 (Some m) v.
Proof.
  intros (ms & Hb & _) Hk Hv. rewrite <-(bk_view _ _ _ Hb) in Hv by done. pose proof (bk_bound _ _ _ Hb) as [Hr Em].
  apply (typed_view_value xxh3_128 sha256 (ms_txn s) types) in Hv as [Hv _]; [|done]. by rewrite Em in Hv.
Qed.
Lemma tracks_manifest s ids g : tracks s ids g → require_bound_manifest (ms_txn s) = Ok m.
Proof. intros (ms & Hb & _). unfold require_bound_manifest. by rewrite (bd_manifest _ _ _ (bk_bound _ _ _ Hb)). Qed.
Lemma header_key_typed l : location_typed l → key_typed (header_key ix l).
Proof. intros [? ?]. split_and!; [apply index_ok|done..]. Qed.
Lemma synopsis_key_typed l : location_typed l → key_typed (synopsis_key ix l).
Proof. intros [? ?]. split_and!; [apply index_ok|done..]. Qed.
Lemma entry_key_typed l id : location_typed l → bytes_ok id → key_typed (entry_key ix l id).
Proof. intros [? ?] ?. split_and!; [apply index_ok|done..]. Qed.
Lemma record_keys_typed id :
  bytes_ok id → key_typed (record_key ix id) ∧ key_typed (location_key ix id) ∧ key_typed (payload_key ix id).
Proof. intros ?. pose proof index_ok. done. Qed.

(** ** The accumulator stands for the leaf keys *)
Lemma set_header_tracks s ids g l h :
  tracks s ids g → location_typed l → header_typed h → tracks (set_header l h s) ids (set_typed g (put_header m l h)).
Proof.
  intros (ms & Hb & Hg) [Htk Hp] Hh. exists ms. split.
  - destruct Hb. split; try done. intros tk p h'. cbn [set_header ms_leaves la_headers].
    intros [[[= <- <-] <-]|[_ ?]]%lookup_insert_Some; [done|eauto].
  - cbn [set_header ms_leaves]. by rewrite pend_header, Hg.
Qed.
Lemma set_synopsis_tracks s ids g l e :
  tracks s ids g → location_typed l → admits (synopsis_family xxh3_128 m Hm) (se_synopsis e) →
  (se_changed e = false → synopsis_at m f l (se_synopsis e)) →
  tracks (set_synopsis l e s) ids (set_typed g (put_synopsis m l (se_synopsis e))).
Proof.
  intros (ms & Hb & Hg) [Htk Hp] Ha Hc. exists ms. split.
  - destruct Hb. split; try done. intros tk p e'. cbn [set_synopsis ms_leaves la_synopses].
    intros [[[= <- <-] <-]|[_ ?]]%lookup_insert_Some; [done|eauto].
  - cbn [set_synopsis ms_leaves]. by rewrite pend_synopsis, Hg.
Qed.
Lemma set_typed_same g key v : g key = Ok v → same_map (set_typed g (key, v)) g.
Proof. intros Hv k _. unfold set_typed. cbn. case_decide; [by subst|done]. Qed.
Lemma tracks_header s ids g l :
  tracks s ids g → location_typed l →
  match la_headers (ms_leaves s) !! leaf_of l with
  | Some h => header_at m g l h ∧ header_typed h
  | None => g (header_key ix l) = f (header_key ix l)
  end.
Proof.
  intros (ms & Hb & Hg) Hl. unfold header_at. rewrite <-Hg by by apply header_key_typed. unfold header_key. cbn [pend]. unfold leaf_of.
  destruct (la_headers (ms_leaves s) !! _) as [h|] eqn:E; [|done]. rewrite Z.eqb_refl. split; [done|].
  by eapply bk_headers in E as (? & _).
Qed.
Lemma tracks_synopsis s ids g l :
  tracks s ids g → location_typed l →
  match la_synopses (ms_leaves s) !! leaf_of l with
  | Some e => synopsis_at m g l (se_synopsis e) ∧ admits (synopsis_family xxh3_128 m Hm) (se_synopsis e) ∧
      (se_changed e = false → synopsis_at m f l (se_synopsis e))
  | None => g (synopsis_key ix l) = f (synopsis_key ix l)
  end.
Proof.
  intros (ms & Hb & Hg) Hl. unfold synopsis_at. rewrite <-Hg by by apply synopsis_key_typed. unfold synopsis_key. cbn [pend]. unfold leaf_of.
  destruct (la_synopses (ms_leaves s) !! _) as [e|] eqn:E; [|done]. rewrite Z.eqb_refl. split; [done|].
  by eapply bk_synopses in E as (? & _ & _ & ?).
Qed.
Lemma acc_header_spec s ids g l :
  tracks s ids g → location_typed l →
  wp (acc_header xxh3_128 sha256 ix l) (λ h s', header_at m g l h ∧ header_typed h ∧ tracks s' ids g) failed s.
Proof.
  intros Ht Hl. pose proof (tracks_header _ _ _ _ Ht Hl) as Hh. unfold acc_header. apply wp_bind, wp_get.
  destruct (la_headers (ms_leaves s) !! leaf_of l) as [h|]; [by destruct Hh; apply wp_ret|].
  pose proof (header_key_typed l Hl) as Hk. eapply wp_step; [by apply get_typed_spec|done|]. intros v s1 (Hv & Ht1 & _).
  pose proof (tracks_same _ _ _ Ht1) as Hs1.
  apply wp_bind, wp_lift; [by destruct v as [[]|]| |done]. intros h Hok.
  assert (v = Some (PersistentValue.PartitionHeader h)) as ->. { destruct v as [[]|]; try done. by injection Hok as ->. }
  pose proof (tracks_value _ _ _ _ _ Ht1 Hk Hv) as (m' & Hm' & _ & [Hty _]). cbn in Hty.
  apply wp_bind, wp_modify, wp_ret. rewrite <-Hh in Hv. split_and!; [done..|].
  eapply tracks_ext; [by apply set_header_tracks|]. by apply set_typed_same.
Qed.
Lemma acc_expand_spec s ids g l projection :
  tracks s ids g → location_typed l → Forall Api.value_ok projection →
  wp (acc_expand xxh3_128 sha256 m l projection)
    (λ _ s', ∃ old c new, synopsis_at m g l old ∧ PartitionSynopsis_expand xxh3_128 old m projection = Ok (new, c) ∧
       tracks s' ids (set_typed g (put_synopsis m l new))) failed s.
Proof.
  intros Ht Hl Hp. pose proof (tracks_synopsis _ _ _ _ Ht Hl) as Hsyn. unfold acc_expand. apply wp_bind, wp_get.
  eapply (wp_step _ _ (λ e s1, tracks s1 ids g ∧ synopsis_at m g l (se_synopsis e) ∧
    admits (synopsis_family xxh3_128 m Hm) (se_synopsis e) ∧ (se_changed e = false → synopsis_at m f l (se_synopsis e))) failed).
  - destruct (la_synopses (ms_leaves s) !! leaf_of l) as [e|]; [by apply wp_ret|].
    pose proof (synopsis_key_typed l Hl) as Hk. eapply wp_step; [by apply get_typed_spec|done|]. intros v s1 (Hv & Ht1 & _).
    pose proof (tracks_same _ _ _ Ht1) as Hs1.
    apply wp_bind, wp_lift; [by destruct v as [[]|]| |done]. intros x Hok.
    assert (v = Some (PersistentValue.PartitionSynopsis x)) as ->. { destruct v as [[]|]; try done. by injection Hok as ->. }
    pose proof (tracks_value _ _ _ _ _ Ht1 Hk Hv) as (m' & Hm' & [= <-] & Ha).
    apply wp_bind, wp_modify, wp_ret. pose proof Hv as Hg. rewrite <-Hsyn in Hg. split_and!; [|done..].
    eapply tracks_ext; [by apply set_synopsis_tracks|]. by apply set_typed_same.
  - done.
  - intros e s1 (Ht1 & Hg1 & Ha & Hc). pose proof (tracks_same _ _ _ Ht1) as Hs1.
    destruct (expand_stored xxh3_128 m Hm _ _ Ha Hp) as [Hn He].
    apply wp_bind, wp_lift; [done| |done]. intros [s2 c2] E. apply wp_modify. cbn [fst snd].
    destruct (He _ _ E) as (Ha2 & Hc2 & _). exists (se_synopsis e), c2, s2. split_and!; [done..|].
    apply (set_synopsis_tracks s1 ids g l (mkExpansion s2 (se_changed e || c2))); [done..|]. cbn [se_synopsis se_changed].
    intros [E1 E2]%orb_false_iff. rewrite Hc2 by done. auto.
Qed.
Lemma expect_absent_spec s ids g key :
  tracks s ids g → key_typed key →
  wp (expect_absent xxh3_128 sha256 key) (λ _ s', f key = Ok None ∧ tracks s' ids g) failed s.
Proof.
  intros Ht Hk. unfold expect_absent. eapply wp_step; [by apply get_typed_spec|done|]. intros v s1 (Hv & Ht1 & _).
  destruct v as [v|]; [apply wp_lift; [done..|]; intros _ _; by eapply tracks_same|by apply wp_ret].
Qed.
Lemma validated_input_spec s ids g r e :
  tracks s ids g → wp (validated_input r e) (λ m' s', m' = m ∧ s' = s ∧ vr_record_id r = le_record_id e) failed s.
Proof.
  intros Ht. unfold validated_input. apply wp_bind, wp_get. pose proof (tracks_same _ _ _ Ht).
  case_decide; apply wp_lift; try done; rewrite (tracks_manifest _ _ _ Ht); [done|]. by intros m' [= <-].
Qed.

(** ** One record *)
Definition values_ok (vs : list PersistentValue.t) : Prop := Forall (value_ok xxh3_128 sha256 (Some m)) vs.
Definition group_values (r : VectorRecord) (p : option (list Z)) (l : RecordLocation) (e : LeafEntry) : list PersistentValue.t :=
  [PersistentValue.VectorRecord r; PersistentValue.RecordLocation l; PersistentValue.LeafEntry e] ++
  match p with Some p => [PersistentValue.OpaquePayload p] | None => [] end.
Definition item_typed (i : member_item) : Prop :=
  match i with
  | ItemInsert r p l e => values_ok (group_values r p l e)
  | ItemReplace r p l0 l e => values_ok (group_values r p l e) ∧ location_typed l0
  | ItemDelete id => bytes_ok id
  end.
Record group_typed r p l e : Prop := {
  gt_record : value_ok xxh3_128 sha256 (Some m) (PersistentValue.VectorRecord r);
  gt_location : value_ok xxh3_128 sha256 (Some m) (PersistentValue.RecordLocation l);
  gt_entry : value_ok xxh3_128 sha256 (Some m) (PersistentValue.LeafEntry e);
  gt_payload x : p = Some x → value_ok xxh3_128 sha256 (Some m) (PersistentValue.OpaquePayload x);
  gt_id : bytes_ok (vr_record_id r);
  gt_leaf : location_typed l;
  gt_fields : Forall Api.value_ok (le_fields e);
}.
Lemma group_values_typed r p l e : values_ok (group_values r p l e) → group_typed r p l e.
Proof.
  intros Hv. unfold values_ok, group_values in Hv. apply Forall_app in Hv as [Hv Hp].
  apply Forall_cons_iff in Hv as [Hr Hv]. apply Forall_cons_iff in Hv as [Hl Hv]. apply Forall_cons_iff in Hv as [He _].
  split; try done.
  - intros x ->. by apply Forall_cons_iff in Hp as [Hp _].
  - by destruct Hr as (? & ? & _ & [(? & _) _]).
  - by destruct Hl as (? & ? & _ & [[? ?] _]).
  - by destruct He as (? & ? & _ & [(_ & ? & _) _]).
Qed.
Lemma set_typed_ne g k v key : k ≠ key → set_typed g (k, v) key = g key.
Proof. intros N. unfold set_typed. cbn. by rewrite decide_False by congruence. Qed.

Lemma defer_put_spec s ids g key v id :
  tracks s ids g → key_typed key → member_id key = Some id → id ∈ ids → value_ok xxh3_128 sha256 (Some m) v →
  wp (defer_put xxh3_128 sha256 key v) (λ _ s', tracks s' ids (set_typed g (key, Some v))) failed s.
Proof.
  intros Ht Hk Hid Hin Hv. eapply (wp_mono _ _ _ failed); [eapply (defer_spec s ids g key (Some v)); try done; by intros _ [= <-]|by intros ? ? [? _]|done].
Qed.
Lemma defer_delete_spec s ids g key id :
  tracks s ids g → key_typed key → member_id key = Some id → id ∈ ids →
  wp (defer_delete key) (λ _ s', tracks s' ids (set_typed g (key, None))) failed s.
Proof.
  intros Ht Hk Hid Hin. eapply (wp_mono _ _ _ failed); [by eapply (defer_spec s ids g key None)|by intros ? ? [? _]|done].
Qed.
(** A leaf takes an entry: its checked Header is adjusted, its Synopsis expanded. *)
Lemma enter_leaf_spec {A} s ids g l e bump h0 h (k : M (MemberState T) A) Q :
  tracks s ids g → location_typed l → Forall Api.value_ok (le_fields e) →
  header_at m g l h0 → expect_write_target h0 = Ok h0 → bump h0 = Ok h → header_typed h →
  (∀ syn s', enters xxh3_128 m g l e bump h syn →
     tracks s' ids (set_typed (set_typed g (put_header m l h)) (put_synopsis m l syn)) → wp k Q failed s') →
  wp (let! _ := modify (set_header l h) in
      let! _ := acc_expand xxh3_128 sha256 m l (le_fields e) in k) Q failed s.
Proof.
  intros Ht Hl Hf Hh Hw Hb Hty Hk. apply wp_bind, wp_modify. pose proof (set_header_tracks _ _ _ _ _ Ht Hl Hty) as Ht2.
  eapply wp_step; [by apply acc_expand_spec|done|]. intros [] s3 (old & c & new & Hold & Hexp & Ht3).
  apply (Hk new); [|done]. split; [by exists h0|]. exists old, c. split; [|done]. unfold synopsis_at, put_header in *.
  by rewrite set_typed_ne in Hold.
Qed.
Lemma header_at_member g k v l h : is_Some (member_id k) → header_at m (set_typed g (k, v)) l h ↔ header_at m g l h.
Proof. intros [? ?]. unfold header_at. rewrite set_typed_ne; [done|by intros ->]. Qed.
Lemma synopsis_at_member g k v l x : is_Some (member_id k) → synopsis_at m (set_typed g (k, v)) l x ↔ synopsis_at m g l x.
Proof. intros [? ?]. unfold synopsis_at. rewrite set_typed_ne; [done|by intros ->]. Qed.
Lemma enters_member g k v l e bump h x :
  is_Some (member_id k) → enters xxh3_128 m (set_typed g (k, v)) l e bump h x ↔ enters xxh3_128 m g l e bump h x.
Proof. intros Hk. unfold enters. by setoid_rewrite (header_at_member g k v l _ Hk); setoid_rewrite (synopsis_at_member g k v l _ Hk). Qed.

Lemma header_key_inj l l' : header_key ix l = header_key ix l' → l = l'.
Proof. intros [= ? ?]. destruct l, l'. cbn in *. by subst. Qed.
Lemma header_at_self g l h : header_at m (set_typed g (put_header m l h)) l h.
Proof. unfold header_at, put_header, set_typed. cbn [fst snd]. by rewrite decide_True. Qed.
Lemma header_at_put g l h l' x : header_at m (set_typed (set_typed g (put_header m l h)) (put_synopsis m l' x)) l h.
Proof. unfold header_at, put_synopsis. rewrite set_typed_ne by done. apply header_at_self. Qed.
Lemma header_at_other g l0 h0 l h : l0 ≠ l → header_at m (set_typed g (put_header m l0 h0)) l h ↔ header_at m g l h.
Proof. intros N. unfold header_at, put_header. rewrite set_typed_ne; [done|]. by intros ?%header_key_inj. Qed.
Lemma enters_other g l0 h0 l e bump h x :
  l0 ≠ l → enters xxh3_128 m (set_typed g (put_header m l0 h0)) l e bump h x ↔ enters xxh3_128 m g l e bump h x.
Proof.
  intros N. unfold enters. setoid_rewrite (λ h, header_at_other g l0 h0 l h N). unfold synopsis_at, put_header.
  by rewrite !set_typed_ne by done.
Qed.
Lemma insert_with_header_spec s ids g r p l e :
  tracks s ids g → vr_record_id r ∉ ids → item_typed (ItemInsert r p l e) →
  wp (insert_record_with_header xxh3_128 sha256 r p l e)
    (λ h s', ∃ g', tracks s' (vr_record_id r :: ids) g' ∧ member_step xxh3_128 m g (ItemInsert r p l e) g' ∧ header_at m g' l h)
    failed s.
Proof.
  intros Ht Hid Hty%group_values_typed. set (id := vr_record_id r) in *.
  destruct (record_keys_typed id (gt_id _ _ _ _ Hty)) as (Kr & Kl & Kp). destruct Hty as [Vr Vl Ve Vp Bi Ll Lf].
  pose proof (entry_key_typed l id Ll Bi) as Ke.
  assert (∀ key, member_id key = Some id → key_typed key → g key = f key) as Hfresh by (intros; by eapply tracks_fresh).
  assert (id ∈ id :: ids) as Hin by by left.
  unfold insert_record_with_header. eapply wp_step; [by eapply validated_input_spec|done|]. intros _ _ (-> & -> & Heq).
  cbv zeta. fold id. eapply (tracks_mono _ _ (id :: ids)) in Ht; [|by right].
  eapply wp_step; [by apply get_typed_spec|done|]. intros v s1 (Hr & Ht1 & _). pose proof (tracks_same _ _ _ Ht1).
  destruct v as [v|]; [by apply wp_lift|].
  eapply wp_step; [by eapply defer_put_spec|done|]. intros [] s2 Ht2.
  eapply wp_step; [by eapply expect_absent_spec|done|]. intros [] s3 (Hl & Ht3).
  eapply wp_step; [by eapply defer_put_spec|done|]. intros [] s4 Ht4.
  set (gl := set_typed (set_typed g _) _) in Ht4.
  eapply (wp_step _ _ (λ _ s', (p ≠ None → f (payload_key ix id) = Ok None) ∧ tracks s' (id :: ids) (foldl set_typed gl
    match p with Some p => [(payload_key ix id, Some (PersistentValue.OpaquePayload p))] | None => [] end)) failed); [|done|].
  { destruct p as [p|]; [|by apply wp_ret]. eapply wp_step; [by eapply expect_absent_spec|done|]. intros [] s5 (Hp & Ht5).
    eapply wp_mono; [by eapply defer_put_spec; auto|by intros [] ? ?|done]. }
  intros [] s5 (Hp & Ht5). set (gp := foldl _ _ _) in Ht5.
  eapply wp_step; [by apply acc_header_spec|done|]. intros h0 s6 (Hh0 & Hty0 & Ht6). pose proof (tracks_same _ _ _ Ht6).
  apply wp_bind, wp_lift; [apply bind_no_panic; [apply write_target_no_panic|intros; apply added_entry_no_panic]| |done].
  intros h (h0' & Hw & Hadd)%bind_ok. pose proof Hw as (-> & _)%write_target_ok. pose proof (added_entry_ok _ _ Hty0 Hadd) as [Hh _].
  eapply enter_leaf_spec; [done..|]. intros syn s7 Hen Ht7.
  eapply wp_step; [by eapply expect_absent_spec|done|]. intros [] s8 (He & Ht8).
  eapply wp_step; [by eapply defer_put_spec|done|]. intros [] s9 Ht9. apply wp_ret.
  eexists. split; [exact Ht9|]. split.
  - eapply (step_insert _ _ _ r p l e h syn); rewrite ?Hfresh by done; try done.
    + subst gp gl. destruct p; cbn [foldl] in Hen; by rewrite !enters_member in Hen.
    + unfold put_entry. rewrite <-Heq. subst gp gl. by destruct p.
  - apply header_at_member; [done|]. apply header_at_put.
Qed.
Lemma read_entry_spec {A} s ids g l id (k : M (MemberState T) A) Q :
  tracks s ids g → location_typed l → bytes_ok id →
  (∀ e0 s', entry_at m f l id e0 → tracks s' ids g → wp k Q failed s') →
  wp (let! v := get_typed xxh3_128 sha256 (entry_key ix l id) in
      let! _ := m_lift (expect_leaf_entry v ≫= ok_or Corruption) in k) Q failed s.
Proof.
  intros Ht Hl Hid Hk. pose proof (entry_key_typed l id Hl Hid) as Ke.
  eapply wp_step; [by apply get_typed_spec|done|]. intros v s1 (Hv & Ht1 & _). pose proof (tracks_same _ _ _ Ht1).
  apply wp_bind, wp_lift; [by destruct v as [[]|]| |done]. intros e0 He0. apply (Hk e0); [|done].
  unfold entry_at. rewrite Hv. destruct v as [[]|]; try done. by injection He0 as ->.
Qed.
(** A leaf gives an entry up. *)
Lemma leave_leaf_spec {A} s ids g l (k : PartitionHeader → M (MemberState T) A) Q :
  tracks s ids g → location_typed l →
  (∀ h h' s', header_at m g l h → removed_entry h = Ok h' → tracks s' ids (set_typed g (put_header m l h')) → wp (k h') Q failed s') →
  wp (let! source := acc_header xxh3_128 sha256 ix l in
      let! adjusted := m_lift (removed_entry source) in
      let! _ := modify (set_header l adjusted) in k adjusted) Q failed s.
Proof.
  intros Ht Hl Hk. eapply wp_step; [by apply acc_header_spec|done|]. intros h s1 (Hh & Hty & Ht1). pose proof (tracks_same _ _ _ Ht1).
  apply wp_bind, wp_lift; [apply removed_entry_no_panic| |done]. intros h' Hrem. pose proof (removed_entry_ok _ _ Hty Hrem) as (Hh' & _).
  apply wp_bind, wp_modify. eapply Hk; [done..|]. by apply set_header_tracks.
Qed.
Lemma replace_source_spec s ids g id l0 l e :
  tracks s ids g → id ∈ ids → bytes_ok id → location_typed l0 → location_typed l →
  value_ok xxh3_128 sha256 (Some m) (PersistentValue.LeafEntry e) →
  wp (replace_source xxh3_128 sha256 ix id l0 l e)
    (λ o s', ∃ e0, entry_at m f l0 id e0 ∧
       if decide (l0 = l) then o = None ∧ tracks s' ids (set_typed g (entry_key ix l id, Some (PersistentValue.LeafEntry e)))
       else ∃ h h', o = Some h' ∧ f (entry_key ix l id) = Ok None ∧ header_at m g l0 h ∧ removed_entry h = Ok h' ∧
         tracks s' ids (foldl set_typed g [(entry_key ix l0 id, None); (entry_key ix l id, Some (PersistentValue.LeafEntry e)); put_header m l0 h']))
    failed s.
Proof.
  intros Ht Hin Bi Ll0 Ll Ve. pose proof (entry_key_typed l id Ll Bi) as Ke. pose proof (entry_key_typed l0 id Ll0 Bi) as Ke0.
  unfold replace_source. destruct (decide (l0 = l)) as [->|N].
  - eapply read_entry_spec; [done..|]. intros e0 s1 He0 Ht1. eapply wp_step; [by eapply defer_put_spec|done|]. intros [] s2 Ht2.
    apply wp_ret. by exists e0.
  - eapply read_entry_spec; [done..|]. intros e0 s1 He0 Ht1.
    eapply wp_step; [by eapply defer_delete_spec|done|]. intros [] s2 Ht2.
    eapply wp_step; [by eapply expect_absent_spec|done|]. intros [] s3 (He & Ht3).
    eapply wp_step; [by eapply defer_put_spec|done|]. intros [] s4 Ht4.
    eapply (leave_leaf_spec _ _ _ _ (λ h, m_ret (Some h))); [done..|]. intros h h' s5 Hh Hrem Ht5. apply wp_ret.
    exists e0. split; [done|]. exists h, h'. rewrite !header_at_member in Hh by done. done.
Qed.
Lemma replace_with_headers_spec s ids g r r0 p l0 l e :
  tracks s ids g → vr_record_id r ∉ ids → item_typed (ItemReplace r p l0 l e) →
  record_at m f (vr_record_id r) r0 → located_at m f (vr_record_id r) l0 →
  wp (replace_record_with_headers xxh3_128 sha256 r p l0 l e)
    (λ hs s', ∃ g', tracks s' (vr_record_id r :: ids) g' ∧ member_step xxh3_128 m g (ItemReplace r p l0 l e) g' ∧
       header_at m g' l (rh_target hs) ∧
       if decide (l0 = l) then rh_source hs = None else ∃ h, rh_source hs = Some h ∧ header_at m g' l0 h)
    failed s.
Proof.
  intros Ht Hid [Hty%group_values_typed Ll0] Hrec Hloc. set (id := vr_record_id r) in *.
  destruct (record_keys_typed id (gt_id _ _ _ _ Hty)) as (Kr & Kl & Kp). destruct Hty as [Vr Vl Ve Vp Bi Ll Lf].
  pose proof (entry_key_typed l id Ll Bi) as Ke. pose proof (entry_key_typed l0 id Ll0 Bi) as Ke0.
  assert (∀ key, member_id key = Some id → key_typed key → g key = f key) as Hfresh by (intros; by eapply tracks_fresh).
  assert (id ∈ id :: ids) as Hin by by left.
  unfold replace_record_with_headers. eapply wp_step; [by eapply validated_input_spec|done|]. intros _ _ (-> & -> & Heq).
  cbv zeta. fold id. eapply (tracks_mono _ _ (id :: ids)) in Ht; [|by right].
  eapply wp_step; [by eapply defer_put_spec|done|]. intros [] s1 Ht1. set (gr := set_typed g _) in Ht1.
  eapply (wp_step _ _ (λ _ s', tracks s' (id :: ids)
    (if decide (l0 = l) then gr else set_typed gr (location_key ix id, Some (PersistentValue.RecordLocation l)))) failed); [|done|].
  { destruct (decide (l0 = l)) as [->|N]; [rewrite decide_True by done; by apply wp_ret|].
    rewrite decide_False by done. by eapply defer_put_spec. }
  intros [] s2 Ht2. set (gl := if decide (l0 = l) then _ else _) in Ht2.
  eapply (wp_step _ _ (λ _ s', tracks s' (id :: ids) (set_typed gl (payload_key ix id, PersistentValue.OpaquePayload <$> p))) failed); [|done|].
  { destruct p as [p|]; [eapply defer_put_spec; eauto|by eapply defer_delete_spec]. }
  intros [] s3 Ht3. eapply wp_step; [by apply replace_source_spec|done|]. intros o s4 (e0 & He0 & Ho).
  unfold record_at, located_at, entry_at in *. rewrite <-Hfresh in Hrec, Hloc, He0 by done.
  destruct (decide (l0 = l)) as [->|N].
  - destruct Ho as [-> Ht4]. eapply wp_step; [by apply acc_header_spec|done|]. intros h0 s5 (Hh0 & Hty0 & Ht5). pose proof (tracks_same _ _ _ Ht5).
    apply wp_bind, wp_lift; [apply write_target_no_panic| |done]. intros h0' Hw. pose proof Hw as (-> & _)%write_target_ok.
    apply wp_bind, wp_lift; [apply adjust_header_no_panic| |done]. intros h Hadd. pose proof (touched_entry_ok _ _ Hty0 Hadd) as [Hh _].
    eapply enter_leaf_spec; [done..|]. intros syn s6 Hen Ht6. apply wp_ret. eexists. split; [exact Ht6|].
    split_and!; [|apply header_at_put|done].
    eapply (step_replace_same _ _ _ r r0 p l e e0 h syn); [done..|by rewrite !enters_member in Hen|]. unfold put_entry. by rewrite <-Heq.
  - destruct Ho as (h1 & h1' & -> & He & Hh1 & Hrem & Ht4). rewrite <-Hfresh in He by done. subst gl gr. rewrite !header_at_member in Hh1 by done.
    eapply wp_step; [by apply acc_header_spec|done|]. intros h0 s5 (Hh0 & Hty0 & Ht5). pose proof (tracks_same _ _ _ Ht5).
    apply wp_bind, wp_lift; [apply write_target_no_panic| |done]. intros h0' Hw. pose proof Hw as (-> & _)%write_target_ok.
    apply wp_bind, wp_lift; [apply added_entry_no_panic| |done]. intros h Hadd. pose proof (added_entry_ok _ _ Hty0 Hadd) as [Hh _].
    eapply enter_leaf_spec; [done..|]. intros syn s6 Hen Ht6. apply wp_ret. eexists. split; [exact Ht6|].
    cbn [foldl] in Hen. rewrite enters_other, !enters_member in Hen by done.
    split_and!; [|apply header_at_put|].
    + eapply (step_replace_move _ _ _ r r0 p l0 l e e0 h1 h1' h syn); try done. unfold put_entry. by rewrite <-Heq.
    + exists h1'. split; [done|]. unfold header_at, put_synopsis. rewrite set_typed_ne by done. apply header_at_other; [done|]. apply header_at_self.
Qed.
Lemma delete_with_header_spec s ids g id prefetched :
  tracks s ids g → id ∉ ids → bytes_ok id → (∀ l, prefetched = Some l → located_at m f id l) →
  wp (delete_record_with_header xxh3_128 sha256 id prefetched)
    (λ o s', ∃ g', tracks s' (id :: ids) g' ∧ member_step xxh3_128 m g (ItemDelete id) g' ∧
       match o with
       | DeleteReport.Deleted l h => (∃ r, record_at m g id r) ∧ located_at m g id l ∧ header_at m g' l h
       | DeleteReport.NotFound => g (record_key ix id) = Ok None
       end) failed s.
Proof.
  intros Ht Hid Bi Hpre. destruct (record_keys_typed id Bi) as (Kr & Kl & Kp).
  assert (∀ key, member_id key = Some id → key_typed key → g key = f key) as Hfresh by (intros; by eapply tracks_fresh).
  assert (id ∈ id :: ids) as Hin by by left. eapply (tracks_mono _ _ (id :: ids)) in Ht; [|by right].
  unfold delete_record_with_header. apply wp_bind, wp_get. rewrite (tracks_manifest _ _ _ Ht).
  apply wp_bind, wp_lift; [done| |done]. intros _ [= <-]. cbv zeta.
  eapply wp_step; [by apply get_typed_spec|done|]. intros v s1 (Hr & Ht1 & _). pose proof (tracks_same _ _ _ Ht1).
  apply wp_bind, wp_lift; [by destruct v as [[]|]| |done]. intros rec Hrec. destruct rec as [r|].
  2: { assert (v = None) as -> by by destruct v as [[]|]. apply wp_ret. exists g. rewrite Hfresh by done.
       split_and!; [done| |done]. apply step_absent; [by rewrite Hfresh|done]. }
  assert (v = Some (PersistentValue.VectorRecord r)) as ->. { destruct v as [[]|]; try done. by injection Hrec as ->. }
  eapply (wp_step _ _ (λ l s', located_at m f id l ∧ tracks s' (id :: ids) g) failed); [|done|].
  { destruct prefetched as [l|]; [apply wp_ret; auto|]. eapply wp_step; [by apply get_typed_spec|done|]. intros v s2 (Hv & Ht2 & _).
    pose proof (tracks_same _ _ _ Ht2). apply wp_lift; [by destruct v as [[]|]| |done]. intros l Hok. split; [|done].
    unfold located_at. rewrite Hv. destruct v as [[]|]; try done. by injection Hok as ->. }
  intros l s2 (Hloc & Ht2). assert (location_typed l) as Ll.
  { by destruct (tracks_value _ _ _ _ _ Ht2 Kl Hloc) as (? & ? & _ & [[? ?] _]). }
  pose proof (entry_key_typed l id Ll Bi) as Ke. eapply read_entry_spec; [done..|]. intros e0 s3 He0 Ht3.
  eapply wp_step; [by eapply defer_delete_spec|done|]. intros [] s4 Ht4.
  eapply wp_step; [by eapply defer_delete_spec|done|]. intros [] s5 Ht5.
  eapply wp_step; [by eapply defer_delete_spec|done|]. intros [] s6 Ht6.
  eapply wp_step; [by eapply defer_delete_spec|done|]. intros [] s7 Ht7.
  eapply (leave_leaf_spec _ _ _ _ (λ h, m_ret (DeleteReport.Deleted l h))); [done..|]. intros h h' s8 Hh Hrem Ht8. apply wp_ret.
  rewrite !header_at_member in Hh by done. unfold located_at, entry_at in *. rewrite <-Hfresh in Hr, Hloc, He0 by done.
  eexists. split; [exact Ht8|]. split_and!; [by eapply (step_delete _ _ _ id r l e0 h h')|by eexists|done|]. apply header_at_self.
Qed.

(** ** Flushing and applying the batch *)
Definition leaf_put {A} (K : leaf_key → LogicalKey.t) (V : A → PersistentValue.t) (x : leaf_key * A)
    : LogicalKey.t * option PersistentValue.t := (K x.1, Some (V x.2)).
Definition header_leaf (leaf : leaf_key) : LogicalKey.t := LogicalKey.Header ix leaf.1 leaf.2.
Definition synopsis_leaf (leaf : leaf_key) : LogicalKey.t := LogicalKey.Synopsis ix leaf.1 leaf.2.
Definition header_puts (hs : list (leaf_key * PartitionHeader)) : list (LogicalKey.t * option PersistentValue.t) :=
  leaf_put header_leaf PersistentValue.PartitionHeader <$> hs.
Definition synopsis_puts (es : list (leaf_key * SynopsisExpansion)) : list (LogicalKey.t * option PersistentValue.t) :=
  leaf_put synopsis_leaf (PersistentValue.PartitionSynopsis ∘ se_synopsis) <$> filter (λ e, se_changed e.2 = true) es.
Definition leaf_puts (leaves : LeafAccumulator) : list (LogicalKey.t * option PersistentValue.t) :=
  header_puts (in_leaf_order (la_headers leaves)) ++ synopsis_puts (in_leaf_order (la_synopses leaves)).
Lemma flush_headers_build hs mb : flush_headers xxh3_128 sha256 ix hs mb = build xxh3_128 sha256 (header_puts hs) mb.
Proof.
  revert mb. induction hs as [|[[tk p] h] hs IH]; intros mb; [done|]. cbn [flush_headers header_puts fmap list_fmap build].
  unfold m_bind, build_one at 1. cbn [leaf_put fst snd]. unfold header_leaf at 1. cbn [fst snd].
  destruct (builder_put _ _ _ _ mb) as [mb' [[]|e|]]; [apply IH|done..].
Qed.
Lemma flush_synopses_build es mb : flush_synopses xxh3_128 sha256 ix es mb = build xxh3_128 sha256 (synopsis_puts es) mb.
Proof.
  revert mb. induction es as [|[[tk p] e] es IH]; intros mb; [done|]. cbn [flush_synopses]. unfold synopsis_puts. rewrite filter_cons.
  cbn [snd]. destruct (se_changed e).
  - rewrite decide_True by done. cbn [fmap list_fmap build]. unfold m_bind, build_one at 1. cbn [leaf_put fst snd].
    unfold synopsis_leaf at 1. cbn [fst snd compose]. destruct (builder_put _ _ _ _ mb) as [mb' [[]|x|]]; [apply IH|done..].
  - rewrite decide_False by done. apply IH.
Qed.
Lemma build_app ms1 ms2 mb :
  build xxh3_128 sha256 (ms1 ++ ms2) mb = (let! _ := build xxh3_128 sha256 ms1 in build xxh3_128 sha256 ms2) mb.
Proof.
  revert mb. induction ms1 as [|x ms1 IH]; intros mb; [done|]. cbn [app build]. unfold m_bind in *.
  destruct (build_one _ _ x mb) as [mb' [[]|e|]]; [apply IH|done..].
Qed.
Lemma in_leaf_order_elem {A} (l : gmap leaf_key A) leaf a : (leaf, a) ∈ in_leaf_order l ↔ l !! leaf = Some a.
Proof. unfold in_leaf_order. by rewrite merge_sort_Permutation, elem_of_map_to_list. Qed.
Lemma in_leaf_order_nodup {A} (l : gmap leaf_key A) : NoDup (in_leaf_order l).*1.
Proof. unfold in_leaf_order. rewrite merge_sort_Permutation. apply NoDup_fst_map_to_list. Qed.
Lemma filter_nodup_fst {A} (P : leaf_key * A → Prop) `{∀ x, Decision (P x)} (l : list (leaf_key * A)) :
  NoDup l.*1 → NoDup (filter P l).*1.
Proof. intros Hnd. eapply sublist_NoDup; [exact Hnd|]. apply fmap_sublist, sublist_filter. Qed.
Lemma leaf_put_fold {A} K (V : A → PersistentValue.t) `{!Inj (=) (=) K} l f' leaf a :
  NoDup l.*1 → (leaf, a) ∈ l → foldl set_typed f' (leaf_put K V <$> l) (K leaf) = Ok (Some (V a)).
Proof.
  revert f'. induction l as [|[leaf' a'] l IH]; intros f' Hnd Hin; [by apply elem_of_nil in Hin|].
  rewrite fmap_cons in Hnd. apply list.NoDup_cons in Hnd as [Hn Hnd]. cbn [fmap list_fmap foldl]. apply elem_of_cons in Hin as [[= -> ->]|Hin]; [|by apply IH].
  rewrite foldl_set_typed_other. { unfold set_typed. cbn [leaf_put fst snd]. by rewrite decide_True. }
  intros k' v' Hin E. subst k'. apply list_elem_of_fmap in Hin as ([leaf'' a''] & [= ?%(inj K) _] & Hin). cbn in *. subst leaf''.
  apply Hn, list_elem_of_fmap. by exists (leaf', a'').
Qed.
Lemma leaf_put_other {A} K (V : A → PersistentValue.t) l f' key :
  (∀ leaf a, (leaf, a) ∈ l → K leaf ≠ key) → foldl set_typed f' (leaf_put K V <$> l) key = f' key.
Proof. intros Hk. apply foldl_set_typed_other. intros k v ([leaf a] & [= -> _] & Hin)%list_elem_of_fmap. by eapply Hk. Qed.
#[local] Instance header_leaf_inj : Inj (=) (=) header_leaf.
Proof. intros [] [] [= -> ->]. done. Qed.
#[local] Instance synopsis_leaf_inj : Inj (=) (=) synopsis_leaf.
Proof. intros [] [] [= -> ->]. done. Qed.
(** The leaves of an accumulator, in some order. *)
Definition listing {A} (l : list (leaf_key * A)) (leaves : gmap leaf_key A) : Prop :=
  NoDup l.*1 ∧ ∀ leaf a, (leaf, a) ∈ l ↔ leaves !! leaf = Some a.
(** Writing the accumulated leaves, in any order, leaves the map they stand for. *)
Lemma flushed_pend f' ms leaves hs es :
  (∀ k v, (k, v) ∈ ms → is_Some (member_id k)) → listing hs (la_headers leaves) → listing es (la_synopses leaves) →
  (∀ tk p e, la_synopses leaves !! (tk, p) = Some e → se_changed e = false →
     f' (LogicalKey.Synopsis ix tk p) = Ok (Some (PersistentValue.PartitionSynopsis (se_synopsis e)))) →
  same_map (foldl set_typed f' (ms ++ header_puts hs ++ synopsis_puts es)) (pend f' ms leaves).
Proof.
  intros Hids [Hhn Hhe] [Hsn Hse] Hun key _. rewrite !foldl_app.
  assert (∀ i tk p, foldl set_typed f' ms (LogicalKey.Header i tk p) = f' (LogicalKey.Header i tk p) ∧
    foldl set_typed f' ms (LogicalKey.Synopsis i tk p) = f' (LogicalKey.Synopsis i tk p)) as Hms.
  { intros i tk p. split; apply foldl_set_typed_other; intros k v Hin ->; by destruct (Hids _ _ Hin). }
  assert ((∀ leaf, header_leaf leaf ≠ key) → (∀ leaf, synopsis_leaf leaf ≠ key) →
    foldl set_typed (foldl set_typed (foldl set_typed f' ms) (header_puts hs)) (synopsis_puts es) key = foldl set_typed f' ms key) as Hother.
  { intros Hh Hs. unfold header_puts, synopsis_puts. rewrite !leaf_put_other; auto. }
  destruct key; try (apply Hother; by intros ? [=]); cbn [pend].
  - unfold synopsis_puts. rewrite leaf_put_other by by intros ? ? ? [=]. unfold header_puts.
    destruct (la_headers leaves !! (tree_key, partition)) as [h|] eqn:E; [destruct (Z.eqb_spec index ix) as [->|N]|].
    + apply Hhe in E. by apply (leaf_put_fold header_leaf PersistentValue.PartitionHeader _ _ (tree_key, partition)).
    + rewrite leaf_put_other; [apply Hms|]. intros leaf a _ [=]. done.
    + rewrite leaf_put_other; [apply Hms|]. intros [] a Hin%Hhe [=]. cbn in *. by simplify_eq.
  - unfold header_puts. set (f1 := foldl set_typed (foldl set_typed f' ms) _).
    assert (∀ i tk p, f1 (LogicalKey.Synopsis i tk p) = f' (LogicalKey.Synopsis i tk p)) as Hf1.
    { intros i tk p. subst f1. rewrite leaf_put_other by by intros ? ? ? [=]. apply Hms. }
    unfold synopsis_puts.
    destruct (la_synopses leaves !! (tree_key, partition)) as [e|] eqn:E; [destruct (Z.eqb_spec index ix) as [->|N]|].
    + destruct (se_changed e) eqn:Ec.
      * apply Hse in E. apply (leaf_put_fold synopsis_leaf (PersistentValue.PartitionSynopsis ∘ se_synopsis) _ _ (tree_key, partition)).
        -- by apply filter_nodup_fst.
        -- by apply list_elem_of_filter.
      * rewrite leaf_put_other, Hf1; [by apply Hun|].
        intros [] a [Hc Hin%Hse]%list_elem_of_filter [=]. cbn in *. simplify_eq. congruence.
    + rewrite leaf_put_other; [apply Hf1|]. intros leaf a _ [=]. done.
    + rewrite leaf_put_other; [apply Hf1|]. intros [] a [_ Hin%Hse]%list_elem_of_filter [=]. cbn in *. by simplify_eq.
Qed.
Lemma in_leaf_order_listing {A} (leaves : gmap leaf_key A) : listing (in_leaf_order leaves) leaves.
Proof. split; [apply in_leaf_order_nodup|apply in_leaf_order_elem]. Qed.
(** The flushed writes leave the map the batch stood for. *)
Lemma flushed_map s ms ids : batch_ok s ms ids → same_map (foldl set_typed f (ms ++ leaf_puts (ms_leaves s))) (pend f ms (ms_leaves s)).
Proof.
  intros Hb. apply flushed_pend; [|apply in_leaf_order_listing..|].
  - intros k v Hin. destruct (bk_ids _ _ _ Hb _ _ Hin) as (? & ? & _). by eexists.
  - intros tk p e E. by apply (bk_synopses _ _ _ Hb) in E as (_ & _ & _ & ?).
Qed.

Lemma acc_flush_build s ids g :
  tracks s ids g → acc_flush xxh3_128 sha256 s = on_deferred (build xxh3_128 sha256 (leaf_puts (ms_leaves s))) s.
Proof.
  intros Ht. unfold acc_flush, m_bind, m_get, m_lift, on_deferred. rewrite (tracks_manifest _ _ _ Ht). unfold leaf_puts.
  rewrite build_app. unfold m_bind. rewrite <-flush_headers_build.
  destruct (flush_headers _ _ _ _ (ms_deferred s)) as [mb [[]|e|]]; [|done..]. cbn [ms_deferred ms_txn ms_leaves].
  by rewrite flush_synopses_build.
Qed.
Lemma leaf_puts_typed s ms ids : batch_ok s ms ids → Forall (mutation_typed (wl_binding (ms_txn s))) (leaf_puts (ms_leaves s)).
Proof.
  intros Hb. pose proof index_ok. pose proof (bd_manifest _ _ _ (bk_bound _ _ _ Hb)) as Em.
  assert (∀ P, (∀ m' Hm', m' = m → P m' Hm') → bound_to (Some m) P) as Hbd. { intros P HP. exists m, Hm. auto. }
  apply Forall_app. split; apply Forall_fmap, Forall_forall; intros [[tk p] x] Hin%list_elem_of_In.
  - apply in_leaf_order_elem in Hin. destruct (bk_headers _ _ _ Hb _ _ _ Hin) as (? & ? & ?). split; [done|]. intros v [= <-].
    rewrite Em. apply Hbd. intros m' Hm' ->. by split.
  - apply list_elem_of_filter in Hin as [_ Hin%in_leaf_order_elem]. destruct (bk_synopses _ _ _ Hb _ _ _ Hin) as (? & ? & ? & _). split; [done|].
    intros v [= <-]. rewrite Em. apply Hbd. by intros m' Hm' ->.
Qed.
(** Flushing the accumulator and applying the builder installs the map. *)
Definition install : M (MemberState T) unit :=
  let! _ := acc_flush xxh3_128 sha256 in
  let! s := m_get in
  on_txn (apply (ms_deferred s)).
Lemma install_spec s ids g :
  tracks s ids g → wp install (λ _ s', typed_wrote xxh3_128 sha256 t0 (ms_txn s') g) failed s.
Proof.
  intros Ht. pose proof Ht as (ms & Hb & Hg). pose proof (bk_bound _ _ _ Hb) as [[Hco Hbind] Em].
  unfold install, wp, m_bind, m_get. rewrite (acc_flush_build _ _ _ Ht). unfold on_deferred at 1.
  pose proof (leaf_puts_typed _ _ _ Hb) as Hty. rewrite <-(bk_binding _ _ _ Hb) in Hty, Hbind.
  pose proof (build_spec xxh3_128 sha256 types _ _ Hbind (bk_builder _ _ _ Hb) (bk_entries _ _ _ Hb) Hty) as Hw.
  unfold wp in Hw. destruct (build xxh3_128 sha256 _ (ms_deferred s)) as [mb [[]|e|]]; [|exact (bk_same _ _ _ Hb)|done].
  destruct Hw as (es & Hes & _ & He & _ & Hap). unfold on_txn. cbn [ms_txn ms_deferred].
  pose proof (apply_spec mb (ms_txn s) Hco He) as Hw. unfold wp in Hw.
  destruct (apply mb (ms_txn s)) as [t' [[]|e|]]; [|etrans; [exact (bk_same _ _ _ Hb)|done]|done].
  destruct Hw as [[Hc' Ev Hs] _]. cbn [ms_txn]. split; [done|etrans; [exact (bk_same _ _ _ Hb)|done]|].
  destruct (bk_stands _ _ _ Hb) as (es0 & Hes0 & Hap0). rewrite (bk_binding _ _ _ Hb) in Hes.
  assert (lt_view t' = set_all (es0 ++ es) (lt_view (ms_txn s))) as Ev'.
  { rewrite Ev, Hap, Hap0. unfold set_all. by rewrite foldl_app. }
  unfold LogicalSpec.typed_view. rewrite Ev', (sm_binding _ _ Hs), <-Hg, <-(flushed_map _ _ _ Hb).
  etrans; [|apply set_typed_fold_proper; [by apply (bk_view _ _ _ Hb)|done]].
  rewrite (bk_binding _ _ _ Hb) in Hbind, Hty.
  eapply typed_at_set_all; [done| |by apply Forall2_app]. apply Forall_app. split; [apply Hb|done].
Qed.
End batch.
