(* ===== verification/MembershipInv.v ===== *)
(** What record membership promises
    (the module documentation of src/src/storage/membership.rs): records,
    locations, leaf entries, exact counts and Partition Synopses agree, and every
    membership change keeps them in agreement. *)
From stdpp Require Import gmap sorting.
From S2P Require Import Prelude RustStd Api TreeKey Keys KeyRanges RaBitQ Manifest Wire ValueData Records Synopsis Values Backend Memory Txn Codec Logical LogicalSpec TreeOps Membership MembershipSpec.

Section intact.
Context (xxh3_128 : Z → list Z → Z) (sha256 : list Z → list Z) (m : IndexManifest) (Hm : manifest_ok m).
Abbreviation ix := (im_logical_index_id m).
Implicit Types (f g : typed_map) (id : list Z) (l : RecordLocation) (r : VectorRecord) (e : LeafEntry) (h : PartitionHeader).

(** The leaf [l] holds exactly the records [ids]. *)
Definition holds f l (ids : list (list Z)) : Prop :=
  NoDup ids ∧ ∀ id, bytes_ok id → id ∈ ids ↔ ∃ e, entry_at m f l id e.
Record intact f : Prop := {
  it_paired id : bytes_ok id → (∃ r, record_at m f id r) ↔ ∃ l, located_at m f id l;
  it_located id l : bytes_ok id → located_at m f id l → location_typed l;
  it_listed id l : bytes_ok id → located_at m f id l → ∃ e, entry_at m f l id e;
  it_entry id l e : bytes_ok id → location_typed l → entry_at m f l id e → located_at m f id l;
  it_projection id r l e :
    bytes_ok id → location_typed l → record_at m f id r → entry_at m f l id e → le_fields e = vr_fields r;
  it_payload id p :
    bytes_ok id → f (payload_key ix id) = Ok (Some (PersistentValue.OpaquePayload p)) → ∃ r, record_at m f id r;
  it_leaf id l e : bytes_ok id → location_typed l → entry_at m f l id e → ∃ h, header_at m f l h ∧ ph_level h = 1;
  it_count l h : location_typed l → header_at m f l h → ph_level h = 1 →
    ∃ ids, Forall bytes_ok ids ∧ holds f l ids ∧ len ids = ph_entry_count h;
  it_stored l s : location_typed l → synopsis_at m f l s → admits (synopsis_family xxh3_128 m Hm) s;
  it_covers id l e s :
    bytes_ok id → location_typed l → entry_at m f l id e → synopsis_at m f l s → synopsis_covers xxh3_128 m s (le_fields e);
}.

(** One record's group moves from [old] to [new]: everything else of every
    other record stays, and the leaves account for the entry. *)
Abbreviation group := (VectorRecord * RecordLocation * LeafEntry)%type.
Definition in_leaf (o : option group) l : bool := match o with Some (_, l', _) => bool_decide (l = l') | None => false end.
Definition group_at f id (o : option group) : Prop :=
  match o with
  | Some (r, l, e) => record_at m f id r ∧ located_at m f id l ∧ entry_at m f l id e
  | None => f (record_key ix id) = Ok None
  end.
Record regroups f g id (old new : option group) : Prop := {
  rg_old : group_at f id old;
  rg_new : group_at g id new;
  rg_gone : new = None → g (location_key ix id) = Ok None ∧ g (payload_key ix id) = Ok None;
  rg_other key : key_typed key → is_Some (member_id key) → member_id key ≠ Some id → g key = f key;
  rg_entry l : location_typed l → in_leaf new l = false →
    g (entry_key ix l id) = if in_leaf old l then Ok None else f (entry_key ix l id);
  rg_fields r l e : new = Some (r, l, e) → le_fields e = vr_fields r ∧ location_typed l;
  rg_header l h' : location_typed l → header_at m g l h' →
    ∃ h, header_at m f l h ∧ ph_level h' = ph_level h ∧
      ph_entry_count h' = ph_entry_count h - Z.b2z (in_leaf old l) + Z.b2z (in_leaf new l);
  rg_kept l h : location_typed l → header_at m f l h → ∃ h', header_at m g l h' ∧ ph_level h' = ph_level h;
  rg_target r l e : new = Some (r, l, e) → ∃ h, header_at m g l h ∧ ph_level h = 1;
  rg_synopsis l s' : location_typed l → synopsis_at m g l s' →
    ∃ s, synopsis_at m f l s ∧
      (admits (synopsis_family xxh3_128 m Hm) s → admits (synopsis_family xxh3_128 m Hm) s') ∧ (∀ w, synopsis_covers xxh3_128 m s w → synopsis_covers xxh3_128 m s' w) ∧
      ∀ r e, new = Some (r, l, e) → synopsis_covers xxh3_128 m s' (le_fields e);
}.

Section regroup.
Context f g id old new (Hf : intact f) (Hid : bytes_ok id) (Hr : regroups f g id old new).

Lemma record_keys_of id' :
  bytes_ok id' → id_ok ix → key_typed (record_key ix id') ∧ key_typed (location_key ix id') ∧ key_typed (payload_key ix id').
Proof. by intros. Qed.
Context (Hix : id_ok ix).
Lemma other_record id' :
  bytes_ok id' → id' ≠ id →
  g (record_key ix id') = f (record_key ix id') ∧ g (location_key ix id') = f (location_key ix id') ∧
  g (payload_key ix id') = f (payload_key ix id') ∧
  ∀ l, location_typed l → g (entry_key ix l id') = f (entry_key ix l id').
Proof.
  intros Hb Hne. assert (Some id' ≠ Some id) as Ne by congruence.
  split_and!; [..|intros l [? ?]]; apply (rg_other _ _ _ _ _ Hr); try done.
Qed.
Lemma old_entry l e : location_typed l → entry_at m f l id e → in_leaf old l = true.
Proof.
  intros Hl He. pose proof (it_entry _ Hf _ _ _ Hid Hl He) as Hloc. pose proof (rg_old _ _ _ _ _ Hr) as Ho.
  destruct old as [[[r0 l0] e0]|]; cbn in *.
  - destruct Ho as (_ & Hl0 & _). unfold located_at in *. rewrite Hl0 in Hloc. injection Hloc as <-. by apply bool_decide_true.
  - destruct (proj2 (it_paired _ Hf _ Hid)) as [r Hrec]; [by eexists|]. unfold record_at in Hrec. congruence.
Qed.
Lemma old_in_leaf l : in_leaf old l = true → ∃ e, entry_at m f l id e.
Proof.
  pose proof (rg_old _ _ _ _ _ Hr) as Ho. destruct old as [[[r0 l0] e0]|]; cbn in *; [|done].
  intros ->%bool_decide_eq_true. destruct Ho as (_ & _ & ?). by eexists.
Qed.
Lemma new_entry l e : location_typed l → entry_at m g l id e ↔ ∃ r, new = Some (r, l, e).
Proof.
  intros Hl. pose proof (rg_new _ _ _ _ _ Hr) as Hn. split.
  - intros He. destruct (in_leaf new l) eqn:El.
    + destruct new as [[[r1 l1] e1]|]; [|done]. cbn in El, Hn. apply bool_decide_eq_true in El as <-.
      destruct Hn as (_ & _ & Hn). unfold entry_at in *. exists r1. congruence.
    + unfold entry_at in He. rewrite (rg_entry _ _ _ _ _ Hr l Hl El) in He. destruct (in_leaf old l) eqn:Eo; [done|].
      apply old_entry in He; [congruence|done].
  - intros [r ->]. cbn in Hn. by destruct Hn as (_ & _ & ?).
Qed.
Lemma new_in_leaf l : location_typed l → in_leaf new l = true ↔ ∃ e, entry_at m g l id e.
Proof.
  intros Hl. split.
  - intros E. assert (∃ r e, new = Some (r, l, e)) as (r & e & En).
    { clear -E. destruct new as [[[r l'] e]|]; [|done]. cbn in E. apply bool_decide_eq_true in E as <-. eauto. }
    exists e. apply new_entry; [done|]. by exists r.
  - intros [e [r E]%new_entry]; [|done]. rewrite E. cbn. by apply bool_decide_true.
Qed.
Lemma new_record r : record_at m g id r → ∃ l e, new = Some (r, l, e) ∧ located_at m g id l.
Proof.
  intros Hrec. pose proof (rg_new _ _ _ _ _ Hr) as Hn. unfold record_at in Hrec. destruct new as [[[r1 l1] e1]|]; cbn in Hn; [|congruence].
  destruct Hn as (Hn & Hl & _). unfold record_at in Hn. exists l1, e1. split; [|done]. congruence.
Qed.
Lemma new_location l : located_at m g id l → ∃ r e, new = Some (r, l, e).
Proof.
  intros Hloc. pose proof (rg_new _ _ _ _ _ Hr) as Hn. unfold located_at in Hloc. destruct new as [[[r1 l1] e1]|] eqn:En; cbn in Hn.
  - destruct Hn as (_ & Hl & _). unfold located_at in Hl. exists r1, e1. congruence.
  - destruct (rg_gone _ _ _ _ _ Hr eq_refl). congruence.
Qed.
(** The members of a leaf. *)
Lemma regroup_holds l h' :
  location_typed l → header_at m g l h' → ph_level h' = 1 →
  ∃ ids, Forall bytes_ok ids ∧ holds g l ids ∧ len ids = ph_entry_count h'.
Proof.
  intros Hl Hh' Hlev. destruct (rg_header _ _ _ _ _ Hr l h' Hl Hh') as (h & Hh & El & Ec).
  destruct (it_count _ Hf l h Hl Hh) as (ids & Hbs & [Hnd Hids] & Hlen); [congruence|].
  assert (∃ rest, Forall bytes_ok rest ∧ NoDup rest ∧ (id ∉ rest) ∧ len rest = len ids - Z.b2z (in_leaf old l) ∧
    ∀ id', bytes_ok id' → id' ≠ id → (id' ∈ rest ↔ ∃ e, entry_at m f l id' e)) as (rest & Hbr & Hndr & Hnin & Hlr & Hrest).
  { destruct (in_leaf old l) eqn:Eo.
    - assert (id ∈ ids) as Hin by by apply Hids, old_in_leaf. apply elem_of_Permutation in Hin as [rest Hp]. exists rest.
      rewrite Hp in Hnd. apply list.NoDup_cons in Hnd as [Hn Hnd]. rewrite Hp in Hbs. apply Forall_cons_iff in Hbs as [_ Hbs].
      split_and!; try done.
      + apply Permutation_length in Hp. unfold len. rewrite Hp. cbn. lia.
      + intros id' Hb Hne. rewrite <-Hids by done. rewrite Hp, elem_of_cons. naive_solver.
    - exists ids. split_and!; try done; [|cbn; lia|by intros; apply Hids].
      intros [e He]%Hids; [|done]. apply old_entry in He; [congruence|done]. }
  assert (∀ id', bytes_ok id' → id' ≠ id → (∃ e, entry_at m f l id' e) ↔ ∃ e, entry_at m g l id' e) as Hsame.
  { intros id' Hb Hne. destruct (other_record id' Hb Hne) as (_ & _ & _ & He). unfold entry_at. by rewrite (He l Hl). }
  exists (if in_leaf new l then id :: rest else rest). rewrite Ec, <-Hlen, <-Hlr. destruct (in_leaf new l) eqn:En.
  - split_and!; [by constructor| |unfold len; cbn; lia]. split; [by constructor|]. intros id' Hb. rewrite elem_of_cons.
    destruct (decide (id' = id)) as [->|Hne]; [rewrite <-new_in_leaf by done; naive_solver|]. rewrite Hrest, Hsame by done. naive_solver.
  - split_and!; [done| |cbn; lia]. split; [done|]. intros id' Hb.
    destruct (decide (id' = id)) as [->|Hne]; [|by rewrite Hrest, Hsame by done].
    split; [done|]. rewrite <-new_in_leaf by done. congruence.
Qed.
Lemma regroup_intact : intact g.
Proof.
  split; [..|apply regroup_holds| |]; intros *.
  - intros Hb. destruct (decide (id0 = id)) as [->|Hne].
    + split; [intros [r (l & e & _ & ?)%new_record]; by eexists|]. intros [l (r & e & E)%new_location].
      pose proof (rg_new _ _ _ _ _ Hr) as Hn. rewrite E in Hn. destruct Hn as [? _]. by eexists.
    + destruct (other_record id0 Hb Hne) as (Er & El & _). unfold record_at, located_at. rewrite Er, El. by apply (it_paired _ Hf).
  - intros Hb Hl. destruct (decide (id0 = id)) as [->|Hne].
    + apply new_location in Hl as (r & e & E). by apply (rg_fields _ _ _ _ _ Hr) in E as [_ ?].
    + destruct (other_record id0 Hb Hne) as (_ & El & _). unfold located_at in Hl. rewrite El in Hl. by apply (it_located _ Hf id0).
  - intros Hb Hl. destruct (decide (id0 = id)) as [->|Hne].
    + apply new_location in Hl as (r & e & E). pose proof (rg_new _ _ _ _ _ Hr) as Hn. rewrite E in Hn. destruct Hn as (_ & _ & ?). by eexists.
    + destruct (other_record id0 Hb Hne) as (_ & El & _ & Ee). unfold located_at in Hl. rewrite El in Hl.
      pose proof (it_located _ Hf _ _ Hb Hl) as Hlt. unfold entry_at. rewrite Ee by done. by apply (it_listed _ Hf).
  - intros Hb Hl He. destruct (decide (id0 = id)) as [->|Hne].
    + apply new_entry in He as [r E]; [|done]. pose proof (rg_new _ _ _ _ _ Hr) as Hn. rewrite E in Hn. by destruct Hn as (_ & ? & _).
    + destruct (other_record id0 Hb Hne) as (_ & El & _ & Ee). unfold located_at, entry_at in *. rewrite El. rewrite Ee in He by done.
      by eapply (it_entry _ Hf).
  - intros Hb Hl Hrec He. destruct (decide (id0 = id)) as [->|Hne].
    + apply new_entry in He as [r1 E]; [|done]. apply new_record in Hrec as (l2 & e2 & E2 & _). rewrite E in E2. injection E2 as -> <- <-.
      by apply (rg_fields _ _ _ _ _ Hr) in E as [? _].
    + destruct (other_record id0 Hb Hne) as (Er & _ & _ & Ee). unfold record_at, entry_at in *. rewrite Er in Hrec. rewrite Ee in He by done.
      by eapply (it_projection _ Hf).
  - intros Hb Hp. destruct (decide (id0 = id)) as [->|Hne].
    + pose proof (rg_new _ _ _ _ _ Hr) as Hn. destruct new as [[[r1 l1] e1]|] eqn:E; [destruct Hn as [? _]; by eexists|].
      destruct (rg_gone _ _ _ _ _ Hr eq_refl). congruence.
    + destruct (other_record id0 Hb Hne) as (Er & _ & Ep & _). unfold record_at in *. rewrite Er. rewrite Ep in Hp.
      by eapply (it_payload _ Hf).
  - intros Hb Hl He. destruct (decide (id0 = id)) as [->|Hne].
    + apply new_entry in He as [r1 E]; [|done]. by eapply (rg_target _ _ _ _ _ Hr).
    + destruct (other_record id0 Hb Hne) as (_ & _ & _ & Ee). unfold entry_at in He. rewrite Ee in He by done.
      destruct (it_leaf _ Hf _ _ _ Hb Hl He) as (h & Hh & Hlev). destruct (rg_kept _ _ _ _ _ Hr l h Hl Hh) as (h' & ? & ?). exists h'. split; [done|congruence].
  - intros Hl Hs. destruct (rg_synopsis _ _ _ _ _ Hr l s Hl Hs) as (s0 & Hs0 & Hst & _). by eapply Hst, (it_stored _ Hf).
  - intros Hb Hl He Hs. destruct (rg_synopsis _ _ _ _ _ Hr l s Hl Hs) as (s0 & Hs0 & _ & Hmono & Hnew). destruct (decide (id0 = id)) as [->|Hne].
    + apply new_entry in He as [r1 E]; [|done]. by eapply Hnew.
    + destruct (other_record id0 Hb Hne) as (_ & _ & _ & Ee). unfold entry_at in He. rewrite Ee in He by done.
      apply Hmono. by eapply (it_covers _ Hf).
Qed.
End regroup.

(** ** Every step regroups one record *)
Lemma adjust_header_fields h n h' :
  adjust_header h n = Ok h' → ph_level h' = ph_level h ∧ ph_entry_count h' = n.
Proof.
  unfold adjust_header. intros (c & _ & Hh)%bind_ok. apply map_err_ok in Hh. unfold PartitionHeader_new in Hh. case_match; [done|].
  by apply Ok_inj in Hh as <-.
Qed.
Lemma added_entry_fields h h' : added_entry h = Ok h' → ph_level h' = ph_level h ∧ ph_entry_count h' = ph_entry_count h + 1.
Proof.
  unfold added_entry, checked_bump. intros (n & Hn & Ha)%bind_ok. apply adjust_header_fields in Ha as [-> ->]. case_match; [|done].
  by apply Ok_inj in Hn as <-.
Qed.
Lemma removed_entry_fields h h' : removed_entry h = Ok h' → ph_level h' = ph_level h ∧ ph_entry_count h' = ph_entry_count h - 1.
Proof.
  unfold removed_entry. intros (n & Hn & Ha)%bind_ok. apply adjust_header_fields in Ha as [-> ->]. case_match; [|done].
  by apply Ok_inj in Hn as <-.
Qed.
(** What an item carries: a prepared record whose entry projects its fields. *)
Definition item_agrees (i : member_item) : Prop :=
  match i with
  | ItemInsert r _ l e | ItemReplace r _ _ l e => le_fields e = vr_fields r
  | ItemDelete _ => True
  end.
Lemma item_typed_id i : item_typed xxh3_128 sha256 m i → bytes_ok (item_id i).
Proof. destruct i; cbn; [intros ?%group_values_typed|intros [?%group_values_typed _]|done]; by eapply gt_id. Qed.
Lemma same_map_intact f g : same_map g f → intact f → intact g.
Proof.
  intros E Hf. assert (id_ok ix) as Hix by by destruct Hm.
  assert (∀ id, bytes_ok id → g (record_key ix id) = f (record_key ix id) ∧ g (location_key ix id) = f (location_key ix id) ∧
    g (payload_key ix id) = f (payload_key ix id)) as Er by (intros; split_and!; by apply E).
  assert (∀ id l, bytes_ok id → location_typed l → g (entry_key ix l id) = f (entry_key ix l id)) as Ee by (intros ? ? ? [? ?]; by apply E).
  assert (∀ l, location_typed l → g (header_key ix l) = f (header_key ix l) ∧ g (synopsis_key ix l) = f (synopsis_key ix l)) as Eh
    by (intros ? [? ?]; split; by apply E).
  destruct Hf as [H1 H2 H3 H4 H5 H6 H7 H8 H9 H10].
  split; unfold holds, record_at, located_at, entry_at, header_at, synopsis_at in *; intros *.
  - intros Hb. destruct (Er id Hb) as (-> & -> & _). auto.
  - intros Hb. destruct (Er id Hb) as (_ & -> & _). eauto.
  - intros Hb. destruct (Er id Hb) as (_ & -> & _). intros Hl. rewrite Ee by eauto. eauto.
  - intros Hb Hl. destruct (Er id Hb) as (_ & -> & _). rewrite Ee by done. eauto.
  - intros Hb Hl. destruct (Er id Hb) as (-> & _). rewrite Ee by done. eauto.
  - intros Hb. destruct (Er id Hb) as (-> & _ & ->). eauto.
  - intros Hb Hl. destruct (Eh l Hl) as (-> & _). rewrite Ee by done. eauto.
  - intros Hl. destruct (Eh l Hl) as (-> & _). intros Hh Hlev. destruct (H8 _ _ Hl Hh Hlev) as (ids & Hb & [Hnd Hids] & Hlen).
    exists ids. split_and!; try done. intros id Hbi. rewrite Ee by done. auto.
  - intros Hl. destruct (Eh l Hl) as (_ & ->). eauto.
  - intros Hb Hl. destruct (Eh l Hl) as (_ & ->). rewrite Ee by done. eauto.
Qed.

(** The keys of a step, told apart. *)
Lemma set_typed_eq f k v : set_typed f (k, v) k = Ok v.
Proof. unfold set_typed. cbn [fst snd]. by rewrite decide_True. Qed.
Lemma entry_key_inj l l' id id' : entry_key ix l id = entry_key ix l' id' → l = l'.
Proof. intros [= ? ? ?]. destruct l, l'. cbn in *. by subst. Qed.
Lemma synopsis_key_inj l l' : synopsis_key ix l = synopsis_key ix l' → l = l'.
Proof. intros [= ? ?]. destruct l, l'. cbn in *. by subst. Qed.
Ltac key_ne :=
  first [discriminate | let E := fresh in intros E; first [apply header_key_inj in E|apply synopsis_key_inj in E|apply entry_key_inj in E]; congruence].
Ltac look := cbn [foldl app] in *; unfold put_header, put_synopsis, put_entry in *;
  repeat first [rewrite set_typed_eq|rewrite set_typed_ne by key_ne].
Ltac touches := cbn [app]; repeat first [apply List.Forall_nil|apply List.Forall_cons; [cbn; by auto|]].
Lemma touched_other f g id ms key :
  same_map g (foldl set_typed f ms) → Forall (λ x, member_id x.1 = None ∨ member_id x.1 = Some id) ms →
  key_typed key → is_Some (member_id key) → member_id key ≠ Some id → g key = f key.
Proof.
  intros Hg Hms Hk [id' Hid] Hne. rewrite Hg by done. apply foldl_set_typed_other. intros k v Hin ->.
  apply list_elem_of_In in Hin. eapply Forall_forall in Hms; [|exact Hin]. cbn in Hms. destruct Hms; congruence.
Qed.
Lemma enters_covers f l e bump h s :
  intact f → location_typed l → Forall Api.value_ok (le_fields e) → enters xxh3_128 m f l e bump h s →
  (∃ h0, header_at m f l h0 ∧ ph_level h0 = 1 ∧ bump h0 = Ok h) ∧
  ∃ s0, synopsis_at m f l s0 ∧ (admits (synopsis_family xxh3_128 m Hm) s0 → admits (synopsis_family xxh3_128 m Hm) s) ∧
    (∀ w, synopsis_covers xxh3_128 m s0 w → synopsis_covers xxh3_128 m s w) ∧ synopsis_covers xxh3_128 m s (le_fields e).
Proof.
  intros Hf Hl He [(h0 & Hh0 & (_ & Hlev & _)%write_target_ok & Hb) (s0 & c & Hs0 & Hx)]. split; [by exists h0|]. exists s0.
  pose proof (it_stored _ Hf _ _ Hl Hs0) as Ha. destruct (expand_stored xxh3_128 m Hm _ _ Ha He) as [_ Hex].
  by destruct (Hex _ _ Hx) as (? & _ & ? & ?).
Qed.
(** The Headers and Synopses of a step, by leaf. *)
Definition header_change f old new (upd : RecordLocation → option PartitionHeader) : Prop :=
  ∀ l, match upd l with
       | Some h' => ∃ h, header_at m f l h ∧ ph_level h = 1 ∧ ph_level h' = ph_level h ∧
           ph_entry_count h' = ph_entry_count h - Z.b2z (in_leaf old l) + Z.b2z (in_leaf new l)
       | None => in_leaf old l = false ∧ in_leaf new l = false
       end.
Definition synopsis_change f (new : option group) (upd : option PartitionSynopsis) : Prop :=
  match new, upd with
  | Some (_, l, e), Some s => ∃ s0, synopsis_at m f l s0 ∧
      (admits (synopsis_family xxh3_128 m Hm) s0 → admits (synopsis_family xxh3_128 m Hm) s) ∧
      (∀ w, synopsis_covers xxh3_128 m s0 w → synopsis_covers xxh3_128 m s w) ∧ synopsis_covers xxh3_128 m s (le_fields e)
  | None, None => True
  | _, _ => False
  end.
Lemma regroups_leaves f g old new upd syn :
  header_change f old new upd → synopsis_change f new syn →
  (∀ l, location_typed l → g (header_key ix l) = match upd l with Some h => Ok (Some (PersistentValue.PartitionHeader h)) | None => f (header_key ix l) end) →
  (∀ l, location_typed l → g (synopsis_key ix l) =
     match syn with Some s => if in_leaf new l then Ok (Some (PersistentValue.PartitionSynopsis s)) else f (synopsis_key ix l) | None => f (synopsis_key ix l) end) →
  (∀ l h', location_typed l → header_at m g l h' →
    ∃ h, header_at m f l h ∧ ph_level h' = ph_level h ∧
      ph_entry_count h' = ph_entry_count h - Z.b2z (in_leaf old l) + Z.b2z (in_leaf new l)) ∧
  (∀ l h, location_typed l → header_at m f l h → ∃ h', header_at m g l h' ∧ ph_level h' = ph_level h) ∧
  (∀ r l e, location_typed l → new = Some (r, l, e) → ∃ h, header_at m g l h ∧ ph_level h = 1) ∧
  (∀ l s', location_typed l → synopsis_at m g l s' →
    ∃ s, synopsis_at m f l s ∧ (admits (synopsis_family xxh3_128 m Hm) s → admits (synopsis_family xxh3_128 m Hm) s') ∧
      (∀ w, synopsis_covers xxh3_128 m s w → synopsis_covers xxh3_128 m s' w) ∧
      ∀ r e, new = Some (r, l, e) → synopsis_covers xxh3_128 m s' (le_fields e)).
Proof.
  intros Hh Hs Gh Gs. unfold header_at, synopsis_at in *. split_and!.
  - intros l h' Hl E. rewrite Gh in E by done. specialize (Hh l). destruct (upd l) as [h1|].
    + injection E as <-. destruct Hh as (h & ? & _ & ? & ?). by exists h.
    + destruct Hh as [-> ->]. exists h'. split_and!; [done..|]. cbn. lia.
  - intros l h Hl E. rewrite Gh by done. specialize (Hh l). destruct (upd l) as [h1|]; [|by exists h].
    destruct Hh as (h0 & E0 & _ & ? & _). exists h1. split; [done|]. unfold header_at in E0. congruence.
  - intros r l e Hl ->. rewrite Gh by done. specialize (Hh l). destruct (upd l) as [h1|].
    + destruct Hh as (h0 & _ & ? & ? & _). exists h1. split; [done|congruence].
    + destruct Hh as [_ Hh]. cbn in Hh. by rewrite bool_decide_true in Hh.
  - intros l s' Hl E. rewrite Gs in E by done. unfold synopsis_change in Hs. destruct new as [[[r1 l1] e1]|], syn as [s|]; try done.
    + cbn [in_leaf] in E. destruct (bool_decide_reflect (l = l1)) as [->|N].
      * injection E as <-. destruct Hs as (s0 & ? & ? & ? & ?). exists s0. split_and!; try done. by intros r e [= _ <-].
      * exists s'. split_and!; try done. intros r e [= _ E' _]. congruence.
    + exists s'. by split_and!.
Qed.
Lemma insert_regroups f r p l e g :
  intact f → item_typed xxh3_128 sha256 m (ItemInsert r p l e) → le_fields e = vr_fields r →
  member_step xxh3_128 m f (ItemInsert r p l e) g → regroups f g (vr_record_id r) None (Some (r, l, e)).
Proof.
  intros Hf Hty%group_values_typed Hag Hst. inversion Hst as [? ? ? ? h s ? Heq Hrec Hloc Hpay Hent Hen Hg| | | |]; subst. clear Hst.
  destruct Hty as [_ _ _ _ Bi Ll Lf]. assert (id_ok ix) as Hix by by destruct Hm. pose proof Ll as [? ?].
  destruct (enters_covers _ _ _ _ _ _ Hf Ll Lf Hen) as [(h0 & Hh0 & Hlev & [El Ec]%added_entry_fields) (s0 & Hs0 & Hcov)].
  destruct (regroups_leaves f g None (Some (r, l, e)) (λ l', if decide (l' = l) then Some h else None) (Some s)) as (H1 & H2 & H3 & H4).
  - intros l'. case_decide as E; [subst l'|]; cbn [in_leaf].
    + exists h0. rewrite bool_decide_true by done. split_and!; try done. cbn. lia.
    + by rewrite bool_decide_false.
  - by exists s0.
  - intros l' [? ?]. rewrite Hg by done. case_decide; [subst l'|]; destruct p; by look.
  - intros l' [? ?]. rewrite Hg by done. cbn [in_leaf]. destruct (bool_decide_reflect (l' = l)); [subst l'|]; destruct p; by look.
  - rewrite Heq in Bi, Hg |- *. split; try done.
    + cbn. by rewrite <-Heq.
    + cbn. unfold record_at, located_at, entry_at. rewrite !Hg by done. destruct p; by look.
    + intros key Hk. eapply touched_other; [exact Hg| |done]. destruct p; touches.
    + intros l' [? ?] El'. cbn [in_leaf] in *. apply bool_decide_eq_false in El'. rewrite Hg by done. destruct p; by look.
    + by intros ? ? ? [= <- <- <-].
    + intros ? ? ? [= <- <- <-]. by eapply H3.
Qed.

Lemma replace_regroups f r p l0 l e g :
  intact f → item_typed xxh3_128 sha256 m (ItemReplace r p l0 l e) → le_fields e = vr_fields r →
  member_step xxh3_128 m f (ItemReplace r p l0 l e) g →
  ∃ r0 e0, regroups f g (vr_record_id r) (Some (r0, l0, e0)) (Some (r, l, e)).
Proof.
  intros Hf [Hty%group_values_typed Ll0] Hag Hst. destruct Hty as [_ _ _ _ Bi Ll Lf].
  assert (id_ok ix) as Hix by by destruct Hm. pose proof Ll as [? ?]. pose proof Ll0 as [? ?].
  inversion Hst as [|? r0 ? ? ? e0 h s ? Heq Hrec Hloc Hent Hen Hg|? r0 ? ? ? ? e0 h0 h0' h s ? N Heq Hrec Hloc Hent Habs Hh0 Hrem Hen Hg| |]; subst;
    clear Hst; exists r0, e0; destruct (enters_covers _ _ _ _ _ _ Hf Ll Lf Hen) as [(h1 & Hh1 & Hlev & Hb) (s0 & Hs0 & Hcov)].
  - apply adjust_header_fields in Hb as [El Ec].
    destruct (regroups_leaves f g (Some (r0, l, e0)) (Some (r, l, e)) (λ l', if decide (l' = l) then Some h else None) (Some s)) as (H1' & H2' & H3' & H4').
    + intros l'. case_decide as E; [subst l'|]; cbn [in_leaf].
      * exists h1. rewrite bool_decide_true by done. split_and!; try done. cbn. lia.
      * by rewrite bool_decide_false.
    + by exists s0.
    + intros l' [? ?]. rewrite Hg by done. case_decide; [subst l'|]; by look.
    + intros l' [? ?]. rewrite Hg by done. cbn [in_leaf]. destruct (bool_decide_reflect (l' = l)); [subst l'|]; by look.
    + rewrite Heq in Bi, Hg, Hrec, Hloc, Hent |- *. split; try done.
      * cbn. unfold record_at, located_at, entry_at in *. rewrite !Hg by done. by look.
      * intros key Hk. eapply touched_other; [exact Hg| |done]. touches.
      * intros l' [? ?] El'. cbn [in_leaf] in *. rewrite El'. apply bool_decide_eq_false in El'. rewrite Hg by done. by look.
      * by intros ? ? ? [= <- <- <-].
      * intros ? ? ? [= <- <- <-]. by eapply H3'.
  - apply added_entry_fields in Hb as [El Ec]. apply removed_entry_fields in Hrem as [El0 Ec0].
    pose proof (it_leaf _ Hf _ _ _ Bi Ll0 Hent) as (h2 & Hh2 & Hlev2).
    assert (h2 = h0) as -> by (unfold header_at in *; congruence).
    destruct (regroups_leaves f g (Some (r0, l0, e0)) (Some (r, l, e))
      (λ l', if decide (l' = l) then Some h else if decide (l' = l0) then Some h0' else None) (Some s)) as (H1' & H2' & H3' & H4').
    + intros l'. cbn [in_leaf]. case_decide as E; [subst l'|case_decide as E'; [subst l'|]].
      * exists h1. rewrite bool_decide_false, bool_decide_true by congruence. split_and!; try done. cbn. lia.
      * exists h0. rewrite bool_decide_true, bool_decide_false by congruence. split_and!; try done. cbn. lia.
      * by rewrite !bool_decide_false.
    + by exists s0.
    + intros l' [? ?]. rewrite Hg by done. case_decide; [subst l'; by look|]. case_decide; [subst l'|]; by look.
    + intros l' [? ?]. rewrite Hg by done. cbn [in_leaf]. destruct (bool_decide_reflect (l' = l)); [subst l'|]; by look.
    + rewrite Heq in Bi, Hg, Hrec, Hloc, Hent |- *. split; try done.
      * cbn. unfold record_at, located_at, entry_at in *. rewrite !Hg by done. by look.
      * intros key Hk. eapply touched_other; [exact Hg| |done]. touches.
      * intros l' [? ?] El'. cbn [in_leaf] in *. apply bool_decide_eq_false in El'. rewrite Hg by done.
        destruct (bool_decide_reflect (l' = l0)); [subst l'|]; by look.
      * by intros ? ? ? [= <- <- <-].
      * intros ? ? ? [= <- <- <-]. by eapply H3'.
Qed.
Lemma delete_regroups f id r l e h0 h g :
  intact f → bytes_ok id → record_at m f id r → located_at m f id l → entry_at m f l id e → header_at m f l h0 → removed_entry h0 = Ok h →
  same_map g (foldl set_typed f
    [(record_key ix id, None); (location_key ix id, None); (entry_key ix l id, None); (payload_key ix id, None); put_header m l h]) →
  regroups f g id (Some (r, l, e)) None.
Proof.
  intros Hf Bi Hrec Hloc Hent Hh0 [El Ec]%removed_entry_fields Hg.
  assert (id_ok ix) as Hix by by destruct Hm. pose proof (it_located _ Hf _ _ Bi Hloc) as Ll. pose proof Ll as [? ?].
  pose proof (it_leaf _ Hf _ _ _ Bi Ll Hent) as (h2 & Hh2 & Hlev). assert (h2 = h0) as -> by (unfold header_at in *; congruence).
  destruct (regroups_leaves f g (Some (r, l, e)) None (λ l', if decide (l' = l) then Some h else None) None) as (H1' & H2' & H3' & H4').
  - intros l'. case_decide as E; [subst l'|]; cbn [in_leaf].
    + exists h0. rewrite bool_decide_true by done. split_and!; try done. cbn. lia.
    + by rewrite bool_decide_false.
  - done.
  - intros l' [? ?]. rewrite Hg by done. case_decide; [subst l'|]; by look.
  - intros l' [? ?]. rewrite Hg by done. by look.
  - split; try done.
    + cbn. rewrite Hg by done. by look.
    + rewrite !Hg by done. by look.
    + intros key Hk. eapply touched_other; [exact Hg| |done]. touches.
    + intros l' [? ?] _. cbn [in_leaf] in *. rewrite Hg by done. destruct (bool_decide_reflect (l' = l)); [subst l'|]; by look.
Qed.
Lemma step_intact f i g :
  intact f → item_typed xxh3_128 sha256 m i → item_agrees i → member_step xxh3_128 m f i g → intact g.
Proof.
  intros Hf Hty Hag Hst. assert (id_ok ix) as Hix by by destruct Hm. pose proof (item_typed_id _ Hty) as Bi.
  destruct i as [r p l e|r p l0 l e|id]; cbn [item_id] in Bi.
  - eapply regroup_intact; [exact Hf|exact Bi|by eapply insert_regroups|done].
  - destruct (replace_regroups _ _ _ _ _ _ _ Hf Hty Hag Hst) as (r0 & e0 & Hr). by eapply regroup_intact.
  - inversion Hst; subst; [|by eapply same_map_intact]. eapply regroup_intact; [exact Hf|exact Bi|by eapply delete_regroups|done].
Qed.
Lemma steps_intact f items g :
  Forall (λ i, item_typed xxh3_128 sha256 m i ∧ item_agrees i) items → intact f → member_steps xxh3_128 m f items g → intact g.
Proof.
  intros Hi Hf Hs. induction Hs as [|f i g items h Hst _ IH]; [by eapply same_map_intact|].
  apply Forall_cons_iff in Hi as [[? ?] Hi]. apply IH; [done|]. by eapply step_intact.
Qed.

(** ** Changes of the tree around the records

    A change that keeps every record, entry and Location, and the exact counts
    of the leaves that stay; leaves come and go only empty. *)
Record quiet f g : Prop := {
  qt_member key v : key_typed key → is_Some (member_id key) → PersistentValue_kind v = value_kind_for_key key →
    g key = Ok (Some v) ↔ f key = Ok (Some v);
  qt_header l h' : location_typed l → header_at m g l h' → ph_level h' = 1 →
    (∃ h, header_at m f l h ∧ ph_level h = 1 ∧ ph_entry_count h = ph_entry_count h') ∨
    (∀ h, header_at m f l h → ph_level h ≠ 1) ∧ ph_entry_count h' = 0;
  qt_kept l h : location_typed l → header_at m f l h → ph_level h = 1 →
    (∃ h', header_at m g l h' ∧ ph_level h' = 1) ∨ ph_entry_count h = 0;
  qt_synopsis l s : location_typed l → synopsis_at m g l s →
    synopsis_at m f l s ∨
    admits (synopsis_family xxh3_128 m Hm) s ∧ ∀ h, header_at m f l h → ph_level h = 1 → ph_entry_count h = 0;
}.
(** A leaf with a zero count, or without a leaf Header, has no entries. *)
Lemma empty_leaf f l :
  intact f → location_typed l → (∀ h, header_at m f l h → ph_level h = 1 → ph_entry_count h = 0) →
  ∀ id e, bytes_ok id → ¬ entry_at m f l id e.
Proof.
  intros Hf Hl Hz id e Hid He. destruct (it_leaf _ Hf _ _ _ Hid Hl He) as (h & Hh & Hlev).
  destruct (it_count _ Hf _ _ Hl Hh Hlev) as (ids & _ & [_ Hids] & Hlen). rewrite (Hz _ Hh Hlev) in Hlen.
  assert (id ∈ ids) as Hin by (apply Hids; eauto). destruct ids; [by apply elem_of_nil in Hin|done].
Qed.
Lemma quiet_intact f g : intact f → quiet f g → intact g.
Proof.
  intros Hf [Qm Qh Qk Qs]. assert (id_ok ix) as Hix by by destruct Hm.
  assert (∀ id r, bytes_ok id → record_at m g id r ↔ record_at m f id r) as Er by (intros; apply Qm; [done|by eexists|done]).
  assert (∀ id l, bytes_ok id → located_at m g id l ↔ located_at m f id l) as El by (intros; apply Qm; [done|by eexists|done]).
  assert (∀ id p, bytes_ok id → g (payload_key ix id) = Ok (Some (PersistentValue.OpaquePayload p)) ↔ f (payload_key ix id) = Ok (Some (PersistentValue.OpaquePayload p))) as Ep by (intros; apply Qm; [done|by eexists|done]).
  assert (∀ l id e, location_typed l → bytes_ok id → entry_at m g l id e ↔ entry_at m f l id e) as Ee by (intros l id e [? ?] ?; apply Qm; [done|by eexists|done]).
  split; unfold holds in *; intros *.
  - intros Hb. setoid_rewrite Er; [|done]. setoid_rewrite El; [|done]. by apply Hf.
  - intros Hb. rewrite El by done. by apply Hf.
  - intros Hb. rewrite El by done. intros Hl. pose proof (it_located _ Hf _ _ Hb Hl). destruct (it_listed _ Hf _ _ Hb Hl) as [e He]. exists e. by apply Ee.
  - intros Hb Hl. rewrite Ee, El by done. by apply Hf.
  - intros Hb Hl. rewrite Er, Ee by done. by apply Hf.
  - intros Hb. rewrite Ep by done. intros Hp. destruct (it_payload _ Hf _ _ Hb Hp) as [r Hr]. exists r. by apply Er.
  - intros Hb Hl. rewrite Ee by done. intros He. destruct (it_leaf _ Hf _ _ _ Hb Hl He) as (h & Hh & Hlev).
    destruct (Qk _ _ Hl Hh Hlev) as [|Hz]; [done|]. exfalso. eapply (empty_leaf f l Hf Hl); [|exact Hb|exact He].
    intros h' Hh' _. unfold header_at in *. congruence.
  - intros Hl Hh Hlev. destruct (Qh _ _ Hl Hh Hlev) as [(h0 & Hh0 & Hlev0 & Ec)|[Hno Ez]].
    + destruct (it_count _ Hf _ _ Hl Hh0 Hlev0) as (ids & Hbs & [Hnd Hids] & Hlen). exists ids. split_and!; [done|done| |congruence].
      intros id Hb. rewrite (Hids id Hb). by setoid_rewrite Ee.
    + exists ([] : list (list Z)). split_and!; [apply List.Forall_nil|apply NoDup_nil_2| |by rewrite Ez]. intros id Hb.
      split; [by intros ?%elem_of_nil|]. intros [e He%Ee]; [|done..]. exfalso. eapply (empty_leaf f l Hf Hl); [|exact Hb|exact He].
      intros h' Hh' Hlev'. by destruct (Hno _ Hh').
  - intros Hl Hs. destruct (Qs _ _ Hl Hs) as [Hs'|[? _]]; [by eapply (it_stored _ Hf)|done].
  - intros Hb Hl. rewrite Ee by done. intros He Hs. destruct (Qs _ _ Hl Hs) as [Hs'|[_ Hz]]; [by eapply (it_covers _ Hf)|].
    exfalso. by eapply (empty_leaf f l Hf Hl).
Qed.
End intact.
