(* ===== verification/Mutate.v ===== *)
(** Foreground mutation batches: their validation (src/src/api/operation.rs and
    record.rs), their application to routed targets inside one attempt
    transaction (src/src/maintenance/mutation.rs), and the discovery of
    actionable partitions (src/src/maintenance/fixup.rs). *)
From stdpp Require Import gmap sorting.
From S2P Require Import Prelude RustStd Api TreeKey Keys KeyRanges RaBitQ Manifest Wire ValueData Records Synopsis Values Config Backend Memory Txn Codec Logical LogicalSpec TreeOps Membership MembershipSpec MembershipInv.

(** ** Caller records and batches *)
Record ApiRecord := mkApiRecord {
  ar_id : list Z; ar_vector : list Z; ar_fields : list Value.t; ar_payload : option (list Z)
}.
Definition validate_id (id : list Z) : result unit :=
  if (len id =? 0) || (MAX_RECORD_ID_BYTES <? len id) then Err InvalidArgument else Ok tt.
Fixpoint validate_ids (ids : list (list Z)) : result unit :=
  match ids with
  | [] => Ok tt
  | id :: ids => validate_id id ≫= λ _, validate_ids ids
  end.
Definition Record_new (id vector : list Z) (fields : list Value.t) : result ApiRecord :=
  validate_id id ≫= λ _,
  if existsb (λ component, negb (F32.is_finite component)) vector then Err InvalidArgument
  else Ok (mkApiRecord id vector fields None).
Definition Record_with_payload (r : ApiRecord) (payload : list Z) : result ApiRecord :=
  if MAX_PAYLOAD_BYTES <? len payload then Err InvalidArgument
  else Ok (mkApiRecord (ar_id r) (ar_vector r) (ar_fields r) (Some payload)).
(** The values are canonicalized in place. *)
Fixpoint validate_fields_loop (values : list Value.t) (schema : list FieldSchema) : result (list Value.t) :=
  match values, schema with
  | value :: values, field :: schema =>
      validate_for value (fs_data_type field) (fs_nullable field) ≫= λ value,
      validate_fields_loop values schema ≫= λ values, Ok (value :: values)
  | values, _ => Ok values
  end.
Definition Record_validate (r : ApiRecord) (dimension : Z) (schema : list FieldSchema) : result ApiRecord :=
  if negb (len (ar_vector r) =? dimension) || negb (len (ar_fields r) =? len schema) then Err InvalidArgument
  else
    validate_fields_loop (ar_fields r) schema ≫= λ fields,
    Ok (mkApiRecord (ar_id r) (ar_vector r) fields (ar_payload r)).

Module Mutation.
Inductive t := Insert (record : ApiRecord) | Upsert (record : ApiRecord) | Delete (id : list Z).
End Mutation.
Module MutationOutcome.
Inductive t := Inserted | Upserted (replaced : bool) | Deleted (existed : bool).
End MutationOutcome.
Definition Mutation_id (mutation : Mutation.t) : list Z :=
  match mutation with Mutation.Insert record | Mutation.Upsert record => ar_id record | Mutation.Delete id => id end.
Fixpoint validate_mutations_loop (ids : gset (list Z)) (mutations : list Mutation.t) (dimension : Z)
    (schema : list FieldSchema) : result (list Mutation.t) :=
  match mutations with
  | [] => Ok []
  | mutation :: mutations =>
      let id := Mutation_id mutation in
      if negb (is_ok (validate_id id)) || bool_decide (id ∈ ids) then Err InvalidArgument
      else
        match mutation with
        | Mutation.Insert record => Record_validate record dimension schema ≫= λ record, Ok (Mutation.Insert record)
        | Mutation.Upsert record => Record_validate record dimension schema ≫= λ record, Ok (Mutation.Upsert record)
        | Mutation.Delete id => Ok (Mutation.Delete id)
        end ≫= λ mutation,
        validate_mutations_loop ({[id]} ∪ ids) mutations dimension schema ≫= λ mutations, Ok (mutation :: mutations)
  end.
Definition validate_mutations (mutations : list Mutation.t) (dimension : Z) (schema : list FieldSchema)
    : result (list Mutation.t) :=
  validate_mutations_loop ∅ mutations dimension schema.

(** ** Actionable partitions *)
Module Action.
Inductive t := Split | Merge.
End Action.
Definition action (config : IndexConfig) (partition : Z) (header : PartitionHeader) : option Action.t :=
  match ph_state header with
  | PartitionState.Ready =>
      if max_partition_entries config (ph_level header) <? ph_entry_count header then Some Action.Split
      else if negb (partition =? 1) && (ph_entry_count header <? min_partition_entries config (ph_level header))
      then Some Action.Merge
      else None
  | PartitionState.Splitting | PartitionState.DrainingSplit => Some Action.Split
  | PartitionState.Merging => Some Action.Merge
  | PartitionState.ReceivingSplit => None
  end.
Definition is_actionable (config : IndexConfig) (partition : Z) (header : PartitionHeader) : bool :=
  bool_decide (is_Some (action config partition header)).

(** ** The attempt *)
(** The parts of a [PreparedRecord] that reach storage. *)
Record PreparedRecord := mkPrepared {
  pp_tree_key : list Z; pp_record : VectorRecord; pp_payload : option (list Z); pp_entry : LeafEntry
}.
Record MutationReport := mkMutationReport { mr_outcomes : list MutationOutcome.t; mr_maintenance : list leaf_key }.

Section attempt.
Context (xxh3_128 : Z → list Z → Z) (sha256 : list Z → list Z).
Context {T : Type} `{WriteOps T}.
Abbreviation St := (MemberState T).
Abbreviation headers := (gmap leaf_key PartitionHeader).

Definition upsert_ids (mutations : list Mutation.t) : list (list Z) :=
  omap (λ mutation, match mutation with Mutation.Upsert record => Some (ar_id record) | _ => None end) mutations.
(** The locations zipped onto the upsert positions. *)
Fixpoint place_upserts (mutations : list Mutation.t) (locations : list (option RecordLocation)) : list (option RecordLocation) :=
  match mutations with
  | [] => []
  | Mutation.Upsert _ :: mutations =>
      match locations with
      | location :: locations => location :: place_upserts mutations locations
      | [] => None :: place_upserts mutations []
      end
  | _ :: mutations => None :: place_upserts mutations locations
  end.
Definition read_locations (mutations : list Mutation.t) : M (WriteLogicalTxn T) (list (option RecordLocation)) :=
  let ids := upsert_ids mutations in
  match ids with
  | [] => m_ret ((λ _, None) <$> mutations)
  | _ =>
      let! locations := read_locations_for_update xxh3_128 sha256 ids in
      m_ret (place_upserts mutations locations)
  end.
Definition insert_prefetch (prepared : option PreparedRecord) (id : list Z) (target : RecordLocation) : MembershipPrefetch.t :=
  MembershipPrefetch.Insert id (bool_decide (is_Some (prepared ≫= pp_payload))) target.
Definition prefetch_item (mutation : Mutation.t) (prepared : option PreparedRecord) (target expected : option RecordLocation)
    : option MembershipPrefetch.t :=
  match mutation with
  | Mutation.Insert record => insert_prefetch prepared (ar_id record) <$> target
  | Mutation.Upsert record =>
      target ≫= λ target,
      Some match expected with
           | Some expected => MembershipPrefetch.Replace (ar_id record) expected target
           | None => insert_prefetch prepared (ar_id record) target
           end
  | Mutation.Delete id => Some (MembershipPrefetch.Delete id)
  end.
(** The items in input order; the slices are indexed by position. *)
Fixpoint prefetch_items (mutations : list Mutation.t) (prepared : list (option PreparedRecord))
    (targets expected : list (option RecordLocation)) : result (list MembershipPrefetch.t) :=
  match mutations, prepared, targets, expected with
  | [], _, _, _ => Ok []
  | mutation :: mutations, p :: prepared, target :: targets, e :: expected =>
      prefetch_items mutations prepared targets expected ≫= λ items,
      Ok (match prefetch_item mutation p target e with Some item => item :: items | None => items end)
  | _, _, _, _ => Panic
  end.
(** The delete locations zipped onto the delete positions. *)
Fixpoint place_deletes (mutations : list Mutation.t) (expected locations : list (option RecordLocation))
    : list (option RecordLocation) :=
  match mutations, expected with
  | Mutation.Delete _ :: mutations, e :: expected =>
      match locations with
      | location :: locations => location :: place_deletes mutations expected locations
      | [] => e :: place_deletes mutations expected []
      end
  | _ :: mutations, e :: expected => e :: place_deletes mutations expected locations
  | _, expected => expected
  end.
Definition prefetch_membership (mutations : list Mutation.t) (prepared : list (option PreparedRecord))
    (targets expected : list (option RecordLocation)) : M (WriteLogicalTxn T) (list (option RecordLocation)) :=
  let! items := m_lift (prefetch_items mutations prepared targets expected) in
  let! locations := prefetch_membership_for_update xxh3_128 sha256 items in
  m_ret (place_deletes mutations expected locations).

Definition record_header (changed_headers : headers) (location : RecordLocation) (header : PartitionHeader) : headers :=
  <[leaf_of location := header]> changed_headers.
Definition apply_one (mutation : Mutation.t) (routed : option (PreparedRecord * RecordLocation))
    (expected : option RecordLocation) (changed_headers : headers) : M St (MutationOutcome.t * headers) :=
  match mutation with
  | Mutation.Insert _ =>
      let! pt := m_lift (ok_or Backend routed) in
      let prepared := pt.1 in let target := pt.2 in
      let! header := insert_record_with_header xxh3_128 sha256 (pp_record prepared) (pp_payload prepared) target (pp_entry prepared) in
      m_ret (MutationOutcome.Inserted, record_header changed_headers target header)
  | Mutation.Upsert _ =>
      let! pt := m_lift (ok_or Backend routed) in
      let prepared := pt.1 in let target := pt.2 in
      match expected with
      | None =>
          let! header := insert_record_with_header xxh3_128 sha256 (pp_record prepared) (pp_payload prepared) target (pp_entry prepared) in
          m_ret (MutationOutcome.Upserted false, record_header changed_headers target header)
      | Some expected =>
          let! hs := replace_record_with_headers xxh3_128 sha256 (pp_record prepared) (pp_payload prepared) expected target
                       (pp_entry prepared) in
          let changed_headers :=
            match rh_source hs with Some source => record_header changed_headers expected source | None => changed_headers end in
          m_ret (MutationOutcome.Upserted true, record_header changed_headers target (rh_target hs))
      end
  | Mutation.Delete id =>
      let! report := delete_record_with_header xxh3_128 sha256 id expected in
      match report with
      | DeleteReport.Deleted location header =>
          m_ret (MutationOutcome.Deleted true, record_header changed_headers location header)
      | DeleteReport.NotFound => m_ret (MutationOutcome.Deleted false, changed_headers)
      end
  end.
Definition zip_option {A B} (a : option A) (b : option B) : option (A * B) :=
  match a, b with Some a, Some b => Some (a, b) | _, _ => None end.
(** The loop of [apply_all]; the slices are indexed by position. *)
Fixpoint apply_loop (mutations : list Mutation.t) (prepared : list (option PreparedRecord))
    (targets expected : list (option RecordLocation)) (changed_headers : headers)
    : M St (list MutationOutcome.t * headers) :=
  match mutations, prepared, targets, expected with
  | [], _, _, _ => m_ret ([], changed_headers)
  | mutation :: mutations, p :: prepared, target :: targets, e :: expected =>
      let! applied := apply_one mutation (zip_option p target) e changed_headers in
      let! rest := apply_loop mutations prepared targets expected applied.2 in
      m_ret (applied.1 :: rest.1, rest.2)
  | _, _, _, _ => m_lift Panic
  end.
(** A fresh builder and accumulator travel with the transaction. *)
Definition with_sinks {A} (op : M St A) : M (WriteLogicalTxn T) A := λ t,
  let '(s, r) := op (mkMember t (mutations t) LeafAccumulator_new) in (ms_txn s, r).
(** The draining sources joined by the actionable changed partitions. *)
Definition maintenance_of (config : IndexConfig) (draining_sources : list leaf_key) (changed_headers : headers) : list leaf_key :=
  let actionable := filter (λ x, is_actionable config x.1.2 x.2 = true) (map_to_list changed_headers) in
  let maintenance : gset leaf_key := list_to_set draining_sources ∪ list_to_set (fst <$> actionable) in
  fst <$> in_leaf_order (set_to_map (λ leaf, (leaf, tt)) maintenance : gmap leaf_key unit).
(** [apply_all] after routing. *)
Definition apply_routed (mutations : list Mutation.t) (prepared : list (option PreparedRecord))
    (targets : list (option RecordLocation)) (draining_sources : list leaf_key) : M (WriteLogicalTxn T) MutationReport :=
  let! expected := read_locations mutations in
  let! expected := prefetch_membership mutations prepared targets expected in
  with_sinks (
    let! applied := apply_loop mutations prepared targets expected ∅ in
    let! s := m_get in
    let! m := m_lift (require_bound_manifest (ms_txn s)) in
    let! _ := install xxh3_128 sha256 in
    m_ret (mkMutationReport applied.1 (maintenance_of (im_config m) draining_sources applied.2))).
End attempt.
