(* ===== verification/MutateSpec.v ===== *)
(** Correctness of foreground mutation batches
    (src/src/maintenance/mutation.rs, src/src/storage/membership.rs): the
    batched reads and the prefetch only read, and an attempt that succeeds has
    changed the records one after the other and kept membership intact. *)
From stdpp Require Import gmap sorting.
From S2P Require Import Prelude RustStd Api TreeKey Keys KeyRanges RaBitQ Manifest Wire ValueData Records Synopsis Values Config Backend Memory Txn Codec Logical LogicalSpec TreeOps Membership MembershipSpec MembershipInv Mutate.

Section reads.
Context (xxh3_128 : Z → list Z → Z) (sha256 : list Z → list Z) {T : Type} `{WriteLaws T}.
Context (m : IndexManifest) (types : list DataType.t).
Abbreviation ix := (im_logical_index_id m).
Abbreviation typed_view := (LogicalSpec.typed_view xxh3_128 sha256).
Implicit Types t : WriteLogicalTxn T.

Lemma bound_id t : bound t m types → id_ok ix.
Proof. intros Hb. by destruct (bound_index _ _ _ Hb). Qed.
Lemma warm_spec keys t :
  ready t types → Forall key_typed keys →
  wp (warm_for_update keys) (λ _ t', reads t t') (λ _ t', reads t t') t.
Proof.
  intros [Hco Hb] Hk. unfold warm_for_update. apply wp_bind, wp_get. apply wp_bind, wp_lift; [| |by intros; apply reads_refl].
  { apply mapM_no_panic_Forall. eapply Forall_impl; [|exact Hk]. intros key Hkey. by eapply encode_input_key_no_panic. }
  intros encoded _. eapply wp_step; [by apply batch_get_raw_spec|done|]. intros vs t' (_ & Hr & _). by apply wp_ret.
Qed.

(** ** Locations *)
Definition location_of (f : typed_map) (id : list Z) (o : option RecordLocation) : Prop :=
  match o with
  | Some l => (∃ r, record_at m f id r) ∧ located_at m f id l
  | None => f (record_key ix id) = Ok None ∧ f (location_key ix id) = Ok None
  end.
Lemma classify_spec f id record location :
  f (record_key ix id) = Ok record → f (location_key ix id) = Ok location →
  no_panic (classify_location_pair record location) ∧
  ∀ o, classify_location_pair record location = Ok o → location_of f id o.
Proof.
  intros Hr Hl. unfold location_of, record_at, located_at. rewrite Hr, Hl.
  destruct record as [[]|]; cbn; try done; destruct location as [[]|]; cbn; try done; split; try done; intros o [= <-]; eauto.
Qed.
(** A transaction that reads the map [f]. *)
Record over (f : typed_map) t : Prop := { ov_bound : bound t m types; ov_view : same_map (typed_view t) f }.
Lemma over_reads f t t' : over f t → reads t t' → over f t'.
Proof. intros [Hb Hv] Hr. split; [by eapply bound_reads|]. by rewrite (reads_typed _ _ _ _ Hr). Qed.
Lemma over_get f t key :
  over f t → key_typed key →
  wp (get_for_update xxh3_128 sha256 key) (λ v t', f key = Ok v ∧ reads t t') (λ _ t', reads t t') t.
Proof.
  intros [Hb Hv] Hk. eapply wp_mono; [by apply (typed_get_spec xxh3_128 sha256 types true key t); [apply Hb|]| |done].
  intros v t' (E & Hr & _). split; [by rewrite <-Hv|done].
Qed.
Lemma over_refl f t : over f t → reads t t.
Proof. intros [Hb _]. apply reads_refl, Hb. Qed.
Lemma locations_loop_spec f ids t :
  over f t → Forall bytes_ok ids →
  wp (locations_loop xxh3_128 sha256 ix ids) (λ ls t', Forall2 (location_of f) ids ls ∧ reads t t') (λ _ t', reads t t') t.
Proof.
  revert t. induction ids as [|id ids IH]; intros t Hb Hids; cbn [locations_loop].
  { apply wp_ret. split; [constructor|by eapply over_refl]. }
  apply Forall_cons_iff in Hids as [Hid Hids]. pose proof (bound_id _ (ov_bound _ _ Hb)) as Hix.
  eapply wp_step; [by apply (over_get f t)|done|]. intros v1 t1 (Hv1 & Hr1). pose proof (over_reads _ _ _ Hb Hr1) as Hb1.
  eapply wp_step; [by apply (over_get f t1)|intros e t' ?; by etrans|]. intros v2 t2 (Hv2 & Hr2).
  assert (reads t t2) as Hr by by etrans. pose proof (over_reads _ _ _ Hb Hr) as Hb2.
  destruct (classify_spec _ _ _ _ Hv1 Hv2) as [Hn Ho]. apply wp_bind, wp_lift; [done| |done]. intros o Ho'%Ho.
  eapply wp_step; [by apply IH|intros e t' ?; by etrans|]. intros ls t3 [Hls Hr3]. apply wp_ret.
  split; [by constructor|by etrans].
Qed.
Lemma read_locations_for_update_spec f ids t :
  over f t → Forall bytes_ok ids →
  wp (read_locations_for_update xxh3_128 sha256 ids)
    (λ ls t', Forall2 (location_of f) ids ls ∧ reads t t') (λ _ t', reads t t') t.
Proof.
  intros Hb Hids. pose proof (over_refl _ _ Hb) as Hr0. pose proof (bound_id _ (ov_bound _ _ Hb)) as Hix.
  unfold read_locations_for_update. apply wp_bind, wp_get. unfold require_bound_manifest. rewrite (bd_manifest _ _ _ (ov_bound _ _ Hb)).
  apply wp_bind, wp_lift; [done| |done]. intros _ [= <-]. cbv zeta. eapply wp_step; [apply warm_spec; [apply Hb|]|done|].
  - apply Forall_forall. intros key (id & Hkey & Hid)%list_elem_of_In%list_elem_of_bind.
    apply list_elem_of_In in Hid. eapply Forall_forall in Hids; [|exact Hid].
    apply elem_of_cons in Hkey as [->| ->%list_elem_of_singleton]; done.
  - intros [] t1 Hr1. eapply wp_mono; [apply (locations_loop_spec f); [by eapply over_reads|done]| |intros e t' ?; by etrans].
    intros ls t' [? ?]. split; [done|by etrans].
Qed.

(** ** Prefetching only reads *)
Lemma attempt_spec {S A} (op : M S A) Q E s :
  wp op Q E s → wp (attempt op) (λ o s', match o with Some a => Q a s' | None => ∃ e, E e s' end) (λ _ _, False) s.
Proof. unfold wp, attempt. destruct (op s) as [s' [a|e|]]; eauto. Qed.
Lemma chunks_fuel_forall {A} (P : A → Prop) fuel n (l : list A) : Forall P l → Forall (Forall P) (chunks_fuel fuel n l).
Proof.
  revert l. induction fuel as [|fuel IH]; intros [|x l] Hl; cbn [chunks_fuel]; try constructor.
  - by apply Forall_take.
  - by apply IH, Forall_drop.
Qed.
Lemma warm_chunks_spec f keys t :
  over f t → Forall key_typed keys →
  wp (warm_chunks_for_update keys) (λ _ t', reads t t') (λ _ _, False) t.
Proof.
  intros Hb Hk. unfold warm_chunks_for_update, chunks. apply (chunks_fuel_forall _ (length keys) MEMBERSHIP_READ_CHUNK) in Hk.
  revert t Hb. induction Hk as [|chunk cs Hc _ IH]; intros t Hb; cbn [warm_chunks_loop].
  { apply wp_ret. by eapply over_refl. }
  eapply wp_step; [apply attempt_spec, warm_spec; [apply Hb|done]|done|]. intros [[]|] t' Hr.
  - eapply wp_mono; [apply IH; by eapply over_reads|intros ? ? ?; by etrans|done].
  - destruct Hr as [_ Hr]. by apply wp_ret.
Qed.

Definition prefetch_typed (item : MembershipPrefetch.t) : Prop :=
  match item with
  | MembershipPrefetch.Insert id _ target => bytes_ok id ∧ location_typed target
  | MembershipPrefetch.Replace id expected target => bytes_ok id ∧ location_typed expected ∧ location_typed target
  | MembershipPrefetch.Delete id => bytes_ok id
  end.
Lemma warm_once_typed warmed l key warmed' keys : warm_once warmed l key = (warmed', keys) → key_typed key → Forall key_typed keys.
Proof. unfold warm_once. case_decide; intros [= <- <-] Hk; by repeat constructor. Qed.
Ltac typed_keys := repeat first [assumption|apply List.Forall_nil|apply List.Forall_cons; [done|]|apply Forall_app; split].
Lemma prefetch_keys_typed items synopses headers keys headers' :
  id_ok ix → Forall prefetch_typed items → prefetch_keys ix items synopses headers = (keys, headers') → Forall key_typed keys.
Proof.
  intros Hix Hi. revert synopses headers keys headers'. induction Hi as [|item items Hitem _ IH]; intros synopses headers keys headers'; cbn [prefetch_keys].
  { intros [= <- <-]. constructor. }
  destruct item as [id payload target|id expected target|id]; cbn in Hitem.
  - destruct Hitem as [Hid [Htk Hp]]. destruct (warm_once synopses _ _) as [syn ks] eqn:Ew. apply warm_once_typed in Ew; [|done].
    destruct (prefetch_keys ix items syn headers) as [rest hs] eqn:Er. apply IH in Er. intros [= <- <-].
    destruct payload; typed_keys.
  - destruct Hitem as (Hid & [Hetk Hep] & [Htk Hp]). destruct (warm_once synopses _ _) as [syn ks] eqn:Ew. apply warm_once_typed in Ew; [|done].
    destruct (if decide (expected = target) then _ else _) as [hs ks'] eqn:Eh.
    assert (Forall key_typed ks') as Hks'.
    { case_decide; [by injection Eh as <- <-|]. destruct (warm_once headers _ _) as [hs' ks''] eqn:Ew'. apply warm_once_typed in Ew'; [|done].
      injection Eh as <- <-. by constructor. }
    destruct (prefetch_keys ix items syn hs) as [rest hs'] eqn:Er. apply IH in Er. intros [= <- <-].
    typed_keys.
  - destruct (prefetch_keys ix items synopses headers) as [rest hs] eqn:Er. apply IH in Er. intros [= <- <-].
    typed_keys.
Qed.
Lemma located_keys_spec f ids values headers keys prefetched :
  id_ok ix → Forall bytes_ok ids → (∀ id l, bytes_ok id → located_at m f id l → location_typed l) →
  Forall2 (λ id v, f (location_key ix id) = Ok v) ids values →
  located_keys ix ids values headers = Some (keys, prefetched) →
  Forall key_typed keys ∧ Forall2 (λ id o, ∀ l, o = Some l → located_at m f id l) ids prefetched.
Proof.
  intros Hix Hids Hty Hv. revert headers keys prefetched Hids. induction Hv as [|id v ids values Hv _ IH]; intros headers keys prefetched Hids; cbn [located_keys].
  { intros [= <- <-]. by split. }
  apply Forall_cons_iff in Hids as [Hid Hids]. destruct v as [[]|]; try done.
  - pose proof (Hty _ _ Hid Hv) as [Htk Hp]. destruct (warm_once headers _ _) as [hs ks] eqn:Ew. apply warm_once_typed in Ew; [|done].
    destruct (located_keys ix ids values hs) as [[rest ps]|] eqn:Er; [|done]. apply IH in Er as [? ?]; [|done]. intros [= <- <-].
    split; [typed_keys|]. constructor; [|done]. by intros l [= <-].
  - destruct (located_keys ix ids values headers) as [[rest ps]|] eqn:Er; [|done]. apply IH in Er as [? ?]; [|done]. intros [= <- <-].
    split; [done|]. by constructor.
Qed.
Lemma deleted_ids_typed items : Forall prefetch_typed items → Forall bytes_ok (deleted_ids items).
Proof. induction 1 as [|[] items Hi _ IH]; cbn; try done. by constructor. Qed.
Lemma over_location f t id l : over f t → bytes_ok id → located_at m f id l → location_typed l.
Proof.
  intros Hb Hid Hl. pose proof (bound_id _ (ov_bound _ _ Hb)) as Hix. unfold located_at in Hl. rewrite <-(ov_view _ _ Hb) in Hl by done.
  pose proof (typed_view_value xxh3_128 sha256 t types _ _ (bd_ready _ _ _ (ov_bound _ _ Hb)) Hl) as [Hv _].
  by destruct Hv as (? & ? & _ & [[? ?] _]).
Qed.
(** The prefetch never fails, only reads, and what it reports of the deleted
    records are their stored locations. *)
Lemma prefetch_membership_for_update_spec f items t :
  over f t → Forall prefetch_typed items →
  wp (prefetch_membership_for_update xxh3_128 sha256 items)
    (λ ls t', reads t t' ∧ (ls = [] ∨ Forall2 (λ id o, ∀ l, o = Some l → located_at m f id l) (deleted_ids items) ls)) (λ _ _, False) t.
Proof.
  intros Hb Hi. pose proof (bound_id _ (ov_bound _ _ Hb)) as Hix. unfold prefetch_membership_for_update. apply wp_bind, wp_get.
  rewrite (bd_manifest _ _ _ (ov_bound _ _ Hb)). cbv zeta. destruct (prefetch_keys ix items ∅ ∅) as [keys headers] eqn:Ek.
  apply prefetch_keys_typed in Ek; [|done..]. eapply wp_step; [by eapply warm_chunks_spec|done|]. intros [] t1 Hr1; [|apply wp_ret; auto].
  pose proof (over_reads _ _ _ Hb Hr1) as Hb1. pose proof (deleted_ids_typed _ Hi) as Hdel.
  eapply wp_step; [apply attempt_spec, (read_batch_spec xxh3_128 sha256 types true); [apply Hb1..|]|done|].
  { apply Forall_fmap. eapply Forall_impl; [|exact Hdel]. done. }
  intros o t2 Ho. destruct o as [vs|]; cbn [mbind option_bind].
  2: { destruct Ho as [_ Hr2]. apply wp_ret. split; [by etrans|auto]. }
  destruct Ho as (Hvs & Hr2 & _). assert (reads t t2) as Hr by by etrans.
  destruct (located_keys ix (deleted_ids items) vs headers) as [[leaf_keys prefetched]|] eqn:El; [|apply wp_ret; auto].
  apply (located_keys_spec f) in El as [Hk Hp]; [|done|done|intros; by eapply (over_location f t)|].
  - eapply wp_step; [eapply warm_chunks_spec; [by eapply (over_reads f t)|done]|done|]. intros b t3 Hr3. apply wp_ret. split; [by etrans|auto].
  - rewrite Forall2_fmap_l in Hvs. apply Forall2_same_length_lookup_2.
    + by eapply Forall2_length.
    + intros k id v Hid Hv. pose proof (Forall2_lookup_lr _ _ _ _ _ _ Hvs Hid Hv) as E. rewrite <-(ov_view _ _ Hb1); [done|].
      split; [done|]. eapply Forall_lookup_1; [exact Hdel|done].
Qed.
End reads.

(** ** One attempt *)
Section attempt.
Context (xxh3_128 : Z → list Z → Z) (sha256 : list Z → list Z) {T : Type} `{WriteLaws T}.
Context (m : IndexManifest) (Hm : manifest_ok m) (types : list DataType.t) (f : typed_map) (t0 : WriteLogicalTxn T).
Abbreviation ix := (im_logical_index_id m).
Abbreviation tracks := (MembershipSpec.tracks xxh3_128 sha256 m Hm types f t0).
Abbreviation over_f := (over xxh3_128 sha256 m types f).
Abbreviation failed := (λ (_ : ErrorKind) (s : MemberState T), same_txn t0 (ms_txn s)).
Implicit Types (mutation : Mutation.t) (p : option PreparedRecord) (target expected : option RecordLocation) (g : typed_map).

(** What preparation and routing provide at one position: the values of the
    mutation's own record, with the entry that projects it. *)
Definition routed_ok mutation p target : Prop :=
  match mutation with
  | Mutation.Insert record | Mutation.Upsert record =>
      bytes_ok (ar_id record) ∧ (∀ l, target = Some l → location_typed l) ∧
      ∀ x l, p = Some x → target = Some l →
        vr_record_id (pp_record x) = ar_id record ∧ le_fields (pp_entry x) = vr_fields (pp_record x) ∧
        values_ok xxh3_128 sha256 m (group_values (pp_record x) (pp_payload x) l (pp_entry x))
  | Mutation.Delete id => bytes_ok id
  end.
Definition expected_ok mutation expected : Prop :=
  match mutation with
  | Mutation.Insert _ => True
  | Mutation.Upsert record => location_of m f (ar_id record) expected
  | Mutation.Delete id => ∀ l, expected = Some l → located_at m f id l
  end.
(** The change a mutation stands for, and the outcome it reports. *)
Definition item_for mutation p target (item : member_item) : Prop :=
  match mutation, item with
  | Mutation.Insert record, ItemInsert r payload l e =>
      target = Some l ∧ ∃ x, p = Some x ∧ r = pp_record x ∧ payload = pp_payload x ∧ e = pp_entry x
  | Mutation.Upsert record, ItemInsert r payload l e =>
      f (record_key ix (ar_id record)) = Ok None ∧
      target = Some l ∧ ∃ x, p = Some x ∧ r = pp_record x ∧ payload = pp_payload x ∧ e = pp_entry x
  | Mutation.Upsert record, ItemReplace r payload l0 l e =>
      located_at m f (ar_id record) l0 ∧
      target = Some l ∧ ∃ x, p = Some x ∧ r = pp_record x ∧ payload = pp_payload x ∧ e = pp_entry x
  | Mutation.Delete id, ItemDelete id' => id' = id
  | _, _ => False
  end.
Definition existed (id : list Z) (b : bool) : Prop :=
  if b then ∃ r, record_at m f id r else f (record_key ix id) = Ok None.
Definition outcome_for mutation (o : MutationOutcome.t) : Prop :=
  match mutation, o with
  | Mutation.Insert record, MutationOutcome.Inserted => existed (ar_id record) false
  | Mutation.Upsert record, MutationOutcome.Upserted replaced => existed (ar_id record) replaced
  | Mutation.Delete id, MutationOutcome.Deleted b => existed id b
  | _, _ => False
  end.
(** The Headers recorded are the current ones, and no other Header changed. *)
Definition headers_tracked g (changed : gmap leaf_key PartitionHeader) : Prop :=
  ∀ l, location_typed l →
    match changed !! leaf_of l with
    | Some h => header_at m g l h
    | None => g (header_key ix l) = f (header_key ix l)
    end.
Lemma leaf_of_inj l l' : leaf_of l = leaf_of l' → l = l'.
Proof. intros [= ? ?]. destruct l, l'. cbn in *. by subst. Qed.
Lemma record_header_tracked g g' changed l h :
  headers_tracked g changed → header_at m g' l h →
  (∀ l', location_typed l' → l' ≠ l → g' (header_key ix l') = g (header_key ix l')) → headers_tracked g' (record_header changed l h).
Proof.
  intros Hc Hh Ho l' Hl'. unfold record_header. destruct (decide (l' = l)) as [->|N].
  - by rewrite lookup_insert_eq.
  - rewrite lookup_insert_ne by (intros ?%leaf_of_inj; congruence). specialize (Hc l' Hl'). unfold header_at in *. by rewrite Ho.
Qed.
(** The Headers a step leaves alone. *)
Definition step_leaves (g : typed_map) (item : member_item) (l : RecordLocation) : Prop :=
  match item with
  | ItemInsert _ _ l' _ => l = l'
  | ItemReplace _ _ l0 l' _ => l = l0 ∨ l = l'
  | ItemDelete id => located_at m g id l
  end.
Lemma step_header_frame g item g' l :
  member_step xxh3_128 m g item g' → location_typed l → ¬ step_leaves g item l → g' (header_key ix l) = g (header_key ix l).
Proof.
  assert (id_ok ix) as Hix by by destruct Hm.
  intros Hst [? ?] N. destruct Hst; cbn in N;
    match goal with Hg : same_map _ _ |- _ => rewrite Hg by done end; try done;
    apply foldl_set_typed_other; intros k v Hin; try destruct p;
    repeat (apply elem_of_cons in Hin as [[= -> ->]|Hin]; [try done; intros E%header_key_inj; subst; tauto|]);
    by apply elem_of_nil in Hin.
Qed.

Lemma zip_routed_ok record mutation p target x l :
  (mutation = Mutation.Insert record ∨ mutation = Mutation.Upsert record) → routed_ok mutation p target →
  zip_option p target = Some (x, l) →
  p = Some x ∧ target = Some l ∧ vr_record_id (pp_record x) = ar_id record ∧ le_fields (pp_entry x) = vr_fields (pp_record x) ∧
  values_ok xxh3_128 sha256 m (group_values (pp_record x) (pp_payload x) l (pp_entry x)).
Proof.
  intros Hmut Hr Hz. destruct p as [x'|], target as [l'|]; try done. injection Hz as -> ->.
  destruct Hmut as [-> | ->]; destruct Hr as (_ & _ & Hr); by destruct (Hr x l eq_refl eq_refl).
Qed.
Lemma routed_split record mutation p target (A : Type) (k : PreparedRecord * RecordLocation → M (MemberState T) A) Q s ids g :
  (mutation = Mutation.Insert record ∨ mutation = Mutation.Upsert record) → routed_ok mutation p target → tracks s ids g →
  (∀ x l, p = Some x → target = Some l → vr_record_id (pp_record x) = ar_id record → le_fields (pp_entry x) = vr_fields (pp_record x) →
    values_ok xxh3_128 sha256 m (group_values (pp_record x) (pp_payload x) l (pp_entry x)) → wp (k (x, l)) Q failed s) →
  wp (let! pt := m_lift (ok_or Backend (zip_option p target)) in k pt) Q failed s.
Proof.
  intros Hmut Hr Ht Hk. pose proof (tracks_same _ _ _ _ _ _ _ _ _ _ Ht). apply wp_bind, wp_lift; [by destruct (zip_option p target)| |done].
  intros [x l] Hz%ok_or_ok. destruct (zip_routed_ok record mutation p target x l Hmut Hr Hz) as (? & ? & ? & ? & ?). by apply Hk.
Qed.
(** What one applied mutation leaves. *)
Definition applied mutation p target (ids : list (list Z)) g (o : MutationOutcome.t * gmap leaf_key PartitionHeader) (s : MemberState T) : Prop :=
  ∃ item g', tracks s (Mutation_id mutation :: ids) g' ∧ member_step xxh3_128 m g item g' ∧ item_for mutation p target item ∧
    item_typed xxh3_128 sha256 m item ∧ item_agrees item ∧ outcome_for mutation o.1 ∧ headers_tracked g' o.2.
Lemma apply_insert_spec record mutation p target x l s ids g changed o :
  (mutation = Mutation.Insert record ∨ mutation = Mutation.Upsert record) → Mutation_id mutation = ar_id record →
  tracks s ids g → ar_id record ∉ ids → headers_tracked g changed → p = Some x → target = Some l → bytes_ok (ar_id record) →
  vr_record_id (pp_record x) = ar_id record → le_fields (pp_entry x) = vr_fields (pp_record x) →
  values_ok xxh3_128 sha256 m (group_values (pp_record x) (pp_payload x) l (pp_entry x)) →
  (f (record_key ix (ar_id record)) = Ok None →
   item_for mutation p target (ItemInsert (pp_record x) (pp_payload x) l (pp_entry x)) ∧ outcome_for mutation o) →
  wp (let! header := insert_record_with_header xxh3_128 sha256 (pp_record x) (pp_payload x) l (pp_entry x) in
      m_ret (o, record_header changed l header)) (applied mutation p target ids g) failed s.
Proof.
  intros Hmut Hmid Ht Hnew Hc -> -> Bi Eid Efs Hv Hi.
  eapply wp_step; [eapply (insert_with_header_spec xxh3_128 sha256 m Hm types f t0 s ids g); [done|by rewrite Eid|done]|done|].
  intros h s1 (g1 & Ht1 & Hst & Hh). apply wp_ret. unfold applied. eexists _, g1. rewrite Hmid, <-Eid. split; [exact Ht1|]. split; [exact Hst|].
  assert (f (record_key ix (ar_id record)) = Ok None) as Habs.
  { assert (id_ok ix) by by destruct Hm. rewrite <-(tracks_fresh _ _ _ _ _ _ _ _ _ _ (ar_id record) (record_key ix (ar_id record)) Ht Hnew eq_refl) by done.
    rewrite <-Eid. by inversion Hst. }
  destruct (Hi Habs) as [Hi1 Hi2]. split_and!; try done. cbn [snd]. eapply record_header_tracked; [exact Hc|done|].
  intros l' Hl' N. by eapply step_header_frame.
Qed.
Lemma apply_one_spec mutation p target expected changed s ids g :
  tracks s ids g → Mutation_id mutation ∉ ids → routed_ok mutation p target → expected_ok mutation expected → headers_tracked g changed →
  wp (apply_one xxh3_128 sha256 mutation (zip_option p target) expected changed) (applied mutation p target ids g) failed s.
Proof.
  intros Ht Hnew Hr He Hc. assert (id_ok ix) as Hix by by destruct Hm. unfold apply_one. destruct mutation as [record|record|id]; cbn [Mutation_id] in Hnew.
  - eapply (routed_split record); [by left|done|done|]. intros x l Ep Et Eid Efs Hv. cbn [fst snd]. eapply apply_insert_spec; try done; [by left|apply Hr|].
    intros Habs. split; [|done]. cbn. split; [done|]. by exists x.
  - eapply (routed_split record); [by right|done|done|]. intros x l Ep Et Eid Efs Hv. cbn [fst snd]. destruct expected as [l0|].
    2: { eapply apply_insert_spec; try done; [by right|apply Hr|]. intros Habs. split; [|done]. cbn. split_and!; [done..|]. by exists x. }
    destruct He as [[r0 Hrec] Hloc].
    assert (location_typed l0) as Hl0.
    { pose proof Ht as (ms & Hb & _). destruct Hr as [Bi _].
      by destruct (tracks_value _ _ _ _ _ _ _ _ _ _ (location_key ix (ar_id record)) _ Ht (conj Hix Bi) Hloc) as (? & ? & _ & [[? ?] _]). }
    eapply wp_step; [eapply (replace_with_headers_spec xxh3_128 sha256 m Hm types f t0 s ids g _ r0); rewrite ?Eid; done|done|].
    intros hs s1 (g1 & Ht1 & Hst & Hh & Hsrc). apply wp_ret. rewrite Eid in Ht1. eexists _, g1. split; [exact Ht1|]. split; [exact Hst|].
    split_and!; try done; cbn [fst snd].
    + cbn. split_and!; [done..|]. by exists x.
    + by exists r0.
    + destruct (decide (l0 = l)) as [->|N].
      * rewrite Hsrc. eapply record_header_tracked; [exact Hc|done|]. intros l' Hl' N. eapply step_header_frame; [done..|]. cbn. tauto.
      * destruct Hsrc as (h & -> & Hh0).
        intros l' Hl'. unfold record_header. destruct (decide (l' = l)) as [->|N1]; [by rewrite lookup_insert_eq|].
        rewrite lookup_insert_ne by (intros ?%leaf_of_inj; congruence).
        destruct (decide (l' = l0)) as [->|N2]; [by rewrite lookup_insert_eq|].
        rewrite lookup_insert_ne by (intros ?%leaf_of_inj; congruence). specialize (Hc l' Hl'). unfold header_at.
        rewrite (step_header_frame _ _ _ l' Hst Hl') by (cbn; tauto). done.
  - eapply wp_step; [by eapply (delete_with_header_spec xxh3_128 sha256 m Hm types f t0 s ids g id expected)|done|].
    intros report s1 (g1 & Ht1 & Hst & Hrep). pose proof (λ key, tracks_fresh _ _ _ _ _ _ _ _ _ _ id key Ht Hnew) as Hfresh.
    assert (key_typed (record_key ix id) ∧ key_typed (location_key ix id)) as [Kr Kl] by done.
    destruct report as [l h|]; apply wp_ret; exists (ItemDelete id), g1; split_and!; try done; cbn [fst snd].
    + destruct Hrep as ([r Hrec] & _). exists r. unfold record_at in *. by rewrite <-Hfresh.
    + destruct Hrep as (_ & Hl & Hh). eapply record_header_tracked; [exact Hc|done|]. intros l' Hl' N. eapply step_header_frame; [done..|].
      cbn. unfold located_at in *. intros E. congruence.
    + cbn. by rewrite <-Hfresh.
    + intros l' Hl'. specialize (Hc l' Hl'). inversion Hst as [| | |? r|? ? Hg Hsame]; subst; [unfold record_at in *; congruence|].
      destruct Hl'. unfold header_at in *. by rewrite Hsame.
Qed.

Fixpoint all_routed (mutations : list Mutation.t) (prepared : list (option PreparedRecord)) (targets : list (option RecordLocation)) : Prop :=
  match mutations, prepared, targets with
  | [], [], [] => True
  | mutation :: mutations, p :: prepared, target :: targets => routed_ok mutation p target ∧ all_routed mutations prepared targets
  | _, _, _ => False
  end.
Fixpoint items_for (mutations : list Mutation.t) (prepared : list (option PreparedRecord)) (targets : list (option RecordLocation))
    (items : list member_item) : Prop :=
  match mutations, prepared, targets, items with
  | [], [], [], [] => True
  | mutation :: mutations, p :: prepared, target :: targets, item :: items =>
      item_for mutation p target item ∧ items_for mutations prepared targets items
  | _, _, _, _ => False
  end.
Lemma apply_loop_spec mutations prepared targets es changed s ids g :
  tracks s ids g → all_routed mutations prepared targets → Forall2 expected_ok mutations es → headers_tracked g changed →
  NoDup (Mutation_id <$> mutations) → (∀ id, id ∈ Mutation_id <$> mutations → id ∉ ids) →
  wp (apply_loop xxh3_128 sha256 mutations prepared targets es changed)
    (λ o s', ∃ items g' ids', tracks s' ids' g' ∧ member_steps xxh3_128 m g items g' ∧ items_for mutations prepared targets items ∧
       Forall (λ i, item_typed xxh3_128 sha256 m i ∧ item_agrees i) items ∧ Forall2 outcome_for mutations o.1 ∧ headers_tracked g' o.2)
    failed s.
Proof.
  intros Ht Hr He. revert prepared targets changed s ids g Ht Hr.
  induction He as [|mutation e mutations es He _ IH]; intros [|p prepared] [|target targets] changed s ids g Ht Hr Hc Hnd Hids; try done; cbn [apply_loop].
  { apply wp_ret. exists [], g, ids. split_and!; try done; constructor. done. }
  destruct Hr as [Hr Hrs]. rewrite fmap_cons in Hnd, Hids. apply list.NoDup_cons in Hnd as [Hn Hnd].
  eapply wp_step; [apply (apply_one_spec mutation p target e changed s ids g); try done; apply Hids; by left|done|].
  intros o s1 (item & g1 & Ht1 & Hst & Hi & Hty & Hag & Ho & Hc1).
  eapply wp_step; [apply (IH prepared targets o.2 s1 _ g1 Ht1); try done|done|].
  { intros id Hin [->|Hin']%elem_of_cons; [done|]. eapply Hids; [by right|done]. }
  intros os s2 (items & g2 & ids2 & Ht2 & Hsts & Hits & Htys & Hos & Hc2). apply wp_ret. exists (item :: items), g2, ids2.
  split_and!; try done; cbn [fst snd]; [by econstructor|by constructor..].
Qed.

(** *** The batched reads *)
Lemma place_upserts_spec mutations ls :
  Forall2 (location_of m f) (upsert_ids mutations) ls →
  Forall2 (λ mutation e, expected_ok mutation e ∧ (∀ id, mutation = Mutation.Delete id → e = None)) mutations (place_upserts mutations ls).
Proof.
  revert ls. induction mutations as [|mutation mutations IH]; intros ls Hls; [constructor|].
  destruct mutation as [record|record|id]; cbn [place_upserts].
  - constructor; [by split|by apply IH].
  - cbn in Hls. apply Forall2_cons_inv_l in Hls as (l & ls' & Hl & Hls & ->). constructor; [by split|by apply IH].
  - constructor; [by split|by apply IH].
Qed.
Lemma upsert_ids_typed mutations prepared targets : all_routed mutations prepared targets → Forall bytes_ok (upsert_ids mutations).
Proof.
  revert prepared targets. induction mutations as [|mutation mutations IH]; intros [|p prepared] [|target targets] Hr; try done.
  destruct Hr as [Hr Hrs]. destruct mutation; cbn; try by eapply IH. constructor; [apply Hr|by eapply IH].
Qed.
Abbreviation expected_read := (λ mutation e, expected_ok mutation e ∧ ∀ id, mutation = Mutation.Delete id → e = None).
Lemma read_locations_spec mutations prepared targets t :
  over_f t → all_routed mutations prepared targets →
  wp (read_locations xxh3_128 sha256 mutations) (λ es t', Forall2 expected_read mutations es ∧ reads t t') (λ _ t', reads t t') t.
Proof.
  intros Hb Hr. pose proof (upsert_ids_typed _ _ _ Hr) as Hids. unfold read_locations. cbv zeta.
  destruct (upsert_ids mutations) as [|id ids] eqn:Eids.
  - apply wp_ret. split; [|by eapply over_refl]. pose proof (place_upserts_spec mutations []) as Hp. rewrite Eids in Hp.
    specialize (Hp ltac:(constructor)). clear -Hp Eids. induction mutations as [|mutation mutations IH]; [constructor|].
    destruct mutation; cbn [place_upserts upsert_ids omap list_omap fmap list_fmap] in *; try discriminate Eids;
      apply Forall2_cons_inv_l in Hp as (e & es & He & Hes & E); injection E as <- <-; by constructor; auto.
  - eapply wp_step; [by eapply (read_locations_for_update_spec xxh3_128 sha256 m types f)|done|]. intros ls t' [Hls Hr']. apply wp_ret.
    split; [|done]. apply place_upserts_spec. by rewrite Eids.
Qed.
Definition delete_ids (mutations : list Mutation.t) : list (list Z) :=
  omap (λ mutation, match mutation with Mutation.Delete id => Some id | _ => None end) mutations.
Lemma prefetch_items_spec mutations prepared targets es t :
  over_f t → all_routed mutations prepared targets → Forall2 expected_read mutations es →
  ∃ items, prefetch_items mutations prepared targets es = Ok items ∧ Forall prefetch_typed items ∧ deleted_ids items = delete_ids mutations.
Proof.
  intros Hb Hr He. revert prepared targets Hr. induction He as [|mutation e mutations es [He _] _ IH]; intros [|p prepared] [|target targets] Hr; try done; cbn [prefetch_items].
  { exists []. split_and!; done. }
  destruct Hr as [Hr Hrs]. destruct (IH _ _ Hrs) as (items & -> & Hty & Hd). cbn [mbind result_bind]. eexists. split; [done|].
  destruct mutation as [record|record|id]; cbn in Hr |- *.
  - destruct Hr as (Bi & Hl & _). destruct target as [l|]; cbn; [|done]. split; [constructor; [|done]; by split; auto|done].
  - destruct Hr as (Bi & Hl & _). destruct target as [l|]; cbn; [|done]. split; [|by destruct e].
    constructor; [|done]. destruct e as [l0|]; cbn in *; [|by split; auto]. destruct He as [_ Hloc]. split_and!; auto.
    by eapply (over_location xxh3_128 sha256 m types f t).
  - split; [by constructor|]. exact (f_equal (cons id) Hd).
Qed.
Lemma place_deletes_spec mutations es ls :
  Forall2 expected_read mutations es → ls = [] ∨ Forall2 (λ id o, ∀ l, o = Some l → located_at m f id l) (delete_ids mutations) ls →
  Forall2 expected_ok mutations (place_deletes mutations es ls).
Proof.
  intros He. revert ls. induction He as [|mutation e mutations es [He Hn] _ IH]; intros ls Hls; [by constructor|].
  destruct mutation as [record|record|id]; cbn [place_deletes delete_ids omap list_omap] in *; [constructor; auto..|].
  destruct ls as [|l ls]; [constructor; auto|]. destruct Hls as [Hls|Hls]; [done|]. inversion Hls; subst. constructor; auto.
Qed.
Lemma prefetch_membership_spec mutations prepared targets es t :
  over_f t → all_routed mutations prepared targets → Forall2 expected_read mutations es →
  wp (prefetch_membership xxh3_128 sha256 mutations prepared targets es)
    (λ es' t', Forall2 expected_ok mutations es' ∧ reads t t') (λ _ _, False) t.
Proof.
  intros Hb Hr He. destruct (prefetch_items_spec _ _ _ _ _ Hb Hr He) as (items & Ei & Hty & Hd). unfold prefetch_membership. rewrite Ei.
  apply wp_bind, wp_lift; [done| |done]. intros _ [= <-].
  eapply wp_step; [by eapply (prefetch_membership_for_update_spec xxh3_128 sha256 m types f)|done|]. intros ls t' [Hr' Hls]. apply wp_ret.
  split; [|done]. rewrite Hd in Hls. by apply place_deletes_spec.
Qed.

(** *** The whole attempt *)
Lemma batch_start t :
  over_f t → same_txn t0 t → tracks (mkMember t (mutations t) LeafAccumulator_new) [] f.
Proof.
  intros [Hb Hv] Hs. exists []. split.
  - split; cbn [ms_txn ms_deferred ms_leaves]; try done.
    + apply builder_new_ok.
    + exists []. split; [constructor|]. intros v. cbn. by rewrite apply_writes_empty.
    + by intros k v ?%elem_of_nil.
  - intros key _. by destruct key.
Qed.
Lemma maintenance_elem (config : IndexConfig) (draining : list leaf_key) (changed : gmap leaf_key PartitionHeader) (leaf : leaf_key) :
  leaf ∈ maintenance_of config draining changed ↔
  leaf ∈ draining ∨ ∃ h, changed !! leaf = Some h ∧ is_actionable config leaf.2 h = true.
Proof.
  unfold maintenance_of. cbv zeta. rewrite list_elem_of_fmap. split.
  - intros ([leaf' []] & -> & Hin%in_leaf_order_elem). apply lookup_set_to_map in Hin as (leaf & Hin & [= ->]); [|by intros ? ? _ _ [= ->]].
    apply elem_of_union in Hin as [Hin%elem_of_list_to_set|Hin%elem_of_list_to_set]; [by left|]. right.
    apply list_elem_of_fmap in Hin as ([leaf h] & -> & [Ha Hin%elem_of_map_to_list]%list_elem_of_filter). by exists h.
  - intros Hin. exists (leaf, tt). split; [done|]. apply in_leaf_order_elem, lookup_set_to_map; [by intros ? ? _ _ [= ->]|].
    exists leaf. split; [|done]. apply elem_of_union. destruct Hin as [Hin|(h & Hh & Ha)]; [left; by apply elem_of_list_to_set|right].
    apply elem_of_list_to_set, list_elem_of_fmap. exists (leaf, h). split; [done|]. apply list_elem_of_filter. by rewrite elem_of_map_to_list.
Qed.
Record attempted (mutations : list Mutation.t) (prepared : list (option PreparedRecord)) (targets : list (option RecordLocation))
    (draining : list leaf_key) (report : MutationReport) g : Prop := {
  at_items : ∃ items, member_steps xxh3_128 m f items g ∧ items_for mutations prepared targets items ∧
    Forall (λ i, item_typed xxh3_128 sha256 m i ∧ item_agrees i) items;
  at_outcomes : Forall2 outcome_for mutations (mr_outcomes report);
  at_offered l h : location_typed l → header_at m g l h → g (header_key ix l) ≠ f (header_key ix l) →
    is_actionable (im_config m) (rl_leaf l) h = true → leaf_of l ∈ mr_maintenance report;
  at_justified l : location_typed l → leaf_of l ∈ mr_maintenance report →
    leaf_of l ∈ draining ∨ ∃ h, header_at m g l h ∧ is_actionable (im_config m) (rl_leaf l) h = true;
}.
Lemma apply_routed_spec mutations prepared targets draining :
  over_f t0 → all_routed mutations prepared targets → NoDup (Mutation_id <$> mutations) →
  wp (apply_routed xxh3_128 sha256 mutations prepared targets draining)
    (λ report t', ∃ g, attempted mutations prepared targets draining report g ∧ typed_wrote xxh3_128 sha256 t0 t' g)
    (λ _ t', same_txn t0 t') t0.
Proof.
  intros Hb Hr Hnd. unfold apply_routed.
  eapply wp_step; [by eapply read_locations_spec|intros e t' Hx; by apply rd_same in Hx|]. intros es t1 [He Hr1].
  pose proof (over_reads _ _ _ _ _ _ _ Hb Hr1) as Hb1.
  eapply wp_step; [by eapply prefetch_membership_spec|done|]. intros es' t2 [He' Hr2]. pose proof (over_reads _ _ _ _ _ _ _ Hb1 Hr2) as Hb2.
  assert (same_txn t0 t2) as Hs by (etrans; [apply Hr1|apply Hr2]). pose proof (batch_start _ Hb2 Hs) as Ht.
  match goal with |- wp (with_sinks ?op) _ _ _ => assert (wp op (λ report s', ∃ g, attempted mutations prepared targets draining report g ∧
    typed_wrote xxh3_128 sha256 t0 (ms_txn s') g) failed (mkMember t2 (Logical.mutations t2) LeafAccumulator_new)) as Hw end.
  2: { unfold wp, with_sinks in *. by destruct (m_bind _ _ (mkMember _ _ _)) as [s' [report|e|]]. }
  eapply wp_step; [apply (apply_loop_spec mutations prepared targets es' ∅ _ [] f Ht Hr He')|done|].
  { intros l _. by rewrite lookup_empty. }
  { done. }
  { by intros id _ ?%elem_of_nil. }
  intros o s3 (items & g & ids & Ht3 & Hst & Hit & Hty & Ho & Hc). apply wp_bind, wp_get. rewrite (tracks_manifest _ _ _ _ _ _ _ _ _ _ Ht3).
  apply wp_bind, wp_lift; [done| |done]. intros _ [= <-]. eapply wp_step; [by eapply install_spec|done|]. intros [] s4 Hw. apply wp_ret.
  exists g. split; [|done]. split; cbn [mr_outcomes mr_maintenance].
  - by exists items.
  - done.
  - intros l h Hl Hh Hne Ha. apply maintenance_elem. right. specialize (Hc l Hl). destruct (o.2 !! leaf_of l) as [h'|]; [|done].
    exists h'. unfold header_at in *. split; [done|]. assert (h' = h) as -> by congruence. done.
  - intros l Hl [?|(h & Hh & Ha)]%maintenance_elem; [by left|]. right. exists h. specialize (Hc l Hl). by rewrite Hh in Hc.
Qed.
End attempt.

(** ** Validated batches *)
Lemma validate_for_again v ty nullable v' : validate_for v ty nullable = Ok v' → validate_for v' ty nullable = Ok v'.
Proof.
  destruct v; cbn; repeat case_match; intros E; try discriminate E; apply Ok_inj in E as <-; cbn; repeat case_decide; repeat case_match; try done; congruence.
Qed.
Definition value_accepted (v : Value.t) (field : FieldSchema) : Prop := validate_for v (fs_data_type field) (fs_nullable field) = Ok v.
Lemma validate_fields_accepted values schema values' :
  len values = len schema → validate_fields_loop values schema = Ok values' → Forall2 value_accepted values' schema.
Proof.
  revert schema values'. induction values as [|v values IH]; intros [|field schema] values' Hl; cbn [validate_fields_loop]; try (unfold len in Hl; cbn in Hl; lia).
  { intros [= <-]. constructor. }
  intros (v' & Hv & Hr)%bind_ok. apply bind_ok in Hr as (rest & Hr & E). apply Ok_inj in E as <-. constructor; [by eapply validate_for_again|].
  apply IH; [unfold len in *; cbn in Hl; lia|done].
Qed.
Lemma validate_fields_no_panic values schema : no_panic (validate_fields_loop values schema).
Proof.
  revert schema. induction values as [|v values IH]; intros [|field schema]; try done. cbn [validate_fields_loop].
  apply bind_no_panic; [destruct v; cbn; by repeat case_match|]. intros v' _. apply bind_no_panic; [apply IH|done].
Qed.
Lemma accepted_fields_again values schema : Forall2 value_accepted values schema → validate_fields_loop values schema = Ok values.
Proof. induction 1 as [|v field values schema Hv _ IH]; [done|]. cbn [validate_fields_loop]. unfold value_accepted in Hv. rewrite Hv. cbn [mbind result_bind]. by rewrite IH. Qed.
(** What a mutation is after validation. *)
Definition mutation_accepted (dimension : Z) (schema : list FieldSchema) (mutation : Mutation.t) : Prop :=
  0 < len (Mutation_id mutation) ≤ MAX_RECORD_ID_BYTES ∧
  match mutation with
  | Mutation.Insert record | Mutation.Upsert record =>
      len (ar_vector record) = dimension ∧ Forall2 value_accepted (ar_fields record) schema
  | Mutation.Delete _ => True
  end.
Lemma validate_id_ok id : is_ok (validate_id id) = true ↔ 0 < len id ≤ MAX_RECORD_ID_BYTES.
Proof. unfold validate_id. pose proof (len_nonneg id). case_match; bprop; cbn; split; intros; try done; lia. Qed.
Lemma record_validate_ok r d schema r' :
  Record_validate r d schema = Ok r' →
  ar_id r' = ar_id r ∧ len (ar_vector r') = d ∧ Forall2 value_accepted (ar_fields r') schema.
Proof.
  unfold Record_validate. destruct (Z.eqb_spec (len (ar_vector r)) d); [|done]. destruct (Z.eqb_spec (len (ar_fields r)) (len schema)); [|done].
  intros (fs & Hf & E)%bind_ok. apply Ok_inj in E as <-. cbn. split_and!; try done. by eapply validate_fields_accepted.
Qed.
Lemma record_accepted_again r d schema :
  len (ar_vector r) = d → Forall2 value_accepted (ar_fields r) schema → Record_validate r d schema = Ok r.
Proof.
  intros Hv Hf. unfold Record_validate. assert (length (ar_fields r) = length schema) as Hl by by eapply Forall2_length. unfold len at 2 3. rewrite Hv, Hl, !Z.eqb_refl. cbn [negb orb].
  rewrite (accepted_fields_again _ _ Hf). by destruct r.
Qed.
Lemma record_validate_no_panic r d schema : no_panic (Record_validate r d schema).
Proof. unfold Record_validate. case_match; [done|]. apply bind_no_panic; [apply validate_fields_no_panic|done]. Qed.
Lemma validate_loop_ok seen mutations d schema mutations' :
  validate_mutations_loop seen mutations d schema = Ok mutations' →
  Mutation_id <$> mutations' = Mutation_id <$> mutations ∧ Forall (mutation_accepted d schema) mutations' ∧
  NoDup (Mutation_id <$> mutations') ∧ ∀ id, id ∈ Mutation_id <$> mutations' → id ∉ seen.
Proof.
  revert seen mutations'. induction mutations as [|mutation mutations IH]; intros seen mutations'; cbn [validate_mutations_loop].
  { intros [= <-]. split_and!; try done; [constructor|by intros ? ?%elem_of_nil]. }
  cbv zeta. destruct (negb _ || _) eqn:E; [done|]. apply orb_false_iff in E as [Hid%negb_false_iff Hseen%bool_decide_eq_false].
  apply validate_id_ok in Hid. intros (mu & Hmu & Hr)%bind_ok. apply bind_ok in Hr as (rest & Hr & E). apply Ok_inj in E as <-.
  destruct (IH _ _ Hr) as (Eids & Hacc & Hnd & Hnew).
  assert (Mutation_id mu = Mutation_id mutation ∧ mutation_accepted d schema mu) as [Emu Hmu'].
  { unfold mutation_accepted. destruct mutation as [r|r|id]; [apply bind_ok in Hmu as (r' & Hr' & E)..|]; [| |by apply Ok_inj in Hmu as <-];
      apply Ok_inj in E as <-; apply record_validate_ok in Hr' as (Ei & ? & ?); cbn in *; by rewrite Ei. }
  rewrite !fmap_cons, Emu, Eids in *. split_and!; try done.
  - by constructor.
  - constructor; [|done]. intros Hin%Hnew. set_solver.
  - intros id [->|Hin%Hnew]%elem_of_cons; [done|set_solver].
Qed.
Lemma validate_loop_again seen mutations d schema :
  Forall (mutation_accepted d schema) mutations → NoDup (Mutation_id <$> mutations) → (∀ id, id ∈ Mutation_id <$> mutations → id ∉ seen) →
  validate_mutations_loop seen mutations d schema = Ok mutations.
Proof.
  intros Hacc. revert seen. induction Hacc as [|mutation mutations [Hid Hmu] _ IH]; intros seen Hnd Hnew; [done|]. cbn [validate_mutations_loop]. cbv zeta.
  rewrite fmap_cons in Hnd, Hnew. apply list.NoDup_cons in Hnd as [Hn Hnd].
  rewrite (proj2 (validate_id_ok _) Hid), bool_decide_false by (apply Hnew; by left). cbn [negb orb].
  rewrite IH; [|done|intros id Hin; apply not_elem_of_union; split; [apply not_elem_of_singleton; by intros ->|apply Hnew; by right]].
  destruct mutation; [destruct Hmu; rewrite record_accepted_again by done..|]; done.
Qed.
Lemma validate_loop_error seen mutations d schema :
  (∃ mutations', validate_mutations_loop seen mutations d schema = Ok mutations') ∨ validate_mutations_loop seen mutations d schema = Err InvalidArgument.
Proof.
  assert (∀ r, (∃ r', Record_validate r d schema = Ok r') ∨ Record_validate r d schema = Err InvalidArgument) as Hrec.
  { intros r. unfold Record_validate. case_match; [by right|]. generalize (ar_fields r) as vs. generalize schema as fs.
    assert (∀ vs fs, (∃ vs', validate_fields_loop vs fs = Ok vs') ∨ validate_fields_loop vs fs = Err InvalidArgument) as Hf.
    { induction vs as [|v vs IH]; intros [|field fs]; cbn [validate_fields_loop]; eauto.
      assert ((∃ v', validate_for v (fs_data_type field) (fs_nullable field) = Ok v') ∨ validate_for v (fs_data_type field) (fs_nullable field) = Err InvalidArgument) as [[v' ->]| ->]
        by (destruct v; cbn; repeat case_match; eauto); [|by right]. cbn [mbind result_bind].
      destruct (IH fs) as [[vs' ->]| ->]; [left; by eexists|by right]. }
    intros fs vs. destruct (Hf vs fs) as [[vs' ->]| ->]; [left; by eexists|by right]. }
  revert seen. induction mutations as [|mutation mutations IH]; intros seen; cbn [validate_mutations_loop]; [by left; eexists|]. cbv zeta.
  case_match; [by right|]. destruct mutation as [r|r|id]; [destruct (Hrec r) as [[r' ->]| ->]; [|by right]..|]; cbn [mbind result_bind];
    (edestruct IH as [[ms' ->]| ->]; [left; by eexists|by right]).
Qed.

(** C26: Batch validation is exact: an accepted batch keeps its Record IDs, which
    are distinct and 1 to 256 bytes long, every record fits the dimension and the
    schema with its values canonical, validating it again changes nothing, and
    it is accepted as it stands exactly when it has this form; every other batch
    is reported as an invalid argument. *)
Theorem mutation_batch_validated mutations d schema :
  match validate_mutations mutations d schema with
  | Ok mutations' =>
      Mutation_id <$> mutations' = Mutation_id <$> mutations ∧ validate_mutations mutations' d schema = Ok mutations'
  | Err e => e = InvalidArgument
  | Panic => False
  end ∧
  (validate_mutations mutations d schema = Ok mutations ↔
   Forall (mutation_accepted d schema) mutations ∧ NoDup (Mutation_id <$> mutations)).
Proof.
  assert (∀ ms', validate_mutations mutations d schema = Ok ms' → Mutation_id <$> ms' = Mutation_id <$> mutations ∧
    Forall (mutation_accepted d schema) ms' ∧ NoDup (Mutation_id <$> ms')) as Hok.
  { intros ms' (? & ? & ? & _)%validate_loop_ok. done. }
  assert (∀ ms, Forall (mutation_accepted d schema) ms → NoDup (Mutation_id <$> ms) → validate_mutations ms d schema = Ok ms) as Hagain.
  { intros ms Ha Hn. apply validate_loop_again; [done..|]. intros ? _. apply not_elem_of_empty. }
  split; [|split; [by intros (_ & ? & ?)%Hok|intros [? ?]; by apply Hagain]].
  destruct (validate_loop_error ∅ mutations d schema) as [[ms' E]|E]; unfold validate_mutations at 1; rewrite E; [|done].
  destruct (Hok ms' E) as (? & ? & ?). split; [done|by apply Hagain].
Qed.

(** C7: A mutation attempt refines one-by-one record changes, over any backend
    that meets its contract: when a validated batch applies to its routed
    targets, the typed view afterwards is the one that results from changing the
    records one after the other in input order (an upsert replaces exactly the
    records that are stored, at their stored locations), although the writes are
    deferred into one builder, the leaf Headers and Synopses are accumulated, and
    the reads are prefetched; every outcome tells what was stored before; the
    maintenance candidates are the draining sources and the changed partitions
    whose final Header is actionable; and no attempt panics. *)
Theorem mutation_attempt_refines {T} `{WriteLaws T} xxh3_128 sha256 m (Hm : manifest_ok m) types raw mutations prepared targets draining
    (t t' : WriteLogicalTxn T) r :
  bound t m types → validate_mutations raw (dimension m) (fields m) = Ok mutations →
  all_routed xxh3_128 sha256 m mutations prepared targets →
  apply_routed xxh3_128 sha256 mutations prepared targets draining t = (t', r) →
  no_panic r ∧
  ∀ report, r = Ok report →
    ∃ g, attempted xxh3_128 sha256 m (typed_view xxh3_128 sha256 t) mutations prepared targets draining report g ∧
      same_map (typed_view xxh3_128 sha256 t') g ∧ bound t' m types.
Proof.
  intros Hb Hval Hr Hrun.
  assert (NoDup (Mutation_id <$> mutations)) as Hnd by by apply validate_loop_ok in Hval as (_ & _ & ? & _).
  pose proof (apply_routed_spec xxh3_128 sha256 m Hm types (typed_view xxh3_128 sha256 t) t mutations prepared targets draining) as Hw.
  unfold wp in Hw. rewrite Hrun in Hw. specialize (Hw ltac:(by split) Hr Hnd). destruct r as [report|e|]; [|by split|done].
  split; [done|]. intros _ [= <-]. destruct Hw as (g & Hat & Hwr). exists g. split_and!; [done|apply Hwr|by eapply bound_mono].
Qed.

(** A batch that applies keeps membership intact. *)
Lemma apply_routed_intact {T} `{WriteLaws T} xxh3_128 sha256 m (Hm : manifest_ok m) types raw mutations prepared targets draining
    (t t' : WriteLogicalTxn T) report :
  bound t m types → validate_mutations raw (dimension m) (fields m) = Ok mutations →
  all_routed xxh3_128 sha256 m mutations prepared targets →
  intact xxh3_128 m Hm (typed_view xxh3_128 sha256 t) →
  apply_routed xxh3_128 sha256 mutations prepared targets draining t = (t', Ok report) →
  intact xxh3_128 m Hm (typed_view xxh3_128 sha256 t').
Proof.
  intros Hb Hval Hr Hi Hrun.
  assert (NoDup (Mutation_id <$> mutations)) as Hnd by by apply validate_loop_ok in Hval as (_ & _ & ? & _).
  pose proof (apply_routed_spec xxh3_128 sha256 m Hm types (typed_view xxh3_128 sha256 t) t mutations prepared targets draining) as Hw.
  unfold wp in Hw. rewrite Hrun in Hw. destruct Hw as (g & [(items & Hst & _ & Hty) _ _ _] & [_ _ Hv]); [by split|done..|].
  apply (same_map_intact _ _ _ g); [done|]. by eapply steps_intact.
Qed.

(** C8: Foreground mutations keep membership intact: when every record and its
    location exist together, every location names the one leaf that lists the
    record with the record's own fields, payloads belong to records, every leaf
    Header counts exactly the entries of its leaf and every leaf Synopsis covers
    them, then all of this holds again after a validated batch has applied,
    inserts, in-place replacements, moves between leaves and deletes alike. *)
Theorem mutations_keep_membership_intact {T} `{WriteLaws T} xxh3_128 sha256 m (Hm : manifest_ok m) types raw mutations prepared targets draining
    (t t' : WriteLogicalTxn T) report :
  bound t m types → validate_mutations raw (dimension m) (fields m) = Ok mutations →
  all_routed xxh3_128 sha256 m mutations prepared targets →
  intact xxh3_128 m Hm (typed_view xxh3_128 sha256 t) →
  apply_routed xxh3_128 sha256 mutations prepared targets draining t = (t', Ok report) →
  intact xxh3_128 m Hm (typed_view xxh3_128 sha256 t').
Proof. exact (apply_routed_intact xxh3_128 sha256 m Hm types raw mutations prepared targets draining t t' report). Qed.

(** ** A concrete index over the in-memory backend *)
Lemma empty_intact xxh3_128 m Hm f : (∀ key v, f key ≠ Ok (Some v)) → intact xxh3_128 m Hm f.
Proof.
  intros Hf. split; unfold record_at, located_at, entry_at, header_at, synopsis_at; intros *;
    try (intros; exfalso; by eapply Hf). intros _. split; intros [x Hx]; exfalso; by eapply Hf.
Qed.
(** Creating a tree whose root leaf is not in use keeps membership intact. *)
Lemma new_tree_intact xxh3_128 m Hm f g tree_key started_at :
  bytes_ok tree_key → (∀ h, ¬ header_at m f (mkLocation tree_key 1) h) → intact xxh3_128 m Hm f →
  same_map g (foldl set_typed f (new_tree m tree_key started_at)) → intact xxh3_128 m Hm g.
Proof.
  intros Htk Hfree Hf Hg. assert (id_ok (im_logical_index_id m)) as Hix by by destruct Hm. set (root := mkLocation tree_key 1).
  assert (∀ l, location_typed l → g (header_key (im_logical_index_id m) l) =
    if decide (l = root) then Ok (Some (PersistentValue.PartitionHeader (mkPartitionHeader 1 0 0 PartitionState.Ready)))
    else f (header_key (im_logical_index_id m) l)) as Hhd.
  { intros l [? ?]. rewrite Hg by done. unfold new_tree. cbn [foldl]. case_decide as E; [subst l; unfold header_key; cbn [rl_tree_key rl_leaf root]|];
      rewrite set_typed_ne by done; rewrite set_typed_ne by done; [by rewrite set_typed_eq|].
    rewrite set_typed_ne; [by rewrite set_typed_ne|]. intros [= ? ?]. apply E. destruct l. cbn in *. by subst. }
  assert (∀ l, location_typed l → g (synopsis_key (im_logical_index_id m) l) =
    if decide (l = root) then Ok (Some (PersistentValue.PartitionSynopsis (PartitionSynopsis_empty m)))
    else f (synopsis_key (im_logical_index_id m) l)) as Hsy.
  { intros l [? ?]. rewrite Hg by done. unfold new_tree. cbn [foldl]. case_decide as E; [subst l; unfold synopsis_key; cbn [rl_tree_key rl_leaf root]|];
      rewrite set_typed_ne by done; [by rewrite set_typed_eq|].
    rewrite set_typed_ne; [by rewrite !set_typed_ne|]. intros [= ? ?]. apply E. destruct l. cbn in *. by subst. }
  apply (quiet_intact _ _ _ f); [done|]. split; unfold header_at, synopsis_at in *.
  - intros key w Hk [id Hid] _. rewrite Hg by done. rewrite foldl_set_typed_other; [done|]. intros k v Hin ->. unfold new_tree in Hin. cbv zeta in Hin.
    repeat (apply elem_of_cons in Hin as [[= -> ->]|Hin]; [done|]). by apply elem_of_nil in Hin.
  - intros l h' Hl. rewrite Hhd by done. case_decide as E; [subst l; intros [= <-] _; right; split; [|done]; intros h Hh; by destruct (Hfree h)|].
    intros Hh Hlev. left. by exists h'.
  - intros l h Hl Hh Hlev. left. rewrite Hhd by done. case_decide; [by eexists|by exists h].
  - intros l s Hl. rewrite Hsy by done. case_decide as E; [subst l; intros [= <-]|by left]. right. split; [apply empty_synopsis_admitted|].
    intros h Hh. by destruct (Hfree h).
Qed.

Definition sample_root : RecordLocation := mkLocation sample_tree_key 1.
Definition sample_record (id : Z) : ApiRecord := mkApiRecord [id] [0; 0] [Value.I64 5; Value.F64 0] None.
Definition sample_prepared (id : Z) : PreparedRecord :=
  let values := [Value.I64 5; Value.F64 0] in
  mkPrepared sample_tree_key (mkVectorRecord [id] [0; 0] values) None (mkLeafEntry [id] values (replicate 15 0)).
(** The caller's negative zero is canonicalized by validation. *)
Definition sample_raw : list Mutation.t :=
  [Mutation.Insert (mkApiRecord [1] [0; 0] [Value.I64 5; Value.F64 0x8000000000000000] None);
   Mutation.Upsert (sample_record 2); Mutation.Delete [3]].
Definition sample_batch : list Mutation.t :=
  [Mutation.Insert (sample_record 1); Mutation.Upsert (sample_record 2); Mutation.Delete [3]].
Definition sample_attempt : WriteLogicalTxn WriteTxn * result MutationReport :=
  apply_routed sample_hash (λ bs, bs) sample_batch [Some (sample_prepared 1); Some (sample_prepared 2); None]
    [Some sample_root; Some sample_root; None] [] sample_tree.
Definition sample_report : MutationReport :=
  mkMutationReport [MutationOutcome.Inserted; MutationOutcome.Upserted false; MutationOutcome.Deleted false] [].

Lemma sample_tree_wrote :
  typed_wrote sample_hash (λ bs, bs) sample_write sample_tree
    (foldl set_typed (typed_view sample_hash (λ bs, bs) sample_write) (new_tree sample_manifest sample_tree_key 5)).
Proof.
  pose proof (create_tree_spec sample_hash (λ bs, bs) sample_manifest [DataType.F64] sample_tree_key 5 sample_write
    sample_write_bound ltac:(dec_compute) ltac:(by split)) as Hw. unfold wp in Hw.
  assert ((create_tree sample_hash (λ bs, bs) sample_tree_key 5 sample_write).2 = Ok TreeCreation.Created) as Ec by (vm_compute; reflexivity).
  unfold sample_tree. destruct (create_tree _ _ _ _ _) as [t1 r1]. cbn [fst snd] in *. subst r1. by destruct Hw as (_ & _ & ?).
Qed.
Lemma sample_tree_bound : bound sample_tree sample_manifest [DataType.F64].
Proof. eapply bound_mono; [exact sample_write_bound|exact sample_tree_wrote]. Qed.
Lemma sample_tree_intact : intact sample_hash sample_manifest sample_manifest_ok (typed_view sample_hash (λ bs, bs) sample_tree).
Proof.
  assert (∀ key v, typed_view sample_hash (λ bs, bs) sample_write key ≠ Ok (Some v)) as He.
  { intros key v. unfold typed_view, typed_at. change (lt_view sample_write) with (∅ : store). intros (k & _ & E)%bind_ok.
    by rewrite lookup_empty in E. }
  eapply new_tree_intact; [|intros h; apply He|by apply empty_intact|apply sample_tree_wrote]. dec_compute.
Qed.
Lemma sample_group_ok id :
  bytes_ok [id] →
  values_ok sample_hash (λ bs, bs) sample_manifest
    (group_values (pp_record (sample_prepared id)) None sample_root (pp_entry (sample_prepared id))).
Proof.
  intros Hid. assert (∀ P : ∀ m, manifest_ok m → Prop, P sample_manifest sample_manifest_ok → bound_to (Some sample_manifest) P) as Hb.
  { intros P HP. by exists sample_manifest, sample_manifest_ok. }
  assert (Forall Api.value_ok [Value.I64 5; Value.F64 0] ∧ Forall value_canonical [Value.I64 5; Value.F64 0]) as [Hv Hc] by (split; repeat constructor; done).
  repeat apply List.Forall_cons; try apply List.Forall_nil; apply Hb; split; cbn.
  - split_and!; [done| |done]. dec_compute.
  - split; [|done]. dec_compute.
  - split; dec_compute.
  - done.
  - split_and!; [done|done|]. dec_compute.
  - done.
Qed.
Lemma sample_routed :
  all_routed sample_hash (λ bs, bs) sample_manifest sample_batch [Some (sample_prepared 1); Some (sample_prepared 2); None]
    [Some sample_root; Some sample_root; None].
Proof.
  assert (∀ id, bytes_ok [id] → bytes_ok [id] ∧ (∀ l, Some sample_root = Some l → location_typed l) ∧
    ∀ x l, Some (sample_prepared id) = Some x → Some sample_root = Some l →
      vr_record_id (pp_record x) = [id] ∧ le_fields (pp_entry x) = vr_fields (pp_record x) ∧
      values_ok sample_hash (λ bs, bs) sample_manifest (group_values (pp_record x) (pp_payload x) l (pp_entry x))) as Hr.
  { intros id Hid. split_and!; [done|intros l [= <-]; split; dec_compute|]. intros x l [= <-] [= <-]. split_and!; [done..|]. by apply sample_group_ok. }
  split; [apply (Hr 1); dec_compute|]. split; [apply (Hr 2); dec_compute|]. split; [dec_compute|done].
Qed.
Lemma mutation_attempt_refines_witness :
  sample_attempt.2 = Ok sample_report ∧
  ∃ g, attempted sample_hash (λ bs, bs) sample_manifest (typed_view sample_hash (λ bs, bs) sample_tree) sample_batch
      [Some (sample_prepared 1); Some (sample_prepared 2); None] [Some sample_root; Some sample_root; None] [] sample_report g ∧
    same_map (typed_view sample_hash (λ bs, bs) sample_attempt.1) g.
Proof.
  assert (sample_attempt.2 = Ok sample_report) as E by (vm_compute; reflexivity). split; [done|].
  destruct (mutation_attempt_refines sample_hash (λ bs, bs) sample_manifest sample_manifest_ok [DataType.F64] sample_raw sample_batch
    [Some (sample_prepared 1); Some (sample_prepared 2); None] [Some sample_root; Some sample_root; None] [] sample_tree
    sample_attempt.1 sample_attempt.2 sample_tree_bound eq_refl sample_routed) as [_ Hok]; [unfold sample_attempt; by destruct (apply_routed _ _ _ _ _ _ _)|].
  destruct (Hok _ E) as (g & Hat & Hg & _). exists g. split; [exact Hat|exact Hg].
Defined.
Lemma mutations_keep_membership_intact_witness :
  intact sample_hash sample_manifest sample_manifest_ok (typed_view sample_hash (λ bs, bs) sample_attempt.1).
Proof.
  apply (mutations_keep_membership_intact sample_hash (λ bs, bs) sample_manifest sample_manifest_ok [DataType.F64] sample_raw sample_batch
    [Some (sample_prepared 1); Some (sample_prepared 2); None] [Some sample_root; Some sample_root; None] [] sample_tree
    sample_attempt.1 sample_report sample_tree_bound eq_refl sample_routed sample_tree_intact).
  assert (sample_attempt.2 = Ok sample_report) as E by (vm_compute; reflexivity). rewrite <-E. unfold sample_attempt. by destruct (apply_routed _ _ _ _ _ _ _).
Defined.
