(* ===== verification/Relocation.v ===== *)
(** Atomic entry moves (src/src/storage/topology/relocation.rs): the admission of
    a leaf relocation batch, the candidate reads, and the moves of Leaf and Child
    Entries between partitions. *)
From stdpp Require Import gmap sorting.
From S2P Require Import Prelude RustStd Api TreeKey Keys KeyRanges RaBitQ Manifest Wire ValueData Records Synopsis Values Backend Memory Txn Codec Logical Membership.

Record LeafDrainEntry := mkDrain { ld_source : Z; ld_entry : LeafEntry; ld_record : VectorRecord }.
Module Movement.
Inductive t := Split | Merge | Refine.
#[global] Instance eq_dec : EqDecision t.
Proof. solve_decision. Defined.
End Movement.
Definition source_state (movement : Movement.t) : PartitionState.t :=
  match movement with
  | Movement.Split => PartitionState.DrainingSplit
  | Movement.Merge => PartitionState.Merging
  | Movement.Refine => PartitionState.Ready
  end.
Definition target_state (movement : Movement.t) : PartitionState.t :=
  match movement with
  | Movement.Split => PartitionState.ReceivingSplit
  | Movement.Merge | Movement.Refine => PartitionState.Ready
  end.

(** ** Admission of a leaf relocation batch *)
Record LeafRelocationCharge := mkCharge { lc_source_header : Z; lc_entry : Z; lc_target : Z }.
Definition charge_mutation (overhead key value : Z) : result Z :=
  within_usize (checked_add key value ≫= λ bytes, checked_add bytes overhead).
Definition LeafRelocationCharge_new (m : IndexManifest) (tree_key : list Z) (overhead : Z) : result LeafRelocationCharge :=
  leaf_relocation_value_sizes m tree_key ≫= λ values,
  let leaf_key := maximum_leaf_entry_key_len tree_key in
  let metadata_key := partition_metadata_key_len tree_key in
  let location_key := maximum_location_key_len in
  charge_mutation overhead metadata_key (sz_partition_header values) ≫= λ source_header,
  charge_mutation overhead location_key (sz_record_location values) ≫= λ location,
  charge_mutation overhead leaf_key (sz_leaf_entry values) ≫= λ inserted,
  charge_mutation overhead leaf_key 0 ≫= λ deleted,
  within_usize (checked_add inserted deleted ≫= λ bytes, checked_add bytes location) ≫= λ entry,
  charge_mutation overhead metadata_key (sz_partition_header values) ≫= λ header,
  charge_mutation overhead metadata_key (sz_partition_synopsis values) ≫= λ synopsis,
  within_usize (checked_add header synopsis) ≫= λ target,
  Ok (mkCharge source_header entry target).
Definition charge_targets (entries : Z) (movement : Movement.t) : Z :=
  match movement with Movement.Split => Z.min entries 2 | Movement.Merge | Movement.Refine => entries end.
Definition charge_size (c : LeafRelocationCharge) (entries : Z) (movement : Movement.t) : option (Z * Z) :=
  let targets := charge_targets entries movement in
  (checked_mul entries 3 ≫= λ count, (checked_mul targets 2 ≫= λ x, checked_add x count) ≫= λ count, checked_add count 1) ≫= λ mutations,
  (checked_mul entries (lc_entry c) ≫= λ bytes, (checked_mul targets (lc_target c) ≫= λ x, checked_add x bytes) ≫= λ bytes,
   checked_add bytes (lc_source_header c)) ≫= λ bytes,
  Some (mutations, bytes).
Definition charge_fits (c : LeafRelocationCharge) (entries : Z) (movement : Movement.t) (budget : AdmissionBudget) : bool :=
  match charge_size c entries movement with
  | Some (mutations, bytes) => (mutations <=? ab_max_mutations budget) && (bytes <=? ab_max_mutation_bytes budget)
  | None => false
  end.
(** The binary search halves a [usize] interval: 64 rounds reach one value. *)
Fixpoint batch_limit_loop (fuel : nat) (fits : Z → bool) (low high : Z) : Z :=
  match fuel with
  | O => low
  | S fuel =>
      if low <? high then
        let middle := low + (high - low + 1) / 2 in
        if fits middle then batch_limit_loop fuel fits middle high else batch_limit_loop fuel fits low (middle - 1)
      else low
  end.
Definition leaf_relocation_batch_limit (m : IndexManifest) (tree_key : list Z) (movement : Movement.t)
    (budget : AdmissionBudget) : result Z :=
  LeafRelocationCharge_new m tree_key (ab_mutation_key_overhead_bytes budget) ≫= λ charge,
  let high := saturating_sub (ab_max_mutations budget) 1 / 3 in
  if (high =? 0) || negb (charge_fits charge 1 movement budget) then Err LimitExceeded
  else Ok (batch_limit_loop 64 (λ entries, charge_fits charge entries movement budget) 1 high).

(** ** Candidates *)
Section candidates.
Context (xxh3_128 : Z → list Z → Z) (sha256 : list Z → list Z) {T : Type} `{WriteOps T}.

(** The entries still present, with their positions. *)
Fixpoint present_entries (position : nat) (candidates : list (Z * list Z)) (values : list (option PersistentValue.t))
    : result (list (nat * LeafEntry)) :=
  match candidates with
  | [] => Ok []
  | (_, id) :: candidates =>
      match values with
      | [] => Err Backend
      | value :: values =>
          expect_leaf_entry value ≫= λ entry,
          match entry with
          | Some entry =>
              if decide (le_record_id entry = id) then
                present_entries (S position) candidates values ≫= λ rest, Ok ((position, entry) :: rest)
              else Err Corruption
          | None => present_entries (S position) candidates values
          end
      end
  end.
Fixpoint fill_slots (tree_key : list Z) (candidates : list (Z * list Z)) (present : list (nat * LeafEntry))
    (locations records : list (option PersistentValue.t)) (slots : list (option LeafDrainEntry))
    : result (list (option LeafDrainEntry)) :=
  match present with
  | [] => Ok slots
  | (position, entry) :: present =>
      match locations, records with
      | location :: locations, record :: records =>
          (expect_location location ≫= ok_or Corruption) ≫= λ location,
          or_panic (candidates !! position) ≫= λ candidate,
          if decide (rl_tree_key location = tree_key) then
            if rl_leaf location =? candidate.1 then
              (expect_record record ≫= ok_or Corruption) ≫= λ record,
              if decide (vr_record_id record = le_record_id entry) then
                fill_slots tree_key candidates present locations records
                  (<[position := Some (mkDrain candidate.1 entry record)]> slots)
              else Err Corruption
            else Err Corruption
          else Err Corruption
      | _, _ => Err Backend
      end
  end.
Definition read_leaf_drain_candidates (tree_key : list Z) (candidates : list (Z * list Z))
    : M (WriteLogicalTxn T) (list (option LeafDrainEntry)) :=
  let! t := m_get in
  let! m := m_lift (require_bound_manifest t) in
  let index := im_logical_index_id m in
  let! entries := batch_get_for_update xxh3_128 sha256
                    ((λ '(source, id), LogicalKey.LeafEntry index tree_key source id) <$> candidates) in
  let! present := m_lift (present_entries 0 candidates entries) in
  let! locations := batch_get_for_update xxh3_128 sha256
                      ((λ '(_, entry), LogicalKey.Location index (le_record_id entry)) <$> present) in
  let! records := batch_get xxh3_128 sha256
                    ((λ '(_, entry), LogicalKey.Record index (le_record_id entry)) <$> present) in
  m_lift (fill_slots tree_key candidates present locations records ((λ _, None) <$> candidates)).

(** ** Moving leaf entries *)
Definition partition_le {A} (a b : Z * A) : Prop := a.1 ≤ b.1.
#[global] Instance partition_le_dec {A} : RelDecision (@partition_le A).
Proof. intros a b. unfold partition_le. apply _. Defined.
(** A [BTreeMap] or [BTreeSet] of Partition Keys in order. *)
Definition in_partition_order {A} (m : gmap Z A) : list (Z * A) := merge_sort partition_le (map_to_list m).
Definition set_in_order (s : gset Z) : list Z := merge_sort Z.le (elements s).
Fixpoint collect_headers (movement : Movement.t) (sources targets : gset Z) (partitions : list Z)
    (values : list (option PersistentValue.t)) (headers : gmap Z PartitionHeader) : result (gmap Z PartitionHeader) :=
  match partitions with
  | [] => Ok headers
  | partition :: partitions =>
      match values with
      | [] => Err Backend
      | value :: values =>
          (expect_header value ≫= ok_or Corruption) ≫= λ header,
          if negb (ph_level header =? 1)
             || bool_decide (partition ∈ sources ∧ ph_state header ≠ source_state movement)
             || bool_decide (partition ∈ targets ∧ ph_state header ≠ target_state movement)
          then Err Corruption
          else collect_headers movement sources targets partitions values (<[partition := header]> headers)
      end
  end.
Fixpoint collect_synopses (targets : list Z) (values : list (option PersistentValue.t)) (synopses : gmap Z SynopsisExpansion)
    : result (gmap Z SynopsisExpansion) :=
  match targets with
  | [] => Ok synopses
  | target :: targets =>
      match values with
      | [] => Err Backend
      | value :: values =>
          (expect_synopsis value ≫= ok_or Corruption) ≫= λ synopsis,
          collect_synopses targets values (<[target := mkExpansion synopsis false]> synopses)
      end
  end.
Definition move_leaf_entry (index : Z) (tree_key : list Z) (drain : LeafDrainEntry) (target : Z) : M (WriteLogicalTxn T) unit :=
  let id := le_record_id (ld_entry drain) in
  let! outcome := Logical.insert xxh3_128 sha256 (LogicalKey.LeafEntry index tree_key target id) (PersistentValue.LeafEntry (ld_entry drain)) in
  let! _ := m_lift (expect_inserted outcome) in
  build_and_apply (
    let! _ := builder_delete (LogicalKey.LeafEntry index tree_key (ld_source drain) id) in
    builder_put xxh3_128 sha256 (LogicalKey.Location index id) (PersistentValue.RecordLocation (mkLocation tree_key target))).
Fixpoint move_leaf_entries (index : Z) (tree_key : list Z) (moves : list (LeafDrainEntry * Z)) : M (WriteLogicalTxn T) unit :=
  match moves with
  | [] => m_ret tt
  | (drain, target) :: moves =>
      let! _ := move_leaf_entry index tree_key drain target in
      move_leaf_entries index tree_key moves
  end.
(** The counts, epochs and synopses in move order. *)
Fixpoint account_moves (m : IndexManifest) (moves : list (LeafDrainEntry * Z)) (headers : gmap Z PartitionHeader)
    (synopses : gmap Z SynopsisExpansion) : result (gmap Z PartitionHeader * gmap Z SynopsisExpansion) :=
  match moves with
  | [] => Ok (headers, synopses)
  | (drain, target) :: moves =>
      or_panic (headers !! ld_source drain) ≫= λ source_header,
      removed_entry source_header ≫= λ source_header,
      let headers := <[ld_source drain := source_header]> headers in
      or_panic (headers !! target) ≫= λ target_header,
      added_entry target_header ≫= λ target_header,
      let headers := <[target := target_header]> headers in
      or_panic (synopses !! target) ≫= λ expansion,
      PartitionSynopsis_expand xxh3_128 (se_synopsis expansion) m (le_fields (ld_entry drain)) ≫= λ '(synopsis, changed),
      account_moves m moves headers (<[target := mkExpansion synopsis (se_changed expansion || changed)]> synopses)
  end.
Fixpoint put_headers (index : Z) (tree_key : list Z) (headers : list (Z * PartitionHeader)) : M (WriteLogicalTxn T) unit :=
  match headers with
  | [] => m_ret tt
  | (partition, header) :: headers =>
      let! _ := Logical.put xxh3_128 sha256 (LogicalKey.Header index tree_key partition) (PersistentValue.PartitionHeader header) in
      put_headers index tree_key headers
  end.
Fixpoint put_synopses (index : Z) (tree_key : list Z) (synopses : list (Z * SynopsisExpansion)) : M (WriteLogicalTxn T) unit :=
  match synopses with
  | [] => m_ret tt
  | (partition, expansion) :: synopses =>
      let! _ :=
        if se_changed expansion
        then Logical.put xxh3_128 sha256 (LogicalKey.Synopsis index tree_key partition) (PersistentValue.PartitionSynopsis (se_synopsis expansion))
        else m_ret tt in
      put_synopses index tree_key synopses
  end.
Definition relocate_leaf_entries (tree_key : list Z) (moves : list (LeafDrainEntry * Z)) (movement : Movement.t)
    : M (WriteLogicalTxn T) Z :=
  match moves with
  | [] => m_ret 0
  | _ =>
      let! t := m_get in
      let! m := m_lift (require_bound_manifest t) in
      let index := im_logical_index_id m in
      let sources : gset Z := list_to_set (ld_source ∘ fst <$> moves) in
      let targets : gset Z := list_to_set moves.*2 in
      if existsb (λ '(drain, target), ld_source drain =? target) moves then m_lift (Err Corruption)
      else
        let partitions := set_in_order (sources ∪ targets) in
        let! values := batch_get_for_update xxh3_128 sha256 (LogicalKey.Header index tree_key <$> partitions) in
        let! headers := m_lift (collect_headers movement sources targets partitions values ∅) in
        let! values := batch_get_for_update xxh3_128 sha256 (LogicalKey.Synopsis index tree_key <$> set_in_order targets) in
        let! synopses := m_lift (collect_synopses (set_in_order targets) values ∅) in
        let! _ := move_leaf_entries index tree_key moves in
        let! accounted := m_lift (account_moves m moves headers synopses) in
        let! _ := put_headers index tree_key (in_partition_order accounted.1) in
        let! _ := put_synopses index tree_key (in_partition_order accounted.2) in
        m_ret (len moves)
  end.
(** ** Child entries *)
Fixpoint child_slots (children : list Z) (values : list (option PersistentValue.t)) : result (list (option ChildEntry)) :=
  match children, values with
  | child :: children, value :: values =>
      expect_child_entry value ≫= λ entry,
      match entry with
      | Some entry =>
          if ce_child entry =? child then child_slots children values ≫= λ rest, Ok (Some entry :: rest) else Err Corruption
      | None => child_slots children values ≫= λ rest, Ok (None :: rest)
      end
  | _, _ => Ok []
  end.
Definition read_child_drain_candidates (tree_key : list Z) (source : Z) (children : list Z)
    : M (WriteLogicalTxn T) (list (option ChildEntry)) :=
  let! t := m_get in
  let! m := m_lift (require_bound_manifest t) in
  let index := im_logical_index_id m in
  let! values := batch_get_for_update xxh3_128 sha256 (LogicalKey.ChildEntry index tree_key source <$> children) in
  m_lift (child_slots children values).
Fixpoint target_headers_loop (movement : Movement.t) (targets : list Z) (values : list (option PersistentValue.t))
    : result (list (Z * PartitionHeader) * list (option PersistentValue.t)) :=
  match targets with
  | [] => Ok ([], values)
  | target :: targets =>
      match values with
      | [] => Err Backend
      | value :: values =>
          (expect_header value ≫= ok_or Corruption) ≫= λ header,
          if decide (ph_state header = target_state movement) then
            target_headers_loop movement targets values ≫= λ '(rest, values), Ok ((target, header) :: rest, values)
          else Err Corruption
      end
  end.
Definition u32_add (a b : Z) : result Z := if a + b <? 2 ^ 32 then Ok (a + b) else Panic.
Definition u32_sub (a b : Z) : result Z := if b <=? a then Ok (a - b) else Panic.
(** The ceilings of a drain that rewrites the source and one destination graph. *)
Definition graph_drain_admitted (m : IndexManifest) (movement : Movement.t) (source_header : PartitionHeader)
    (target_headers : list (Z * PartitionHeader)) (moves : Z) : result unit :=
  match ic_graph (im_config m) with
  | None => Ok tt
  | Some _ =>
      u32_add (ic_max_internal_partition_entries (im_config m)) 2 ≫= λ ceiling,
      match movement with
      | Movement.Merge => u32_sub (ic_min_internal_partition_entries (im_config m)) 1
      | _ => Ok ceiling
      end ≫= λ source_limit,
      if negb (len target_headers =? 1) || (source_limit <? ph_entry_count source_header) then Err LimitExceeded
      else
        or_panic (ph_entry_count ∘ snd <$> head target_headers) ≫= λ target_count,
        if (ceiling <? target_count + moves)
           || bool_decide (movement = Movement.Split) && (ceiling <? ph_entry_count source_header + target_count)
        then Err LimitExceeded
        else Ok tt
  end.
Fixpoint move_child_entries (index : Z) (tree_key : list Z) (source : Z) (moves : list (ChildEntry * Z)) : M (WriteLogicalTxn T) unit :=
  match moves with
  | [] => m_ret tt
  | (entry, target) :: moves =>
      let! outcome := Logical.insert xxh3_128 sha256 (LogicalKey.ChildEntry index tree_key target (ce_child entry))
                        (PersistentValue.ChildEntry entry) in
      let! _ := m_lift (expect_inserted outcome) in
      let! _ := delete_key (LogicalKey.ChildEntry index tree_key source (ce_child entry)) in
      move_child_entries index tree_key source moves
  end.
Fixpoint repeat_entry (step : PartitionHeader → result PartitionHeader) (n : nat) (header : PartitionHeader) : result PartitionHeader :=
  match n with
  | O => Ok header
  | S n => step header ≫= repeat_entry step n
  end.
Fixpoint put_target_headers (index : Z) (tree_key : list Z) (moves : list (ChildEntry * Z)) (headers : list (Z * PartitionHeader))
    : M (WriteLogicalTxn T) unit :=
  match headers with
  | [] => m_ret tt
  | (target, header) :: headers =>
      let received := filter (λ move, move.2 = target) moves in
      let! header := m_lift (repeat_entry added_entry (length received) header) in
      let! _ := Logical.put xxh3_128 sha256 (LogicalKey.Header index tree_key target) (PersistentValue.PartitionHeader header) in
      put_target_headers index tree_key moves headers
  end.
Definition relocate_child_entries (tree_key : list Z) (source : Z) (moves : list (ChildEntry * Z)) (movement : Movement.t)
    : M (WriteLogicalTxn T) Z :=
  match moves with
  | [] => m_ret 0
  | _ =>
      let! t := m_get in
      let! m := m_lift (require_bound_manifest t) in
      let index := im_logical_index_id m in
      let targets := set_in_order (list_to_set moves.*2) in
      let! values := batch_get_for_update xxh3_128 sha256
                       ((LogicalKey.Header index tree_key <$> targets) ++ [LogicalKey.Header index tree_key source]) in
      let! headers := m_lift (target_headers_loop movement targets values) in
      let target_headers := headers.1 in
      let! source_value := m_lift (ok_or Backend (head headers.2)) in
      let! source_header := m_lift (expect_header source_value ≫= ok_or Corruption) in
      if negb (bool_decide (ph_state source_header = source_state movement)) then m_lift (Err Corruption)
      else if existsb (λ '(_, header), negb (ph_level header =? ph_level source_header)) target_headers then m_lift (Err Corruption)
      else
        let! _ := m_lift (graph_drain_admitted m movement source_header target_headers (len moves)) in
        let! _ := move_child_entries index tree_key source moves in
        let! source_header := m_lift (repeat_entry removed_entry (length moves) source_header) in
        let! _ := Logical.put xxh3_128 sha256 (LogicalKey.Header index tree_key source) (PersistentValue.PartitionHeader source_header) in
        let! _ := put_target_headers index tree_key moves target_headers in
        m_ret (len moves)
  end.
End candidates.
