(* ===== verification/RelocationSpec.v ===== *)
(** Correctness of entry moves (src/src/storage/topology/relocation.rs): the
    admission limit of a leaf relocation batch is the largest batch whose charge
    fits, and a batch of moves refines the moves made one after the other, each
    of which keeps record membership intact. *)
From stdpp Require Import gmap sorting.
From S2P Require Import Prelude RustStd Api TreeKey Keys KeyRanges RaBitQ Manifest Wire ValueData Records Synopsis Values Backend Memory Txn Codec Logical LogicalSpec TreeOps Membership MembershipSpec MembershipInv Mutate MutateSpec Relocation.

(** ** Transactions that read a typed map *)
Section reading.
Context (xxh3_128 : Z → list Z → Z) (sha256 : list Z → list Z) {T : Type} `{WriteLaws T}.
Context (m : IndexManifest) (types : list DataType.t).
Abbreviation over := (MutateSpec.over xxh3_128 sha256 m types).
Abbreviation typed_wrote := (LogicalSpec.typed_wrote xxh3_128 sha256).
Implicit Types (f g : typed_map) (t : WriteLogicalTxn T).

Lemma over_batch f t for_update keys :
  over f t → Forall key_typed keys →
  wp (read_batch xxh3_128 sha256 for_update keys)
    (λ vs t', Forall2 (λ key v, f key = Ok v) keys vs ∧ reads t t' ∧ (for_update = true → Forall (λ key, key_protected key t') keys))
    (λ _ t', reads t t') t.
Proof.
  intros [Hb Hv] Hk. eapply wp_mono; [apply (read_batch_spec xxh3_128 sha256 types for_update); [apply Hb..|done]| |done].
  intros vs t' (Hvs & Hr & Hp). split_and!; [|done|].
  - clear Hp. induction Hvs as [|key v keys vs Hkv _ IH]; [constructor|]. apply Forall_cons_iff in Hk as [Hk1 Hk]. constructor; [|by apply IH].
    by rewrite <-Hv.
  - intros E. apply Forall_forall. intros key Hin k Ek. by eapply Hp; [done|apply list_elem_of_In|].
Qed.
Lemma over_value f t key v :
  over f t → key_typed key → f key = Ok (Some v) →
  value_ok xxh3_128 sha256 (Some m) v ∧ PersistentValue_kind v = value_kind_for_key key ∧ validate_key_identity key v (Some m) = Ok tt.
Proof.
  intros [Hb Hv] Hk E. rewrite <-Hv in E by done. pose proof (typed_view_value xxh3_128 sha256 t types _ _ (bd_ready _ _ _ Hb) E) as Hok.
  by rewrite (bd_manifest _ _ _ Hb) in Hok.
Qed.
Lemma over_wrote f t t' g : over f t → typed_wrote t t' g → over g t'.
Proof. intros [Hb _] Hw. split; [by eapply bound_mono|apply Hw]. Qed.
Lemma wrote_trans t t1 t2 g1 g2 : typed_wrote t t1 g1 → typed_wrote t1 t2 g2 → typed_wrote t t2 g2.
Proof. intros [_ Hs _] [Hc Hs' Hv]. split; [done|by etrans|done]. Qed.
Lemma wrote_ext t t' g g' : typed_wrote t t' g → same_map g g' → typed_wrote t t' g'.
Proof. intros [? ? Hv] E. split; [done..|by rewrite Hv]. Qed.
(** Writes of a transaction that reads [f]. *)
Definition writable (k : LogicalKey.t) (v : option PersistentValue.t) : Prop :=
  key_typed k ∧ ∀ x, v = Some x → value_ok xxh3_128 sha256 (Some m) x.
Lemma over_mutate f t ms :
  over f t → Forall (λ x, writable x.1 x.2) ms →
  wp (mutate xxh3_128 sha256 ms) (λ _ t', typed_wrote t t' (foldl set_typed f ms)) (λ _ t', same_txn t t') t.
Proof.
  intros [Hb Hv] Hms. eapply wp_mono; [apply (typed_mutate_spec _ _ types); [apply Hb|]| |done].
  - eapply Forall_impl; [|exact Hms]. intros [k v] [? ?]. split; [done|]. by rewrite (bd_manifest _ _ _ Hb).
  - intros [] t' Hw. eapply wrote_ext; [exact Hw|]. by rewrite Hv.
Qed.
Lemma over_build f t b ms :
  over f t → Forall (λ x, writable x.1 x.2) ms → (∀ mb, b mb = build xxh3_128 sha256 ms mb) →
  wp (build_and_apply b) (λ _ t', typed_wrote t t' (foldl set_typed f ms)) (λ _ t', same_txn t t') t.
Proof.
  intros Ho Hms Hb. pose proof (over_mutate f t ms Ho Hms) as Hw. unfold wp, mutate, build_and_apply, m_bind, m_get in *. by rewrite Hb.
Qed.
Lemma over_put f t k v :
  over f t → writable k (Some v) →
  wp (Logical.put xxh3_128 sha256 k v) (λ _ t', typed_wrote t t' (set_typed f (k, Some v))) (λ _ t', same_txn t t') t.
Proof. intros Ho Hw. unfold wp. rewrite put_mutate. apply (over_mutate f t [(k, Some v)]); [done|by constructor]. Qed.
Lemma over_delete f t k :
  over f t → key_typed k →
  wp (delete_key k) (λ _ t', typed_wrote t t' (set_typed f (k, None))) (λ _ t', same_txn t t') t.
Proof. intros Ho Hw. unfold wp. rewrite (delete_mutate xxh3_128 sha256). apply (over_mutate f t [(k, None)]); [done|by repeat constructor]. Qed.
(** A unique insert that must succeed. *)
Lemma over_insert {A} f t k v (rest : M (WriteLogicalTxn T) A) Q (E : ErrorKind → WriteLogicalTxn T → Prop) :
  over f t → writable k (Some v) → (∀ e t', same_txn t t' → E e t') →
  (∀ t', f k = Ok None → typed_wrote t t' (set_typed f (k, Some v)) → wp rest Q E t') →
  wp (let! o := Logical.insert xxh3_128 sha256 k v in let! _ := m_lift (expect_inserted o) in rest) Q E t.
Proof.
  intros [Hb Hv] [Hk Hx] He Hrest. eapply wp_step; [apply (typed_insert_spec xxh3_128 sha256 types); [apply Hb|]|exact He|].
  - split; [done|]. by rewrite (bd_manifest _ _ _ Hb).
  - intros [] t' [_ Ho]; apply wp_bind, wp_lift; try done.
    + intros [] _. destruct Ho as [En Hw]. apply Hrest; [by rewrite <-Hv|]. eapply wrote_ext; [exact Hw|]. by rewrite Hv.
    + intros e _. apply He. by destruct Ho as [_ [_ _ ? _]].
Qed.
End reading.

(** ** Moves one after the other *)
Section moves.
Context (xxh3_128 : Z → list Z → Z) (sha256 : list Z → list Z) (m : IndexManifest) (Hm : manifest_ok m) (tree_key : list Z).
Abbreviation ix := (im_logical_index_id m).
Abbreviation at_leaf := (mkLocation tree_key).
Implicit Types (f g : typed_map) (d : LeafDrainEntry) (target : Z) (moves : list (LeafDrainEntry * Z)).
Definition drain_id d : list Z := le_record_id (ld_entry d).

(** What a candidate says of the map it was read from. *)
Definition drain_at f d : Prop :=
  entry_at m f (at_leaf (ld_source d)) (drain_id d) (ld_entry d) ∧ located_at m f (drain_id d) (at_leaf (ld_source d)) ∧
  record_at m f (drain_id d) (ld_record d).
Definition drain_typed d : Prop :=
  bytes_ok (drain_id d) ∧ location_typed (at_leaf (ld_source d)) ∧ Forall Api.value_ok (le_fields (ld_entry d)).
Definition move_writes (move : LeafDrainEntry * Z) : list (LogicalKey.t * option PersistentValue.t) :=
  [put_entry m (at_leaf move.2) (ld_entry move.1); (entry_key ix (at_leaf (ld_source move.1)) (drain_id move.1), None);
   (location_key ix (drain_id move.1), Some (PersistentValue.RecordLocation (at_leaf move.2)))].
(** One move: the entry goes to the target unchanged, the Location follows, both
    exact counts change by one and the target's Synopsis covers the entry. *)
Inductive move_step f : LeafDrainEntry * Z → typed_map → Prop :=
  | move_step_intro d target h0 h0' h1 h1' s s' c g :
      ld_source d ≠ target → f (entry_key ix (at_leaf target) (drain_id d)) = Ok None →
      header_at m f (at_leaf (ld_source d)) h0 → ph_level h0 = 1 → removed_entry h0 = Ok h0' →
      header_at m f (at_leaf target) h1 → ph_level h1 = 1 → added_entry h1 = Ok h1' →
      synopsis_at m f (at_leaf target) s → PartitionSynopsis_expand xxh3_128 s m (le_fields (ld_entry d)) = Ok (s', c) →
      same_map g (foldl set_typed f (move_writes (d, target) ++
        [put_header m (at_leaf (ld_source d)) h0'; put_header m (at_leaf target) h1'; put_synopsis m (at_leaf target) s'])) →
      move_step f (d, target) g.
Inductive move_steps : typed_map → list (LeafDrainEntry * Z) → typed_map → Prop :=
  | moves_nil f g : same_map g f → move_steps f [] g
  | moves_cons f move g moves h : move_step f move g → move_steps g moves h → move_steps f (move :: moves) h.

Ltac key_ne :=
  first [discriminate | let E := fresh in intros E; first [apply header_key_inj in E|apply synopsis_key_inj in E|apply entry_key_inj in E]; congruence].
Ltac look := cbn [foldl app move_writes fst snd] in *; unfold put_header, put_synopsis, put_entry in *;
  repeat first [rewrite set_typed_eq|rewrite set_typed_ne by key_ne].
(** The writes of a move concern its record and its leaves. *)
Lemma move_touches move h0 h1 s :
  Forall (λ x, member_id x.1 = None ∨ member_id x.1 = Some (drain_id move.1)) (move_writes move ++
    [put_header m (at_leaf (ld_source move.1)) h0; put_header m (at_leaf move.2) h1; put_synopsis m (at_leaf move.2) s]).
Proof. repeat first [apply List.Forall_nil|apply List.Forall_cons; [cbn; by auto|]]. Qed.
(** A move regroups its record from the source leaf to the target leaf. *)
Lemma move_regroups f d target g :
  intact xxh3_128 m Hm f → drain_typed d → location_typed (at_leaf target) → drain_at f d → move_step f (d, target) g →
  regroups xxh3_128 m Hm f g (drain_id d) (Some (ld_record d, at_leaf (ld_source d), ld_entry d))
    (Some (ld_record d, at_leaf target, ld_entry d)).
Proof.
  intros Hf (Bi & Ls & Hval) Lt (Hent & Hloc & Hrec) Hst.
  inversion Hst as [? ? h0 h0' h1 h1' s s' c ? N Hfree Hh0 Hlev0 Hrem Hh1 Hlev1 Hadd Hs Hx Hg]; subst. clear Hst.
  assert (id_ok ix) as Hix by by destruct Hm. pose proof Ls as [? ?]. pose proof Lt as [_ ?]. cbn [rl_tree_key rl_leaf] in *.
  assert (at_leaf (ld_source d) ≠ at_leaf target) as Nl by congruence.
  apply added_entry_fields in Hadd as [El Ec]. apply removed_entry_fields in Hrem as [El0 Ec0].
  pose proof (it_stored _ _ _ _ Hf _ _ Lt Hs) as Ha.
  pose proof (it_projection _ _ _ _ Hf _ _ _ _ Bi Ls Hrec Hent) as Hproj.
  destruct (expand_stored xxh3_128 m Hm _ _ Ha Hval) as [_ Hex]. destruct (Hex _ _ Hx) as (? & _ & ? & ?).
  destruct (regroups_leaves xxh3_128 m Hm f g (Some (ld_record d, at_leaf (ld_source d), ld_entry d)) (Some (ld_record d, at_leaf target, ld_entry d))
    (λ l', if decide (l' = at_leaf target) then Some h1' else if decide (l' = at_leaf (ld_source d)) then Some h0' else None) (Some s')) as (H1' & H2' & H3' & H4').
  - intros l'. cbn [in_leaf]. case_decide as E; [subst l'|case_decide as E'; [subst l'|]].
    + exists h1. rewrite bool_decide_false, bool_decide_true by congruence. split_and!; try done. cbn. lia.
    + exists h0. rewrite bool_decide_true, bool_decide_false by congruence. split_and!; try done. cbn. lia.
    + by rewrite !bool_decide_false.
  - by exists s.
  - intros l' [? ?]. rewrite Hg by done. case_decide; [subst l'; by look|]. case_decide; [subst l'|]; by look.
  - intros l' [? ?]. rewrite Hg by done. cbn [in_leaf]. destruct (bool_decide_reflect (l' = at_leaf target)); [subst l'|]; by look.
  - split; try done.
    + cbn. unfold record_at, located_at, entry_at, drain_id in *. rewrite !Hg by done. by look.
    + intros key Hk. eapply touched_other; [exact Hg|apply (move_touches (d, target))|done].
    + intros l' [? ?] El'. cbn [in_leaf] in *. apply bool_decide_eq_false in El'. rewrite Hg by done.
      destruct (bool_decide_reflect (l' = at_leaf (ld_source d))); [subst l'|]; by look.
    + by intros ? ? ? [= <- <- <-].
    + intros ? ? ? [= <- <- <-]. by eapply H3'.
Qed.
Lemma move_intact f d target g :
  intact xxh3_128 m Hm f → drain_typed d → location_typed (at_leaf target) → drain_at f d → move_step f (d, target) g →
  intact xxh3_128 m Hm g.
Proof.
  intros Hf Hd Ht Ha Hst. eapply (regroup_intact _ sha256); [exact Hf|exact (proj1 Hd)|by eapply move_regroups|]. by destruct Hm.
Qed.
(** A move leaves the other records' candidates as they were read. *)
Lemma move_drain_other f d target g d' :
  drain_typed d' → drain_id d' ≠ drain_id d → drain_at f d' → move_step f (d, target) g → drain_at g d'.
Proof.
  intros (Bi & Ls & _) N Hd Hst.
  inversion Hst as [? ? h0 h0' h1 h1' s s' c ? _ _ _ _ _ _ _ _ _ _ Hg]; subst. clear Hst.
  assert (id_ok ix) as Hix by by destruct Hm. pose proof Ls as [? ?].
  assert (∀ key, key_typed key → member_id key = Some (drain_id d') → g key = f key) as Hsame.
  { intros key Hk Hid. eapply touched_other; [exact Hg|apply (move_touches (_, _))|done|by rewrite Hid|cbn [fst]; congruence]. }
  unfold drain_at, entry_at, located_at, record_at in *. by rewrite !Hsame.
Qed.
Definition moves_typed moves : Prop := Forall (λ move, drain_typed move.1 ∧ location_typed (at_leaf move.2)) moves.
(** What the moved records look like afterwards: the same record and entry, at
    the target. *)
Definition moved_at g (move : LeafDrainEntry * Z) : Prop :=
  entry_at m g (at_leaf move.2) (drain_id move.1) (ld_entry move.1) ∧ located_at m g (drain_id move.1) (at_leaf move.2) ∧
  record_at m g (drain_id move.1) (ld_record move.1) ∧ g (entry_key ix (at_leaf (ld_source move.1)) (drain_id move.1)) = Ok None.
Lemma move_moved f d target g :
  drain_typed d → location_typed (at_leaf target) → drain_at f d → move_step f (d, target) g → moved_at g (d, target).
Proof.
  intros (Bi & Ls & _) Lt (_ & _ & Hrec) Hst.
  inversion Hst as [? ? h0 h0' h1 h1' s s' c ? N _ _ _ _ _ _ _ _ _ Hg]; subst. clear Hst.
  assert (id_ok ix) as Hix by by destruct Hm. pose proof Ls as [? ?]. pose proof Lt as [? ?]. cbn in *.
  unfold moved_at, entry_at, located_at, record_at, drain_id in *. cbn [fst snd]. rewrite !Hg by done.
  assert (at_leaf (ld_source d) ≠ at_leaf target) as Nl by congruence. split_and!; by look.
Qed.
Lemma move_moved_other f move' g move :
  drain_typed move.1 → location_typed (at_leaf move.2) → drain_id move.1 ≠ drain_id move'.1 →
  moved_at f move → move_step f move' g → moved_at g move.
Proof.
  intros (Bi & Ls & _) Lt N Hd Hst.
  inversion Hst as [d' target' h0 h0' h1 h1' s s' c ? _ _ _ _ _ _ _ _ _ _ Hg]; subst. clear Hst. cbn [fst] in N.
  assert (id_ok ix) as Hix by by destruct Hm. pose proof Ls as [? ?]. pose proof Lt as [? ?].
  assert (∀ key, key_typed key → member_id key = Some (drain_id move.1) → g key = f key) as Hsame.
  { intros key Hk Hid. eapply touched_other; [exact Hg|apply (move_touches (_, _))|done|by rewrite Hid|cbn [fst]; congruence]. }
  unfold moved_at, entry_at, located_at, record_at in *. by rewrite !Hsame.
Qed.
Lemma moves_kept f moves g move :
  moves_typed moves → drain_typed move.1 → location_typed (at_leaf move.2) → drain_id move.1 ∉ (drain_id ∘ fst <$> moves) →
  moved_at f move → move_steps f moves g → moved_at g move.
Proof.
  intros Hty Hd Ht Hn Hat Hs. revert Hat. induction Hs as [f g E|f move' g moves h Hst _ IH]; intros Hat.
  - assert (id_ok ix) as Hix by by destruct Hm. destruct Hd as (Bi & [? ?] & _). destruct Ht as [? ?].
    unfold moved_at, entry_at, located_at, record_at in *. by rewrite !E.
  - apply Forall_cons_iff in Hty as [_ Hty]. rewrite fmap_cons in Hn. apply not_elem_of_cons in Hn as [Hn Hns].
    apply IH; [done..|]. by eapply move_moved_other.
Qed.
Lemma moves_intact f moves g :
  moves_typed moves → NoDup (drain_id ∘ fst <$> moves) → Forall (drain_at f) moves.*1 → intact xxh3_128 m Hm f →
  move_steps f moves g → intact xxh3_128 m Hm g ∧ Forall (moved_at g) moves.
Proof.
  intros Hty Hnd Hd Hf Hs. induction Hs as [f g E|f [d target] g moves h Hst Hs IH].
  { split; [by eapply same_map_intact|constructor]. }
  apply Forall_cons_iff in Hty as [[Hdt Ht] Hty]. rewrite fmap_cons in Hnd. rewrite fmap_cons in Hd. apply list.NoDup_cons in Hnd as [Hn Hnd].
  apply Forall_cons_iff in Hd as [Hd0 Hd]. cbn [fst snd compose] in *.
  destruct IH as [Hh Hmoved]; [done..| |by eapply move_intact|].
  - apply Forall_forall. intros d' Hin%list_elem_of_In. apply list_elem_of_fmap in Hin as ([d'' tg] & -> & Hin).
    eapply move_drain_other; [| | |exact Hst].
    + apply list_elem_of_In in Hin. by eapply Forall_forall in Hty as [? _]; [|exact Hin].
    + intros E. apply Hn, list_elem_of_fmap. by exists (d'', tg).
    + apply (Forall_forall (drain_at f) moves.*1); [done|]. apply list_elem_of_In, list_elem_of_fmap. by exists (d'', tg).
  - split; [done|]. constructor; [|done]. eapply moves_kept; [done..|by eapply move_moved|done].
Qed.
End moves.

(** ** A batch of moves *)
Section relocating.
Context (xxh3_128 : Z → list Z → Z) (sha256 : list Z → list Z) {T : Type} `{WriteLaws T}.
Context (m : IndexManifest) (Hm : manifest_ok m) (types : list DataType.t) (tree_key : list Z).
Abbreviation ix := (im_logical_index_id m).
Abbreviation at_leaf := (mkLocation tree_key).
Abbreviation over := (MutateSpec.over xxh3_128 sha256 m types).
Abbreviation typed_wrote := (LogicalSpec.typed_wrote xxh3_128 sha256).
Abbreviation drain_typed := (RelocationSpec.drain_typed tree_key).
Abbreviation moves_typed := (RelocationSpec.moves_typed tree_key).
Abbreviation move_writes := (RelocationSpec.move_writes m tree_key).
Abbreviation move_steps := (RelocationSpec.move_steps xxh3_128 m tree_key).
Implicit Types (f g : typed_map) (t : WriteLogicalTxn T) (moves : list (LeafDrainEntry * Z)).

Lemma over_wrote_refl f t : over f t → typed_wrote t t f.
Proof. intros [Hb Hv]. split; [apply Hb|done|done]. Qed.
Lemma ix_ok : id_ok ix.
Proof. by destruct Hm. Qed.
Lemma location_writable l : location_typed l → value_ok xxh3_128 sha256 (Some m) (PersistentValue.RecordLocation l).
Proof. intros Hl. exists m, Hm. split; [done|]. by split. Qed.
Lemma header_writable h : header_typed h → value_ok xxh3_128 sha256 (Some m) (PersistentValue.PartitionHeader h).
Proof. intros Hh. exists m, Hm. split; [done|]. by split. Qed.
Lemma synopsis_writable s : admits (synopsis_family xxh3_128 m Hm) s → value_ok xxh3_128 sha256 (Some m) (PersistentValue.PartitionSynopsis s).
Proof. intros Hs. by exists m, Hm. Qed.

(** *** The entries and Locations *)
Definition entries_stored moves : Prop :=
  Forall (λ move, value_ok xxh3_128 sha256 (Some m) (PersistentValue.LeafEntry (ld_entry move.1))) moves.
Fixpoint entries_free f moves : Prop :=
  match moves with
  | [] => True
  | move :: moves =>
      f (entry_key ix (at_leaf move.2) (drain_id move.1)) = Ok None ∧ entries_free (foldl set_typed f (move_writes move)) moves
  end.
Lemma move_entry_spec f t d target :
  over f t → drain_typed d → location_typed (at_leaf target) →
  value_ok xxh3_128 sha256 (Some m) (PersistentValue.LeafEntry (ld_entry d)) →
  wp (move_leaf_entry xxh3_128 sha256 ix tree_key d target)
    (λ _ t', f (entry_key ix (at_leaf target) (drain_id d)) = Ok None ∧ typed_wrote t t' (foldl set_typed f (move_writes (d, target))))
    (λ _ t', same_txn t t') t.
Proof.
  intros Ho (Bi & [? ?] & _) [_ ?] Hv. pose proof ix_ok. unfold move_leaf_entry. cbv zeta.
  apply (over_insert xxh3_128 sha256 m types f); [done| |done|].
  { split; [done|]. by intros x [= <-]. }
  intros t1 Hfree Hw1. pose proof (over_wrote _ _ _ _ _ _ _ _ Ho Hw1) as Ho1.
  eapply wp_mono; [apply (over_build _ _ m types _ _ _ [(entry_key ix (at_leaf (ld_source d)) (drain_id d), None);
    (location_key ix (drain_id d), Some (PersistentValue.RecordLocation (at_leaf target)))] Ho1)| |].
  - constructor; [by split|]. constructor; [|constructor]. split; [done|]. intros x [= <-]. by apply location_writable.
  - intros mb. cbn [build]. unfold m_bind, build_one, m_ret. cbn [fst snd]. unfold entry_key. cbn [rl_tree_key rl_leaf].
    destruct (builder_delete _ mb) as [mb1 [[]|e|]]; [|done..]. by destruct (builder_put _ _ _ _ mb1) as [mb2 [[]|e|]].
  - intros [] t' Hw. split; [done|]. by eapply wrote_trans.
  - intros e t' Hs. etrans; [apply Hw1|done].
Qed.
Lemma move_entries_spec f t moves :
  over f t → moves_typed moves → entries_stored moves →
  wp (move_leaf_entries xxh3_128 sha256 ix tree_key moves)
    (λ _ t', entries_free f moves ∧ typed_wrote t t' (foldl set_typed f (moves ≫= move_writes))) (λ _ t', same_txn t t') t.
Proof.
  revert f t. induction moves as [|[d target] moves IH]; intros f t Ho Hty Hst; cbn [move_leaf_entries].
  { apply wp_ret. split; [done|by apply over_wrote_refl]. }
  apply Forall_cons_iff in Hty as [[Hd Ht] Hty]. apply Forall_cons_iff in Hst as [Hs Hst].
  eapply wp_step; [by apply (move_entry_spec f)|done|]. intros [] t1 [Hfree Hw1].
  pose proof (over_wrote _ _ _ _ _ _ _ _ Ho Hw1) as Ho1.
  eapply wp_mono; [by apply (IH (foldl set_typed f (move_writes (d, target))))| |].
  - intros [] t' [Hfr Hw]. split; [done|]. rewrite bind_cons, foldl_app. by eapply wrote_trans.
  - intros e t' Hs'. etrans; [apply Hw1|done].
Qed.

(** *** Counts and Synopses *)
Implicit Types (hs : gmap Z PartitionHeader) (es : gmap Z SynopsisExpansion).
Definition leaves_of hs es : LeafAccumulator := mkLeaves (kmap (pair tree_key) hs) (kmap (pair tree_key) es).
Record accounted f hs es : Prop := {
  ac_headers p h : hs !! p = Some h → header_typed h ∧ id_ok p ∧ ph_level h = 1;
  ac_synopses p e : es !! p = Some e →
    admits (synopsis_family xxh3_128 m Hm) (se_synopsis e) ∧ id_ok p ∧
    (se_changed e = false → synopsis_at m f (at_leaf p) (se_synopsis e));
}.
Definition on_leaves hs es moves : Prop :=
  Forall (λ move, ld_source move.1 ≠ move.2 ∧ is_Some (hs !! ld_source move.1) ∧ is_Some (hs !! move.2) ∧ is_Some (es !! move.2)) moves.
Lemma pend_header_at f ms hs es p h : hs !! p = Some h → header_at m (pend m f ms (leaves_of hs es)) (at_leaf p) h.
Proof.
  intros E. unfold header_at, header_key. cbn [pend leaves_of la_headers rl_tree_key rl_leaf].
  by rewrite lookup_kmap, E, Z.eqb_refl by apply _.
Qed.
Lemma pend_synopsis_at f ms hs es p e : es !! p = Some e → synopsis_at m (pend m f ms (leaves_of hs es)) (at_leaf p) (se_synopsis e).
Proof.
  intros E. unfold synopsis_at, synopsis_key. cbn [pend leaves_of la_synopses rl_tree_key rl_leaf].
  by rewrite lookup_kmap, E, Z.eqb_refl by apply _.
Qed.
Lemma pend_move f ms hs es d target h0 h1 e :
  same_map (pend m f (ms ++ move_writes (d, target)) (leaves_of (<[target := h1]> (<[ld_source d := h0]> hs)) (<[target := e]> es)))
    (foldl set_typed (pend m f ms (leaves_of hs es)) (move_writes (d, target) ++
       [put_header m (at_leaf (ld_source d)) h0; put_header m (at_leaf target) h1; put_synopsis m (at_leaf target) (se_synopsis e)])).
Proof.
  unfold leaves_of. rewrite !kmap_insert by apply _. cbn [foldl app RelocationSpec.move_writes fst snd].
  etrans; [apply (pend_synopsis m f _ (mkLeaves _ (kmap (pair tree_key) es)) (at_leaf target))|]. apply set_typed_proper; [|done].
  etrans; [apply (pend_header m f _ (mkLeaves _ (kmap (pair tree_key) es)) (at_leaf target))|]. apply set_typed_proper; [|done].
  etrans; [apply (pend_header m f _ (mkLeaves (kmap (pair tree_key) hs) (kmap (pair tree_key) es)) (at_leaf (ld_source d)))|]. apply set_typed_proper; [|done].
  unfold RelocationSpec.move_writes, put_entry. cbn [fst snd].
  match goal with |- same_map (pend _ _ (_ ++ [?a; ?b; ?c]) _) _ => replace (ms ++ [a; b; c]) with (((ms ++ [a]) ++ [b]) ++ [c]) by by rewrite <-!app_assoc end.
  do 3 (etrans; [apply pend_put; by eexists|]; apply set_typed_proper; [|done]). done.
Qed.
Lemma account_moves_spec f ms moves hs es :
  accounted f hs es → on_leaves hs es moves → moves_typed moves → entries_free (foldl set_typed f ms) moves →
  no_panic (account_moves xxh3_128 m moves hs es) ∧
  ∀ hs' es', account_moves xxh3_128 m moves hs es = Ok (hs', es') →
    accounted f hs' es' ∧ dom hs' = dom hs ∧ dom es' = dom es ∧
    move_steps (pend m f ms (leaves_of hs es)) moves (pend m f (ms ++ (moves ≫= move_writes)) (leaves_of hs' es')).
Proof.
  revert ms hs es. induction moves as [|[d target] moves IH]; intros ms hs es Ha Hon Hty Hfree; cbn [account_moves].
  { split; [done|]. intros hs' es' [= <- <-]. split_and!; [done..|]. rewrite app_nil_r. by constructor. }
  apply Forall_cons_iff in Hon as [(N & [h0 E0] & [h1 E1] & [e Ee]) Hon]. apply Forall_cons_iff in Hty as [[(Bi & Ls & Lf) Lt] Hty].
  destruct Hfree as [Hfr Hfree]. cbn [fst snd] in *. rewrite E0. cbn [or_panic mbind result_bind].
  destruct (ac_headers _ _ _ Ha _ _ E0) as (Ht0 & Hp0 & Hl0). destruct (ac_headers _ _ _ Ha _ _ E1) as (Ht1 & Hp1 & Hl1).
  destruct (ac_synopses _ _ _ Ha _ _ Ee) as (Hadm & Hp & Hun).
  destruct (removed_entry h0) as [h0'|x|] eqn:Er; [|done|by apply removed_entry_no_panic in Er]. cbn [mbind result_bind].
  rewrite lookup_insert_ne, E1 by done. cbn [or_panic mbind result_bind].
  destruct (added_entry h1) as [h1'|x|] eqn:Ea; [|done|by apply added_entry_no_panic in Ea]. cbn [mbind result_bind].
  rewrite Ee. cbn [or_panic mbind result_bind].
  destruct (expand_stored xxh3_128 m Hm _ _ Hadm Lf) as [Hnp Hex].
  destruct (PartitionSynopsis_expand xxh3_128 (se_synopsis e) m (le_fields (ld_entry d))) as [[s' c]|x|] eqn:Ex; [|done|done]. cbn [mbind result_bind].
  destruct (Hex _ _ eq_refl) as (Hadm' & Hsame & _ & _).
  pose proof (removed_entry_ok _ _ Ht0 Er) as (Ht0' & _ & Eh0). pose proof (added_entry_ok _ _ Ht1 Ea) as (Ht1' & Eh1).
  destruct (IH (ms ++ move_writes (d, target)) (<[target := h1']> (<[ld_source d := h0']> hs)) (<[target := mkExpansion s' (se_changed e || c)]> es)) as [Hn Hok].
  - split.
    + intros p h [[<- <-]|[_ [[<- <-]|[_ Eh]]%lookup_insert_Some]]%lookup_insert_Some; [by rewrite Eh1 in *|by rewrite Eh0 in *|by apply Ha].
    + intros p e' [[<- <-]|[_ Es]]%lookup_insert_Some; [|by apply Ha]. split_and!; [done..|]. cbn [se_changed se_synopsis].
      intros [Hc ->]%orb_false_iff. rewrite Hsame by done. by apply Hun.
  - eapply Forall_impl; [|exact Hon]. intros [d' tg] (N' & I0 & I1 & Ie). split_and!; [done|..]; rewrite ?lookup_insert_is_Some'; auto.
  - done.
  - by rewrite foldl_app.
  - split; [done|]. intros hs' es' E. destruct (Hok _ _ E) as (Ha' & -> & -> & Hst).
    split_and!; [done|apply elem_of_dom_2 in E0, E1; set_solver|apply elem_of_dom_2 in Ee; set_solver|]. rewrite bind_cons, app_assoc. econstructor; [|exact Hst].
    econstructor; [exact N| | |exact Hl0|exact Er| |exact Hl1|exact Ea| |exact Ex|].
    + exact Hfr.
    + by apply pend_header_at.
    + by apply pend_header_at.
    + by apply pend_synopsis_at.
    + apply (pend_move f ms hs es d target h0' h1' (mkExpansion s' (se_changed e || c))).
Qed.

(** *** Writing the leaves back *)
Definition at_tree {A} (x : Z * A) : leaf_key * A := ((tree_key, x.1), x.2).
Lemma partition_order_listing {A} (leaves : gmap Z A) : listing (at_tree <$> in_partition_order leaves) (kmap (pair tree_key) leaves).
Proof.
  unfold in_partition_order. split.
  - rewrite <-list_fmap_compose. assert ((fst ∘ at_tree : Z * A → leaf_key) = pair tree_key ∘ fst) as -> by done.
    rewrite list_fmap_compose. apply NoDup_fmap_2; [apply _|]. rewrite merge_sort_Permutation. apply NoDup_fst_map_to_list.
  - intros leaf a. rewrite list_elem_of_fmap. split.
    + intros ([p a'] & [= -> ->] & Hin). rewrite merge_sort_Permutation, elem_of_map_to_list in Hin. by rewrite lookup_kmap by apply _.
    + intros (p & -> & E)%lookup_kmap_Some; [|apply _]. exists (p, a). split; [done|]. by rewrite merge_sort_Permutation, elem_of_map_to_list.
Qed.
Lemma partition_order_forall {A} (P : Z * A → Prop) (leaves : gmap Z A) :
  (∀ p a, leaves !! p = Some a → P (p, a)) → Forall P (in_partition_order leaves).
Proof.
  intros HP. apply Forall_forall. intros [p a] Hin%list_elem_of_In. apply HP. unfold in_partition_order in Hin.
  by rewrite merge_sort_Permutation, elem_of_map_to_list in Hin.
Qed.
Lemma put_headers_spec f t (l : list (Z * PartitionHeader)) :
  over f t → bytes_ok tree_key → Forall (λ x, header_typed x.2 ∧ id_ok x.1) l →
  wp (put_headers xxh3_128 sha256 ix tree_key l)
    (λ _ t', typed_wrote t t' (foldl set_typed f (header_puts m (at_tree <$> l)))) (λ _ t', same_txn t t') t.
Proof.
  intros Ho Htk Hl. revert f t Ho. induction Hl as [|[p h] l [Hh Hp] _ IH]; intros f t Ho; cbn [put_headers].
  { apply wp_ret. by apply over_wrote_refl. }
  eapply wp_step; [eapply (over_put xxh3_128 sha256 m types); [exact Ho|]|done|].
  { split; [by pose proof ix_ok|]. intros x [= <-]. by apply header_writable. }
  intros [] t1 Hw. eapply wp_mono; [apply IH; by eapply over_wrote| |].
  - intros [] t' Hw'. by eapply wrote_trans.
  - intros e t' Hs. etrans; [apply Hw|done].
Qed.
Lemma put_synopses_spec f t (l : list (Z * SynopsisExpansion)) :
  over f t → bytes_ok tree_key → Forall (λ x, admits (synopsis_family xxh3_128 m Hm) (se_synopsis x.2) ∧ id_ok x.1) l →
  wp (put_synopses xxh3_128 sha256 ix tree_key l)
    (λ _ t', typed_wrote t t' (foldl set_typed f (synopsis_puts m (at_tree <$> l)))) (λ _ t', same_txn t t') t.
Proof.
  intros Ho Htk Hl. revert f t Ho. induction Hl as [|[p e] l [He Hp] _ IH]; intros f t Ho; cbn [put_synopses].
  { apply wp_ret. by apply over_wrote_refl. }
  rewrite fmap_cons. unfold synopsis_puts. rewrite filter_cons. cbn [at_tree fst snd]. cbn [fst snd] in He, Hp. destruct (se_changed e).
  - rewrite decide_True by done. eapply wp_step; [eapply (over_put xxh3_128 sha256 m types); [exact Ho|]|done|].
    { split; [by pose proof ix_ok|]. intros x [= <-]. by apply synopsis_writable. }
    intros [] t1 Hw. eapply wp_mono; [apply IH; by eapply over_wrote| |].
    + intros [] t' Hw'. by eapply wrote_trans.
    + intros x t' Hs. etrans; [apply Hw|done].
  - rewrite decide_False by done. apply wp_bind, wp_ret. by apply IH.
Qed.

Definition relocation_writes moves hs es : list (LogicalKey.t * option PersistentValue.t) :=
  (moves ≫= move_writes) ++ header_puts m (at_tree <$> in_partition_order hs) ++ synopsis_puts m (at_tree <$> in_partition_order es).
Definition source_set moves : gset Z := list_to_set (ld_source ∘ fst <$> moves).
Definition target_set moves : gset Z := list_to_set moves.*2.

(** *** Reading the leaves *)
Definition role_header f (movement : Movement.t) (sources targets : gset Z) p h : Prop :=
  id_ok p ∧ header_at m f (at_leaf p) h ∧ ph_level h = 1 ∧
  (p ∈ sources → ph_state h = source_state movement) ∧ (p ∈ targets → ph_state h = target_state movement).
Lemma expect_header_no_panic v : no_panic (expect_header v).
Proof. by destruct v as [[]|]. Qed.
Lemma expect_present_header v :
  no_panic (expect_header v ≫= ok_or Corruption) ∧
  ∀ h, expect_header v ≫= ok_or Corruption = Ok h → v = Some (PersistentValue.PartitionHeader h).
Proof. destruct v as [[]|]; cbn; (split; [done|]); intros ? [=]; congruence. Qed.
Lemma expect_present_synopsis v :
  no_panic (expect_synopsis v ≫= ok_or Corruption) ∧
  ∀ s, expect_synopsis v ≫= ok_or Corruption = Ok s → v = Some (PersistentValue.PartitionSynopsis s).
Proof. destruct v as [[]|]; cbn; (split; [done|]); intros ? [=]; congruence. Qed.
Lemma collect_headers_spec f movement sources targets partitions values acc :
  Forall2 (λ p v, f (LogicalKey.Header ix tree_key p) = Ok v) partitions values → Forall id_ok partitions →
  map_Forall (role_header f movement sources targets) acc →
  no_panic (collect_headers movement sources targets partitions values acc) ∧
  ∀ hs, collect_headers movement sources targets partitions values acc = Ok hs →
    map_Forall (role_header f movement sources targets) hs ∧ ∀ p, is_Some (hs !! p) ↔ is_Some (acc !! p) ∨ p ∈ partitions.
Proof.
  intros Hv Hids. revert acc. induction Hv as [|p v partitions values Hpv _ IH]; intros acc Ha; cbn [collect_headers].
  { split; [done|]. intros hs [= <-]. split; [done|]. intros p. rewrite elem_of_nil. tauto. }
  apply Forall_cons_iff in Hids as [Hid Hids]. destruct (expect_present_header v) as [Hn Hh]. destruct (expect_header v ≫= ok_or Corruption) as [h|x|]; [|done|done].
  cbn [mbind result_bind]. case_match eqn:Ec; [done|]. bprop. destruct Ec as [[Hlev Hs] Ht].
  specialize (Hh _ eq_refl). destruct (IH Hids (<[p := h]> acc)) as [Hnp Hok].
  - apply map_Forall_insert_2; [|done]. split_and!; [done|by unfold header_at; rewrite <-Hh|done|..]; intros Hin.
    + destruct (decide (ph_state h = source_state movement)); tauto.
    + destruct (decide (ph_state h = target_state movement)); tauto.
  - split; [done|]. intros hs E. destruct (Hok _ E) as [Hr Hd]. split; [done|]. intros q. rewrite Hd, lookup_insert_is_Some', elem_of_cons. naive_solver.
Qed.
Definition stored_synopsis f p (e : SynopsisExpansion) : Prop :=
  id_ok p ∧ se_changed e = false ∧ synopsis_at m f (at_leaf p) (se_synopsis e).
Lemma collect_synopses_spec f targets values acc :
  Forall2 (λ p v, f (LogicalKey.Synopsis ix tree_key p) = Ok v) targets values → Forall id_ok targets → map_Forall (stored_synopsis f) acc →
  no_panic (collect_synopses targets values acc) ∧
  ∀ es, collect_synopses targets values acc = Ok es →
    map_Forall (stored_synopsis f) es ∧ ∀ p, is_Some (es !! p) ↔ is_Some (acc !! p) ∨ p ∈ targets.
Proof.
  intros Hv Hids. revert acc. induction Hv as [|p v targets values Hpv _ IH]; intros acc Ha; cbn [collect_synopses].
  { split; [done|]. intros es [= <-]. split; [done|]. intros p. rewrite elem_of_nil. tauto. }
  apply Forall_cons_iff in Hids as [Hid Hids]. destruct (expect_present_synopsis v) as [Hn Hs]. destruct (expect_synopsis v ≫= ok_or Corruption) as [s|x|]; [|done|done].
  cbn [mbind result_bind]. specialize (Hs _ eq_refl). destruct (IH Hids (<[p := mkExpansion s false]> acc)) as [Hnp Hok].
  - apply map_Forall_insert_2; [|done]. split_and!; [done..|]. unfold synopsis_at. cbn [se_synopsis]. by rewrite <-Hs.
  - split; [done|]. intros es E. destruct (Hok _ E) as [Hr Hd]. split; [done|]. intros q. rewrite Hd, lookup_insert_is_Some', elem_of_cons. naive_solver.
Qed.

(** *** The whole batch *)
Definition move_legal f (movement : Movement.t) (move : LeafDrainEntry * Z) : Prop :=
  ∃ h0 h1, header_at m f (at_leaf (ld_source move.1)) h0 ∧ ph_level h0 = 1 ∧ ph_state h0 = source_state movement ∧
    header_at m f (at_leaf move.2) h1 ∧ ph_level h1 = 1 ∧ ph_state h1 = target_state movement.
Lemma set_in_order_elem (s : gset Z) p : p ∈ set_in_order s ↔ p ∈ s.
Proof. unfold set_in_order. by rewrite merge_sort_Permutation, elem_of_elements. Qed.
Lemma moves_partitions moves p :
  moves_typed moves → p ∈ source_set moves ∪ target_set moves → id_ok p.
Proof.
  intros Hty Hp. apply elem_of_union in Hp as [Hp|Hp]; apply elem_of_list_to_set, list_elem_of_fmap in Hp as (move & -> & Hin);
    apply list_elem_of_In in Hin; eapply Forall_forall in Hty as [(_ & [_ ?] & _) [_ ?]]; done.
Qed.
Lemma read_accounted f t movement hs es (sources targets : gset Z) :
  over f t → bytes_ok tree_key → map_Forall (role_header f movement sources targets) hs → map_Forall (stored_synopsis f) es → accounted f hs es.
Proof.
  intros Ho Htk Hh He. pose proof ix_ok. split.
  - intros p h (? & Hat & ? & _)%Hh. split_and!; try done.
    apply (over_value xxh3_128 sha256 m types f t) in Hat as [Hv _]; [|done|done]. by destruct Hv as (? & ? & _ & [? _]).
  - intros p e (? & Hc & Hat)%He. split_and!; try done. apply (over_value xxh3_128 sha256 m types f t) in Hat as [Hv _]; [|done|done].
    destruct Hv as (m' & Hm' & [= <-] & Ha). exact Ha.
Qed.
Lemma read_pend f hs es movement (sources targets : gset Z) :
  map_Forall (role_header f movement sources targets) hs → map_Forall (stored_synopsis f) es →
  same_map (pend m f [] (leaves_of hs es)) f.
Proof.
  intros Hh He key _. destruct key; cbn [pend foldl leaves_of la_headers la_synopses]; try done.
  - destruct (kmap (pair tree_key) hs !! _) as [h|] eqn:E; [|done]. apply lookup_kmap_Some in E as (p & [= -> ->] & E); [|apply _].
    apply Hh in E as (_ & Hat & _). destruct (Z.eqb_spec index ix) as [->|]; [|done]. by rewrite <-Hat.
  - destruct (kmap (pair tree_key) es !! _) as [e|] eqn:E; [|done]. apply lookup_kmap_Some in E as (p & [= -> ->] & E); [|apply _].
    apply He in E as (_ & _ & Hat). destruct (Z.eqb_spec index ix) as [->|]; [|done]. by rewrite <-Hat.
Qed.
Lemma move_writes_member moves k v : (k, v) ∈ (moves ≫= move_writes) → is_Some (member_id k).
Proof.
  intros (move & Hin & _)%list_elem_of_bind. unfold RelocationSpec.move_writes in Hin.
  repeat (apply elem_of_cons in Hin as [[= -> _]|Hin]; [by eexists|]). by apply elem_of_nil in Hin.
Qed.
Lemma move_steps_ext f f' moves g : bytes_ok tree_key → moves_typed moves → same_map f f' → move_steps f moves g → move_steps f' moves g.
Proof.
  intros Htk Hty E Hs. pose proof ix_ok. destruct Hs as [f g E'|f move g moves h Hst Hs].
  { constructor. by rewrite E'. }
  apply Forall_cons_iff in Hty as [[(? & [? ?] & _) [? ?]] _]. econstructor; [|exact Hs].
  inversion Hst as [d target h0 h0' h1 h1' s s' c ? N Hfr Hh0 ? ? Hh1 ? ? Hs0 ? Hg]; subst. cbn [fst snd rl_tree_key rl_leaf] in *.
  unfold header_at, synopsis_at in *. rewrite E in Hfr, Hh0, Hh1, Hs0 by done. econstructor; try done. by rewrite <-E.
Qed.
Lemma move_roles moves move :
  In move moves → ld_source move.1 ∈ source_set moves ∧ move.2 ∈ target_set moves.
Proof. intros Hin%list_elem_of_In. split; apply elem_of_list_to_set, list_elem_of_fmap; by exists move. Qed.
Lemma moves_on_leaves moves hs es :
  existsb (λ '(drain, target), ld_source drain =? target) moves = false →
  dom hs = source_set moves ∪ target_set moves → dom es = target_set moves → on_leaves hs es moves.
Proof.
  intros Ex Hdh Hde. apply Forall_forall. intros move Hin. destruct (move_roles moves move Hin) as [Hs Ht]. split_and!.
  - intros E. rewrite (proj2 (existsb_exists _ _)) in Ex; [done|]. exists move. split; [done|]. destruct move. by apply Z.eqb_eq.
  - apply elem_of_dom. rewrite Hdh. by apply elem_of_union_l.
  - apply elem_of_dom. rewrite Hdh. by apply elem_of_union_r.
  - apply elem_of_dom. by rewrite Hde.
Qed.
Lemma collected_dom {A} (c : gmap Z A) (s : gset Z) : (∀ p, is_Some (c !! p) ↔ is_Some ((∅ : gmap Z A) !! p) ∨ p ∈ set_in_order s) → dom c = s.
Proof.
  intros Hc. apply set_eq. intros p. rewrite elem_of_dom, Hc, lookup_empty, set_in_order_elem. split; [|by right]. by intros [[]|].
Qed.
Lemma relocation_flushed f moves hs es :
  accounted f hs es → same_map (foldl set_typed f (relocation_writes moves hs es)) (pend m f (moves ≫= move_writes) (leaves_of hs es)).
Proof.
  intros Hacc. apply flushed_pend.
  - intros k v. apply move_writes_member.
  - apply partition_order_listing.
  - apply partition_order_listing.
  - intros tk p e. cbn [leaves_of la_synopses]. intros (q & [= -> ->] & E)%lookup_kmap_Some; [|apply _].
    by apply (ac_synopses _ _ _ Hacc) in E as (_ & _ & ?).
Qed.
Lemma relocate_spec f t moves movement :
  over f t → bytes_ok tree_key → moves_typed moves → entries_stored moves →
  wp (relocate_leaf_entries xxh3_128 sha256 tree_key moves movement)
    (λ n t', n = len moves ∧ Forall (move_legal f movement) moves ∧
       ∃ hs es, dom hs = source_set moves ∪ target_set moves ∧ dom es = target_set moves ∧
         typed_wrote t t' (foldl set_typed f (relocation_writes moves hs es)) ∧
         ∃ g, same_map g (foldl set_typed f (relocation_writes moves hs es)) ∧ move_steps f moves g)
    (λ _ t', same_txn t t') t.
Proof.
  intros Ho Htk Hty Hst. pose proof ix_ok as Hix. destruct (decide (moves = [])) as [->|Hne].
  { apply wp_ret. split_and!; [done|constructor|]. exists ∅, ∅. split_and!; [done..|by apply over_wrote_refl|].
    exists f. split; [done|by constructor]. }
  unfold relocate_leaf_entries. destruct moves as [|move0 rest]; [done|]. set (moves := move0 :: rest) in *. clearbody moves. clear move0 rest.
  apply wp_bind, wp_get. unfold require_bound_manifest. rewrite (bd_manifest _ _ _ (ov_bound _ _ _ _ _ _ Ho)).
  apply wp_bind, wp_lift; [done| |done]. intros _ [= <-]. cbv zeta.
  fold (source_set moves) (target_set moves). set (sources := source_set moves). set (targets := target_set moves).
  destruct (existsb _ moves) eqn:Ex; [by apply wp_lift|].
  assert (Forall id_ok (set_in_order (sources ∪ targets))) as Hps.
  { apply Forall_forall. intros p Hp%list_elem_of_In. apply (moves_partitions moves p Hty). by apply set_in_order_elem. }
  assert (Forall id_ok (set_in_order targets)) as Hts.
  { apply Forall_forall. intros p Hp%list_elem_of_In%set_in_order_elem. apply (moves_partitions moves p Hty). by apply elem_of_union_r. }
  eapply wp_step; [apply (over_batch xxh3_128 sha256 m types f); [done|]|by intros e t' [_ _ ? _]|].
  { apply Forall_fmap. eapply Forall_impl; [|exact Hps]. done. }
  intros vs t1 (Hvs & Hr1 & _). pose proof (over_reads _ _ _ _ _ _ _ Ho Hr1) as Ho1. rewrite Forall2_fmap_l in Hvs.
  destruct (collect_headers_spec f movement sources targets _ _ ∅ Hvs Hps) as [Hn1 Hc1]; [apply map_Forall_empty|].
  apply wp_bind, wp_lift; [done| |by intros e _; apply Hr1]. intros hs Hhs. apply Hc1 in Hhs as [Hhs Hdh%collected_dom].
  eapply wp_step; [apply (over_batch xxh3_128 sha256 m types f); [done|]|intros e t' [_ _ ? _]; etrans; [apply Hr1|done]|].
  { apply Forall_fmap. eapply Forall_impl; [|exact Hts]. done. }
  intros vs' t2 (Hvs' & Hr2 & _). pose proof (over_reads _ _ _ _ _ _ _ Ho1 Hr2) as Ho2. rewrite Forall2_fmap_l in Hvs'.
  assert (reads t t2) as Hr by by etrans.
  destruct (collect_synopses_spec f _ _ ∅ Hvs' Hts) as [Hn2 Hc2]; [apply map_Forall_empty|].
  apply wp_bind, wp_lift; [done| |by intros e _; apply Hr]. intros es Hes. apply Hc2 in Hes as [Hes Hde%collected_dom].
  eapply wp_step; [by apply (move_entries_spec f)|intros e t' Hs; etrans; [apply Hr|done]|]. intros [] t3 [Hfree Hw3].
  pose proof (over_wrote _ _ _ _ _ _ _ _ Ho2 Hw3) as Ho3. pose proof (reads_wrote _ _ _ _ _ _ Hr Hw3) as Hw03.
  pose proof (moves_on_leaves moves hs es Ex Hdh Hde) as Hon.
  destruct (account_moves_spec f [] moves hs es) as [Hn3 Hc3]; [by eapply (read_accounted f t)|done..|].
  apply wp_bind, wp_lift; [done| |by intros e _; apply Hw03]. intros [hs' es'] Hacc. apply Hc3 in Hacc as (Hacc & Edh & Ede & Hsteps). cbn [fst snd].
  eapply wp_step; [eapply put_headers_spec; [exact Ho3|done|]|intros e t' Hs; etrans; [apply Hw03|done]|].
  { apply partition_order_forall. intros p h E. by destruct (ac_headers _ _ _ Hacc _ _ E) as (? & ? & _). }
  intros [] t4 Hw4. pose proof (over_wrote _ _ _ _ _ _ _ _ Ho3 Hw4) as Ho4. assert (typed_wrote t t4 _) as Hw04 by by eapply wrote_trans.
  eapply wp_step; [eapply put_synopses_spec; [exact Ho4|done|]|intros e t' Hs; etrans; [apply Hw04|done]|].
  { apply partition_order_forall. intros p e E. by destruct (ac_synopses _ _ _ Hacc _ _ E) as (? & ? & _). }
  intros [] t5 Hw5. apply wp_ret. split_and!; [done| |].
  - apply Forall_forall. intros move Hin. pose proof Hon as Hon'. eapply Forall_forall in Hon' as (_ & [h0 E0] & [h1 E1] & _); [|exact Hin].
    pose proof (Hhs _ _ E0) as (_ & ? & ? & Hs0 & _). pose proof (Hhs _ _ E1) as (_ & ? & ? & _ & Ht1).
    destruct (move_roles moves move Hin) as [? ?]. exists h0, h1. split_and!; auto.
  - exists hs', es'. split_and!; [congruence..| |].
    + unfold relocation_writes. rewrite !foldl_app. by eapply wrote_trans.
    + exists (pend m f (moves ≫= move_writes) (leaves_of hs' es')). split; [symmetry; by apply relocation_flushed|].
      eapply move_steps_ext; [done..|by eapply read_pend|done].
Qed.

(** *** The candidates *)
Definition candidate_typed (c : Z * list Z) : Prop := id_ok c.1 ∧ bytes_ok c.2.
(** A slot tells the truth of the map it was read from. *)
Definition slot_at f (c : Z * list Z) (slot : option LeafDrainEntry) : Prop :=
  match slot with
  | None => f (entry_key ix (at_leaf c.1) c.2) = Ok None
  | Some d => ld_source d = c.1 ∧ drain_id d = c.2 ∧ drain_at m tree_key f d
  end.
Definition present_at f (candidates : list (Z * list Z)) (x : nat * LeafEntry) : Prop :=
  ∃ c, candidates !! x.1 = Some c ∧ le_record_id x.2 = c.2 ∧ entry_at m f (at_leaf c.1) c.2 x.2.
Lemma present_entries_spec f candidates values position :
  Forall2 (λ c v, f (LogicalKey.LeafEntry ix tree_key c.1 c.2) = Ok v) candidates values →
  no_panic (present_entries position candidates values) ∧
  ∀ present, present_entries position candidates values = Ok present →
    NoDup present.*1 ∧ (∀ i e, (i, e) ∈ present → ∃ j, i = (position + j)%nat ∧ present_at f candidates (j, e)) ∧
    ∀ j c, candidates !! j = Some c → f (entry_key ix (at_leaf c.1) c.2) = Ok None ∨ ∃ e, ((position + j)%nat, e) ∈ present.
Proof.
  intros Hv. revert position. induction Hv as [|[src id] v candidates values Hcv _ IH]; intros position; cbn [present_entries].
  { split; [done|]. intros present [= <-]. split_and!; [constructor|by intros ? ? ?%elem_of_nil|done]. }
  destruct (IH (S position)) as [Hn Hok].
  assert (expect_leaf_entry v = Err Corruption ∨ (v = None ∧ expect_leaf_entry v = Ok None) ∨
    ∃ e, v = Some (PersistentValue.LeafEntry e) ∧ expect_leaf_entry v = Ok (Some e)) as [->|[(-> & ->)|(e & -> & ->)]]
    by (destruct v as [[]|]; cbn; eauto 6); cbn [mbind result_bind]; [done| |].
  - split; [done|]. intros present (Hnd & Hin & Hall)%Hok. split_and!; [done|..].
    + intros i e (j & -> & c & Hc & ?)%Hin. exists (S j). split; [lia|]. by exists c.
    + intros [|j] c; cbn [lookup list_lookup]; [intros [= <-]; by left|]. intros Hc. destruct (Hall _ _ Hc) as [|[e ?]]; [by left|].
      right. exists e. by replace (position + S j)%nat with (S position + j)%nat by lia.
  - case_decide as Eid; [|done]. destruct (present_entries (S position) candidates values) as [rest|x|]; [|done|done]. cbn [mbind result_bind].
    split; [done|]. intros present [= <-]. destruct (Hok _ eq_refl) as (Hnd & Hin & Hall). split_and!.
    + rewrite fmap_cons. apply list.NoDup_cons. split; [|done]. intros ([i e'] & E & Hi)%list_elem_of_fmap. cbn in E. subst i.
      apply Hin in Hi as (j & ? & _). lia.
    + intros i e' [[= -> ->]|Hi]%elem_of_cons; [exists 0%nat; split; [lia|]; by exists (src, id)|].
      apply Hin in Hi as (j & -> & c & Hc & ?). exists (S j). split; [lia|]. by exists c.
    + intros [|j] c; cbn [lookup list_lookup].
      * intros [= <-]. right. exists e. rewrite Nat.add_0_r. by left.
      * intros Hc. destruct (Hall _ _ Hc) as [|[e' ?]]; [by left|]. right. exists e'.
        replace (position + S j)%nat with (S position + j)%nat by lia. by right.
Qed.
Lemma expect_present_location v :
  no_panic (expect_location v ≫= ok_or Corruption) ∧
  ∀ l, expect_location v ≫= ok_or Corruption = Ok l → v = Some (PersistentValue.RecordLocation l).
Proof. destruct v as [[]|]; cbn; (split; [done|]); intros ? [=]; congruence. Qed.
Lemma expect_present_record v :
  no_panic (expect_record v ≫= ok_or Corruption) ∧
  ∀ r, expect_record v ≫= ok_or Corruption = Ok r → v = Some (PersistentValue.VectorRecord r).
Proof. destruct v as [[]|]; cbn; (split; [done|]); intros ? [=]; congruence. Qed.
Lemma fill_slots_spec f candidates present locations records slots :
  Forall (present_at f candidates) present → NoDup present.*1 → length slots = length candidates →
  Forall2 (λ x v, f (location_key ix (le_record_id x.2)) = Ok v) present locations →
  Forall2 (λ x v, f (record_key ix (le_record_id x.2)) = Ok v) present records →
  no_panic (fill_slots tree_key candidates present locations records slots) ∧
  ∀ slots', fill_slots tree_key candidates present locations records slots = Ok slots' →
    length slots' = length candidates ∧ (∀ j, j ∉ present.*1 → slots' !! j = slots !! j) ∧
    ∀ j e, (j, e) ∈ present → ∃ c d, candidates !! j = Some c ∧ slots' !! j = Some (Some d) ∧ slot_at f c (Some d).
Proof.
  intros Hp Hnd Hlen Hl. revert records slots Hp Hnd Hlen.
  induction Hl as [|[i e] lv present locations Hlv _ IH]; intros records slots Hp Hnd Hlen Hr; cbn [fill_slots].
  { split; [done|]. intros slots' [= <-]. split_and!; [done|done|by intros ? ? ?%elem_of_nil]. }
  destruct records as [|rv records]; [by inversion Hr|]. apply Forall2_cons_1 in Hr as [Hrv Hr].
  apply Forall_cons_iff in Hp as [(c & Hc & Eid & Hent) Hp]. rewrite fmap_cons in Hnd. apply list.NoDup_cons in Hnd as [Hni Hnd]. cbn [fst snd] in *.
  destruct (expect_present_location lv) as [Hn1 H1']. destruct (expect_location lv ≫= ok_or Corruption) as [l|x|]; [|done|done].
  cbn [mbind result_bind]. rewrite Hc. cbn [or_panic mbind result_bind]. case_decide as Etk; [|done].
  destruct (Z.eqb_spec (rl_leaf l) c.1) as [Elf|]; [|done].
  destruct (expect_present_record rv) as [Hn2 H2']. destruct (expect_record rv ≫= ok_or Corruption) as [r|x|]; [|done|done].
  cbn [mbind result_bind]. case_decide as Erid; [|done].
  specialize (H1' _ eq_refl). specialize (H2' _ eq_refl).
  destruct (IH records (<[i := Some (mkDrain c.1 e r)]> slots)) as [Hn Hok]; [done|done|by rewrite length_insert|done|].
  split; [done|]. intros slots' (Hlen' & Hother & Hin)%Hok. split_and!; [done|..].
  - intros j [Hj ?]%not_elem_of_cons. rewrite Hother by done. cbn [fst] in Hj. by rewrite list_lookup_insert_ne by congruence.
  - intros j e' [[= -> ->]|Hj]%elem_of_cons; [|by eapply Hin]. exists c, (mkDrain c.1 e r). split_and!; [done|..].
    + rewrite Hother by done. apply list_lookup_insert_eq. rewrite Hlen. by eapply lookup_lt_Some.
    + split; [done|]. split; [done|]. unfold drain_at, located_at, record_at, entry_at, drain_id in *. cbn [ld_entry ld_source ld_record]. rewrite Eid in *. split_and!; [done|..].
      * rewrite Hlv, H1'. destruct l. cbn in *. by subst.
      * by rewrite Hrv, H2'.
Qed.
Lemma read_candidates_spec f t candidates :
  over f t → bytes_ok tree_key → Forall candidate_typed candidates →
  wp (read_leaf_drain_candidates xxh3_128 sha256 tree_key candidates)
    (λ slots t', reads t t' ∧ Forall2 (slot_at f) candidates slots) (λ _ t', reads t t') t.
Proof.
  intros Ho Htk Hc. pose proof ix_ok as Hix. unfold read_leaf_drain_candidates.
  apply wp_bind, wp_get. unfold require_bound_manifest. rewrite (bd_manifest _ _ _ (ov_bound _ _ _ _ _ _ Ho)).
  pose proof (over_refl _ _ _ _ _ _ Ho) as Hr0. apply wp_bind, wp_lift; [done| |done]. intros _ [= <-]. cbv zeta.
  eapply wp_step; [apply (over_batch xxh3_128 sha256 m types f); [done|]|done|].
  { apply Forall_fmap. eapply Forall_impl; [|exact Hc]. by intros [src id] [? ?]. }
  intros vs t1 (Hvs & Hr1 & _). pose proof (over_reads _ _ _ _ _ _ _ Ho Hr1) as Ho1. rewrite Forall2_fmap_l in Hvs.
  destruct (present_entries_spec f candidates vs 0) as [Hn Hok].
  { eapply Forall2_impl; [|exact Hvs]. by intros [src id] v. }
  apply wp_bind, wp_lift; [done| |done]. intros present (Hnd & Hin & Hall)%Hok.
  assert (Forall (present_at f candidates) present) as Hpa.
  { apply Forall_forall. intros [i e] (j & -> & ?)%list_elem_of_In%Hin. done. }
  assert (Forall (λ x : nat * LeafEntry, bytes_ok (le_record_id x.2)) present) as Hb.
  { eapply Forall_impl; [|exact Hpa]. intros [i e] (c & Hci & -> & _). eapply Forall_lookup_1 in Hc as [_ ?]; done. }
  eapply wp_step; [apply (over_batch xxh3_128 sha256 m types f); [done|]|intros e t' ?; by etrans|].
  { apply Forall_fmap. eapply Forall_impl; [|exact Hb]. by intros [i e]. }
  intros ls t2 (Hls & Hr2 & _). pose proof (over_reads _ _ _ _ _ _ _ Ho1 Hr2) as Ho2. rewrite Forall2_fmap_l in Hls.
  assert (reads t t2) as Hr02 by by etrans.
  eapply wp_step; [apply (over_batch xxh3_128 sha256 m types f); [done|]|intros e t' ?; by etrans|].
  { apply Forall_fmap. eapply Forall_impl; [|exact Hb]. by intros [i e]. }
  intros rs t3 (Hrs & Hr3 & _). rewrite Forall2_fmap_l in Hrs. assert (reads t t3) as Hr03 by by etrans.
  destruct (fill_slots_spec f candidates present ls rs ((λ _, None) <$> candidates)) as [Hn' Hok']; [done|done|by rewrite length_fmap|..].
  { eapply Forall2_impl; [|exact Hls]. by intros [i e] v. }
  { eapply Forall2_impl; [|exact Hrs]. by intros [i e] v. }
  apply wp_lift; [done| |done]. intros slots (Hlen & Hother & Hslot)%Hok'. split; [done|].
  apply Forall2_same_length_lookup_2; [done|]. intros j c slot Hj Hs.
  destruct (decide (j ∈ present.*1)) as [([i e] & -> & Hp)%list_elem_of_fmap|Hp].
  - destruct (Hslot _ _ Hp) as (c' & d & Hc' & Hd & Hat). cbn [fst] in *. by simplify_eq.
  - rewrite Hother in Hs by done. apply list_lookup_fmap_Some in Hs as (c' & -> & Hc'). destruct (Hall _ _ Hj) as [|[e He]]; [done|].
    destruct Hp. apply list_elem_of_fmap. by exists (j, e).
Qed.
End relocating.

Lemma moved_at_ext m tree_key f g move :
  manifest_ok m → drain_typed tree_key move.1 → location_typed (mkLocation tree_key move.2) → same_map f g →
  moved_at m tree_key f move → moved_at m tree_key g move.
Proof.
  intros Hm (? & [? ?] & _) [? ?] E. assert (id_ok (im_logical_index_id m)) by by destruct Hm.
  unfold moved_at, entry_at, located_at, record_at. by rewrite !E.
Qed.
(** A candidate that was read is well formed. *)
Lemma slot_typed {T} `{WriteLaws T} xxh3_128 sha256 m types tree_key f (t : WriteLogicalTxn T) c d :
  manifest_ok m → over xxh3_128 sha256 m types f t → bytes_ok tree_key → candidate_typed c → slot_at m tree_key f c (Some d) →
  drain_typed tree_key d ∧ drain_at m tree_key f d ∧ value_ok xxh3_128 sha256 (Some m) (PersistentValue.LeafEntry (ld_entry d)).
Proof.
  intros Hm Ho Htk [Hsrc Hid] (Es & Ei & Hat). rewrite <-Es in Hsrc. rewrite <-Ei in Hid. assert (id_ok (im_logical_index_id m)) by by destruct Hm.
  pose proof Hat as (Hent & _ & _). apply (over_value xxh3_128 sha256 m types f t) in Hent as [Hv _]; [|done|done].
  split_and!; [|done|done]. split_and!; [done|done|]. by destruct Hv as (? & ? & _ & [(_ & ? & _) _]).
Qed.

(** A fresh empty leaf keeps membership intact. *)
Lemma new_leaf_intact xxh3_128 m Hm f g l h :
  location_typed l → f (header_key (im_logical_index_id m) l) = Ok None → ph_entry_count h = 0 → intact xxh3_128 m Hm f →
  same_map g (foldl set_typed f [put_header m l h; put_synopsis m l (PartitionSynopsis_empty m)]) → intact xxh3_128 m Hm g.
Proof.
  intros Hl Hno Hz Hf Hg. assert (id_ok (im_logical_index_id m)) as Hix by by destruct Hm.
  assert (∀ l', location_typed l' → g (header_key (im_logical_index_id m) l') =
    if decide (l' = l) then Ok (Some (PersistentValue.PartitionHeader h)) else f (header_key (im_logical_index_id m) l')) as Hhd.
  { intros l' [? ?]. rewrite Hg by done. cbn [foldl]. unfold put_header, put_synopsis. rewrite set_typed_ne by done.
    case_decide as E; [subst l'; by rewrite set_typed_eq|]. rewrite set_typed_ne; [done|]. by intros ?%header_key_inj. }
  assert (∀ l', location_typed l' → g (synopsis_key (im_logical_index_id m) l') =
    if decide (l' = l) then Ok (Some (PersistentValue.PartitionSynopsis (PartitionSynopsis_empty m))) else f (synopsis_key (im_logical_index_id m) l')) as Hsy.
  { intros l' [? ?]. rewrite Hg by done. cbn [foldl]. unfold put_header, put_synopsis.
    case_decide as E; [subst l'; by rewrite set_typed_eq|]. rewrite set_typed_ne by by intros ?%synopsis_key_inj. by rewrite set_typed_ne. }
  apply (quiet_intact _ _ _ f); [done|]. split; unfold header_at, synopsis_at in *.
  - intros key w Hk [id Hid] _. rewrite Hg by done. cbn [foldl]. unfold put_header, put_synopsis. rewrite !set_typed_ne; [done|..]; by intros <-.
  - intros l' h' Hl'. rewrite Hhd by done. case_decide as E; [subst l'; intros [= <-] _; right; split; [|done]; congruence|].
    intros Hh Hlev. left. by exists h'.
  - intros l' h' Hl' Hh Hlev. rewrite Hhd by done. case_decide; [subst l'; congruence|left; by exists h'].
  - intros l' s Hl'. rewrite Hsy by done. case_decide as E; [subst l'; intros [= <-]|by left]. right. split; [apply empty_synopsis_admitted|]. congruence.
Qed.

(** C9: A leaf drain or refinement batch keeps membership intact, for splits,
    merges and refinements: the candidates read in the transaction are the
    entries that are still there, with their Records; moving any selection of
    them (each record at most once) that succeeds has moved every one from a
    source to a target in the states the movement names, one after the other,
    entry and Record unchanged, with the Location, both exact counts, both cache
    epochs and the target Synopsis following; each touched leaf is written once;
    and the batch never panics. *)
Theorem leaf_relocation_keeps_membership {T} `{WriteLaws T} xxh3_128 sha256 m (Hm : manifest_ok m) types tree_key candidates moves movement
    (t t1 t2 : WriteLogicalTxn T) slots r :
  bound t m types → intact xxh3_128 m Hm (typed_view xxh3_128 sha256 t) → bytes_ok tree_key → Forall candidate_typed candidates →
  read_leaf_drain_candidates xxh3_128 sha256 tree_key candidates t = (t1, Ok slots) →
  Forall (λ move, Some move.1 ∈ slots ∧ id_ok move.2) moves → NoDup (drain_id ∘ fst <$> moves) →
  relocate_leaf_entries xxh3_128 sha256 tree_key moves movement t1 = (t2, r) →
  Forall2 (slot_at m tree_key (typed_view xxh3_128 sha256 t)) candidates slots ∧ no_panic r ∧
  ∀ n, r = Ok n →
    n = len moves ∧ Forall (move_legal m tree_key (typed_view xxh3_128 sha256 t) movement) moves ∧
    (∃ g, same_map (typed_view xxh3_128 sha256 t2) g ∧ move_steps xxh3_128 m tree_key (typed_view xxh3_128 sha256 t) moves g) ∧
    (∃ hs es, dom hs = source_set moves ∪ target_set moves ∧ dom es = target_set moves ∧
       same_map (typed_view xxh3_128 sha256 t2) (foldl set_typed (typed_view xxh3_128 sha256 t) (relocation_writes m tree_key moves hs es))) ∧
    intact xxh3_128 m Hm (typed_view xxh3_128 sha256 t2) ∧ Forall (moved_at m tree_key (typed_view xxh3_128 sha256 t2)) moves.
Proof.
  intros Hb Hi Htk Hc Hread Hmv Hnd Hrel. set (f := typed_view xxh3_128 sha256 t) in *.
  assert (over xxh3_128 sha256 m types f t) as Ho by by split.
  pose proof (wp_ok _ _ _ _ _ _ (read_candidates_spec xxh3_128 sha256 m Hm types tree_key f t candidates Ho Htk Hc) Hread) as [Hr Hslots].
  split; [done|]. pose proof (over_reads _ _ _ _ _ _ _ Ho Hr) as Ho1.
  assert (Forall (λ move, (drain_typed tree_key move.1 ∧ location_typed (mkLocation tree_key move.2)) ∧ drain_at m tree_key f move.1 ∧
    value_ok xxh3_128 sha256 (Some m) (PersistentValue.LeafEntry (ld_entry move.1))) moves) as Hall.
  { eapply Forall_impl; [|exact Hmv]. intros [d target] [Hin Hid]. cbn [fst snd] in *. apply list_elem_of_lookup in Hin as [j Hj].
    destruct (Forall2_lookup_r _ _ _ _ _ Hslots Hj) as (c & Hcj & Hs). eapply Forall_lookup_1 in Hc; [|exact Hcj].
    by destruct (slot_typed xxh3_128 sha256 m types tree_key f t c d Hm Ho Htk Hc Hs) as (? & ? & ?). }
  assert (moves_typed tree_key moves) as Hty by (eapply Forall_impl; [|exact Hall]; naive_solver).
  assert (Forall (λ move, drain_at m tree_key f move.1) moves) as Hat by (eapply Forall_impl; [|exact Hall]; naive_solver).
  assert (entries_stored xxh3_128 sha256 m moves) as Hst by (eapply Forall_impl; [|exact Hall]; naive_solver).
  pose proof (relocate_spec xxh3_128 sha256 m Hm types tree_key f t1 moves movement Ho1 Htk Hty Hst) as Hw.
  unfold wp in Hw. rewrite Hrel in Hw. split; [by destruct r|]. intros n ->.
  destruct Hw as (-> & Hleg & hs & es & Hdh & Hde & [_ _ Hv] & g & Hg & Hsteps).
  assert (same_map (typed_view xxh3_128 sha256 t2) g) as E by by rewrite Hv.
  destruct (moves_intact xxh3_128 sha256 m Hm tree_key f moves g) as [Hig Hmg]; [done|done|by apply Forall_fmap|done|done|].
  split_and!; [done|done|by exists g|by exists hs, es|by eapply same_map_intact|]. apply Forall_forall. intros move Hin.
  eapply Forall_forall in Hty as [? ?]; [|exact Hin]. eapply Forall_forall in Hmg; [|exact Hin]. eapply moved_at_ext; [done..|by symmetry|done].
Qed.

(** A second leaf next to the root leaf that holds records 1 and 2. *)
Definition sample_second : RecordLocation := mkLocation sample_tree_key 2.
Definition sample_two_leaves : WriteLogicalTxn WriteTxn :=
  (mutate sample_hash (λ bs, bs)
     [put_header sample_manifest sample_second (mkPartitionHeader 1 0 0 PartitionState.Ready);
      put_synopsis sample_manifest sample_second (PartitionSynopsis_empty sample_manifest)] sample_attempt.1).1.
Definition sample_candidates : WriteLogicalTxn WriteTxn * result (list (option LeafDrainEntry)) :=
  read_leaf_drain_candidates sample_hash (λ bs, bs) sample_tree_key [(1, [1]); (1, [9])] sample_two_leaves.
Definition sample_drain : LeafDrainEntry :=
  mkDrain 1 (pp_entry (sample_prepared 1)) (pp_record (sample_prepared 1)).
Lemma sample_attempt_bound : bound sample_attempt.1 sample_manifest [DataType.F64].
Proof.
  pose proof (apply_routed_spec sample_hash (λ bs, bs) sample_manifest sample_manifest_ok [DataType.F64] (typed_view sample_hash (λ bs, bs) sample_tree)
    sample_tree sample_batch [Some (sample_prepared 1); Some (sample_prepared 2); None] [Some sample_root; Some sample_root; None] []) as Hw.
  assert (sample_attempt.2 = Ok sample_report) as E by (vm_compute; reflexivity). unfold wp, sample_attempt in *.
  destruct (apply_routed _ _ _ _ _ _ sample_tree) as [t' r]. cbn [fst snd] in *. subst r.
  destruct Hw as (g & _ & Hwr); [split; [apply sample_tree_bound|done]|apply sample_routed|dec_compute|].
  by eapply bound_mono; [apply sample_tree_bound|].
Qed.
Lemma sample_attempt_intact : intact sample_hash sample_manifest sample_manifest_ok (typed_view sample_hash (λ bs, bs) sample_attempt.1).
Proof.
  apply (apply_routed_intact sample_hash (λ bs, bs) sample_manifest sample_manifest_ok [DataType.F64] sample_raw sample_batch
    [Some (sample_prepared 1); Some (sample_prepared 2); None] [Some sample_root; Some sample_root; None] [] sample_tree
    sample_attempt.1 sample_report sample_tree_bound eq_refl sample_routed sample_tree_intact).
  assert (sample_attempt.2 = Ok sample_report) as E by (vm_compute; reflexivity). rewrite <-E. unfold sample_attempt. by destruct (apply_routed _ _ _ _ _ _ _).
Qed.
Lemma sample_two_leaves_wrote :
  typed_wrote sample_hash (λ bs, bs) sample_attempt.1 sample_two_leaves
    (foldl set_typed (typed_view sample_hash (λ bs, bs) sample_attempt.1)
       [put_header sample_manifest sample_second (mkPartitionHeader 1 0 0 PartitionState.Ready);
        put_synopsis sample_manifest sample_second (PartitionSynopsis_empty sample_manifest)]).
Proof.
  pose proof (over_mutate sample_hash (λ bs, bs) sample_manifest [DataType.F64] (typed_view sample_hash (λ bs, bs) sample_attempt.1) sample_attempt.1
    [put_header sample_manifest sample_second (mkPartitionHeader 1 0 0 PartitionState.Ready);
     put_synopsis sample_manifest sample_second (PartitionSynopsis_empty sample_manifest)]) as Hw.
  unfold wp in Hw. assert (is_ok (mutate sample_hash (λ bs, bs)
     [put_header sample_manifest sample_second (mkPartitionHeader 1 0 0 PartitionState.Ready);
      put_synopsis sample_manifest sample_second (PartitionSynopsis_empty sample_manifest)] sample_attempt.1).2 = true) as E by (vm_compute; reflexivity).
  unfold sample_two_leaves. destruct (mutate _ _ _ _) as [t' [[]|e|]]; [|done..]. cbn [fst]. apply Hw; [split; [apply sample_attempt_bound|done]|].
  constructor; [|constructor; [|constructor]]; (split; [dec_compute|]); intros x [= <-].
  - apply header_writable; [apply sample_manifest_ok|]. dec_compute.
  - apply (synopsis_writable _ _ _ sample_manifest_ok), empty_synopsis_admitted.
Qed.
Lemma sample_two_leaves_bound : bound sample_two_leaves sample_manifest [DataType.F64].
Proof. eapply bound_mono; [apply sample_attempt_bound|apply sample_two_leaves_wrote]. Qed.
Lemma sample_two_leaves_intact : intact sample_hash sample_manifest sample_manifest_ok (typed_view sample_hash (λ bs, bs) sample_two_leaves).
Proof.
  apply (new_leaf_intact _ _ _ (typed_view sample_hash (λ bs, bs) sample_attempt.1) _ sample_second (mkPartitionHeader 1 0 0 PartitionState.Ready));
    [split; dec_compute|vm_compute; reflexivity|reflexivity|apply sample_attempt_intact|apply sample_two_leaves_wrote].
Qed.
Lemma leaf_relocation_keeps_membership_witness :
  sample_candidates.2 = Ok [Some sample_drain; None] ∧
  let moved := relocate_leaf_entries sample_hash (λ bs, bs) sample_tree_key [(sample_drain, 2)] Movement.Refine sample_candidates.1 in
  moved.2 = Ok 1 ∧ intact sample_hash sample_manifest sample_manifest_ok (typed_view sample_hash (λ bs, bs) moved.1) ∧
  moved_at sample_manifest sample_tree_key (typed_view sample_hash (λ bs, bs) moved.1) (sample_drain, 2).
Proof.
  assert (sample_candidates.2 = Ok [Some sample_drain; None]) as Es by (vm_compute; reflexivity). split; [exact Es|]. cbv zeta.
  set (moved := relocate_leaf_entries sample_hash (λ bs, bs) sample_tree_key [(sample_drain, 2)] Movement.Refine sample_candidates.1).
  assert (moved.2 = Ok 1) as Em by (vm_compute; reflexivity). split; [exact Em|].
  assert (Forall candidate_typed [(1, [1]); (1, [9])]) as Hc by (repeat constructor; dec_compute).
  destruct (leaf_relocation_keeps_membership sample_hash (λ bs, bs) sample_manifest sample_manifest_ok [DataType.F64] sample_tree_key
    [(1, [1]); (1, [9])] [(sample_drain, 2)] Movement.Refine sample_two_leaves sample_candidates.1 moved.1 [Some sample_drain; None] moved.2
    sample_two_leaves_bound sample_two_leaves_intact ltac:(dec_compute) Hc) as (_ & _ & Hok).
  - rewrite <-Es. unfold sample_candidates. by destruct (read_leaf_drain_candidates _ _ _ _ _).
  - constructor; [|constructor]. split; [by left|]. dec_compute.
  - dec_compute.
  - unfold moved. by destruct (relocate_leaf_entries _ _ _ _ _ _).
  - destruct (Hok _ Em) as (_ & _ & _ & _ & Hi & Hm). apply Forall_cons_iff in Hm as [Hm _]. split; [exact Hi|exact Hm].
Defined.
