(* ===== verification/RelocationLimit.v ===== *)
(** Admission of leaf relocation batches (src/src/storage/topology/relocation.rs):
    the batch limit is the largest batch whose charge fits the Backend budget,
    and the charge covers the writes of a batch out of one source. *)
From stdpp Require Import gmap sorting.
From S2P Require Import Prelude RustStd Api TreeKey Keys KeyRanges RaBitQ Manifest Wire ValueData Records Synopsis Values Backend Memory Txn Codec Logical LogicalSpec TreeOps Membership MembershipSpec MembershipInv Mutate MutateSpec Relocation RelocationSpec.

(** ** The limit is exact *)
Record charge_ok (c : LeafRelocationCharge) : Prop := {
  co_source : 0 ≤ lc_source_header c; co_entry : 0 ≤ lc_entry c; co_target : 0 ≤ lc_target c
}.
Lemma checked_add_some a b c : RaBitQ.checked_add a b = Some c ↔ c = a + b ∧ c < 2 ^ 64.
Proof. unfold RaBitQ.checked_add. destruct (Z.ltb_spec (a + b) (2 ^ 64)); naive_solver lia. Qed.
Lemma checked_mul_some a b c : checked_mul a b = Some c ↔ c = a * b ∧ c < 2 ^ 64.
Proof. unfold checked_mul. destruct (Z.ltb_spec (a * b) (2 ^ 64)); naive_solver lia. Qed.
Lemma charge_size_some c n movement x y :
  charge_ok c → 0 ≤ n →
  charge_size c n movement = Some (x, y) ↔
  x = 3 * n + 2 * charge_targets n movement + 1 ∧ y = n * lc_entry c + charge_targets n movement * lc_target c + lc_source_header c ∧
  x < 2 ^ 64 ∧ y < 2 ^ 64.
Proof.
  intros [? ? ?] Hn. assert (0 ≤ charge_targets n movement) as Ht by (destruct movement; cbn; lia). unfold charge_size.
  set (T := charge_targets n movement) in *. clearbody T. assert (0 ≤ n * lc_entry c ∧ 0 ≤ T * lc_target c) as [? ?] by (split; nia).
  split.
  - intros (mu & Hm & (by' & Hb & E)%bind_Some)%bind_Some. injection E as <- <-.
    apply bind_Some in Hm as (a & [-> ?]%checked_mul_some & Hm). apply bind_Some in Hm as (a' & Ha & [-> ?]%checked_add_some).
    apply bind_Some in Ha as (a'' & [-> ?]%checked_mul_some & [-> ?]%checked_add_some).
    apply bind_Some in Hb as (b & [-> ?]%checked_mul_some & Hb). apply bind_Some in Hb as (b' & Hb' & [-> ?]%checked_add_some).
    apply bind_Some in Hb' as (b'' & [-> ?]%checked_mul_some & [-> ?]%checked_add_some). lia.
  - intros (-> & -> & Hx & Hy). unfold checked_mul, RaBitQ.checked_add.
    repeat match goal with |- context [?a <? 2 ^ 64] => replace (a <? 2 ^ 64) with true by (symmetry; apply Z.ltb_lt; lia); cbn [mbind option_bind] end.
    f_equal. f_equal; lia.
Qed.
Lemma charge_targets_mono a b movement : 0 ≤ a ≤ b → 0 ≤ charge_targets a movement ≤ charge_targets b movement.
Proof. destruct movement; cbn; lia. Qed.
(** What fits: a charge that grows with the batch. *)
Lemma charge_fits_iff c n movement budget :
  charge_ok c → 0 ≤ n → ab_max_mutations budget < 2 ^ 64 → ab_max_mutation_bytes budget < 2 ^ 64 →
  charge_fits c n movement budget = true ↔
  3 * n + 2 * charge_targets n movement + 1 ≤ ab_max_mutations budget ∧
  n * lc_entry c + charge_targets n movement * lc_target c + lc_source_header c ≤ ab_max_mutation_bytes budget.
Proof.
  intros Hc Hn ? ?. unfold charge_fits. destruct (charge_size c n movement) as [[x y]|] eqn:E.
  - apply charge_size_some in E as (-> & -> & _ & _); [|done..]. rewrite andb_true_iff, !Z.leb_le. done.
  - split; [done|]. intros [? ?]. exfalso.
    assert (charge_size c n movement = Some (3 * n + 2 * charge_targets n movement + 1, n * lc_entry c + charge_targets n movement * lc_target c + lc_source_header c)); [|congruence].
    apply charge_size_some; [done..|]. lia.
Qed.
Lemma charge_fits_mono c a b movement budget :
  charge_ok c → ab_max_mutations budget < 2 ^ 64 → ab_max_mutation_bytes budget < 2 ^ 64 → 0 ≤ a ≤ b →
  charge_fits c b movement budget = true → charge_fits c a movement budget = true.
Proof.
  intros Hc ? ? Hab. pose proof (charge_targets_mono a b movement Hab). destruct Hc as [? ? ?] eqn:Ec. clear Ec.
  rewrite !charge_fits_iff by (done || lia). intros [? ?]. split; [lia|]. nia.
Qed.
Lemma batch_limit_loop_spec fuel fits low high :
  high - low < 2 ^ Z.of_nat fuel → 1 ≤ low ≤ high → fits low = true → (∀ a b, 1 ≤ a ≤ b → fits b = true → fits a = true) →
  low ≤ batch_limit_loop fuel fits low high ≤ high ∧ fits (batch_limit_loop fuel fits low high) = true ∧
  ∀ k, batch_limit_loop fuel fits low high < k ≤ high → fits k = false.
Proof.
  revert low high. induction fuel as [|fuel IH]; intros low high Hf Hl Hfit Hmono; cbn [batch_limit_loop].
  { assert (high = low) as -> by (cbn in Hf; lia). split_and!; [lia..|done|lia]. }
  rewrite Nat2Z.inj_succ, Z.pow_succ_r in Hf by lia.
  destruct (Z.ltb_spec low high); [|assert (high = low) as -> by lia; split_and!; [lia..|done|lia]]. cbv zeta.
  set (middle := low + (high - low + 1) / 2).
  assert (low < middle ≤ high) as Hm by (subst middle; pose proof (Z.div_lt_upper_bound (high - low + 1) 2 (high - low + 1)); pose proof (Z.div_le_lower_bound (high - low + 1) 2 1); pose proof (Z.div_le_upper_bound (high - low + 1) 2 (high - low)); lia).
  pose proof (Z.div_mod (high - low + 1) 2 ltac:(lia)). pose proof (Z.mod_pos_bound (high - low + 1) 2 ltac:(lia)).
  destruct (fits middle) eqn:Em.
  - destruct (IH middle high) as (? & ? & ?); [lia|lia|done|done|]. split_and!; [lia..|done|done].
  - destruct (IH low (middle - 1)) as (? & ? & Hrest); [lia|lia|done|done|]. split_and!; [lia..|done|]. intros k Hk.
    destruct (decide (k ≤ middle - 1)); [apply Hrest; lia|]. apply not_true_is_false. intros Hk'. apply (Hmono middle k) in Hk'; [congruence|lia].
Qed.

(** *** The charge *)
Lemma charge_mutation_ok overhead key value n : charge_mutation overhead key value = Ok n → n = key + value + overhead.
Proof.
  unfold charge_mutation, within_usize. intros (x & [-> _]%checked_add_some & [-> _]%checked_add_some)%ok_or_ok%bind_Some. done.
Qed.
Lemma charge_new_ok m tree_key overhead c :
  LeafRelocationCharge_new m tree_key overhead = Ok c →
  ∃ sizes, leaf_relocation_value_sizes m tree_key = Ok sizes ∧
    lc_source_header c = partition_metadata_key_len tree_key + sz_partition_header sizes + overhead ∧
    lc_entry c = (maximum_leaf_entry_key_len tree_key + sz_leaf_entry sizes + overhead) + (maximum_leaf_entry_key_len tree_key + overhead) +
      (maximum_location_key_len + sz_record_location sizes + overhead) ∧
    lc_target c = (partition_metadata_key_len tree_key + sz_partition_header sizes + overhead) +
      (partition_metadata_key_len tree_key + sz_partition_synopsis sizes + overhead).
Proof.
  unfold LeafRelocationCharge_new. intros (sizes & Hs & H)%bind_ok. cbv zeta in H. exists sizes. split; [done|].
  apply bind_ok in H as (a & ->%charge_mutation_ok & H). apply bind_ok in H as (l & ->%charge_mutation_ok & H).
  apply bind_ok in H as (i & ->%charge_mutation_ok & H). apply bind_ok in H as (d & ->%charge_mutation_ok & H).
  apply bind_ok in H as (e & He & H). unfold within_usize in He. apply ok_or_ok, bind_Some in He as (x & [-> _]%checked_add_some & [-> _]%checked_add_some).
  apply bind_ok in H as (h & ->%charge_mutation_ok & H). apply bind_ok in H as (y & ->%charge_mutation_ok & H).
  apply bind_ok in H as (g & Hg & H). unfold within_usize in Hg. apply ok_or_ok, checked_add_some in Hg as [-> _].
  apply Ok_inj in H as <-. cbn. split_and!; lia.
Qed.
Lemma field_bytes_nonneg fs size n : 0 ≤ size → field_bytes_loop fs size = Ok n → 0 ≤ n.
Proof.
  revert size. induction fs as [|f fs IH]; intros size Hs Hn; [by apply Ok_inj in Hn as <-|].
  cbn [field_bytes_loop] in Hn. apply bind_ok in Hn as (k & [-> _]%ok_or_ok%checked_add_some & Hn).
  eapply IH; [|exact Hn]. assert (0 ≤ maximum_typed_value_len (fs_data_type f)) by (destruct (fs_data_type f); done). lia.
Qed.
Lemma synopsis_len_nonneg fs ps size :
  Forall (λ p, ∀ b, p = Some b → u32_ok (bp_bit_count b)) ps → 0 ≤ size → 0 ≤ synopsis_len_loop fs ps size.
Proof.
  revert ps size. induction fs as [|f fs IH]; intros [|p ps] size Hp Hs; cbn [synopsis_len_loop]; try done.
  apply Forall_cons_iff in Hp as [Hp Hps]. apply IH; [done|].
  assert (0 ≤ maximum_typed_value_len (fs_data_type f)) by (destruct (fs_data_type f); done).
  destruct p as [b|]; [|lia]. destruct (Hp b eq_refl) as [? _]. unfold BloomParameters_byte_count.
  unfold div_ceil. pose proof (Z.div_pos (bp_bit_count b + 8 - 1) 8 ltac:(lia) ltac:(lia)). lia.
Qed.
Lemma sizes_nonneg m tree_key sizes :
  manifest_ok m → leaf_relocation_value_sizes m tree_key = Ok sizes →
  0 ≤ sz_leaf_entry sizes ∧ 0 ≤ sz_record_location sizes ∧ 0 ≤ sz_partition_header sizes ∧ 0 ≤ sz_partition_synopsis sizes.
Proof.
  intros (_ & Hd & _ & _ & Hb & _). unfold leaf_relocation_value_sizes, maximum_leaf_entry_encoded_len.
  intros (n & Hn & Hs)%bind_ok. apply Ok_inj in Hs as <-. cbn. apply bind_ok in Hn as (fb & Hfb%field_bytes_nonneg & Hn); [|done].
  apply bind_ok in Hn as (rb & [_ ->]%encoded_len_ok & Hn%ok_or_ok). pose proof (sizes_bound (dimension m) (proj1 Hd)).
  apply bind_Some in Hn as (x & [-> _]%checked_add_some & Hn). apply bind_Some in Hn as (y & [-> _]%checked_add_some & [-> _]%checked_add_some).
  split_and!; [unfold MAX_RECORD_ID_BYTES; lia|unfold record_location_encoded_len, len; lia|done|].
  apply synopsis_len_nonneg; [|done]. eapply Forall_impl; [|exact Hb]. intros p Hp b E. by destruct (Hp b E).
Qed.
Lemma charge_new_valid m tree_key overhead c : manifest_ok m → 0 ≤ overhead → LeafRelocationCharge_new m tree_key overhead = Ok c → charge_ok c.
Proof.
  intros Hm Ho (sizes & Hs & E1 & E2 & E3)%charge_new_ok. apply sizes_nonneg in Hs as (? & ? & ? & ?); [|done].
  unfold maximum_leaf_entry_key_len, partition_metadata_key_len, maximum_location_key_len, LOGICAL_INDEX_ID_BYTES, PARTITION_KEY_BYTES, MAX_RECORD_ID_BYTES, len in *.
  split; lia.
Qed.
Lemma charge_new_total m tree_key overhead : manifest_ok m → no_panic (LeafRelocationCharge_new m tree_key overhead).
Proof.
  intros Hm. unfold LeafRelocationCharge_new, charge_mutation, within_usize.
  assert (∀ o : option Z, no_panic (ok_or LimitExceeded o)) as Ho by by intros [].
  apply bind_no_panic.
  - unfold leaf_relocation_value_sizes, maximum_leaf_entry_encoded_len. apply bind_no_panic; [|done]. apply bind_no_panic.
    + generalize 0. induction (fields m) as [|f fs IH]; intros n; [done|]. cbn [field_bytes_loop]. apply bind_no_panic; [|intros; apply IH].
      by destruct (RaBitQ.checked_add _ _).
    + intros fb _. apply bind_no_panic; [by destruct (encoded_len_total (dimension m)) as [[? ->]| ->]|]. intros rb _. by destruct (_ ≫= _).
  - intros sizes _. repeat (apply bind_no_panic; [apply Ho|intros ? _]). done.
Qed.

Definition budget_ok (b : AdmissionBudget) : Prop :=
  u64_ok (ab_max_mutations b) ∧ u64_ok (ab_max_mutation_bytes b) ∧ u64_ok (ab_mutation_key_overhead_bytes b).
Definition limit_high (budget : AdmissionBudget) : Z := saturating_sub (ab_max_mutations budget) 1 / 3.
(** The search finds the last batch that fits. *)
Lemma limit_search c movement budget :
  charge_ok c → budget_ok budget →
  if (limit_high budget =? 0) || negb (charge_fits c 1 movement budget) then ∀ k, 1 ≤ k → charge_fits c k movement budget = false
  else
    let n := batch_limit_loop 64 (λ entries, charge_fits c entries movement budget) 1 (limit_high budget) in
    1 ≤ n ∧ charge_fits c n movement budget = true ∧ ∀ k, n < k → charge_fits c k movement budget = false.
Proof.
  intros Ec (Hmu & Hby & _). unfold u64_ok in *.
  assert (∀ a b, 0 ≤ a ≤ b → charge_fits c b movement budget = true → charge_fits c a movement budget = true) as Hmono.
  { intros a b. apply charge_fits_mono; [done|lia|lia]. }
  assert (∀ k, 1 ≤ k → charge_fits c k movement budget = true → k ≤ limit_high budget) as Hhigh.
  { intros k Hk Hf. apply charge_fits_iff in Hf as [Hf _]; [|done|lia..]. pose proof (charge_targets_mono 0 k movement).
    apply Z.div_le_lower_bound; [lia|]. unfold saturating_sub. lia. }
  set (high := limit_high budget) in *.
  destruct ((high =? 0) || negb (charge_fits c 1 movement budget)) eqn:E.
  - intros k Hk. apply not_true_is_false. intros Hf.
    pose proof (Hhigh k Hk Hf). rewrite (Hmono 1 k ltac:(lia) Hf), orb_false_r in E. apply Z.eqb_eq in E. lia.
  - apply orb_false_iff in E as [Ez Ef%negb_false_iff]. apply Z.eqb_neq in Ez. cbv zeta.
    pose proof (Hhigh 1 ltac:(lia) Ef). assert (high < 2 ^ 64) by (apply Z.div_lt_upper_bound; unfold saturating_sub; lia).
    destruct (batch_limit_loop_spec 64 (λ n, charge_fits c n movement budget) 1 high) as (Hr & Hfit & Hmax); [cbn; lia|lia|done|intros a b ?; apply Hmono; lia|].
    split_and!; [lia|done|]. intros k Hk. destruct (decide (k ≤ high)); [by apply Hmax|]. apply not_true_is_false. intros Hf%Hhigh; lia.
Qed.

(** C34: The leaf relocation batch limit is exact and its binary search
    terminates: whenever the charge can be computed, the limit is a batch size
    that fits the Backend budget such that no larger batch fits, and the limit is
    refused exactly when not even one move fits; it never panics. *)
Theorem leaf_batch_limit_exact m tree_key movement budget :
  manifest_ok m → budget_ok budget →
  no_panic (leaf_relocation_batch_limit m tree_key movement budget) ∧
  ∀ charge, LeafRelocationCharge_new m tree_key (ab_mutation_key_overhead_bytes budget) = Ok charge →
    match leaf_relocation_batch_limit m tree_key movement budget with
    | Ok n => 1 ≤ n ∧ charge_fits charge n movement budget = true ∧ ∀ k, n < k → charge_fits charge k movement budget = false
    | Err e => e = LimitExceeded ∧ ∀ k, 1 ≤ k → charge_fits charge k movement budget = false
    | Panic => False
    end.
Proof.
  intros Hm Hbud. pose proof Hbud as (_ & _ & Hov). pose proof (charge_new_total m tree_key (ab_mutation_key_overhead_bytes budget) Hm) as Hn.
  unfold leaf_relocation_batch_limit.
  destruct (LeafRelocationCharge_new m tree_key (ab_mutation_key_overhead_bytes budget)) as [c|e|] eqn:Ec; [|done|done].
  apply charge_new_valid in Ec; [|done|unfold u64_ok in Hov; lia]. pose proof (limit_search c movement budget Ec Hbud) as Hs.
  cbn [mbind result_bind]. cbv zeta. fold (limit_high budget). destruct ((limit_high budget =? 0) || _); (split; [done|]); by intros _ [= <-].
Qed.
Definition sample_budget : AdmissionBudget := mkBudget 11 1048576 16.
Lemma leaf_batch_limit_exact_witness :
  leaf_relocation_batch_limit sample_manifest sample_tree_key Movement.Split sample_budget = Ok 2 ∧
  ∀ charge k, LeafRelocationCharge_new sample_manifest sample_tree_key 16 = Ok charge → 2 < k →
    charge_fits charge k Movement.Split sample_budget = false.
Proof.
  assert (leaf_relocation_batch_limit sample_manifest sample_tree_key Movement.Split sample_budget = Ok 2) as E by (vm_compute; reflexivity).
  split; [exact E|]. intros charge k Hc Hk.
  destruct (leaf_batch_limit_exact sample_manifest sample_tree_key Movement.Split sample_budget sample_manifest_ok ltac:(dec_compute)) as [_ Hx].
  specialize (Hx charge Hc). rewrite E in Hx. destruct Hx as (_ & _ & Hx). exact (Hx k Hk).
Defined.

(** ** The charge covers the batch *)
Definition write_cost (overhead : Z) (e : list Z * option (list Z)) : Z := len e.1 + value_len e.2 + overhead.
Definition total_cost (overhead : Z) (es : list (list Z * option (list Z))) : Z := foldr (λ e n, write_cost overhead e + n) 0 es.
Lemma total_cost_app overhead es es' : total_cost overhead (es ++ es') = total_cost overhead es + total_cost overhead es'.
Proof. induction es as [|e es IH]; [done|]. cbn [app total_cost foldr]. unfold total_cost in *. lia. Qed.
Lemma total_cost_le overhead es c : Forall (λ e, write_cost overhead e ≤ c) es → total_cost overhead es ≤ len es * c.
Proof.
  induction 1 as [|e es He _ IH]; [done|]. unfold total_cost, len in *. cbn [foldr length]. rewrite Nat2Z.inj_succ. lia.
Qed.

Section covered.
Context (xxh3_128 : Z → list Z → Z) (sha256 : list Z → list Z) (m : IndexManifest) (Hm : manifest_ok m) (tree_key : list Z).
Context (b : LogicalBinding) (types : list DataType.t) (Hb : binding_ok b types) (Em : lb_manifest b = Some m).
Context (overhead : Z) (sizes : LeafRelocationValueSizes) (Hs : leaf_relocation_value_sizes m tree_key = Ok sizes).
Abbreviation ix := (im_logical_index_id m).
Abbreviation encodes_to := (LogicalSpec.encodes_to xxh3_128 sha256 b).
Abbreviation mutation_typed := (LogicalSpec.mutation_typed xxh3_128 sha256 b).
Abbreviation at_leaf := (mkLocation tree_key).

Lemma value_bound v x key bytes :
  encodes_to (key, Some v) (x, Some bytes) → ValueCodec_encode xxh3_128 sha256 (Some m) v = Ok bytes.
Proof. intros [_ [He _]]. cbn in He. unfold codec_encode_for_key in He. rewrite Em in He. by apply encode_for_key_ok in He as (_ & _ & ?). Qed.
Lemma encoded_key key v e : mutation_typed (key, v) → encodes_to (key, v) e → encode_key key = Ok e.1.
Proof. intros [Hk _] [He _]. cbn in *. by eapply encode_input_key_ok in He as (_ & ? & _). Qed.
Lemma header_cost p h e :
  mutation_typed (LogicalKey.Header ix tree_key p, Some (PersistentValue.PartitionHeader h)) →
  encodes_to (LogicalKey.Header ix tree_key p, Some (PersistentValue.PartitionHeader h)) e →
  write_cost overhead e = partition_metadata_key_len tree_key + sz_partition_header sizes + overhead.
Proof.
  intros Hty He. pose proof (encoded_key _ _ _ Hty He) as Hk. destruct e as [k [bs|]]; [|by destruct He].
  destruct (relocation_value_sizes_sound xxh3_128 m Hm tree_key sizes Hs) as (_ & _ & Hh & _).
  destruct Hty as [_ Hv]. specialize (Hv _ eq_refl). rewrite Em in Hv. destruct Hv as (? & ? & _ & [Ht _]).
  unfold write_cost. cbn [fst snd value_len]. rewrite (Hh h bs (value_bound _ _ _ _ He) Ht).
  cbn [encode_key fst] in Hk. apply Ok_inj in Hk as <-. destruct (key_length_bounds ix tree_key p []) as (_ & -> & _). lia.
Qed.
Lemma synopsis_cost p y e :
  mutation_typed (LogicalKey.Synopsis ix tree_key p, Some (PersistentValue.PartitionSynopsis y)) →
  encodes_to (LogicalKey.Synopsis ix tree_key p, Some (PersistentValue.PartitionSynopsis y)) e →
  write_cost overhead e ≤ partition_metadata_key_len tree_key + sz_partition_synopsis sizes + overhead.
Proof.
  intros Hty He. pose proof (encoded_key _ _ _ Hty He) as Hk. destruct e as [k [bs|]]; [|by destruct He].
  destruct (relocation_value_sizes_sound xxh3_128 m Hm tree_key sizes Hs) as (_ & _ & _ & Hy).
  destruct Hty as [_ Hv]. specialize (Hv _ eq_refl). rewrite Em in Hv. destruct Hv as (? & ? & _ & [Ht _]).
  unfold write_cost. cbn [fst snd value_len]. pose proof (Hy y bs (value_bound _ _ _ _ He) Ht).
  cbn [encode_key fst] in Hk. apply Ok_inj in Hk as <-. destruct (key_length_bounds ix tree_key p []) as (_ & _ & -> & _). lia.
Qed.
(** One move: two entry keys and a Location. *)
Lemma move_cost move es :
  Forall mutation_typed (move_writes m tree_key move) → Forall2 encodes_to (move_writes m tree_key move) es →
  total_cost overhead es ≤ (maximum_leaf_entry_key_len tree_key + sz_leaf_entry sizes + overhead) +
    (maximum_leaf_entry_key_len tree_key + overhead) + (maximum_location_key_len + sz_record_location sizes + overhead).
Proof.
  intros Hty He. destruct (relocation_value_sizes_sound xxh3_128 m Hm tree_key sizes Hs) as (Hle & Hlo & _ & _).
  unfold move_writes, put_entry, entry_key, Membership.location_key in *. cbn [rl_tree_key rl_leaf] in *.
  apply Forall_cons_iff in Hty as [T1 Hty]. apply Forall_cons_iff in Hty as [T2 Hty]. apply Forall_cons_iff in Hty as [T3 _].
  apply Forall2_cons_inv_l in He as (e1 & es1 & He1 & He & ->). apply Forall2_cons_inv_l in He as (e2 & es2 & He2 & He & ->).
  apply Forall2_cons_inv_l in He as (e3 & es3 & He3 & He & ->). apply Forall2_nil_inv_l in He as ->.
  pose proof (encoded_key _ _ _ T1 He1) as K1. pose proof (encoded_key _ _ _ T2 He2) as K2. pose proof (encoded_key _ _ _ T3 He3) as K3.
  destruct e1 as [k1 [b1|]]; [|by destruct He1]. destruct e2 as [k2 [b2|]]; [by destruct He2|]. destruct e3 as [k3 [b3|]]; [|by destruct He3].
  destruct T1 as [_ V1]. specialize (V1 _ eq_refl). destruct T3 as [_ V3]. specialize (V3 _ eq_refl). rewrite Em in V1, V3.
  destruct V1 as (m1 & Hm1 & [= <-] & [V1 _]). destruct V3 as (? & ? & _ & [[V3 V3'] _]). cbn [rl_tree_key rl_leaf] in *.
  pose proof (Hle _ _ (value_bound _ _ _ _ He1) V1). pose proof (Hlo _ _ (value_bound _ _ _ _ He3) V3 V3').
  cbn [encode_key fst] in K1, K2, K3. destruct (key_length_bounds ix tree_key move.2 (le_record_id (ld_entry move.1))) as (_ & _ & _ & _ & _ & L1).
  destruct (key_length_bounds ix tree_key (ld_source move.1) (drain_id move.1)) as (L3 & _ & _ & _ & _ & L2).
  apply L1 in K1. apply L2 in K2. apply L3 in K3. unfold total_cost, write_cost. cbn [foldr fst snd value_len]. lia.
Qed.
Lemma moves_cost moves es :
  Forall mutation_typed (moves ≫= move_writes m tree_key) → Forall2 encodes_to (moves ≫= move_writes m tree_key) es →
  len es = 3 * len moves ∧
  total_cost overhead es ≤ len moves * ((maximum_leaf_entry_key_len tree_key + sz_leaf_entry sizes + overhead) +
    (maximum_leaf_entry_key_len tree_key + overhead) + (maximum_location_key_len + sz_record_location sizes + overhead)).
Proof.
  revert es. induction moves as [|move moves IH]; intros es Hty He; [apply Forall2_nil_inv_l in He as ->; done|].
  rewrite bind_cons in Hty, He. apply Forall_app in Hty as [Ht1 Ht2]. apply Forall2_app_inv_l in He as (es1 & es2 & He1 & He2 & ->).
  destruct (IH es2 Ht2 He2) as [Hl Hc]. pose proof (move_cost _ _ Ht1 He1). assert (length (move_writes m tree_key move) = length es1) as E1 by by eapply Forall2_length.
  rewrite total_cost_app, len_app. assert (len es1 = 3) as -> by (unfold len; rewrite <-E1; done).
  assert (len (move :: moves) = 1 + len moves) as -> by (unfold len; cbn [length]; lia). lia.
Qed.
Lemma headers_cost (l : list (Z * PartitionHeader)) es :
  Forall mutation_typed (header_puts m (at_tree tree_key <$> l)) → Forall2 encodes_to (header_puts m (at_tree tree_key <$> l)) es →
  len es = len l ∧ total_cost overhead es ≤ len l * (partition_metadata_key_len tree_key + sz_partition_header sizes + overhead).
Proof.
  revert es. induction l as [|[p h] l IH]; intros es Hty He; [apply Forall2_nil_inv_l in He as ->; done|].
  apply Forall_cons_iff in Hty as [T1 Hty]. apply Forall2_cons_inv_l in He as (e & es' & He1 & He & ->).
  destruct (IH es' Hty He) as [Hl Hc]. pose proof (header_cost p h e T1 He1) as E. unfold total_cost, len in *. cbn [foldr length]. rewrite E. lia.
Qed.
Lemma synopses_cost (l : list (Z * SynopsisExpansion)) es :
  0 ≤ overhead →
  Forall mutation_typed (synopsis_puts m (at_tree tree_key <$> l)) → Forall2 encodes_to (synopsis_puts m (at_tree tree_key <$> l)) es →
  len es ≤ len l ∧ total_cost overhead es ≤ len l * (partition_metadata_key_len tree_key + sz_partition_synopsis sizes + overhead).
Proof.
  intros Hov. destruct (sizes_nonneg m tree_key sizes Hm Hs) as (_ & _ & _ & Hsy).
  assert (0 ≤ partition_metadata_key_len tree_key) by (unfold partition_metadata_key_len, LOGICAL_INDEX_ID_BYTES, PARTITION_KEY_BYTES, len; lia).
  revert es. induction l as [|[p y] l IH]; intros es Hty He; [apply Forall2_nil_inv_l in He as ->; done|].
  rewrite fmap_cons in Hty, He. unfold synopsis_puts in Hty, He. rewrite filter_cons in Hty, He. cbn [at_tree fst snd] in Hty, He.
  assert (len ((p, y) :: l) = 1 + len l) as -> by (unfold len; cbn [length]; lia).
  destruct (se_changed y).
  - rewrite decide_True in Hty, He by done. apply Forall_cons_iff in Hty as [T1 Hty]. apply Forall2_cons_inv_l in He as (e & es' & He1 & He & ->).
    destruct (IH es' Hty He) as [Hl Hc]. pose proof (synopsis_cost p (se_synopsis y) e T1 He1) as E. unfold total_cost, len in *. cbn [foldr length]. lia.
  - rewrite decide_False in Hty, He by done. destruct (IH es Hty He) as [Hl Hc]. lia.
Qed.
End covered.

Lemma len_elements_le (s : gset Z) {A} (l : gmap Z A) : dom l = s → len (in_partition_order l) = Z.of_nat (size s).
Proof.
  intros <-. unfold len, in_partition_order. rewrite merge_sort_Permutation, length_map_to_list, <-size_dom. done.
Qed.
(** The leaves a batch out of one source touches. *)
Lemma batch_leaves moves source movement :
  Forall (λ move, ld_source move.1 = source) moves → (movement = Movement.Split → Z.of_nat (size (target_set moves)) ≤ 2) →
  Z.of_nat (size (source_set moves ∪ target_set moves)) ≤ 1 + Z.of_nat (size (target_set moves)) ∧
  Z.of_nat (size (target_set moves)) ≤ charge_targets (len moves) movement.
Proof.
  intros Hsrc Hsplit. split.
  - assert (source_set moves ⊆ {[source]}) as Hsub.
    { intros p (move & -> & Hin)%elem_of_list_to_set%list_elem_of_fmap. apply list_elem_of_In in Hin. eapply Forall_forall in Hsrc; [|exact Hin].
      cbn. rewrite Hsrc. by apply elem_of_singleton. }
    assert (size (source_set moves ∪ target_set moves) ≤ size ({[source]} ∪ target_set moves))%nat as Hle by (apply subseteq_size; set_solver).
    assert (size ({[source]} ∪ target_set moves) ≤ 1 + size (target_set moves))%nat; [|lia].
    rewrite size_union_alt, size_singleton. apply Nat.add_le_mono_l, subseteq_size. set_solver.
  - assert (size (target_set moves) ≤ length moves)%nat as Hle.
    { unfold target_set. rewrite <-(length_fmap snd moves). clear. generalize (moves.*2). intros l. induction l as [|x l IH]; [done|].
      cbn [list_to_set length]. rewrite size_union_alt, size_singleton. assert (size (list_to_set l ∖ {[x]} : gset Z) ≤ size (list_to_set l : gset Z))%nat; [|lia].
      apply subseteq_size. set_solver. }
    unfold len. destruct movement; cbn [charge_targets]; [specialize (Hsplit eq_refl)|..]; lia.
Qed.
(** The charge covers what a batch writes: for moves out of one source, to at most
    two targets when they are a split's, as many as the limit admits, the writes
    of [relocation_writes] (whose effect [relocate_spec] shows a relocation to have)
    encode to no more mutations and bytes than the budget. *)
Lemma batch_within_limit_fits xxh3_128 sha256 m types b tree_key movement budget n moves source hs es encoded :
  manifest_ok m → budget_ok budget → binding_ok b types → lb_manifest b = Some m →
  leaf_relocation_batch_limit m tree_key movement budget = Ok n → 1 ≤ len moves ≤ n →
  Forall (λ move, ld_source move.1 = source) moves → (movement = Movement.Split → Z.of_nat (size (target_set moves)) ≤ 2) →
  dom hs = source_set moves ∪ target_set moves → dom es = target_set moves →
  Forall (mutation_typed xxh3_128 sha256 b) (relocation_writes m tree_key moves hs es) →
  Forall2 (encodes_to xxh3_128 sha256 b) (relocation_writes m tree_key moves hs es) encoded →
  len encoded ≤ ab_max_mutations budget ∧
  total_cost (ab_mutation_key_overhead_bytes budget) encoded ≤ ab_max_mutation_bytes budget.
Proof.
  intros Hm Hbud Hb Em Hlim Hlen Hsrc Hsplit Hdh Hde Hty He. pose proof Hbud as (Hmu & Hby & Hov). unfold u64_ok in *.
  unfold leaf_relocation_batch_limit in Hlim. apply bind_ok in Hlim as (c & Hc & Hlim). cbv zeta in Hlim. fold (limit_high budget) in Hlim.
  pose proof (charge_new_valid _ _ _ _ Hm (proj1 Hov) Hc) as Hok. pose proof (limit_search c movement budget Hok Hbud) as Hs.
  destruct ((limit_high budget =? 0) || _); [done|]. apply Ok_inj in Hlim as <-. cbv zeta in Hs. destruct Hs as (_ & Hfit & _).
  apply (charge_fits_mono c (len moves)) in Hfit; [|done|lia..]. apply charge_fits_iff in Hfit as [Fm Fb]; [|done|lia..].
  destruct (charge_new_ok _ _ _ _ Hc) as (sizes & Hsz & E1 & E2 & E3). clear Hlen.
  unfold relocation_writes in Hty, He. apply Forall_app in Hty as [T1 Hty]. apply Forall_app in Hty as [T2 T3].
  apply Forall2_app_inv_l in He as (x1 & es' & He1 & He & ->). apply Forall2_app_inv_l in He as (x2 & x3 & He2 & He3 & ->).
  set (overhead := ab_mutation_key_overhead_bytes budget) in *.
  destruct (moves_cost xxh3_128 sha256 m Hm tree_key b types Hb Em overhead sizes Hsz moves x1 T1 He1) as [L1 C1].
  destruct (headers_cost xxh3_128 sha256 m Hm tree_key b types Hb Em overhead sizes Hsz _ x2 T2 He2) as [L2 C2].
  destruct (synopses_cost xxh3_128 sha256 m Hm tree_key b types Hb Em overhead sizes Hsz _ x3 (proj1 Hov) T3 He3) as [L3 C3].
  rewrite (len_elements_le _ hs Hdh) in L2, C2. rewrite (len_elements_le _ es Hde) in L3, C3.
  pose proof (batch_leaves moves source movement Hsrc Hsplit) as [Sh St].
  set (H := Z.of_nat (size (source_set moves ∪ target_set moves))) in *. set (S := Z.of_nat (size (target_set moves))) in *.
  set (T := charge_targets (len moves) movement) in *. rewrite !len_app, !total_cost_app.
  assert (0 ≤ S) by lia. split; [lia|].
  destruct (sizes_nonneg m tree_key sizes Hm Hsz) as (_ & _ & ? & ?).
  assert (0 ≤ partition_metadata_key_len tree_key) by (unfold partition_metadata_key_len, LOGICAL_INDEX_ID_BYTES, PARTITION_KEY_BYTES, len; lia).
  rewrite E1, E2, E3 in Fb. clearbody H S T.
  set (ch := partition_metadata_key_len tree_key + sz_partition_header sizes + overhead) in *.
  set (cs := partition_metadata_key_len tree_key + sz_partition_synopsis sizes + overhead) in *.
  assert (H * ch ≤ (1 + T) * ch) by (apply Z.mul_le_mono_nonneg_r; lia). assert (S * cs ≤ T * cs) by (apply Z.mul_le_mono_nonneg_r; lia). lia.
Qed.
