(* ===== verification/Discovery.v ===== *)
(** Partition authority reads (src/src/storage/topology/authority.rs) and exact
    incoming-edge discovery (src/src/storage/topology/discovery.rs), written once
    over every typed reader as the sources are. *)
From stdpp Require Import gmap sorting.
From S2P Require Import Prelude RustStd Api TreeKey Keys KeyRanges RaBitQ Manifest Wire ValueData Records Synopsis Values Backend Memory Txn Codec Logical Membership LogicalSpec Reader.

Definition root_partition : Z := 1.
#[global] Instance partition_header_eq_dec : EqDecision PartitionHeader.
Proof. solve_decision. Defined.

(** ** Authority pairs *)
Definition Authority : Type := option PartitionHeader * option PartitionTransition.t.
Definition authority_keys (index : Z) (tree_key : list Z) (partition : Z) : LogicalKey.t * LogicalKey.t :=
  (LogicalKey.Header index tree_key partition, LogicalKey.State index tree_key partition).
Definition expect_agreement (header : PartitionHeader) (state : PartitionTransition.t) : result unit :=
  if decide (ph_state header = PartitionTransition_state state) then Ok tt else Err Corruption.
(** The pair and the values left in the iterator. *)
Definition decode_authority_pair (values : list (option PersistentValue.t))
    : result (Authority * list (option PersistentValue.t)) :=
  match values with
  | header :: state :: values =>
      expect_header header ≫= λ header, expect_state state ≫= λ state, Ok ((header, state), values)
  | _ => Err Backend
  end.
Definition classify_authority (pair : Authority) : result (option (PartitionHeader * PartitionTransition.t)) :=
  match pair with
  | (Some header, Some state) => expect_agreement header state ≫= λ _, Ok (Some (header, state))
  | (None, None) => Ok None
  | _ => Err Corruption
  end.
(** One pair per partition, and nothing after the last. *)
Fixpoint authority_batch_loop (partitions : list Z) (values : list (option PersistentValue.t))
    : result (list (PartitionHeader * PartitionTransition.t)) :=
  match partitions with
  | [] => match values with [] => Ok [] | _ => Err Backend end
  | _ :: partitions =>
      decode_authority_pair values ≫= λ '(authority, values),
      match authority with
      | (Some header, Some state) =>
          expect_agreement header state ≫= λ _,
          authority_batch_loop partitions values ≫= λ rest, Ok ((header, state) :: rest)
      | _ => Err Corruption
      end
  end.

(** ** Discovery parameters *)
Definition DISCOVERY_BODY_BATCH : nat := 8.
Definition DISCOVERY_SCAN_LIMITS : ScanLimits := mkScanLimits 128 1048576.
Record IncomingEdgeProof := mkEdgeProof { ip_level : Z; ip_headers : list (Z * PartitionHeader) }.
Record LevelCandidate := mkCandidate { cd_parent : Z; cd_entry : ChildEntry; cd_header : PartitionHeader }.
Definition candidate_partition (c : LevelCandidate) : Z := ce_child (cd_entry c).
Definition is_legal_merge_target (c : LevelCandidate) (source : Z) : bool :=
  negb (candidate_partition c =? source) && bool_decide (ph_state (cd_header c) = PartitionState.Ready).
Definition checked_add_u32 (a b : Z) : option Z := if a + b <? 2 ^ 32 then Some (a + b) else None.

Section readers.
Context {R : Type} `{LogicalReader R}.

Definition read_header_opt (index : Z) (tree_key : list Z) (partition : Z) : M R (option PartitionHeader) :=
  let! value := rdr_get (LogicalKey.Header index tree_key partition) in
  m_lift (expect_header value).
Definition read_header (index : Z) (tree_key : list Z) (partition : Z) : M R PartitionHeader :=
  let! header := read_header_opt index tree_key partition in
  m_lift (ok_or Corruption header).
Definition read_state (index : Z) (tree_key : list Z) (partition : Z) : M R (option PartitionTransition.t) :=
  let! value := rdr_get (LogicalKey.State index tree_key partition) in
  m_lift (expect_state value).
Definition read_authority_opt (index : Z) (tree_key : list Z) (partition : Z) : M R Authority :=
  let '(header_key, state_key) := authority_keys index tree_key partition in
  let! values := rdr_batch_get [header_key; state_key] in
  let! found := m_lift (decode_authority_pair values) in
  m_ret found.1.
Definition read_authority_pair (index : Z) (tree_key : list Z) (partition : Z)
    : M R (option (PartitionHeader * PartitionTransition.t)) :=
  let! found := read_authority_opt index tree_key partition in
  m_lift (classify_authority found).
Definition read_authority (index : Z) (tree_key : list Z) (partition : Z) : M R (PartitionHeader * PartitionTransition.t) :=
  let! found := read_authority_pair index tree_key partition in
  m_lift (ok_or Corruption found).
Definition read_authority_batch (index : Z) (tree_key : list Z) (partitions : list Z)
    : M R (list (PartitionHeader * PartitionTransition.t)) :=
  match partitions with
  | [] => m_ret []
  | _ =>
      let keys := partitions ≫= λ partition, let '(header_key, state_key) := authority_keys index tree_key partition in [header_key; state_key] in
      let! values := rdr_batch_get keys in
      m_lift (authority_batch_loop partitions values)
  end.

(** ** Scanning Child Entries in waves

    The visitor's captured state is an accumulator.  [fuel] bounds the rounds of
    one wave; running out of it is a panic of the model. *)
Abbreviation Leg := (Z * LogicalRange * option LogicalScanCursor)%type.
Section scans.
Context {A : Type} (visit : A → Z → ChildEntry → result A).
Fixpoint visit_items (body : Z) (items : list LogicalScanItem) (acc : A) : result A :=
  match items with
  | [] => Ok acc
  | item :: items =>
      expect_child_entry_ref (li_value item) ≫= λ entry, visit acc body entry ≫= visit_items body items
  end.
(** The legs with the cursors their pages leave behind. *)
Fixpoint visit_pages (pending : list Leg) (pages : list LogicalScanPage) (acc : A) : result (A * list Leg) :=
  match pending, pages with
  | (body, range, _) :: pending, page :: pages =>
      visit_items body (lp_items page) acc ≫= λ acc,
      visit_pages pending pages acc ≫= λ '(acc, rest), Ok (acc, (body, range, lp_next_cursor page) :: rest)
  | _, _ => Ok (acc, pending)
  end.
Definition retain_pending (pending : list Leg) : list Leg := filter (λ leg, is_Some leg.2) pending.
Fixpoint scan_rounds (fuel : nat) (pending : list Leg) (acc : A) : M R A :=
  match pending with
  | [] => m_ret acc
  | _ =>
      match fuel with
      | O => m_lift Panic
      | S fuel =>
          let! pages := rdr_batch_scan ((λ '(_, range, cursor), (range, cursor)) <$> pending) DISCOVERY_SCAN_LIMITS in
          let! visited := m_lift (visit_pages pending pages acc) in
          scan_rounds fuel (retain_pending visited.2) visited.1
      end
  end.
Fixpoint scan_chunks (fuel : nat) (m : IndexManifest) (tree_key : list Z) (chunks : list (list Z)) (acc : A) : M R A :=
  match chunks with
  | [] => m_ret acc
  | chunk :: chunks =>
      let! pending := m_lift (mapM (λ body, range_child_entries m tree_key body ≫= λ range, Ok (body, range, None)) chunk) in
      let! acc := scan_rounds fuel pending acc in
      scan_chunks fuel m tree_key chunks acc
  end.
Definition scan_child_edges (fuel : nat) (m : IndexManifest) (tree_key : list Z) (bodies : list Z) (acc : A) : M R A :=
  scan_chunks fuel m tree_key (chunks DISCOVERY_BODY_BATCH bodies) acc.
End scans.

(** ** The root-down walk *)
Definition collect_child (acc : list Z) (body : Z) (entry : ChildEntry) : result (list Z) := Ok (acc ++ [ce_child entry]).
Definition collect_edge (acc : list (Z * ChildEntry)) (body : Z) (entry : ChildEntry) : result (list (Z * ChildEntry)) :=
  Ok (acc ++ [(body, entry)]).
Definition match_edge (partition : Z) (found : option (Z * ChildEntry)) (body : Z) (entry : ChildEntry)
    : result (option (Z * ChildEntry)) :=
  if ce_child entry =? partition then
    match found with Some _ => Err Corruption | None => Ok (Some (body, entry)) end
  else Ok found.
(** The exclusive target slots of a splitting root. *)
Definition root_slots (state : PartitionTransition.t) : list Z :=
  match state with
  | PartitionTransition.Splitting left_ right_ _ | PartitionTransition.DrainingSplit left_ right_ _ => [left_; right_]
  | _ => [root_partition; root_partition]
  end.
Definition is_draining (state : PartitionTransition.t) : bool :=
  match state with PartitionTransition.DrainingSplit _ _ _ => true | _ => false end.
Fixpoint add_slots (index : Z) (tree_key : list Z) (draining : bool) (targets bodies : list Z) : M R (list Z) :=
  match targets with
  | [] => m_ret bodies
  | target :: targets =>
      if (target =? root_partition) || bool_decide (target ∈ bodies) then add_slots index tree_key draining targets bodies
      else
        let! header := read_header_opt index tree_key target in
        if negb (bool_decide (is_Some header)) && negb draining then add_slots index tree_key draining targets bodies
        else add_slots index tree_key draining targets (bodies ++ [target])
  end.
Fixpoint expect_levels (level : Z) (values : list (option PersistentValue.t)) : result unit :=
  match values with
  | [] => Ok tt
  | value :: values =>
      (expect_header value ≫= ok_or Corruption) ≫= λ header,
      if ph_level header =? level then expect_levels level values else Err Corruption
  end.
Fixpoint descend_chunks (fuel : nat) (m : IndexManifest) (tree_key : list Z) (level : Z) (chunks : list (list Z)) (next : list Z)
    : M R (list Z) :=
  match chunks with
  | [] => m_ret next
  | chunk :: chunks =>
      let! values := rdr_batch_get (LogicalKey.Header (im_logical_index_id m) tree_key <$> chunk) in
      let! _ := m_lift (expect_levels level values) in
      let! next := scan_child_edges collect_child fuel m tree_key chunk next in
      descend_chunks fuel m tree_key level chunks next
  end.
Definition with_root_slots (index : Z) (tree_key : list Z) (bodies : list Z) : M R (list Z) :=
  let! state := read_state index tree_key root_partition in
  match state with
  | Some state => add_slots index tree_key (is_draining state) (root_slots state) bodies
  | None => m_ret bodies
  end.
(** One turn per level; the levels between the root and [level] are the turns. *)
Fixpoint level_loop (fuel : nat) (turns : nat) (m : IndexManifest) (tree_key : list Z) (root_level level current : Z) (bodies : list Z)
    : M R (list Z) :=
  let! bodies := if current =? root_level then with_root_slots (im_logical_index_id m) tree_key bodies else m_ret bodies in
  if current =? level then m_ret bodies
  else
    match turns with
    | O => m_lift Panic
    | S turns =>
        let! next := descend_chunks fuel m tree_key current (chunks DISCOVERY_BODY_BATCH bodies) [] in
        match next with
        | [] => m_lift (Err Corruption)
        | _ => level_loop fuel turns m tree_key root_level level (current - 1) next
        end
    end.
Definition level_bodies (fuel : nat) (m : IndexManifest) (tree_key : list Z) (level : Z) : M R (list Z) :=
  let! root_header := read_header (im_logical_index_id m) tree_key root_partition in
  let root_level := ph_level root_header in
  if root_level <? level then m_lift (Err Corruption)
  else level_loop fuel (Z.to_nat (root_level - level)) m tree_key root_level level root_level [root_partition].

(** ** Incoming edges *)
Definition find_incoming_edge_in (fuel : nat) (m : IndexManifest) (tree_key : list Z) (partition : Z) (bodies : list Z)
    : M R (option (Z * ChildEntry)) :=
  scan_child_edges (match_edge partition) fuel m tree_key bodies None.
Definition find_incoming_edge (fuel : nat) (m : IndexManifest) (tree_key : list Z) (partition level : Z)
    : M R (option (Z * ChildEntry)) :=
  let! parent_level := m_lift (ok_or Corruption (checked_add_u32 level 1)) in
  let! bodies := level_bodies fuel m tree_key parent_level in
  find_incoming_edge_in fuel m tree_key partition bodies.
Fixpoint zip_headers (partitions : list Z) (values : list (option PersistentValue.t)) : result (list (Z * PartitionHeader)) :=
  match partitions, values with
  | partition :: partitions, value :: values =>
      (expect_header value ≫= ok_or Corruption) ≫= λ header,
      zip_headers partitions values ≫= λ rest, Ok ((partition, header) :: rest)
  | _, _ => Ok []
  end.
Fixpoint proof_headers (index : Z) (tree_key : list Z) (batches : list (list Z)) : M R (list (Z * PartitionHeader)) :=
  match batches with
  | [] => m_ret []
  | batch :: batches =>
      let! values := rdr_batch_get (LogicalKey.Header index tree_key <$> batch) in
      let! headers := m_lift (zip_headers batch values) in
      let! rest := proof_headers index tree_key batches in
      m_ret (headers ++ rest)
  end.
Definition edge_proof_read (fuel : nat) (m : IndexManifest) (tree_key : list Z) (level working_bytes : Z) : M R IncomingEdgeProof :=
  let! level := m_lift (ok_or Corruption (checked_add_u32 level 1)) in
  let! bodies := level_bodies fuel m tree_key level in
  let! bytes := m_lift (within_usize (checked_mul (len bodies) 256)) in
  if working_bytes <? bytes then m_lift (Err LimitExceeded)
  else
    let! headers := proof_headers (im_logical_index_id m) tree_key (chunks DISCOVERY_BODY_BATCH bodies) in
    m_ret (mkEdgeProof level headers).
Definition edge_proof_bodies (p : IncomingEdgeProof) : list Z := (ip_headers p).*1.
Definition edge_proof_find (fuel : nat) (p : IncomingEdgeProof) (m : IndexManifest) (tree_key : list Z) (partition : Z)
    : M R (option (Z * ChildEntry)) :=
  find_incoming_edge_in fuel m tree_key partition (edge_proof_bodies p).

(** ** Candidates of one level *)
Fixpoint candidate_headers (index : Z) (tree_key : list Z) (batches : list (list (Z * ChildEntry)))
    : M R (list (option PersistentValue.t)) :=
  match batches with
  | [] => m_ret []
  | batch :: batches =>
      let! values := rdr_batch_get ((λ '(_, entry), LogicalKey.Header index tree_key (ce_child entry)) <$> batch) in
      let! rest := candidate_headers index tree_key batches in
      m_ret (values ++ rest)
  end.
Fixpoint level_candidates (level : Z) (edges : list (Z * ChildEntry)) (values : list (option PersistentValue.t))
    : result (list LevelCandidate) :=
  match edges, values with
  | (parent, entry) :: edges, value :: values =>
      (expect_header value ≫= ok_or Corruption) ≫= λ header,
      if ph_level header =? level then
        level_candidates level edges values ≫= λ rest, Ok (mkCandidate parent entry header :: rest)
      else Err Corruption
  | _, _ => Ok []
  end.
Definition same_level_candidates (fuel : nat) (m : IndexManifest) (tree_key : list Z) (level : Z) : M R (list LevelCandidate) :=
  let! parent_level := m_lift (ok_or Corruption (checked_add_u32 level 1)) in
  let! bodies := level_bodies fuel m tree_key parent_level in
  let! edges := scan_child_edges collect_edge fuel m tree_key bodies [] in
  let! headers := candidate_headers (im_logical_index_id m) tree_key (chunks (Z.to_nat (sl_item_limit DISCOVERY_SCAN_LIMITS)) edges) in
  m_lift (level_candidates level edges headers).
End readers.

(** ** Update-protected authority *)
Section protected.
Context (xxh3_128 : Z → list Z → Z) (sha256 : list Z → list Z) {T : Type} `{WriteOps T}.
#[local] Instance reader : LogicalReader (WriteLogicalTxn T) := write_txn_reader xxh3_128 sha256 T.

Definition authority_for_update (header_key state_key : LogicalKey.t) : M (WriteLogicalTxn T) Authority :=
  let! values := batch_get_for_update xxh3_128 sha256 [header_key; state_key] in
  let! found := m_lift (decode_authority_pair values) in
  m_ret found.1.
Definition authority_pair (header_key state_key : LogicalKey.t)
    : M (WriteLogicalTxn T) (option (PartitionHeader * PartitionTransition.t)) :=
  let! found := authority_for_update header_key state_key in
  m_lift (classify_authority found).
Definition lock_incoming_edge (fuel : nat) (tree_key : list Z) (partition level : Z) (parent : option Z) : M (WriteLogicalTxn T) Z :=
  let! t := m_get in
  let! m := m_lift (require_bound_manifest t) in
  let index := im_logical_index_id m in
  let! parent :=
    match parent with
    | Some parent => m_ret parent
    | None =>
        let! found := find_incoming_edge fuel m tree_key partition level in
        let! edge := m_lift (ok_or Corruption found) in
        m_ret edge.1
    end in
  let! value := get_for_update xxh3_128 sha256 (LogicalKey.ChildEntry index tree_key parent partition) in
  let! _ := m_lift (expect_child_entry value ≫= ok_or Corruption) in
  m_ret parent.
Fixpoint headers_unchanged (headers : list (Z * PartitionHeader)) (values : list (option PersistentValue.t)) : result bool :=
  match headers, values with
  | (_, expected) :: headers, value :: values =>
      expect_header value ≫= λ header,
      if decide (header = Some expected) then headers_unchanged headers values else Ok false
  | _, _ => Ok true
  end.
Fixpoint validate_batches (index : Z) (tree_key : list Z) (batches : list (list (Z * PartitionHeader))) : M (WriteLogicalTxn T) bool :=
  match batches with
  | [] => m_ret true
  | batch :: batches =>
      let! values := batch_get_for_update xxh3_128 sha256 ((λ '(partition, _), LogicalKey.Header index tree_key partition) <$> batch) in
      let! unchanged := m_lift (headers_unchanged batch values) in
      if unchanged then validate_batches index tree_key batches else m_ret false
  end.
Definition edge_proof_validate (fuel : nat) (p : IncomingEdgeProof) (tree_key : list Z) : M (WriteLogicalTxn T) bool :=
  let! t := m_get in
  let! m := m_lift (require_bound_manifest t) in
  let index := im_logical_index_id m in
  let! root_header := read_header index tree_key root_partition in
  if ph_level root_header <? ip_level p then m_ret false
  else
    let! bodies := level_bodies fuel m tree_key (ip_level p) in
    if negb (bool_decide (bodies = edge_proof_bodies p)) then m_ret false
    else validate_batches index tree_key (chunks DISCOVERY_BODY_BATCH (ip_headers p)).
End protected.
