(* ===== verification/DiscoverySpec.v ===== *)
(** Discovery is exact: over every typed reader, the waves of paged scans visit
    every Child Entry of every body once, the root-down walk returns the
    partitions of a level, and the incoming edge it finds is the only one. *)
From stdpp Require Import gmap sorting.
From S2P Require Import Prelude RustStd Api TreeKey Keys KeyRanges RaBitQ Manifest Wire ValueData Records Synopsis Values Backend Memory Txn Codec Logical Membership LogicalSpec Reader Discovery.

Lemma length_range_entries v range : (length (range_entries v range) ≤ size v)%nat.
Proof.
  unfold range_entries. etrans; [apply filter_length_le|]. unfold ordered.
  by rewrite merge_sort_Permutation, length_fmap, length_map_to_list.
Qed.
Lemma chunks_concat {A} n (l : list A) : n ≠ 0%nat → concat (chunks n l) = l.
Proof.
  intros Hn. unfold chunks. enough (∀ fuel l, (length l ≤ fuel)%nat → concat (chunks_fuel fuel n l) = l) as Hgen by by apply Hgen.
  clear l. intros fuel. induction fuel as [|fuel IH]; intros [|x l] Hl; cbn [chunks_fuel concat length] in *; [done|lia|done|].
  rewrite IH; [apply take_drop|]. rewrite length_drop. cbn [length]. lia.
Qed.

Lemma wp_assoc {T A B C} (m : M T A) (f : A → M T B) (g : B → M T C) Q E t :
  wp (m_bind (m_bind m f) g) Q E t → wp (m_bind m (λ a, m_bind (f a) g)) Q E t.
Proof. unfold wp, m_bind. by destruct (m t) as [t' [a|e|]]. Qed.
Lemma wp_flat {T A B C} (m : M T A) (f : A → M T B) (g : B → M T C) Q E t :
  wp (m_bind m (λ a, m_bind (f a) g)) Q E t → wp (m_bind (m_bind m f) g) Q E t.
Proof. unfold wp, m_bind. by destruct (m t) as [t' [a|e|]]. Qed.

(** ** Visiting *)
Section visits.
Context {A : Type} (visit : A → Z → ChildEntry → result A).
(** The visitor over edges in the order they come. *)
Fixpoint visit_all (edges : list (Z * ChildEntry)) (acc : A) : result A :=
  match edges with
  | [] => Ok acc
  | (body, entry) :: edges => visit acc body entry ≫= visit_all edges
  end.
Lemma visit_all_cons body entry edges acc : visit_all ((body, entry) :: edges) acc = visit acc body entry ≫= visit_all edges.
Proof. done. Qed.
Lemma visit_all_app xs ys acc : visit_all (xs ++ ys) acc = visit_all xs acc ≫= visit_all ys.
Proof.
  revert acc. induction xs as [|[b e] xs IH]; intros acc; cbn [app visit_all]; [done|].
  destruct (visit acc b e); cbn [mbind result_bind]; [apply IH|done..].
Qed.
Context (Hvisit : ∀ acc body entry, no_panic (visit acc body entry)).
Lemma visit_items_no_panic body items acc : no_panic (visit_items visit body items acc).
Proof.
  revert acc. induction items as [|item items IH]; intros acc; cbn [visit_items]; [done|].
  apply bind_no_panic; [by destruct (li_value item)|]. intros e _. apply bind_no_panic; [apply Hvisit|]. intros acc' _. apply IH.
Qed.
Lemma visit_items_ok body items acc acc' :
  visit_items visit body items acc = Ok acc' →
  ∃ es, Forall2 (λ item e, li_value item = PersistentValue.ChildEntry e) items es ∧ visit_all (pair body <$> es) acc = Ok acc'.
Proof.
  revert acc. induction items as [|item items IH]; intros acc; cbn [visit_items].
  - intros [= <-]. by exists [].
  - intros (e & He & H)%bind_ok. apply bind_ok in H as (acc1 & Hv & H). destruct (IH _ H) as (es & Hes & Hall).
    exists (e :: es). split; [constructor; [|done]; by destruct (li_value item); simplify_eq/=|].
    cbn [fmap list_fmap visit_all]. by rewrite Hv.
Qed.
Lemma visit_pages_no_panic pending pages acc : no_panic (visit_pages visit pending pages acc).
Proof.
  revert pages acc. induction pending as [|[[body range] cursor] pending IH]; intros [|page pages] acc; cbn [visit_pages]; try done.
  apply bind_no_panic; [apply visit_items_no_panic|]. intros acc1 _. apply bind_no_panic; [apply IH|]. by intros [] _.
Qed.
End visits.

(** ** Scans visit every edge once *)
Section scans.
Context (xxh3_128 : Z → list Z → Z) (sha256 : list Z → list Z) {R : Type} `{ReaderLaws xxh3_128 sha256 R}.
Context (b : LogicalBinding) (types : list DataType.t) (Hb : binding_ok b types) (v : store).
Abbreviation Leg := (Z * LogicalRange * option LogicalScanCursor)%type.
(** A reader that serves [v] under [b]. *)
Definition serves (r : R) : Prop := rdr_ok r ∧ rdr_binding r = b ∧ rdr_store r = v.
Lemma serves_keeps r r' : serves r → rdr_keeps r r' → serves r'.
Proof. intros (_ & Eb & Ev) (Eb' & Ev' & Hok)%rdr_keeps_same. split_and!; [done|congruence..]. Qed.

(** What a leg has still to visit. *)
Definition left_of (leg : Leg) : list (Z * ScanItem) := pair leg.1.1 <$> remaining v (leg.1.2, leg.2).
Definition edge_of (item : Z * ScanItem) (edge : Z * ChildEntry) : Prop :=
  item.1 = edge.1 ∧ ∃ x, decoded xxh3_128 sha256 b types item.2 x ∧ li_value x = PersistentValue.ChildEntry edge.2.
(** [edges] lists the pending entries, in some order. *)
Definition lists (items : list (Z * ScanItem)) (edges : list (Z * ChildEntry)) : Prop :=
  ∃ items', items' ≡ₚ items ∧ Forall2 edge_of items' edges.
Lemma edge_of_fun item e e' : edge_of item e → edge_of item e' → e = e'.
Proof.
  intros (E & x & [Dk Dv] & Ex) (E' & x' & [Dk' Dv'] & Ex'). destruct e, e', x, x'; cbn in *; subst.
  rewrite Dk in Dk'. injection Dk' as <-. rewrite Dv in Dv'. by injection Dv' as <-.
Qed.

Context {A : Type} (visit : A → Z → ChildEntry → result A) (Hvisit : ∀ acc body entry, no_panic (visit acc body entry)).
Lemma visit_pages_ok pending pages acc acc' pending' :
  Forall2 (λ (leg : Leg) page, typed_page xxh3_128 sha256 b types v (leg.1.2, leg.2) page) pending pages →
  visit_pages visit pending pages acc = Ok (acc', pending') →
  ∃ items edges, items ++ concat (left_of <$> retain_pending pending') ≡ₚ concat (left_of <$> pending) ∧ Forall2 edge_of items edges ∧
    visit_all visit edges acc = Ok acc' ∧
    Forall (λ leg' : Leg, is_Some leg'.2 → ∃ leg, leg ∈ pending ∧ (length (left_of leg') < length (left_of leg))%nat) pending'.
Proof.
  intros Hp. revert acc acc' pending'. induction Hp as [|[[body range] cursor] page pending pages Hpage _ IH]; intros acc acc' pending'; cbn [visit_pages].
  { intros [= <- <-]. exists [], []. split_and!; [done|constructor|done|apply List.Forall_nil]. }
  intros (acc1 & H1 & H2)%bind_ok. apply bind_ok in H2 as ([acc2 rest] & H2 & H3). apply Ok_inj in H3 as [= <- <-].
  destruct (IH _ _ _ H2) as (items & edges & Hperm & Hed & Hall & Hdec).
  destruct (visit_items_ok _ _ _ _ _ H1) as (es & Hes & Hv). destruct Hpage as (taken & more & Erem & Hdec' & Hcur). cbn [fst snd] in *.
  assert (left_of (body, range, cursor) = (pair body <$> taken) ++ (pair body <$> more)) as El by (unfold left_of; cbn [fst snd]; by rewrite Erem, fmap_app).
  exists ((pair body <$> taken) ++ items), ((pair body <$> es) ++ edges). split_and!.
  - cbn [fmap list_fmap concat]. rewrite El. unfold retain_pending in *. destruct (lp_next_cursor page) as [next|] eqn:Ec.
    + rewrite filter_cons_True by (cbn; eauto). cbn [fmap list_fmap concat].
      assert (left_of (body, range, Some next) = pair body <$> more) as -> by (unfold left_of; cbn [fst snd]; by destruct Hcur as (_ & _ & ->)).
      rewrite <-Hperm. rewrite <-!app_assoc. apply Permutation_app_head. rewrite !app_assoc. apply Permutation_app_tail, Permutation_app_comm.
    + rewrite filter_cons_False by (cbn; by intros []). subst more. cbn [fmap list_fmap]. rewrite app_nil_r, <-Hperm. by rewrite app_assoc.
  - apply Forall2_app; [|done]. clear -Hdec' Hes. revert es Hes. induction Hdec' as [|item x taken xs Hd _ IH]; intros es Hes.
    + apply Forall2_nil_inv_l in Hes as ->. constructor.
    + apply Forall2_cons_inv_l in Hes as (e & es' & He & Hes & ->). constructor; [|by apply IH]. split; [done|]. by exists x.
  - rewrite visit_all_app, Hv. done.
  - apply Forall_cons_iff. split.
    + cbn [snd]. intros [next Ec]. exists (body, range, cursor). split; [by left|]. rewrite El, Ec in *. destruct Hcur as (Hne & _ & Em).
      unfold left_of. cbn [fst snd]. rewrite Em, length_app, !length_fmap. destruct taken; [done|]. cbn [length]. lia.
    + eapply Forall_impl; [|exact Hdec]. intros leg Hl Hs. destruct (Hl Hs) as (leg0 & ? & ?). exists leg0. split; [by right|done].
Qed.
Lemma serves_refl r : serves r → rdr_keeps r r.
Proof. intros (Hok & _). by apply rdr_keeps_refl. Qed.
Definition scanned (r : R) (items : list (Z * ScanItem)) (acc acc' : A) (r' : R) : Prop :=
  rdr_keeps r r' ∧ ∃ edges, lists items edges ∧ visit_all visit edges acc = Ok acc'.
Lemma scanned_nil r acc : serves r → scanned r [] acc acc r.
Proof. intros Hr. split; [by apply serves_refl|]. exists []. split; [|done]. exists []. by split; [|constructor]. Qed.
Lemma lists_app xs ys es fs : lists xs es → lists ys fs → lists (xs ++ ys) (es ++ fs).
Proof. intros (xs' & E & F) (ys' & E' & F'). exists (xs' ++ ys'). split; [by rewrite E, E'|by apply Forall2_app]. Qed.
Lemma scanned_app r r1 r2 xs ys acc acc1 acc2 : scanned r xs acc acc1 r1 → scanned r1 ys acc1 acc2 r2 → scanned r (xs ++ ys) acc acc2 r2.
Proof.
  intros (Hk & es & Hl & Hv) (Hk' & fs & Hl' & Hv'). split; [by etrans|]. exists (es ++ fs). split; [by apply lists_app|].
  rewrite visit_all_app, Hv. done.
Qed.
Lemma scan_rounds_spec fuel pending acc r :
  serves r → Forall (λ leg, (length (left_of leg) < fuel)%nat) pending →
  wp (scan_rounds visit fuel pending acc) (λ acc' r', scanned r (concat (left_of <$> pending)) acc acc' r') (λ _ r', rdr_keeps r r') r.
Proof.
  revert pending acc r. induction fuel as [|fuel IH]; intros pending acc r Hr Hlen.
  { destruct pending; [by apply wp_ret, scanned_nil|]. apply Forall_cons_iff in Hlen as [? _]. lia. }
  destruct pending as [|leg0 pending0] eqn:Epend; [by apply wp_ret, scanned_nil|]. rewrite <-Epend in *. clear leg0 pending0 Epend.
  assert (scan_rounds visit (S fuel) pending acc = match pending with [] => m_ret acc | _ =>
    let! pages := rdr_batch_scan ((λ '(_, range, cursor), (range, cursor)) <$> pending) DISCOVERY_SCAN_LIMITS in
    let! visited := m_lift (visit_pages visit pending pages acc) in
    scan_rounds visit fuel (retain_pending visited.2) visited.1 end) as -> by by destruct pending.
  destruct pending as [|leg0 pending0] eqn:Epend; [by apply wp_ret, scanned_nil|]. rewrite <-Epend in *. clear leg0 pending0 Epend.
  pose proof Hr as (Hok & Eb & Ev). eapply wp_step; [apply (rdr_batch_scan_law types); [done|by rewrite Eb|done]|done|].
  intros pages r1 [Hpages Hk]. rewrite Eb, Ev in Hpages. rewrite Forall2_fmap_l in Hpages.
  apply wp_bind, wp_lift; [by apply visit_pages_no_panic| |done]. intros [acc1 rest] Hv.
  destruct (visit_pages_ok pending pages acc acc1 rest) as (items & edges & Hperm & Hed & Hall & Hdec); [|done|].
  { eapply Forall2_impl; [|exact Hpages]. by intros [[]]. }
  cbn [fst snd]. eapply wp_mono; [apply IH; [by eapply serves_keeps|]| |].
  - unfold retain_pending. apply Forall_forall. intros leg Hin%list_elem_of_In. apply list_elem_of_filter in Hin as [Hs Hin].
    eapply Forall_forall in Hdec; [|by apply list_elem_of_In]. destruct (Hdec Hs) as (leg' & Hin' & ?).
    eapply Forall_forall in Hlen; [|by apply list_elem_of_In]. lia.
  - intros acc2 r2 (Hk2 & edges2 & (items2 & Hp2 & Hf2) & Hall2). split; [by etrans|]. exists (edges ++ edges2). split.
    + exists (items ++ items2). split; [by rewrite Hp2|by apply Forall2_app].
    + rewrite visit_all_app, Hall. done.
  - intros e r2 Hk2. by etrans.
Qed.

Context (m : IndexManifest) (tree_key : list Z).
(** The stored Child Entries of one body. *)
Definition body_items (body : Z) : list (Z * ScanItem) :=
  match range_child_entries m tree_key body with Ok range => pair body <$> remaining v (range, None) | _ => [] end.
Context (Hm : manifest_ok m) (Htk : bytes_ok tree_key).
Lemma bind_partition_no_panic raw : no_panic (bind_partition m tree_key raw).
Proof.
  pose proof Hm as (_ & _ & _ & _ & _ & _ & tys & Ht). destruct (schema_of_manifest m tys Ht) as (schema & Hs & Hty).
  unfold bind_partition. rewrite Hs. cbn [mbind result_bind]. rewrite Hty. cbn [mbind result_bind].
  apply bind_no_panic; [unfold TreeKey_validate; by destruct (check_complete_total tys tree_key Htk) as [[[] ->]| ->]|].
  intros _ _. unfold range_bind. by rewrite Hs.
Qed.
Lemma bind_partition_ok raw range : bind_partition m tree_key raw = Ok range → lr_raw range = raw.
Proof.
  unfold bind_partition, range_bind. intros (s & _ & H1)%bind_ok. apply bind_ok in H1 as (tys & _ & H1).
  apply bind_ok in H1 as (u & _ & H1). apply bind_ok in H1 as (s' & _ & H1). by apply Ok_inj in H1 as <-.
Qed.
Lemma child_range_ok body range :
  range_child_entries m tree_key body = Ok range → lr_raw range = child_entry_range (im_logical_index_id m) tree_key body.
Proof. apply bind_partition_ok. Qed.
Definition scannable (body : Z) : Prop := ∃ range, range_child_entries m tree_key body = Ok range.
Definition fueled (fuel : nat) : Prop := (size v < fuel)%nat.
Lemma scan_chunks_spec fuel cs acc r :
  serves r → fueled fuel →
  wp (scan_chunks visit fuel m tree_key cs acc)
    (λ acc' r', scanned r (concat cs ≫= body_items) acc acc' r' ∧
      Forall scannable (concat cs))
    (λ _ r', rdr_keeps r r') r.
Proof.
  intros Hr Hf. revert acc r Hr. induction cs as [|chunk cs IH]; intros acc r Hr; cbn [scan_chunks concat].
  { apply wp_ret. split; [by apply scanned_nil|apply List.Forall_nil]. }
  apply wp_bind, wp_lift; [| |by intros; apply serves_refl].
  { apply mapM_no_panic. intros body. apply bind_no_panic; [apply bind_partition_no_panic|done]. }
  intros pending Hp%mapM_ok.
  assert (concat (left_of <$> pending) = chunk ≫= body_items) as Hitems.
  { clear -Hp. induction Hp as [|body leg bodies legs Hleg _ IH]; [done|]. cbn [fmap list_fmap concat mbind list_bind].
    apply bind_ok in Hleg as (range & Hrange & Hleg). apply Ok_inj in Hleg as <-. f_equal; [|exact IH]. unfold body_items. by rewrite Hrange. }
  eapply wp_step; [apply scan_rounds_spec; [done|]|done|].
  { apply Forall_forall. intros leg _. unfold left_of. rewrite length_fmap. unfold remaining. pose proof (length_range_entries v (leg_range (leg.1.2, leg.2))).
    unfold fueled in Hf. lia. }
  intros acc1 r1 Hs1. eapply wp_mono; [apply IH; eapply serves_keeps; [done|apply Hs1]| |intros e r2 ?; by etrans; [apply Hs1|]].
  intros acc2 r2 [Hs2 Hne]. split; [rewrite bind_app, <-Hitems; by eapply scanned_app|].
  apply Forall_app. split; [|done]. clear -Hp. induction Hp as [|body leg bodies legs Hleg _ IH]; [apply List.Forall_nil|].
  apply List.Forall_cons; [|exact IH]. apply bind_ok in Hleg as (range & ? & _). by exists range.
Qed.
Lemma scan_child_edges_spec fuel bodies acc r :
  serves r → fueled fuel →
  wp (scan_child_edges visit fuel m tree_key bodies acc) (λ acc' r', scanned r (bodies ≫= body_items) acc acc' r' ∧ Forall scannable bodies)
    (λ _ r', rdr_keeps r r') r.
Proof.
  intros Hr Hf. eapply wp_mono; [by apply scan_chunks_spec| |done]. intros acc' r' [Hs Hf']. by rewrite chunks_concat in Hs, Hf'.
Qed.
End scans.

(** ** The edges of a typed map *)
Section edges.
Context (xxh3_128 : Z → list Z → Z) (sha256 : list Z → list Z).
Context (b : LogicalBinding) (types : list DataType.t) (Hb : binding_ok b types) (max : Z) (v : store) (Hv : store_ok max v).
Context (m : IndexManifest) (Em : lb_manifest b = Some m) (tree_key : list Z) (Htk : tree_key_ok types tree_key).
Abbreviation ix := (im_logical_index_id m).
Abbreviation f := (typed_at xxh3_128 sha256 b v).
Definition edge_in (g : typed_map) (p c : Z) (e : ChildEntry) : Prop :=
  g (LogicalKey.ChildEntry ix tree_key p c) = Ok (Some (PersistentValue.ChildEntry e)).
Lemma bound_ix : manifest_ok m ∧ id_ok ix.
Proof. pose proof (bound_manifest_ok _ _ Hb _ Em) as Hm. split; [done|]. by destruct Hm. Qed.
Lemma tree_key_bytes : bytes_ok tree_key.
Proof. by eapply tree_key_ok_bytes. Qed.
Lemma child_key_encodes p c :
  id_ok p → id_ok c → encode_input_key b (LogicalKey.ChildEntry ix tree_key p c) = encode_key (LogicalKey.ChildEntry ix tree_key p c).
Proof.
  intros Hp Hc. unfold encode_input_key, validate_input_key, input_key_scope. rewrite Em. cbn [LogicalKey_index LogicalKey_tree_key].
  rewrite Z.eqb_refl. cbn [negb]. unfold validate_tree_key. rewrite Em, (bound_types _ _ Hb). cbn [mbind result_bind].
  unfold TreeKey_validate. by rewrite (proj2 (check_complete_spec types tree_key tree_key_bytes) Htk).
Qed.
Lemma typed_child p c bs e :
  id_ok p → id_ok c → ∀ key, encode_key (LogicalKey.ChildEntry ix tree_key p c) = Ok key → v !! key = Some bs →
  codec_decode xxh3_128 sha256 b (LogicalKey.ChildEntry ix tree_key p c) bs = Ok (PersistentValue.ChildEntry e) ↔ edge_in f p c e.
Proof.
  intros Hp Hc key Hk Hbs. unfold edge_in, typed_at. rewrite child_key_encodes, Hk by done. cbn [mbind result_bind]. rewrite Hbs. cbn [decode_value].
  split; [by intros ->|]. intros (v' & -> & H1)%bind_ok. apply Ok_inj in H1 as [= ->]. done.
Qed.
Lemma edge_child p c e : id_ok p → id_ok c → edge_in f p c e → ce_child e = c.
Proof.
  intros Hp Hc He. pose proof He as He'. unfold edge_in, typed_at in He. apply bind_ok in He as (key & Hk & He).
  destruct (v !! key) as [bs|] eqn:Ebs; [|done]. cbn [decode_value] in He. apply bind_ok in He as (v' & Hd & He). apply Ok_inj in He as [= ->].
  apply value_codec_decodes in Hd as [_ Hd]; [|by apply Hv in Ebs as [_ ?]|by eapply bound_manifest_ok].
  apply encode_for_key_ok in Hd as (_ & Hid & _). unfold validate_key_identity in Hid. cbn [LogicalKey_index] in Hid. rewrite Em, Z.eqb_refl in Hid. cbn [negb] in Hid.
  destruct (Z.eqb_spec c (ce_child e)); [done|done].
Qed.
Abbreviation edge_of := (edge_of xxh3_128 sha256 b types).
Abbreviation lists := (lists xxh3_128 sha256 b types).
Lemma in_child_range range body key :
  range_child_entries m tree_key body = Ok range → in_key_range (leg_range (range, None)) key ↔ in_key_range (child_entry_range ix tree_key body) key.
Proof. intros E%child_range_ok. unfold leg_range, in_key_range. cbn [fst snd range_start range_end]. by rewrite E. Qed.
Lemma item_edge body item edge :
  id_ok body → item ∈ body_items v m tree_key body → edge_of item edge →
  edge.1 = body ∧ id_ok (ce_child edge.2) ∧ edge_in f body (ce_child edge.2) edge.2.
Proof.
  intros Hbody Hin (E1 & x & [Dk Dv] & Ex). unfold body_items in Hin. destruct (range_child_entries m tree_key body) as [range|e|] eqn:Er; [|by apply elem_of_nil in Hin..].
  apply list_elem_of_fmap in Hin as (si & -> & Hin). cbn [fst snd] in *. unfold remaining in Hin. apply range_entries_elem in Hin as [Hsv Hrange].
  pose proof (Hv _ _ Hsv) as [[Hkb _] _]. apply decode_key_inv in Dk as [Hok Hke]; [|done]. destruct bound_ix as [Hm Hix].
  apply (in_child_range _ _ _ Er) in Hrange.
  destruct (partition_subkind_ranges_exact types (li_key x) (si_key si) ix tree_key body Hok Hke Hix Htk Hbody) as (_ & Hex & _).
  apply Hex in Hrange as [child Hkey]. rewrite Hkey, Ex in *. cbn [key_ok] in Hok. destruct Hok as (_ & _ & _ & Hchild).
  pose proof (proj1 (typed_child _ _ _ _ Hbody Hchild _ Hke Hsv) Dv) as He. pose proof (edge_child _ _ _ Hbody Hchild He) as Ec. by rewrite Ec.
Qed.
Lemma edge_item body c e :
  id_ok body → id_ok c → (∃ range, range_child_entries m tree_key body = Ok range) → edge_in f body c e →
  ∃ item, item ∈ body_items v m tree_key body ∧ edge_of item (body, e).
Proof.
  intros Hbody Hc [range Er] He. pose proof He as He'. unfold edge_in, typed_at in He. rewrite child_key_encodes in He by done.
  apply bind_ok in He as (key & Hk & He). destruct (v !! key) as [bs|] eqn:Ebs; [|done].
  pose proof (proj2 (typed_child _ _ _ _ Hbody Hc _ Hk Ebs) He') as Hd. destruct bound_ix as [Hm Hix].
  assert (key_ok types (LogicalKey.ChildEntry ix tree_key body c)) as Hok by done.
  exists (body, mkItem key bs). split.
  - unfold body_items. rewrite Er. apply list_elem_of_fmap. exists (mkItem key bs). split; [done|]. unfold remaining. apply range_entries_elem. split; [done|].
    apply (in_child_range _ _ _ Er). apply (partition_subkind_ranges_exact types _ key ix tree_key body Hok Hk Hix Htk Hbody). by exists c.
  - split; [done|]. exists (mkLogicalItem (LogicalKey.ChildEntry ix tree_key body c) (PersistentValue.ChildEntry e)). split; [|done]. split; [|done].
    by eapply decode_encode.
Qed.
(** The visited edges are the stored ones. *)
Lemma lists_edges bodies edges :
  Forall id_ok bodies → Forall (scannable m tree_key) bodies → lists (bodies ≫= body_items v m tree_key) edges →
  ∀ body e, (body, e) ∈ edges ↔ body ∈ bodies ∧ id_ok (ce_child e) ∧ edge_in f body (ce_child e) e.
Proof.
  intros Hids Hsc (items & Hperm & Hed) body e. split.
  - intros Hin. apply list_elem_of_lookup in Hin as [j Hj]. destruct (Forall2_lookup_r _ _ _ _ _ Hed Hj) as (item & Hi & He).
      assert (item ∈ bodies ≫= body_items v m tree_key) as Hitem by (rewrite <-Hperm; by eapply list_elem_of_lookup_2).
      apply list_elem_of_bind in Hitem as (body' & Hitem & Hbody'). eapply Forall_forall in Hids; [|by apply list_elem_of_In].
      destruct (item_edge body' item (body, e) Hids Hitem He) as (<- & ? & ?). done.
  - intros (Hbody & Hc & He). pose proof Hids as Hids'. eapply Forall_forall in Hids'; [|by apply list_elem_of_In].
      eapply Forall_forall in Hsc; [|by apply list_elem_of_In]. destruct (edge_item body _ e Hids' Hc Hsc He) as (item & Hitem & Hof).
      assert (item ∈ items) as Hi by (rewrite Hperm; apply list_elem_of_bind; by exists body). apply list_elem_of_lookup in Hi as [j Hj].
      destruct (Forall2_lookup_l _ _ _ _ _ Hed Hj) as (edge & Hedge & Hof'). rewrite (edge_of_fun _ _ _ _ _ _ _ Hof Hof'). by eapply list_elem_of_lookup_2.
Qed.
End edges.

(** ** Visitors *)
Lemma collect_children edges acc : visit_all collect_child edges acc = Ok (acc ++ (ce_child ∘ snd <$> edges)).
Proof.
  revert acc. induction edges as [|[body e] edges IH]; intros acc; [cbn; by rewrite app_nil_r|].
  rewrite visit_all_cons. cbn [collect_child mbind result_bind]. rewrite IH. by rewrite <-app_assoc.
Qed.
Lemma collect_edges edges acc : visit_all collect_edge edges acc = Ok (acc ++ edges).
Proof.
  revert acc. induction edges as [|[body e] edges IH]; intros acc; [cbn; by rewrite app_nil_r|].
  rewrite visit_all_cons. cbn [collect_edge mbind result_bind]. rewrite IH. by rewrite <-app_assoc.
Qed.
Lemma matched_edge p edges found0 found :
  visit_all (match_edge p) edges found0 = Ok found → option_list found = option_list found0 ++ filter (λ edge, ce_child edge.2 = p) edges.
Proof.
  revert found0. induction edges as [|[body e] edges IH]; intros found0.
  { intros [= <-]. by rewrite app_nil_r. }
  rewrite visit_all_cons. assert (match_edge p found0 body e = if ce_child e =? p then match found0 with Some _ => Err Corruption | None => Ok (Some (body, e)) end else Ok found0) as -> by done.
  destruct (Z.eqb_spec (ce_child e) p) as [Ec|Ec].
  - destruct found0; cbn [mbind result_bind]; [done|]. intros ->%IH. by rewrite filter_cons_True.
  - cbn [mbind result_bind]. intros ->%IH. by rewrite filter_cons_False.
Qed.
Lemma collect_child_no_panic acc body e : no_panic (collect_child acc body e).
Proof. unfold collect_child. done. Qed.
Lemma collect_edge_no_panic acc body e : no_panic (collect_edge acc body e).
Proof. unfold collect_edge. done. Qed.
Lemma match_edge_no_panic p found body e : no_panic (match_edge p found body e).
Proof. unfold match_edge. repeat case_match; done. Qed.

(** ** Levels

    The partitions of a level, as the walk defines them. *)
Section levels.
Context (m : IndexManifest) (tree_key : list Z).
Abbreviation ix := (im_logical_index_id m).
Implicit Types f : typed_map.
Definition header_in f (p : Z) (h : PartitionHeader) : Prop := f (LogicalKey.Header ix tree_key p) = Ok (Some (PersistentValue.PartitionHeader h)).
Definition state_in f (p : Z) (s : PartitionTransition.t) : Prop := f (LogicalKey.State ix tree_key p) = Ok (Some (PersistentValue.PartitionState s)).
(** A target slot of the root that the walk counts. *)
Definition slot_in f (p : Z) : Prop :=
  ∃ s, state_in f root_partition s ∧ p ∈ root_slots s ∧ p ≠ root_partition ∧ (is_draining s = true ∨ ∃ h, header_in f p h).
Inductive at_level f : Z → Z → Prop :=
  | al_root h : header_in f root_partition h → at_level f (ph_level h) root_partition
  | al_slot h p : header_in f root_partition h → slot_in f p → at_level f (ph_level h) p
  | al_child l p c e : at_level f (l + 1) p → id_ok c → edge_in m tree_key f p c e → at_level f l c.
Lemma at_level_below f h l p : header_in f root_partition h → at_level f l p → l ≤ ph_level h.
Proof.
  unfold header_in. intros Hh. induction 1 as [h' Hh'|h' p Hh' _|l p c e _ IH _ _]; [..|lia]; unfold header_in in Hh'; rewrite Hh in Hh'; by injection Hh' as <-.
Qed.
Lemma at_root_level f h p : header_in f root_partition h → at_level f (ph_level h) p ↔ p = root_partition ∨ slot_in f p.
Proof.
  intros Hh. split; [|intros [->|Hs]; [by apply al_root|by apply al_slot]]. inversion 1 as [h' Hh' E|h' p' Hh' Hs|l p' c e Hp]; [by left|by right|].
  apply (at_level_below _ _ _ _ Hh) in Hp. lia.
Qed.
Lemma at_lower_level f h l p :
  header_in f root_partition h → l < ph_level h → at_level f l p ↔ id_ok p ∧ ∃ q e, at_level f (l + 1) q ∧ edge_in m tree_key f q p e.
Proof.
  intros Hh Hl. split; [|intros (Hp & q & e & Hq & He); by eapply al_child].
  unfold header_in in Hh. inversion 1 as [h' Hh' E|h' p' Hh' Hs|l' p' c e Hp]; [unfold header_in in Hh'; rewrite Hh in Hh'; injection Hh' as <-; lia..|eauto].
Qed.
End levels.

(** ** The walk *)
Section walk.
Context (xxh3_128 : Z → list Z → Z) (sha256 : list Z → list Z) {R : Type} `{ReaderLaws xxh3_128 sha256 R}.
Context (b : LogicalBinding) (types : list DataType.t) (Hb : binding_ok b types) (v : store).
Context (m : IndexManifest) (Em : lb_manifest b = Some m) (tree_key : list Z) (Htk : bytes_ok tree_key).
Abbreviation ix := (im_logical_index_id m).
Abbreviation f := (typed_at xxh3_128 sha256 b v).
Abbreviation serves := (serves xxh3_128 sha256 b v).
Abbreviation header_in := (header_in m tree_key f).
Abbreviation at_level := (at_level m tree_key f).
Abbreviation edge_in := (edge_in m tree_key f).
Implicit Types r : R.

Lemma reader_index_ok : manifest_ok m ∧ id_ok ix.
Proof. by eapply bound_ix. Qed.
Lemma header_typed_key p : id_ok p → key_typed (LogicalKey.Header ix tree_key p).
Proof. intros. destruct reader_index_ok. done. Qed.
(** A partition whose Header was read has a valid Tree Key. *)
Lemma read_tree_key p x : id_ok p → f (LogicalKey.Header ix tree_key p) = Ok x → tree_key_ok types tree_key.
Proof.
  intros Hp (k & Hk & _)%bind_ok. eapply encode_input_key_ok in Hk as (Hk & _); [|done|by apply header_typed_key]. by destruct Hk as (_ & ? & _).
Qed.
Definition option_header p (h : option PartitionHeader) : Prop :=
  f (LogicalKey.Header ix tree_key p) = Ok (PersistentValue.PartitionHeader <$> h).
Lemma expect_header_ok x h : expect_header x = Ok h → x = PersistentValue.PartitionHeader <$> h.
Proof. destruct x as [[]|]; cbn; intros; simplify_eq; done. Qed.
Lemma expect_state_ok x s : expect_state x = Ok s → x = PersistentValue.PartitionState <$> s.
Proof. destruct x as [[]|]; cbn; intros; simplify_eq; done. Qed.
Lemma read_header_opt_spec p r :
  serves r → id_ok p → wp (read_header_opt ix tree_key p) (λ h r', option_header p h ∧ rdr_keeps r r') (λ _ r', rdr_keeps r r') r.
Proof.
  intros (Hok & Eb & Ev) Hp. unfold read_header_opt. eapply wp_step; [apply (rdr_get_law types); [done|by rewrite Eb|by apply header_typed_key]|done|].
  intros x r1 [Hx Hk]. rewrite Eb, Ev in Hx. apply wp_lift; [by destruct x as [[]|]| |done]. intros h Hh%expect_header_ok. subst x. done.
Qed.
Lemma read_header_spec p r :
  serves r → id_ok p → wp (read_header ix tree_key p) (λ h r', header_in p h ∧ rdr_keeps r r') (λ _ r', rdr_keeps r r') r.
Proof.
  intros Hr Hp. unfold read_header. eapply wp_step; [by apply read_header_opt_spec|done|]. intros [h|] r1 [Hh Hk]; apply wp_lift; try done.
  by intros ? [= <-].
Qed.
Lemma state_ids p s : id_ok p → state_in m tree_key f p s → store_ok rdr_max_key v → transition_ids_ok s.
Proof.
  intros Hp Hs Hv. unfold state_in, typed_at in Hs. apply bind_ok in Hs as (k & Hk & Hs). destruct (v !! k) as [bs|] eqn:Ebs; [|done].
  cbn [decode_value] in Hs. apply bind_ok in Hs as (x & Hd & Hs). apply Ok_inj in Hs as [= ->].
  apply value_codec_decodes in Hd as [Hx _]; [|by apply Hv in Ebs as [_ ?]|by eapply bound_manifest_ok].
  by destruct Hx as (m' & Hm' & _ & [[_ ?] _]).
Qed.
Lemma read_state_spec p r :
  serves r → id_ok p →
  wp (read_state ix tree_key p)
    (λ s r', f (LogicalKey.State ix tree_key p) = Ok (PersistentValue.PartitionState <$> s) ∧ rdr_keeps r r') (λ _ r', rdr_keeps r r') r.
Proof.
  intros (Hok & Eb & Ev) Hp. destruct reader_index_ok. unfold read_state. eapply wp_step; [apply (rdr_get_law types); [done|by rewrite Eb|done]|done|].
  intros x r1 [Hx Hk]. rewrite Eb, Ev in Hx. apply wp_lift; [by destruct x as [[]|]| |done]. intros s Hs%expect_state_ok. subst x. done.
Qed.
Lemma root_id : id_ok root_partition.
Proof. done. Qed.
Lemma slots_ids s : transition_ids_ok s → Forall id_ok (root_slots s).
Proof.
  destruct s; cbn [transition_ids_ok root_slots]; intros; destruct_and?; repeat (apply List.Forall_cons; [done|]); apply List.Forall_nil.
Qed.
Lemma add_slots_spec draining targets bodies r :
  serves r → Forall id_ok targets → Forall id_ok bodies →
  wp (add_slots ix tree_key draining targets bodies)
    (λ bodies' r', rdr_keeps r r' ∧ Forall id_ok bodies' ∧
       ∀ p, p ∈ bodies' ↔ p ∈ bodies ∨ p ∈ targets ∧ p ≠ root_partition ∧ (p ∉ bodies) ∧ (draining = true ∨ (∃ h, header_in p h)))
    (λ _ r', rdr_keeps r r') r.
Proof.
  intros Hr Ht. revert bodies r Hr. induction Ht as [|t targets Hid _ IH]; intros bodies r Hr Hbs; cbn [add_slots].
  { apply wp_ret. split_and!; [by eapply serves_refl|done|]. intros p. split; [by left|]. intros [?|[Hp _]]; [done|by apply elem_of_nil in Hp]. }
  destruct ((t =? root_partition) || bool_decide (t ∈ bodies)) eqn:E.
  - eapply wp_mono; [by apply IH| |done]. intros bodies' r' (Hk & Hids & Hin). split_and!; [done..|]. intros p. rewrite Hin, elem_of_cons.
    apply orb_true_iff in E as [->%Z.eqb_eq|E%bool_decide_eq_true]; naive_solver.
  - apply orb_false_iff in E as [Hroot%Z.eqb_neq Hnew%bool_decide_eq_false].
    eapply wp_step; [by apply read_header_opt_spec|done|]. intros h r1 [Hh Hk1].
    assert (is_Some h ↔ ∃ h', header_in t h') as Hsome.
    { unfold option_header in Hh. unfold DiscoverySpec.header_in. rewrite Hh. destruct h as [h|]; split; [by exists h|done|by intros []|by intros [? [=]]]. }
    pose proof (serves_keeps _ _ _ _ _ _ Hr Hk1) as Hr1. destruct (negb (bool_decide (is_Some h)) && negb draining) eqn:Es.
    + apply andb_true_iff in Es as [Es%negb_true_iff Ed%negb_true_iff]. apply bool_decide_eq_false in Es. rewrite Hsome in Es.
      eapply wp_mono; [by apply IH| |intros ? r' ?; by etrans]. intros bodies' r' (Hk & Hids & Hin). split_and!; [by etrans|done|].
      intros p. rewrite Hin, elem_of_cons. naive_solver.
    + assert (draining = true ∨ ∃ h', header_in t h') as Hok.
      { rewrite <-Hsome. destruct draining; [by left|]. right. rewrite andb_true_r in Es. apply negb_false_iff, bool_decide_eq_true in Es. done. }
      eapply wp_mono; [apply IH; [done|]| |intros ? r' ?; by etrans].
      { apply Forall_app. split; [done|]. apply List.Forall_cons; [done|apply List.Forall_nil]. }
      intros bodies' r' (Hk & Hids & Hin). split_and!; [by etrans|done|]. intros p. rewrite Hin, elem_of_cons, elem_of_app, list_elem_of_singleton.
      destruct (decide (p = t)) as [->|]; naive_solver.
Qed.
Lemma expect_levels_ok level values u :
  expect_levels level values = Ok u → Forall (λ x, ∃ h, x = Some (PersistentValue.PartitionHeader h) ∧ ph_level h = level) values.
Proof.
  induction values as [|x values IH]; cbn [expect_levels]; [intros _; apply List.Forall_nil|]. intros (h & Hh & H1)%bind_ok.
  apply bind_ok in Hh as (h' & ->%expect_header_ok & ->%ok_or_ok). destruct (Z.eqb_spec (ph_level h) level); [|done].
  apply List.Forall_cons; [eauto|by apply IH].
Qed.
Lemma expect_levels_no_panic level values : no_panic (expect_levels level values).
Proof.
  induction values as [|x values IH]; cbn [expect_levels]; [done|]. apply bind_no_panic; [by destruct x as [[]|]|]. intros h _. by case_match.
Qed.
Definition on_level (level p : Z) : Prop := ∃ h, header_in p h ∧ ph_level h = level.
Lemma read_levels_spec level chunk r :
  serves r → Forall id_ok chunk →
  wp (let! values := rdr_batch_get (LogicalKey.Header ix tree_key <$> chunk) in m_lift (expect_levels level values))
    (λ _ r', rdr_keeps r r' ∧ Forall (on_level level) chunk) (λ _ r', rdr_keeps r r') r.
Proof.
  intros (Hok & Eb & Ev) Hids. eapply wp_step; [apply (rdr_batch_get_law types); [done|by rewrite Eb|]|done|].
  { apply Forall_fmap. eapply Forall_impl; [|exact Hids]. apply header_typed_key. }
  intros values r1 [Hvs Hk]. rewrite Eb, Ev in Hvs. apply wp_lift; [apply expect_levels_no_panic| |done]. intros u Hl%expect_levels_ok. split; [done|].
  rewrite Forall2_fmap_l in Hvs. clear -Hvs Hl. induction Hvs as [|p x ps xs Hx _ IH]; [apply List.Forall_nil|].
  apply Forall_cons_iff in Hl as [(h & -> & Eh) Hl]. apply List.Forall_cons; [by exists h|by apply IH].
Qed.
Context (Hstore : store_ok rdr_max_key v) (fuel : nat) (Hfuel : fueled v fuel).
Abbreviation visits := (scanned xxh3_128 sha256 b types).
Lemma scan_edges_spec {A} (visit : A → Z → ChildEntry → result A) bodies acc r :
  (∀ acc body entry, no_panic (visit acc body entry)) → tree_key_ok types tree_key → serves r → Forall id_ok bodies →
  wp (scan_child_edges visit fuel m tree_key bodies acc)
    (λ acc' r', rdr_keeps r r' ∧ ∃ edges, visit_all visit edges acc = Ok acc' ∧
       ∀ body e, (body, e) ∈ edges ↔ body ∈ bodies ∧ id_ok (ce_child e) ∧ edge_in body (ce_child e) e)
    (λ _ r', rdr_keeps r r') r.
Proof.
  intros Hvisit Hty Hr Hids. destruct reader_index_ok as [Hm _]. eapply wp_mono; [by apply (scan_child_edges_spec xxh3_128 sha256 b types Hb v)| |done].
  intros acc' r' [(Hk & edges & Hl & Hv) Hsc]. split; [done|]. exists edges. split; [done|]. by eapply lists_edges.
Qed.
Lemma edge_id p c e : id_ok p → id_ok c → tree_key_ok types tree_key → edge_in p c e → ce_child e = c.
Proof. intros Hp Hc Hty He. by eapply (edge_child xxh3_128 sha256 b types Hb _ v Hstore m Em tree_key p). Qed.
Lemma descend_chunks_spec level cs next r :
  tree_key_ok types tree_key → serves r → Forall id_ok (concat cs) → Forall id_ok next →
  wp (descend_chunks fuel m tree_key level cs next)
    (λ next' r', rdr_keeps r r' ∧ Forall id_ok next' ∧ Forall (on_level level) (concat cs) ∧
       ∀ c, c ∈ next' ↔ c ∈ next ∨ id_ok c ∧ ∃ p e, p ∈ concat cs ∧ edge_in p c e)
    (λ _ r', rdr_keeps r r') r.
Proof.
  intros Hty. revert next r. induction cs as [|chunk cs IH]; intros next r Hr Hids Hnext; cbn [descend_chunks concat] in *.
  { apply wp_ret. split_and!; [by eapply serves_refl|done|apply List.Forall_nil|]. intros c. split; [by left|].
    intros [?|(_ & p & e & Hp & _)]; [done|by apply elem_of_nil in Hp]. }
  apply Forall_app in Hids as [Hchunk Hids].
  apply wp_assoc. eapply wp_step; [by apply read_levels_spec|done|]. intros u r2 [Hk2 Hl2]. pose proof (serves_keeps _ _ _ _ _ _ Hr Hk2) as Hr2.
  eapply wp_step; [apply scan_edges_spec; [apply collect_child_no_panic|done..]|intros ? r3 ?; by etrans|]. intros next1 r3 (Hk3 & edges & Hv & Hedges).
  rewrite collect_children in Hv. apply Ok_inj in Hv as <-. pose proof (serves_keeps _ _ _ _ _ _ Hr2 Hk3) as Hr3.
  eapply wp_mono; [apply IH; [done..|]| |intros ? r4 ?; by etrans; [|etrans]].
  { apply Forall_app. split; [done|]. apply Forall_fmap, Forall_forall. intros [body e] Hin%list_elem_of_In. by apply Hedges in Hin as (_ & ? & _). }
  intros next' r4 (Hk4 & Hn4 & Hl4 & Hin). split_and!; [by etrans; [|etrans]|done|by apply Forall_app|].
  intros c. rewrite Hin, elem_of_app, list_elem_of_fmap. setoid_rewrite elem_of_app. split.
  - intros [[Hc|([body e] & -> & He)]|(Hc & p & e & Hp & He)]; [by left| |right; eauto 10].
    apply Hedges in He as (Hp & Hc & He). right. split; [done|]. exists body, e. split; [by left|done].
  - intros [Hc|(Hc & p & e & [Hp|Hp] & He)]; [by left; left| |right; eauto 10]. left. right. exists (p, e).
    assert (id_ok p) as Hpid by (eapply Forall_forall in Hchunk; [exact Hchunk|by apply list_elem_of_In]).
    pose proof (edge_id p c e Hpid Hc Hty He) as Ec. split; [by rewrite <-Ec|]. apply Hedges. by rewrite Ec.
Qed.
(** What the walk has established above [level]. *)
Definition levels_above (level : Z) : Prop := ∀ l p, level < l → at_level l p → on_level l p.
Lemma with_root_slots_spec root_header r :
  serves r → header_in root_partition root_header →
  wp (with_root_slots ix tree_key [root_partition])
    (λ bodies r', rdr_keeps r r' ∧ Forall id_ok bodies ∧ ∀ p, p ∈ bodies ↔ at_level (ph_level root_header) p) (λ _ r', rdr_keeps r r') r.
Proof.
  intros Hr Hroot. assert (Forall id_ok [root_partition]) as Hids by (apply List.Forall_cons; [apply root_id|apply List.Forall_nil]).
  unfold with_root_slots. eapply wp_step; [by apply read_state_spec, root_id|done|]. intros s r1 [Hs Hk1].
  pose proof (serves_keeps _ _ _ _ _ _ Hr Hk1) as Hr1. destruct s as [s|].
  - assert (state_in m tree_key f root_partition s) as Hst by done. pose proof (slots_ids s (state_ids _ _ root_id Hst Hstore)) as Hsl.
    eapply wp_mono; [by apply add_slots_spec| |intros ? r2 ?; by etrans]. intros bodies r2 (Hk2 & Hb2 & Hin). split_and!; [by etrans|done|].
    intros p. rewrite Hin, (at_root_level _ _ _ _ _ Hroot), list_elem_of_singleton. split.
    + intros [->|(Hp & Hne & _ & Hd)]; [by left|right]. by exists s.
    + intros [->|(s' & Hs' & Hp & Hne & Hd)]; [by left|]. right. unfold state_in in *. rewrite Hst in Hs'. injection Hs' as <-. done.
  - apply wp_ret. split_and!; [done|done|]. intros p. rewrite (at_root_level _ _ _ _ _ Hroot), list_elem_of_singleton. split; [by left|]. intros [->|(s & Hs' & _)]; [done|].
    unfold state_in in Hs'. rewrite Hs in Hs'. done.
Qed.
Lemma level_loop_spec turns root_header level current bodies r :
  tree_key_ok types tree_key → serves r → header_in root_partition root_header → Forall id_ok bodies →
  current - level = Z.of_nat turns → current ≤ ph_level root_header → levels_above current →
  (if decide (current = ph_level root_header) then bodies = [root_partition] else ∀ p, p ∈ bodies ↔ at_level current p) →
  wp (level_loop fuel turns m tree_key (ph_level root_header) level current bodies)
    (λ bodies' r', rdr_keeps r r' ∧ Forall id_ok bodies' ∧ (∀ p, p ∈ bodies' ↔ at_level level p) ∧ levels_above level) (λ _ r', rdr_keeps r r') r.
Proof.
  intros Hty. revert current bodies r. induction turns as [|turns IH]; intros current bodies r Hr Hroot Hids Hturns Hle Habove Hbodies;
    cbn [level_loop]; (eapply wp_step with
      (Q := λ bodies1 r', rdr_keeps r r' ∧ Forall id_ok bodies1 ∧ ∀ p, p ∈ bodies1 ↔ at_level current p) (E := λ _ r', rdr_keeps r r');
      [destruct (Z.eqb_spec current (ph_level root_header)) as [->|Hne];
        [rewrite decide_True in Hbodies by done; subst bodies; by apply with_root_slots_spec
        |rewrite decide_False in Hbodies by done; apply wp_ret; split_and!; [by eapply serves_refl|done|done]]
      |done|]); intros bodies1 r1 (Hk1 & Hid1 & Hin1); pose proof (serves_keeps _ _ _ _ _ _ Hr Hk1) as Hr1.
  - assert (current = level) as -> by lia. rewrite Z.eqb_refl. by apply wp_ret.
  - rewrite (proj2 (Z.eqb_neq current level)) by lia.
    eapply wp_step; [apply descend_chunks_spec; [done|done|by rewrite chunks_concat|apply List.Forall_nil]|intros ? r2 ?; by etrans|].
    intros next r2 (Hk2 & Hid2 & Hlev & Hin2). rewrite chunks_concat in Hlev, Hin2 by done. pose proof (serves_keeps _ _ _ _ _ _ Hr1 Hk2) as Hr2.
    destruct next as [|c0 next0] eqn:En; [by apply wp_lift; [done|done|]; intros; etrans|]. rewrite <-En in *. clear c0 next0 En.
    eapply wp_mono; [apply IH; [done..|lia|lia| |]| |].
    + intros l p Hl Hp. destruct (decide (l = current)) as [->|]; [|apply Habove; [lia|done]].
      apply Hin1 in Hp. eapply Forall_forall in Hlev; [exact Hlev|by apply list_elem_of_In].
    + rewrite decide_False by lia. intros p. rewrite Hin2, (at_lower_level _ _ _ _ _ _ Hroot) by lia. replace (current - 1 + 1) with current by lia.
      setoid_rewrite <-Hin1. split; [intros [Hp|(? & q & e & ? & ?)]; [by apply elem_of_nil in Hp|eauto 10]|]. intros (? & q & e & ? & ?). right. eauto 10.
    + intros bodies' r3 (Hk3 & ? & ? & ?). split_and!; [by etrans; [|etrans]|done..].
    + intros e r3 Hk3. by etrans; [|etrans].
Qed.
(** The walk returns exactly the partitions of the level, and the Headers of all
    the levels above agree with their level. *)
Lemma level_bodies_spec level r :
  serves r →
  wp (level_bodies fuel m tree_key level)
    (λ bodies r', rdr_keeps r r' ∧ Forall id_ok bodies ∧ tree_key_ok types tree_key ∧ (∃ h, header_in root_partition h ∧ level ≤ ph_level h) ∧
       (∀ p, p ∈ bodies ↔ at_level level p) ∧ levels_above level)
    (λ _ r', rdr_keeps r r') r.
Proof.
  intros Hr. unfold level_bodies. eapply wp_step; [by apply read_header_spec, root_id|done|]. intros h r1 [Hh Hk1].
  pose proof (read_tree_key _ _ root_id Hh) as Hty. pose proof (serves_keeps _ _ _ _ _ _ Hr Hk1) as Hr1. cbv zeta.
  destruct (Z.ltb_spec (ph_level h) level); [by apply wp_lift|].
  eapply wp_mono; [apply level_loop_spec; try done| |].
  - apply List.Forall_cons; [apply root_id|apply List.Forall_nil].
  - lia.
  - intros l p Hl Hp. apply (at_level_below _ _ _ _ _ _ Hh) in Hp. lia.
  - by rewrite decide_True.
  - intros bodies r2 (Hk2 & ? & ? & ?). split_and!; [by etrans|done|done|by exists h|done|done].
  - intros e r2 Hk2. by etrans.
Qed.
Lemma at_level_id l p : at_level l p → id_ok p.
Proof.
  destruct 1 as [h _|h p _ (s & Hs & Hin & _)|l p c e _ Hc _]; [apply root_id| |done].
  pose proof (slots_ids s (state_ids root_partition s root_id Hs Hstore)) as Hids. eapply Forall_forall in Hids; [exact Hids|by apply list_elem_of_In].
Qed.
(** The only edge from the bodies to a partition, if any. *)
Definition only_edge (bodies : Z → Prop) (partition : Z) (found : option (Z * ChildEntry)) : Prop :=
  match found with
  | Some (q, e) => bodies q ∧ edge_in q partition e ∧ ∀ q' e', bodies q' → edge_in q' partition e' → q' = q
  | None => ∀ q e, bodies q → ¬ edge_in q partition e
  end.
Lemma find_incoming_edge_in_spec partition bodies r :
  tree_key_ok types tree_key → serves r → Forall id_ok bodies → id_ok partition →
  wp (find_incoming_edge_in fuel m tree_key partition bodies)
    (λ found r', rdr_keeps r r' ∧ only_edge (λ p, p ∈ bodies) partition found) (λ _ r', rdr_keeps r r') r.
Proof.
  intros Hty Hr Hids Hp. eapply wp_mono; [apply scan_edges_spec; [apply match_edge_no_panic|done..]| |done].
  intros found r' (Hk & edges & Hv%matched_edge & Hin). split; [done|]. cbn [option_list app] in Hv.
  assert (∀ q e, q ∈ bodies → edge_in q partition e → (q, e) ∈ option_list found) as Hall.
  { intros q e Hq He. assert (id_ok q) as Hqid by (eapply Forall_forall in Hids; [exact Hids|by apply list_elem_of_In]).
    pose proof (edge_id q partition e Hqid Hp Hty He) as Ec. rewrite Hv. apply list_elem_of_filter. split; [done|]. apply Hin. by rewrite Ec. }
  destruct found as [[q e]|]; cbn [only_edge].
  - assert ((q, e) ∈ option_list (Some (q, e))) as Hqe by (by left). rewrite Hv in Hqe. apply list_elem_of_filter in Hqe as [Ec Hqe]. cbn [snd] in Ec.
    apply Hin in Hqe as (Hq & _ & He). rewrite Ec in He. split_and!; [done..|]. intros q' e' Hq' He'.
    specialize (Hall q' e' Hq' He'). apply list_elem_of_singleton in Hall. congruence.
  - intros q e Hq He. specialize (Hall q e Hq He). by apply elem_of_nil in Hall.
Qed.
Lemma checked_add_u32_ok a c n : ok_or Corruption (checked_add_u32 a c) = Ok n → n = a + c.
Proof. unfold checked_add_u32. case_match; [|done]. by intros [= <-]. Qed.
Lemma find_incoming_edge_spec partition level r :
  serves r → id_ok partition →
  wp (find_incoming_edge fuel m tree_key partition level)
    (λ found r', rdr_keeps r r' ∧ only_edge (at_level (level + 1)) partition found ∧ levels_above (level + 1)) (λ _ r', rdr_keeps r r') r.
Proof.
  intros Hr Hp. unfold find_incoming_edge. apply wp_bind, wp_lift; [by unfold checked_add_u32; case_match| |by intros; eapply serves_refl].
  intros n ->%checked_add_u32_ok. eapply wp_step; [by apply level_bodies_spec|done|]. intros bodies r1 (Hk1 & Hids & Hty & _ & Hin & Hlev).
  eapply wp_mono; [apply find_incoming_edge_in_spec; [done|by eapply serves_keeps|done..]| |intros ? r2 ?; by etrans].
  intros found r2 [Hk2 Hf]. split_and!; [by etrans| |done]. destruct found as [[q e]|]; cbn [only_edge] in *; setoid_rewrite <-Hin; done.
Qed.

(** *** Candidates *)
Definition candidate_at (level : Z) (c : LevelCandidate) : Prop :=
  at_level (level + 1) (cd_parent c) ∧ id_ok (candidate_partition c) ∧ edge_in (cd_parent c) (candidate_partition c) (cd_entry c) ∧
  header_in (candidate_partition c) (cd_header c) ∧ ph_level (cd_header c) = level.
Lemma candidate_headers_spec batches r :
  serves r → Forall (λ edge : Z * ChildEntry, id_ok (ce_child edge.2)) (concat batches) →
  wp (candidate_headers ix tree_key batches)
    (λ values r', rdr_keeps r r' ∧
       Forall2 (λ (edge : Z * ChildEntry) x, f (LogicalKey.Header ix tree_key (ce_child edge.2)) = Ok x) (concat batches) values)
    (λ _ r', rdr_keeps r r') r.
Proof.
  revert r. induction batches as [|batch batches IH]; intros r Hr Hids; cbn [candidate_headers concat] in *.
  { apply wp_ret. split; [by eapply serves_refl|constructor]. }
  apply Forall_app in Hids as [Hbatch Hids]. pose proof Hr as (Hok & Eb & Ev).
  eapply wp_step; [apply (rdr_batch_get_law types); [done|by rewrite Eb|]|done|].
  { apply Forall_fmap. eapply Forall_impl; [|exact Hbatch]. intros [q e] He. by apply header_typed_key. }
  intros values r1 [Hvs Hk1]. rewrite Eb, Ev, Forall2_fmap_l in Hvs.
  eapply wp_step; [apply IH; [by eapply serves_keeps|done]|intros ? r2 ?; by etrans|]. intros rest r2 [Hk2 Hrest]. apply wp_ret. split; [by etrans|].
  apply Forall2_app; [|done]. eapply Forall2_impl; [|exact Hvs]. by intros [].
Qed.
Lemma level_candidates_ok level edges values cs :
  length edges = length values → level_candidates level edges values = Ok cs →
  Forall2 (λ (edge : Z * ChildEntry * option PersistentValue.t) c, ∃ h, edge.2 = Some (PersistentValue.PartitionHeader h) ∧ ph_level h = level ∧
    c = mkCandidate edge.1.1 edge.1.2 h) (zip edges values) cs.
Proof.
  revert values cs. induction edges as [|[q e] edges IH]; intros [|x values] cs Hl; try done; cbn [level_candidates].
  { intros [= <-]. constructor. }
  intros (h & Hh & H1)%bind_ok. apply bind_ok in Hh as (h' & ->%expect_header_ok & ->%ok_or_ok). destruct (Z.eqb_spec (ph_level h) level); [|done].
  apply bind_ok in H1 as (rest & Hrest & H1). apply Ok_inj in H1 as <-. cbn [zip zip_with]. constructor; [|by apply IH; [injection Hl|]]. by exists h.
Qed.
Lemma level_candidates_no_panic level edges values : no_panic (level_candidates level edges values).
Proof.
  revert values. induction edges as [|[q e] edges IH]; intros [|x values]; cbn [level_candidates]; try done.
  apply bind_no_panic; [by destruct x as [[]|]|]. intros h _. case_match; [|done]. by apply bind_no_panic.
Qed.
Lemma same_level_candidates_spec level r :
  serves r →
  wp (same_level_candidates fuel m tree_key level)
    (λ cs r', rdr_keeps r r' ∧ Forall (candidate_at level) cs ∧
       ∀ q c e, at_level (level + 1) q → id_ok c → edge_in q c e → ∃ h, mkCandidate q e h ∈ cs ∧ ce_child e = c ∧ header_in c h)
    (λ _ r', rdr_keeps r r') r.
Proof.
  intros Hr. unfold same_level_candidates. apply wp_bind, wp_lift; [by unfold checked_add_u32; case_match| |by intros; eapply serves_refl].
  intros n ->%checked_add_u32_ok. eapply wp_step; [by apply level_bodies_spec|done|]. intros bodies r1 (Hk1 & Hids & Hty & _ & Hin & _).
  pose proof (serves_keeps _ _ _ _ _ _ Hr Hk1) as Hr1.
  eapply wp_step; [apply scan_edges_spec; [apply collect_edge_no_panic|done..]|intros ? r2 ?; by etrans|]. intros edges r2 (Hk2 & edges' & Hv & Hed).
  rewrite collect_edges in Hv. apply Ok_inj in Hv as <-. cbn [app]. pose proof (serves_keeps _ _ _ _ _ _ Hr1 Hk2) as Hr2.
  eapply wp_step; [apply candidate_headers_spec; [done|]|intros ? r3 ?; by etrans; [|etrans]|].
  { rewrite chunks_concat by done. apply Forall_forall. intros [q e] Hqe%list_elem_of_In. by apply Hed in Hqe as (_ & ? & _). }
  intros values r3 [Hk3 Hvs]. rewrite chunks_concat in Hvs by done.
  assert (rdr_keeps r r3) as Hk by (etrans; [done|]; by etrans). apply wp_lift; [apply level_candidates_no_panic| |done].
  intros cs Hcs. apply level_candidates_ok in Hcs; [|by eapply Forall2_length]. split; [done|].
  assert (∀ j q e x, edges' !! j = Some (q, e) → values !! j = Some x → f (LogicalKey.Header ix tree_key (ce_child e)) = Ok x) as Hhead.
  { intros j q e x He Hx. by apply (Forall2_lookup_lr _ _ _ _ _ _ Hvs He Hx). }
  split.
  - apply Forall_forall. intros c Hc%list_elem_of_In. apply list_elem_of_lookup in Hc as [j Hj].
    destruct (Forall2_lookup_r _ _ _ _ _ Hcs Hj) as ([[q e] x] & Hz & h & Ex & El & ->). cbn [fst snd] in *. subst x.
    apply lookup_zip_with_Some in Hz as (edge & x & E & Hq & Hx). injection E as <- <-. pose proof (Hhead _ _ _ _ Hq Hx) as Hh.
    apply list_elem_of_lookup_2, Hed in Hq as (Hq & Hc & He). apply Hin in Hq. unfold candidate_at, candidate_partition. cbn [cd_parent cd_entry cd_header]. done.
  - intros q c e Hq Hc He. apply Hin in Hq. assert (id_ok q) as Hqid by (eapply Forall_forall in Hids; [exact Hids|by apply list_elem_of_In]).
    pose proof (edge_id q c e Hqid Hc Hty He) as Ec. assert ((q, e) ∈ edges') as Hqe by (apply Hed; by rewrite Ec).
    apply list_elem_of_lookup in Hqe as [j Hj]. destruct (Forall2_lookup_l _ _ _ _ _ Hvs Hj) as (x & Hx & Hh). cbn [snd] in Hh. rewrite Ec in Hh.
    assert (zip edges' values !! j = Some ((q, e), x)) as Hz by (apply lookup_zip_with_Some; eauto).
    destruct (Forall2_lookup_l _ _ _ _ _ Hcs Hz) as (cd & Hcd & h & Ex & _ & ->). cbn [fst snd] in *. subst x. exists h. split_and!; [by eapply list_elem_of_lookup_2|done|done].
Qed.
End walk.
