(* ===== verification/Transitions.v ===== *)
(** Atomic split and merge transitions and centroid updates
    (src/src/storage/topology/transitions.rs).  [fuel] is that of the root-down
    discovery. *)
From stdpp Require Import gmap sorting.
From S2P Require Import Prelude RustStd Api TreeKey Keys KeyRanges RaBitQ Manifest Wire ValueData Records Synopsis Values Config Backend Memory Txn Codec Logical TreeOps Membership LogicalSpec Reader Discovery.

Definition SPLIT_TARGETS : Z := 2.
Module SplitStart.
Inductive t := Started (left_ right_ : Z) | AlreadySplitting (left_ right_ : Z) | NotEligible.
End SplitStart.
Module SplitExposure.
Inductive t := Exposed | AlreadyExposed | SourceAdvanced | ParentNotAccepting.
End SplitExposure.
Module SplitCompletion.
Inductive t := Completed (parent : option Z) | NotDrained | NotDraining.
End SplitCompletion.
Module SourceRemoval.
Inductive t := TransactionalClear | PointDeletes.
Definition for_capabilities (transactional_clear_range : bool) : t :=
  if transactional_clear_range then TransactionalClear else PointDeletes.
End SourceRemoval.
Module MergeStart.
Inductive t := Started | AlreadyMerging | NotEligible | NoReadyTarget.
End MergeStart.
Module MergeCompletion.
Inductive t := Completed | NotDrained | NotMerging.
End MergeCompletion.

Definition with_state (header : PartitionHeader) (state : PartitionState.t) : result PartitionHeader :=
  map_err Corruption (PartitionHeader_new (ph_level header) (ph_entry_count header) (ph_cache_epoch header) state).
(** [==] of [f32] values and of slices of them. *)
Definition f32_eq (a b : Z) : bool :=
  (F32.magnitude a <=? 0x7F800000) && (F32.magnitude b <=? 0x7F800000) && ((a =? b) || F32.is_zero a && F32.is_zero b).
Fixpoint f32s_eq (a b : list Z) : bool :=
  match a, b with
  | [], [] => true
  | x :: a, y :: b => f32_eq x y && f32s_eq a b
  | _, _ => false
  end.

Section transitions.
Context (xxh3_128 : Z → list Z → Z) (sha256 : list Z → list Z) {T : Type} `{WriteOps T}.
#[local] Instance topology_reader : LogicalReader (WriteLogicalTxn T) := write_txn_reader xxh3_128 sha256 T.
Abbreviation put := (Logical.put xxh3_128 sha256).
Abbreviation St := (WriteLogicalTxn T).
Definition put_state (key : LogicalKey.t) (state : PartitionTransition.t) : M St unit := put key (PersistentValue.PartitionState state).
Definition put_header_state (key : LogicalKey.t) (header : PartitionHeader) (state : PartitionState.t) : M St unit :=
  let! header := m_lift (with_state header state) in
  put key (PersistentValue.PartitionHeader header).
Definition insert_new (key : LogicalKey.t) (value : PersistentValue.t) : M St unit :=
  let! outcome := Logical.insert xxh3_128 sha256 key value in
  m_lift (expect_inserted outcome).

Definition begin_split (tree_key : list Z) (source started_at : Z) : M St SplitStart.t :=
  let! t := m_get in
  let! m := m_lift (require_bound_manifest t) in
  let '(header_key, state_key) := authority_keys (im_logical_index_id m) tree_key source in
  let! found := authority_pair xxh3_128 sha256 header_key state_key in
  match found with
  | None => m_ret SplitStart.NotEligible
  | Some (header, PartitionTransition.Splitting left_ right_ _) => m_ret (SplitStart.AlreadySplitting left_ right_)
  | Some (header, PartitionTransition.Ready _) =>
      if ph_entry_count header <=? max_partition_entries (im_config m) (ph_level header) then m_ret SplitStart.NotEligible
      else
        let! reservation := reserve_partition_keys xxh3_128 sha256 tree_key SPLIT_TARGETS in
        if negb (reservation_count reservation =? SPLIT_TARGETS) then m_lift (Err IdExhausted)
        else
          let left_ := pr_next reservation in
          let right_ := pr_last reservation in
          let! _ := put_state state_key (PartitionTransition.Splitting left_ right_ started_at) in
          let! _ := put_header_state header_key header PartitionState.Splitting in
          m_ret (SplitStart.Started left_ right_)
  | Some _ => m_ret SplitStart.NotEligible
  end.

(** ** Exposure *)
Definition accepts_children (state : PartitionState.t) : bool :=
  match state with
  | PartitionState.Ready | PartitionState.Splitting | PartitionState.ReceivingSplit => true
  | _ => false
  end.
Definition lacks_graph_headroom (m : IndexManifest) (parent_header : PartitionHeader) : bool :=
  bool_decide (is_Some (ic_graph (im_config m))) &&
  (bool_decide (ph_state parent_header = PartitionState.ReceivingSplit)
   || (ic_max_internal_partition_entries (im_config m) <? ph_entry_count parent_header)).
(** The parent that gains the edges, or [None] when it cannot now. *)
Definition accepting_parent (fuel : nat) (m : IndexManifest) (tree_key : list Z) (source level : Z) (parent : option Z)
    : M St (option (Z * PartitionHeader)) :=
  let! parent := lock_incoming_edge xxh3_128 sha256 fuel tree_key source level parent in
  let! value := get_for_update xxh3_128 sha256 (LogicalKey.Header (im_logical_index_id m) tree_key parent) in
  let! parent_header := m_lift (expect_header value ≫= ok_or Corruption) in
  let! expected := m_lift (ok_or Corruption (checked_add_u32 level 1)) in
  if negb (ph_level parent_header =? expected) then m_lift (Err Corruption)
  else if negb (accepts_children (ph_state parent_header)) then m_ret None
  else if lacks_graph_headroom m parent_header then m_ret None
  else m_ret (Some (parent, parent_header)).
Definition create_target (m : IndexManifest) (tree_key : list Z) (source level started_at : Z) (parent : option (Z * PartitionHeader))
    (target : Z) (centroid : list Z) : M St unit :=
  let index := im_logical_index_id m in
  let '(header_key, state_key) := authority_keys index tree_key target in
  let! header := m_lift (map_err Corruption (PartitionHeader_new level 0 0 PartitionState.ReceivingSplit)) in
  let! _ := insert_new header_key (PersistentValue.PartitionHeader header) in
  let! _ := insert_new state_key (PersistentValue.PartitionState (PartitionTransition.ReceivingSplit source started_at)) in
  let! _ := insert_new (LogicalKey.Centroid index tree_key target) (PersistentValue.PartitionCentroid centroid) in
  let! _ :=
    if level =? 1 then insert_new (LogicalKey.Synopsis index tree_key target) (PersistentValue.PartitionSynopsis (PartitionSynopsis_empty m))
    else m_ret tt in
  match parent with
  | Some (parent, _) =>
      insert_new (LogicalKey.ChildEntry index tree_key parent target) (PersistentValue.ChildEntry (mkChildEntry target centroid))
  | None => m_ret tt
  end.
Definition expose_targets (m : IndexManifest) (tree_key : list Z) (source : Z) (source_header : PartitionHeader) (left_ : Z)
    (left_centroid : list Z) (right_ : Z) (right_centroid : list Z) (started_at : Z) (parent : option (Z * PartitionHeader))
    : M St SplitExposure.t :=
  let index := im_logical_index_id m in
  let level := ph_level source_header in
  let! _ := create_target m tree_key source level started_at parent left_ left_centroid in
  let! _ := create_target m tree_key source level started_at parent right_ right_centroid in
  let! _ :=
    match parent with
    | Some (parent, parent_header) =>
        let! parent_header := m_lift (added_entry parent_header ≫= added_entry) in
        put (LogicalKey.Header index tree_key parent) (PersistentValue.PartitionHeader parent_header)
    | None => m_ret tt
    end in
  let! _ := put_state (LogicalKey.State index tree_key source) (PartitionTransition.DrainingSplit left_ right_ started_at) in
  let! _ := put_header_state (LogicalKey.Header index tree_key source) source_header PartitionState.DrainingSplit in
  m_ret SplitExposure.Exposed.
Definition expose_split_targets_with_parent (fuel : nat) (tree_key : list Z) (source left_ : Z) (left_centroid : list Z)
    (right_ : Z) (right_centroid : list Z) (started_at : Z) (parent : option Z) : M St SplitExposure.t :=
  let! t := m_get in
  let! m := m_lift (require_bound_manifest t) in
  let '(source_header_key, source_state_key) := authority_keys (im_logical_index_id m) tree_key source in
  let! found := authority_pair xxh3_128 sha256 source_header_key source_state_key in
  match found with
  | None => m_ret SplitExposure.SourceAdvanced
  | Some (source_header, PartitionTransition.DrainingSplit persisted_left persisted_right _) =>
      if negb (left_ =? persisted_left) || negb (right_ =? persisted_right) then m_lift (Err InvalidArgument)
      else m_ret SplitExposure.AlreadyExposed
  | Some (source_header, PartitionTransition.Splitting persisted_left persisted_right _) =>
      if negb (left_ =? persisted_left) || negb (right_ =? persisted_right) then m_lift (Err InvalidArgument)
      else if source =? root_partition then
        expose_targets m tree_key source source_header left_ left_centroid right_ right_centroid started_at None
      else
        let! parent := accepting_parent fuel m tree_key source (ph_level source_header) parent in
        match parent with
        | None => m_ret SplitExposure.ParentNotAccepting
        | Some parent => expose_targets m tree_key source source_header left_ left_centroid right_ right_centroid started_at (Some parent)
        end
  | Some _ => m_ret SplitExposure.SourceAdvanced
  end.
Definition expose_split_targets (fuel : nat) (tree_key : list Z) (source left_ : Z) (left_centroid : list Z)
    (right_ : Z) (right_centroid : list Z) (started_at : Z) : M St SplitExposure.t :=
  expose_split_targets_with_parent fuel tree_key source left_ left_centroid right_ right_centroid started_at None.

(** ** Centroids *)
Definition next_value_of (values : list (option PersistentValue.t)) (n : nat) : result (option PersistentValue.t) :=
  ok_or Backend (values !! n).
Definition update_centroid (tree_key : list Z) (partition parent : Z) (centroid : list Z) : M St unit :=
  if (partition =? root_partition) || (partition =? parent) then m_lift (Err Corruption)
  else
    let! t := m_get in
    let! m := m_lift (require_bound_manifest t) in
    let index := im_logical_index_id m in
    let child_header_key := LogicalKey.Header index tree_key partition in
    let parent_header_key := LogicalKey.Header index tree_key parent in
    let centroid_key := LogicalKey.Centroid index tree_key partition in
    let edge_key := LogicalKey.ChildEntry index tree_key parent partition in
    let! values := batch_get_for_update xxh3_128 sha256 [child_header_key; parent_header_key; centroid_key; edge_key] in
    let! child_header := m_lift ((next_value_of values 0 ≫= expect_header) ≫= ok_or Corruption) in
    let! parent_header := m_lift ((next_value_of values 1 ≫= expect_header) ≫= ok_or Corruption) in
    let! old_centroid := m_lift ((next_value_of values 2 ≫= expect_centroid) ≫= ok_or Corruption) in
    let! edge := m_lift ((next_value_of values 3 ≫= expect_child_entry) ≫= ok_or Corruption) in
    if bool_decide (ph_state child_header ≠ PartitionState.Ready)
       || bool_decide (ph_state parent_header ≠ PartitionState.Ready)
       || bool_decide (checked_add_u32 (ph_level child_header) 1 ≠ Some (ph_level parent_header))
       || negb (ce_child edge =? partition)
       || negb (f32s_eq (ce_centroid edge) old_centroid)
    then m_lift (Err Corruption)
    else if f32s_eq centroid old_centroid then m_ret tt
    else
      let! parent_header := m_lift (touched_entry parent_header) in
      let! _ := put centroid_key (PersistentValue.PartitionCentroid centroid) in
      let! _ := put edge_key (PersistentValue.ChildEntry (mkChildEntry partition centroid)) in
      put parent_header_key (PersistentValue.PartitionHeader parent_header).

(** ** Completion *)
Definition remove_incoming_edge (fuel : nat) (tree_key : list Z) (source level : Z) (parent : option Z) : M St Z :=
  let! t := m_get in
  let! m := m_lift (require_bound_manifest t) in
  let index := im_logical_index_id m in
  let! parent := lock_incoming_edge xxh3_128 sha256 fuel tree_key source level parent in
  let parent_header_key := LogicalKey.Header index tree_key parent in
  let! value := get_for_update xxh3_128 sha256 parent_header_key in
  let! parent_header := m_lift (expect_header value ≫= ok_or Corruption) in
  let! expected := m_lift (ok_or Corruption (checked_add_u32 level 1)) in
  if negb (ph_level parent_header =? expected) then m_lift (Err Corruption)
  else
    let! _ := delete_key (LogicalKey.ChildEntry index tree_key parent source) in
    let! parent_header := m_lift (removed_entry parent_header) in
    let! _ := put parent_header_key (PersistentValue.PartitionHeader parent_header) in
    m_ret parent.
Fixpoint delete_keys (keys : list LogicalKey.t) : M St unit :=
  match keys with
  | [] => m_ret tt
  | key :: keys => let! _ := delete_key key in delete_keys keys
  end.
Definition remove_source_prefix (m : IndexManifest) (tree_key : list Z) (source : Z) (header_key state_key : LogicalKey.t)
    (removal : SourceRemoval.t) : M St unit :=
  let index := im_logical_index_id m in
  match removal with
  | SourceRemoval.TransactionalClear =>
      let! range := m_lift (range_partition m tree_key source) in
      clear_range range
  | SourceRemoval.PointDeletes =>
      delete_keys [LogicalKey.Synopsis index tree_key source; LogicalKey.Centroid index tree_key source; state_key; header_key]
  end.
(** The targets in turn; [values] is the iterator over the batch read. *)
Fixpoint promote_targets (index : Z) (tree_key : list Z) (source level started_at : Z) (targets : list Z)
    (values : list (option PersistentValue.t)) : M St unit :=
  match targets with
  | [] => m_ret tt
  | target :: targets =>
      let '(header_key, state_key) := authority_keys index tree_key target in
      match values with
      | state_value :: header_value :: values =>
          let! target_state := m_lift (expect_state state_value ≫= ok_or Corruption) in
          let! _ := m_lift (match target_state with
                            | PartitionTransition.ReceivingSplit s _ => if s =? source then Ok tt else Err Corruption
                            | _ => Err Corruption
                            end) in
          let! target_header := m_lift (expect_header header_value ≫= ok_or Corruption) in
          let! _ := m_lift (expect_agreement target_header target_state) in
          if negb (ph_level target_header =? level) then m_lift (Err Corruption)
          else
            let! _ := put_state state_key (PartitionTransition.Ready started_at) in
            let! _ := put_header_state header_key target_header PartitionState.Ready in
            promote_targets index tree_key source level started_at targets values
      | _ => m_lift (Err Backend)
      end
  end.
Fixpoint insert_root_edges (index : Z) (tree_key : list Z) (targets : list Z) (centroids : list (option PersistentValue.t))
    (promoted : PartitionHeader) : M St PartitionHeader :=
  match targets with
  | [] => m_ret promoted
  | target :: targets =>
      match centroids with
      | [] => m_lift (Err Backend)
      | value :: centroids =>
          let! centroid := m_lift (expect_centroid value ≫= ok_or Corruption) in
          let! _ := insert_new (LogicalKey.ChildEntry index tree_key root_partition target)
                      (PersistentValue.ChildEntry (mkChildEntry target centroid)) in
          let! promoted := m_lift (added_entry promoted) in
          insert_root_edges index tree_key targets centroids promoted
      end
  end.
Definition promote_root (m : IndexManifest) (tree_key : list Z) (header : PartitionHeader) (left_ right_ started_at : Z)
    : M St SplitCompletion.t :=
  let index := im_logical_index_id m in
  let! centroids := batch_get xxh3_128 sha256 (LogicalKey.Centroid index tree_key <$> [left_; right_]) in
  let! promoted := insert_root_edges index tree_key [left_; right_] centroids header in
  let! _ := delete_key (LogicalKey.Synopsis index tree_key root_partition) in
  let! level := m_lift (ok_or Corruption (checked_add_u32 (ph_level promoted) 1)) in
  let! promoted := m_lift (map_err Corruption (PartitionHeader_new level (ph_entry_count promoted) (ph_cache_epoch promoted) PartitionState.Ready)) in
  let! _ := put (LogicalKey.Header index tree_key root_partition) (PersistentValue.PartitionHeader promoted) in
  let! _ := put_state (LogicalKey.State index tree_key root_partition) (PartitionTransition.Ready started_at) in
  m_ret (SplitCompletion.Completed None).
Definition finalize_split_with_parent (fuel : nat) (tree_key : list Z) (source started_at : Z) (removal : SourceRemoval.t)
    (parent : option Z) : M St SplitCompletion.t :=
  let! t := m_get in
  let! m := m_lift (require_bound_manifest t) in
  let index := im_logical_index_id m in
  let '(header_key, state_key) := authority_keys index tree_key source in
  let! found := authority_pair xxh3_128 sha256 header_key state_key in
  match found with
  | None => m_ret (SplitCompletion.Completed None)
  | Some (header, PartitionTransition.DrainingSplit left_ right_ _) =>
      if negb (ph_entry_count header =? 0) then m_ret SplitCompletion.NotDrained
      else
        let level := ph_level header in
        let! values := batch_get_for_update xxh3_128 sha256
                         [LogicalKey.State index tree_key left_; LogicalKey.Header index tree_key left_;
                          LogicalKey.State index tree_key right_; LogicalKey.Header index tree_key right_] in
        let! _ := promote_targets index tree_key source level started_at [left_; right_] values in
        if source =? root_partition then promote_root m tree_key header left_ right_ started_at
        else
          let! parent := remove_incoming_edge fuel tree_key source level parent in
          let! _ := remove_source_prefix m tree_key source header_key state_key removal in
          m_ret (SplitCompletion.Completed (Some parent))
  | Some _ => m_ret SplitCompletion.NotDraining
  end.
Definition finalize_split (fuel : nat) (tree_key : list Z) (source started_at : Z) (removal : SourceRemoval.t) : M St SplitCompletion.t :=
  finalize_split_with_parent fuel tree_key source started_at removal None.

(** ** Merges *)
Definition begin_merge (fuel : nat) (tree_key : list Z) (source started_at : Z) : M St MergeStart.t :=
  let! t := m_get in
  let! m := m_lift (require_bound_manifest t) in
  let index := im_logical_index_id m in
  let '(header_key, state_key) := authority_keys index tree_key source in
  let! found := authority_pair xxh3_128 sha256 header_key state_key in
  match found with
  | None => m_ret MergeStart.NotEligible
  | Some (_, PartitionTransition.Merging _) => m_ret MergeStart.AlreadyMerging
  | Some (header, PartitionTransition.Ready _) =>
      if source =? root_partition then m_ret MergeStart.NotEligible
      else if min_partition_entries (im_config m) (ph_level header) <=? ph_entry_count header then m_ret MergeStart.NotEligible
      else
        let! candidates := same_level_candidates fuel m tree_key (ph_level header) in
        match filter (λ candidate, candidate_partition candidate = source) candidates with
        | [own] =>
            let! value := get_for_update xxh3_128 sha256 (LogicalKey.ChildEntry index tree_key (cd_parent own) source) in
            let! _ := m_lift (expect_child_entry value ≫= ok_or Corruption) in
            if negb (existsb (λ candidate, is_legal_merge_target candidate source) candidates) then m_ret MergeStart.NoReadyTarget
            else
              let! _ := put_state state_key (PartitionTransition.Merging started_at) in
              let! _ := put_header_state header_key header PartitionState.Merging in
              m_ret MergeStart.Started
        | _ => m_lift (Err Corruption)
        end
  | Some _ => m_ret MergeStart.NotEligible
  end.
Definition finalize_merge_with_parent (fuel : nat) (tree_key : list Z) (source : Z) (removal : SourceRemoval.t) (parent : option Z)
    : M St MergeCompletion.t :=
  let! t := m_get in
  let! m := m_lift (require_bound_manifest t) in
  let '(header_key, state_key) := authority_keys (im_logical_index_id m) tree_key source in
  let! found := authority_pair xxh3_128 sha256 header_key state_key in
  match found with
  | None => m_ret MergeCompletion.Completed
  | Some (header, PartitionTransition.Merging _) =>
      if source =? root_partition then m_lift (Err Corruption)
      else if negb (ph_entry_count header =? 0) then m_ret MergeCompletion.NotDrained
      else
        let! _ := remove_incoming_edge fuel tree_key source (ph_level header) parent in
        let! _ := remove_source_prefix m tree_key source header_key state_key removal in
        m_ret MergeCompletion.Completed
  | Some _ => m_ret MergeCompletion.NotMerging
  end.
Definition finalize_merge (fuel : nat) (tree_key : list Z) (source : Z) (removal : SourceRemoval.t) : M St MergeCompletion.t :=
  finalize_merge_with_parent fuel tree_key source removal None.
End transitions.
