(* ===== verification/Protocol.v ===== *)
(** The split and merge protocol of src/src/storage/topology.rs (ADR 0007, 0008
    and 0014) as a state machine: one tree's partitions with their Headers,
    States, Child Entries and centroids, the atomic steps that change them, and
    the structural invariant that every step keeps.  A step's guard only uses
    what its transaction reads with update protection. *)
From stdpp Require Import gmap functions.
From S2P Require Import Prelude RustStd Api Records Discovery.

Record Tree := mkTree {
  tr_high_water : Z;
  tr_header : Z → option PartitionHeader;
  tr_state : Z → option PartitionTransition.t;
  tr_edge : Z * Z → option ChildEntry;
  tr_centroid : Z → option (list Z);
}.
#[global] Instance tree_equiv : Equiv Tree := λ T U,
  tr_high_water T = tr_high_water U ∧ (∀ p, tr_header T p = tr_header U p) ∧ (∀ p, tr_state T p = tr_state U p) ∧
  (∀ e, tr_edge T e = tr_edge U e) ∧ ∀ p, tr_centroid T p = tr_centroid U p.
#[global] Instance tree_equivalence : Equivalence (≡@{Tree}).
Proof.
  split.
  - by intros T.
  - by intros T U (?&?&?&?&?).
  - intros T U V (?&?&?&?&?) (?&?&?&?&?). repeat split; intros; congruence.
Qed.
Definition set_high_water (n : Z) (T : Tree) : Tree := mkTree n (tr_header T) (tr_state T) (tr_edge T) (tr_centroid T).
Definition set_tree_header (p : Z) (h : option PartitionHeader) (T : Tree) : Tree :=
  mkTree (tr_high_water T) (<[p := h]> (tr_header T)) (tr_state T) (tr_edge T) (tr_centroid T).
Definition set_tree_state (p : Z) (s : option PartitionTransition.t) (T : Tree) : Tree :=
  mkTree (tr_high_water T) (tr_header T) (<[p := s]> (tr_state T)) (tr_edge T) (tr_centroid T).
Definition set_tree_edge (p c : Z) (e : option ChildEntry) (T : Tree) : Tree :=
  mkTree (tr_high_water T) (tr_header T) (tr_state T) (<[(p, c) := e]> (tr_edge T)) (tr_centroid T).
Definition set_tree_centroid (p : Z) (c : option (list Z)) (T : Tree) : Tree :=
  mkTree (tr_high_water T) (tr_header T) (tr_state T) (tr_edge T) (<[p := c]> (tr_centroid T)).
(** The Child Entries a range clear of a partition takes with it. *)
Definition clear_edges (clear : bool) (p : Z) (T : Tree) : Tree :=
  mkTree (tr_high_water T) (tr_header T) (tr_state T) (λ e, if clear && (e.1 =? p) then None else tr_edge T e) (tr_centroid T).

Ltac tree_update := intros T U (Eh & Ehd & Est & Eed & Ece);
  split_and!; cbn [tr_high_water tr_header tr_state tr_edge tr_centroid set_high_water set_tree_header set_tree_state set_tree_edge set_tree_centroid clear_edges];
  intros; unfold insert, fn_insert; try case_decide; try case_match; congruence.
#[global] Instance set_high_water_proper n : Proper ((≡) ==> (≡)) (set_high_water n).
Proof. tree_update. Qed.
#[global] Instance set_tree_header_proper p h : Proper ((≡) ==> (≡)) (set_tree_header p h).
Proof. tree_update. Qed.
#[global] Instance set_tree_state_proper p s : Proper ((≡) ==> (≡)) (set_tree_state p s).
Proof. tree_update. Qed.
#[global] Instance set_tree_edge_proper p c e : Proper ((≡) ==> (≡)) (set_tree_edge p c e).
Proof. tree_update. Qed.
#[global] Instance set_tree_centroid_proper p c : Proper ((≡) ==> (≡)) (set_tree_centroid p c).
Proof. tree_update. Qed.
#[global] Instance clear_edges_proper clear p : Proper ((≡) ==> (≡)) (clear_edges clear p).
Proof. tree_update. Qed.

(** ** Steps *)
Definition header_with (h : PartitionHeader) (s : PartitionState.t) : PartitionHeader :=
  mkPartitionHeader (ph_level h) (ph_entry_count h) (ph_cache_epoch h) s.
(** [h'] is [h] with [n] more entries and another epoch. *)
Definition recounts (n : Z) (h h' : PartitionHeader) : Prop :=
  ph_level h' = ph_level h ∧ ph_state h' = ph_state h ∧ ph_entry_count h' = ph_entry_count h + n.
Definition receiving (level : Z) : PartitionHeader := mkPartitionHeader level 0 0 PartitionState.ReceivingSplit.
Definition with_target (source level started_at : Z) (t : Z) (c : list Z) (T : Tree) : Tree :=
  set_tree_centroid t (Some c) (set_tree_state t (Some (PartitionTransition.ReceivingSplit source started_at))
    (set_tree_header t (Some (receiving level)) T)).
Definition restated (p : Z) (h : PartitionHeader) (s : PartitionTransition.t) (T : Tree) : Tree :=
  set_tree_header p (Some (header_with h (PartitionTransition_state s))) (set_tree_state p (Some s) T).
Definition without (clear : bool) (s : Z) (T : Tree) : Tree :=
  set_tree_centroid s None (set_tree_state s None (set_tree_header s None (clear_edges clear s T))).
#[global] Instance with_target_proper source level started_at t c : Proper ((≡) ==> (≡)) (with_target source level started_at t c).
Proof. solve_proper. Qed.
#[global] Instance restated_proper p h s : Proper ((≡) ==> (≡)) (restated p h s).
Proof. solve_proper. Qed.
#[global] Instance without_proper clear s : Proper ((≡) ==> (≡)) (without clear s).
Proof. solve_proper. Qed.
Definition takes_children (s : PartitionState.t) : Prop :=
  s = PartitionState.Ready ∨ s = PartitionState.Splitting ∨ s = PartitionState.ReceivingSplit.
(** What a partition's update-protected authority pair says. *)
Definition authority (T : Tree) (p : Z) (h : PartitionHeader) (s : PartitionTransition.t) : Prop :=
  tr_header T p = Some h ∧ tr_state T p = Some s.

(** The transactions that change the topology. *)
Inductive action :=
  | BeginSplit (source left_ right_ started_at : Z)
  | Expose (source left_ right_ : Z) (left_centroid right_centroid : list Z) (started_at : Z)
  | MoveChild (source target child : Z)
  | UpdateCentroid (child parent : Z) (centroid : list Z)
  | FinishSplit (source started_at : Z)
  | BeginMerge (source started_at : Z)
  | FinishMerge (source : Z).
Inductive transition : action → Tree → Tree → Prop :=
  | step_begin_split T T' s h at0 at1 :
      authority T s h (PartitionTransition.Ready at0) →
      T' ≡ set_high_water (tr_high_water T + 2)
             (restated s h (PartitionTransition.Splitting (tr_high_water T + 1) (tr_high_water T + 2) at1) T) →
      transition (BeginSplit s (tr_high_water T + 1) (tr_high_water T + 2) at1) T T'
  | step_expose_root T T' h l r at0 at1 cl cr :
      authority T root_partition h (PartitionTransition.Splitting l r at0) →
      T' ≡ restated root_partition h (PartitionTransition.DrainingSplit l r at1)
             (with_target root_partition (ph_level h) at1 r cr (with_target root_partition (ph_level h) at1 l cl T)) →
      transition (Expose root_partition l r cl cr at1) T T'
  | step_expose T T' s h q hq hq' l r at0 at1 cl cr :
      s ≠ root_partition → authority T s h (PartitionTransition.Splitting l r at0) →
      is_Some (tr_edge T (q, s)) → tr_header T q = Some hq → ph_level hq = ph_level h + 1 → takes_children (ph_state hq) →
      recounts 2 hq hq' →
      T' ≡ restated s h (PartitionTransition.DrainingSplit l r at1) (set_tree_header q (Some hq')
             (set_tree_edge q r (Some (mkChildEntry r cr)) (with_target s (ph_level h) at1 r cr
               (set_tree_edge q l (Some (mkChildEntry l cl)) (with_target s (ph_level h) at1 l cl T))))) →
      transition (Expose s l r cl cr at1) T T'
  | step_move T T' s t c e hs ht hs' ht' :
      tr_edge T (s, c) = Some e → tr_edge T (t, c) = None →
      tr_header T s = Some hs → tr_header T t = Some ht → ph_level ht = ph_level hs → recounts (-1) hs hs' → recounts 1 ht ht' →
      T' ≡ set_tree_header t (Some ht') (set_tree_header s (Some hs') (set_tree_edge s c None (set_tree_edge t c (Some e) T))) →
      transition (MoveChild s t c) T T'
  | step_update_centroid T T' c q e hc hq hq' old new :
      c ≠ root_partition → tr_header T c = Some hc → ph_state hc = PartitionState.Ready →
      tr_header T q = Some hq → ph_state hq = PartitionState.Ready → recounts 0 hq hq' →
      tr_edge T (q, c) = Some e → tr_centroid T c = Some old →
      T' ≡ set_tree_header q (Some hq') (set_tree_edge q c (Some (mkChildEntry c new)) (set_tree_centroid c (Some new) T)) →
      transition (UpdateCentroid c q new) T T'
  | step_finalize_root T T' h h' l r at0 at1 hl hr atl atr cl cr :
      authority T root_partition h (PartitionTransition.DrainingSplit l r at0) → ph_entry_count h = 0 →
      authority T l hl (PartitionTransition.ReceivingSplit root_partition atl) → ph_level hl = ph_level h →
      authority T r hr (PartitionTransition.ReceivingSplit root_partition atr) → ph_level hr = ph_level h →
      tr_centroid T l = Some cl → tr_centroid T r = Some cr →
      tr_edge T (root_partition, l) = None → tr_edge T (root_partition, r) = None →
      ph_level h' = ph_level h + 1 → ph_entry_count h' = 2 → ph_state h' = PartitionState.Ready →
      T' ≡ set_tree_state root_partition (Some (PartitionTransition.Ready at1)) (set_tree_header root_partition (Some h')
             (set_tree_edge root_partition r (Some (mkChildEntry r cr)) (set_tree_edge root_partition l (Some (mkChildEntry l cl))
               (restated r hr (PartitionTransition.Ready at1) (restated l hl (PartitionTransition.Ready at1) T))))) →
      transition (FinishSplit root_partition at1) T T'
  | step_finalize_split T T' clear s h q hq hq' l r at0 at1 hl hr atl atr :
      s ≠ root_partition → authority T s h (PartitionTransition.DrainingSplit l r at0) → ph_entry_count h = 0 →
      authority T l hl (PartitionTransition.ReceivingSplit s atl) → ph_level hl = ph_level h →
      authority T r hr (PartitionTransition.ReceivingSplit s atr) → ph_level hr = ph_level h →
      is_Some (tr_edge T (q, s)) → tr_header T q = Some hq → ph_level hq = ph_level h + 1 → recounts (-1) hq hq' →
      T' ≡ without clear s (set_tree_header q (Some hq') (set_tree_edge q s None
             (restated r hr (PartitionTransition.Ready at1) (restated l hl (PartitionTransition.Ready at1) T)))) →
      transition (FinishSplit s at1) T T'
  | step_begin_merge T T' s h q at0 at1 :
      s ≠ root_partition → authority T s h (PartitionTransition.Ready at0) → is_Some (tr_edge T (q, s)) →
      T' ≡ restated s h (PartitionTransition.Merging at1) T →
      transition (BeginMerge s at1) T T'
  | step_finalize_merge T T' clear s h q hq hq' at0 :
      s ≠ root_partition → authority T s h (PartitionTransition.Merging at0) → ph_entry_count h = 0 →
      is_Some (tr_edge T (q, s)) → tr_header T q = Some hq → ph_level hq = ph_level h + 1 → recounts (-1) hq hq' →
      T' ≡ without clear s (set_tree_header q (Some hq') (set_tree_edge q s None T)) →
      transition (FinishMerge s) T T'.
(** Writes to a leaf's entries change its count and its epoch. *)
Definition leaf_write (T T' : Tree) : Prop :=
  ∃ p h h', tr_header T p = Some h ∧ ph_level h = 1 ∧ ph_level h' = 1 ∧ ph_state h' = ph_state h ∧ T' ≡ set_tree_header p (Some h') T.
Definition step (T T' : Tree) : Prop := (∃ a, transition a T T') ∨ leaf_write T T'.
(** A tree as it is created. *)
Definition created (T : Tree) : Prop :=
  ∃ at0, T ≡ mkTree 1 (<[root_partition := Some (mkPartitionHeader 1 0 0 PartitionState.Ready)]> (λ _, None))
               (<[root_partition := Some (PartitionTransition.Ready at0)]> (λ _, None)) (λ _, None) (λ _, None).

(** ** The invariant *)
Definition split_of (s : PartitionTransition.t) : option (Z * Z) :=
  match s with
  | PartitionTransition.Splitting l r _ | PartitionTransition.DrainingSplit l r _ => Some (l, r)
  | _ => None
  end.
Definition slot_of (lr : Z * Z) (t : Z) : Prop := t = lr.1 ∨ t = lr.2.
(** Level and State of the partitions. *)
Abbreviation authorities := (Z → option (Z * PartitionTransition.t)).
Definition authority_of (T : Tree) : authorities := λ p,
  match tr_header T p, tr_state T p with Some h, Some s => Some (ph_level h, s) | _, _ => None end.
(** Each split names two targets of its own, which do not exist before the
    exposure and receive from it, at its level, afterwards. *)
Record authority_ok (high_water : Z) (a : authorities) : Prop := {
  au_root : ∃ l s, a root_partition = Some (l, s) ∧ ∀ at0, s ≠ PartitionTransition.Merging at0;
  au_allocated p : is_Some (a p) → p ≤ high_water;
  au_split p l s lr : a p = Some (l, s) → split_of s = Some lr →
    lr.1 ≠ lr.2 ∧ ∀ t, slot_of lr t → t ≠ root_partition ∧ t ≤ high_water;
  au_pending p l lt rt at0 t : a p = Some (l, PartitionTransition.Splitting lt rt at0) → slot_of (lt, rt) t → a t = None;
  au_receives p l lt rt at0 t : a p = Some (l, PartitionTransition.DrainingSplit lt rt at0) → slot_of (lt, rt) t →
    ∃ at1, a t = Some (l, PartitionTransition.ReceivingSplit p at1);
  au_drains t l s at0 : a t = Some (l, PartitionTransition.ReceivingSplit s at0) →
    ∃ lt rt at1, a s = Some (l, PartitionTransition.DrainingSplit lt rt at1) ∧ slot_of (lt, rt) t;
  au_exclusive p l s lr p' l' s' lr' t :
    a p = Some (l, s) → split_of s = Some lr → slot_of lr t → a p' = Some (l', s') → split_of s' = Some lr' → slot_of lr' t → p = p';
}.
Definition drains_into (T : Tree) (s t : Z) : Prop :=
  ∃ l r at0, tr_state T s = Some (PartitionTransition.DrainingSplit l r at0) ∧ slot_of (l, r) t.
(** Level and exact entry count of the partitions. *)
Abbreviation heads := (Z → option (Z * Z)).
Definition heads_of (T : Tree) : heads := λ p, (λ h, (ph_level h, ph_entry_count h)) <$> tr_header T p.
Definition counts (edge : Z * Z → option ChildEntry) (p n : Z) : Prop :=
  ∃ cs, NoDup cs ∧ (∀ c, c ∈ cs ↔ is_Some (edge (p, c))) ∧ len cs = n.
(** Child Entries: levels, centroids, exact counts, and one incoming reference
    for every partition but the root and the slots of a draining root. *)
Record links_ok (head : heads) (edge : Z * Z → option ChildEntry) (centroid : Z → option (list Z)) (slot : Z → Prop) : Prop := {
  lk_edge p c e : edge (p, c) = Some e →
    ce_child e = c ∧ c ≠ root_partition ∧ centroid c = Some (ce_centroid e) ∧
    ∃ l n n', head c = Some (l, n) ∧ head p = Some (l + 1, n');
  lk_parent p q c : is_Some (edge (p, c)) → is_Some (edge (q, c)) → p = q;
  lk_count p l n : head p = Some (l, n) → l ≠ 1 → counts edge p n;
  lk_referenced p : is_Some (head p) → p = root_partition ∨ is_Some (centroid p) ∧ ((∃ q, is_Some (edge (q, p))) ∨ slot p);
  lk_levels p l n : head p = Some (l, n) → 1 ≤ l ∧ ∀ lr nr, head root_partition = Some (lr, nr) → l ≤ lr;
}.
Definition edges_ok (T : Tree) : Prop := links_ok (heads_of T) (tr_edge T) (tr_centroid T) (drains_into T root_partition).
Record tree_ok (T : Tree) : Prop := {
  ok_agree p : ph_state <$> tr_header T p = PartitionTransition_state <$> tr_state T p;
  ok_authority : authority_ok (tr_high_water T) (authority_of T);
  ok_edges : edges_ok T;
}.

(** ** Headers and States *)
Section authorities.
Context (hw : Z) (a : authorities) (Hok : authority_ok hw a).
(** Only the fact needed of the transition: it is not a split nor its target. *)
Lemma restate_ok p l s s' b :
  a p = Some (l, s) → split_of s = None → (∀ q at0, s ≠ PartitionTransition.ReceivingSplit q at0) →
  split_of s' = None → (∀ q at0, s' ≠ PartitionTransition.ReceivingSplit q at0) →
  (p = root_partition → ∀ at0, s' ≠ PartitionTransition.Merging at0) →
  (∀ q, b q = if decide (q = p) then Some (l, s') else a q) → authority_ok hw b.
Proof.
  intros Hp Hs Hr Hs' Hr' Hm Hb. destruct Hok as [Aroot Aall Asp Apend Arec Adr Aex]. split; setoid_rewrite Hb.
  - case_decide as E; [subst p; naive_solver|naive_solver].
  - intros q. case_decide; [subst q; intros _; apply Aall; eauto|apply Aall].
  - intros q lq sq lr. case_decide; [naive_solver|eauto].
  - intros q lq lt rt at0 t. case_decide; [naive_solver|]. intros Hq Ht. case_decide; [subst t|eauto]. by rewrite (Apend _ _ _ _ _ _ Hq Ht) in Hp.
  - intros q lq lt rt at0 t. case_decide; [naive_solver|]. intros Hq Ht. destruct (Arec _ _ _ _ _ _ Hq Ht) as [at1 E].
    case_decide; [subst t; naive_solver|eauto].
  - intros t lt q at0. case_decide; [naive_solver|]. intros Ht. destruct (Adr _ _ _ _ Ht) as (x & y & at1 & E & Hsl).
    case_decide; [subst q; naive_solver|eauto 10].
  - intros q lq sq lr q' lq' sq' lr' t. case_decide; [naive_solver|]. intros. case_decide; [naive_solver|eauto].
Qed.
Lemma begin_split_ok p l at0 at1 b :
  a p = Some (l, PartitionTransition.Ready at0) →
  (∀ q, b q = if decide (q = p) then Some (l, PartitionTransition.Splitting (hw + 1) (hw + 2) at1) else a q) → authority_ok (hw + 2) b.
Proof.
  intros Hp Hb. destruct Hok as [Aroot Aall Asp Apend Arec Adr Aex].
  assert (root_partition ≤ hw) as Hroot by (apply Aall; naive_solver).
  assert (∀ t, slot_of (hw + 1, hw + 2) t → hw < t ≤ hw + 2) as Hsl by (intros t [-> | ->]; cbn [fst snd]; lia).
  assert (∀ t, slot_of (hw + 1, hw + 2) t → a t = None) as Hnew.
  { intros t Ht%Hsl. destruct (a t) eqn:E; [|done]. assert (t ≤ hw) by (apply Aall; eauto). lia. }
  split; setoid_rewrite Hb.
  - case_decide; naive_solver.
  - assert (p ≤ hw) by (apply Aall; eauto). intros q. case_decide; [lia|]. intros Hq%Aall. lia.
  - intros q lq sq lr. case_decide.
    + intros [= <- <-] [= <-]. split; [cbn [fst snd]; lia|]. intros t Ht%Hsl. lia.
    + intros Hq Hs. destruct (Asp _ _ _ _ Hq Hs) as [? Ht]. split; [done|]. intros t Hlt%Ht. lia.
  - intros q lq lt rt at2 t. case_decide; intros Hq Ht.
    + injection Hq as <- <- <- <-. pose proof (Hnew t Ht). case_decide; [subst t; congruence|done].
    + case_decide; [subst t|eauto]. by rewrite (Apend _ _ _ _ _ _ Hq Ht) in Hp.
  - intros q lq lt rt at2 t. case_decide; [naive_solver|]. intros Hq Ht. destruct (Arec _ _ _ _ _ _ Hq Ht) as [at3 E].
    case_decide; [subst t; naive_solver|eauto].
  - intros t lt q at2. case_decide; [naive_solver|]. intros Ht. destruct (Adr _ _ _ _ Ht) as (x & y & at3 & E & Hs).
    case_decide; [subst q; naive_solver|eauto 10].
  - assert (∀ q lq sq lr t, a q = Some (lq, sq) → split_of sq = Some lr → slot_of lr t → slot_of (hw + 1, hw + 2) t → False) as Hclash.
    { intros q lq sq lr t Hq Hs Ht Ht'%Hsl. apply (proj2 (Asp _ _ _ _ Hq Hs)) in Ht. lia. }
    intros q lq sq lr q' lq' sq' lr' t. case_decide.
    + intros [= <- <-] [= <-] Ht. case_decide; [congruence|]. intros. exfalso. eauto.
    + intros Hq Hs Ht. case_decide; [|eauto]. intros [= <- <-] [= <-] ?. exfalso. eauto.
Qed.
Lemma expose_ok p l lt rt at0 at1 b :
  a p = Some (l, PartitionTransition.Splitting lt rt at0) →
  (∀ q, b q = if decide (q = p) then Some (l, PartitionTransition.DrainingSplit lt rt at1)
              else if decide (slot_of (lt, rt) q) then Some (l, PartitionTransition.ReceivingSplit p at1) else a q) → authority_ok hw b.
Proof.
  intros Hp Hb. destruct Hok as [Aroot Aall Asp Apend Arec Adr Aex].
  destruct (Asp _ _ _ _ Hp eq_refl) as [Hne Hsl]. pose proof (λ t, Apend _ _ _ _ _ t Hp) as Hnew.
  assert (¬ slot_of (lt, rt) p) as Hself by (intros E%Hnew; congruence).
  split; setoid_rewrite Hb.
  - case_decide; [naive_solver|]. rewrite decide_False; [done|]. intros E%Hsl. naive_solver.
  - intros q. case_decide; [subst q; intros _; apply Aall; eauto|]. case_decide; [|apply Aall]. intros _. by apply Hsl.
  - intros q lq sq lr. case_decide; [intros [= <- <-] [= <-]; done|]. case_decide; [naive_solver|eauto].
  - intros q lq lt' rt' at2 t. case_decide; [done|]. case_decide; [done|]. intros Hq Ht. case_decide.
    { subst t. by rewrite (Apend _ _ _ _ _ _ Hq Ht) in Hp. }
    case_decide as Es; [|eauto]. exfalso. by pose proof (Aex _ _ _ _ _ _ _ _ t Hq eq_refl Ht Hp eq_refl Es).
  - intros q lq lt' rt' at2 t. case_decide.
    + intros [= <- <- <- <-] Ht. rewrite decide_False by (by intros ->). rewrite decide_True by done. exists at1. congruence.
    + case_decide; [done|]. intros Hq Ht. destruct (Arec _ _ _ _ _ _ Hq Ht) as [at3 E]. case_decide; [subst t; congruence|].
      rewrite decide_False; [eauto|]. intros Es%Hnew. congruence.
  - intros t lq q at2. case_decide; [done|]. case_decide as Es.
    + intros [= <- <- <-]. exists lt, rt, at1. by rewrite decide_True.
    + intros Ht. destruct (Adr _ _ _ _ Ht) as (x & y & at3 & E & Hs). case_decide; [subst q; congruence|].
      rewrite decide_False; [eauto 10|]. intros Es'%Hnew. congruence.
  - assert (∀ q lq sq lr t, q ≠ p → (if decide (slot_of (lt, rt) q) then Some (l, PartitionTransition.ReceivingSplit p at1) else a q) = Some (lq, sq) →
      split_of sq = Some lr → slot_of lr t → slot_of (lt, rt) t → False) as Hclash.
    { intros q lq sq lr t Hq. case_decide; [naive_solver|]. intros E Hs Ht Ht'. apply Hq. by eapply (Aex q _ _ _ p _ _ _ t). }
    intros q lq sq lr q' lq' sq' lr' t. case_decide.
    + intros [= <- <-] [= <-] Ht. case_decide; [congruence|]. intros. exfalso. eauto.
    + intros Hq Hs Ht. destruct (decide (q' = p)); [intros [= <- <-] [= <-] ?; exfalso; by eapply (Hclash q)|].
      destruct (decide (slot_of (lt, rt) q)); [naive_solver|]. destruct (decide (slot_of (lt, rt) q')); [naive_solver|eauto].
Qed.
(** A drained split ends: its targets are Ready, and the source has become
    [after], which takes no part in a split. *)
Lemma finish_split_ok p l lt rt at0 at1 after b :
  a p = Some (l, PartitionTransition.DrainingSplit lt rt at0) →
  (∀ l' s, after = Some (l', s) → ∃ at2, s = PartitionTransition.Ready at2) → (p = root_partition → is_Some after) →
  (∀ q, b q = if decide (q = p) then after else if decide (slot_of (lt, rt) q) then Some (l, PartitionTransition.Ready at1) else a q) →
  authority_ok hw b.
Proof.
  intros Hp Haf Hroot Hb. destruct Hok as [Aroot Aall Asp Apend Arec Adr Aex].
  destruct (Asp _ _ _ _ Hp eq_refl) as [Hne Hsl]. pose proof (λ t, Arec _ _ _ _ _ t Hp) as Hrec.
  split; setoid_rewrite Hb.
  - case_decide as E; [|rewrite decide_False; [done|intros Es%Hsl; naive_solver]].
    destruct (Hroot (eq_sym E)) as [[l' s] Ha]. exists l', s. split; [done|]. destruct (Haf _ _ Ha) as [? ->]. done.
  - intros q. case_decide; [subst q; intros _; apply Aall; eauto|]. case_decide; [|apply Aall]. intros _. by apply Hsl.
  - intros q lq sq lr. case_decide; [intros E; destruct (Haf _ _ E); naive_solver|]. case_decide; [naive_solver|eauto].
  - intros q lq lt' rt' at2 t. case_decide; [intros E; destruct (Haf _ _ E); naive_solver|]. case_decide; [done|]. intros Hq Ht.
    pose proof (Apend _ _ _ _ _ _ Hq Ht). case_decide; [subst t; congruence|]. case_decide as Es; [|done]. destruct (Hrec _ Es). congruence.
  - intros q lq lt' rt' at2 t. case_decide; [intros E; destruct (Haf _ _ E); naive_solver|]. case_decide; [done|]. intros Hq Ht.
    destruct (Arec _ _ _ _ _ _ Hq Ht) as [at3 E]. case_decide; [subst t; congruence|].
    case_decide as Es; [|eauto]. exfalso. by pose proof (Aex _ _ _ _ _ _ _ _ t Hq eq_refl Ht Hp eq_refl Es).
  - intros t lq q at2. case_decide; [intros E; destruct (Haf _ _ E); naive_solver|]. case_decide as Es; [done|].
    intros Ht. destruct (Adr _ _ _ _ Ht) as (x & y & at3 & E & Hs). case_decide; [subst q; naive_solver|].
    case_decide as Es'; [|eauto 10]. destruct (Hrec _ Es'). congruence.
  - intros q lq sq lr q' lq' sq' lr' t. case_decide; [intros E; destruct (Haf _ _ E); naive_solver|]. case_decide; [naive_solver|]. intros Hq Hs Ht.
    case_decide; [intros E; destruct (Haf _ _ E); naive_solver|]. case_decide; [naive_solver|eauto].
Qed.
Lemma remove_ok p l at0 b :
  a p = Some (l, PartitionTransition.Merging at0) → p ≠ root_partition →
  (∀ q, b q = if decide (q = p) then None else a q) → authority_ok hw b.
Proof.
  intros Hp Hroot Hb. destruct Hok as [Aroot Aall Asp Apend Arec Adr Aex]. split; setoid_rewrite Hb.
  - by rewrite decide_False.
  - intros q. case_decide; [by intros []|apply Aall].
  - intros q lq sq lr. case_decide; [done|eauto].
  - intros q lq lt rt at1 t. case_decide; [done|]. intros Hq Ht. case_decide; eauto.
  - intros q lq lt rt at1 t. case_decide; [done|]. intros Hq Ht. destruct (Arec _ _ _ _ _ _ Hq Ht). case_decide; [naive_solver|eauto].
  - intros t lt q at1. case_decide; [done|]. intros Ht. destruct (Adr _ _ _ _ Ht) as (x & y & at2 & E & Hs). case_decide; [naive_solver|eauto 10].
  - intros q lq sq lr q' lq' sq' lr' t. case_decide; [done|]. intros. case_decide; [done|eauto].
Qed.
End authorities.

(** ** Child Entries *)
Lemma counts_ext edge edge' p n : (∀ c, edge' (p, c) = edge (p, c)) → counts edge p n → counts edge' p n.
Proof. intros E (cs & ? & Hin & ?). exists cs. split_and!; [done| |done]. intros c. by rewrite E. Qed.
Lemma counts_add edge edge' p c e n :
  edge (p, c) = None → (∀ c', edge' (p, c') = if decide (c' = c) then Some e else edge (p, c')) → counts edge p n → counts edge' p (n + 1).
Proof.
  intros Hn E (cs & Hnd & Hin & Hl). exists (c :: cs). split_and!.
  - apply list.NoDup_cons. split; [|done]. rewrite Hin, Hn. by intros [].
  - intros c'. rewrite elem_of_cons, E. case_decide; [naive_solver|]. rewrite Hin. naive_solver.
  - revert Hl. unfold len. cbn [length]. lia.
Qed.
Lemma counts_remove edge edge' p c n :
  is_Some (edge (p, c)) → (∀ c', edge' (p, c') = if decide (c' = c) then None else edge (p, c')) → counts edge p n → counts edge' p (n - 1).
Proof.
  intros Hs E (cs & Hnd & Hin & Hl). apply Hin, list_elem_of_split in Hs as (l1 & l2 & ->). exists (l1 ++ l2).
  apply list.NoDup_app in Hnd as (H1 & H12 & Hnd2). apply list.NoDup_cons in Hnd2 as [Hc H2]. split_and!.
  - apply list.NoDup_app. split_and!; [done| |done]. intros x Hx Hx'. eapply H12; [done|]. by right.
  - intros c'. rewrite E. specialize (Hin c'). rewrite elem_of_app, elem_of_cons in Hin. rewrite elem_of_app. case_decide as Ec.
    + subst c'. split; [|by intros []]. intros [Hx|Hx]; [|done]. exfalso. eapply H12; [done|]. by left.
    + rewrite <-Hin. naive_solver.
  - revert Hl. unfold len. rewrite !length_app. cbn [length]. lia.
Qed.
Lemma counts_zero edge p c : counts edge p 0 → edge (p, c) = None.
Proof.
  intros (cs & _ & Hin & Hl). destruct (edge (p, c)) eqn:E; [|done]. exfalso.
  assert (c ∈ cs) as Hc by (apply Hin; by eexists). destruct cs; [by apply elem_of_nil in Hc|done].
Qed.
Section links.
Context (head : heads) (edge : Z * Z → option ChildEntry) (centroid : Z → option (list Z)) (slot : Z → Prop).
Context (Hok : links_ok head edge centroid slot).
Implicit Types (p q s c l r n : Z).

Lemma edge_absent p c : head c = None → edge (p, c) = None.
Proof. intros Hn. destruct (edge (p, c)) eqn:E; [|done]. destruct (lk_edge _ _ _ _ Hok _ _ _ E) as (_ & _ & _ & l & n & n' & ? & _). congruence. Qed.
Lemma edge_source p c : head p = None → edge (p, c) = None.
Proof. intros Hn. destruct (edge (p, c)) eqn:E; [|done]. destruct (lk_edge _ _ _ _ Hok _ _ _ E) as (_ & _ & _ & l & n & n' & _ & ?). congruence. Qed.
(** A leaf has no Child Entries, so a zero count means none at every level. *)
Lemma drained p l c : head p = Some (l, 0) → edge (p, c) = None.
Proof.
  intros Hp. destruct (decide (l = 1)) as [->|Hl]; [|by apply counts_zero, (lk_count _ _ _ _ Hok _ _ _ Hp)].
  destruct (edge (p, c)) eqn:E; [|done]. destruct (lk_edge _ _ _ _ Hok _ _ _ E) as (_ & _ & _ & l & n & n' & Hc & Hp').
  apply (lk_levels _ _ _ _ Hok) in Hc as [? _]. rewrite Hp in Hp'. injection Hp' as ?. lia.
Qed.
(** Leaf counts and slots that come. *)
Lemma links_recount head' slot' :
  (∀ p, fst <$> head' p = fst <$> head p) → (∀ p l n, head' p = Some (l, n) → l ≠ 1 → head p = Some (l, n)) →
  (∀ p, slot p → slot' p) → links_ok head' edge centroid slot'.
Proof.
  intros Hl Hn Hs.
  assert (∀ p l n, head p = Some (l, n) → ∃ n', head' p = Some (l, n')) as H1.
  { intros p l n Hp. specialize (Hl p). rewrite Hp in Hl. destruct (head' p) as [[l' n']|]; [|done]. injection Hl as ->. eauto. }
  assert (∀ p l n, head' p = Some (l, n) → ∃ n', head p = Some (l, n')) as H2.
  { intros p l n Hp. specialize (Hl p). rewrite Hp in Hl. destruct (head p) as [[l' n']|]; [|done]. injection Hl as ->. eauto. }
  destruct Hok as [Le Lp Lc Lr Ll]. split.
  - intros p c e He. destruct (Le _ _ _ He) as (? & ? & ? & l & n & n' & Hc & Hp). split_and!; [done..|].
    destruct (H1 _ _ _ Hc) as [??], (H1 _ _ _ Hp) as [??]. eauto.
  - done.
  - intros p l n Hp Hne. eauto.
  - intros p [[l n] Hp]. destruct (H2 _ _ _ Hp) as [n' Hp']. destruct (Lr p) as [|[? [|]]]; [by eexists|naive_solver..].
  - intros p l n Hp. destruct (H2 _ _ _ Hp) as [n' Hp']. destruct (Ll _ _ _ Hp') as [? Hr]. split; [done|].
    intros lr nr Hroot. destruct (H2 _ _ _ Hroot) as [??]. eauto.
Qed.
Lemma links_ext head' edge' centroid' slot' :
  (∀ p, head' p = head p) → (∀ e, edge' e = edge e) → (∀ p, centroid' p = centroid p) → (∀ p, slot p → slot' p) →
  links_ok head' edge' centroid' slot'.
Proof.
  intros Hh He Hc Hs. destruct Hok as [Le Lp Lc Lr Ll]. split; try setoid_rewrite Hh.
  - intros p c e. rewrite He, Hc. apply Le.
  - intros p q c. rewrite !He. apply Lp.
  - intros p l n Hp Hl. eapply counts_ext; [|by eapply Lc]. done.
  - intros p Hp. rewrite Hc. destruct (Lr p Hp) as [|[? [[q Hq]|]]]; [naive_solver| |naive_solver]. right. split; [done|]. left. exists q. by rewrite He.
  - done.
Qed.
(** A new empty partition, in a slot or below a parent. *)
Lemma links_add_slot t lv cen slot' :
  head t = None → t ≠ root_partition → 1 ≤ lv → (∀ lr nr, head root_partition = Some (lr, nr) → lv ≤ lr) →
  slot' t → (∀ p, slot p → slot' p) → links_ok (<[t := Some (lv, 0)]> head) edge (<[t := Some cen]> centroid) slot'.
Proof.
  intros Ht Hroot H1 Hlr Hs Hss. pose proof (λ c, edge_source t c Ht) as Hout. pose proof (λ p, edge_absent p t Ht) as Hin.
  destruct Hok as [Le Lp Lc Lr Ll]. split; unfold insert, fn_insert.
  - intros p c e He. destruct (Le _ _ _ He) as (? & ? & ? & l & n & n' & Hc & Hp). rewrite !decide_False by congruence. eauto 10.
  - done.
  - intros p l n. case_decide; [|eauto]. subst p. intros [= <- <-] _. exists []. split_and!; [constructor| |done].
    intros c. rewrite Hout. split; [by intros ?%elem_of_nil|by intros []].
  - intros p. case_decide; [subst p; naive_solver|]. intros Hp. destruct (Lr p Hp); naive_solver.
  - intros p l n. rewrite (decide_False (P := t = root_partition)) by done. case_decide; [intros [= <- <-]; naive_solver|eauto].
Qed.
Lemma links_add_child q t lv n cen :
  head t = None → t ≠ root_partition → 1 ≤ lv → head q = Some (lv + 1, n) →
  links_ok (<[q := Some (lv + 1, n + 1)]> (<[t := Some (lv, 0)]> head)) (<[(q, t) := Some (mkChildEntry t cen)]> edge)
    (<[t := Some cen]> centroid) slot.
Proof.
  intros Ht Hroot H1 Hq. pose proof (λ c, edge_source t c Ht) as Hout. pose proof (λ p, edge_absent p t Ht) as Hin.
  assert (q ≠ t) as Hqt by congruence. assert (lv + 1 ≠ 1) as Hlv by lia. pose proof (lk_count _ _ _ _ Hok _ _ _ Hq Hlv) as Hcq.
  destruct Hok as [Le Lp Lc Lr Ll].
  assert (∀ p, fst <$> <[q := Some (lv + 1, n + 1)]> (<[t := Some (lv, 0)]> head) p = if decide (t = p) then Some lv else fst <$> head p) as Hfst.
  { intros p. unfold insert, fn_insert. case_decide; [subst p; rewrite decide_False by done; by rewrite Hq|]. by case_decide. }
  split; unfold insert, fn_insert.
  - intros p c e. case_decide as E.
    + injection E as <- <-. intros [= <-]. split_and!; [done..| |]; [by rewrite decide_True|]. exists lv, 0, (n + 1).
      rewrite (decide_False (P := q = t)), !decide_True by done. done.
    + intros He. destruct (Le _ _ _ He) as (? & ? & ? & l & m & m' & Hc & Hp). split_and!; [done..| |].
      { rewrite decide_False; [done|congruence]. }
      rewrite !(decide_False (P := t = _)) by congruence. exists l.
      destruct (decide (q = c)) as [<-|], (decide (q = p)) as [<-|]; rewrite ?Hq in *; simplify_eq; eexists _, _; (split; [done|]); done || (repeat f_equal; lia).
  - intros p p' c. case_decide as E; case_decide as E'; simplify_eq; try done; [..|by apply Lp]; intros H2 H3.
    + rewrite Hin in H3. by destruct H3.
    + rewrite Hin in H2. by destruct H2.
  - intros p l m. case_decide as E.
    + subst p. intros [= <- <-] _. eapply counts_add; [apply Hin| |exact Hcq]. intros c. cbn beta. destruct (decide ((q, t) = (q, c))), (decide (c = t)); naive_solver.
    + case_decide as E'.
      * subst p. intros [= <- <-] _. exists []. split_and!; [constructor| |done]. intros c. rewrite decide_False by naive_solver. rewrite Hout.
        split; [by intros ?%elem_of_nil|by intros []].
      * intros Hp Hl. eapply counts_ext; [|by eapply Lc]. intros c. cbn beta. rewrite decide_False by naive_solver. done.
  - intros p Hp. assert (t = p ∨ t ≠ p ∧ is_Some (head p)) as [<-|[Hne Hp']].
    { destruct (decide (t = p)); [by left|]. right. split; [done|]. destruct (decide (q = p)) as [<-|]; [by rewrite Hq|done]. }
    + right. rewrite decide_True by done. split; [done|]. left. exists q. by rewrite decide_True.
    + destruct (Lr p Hp') as [|[? [[q' Hq']|]]]; [by left|..]; right; rewrite (decide_False (P := t = p)) by done; (split; [done|]); [left; exists q'|by right].
      by rewrite decide_False by naive_solver.
  - fold (insert (M := Z → option (Z * Z)) t (Some (lv, 0)) head). intros p l m Hp.
    assert (∀ p l m, <[q := Some (lv + 1, n + 1)]> (<[t := Some (lv, 0)]> head) p = Some (l, m) → t = p ∧ l = lv ∨ t ≠ p ∧ ∃ m', head p = Some (l, m')) as Hold.
    { intros p' l' m' Hp'. specialize (Hfst p'). rewrite Hp' in Hfst. destruct (decide (t = p')); [left; naive_solver|]. right. split; [done|].
      destruct (head p') as [[l'' m'']|]; [|done]. injection Hfst as ->. eauto. }
    assert (∀ lr nr, <[q := Some (lv + 1, n + 1)]> (<[t := Some (lv, 0)]> head) root_partition = Some (lr, nr) →
      ∃ nr', head root_partition = Some (lr, nr')) as Hr by (intros lr nr [[? ?]|[? ?]]%Hold; done).
    assert (l = lv ∨ ∃ m', head p = Some (l, m')) as Hl by (apply Hold in Hp; naive_solver).
    destruct Hl as [->|[m' Hl]].
    + split; [done|]. intros lr nr [nr' Hroot']%Hr. apply Ll in Hq as [_ Hq]. apply Hq in Hroot'. lia.
    + apply Ll in Hl as [? Hl]. split; [done|]. intros lr nr [nr' Hroot']%Hr. eauto.
Qed.
(** An empty partition goes, with its only reference. *)
Lemma links_remove q s lv n head' edge' centroid' slot' :
  s ≠ root_partition → head s = Some (lv, 0) → is_Some (edge (q, s)) → head q = Some (lv + 1, n) →
  (∀ p, head' p = if decide (p = s) then None else if decide (p = q) then Some (lv + 1, n - 1) else head p) →
  (∀ p c, edge' (p, c) = if decide (p = q ∧ c = s) then None else edge (p, c)) →
  (∀ p, p ≠ s → centroid' p = centroid p) → (∀ p, slot p → slot' p) → links_ok head' edge' centroid' slot'.
Proof.
  intros Hroot Hs Hqs Hq Hh He Hc Hsl. pose proof (λ c, drained s lv c Hs) as Hout.
  assert (q ≠ s) as Hne by (intros ->; rewrite Hs in Hq; injection Hq; lia).
  assert (1 ≤ lv) as Hlv by by apply (lk_levels _ _ _ _ Hok) in Hs as [? _].
  assert (∀ p, edge (p, s) = None ∨ p = q) as Honly.
  { intros p. destruct (edge (p, s)) eqn:E; [right|by left]. eapply (lk_parent _ _ _ _ Hok); [by rewrite E|done]. }
  assert (counts edge q n) as Hcq by (eapply (lk_count _ _ _ _ Hok); [done|lia]).
  assert (∀ p l m, p ≠ s → head p = Some (l, m) → ∃ m', head' p = Some (l, m')) as Hkeep.
  { intros p l m Hp. rewrite Hh, decide_False by done. case_decide; [subst p; rewrite Hq; intros [= <- <-]; eauto|eauto]. }
  assert (∀ p l m, head' p = Some (l, m) → p ≠ s ∧ ∃ m', head p = Some (l, m')) as Hold.
  { intros p l m. rewrite Hh. case_decide; [done|]. case_decide; [subst p; intros [= <- <-]; eauto|eauto]. }
  destruct Hok as [Le Lp Lc Lr Ll]. split.
  - intros p c e. rewrite He. case_decide; [done|]. intros E. destruct (Le _ _ _ E) as (? & ? & Hcen & l & m & m' & Hc' & Hp).
    assert (c ≠ s) by (intros ->; destruct (Honly p); naive_solver). assert (p ≠ s) by (intros ->; by rewrite Hout in E).
    split_and!; [done..|by rewrite Hc|]. destruct (Hkeep c _ _ ltac:(done) Hc') as [??], (Hkeep p _ _ ltac:(done) Hp) as [??]. eauto.
  - intros p p' c. rewrite !He. case_decide; [by intros []|]. case_decide; [by intros ? []|]. apply Lp.
  - intros p l m. rewrite Hh. case_decide; [done|]. case_decide.
    + subst p. intros [= <- <-] _. eapply counts_remove; [exact Hqs| |exact Hcq]. intros c. rewrite He. destruct (decide (c = s)); [by rewrite decide_True|by rewrite decide_False by by intros []].
    + intros Hp Hl. eapply counts_ext; [|by eapply Lc]. intros c. rewrite He, decide_False by by intros []. done.
  - intros p [[l m] [Hps [m' Hp]]%Hold]. rewrite Hc by done. destruct (Lr p) as [|[? [[q' Hq']|]]]; [by eexists|by left|..]; right; (split; [done|]); [left; exists q'|by right; apply Hsl].
    by rewrite He, decide_False by by intros [].
  - intros p l m [Hps [m' Hp]]%Hold. destruct (Ll _ _ _ Hp) as [? Hr]. split; [done|]. intros lr nr [_ [nr' ?]]%Hold. eauto.
Qed.
Lemma links_move s t c e lv n n' head' edge' :
  edge (s, c) = Some e → edge (t, c) = None → head s = Some (lv, n) → head t = Some (lv, n') →
  (∀ p, head' p = if decide (p = t) then Some (lv, n' + 1) else if decide (p = s) then Some (lv, n - 1) else head p) →
  (∀ p x, edge' (p, x) = if decide (p = s ∧ x = c) then None else if decide (p = t ∧ x = c) then Some e else edge (p, x)) →
  links_ok head' edge' centroid slot.
Proof.
  intros Hsc Htc Hs Ht Hh He. assert (s ≠ t) as Hst by congruence.
  assert (∀ p, fst <$> head' p = fst <$> head p) as Hfst by (intros p; rewrite Hh; repeat (case_decide; [subst p; by rewrite ?Hs, ?Ht|]); done).
  assert (∀ p l m, head p = Some (l, m) → ∃ m', head' p = Some (l, m')) as Hkeep.
  { intros p l m Hp. specialize (Hfst p). rewrite Hp in Hfst. destruct (head' p) as [[??]|]; [|done]. injection Hfst as ->. eauto. }
  assert (∀ p l m, head' p = Some (l, m) → ∃ m', head p = Some (l, m')) as Hold.
  { intros p l m Hp. specialize (Hfst p). rewrite Hp in Hfst. destruct (head p) as [[??]|]; [|done]. injection Hfst as ->. eauto. }
  destruct (lk_edge _ _ _ _ Hok _ _ _ Hsc) as (Ec & Hcr & Hcen & lc & nc & n'' & Hc & Hs'). rewrite Hs in Hs'. injection Hs' as -> <-.
  assert (lc + 1 ≠ 1) as Hlv by (apply (lk_levels _ _ _ _ Hok) in Hc as [? _]; lia).
  pose proof (lk_count _ _ _ _ Hok _ _ _ Hs Hlv) as Cs. pose proof (lk_count _ _ _ _ Hok _ _ _ Ht Hlv) as Ct.
  assert (∀ p x, is_Some (edge' (p, x)) → ∃ q, is_Some (edge (q, x)) ∧ (x = c ∧ p = t ∨ x ≠ c ∧ q = p)) as Hfrom.
  { intros p x. rewrite He. case_decide; [by intros []|]. case_decide as E; [destruct E as [-> ->]; intros _; exists s; rewrite Hsc; naive_solver|].
    intros Hx. destruct (decide (x = c)) as [->|]; [|exists p; naive_solver].
    assert (p = s) as -> by (eapply (lk_parent _ _ _ _ Hok); [done|by rewrite Hsc]). naive_solver. }
  destruct Hok as [Le Lp Lc Lr Ll]. split.
  - intros p x e'. rewrite He. case_decide; [done|]. case_decide as E.
    + destruct E as [-> ->]. intros [= <-]. split_and!; [done..|]. destruct (Hkeep _ _ _ Hc) as [??], (Hkeep _ _ _ Ht) as [??]. eauto.
    + intros Hx. destruct (Le _ _ _ Hx) as (? & ? & ? & l & m & m' & Hx' & Hp). split_and!; [done..|].
      destruct (Hkeep _ _ _ Hx') as [??], (Hkeep _ _ _ Hp) as [??]. eauto.
  - intros p q x (p' & Hp & Ep)%Hfrom (q' & Hq & Eq)%Hfrom. pose proof (Lp _ _ _ Hp Hq) as <-. naive_solver.
  - intros p l m. rewrite Hh. case_decide; [|case_decide].
    + subst p. intros [= <- <-] _. eapply counts_add; [exact Htc| |exact Ct]. intros x. rewrite He, decide_False by by intros [<- _].
      destruct (decide (x = c)); [by rewrite decide_True|by rewrite decide_False by by intros []].
    + subst p. intros [= <- <-] _. eapply counts_remove; [by rewrite Hsc| |exact Cs]. intros x. rewrite He.
      destruct (decide (x = c)); [by rewrite decide_True|]. by rewrite !decide_False by by intros [].
    + intros Hp Hl. eapply counts_ext; [|by eapply Lc]. intros x. rewrite He, !decide_False by by intros []. done.
  - intros p [[l m] [m' Hp]%Hold]. destruct (Lr p) as [|[? [[q Hq]|]]]; [by eexists|by left|..]; right; (split; [done|]); [left|by right].
    destruct (decide (p = c)) as [->|]; [exists t|exists q]; rewrite He, decide_False by (by intros [] || by intros [<- _]); [by rewrite decide_True|by rewrite decide_False by by intros []].
  - intros p l m [m' Hp]%Hold. destruct (Ll _ _ _ Hp) as [? Hr]. split; [done|]. intros lr nr [nr' ?]%Hold. eauto.
Qed.
Lemma links_centroid q c e new edge' centroid' :
  edge (q, c) = Some e →
  (∀ p x, edge' (p, x) = if decide (p = q ∧ x = c) then Some (mkChildEntry c new) else edge (p, x)) →
  (∀ p, centroid' p = if decide (p = c) then Some new else centroid p) → links_ok head edge' centroid' slot.
Proof.
  intros Hqc He Hc. assert (∀ p x, is_Some (edge' (p, x)) ↔ is_Some (edge (p, x))) as Hsome.
  { intros p x. rewrite He. case_decide as E; [destruct E as [-> ->]; rewrite Hqc; split; by eexists|done]. }
  destruct Hok as [Le Lp Lc Lr Ll]. split.
  - intros p x e'. rewrite He, Hc. case_decide as E.
    + destruct E as [-> ->]. intros [= <-]. destruct (Le _ _ _ Hqc) as (_ & ? & _ & ?). by rewrite decide_True.
    + intros Hx. destruct (Le _ _ _ Hx) as (? & ? & ? & ?). rewrite decide_False; [done|]. intros ->. apply E. split; [|done].
      eapply Lp; [by rewrite Hx|by rewrite Hqc].
  - intros p p' x. rewrite !Hsome. apply Lp.
  - intros p l n Hp Hl. destruct (Lc _ _ _ Hp Hl) as (cs & ? & Hin & ?). exists cs. split_and!; [done| |done]. intros x. by rewrite Hin, Hsome.
  - intros p Hp. rewrite Hc. destruct (Lr p Hp) as [|[? Hr]]; [by left|right]. split; [by case_decide|]. by setoid_rewrite Hsome.
  - done.
Qed.
(** The drained root gains a level and its two slots as children. *)
Lemma links_promote l r lv nl nr cl cr head' edge' slot' :
  head root_partition = Some (lv, 0) → l ≠ r → l ≠ root_partition → r ≠ root_partition →
  head l = Some (lv, nl) → head r = Some (lv, nr) → centroid l = Some cl → centroid r = Some cr → (∀ p, slot p → slot_of (l, r) p) →
  (∀ p, head' p = if decide (p = root_partition) then Some (lv + 1, 2) else head p) →
  (∀ p x, edge' (p, x) = if decide (p = root_partition ∧ x = l) then Some (mkChildEntry l cl)
                         else if decide (p = root_partition ∧ x = r) then Some (mkChildEntry r cr) else edge (p, x)) →
  links_ok head' edge' centroid slot'.
Proof.
  intros Hroot Hlr Hl Hr Hhl Hhr Hcl Hcr Hslot Hh He. pose proof (λ c, drained root_partition lv c Hroot) as Hout.
  assert (∀ p x e, edge (p, x) = Some e → p ≠ root_partition ∧ x ≠ root_partition ∧ x ≠ l ∧ x ≠ r) as Hedge.
  { intros p x e Hx. destruct (lk_edge _ _ _ _ Hok _ _ _ Hx) as (_ & ? & _ & l' & n & n' & Hx' & Hp).
    apply (lk_levels _ _ _ _ Hok) in Hp as [_ Hp]. apply Hp in Hroot as Hlev. split_and!; [|done|intros ->..]; [|rewrite ?Hhl, ?Hhr in Hx'; simplify_eq; lia..].
    intros ->. by rewrite Hout in Hx. }
  assert (1 ≤ lv) as Hlv by by apply (lk_levels _ _ _ _ Hok) in Hroot as [? _].
  destruct Hok as [Le Lp Lc Lr Ll]. split.
  - assert (∀ x c, x ≠ root_partition → head x = Some (lv, c) → ∃ l0 n n', head' x = Some (l0, n) ∧ head' root_partition = Some (l0 + 1, n')) as Hnew.
    { intros x c Hx Hc. exists lv, c, 2. rewrite !Hh, decide_False, decide_True by done. done. }
    intros p x e. rewrite He. case_decide as E; [|case_decide as E'].
    + destruct E as [-> ->]. intros [= <-]. split_and!; [done..|eauto].
    + destruct E' as [-> ->]. intros [= <-]. split_and!; [done..|eauto].
    + intros Hx. destruct (Hedge _ _ _ Hx) as (? & ? & _). rewrite !Hh, !decide_False by done. by apply Le.
  - assert (∀ p x, is_Some (edge' (p, x)) → p = root_partition ∧ slot_of (l, r) x ∨ ¬ slot_of (l, r) x ∧ is_Some (edge (p, x))) as Hfrom.
    { intros p x. rewrite He. case_decide as E; [destruct E as [-> ->]; intros _; by left; split; [|left]|].
      case_decide as E'; [destruct E' as [-> ->]; intros _; by left; split; [|right]|]. intros [e Hx]. right. split; [|by eexists].
      apply Hedge in Hx as (_ & _ & ? & ?). by intros []. }
    intros p q x [[-> Hx]|[Hx Hp]]%Hfrom [[-> Hy]|[Hy Hq]]%Hfrom; [done..|by eapply Lp].
  - intros p l' n. rewrite Hh. case_decide.
    + subst p. intros [= <- <-] _. exists [l; r]. split_and!; [|intros c; rewrite He|done].
      { apply list.NoDup_cons. split; [by rewrite list_elem_of_singleton|]. apply NoDup_singleton. }
      rewrite elem_of_cons, list_elem_of_singleton, Hout. repeat case_decide; naive_solver.
    + intros Hp Hl'. eapply counts_ext; [|by eapply Lc]. intros x. rewrite He, !decide_False by naive_solver. done.
  - intros p. rewrite Hh. case_decide; [by left|]. intros Hp. right. destruct (Lr p Hp) as [|[? [[q Hq]|Hs%Hslot]]]; [done|..]; (split; [done|]); left.
    + exists q. rewrite He. destruct Hq as [e Hq]. destruct (Hedge _ _ _ Hq) as (? & ? & _). rewrite !decide_False by naive_solver. by eexists.
    + exists root_partition. rewrite He. destruct Hs as [-> | ->]; cbn [fst snd]; [by rewrite decide_True|].
      rewrite decide_False by naive_solver. by rewrite decide_True.
  - intros p l' n Hp. rewrite Hh in Hp. rewrite Hh, decide_True by done. case_decide.
    + injection Hp as <- <-. split; [lia|]. intros ?? [= <- <-]. lia.
    + apply Ll in Hp as [? Hp]. split; [done|]. intros ?? [= <- <-]. apply Hp in Hroot. lia.
Qed.
End links.

(** ** Every step keeps the tree *)
Lemma authority_ext hw a b : (∀ p, b p = a p) → authority_ok hw a → authority_ok hw b.
Proof. intros E [Aroot Aall Asp Apend Arec Adr Aex]. split; setoid_rewrite E; eauto. Qed.
Lemma tree_ok_equiv T U : T ≡ U → tree_ok U → tree_ok T.
Proof.
  intros (Ew & Eh & Es & Ee & Ec) [Hag Hau Hed]. split.
  - intros p. by rewrite Eh, Es.
  - rewrite Ew. eapply authority_ext; [|exact Hau]. intros p. unfold authority_of. by rewrite Eh, Es.
  - eapply links_ext; [exact Hed|..]; try done; [intros p; unfold heads_of; by rewrite Eh|].
    intros p (l & r & at0 & Hs & Ht). exists l, r, at0. by rewrite Es.
Qed.
#[global] Instance tree_ok_proper : Proper ((≡) ==> iff) tree_ok.
Proof. intros T U E. split; apply tree_ok_equiv; [by symmetry|done]. Qed.
Lemma authority_facts T p h s :
  authority T p h s → authority_of T p = Some (ph_level h, s) ∧ heads_of T p = Some (ph_level h, ph_entry_count h) ∧
  tr_header T p = Some h ∧ tr_state T p = Some s.
Proof. intros [Hh Hs]. unfold authority_of, heads_of. by rewrite Hh, Hs. Qed.
Lemma heads_header T p h : tr_header T p = Some h → heads_of T p = Some (ph_level h, ph_entry_count h).
Proof. unfold heads_of. by intros ->. Qed.
Lemma absent_header T p : tree_ok T → authority_of T p = None → tr_header T p = None ∧ tr_state T p = None ∧ heads_of T p = None.
Proof.
  intros Hok. pose proof (ok_agree _ Hok p) as E. unfold authority_of, heads_of. destruct (tr_header T p), (tr_state T p); naive_solver.
Qed.
Lemma drains_root T l r at0 :
  tr_state T root_partition = Some (PartitionTransition.DrainingSplit l r at0) → ∀ p, drains_into T root_partition p ↔ slot_of (l, r) p.
Proof. intros E p. unfold drains_into. rewrite E. naive_solver. Qed.
Lemma drains_none T s :
  tr_state T root_partition = Some s → is_draining s = false → ∀ p, ¬ drains_into T root_partition p.
Proof. intros E Hd p (l & r & at0 & E' & _). rewrite E in E'. by injection E' as ->. Qed.
(** Evaluates an updated tree at a partition. *)
Ltac at_partition :=
  unfold heads_of, authority_of;
  cbn [tr_high_water tr_header tr_state tr_edge tr_centroid restated with_target without clear_edges set_high_water
       set_tree_header set_tree_state set_tree_edge set_tree_centroid];
  unfold insert, fn_insert, receiving; repeat case_decide; subst; try done.

Lemma slot_if {A} (l r p : Z) (x y : A) :
  (if decide (slot_of (l, r) p) then x else y) = if decide (l = p) then x else if decide (r = p) then x else y.
Proof. unfold slot_of. cbn [fst snd]. repeat case_decide; naive_solver. Qed.
Lemma restated_ok T s h st st' hw :
  tree_ok T → authority T s h st → is_draining st = false → is_draining st' = false →
  authority_ok hw (authority_of (restated s h st' T)) → tree_ok (set_high_water hw (restated s h st' T)).
Proof.
  intros Hok Ha Hd Hd' Hau. destruct (authority_facts _ _ _ _ Ha) as (Ea & Eh & Eh' & Es). split.
  - intros p. pose proof (ok_agree _ Hok p). at_partition.
  - done.
  - eapply links_recount; [apply Hok|..].
    + intros p. revert Eh. at_partition. by intros ->.
    + intros p l n. revert Eh. at_partition. intros -> [= <- <-]. done.
    + intros p (l & r & at0 & Hs & Hp). exists l, r, at0. split; [|done]. revert Hs. at_partition.
      rewrite Es. intros [= ->]. done.
Qed.
Lemma begin_split_step T s h at0 at1 :
  tree_ok T → authority T s h (PartitionTransition.Ready at0) →
  tree_ok (set_high_water (tr_high_water T + 2)
    (restated s h (PartitionTransition.Splitting (tr_high_water T + 1) (tr_high_water T + 2) at1) T)).
Proof.
  intros Hok Ha. destruct (authority_facts _ _ _ _ Ha) as (Ea & _). apply (restated_ok T s h (PartitionTransition.Ready at0)); [done..|].
  eapply begin_split_ok; [apply Hok|exact Ea|]. intros p. at_partition.
Qed.
Lemma begin_merge_step T s h at0 at1 :
  tree_ok T → s ≠ root_partition → authority T s h (PartitionTransition.Ready at0) → tree_ok (restated s h (PartitionTransition.Merging at1) T).
Proof.
  intros Hok Hs Ha. destruct (authority_facts _ _ _ _ Ha) as (Ea & _).
  apply (restated_ok T s h (PartitionTransition.Ready at0) (PartitionTransition.Merging at1) (tr_high_water T)); [done..|].
  eapply (restate_ok _ _ (ok_authority _ Hok) s (ph_level h) _ (PartitionTransition.Merging at1)); [exact Ea|done..| |]; [by intros ->|]. intros p. at_partition.
Qed.
(** The targets of a pending split do not exist yet. *)
Lemma pending_targets T s h l r at0 :
  tree_ok T → authority T s h (PartitionTransition.Splitting l r at0) →
  l ≠ r ∧ (∀ t, slot_of (l, r) t → t ≠ root_partition ∧ t ≠ s ∧ tr_header T t = None ∧ tr_state T t = None ∧ heads_of T t = None) ∧
  1 ≤ ph_level h ∧ ∀ lr nr, heads_of T root_partition = Some (lr, nr) → ph_level h ≤ lr.
Proof.
  intros Hok Ha. destruct (authority_facts _ _ _ _ Ha) as (Ea & Eh & Eh' & _). destruct (ok_authority _ Hok) as [_ _ Asp Apend _ _ _].
  destruct (Asp _ _ _ _ Ea eq_refl) as [Hne Hsl]. split; [done|]. split; [|by eapply (lk_levels _ _ _ _ (ok_edges _ Hok))]. intros t Ht.
  destruct (absent_header T t Hok (Apend _ _ _ _ _ _ Ea Ht)) as (E & ? & ?). split_and!; [by apply Hsl|congruence|done..].
Qed.
Lemma expose_root_step T h l r at0 at1 cl cr :
  tree_ok T → authority T root_partition h (PartitionTransition.Splitting l r at0) →
  tree_ok (restated root_partition h (PartitionTransition.DrainingSplit l r at1)
    (with_target root_partition (ph_level h) at1 r cr (with_target root_partition (ph_level h) at1 l cl T))).
Proof.
  intros Hok Ha. destruct (pending_targets _ _ _ _ _ _ Hok Ha) as (Hlr & Ht & H1 & Hmax). destruct (authority_facts _ _ _ _ Ha) as (Ea & Eh & _ & Es).
  destruct (Ht l ltac:(by left)) as (Hl & _ & _ & _ & Hhl). destruct (Ht r ltac:(by right)) as (Hr & _ & _ & _ & Hhr). split.
  - intros p. pose proof (ok_agree _ Hok p). at_partition.
  - eapply expose_ok; [apply Hok|exact Ea|]. intros p. rewrite slot_if. at_partition.
  - assert (slot_of (l, r) l ∧ slot_of (l, r) r) as [Sl Sr] by by split; [left|right].
    assert (∀ p, drains_into T root_partition p → slot_of (l, r) p) as Hd by (intros p Hp; exfalso; by eapply (drains_none T)).
    pose proof (links_add_slot _ _ _ _ (ok_edges _ Hok) l (ph_level h) cl (slot_of (l, r)) Hhl Hl H1 Hmax Sl Hd) as L1.
    assert (<[l := Some (ph_level h, 0)]> (heads_of T) r = None) as Hr' by by rewrite fn_lookup_insert_ne.
    assert (∀ lr nr, <[l := Some (ph_level h, 0)]> (heads_of T) root_partition = Some (lr, nr) → ph_level h ≤ lr) as Hmax' by by rewrite fn_lookup_insert_ne.
    pose proof (links_add_slot _ _ _ _ L1 r (ph_level h) cr (slot_of (l, r)) Hr' Hr H1 Hmax' Sr (λ p, id)) as L2.
    eapply links_ext; [exact L2|..].
    + intros p. revert Eh. at_partition.
    + done.
    + intros p. at_partition.
    + intros p. apply drains_root with (at0 := at1). at_partition.
Qed.
Lemma expose_step T s h q hq hq' l r at0 at1 cl cr :
  tree_ok T → s ≠ root_partition → authority T s h (PartitionTransition.Splitting l r at0) → tr_header T q = Some hq →
  ph_level hq = ph_level h + 1 → recounts 2 hq hq' →
  tree_ok (restated s h (PartitionTransition.DrainingSplit l r at1) (set_tree_header q (Some hq')
    (set_tree_edge q r (Some (mkChildEntry r cr)) (with_target s (ph_level h) at1 r cr
      (set_tree_edge q l (Some (mkChildEntry l cl)) (with_target s (ph_level h) at1 l cl T)))))).
Proof.
  intros Hok Hs Ha Hq Hlev (Rl & Rs & Rc). destruct (pending_targets _ _ _ _ _ _ Hok Ha) as (Hlr & Ht & H1 & _).
  destruct (authority_facts _ _ _ _ Ha) as (Ea & Eh & Eh' & Es).
  destruct (Ht l ltac:(by left)) as (Hl & Hsl & Hl0 & _ & Hhl). destruct (Ht r ltac:(by right)) as (Hr & Hsr & Hr0 & _ & Hhr).
  assert (q ≠ s ∧ q ≠ l ∧ q ≠ r) as (Hqs & Hql & Hqr) by (split_and!; intros ->; simplify_eq; lia).
  pose proof (heads_header _ _ _ Hq) as Ehq. rewrite Hlev in Ehq. split.
  - intros p. pose proof (ok_agree _ Hok p) as E. at_partition. rewrite Hq in E. cbn in *. congruence.
  - eapply expose_ok; [apply Hok|exact Ea|]. intros p. rewrite slot_if. at_partition. by rewrite Hq, Rl.
  - pose proof (links_add_child _ _ _ _ (ok_edges _ Hok) q l (ph_level h) _ cl Hhl Hl H1 Ehq) as L1.
    set (h1 := <[q := _]> _) in L1. assert (h1 r = None) as Hr' by (unfold h1; by rewrite !fn_lookup_insert_ne).
    assert (h1 q = Some (ph_level h + 1, ph_entry_count hq + 1)) as Hq' by (unfold h1; by rewrite fn_lookup_insert).
    pose proof (links_add_child _ _ _ _ L1 q r (ph_level h) _ cr Hr' Hr H1 Hq') as L2. unfold h1 in L2.
    eapply links_ext; [exact L2|..].
    + intros p. revert Eh Ehq. at_partition; cbn; intros; simplify_eq/=; do 2 f_equal; lia.
    + intros [p c]. at_partition.
    + intros p. at_partition.
    + intros p (x & y & z & E & Hp). exists x, y, z. split; [|done]. revert E. at_partition; congruence.
Qed.
Lemma move_step T s t c e hs ht hs' ht' :
  tree_ok T → tr_edge T (s, c) = Some e → tr_edge T (t, c) = None → tr_header T s = Some hs → tr_header T t = Some ht →
  ph_level ht = ph_level hs → recounts (-1) hs hs' → recounts 1 ht ht' →
  tree_ok (set_tree_header t (Some ht') (set_tree_header s (Some hs') (set_tree_edge s c None (set_tree_edge t c (Some e) T)))).
Proof.
  intros Hok Hsc Htc Hs Ht Hlev (Sl & Ss & Sc) (Tl & Ts & Tc). split.
  - intros p. pose proof (ok_agree _ Hok p) as E. at_partition; rewrite ?Hs, ?Ht in E; cbn in *; congruence.
  - eapply authority_ext; [|apply Hok]. intros p. at_partition; rewrite ?Hs, ?Ht; case_match; congruence.
  - pose proof (heads_header _ _ _ Ht) as Eht. rewrite Hlev in Eht.
    apply (links_move _ _ _ _ (ok_edges _ Hok) s t c e _ _ _ _ _ Hsc Htc (heads_header _ _ _ Hs) Eht).
    + intros p. at_partition; cbn; do 2 f_equal; lia.
    + intros p x. at_partition; naive_solver.
Qed.
Lemma update_centroid_step T c q e hq hq' new :
  tree_ok T → tr_header T q = Some hq → recounts 0 hq hq' → tr_edge T (q, c) = Some e →
  tree_ok (set_tree_header q (Some hq') (set_tree_edge q c (Some (mkChildEntry c new)) (set_tree_centroid c (Some new) T))).
Proof.
  intros Hok Hq (Rl & Rs & Rc) He. split.
  - intros p. pose proof (ok_agree _ Hok p) as E. at_partition. rewrite Hq in E. cbn in *. congruence.
  - eapply authority_ext; [|apply Hok]. intros p. at_partition. rewrite Hq. case_match; congruence.
  - eapply links_ext; [eapply (links_centroid _ _ _ _ (ok_edges _ Hok) q c e new (<[(q, c) := Some (mkChildEntry c new)]> (tr_edge T))
      (<[c := Some new]> (tr_centroid T)) He)|..].
    + intros p x. at_partition; naive_solver.
    + intros p. at_partition.
    + intros p. at_partition. rewrite Hq. cbn. do 2 f_equal; lia.
    + done.
    + done.
    + done.
Qed.
Lemma leaf_step T p h h' :
  tree_ok T → tr_header T p = Some h → ph_level h = 1 → ph_level h' = 1 → ph_state h' = ph_state h → tree_ok (set_tree_header p (Some h') T).
Proof.
  intros Hok Hp H1 H1' Hs. split.
  - intros q. pose proof (ok_agree _ Hok q) as E. at_partition. rewrite Hp in E. cbn in *. congruence.
  - eapply authority_ext; [|apply Hok]. intros q. at_partition. rewrite Hp. case_match; congruence.
  - eapply links_recount; [apply Hok|..|done].
    + intros q. at_partition. rewrite Hp. cbn. congruence.
    + intros q l n. at_partition. intros [= <- <-]. done.
Qed.
(** The targets of a draining split, in a good tree. *)
Lemma draining_targets T s h l r at0 :
  tree_ok T → authority T s h (PartitionTransition.DrainingSplit l r at0) →
  l ≠ r ∧ ∀ t, slot_of (l, r) t → t ≠ root_partition ∧ t ≠ s ∧
    ∃ ht at1, authority T t ht (PartitionTransition.ReceivingSplit s at1) ∧ ph_level ht = ph_level h.
Proof.
  intros Hok Ha. destruct (authority_facts _ _ _ _ Ha) as (Ea & Eh & Eh' & Es). destruct (ok_authority _ Hok) as [_ _ Asp _ Arec _ _].
  destruct (Asp _ _ _ _ Ea eq_refl) as [Hne Hsl]. split; [done|]. intros t Ht. destruct (Arec _ _ _ _ _ _ Ea Ht) as [at1 Er].
  split_and!; [by apply Hsl|intros ->; congruence|]. unfold authority_of in Er. unfold authority.
  destruct (tr_header T t) as [ht|], (tr_state T t) as [st|]; [|done..]. injection Er as El ->. eauto.
Qed.
Lemma finalize_root_step T h h' l r at0 at1 hl hr atl atr cl cr :
  tree_ok T → authority T root_partition h (PartitionTransition.DrainingSplit l r at0) → ph_entry_count h = 0 →
  authority T l hl (PartitionTransition.ReceivingSplit root_partition atl) →
  authority T r hr (PartitionTransition.ReceivingSplit root_partition atr) →
  tr_centroid T l = Some cl → tr_centroid T r = Some cr →
  ph_level h' = ph_level h + 1 → ph_entry_count h' = 2 → ph_state h' = PartitionState.Ready →
  tree_ok (set_tree_state root_partition (Some (PartitionTransition.Ready at1)) (set_tree_header root_partition (Some h')
    (set_tree_edge root_partition r (Some (mkChildEntry r cr)) (set_tree_edge root_partition l (Some (mkChildEntry l cl))
      (restated r hr (PartitionTransition.Ready at1) (restated l hl (PartitionTransition.Ready at1) T)))))).
Proof.
  intros Hok Ha H0 Hl Hr Hcl Hcr Hlev Hn Hst. destruct (draining_targets _ _ _ _ _ _ Hok Ha) as [Hne Ht].
  destruct (Ht l ltac:(by left)) as (Hl1 & _ & hl' & atl' & [Hl' _] & Ell). destruct (Ht r ltac:(by right)) as (Hr1 & _ & hr' & atr' & [Hr' _] & Elr).
  destruct (authority_facts _ _ _ _ Ha) as (Ea & Eh & Eh' & Es). destruct (authority_facts _ _ _ _ Hl) as (_ & Ehl & Ehl' & _).
  destruct (authority_facts _ _ _ _ Hr) as (_ & Ehr & Ehr' & _). simplify_eq. split.
  - intros p. pose proof (ok_agree _ Hok p) as E. at_partition. cbn. by rewrite Hst.
  - apply (finish_split_ok _ _ (ok_authority _ Hok) root_partition (ph_level h) l r at0 at1 (Some (ph_level h + 1, PartitionTransition.Ready at1))).
    + done.
    + intros ?? [= <- <-]. eauto.
    + done.
    + intros p. rewrite slot_if. at_partition; cbn; congruence.
  - rewrite H0 in Eh. rewrite Ell in Ehl. rewrite Elr in Ehr.
    eapply links_ext; [eapply (links_promote _ _ _ _ (ok_edges _ Hok) l r (ph_level h) _ _ cl cr
      (<[root_partition := Some (ph_level h + 1, 2)]> (heads_of T))
      (<[(root_partition, r) := Some (mkChildEntry r cr)]> (<[(root_partition, l) := Some (mkChildEntry l cl)]> (tr_edge T)))
      (λ _, False) Eh Hne Hl1 Hr1 Ehl Ehr Hcl Hcr (λ p, proj1 (drains_root _ _ _ _ Es p)))|..].
    + intros p. at_partition.
    + intros p x. at_partition; naive_solver.
    + intros p. revert Ehl Ehr. at_partition; cbn; congruence.
    + done.
    + done.
    + done.
Qed.
Lemma remove_step T clear s h q hq hq' a U :
  tree_ok T → s ≠ root_partition → tr_header T s = Some h → ph_entry_count h = 0 → is_Some (tr_edge T (q, s)) → tr_header T q = Some hq →
  ph_level hq = ph_level h + 1 → recounts (-1) hq hq' →
  (∀ p, U p = if decide (p = s) then None else a p) → authority_ok (tr_high_water T) U →
  (∀ V, tr_edge V = tr_edge T → tr_centroid V = tr_centroid T → tr_high_water V = tr_high_water T →
     (∀ p, heads_of V p = heads_of T p) → (∀ p, authority_of V p = a p) →
     (∀ p, ph_state <$> tr_header V p = PartitionTransition_state <$> tr_state V p) → tr_header V q = Some hq →
     (∀ p, drains_into T root_partition p → drains_into V root_partition p) →
     tree_ok (without clear s (set_tree_header q (Some hq') (set_tree_edge q s None V)))).
Proof.
  intros Hok Hs Hh H0 Hqs Hq Hlev (Rl & Rs & Rc) HU Hau V Ve Vc Vw Vh Va Vag Vq Vd.
  assert (q ≠ s) as Hne by (intros ->; simplify_eq; lia).
  pose proof (heads_header _ _ _ Hh) as Eh. rewrite H0 in Eh. pose proof (heads_header _ _ _ Hq) as Eq. rewrite Hlev in Eq. split.
  - intros p. pose proof (Vag p) as E. at_partition. rewrite Vq in E. cbn in *. congruence.
  - cbn [tr_high_water without set_tree_header set_tree_centroid set_tree_state set_tree_edge clear_edges]. rewrite Vw.
    eapply authority_ext; [|exact Hau]. intros p. rewrite HU, <-Va. at_partition. by rewrite Vq, Rl.
  - eapply (links_remove _ _ _ _ (ok_edges _ Hok) q s _ _ _ _ _ _ Hs Eh Hqs Eq).
    + intros p. rewrite <-Vh. at_partition; cbn; do 2 f_equal; lia.
    + intros p c. cbn [tr_edge without set_tree_header set_tree_centroid set_tree_state set_tree_edge clear_edges fst]. rewrite Ve.
      destruct (Z.eqb_spec p s) as [->|Hp]; [rewrite (decide_False (P := s = q ∧ _)), (drained _ _ _ _ (ok_edges _ Hok) s _ c Eh) by by intros []|].
      * destruct clear; [done|]. unfold insert, fn_insert. case_decide; [done|]. by eapply (drained _ _ _ _ (ok_edges _ Hok)).
      * rewrite andb_false_r. unfold insert, fn_insert. repeat case_decide; naive_solver.
    + intros p Hp. rewrite <-Vc. at_partition.
    + intros p (x & y & z & E & Hp)%Vd. exists x, y, z. split; [|done]. revert E. at_partition.
Qed.
Lemma finalize_split_step T clear s h q hq hq' l r at0 at1 hl hr atl atr :
  tree_ok T → s ≠ root_partition → authority T s h (PartitionTransition.DrainingSplit l r at0) → ph_entry_count h = 0 →
  authority T l hl (PartitionTransition.ReceivingSplit s atl) → authority T r hr (PartitionTransition.ReceivingSplit s atr) →
  is_Some (tr_edge T (q, s)) → tr_header T q = Some hq → ph_level hq = ph_level h + 1 → recounts (-1) hq hq' →
  tree_ok (without clear s (set_tree_header q (Some hq') (set_tree_edge q s None
    (restated r hr (PartitionTransition.Ready at1) (restated l hl (PartitionTransition.Ready at1) T))))).
Proof.
  intros Hok Hs Ha H0 Hl Hr Hqs Hq Hlev Hrec. destruct (draining_targets _ _ _ _ _ _ Hok Ha) as [Hne Ht].
  destruct (Ht l ltac:(by left)) as (Hl1 & Hl2 & hl' & atl' & [Hl' _] & Ell). destruct (Ht r ltac:(by right)) as (Hr1 & Hr2 & hr' & atr' & [Hr' _] & Elr).
  destruct (authority_facts _ _ _ _ Ha) as (Ea & _ & Eh' & _). destruct (authority_facts _ _ _ _ Hl) as (_ & _ & Ehl' & Esl).
  destruct (authority_facts _ _ _ _ Hr) as (_ & _ & Ehr' & Esr). simplify_eq.
  assert (∀ t, slot_of (l, r) t → q ≠ t) as Hqt.
  { intros t Hslot ->. destruct (Ht t Hslot) as (_ & _ & ht & att & [Hht _] & E). simplify_eq. lia. }
  set (a := λ p, if decide (slot_of (l, r) p) then Some (ph_level h, PartitionTransition.Ready at1) else authority_of T p).
  eapply (remove_step T clear s h q hq hq' a (λ p, if decide (p = s) then None else a p)); try done.
  - apply (finish_split_ok _ _ (ok_authority _ Hok) s (ph_level h) l r at0 at1 None); done.
  - intros p. at_partition; cbn; rewrite ?Hl', ?Hr'; done.
  - intros p. unfold a. rewrite slot_if. at_partition; cbn; congruence.
  - intros p. pose proof (ok_agree _ Hok p). at_partition.
  - cbn [tr_header restated set_tree_header set_tree_state]. rewrite !fn_lookup_insert_ne; [done|..]; intros <-; [by apply (Hqt l); [left|]|by apply (Hqt r); [right|]].
  - intros p (x & y & z & E & Hp). exists x, y, z. split; [|done]. revert E. at_partition.
Qed.
Lemma finalize_merge_step T clear s h q hq hq' at0 :
  tree_ok T → s ≠ root_partition → authority T s h (PartitionTransition.Merging at0) → ph_entry_count h = 0 →
  is_Some (tr_edge T (q, s)) → tr_header T q = Some hq → ph_level hq = ph_level h + 1 → recounts (-1) hq hq' →
  tree_ok (without clear s (set_tree_header q (Some hq') (set_tree_edge q s None T))).
Proof.
  intros Hok Hs Ha H0 Hqs Hq Hlev Hrec. destruct (authority_facts _ _ _ _ Ha) as (Ea & _ & Eh' & _).
  eapply (remove_step T clear s h q hq hq' (authority_of T) (λ p, if decide (p = s) then None else authority_of T p)); try done; [|apply Hok].
  by eapply (remove_ok _ _ (ok_authority _ Hok) s).
Qed.
Lemma step_ok T T' : tree_ok T → step T T' → tree_ok T'.
Proof.
  intros Hok [[a Hst]|(p & h & h' & Hp & H1 & H1' & Hs & ->)]; [|by eapply leaf_step].
  destruct Hst; match goal with E : _ ≡ _ |- _ => rewrite E end;
    eauto using begin_split_step, begin_merge_step, expose_root_step, expose_step, move_step, update_centroid_step,
      finalize_root_step, finalize_split_step, finalize_merge_step.
Qed.
Lemma created_ok T : created T → tree_ok T.
Proof.
  intros [at0 ->]. split.
  - intros p. at_partition.
  - split; at_partition; unfold insert, fn_insert.
    + exists 1, (PartitionTransition.Ready at0). by split.
    + intros p. case_decide; [subst; done|by intros []].
    + intros p l s lr. case_decide; naive_solver.
    + intros p l lt rt at1 t. case_decide; naive_solver.
    + intros p l lt rt at1 t. case_decide; naive_solver.
    + intros t l s at1. case_decide; naive_solver.
    + intros p l s lr. case_decide; naive_solver.
  - split.
    + done.
    + by intros ??? [].
    + intros p l n. at_partition. naive_solver.
    + intros p. at_partition; [by left|by intros []].
    + intros p l n. at_partition. intros [= <- <-]. split; [done|]. by intros ?? [= <- <-].
Qed.
(** Every tree the protocol reaches. *)
Definition reached (T : Tree) : Prop := ∃ T0, created T0 ∧ rtc step T0 T.
Lemma reached_ok T : reached T → tree_ok T.
Proof.
  intros (T0 & Hc & Hr). apply created_ok in Hc. induction Hr as [|T0 T1 T2 Hst _ IH]; [done|]. apply IH. by eapply step_ok.
Qed.
(** What a transition does to one Header: only internal counts change, new
    partitions are empty, and what goes or gains a level was empty. *)
Inductive header_change : option PartitionHeader → option PartitionHeader → Prop :=
  | hc_same o : header_change o o
  | hc_kept h h' : ph_level h' = ph_level h → ph_entry_count h' = ph_entry_count h ∨ 1 < ph_level h → header_change (Some h) (Some h')
  | hc_new h' : ph_entry_count h' = 0 → header_change None (Some h')
  | hc_gone h : ph_entry_count h = 0 → header_change (Some h) None
  | hc_raised h h' : ph_entry_count h = 0 → 1 < ph_level h' → header_change (Some h) (Some h').
Lemma edge_internal T p c h : tree_ok T → is_Some (tr_edge T (p, c)) → tr_header T p = Some h → 1 < ph_level h.
Proof.
  intros Hok [e He] Hp. destruct (lk_edge _ _ _ _ (ok_edges _ Hok) _ _ _ He) as (_ & _ & _ & l & n & n' & Hc & Hp'). rewrite (heads_header _ _ _ Hp) in Hp'.
  apply (lk_levels _ _ _ _ (ok_edges _ Hok)) in Hc as [? _]. injection Hp'. lia.
Qed.
Lemma header_level T p h : tree_ok T → tr_header T p = Some h → 1 ≤ ph_level h.
Proof. intros Hok Hp. by apply (lk_levels _ _ _ _ (ok_edges _ Hok) p _ (ph_entry_count h) (heads_header _ _ _ Hp)). Qed.
Lemma transition_headers a T T' p : tree_ok T → transition a T T' → header_change (tr_header T p) (tr_header T' p).
Proof.
  intros Hok Hst. destruct Hst as [T T' s h at0 at1 [Hh Hs] E|T T' h l r at0 at1 cl cr Ha E|T T' s h q hq hq' l r at0 at1 cl cr Hs Ha Hqs Hq Hlev _ (Rl & Rs & Rc) E
    |T T' s t c e hs ht hs' ht' Hsc Htc Hs Ht Hlev (Sl & Ss & Sc) (Tl & Ts & Tc) E|T T' c q e hc hq hq' old new _ _ _ Hq _ (Rl & Rs & Rc) _ _ E
    |T T' h h' l r at0 at1 hl hr atl atr cl cr [Hh _] H0 [Hl _] _ [Hr _] _ _ _ _ _ Hlev _ _ E
    |T T' clear s h q hq hq' l r at0 at1 hl hr atl atr _ [Hh _] H0 [Hl _] _ [Hr _] _ _ Hq Hlev (Rl & Rs & Rc) E
    |T T' s h q at0 at1 _ [Hh Hs] _ E|T T' clear s h q hq hq' at0 _ [Hh _] H0 _ Hq Hlev (Rl & Rs & Rc) E]; destruct E as (_ & -> & _).
  - at_partition; [rewrite Hh; constructor; auto|constructor].
  - destruct (pending_targets _ _ _ _ _ _ Hok Ha) as (_ & Ht & _). destruct Ha as [Hh _].
    destruct (Ht l ltac:(by left)) as (_ & _ & Hl0 & _), (Ht r ltac:(by right)) as (_ & _ & Hr0 & _).
    at_partition; [rewrite Hh; constructor; auto|rewrite Hr0; by constructor|rewrite Hl0; by constructor|constructor].
  - destruct (pending_targets _ _ _ _ _ _ Hok Ha) as (_ & Ht & _). destruct Ha as [Hh _]. pose proof (header_level _ _ _ Hok Hh).
    destruct (Ht l ltac:(by left)) as (_ & _ & Hl0 & _), (Ht r ltac:(by right)) as (_ & _ & Hr0 & _).
    at_partition; [rewrite Hh; constructor; auto|rewrite Hq; constructor; lia|rewrite Hr0; by constructor|rewrite Hl0; by constructor|constructor].
  - pose proof (edge_internal _ _ _ _ Hok (mk_is_Some _ _ Hsc) Hs). at_partition; [rewrite Ht; constructor; lia|rewrite Hs; constructor; lia|constructor].
  - at_partition; [rewrite Hq; constructor; lia|constructor].
  - pose proof (header_level _ _ _ Hok Hh). at_partition; [rewrite Hh; constructor; lia|rewrite Hr; constructor; auto|rewrite Hl; constructor; auto|constructor].
  - pose proof (header_level _ _ _ Hok Hh). at_partition; [rewrite Hh; by constructor|rewrite Hq; constructor; lia|rewrite Hr; constructor; auto|rewrite Hl; constructor; auto|constructor].
  - at_partition; [rewrite Hh; constructor; auto|constructor].
  - pose proof (header_level _ _ _ Hok Hh). at_partition; [rewrite Hh; by constructor|rewrite Hq; constructor; lia|constructor].
Qed.
(** Leaves that stay keep their exact count, and leaves come and go empty. *)
Lemma transition_leaves a T T' :
  tree_ok T → transition a T T' →
  (∀ p h', tr_header T' p = Some h' → ph_level h' = 1 →
     (∃ h, tr_header T p = Some h ∧ ph_level h = 1 ∧ ph_entry_count h = ph_entry_count h') ∨ tr_header T p = None ∧ ph_entry_count h' = 0) ∧
  (∀ p h, tr_header T p = Some h → ph_level h = 1 →
     (∃ h', tr_header T' p = Some h' ∧ ph_level h' = 1) ∨ ph_entry_count h = 0).
Proof.
  intros Hok Hst. split; intros p h Hp H1; pose proof (transition_headers _ _ _ p Hok Hst) as Hc; rewrite Hp in Hc; inversion Hc; subst; try lia; eauto.
  - left. eexists. split_and!; [done|lia|lia].
  - left. eexists. split; [done|lia].
Qed.
