(* ===== verification/TransitionsSpec.v ===== *)
(** The topology transactions of src/src/storage/topology/transitions.rs refine
    the protocol: what a transaction writes is one transition of the tree, in
    every tree that agrees with what it has read under update protection, and
    record membership stays intact. *)
From stdpp Require Import gmap sorting functions.
From S2P Require Import Prelude RustStd Api TreeKey Keys KeyRanges RaBitQ Manifest Wire ValueData Records Synopsis Values Config Backend Memory Txn Codec Logical TreeOps Membership LogicalSpec MembershipSpec MembershipInv Mutate MutateSpec Relocation RelocationSpec Reader Discovery DiscoverySpec Transitions Protocol.

(** ** The tree a typed map holds *)
#[global] Instance id_ok_dec p : Decision (id_ok p).
Proof. unfold id_ok. apply _. Defined.
Definition at_id {A} (p : Z) (x : option A) : option A := if decide (id_ok p) then x else None.
Definition header_value (v : result (option PersistentValue.t)) : option PartitionHeader :=
  match v with Ok (Some (PersistentValue.PartitionHeader h)) => Some h | _ => None end.
Definition state_value (v : result (option PersistentValue.t)) : option PartitionTransition.t :=
  match v with Ok (Some (PersistentValue.PartitionState s)) => Some s | _ => None end.
Definition edge_value (v : result (option PersistentValue.t)) : option ChildEntry :=
  match v with Ok (Some (PersistentValue.ChildEntry e)) => Some e | _ => None end.
Definition centroid_value (v : result (option PersistentValue.t)) : option (list Z) :=
  match v with Ok (Some (PersistentValue.PartitionCentroid c)) => Some c | _ => None end.
Definition high_water_value (v : result (option PersistentValue.t)) : Z :=
  match v with Ok (Some (PersistentValue.TreeManifest tm)) => tm_partition_key_high_water tm | _ => 0 end.
Section trees.
Context (ix : Z) (tree_key : list Z).
Implicit Types (g : typed_map) (p c : Z).
Definition tree_of g : Tree := mkTree
  (high_water_value (g (LogicalKey.TreeManifest ix tree_key)))
  (λ p, at_id p (header_value (g (LogicalKey.Header ix tree_key p))))
  (λ p, at_id p (state_value (g (LogicalKey.State ix tree_key p))))
  (λ e, at_id e.1 (at_id e.2 (edge_value (g (LogicalKey.ChildEntry ix tree_key e.1 e.2)))))
  (λ p, at_id p (centroid_value (g (LogicalKey.Centroid ix tree_key p)))).
(** The keys of the tree's partitions and its manifest. *)
Definition tree_part (k : LogicalKey.t) : Prop :=
  k = LogicalKey.TreeManifest ix tree_key ∨
  ∃ p, k = LogicalKey.Header ix tree_key p ∨ k = LogicalKey.State ix tree_key p ∨ k = LogicalKey.Centroid ix tree_key p ∨
    ∃ c, k = LogicalKey.ChildEntry ix tree_key p c.
(** Clearing a partition's range under a binding: its keys that can be read
    have no value. *)
Definition clear_partition (b : LogicalBinding) p g : typed_map := λ key,
  if decide (key_partition key = Some (ix, tree_key, p)) then encode_input_key b key ≫= λ _, Ok None else g key.

(** A write as a transaction stages it: a put or delete of one key, or a clear of
    a partition's range.  A change of the map is [fixed] when one list of such
    writes, the same for every map, makes it. *)
Inductive effect := Write (key : LogicalKey.t) (value : option PersistentValue.t) | Clear (p : Z).
Definition apply_effect (b : LogicalBinding) g (e : effect) : typed_map :=
  match e with Write key value => set_typed g (key, value) | Clear p => clear_partition b p g end.
Definition fixed (b : LogicalBinding) (E : typed_map → typed_map) : Prop :=
  ∃ es, ∀ g, E g = foldl (apply_effect b) g es.
Lemma fixed_id b : fixed b (λ g, g).
Proof. by exists []. Qed.
Lemma fixed_step b E e : fixed b E → fixed b (λ g, apply_effect b (E g) e).
Proof. intros [es Hes]. exists (es ++ [e]). intros g. by rewrite foldl_app, Hes. Qed.
Lemma fixed_set b E w : fixed b E → fixed b (λ g, set_typed (E g) w).
Proof. destruct w as [k v]. apply (fixed_step b E (Write k v)). Qed.
Lemma fixed_sets b E ws : fixed b E → fixed b (λ g, foldl set_typed (E g) ws).
Proof. revert E. induction ws as [|w ws IH]; intros E HE; [done|]. cbn [foldl]. apply (IH (λ g, set_typed (E g) w)). by apply fixed_set. Qed.
Lemma fixed_clear b E p : fixed b E → fixed b (λ g, clear_partition b p (E g)).
Proof. apply (fixed_step b E (Clear p)). Qed.

Lemma tree_of_proper f g : id_ok ix → bytes_ok tree_key → same_map f g → tree_of f ≡ tree_of g.
Proof.
  intros Hi Hk E. unfold tree_of. split_and!; cbn [tr_high_water tr_header tr_state tr_edge tr_centroid].
  - by rewrite E.
  - intros p. unfold at_id. case_decide; [|done]. by rewrite E.
  - intros p. unfold at_id. case_decide; [|done]. by rewrite E.
  - intros [p c]. cbn [fst snd]. unfold at_id. case_decide; [|done]. case_decide; [|done]. by rewrite E.
  - intros p. unfold at_id. case_decide; [|done]. by rewrite E.
Qed.
Ltac part_case := unfold set_typed, base.insert, fn_insert; cbn [fst snd]; repeat case_decide; simplify_eq; try done; try congruence.
Lemma tree_set_header g p h : id_ok p →
  tree_of (set_typed g (LogicalKey.Header ix tree_key p, h)) ≡ set_tree_header p (header_value (Ok h)) (tree_of g).
Proof. intros Hp. split_and!; cbn; unfold at_id; intros; part_case. Qed.
Lemma tree_set_state g p s : id_ok p →
  tree_of (set_typed g (LogicalKey.State ix tree_key p, s)) ≡ set_tree_state p (state_value (Ok s)) (tree_of g).
Proof. intros Hp. split_and!; cbn; unfold at_id; intros; part_case. Qed.
Lemma tree_set_centroid g p (v : option PersistentValue.t) : id_ok p →
  tree_of (set_typed g (LogicalKey.Centroid ix tree_key p, v)) ≡ set_tree_centroid p (centroid_value (Ok v)) (tree_of g).
Proof. intros Hp. split_and!; cbn; unfold at_id; intros; part_case. Qed.
Lemma tree_set_edge g p c e : id_ok p → id_ok c →
  tree_of (set_typed g (LogicalKey.ChildEntry ix tree_key p c, e)) ≡ set_tree_edge p c (edge_value (Ok e)) (tree_of g).
Proof. intros Hp Hc. split_and!; cbn; unfold at_id; intros; try match goal with e : Z * Z |- _ => destruct e end; part_case. Qed.
Lemma tree_set_manifest g tm :
  tree_of (set_typed g (LogicalKey.TreeManifest ix tree_key, Some (PersistentValue.TreeManifest tm))) ≡
  set_high_water (tm_partition_key_high_water tm) (tree_of g).
Proof. split_and!; cbn; unfold at_id; intros; part_case. Qed.
Lemma tree_set_synopsis g p s : tree_of (set_typed g (LogicalKey.Synopsis ix tree_key p, s)) ≡ tree_of g.
Proof. split_and!; cbn; unfold at_id; intros; part_case. Qed.
Lemma tree_clear b g p : id_ok p → tree_of (clear_partition b p g) ≡ without true p (tree_of g).
Proof.
  intros Hp. unfold clear_partition. split_and!; cbn; unfold at_id; intros; try match goal with e : Z * Z |- _ => destruct e as [p' c'] end;
    unfold base.insert, fn_insert; cbn [fst snd]; try destruct (Z.eqb_spec p' p); repeat case_decide; simplify_eq; try done; try congruence;
    by destruct (encode_input_key _ _).
Qed.
End trees.

(** Decomposes a fixed change into its writes. *)
Ltac fixes := cbv beta; cbn [foldl app]; repeat first [apply fixed_id|apply fixed_set|apply fixed_sets|apply fixed_clear].
Ltac each := repeat (apply List.Forall_cons; [try done|]); try apply List.Forall_nil.
Lemma wp_and {T A} (p : M T A) Q E Q' E' t : wp p Q E t → wp p Q' E' t → wp p (λ a t', Q a t' ∧ Q' a t') (λ e t', E e t' ∧ E' e t') t.
Proof. unfold wp. by destruct (p t) as [t' [a|e|]]. Qed.
(** ** Transactions and what they have read *)
(** [g] holds what [f] holds at the keys [ks]. *)
Definition agree (ks : list LogicalKey.t) (f g : typed_map) : Prop := Forall (λ k, g k = f k) ks.
Section running.
Context (xxh3_128 : Z → list Z → Z) (sha256 : list Z → list Z) {T : Type} `{WriteLaws T}.
Context (m : IndexManifest) (types : list DataType.t).
Abbreviation ix := (im_logical_index_id m).
Abbreviation over := (MutateSpec.over xxh3_128 sha256 m types).
Abbreviation typed_wrote := (LogicalSpec.typed_wrote xxh3_128 sha256).
Abbreviation writable := (RelocationSpec.writable xxh3_128 sha256 m).
Implicit Types (f g : typed_map) (t : WriteLogicalTxn T).
(** A transaction begun on [f] has become [t'] by reading the keys [ks] under
    update protection and changing its map by [E]. *)
Record ran f t E ks t' : Prop := {
  ran_over : over (E f) t';
  ran_same : same_txn t t';
  ran_protected : Forall (λ k, key_protected k t') ks;
}.
Lemma ran_start f t : over f t → ran f t (λ g, g) [] t.
Proof. intros Ho. by split; [|done|constructor]. Qed.
Lemma protected_mono ks t t' : same_txn t t' → Forall (λ k, key_protected k t) ks → Forall (λ k, key_protected k t') ks.
Proof. intros Hs Hp. eapply Forall_impl; [|exact Hp]. intros x. by apply key_protected_mono. Qed.
Lemma ran_reads f t E ks t1 t2 : ran f t E ks t1 → reads t1 t2 → ran f t E ks t2.
Proof.
  intros [Ho Hs Hp] Hr. pose proof (rd_same _ _ Hr) as Hs'. split; [by eapply over_reads|by etrans|by eapply protected_mono].
Qed.
Lemma ran_wrote f t E ks t1 t2 E' : ran f t E ks t1 → typed_wrote t1 t2 (E' f) → ran f t E' ks t2.
Proof.
  intros [Ho Hs Hp] Hw. pose proof (tw_same _ _ _ _ _ Hw) as Hs'. split; [by eapply over_wrote|by etrans|by eapply protected_mono].
Qed.
Lemma ran_protect f t E ks ks' t1 : ran f t E ks t1 → Forall (λ k, key_protected k t1) ks' → ran f t E (ks' ++ ks) t1.
Proof. intros [Ho Hs Hp] Hk. split; [done..|]. by apply Forall_app. Qed.
Abbreviation failed t := (λ (_ : ErrorKind) t', same_txn t t').
Context (f : typed_map) (t : WriteLogicalTxn T).
Lemma ran_lift {A E ks} (Q : A → WriteLogicalTxn T → Prop) {B} (r : result B) (rest : B → M (WriteLogicalTxn T) A) t1 :
  ran f t E ks t1 → no_panic r → (∀ b, r = Ok b → wp (rest b) Q (failed t) t1) → wp (let! b := m_lift r in rest b) Q (failed t) t1.
Proof. intros Hr Hn Hrest. apply wp_bind, wp_lift; [done|done|]. intros e _. apply Hr. Qed.
Lemma ran_fail {A E ks} (Q : A → WriteLogicalTxn T → Prop) (e : ErrorKind) t1 : ran f t E ks t1 → wp (m_lift (Err e) : M _ A) Q (failed t) t1.
Proof. intros Hr. apply wp_lift; [done|done|]. intros e' _. apply Hr. Qed.
Lemma ran_manifest {A E ks} (Q : A → WriteLogicalTxn T → Prop) (rest : IndexManifest → M (WriteLogicalTxn T) A) t1 :
  ran f t E ks t1 → wp (rest m) Q (failed t) t1 → wp (let! t := m_get in let! m := m_lift (require_bound_manifest t) in rest m) Q (failed t) t1.
Proof.
  intros Hr Hrest. apply wp_bind, wp_get. unfold require_bound_manifest. rewrite (bd_manifest _ _ _ (ov_bound _ _ _ _ _ _ (ran_over _ _ _ _ _ Hr))).
  apply wp_bind, wp_lift; [done| |done]. by intros _ [= <-].
Qed.
Lemma ran_batch {A E ks} (Q : A → WriteLogicalTxn T → Prop) keys (rest : list (option PersistentValue.t) → M (WriteLogicalTxn T) A) t1 :
  ran f t E ks t1 → Forall key_typed keys →
  (∀ vs t2, Forall2 (λ key v, E f key = Ok v) keys vs → ran f t E (keys ++ ks) t2 → lt_view t2 = lt_view t1 → wp (rest vs) Q (failed t) t2) →
  wp (let! vs := batch_get_for_update xxh3_128 sha256 keys in rest vs) Q (failed t) t1.
Proof.
  intros Hr Hk Hrest. eapply wp_step; [apply (over_batch xxh3_128 sha256 m types (E f) t1 true keys); [apply Hr|done]| |].
  - intros e t2 Hr2. etrans; [apply Hr|apply Hr2].
  - intros vs t2 (Hvs & Hr2 & Hp). apply Hrest; [done| |apply Hr2]. apply ran_protect; [by eapply ran_reads|by apply Hp].
Qed.
Lemma ran_read_batch {A E ks} (Q : A → WriteLogicalTxn T → Prop) keys (rest : list (option PersistentValue.t) → M (WriteLogicalTxn T) A) t1 :
  ran f t E ks t1 → Forall key_typed keys →
  (∀ vs t2, Forall2 (λ key v, E f key = Ok v) keys vs → ran f t E ks t2 → wp (rest vs) Q (failed t) t2) →
  wp (let! vs := batch_get xxh3_128 sha256 keys in rest vs) Q (failed t) t1.
Proof.
  intros Hr Hk Hrest. eapply wp_step; [apply (over_batch xxh3_128 sha256 m types (E f) t1 false keys); [apply Hr|done]| |].
  - intros e t2 Hr2. etrans; [apply Hr|apply Hr2].
  - intros vs t2 (Hvs & Hr2 & _). apply Hrest; [done|by eapply ran_reads].
Qed.
Lemma ran_get {A E ks} (Q : A → WriteLogicalTxn T → Prop) key (rest : option PersistentValue.t → M (WriteLogicalTxn T) A) t1 :
  ran f t E ks t1 → key_typed key →
  (∀ v t2, E f key = Ok v → ran f t E (key :: ks) t2 → wp (rest v) Q (failed t) t2) →
  wp (let! v := get_for_update xxh3_128 sha256 key in rest v) Q (failed t) t1.
Proof.
  intros Hr Hk Hrest. pose proof (ran_over _ _ _ _ _ Hr) as [Hb Hv].
  eapply wp_step; [apply (typed_get_spec xxh3_128 sha256 types true key t1); [apply Hb|done]| |].
  - intros e t2 Hr2. etrans; [apply Hr|apply Hr2].
  - intros v t2 (Hev & Hr2 & Hp). apply Hrest; [by rewrite <-Hv|]. apply (ran_protect _ _ _ _ [key]); [by eapply ran_reads|]. each. by apply Hp.
Qed.
Lemma ran_write {A E ks} (Q : A → WriteLogicalTxn T → Prop) k v (write : M (WriteLogicalTxn T) unit) (rest : unit → M (WriteLogicalTxn T) A) t1 :
  ran f t E ks t1 → wp write (λ _ t', typed_wrote t1 t' (set_typed (E f) (k, v))) (λ _ t', same_txn t1 t') t1 →
  (∀ t2, ran f t (λ g, set_typed (E g) (k, v)) ks t2 → wp (rest tt) Q (failed t) t2) → wp (let! u := write in rest u) Q (failed t) t1.
Proof.
  intros Hr Hw Hrest. eapply wp_step; [exact Hw| |].
  - intros e t2 Hs. etrans; [apply Hr|done].
  - intros [] t2 Hw2. apply Hrest. by eapply ran_wrote.
Qed.
Lemma set_key_size (k : list Z) (w : option (list Z)) (v : store) : (size (set_key k w v) ≤ S (size v))%nat.
Proof.
  destruct w as [w|]; cbn [set_key].
  - destruct (v !! k) eqn:Ek; [rewrite map_size_insert_Some by (by eexists); lia|]. by rewrite map_size_insert_None.
  - rewrite map_size_delete. case_match; cbn [id]; lia.
Qed.
Lemma put_size F k v t1 :
  over F t1 → writable k (Some v) → wp (Logical.put xxh3_128 sha256 k v) (λ _ t', size (lt_view t') ≤ S (size (lt_view t1)))%nat (λ _ _, True) t1.
Proof.
  intros [Hb _] [Hk Hx]. unfold wp. rewrite put_mutate.
  eapply (wp_mono (mutate xxh3_128 sha256 [(k, Some v)])); [apply (mutate_spec xxh3_128 sha256 types); [apply Hb..|]| |done].
  - each. split; [done|]. by rewrite (bd_manifest _ _ _ Hb).
  - intros [] t' (es & Hes & [_ -> _]). apply Forall2_cons_inv_l in Hes as ([k' w] & es' & _ & Hes & ->). apply Forall2_nil_inv_l in Hes as ->.
    apply set_key_size.
Qed.
Lemma ran_put_sized {A E ks} (Q : A → WriteLogicalTxn T → Prop) k v (rest : unit → M (WriteLogicalTxn T) A) t1 :
  ran f t E ks t1 → writable k (Some v) →
  (∀ t2, ran f t (λ g, set_typed (E g) (k, Some v)) ks t2 → (size (lt_view t2) ≤ S (size (lt_view t1)))%nat → wp (rest tt) Q (failed t) t2) →
  wp (let! u := Logical.put xxh3_128 sha256 k v in rest u) Q (failed t) t1.
Proof.
  intros Hr Hw Hrest. eapply wp_step; [apply wp_and; [apply (over_put xxh3_128 sha256 m types (E f)); [apply Hr|done]|apply (put_size (E f)); [apply Hr|done]]| |].
  - intros e t2 [Hs _]. etrans; [apply Hr|done].
  - intros [] t2 [Hw2 Hsz]. apply Hrest; [by eapply ran_wrote|done].
Qed.
Lemma ran_put {A E ks} (Q : A → WriteLogicalTxn T → Prop) k v (rest : unit → M (WriteLogicalTxn T) A) t1 :
  ran f t E ks t1 → writable k (Some v) →
  (∀ t2, ran f t (λ g, set_typed (E g) (k, Some v)) ks t2 → wp (rest tt) Q (failed t) t2) →
  wp (let! u := Logical.put xxh3_128 sha256 k v in rest u) Q (failed t) t1.
Proof. intros Hr Hw Hrest. eapply ran_put_sized; [done..|]. auto. Qed.
Lemma ran_delete {A E ks} (Q : A → WriteLogicalTxn T → Prop) k (rest : unit → M (WriteLogicalTxn T) A) t1 :
  ran f t E ks t1 → key_typed k →
  (∀ t2, ran f t (λ g, set_typed (E g) (k, None)) ks t2 → wp (rest tt) Q (failed t) t2) →
  wp (let! u := delete_key k in rest u) Q (failed t) t1.
Proof. intros Hr Hw. apply ran_write; [done|]. apply (over_delete xxh3_128 sha256 m types); [apply Hr|done]. Qed.
Lemma ran_insert {A E ks} (Q : A → WriteLogicalTxn T → Prop) k v (rest : unit → M (WriteLogicalTxn T) A) t1 :
  ran f t E ks t1 → writable k (Some v) →
  (∀ t2, E f k = Ok None → ran f t (λ g, set_typed (E g) (k, Some v)) (k :: ks) t2 → wp (rest tt) Q (failed t) t2) →
  wp (let! u := insert_new xxh3_128 sha256 k v in rest u) Q (failed t) t1.
Proof.
  intros Hr [Hk Hx] Hrest. pose proof (ran_over _ _ _ _ _ Hr) as [Hb Hv]. pose proof (ran_same _ _ _ _ _ Hr) as Hs.
  apply wp_bind. unfold insert_new. eapply wp_step; [apply (typed_insert_spec xxh3_128 sha256 types); [apply Hb|]| |].
  - split; [done|]. by rewrite (bd_manifest _ _ _ Hb).
  - intros e t2 Hs2. exact (transitivity Hs Hs2).
  - intros [] t2 [Hp Ho]; apply wp_lift; try done.
    + intros [] _. destruct Ho as [En Hw]. apply Hrest; [by rewrite <-Hv|]. apply (ran_protect _ _ _ _ [k]); [|by each].
      eapply ran_wrote; [exact Hr|]. eapply wrote_ext; [exact Hw|]. by rewrite Hv.
    + intros e _. destruct Ho as [_ [_ _ ? _]]. by etrans.
Qed.
End running.

(** ** Removing a partition *)
Section removal.
Context (xxh3_128 : Z → list Z → Z) (sha256 : list Z → list Z) {T : Type} `{WriteLaws T}.
Context (m : IndexManifest) (types : list DataType.t) (tree_key : list Z).
Abbreviation ix := (im_logical_index_id m).
Abbreviation over := (MutateSpec.over xxh3_128 sha256 m types).
Abbreviation typed_wrote := (LogicalSpec.typed_wrote xxh3_128 sha256).
Implicit Types (f g : typed_map) (t : WriteLogicalTxn T).
(** A readable key shows that the Tree Key is valid. *)
Lemma over_tree_key f t p x : over f t → bytes_ok tree_key → id_ok p → f (LogicalKey.Header ix tree_key p) = Ok x → tree_key_ok types tree_key.
Proof.
  intros [Hb Hv] Htk Hp E. destruct (bound_index _ _ _ Hb) as [_ Hix]. rewrite <-Hv in E by done. unfold typed_view, typed_at in E.
  apply bind_ok in E as (k & Hk & _). eapply encode_input_key_ok in Hk as (Hok & _); [|apply Hb|done]. by destruct Hok as (_ & ? & _).
Qed.
Lemma over_clear f t p range :
  over f t → tree_key_ok types tree_key → id_ok p → range_partition m tree_key p = Ok range →
  wp (clear_range range) (λ _ t', typed_wrote t t' (clear_partition ix tree_key (wl_binding t) p f)) (λ _ t', same_txn t t') t.
Proof.
  intros [Hb Hv] Htk Hp Er%bind_partition_ok. destruct (bound_index _ _ _ Hb) as [_ Hix].
  eapply wp_mono; [apply clear_range_spec, Hb| |done]. intros [] t' [Hc Ev Hs]. split; [done..|]. intros key Hk.
  unfold typed_view, clear_partition. rewrite Ev, (sm_binding _ _ Hs), Er. unfold typed_at.
  destruct (encode_input_key (wl_binding t) key) as [k| |] eqn:Ek.
  2,3: case_decide; [done|]; rewrite <-Hv by done; unfold typed_view, typed_at; by rewrite Ek.
  pose proof Ek as Ek'. eapply encode_input_key_ok in Ek' as (Hok & He & _); [|apply Hb|done].
  pose proof (partition_range_exact types key k ix tree_key p Hok He Hix Htk Hp) as Hex. cbn [mbind result_bind]. case_decide as E.
  - assert (filter (λ kv, ¬ in_key_range (partition_range ix tree_key p) kv.1) (lt_view t) !! k = None) as ->; [|done].
    apply map_lookup_filter_None. right. intros x _ Hn. apply Hn. by apply Hex.
  - rewrite <-Hv by done. unfold typed_view, typed_at. rewrite Ek. cbn [mbind result_bind]. f_equal. destruct (lt_view t !! k) as [x|] eqn:Ex.
    + apply map_lookup_filter_Some. split; [done|]. cbn [fst]. by rewrite Hex.
    + apply map_lookup_filter_None. by left.
Qed.
End removal.

(** ** Authority and edges *)
Section shared.
Context (xxh3_128 : Z → list Z → Z) (sha256 : list Z → list Z) {T : Type} `{WriteLaws T}.
Context (m : IndexManifest) (Hm : manifest_ok m) (types : list DataType.t) (tree_key : list Z) (Htk : bytes_ok tree_key).
Abbreviation ix := (im_logical_index_id m).
Abbreviation ran := (TransitionsSpec.ran xxh3_128 sha256 m types).
Abbreviation writable := (RelocationSpec.writable xxh3_128 sha256 m).
Abbreviation header_at := (LogicalKey.Header ix tree_key).
Abbreviation state_at := (LogicalKey.State ix tree_key).
Abbreviation edge_at := (LogicalKey.ChildEntry ix tree_key).
Abbreviation centroid_at := (LogicalKey.Centroid ix tree_key).
Abbreviation synopsis_at := (LogicalKey.Synopsis ix tree_key).
Abbreviation failed t := (λ (_ : ErrorKind) t', same_txn t t').
Implicit Types (p q : Z) (E : typed_map → typed_map) (ks : list LogicalKey.t).
#[local] Instance spec_reader : LogicalReader (WriteLogicalTxn T) := write_txn_reader xxh3_128 sha256 T.
Lemma tree_index_ok : id_ok ix.
Proof. by destruct Hm. Qed.
Lemma partition_keys_typed p : id_ok p → key_typed (header_at p) ∧ key_typed (state_at p) ∧ key_typed (centroid_at p) ∧ key_typed (synopsis_at p).
Proof. pose proof tree_index_ok. done. Qed.
Lemma edge_key_typed p c : id_ok p → id_ok c → key_typed (edge_at p c).
Proof. pose proof tree_index_ok. done. Qed.
Lemma put_header_ok p h : id_ok p → header_typed h → writable (header_at p) (Some (PersistentValue.PartitionHeader h)).
Proof. intros Hp Hh. split; [by apply partition_keys_typed|]. intros x [= <-]. by apply header_writable. Qed.
Lemma put_state_ok p s : id_ok p → transition_typed s → writable (state_at p) (Some (PersistentValue.PartitionState s)).
Proof. intros Hp Hs. split; [by apply partition_keys_typed|]. intros x [= <-]. by exists m, Hm. Qed.
(** A vector a centroid can be stored as. *)
Definition centroid_ok (c : list Z) : Prop := vector_typed c ∧ vector_canonical c.
Lemma put_centroid_ok p c : id_ok p → centroid_ok c → writable (centroid_at p) (Some (PersistentValue.PartitionCentroid c)).
Proof. intros Hp Hs. split; [by apply partition_keys_typed|]. intros x [= <-]. by exists m, Hm. Qed.
Lemma put_edge_ok q p c : id_ok q → id_ok p → centroid_ok c → writable (edge_at q p) (Some (PersistentValue.ChildEntry (mkChildEntry p c))).
Proof. intros Hq Hp [? ?]. split; [by apply edge_key_typed|]. intros x [= <-]. exists m, Hm. done. Qed.
Lemma put_synopsis_ok p : id_ok p → writable (synopsis_at p) (Some (PersistentValue.PartitionSynopsis (PartitionSynopsis_empty m))).
Proof. intros Hp. split; [by apply partition_keys_typed|]. intros x [= <-]. exists m, Hm. split; [done|]. by apply empty_synopsis_admitted. Qed.

Context (f : typed_map) (t : WriteLogicalTxn T).
Definition pair_in g p (o : option (PartitionHeader * PartitionTransition.t)) : Prop :=
  g (header_at p) = Ok ((λ x, PersistentValue.PartitionHeader x.1) <$> o) ∧ g (state_at p) = Ok ((λ x, PersistentValue.PartitionState x.2) <$> o).
Lemma decode_pair_ok vs found rest o :
  decode_authority_pair vs = Ok (found, rest) → classify_authority found = Ok o →
  vs = ((λ x, PersistentValue.PartitionHeader x.1) <$> o) :: ((λ x, PersistentValue.PartitionState x.2) <$> o) :: rest ∧
  ∀ h s, o = Some (h, s) → ph_state h = PartitionTransition_state s.
Proof.
  destruct vs as [|x [|y vs]]; cbn [decode_authority_pair]; [done..|]. intros (h & ->%expect_header_ok & H1')%bind_ok.
  apply bind_ok in H1' as (s & ->%expect_state_ok & H1'). apply Ok_inj in H1' as [= <- <-]. unfold classify_authority, expect_agreement.
  destruct h as [h|], s as [s|]; try done; [|by intros [= <-]]. case_decide as Es; [|done]. intros [= <-]. split; [done|]. by intros ? ? [= <- <-].
Qed.
Lemma ran_authority {A E ks} (Q : A → WriteLogicalTxn T → Prop) p (rest : option (PartitionHeader * PartitionTransition.t) → M (WriteLogicalTxn T) A) t1 :
  ran f t E ks t1 → id_ok p →
  (∀ o t2, ran f t E (header_at p :: state_at p :: ks) t2 → lt_view t2 = lt_view t1 → pair_in (E f) p o →
     (∀ h s, o = Some (h, s) → ph_state h = PartitionTransition_state s ∧ header_typed h ∧ transition_typed s) → wp (rest o) Q (failed t) t2) →
  wp (let! o := authority_pair xxh3_128 sha256 (header_at p) (state_at p) in rest o) Q (failed t) t1.
Proof.
  intros Hr Hp Hrest. pose proof (partition_keys_typed p Hp) as (Hk1 & Hk2 & _). unfold authority_pair, authority_for_update.
  apply wp_flat, wp_flat. eapply (ran_batch xxh3_128 sha256 m types); [exact Hr|by each|]. intros vs t2 Hvs Hr2 Ev.
  apply wp_flat. eapply (ran_lift xxh3_128 sha256 m types); [exact Hr2| |].
  { destruct vs as [|x [|y vs]]; try done. cbn [decode_authority_pair]. by destruct x as [[]|], y as [[]|]. }
  intros [found rest'] Hd. apply wp_bind, wp_ret, wp_bind, wp_lift.
  { destruct found as [[h|] [s|]]; try done. cbn [classify_authority fst]. unfold expect_agreement. by case_decide. }
  2: { intros e _. apply Hr2. }
  cbn [fst]. intros o Ho. destruct (decode_pair_ok _ _ _ _ Hd Ho) as [-> Hag].
  apply Forall2_cons_1 in Hvs as [Hv1 Hvs]. apply Forall2_cons_1 in Hvs as [Hv2 _]. apply Hrest; [done|done|done|].
  intros h s ->. pose proof (ran_over _ _ _ _ _ _ _ _ _ Hr2) as Ho2. cbn in Hv1, Hv2. split; [by apply Hag|].
  apply (over_value _ _ _ _ _ _ _ _ Ho2) in Hv1 as [(? & ? & _ & [? _]) _]; [|done].
  by apply (over_value _ _ _ _ _ _ _ _ Ho2) in Hv2 as [(? & ? & _ & [? _]) _].
Qed.
(** Discovery only reads, and finds a partition. *)
Lemma ran_find {A E ks} (Q : A → WriteLogicalTxn T → Prop) fuel p level (rest : option (Z * ChildEntry) → M (WriteLogicalTxn T) A) t1 :
  ran f t E ks t1 → id_ok p → fueled (lt_view t1) fuel →
  (∀ found t2, (∀ q e, found = Some (q, e) → id_ok q) → ran f t E ks t2 → wp (rest found) Q (failed t) t2) →
  wp (let! found := find_incoming_edge fuel m tree_key p level in rest found) Q (failed t) t1.
Proof.
  intros Hr Hp Hfuel Hrest. pose proof (ran_over _ _ _ _ _ _ _ _ _ Hr) as [Hb _]. pose proof (bd_manifest _ _ _ Hb) as Em. destruct Hb as [[Hco Hbd] _].
  eapply wp_step; [apply (find_incoming_edge_spec xxh3_128 sha256 (H0 := write_txn_laws xxh3_128 sha256 T) (wl_binding t1) types Hbd (lt_view t1) m Em tree_key Htk (coherent_store t1 Hco) fuel Hfuel)| |].
  - done.
  - done.
  - intros e t2 Hk. exact (transitivity (ran_same _ _ _ _ _ _ _ _ _ Hr) (rd_same _ _ Hk)).
  - intros found t2 (Hk & Hone & _). apply Hrest; [|by eapply ran_reads]. intros q e ->. destruct Hone as (Hq & _).
    by eapply (at_level_id xxh3_128 sha256 (H0 := write_txn_laws xxh3_128 sha256 T) (wl_binding t1) types Hbd (lt_view t1) m tree_key (coherent_store t1 Hco)).
Qed.
(** A partition of the level, as discovery saw it. *)
Definition seen_at g level (c : LevelCandidate) : Prop :=
  id_ok (cd_parent c) ∧ id_ok (candidate_partition c) ∧
  g (edge_at (cd_parent c) (candidate_partition c)) = Ok (Some (PersistentValue.ChildEntry (cd_entry c))) ∧
  g (header_at (candidate_partition c)) = Ok (Some (PersistentValue.PartitionHeader (cd_header c))) ∧ ph_level (cd_header c) = level.
(** Nothing the walk reaches at [level] is left out. *)
Definition every_candidate g level (cs : list LevelCandidate) : Prop :=
  ∀ q c e, at_level m tree_key g (level + 1) q → id_ok c → edge_in m tree_key g q c e →
  ∃ h, mkCandidate q e h ∈ cs ∧ ce_child e = c ∧ header_in m tree_key g c h.
Lemma ran_candidates {A E ks} (Q : A → WriteLogicalTxn T → Prop) fuel level (rest : list LevelCandidate → M (WriteLogicalTxn T) A) t1 :
  ran f t E ks t1 → fueled (lt_view t1) fuel →
  (∀ cs t2, Forall (seen_at (E f) level) cs → every_candidate (typed_view xxh3_128 sha256 t1) level cs → ran f t E ks t2 → wp (rest cs) Q (failed t) t2) →
  wp (let! cs := same_level_candidates fuel m tree_key level in rest cs) Q (failed t) t1.
Proof.
  intros Hr Hfuel Hrest. pose proof (ran_over _ _ _ _ _ _ _ _ _ Hr) as [Hb Hv]. pose proof (bd_manifest _ _ _ Hb) as Em. destruct Hb as [[Hco Hbd] _].
  eapply wp_step; [apply (same_level_candidates_spec xxh3_128 sha256 (H0 := write_txn_laws xxh3_128 sha256 T) (wl_binding t1) types Hbd (lt_view t1) m Em tree_key Htk (coherent_store t1 Hco) fuel Hfuel)| |].
  - done.
  - intros e t2 Hk. exact (transitivity (ran_same _ _ _ _ _ _ _ _ _ Hr) (rd_same _ _ Hk)).
  - intros cs t2 (Hk & Hcs & Hall). apply Hrest; [|exact Hall|by eapply ran_reads]. eapply Forall_impl; [|exact Hcs]. intros c (Hq & Hc & He & Hh & Hl).
    assert (id_ok (cd_parent c)) as Hqid.
    { by eapply (at_level_id xxh3_128 sha256 (H0 := write_txn_laws xxh3_128 sha256 T) (wl_binding t1) types Hbd (lt_view t1) m tree_key (coherent_store t1 Hco)). }
    split_and!; [done|done|by rewrite <-Hv by (by apply edge_key_typed)|by rewrite <-Hv by (by apply partition_keys_typed)|done].
Qed.
Definition hint_ok (parent : option Z) : Prop := ∀ q, parent = Some q → id_ok q.
Lemma ran_lock {A E ks} (Q : A → WriteLogicalTxn T → Prop) fuel p level parent (rest : Z → M (WriteLogicalTxn T) A) t1 :
  ran f t E ks t1 → id_ok p → hint_ok parent → fueled (lt_view t1) fuel →
  (∀ q e t2, id_ok q → E f (edge_at q p) = Ok (Some (PersistentValue.ChildEntry e)) → ran f t E (edge_at q p :: ks) t2 →
     wp (rest q) Q (failed t) t2) →
  wp (let! q := lock_incoming_edge xxh3_128 sha256 fuel tree_key p level parent in rest q) Q (failed t) t1.
Proof.
  intros Hr Hp Hhint Hfuel Hrest. unfold lock_incoming_edge. apply wp_flat. eapply wp_bind, wp_get.
  unfold require_bound_manifest. rewrite (bd_manifest _ _ _ (ov_bound _ _ _ _ _ _ (ran_over _ _ _ _ _ _ _ _ _ Hr))).
  apply wp_flat, wp_bind, wp_lift; [done| |done]. intros _ [= <-].
  assert (∀ q t2, id_ok q → ran f t E ks t2 →
    wp (let! q := (let! value := get_for_update xxh3_128 sha256 (edge_at q p) in let! _ := m_lift (expect_child_entry value ≫= ok_or Corruption) in m_ret q) in rest q)
      Q (failed t) t2) as Hget.
  { intros q t2 Hq Hr2. apply wp_flat. eapply (ran_get xxh3_128 sha256 m types); [exact Hr2|by apply edge_key_typed|]. intros v t3 Hv Hr3.
    apply wp_flat. eapply (ran_lift xxh3_128 sha256 m types); [exact Hr3|by destruct v as [[]|]|]. intros e He.
    apply wp_bind, wp_ret. destruct v as [[]|]; try done. by eapply Hrest. }
  destruct parent as [q|].
  - apply wp_flat, wp_bind, wp_ret. apply (Hget q t1); [by apply Hhint|done].
  - apply wp_flat, wp_flat. eapply ran_find; [exact Hr|done..|]. intros found t2 Hid Hr2. apply wp_flat. eapply (ran_lift xxh3_128 sha256 m types); [exact Hr2|by destruct found|].
    intros [q e] Hf. apply wp_bind, wp_ret. destruct found as [[q' e']|]; [|done]. apply Ok_inj in Hf as [= <- <-].
    apply (Hget q' t2); [by eapply Hid|done].
Qed.
(** The parent's Header at the level above, under protection. *)
Lemma ran_parent {A E ks} (Q : A → WriteLogicalTxn T → Prop) q level (rest : PartitionHeader → M (WriteLogicalTxn T) A) t1 :
  ran f t E ks t1 → id_ok q →
  (∀ hq t2, E f (header_at q) = Ok (Some (PersistentValue.PartitionHeader hq)) → header_typed hq → ph_level hq = level + 1 → ran f t E (header_at q :: ks) t2 →
     wp (rest hq) Q (failed t) t2) →
  wp (let! value := get_for_update xxh3_128 sha256 (header_at q) in
      let! hq := m_lift (expect_header value ≫= ok_or Corruption) in
      let! expected := m_lift (ok_or Corruption (checked_add_u32 level 1)) in
      if negb (ph_level hq =? expected) then m_lift (Err Corruption) else rest hq) Q (failed t) t1.
Proof.
  intros Hr Hq Hrest. eapply (ran_get xxh3_128 sha256 m types); [exact Hr|by apply partition_keys_typed|]. intros v t2 Hv Hr2.
  eapply (ran_lift xxh3_128 sha256 m types); [exact Hr2|by destruct v as [[]|]|]. intros hq Hhq.
  apply bind_ok in Hhq as (o & ->%expect_header_ok & ->%ok_or_ok).
  eapply (ran_lift xxh3_128 sha256 m types); [exact Hr2|by unfold checked_add_u32; case_match|]. intros n ->%checked_add_u32_ok.
  destruct (Z.eqb_spec (ph_level hq) (level + 1)); cbn [negb]; [|by eapply ran_fail]. apply Hrest; [done| |done|done].
  by apply (over_value _ _ _ _ _ _ _ _ (ran_over _ _ _ _ _ _ _ _ _ Hr2)) in Hv as [(? & ? & _ & [? _]) _]; [|apply partition_keys_typed].
Qed.
Definition drop_edge q p hq' (g : typed_map) : typed_map :=
  set_typed (set_typed g (edge_at q p, None)) (header_at q, Some (PersistentValue.PartitionHeader hq')).
Lemma ran_remove_edge {E ks} (R : Z → WriteLogicalTxn T → Prop) fuel p level parent t1 :
  ran f t E ks t1 → id_ok p → hint_ok parent → fueled (lt_view t1) fuel →
  (∀ q e hq hq' t2, id_ok q → E f (edge_at q p) = Ok (Some (PersistentValue.ChildEntry e)) →
     E f (header_at q) = Ok (Some (PersistentValue.PartitionHeader hq)) → ph_level hq = level + 1 → removed_entry hq = Ok hq' →
     ran f t (λ g, drop_edge q p hq' (E g)) (header_at q :: edge_at q p :: ks) t2 → R q t2) →
  wp (remove_incoming_edge xxh3_128 sha256 fuel tree_key p level parent) R (failed t) t1.
Proof.
  intros Hr Hp Hhint Hfuel Hrest. unfold remove_incoming_edge.
  eapply (ran_manifest xxh3_128 sha256 m types); [exact Hr|].
  eapply (ran_lock R); [exact Hr|done..|]. intros q e t2 Hq He Hr2.
  eapply (ran_parent R q level); [exact Hr2|done|]. intros hq t3 Hhq Hty Hlev Hr3.
  eapply (ran_delete xxh3_128 sha256 m types); [exact Hr3|by apply edge_key_typed|]. intros t4 Hr4.
  eapply (ran_lift xxh3_128 sha256 m types); [exact Hr4|apply removed_entry_no_panic|]. intros hq' Hrem.
  eapply (ran_put xxh3_128 sha256 m types); [exact Hr4|apply put_header_ok; [done|by eapply removed_entry_ok]|]. intros t5 Hr5.
  apply wp_ret. by eapply Hrest.
Qed.
(** Both ways to remove an empty partition. *)
Definition remove_partition (b : LogicalBinding) (removal : SourceRemoval.t) p (g : typed_map) : typed_map :=
  match removal with
  | SourceRemoval.TransactionalClear => clear_partition ix tree_key b p g
  | SourceRemoval.PointDeletes => foldl set_typed g [(synopsis_at p, None); (centroid_at p, None); (state_at p, None); (header_at p, None)]
  end.
Lemma ran_removal {E ks} (R : unit → WriteLogicalTxn T → Prop) removal p t1 :
  ran f t E ks t1 → id_ok p → tree_key_ok types tree_key →
  (∀ t2, ran f t (λ g, remove_partition (wl_binding t) removal p (E g)) ks t2 → R tt t2) →
  wp (remove_source_prefix m tree_key p (header_at p) (state_at p) removal) R (failed t) t1.
Proof.
  intros Hr Hp Hty Hrest. pose proof (partition_keys_typed p Hp) as (Hk1 & Hk2 & Hk3 & Hk4). unfold remove_source_prefix. destruct removal.
  - eapply (ran_lift xxh3_128 sha256 m types); [exact Hr|by apply bind_partition_no_panic|]. intros range Hrange.
    eapply wp_mono; [apply (over_clear xxh3_128 sha256 m types tree_key (E f)); [apply Hr|done..]| |].
    + intros [] t2 Hw. apply Hrest. rewrite (sm_binding _ _ (ran_same _ _ _ _ _ _ _ _ _ Hr)) in Hw. by eapply ran_wrote.
    + intros e t2 Hs. etrans; [apply Hr|done].
  - cbn [delete_keys]. do 4 (eapply (ran_delete xxh3_128 sha256 m types); [eassumption|done|]; intros ? ?). by apply wp_ret, Hrest.
Qed.
(** Two keys above the high-water mark. *)
Lemma ran_reserve {E ks} (R : PartitionKeyReservation → WriteLogicalTxn T → Prop) count t1 :
  ran f t E ks t1 → 0 ≤ count →
  (∀ r hw t2, E f (LogicalKey.TreeManifest ix tree_key) = Ok (Some (PersistentValue.TreeManifest (mkTreeManifest 1 hw))) → 0 < hw →
     pr_next r = hw + 1 → pr_last r = Z.min (2 ^ 64 - 1) (hw + count) →
     ran f t (λ g, set_typed (E g) (LogicalKey.TreeManifest ix tree_key, Some (PersistentValue.TreeManifest (mkTreeManifest 1 (pr_last r)))))
       (LogicalKey.TreeManifest ix tree_key :: ks) t2 → R r t2) →
  wp (reserve_partition_keys xxh3_128 sha256 tree_key count) R (failed t) t1.
Proof.
  intros Hr Hc Hrest. pose proof (ran_over _ _ _ _ _ _ _ _ _ Hr) as Ho. pose proof Ho as [Hb Hv]. pose proof tree_index_ok.
  eapply wp_mono; [by apply (reserve_spec xxh3_128 sha256 m types)| |].
  - intros r t2 (hw & Hat & _ & _ & Hn & Hl & Hw & Hp). unfold tree_manifest_at, tree_manifest_key_for in Hat. rewrite Hv in Hat by done.
    apply (Hrest r hw); [done| |done|done|].
    + apply (over_value _ _ _ _ _ _ _ _ Ho) in Hat as [(? & ? & _ & [[_ [? _]] _]) _]; done.
    + apply (ran_protect _ _ _ _ _ _ _ _ [LogicalKey.TreeManifest ix tree_key]); [|by each].
      eapply (ran_wrote xxh3_128 sha256 m types f t E ks t1); [exact Hr|]. eapply wrote_ext; [exact Hw|]. by rewrite Hv.
  - intros e t2 Hs. etrans; [apply Hr|done].
Qed.
End shared.

(** ** What a topology transaction does *)
Lemma agree_at ks f g k : agree ks f g → k ∈ ks → g k = f k.
Proof. intros Ha Hk. eapply Forall_forall in Ha; [exact Ha|by apply list_elem_of_In]. Qed.
Lemma set_all_cases (g : typed_map) ws key :
  foldl set_typed g ws key = g key ∧ key ∉ ws.*1 ∨ ∃ v, (key, v) ∈ ws ∧ foldl set_typed g ws key = Ok v.
Proof.
  revert g. induction ws as [|[k v] ws IH]; intros g; cbn [foldl].
  { left. split; [done|]. by intros ?%elem_of_nil. }
  destruct (IH (set_typed g (k, v))) as [[-> Hn]|(v' & Hv' & ->)]; [|right; exists v'; split; [by right|done]].
  unfold set_typed. cbn [fst snd]. case_decide as E; [subst k; right; exists v; split; [by left|done]|]. left. split; [done|].
  rewrite fmap_cons. cbn [fst]. by apply not_elem_of_cons.
Qed.
Section effects.
Context (m : IndexManifest) (tree_key : list Z).
Abbreviation ix := (im_logical_index_id m).
Abbreviation tree_of := (TransitionsSpec.tree_of ix tree_key).
Abbreviation header_at := (LogicalKey.Header ix tree_key).
Abbreviation state_at := (LogicalKey.State ix tree_key).
Abbreviation edge_at := (LogicalKey.ChildEntry ix tree_key).
Abbreviation centroid_at := (LogicalKey.Centroid ix tree_key).
Abbreviation synopsis_at := (LogicalKey.Synopsis ix tree_key).
Implicit Types (g : typed_map) (p q : Z).
Lemma tree_header_at g p v : id_ok p → g (header_at p) = Ok v → tr_header (tree_of g) p = header_value (Ok v).
Proof. intros Hp E. cbn. unfold at_id. by rewrite decide_True, E. Qed.
Lemma tree_state_at g p v : id_ok p → g (state_at p) = Ok v → tr_state (tree_of g) p = state_value (Ok v).
Proof. intros Hp E. cbn. unfold at_id. by rewrite decide_True, E. Qed.
Lemma tree_edge_at g p q v : id_ok p → id_ok q → g (edge_at p q) = Ok v → tr_edge (tree_of g) (p, q) = edge_value (Ok v).
Proof. intros Hp Hq E. cbn. unfold at_id. by rewrite !decide_True, E. Qed.
Lemma tree_centroid_at g p v : id_ok p → g (centroid_at p) = Ok v → tr_centroid (tree_of g) p = centroid_value (Ok v).
Proof. intros Hp E. cbn. unfold at_id. by rewrite decide_True, E. Qed.
(** What it may change besides the tree: entries of an empty partition, and the
    Synopsis of a new one. *)
Record frame g g' : Prop := {
  fr_other key : key ≠ LogicalKey.TreeManifest ix tree_key → (∀ p, key_partition key ≠ Some (ix, tree_key, p)) → g' key = g key;
  fr_entry p id : g' (LogicalKey.LeafEntry ix tree_key p id) = g (LogicalKey.LeafEntry ix tree_key p id) ∨
    (∀ v, g' (LogicalKey.LeafEntry ix tree_key p id) ≠ Ok (Some v)) ∧
    ∃ h, g (header_at p) = Ok (Some (PersistentValue.PartitionHeader h)) ∧ ph_entry_count h = 0;
  fr_synopsis p : g' (synopsis_at p) = g (synopsis_at p) ∨ (∀ v, g' (synopsis_at p) ≠ Ok (Some v)) ∨
    g' (synopsis_at p) = Ok (Some (PersistentValue.PartitionSynopsis (PartitionSynopsis_empty m))) ∧ g (header_at p) = Ok None;
}.
Definition frames_write g (w : LogicalKey.t * option PersistentValue.t) : Prop :=
  match w.1 with
  | LogicalKey.TreeManifest i tk | LogicalKey.Header i tk _ | LogicalKey.State i tk _ | LogicalKey.Centroid i tk _
  | LogicalKey.ChildEntry i tk _ _ => i = ix ∧ tk = tree_key
  | LogicalKey.Synopsis i tk p => i = ix ∧ tk = tree_key ∧
      (w.2 = None ∨ w.2 = Some (PersistentValue.PartitionSynopsis (PartitionSynopsis_empty m)) ∧ g (header_at p) = Ok None)
  | _ => False
  end.
Lemma frame_writes g ws : Forall (frames_write g) ws → frame g (foldl set_typed g ws).
Proof.
  intros Hws. assert (∀ key v, (key, v) ∈ ws → frames_write g (key, v)) as Hw.
  { intros key v Hin. eapply Forall_forall in Hws; [exact Hws|by apply list_elem_of_In]. }
  split.
  - intros key Hk1 Hk2. destruct (set_all_cases g ws key) as [[? _]|(v & Hv & _)]; [done|]. apply Hw in Hv. unfold frames_write in Hv. cbn [fst] in Hv.
    destruct key; destruct_and?; try done; subst; exfalso; [by apply Hk1|by eapply Hk2..].
  - intros p id. left. destruct (set_all_cases g ws (LogicalKey.LeafEntry ix tree_key p id)) as [[? _]|(v & Hv & _)]; [done|]. by apply Hw in Hv.
  - intros p. destruct (set_all_cases g ws (synopsis_at p)) as [[? _]|(v & Hv & ->)]; [by left|right].
    apply Hw in Hv as (_ & _ & [Ev|[Ev Hp]]); cbn [snd] in Ev; subst v; [by left|by right].
Qed.
Abbreviation remove_partition := (TransitionsSpec.remove_partition m tree_key).
Definition clears (removal : SourceRemoval.t) : bool := match removal with SourceRemoval.TransactionalClear => true | SourceRemoval.PointDeletes => false end.
Lemma tree_remove b removal g p : id_ok p → tree_of (remove_partition b removal p g) ≡ without (clears removal) p (tree_of g).
Proof.
  intros Hp. destruct removal; cbn [TransitionsSpec.remove_partition clears]; [by apply tree_clear|]. cbn [foldl].
  rewrite (tree_set_header ix tree_key), (tree_set_state ix tree_key), (tree_set_centroid ix tree_key), (tree_set_synopsis ix tree_key) by done. by split_and!.
Qed.
Lemma tree_drop_edge g p q hq' : id_ok q → id_ok p →
  tree_of (drop_edge m tree_key q p hq' g) ≡ set_tree_header q (Some hq') (set_tree_edge q p None (tree_of g)).
Proof. intros Hq Hp. unfold drop_edge. by rewrite (tree_set_header ix tree_key), (tree_set_edge ix tree_key). Qed.
Lemma frame_remove b removal g ws p h :
  Forall (frames_write g) ws → g (header_at p) = Ok (Some (PersistentValue.PartitionHeader h)) → ph_entry_count h = 0 →
  frame g (remove_partition b removal p (foldl set_typed g ws)).
Proof.
  intros Hws Hp H0. destruct removal; cbn [TransitionsSpec.remove_partition].
  2: { rewrite <-foldl_app. apply frame_writes, Forall_app. split; [done|]. each; split_and!; auto. }
  apply frame_writes in Hws as [Fo Fe Fs]. assert (∀ key, (∀ v : PersistentValue.t, (encode_input_key b key ≫= λ _, Ok None) ≠ Ok (Some v))) as Hno.
  { intros key v. by destruct (encode_input_key b key). }
  split; unfold clear_partition.
  - intros key Hk1 Hk2. rewrite decide_False by done. by apply Fo.
  - intros p' id. case_decide as E; [|apply Fe]. injection E as ->. right. split; [apply Hno|]. by exists h.
  - intros p'. case_decide as E; [|apply Fs]. right. left. apply Hno.
Qed.
End effects.
