(* ===== verification/TransitionsRefine.v ===== *)
(** The split and merge transactions of
    src/src/storage/topology/transitions.rs against the protocol: each outcome
    is one transition of the tree or changes nothing. *)
From stdpp Require Import gmap sorting functions.
From S2P Require Import Prelude RustStd Api TreeKey Keys KeyRanges RaBitQ Manifest Wire ValueData Records Synopsis Values Config Backend Memory Txn Codec Logical TreeOps Membership LogicalSpec MembershipSpec MembershipInv Mutate MutateSpec Relocation RelocationSpec Reader Discovery DiscoverySpec Transitions Protocol TransitionsSpec.

Lemma wp_tail {T A} (p : M T A) Q E t : wp (let! a := p in m_ret a) Q E t → wp p Q E t.
Proof. unfold wp, m_bind, m_ret. by destruct (p t) as [t' [a|e|]]. Qed.
(** What an agreed key holds. *)
Ltac known := repeat first [apply list_elem_of_here|apply list_elem_of_further].
Ltac agreed Ha H := rewrite <-(agree_at _ _ _ _ Ha) in H by (cbn [app]; known).
Section refinement.
Context (xxh3_128 : Z → list Z → Z) (sha256 : list Z → list Z) {T : Type} `{WriteLaws T}.
Context (m : IndexManifest) (Hm : manifest_ok m) (types : list DataType.t) (tree_key : list Z) (Htk : bytes_ok tree_key).
Abbreviation ix := (im_logical_index_id m).
Abbreviation over := (MutateSpec.over xxh3_128 sha256 m types).
Abbreviation ran := (TransitionsSpec.ran xxh3_128 sha256 m types).
Abbreviation tree_of := (TransitionsSpec.tree_of ix tree_key).
Abbreviation frame := (TransitionsSpec.frame m tree_key).
Abbreviation header_at := (LogicalKey.Header ix tree_key).
Abbreviation state_at := (LogicalKey.State ix tree_key).
Abbreviation edge_at := (LogicalKey.ChildEntry ix tree_key).
Abbreviation centroid_at := (LogicalKey.Centroid ix tree_key).
Abbreviation synopsis_at := (LogicalKey.Synopsis ix tree_key).
Abbreviation pair_in := (TransitionsSpec.pair_in m tree_key).
Abbreviation failed t := (λ (_ : ErrorKind) t', same_txn t t').
Context (f : typed_map) (t : WriteLogicalTxn T) (Ho : over f t).
Implicit Types (p q : Z) (g : typed_map).

Definition unchanged t' : Prop := ∃ ks, ran f t (λ g, g) ks t'.
(** The transaction has staged one fixed list of writes: on its snapshot they
    give its view, and on every tree that agrees with the snapshot on the keys it
    has protected, and on [plain], the same writes perform [a]. *)
Definition acts (a : action) (plain : list LogicalKey.t) t' : Prop :=
  ∃ E ks, ran f t E ks t' ∧ fixed ix tree_key (wl_binding t) E ∧
    ∀ g, agree (plain ++ ks) f g → tree_ok (tree_of g) → transition a (tree_of g) (tree_of (E g)) ∧ frame g (E g).

Lemma pair_authority g p h s : id_ok p → pair_in g p (Some (h, s)) → authority (tree_of g) p h s.
Proof. intros Hp [E1 E2]. split; [by apply (tree_header_at m tree_key _ _ _ Hp) in E1|by apply (tree_state_at m tree_key _ _ _ Hp) in E2]. Qed.
Lemma with_state_ok h s h' : header_typed h → with_state h s = Ok h' → h' = header_with h s ∧ header_typed h'.
Proof.
  intros (? & ? & ? & ?). unfold with_state, PartitionHeader_new, header_with. case_match; [done|]. intros [= <-]. by split.
Qed.
Lemma with_state_no_panic h s : no_panic (with_state h s).
Proof. unfold with_state, PartitionHeader_new. by case_match. Qed.
Lemma adjust_header_state h n h' : adjust_header h n = Ok h' → ph_state h' = ph_state h.
Proof.
  unfold adjust_header. intros (c & _ & Hh)%bind_ok. apply map_err_ok in Hh. unfold PartitionHeader_new in Hh. case_match; [done|].
  by apply Ok_inj in Hh as <-.
Qed.
Lemma removed_recounts h h' : removed_entry h = Ok h' → recounts (-1) h h'.
Proof.
  intros Hr. pose proof (removed_entry_fields _ _ Hr) as [? ?]. unfold removed_entry in Hr. apply bind_ok in Hr as (n & _ & Hr%adjust_header_state).
  split_and!; [done|done|lia].
Qed.
Lemma added_recounts h h' : added_entry h = Ok h' → recounts 1 h h'.
Proof.
  intros Hr. pose proof (added_entry_fields _ _ Hr) as [? ?]. unfold added_entry in Hr. apply bind_ok in Hr as (n & _ & Hr%adjust_header_state).
  split_and!; [done|done|lia].
Qed.
Lemma touched_recounts h h' : touched_entry h = Ok h' → recounts 0 h h'.
Proof. intros Hr. pose proof (adjust_header_fields _ _ _ Hr) as [? ?]. apply adjust_header_state in Hr. split_and!; [done|done|lia]. Qed.
(** Both values of an authority pair. *)
Definition restate p h s g : typed_map :=
  foldl set_typed g [(state_at p, Some (PersistentValue.PartitionState s)); (header_at p, Some (PersistentValue.PartitionHeader (header_with h (PartitionTransition_state s))))].
Lemma ran_restate_sized {A E ks} (Q : A → WriteLogicalTxn T → Prop) p h s (rest : unit → M (WriteLogicalTxn T) A) t1 :
  ran f t E ks t1 → id_ok p → header_typed h → transition_typed s →
  (∀ t2, ran f t (λ g, restate p h s (E g)) ks t2 → (size (lt_view t2) ≤ size (lt_view t1) + 2)%nat → wp (rest tt) Q (failed t) t2) →
  wp (let! _ := put_state xxh3_128 sha256 (state_at p) s in
      let! u := put_header_state xxh3_128 sha256 (header_at p) h (PartitionTransition_state s) in rest u) Q (failed t) t1.
Proof.
  intros Hr Hp Hh Hs Hrest. eapply (ran_put_sized xxh3_128 sha256 m types); [exact Hr|by apply put_state_ok|]. intros t2 Hr2 Hsz2.
  unfold put_header_state. apply wp_flat. eapply (ran_lift xxh3_128 sha256 m types); [exact Hr2|apply with_state_no_panic|].
  intros h' [-> Hh']%with_state_ok; [|done]. eapply (ran_put_sized xxh3_128 sha256 m types); [exact Hr2|by apply put_header_ok|].
  intros t3 Hr3 Hsz3. apply Hrest; [exact Hr3|lia].
Qed.
Lemma ran_restate {A E ks} (Q : A → WriteLogicalTxn T → Prop) p h s (rest : unit → M (WriteLogicalTxn T) A) t1 :
  ran f t E ks t1 → id_ok p → header_typed h → transition_typed s →
  (∀ t2, ran f t (λ g, restate p h s (E g)) ks t2 → wp (rest tt) Q (failed t) t2) →
  wp (let! _ := put_state xxh3_128 sha256 (state_at p) s in
      let! u := put_header_state xxh3_128 sha256 (header_at p) h (PartitionTransition_state s) in rest u) Q (failed t) t1.
Proof. intros Hr Hp Hh Hs Hrest. eapply ran_restate_sized; [done..|]. auto. Qed.
Lemma tree_restate g p h s : id_ok p → tree_of (restate p h s g) ≡ restated p h s (tree_of g).
Proof. intros Hp. unfold restate. cbn [foldl]. rewrite (tree_set_header ix tree_key) by done. rewrite (tree_set_state ix tree_key) by done. done. Qed.
(** A Ready partition above the split threshold. *)
Definition oversized h : Prop := max_partition_entries (im_config m) (ph_level h) < ph_entry_count h.
Definition split_start source started_at (o : SplitStart.t) t' : Prop :=
  match o with
  | SplitStart.Started l r =>
      acts (BeginSplit source l r started_at) [] t' ∧ ∃ h at0, pair_in f source (Some (h, PartitionTransition.Ready at0)) ∧ oversized h
  | SplitStart.AlreadySplitting l r => unchanged t' ∧ ∃ h at0, pair_in f source (Some (h, PartitionTransition.Splitting l r at0))
  | SplitStart.NotEligible => unchanged t' ∧ ∃ o, pair_in f source o ∧
      ∀ h s, o = Some (h, s) → (∀ l r at0, s ≠ PartitionTransition.Splitting l r at0) ∧ ((∃ at0, s = PartitionTransition.Ready at0) → ¬ oversized h)
  end.
Lemma begin_split_refines source started_at :
  id_ok source → u64_ok started_at →
  wp (begin_split xxh3_128 sha256 tree_key source started_at)
    (split_start source started_at) (failed t) t.
Proof.
  intros Hs Hat. unfold begin_split. eapply (ran_manifest xxh3_128 sha256 m types); [by apply ran_start|]. cbn [authority_keys].
  eapply (ran_authority xxh3_128 sha256 m Hm types tree_key Htk); [by apply ran_start|done|]. intros o t1 Hr1 Ev Hpair Hag.
  assert (unchanged t1) as Hun by by eexists. destruct o as [[h s]|]; [|apply wp_ret; split; [done|]; by exists None]. destruct (Hag _ _ eq_refl) as (_ & Hh & _).
  destruct s as [at0|l r at0|src at0|l r at0|at0];
    try (apply wp_ret; split; [done|]; eexists; split; [done|]; intros ?? [= <- <-]; split; [done|by intros []]).
  2: { apply wp_ret. split; eauto. }
  destruct (Z.leb_spec (ph_entry_count h) (max_partition_entries (im_config m) (ph_level h))) as [Hsmall|Hbig].
  { apply wp_ret. split; [done|]. eexists. split; [done|]. intros ?? [= <- <-]. split; [done|]. intros _. unfold oversized. lia. } eapply wp_bind, (ran_reserve xxh3_128 sha256 m Hm types tree_key Htk); [exact Hr1|done|].
  intros r hw t2 Hhw Hpos Hn Hl Hr2. destruct (Z.eqb_spec (reservation_count r) SPLIT_TARGETS) as [Ec|]; cbn [negb]; [|by eapply ran_fail].
  unfold reservation_count, SPLIT_TARGETS in *. rewrite Hl, Hn in *. assert (Z.min (2 ^ 64 - 1) (hw + 2) = hw + 2) as Emin by lia. rewrite Emin in Hr2 |- *.
  assert (transition_typed (PartitionTransition.Splitting (hw + 1) (hw + 2) started_at)) as Hty.
  { split; [done|]. cbn. unfold id_ok. lia. }
  eapply (ran_restate _ source h (PartitionTransition.Splitting (hw + 1) (hw + 2) started_at)); [exact Hr2|done..|]. intros t3 Hr3. apply wp_ret.
  split; [|exists h, at0; by split]. eexists _, _. split; [exact Hr3|]. split; [unfold restate; fixes|]. intros g Ha Hok. agreed Ha Hhw. destruct Hpair as [Hp1 Hp2]. agreed Ha Hp1. agreed Ha Hp2. split.
  - replace (hw + 1) with (tr_high_water (tree_of g) + 1) by (cbn; by rewrite Hhw). replace (hw + 2) with (tr_high_water (tree_of g) + 2) by (cbn; by rewrite Hhw).
    eapply step_begin_split; [by apply pair_authority|]. rewrite tree_restate by done. rewrite (tree_set_manifest ix tree_key). by split_and!.
  - apply (frame_writes m tree_key g (_ :: _ :: _ :: [])). each.
Qed.

(** ** Merges *)
Context (fuel : nat) (Hfuel : fueled (lt_view t) fuel).
(** The source's level has another Ready partition. *)
Definition mergeable source level : Prop :=
  ∃ c h, c ≠ source ∧ id_ok c ∧ f (header_at c) = Ok (Some (PersistentValue.PartitionHeader h)) ∧ ph_level h = level ∧ ph_state h = PartitionState.Ready.
(** What a partition needs to start a merge, and that the walk reaches no target for it. *)
Definition undersized source h : Prop := source ≠ root_partition ∧ ph_entry_count h < min_partition_entries (im_config m) (ph_level h).
Definition no_target source level : Prop :=
  ∀ q c e h, at_level m tree_key (typed_view xxh3_128 sha256 t) (level + 1) q → id_ok c → edge_in m tree_key (typed_view xxh3_128 sha256 t) q c e →
  header_in m tree_key (typed_view xxh3_128 sha256 t) c h → c ≠ source → ph_state h ≠ PartitionState.Ready.
Definition merge_start source started_at (o : MergeStart.t) t' : Prop :=
  match o with
  | MergeStart.Started => acts (BeginMerge source started_at) [] t' ∧
      ∃ h at0, pair_in f source (Some (h, PartitionTransition.Ready at0)) ∧ undersized source h ∧ mergeable source (ph_level h)
  | MergeStart.AlreadyMerging => unchanged t' ∧ ∃ h at0, pair_in f source (Some (h, PartitionTransition.Merging at0))
  | MergeStart.NotEligible => unchanged t' ∧ ∃ o, pair_in f source o ∧
      ∀ h s, o = Some (h, s) → (∀ at0, s ≠ PartitionTransition.Merging at0) ∧ ((∃ at0, s = PartitionTransition.Ready at0) → ¬ undersized source h)
  | MergeStart.NoReadyTarget => unchanged t' ∧
      ∃ h at0, pair_in f source (Some (h, PartitionTransition.Ready at0)) ∧ undersized source h ∧ no_target source (ph_level h)
  end.
Lemma begin_merge_refines source started_at :
  id_ok source → u64_ok started_at →
  wp (begin_merge xxh3_128 sha256 fuel tree_key source started_at)
    (merge_start source started_at) (failed t) t.
Proof.
  intros Hs Hat. unfold begin_merge. eapply (ran_manifest xxh3_128 sha256 m types); [by apply ran_start|]. cbn [authority_keys].
  eapply (ran_authority xxh3_128 sha256 m Hm types tree_key Htk); [by apply ran_start|done|]. intros o t1 Hr1 Ev Hpair Hag.
  assert (unchanged t1) as Hun by by eexists. destruct o as [[h s]|]; [|apply wp_ret; split; [done|]; by exists None]. destruct (Hag _ _ eq_refl) as (_ & Hh & _).
  destruct s as [at0|l r at0|src at0|l r at0|at0];
    try (apply wp_ret; split; [done|]; eexists; split; [done|]; intros ?? [= <- <-]; split; [done|by intros []]).
  2: { apply wp_ret. split; eauto. }
  assert (¬ undersized source h → wp (m_ret MergeStart.NotEligible) (merge_start source started_at) (failed t) t1) as Hnot.
  { intros Hn. apply wp_ret. split; [done|]. eexists. split; [done|]. intros ?? [= <- <-]. by split. }
  destruct (Z.eqb_spec source root_partition) as [|Hroot]; [apply Hnot; by intros []|].
  destruct (Z.leb_spec (min_partition_entries (im_config m) (ph_level h)) (ph_entry_count h)) as [Hbig|Hsmall]; [apply Hnot; intros []; lia|].
  assert (typed_view xxh3_128 sha256 t1 = typed_view xxh3_128 sha256 t) as Etv.
  { unfold typed_view. by rewrite Ev, (sm_binding _ _ (ran_same _ _ _ _ _ _ _ _ _ Hr1)). }
  eapply (ran_candidates xxh3_128 sha256 m Hm types tree_key Htk); [exact Hr1|by rewrite Ev|]. intros cs t2 Hcs Hall Hr2. rewrite Etv in Hall.
  assert (∀ c, c ∈ cs → seen_at m tree_key f (ph_level h) c) as Hseen by (intros c Hc; eapply Forall_forall in Hcs; [exact Hcs|by apply list_elem_of_In]).
  destruct (filter _ cs) as [|own [|]] eqn:Ef; try (by eapply ran_fail).
  assert (own ∈ filter (λ c, candidate_partition c = source) cs) as [Eown Hown%Hseen]%list_elem_of_filter by (rewrite Ef; by left).
  destruct Hown as (Hq & _ & _).
  eapply (ran_get xxh3_128 sha256 m types); [exact Hr2|by apply edge_key_typed|]. intros v t3 Hv Hr3.
  eapply (ran_lift xxh3_128 sha256 m types); [exact Hr3|by destruct v as [[]|]|]. intros e He. destruct v as [[]|]; try done.
  destruct (existsb _ cs) eqn:Et; cbn [negb]; cycle 1.
  { apply wp_ret. split; [by eexists|]. exists h, at0. split_and!; [done..|]. intros q c e1 h1 Hq1 Hc He1 Hh1 Hne Hready.
    destruct (Hall q c e1 Hq1 Hc He1) as (h2 & Hin & Ec & Hh2). unfold header_in in *. rewrite Hh1 in Hh2. injection Hh2 as <-.
    apply not_true_iff_false in Et. apply Et, existsb_exists. eexists. split; [by apply list_elem_of_In|]. unfold is_legal_merge_target, candidate_partition. cbn. rewrite Ec.
    rewrite (proj2 (Z.eqb_neq _ _) Hne). by apply bool_decide_eq_true. }
  eapply (ran_restate _ source h (PartitionTransition.Merging started_at)); [exact Hr3|done..|]. intros t4 Hr4. apply wp_ret. split.
  - eexists _, _. split; [exact Hr4|]. split; [unfold restate; fixes|]. intros g Ha _. destruct Hpair as [Hp1 Hp2]. agreed Ha Hp1. agreed Ha Hp2. agreed Ha Hv. split.
    + eapply (step_begin_merge _ _ source h (cd_parent own)); [done|by apply pair_authority| |].
      * apply (tree_edge_at m tree_key) in Hv; [|done..]. rewrite Hv. by eexists.
      * by rewrite tree_restate.
    + apply (frame_writes m tree_key g (_ :: _ :: [])). each.
  - exists h, at0. split_and!; [done..|]. apply existsb_exists in Et as (c & Hc%list_elem_of_In%Hseen & Hlegal).
    destruct Hc as (_ & Hcid & _ & Hch & Hcl). unfold is_legal_merge_target in Hlegal. apply andb_prop in Hlegal as [Hne Hready].
    exists (candidate_partition c), (cd_header c). apply bool_decide_eq_true in Hready. split_and!; try done. intros E'. rewrite E', Z.eqb_refl in Hne. done.
Qed.
Definition merge_completion source (o : MergeCompletion.t) t' : Prop :=
  match o with
  | MergeCompletion.Completed => acts (FinishMerge source) [] t' ∨ unchanged t' ∧ pair_in f source None
  | MergeCompletion.NotDrained => unchanged t' ∧ ∃ h at0, pair_in f source (Some (h, PartitionTransition.Merging at0)) ∧ ph_entry_count h ≠ 0
  | MergeCompletion.NotMerging => unchanged t' ∧ ∃ h s, pair_in f source (Some (h, s)) ∧ ∀ at0, s ≠ PartitionTransition.Merging at0
  end.
Lemma finalize_merge_refines source removal parent :
  id_ok source → hint_ok parent →
  wp (finalize_merge_with_parent xxh3_128 sha256 fuel tree_key source removal parent)
    (merge_completion source) (failed t) t.
Proof.
  intros Hs Hhint. unfold finalize_merge_with_parent. eapply (ran_manifest xxh3_128 sha256 m types); [by apply ran_start|]. cbn [authority_keys].
  eapply (ran_authority xxh3_128 sha256 m Hm types tree_key Htk); [by apply ran_start|done|]. intros o t1 Hr1 Ev Hpair Hag.
  assert (unchanged t1) as Hun by by eexists. destruct o as [[h s]|]; [|apply wp_ret; by right].
  destruct s as [at0|l r at0|src at0|l r at0|at0]; try (apply wp_ret; split; [done|]; by eexists _, _).
  destruct (Z.eqb_spec source root_partition) as [|Hroot]; [by eapply ran_fail|].
  destruct (Z.eqb_spec (ph_entry_count h) 0) as [H0'|]; cbn [negb]; [|apply wp_ret; split; eauto].
  pose proof Hpair as [Hp1 Hp2].
  eapply wp_bind, (ran_remove_edge xxh3_128 sha256 m Hm types tree_key Htk); [exact Hr1|done..|by rewrite Ev|].
  intros q e hq hq' t2 Hq He Hhq Hlev Hrem Hr2.
  eapply wp_bind, (ran_removal xxh3_128 sha256 m Hm types tree_key Htk); [exact Hr2|done|by eapply over_tree_key; [exact Ho|done|exact Hs|exact Hp1]|].
  intros t3 Hr3. apply wp_ret. left. eexists _, _. split; [exact Hr3|].
  split; [unfold drop_edge, remove_partition; destruct removal; fixes|]. intros g Ha _. agreed Ha Hp1. agreed Ha Hp2. agreed Ha He. agreed Ha Hhq. split.
  - apply (tree_edge_at m tree_key) in He; [|done..]. apply (tree_header_at m tree_key) in Hhq; [|done].
    eapply (step_finalize_merge _ _ (clears removal) source h q hq hq' at0); [done|by apply pair_authority|done|by rewrite He|done|done| |].
    + by apply removed_recounts.
    + by rewrite tree_remove, tree_drop_edge.
  - by eapply (frame_remove m tree_key _ removal g [_; _]); [each|exact Hp1|].
Qed.

(** ** Centroids *)
Lemma update_centroid_refines partition parent centroid :
  id_ok partition → id_ok parent → centroid_ok centroid →
  wp (update_centroid xxh3_128 sha256 tree_key partition parent centroid)
    (λ _ t', acts (UpdateCentroid partition parent centroid) [] t' ∨
       unchanged t' ∧ ∃ old, f (centroid_at partition) = Ok (Some (PersistentValue.PartitionCentroid old)) ∧ f32s_eq centroid old = true)
    (failed t) t.
Proof.
  intros Hc Hq Hcent. unfold update_centroid. pose proof (ran_start xxh3_128 sha256 m types f t Ho) as Hr0.
  destruct (Z.eqb_spec partition root_partition) as [|Hroot]; [by eapply ran_fail|]. destruct (Z.eqb_spec partition parent); [by eapply ran_fail|]. cbn [orb].
  eapply (ran_manifest xxh3_128 sha256 m types); [exact Hr0|].
  pose proof (partition_keys_typed m Hm tree_key Htk partition Hc) as (? & ? & ? & ?). pose proof (partition_keys_typed m Hm tree_key Htk parent Hq) as (? & ? & ? & ?).
  pose proof (edge_key_typed m Hm tree_key Htk parent partition Hq Hc).
  eapply (ran_batch xxh3_128 sha256 m types); [exact Hr0|by each|]. intros vs t1 Hvs Hr1 _. cbn [app] in Hr1.
  apply Forall2_cons_inv_l in Hvs as (v0 & vs' & V0 & Hvs & ->). apply Forall2_cons_inv_l in Hvs as (v1 & vs'' & V1 & Hvs & ->).
  apply Forall2_cons_inv_l in Hvs as (v2 & vs3 & V2 & Hvs & ->). apply Forall2_cons_inv_l in Hvs as (v3 & vs4 & V3 & Hvs & ->).
  unfold next_value_of. cbn [lookup list_lookup ok_or mbind result_bind].
  eapply (ran_lift xxh3_128 sha256 m types); [exact Hr1|by destruct v0 as [[]|]|]. intros hc Hhc. apply bind_ok in Hhc as (? & ->%expect_header_ok & ->%ok_or_ok).
  eapply (ran_lift xxh3_128 sha256 m types); [exact Hr1|by destruct v1 as [[]|]|]. intros hq Hhq. apply bind_ok in Hhq as (? & ->%expect_header_ok & ->%ok_or_ok).
  eapply (ran_lift xxh3_128 sha256 m types); [exact Hr1|by destruct v2 as [[]|]|]. intros old Hold. destruct v2 as [[]|]; try done. apply Ok_inj in Hold as ->.
  eapply (ran_lift xxh3_128 sha256 m types); [exact Hr1|by destruct v3 as [[]|]|]. intros e He. destruct v3 as [[]|]; try done. apply Ok_inj in He as ->.
  cbn [fmap option_fmap option_map] in V0, V1.
  destruct (_ || _) eqn:Eg; [by eapply ran_fail|]. repeat (apply orb_false_elim in Eg as [Eg ?]). destruct (f32s_eq centroid old) eqn:Eeq.
  { apply wp_ret. right. split; [by eexists|eauto]. }
  eapply (ran_lift xxh3_128 sha256 m types); [exact Hr1|apply adjust_header_no_panic|]. intros hq' Ht.
  assert (header_typed hq) as Hhq by by apply (over_value _ _ _ _ _ _ _ _ Ho) in V1 as [(? & ? & _ & [? _]) _].
  eapply (ran_put xxh3_128 sha256 m types); [exact Hr1|by apply put_centroid_ok|]. intros t2 Hr2.
  eapply (ran_put xxh3_128 sha256 m types); [exact Hr2|by apply put_edge_ok|]. intros t3 Hr3.
  apply wp_tail. eapply (ran_put xxh3_128 sha256 m types); [exact Hr3|apply put_header_ok; [done..|by eapply touched_entry_ok]|]. intros t4 Hr4.
  apply wp_ret. left. eexists _, _. split; [exact Hr4|]. split; [fixes|]. intros g Ha _. agreed Ha V0. agreed Ha V1. agreed Ha V2. agreed Ha V3.
  split; [|apply (frame_writes m tree_key g [_; _; _]); each].
  repeat match goal with E : bool_decide _ = false |- _ => apply bool_decide_eq_false, dec_stable in E end.
  eapply (step_update_centroid _ _ partition parent e hc hq hq' old centroid); try done.
  - by apply (tree_header_at m tree_key) in V0.
  - by apply (tree_header_at m tree_key) in V1.
  - by apply touched_recounts.
  - by apply (tree_edge_at m tree_key) in V3.
  - by apply (tree_centroid_at m tree_key) in V2.
  - by rewrite (tree_set_header ix tree_key), (tree_set_edge ix tree_key), (tree_set_centroid ix tree_key).
Qed.

(** ** Exposure *)
Definition target_writes (source level started_at : Z) (parent : option Z) (target : Z) (c : list Z) : list (LogicalKey.t * option PersistentValue.t) :=
  [(header_at target, Some (PersistentValue.PartitionHeader (receiving level)));
   (state_at target, Some (PersistentValue.PartitionState (PartitionTransition.ReceivingSplit source started_at)));
   (centroid_at target, Some (PersistentValue.PartitionCentroid c))] ++
  (if level =? 1 then [(synopsis_at target, Some (PersistentValue.PartitionSynopsis (PartitionSynopsis_empty m)))] else []) ++
  (match parent with Some q => [(edge_at q target, Some (PersistentValue.ChildEntry (mkChildEntry target c)))] | None => [] end).
Definition link (parent : option Z) (target : Z) (c : list Z) (U : Tree) : Tree :=
  match parent with Some q => set_tree_edge q target (Some (mkChildEntry target c)) U | None => U end.
Lemma tree_target g source level started_at parent target c :
  id_ok target → hint_ok parent →
  tree_of (foldl set_typed g (target_writes source level started_at parent target c)) ≡
  link parent target c (with_target source level started_at target c (tree_of g)).
Proof.
  intros Ht Hq. unfold target_writes. destruct (level =? 1), parent as [q|]; cbn [app foldl link];
    try (rewrite (tree_set_edge ix tree_key); [|by apply Hq|done]); rewrite ?(tree_set_synopsis ix tree_key);
    by rewrite (tree_set_centroid ix tree_key), (tree_set_state ix tree_key), (tree_set_header ix tree_key).
Qed.
Lemma ran_create_target {E ks} (R : unit → WriteLogicalTxn T → Prop) source level started_at parent target c t1 :
  ran f t E ks t1 → id_ok source → id_ok target → u32_ok level → level ≠ 0 → u64_ok started_at → hint_ok (fst <$> parent) → centroid_ok c →
  (∀ ks' t2, E f (header_at target) = Ok None → header_at target ∈ ks' →
     ran f t (λ g, foldl set_typed (E g) (target_writes source level started_at (fst <$> parent) target c)) (ks' ++ ks) t2 → R tt t2) →
  wp (create_target xxh3_128 sha256 m tree_key source level started_at parent target c) R (failed t) t1.
Proof.
  intros Hr Hs Ht Hlev Hl0 Hat Hhint Hc Hrest. unfold create_target. cbn [authority_keys]. cbv zeta.
  eapply (ran_lift xxh3_128 sha256 m types); [exact Hr|unfold PartitionHeader_new; by case_match|]. intros h Hh. unfold PartitionHeader_new in Hh.
  rewrite (proj2 (Z.eqb_neq _ _) Hl0) in Hh. apply Ok_inj in Hh as <-.
  eapply (ran_insert xxh3_128 sha256 m types); [exact Hr|by apply put_header_ok|]. intros t2 Hnew Hr2.
  eapply (ran_insert xxh3_128 sha256 m types); [exact Hr2|by apply put_state_ok|]. intros t3 _ Hr3.
  eapply (ran_insert xxh3_128 sha256 m types); [exact Hr3|by apply put_centroid_ok|]. intros t4 _ Hr4.
  unfold target_writes in Hrest. destruct (level =? 1).
  - eapply (ran_insert xxh3_128 sha256 m types); [exact Hr4|by apply put_synopsis_ok|]. intros t5 _ Hr5. destruct parent as [[q hq]|]; cbn [app fmap option_fmap option_map fst] in *.
    + apply wp_tail. eapply (ran_insert xxh3_128 sha256 m types); [exact Hr5|apply put_edge_ok; [done|done|by apply Hhint|done|done]|]. intros t6 _ Hr6. apply wp_ret.
      apply (Hrest [edge_at q target; synopsis_at target; centroid_at target; state_at target; header_at target] t6); [done|known|exact Hr6].
    + apply wp_ret. apply (Hrest [synopsis_at target; centroid_at target; state_at target; header_at target] t5); [done|known|exact Hr5].
  - apply wp_bind, wp_ret. destruct parent as [[q hq]|]; cbn [app fmap option_fmap option_map fst] in *.
    + apply wp_tail. eapply (ran_insert xxh3_128 sha256 m types); [exact Hr4|apply put_edge_ok; [done|done|by apply Hhint|done|done]|]. intros t6 _ Hr6. apply wp_ret.
      apply (Hrest [edge_at q target; centroid_at target; state_at target; header_at target] t6); [done|known|exact Hr6].
    + apply wp_ret. apply (Hrest [centroid_at target; state_at target; header_at target] t4); [done|known|exact Hr4].
Qed.
Lemma frames_target g source level started_at parent target c :
  g (header_at target) = Ok None → Forall (frames_write m tree_key g) (target_writes source level started_at parent target c).
Proof. intros Hn. unfold target_writes. destruct (level =? 1), parent; cbn [app]; each; split_and!; auto. Qed.
Definition header_writes (parent : option (Z * PartitionHeader)) : list (LogicalKey.t * option PersistentValue.t) :=
  match parent with Some (q, hq') => [(header_at q, Some (PersistentValue.PartitionHeader hq'))] | None => [] end.
Lemma added_twice_recounts h h' : (added_entry h ≫= added_entry) = Ok h' → recounts 2 h h'.
Proof. intros (h1 & (? & ? & ?)%added_recounts & (? & ? & ?)%added_recounts)%bind_ok. split_and!; [congruence..|lia]. Qed.
Lemma added_twice_typed h h' : header_typed h → (added_entry h ≫= added_entry) = Ok h' → header_typed h'.
Proof. intros Hh (h1 & H1'%added_entry_ok & H2%added_entry_ok)%bind_ok; [apply H2|apply H1'|done]. Qed.
(** What is known of the parent that gains the edges. *)
Definition parent_known g source level (parent : option (Z * PartitionHeader)) : Prop :=
  match parent with
  | None => source = root_partition
  | Some (q, hq) => source ≠ root_partition ∧ id_ok q ∧ header_typed hq ∧
      (∃ e, g (edge_at q source) = Ok (Some (PersistentValue.ChildEntry e))) ∧
      g (header_at q) = Ok (Some (PersistentValue.PartitionHeader hq)) ∧ ph_level hq = level + 1 ∧ takes_children (ph_state hq)
  end.
Definition parent_keys source (parent : option (Z * PartitionHeader)) : list LogicalKey.t :=
  match parent with Some (q, _) => [header_at q; edge_at q source] | None => [] end.
Lemma parent_agreed ks g source level parent :
  agree ks f g → parent_keys source parent ⊆ ks → parent_known f source level parent → parent_known g source level parent.
Proof.
  intros Ha Hks. destruct parent as [[q hq]|]; [|done]. cbn [parent_keys parent_known] in *.
  rewrite (agree_at _ _ _ (edge_at q source) Ha), (agree_at _ _ _ (header_at q) Ha) by (apply Hks; known). done.
Qed.
Lemma parent_hint g source level parent : parent_known g source level parent → hint_ok (fst <$> parent).
Proof. destruct parent as [[q hq]|]; [|by intros ? ? ?]. intros (_ & ? & _) ? [= <-]. done. Qed.
Definition grown (parent parent' : option (Z * PartitionHeader)) : Prop :=
  match parent, parent' with
  | Some (q, hq), Some (q', hq') => q' = q ∧ recounts 2 hq hq'
  | None, None => True
  | _, _ => False
  end.
Definition expose_effect source h l cl r cr started_at (parent parent' : option (Z * PartitionHeader)) g : typed_map :=
  restate source h (PartitionTransition.DrainingSplit l r started_at)
    (foldl set_typed (foldl set_typed (foldl set_typed g (target_writes source (ph_level h) started_at (fst <$> parent) l cl))
      (target_writes source (ph_level h) started_at (fst <$> parent) r cr)) (header_writes parent')).
Lemma expose_effect_ok g source h l cl r cr at0 started_at parent parent' :
  id_ok source → id_ok l → id_ok r → pair_in g source (Some (h, PartitionTransition.Splitting l r at0)) →
  g (header_at l) = Ok None → g (header_at r) = Ok None → parent_known g source (ph_level h) parent → grown parent parent' →
  transition (Expose source l r cl cr started_at) (tree_of g) (tree_of (expose_effect source h l cl r cr started_at parent parent' g)) ∧
  frame g (expose_effect source h l cl r cr started_at parent parent' g).
Proof.
  intros Hs Hl Hr Hpair Hn1 Hn2 Hpar Hgrow. pose proof (parent_hint _ _ _ _ Hpar) as Hhint. split.
  - destruct parent as [[q hq]|], parent' as [[q' hq']|]; try done.
    + destruct Hgrow as [-> Hrec]. destruct Hpar as (Hroot & Hq & _ & (e & He) & Hhq & Hlev & Htake).
      apply (tree_edge_at m tree_key) in He; [|done..]. apply (tree_header_at m tree_key) in Hhq; [|done].
      eapply (step_expose _ _ source h q hq hq' l r at0 started_at cl cr); try done; [by apply pair_authority|].
      unfold expose_effect. cbn [header_writes foldl]. rewrite tree_restate, (tree_set_header ix tree_key), !tree_target by done. done.
    + cbn [parent_known] in Hpar. subst source. eapply (step_expose_root _ _ h l r at0); [by apply pair_authority|].
      unfold expose_effect. cbn [header_writes foldl]. rewrite tree_restate, !tree_target by done. done.
  - unfold expose_effect, restate. rewrite <-!foldl_app. apply frame_writes. rewrite !Forall_app. split_and!; [by apply frames_target..| |by each].
    destruct parent' as [[q' hq']|]; by each.
Qed.
Lemma target_writes_some source level started_at parent target c key v :
  (key, v) ∈ target_writes source level started_at parent target c → is_Some v.
Proof.
  unfold target_writes. destruct (level =? 1), parent; cbn [app]; intros Hin; repeat (apply elem_of_cons in Hin as [[= -> ->]|Hin]; [by eexists|]);
    by apply elem_of_nil in Hin.
Qed.
(** The insertion of the second target shows that neither existed. *)
Lemma still_new g source level started_at parent target c key :
  foldl set_typed g (target_writes source level started_at parent target c) key = Ok None → g key = Ok None.
Proof.
  destruct (set_all_cases g (target_writes source level started_at parent target c) key) as [[-> _]|(v & Hv%target_writes_some & ->)]; [done|].
  intros [= ->]. by destruct Hv.
Qed.
Lemma expose_targets_refines source h l cl r cr at0 started_at parent ks t1 :
  ran f t (λ g, g) ks t1 → id_ok source → u64_ok started_at → centroid_ok cl → centroid_ok cr →
  pair_in f source (Some (h, PartitionTransition.Splitting l r at0)) → header_at source ∈ ks → state_at source ∈ ks → header_typed h → id_ok l → id_ok r →
  parent_known f source (ph_level h) parent → parent_keys source parent ⊆ ks →
  wp (expose_targets xxh3_128 sha256 m tree_key source h l cl r cr started_at parent)
    (λ o t', o = SplitExposure.Exposed ∧ acts (Expose source l r cl cr started_at) [] t') (failed t) t1.
Proof.
  intros Hr Hs Hat Hcl Hcr Hpair Hk1 Hk2 Hh Hl Hrr Hpar Hks. unfold expose_targets. cbv zeta. pose proof Hh as (Hlev & Hl0 & _).
  pose proof (parent_hint _ _ _ _ Hpar) as Hhint.
  eapply wp_bind, ran_create_target; [exact Hr|done..|]. intros ks1 t2 Hn1 Hk3 Hr2.
  eapply wp_bind, ran_create_target; [exact Hr2|done..|]. intros ks2 t3 Hn2%still_new Hk4 Hr3.
  assert (∀ parent' t4, grown parent parent' →
    ran f t (λ g, foldl set_typed (foldl set_typed (foldl set_typed g (target_writes source (ph_level h) started_at (fst <$> parent) l cl))
      (target_writes source (ph_level h) started_at (fst <$> parent) r cr)) (header_writes parent')) (ks2 ++ ks1 ++ ks) t4 →
    wp (let! _ := put_state xxh3_128 sha256 (state_at source) (PartitionTransition.DrainingSplit l r started_at) in
        let! _ := put_header_state xxh3_128 sha256 (header_at source) h PartitionState.DrainingSplit in m_ret SplitExposure.Exposed)
      (λ o t', o = SplitExposure.Exposed ∧ acts (Expose source l r cl cr started_at) [] t') (failed t) t4) as Hlast.
  { intros parent' t4 Hgrow Hr4. eapply (ran_restate _ source h (PartitionTransition.DrainingSplit l r started_at)); [exact Hr4|done..|]. intros t5 Hr5.
    apply wp_ret. split; [done|]. exists (expose_effect source h l cl r cr started_at parent parent'), (ks2 ++ ks1 ++ ks). split; [exact Hr5|]. split; [unfold expose_effect, restate; fixes|].
    intros g Ha _. cbn [app] in Ha. eapply expose_effect_ok; try done.
    - destruct Hpair. split; rewrite (agree_at _ _ _ _ Ha) by set_solver; done.
    - rewrite (agree_at _ _ _ _ Ha) by set_solver; done.
    - rewrite (agree_at _ _ _ _ Ha) by set_solver; done.
    - eapply parent_agreed; [exact Ha| |done]. set_solver. }
  destruct parent as [[q hq]|].
  - destruct Hpar as (_ & Hq & Hhq & _). apply wp_flat.
    eapply (ran_lift xxh3_128 sha256 m types); [exact Hr3|apply bind_no_panic; [apply added_entry_no_panic|intros; apply added_entry_no_panic]|]. intros hq' Hadd.
    eapply (ran_put xxh3_128 sha256 m types); [exact Hr3|apply put_header_ok; [done..|by eapply added_twice_typed]|]. intros t4 Hr4.
    apply (Hlast (Some (q, hq')) t4); [|exact Hr4]. split; [done|by apply added_twice_recounts].
  - apply wp_bind, wp_ret. by apply (Hlast None t3).
Qed.
(** The parent with the incoming edge is draining, merging or without headroom. *)
Definition parent_refuses source : Prop :=
  ∃ q e hq, edge_in m tree_key f q source e ∧ header_in m tree_key f q hq ∧ (accepts_children (ph_state hq) = false ∨ lacks_graph_headroom m hq = true).
Lemma accepting_parent_spec source level hint ks t1 :
  ran f t (λ g, g) ks t1 → id_ok source → source ≠ root_partition → hint_ok hint → fueled (lt_view t1) fuel →
  wp (accepting_parent xxh3_128 sha256 fuel m tree_key source level hint)
    (λ parent t', ∃ ks', ran f t (λ g, g) (ks' ++ ks) t' ∧ match parent with
       | Some _ => parent_known f source level parent ∧ parent_keys source parent ⊆ ks'
       | None => parent_refuses source
       end)
    (failed t) t1.
Proof.
  intros Hr Hs Hroot Hhint Hfuel1. unfold accepting_parent. eapply (ran_lock xxh3_128 sha256 m Hm types tree_key Htk); [exact Hr|done..|]. intros q e t2 Hq He Hr2.
  eapply (ran_parent xxh3_128 sha256 m Hm types tree_key Htk _ _ _ q level); [exact Hr2|done|]. intros hq t3 Hhq Hty Hlev Hr3.
  destruct (accepts_children (ph_state hq)) eqn:Ea; cbn [negb]; [destruct (lacks_graph_headroom m hq) eqn:El|]; apply wp_ret;
    exists [header_at q; edge_at q source]; (split; [exact Hr3|]); [by exists q, e, hq; auto| |by exists q, e, hq; auto].
  split; [|done]. split_and!; try done; [by eexists|]. unfold takes_children. destruct (ph_state hq); auto; done.
Qed.
Definition exposure source l r cl cr started_at (o : SplitExposure.t) t' : Prop :=
  match o with
  | SplitExposure.Exposed => acts (Expose source l r cl cr started_at) [] t'
  | SplitExposure.AlreadyExposed => unchanged t' ∧ ∃ h at0, pair_in f source (Some (h, PartitionTransition.DrainingSplit l r at0))
  | SplitExposure.SourceAdvanced => unchanged t' ∧ ∃ o, pair_in f source o ∧ ∀ h s, o = Some (h, s) → split_of s = None
  | SplitExposure.ParentNotAccepting => unchanged t' ∧ (∃ h at0, pair_in f source (Some (h, PartitionTransition.Splitting l r at0))) ∧ parent_refuses source
  end.
Lemma expose_split_targets_refines source l cl r cr started_at hint :
  id_ok source → u64_ok started_at → centroid_ok cl → centroid_ok cr → hint_ok hint →
  wp (expose_split_targets_with_parent xxh3_128 sha256 fuel tree_key source l cl r cr started_at hint)
    (exposure source l r cl cr started_at) (failed t) t.
Proof.
  intros Hs Hat Hcl Hcr Hhint. unfold expose_split_targets_with_parent. eapply (ran_manifest xxh3_128 sha256 m types); [by apply ran_start|]. cbn [authority_keys].
  eapply (ran_authority xxh3_128 sha256 m Hm types tree_key Htk); [by apply ran_start|done|]. intros o t1 Hr1 Ev Hpair Hag.
  assert (unchanged t1) as Hun by by eexists. destruct o as [[h s]|]; [|apply wp_ret; split; [done|]; by exists None]. destruct (Hag _ _ eq_refl) as (_ & Hh & _ & Hids).
  destruct s as [at0|l' r' at0|src at0|l' r' at0|at0]; 
    try (apply wp_ret; split; [done|]; eexists; split; [done|]; by intros ?? [= <- <-]).
  all: destruct (Z.eqb_spec l l') as [<-|]; [|by eapply ran_fail]; destruct (Z.eqb_spec r r') as [<-|]; [|by eapply ran_fail]; cbn [negb orb].
  2: { apply wp_ret. split; eauto. }
  cbn [transition_ids_ok] in Hids. destruct_and?.
  assert (∀ parent ks t2, ran f t (λ g, g) (ks ++ [header_at source; state_at source]) t2 → parent_known f source (ph_level h) parent → parent_keys source parent ⊆ ks →
    wp (expose_targets xxh3_128 sha256 m tree_key source h l cl r cr started_at parent)
      (exposure source l r cl cr started_at) (failed t) t2) as Hexp.
  { intros parent ks t2 Hr2 Hpar Hks. eapply wp_mono; [eapply (expose_targets_refines source h l cl r cr at0 started_at parent); [exact Hr2|try done; set_solver..]| |done].
    by intros o t' [-> ?]. }
  destruct (Z.eqb_spec source root_partition) as [Eroot|Hroot]; [by apply (Hexp None [])|].
  eapply wp_step; [eapply accepting_parent_spec; [exact Hr1|done..|by rewrite Ev]|done|]. intros parent t2 (ks & Hr2 & Hpar).
  destruct parent as [parent|]; [|apply wp_ret; split_and!; [by eexists|by eexists _, _|done]]. destruct Hpar as [Hpar Hks]. by eapply Hexp.
Qed.

(** ** Completion of a split *)
Definition promote_all (started_at : Z) (ths : list (Z * PartitionHeader)) g : typed_map :=
  foldl (λ g '(p, h), restate p h (PartitionTransition.Ready started_at) g) g ths.
Definition receives source level (p : Z) (h : PartitionHeader) : Prop :=
  header_typed h ∧ ph_level h = level ∧ ∃ at0, pair_in f p (Some (h, PartitionTransition.ReceivingSplit source at0)).
Lemma ran_promote {E ks} (R : unit → WriteLogicalTxn T → Prop) source level started_at targets values t1 :
  ran f t E ks t1 → Forall id_ok targets → u64_ok started_at →
  Forall2 (λ key v, f key = Ok v) (targets ≫= λ p, [state_at p; header_at p]) values →
  (∀ hs t2, Forall2 (receives source level) targets hs → ran f t (λ g, promote_all started_at (zip targets hs) (E g)) ks t2 →
     (size (lt_view t2) ≤ size (lt_view t1) + 2 * length targets)%nat → R tt t2) →
  wp (promote_targets xxh3_128 sha256 ix tree_key source level started_at targets values) R (failed t) t1.
Proof.
  revert E values t1. induction targets as [|p targets IH]; intros E values t1 Hr Hids Hat Hvs Hrest; cbn [promote_targets].
  { apply wp_ret. apply (Hrest []); [constructor|exact Hr|lia]. }
  apply Forall_cons_iff in Hids as [Hp Hids]. rewrite bind_cons in Hvs. cbn [app] in Hvs.
  apply Forall2_cons_inv_l in Hvs as (v1 & vs' & V1 & Hvs & ->). apply Forall2_cons_inv_l in Hvs as (v2 & vs & V2 & Hvs & ->). cbn [authority_keys].
  eapply (ran_lift xxh3_128 sha256 m types); [exact Hr|by destruct v1 as [[]|]|]. intros s Hs. apply bind_ok in Hs as (? & ->%expect_state_ok & ->%ok_or_ok).
  eapply (ran_lift xxh3_128 sha256 m types); [exact Hr|by repeat case_match|]. intros [] Hsrc. destruct s as [| |src at0| |]; try done.
  destruct (Z.eqb_spec src source) as [->|]; [|done].
  eapply (ran_lift xxh3_128 sha256 m types); [exact Hr|by destruct v2 as [[]|]|]. intros h Hh. apply bind_ok in Hh as (? & ->%expect_header_ok & ->%ok_or_ok).
  eapply (ran_lift xxh3_128 sha256 m types); [exact Hr|unfold expect_agreement; by case_decide|]. intros [] _.
  destruct (Z.eqb_spec (ph_level h) level) as [Hlev|]; cbn [negb]; [|by eapply ran_fail].
  assert (header_typed h) as Hty.
  { apply (over_value _ _ _ _ _ _ _ _ Ho) in V2 as [(? & ? & _ & [? _]) _]; [done|by apply partition_keys_typed]. }
  eapply (ran_restate_sized _ p h (PartitionTransition.Ready started_at)); [exact Hr|done..|]. intros t2 Hr2 Hsz.
  eapply IH; [exact Hr2|done..|]. intros hs t3 Hhs Hr3 Hsz3. apply (Hrest (h :: hs)); [|exact Hr3|cbn [length]; lia].
  constructor; [|done]. split_and!; [done..|]. exists at0. by split.
Qed.
Definition root_effect h' l r cl cr hl hr started_at g : typed_map :=
  foldl set_typed (promote_all started_at [(l, hl); (r, hr)] g)
    [(edge_at root_partition l, Some (PersistentValue.ChildEntry (mkChildEntry l cl))); (edge_at root_partition r, Some (PersistentValue.ChildEntry (mkChildEntry r cr)));
     (synopsis_at root_partition, None); (header_at root_partition, Some (PersistentValue.PartitionHeader h'));
     (state_at root_partition, Some (PersistentValue.PartitionState (PartitionTransition.Ready started_at)))].
Lemma root_effect_ok g h h' l r cl cr hl hr at0 atl atr started_at :
  id_ok l → id_ok r → pair_in g root_partition (Some (h, PartitionTransition.DrainingSplit l r at0)) → ph_entry_count h = 0 →
  pair_in g l (Some (hl, PartitionTransition.ReceivingSplit root_partition atl)) → ph_level hl = ph_level h →
  pair_in g r (Some (hr, PartitionTransition.ReceivingSplit root_partition atr)) → ph_level hr = ph_level h →
  g (centroid_at l) = Ok (Some (PersistentValue.PartitionCentroid cl)) → g (centroid_at r) = Ok (Some (PersistentValue.PartitionCentroid cr)) →
  g (edge_at root_partition l) = Ok None → g (edge_at root_partition r) = Ok None →
  ph_level h' = ph_level h + 1 → ph_entry_count h' = 2 → ph_state h' = PartitionState.Ready →
  transition (FinishSplit root_partition started_at) (tree_of g) (tree_of (root_effect h' l r cl cr hl hr started_at g)) ∧
  frame g (root_effect h' l r cl cr hl hr started_at g).
Proof.
  intros Hl Hr Hroot H0' Pl Ll Pr Lr Cl Cr El Er L' C' S'. pose proof root_id as Hid. split.
  - apply (tree_centroid_at m tree_key) in Cl, Cr; [|done..]. apply (tree_edge_at m tree_key) in El, Er; [|done..].
    eapply (step_finalize_root _ _ h h' l r at0 started_at hl hr atl atr cl cr); try done; [by apply pair_authority..|].
    unfold root_effect, promote_all. cbn [foldl].
    by rewrite (tree_set_state ix tree_key), (tree_set_header ix tree_key), (tree_set_synopsis ix tree_key), !(tree_set_edge ix tree_key), !tree_restate by done.
  - apply (frame_writes m tree_key g (_ :: _ :: _ :: _ :: _ :: _ :: _ :: _ :: [_])). each. split_and!; auto.
Qed.
Lemma stored_centroid p v c :
  id_ok p → f (centroid_at p) = Ok v → (expect_centroid v ≫= ok_or Corruption) = Ok c → v = Some (PersistentValue.PartitionCentroid c) ∧ centroid_ok c.
Proof.
  intros Hp Hv Hc. destruct v as [[]|]; try done. apply Ok_inj in Hc as ->. split; [done|].
  apply (over_value _ _ _ _ _ _ _ _ Ho) in Hv as [(? & ? & _ & [? ?]) _]; [done|by apply partition_keys_typed].
Qed.
Lemma ran_root_edges {E ks} (R : PartitionHeader → WriteLogicalTxn T → Prop) l r v1 v2 h t1 :
  ran f t E ks t1 → id_ok l → id_ok r → f (centroid_at l) = Ok v1 → f (centroid_at r) = Ok v2 → header_typed h →
  (∀ cl cr h' t2, v1 = Some (PersistentValue.PartitionCentroid cl) → v2 = Some (PersistentValue.PartitionCentroid cr) →
     E f (edge_at root_partition l) = Ok None →
     set_typed (E f) (edge_at root_partition l, Some (PersistentValue.ChildEntry (mkChildEntry l cl))) (edge_at root_partition r) = Ok None →
     recounts 2 h h' → header_typed h' →
     ran f t (λ g, foldl set_typed (E g) [(edge_at root_partition l, Some (PersistentValue.ChildEntry (mkChildEntry l cl)));
       (edge_at root_partition r, Some (PersistentValue.ChildEntry (mkChildEntry r cr)))]) (edge_at root_partition r :: edge_at root_partition l :: ks) t2 → R h' t2) →
  wp (insert_root_edges xxh3_128 sha256 ix tree_key [l; r] [v1; v2] h) R (failed t) t1.
Proof.
  intros Hr Hl Hrr V1 V2 Hh Hrest. pose proof root_id as Hid. cbn [insert_root_edges].
  eapply (ran_lift xxh3_128 sha256 m types); [exact Hr|by destruct v1 as [[]|]|]. intros cl [-> Hcl]%(stored_centroid _ _ _ Hl V1).
  eapply (ran_insert xxh3_128 sha256 m types); [exact Hr|by apply put_edge_ok|]. intros t2 Hn1 Hr2.
  eapply (ran_lift xxh3_128 sha256 m types); [exact Hr2|apply added_entry_no_panic|]. intros h1 Ha1.
  eapply (ran_lift xxh3_128 sha256 m types); [exact Hr2|by destruct v2 as [[]|]|]. intros cr [-> Hcr]%(stored_centroid _ _ _ Hrr V2).
  eapply (ran_insert xxh3_128 sha256 m types); [exact Hr2|by apply put_edge_ok|]. intros t3 Hn2 Hr3.
  eapply (ran_lift xxh3_128 sha256 m types); [exact Hr3|apply added_entry_no_panic|]. intros h2 Ha2. apply wp_ret.
  assert ((added_entry h ≫= added_entry) = Ok h2) as Ha by (by rewrite Ha1). by eapply Hrest; eauto using added_twice_recounts, added_twice_typed.
Qed.
Lemma promote_root_refines h l r hl hr at0 started_at ks t1 :
  ran f t (promote_all started_at [(l, hl); (r, hr)]) ks t1 → id_ok l → id_ok r → u64_ok started_at →
  header_typed h → pair_in f root_partition (Some (h, PartitionTransition.DrainingSplit l r at0)) → ph_entry_count h = 0 →
  receives root_partition (ph_level h) l hl → receives root_partition (ph_level h) r hr →
  [header_at root_partition; state_at root_partition; header_at l; state_at l; header_at r; state_at r] ⊆ ks →
  wp (promote_root xxh3_128 sha256 m tree_key h l r started_at)
    (λ o t', o = SplitCompletion.Completed None ∧ acts (FinishSplit root_partition started_at) [centroid_at l; centroid_at r] t') (failed t) t1.
Proof.
  intros Hr Hl Hrr Hat Hh Hpair H0' (_ & Ll & atl & Pl) (_ & Lr & atr & Pr) Hks. unfold promote_root. cbv zeta. pose proof root_id as Hid.
  pose proof (edge_key_typed m Hm tree_key Htk root_partition l Hid Hl). pose proof (edge_key_typed m Hm tree_key Htk root_partition r Hid Hrr).
  pose proof (partition_keys_typed m Hm tree_key Htk l Hl) as (_ & _ & ? & _). pose proof (partition_keys_typed m Hm tree_key Htk r Hrr) as (_ & _ & ? & _).
  cbn [fmap list_fmap]. eapply (ran_read_batch xxh3_128 sha256 m types); [exact Hr|by each|]. intros vs t2 Hvs Hr2.
  apply Forall2_cons_inv_l in Hvs as (v1 & vs' & V1 & Hvs & ->). apply Forall2_cons_inv_l in Hvs as (v2 & vs2 & V2 & Hvs & ->). apply Forall2_nil_inv_l in Hvs as ->.
  change (f (centroid_at l) = Ok v1) in V1. change (f (centroid_at r) = Ok v2) in V2.
  eapply wp_bind, (ran_root_edges _ l r v1 v2 h); [exact Hr2|done..|]. intros cl cr h1 t3 -> -> Hn1 Hn2 (R1 & R2 & R3) Hh1 Hr3.
  change (f (edge_at root_partition l) = Ok None) in Hn1.
  assert (f (edge_at root_partition r) = Ok None) as Hn2'. { revert Hn2. unfold set_typed at 1. cbn [fst snd]. by case_decide. }
  eapply (ran_delete xxh3_128 sha256 m types); [exact Hr3|by apply partition_keys_typed|]. intros t4 Hr4.
  eapply (ran_lift xxh3_128 sha256 m types); [exact Hr4|by unfold checked_add_u32; case_match|]. intros n Hn.
  eapply (ran_lift xxh3_128 sha256 m types); [exact Hr4|unfold PartitionHeader_new; by case_match|]. intros h' Hh'.
  apply map_err_ok in Hh'. unfold PartitionHeader_new in Hh'. destruct (Z.eqb_spec n 0); [done|]. apply Ok_inj in Hh' as <-.
  assert (u32_ok n ∧ n = ph_level h1 + 1) as [Hn32 ->].
  { unfold checked_add_u32 in Hn. destruct Hh1 as (? & _). destruct (Z.ltb_spec (ph_level h1 + 1) (2 ^ 32)); [|done]. apply Ok_inj in Hn as <-. unfold u32_ok in *. lia. }
  eapply (ran_put xxh3_128 sha256 m types); [exact Hr4|apply put_header_ok; [done..|]|]; [by destruct Hh1 as (_ & _ & ? & ?)|]. intros t5 Hr5.
  eapply (ran_put xxh3_128 sha256 m types); [exact Hr5|by apply put_state_ok|]. intros t6 Hr6. apply wp_ret. split; [done|].
  eexists (root_effect _ l r cl cr hl hr started_at), _. split; [exact Hr6|].
  split; [unfold root_effect, promote_all, restate; fixes|]. intros g Ha _.
  assert (∀ k, k ∈ [centroid_at l; centroid_at r; edge_at root_partition l; edge_at root_partition r] ∨ k ∈ ks → g k = f k) as Hag.
  { intros k Hk. apply (agree_at _ _ _ _ Ha). set_solver. }
  assert (∀ p o, header_at p ∈ ks → state_at p ∈ ks → pair_in f p o → pair_in g p o) as Hpairs by (intros p o ? ? []; split; rewrite Hag; auto).
  eapply (root_effect_ok g h _ l r cl cr hl hr at0 atl atr); try done; try (apply Hpairs; [set_solver..|done]); try (rewrite Hag; [done|set_solver]); cbn; lia.
Qed.
Definition split_effect removal source l r q hl hr hq' started_at g : typed_map :=
  remove_partition m tree_key (wl_binding t) removal source (drop_edge m tree_key q source hq' (promote_all started_at [(l, hl); (r, hr)] g)).
Lemma split_effect_ok removal g source h l r q e hl hr hq hq' at0 atl atr started_at :
  id_ok source → id_ok l → id_ok r → id_ok q → source ≠ root_partition →
  pair_in g source (Some (h, PartitionTransition.DrainingSplit l r at0)) → ph_entry_count h = 0 →
  pair_in g l (Some (hl, PartitionTransition.ReceivingSplit source atl)) → ph_level hl = ph_level h →
  pair_in g r (Some (hr, PartitionTransition.ReceivingSplit source atr)) → ph_level hr = ph_level h →
  g (edge_at q source) = Ok (Some (PersistentValue.ChildEntry e)) → g (header_at q) = Ok (Some (PersistentValue.PartitionHeader hq)) →
  ph_level hq = ph_level h + 1 → removed_entry hq = Ok hq' →
  transition (FinishSplit source started_at) (tree_of g) (tree_of (split_effect removal source l r q hl hr hq' started_at g)) ∧
  frame g (split_effect removal source l r q hl hr hq' started_at g).
Proof.
  intros Hs Hl Hr Hq Hroot Hpair H0' Pl Ll Pr Lr He Hhq Hlev Hrem. pose proof Hpair as [Hp1 _]. split.
  - apply (tree_edge_at m tree_key) in He; [|done..]. apply (tree_header_at m tree_key) in Hhq; [|done].
    eapply (step_finalize_split _ _ (clears removal) source h q hq hq' l r at0 started_at hl hr atl atr); try done;
      [by apply pair_authority..|by apply removed_recounts|].
    unfold split_effect, promote_all. cbn [foldl]. by rewrite tree_remove, tree_drop_edge, !tree_restate by done.
  - by eapply (frame_remove m tree_key _ removal g [_; _; _; _; _; _]); [each|exact Hp1|].
Qed.
(** The parent is none of the targets: they are one level below. *)
Lemma promoted_header g started_at l r hl hr q hq level :
  promote_all started_at [(l, hl); (r, hr)] g (header_at q) = Ok (Some (PersistentValue.PartitionHeader hq)) →
  ph_level hl = level → ph_level hr = level → ph_level hq = level + 1 → g (header_at q) = Ok (Some (PersistentValue.PartitionHeader hq)).
Proof.
  unfold promote_all, restate. cbn [foldl]. unfold set_typed. cbn [fst snd]. intros E Hl Hr Hq.
  repeat case_decide; simplify_eq; try done; cbn in Hq; lia.
Qed.
Definition split_completion source started_at (o : SplitCompletion.t) t' : Prop :=
  match o with
  | SplitCompletion.Completed _ =>
      (∃ plain, acts (FinishSplit source started_at) plain t' ∧ (source ≠ root_partition → plain = []) ∧ ∀ k, k ∈ plain → ∃ p, k = centroid_at p) ∨
      unchanged t' ∧ pair_in f source None
  | SplitCompletion.NotDrained => unchanged t' ∧ ∃ h l r at0, pair_in f source (Some (h, PartitionTransition.DrainingSplit l r at0)) ∧ ph_entry_count h ≠ 0
  | SplitCompletion.NotDraining => unchanged t' ∧ ∃ h s, pair_in f source (Some (h, s)) ∧ ∀ l r at0, s ≠ PartitionTransition.DrainingSplit l r at0
  end.
Lemma finalize_split_refines source started_at removal hint :
  id_ok source → u64_ok started_at → hint_ok hint → fueled (lt_view t) (fuel - 4) →
  wp (finalize_split_with_parent xxh3_128 sha256 fuel tree_key source started_at removal hint) (split_completion source started_at) (failed t) t.
Proof.
  intros Hs Hat Hhint Hfuel4. unfold finalize_split_with_parent. eapply (ran_manifest xxh3_128 sha256 m types); [by apply ran_start|]. cbn [authority_keys].
  eapply (ran_authority xxh3_128 sha256 m Hm types tree_key Htk); [by apply ran_start|done|]. intros o t1 Hr1 Ev Hpair Hag.
  assert (unchanged t1) as Hun by by eexists. destruct o as [[h s]|]; [|apply wp_ret; by right]. destruct (Hag _ _ eq_refl) as (_ & Hh & _ & Hids).
  destruct s as [at0|l r at0|src at0|l r at0|at0]; try (apply wp_ret; split; [done|]; by eexists _, _). cbn [transition_ids_ok] in Hids. destruct Hids as [Hl Hrr].
  destruct (Z.eqb_spec (ph_entry_count h) 0) as [H0'|]; cbn [negb]; [|apply wp_ret; split; eauto 10].
  pose proof (partition_keys_typed m Hm tree_key Htk l Hl) as (? & ? & _). pose proof (partition_keys_typed m Hm tree_key Htk r Hrr) as (? & ? & _).
  eapply (ran_batch xxh3_128 sha256 m types); [exact Hr1|by each|]. intros vs t2 Hvs Hr2 Ev2. cbn [app] in Hr2.
  eapply wp_bind, (ran_promote _ source (ph_level h) started_at [l; r] vs); [exact Hr2|by each|done|done|]. intros hs t3 Hhs Hr3 Hsz.
  apply Forall2_cons_inv_l in Hhs as (hl & hs' & Rl & Hhs & ->). apply Forall2_cons_inv_l in Hhs as (hr & hs2 & Rr & Hhs & ->). apply Forall2_nil_inv_l in Hhs as ->.
  cbn [zip zip_with] in Hr3. destruct (Z.eqb_spec source root_partition) as [->|Hroot].
  - eapply wp_mono; [eapply promote_root_refines; [exact Hr3|try done; set_solver..]| |done]. intros o t' [-> Hacts]. left.
    exists [centroid_at l; centroid_at r]. split_and!; [done|done|]. set_solver.
  - eapply wp_bind, (ran_remove_edge xxh3_128 sha256 m Hm types tree_key Htk); [exact Hr3|done..| |].
    { unfold fueled in *. rewrite Ev2, Ev in Hsz. cbn [length] in Hsz. lia. }
    intros q e hq hq' t4 Hq He Hhq Hlev Hrem Hr4. change (f (edge_at q source) = Ok (Some (PersistentValue.ChildEntry e))) in He.
    destruct Rl as (_ & Ll & atl & Pl), Rr as (_ & Lr & atr & Pr). eapply promoted_header in Hhq; [|exact Ll|exact Lr|exact Hlev].
    eapply wp_bind, (ran_removal xxh3_128 sha256 m Hm types tree_key Htk); [exact Hr4|done|by eapply over_tree_key; [exact Ho|done|exact Hs|exact (proj1 Hpair)]|].
    intros t5 Hr5. apply wp_ret. left. exists []. split_and!; [|done|by intros k ?%elem_of_nil].
    exists (split_effect removal source l r q hl hr hq' started_at). eexists. split; [exact Hr5|].
    split; [unfold split_effect, drop_edge, remove_partition, promote_all, restate; destruct removal; fixes|]. intros g Ha _. cbn [app] in Ha.
    destruct Hpair as [Hp1 Hp2], Pl as [Pl1 Pl2], Pr as [Pr1 Pr2].
    agreed Ha Hp1. agreed Ha Hp2. agreed Ha Pl1. agreed Ha Pl2. agreed Ha Pr1. agreed Ha Pr2. agreed Ha He. agreed Ha Hhq.
    by eapply split_effect_ok; try done; split.
Qed.
End refinement.
