(* ===== verification/TopologySafety.v ===== *)
(** What the topology transactions of src/src/storage/topology/transitions.rs
    guarantee: each refines the protocol, and keeps the tree's structure and
    record membership. *)
From stdpp Require Import gmap sorting functions.
From S2P Require Import Prelude RustStd Api TreeKey Keys KeyRanges RaBitQ Manifest Wire ValueData Records Synopsis Values Config Backend Memory Txn Codec Logical TreeOps Membership LogicalSpec MembershipSpec MembershipInv Mutate MutateSpec Relocation RelocationSpec Reader Discovery DiscoverySpec Transitions Protocol TransitionsSpec TransitionsRefine.

(** ** Membership *)
Section membership.
Context (xxh3_128 : Z → list Z → Z) (m : IndexManifest) (Hm : manifest_ok m) (tree_key : list Z).
Abbreviation ix := (im_logical_index_id m).
Abbreviation tree_of := (TransitionsSpec.tree_of ix tree_key).
Abbreviation intact := (MembershipInv.intact xxh3_128 m Hm).
Abbreviation header_at := (MembershipSpec.header_at m).
Implicit Types (f g : typed_map) (l : RecordLocation).
Lemma tree_header_some g p h :
  tr_header (tree_of g) p = Some h ↔ id_ok p ∧ g (LogicalKey.Header ix tree_key p) = Ok (Some (PersistentValue.PartitionHeader h)).
Proof.
  cbn. unfold at_id, header_value. case_decide as E; [|split; [done|by intros []]].
  split; [|by intros [_ ->]]. repeat case_match; try done. intros [= ->]. by subst.
Qed.
(** A transition within its frame is quiet. *)
Lemma transition_quiet a f g :
  intact f → tree_ok (tree_of f) → transition a (tree_of f) (tree_of g) → frame m tree_key f g → quiet xxh3_128 m Hm f g.
Proof.
  intros Hf Hok Htr [Fo Fe Fs]. destruct (transition_leaves _ _ _ Hok Htr) as [Lnew Lold].
  assert (∀ l, rl_tree_key l ≠ tree_key → g (header_key ix l) = f (header_key ix l)) as Hother by (intros [tk p] N; apply Fo; [done|intros p' [= ->]; done]).
  assert (∀ h p, header_at f (mkLocation tree_key p) h → id_ok p → tr_header (tree_of f) p = Some h) as Hin by (intros; by apply tree_header_some).
  split.
  - intros key v Hk [id Hid] Hkind. destruct key; try done; cbn in Hid; injection Hid as ->; try by rewrite Fo.
    destruct (decide (index = ix ∧ tree_key0 = tree_key)) as [[-> ->]|N]; [|rewrite Fo; [done|done|intros p' [= -> -> _]; by apply N]].
    destruct (Fe partition id) as [->|(Hno & h & Hh & Hz)]; [done|]. split; [by intros ?%Hno|]. intros Hv. exfalso. destruct v; try done. destruct Hk as (_ & Hbk & Hp & Hb).
    eapply (empty_leaf xxh3_128 m Hm f (mkLocation tree_key partition)); [done|done| |exact Hb|exact Hv].
    intros h' Hh' _. unfold MembershipSpec.header_at, header_key in Hh'. cbn [rl_tree_key rl_leaf] in Hh'. congruence.
  - intros l h' [Hlb Hlp] Hh' Hlev. destruct (decide (rl_tree_key l = tree_key)) as [E|N]; [|left; exists h'; unfold MembershipSpec.header_at in *; by rewrite <-Hother].
    destruct l as [tk p]. cbn [rl_tree_key rl_leaf] in *. subst tk. destruct (Lnew p h') as [(h & Hh%tree_header_some & ? & ?)|[Hn Hz]]; [by apply tree_header_some|done| |].
    + left. exists h. by destruct Hh.
    + right. split; [|done]. intros h Hh. rewrite (Hin h p) in Hn by done. done.
  - intros l h [Hlb Hlp] Hh Hlev. destruct (decide (rl_tree_key l = tree_key)) as [E|N]; [|left; exists h; unfold MembershipSpec.header_at in *; by rewrite Hother].
    destruct l as [tk p]. cbn [rl_tree_key rl_leaf] in *. subst tk. destruct (Lold p h (Hin h p Hh Hlp) Hlev) as [(h' & [_ Hh']%tree_header_some & ?)|?]; [left; by exists h'|by right].
  - intros l s [Hlb Hlp] Hs. destruct (decide (rl_tree_key l = tree_key)) as [E|N].
    2: { left. destruct l as [tk p]. unfold MembershipSpec.synopsis_at, synopsis_key in *. rewrite <-Fo; [done|done|]. intros p' [= ->]. by cbn in N. }
    destruct l as [tk p]. cbn [rl_tree_key rl_leaf] in *. subst tk. unfold MembershipSpec.synopsis_at, synopsis_key in *. cbn [rl_tree_key rl_leaf] in *.
    destruct (Fs p) as [E|[Hno|[E Hn]]]; [left; congruence|by apply Hno in Hs|]. right. rewrite E in Hs. injection Hs as <-.
    split; [apply empty_synopsis_admitted|]. intros h Hh _. unfold MembershipSpec.header_at, header_key in Hh. cbn [rl_tree_key rl_leaf] in Hh. congruence.
Qed.
End membership.

(** ** Every transaction keeps the invariants *)
Module TopologyOp.
Inductive t :=
  | BeginSplit (source started_at : Z)
  | ExposeSplitTargets (source left_ : Z) (left_centroid : list Z) (right_ : Z) (right_centroid : list Z) (started_at : Z) (parent : option Z)
  | FinalizeSplit (source started_at : Z) (removal : SourceRemoval.t) (parent : option Z)
  | UpdateCentroid (partition parent : Z) (centroid : list Z)
  | BeginMerge (source started_at : Z)
  | FinalizeMerge (source : Z) (removal : SourceRemoval.t) (parent : option Z).
End TopologyOp.
Definition op_typed (op : TopologyOp.t) : Prop :=
  match op with
  | TopologyOp.BeginSplit source started_at | TopologyOp.BeginMerge source started_at => id_ok source ∧ u64_ok started_at
  | TopologyOp.ExposeSplitTargets source _ cl _ cr started_at parent => id_ok source ∧ u64_ok started_at ∧ centroid_ok cl ∧ centroid_ok cr ∧ hint_ok parent
  | TopologyOp.FinalizeSplit source started_at _ parent => id_ok source ∧ u64_ok started_at ∧ hint_ok parent
  | TopologyOp.UpdateCentroid partition parent centroid => id_ok partition ∧ id_ok parent ∧ centroid_ok centroid
  | TopologyOp.FinalizeMerge source _ parent => id_ok source ∧ hint_ok parent
  end.
Section safety.
Context (xxh3_128 : Z → list Z → Z) (sha256 : list Z → list Z) {T : Type} `{WriteLaws T}.
Context (m : IndexManifest) (Hm : manifest_ok m) (types : list DataType.t) (tree_key : list Z) (Htk : bytes_ok tree_key) (fuel : nat).
Abbreviation ix := (im_logical_index_id m).
Abbreviation tree_of := (TransitionsSpec.tree_of ix tree_key).
Abbreviation typed_view := (LogicalSpec.typed_view xxh3_128 sha256).
Abbreviation acts := (TransitionsRefine.acts xxh3_128 sha256 m types tree_key).
Abbreviation unchanged := (TransitionsRefine.unchanged xxh3_128 sha256 m types).
Implicit Types (t : WriteLogicalTxn T).
Definition run_op (op : TopologyOp.t) : M (WriteLogicalTxn T) unit :=
  match op with
  | TopologyOp.BeginSplit source started_at => let! _ := begin_split xxh3_128 sha256 tree_key source started_at in m_ret tt
  | TopologyOp.ExposeSplitTargets source l cl r cr started_at parent =>
      let! _ := expose_split_targets_with_parent xxh3_128 sha256 fuel tree_key source l cl r cr started_at parent in m_ret tt
  | TopologyOp.FinalizeSplit source started_at removal parent =>
      let! _ := finalize_split_with_parent xxh3_128 sha256 fuel tree_key source started_at removal parent in m_ret tt
  | TopologyOp.UpdateCentroid partition parent centroid => update_centroid xxh3_128 sha256 tree_key partition parent centroid
  | TopologyOp.BeginMerge source started_at => let! _ := begin_merge xxh3_128 sha256 fuel tree_key source started_at in m_ret tt
  | TopologyOp.FinalizeMerge source removal parent =>
      let! _ := finalize_merge_with_parent xxh3_128 sha256 fuel tree_key source removal parent in m_ret tt
  end.
(** Nothing changed, or one transition within its frame. *)
Definition moved (f g : typed_map) : Prop :=
  same_map g f ∨ ∃ a E, same_map g (E f) ∧ transition a (tree_of f) (tree_of (E f)) ∧ frame m tree_key f (E f).
Lemma unchanged_moved f t t' : over xxh3_128 sha256 m types f t → unchanged f t t' → bound t' m types ∧ moved f (typed_view t').
Proof. intros _ (ks & [[Hb Hv] _ _]). split; [done|by left]. Qed.
Lemma acts_moved f t t' a plain : tree_ok (tree_of f) → acts f t a plain t' → bound t' m types ∧ moved f (typed_view t').
Proof.
  intros Hok (E & ks & [[Hb Hv] _ _] & _ & Hg). split; [done|]. right. exists a, E. split; [done|]. apply Hg; [|done]. by apply Forall_forall.
Qed.
Lemma moved_keeps f g :
  tree_ok (tree_of f) → intact xxh3_128 m Hm f → moved f g → tree_ok (tree_of g) ∧ intact xxh3_128 m Hm g.
Proof.
  assert (id_ok ix) as Hix by by destruct Hm. intros Hok Hi [E|(a & E & Eg & Htr & Hfr)].
  - split; [by rewrite (tree_of_proper _ _ _ _ Hix Htk E)|by eapply same_map_intact].
  - split; [rewrite (tree_of_proper _ _ _ _ Hix Htk Eg); eapply step_ok; [exact Hok|left; by eexists]|].
    eapply same_map_intact; [exact Eg|]. eapply quiet_intact; [exact Hi|]. by eapply transition_quiet.
Qed.
Lemma run_op_moves op t :
  bound t m types → op_typed op → (size (lt_view t) + 4 < fuel)%nat → tree_ok (tree_of (typed_view t)) →
  wp (run_op op) (λ _ t', bound t' m types ∧ moved (typed_view t) (typed_view t')) (λ _ t', same_txn t t') t.
Proof.
  intros Hb Hop Hfuel Hok. assert (over xxh3_128 sha256 m types (typed_view t) t) as Ho by by split.
  assert (fueled (lt_view t) fuel) as Hf by (unfold fueled; lia). assert (fueled (lt_view t) (fuel - 4)) as Hf4 by (unfold fueled; lia).
  pose proof (λ t', unchanged_moved _ t t' Ho) as Hun. pose proof (λ t' a plain, acts_moved _ t t' a plain Hok) as Hact.
  destruct op; cbn [run_op op_typed] in *; destruct_and?.
  - eapply wp_step; [by eapply begin_split_refines|done|]. intros [] t' [Hr _]; apply wp_ret; [by eapply Hact|by apply Hun..].
  - eapply wp_step; [by eapply expose_split_targets_refines|done|]. intros [] t' Hr; apply wp_ret; [by eapply Hact|by apply Hun, Hr..].
  - eapply wp_step; [by eapply finalize_split_refines|done|].
    intros [] t' Hr; apply wp_ret; [destruct Hr as [(plain & Hr & _)|[Hr _]]; [by eapply Hact|by apply Hun]|by apply Hun, Hr..].
  - eapply wp_mono; [by eapply update_centroid_refines| |done]. intros [] t' [Hr|[Hr _]]; [by eapply Hact|by apply Hun].
  - eapply wp_step; [by eapply begin_merge_refines|done|]. intros [] t' Hr; apply wp_ret; [by eapply Hact, Hr|by apply Hun, Hr..].
  - eapply wp_step; [by eapply finalize_merge_refines|done|].
    intros [] t' Hr; apply wp_ret; [destruct Hr as [Hr|[Hr _]]; [by eapply Hact|by apply Hun]|by apply Hun, Hr..].
Qed.
End safety.

(** C10: Every topology transaction keeps the tree and its records: begin,
    exposure and completion of a split, begin and completion of a merge and a
    centroid update never panic, and one that succeeds on a tree in which
    authority pairs agree, splits and their targets match, every partition has
    its one incoming edge at the right level with its centroid and every
    internal count is exact leaves such a tree, with record membership intact. *)
Theorem topology_keeps_invariants {T} `{WriteLaws T} xxh3_128 sha256 m (Hm : manifest_ok m) types tree_key fuel op (t t' : WriteLogicalTxn T) r :
  bound t m types → bytes_ok tree_key → op_typed op → (size (lt_view t) + 4 < fuel)%nat →
  tree_ok (tree_of (im_logical_index_id m) tree_key (typed_view xxh3_128 sha256 t)) → intact xxh3_128 m Hm (typed_view xxh3_128 sha256 t) →
  run_op xxh3_128 sha256 tree_key fuel op t = (t', r) →
  no_panic r ∧
  (r = Ok tt → tree_ok (tree_of (im_logical_index_id m) tree_key (typed_view xxh3_128 sha256 t')) ∧ intact xxh3_128 m Hm (typed_view xxh3_128 sha256 t')).
Proof.
  intros Hb Htk Hop Hfuel Hok Hi Hrun. pose proof (run_op_moves xxh3_128 sha256 m Hm types tree_key Htk fuel op t Hb Hop Hfuel Hok) as Hw.
  unfold wp in Hw. rewrite Hrun in Hw. split; [by destruct r|]. intros ->. destruct Hw as [_ Hw]. by eapply moved_keeps.
Qed.

(** C11: Splits refine the protocol.  Each outcome of the three transactions of a
    split tells what the source was (oversized and Ready, already splitting,
    drained, gone, under a parent that takes no children, ...).  Either the
    transaction's view is unchanged, or it is its snapshot changed by one fixed
    list of puts, deletes and partition clears, and these same writes are the one
    transition the outcome names: reserving two fresh targets and marking the
    source, creating both targets with the parent's edges (none for the root) and
    marking the source draining, or promoting both targets and removing the
    drained source (or turning the root into their parent).  The writes are fixed
    before the tree is chosen, and are that transition on every well-formed tree
    that agrees with the snapshot on the keys the transaction has read under
    update protection (and, for the root, on the centroids of the two targets):
    what was read without protection cannot be lost. *)
Theorem splits_refine_protocol {T} `{WriteLaws T} xxh3_128 sha256 m types tree_key fuel source l cl r cr started_at removal parent (t : WriteLogicalTxn T) :
  bound t m types → bytes_ok tree_key → id_ok source → u64_ok started_at → centroid_ok cl → centroid_ok cr → hint_ok parent →
  (size (lt_view t) + 4 < fuel)%nat →
  let f := typed_view xxh3_128 sha256 t in
  wp (begin_split xxh3_128 sha256 tree_key source started_at)
    (split_start xxh3_128 sha256 m types tree_key f t source started_at) (λ _ t', same_txn t t') t ∧
  wp (expose_split_targets_with_parent xxh3_128 sha256 fuel tree_key source l cl r cr started_at parent)
    (exposure xxh3_128 sha256 m types tree_key f t source l r cl cr started_at) (λ _ t', same_txn t t') t ∧
  wp (finalize_split_with_parent xxh3_128 sha256 fuel tree_key source started_at removal parent)
    (split_completion xxh3_128 sha256 m types tree_key f t source started_at) (λ _ t', same_txn t t') t.
Proof.
  intros Hb Htk Hs Hat Hcl Hcr Hhint Hfuel f. destruct (bound_index _ _ _ Hb) as [Hm _].
  assert (over xxh3_128 sha256 m types f t) as Ho by by split.
  assert (fueled (lt_view t) fuel ∧ fueled (lt_view t) (fuel - 4)) as [? ?] by (unfold fueled; lia).
  split_and!; [by apply begin_split_refines|by apply expose_split_targets_refines|by apply finalize_split_refines].
Qed.

(** C12: Merges refine the protocol.  Beginning one marks an undersized Ready
    non-root source whose level has another Ready partition in the snapshot, and
    reports NoReadyTarget only when the walk reaches none; completing one removes
    a drained Merging source with its incoming edge, by point deletes or by a
    range clear, and is a no-op when the source is gone; every other outcome tells
    why and leaves the view unchanged.  As for splits, the writes are one fixed list, which is
    the protocol's transition on every well-formed tree that agrees with the keys
    read under update protection. *)
Theorem merges_refine_protocol {T} `{WriteLaws T} xxh3_128 sha256 m types tree_key fuel source started_at removal parent (t : WriteLogicalTxn T) :
  bound t m types → bytes_ok tree_key → id_ok source → u64_ok started_at → hint_ok parent → (size (lt_view t) < fuel)%nat →
  let f := typed_view xxh3_128 sha256 t in
  wp (begin_merge xxh3_128 sha256 fuel tree_key source started_at)
    (merge_start xxh3_128 sha256 m types tree_key f t source started_at) (λ _ t', same_txn t t') t ∧
  wp (finalize_merge_with_parent xxh3_128 sha256 fuel tree_key source removal parent)
    (merge_completion xxh3_128 sha256 m types tree_key f t source) (λ _ t', same_txn t t') t.
Proof.
  intros Hb Htk Hs Hat Hhint Hfuel f. destruct (bound_index _ _ _ Hb) as [Hm _].
  assert (over xxh3_128 sha256 m types f t) as Ho by by split.
  split; [by apply begin_merge_refines|by apply finalize_merge_refines].
Qed.

(** ** A tree with a drained merge *)
Definition sample_header (level count : Z) (s : PartitionState.t) : option PersistentValue.t := Some (PersistentValue.PartitionHeader (mkPartitionHeader level count 0 s)).
Definition sample_merge_writes : list (LogicalKey.t * option PersistentValue.t) :=
  [(LogicalKey.TreeManifest 7 sample_tree_key, Some (PersistentValue.TreeManifest (mkTreeManifest 1 2)));
   (LogicalKey.Header 7 sample_tree_key 1, sample_header 2 1 PartitionState.Ready);
   (LogicalKey.State 7 sample_tree_key 1, Some (PersistentValue.PartitionState (PartitionTransition.Ready 5)));
   (LogicalKey.Header 7 sample_tree_key 2, sample_header 1 0 PartitionState.Merging);
   (LogicalKey.State 7 sample_tree_key 2, Some (PersistentValue.PartitionState (PartitionTransition.Merging 6)));
   (LogicalKey.Centroid 7 sample_tree_key 2, Some (PersistentValue.PartitionCentroid [0; 0]));
   (LogicalKey.ChildEntry 7 sample_tree_key 1 2, Some (PersistentValue.ChildEntry (mkChildEntry 2 [0; 0])))].
Definition sample_merging : WriteLogicalTxn WriteTxn := (mutate sample_hash (λ bs, bs) sample_merge_writes sample_write).1.
Lemma sample_merging_wrote :
  typed_wrote sample_hash (λ bs, bs) sample_write sample_merging (foldl set_typed (typed_view sample_hash (λ bs, bs) sample_write) sample_merge_writes).
Proof.
  pose proof (over_mutate sample_hash (λ bs, bs) sample_manifest [DataType.F64] (typed_view sample_hash (λ bs, bs) sample_write) sample_write sample_merge_writes) as Hw.
  unfold wp in Hw. assert (is_ok (mutate sample_hash (λ bs, bs) sample_merge_writes sample_write).2 = true) as E by (vm_compute; reflexivity).
  unfold sample_merging. destruct (mutate _ _ _ _) as [t' [[]|e|]]; [|done..]. cbn [fst]. apply Hw; [split; [apply sample_write_bound|done]|].
  assert (∀ P : ∀ m, manifest_ok m → Prop, P sample_manifest sample_manifest_ok → bound_to (Some sample_manifest) P) as Hb.
  { intros P HP. by exists sample_manifest, sample_manifest_ok. }
  unfold sample_merge_writes, sample_header. each; (split; [dec_compute|]); intros x [= <-]; apply Hb; split; dec_compute.
Qed.
Lemma sample_merging_bound : bound sample_merging sample_manifest [DataType.F64].
Proof. eapply bound_mono; [apply sample_write_bound|apply sample_merging_wrote]. Qed.
Lemma sample_write_empty key v : typed_view sample_hash (λ bs, bs) sample_write key ≠ Ok (Some v).
Proof.
  unfold typed_view, typed_at. change (lt_view sample_write) with (∅ : store). intros (k & _ & E)%bind_ok. by rewrite lookup_empty in E.
Qed.
Definition empty_tree : Tree := mkTree 0 (λ _, None) (λ _, None) (λ _, None) (λ _, None).
Lemma empty_tree_of g i tk : (∀ key v, g key ≠ Ok (Some v)) → TransitionsSpec.tree_of i tk g ≡ empty_tree.
Proof.
  intros Hg. assert (∀ key, match g key with Ok (Some _) => False | _ => True end) as Hno.
  { intros key. destruct (g key) as [[v|]| |] eqn:E; try done. by apply Hg in E. }
  unfold header_value, state_value, edge_value, centroid_value, high_water_value.
  split_and!; cbn; intros; unfold at_id, header_value, state_value, edge_value, centroid_value, high_water_value; repeat case_decide; try done;
    match goal with |- context [g ?k] => specialize (Hno k); by destruct (g k) as [[]| |] end.
Qed.
Definition sample_merging_tree : Tree :=
  set_tree_edge 1 2 (Some (mkChildEntry 2 [0; 0])) (set_tree_centroid 2 (Some [0; 0])
    (set_tree_state 2 (Some (PartitionTransition.Merging 6)) (set_tree_header 2 (Some (mkPartitionHeader 1 0 0 PartitionState.Merging))
      (set_tree_state 1 (Some (PartitionTransition.Ready 5)) (set_tree_header 1 (Some (mkPartitionHeader 2 1 0 PartitionState.Ready))
        (set_high_water 2 empty_tree)))))).
Lemma sample_merging_tree_of : TransitionsSpec.tree_of 7 sample_tree_key (typed_view sample_hash (λ bs, bs) sample_merging) ≡ sample_merging_tree.
Proof.
  rewrite (tree_of_proper 7 sample_tree_key _ _ ltac:(dec_compute) ltac:(dec_compute) (tw_view _ _ _ _ _ sample_merging_wrote)).
  unfold sample_merge_writes. cbn [foldl].
  rewrite tree_set_edge, tree_set_centroid, tree_set_state, tree_set_header, tree_set_state, tree_set_header, tree_set_manifest, empty_tree_of;
    [done|apply sample_write_empty|dec_compute..].
Qed.
Ltac sample_case := unfold sample_merging_tree, heads_of, authority_of in *; cbn in *; unfold base.insert, fn_insert in *; repeat case_decide; simplify_eq; try done.
Lemma sample_merging_tree_ok : tree_ok sample_merging_tree.
Proof.
  split; [intros p; sample_case|..].
  - assert (∀ p, authority_of sample_merging_tree p =
      if decide (p = 1) then Some (2, PartitionTransition.Ready 5) else if decide (p = 2) then Some (1, PartitionTransition.Merging 6) else None) as E by (intros p; sample_case).
    split; setoid_rewrite E.
    + exists 2, (PartitionTransition.Ready 5). by split.
    + intros p. change (tr_high_water sample_merging_tree) with 2. repeat case_decide; [lia..|by intros []].
    + intros p l s lr. repeat case_decide; intros; simplify_eq; done.
    + intros p l lt rt at0 q. repeat case_decide; intros; simplify_eq; done.
    + intros p l lt rt at0 q. repeat case_decide; intros; simplify_eq; done.
    + intros q l s at0. repeat case_decide; intros; simplify_eq; done.
    + intros p l s lr p' l' s' lr' q. repeat case_decide; intros; simplify_eq; done.
  - assert (∀ p c, tr_edge sample_merging_tree (p, c) = if decide ((p, c) = (1, 2)) then Some (mkChildEntry 2 [0; 0]) else None) as E by (intros p c; sample_case).
    assert (∀ p, heads_of sample_merging_tree p = if decide (p = 1) then Some (2, 1) else if decide (p = 2) then Some (1, 0) else None) as Eh by (intros p; sample_case).
    split; setoid_rewrite E || idtac; setoid_rewrite Eh || idtac.
    + intros p c e. case_decide; [|done]. intros [= <-]. simplify_eq. split_and!; try done. by exists 1, 0, 1.
    + intros p q c. repeat case_decide; try (by intros []); try (by intros ? []). congruence.
    + intros p l n. repeat case_decide; subst; intros; simplify_eq; try done. exists [2]. split_and!; [apply NoDup_singleton| |done].
      intros c. rewrite E, list_elem_of_singleton. case_decide as Ec; [injection Ec as ->; split; [by eexists|done]|split; [intros ->; congruence|by intros []]].
    + intros p. repeat case_decide; subst; [by left| |by intros []]. intros _. right. split; [by eexists|]. left. exists 1. rewrite ?E. by eexists.
    + intros p l n. repeat case_decide; subst; intros; simplify_eq; (split; [lia|]); intros lr nr [= <- <-]; lia.
Qed.
Lemma sample_merging_intact : intact sample_hash sample_manifest sample_manifest_ok (typed_view sample_hash (λ bs, bs) sample_merging).
Proof.
  pose proof (tw_view _ _ _ _ _ sample_merging_wrote) as Hv. eapply same_map_intact; [exact Hv|].
  assert (∀ key v, foldl set_typed (typed_view sample_hash (λ bs, bs) sample_write) sample_merge_writes key = Ok (Some v) → (key, Some v) ∈ sample_merge_writes) as Hin.
  { intros key v. destruct (set_all_cases (typed_view sample_hash (λ bs, bs) sample_write) sample_merge_writes key) as [[-> _]|(w & Hw & ->)]; [by intros ?%sample_write_empty|].
    by intros [= <-]. }
  eapply quiet_intact; [apply (empty_intact sample_hash sample_manifest sample_manifest_ok), sample_write_empty|]. split.
  - intros key v _ [id Hid] _. split; [|by intros ?%sample_write_empty]. intros Hk%Hin. unfold sample_merge_writes in Hk.
    repeat (apply elem_of_cons in Hk as [[= -> ->]|Hk]; [done|]). by apply elem_of_nil in Hk.
  - intros l h' _ Hh%Hin Hlev. right. split; [by intros ? ?%sample_write_empty|].
    unfold sample_merge_writes, sample_header, header_key in Hh. repeat (apply elem_of_cons in Hh as [Hh|Hh]; [try done; injection Hh; intros; by subst h'|]).
    by apply elem_of_nil in Hh.
  - by intros l h _ ?%sample_write_empty.
  - intros l s _ Hs%Hin. unfold sample_merge_writes in Hs. repeat (apply elem_of_cons in Hs as [?|Hs]; [done|]). by apply elem_of_nil in Hs.
Qed.
Lemma topology_keeps_invariants_witness :
  let run := run_op sample_hash (λ bs, bs) sample_tree_key 64 (TopologyOp.FinalizeMerge 2 SourceRemoval.PointDeletes None) sample_merging in
  run.2 = Ok tt ∧ tree_ok (TransitionsSpec.tree_of 7 sample_tree_key (typed_view sample_hash (λ bs, bs) run.1)) ∧
  typed_view sample_hash (λ bs, bs) run.1 (LogicalKey.Header 7 sample_tree_key 2) = Ok None.
Proof.
  cbv zeta. set (run := run_op _ _ _ _ _ _). assert (run.2 = Ok tt) as Er by (vm_compute; reflexivity). split; [exact Er|].
  split; [|vm_compute; reflexivity].
  destruct (topology_keeps_invariants sample_hash (λ bs, bs) sample_manifest sample_manifest_ok [DataType.F64] sample_tree_key 64
    (TopologyOp.FinalizeMerge 2 SourceRemoval.PointDeletes None) sample_merging run.1 run.2) as [_ H].
  - exact sample_merging_bound.
  - dec_compute.
  - split; [dec_compute|]. intros q [=].
  - vm_compute. lia.
  - eapply tree_ok_equiv; [exact sample_merging_tree_of|exact sample_merging_tree_ok].
  - exact sample_merging_intact.
  - unfold run. by destruct (run_op _ _ _ _ _ _).
  - by apply H.
Defined.
Lemma merges_refine_protocol_witness :
  let run := finalize_merge_with_parent sample_hash (λ bs, bs) 64 sample_tree_key 2 SourceRemoval.PointDeletes (Some 1) sample_merging in
  run.2 = Ok MergeCompletion.Completed ∧
  merge_completion sample_hash (λ bs, bs) sample_manifest [DataType.F64] sample_tree_key (typed_view sample_hash (λ bs, bs) sample_merging) sample_merging
    2 MergeCompletion.Completed run.1.
Proof.
  cbv zeta. set (run := finalize_merge_with_parent _ _ _ _ _ _ _ _). assert (run.2 = Ok MergeCompletion.Completed) as Er by (vm_compute; reflexivity). split; [exact Er|].
  destruct (merges_refine_protocol sample_hash (λ bs, bs) sample_manifest [DataType.F64] sample_tree_key 64 2 0 SourceRemoval.PointDeletes (Some 1) sample_merging) as [_ Hw].
  - exact sample_merging_bound.
  - dec_compute.
  - dec_compute.
  - dec_compute.
  - intros q [= <-]. dec_compute.
  - vm_compute. lia.
  - unfold wp in Hw. unfold run in *. destruct (finalize_merge_with_parent _ _ _ _ _ _ _ _) as [t' [o|e|]]; [|done..]. apply Ok_inj in Er as ->. exact Hw.
Defined.
(** A merge that is finished again after its completion reports it as completed,
    since the source's authority pair is gone. *)
Example redriven_merge_completes :
  let finish := finalize_merge sample_hash (λ bs, bs) 64 sample_tree_key 2 SourceRemoval.PointDeletes in
  (finish sample_merging).2 = Ok MergeCompletion.Completed ∧ (finish (finish sample_merging).1).2 = Ok MergeCompletion.Completed.
Proof. split; vm_compute; reflexivity. Qed.
(** A root leaf with more entries than fit. *)
Definition sample_full : WriteLogicalTxn WriteTxn :=
  (Logical.put sample_hash (λ bs, bs) (LogicalKey.Header 7 sample_tree_key 1) (PersistentValue.PartitionHeader (mkPartitionHeader 1 1000000 0 PartitionState.Ready)) sample_tree).1.
Lemma sample_full_bound : bound sample_full sample_manifest [DataType.F64].
Proof.
  pose proof (over_put sample_hash (λ bs, bs) sample_manifest [DataType.F64] (typed_view sample_hash (λ bs, bs) sample_tree) sample_tree
    (LogicalKey.Header 7 sample_tree_key 1) (PersistentValue.PartitionHeader (mkPartitionHeader 1 1000000 0 PartitionState.Ready))) as Hw.
  unfold wp in Hw. assert (is_ok (Logical.put sample_hash (λ bs, bs) (LogicalKey.Header 7 sample_tree_key 1)
    (PersistentValue.PartitionHeader (mkPartitionHeader 1 1000000 0 PartitionState.Ready)) sample_tree).2 = true) as E by (vm_compute; reflexivity).
  unfold sample_full. destruct (Logical.put _ _ _ _ _) as [t' [[]|e|]]; [|done..]. cbn [fst].
  eapply bound_mono; [apply sample_tree_bound|]. apply Hw; [split; [apply sample_tree_bound|done]|].
  apply (put_header_ok sample_hash (λ bs, bs) sample_manifest sample_manifest_ok sample_tree_key); dec_compute.
Qed.
Lemma splits_refine_protocol_witness :
  let run := begin_split sample_hash (λ bs, bs) sample_tree_key 1 9 sample_full in
  run.2 = Ok (SplitStart.Started 2 3) ∧
  acts sample_hash (λ bs, bs) sample_manifest [DataType.F64] sample_tree_key (typed_view sample_hash (λ bs, bs) sample_full) sample_full
    (BeginSplit 1 2 3 9) [] run.1.
Proof.
  cbv zeta. set (run := begin_split _ _ _ _ _ _). assert (run.2 = Ok (SplitStart.Started 2 3)) as Er by (vm_compute; reflexivity). split; [exact Er|].
  destruct (splits_refine_protocol sample_hash (λ bs, bs) sample_manifest [DataType.F64] sample_tree_key 64 1 2 [0; 0] 3 [0; 0] 9 SourceRemoval.PointDeletes None sample_full) as [Hw _].
  - exact sample_full_bound.
  - dec_compute.
  - dec_compute.
  - dec_compute.
  - split; dec_compute.
  - split; dec_compute.
  - intros q [=].
  - vm_compute. lia.
  - unfold wp in Hw. unfold run in *. destruct (begin_split _ _ _ _ _ _) as [t' [o|e|]]; [|done..]. apply Ok_inj in Er as ->. exact (proj1 Hw).
Defined.

(** ** Discovery is exact *)
Section reachable.
Context (m : IndexManifest) (tree_key : list Z).
Abbreviation ix := (im_logical_index_id m).
Abbreviation tree_of := (TransitionsSpec.tree_of ix tree_key).
Implicit Types (g : typed_map) (p q : Z).
Lemma tree_edge_some g p q e :
  tr_edge (tree_of g) (p, q) = Some e ↔ id_ok p ∧ id_ok q ∧ edge_in m tree_key g p q e.
Proof.
  cbn. unfold at_id, edge_value, edge_in. repeat case_decide; [|naive_solver..]. split; [|by intros (_ & _ & ->)]. repeat case_match; try done.
  intros [= ->]. by subst.
Qed.
Lemma tree_state_some g p s :
  tr_state (tree_of g) p = Some s → state_in m tree_key g p s.
Proof. cbn. unfold at_id, state_value, state_in. case_decide; [|done]. repeat case_match; try done. intros [= ->]. by subst. Qed.
(** In a well-formed tree the walk from the root reaches every partition. *)
Lemma tree_reaches g p h : tree_ok (tree_of g) → tr_header (tree_of g) p = Some h → at_level m tree_key g (ph_level h) p.
Proof.
  intros Hok Hh. destruct (au_root _ _ (ok_authority _ Hok)) as (lr & sr & Har & _). unfold authority_of in Har.
  destruct (tr_header (tree_of g) root_partition) as [hr|] eqn:Hr; [|done]. destruct (tr_state (tree_of g) root_partition) as [sr'|] eqn:Hsr; [|done]. clear Har.
  pose proof (ok_edges _ Hok) as Hed. assert (∀ p h, tr_header (tree_of g) p = Some h → ph_level h ≤ ph_level hr) as Hbelow.
  { intros p' h' Hp'. destruct (lk_levels _ _ _ _ Hed p' _ (ph_entry_count h') (heads_header _ _ _ Hp')) as [_ Hle]. eapply Hle. by apply heads_header. }
  remember (Z.to_nat (ph_level hr - ph_level h)) as n eqn:En. revert p h Hh En. induction n as [n IH] using lt_wf_ind. intros p h Hh En.
  pose proof Hr as Hr'. apply tree_header_some in Hr' as [_ Hroot].
  destruct (lk_referenced _ _ _ _ Hed p) as [->|[_ [(q & e & He)|Hslot]]].
  - rewrite (heads_header _ _ _ Hh). by eexists.
  - assert (h = hr) as -> by congruence. by apply al_root.
  - destruct (lk_edge _ _ _ _ Hed _ _ _ He) as (_ & _ & _ & l & n1 & n2 & Hp & Hq). rewrite (heads_header _ _ _ Hh) in Hp. injection Hp as <- <-.
    unfold heads_of in Hq. destruct (tr_header (tree_of g) q) as [hq|] eqn:Ehq; [|done]. injection Hq as Elq _.
    apply tree_edge_some in He as (Hqid & Hpid & He). pose proof (Hbelow q hq Ehq).
    eapply al_child; [|exact Hpid|exact He]. rewrite <-Elq. eapply IH; [|exact Ehq|reflexivity]. lia.
  - destruct Hslot as (l & r & at0 & Hs & Hslot). assert (authority (tree_of g) root_partition hr (PartitionTransition.DrainingSplit l r at0)) as Ha by by split.
    destruct (draining_targets _ _ _ _ _ _ Hok Ha) as [_ Ht]. destruct (Ht p Hslot) as (Hne & _ & h' & at1 & [Hh' _] & El). simplify_eq. rewrite El.
    apply al_slot; [done|]. exists (PartitionTransition.DrainingSplit l r at0). split_and!; [by apply tree_state_some| |done|by left].
    cbn [root_slots]. destruct Hslot as [-> | ->]; [by left|by right; left].
Qed.
End reachable.

(** The tree a reader's snapshot holds. *)
Definition reader_tree {R} xxh3_128 sha256 `{ReaderLaws xxh3_128 sha256 R} m tree_key (r : R) : Tree :=
  tree_of (im_logical_index_id m) tree_key (typed_at xxh3_128 sha256 (rdr_binding r) (rdr_store r)).
(** C14: Discovery of incoming edges is exact: in a well-formed tree, whatever
    typed reader serves it, the walk from the root (through the slots of a
    draining root) never panics and leaves the reader's snapshot alone, and an
    answer for a partition is its incoming edge, the only one in the tree, or
    nothing when it has none. *)
Theorem incoming_edge_exact {R} xxh3_128 sha256 `{ReaderLaws xxh3_128 sha256 R} m types tree_key partition h fuel (r r' : R) found :
  rdr_ok r → binding_ok (rdr_binding r) types → lb_manifest (rdr_binding r) = Some m → bytes_ok tree_key → id_ok partition →
  (size (rdr_store r) < fuel)%nat →
  tree_ok (reader_tree xxh3_128 sha256 m tree_key r) → tr_header (reader_tree xxh3_128 sha256 m tree_key r) partition = Some h →
  find_incoming_edge fuel m tree_key partition (ph_level h) r = (r', found) →
  no_panic found ∧ rdr_keeps r r' ∧ ∀ o, found = Ok o → ∀ q e, o = Some (q, e) ↔ tr_edge (reader_tree xxh3_128 sha256 m tree_key r) (q, partition) = Some e.
Proof.
  set (tree := reader_tree xxh3_128 sha256 m tree_key r). intros Hok Hb Em Htk Hp Hfuel Htree Hh Hrun.
  pose proof (find_incoming_edge_spec xxh3_128 sha256 _ types Hb (rdr_store r) m Em tree_key Htk (rdr_store_ok r Hok) fuel Hfuel partition (ph_level h) r
    (conj Hok (conj eq_refl eq_refl)) Hp) as Hw. unfold wp in Hw. rewrite Hrun in Hw.
  split; [by destruct found|]. split; [by destruct found as [o|e|]; [apply Hw|apply Hw|]|]. intros o ->. destruct Hw as (_ & Hone & _).
  assert (∀ q e, tr_edge tree (q, partition) = Some e → at_level m tree_key (typed_at xxh3_128 sha256 (rdr_binding r) (rdr_store r)) (ph_level h + 1) q ∧
    edge_in m tree_key (typed_at xxh3_128 sha256 (rdr_binding r) (rdr_store r)) q partition e) as Hall.
  { intros q e He. destruct (lk_edge _ _ _ _ (ok_edges _ Htree) _ _ _ He) as (_ & _ & _ & l & n1 & n2 & Hp' & Hq').
    rewrite (heads_header _ _ _ Hh) in Hp'. injection Hp' as <- <-. unfold heads_of in Hq'. destruct (tr_header tree q) as [hq|] eqn:Ehq; [|done]. injection Hq' as <- _.
    split; [by apply tree_reaches|]. by apply tree_edge_some in He as (_ & _ & ?). }
  intros q e. destruct o as [[q' e']|]; cbn [only_edge] in Hone.
  - destruct Hone as (Hat & He' & Huniq). split.
    + intros [= <- <-]. apply tree_edge_some. split_and!; [|done|done].
      by eapply (at_level_id xxh3_128 sha256 _ types Hb _ m tree_key (rdr_store_ok r Hok)).
    + intros He. destruct (Hall q e He) as [Hq Hqe]. rewrite (Huniq _ _ Hq Hqe) in Hqe. unfold edge_in in *. rewrite He' in Hqe. injection Hqe as <-.
      by rewrite (Huniq _ _ Hq (proj2 (Hall q e' He))).
  - split; [done|]. intros He. destruct (Hall q e He) as [Hq Hqe]. by apply Hone in Hqe.
Qed.
Lemma incoming_edge_exact_witness :
  (find_incoming_edge (H := write_txn_reader sample_hash (λ bs, bs) WriteTxn) 64 sample_manifest sample_tree_key 2 1 sample_merging).2
    = Ok (Some (1, mkChildEntry 2 [0; 0])) ∧
  ∀ q e, Some (1, mkChildEntry 2 [0; 0]) = Some (q, e) ↔
    tr_edge (TransitionsSpec.tree_of 7 sample_tree_key (typed_view sample_hash (λ bs, bs) sample_merging)) (q, 2) = Some e.
Proof.
  set (run := find_incoming_edge _ _ _ _ _ _). assert (run.2 = Ok (Some (1, mkChildEntry 2 [0; 0]))) as Er by (vm_compute; reflexivity). split; [exact Er|].
  destruct (incoming_edge_exact sample_hash (λ bs, bs) (H0 := write_txn_laws sample_hash (λ bs, bs) WriteTxn) sample_manifest [DataType.F64] sample_tree_key 2
    (mkPartitionHeader 1 0 0 PartitionState.Merging) 64 sample_merging run.1 run.2) as (_ & _ & Ho).
  - exact (rdy_coherent _ _ (bd_ready _ _ _ sample_merging_bound)).
  - exact (rdy_binding _ _ (bd_ready _ _ _ sample_merging_bound)).
  - exact (bd_manifest _ _ _ sample_merging_bound).
  - dec_compute.
  - dec_compute.
  - vm_compute. lia.
  - eapply tree_ok_equiv; [exact sample_merging_tree_of|exact sample_merging_tree_ok].
  - destruct sample_merging_tree_of as (_ & E & _). etrans; [exact (E 2)|]. vm_compute. reflexivity.
  - unfold run. by destruct (find_incoming_edge _ _ _ _ _ _).
  - exact (Ho _ Er).
Defined.
