(* ===== verification/ChildMoves.v ===== *)
(** Moves of Child Entries (src/src/storage/topology/relocation.rs): a drain
    batch of an internal partition performs the protocol's moves one after the
    other. *)
From stdpp Require Import gmap sorting functions.
From S2P Require Import Prelude RustStd Api TreeKey Keys KeyRanges RaBitQ Manifest Wire ValueData Records Synopsis Values Config Backend Memory Txn Codec Logical TreeOps Membership LogicalSpec MembershipSpec MembershipInv Mutate MutateSpec Relocation RelocationSpec Reader Discovery DiscoverySpec Transitions Protocol TransitionsSpec TransitionsRefine TopologySafety.

(** ** Moves of the protocol *)
Abbreviation child_moves := (list (ChildEntry * Z)).
Inductive move_all (s : Z) : child_moves → Tree → Tree → Prop :=
  | move_all_nil T T' : T' ≡ T → move_all s [] T T'
  | move_all_cons e t moves T U T' : transition (MoveChild s t (ce_child e)) T U → move_all s moves U T' → move_all s ((e, t) :: moves) T T'.
Lemma move_all_ok s moves T T' : tree_ok T → move_all s moves T T' → tree_ok T'.
Proof.
  intros Hok Hm. induction Hm as [T T' ->|e t moves T U T' Htr _ IH]; [done|]. apply IH. eapply step_ok; [exact Hok|left; by eexists].
Qed.
Lemma move_all_equiv s moves T U V : V ≡ U → move_all s moves T U → move_all s moves T V.
Proof.
  intros E Hm. induction Hm as [T T' ET|e t moves T W T' Htr _ IH]; [constructor; by etrans|]. eapply move_all_cons; [exact Htr|by apply IH].
Qed.
Definition edges_moved (s : Z) (moves : child_moves) (T : Tree) : Tree :=
  foldl (λ T '(e, t), set_tree_edge s (ce_child e) None (set_tree_edge t (ce_child e) (Some e) T)) T moves.
Definition received (t : Z) (moves : child_moves) : Z := len (filter (λ move, move.2 = t) moves).
Lemma received_here e t moves : received t ((e, t) :: moves) = 1 + received t moves.
Proof. unfold received. rewrite filter_cons. cbn [snd]. case_decide; [|done]. unfold len. cbn [length]. lia. Qed.
Lemma received_other e t t' moves : t' ≠ t → received t' ((e, t) :: moves) = received t' moves.
Proof. intros N. unfold received. rewrite filter_cons. cbn [snd]. case_decide; [|done]. congruence. Qed.
Lemma received_none t moves : t ∉ moves.*2 → received t moves = 0.
Proof.
  induction moves as [|[e t'] moves IH]; [done|]. rewrite fmap_cons. intros [N Hn]%not_elem_of_cons. cbn [snd] in N. rewrite received_other by done. by apply IH.
Qed.
(** Level, state and count change as by [n] entries, and the epoch is the final
    one from the first move on. *)
Definition counted (n : Z) (h h' : PartitionHeader) : PartitionHeader := mkPartitionHeader (ph_level h) (ph_entry_count h + n) (ph_cache_epoch h') (ph_state h).
Lemma counted_final n h h' : recounts n h h' → counted n h h' = h'.
Proof. intros (El & Es & Ec). destruct h'. cbn in *. unfold counted. cbn. congruence. Qed.
Record final_tree (s : Z) (hs' : PartitionHeader) (ht' : Z → PartitionHeader) (moves : child_moves) (T T' : Tree) : Prop := {
  fn_high_water : tr_high_water T' = tr_high_water T;
  fn_state p : tr_state T' p = tr_state T p;
  fn_centroid p : tr_centroid T' p = tr_centroid T p;
  fn_edge e : tr_edge T' e = tr_edge (edges_moved s moves T) e;
  fn_source : tr_header T' s = if decide (moves = []) then tr_header T s else Some hs';
  fn_header p : p ≠ s → tr_header T' p = if decide (p ∈ moves.*2) then Some (ht' p) else tr_header T p;
}.
Lemma final_tree_proper s hs' ht' moves T U V : V ≡ U → final_tree s hs' ht' moves T U → final_tree s hs' ht' moves T V.
Proof. intros (E1 & E2 & E3 & E4 & E5) [F1 F2 F3 F4 F5 F6]. split; intros; rewrite ?E1, ?E2, ?E3, ?E4, ?E5; auto. Qed.
Lemma edges_moved_other s moves T p c : c ∉ (ce_child ∘ fst <$> moves) → tr_edge (edges_moved s moves T) (p, c) = tr_edge T (p, c).
Proof.
  unfold edges_moved. revert T. induction moves as [|[e t] moves IH]; intros T Hc; [done|]. rewrite fmap_cons in Hc. apply not_elem_of_cons in Hc as [N Hc]. cbn in N.
  cbn [foldl]. rewrite IH by done. cbn. unfold base.insert, fn_insert. repeat case_decide; congruence.
Qed.
Lemma edges_moved_ext s moves T U e : (∀ e, tr_edge T e = tr_edge U e) → tr_edge (edges_moved s moves T) e = tr_edge (edges_moved s moves U) e.
Proof.
  unfold edges_moved. revert T U. induction moves as [|[x t] moves IH]; intros T U E; [apply E|]. cbn [foldl]. apply IH. intros e'. cbn.
  unfold base.insert, fn_insert. repeat case_decide; congruence.
Qed.
Lemma moves_reach s hs' ht' moves T T' hs :
  tr_header T s = Some hs → recounts (- len moves) hs hs' → NoDup (ce_child ∘ fst <$> moves) →
  Forall (λ '(e, t), t ≠ s ∧ tr_edge T (s, ce_child e) = Some e ∧ tr_edge T (t, ce_child e) = None ∧
    ∃ ht, tr_header T t = Some ht ∧ ph_level ht = ph_level hs ∧ recounts (received t moves) ht (ht' t)) moves →
  final_tree s hs' ht' moves T T' → move_all s moves T T'.
Proof.
  revert T hs. induction moves as [|[e t] moves IH]; intros T hs Hs Hrec Hnd Hmv Hfin.
  { constructor. destruct Hfin as [F1 F2 F3 F4 F5 F6]. split_and!; [done| |done|done|done]. intros p. destruct (decide (p = s)) as [->|N]; [by rewrite F5|].
    by rewrite F6, decide_False by (try done; by intros ?%elem_of_nil). }
  apply Forall_cons_iff in Hmv as [(Nt & He & Hn & ht & Ht & El & Hrt) Hmv]. rewrite fmap_cons in Hnd. apply list.NoDup_cons in Hnd as [Hc Hnd]. cbn [compose fst] in Hc.
  set (U := set_tree_header t (Some (counted 1 ht (ht' t))) (set_tree_header s (Some (counted (-1) hs hs'))
    (set_tree_edge s (ce_child e) None (set_tree_edge t (ce_child e) (Some e) T)))).
  eapply (move_all_cons s e t moves T U).
  - by eapply (step_move T U s t (ce_child e) e hs ht (counted (-1) hs hs') (counted 1 ht (ht' t))).
  - assert (∀ p, tr_header U p = if decide (p = t) then Some (counted 1 ht (ht' t)) else if decide (p = s) then Some (counted (-1) hs hs') else tr_header T p) as EU.
    { intros p. cbn. unfold base.insert, fn_insert. repeat case_decide; congruence. }
    assert (len ((e, t) :: moves) = 1 + len moves) as Elen by (unfold len; cbn [length]; lia).
    apply (IH U (counted (-1) hs hs')).
    + by rewrite EU, decide_False, decide_True.
    + destruct Hrec as (? & ? & ?). split_and!; [done|done|]. cbn. lia.
    + done.
    + apply Forall_forall. intros [e' t'] Hin. pose proof Hin as Hin'. eapply Forall_forall in Hmv; [|exact Hin]. cbn beta iota in Hmv.
      destruct Hmv as (Nt' & He' & Hn' & ht2 & Ht2 & El2 & Hrt2).
      assert (ce_child e' ≠ ce_child e) as Nc.
      { intros E. apply Hc. rewrite <-E. apply list_elem_of_fmap. exists (e', t'). split; [done|by apply list_elem_of_In]. }
      split_and!; [done|rewrite <-He'|rewrite <-Hn'|]; [cbn; unfold base.insert, fn_insert; repeat case_decide; congruence..|].
      rewrite EU. destruct (decide (t' = t)) as [->|N].
      * rewrite Ht in Ht2. injection Ht2 as <-. exists (counted 1 ht (ht' t)). rewrite received_here in Hrt. destruct Hrt as (? & ? & ?).
        split; [done|]. split; [done|]. split; [done|]. split; [done|]. cbn. lia.
      * rewrite decide_False by done. exists ht2. by rewrite received_other in Hrt2.
    + destruct Hfin as [F1 F2 F3 F4 F5 F6]. split; [done..| | |].
      * intros x. rewrite F4. unfold edges_moved. cbn [foldl]. by apply edges_moved_ext.
      * rewrite F5, (decide_False (P := (e, t) :: moves = [])) by done. destruct (decide (moves = [])) as [Em|]; [|done]. subst moves.
        rewrite EU, (decide_False (P := s = t)), decide_True by done. by rewrite counted_final.
      * intros p Np. rewrite F6 by done. rewrite fmap_cons. cbn [snd]. rewrite EU. destruct (decide (p ∈ moves.*2)); [by rewrite decide_True by (by right)|].
        destruct (decide (p = t)) as [->|N]; [|rewrite decide_False by (by apply not_elem_of_cons); by rewrite (decide_False (P := p = s))].
        rewrite decide_True by (by left). rewrite counted_final; [done|]. by rewrite received_here, received_none in Hrt.
Qed.

(** ** The batch *)
Definition put_tree_headers (ths : list (Z * PartitionHeader)) (T : Tree) : Tree := foldl (λ T '(p, h), set_tree_header p (Some h) T) T ths.
Lemma put_tree_headers_at ths T p :
  NoDup ths.*1 → tr_header (put_tree_headers ths T) p = match (list_to_map ths : gmap Z PartitionHeader) !! p with Some h => Some h | None => tr_header T p end.
Proof.
  unfold put_tree_headers. revert T. induction ths as [|[q h] ths IH]; intros T Hnd; [done|]. rewrite fmap_cons in Hnd. apply list.NoDup_cons in Hnd as [Hq Hnd].
  cbn [foldl]. rewrite IH by done. cbn [list_to_map foldr uncurry]. destruct (decide (p = q)) as [->|N].
  - rewrite lookup_insert_eq. cbn [fst] in Hq. rewrite not_elem_of_list_to_map_1 by done. cbn. by rewrite fn_lookup_insert.
  - rewrite lookup_insert_ne by done. case_match; [done|]. cbn. by rewrite fn_lookup_insert_ne.
Qed.
Lemma put_tree_headers_frame ths T :
  tr_high_water (put_tree_headers ths T) = tr_high_water T ∧ (∀ p, tr_state (put_tree_headers ths T) p = tr_state T p) ∧
  (∀ e, tr_edge (put_tree_headers ths T) e = tr_edge T e) ∧ ∀ p, tr_centroid (put_tree_headers ths T) p = tr_centroid T p.
Proof. unfold put_tree_headers. revert T. induction ths as [|[q h] ths IH]; intros T; [done|]. apply (IH (set_tree_header q (Some h) T)). Qed.
Lemma edges_moved_frame s moves T :
  tr_high_water (edges_moved s moves T) = tr_high_water T ∧ (∀ p, tr_state (edges_moved s moves T) p = tr_state T p) ∧
  (∀ p, tr_header (edges_moved s moves T) p = tr_header T p) ∧ ∀ p, tr_centroid (edges_moved s moves T) p = tr_centroid T p.
Proof.
  unfold edges_moved. revert T. induction moves as [|[e t] moves IH]; intros T; [done|].
  apply (IH (set_tree_edge s (ce_child e) None (set_tree_edge t (ce_child e) (Some e) T))).
Qed.
Lemma batch_final s hs' ths moves T :
  moves ≠ [] → NoDup ths.*1 → s ∉ ths.*1 → (∀ p, p ∈ ths.*1 ↔ p ∈ moves.*2) →
  final_tree s hs' (λ p, default hs' ((list_to_map ths : gmap Z PartitionHeader) !! p)) moves T
    (put_tree_headers ths (set_tree_header s (Some hs') (edges_moved s moves T))).
Proof.
  intros Hne Hnd Hs Hp. destruct (put_tree_headers_frame ths (set_tree_header s (Some hs') (edges_moved s moves T))) as (F1 & F2 & F3 & F4).
  destruct (edges_moved_frame s moves T) as (G1 & G2 & G3 & G4). split.
  - by rewrite F1, <-G1.
  - intros p. by rewrite F2, <-G2.
  - intros p. by rewrite F4, <-G4.
  - intros e. by rewrite F3.
  - rewrite put_tree_headers_at by done. rewrite not_elem_of_list_to_map_1 by done. rewrite decide_False by done. cbn. by rewrite fn_lookup_insert.
  - intros p N. rewrite put_tree_headers_at by done. destruct ((list_to_map ths : gmap Z PartitionHeader) !! p) as [h|] eqn:Eh.
    + rewrite decide_True; [done|]. apply Hp. apply elem_of_list_to_map_2 in Eh. apply list_elem_of_fmap. by exists (p, h).
    + rewrite decide_False; [cbn; rewrite fn_lookup_insert_ne by done; by rewrite G3|]. intros Hin%Hp. by apply not_elem_of_list_to_map_2 in Eh.
Qed.

Section children.
Context (xxh3_128 : Z → list Z → Z) (sha256 : list Z → list Z) {T : Type} `{WriteLaws T}.
Context (m : IndexManifest) (Hm : manifest_ok m) (types : list DataType.t) (tree_key : list Z) (Htk : bytes_ok tree_key).
Abbreviation ix := (im_logical_index_id m).
Abbreviation over := (MutateSpec.over xxh3_128 sha256 m types).
Abbreviation ran := (TransitionsSpec.ran xxh3_128 sha256 m types).
Abbreviation tree_of := (TransitionsSpec.tree_of ix tree_key).
Abbreviation frame := (TransitionsSpec.frame m tree_key).
Abbreviation header_at := (LogicalKey.Header ix tree_key).
Abbreviation edge_at := (LogicalKey.ChildEntry ix tree_key).
Abbreviation failed t := (λ (_ : ErrorKind) t', same_txn t t').
Context (f : typed_map) (t : WriteLogicalTxn T) (Ho : over f t).
Implicit Types (p q s : Z) (g : typed_map) (moves : child_moves) (E : typed_map → typed_map) (ks : list LogicalKey.t).

(** What a slot read for a child says. *)
Definition child_slot g s (c : Z) (o : option ChildEntry) : Prop :=
  g (edge_at s c) = Ok (PersistentValue.ChildEntry <$> o) ∧ ∀ e, o = Some e → ce_child e = c.
Lemma child_slots_spec s children values :
  Forall2 (λ key v, f key = Ok v) (edge_at s <$> children) values →
  no_panic (child_slots children values) ∧ ∀ slots, child_slots children values = Ok slots → Forall2 (child_slot f s) children slots.
Proof.
  revert values. induction children as [|c children IH]; intros values Hvs; cbn [child_slots].
  { split; [done|]. intros slots [= <-]. constructor. }
  rewrite fmap_cons in Hvs. apply Forall2_cons_inv_l in Hvs as (v & vs & Hv & Hvs & ->). destruct (IH vs Hvs) as [Hn Hok].
  assert (∀ o, expect_child_entry v = Ok o → v = PersistentValue.ChildEntry <$> o) as Hx by (destruct v as [[]|]; cbn; try done; by intros o [= <-]).
  split.
  - apply bind_no_panic; [by destruct v as [[]|]|]. intros [e|] _; [case_match; [|done]|]; by apply bind_no_panic.
  - intros slots (o & Ho'%Hx & H1')%bind_ok. subst v. destruct o as [e|].
    + destruct (Z.eqb_spec (ce_child e) c) as [Ec|]; [|done]. apply bind_ok in H1' as (rest & Hr & H1'). apply Ok_inj in H1' as <-.
      constructor; [|by apply Hok]. split; [done|]. by intros ? [= <-].
    + apply bind_ok in H1' as (rest & Hr & H1'). apply Ok_inj in H1' as <-. constructor; [|by apply Hok]. by split.
Qed.
Lemma read_children_spec s children :
  id_ok s → Forall id_ok children →
  wp (read_child_drain_candidates xxh3_128 sha256 tree_key s children)
    (λ slots t', Forall2 (child_slot f s) children slots ∧ ran f t (λ g, g) (edge_at s <$> children) t') (failed t) t.
Proof.
  intros Hs Hc. unfold read_child_drain_candidates. eapply (ran_manifest xxh3_128 sha256 m types); [by apply ran_start|].
  eapply (ran_batch xxh3_128 sha256 m types); [by apply ran_start| |].
  { apply Forall_fmap. eapply Forall_impl; [|exact Hc]. intros c ?. by apply edge_key_typed. }
  intros vs t1 Hvs Hr1 _. destruct (child_slots_spec s children vs Hvs) as [Hn Hok]. rewrite app_nil_r in Hr1.
  apply wp_lift; [done|auto|]. intros e _. apply Hr1.
Qed.

(** *** Edges *)
Definition edge_writes s moves : list (LogicalKey.t * option PersistentValue.t) :=
  moves ≫= λ '(e, p), [(edge_at p (ce_child e), Some (PersistentValue.ChildEntry e)); (edge_at s (ce_child e), None)].
Definition move_typed (move : ChildEntry * Z) : Prop :=
  id_ok move.2 ∧ id_ok (ce_child move.1) ∧ value_ok xxh3_128 sha256 (Some m) (PersistentValue.ChildEntry move.1).
Lemma tree_edge_writes g U s moves : id_ok s → Forall move_typed moves → tree_of g ≡ U → tree_of (foldl set_typed g (edge_writes s moves)) ≡ edges_moved s moves U.
Proof.
  intros Hs Hmv. unfold edges_moved. revert g U. induction Hmv as [|[e p] moves (Hp & Hc & _) _ IH]; intros g U E; [done|].
  unfold edge_writes. rewrite bind_cons, foldl_app. apply IH. cbn [foldl]. rewrite !(tree_set_edge ix tree_key) by done. by rewrite E.
Qed.
Lemma edge_writes_other g s moves p c : c ∉ (ce_child ∘ fst <$> moves) → foldl set_typed g (edge_writes s moves) (edge_at p c) = g (edge_at p c).
Proof.
  revert g. induction moves as [|[e q] moves IH]; intros g Hc; [done|]. rewrite fmap_cons in Hc. apply not_elem_of_cons in Hc as [N Hc]. cbn [compose fst] in N.
  unfold edge_writes. rewrite bind_cons, foldl_app. etrans; [by apply IH|]. cbn [foldl]. rewrite !set_typed_ne by (intros [=]; congruence). done.
Qed.
Lemma ran_move_children {E ks} (R : unit → WriteLogicalTxn T → Prop) s moves t1 :
  ran f t E ks t1 → id_ok s → Forall move_typed moves → NoDup (ce_child ∘ fst <$> moves) →
  (∀ ks' t2, Forall (λ '(e, p), E f (edge_at p (ce_child e)) = Ok None ∧ edge_at p (ce_child e) ∈ ks') moves →
     ran f t (λ g, foldl set_typed (E g) (edge_writes s moves)) (ks' ++ ks) t2 → R tt t2) →
  wp (move_child_entries xxh3_128 sha256 ix tree_key s moves) R (failed t) t1.
Proof.
  intros Hr Hs Hmv. revert E ks t1 Hr. induction Hmv as [|[e p] moves (Hp & Hc & Hv) Hmv IH]; intros E ks t1 Hr Hnd Hrest; cbn [move_child_entries].
  { apply wp_ret. apply (Hrest []); [constructor|exact Hr]. }
  rewrite fmap_cons in Hnd. apply list.NoDup_cons in Hnd as [Hn Hnd]. cbn [compose fst snd] in *.
  apply wp_assoc. eapply (ran_insert xxh3_128 sha256 m types); [exact Hr| |].
  { split; [by apply edge_key_typed|]. by intros ? [= <-]. }
  intros t2 Hfree Hr2. eapply (ran_delete xxh3_128 sha256 m types); [exact Hr2|by apply edge_key_typed|]. intros t3 Hr3.
  eapply IH; [exact Hr3|done|]. intros ks' t4 Hall Hr4. apply (Hrest (ks' ++ [edge_at p (ce_child e)])).
  - constructor; [split; [done|set_solver]|]. apply Forall_forall. intros [e' p'] Hin. pose proof Hin as Hin'. eapply Forall_forall in Hall; [|exact Hin]. cbn beta iota in Hall.
    destruct Hall as [Hx Hk]. split; [|set_solver]. revert Hx. rewrite !set_typed_ne; [done|..]; intros [=]; apply Hn, list_elem_of_fmap; exists (e', p');
      (split; [cbn; congruence|by apply list_elem_of_In]).
  - rewrite <-app_assoc. unfold edge_writes. exact Hr4.
Qed.

(** *** Headers *)
Lemma repeat_no_panic step n h : (∀ h, no_panic (step h)) → no_panic (repeat_entry step n h).
Proof. intros Hs. revert h. induction n as [|n IH]; intros h; cbn [repeat_entry]; [done|]. by apply bind_no_panic. Qed.
Lemma repeat_recounts step d n h h' :
  (∀ h h', header_typed h → step h = Ok h' → header_typed h' ∧ recounts d h h') → header_typed h → repeat_entry step n h = Ok h' →
  header_typed h' ∧ recounts (Z.of_nat n * d) h h'.
Proof.
  intros Hs. revert h. induction n as [|n IH]; intros h Hh; cbn [repeat_entry].
  { intros [= <-]. split; [done|]. split_and!; [done|done|lia]. }
  intros (h1 & H1' & H2)%bind_ok. destruct (Hs _ _ Hh H1') as [Hh1 (L1 & S1 & C1)]. destruct (IH _ Hh1 H2) as [Hh' (L2 & S2 & C2)].
  split; [done|]. split_and!; [congruence|congruence|lia].
Qed.
Lemma removed_step h h' : header_typed h → removed_entry h = Ok h' → header_typed h' ∧ recounts (-1) h h'.
Proof. intros Hh Hr. split; [by eapply removed_entry_ok|by apply removed_recounts]. Qed.
Lemma added_step h h' : header_typed h → added_entry h = Ok h' → header_typed h' ∧ recounts 1 h h'.
Proof. intros Hh Hr. split; [by eapply added_entry_ok|by apply added_recounts]. Qed.
Lemma target_headers_spec movement targets values :
  no_panic (target_headers_loop movement targets values) ∧
  ∀ ths rest, target_headers_loop movement targets values = Ok (ths, rest) →
    ths.*1 = targets ∧ values = (Some ∘ PersistentValue.PartitionHeader ∘ snd <$> ths) ++ rest ∧ Forall (λ th, ph_state th.2 = target_state movement) ths.
Proof.
  revert values. induction targets as [|p targets IH]; intros values; cbn [target_headers_loop].
  { split; [done|]. intros ths rest [= <- <-]. split_and!; [done|done|constructor]. }
  destruct values as [|v values]; [done|]. destruct (IH values) as [Hn Hok]. split.
  - apply bind_no_panic; [by destruct v as [[]|]|]. intros h _. case_decide; [|done]. apply bind_no_panic; [done|]. by intros [].
  - intros ths rest (h & Hh & H1')%bind_ok. apply bind_ok in Hh as (o & ->%expect_header_ok & ->%ok_or_ok). case_decide as Es; [|done].
    apply bind_ok in H1' as ([ths' rest'] & H2 & H3). apply Ok_inj in H3 as [= <- <-]. destruct (Hok _ _ H2) as (<- & -> & Hst).
    split_and!; [done|done|by constructor].
Qed.
(** Both headers of every target: as read and as written. *)
Definition grown_by moves (th th' : Z * PartitionHeader) : Prop := th'.1 = th.1 ∧ header_typed th'.2 ∧ recounts (received th.1 moves) th.2 th'.2.
Definition header_puts (ths : list (Z * PartitionHeader)) : list (LogicalKey.t * option PersistentValue.t) :=
  (λ '(p, h), (header_at p, Some (PersistentValue.PartitionHeader h))) <$> ths.
Lemma ran_put_targets {E ks} (R : unit → WriteLogicalTxn T → Prop) moves ths t1 :
  ran f t E ks t1 → Forall (λ th, id_ok th.1 ∧ header_typed th.2) ths →
  (∀ ths' t2, Forall2 (grown_by moves) ths ths' → ran f t (λ g, foldl set_typed (E g) (header_puts ths')) ks t2 → R tt t2) →
  wp (put_target_headers xxh3_128 sha256 ix tree_key moves ths) R (failed t) t1.
Proof.
  intros Hr Hths. revert E t1 Hr. induction Hths as [|[p h] ths [Hp Hh] Hths IH]; intros E t1 Hr Hrest; cbn [put_target_headers].
  { apply wp_ret. apply (Hrest []); [constructor|exact Hr]. }
  eapply (ran_lift xxh3_128 sha256 m types); [exact Hr|apply repeat_no_panic, added_entry_no_panic|]. intros h' Hrep.
  apply (repeat_recounts _ 1 _ _ _ added_step Hh) in Hrep as [Hh' Hrec]. rewrite Z.mul_1_r in Hrec.
  eapply (ran_put xxh3_128 sha256 m types); [exact Hr|by apply put_header_ok|]. intros t2 Hr2.
  eapply IH; [exact Hr2|]. intros ths' t3 Hg Hr3. apply (Hrest ((p, h') :: ths')); [constructor; [|done]|exact Hr3]. by split_and!.
Qed.
Lemma tree_header_puts g U ths : Forall (λ th, id_ok th.1) ths → tree_of g ≡ U → tree_of (foldl set_typed g (header_puts ths)) ≡ put_tree_headers ths U.
Proof.
  intros Hids. unfold put_tree_headers, header_puts. revert g U. induction Hids as [|[p h] ths Hp _ IH]; intros g U E; [done|].
  rewrite fmap_cons. cbn [foldl]. apply IH. rewrite (tree_set_header ix tree_key) by done. by rewrite E.
Qed.

(** *** What a batch does *)
Definition batch_effect s hs' ths' moves g : typed_map :=
  foldl set_typed (set_typed (foldl set_typed g (edge_writes s moves)) (header_at s, Some (PersistentValue.PartitionHeader hs'))) (header_puts ths').
Definition edge_known g s (move : ChildEntry * Z) : Prop :=
  g (edge_at s (ce_child move.1)) = Ok (Some (PersistentValue.ChildEntry move.1)) ∧ g (edge_at move.2 (ce_child move.1)) = Ok None.
Definition target_known g level (th : Z * PartitionHeader) : Prop :=
  id_ok th.1 ∧ g (header_at th.1) = Ok (Some (PersistentValue.PartitionHeader th.2)) ∧ ph_level th.2 = level.
Lemma frames_batch g s hs' ths' moves : frame g (batch_effect s hs' ths' moves g).
Proof.
  unfold batch_effect. change (set_typed ?x ?w) with (foldl set_typed x [w]). rewrite <-!foldl_app. apply frame_writes. rewrite !Forall_app. split_and!.
  - unfold edge_writes. apply Forall_bind, Forall_forall. intros [e p] _. by each.
  - by each.
  - unfold header_puts. apply Forall_fmap, Forall_forall. by intros [p h] _.
Qed.
Lemma grown_keys moves ths ths' : Forall2 (grown_by moves) ths ths' → ths'.*1 = ths.*1.
Proof. induction 1 as [|th th' ths ths' (E & _) _ IH]; [done|]. rewrite !fmap_cons. by rewrite IH, E. Qed.
Lemma grown_at moves ths ths' p h :
  Forall2 (grown_by moves) ths ths' → NoDup ths.*1 → (p, h) ∈ ths →
  ∃ h', (list_to_map ths' : gmap Z PartitionHeader) !! p = Some h' ∧ recounts (received p moves) h h'.
Proof.
  intros Hg Hnd Hin. pose proof (grown_keys _ _ _ Hg) as Ek. apply list_elem_of_lookup in Hin as [j Hj].
  destruct (Forall2_lookup_l _ _ _ _ _ Hg Hj) as ([p' h'] & Hj' & E & _ & Hrec). cbn [fst snd] in *. subst p'. exists h'. split; [|done].
  apply elem_of_list_to_map_1; [by rewrite Ek|]. by eapply list_elem_of_lookup_2.
Qed.
Lemma batch_effect_ok g s hs hs' ths ths' moves :
  id_ok s → moves ≠ [] → Forall move_typed moves → NoDup (ce_child ∘ fst <$> moves) →
  g (header_at s) = Ok (Some (PersistentValue.PartitionHeader hs)) → recounts (- len moves) hs hs' →
  NoDup ths.*1 → (∀ p, p ∈ ths.*1 ↔ p ∈ moves.*2) → Forall (target_known g (ph_level hs)) ths → Forall2 (grown_by moves) ths ths' →
  Forall (edge_known g s) moves → move_all s moves (tree_of g) (tree_of (batch_effect s hs' ths' moves g)).
Proof.
  intros Hs Hne Hmv Hnd Hhs Hrec Hth Hp Hkn Hg Hed. pose proof (grown_keys _ _ _ Hg) as Ek.
  assert (s ∉ ths.*1) as Hns.
  { intros Hin%Hp. apply list_elem_of_fmap in Hin as ([e p] & -> & Hin). eapply Forall_forall in Hed as [E1 E2]; [|by apply list_elem_of_In]. cbn in *. congruence. }
  assert (Forall (λ th : Z * PartitionHeader, id_ok th.1) ths') as Hids.
  { apply (Forall_fmap fst id_ok). rewrite Ek. apply Forall_fmap. eapply Forall_impl; [|exact Hkn]. by intros ? (? & _). }
  eapply (moves_reach s hs' (λ p, default hs' ((list_to_map ths' : gmap Z PartitionHeader) !! p)) moves (tree_of g) _ hs); [|done|done| |].
  - by apply (tree_header_at m tree_key _ _ _ Hs) in Hhs.
  - apply Forall_forall. intros [e p] Hin. pose proof Hin as Hin'. eapply Forall_forall in Hmv as (Hpid & Hcid & _); [|exact Hin].
    eapply Forall_forall in Hed as [E1 E2]; [|exact Hin]. cbn [fst snd] in *. apply (tree_edge_at m tree_key) in E1, E2; [|done..].
    assert (p ∈ ths.*1) as Hpin by (apply Hp, list_elem_of_fmap; exists (e, p); split; [done|by apply list_elem_of_In]).
    split_and!; [by intros ->|done|done|]. apply list_elem_of_fmap in Hpin as ([p' h] & -> & Hin2). cbn [fst] in *.
    destruct (grown_at _ _ _ _ _ Hg Hth Hin2) as (h' & Eh' & Hr). rewrite Eh'. eapply Forall_forall in Hkn as (_ & Hk1 & Hk2); [|by apply list_elem_of_In].
    exists h. split_and!; [by apply (tree_header_at m tree_key) in Hk1|done|]. exact Hr.
  - assert (tree_of (batch_effect s hs' ths' moves g) ≡ put_tree_headers ths' (set_tree_header s (Some hs') (edges_moved s moves (tree_of g)))) as E.
    { unfold batch_effect. apply tree_header_puts; [done|]. rewrite (tree_set_header ix tree_key) by done. by rewrite tree_edge_writes. }
    eapply final_tree_proper; [exact E|]. apply batch_final; [done|by rewrite Ek|by rewrite Ek|]. by rewrite Ek.
Qed.
(** The limits of a graph index leave room for their arithmetic. *)
Definition graph_bounds : Prop :=
  is_Some (ic_graph (im_config m)) → ic_max_internal_partition_entries (im_config m) + 2 < 2 ^ 32 ∧ 1 ≤ ic_min_internal_partition_entries (im_config m).
Lemma graph_admitted_no_panic movement hs ths n : graph_bounds → no_panic (graph_drain_admitted m movement hs ths n).
Proof.
  intros Hb. unfold graph_drain_admitted. destruct (ic_graph (im_config m)) as [gc|] eqn:Eg; [|done]. destruct Hb as [H1' H2]; [by eexists|].
  unfold u32_add, u32_sub. rewrite (proj2 (Z.ltb_lt _ _) H1'). cbn [mbind result_bind].
  apply bind_no_panic; [destruct movement; try done; by rewrite (proj2 (Z.leb_le _ _) H2)|]. intros limit _.
  destruct (Z.eqb_spec (len ths) 1) as [El|]; [|done]. cbn [negb orb]. case_match; [done|]. destruct ths as [|th ths]; [done|]. cbn [fmap option_fmap option_map head or_panic mbind result_bind].
  by case_match.
Qed.
Definition acts_moves s moves t' : Prop :=
  ∃ E ks, ran f t E ks t' ∧ fixed ix tree_key (wl_binding t) E ∧ ∀ g, agree ks f g → move_all s moves (tree_of g) (tree_of (E g)) ∧ frame g (E g).
Lemma frame_refl g : frame g g.
Proof. split; auto. Qed.
Lemma headers_read ths :
  Forall2 (λ key v, f key = Ok v) (header_at <$> ths.*1) (Some ∘ PersistentValue.PartitionHeader ∘ snd <$> ths) →
  Forall (λ th : Z * PartitionHeader, f (header_at th.1) = Ok (Some (PersistentValue.PartitionHeader th.2))) ths.
Proof.
  induction ths as [|th ths IH]; intros Hv; [constructor|]. rewrite !fmap_cons in Hv. apply Forall2_cons_1 in Hv as [? Hv]. constructor; [done|by apply IH].
Qed.
Lemma relocate_children_refines s moves movement ks t1 :
  ran f t (λ g, g) ks t1 → graph_bounds → id_ok s → Forall move_typed moves → NoDup (ce_child ∘ fst <$> moves) →
  Forall (λ move, f (edge_at s (ce_child move.1)) = Ok (Some (PersistentValue.ChildEntry move.1)) ∧ edge_at s (ce_child move.1) ∈ ks) moves →
  wp (relocate_child_entries xxh3_128 sha256 tree_key s moves movement) (λ n t', n = len moves ∧ acts_moves s moves t') (failed t) t1.
Proof.
  intros Hr Hgb Hs Hmv Hnd Hed. unfold relocate_child_entries. destruct moves as [|move0 moves0] eqn:Emoves.
  { apply wp_ret. split; [done|]. exists (λ g, g), ks. split_and!; [done|apply fixed_id|]. intros g _. split; [by constructor|apply frame_refl]. }
  rewrite <-Emoves in *. assert (moves ≠ []) as Hne by (by rewrite Emoves). clear Emoves move0 moves0.
  eapply (ran_manifest xxh3_128 sha256 m types); [exact Hr|]. set (targets := set_in_order (list_to_set moves.*2)).
  assert (∀ p, p ∈ targets ↔ p ∈ moves.*2) as Htg.
  { intros p. unfold targets, set_in_order. rewrite merge_sort_Permutation, elem_of_elements. apply elem_of_list_to_set. }
  assert (NoDup targets) as Hndt by (unfold targets, set_in_order; rewrite merge_sort_Permutation; apply NoDup_elements).
  assert (Forall id_ok targets) as Hids.
  { apply Forall_forall. intros p Hin%list_elem_of_In%Htg. apply list_elem_of_fmap in Hin as (mv & -> & Hin). eapply Forall_forall in Hmv as (? & _); [done|by apply list_elem_of_In]. }
  eapply (ran_batch xxh3_128 sha256 m types); [exact Hr| |].
  { apply Forall_app. split; [|by each; apply partition_keys_typed]. apply Forall_fmap. eapply Forall_impl; [|exact Hids]. intros p ?. by apply partition_keys_typed. }
  intros vs t2 Hvs Hr2 _. destruct (target_headers_spec movement targets vs) as [Hn Hok].
  eapply (ran_lift xxh3_128 sha256 m types); [exact Hr2|done|]. intros [ths rest] Hths. destruct (Hok _ _ Hths) as (Ek & -> & _). cbn [fst snd].
  apply Forall2_app_inv in Hvs as [Hv1 Hv2]; [|by rewrite !length_fmap, <-Ek, length_fmap].
  apply Forall2_cons_inv_l in Hv2 as (v & rest' & Hv & Hv2 & ->). cbn [head ok_or].
  apply wp_bind, wp_lift; [done| |done]. intros _ [= <-].
  eapply (ran_lift xxh3_128 sha256 m types); [exact Hr2|by destruct v as [[]|]|]. intros hs Hhs. apply bind_ok in Hhs as (o & ->%expect_header_ok & ->%ok_or_ok).
  case_match; [by eapply ran_fail|]. destruct (existsb _ ths) eqn:Elev; [by eapply ran_fail|].
  rewrite <-Ek in Hv1. apply headers_read in Hv1.
  assert (Forall (λ th, target_known f (ph_level hs) th ∧ header_typed th.2) ths) as Hkn.
  { apply Forall_forall. intros th Hin. eapply Forall_forall in Hv1; [|exact Hin]. assert (id_ok th.1) as Hid.
    { eapply Forall_forall in Hids; [exact Hids|]. rewrite <-Ek. by apply in_map. }
    split; [|apply (over_value _ _ _ _ _ _ _ _ Ho) in Hv1 as [(? & ? & _ & [? _]) _]; [done|by apply partition_keys_typed]]. split_and!; [done|done|].
    apply not_true_iff_false in Elev. destruct (Z.eq_dec (ph_level th.2) (ph_level hs)) as [|N]; [done|]. exfalso. apply Elev, existsb_exists. exists th. split; [done|].
    destruct th. cbn in *. by rewrite (proj2 (Z.eqb_neq _ _) N). }
  assert (header_typed hs) as Hhs by (apply (over_value _ _ _ _ _ _ _ _ Ho) in Hv as [(? & ? & _ & [? _]) _]; [done|by apply partition_keys_typed]).
  eapply (ran_lift xxh3_128 sha256 m types); [exact Hr2|by apply graph_admitted_no_panic|]. intros _ _.
  eapply wp_bind, ran_move_children; [exact Hr2|done..|]. intros ks' t3 Hins Hr3.
  eapply (ran_lift xxh3_128 sha256 m types); [exact Hr3|apply repeat_no_panic, removed_entry_no_panic|]. intros hs' Hrep.
  apply (repeat_recounts _ (-1) _ _ _ removed_step Hhs) in Hrep as [Hhs' Hrec].
  eapply (ran_put xxh3_128 sha256 m types); [exact Hr3|by apply put_header_ok|]. intros t4 Hr4.
  eapply wp_bind, ran_put_targets; [exact Hr4|by eapply Forall_impl; [|exact Hkn]; intros ? [(? & _) ?]|]. intros ths' t5 Hg Hr5.
  apply wp_ret. split; [done|]. exists (batch_effect s hs' ths' moves). eexists. split; [exact Hr5|]. split; [unfold batch_effect; fixes|]. intros g Ha. split; [|apply frames_batch].
  assert (∀ k, k ∈ ks' ∨ k ∈ header_at <$> targets ∨ k = header_at s ∨ k ∈ ks → g k = f k) as Hag by (intros k Hk; apply (agree_at _ _ _ _ Ha); set_solver).
  eapply (batch_effect_ok g s hs hs' ths ths'); try done.
  - rewrite Hag by auto. done.
  - by replace (- len moves) with (Z.of_nat (length moves) * -1) by (unfold len; lia).
  - by rewrite Ek.
  - by rewrite Ek.
  - apply Forall_forall. intros th Hin. pose proof Hin as Hin'. eapply Forall_forall in Hkn as [(? & Hk & ?) _]; [|exact Hin]. split_and!; [done| |done].
    rewrite Hag; [done|]. right. left. apply list_elem_of_fmap. exists th.1. split; [done|]. rewrite <-Ek. by apply list_elem_of_In, in_map.
  - apply Forall_forall. intros [e p] Hin. eapply Forall_forall in Hed as [E1 K1]; [|exact Hin]. eapply Forall_forall in Hins; [|exact Hin]. cbn [fst snd] in *.
    destruct Hins as [E2 K2]. split; cbn [fst snd]; rewrite Hag by auto; done.
Qed.

End children.

Lemma child_relocation_runs {T} `{WriteLaws T} xxh3_128 sha256 m types tree_key source children moves movement (t t1 t2 : WriteLogicalTxn T) slots r :
  bound t m types → bytes_ok tree_key → id_ok source → Forall id_ok children → graph_bounds m →
  read_child_drain_candidates xxh3_128 sha256 tree_key source children t = (t1, Ok slots) →
  Forall (λ move, Some move.1 ∈ slots ∧ id_ok move.2) moves → NoDup (ce_child ∘ fst <$> moves) →
  relocate_child_entries xxh3_128 sha256 tree_key source moves movement t1 = (t2, r) →
  let f := typed_view xxh3_128 sha256 t in
  Forall2 (child_slot m tree_key f source) children slots ∧ no_panic r ∧
  ∀ n, r = Ok n → n = len moves ∧ acts_moves xxh3_128 sha256 m types tree_key f t source moves t2 ∧ bound t2 m types ∧
    move_all source moves (tree_of (im_logical_index_id m) tree_key f) (tree_of (im_logical_index_id m) tree_key (typed_view xxh3_128 sha256 t2)).
Proof.
  intros Hb Htk Hs Hc Hgb Hread Hmv Hnd Hrel f. destruct (bound_index _ _ _ Hb) as [Hm Hix]. assert (over xxh3_128 sha256 m types f t) as Ho by by split.
  pose proof (wp_ok _ _ _ _ _ _ (read_children_spec xxh3_128 sha256 m Hm types tree_key Htk f t Ho source children Hs Hc) Hread) as [Hslots Hr].
  split; [done|].
  assert (∀ move, In move moves → id_ok (ce_child move.1) ∧ id_ok move.2 ∧ ce_child move.1 ∈ children ∧
    f (LogicalKey.ChildEntry (im_logical_index_id m) tree_key source (ce_child move.1)) = Ok (Some (PersistentValue.ChildEntry move.1))) as Hall.
  { intros move Hin. eapply Forall_forall in Hmv as [Hsl Hid]; [|exact Hin]. apply list_elem_of_lookup in Hsl as [j Hj].
    destruct (Forall2_lookup_r _ _ _ _ _ Hslots Hj) as (c & Hcj & Hfc & Hce). rewrite (Hce _ eq_refl). pose proof Hcj as Hcj'. eapply Forall_lookup_1 in Hc; [|exact Hcj].
    split_and!; [done|done|by eapply list_elem_of_lookup_2|done]. }
  assert (Forall (move_typed xxh3_128 sha256 m) moves) as Hty.
  { apply Forall_forall. intros move Hin. destruct (Hall _ Hin) as (Hcid & Hid & _ & Hf). split_and!; [done|done|].
    by apply (over_value xxh3_128 sha256 m types f t) in Hf as [? _]. }
  pose proof (relocate_children_refines xxh3_128 sha256 m Hm types tree_key Htk f t Ho source moves movement _ t1 Hr Hgb Hs Hty Hnd) as Hw.
  unfold wp in Hw. rewrite Hrel in Hw. specialize (Hw ltac:(apply Forall_forall; intros move Hin; destruct (Hall _ Hin) as (_ & _ & Hcin & Hf);
    split; [done|]; apply list_elem_of_fmap; by eexists)).
  split; [by destruct r|]. intros n ->. destruct Hw as [-> Hacts]. split; [done|]. split; [done|].
  destruct Hacts as (E & ks & [[Hb2 Hv] _ _] & _ & Hg). split; [done|]. eapply move_all_equiv; [by apply (tree_of_proper _ _ _ _ Hix Htk Hv)|].
  apply Hg. by apply Forall_forall.
Qed.

(** C13: A drain batch of Child Entries performs the protocol's moves.  The
    candidates read in the transaction are the edges that are still there; a
    batch that moves a selection of them, each child at most once, to other
    partitions of the same level never panics, and when it succeeds it has moved
    them one after the other, each edge unchanged and both exact counts
    following, by one fixed list of writes which performs those moves in every
    tree that agrees with the keys read under update protection; a well-formed
    tree stays well formed. *)
Theorem child_relocation_refines {T} `{WriteLaws T} xxh3_128 sha256 m types tree_key source children moves movement (t t1 t2 : WriteLogicalTxn T) slots r :
  bound t m types → bytes_ok tree_key → id_ok source → Forall id_ok children → graph_bounds m →
  read_child_drain_candidates xxh3_128 sha256 tree_key source children t = (t1, Ok slots) →
  Forall (λ move, Some move.1 ∈ slots ∧ id_ok move.2) moves → NoDup (ce_child ∘ fst <$> moves) →
  relocate_child_entries xxh3_128 sha256 tree_key source moves movement t1 = (t2, r) →
  let f := typed_view xxh3_128 sha256 t in
  Forall2 (child_slot m tree_key f source) children slots ∧ no_panic r ∧
  ∀ n, r = Ok n → n = len moves ∧ acts_moves xxh3_128 sha256 m types tree_key f t source moves t2 ∧
    (tree_ok (tree_of (im_logical_index_id m) tree_key f) → tree_ok (tree_of (im_logical_index_id m) tree_key (typed_view xxh3_128 sha256 t2))).
Proof.
  intros Hb Htk Hs Hc Hgb Hread Hmv Hnd Hrel f.
  destruct (child_relocation_runs xxh3_128 sha256 m types tree_key source children moves movement t t1 t2 slots r Hb Htk Hs Hc Hgb Hread Hmv Hnd Hrel) as (Hslots & Hn & Hok).
  split_and!; [done|done|]. intros n Hr. destruct (Hok n Hr) as (Hlen & Hacts & _ & Hmoves). split_and!; [done|done|].
  intros Hf. by eapply move_all_ok.
Qed.

(** Two internal partitions of one level, the first with a child. *)
Definition sample_child_writes : list (LogicalKey.t * option PersistentValue.t) :=
  [(LogicalKey.Header 7 sample_tree_key 2, sample_header 2 1 PartitionState.Merging);
   (LogicalKey.Header 7 sample_tree_key 3, sample_header 2 0 PartitionState.Ready);
   (LogicalKey.ChildEntry 7 sample_tree_key 2 4, Some (PersistentValue.ChildEntry (mkChildEntry 4 [0; 0])))].
Definition sample_children : WriteLogicalTxn WriteTxn := (mutate sample_hash (λ bs, bs) sample_child_writes sample_write).1.
Lemma sample_children_bound : bound sample_children sample_manifest [DataType.F64].
Proof.
  pose proof (over_mutate sample_hash (λ bs, bs) sample_manifest [DataType.F64] (typed_view sample_hash (λ bs, bs) sample_write) sample_write sample_child_writes) as Hw.
  unfold wp in Hw. assert (is_ok (mutate sample_hash (λ bs, bs) sample_child_writes sample_write).2 = true) as E by (vm_compute; reflexivity).
  unfold sample_children. destruct (mutate _ _ _ _) as [t' [[]|e|]]; [|done..]. cbn [fst]. eapply bound_mono; [apply sample_write_bound|]. apply Hw; [split; [apply sample_write_bound|done]|].
  assert (∀ P : ∀ m, manifest_ok m → Prop, P sample_manifest sample_manifest_ok → bound_to (Some sample_manifest) P) as Hb.
  { intros P HP. by exists sample_manifest, sample_manifest_ok. }
  unfold sample_child_writes, sample_header. each; (split; [dec_compute|]); intros x [= <-]; apply Hb; split; dec_compute.
Qed.
Definition sample_slots : WriteLogicalTxn WriteTxn * result (list (option ChildEntry)) :=
  read_child_drain_candidates sample_hash (λ bs, bs) sample_tree_key 2 [4; 5] sample_children.
Lemma child_relocation_refines_witness :
  sample_slots.2 = Ok [Some (mkChildEntry 4 [0; 0]); None] ∧
  let run := relocate_child_entries sample_hash (λ bs, bs) sample_tree_key 2 [(mkChildEntry 4 [0; 0], 3)] Movement.Merge sample_slots.1 in
  run.2 = Ok 1 ∧
  acts_moves sample_hash (λ bs, bs) sample_manifest [DataType.F64] sample_tree_key (typed_view sample_hash (λ bs, bs) sample_children) sample_children
    2 [(mkChildEntry 4 [0; 0], 3)] run.1.
Proof.
  assert (sample_slots.2 = Ok [Some (mkChildEntry 4 [0; 0]); None]) as Es by (vm_compute; reflexivity). split; [exact Es|]. cbv zeta.
  set (run := relocate_child_entries _ _ _ _ _ _ _). assert (run.2 = Ok 1) as Er by (vm_compute; reflexivity). split; [exact Er|].
  destruct (child_relocation_refines sample_hash (λ bs, bs) sample_manifest [DataType.F64] sample_tree_key 2 [4; 5] [(mkChildEntry 4 [0; 0], 3)] Movement.Merge
    sample_children sample_slots.1 run.1 [Some (mkChildEntry 4 [0; 0]); None] run.2) as (_ & _ & Hok).
  - exact sample_children_bound.
  - dec_compute.
  - dec_compute.
  - dec_compute.
  - intros [gc Eg]. vm_compute in Eg. discriminate Eg.
  - rewrite <-Es. unfold sample_slots. by destruct (read_child_drain_candidates _ _ _ _ _ _).
  - apply List.Forall_cons; [split; [by left|dec_compute]|apply List.Forall_nil].
  - apply NoDup_singleton.
  - unfold run. by destruct (relocate_child_entries _ _ _ _ _ _ _).
  - destruct (Hok _ Er) as (_ & H & _). exact H.
Defined.
