(* ===== verification/Completion.v ===== *)
(** Completion of splits and merges
    (src/src/storage/topology/{relocation,transitions}.rs): once the Child
    Entries of a draining source have been relocated, its completion transaction
    finishes the transition. *)
From stdpp Require Import gmap sorting functions.
From S2P Require Import Prelude RustStd Api TreeKey Keys KeyRanges RaBitQ Manifest Wire ValueData Records Synopsis Values Config Backend Memory Txn Codec Logical TreeOps Membership LogicalSpec MembershipSpec MembershipInv Mutate MutateSpec Relocation RelocationSpec Reader Discovery DiscoverySpec Transitions Protocol TransitionsSpec TransitionsRefine TopologySafety ChildMoves.

Implicit Types (T U : Tree) (s l r p q c : Z) (h : PartitionHeader).

(** ** What a completed transition leaves *)
Definition completed T s l r started_at (level : Z) : Prop :=
  (∃ h, authority T l h (PartitionTransition.Ready started_at)) ∧ (∃ h, authority T r h (PartitionTransition.Ready started_at)) ∧
  if decide (s = root_partition)
  then ∃ h, authority T root_partition h (PartitionTransition.Ready started_at) ∧ ph_level h = level + 1 ∧ ph_entry_count h = 2
  else tr_header T s = None.
Lemma transition_equiv a T U V : V ≡ U → transition a T U → transition a T V.
Proof. intros E Htr. destruct Htr; econstructor; first [eassumption|etrans; [exact E|eassumption]]. Qed.
Lemma authority_unique T p h st h' st' : authority T p h st → authority T p h' st' → h' = h ∧ st' = st.
Proof. intros [E1 E2] [E3 E4]. split; congruence. Qed.
Lemma finished_split T U s h l r at0 at1 :
  tree_ok T → authority T s h (PartitionTransition.DrainingSplit l r at0) → transition (FinishSplit s at1) T U →
  completed U s l r at1 (ph_level h).
Proof.
  intros Hok Ha Htr. destruct (draining_targets _ _ _ _ _ _ Hok Ha) as [Hne Ht].
  destruct (Ht l ltac:(by left)) as (Hl1 & Hls & _). destruct (Ht r ltac:(by right)) as (Hr1 & Hrs & _).
  inversion Htr as [| | | | |T0 T1 h0 h' l0 r0 at2 at3 hl hr atl atr cl cr Ha0 H0 Hl Ell Hr Elr Hcl Hcr Hel Her H1 H2 H3 HU
    |T0 T1 clear s0 h0 q hq hq' l0 r0 at2 at3 hl hr atl atr Hroot Ha0 H0 Hl Ell Hr Elr Hqs Hq Hlev Hrec HU| |]; subst;
    destruct (authority_unique _ _ _ _ _ _ Ha Ha0) as [-> [= -> -> ->]].
  all: destruct HU as (_ & Eh & Es & _); unfold completed, authority.
  - rewrite decide_True by done. split_and!.
    + exists (header_with hl PartitionState.Ready). rewrite Eh, Es. split; at_partition; congruence.
    + exists (header_with hr PartitionState.Ready). rewrite Eh, Es. split; at_partition; congruence.
    + exists h'. rewrite Eh, Es. split; [split; at_partition|done].
  - assert (q ≠ l ∧ q ≠ r) as [Hql Hqr] by (split; intros ->; repeat match goal with H : authority T _ _ _ |- _ => destruct H end; simplify_eq; lia).
    rewrite decide_False by done. split_and!.
    + exists (header_with hl PartitionState.Ready). rewrite Eh, Es. split; at_partition; congruence.
    + exists (header_with hr PartitionState.Ready). rewrite Eh, Es. split; at_partition; congruence.
    + rewrite Eh. at_partition.
Qed.
Lemma finished_merge T U s : transition (FinishMerge s) T U → tr_header U s = None.
Proof.
  intros Htr. inversion Htr as [| | | | | | | |T0 T1 clear s0 h q hq hq' at0 Hroot Ha H0 Hqs Hq Hlev Hrec (_ & Eh & _)]; subst. rewrite Eh. at_partition.
Qed.

(** ** What relocating children leaves of the source *)
Lemma moves_source s moves T U h st :
  move_all s moves T U → authority T s h st →
  (∃ h', authority U s h' st ∧ ph_level h' = ph_level h ∧ ph_entry_count h' = ph_entry_count h - len moves) ∧
  ∀ c, is_Some (tr_edge U (s, c)) → is_Some (tr_edge T (s, c)) ∧ c ∉ ce_child ∘ fst <$> moves.
Proof.
  intros Hm. revert h. induction Hm as [T U (_ & Eh & Es & Ee & _)|e t moves T U V Htr _ IH]; intros h Ha.
  { split; [|intros c; rewrite Ee; split; [done|apply not_elem_of_nil]].
    exists h. unfold authority. rewrite Eh, Es, len_nil. split_and!; [apply Ha..|done|lia]. }
  inversion Htr as [| | |T0 T1 s0 t0 c0 e0 hs ht hs' ht' He1 He2 Hhs Hht Hlev Hrec Hrec' (_ & Eh & Es & Ee & _)| | | | |]; subst.
  assert (t ≠ s) as Hts by (intros ->; congruence). destruct Ha as [Hh Hst]. assert (hs = h) as -> by congruence.
  destruct Hrec as (R1 & R2 & R3).
  destruct (IH hs') as [(h' & Ha' & El & Ec) Hed].
  { unfold authority. rewrite Eh, Es. split; at_partition. }
  split.
  - exists h'. rewrite len_cons. split_and!; [done|congruence|lia].
  - intros c Hc. destruct (Hed c Hc) as [Hu Hn]. rewrite Ee in Hu. rewrite fmap_cons, not_elem_of_cons.
    revert Hu. cbn [tr_edge set_tree_header set_tree_edge]. unfold base.insert, fn_insert. cbn [compose fst].
    repeat case_decide; simplify_eq; try (by intros []). intros Hu. split_and!; [done| |done]. by intros ->.
Qed.
Lemma no_edges_no_entries T s h :
  tree_ok T → tr_header T s = Some h → ph_level h ≠ 1 → (∀ c, ¬ is_Some (tr_edge T (s, c))) → ph_entry_count h = 0.
Proof.
  intros Hok Hh H1 Hno. destruct (lk_count _ _ _ _ (ok_edges _ Hok) s (ph_level h) (ph_entry_count h)) as (cs & _ & Hin & <-); [by apply heads_header|done|].
  destruct cs as [|c cs]; [done|]. destruct (Hno c). apply Hin. by left.
Qed.

Section completion.
Context (xxh3_128 : Z → list Z → Z) (sha256 : list Z → list Z) {M : Type} `{WriteLaws M}.
Context (m : IndexManifest) (types : list DataType.t) (tree_key : list Z) (Htk : bytes_ok tree_key).
Abbreviation ix := (im_logical_index_id m).
Abbreviation tree t := (tree_of ix tree_key (typed_view xxh3_128 sha256 t)).
Implicit Types (t : WriteLogicalTxn M).

Lemma authority_pair g p h st o : authority (tree_of ix tree_key g) p h st → pair_in m tree_key g p o → o = Some (h, st).
Proof using.
  intros [Hh Hst] [E1 E2]. apply tree_header_some in Hh as [_ Hh]. apply (tree_state_some m tree_key) in Hst. unfold state_in in Hst.
  rewrite E1 in Hh. rewrite E2 in Hst. destruct o as [[h' st']|]; [|done]. cbn in *. by simplify_eq.
Qed.
Lemma acts_here f t t' a plain :
  tree_ok (tree_of ix tree_key f) → bound t m types → acts xxh3_128 sha256 m types tree_key f t a plain t' →
  transition a (tree_of ix tree_key f) (tree t').
Proof.
  intros Hok Hb (E & ks & [[_ Hv] _ _] & _ & Hg). destruct (bound_index _ _ _ Hb) as [_ Hix].
  destruct (Hg f) as [Htr _]; [by apply Forall_forall|done|]. eapply transition_equiv; [|exact Htr]. by apply (tree_of_proper _ _ _ _ Hix Htk).
Qed.
(** Completing a drained split or merge, on the transaction's own view. *)
Lemma split_finishes fuel source h l r at0 started_at removal parent t :
  bound t m types → id_ok source → u64_ok started_at → hint_ok parent → (size (lt_view t) + 4 < fuel)%nat → tree_ok (tree t) →
  authority (tree t) source h (PartitionTransition.DrainingSplit l r at0) → ph_entry_count h = 0 →
  wp (finalize_split_with_parent xxh3_128 sha256 fuel tree_key source started_at removal parent)
    (λ o t', (∃ hint, o = SplitCompletion.Completed hint) ∧ tree_ok (tree t') ∧ completed (tree t') source l r started_at (ph_level h)) (λ _ t', same_txn t t') t.
Proof.
  intros Hb Hs Hat Hhint Hfuel Hok Ha H0'. destruct (bound_index _ _ _ Hb) as [Hm _]. set (f := typed_view xxh3_128 sha256 t).
  assert (over xxh3_128 sha256 m types f t) as Ho by by split.
  eapply wp_mono; [apply (finalize_split_refines xxh3_128 sha256 m Hm types tree_key Htk f t Ho fuel); try done; unfold fueled; lia| |done].
  intros o t' Hr. destruct o as [q| |]; cbn [split_completion] in Hr.
  - destruct Hr as [(plain & Hacts & _)|[_ Hnone]]; [|by apply (authority_pair f source h _ None Ha) in Hnone].
    apply acts_here in Hacts; [|done..]. split_and!; [by eexists|eapply step_ok; [exact Hok|left; by eexists]|by eapply finished_split].
  - destruct Hr as (_ & h' & l' & r' & at1 & Hp & Hc). apply (authority_pair f source h _ _ Ha) in Hp. by simplify_eq.
  - destruct Hr as (_ & h' & st & Hp & Hn). apply (authority_pair f source h _ _ Ha) in Hp. simplify_eq. by destruct (Hn l r at0).
Qed.
Lemma merge_finishes fuel source h at0 removal parent t :
  bound t m types → id_ok source → hint_ok parent → (size (lt_view t) + 4 < fuel)%nat → tree_ok (tree t) →
  authority (tree t) source h (PartitionTransition.Merging at0) → ph_entry_count h = 0 →
  wp (finalize_merge_with_parent xxh3_128 sha256 fuel tree_key source removal parent)
    (λ o t', o = MergeCompletion.Completed ∧ tree_ok (tree t') ∧ tr_header (tree t') source = None) (λ _ t', same_txn t t') t.
Proof.
  intros Hb Hs Hhint Hfuel Hok Ha H0'. destruct (bound_index _ _ _ Hb) as [Hm _]. set (f := typed_view xxh3_128 sha256 t).
  assert (over xxh3_128 sha256 m types f t) as Ho by by split.
  eapply wp_mono; [apply (finalize_merge_refines xxh3_128 sha256 m Hm types tree_key Htk f t Ho fuel); try done; unfold fueled; lia| |done].
  intros o t' Hr. destruct o; cbn [merge_completion] in Hr.
  - destruct Hr as [Hacts|[_ Hnone]]; [|by apply (authority_pair f source h _ None Ha) in Hnone].
    apply acts_here in Hacts; [|done..]. split_and!; [done|eapply step_ok; [exact Hok|left; by eexists]|by eapply finished_merge].
  - destruct Hr as (_ & h' & at1 & Hp & Hc). apply (authority_pair f source h _ _ Ha) in Hp. by simplify_eq.
  - destruct Hr as (_ & h' & st & Hp & Hn). apply (authority_pair f source h _ _ Ha) in Hp. simplify_eq. by destruct (Hn at0).
Qed.
End completion.

(** C15: A drained transition is finished.  In a well-formed tree, let a batch
    relocate every Child Entry of a source (a leaf source has no entries left).
    Then, whatever the other partitions are doing and whichever parent hint and
    removal are used, a completion transaction on the result that succeeds never
    answers that the source is not drained or in another state: it has completed
    a draining split, with both targets Ready and the source gone, or, for the
    root, their Ready parent one level higher, and it has completed a merge, with
    the source gone; the tree stays well formed and nothing panics. *)
Theorem drained_transitions_finish {Raw} `{WriteLaws Raw} xxh3_128 sha256 m types tree_key fuel source h st children moves movement (t t1 t2 : WriteLogicalTxn Raw) slots n :
  bound t m types → bytes_ok tree_key → id_ok source → Forall id_ok children → graph_bounds m →
  tree_ok (tree_of (im_logical_index_id m) tree_key (typed_view xxh3_128 sha256 t)) →
  authority (tree_of (im_logical_index_id m) tree_key (typed_view xxh3_128 sha256 t)) source h st →
  read_child_drain_candidates xxh3_128 sha256 tree_key source children t = (t1, Ok slots) →
  Forall (λ move, Some move.1 ∈ slots ∧ id_ok move.2) moves → NoDup (ce_child ∘ fst <$> moves) →
  relocate_child_entries xxh3_128 sha256 tree_key source moves movement t1 = (t2, Ok n) →
  (∀ c, is_Some (tr_edge (tree_of (im_logical_index_id m) tree_key (typed_view xxh3_128 sha256 t)) (source, c)) → c ∈ ce_child ∘ fst <$> moves) →
  (ph_level h = 1 → ph_entry_count h = 0) → (size (lt_view t2) + 4 < fuel)%nat →
  ∀ removal parent, hint_ok parent →
  match st with
  | PartitionTransition.DrainingSplit l r _ => ∀ started_at, u64_ok started_at →
      match finalize_split_with_parent xxh3_128 sha256 fuel tree_key source started_at removal parent t2 with
      | (t3, Ok o) => (∃ hint, o = SplitCompletion.Completed hint) ∧
          tree_ok (tree_of (im_logical_index_id m) tree_key (typed_view xxh3_128 sha256 t3)) ∧
          completed (tree_of (im_logical_index_id m) tree_key (typed_view xxh3_128 sha256 t3)) source l r started_at (ph_level h)
      | (_, Err _) => True
      | (_, Panic) => False
      end
  | PartitionTransition.Merging _ =>
      match finalize_merge_with_parent xxh3_128 sha256 fuel tree_key source removal parent t2 with
      | (t3, Ok o) => o = MergeCompletion.Completed ∧
          tree_ok (tree_of (im_logical_index_id m) tree_key (typed_view xxh3_128 sha256 t3)) ∧
          tr_header (tree_of (im_logical_index_id m) tree_key (typed_view xxh3_128 sha256 t3)) source = None
      | (_, Err _) => True
      | (_, Panic) => False
      end
  | _ => True
  end.
Proof.
  intros Hb Htk Hs Hc Hgb Hok Ha Hread Hmv Hnd Hrel Hall Hleaf Hfuel removal parent Hhint.
  destruct (child_relocation_runs xxh3_128 sha256 m types tree_key source children moves movement t t1 t2 slots (Ok n) Hb Htk Hs Hc Hgb Hread Hmv Hnd Hrel)
    as (_ & _ & Hmoves). destruct (Hmoves n eq_refl) as (_ & _ & Hb2 & Hm). clear Hmoves.
  pose proof (move_all_ok _ _ _ _ Hok Hm) as Hok2. destruct (moves_source _ _ _ _ _ _ Hm Ha) as [(h2 & Ha2 & El & Ec) Hed].
  assert (ph_entry_count h2 = 0) as H0'.
  { destruct (decide (ph_level h = 1)) as [H1'|H1'].
    - destruct moves as [|[e p] moves]; [rewrite Ec, len_nil; rewrite Hleaf by done; done|].
      exfalso. inversion Hm as [|e0 t0 mv T0 U0 V0 Htr _]; subst. inversion Htr; subst.
      match goal with He : tr_edge _ (source, _) = Some _ |- _ => pose proof (edge_internal _ _ _ _ Hok (mk_is_Some _ _ He) (proj1 Ha)) end. lia.
    - eapply no_edges_no_entries; [exact Hok2|apply Ha2|by rewrite El|]. intros c [Hin Hn]%Hed. by apply Hn, Hall. }
  rewrite <-El. destruct st as [at0|l r at0|src at0|l r at0|at0]; try done.
  - intros started_at Hat. pose proof (split_finishes xxh3_128 sha256 m types tree_key Htk fuel source h2 l r at0 started_at removal parent t2
      Hb2 Hs Hat Hhint Hfuel Hok2 Ha2 H0') as Hw. unfold wp in Hw. by destruct (finalize_split_with_parent _ _ _ _ _ _ _ _ t2) as [t3 [o|e|]].
  - pose proof (merge_finishes xxh3_128 sha256 m types tree_key Htk fuel source h2 at0 removal parent t2
      Hb2 Hs Hhint Hfuel Hok2 Ha2 H0') as Hw. unfold wp in Hw. by destruct (finalize_merge_with_parent _ _ _ _ _ _ _ t2) as [t3 [o|e|]].
Qed.

(** ** The root of the sample tree, draining into two targets *)
Definition sample_draining_writes : list (LogicalKey.t * option PersistentValue.t) :=
  [(LogicalKey.State 7 sample_tree_key 1, Some (PersistentValue.PartitionState (PartitionTransition.Splitting 3 4 6)));
   (LogicalKey.Header 7 sample_tree_key 1, sample_header 2 1 PartitionState.Splitting);
   (LogicalKey.TreeManifest 7 sample_tree_key, Some (PersistentValue.TreeManifest (mkTreeManifest 1 4)));
   (LogicalKey.Header 7 sample_tree_key 3, sample_header 2 0 PartitionState.ReceivingSplit);
   (LogicalKey.State 7 sample_tree_key 3, Some (PersistentValue.PartitionState (PartitionTransition.ReceivingSplit 1 7)));
   (LogicalKey.Centroid 7 sample_tree_key 3, Some (PersistentValue.PartitionCentroid [0; 0]));
   (LogicalKey.Header 7 sample_tree_key 4, sample_header 2 0 PartitionState.ReceivingSplit);
   (LogicalKey.State 7 sample_tree_key 4, Some (PersistentValue.PartitionState (PartitionTransition.ReceivingSplit 1 7)));
   (LogicalKey.Centroid 7 sample_tree_key 4, Some (PersistentValue.PartitionCentroid [0; 0]));
   (LogicalKey.State 7 sample_tree_key 1, Some (PersistentValue.PartitionState (PartitionTransition.DrainingSplit 3 4 7)));
   (LogicalKey.Header 7 sample_tree_key 1, sample_header 2 1 PartitionState.DrainingSplit)].
Definition sample_draining : WriteLogicalTxn WriteTxn := (mutate sample_hash (λ bs, bs) sample_draining_writes sample_merging).1.
Lemma sample_draining_wrote :
  typed_wrote sample_hash (λ bs, bs) sample_merging sample_draining (foldl set_typed (typed_view sample_hash (λ bs, bs) sample_merging) sample_draining_writes).
Proof.
  pose proof (over_mutate sample_hash (λ bs, bs) sample_manifest [DataType.F64] (typed_view sample_hash (λ bs, bs) sample_merging) sample_merging sample_draining_writes) as Hw.
  unfold wp in Hw. assert (is_ok (mutate sample_hash (λ bs, bs) sample_draining_writes sample_merging).2 = true) as E by (vm_compute; reflexivity).
  unfold sample_draining. destruct (mutate _ _ _ _) as [t' [[]|e|]]; [|done..]. cbn [fst]. apply Hw; [split; [apply sample_merging_bound|done]|].
  assert (∀ P : ∀ m, manifest_ok m → Prop, P sample_manifest sample_manifest_ok → bound_to (Some sample_manifest) P) as Hb.
  { intros P HP. by exists sample_manifest, sample_manifest_ok. }
  unfold sample_draining_writes, sample_header. each; (split; [dec_compute|]); intros x [= <-]; apply Hb; split; dec_compute.
Qed.
Lemma sample_draining_bound : bound sample_draining sample_manifest [DataType.F64].
Proof. eapply bound_mono; [apply sample_merging_bound|apply sample_draining_wrote]. Qed.
Definition sample_split_tree : Tree := set_high_water 4 (restated 1 (mkPartitionHeader 2 1 0 PartitionState.Ready) (PartitionTransition.Splitting 3 4 6) sample_merging_tree).
Definition sample_draining_tree : Tree :=
  restated 1 (mkPartitionHeader 2 1 0 PartitionState.Splitting) (PartitionTransition.DrainingSplit 3 4 7)
    (with_target 1 2 7 4 [0; 0] (with_target 1 2 7 3 [0; 0] sample_split_tree)).
Lemma sample_draining_tree_ok : tree_ok sample_draining_tree.
Proof.
  eapply step_ok; [eapply step_ok; [exact sample_merging_tree_ok|]|]; left; eexists.
  - by eapply (step_begin_split sample_merging_tree sample_split_tree 1 (mkPartitionHeader 2 1 0 PartitionState.Ready) 5 6).
  - by eapply (step_expose_root sample_split_tree sample_draining_tree (mkPartitionHeader 2 1 0 PartitionState.Splitting) 3 4 6 7 [0; 0] [0; 0]).
Qed.
Lemma sample_draining_tree_of : TransitionsSpec.tree_of 7 sample_tree_key (typed_view sample_hash (λ bs, bs) sample_draining) ≡ sample_draining_tree.
Proof.
  rewrite (tree_of_proper 7 sample_tree_key _ _ ltac:(dec_compute) ltac:(dec_compute) (tw_view _ _ _ _ _ sample_draining_wrote)).
  unfold sample_draining_writes. cbn [foldl].
  rewrite tree_set_header, tree_set_state, tree_set_centroid, tree_set_state, tree_set_header, tree_set_centroid, tree_set_state, tree_set_header, tree_set_manifest,
    tree_set_header, tree_set_state, sample_merging_tree_of by dec_compute. done.
Qed.
Definition sample_drain_read : WriteLogicalTxn WriteTxn * result (list (option ChildEntry)) :=
  read_child_drain_candidates sample_hash (λ bs, bs) sample_tree_key 1 [2] sample_draining.
Definition sample_drained : WriteLogicalTxn WriteTxn * result Z :=
  relocate_child_entries sample_hash (λ bs, bs) sample_tree_key 1 [(mkChildEntry 2 [0; 0], 3)] Movement.Split sample_drain_read.1.
Definition sample_finished : WriteLogicalTxn WriteTxn * result SplitCompletion.t :=
  finalize_split_with_parent sample_hash (λ bs, bs) 64 sample_tree_key 1 9 SourceRemoval.PointDeletes None sample_drained.1.
Lemma sample_drain_read_run : sample_drain_read = (sample_drain_read.1, Ok [Some (mkChildEntry 2 [0; 0])]).
Proof.
  assert (sample_drain_read.2 = Ok [Some (mkChildEntry 2 [0; 0])]) as E by (vm_compute; reflexivity). rewrite <-E. apply surjective_pairing.
Qed.
Lemma sample_drained_run : sample_drained = (sample_drained.1, Ok 1).
Proof. assert (sample_drained.2 = Ok 1) as E by (vm_compute; reflexivity). rewrite <-E. apply surjective_pairing. Qed.
Lemma sample_finished_run : sample_finished = (sample_finished.1, Ok (SplitCompletion.Completed None)).
Proof. assert (sample_finished.2 = Ok (SplitCompletion.Completed None)) as E by (vm_compute; reflexivity). rewrite <-E. apply surjective_pairing. Qed.
Lemma sample_draining_edges c : is_Some (tr_edge sample_draining_tree (1, c)) → c = 2.
Proof.
  change (tr_edge sample_draining_tree (1, c)) with (if decide ((1, 2) = (1, c)) then Some (mkChildEntry 2 [0; 0]) else None).
  destruct (decide ((1, 2) = (1, c))) as [E|]; [by injection E|by intros []].
Qed.
Lemma sample_draining_authority :
  authority (TransitionsSpec.tree_of 7 sample_tree_key (typed_view sample_hash (λ bs, bs) sample_draining)) 1
    (mkPartitionHeader 2 1 0 PartitionState.DrainingSplit) (PartitionTransition.DrainingSplit 3 4 7).
Proof.
  destruct sample_draining_tree_of as (_ & Eh & Es & _). split; [rewrite Eh|rewrite Es]; vm_compute; reflexivity.
Qed.
Lemma drained_transitions_finish_witness :
  sample_finished.2 = Ok (SplitCompletion.Completed None) ∧
  completed (TransitionsSpec.tree_of 7 sample_tree_key (typed_view sample_hash (λ bs, bs) sample_finished.1)) 1 3 4 9 2.
Proof.
  split; [vm_compute; reflexivity|].
  pose proof (drained_transitions_finish sample_hash (λ bs, bs) sample_manifest [DataType.F64] sample_tree_key 64 1
    (mkPartitionHeader 2 1 0 PartitionState.DrainingSplit) (PartitionTransition.DrainingSplit 3 4 7) [2] [(mkChildEntry 2 [0; 0], 3)] Movement.Split
    sample_draining sample_drain_read.1 sample_drained.1 [Some (mkChildEntry 2 [0; 0])] 1 sample_draining_bound) as H.
  specialize (H ltac:(dec_compute) ltac:(dec_compute) ltac:(dec_compute) ltac:(intros [gc Eg]; vm_compute in Eg; discriminate Eg)).
  specialize (H (tree_ok_equiv _ _ sample_draining_tree_of sample_draining_tree_ok) sample_draining_authority sample_drain_read_run).
  specialize (H ltac:(apply List.Forall_cons; [split; [by left|dec_compute]|apply List.Forall_nil]) ltac:(apply NoDup_singleton) sample_drained_run).
  specialize (H ltac:(intros c Hc; destruct sample_draining_tree_of as (_ & _ & _ & Ee & _); rewrite Ee in Hc; rewrite (sample_draining_edges c Hc); by left)).
  specialize (H ltac:(done) ltac:(vm_compute; lia) SourceRemoval.PointDeletes None ltac:(by intros q [=]) 9 ltac:(dec_compute)).
  change (finalize_split_with_parent sample_hash (λ bs, bs) 64 sample_tree_key 1 9 SourceRemoval.PointDeletes None sample_drained.1) with sample_finished in H.
  rewrite sample_finished_run in H. apply H.
Defined.
