(* ===== verification/Cache.v ===== *)
(** The byte-bounded S3-FIFO cache of partition bodies
    (src/src/search/cache.rs): its state behind the mutex, lookups and
    installations.  The graph of an [InternalGraph] body and the iteration order
    of a [HashMap] are parameters; [Panic] stands for an overflow, a failed
    debug assertion or exhausted fuel. *)
From stdpp Require Import gmap sorting.
From S2P Require Import Prelude RustStd Api TreeKey RaBitQ Records Intervals.

Module PartitionKind.
Inductive t := Leaf | Internal.
Definition from_level (level : Z) : t := if level =? 1 then Leaf else Internal.
End PartitionKind.
#[global] Instance partition_kind_eq_dec : EqDecision PartitionKind.t.
Proof. solve_decision. Defined.
Record CacheKey := mkCacheKey { ck_index : Z; ck_tree_key : list Z; ck_partition : Z; ck_kind : PartitionKind.t }.
#[global] Instance cache_key_eq_dec : EqDecision CacheKey.
Proof. solve_decision. Defined.
#[global] Instance cache_key_countable : Countable CacheKey.
Proof.
  refine (inj_countable'
    (λ k, (ck_index k, ck_tree_key k, ck_partition k, bool_decide (ck_kind k = PartitionKind.Leaf)))
    (λ '(i, t, p, b), mkCacheKey i t p (if b : bool then PartitionKind.Leaf else PartitionKind.Internal)) _).
  by intros [? ? ? []].
Defined.

(** ** Bodies *)
Record CachedLeafEntry := mkCachedLeaf {
  cl_record_id : list Z;
  cl_fields : list Value.t;
  cl_header : CodeHeader;
  cl_codes : Z * Z;
}.
Module BodyEntries.
Inductive t (G : Type) :=
  | Leaf (entries : list CachedLeafEntry) (codes : list Z)
  | Internal (entries : list ChildEntry)
  | InternalGraph (body : G).
Arguments Leaf {G}.
Arguments Internal {G}.
Arguments InternalGraph {G}.
End BodyEntries.
Record CachedBody (G : Type) := mkCachedBody { cb_epoch : Z; cb_bytes : Z; cb_entries : BodyEntries.t G }.
Arguments mkCachedBody {G}.
Arguments cb_epoch {G}.
Arguments cb_bytes {G}.
Arguments cb_entries {G}.

(** ** State *)
Module QueueKind.
Inductive t := Small | Main.
End QueueKind.
#[global] Instance queue_kind_eq_dec : EqDecision QueueKind.t.
Proof. solve_decision. Defined.
Definition SMALL_QUEUE_DIVISOR : Z := 10.
Definition MAX_FREQUENCY : Z := 3.
Record QueueRecord := mkQueueRecord { qr_key : CacheKey; qr_tick : Z }.
#[global] Instance queue_record_eq_dec : EqDecision QueueRecord.
Proof. solve_decision. Defined.
Record CacheSlot (G : Type) := mkSlot { sl_body : CachedBody G; sl_frequency : Z; sl_queue : QueueKind.t; sl_queue_tick : Z }.
Arguments mkSlot {G}.
Arguments sl_body {G}.
Arguments sl_frequency {G}.
Arguments sl_queue {G}.
Arguments sl_queue_tick {G}.
Record CacheInner (G : Type) := mkInner {
  ci_slots : gmap CacheKey (CacheSlot G);
  ci_small : list QueueRecord;
  ci_main : list QueueRecord;
  ci_ghost_set : gset CacheKey;
  ci_ghost_order : list CacheKey;
  ci_queue_tick : Z;
  ci_small_bytes : Z;
  ci_main_bytes : Z;
}.
Arguments mkInner {G}.
Arguments ci_slots {G}.
Arguments ci_small {G}.
Arguments ci_main {G}.
Arguments ci_ghost_set {G}.
Arguments ci_ghost_order {G}.
Arguments ci_queue_tick {G}.
Arguments ci_small_bytes {G}.
Arguments ci_main_bytes {G}.
Record PartitionCache (G : Type) := mkCache { pc_capacity_bytes : Z; pc_inner : CacheInner G }.
Arguments mkCache {G}.
Arguments pc_capacity_bytes {G}.
Arguments pc_inner {G}.
Module CacheInstallResult.
Inductive t := Installed | SkippedOversized | SkippedStale.
End CacheInstallResult.

Definition u64_add (a b : Z) : result Z := if a + b <? 2 ^ 64 then Ok (a + b) else Panic.
Definition u64_sub (a b : Z) : result Z := if b <=? a then Ok (a - b) else Panic.
Definition saturating_mul_usize (a b : Z) : Z := Z.min (2 ^ 64 - 1) (a * b).
Definition saturating_add_usize (a b : Z) : Z := Z.min (2 ^ 64 - 1) (a + b).
Definition by_tick (a b : QueueRecord) : comparison := qr_tick a ?= qr_tick b.

Section cache.
Context {G : Type} (hash_order : gmap CacheKey (CacheSlot G) → list CacheKey).
Abbreviation Inner := (CacheInner G).
Abbreviation Body := (CachedBody G).
Implicit Types (c : Inner) (key : CacheKey) (queue : QueueKind.t) (body : Body).

Definition PartitionCache_new (capacity_bytes : Z) : PartitionCache G :=
  mkCache capacity_bytes (mkInner ∅ [] [] ∅ [] 0 0 0).

(** Field updates. *)
Definition set_slots slots c : Inner :=
  mkInner slots (ci_small c) (ci_main c) (ci_ghost_set c) (ci_ghost_order c) (ci_queue_tick c) (ci_small_bytes c) (ci_main_bytes c).
Definition set_tick tick c : Inner :=
  mkInner (ci_slots c) (ci_small c) (ci_main c) (ci_ghost_set c) (ci_ghost_order c) tick (ci_small_bytes c) (ci_main_bytes c).
Definition set_ghosts ghosts order c : Inner :=
  mkInner (ci_slots c) (ci_small c) (ci_main c) ghosts order (ci_queue_tick c) (ci_small_bytes c) (ci_main_bytes c).
Definition records queue c : list QueueRecord := match queue with QueueKind.Small => ci_small c | QueueKind.Main => ci_main c end.
Definition set_records queue rs c : Inner :=
  match queue with
  | QueueKind.Small => mkInner (ci_slots c) rs (ci_main c) (ci_ghost_set c) (ci_ghost_order c) (ci_queue_tick c) (ci_small_bytes c) (ci_main_bytes c)
  | QueueKind.Main => mkInner (ci_slots c) (ci_small c) rs (ci_ghost_set c) (ci_ghost_order c) (ci_queue_tick c) (ci_small_bytes c) (ci_main_bytes c)
  end.
Definition push_back queue r c : Inner := set_records queue (records queue c ++ [r]) c.
Definition queue_bytes queue c : Z := match queue with QueueKind.Small => ci_small_bytes c | QueueKind.Main => ci_main_bytes c end.
Definition set_queue_bytes queue n c : Inner :=
  match queue with
  | QueueKind.Small => mkInner (ci_slots c) (ci_small c) (ci_main c) (ci_ghost_set c) (ci_ghost_order c) (ci_queue_tick c) n (ci_main_bytes c)
  | QueueKind.Main => mkInner (ci_slots c) (ci_small c) (ci_main c) (ci_ghost_set c) (ci_ghost_order c) (ci_queue_tick c) (ci_small_bytes c) n
  end.
Definition slots_len c : Z := Z.of_nat (size (ci_slots c)).

(** ** Queue ticks *)
Fixpoint renumber_loop (keys : list CacheKey) c : result Inner :=
  match keys with
  | [] => Ok c
  | key :: keys =>
      u64_add (ci_queue_tick c) 1 ≫= λ tick,
      let c := set_tick tick c in
      match ci_slots c !! key with
      | Some slot =>
          let c := set_slots (<[key := mkSlot (sl_body slot) (sl_frequency slot) (sl_queue slot) tick]> (ci_slots c)) c in
          renumber_loop keys (push_back (sl_queue slot) (mkQueueRecord key tick) c)
      | None => renumber_loop keys c
      end
  end.
Definition renumber c : result Inner :=
  renumber_loop (hash_order (ci_slots c)) (set_tick 0 (set_records QueueKind.Main [] (set_records QueueKind.Small [] c))).
Definition next_queue_tick c : result (Inner * Z) :=
  (if ci_queue_tick c =? 2 ^ 64 - 1 then renumber c else Ok c) ≫= λ c,
  u64_add (ci_queue_tick c) 1 ≫= λ tick, Ok (set_tick tick c, tick).

(** ** Admission and removal *)
Definition insert key body (small_capacity_bytes : Z) c : result Inner :=
  let queue :=
    if bool_decide (key ∈ ci_ghost_set c) || (small_capacity_bytes <? cb_bytes body) then QueueKind.Main else QueueKind.Small in
  next_queue_tick c ≫= λ '(c, tick),
  u64_add (queue_bytes queue c) (cb_bytes body) ≫= λ bytes,
  let c := push_back queue (mkQueueRecord key tick) (set_queue_bytes queue bytes c) in
  Ok (set_slots (<[key := mkSlot body 0 queue tick]> (ci_slots c)) c).
Definition remove key c : result (Inner * option Body) :=
  match ci_slots c !! key with
  | None => Ok (c, None)
  | Some slot =>
      let c := set_slots (delete key (ci_slots c)) c in
      u64_sub (queue_bytes (sl_queue slot) c) (cb_bytes (sl_body slot)) ≫= λ bytes,
      Ok (set_queue_bytes (sl_queue slot) bytes c, Some (sl_body slot))
  end.

(** ** Eviction *)
Definition live (slots : gmap CacheKey (CacheSlot G)) queue (r : QueueRecord) : bool :=
  match slots !! qr_key r with
  | Some slot => bool_decide (sl_queue slot = queue) && (sl_queue_tick slot =? qr_tick r)
  | None => false
  end.
Fixpoint pop_records (slots : gmap CacheKey (CacheSlot G)) queue (rs : list QueueRecord) : list QueueRecord * option CacheKey :=
  match rs with
  | [] => ([], None)
  | r :: rs => if live slots queue r then (rs, Some (qr_key r)) else pop_records slots queue rs
  end.
Definition pop_live queue c : Inner * option CacheKey :=
  let '(rs, found) := pop_records (ci_slots c) queue (records queue c) in (set_records queue rs c, found).
Fixpoint trim_ghosts (limit : Z) (ghosts : gset CacheKey) (order : list CacheKey) : gset CacheKey * list CacheKey :=
  match order with
  | [] => (ghosts, order)
  | front :: rest => if limit <? Z.of_nat (size ghosts) then trim_ghosts limit (ghosts ∖ {[front]}) rest else (ghosts, order)
  end.
Definition ghost_limit c : Z := saturating_add_usize (saturating_mul_usize (slots_len c) 2) 1024.
Definition ghost_insert key c : Inner :=
  let order := if decide (key ∈ ci_ghost_set c) then ci_ghost_order c else ci_ghost_order c ++ [key] in
  let '(ghosts, order) := trim_ghosts (ghost_limit c) ({[key]} ∪ ci_ghost_set c) order in
  set_ghosts ghosts order c.
Definition evict_small_front key (evicted : list Body) c : result (Inner * list Body) :=
  match ci_slots c !! key with
  | None => Ok (c, evicted)
  | Some slot =>
      if 0 <? sl_frequency slot then
        let bytes := cb_bytes (sl_body slot) in
        next_queue_tick c ≫= λ '(c, tick),
        let c := set_slots (alter (λ slot, mkSlot (sl_body slot) 0 QueueKind.Main tick) key (ci_slots c)) c in
        u64_sub (ci_small_bytes c) bytes ≫= λ small,
        u64_add (ci_main_bytes c) bytes ≫= λ main,
        Ok (push_back QueueKind.Main (mkQueueRecord key tick) (set_queue_bytes QueueKind.Main main (set_queue_bytes QueueKind.Small small c)), evicted)
      else
        remove key c ≫= λ '(c, body), Ok (ghost_insert key c, evicted ++ option_list body)
  end.
Definition evict_main_front key (evicted : list Body) c : result (Inner * list Body) :=
  match ci_slots c !! key with
  | None => Ok (c, evicted)
  | Some slot =>
      if 0 <? sl_frequency slot then
        next_queue_tick c ≫= λ '(c, tick),
        let c := set_slots (alter (λ slot, mkSlot (sl_body slot) (sl_frequency slot - 1) (sl_queue slot) tick) key (ci_slots c)) c in
        Ok (push_back QueueKind.Main (mkQueueRecord key tick) c, evicted)
      else
        remove key c ≫= λ '(c, body), Ok (c, evicted ++ option_list body)
  end.
Fixpoint evict_loop (fuel : nat) (capacity_bytes small_capacity_bytes : Z) (evicted : list Body) c : result (Inner * list Body) :=
  u64_add (ci_small_bytes c) (ci_main_bytes c) ≫= λ total,
  if total <=? capacity_bytes then Ok (c, evicted)
  else
    match fuel with
    | O => Panic
    | S fuel =>
        let again := λ '(c, evicted), evict_loop fuel capacity_bytes small_capacity_bytes evicted c in
        let from_small := λ c (otherwise : Inner → result (Inner * list Body)),
          let '(c, found) := pop_live QueueKind.Small c in
          match found with Some key => evict_small_front key evicted c ≫= again | None => otherwise c end in
        let from_main := λ c,
          let '(c, found) := pop_live QueueKind.Main c in
          match found with
          | Some key => evict_main_front key evicted c ≫= again
          | None =>
              from_small c (λ c,
                if decide (ci_slots c = ∅) then
                  Ok (set_queue_bytes QueueKind.Main 0 (set_queue_bytes QueueKind.Small 0 (set_ghosts ∅ [] c)), evicted)
                else Panic)
          end in
        if small_capacity_bytes <? ci_small_bytes c then from_small c from_main else from_main c
    end.
(** Every turn removes a slot, moves one to the main queue, or spends one of its
    at most three marks. *)
Definition evict_within_capacity (capacity_bytes small_capacity_bytes : Z) (evicted : list Body) c : result (Inner * list Body) :=
  evict_loop (4 * size (ci_slots c)) capacity_bytes small_capacity_bytes evicted c.
Definition slot_records queue c : list QueueRecord :=
  omap (λ key, match ci_slots c !! key with
               | Some slot => if decide (sl_queue slot = queue) then Some (mkQueueRecord key (sl_queue_tick slot)) else None
               | None => None
               end) (hash_order (ci_slots c)).
Definition compact_queues c : Inner :=
  if len (ci_small c) + len (ci_main c) <=? saturating_add_usize (saturating_mul_usize (slots_len c) 2) 64 then c
  else
    set_records QueueKind.Main (sort_by by_tick (slot_records QueueKind.Main c))
      (set_records QueueKind.Small (sort_by by_tick (slot_records QueueKind.Small c)) c).

(** ** The cache *)
Definition with_inner (p : PartitionCache G) (inner : Inner) : PartitionCache G := mkCache (pc_capacity_bytes p) inner.
Definition lookup (p : PartitionCache G) key (epoch : Z) : result (PartitionCache G * option Body) :=
  let c := pc_inner p in
  match ci_slots c !! key with
  | Some slot =>
      if cb_epoch (sl_body slot) =? epoch then
        let slot' := mkSlot (sl_body slot) (Z.min (sl_frequency slot + 1) MAX_FREQUENCY) (sl_queue slot) (sl_queue_tick slot) in
        Ok (with_inner p (set_slots (<[key := slot']> (ci_slots c)) c), Some (sl_body slot))
      else if cb_epoch (sl_body slot) <? epoch then
        remove key c ≫= λ '(c, _), Ok (with_inner p c, None)
      else Ok (p, None)
  | None => Ok (p, None)
  end.
(** Whether the existing body wins against the offered one. *)
Definition keeps_existing (existing body : Body) : bool :=
  (cb_epoch body <? cb_epoch existing)
  || (cb_epoch existing =? cb_epoch body)
     && match cb_entries existing, cb_entries body with BodyEntries.InternalGraph _, BodyEntries.Internal _ => true | _, _ => false end.
Definition install (p : PartitionCache G) key body : result (PartitionCache G * CacheInstallResult.t) :=
  let capacity := pc_capacity_bytes p in
  if capacity <? cb_bytes body then Ok (p, CacheInstallResult.SkippedOversized)
  else
    let small_capacity := capacity / SMALL_QUEUE_DIVISOR in
    let c := pc_inner p in
    let publish := λ '(c, evicted),
      insert key body small_capacity c ≫= λ c,
      evict_within_capacity capacity small_capacity evicted c ≫= λ '(c, _),
      Ok (with_inner p (compact_queues c), CacheInstallResult.Installed) in
    match ci_slots c !! key with
    | Some existing =>
        if keeps_existing (sl_body existing) body then Ok (p, CacheInstallResult.SkippedStale)
        else remove key c ≫= λ '(c, removed), publish (c, option_list removed)
    | None => publish (c, [])
    end.
End cache.
