(* ===== verification/CacheSpec.v ===== *)
(** Correctness of the partition cache: its accounting and queue invariant under
    every operation, with eviction that ends within capacity and never reaches
    its guard, and its refinement of a plain S3-FIFO over two lists. *)
From stdpp Require Import gmap sorting.
From S2P Require Import Prelude RustStd Api TreeKey RaBitQ Records Intervals Cache.

(** ** Sums over a map *)
Section sums.
Context {K : Type} `{Countable K} {A : Type}.
Implicit Types (w : A → Z) (m : gmap K A).
Definition gsum w m : Z := map_fold (λ _ a acc, w a + acc) 0 m.
Lemma gsum_empty w : gsum w ∅ = 0.
Proof. apply map_fold_empty. Qed.
Lemma gsum_new w m k a : m !! k = None → gsum w (<[k := a]> m) = w a + gsum w m.
Proof. intros Hk. unfold gsum. rewrite map_fold_insert_L; [done|intros; lia|done]. Qed.
Lemma gsum_at w m k a : m !! k = Some a → gsum w m = w a + gsum w (delete k m).
Proof. intros Hk. unfold gsum. rewrite (map_fold_delete_L _ _ k a); [done|intros; lia|done]. Qed.
Lemma gsum_update w m k a b : m !! k = Some a → gsum w (<[k := b]> m) = gsum w m - w a + w b.
Proof.
  intros Hk. rewrite (gsum_at w m k a Hk), (gsum_at w (<[k := b]> m) k b) by apply lookup_insert_eq. rewrite delete_insert_eq. lia.
Qed.
Lemma gsum_le w w' m : (∀ k a, m !! k = Some a → w a ≤ w' a) → gsum w m ≤ gsum w' m.
Proof.
  induction m as [|k a m Hk IH] using map_ind; intros Hw; [by rewrite !gsum_empty|]. rewrite !gsum_new by done.
  pose proof (Hw k a (lookup_insert_eq _ _ _)). enough (gsum w m ≤ gsum w' m) by lia. apply IH. intros j b Hj. apply (Hw j). by rewrite lookup_insert_ne by congruence.
Qed.
Lemma gsum_add w w' w'' m : (∀ a, w'' a = w a + w' a) → gsum w'' m = gsum w m + gsum w' m.
Proof. intros Hw. induction m as [|k a m Hk IH] using map_ind; [by rewrite !gsum_empty|]. rewrite !gsum_new by done. rewrite Hw. lia. Qed.
Lemma gsum_const n m : gsum (λ _, n) m = n * Z.of_nat (size m).
Proof.
  induction m as [|k a m Hk IH] using map_ind; [rewrite gsum_empty, map_size_empty; lia|]. rewrite gsum_new, map_size_insert_None by done. lia.
Qed.
Lemma gsum_nonneg w m : (∀ k a, m !! k = Some a → 0 ≤ w a) → 0 ≤ gsum w m.
Proof. intros Hw. rewrite <-(Z.mul_0_l (Z.of_nat (size m))), <-(gsum_const 0). by apply gsum_le. Qed.
Lemma gsum_forget {B} (f : A → B) (w : B → Z) m m' :
  (∀ k, f <$> m !! k = f <$> m' !! k) → gsum (λ a, w (f a)) m = gsum (λ a, w (f a)) m'.
Proof.
  revert m'. induction m as [|k a m Hk IH] using map_ind; intros m' He.
  - assert (m' = ∅) as ->; [|done]. apply map_empty. intros k. specialize (He k). rewrite lookup_empty in He. by destruct (m' !! k).
  - rewrite gsum_new by done. pose proof (He k) as Hek. rewrite lookup_insert_eq in Hek. destruct (m' !! k) as [b|] eqn:Eb; [|done].
    injection Hek as Hf. rewrite (gsum_at _ m' k b Eb), <-Hf. f_equal. apply IH. intros j. destruct (decide (j = k)) as [->|Hj].
    + by rewrite Hk, lookup_delete_eq.
    + rewrite lookup_delete_ne by congruence. rewrite <-He. by rewrite lookup_insert_ne by congruence.
Qed.
End sums.

(** ** The specification: S3-FIFO over two lists of keys *)
Record Fifo (G : Type) := mkFifo {
  ff_small : list CacheKey;
  ff_main : list CacheKey;
  ff_ghosts : list CacheKey;
  ff_data : gmap CacheKey (CachedBody G * Z);
}.
Arguments mkFifo {G}.
Arguments ff_small {G}.
Arguments ff_main {G}.
Arguments ff_ghosts {G}.
Arguments ff_data {G}.
Section fifo.
Context {G : Type}.
Implicit Types (F : Fifo G) (k : CacheKey) (body : CachedBody G).
Definition fifo_bytes F (ks : list CacheKey) : Z :=
  foldr (λ k n, match ff_data F !! k with Some (body, _) => cb_bytes body | None => 0 end + n) 0 ks.
Definition admitted_to (small_cap : Z) (ghosts : list CacheKey) k body : QueueKind.t :=
  if decide (k ∈ ghosts ∨ small_cap < cb_bytes body) then QueueKind.Main else QueueKind.Small.
Definition fifo_remove k F : Fifo G :=
  mkFifo (filter (λ j, j ≠ k) (ff_small F)) (filter (λ j, j ≠ k) (ff_main F)) (ff_ghosts F) (delete k (ff_data F)).
Definition fifo_insert (small_cap : Z) k body F : Fifo G :=
  let data := <[k := (body, 0)]> (ff_data F) in
  match admitted_to small_cap (ff_ghosts F) k body with
  | QueueKind.Small => mkFifo (ff_small F ++ [k]) (ff_main F) (ff_ghosts F) data
  | QueueKind.Main => mkFifo (ff_small F) (ff_main F ++ [k]) (ff_ghosts F) data
  end.
(** The newest keys that left the small queue, at most two per live body and 1024. *)
Definition remember (live : nat) k (ghosts : list CacheKey) : list CacheKey :=
  let order := if decide (k ∈ ghosts) then ghosts else ghosts ++ [k] in
  drop (length order - Z.to_nat (saturating_add_usize (saturating_mul_usize (Z.of_nat live) 2) 1024)) order.
Definition fifo_evict_small F : Fifo G :=
  match ff_small F with
  | [] => F
  | k :: small =>
      match ff_data F !! k with
      | None => F
      | Some (body, marks) =>
          if 0 <? marks then mkFifo small (ff_main F ++ [k]) (ff_ghosts F) (<[k := (body, 0)]> (ff_data F))
          else let data := delete k (ff_data F) in mkFifo small (ff_main F) (remember (size data) k (ff_ghosts F)) data
      end
  end.
Definition fifo_evict_main F : Fifo G :=
  match ff_main F with
  | [] => F
  | k :: main =>
      match ff_data F !! k with
      | None => F
      | Some (body, marks) =>
          if 0 <? marks then mkFifo (ff_small F) (main ++ [k]) (ff_ghosts F) (<[k := (body, marks - 1)]> (ff_data F))
          else mkFifo (ff_small F) main (ff_ghosts F) (delete k (ff_data F))
      end
  end.
Definition fifo_evict_one (small_cap : Z) F : Fifo G :=
  if small_cap <? fifo_bytes F (ff_small F) then fifo_evict_small F
  else match ff_main F with [] => fifo_evict_small F | _ => fifo_evict_main F end.
Fixpoint fifo_evict (fuel : nat) (cap small_cap : Z) F : Fifo G :=
  if fifo_bytes F (ff_small F) + fifo_bytes F (ff_main F) <=? cap then F
  else match fuel with O => F | S fuel => fifo_evict fuel cap small_cap (fifo_evict_one small_cap F) end.
Definition fifo_install (cap : Z) k body F : Fifo G :=
  let small_cap := cap / SMALL_QUEUE_DIVISOR in
  let admitted := fifo_insert small_cap k body (fifo_remove k F) in
  fifo_evict (4 * size (ff_data admitted)) cap small_cap admitted.
Definition fifo_touch k F : Fifo G :=
  mkFifo (ff_small F) (ff_main F) (ff_ghosts F) (alter (λ '(body, marks), (body, Z.min (marks + 1) MAX_FREQUENCY)) k (ff_data F)).
End fifo.

(** ** The invariant *)
Section invariant.
Context {G : Type} (hash_order : gmap CacheKey (CacheSlot G) → list CacheKey).
Context (Horder : ∀ m, hash_order m ≡ₚ (map_to_list m).*1).
Context (cap : Z) (Hcap : 0 ≤ cap ∧ 2 * cap < 2 ^ 64).
Implicit Types (c : CacheInner G) (q : QueueKind.t) (k : CacheKey) (s : CacheSlot G) (r : QueueRecord).

Definition older r1 r2 : Prop := qr_tick r1 < qr_tick r2.
Definition slot_data s := (sl_body s, sl_frequency s, sl_queue s).
Definition weigh q s : Z := if decide (sl_queue s = q) then cb_bytes (sl_body s) else 0.
(** [x] is the key whose record has just been popped. *)
Record inv (x : option CacheKey) c : Prop := {
  iv_bytes q : queue_bytes q c = gsum (weigh q) (ci_slots c);
  iv_slot k s : ci_slots c !! k = Some s → 0 ≤ sl_frequency s ≤ MAX_FREQUENCY ∧ 1 ≤ cb_bytes (sl_body s) ≤ cap ∧ sl_queue_tick s ≤ ci_queue_tick c;
  iv_record k s : ci_slots c !! k = Some s → x ≠ Some k → mkQueueRecord k (sl_queue_tick s) ∈ records (sl_queue s) c;
  iv_tick : 0 ≤ ci_queue_tick c < 2 ^ 64;
  iv_bound q r : r ∈ records q c → qr_tick r ≤ ci_queue_tick c;
  iv_sorted q : StronglySorted older (records q c);
  iv_ghosts : ci_ghost_set c = list_to_set (ci_ghost_order c) ∧ NoDup (ci_ghost_order c);
}.
Definition total c : Z := ci_small_bytes c + ci_main_bytes c.

Lemma total_sum x c : inv x c → total c = gsum (λ s, cb_bytes (sl_body s)) (ci_slots c).
Proof.
  intros Hi. unfold total. pose proof (iv_bytes _ _ Hi QueueKind.Small) as E1. pose proof (iv_bytes _ _ Hi QueueKind.Main) as E2. cbn [queue_bytes] in *.
  rewrite E1, E2. symmetry. apply gsum_add. intros s. unfold weigh. destruct (sl_queue s); (destruct (decide _); [|done]); (destruct (decide _); [done|]); lia.
Qed.
Lemma slots_bounded x c : inv x c → Z.of_nat (size (ci_slots c)) ≤ total c.
Proof.
  intros Hi. rewrite (total_sum _ _ Hi). rewrite <-(Z.mul_1_l (Z.of_nat _)), <-gsum_const. apply gsum_le. intros k s Hk. apply (iv_slot _ _ Hi) in Hk as (_ & ? & _). lia.
Qed.
Lemma bytes_nonneg x c q : inv x c → 0 ≤ queue_bytes q c.
Proof.
  intros Hi. rewrite (iv_bytes _ _ Hi). apply gsum_nonneg. intros k s Hk. apply (iv_slot _ _ Hi) in Hk as (_ & ? & _). unfold weigh. case_decide; lia.
Qed.
Lemma queue_total x c q : inv x c → queue_bytes q c ≤ total c.
Proof.
  intros Hi. pose proof (bytes_nonneg _ _ QueueKind.Small Hi). pose proof (bytes_nonneg _ _ QueueKind.Main Hi). unfold total. destruct q; cbn in *; lia.
Qed.
Lemma slot_within x c k s : inv x c → ci_slots c !! k = Some s → cb_bytes (sl_body s) ≤ queue_bytes (sl_queue s) c.
Proof.
  intros Hi Hk. rewrite (iv_bytes _ _ Hi), (gsum_at _ _ _ _ Hk). unfold weigh at 1. rewrite decide_True by done.
  enough (0 ≤ gsum (weigh (sl_queue s)) (delete k (ci_slots c))) by lia. apply gsum_nonneg. intros j s' [_ Hj]%lookup_delete_Some.
  apply (iv_slot _ _ Hi) in Hj as (_ & ? & _). unfold weigh. case_decide; lia.
Qed.
Lemma weaken x c : inv None c → inv x c.
Proof. intros [? ? Hr ? ? ? ?]. split; try done. intros k s Hk _. by apply Hr. Qed.

(** ** Queue ticks *)
Lemma u64_add_ok a b : a + b < 2 ^ 64 → u64_add a b = Ok (a + b).
Proof. unfold u64_add. by destruct (Z.ltb_spec (a + b) (2 ^ 64)); [|lia]. Qed.
Lemma u64_sub_ok a b : b ≤ a → u64_sub a b = Ok (a - b).
Proof. unfold u64_sub. by destruct (Z.leb_spec b a); [|lia]. Qed.
Lemma sorted_push rs r : StronglySorted older rs → (∀ r', r' ∈ rs → older r' r) → StronglySorted older (rs ++ [r]).
Proof.
  intros Hs Hr. induction Hs as [|r0 rs Hs IH Hf]; cbn [app]; [by repeat constructor|]. constructor.
  - apply IH. intros r' ?. apply Hr. by right.
  - apply Forall_app. split; [done|]. constructor; [|constructor]. apply Hr. by left.
Qed.
(** [c'] differs from [c] in ticks and queues only. *)
Record same_slots c c' : Prop := {
  ss_data k : slot_data <$> ci_slots c' !! k = slot_data <$> ci_slots c !! k;
  ss_bytes q : queue_bytes q c' = queue_bytes q c;
  ss_ghosts : ci_ghost_set c' = ci_ghost_set c ∧ ci_ghost_order c' = ci_ghost_order c;
}.
Lemma same_size c c' : same_slots c c' → size (ci_slots c') = size (ci_slots c).
Proof.
  intros Hs. rewrite <-!size_dom. f_equal. apply set_eq. intros k. rewrite !elem_of_dom. pose proof (ss_data _ _ Hs k).
  destruct (ci_slots c' !! k), (ci_slots c !! k); try done; by rewrite !is_Some_alt.
Qed.
Lemma renumber_loop_ok keys c :
  NoDup keys → 0 ≤ ci_queue_tick c → ci_queue_tick c + len keys < 2 ^ 64 →
  (∀ q, StronglySorted older (records q c)) → (∀ q r, r ∈ records q c → qr_tick r ≤ ci_queue_tick c) →
  ∃ c', renumber_loop keys c = Ok c' ∧ same_slots c c' ∧ ci_queue_tick c ≤ ci_queue_tick c' ≤ ci_queue_tick c + len keys ∧
    (∀ q, StronglySorted older (records q c')) ∧ (∀ q r, r ∈ records q c' → qr_tick r ≤ ci_queue_tick c') ∧
    (∀ q r, r ∈ records q c → r ∈ records q c') ∧
    ∀ k s', ci_slots c' !! k = Some s' → (k ∈ keys ∧ mkQueueRecord k (sl_queue_tick s') ∈ records (sl_queue s') c') ∨ (¬ k ∈ keys ∧ ci_slots c !! k = Some s').
Proof.
  unfold len. intros Hnd. revert c. induction Hnd as [|k keys Hk Hnd IH]; intros c H0 Hlt Hs Hb; cbn [renumber_loop].
  { exists c. split_and!; try done; [cbn in *; lia..|]. intros k s' ?. right. split; [by intros ?%elem_of_nil|done]. }
  cbn [length] in Hlt. rewrite u64_add_ok by lia. cbn [mbind result_bind].
  set (tick := ci_queue_tick c + 1). cbn [set_tick ci_slots]. destruct (ci_slots c !! k) as [s|] eqn:Es.
  - set (c1 := push_back (sl_queue s) _ _).
    assert (∀ q, records q c1 = if decide (q = sl_queue s) then records q c ++ [mkQueueRecord k tick] else records q c) as Er.
    { intros q. unfold c1, push_back. by destruct q, (sl_queue s). }
    assert (ci_queue_tick c1 = tick) as Et by by destruct (sl_queue s).
    assert (ci_slots c1 = <[k := mkSlot (sl_body s) (sl_frequency s) (sl_queue s) tick]> (ci_slots c)) as Esl by by destruct (sl_queue s).
    destruct (IH c1) as (c' & Hc' & Hsame & Htick & Hs' & Hb' & Hsub & Hrec).
    + lia.
    + lia.
    + intros q. rewrite Er. case_decide; [|done]. apply sorted_push; [done|]. intros r' Hr'%Hb. unfold older. cbn. lia.
    + intros q r. rewrite Er, Et. case_decide; [rewrite elem_of_app, list_elem_of_singleton; intros [Hr%Hb| ->]; cbn; lia|intros Hr%Hb; lia].
    + exists c'. split; [exact Hc'|]. split_and!; try done.
      * destruct Hsame as [Hd Hby Hg]. split.
        -- intros j. rewrite Hd, Esl. destruct (decide (j = k)) as [->|]; [by rewrite lookup_insert_eq, Es|by rewrite lookup_insert_ne by congruence].
        -- intros q. rewrite Hby. unfold c1, push_back. by destruct q, (sl_queue s).
        -- destruct Hg as [-> ->]. by destruct (sl_queue s).
      * lia.
      * cbn [length]. lia.
      * intros q r Hr. apply Hsub. rewrite Er. case_decide; [|done]. apply elem_of_app. by left.
      * intros j s' Hj. destruct (Hrec j s' Hj) as [[? ?]|[Hn Hj1]]; [left; split; [by right|done]|]. rewrite Esl in Hj1.
        destruct (decide (j = k)) as [->|Hne].
        -- rewrite lookup_insert_eq in Hj1. injection Hj1 as <-. left. split; [by left|]. apply Hsub. cbn [sl_queue sl_queue_tick]. rewrite Er, decide_True by done.
           apply elem_of_app. right. by left.
        -- rewrite lookup_insert_ne in Hj1 by congruence. right. split; [|done]. by intros [?|?]%elem_of_cons.
  - destruct (IH (set_tick tick c)) as (c' & Hc' & Hsame & Htick & Hs' & Hb' & Hsub & Hrec).
    + cbn. lia.
    + cbn. lia.
    + intros q. specialize (Hs q). by destruct q.
    + intros q r Hr. assert (qr_tick r ≤ ci_queue_tick c) by (eapply (Hb q); by destruct q). cbn. lia.
    + exists c'. split; [exact Hc'|]. cbn [set_tick ci_queue_tick] in *. split_and!; try done; [by destruct Hsame as [? Hq ?]; split; [|intros q; rewrite Hq; by destruct q|]|lia|cbn [length]; lia|].
      intros j s' Hj. destruct (Hrec j s' Hj) as [[? ?]|[Hn Hj1]]; [left; split; [by right|done]|]. right. split; [|done].
      intros [->|?]%elem_of_cons; [|done]. cbn in Hj1. congruence.
Qed.
(** A fresh tick, above every other. *)
Definition fresh tick c : Prop :=
  ci_queue_tick c = tick ∧ (∀ q r, r ∈ records q c → qr_tick r < tick) ∧ ∀ k s, ci_slots c !! k = Some s → sl_queue_tick s < tick.
Lemma inv_same x c c' :
  inv x c → same_slots c c' → 0 ≤ ci_queue_tick c' < 2 ^ 64 → (∀ k s, ci_slots c' !! k = Some s → sl_queue_tick s ≤ ci_queue_tick c') →
  (∀ k s, ci_slots c' !! k = Some s → x ≠ Some k → mkQueueRecord k (sl_queue_tick s) ∈ records (sl_queue s) c') →
  (∀ q r, r ∈ records q c' → qr_tick r ≤ ci_queue_tick c') → (∀ q, StronglySorted older (records q c')) → inv x c'.
Proof.
  intros Hi [Hd Hb [Hg Hg']] Ht Hst Hr Hbd Hs. split; try done.
  - intros q. rewrite Hb, (iv_bytes _ _ Hi).
    pose (w := λ d : CachedBody G * Z * QueueKind.t, if decide (d.2 = q) then cb_bytes d.1.1 else 0). symmetry. exact (gsum_forget slot_data w _ _ Hd).
  - intros k s Hk. specialize (Hd k). rewrite Hk in Hd. destruct (ci_slots c !! k) as [s0|] eqn:E; [|done]. injection Hd as Eb Ef Eq.
    destruct (iv_slot _ _ Hi k s0 E) as (? & ? & _). rewrite Eb, Ef. split_and!; [lia..|]. by eapply Hst.
  - rewrite Hg, Hg'. apply Hi.
Qed.
Lemma next_queue_tick_ok x c :
  inv x c → Z.of_nat (size (ci_slots c)) < 2 ^ 64 - 1 →
  ∃ c' tick, next_queue_tick hash_order c = Ok (c', tick) ∧ inv x c' ∧ same_slots c c' ∧ fresh tick c' ∧
    (ci_queue_tick c ≠ 2 ^ 64 - 1 → c' = set_tick tick c ∧ tick = ci_queue_tick c + 1).
Proof.
  intros Hi Hsz. pose proof (iv_tick _ _ Hi) as Ht. unfold next_queue_tick.
  assert (∀ c1, inv x c1 → same_slots c c1 → ci_queue_tick c1 < 2 ^ 64 - 1 →
    ∃ c' tick, (u64_add (ci_queue_tick c1) 1 ≫= λ tick, Ok (set_tick tick c1, tick)) = Ok (c', tick) ∧ inv x c' ∧ same_slots c c' ∧ fresh tick c' ∧
      c' = set_tick tick c1 ∧ tick = ci_queue_tick c1 + 1) as Hadd.
  { intros c1 Hi1 Hs1 Hlt. rewrite u64_add_ok by lia. cbn [mbind result_bind]. set (tick := ci_queue_tick c1 + 1). eexists _, tick. split; [done|].
    assert (same_slots c (set_tick tick c1)) as Hs2.
    { destruct Hs1 as [? Hb ?]. split; [done|intros q; rewrite <-Hb; by destruct q|done]. }
    assert (∀ q r, r ∈ records q (set_tick tick c1) → qr_tick r < tick) as Hrt.
    { intros q r Hr. assert (qr_tick r ≤ ci_queue_tick c1) by (apply (iv_bound _ _ Hi1 q); by destruct q). unfold tick. lia. }
    assert (∀ k s, ci_slots (set_tick tick c1) !! k = Some s → sl_queue_tick s < tick) as Hst.
    { intros k s Hk. apply (iv_slot _ _ Hi1) in Hk as (_ & _ & ?). unfold tick. lia. }
    split_and!; try done. eapply inv_same; [exact Hi|done|..].
    - cbn. pose proof (iv_tick _ _ Hi1). unfold tick. lia.
    - intros k s Hk%Hst. cbn. lia.
    - intros k s Hk Hx. pose proof (iv_record _ _ Hi1 k s Hk Hx). by destruct (sl_queue s).
    - intros q r Hr%Hrt. cbn. lia.
    - intros q. pose proof (iv_sorted _ _ Hi1 q). by destruct q. }
  destruct (Z.eqb_spec (ci_queue_tick c) (2 ^ 64 - 1)) as [Emax|Hmax].
  - unfold renumber. set (c0 := set_tick 0 _).
    assert (∀ k, k ∈ hash_order (ci_slots c) ↔ is_Some (ci_slots c !! k)) as Hin.
    { intros k. rewrite Horder, list_elem_of_fmap. split; [intros ([k' s] & -> & Hk%elem_of_map_to_list); by eexists|].
      intros [s Hs]. exists (k, s). split; [done|]. by apply elem_of_map_to_list. }
    assert (len (hash_order (ci_slots c)) = Z.of_nat (size (ci_slots c))) as Elen.
    { unfold len. rewrite Horder, length_fmap, length_map_to_list. done. }
    destruct (renumber_loop_ok (hash_order (ci_slots c)) c0) as (c1 & Hc1 & Hsame & Htick & Hs1 & Hb1 & _ & Hrec).
    + rewrite Horder. apply NoDup_fst_map_to_list.
    + done.
    + rewrite Elen. cbn. lia.
    + intros []; constructor.
    + by intros [] r ?%elem_of_nil.
    + assert (same_slots c c1) as Hsame'.
      { destruct Hsame as [? Hb ?]. split; [done|intros q; rewrite Hb; by destruct q|done]. }
      assert (∀ k s, ci_slots c1 !! k = Some s → mkQueueRecord k (sl_queue_tick s) ∈ records (sl_queue s) c1) as Hrec1.
      { intros k s Hk. destruct (Hrec k s Hk) as [[_ ?]|[Hn Hk0]]; [done|]. destruct Hn. apply Hin. by eexists. }
      rewrite Elen in Htick. cbn in Htick. rewrite Hc1. cbn [mbind result_bind].
      destruct (Hadd c1) as (c' & tick & Hc' & Hi' & Hs' & Hf' & _).
      * eapply inv_same; [exact Hi|done|lia|intros k s Hk; by apply (Hb1 _ _ (Hrec1 k s Hk))|intros k s Hk _; by apply Hrec1|done|done].
      * done.
      * lia.
      * exists c', tick. split; [exact Hc'|]. split_and!; try done.
  - cbn [mbind result_bind]. destruct (Hadd c) as (c' & tick & Hc' & Hi' & Hs' & Hf' & E1 & E2); [done|by split|lia|]. exists c', tick. split; [exact Hc'|].
    by split_and!.
Qed.
(** ** Live records *)
Definition keys_of q c : list CacheKey := qr_key <$> filter (λ r, live (ci_slots c) q r) (records q c).
Lemma live_spec slots q r : live slots q r ↔ ∃ s : CacheSlot G, slots !! qr_key r = Some s ∧ sl_queue s = q ∧ sl_queue_tick s = qr_tick r.
Proof.
  unfold live. destruct (slots !! qr_key r) as [s|]; [|split; [done|by intros (? & ? & _)]]. rewrite Is_true_true, andb_true_iff, bool_decide_eq_true, Z.eqb_eq.
  split; [eauto|]. by intros (? & [= <-] & ? & ?).
Qed.
Lemma keys_of_elem c q k x : inv x c → k ∈ keys_of q c → ∃ s, ci_slots c !! k = Some s ∧ sl_queue s = q.
Proof. intros _. unfold keys_of. rewrite list_elem_of_fmap. intros (r & -> & [(s & ? & ? & _)%live_spec _]%list_elem_of_filter). eauto. Qed.
Lemma keys_of_slot c q k s x : inv x c → ci_slots c !! k = Some s → sl_queue s = q → x ≠ Some k → k ∈ keys_of q c.
Proof.
  intros Hi Hk <- Hx. unfold keys_of. apply list_elem_of_fmap. exists (mkQueueRecord k (sl_queue_tick s)). split; [done|].
  apply list_elem_of_filter. split; [apply live_spec; eauto|]. by eapply iv_record.
Qed.
Lemma sorted_once rs k t : StronglySorted older rs → mkQueueRecord k t ∈ rs → ∀ k', mkQueueRecord k' t ∈ rs → k' = k.
Proof.
  induction 1 as [|r rs _ IH Hr]; [by intros ?%elem_of_nil|]. assert (∀ k1, mkQueueRecord k1 t ∈ rs → qr_tick r = t → False) as Hno.
  { intros k1 Hin Ht. eapply Forall_forall in Hr; [|by apply list_elem_of_In]. unfold older in Hr. cbn in Hr. lia. }
  intros [E|Hin]%elem_of_cons k' [E'|Hin']%elem_of_cons.
  - congruence.
  - destruct (Hno _ Hin'). by rewrite <-E.
  - destruct (Hno _ Hin). by rewrite <-E'.
  - by apply IH.
Qed.
Lemma keys_of_nodup c q x : inv x c → NoDup (keys_of q c).
Proof.
  intros Hi. unfold keys_of. pose proof (iv_sorted _ _ Hi q) as Hs. induction Hs as [|r rs Hs IH Hr]; [constructor|]. rewrite filter_cons. case_decide as Hl; [|done].
  cbn [fmap list_fmap]. constructor; [|done]. rewrite list_elem_of_fmap. intros (r' & E & [Hl' Hin]%list_elem_of_filter).
  apply live_spec in Hl as (s & H1 & _ & H2), Hl' as (s' & H1' & _ & H2'). rewrite E in H1. rewrite H1 in H1'. injection H1' as <-.
  eapply Forall_forall in Hr; [|by apply list_elem_of_In]. unfold older in Hr. lia.
Qed.
(** Only slots that are in queue [q] count for its live records. *)
Lemma filter_live (rs : list QueueRecord) (slots slots' : gmap CacheKey (CacheSlot G)) q :
  (∀ r, r ∈ rs → live slots q r ↔ live slots' q r) → filter (λ r, live slots q r) rs = filter (λ r, live slots' q r) rs.
Proof.
  intros Hl. induction rs as [|r rs IH]; [done|]. rewrite !filter_cons. pose proof (Hl r ltac:(by left)).
  rewrite IH by (intros ? ?; apply Hl; by right). repeat case_decide; tauto.
Qed.
Lemma pop_records_ok (slots : gmap CacheKey (CacheSlot G)) q rs rs' found :
  pop_records slots q rs = (rs', found) →
  match found with
  | Some k => ∃ r stale, rs = stale ++ r :: rs' ∧ qr_key r = k ∧ live slots q r ∧ Forall (λ r, ¬ live slots q r) stale
  | None => rs' = [] ∧ Forall (λ r, ¬ live slots q r) rs
  end.
Proof.
  revert rs'. induction rs as [|r rs IH]; intros rs'; cbn [pop_records]; [intros [= <- <-]; by split|]. destruct (live slots q r) eqn:El.
  - intros [= <- <-]. exists r, []. rewrite El. by split_and!.
  - intros Hp%IH. assert (¬ live slots q r) by (rewrite El; by intros []). destruct found as [k|].
    + destruct Hp as (r' & stale & -> & ? & ? & ?). exists r', (r :: stale). split_and!; try done. by constructor.
    + destruct Hp as [-> ?]. split; [done|]. by constructor.
Qed.
Lemma filter_none {A} (P : A → Prop) `{∀ x, Decision (P x)} l : Forall (λ x, ¬ P x) l → filter P l = [].
Proof. induction 1; [done|]. by rewrite filter_cons, decide_False. Qed.
Lemma sorted_app_r rs1 rs2 : StronglySorted older (rs1 ++ rs2) → StronglySorted older rs2 ∧ ∀ r1 r2, r1 ∈ rs1 → r2 ∈ rs2 → older r1 r2.
Proof.
  induction rs1 as [|r rs1 IH]; cbn [app]; [intros ?; split; [done|by intros ?? ?%elem_of_nil]|]. intros [Hs Hr]%StronglySorted_inv.
  destruct (IH Hs) as [? Hall]. split; [done|]. intros r1 r2 [->|?]%elem_of_cons Hr2; [|by apply Hall].
  eapply Forall_forall in Hr; [exact Hr|]. apply list_elem_of_In, elem_of_app. by right.
Qed.
Lemma pop_live_ok q c c' found :
  inv None c → pop_live q c = (c', found) →
  ci_slots c' = ci_slots c ∧ total c' = total c ∧ (∀ q', queue_bytes q' c' = queue_bytes q' c) ∧ ci_ghost_order c' = ci_ghost_order c ∧ ci_queue_tick c' = ci_queue_tick c ∧
  inv found c' ∧ (∀ q', q' ≠ q → keys_of q' c' = keys_of q' c) ∧
  match found with
  | Some k => keys_of q c = k :: keys_of q c' ∧ ∃ s, ci_slots c !! k = Some s ∧ sl_queue s = q
  | None => keys_of q c = [] ∧ keys_of q c' = [] ∧ queue_bytes q c = 0
  end.
Proof.
  intros Hi. unfold pop_live. destruct (pop_records _ _ _) as [rs found'] eqn:Ep. intros [= <- <-]. apply pop_records_ok in Ep.
  assert (∀ r, r ∈ rs → r ∈ records q c) as Hsub.
  { intros r Hr. destruct found' as [k|]; [destruct Ep as (r0 & stale & -> & _); apply elem_of_app; right; by right|]. destruct Ep as [-> _]. by apply elem_of_nil in Hr. }
  assert (∀ q', q' ≠ q → records q' (set_records q rs c) = records q' c) as Eother by (by intros [] ?; destruct q).
  assert (records q (set_records q rs c) = rs) as Esame by by destruct q.
  assert (ci_slots (set_records q rs c) = ci_slots c) as Esl by by destruct q.
  split_and!; try (by destruct q).
  - split.
    + intros q'. rewrite Esl, <-(iv_bytes _ _ Hi). by destruct q, q'.
    + rewrite Esl. intros k s Hk. destruct (iv_slot _ _ Hi k s Hk) as (? & ? & ?). by destruct q.
    + rewrite Esl. intros k s Hk Hx. pose proof (iv_record _ _ Hi k s Hk ltac:(done)) as Hr. destruct (decide (sl_queue s = q)) as [Eq|Hq]; [|by rewrite Eother].
      rewrite Eq in *. rewrite Esame. assert (live (ci_slots c) q (mkQueueRecord k (sl_queue_tick s))) as Hlive by (apply live_spec; eauto).
      destruct found' as [k'|].
      * destruct Ep as (r0 & stale & E & <- & Hl0 & Hst). rewrite E in Hr. apply elem_of_app in Hr as [Hr|[Hr|?]%elem_of_cons]; [|by subst r0|done].
        eapply Forall_forall in Hst; [|by apply list_elem_of_In]. done.
      * destruct Ep as [_ Hst]. eapply Forall_forall in Hst; [|by apply list_elem_of_In]. done.
    + pose proof (iv_tick _ _ Hi). by destruct q.
    + intros q' r Hr. assert (ci_queue_tick (set_records q rs c) = ci_queue_tick c) as -> by by destruct q. apply (iv_bound _ _ Hi q').
      destruct (decide (q' = q)) as [->|Hq]; [apply Hsub; by rewrite Esame in Hr|by rewrite Eother in Hr].
    + intros q'. destruct (decide (q' = q)) as [->|Hq]; [|rewrite Eother by done; apply Hi]. rewrite Esame. pose proof (iv_sorted _ _ Hi q) as Hs.
      destruct found' as [k|]; [|destruct Ep as [-> _]; constructor]. destruct Ep as (r0 & stale & E & _). rewrite E in Hs.
      apply sorted_app_r in Hs as [Hs _]. by apply StronglySorted_inv in Hs as [? _].
    + pose proof (iv_ghosts _ _ Hi). by destruct q.
  - intros q' Hq. unfold keys_of. by rewrite Esl, Eother.
  - unfold keys_of. rewrite Esl, Esame. destruct found' as [k|].
    + destruct Ep as (r0 & stale & E & Ek & Hl & Hst). rewrite E, list.filter_app, (filter_none _ stale) by done. cbn [app]. rewrite filter_cons, decide_True by done.
      cbn [fmap list_fmap]. rewrite Ek. split; [done|]. apply live_spec in Hl as (s & Hs & Hq & _). rewrite Ek in Hs. eauto.
    + destruct Ep as [-> Hst]. rewrite (filter_none _ (records q c)) by done. split_and!; [done..|]. rewrite (iv_bytes _ _ Hi).
      apply Z.le_antisymm; [|rewrite <-(iv_bytes _ _ Hi); by eapply bytes_nonneg]. rewrite <-(Z.mul_0_l (Z.of_nat (size (ci_slots c)))), <-(gsum_const 0).
      apply gsum_le. intros k s Hk. unfold weigh. case_decide as Hq; [|done]. exfalso. pose proof (keys_of_slot c q k s None Hi Hk Hq ltac:(done)) as Hin.
      unfold keys_of in Hin. rewrite (filter_none _ (records q c)) in Hin by done. by apply elem_of_nil in Hin.
Qed.
(** ** Removal and admission *)
Definition data c : gmap CacheKey (CachedBody G * Z) := (λ s, (sl_body s, sl_frequency s)) <$> ci_slots c.
Lemma keys_without (rs : list QueueRecord) (slots slots' : gmap CacheKey (CacheSlot G)) q k :
  (∀ r, r ∈ rs → live slots' q r ↔ live slots q r ∧ qr_key r ≠ k) →
  qr_key <$> filter (λ r, live slots' q r) rs = filter (λ j, j ≠ k) (qr_key <$> filter (λ r, live slots q r) rs).
Proof.
  induction rs as [|r rs IH]; intros Hl; [done|]. rewrite !filter_cons. pose proof (Hl r ltac:(by left)) as Hr.
  specialize (IH ltac:(intros ? ?; apply Hl; by right)). destruct (decide (live slots' q r)) as [H1|H1].
  - rewrite (decide_True (P := live slots q r)) by tauto. rewrite !fmap_cons, filter_cons, decide_True by tauto. by rewrite IH.
  - destruct (decide (live slots q r)) as [H2|H2]; [|done]. rewrite fmap_cons, filter_cons, decide_False by tauto. done.
Qed.
Lemma bytes_set q q' n c : queue_bytes q (set_queue_bytes q' n c) = if decide (q = q') then n else queue_bytes q c.
Proof. by destruct q, q'. Qed.
Lemma keys_of_absent c q k : (∀ s, ci_slots c !! k = Some s → sl_queue s ≠ q) → k ∉ keys_of q c.
Proof.
  intros Hn. unfold keys_of. rewrite list_elem_of_fmap. intros (r & -> & [(s & Hs & Hq & _)%live_spec _]%list_elem_of_filter). by apply Hn in Hs.
Qed.
Lemma filter_absent (l : list CacheKey) k : k ∉ l → filter (λ j, j ≠ k) l = l.
Proof.
  induction l as [|j l IH]; [done|]. intros [? ?]%not_elem_of_cons. rewrite filter_cons, decide_True by congruence. by rewrite IH.
Qed.
Lemma cache_remove_ok x y c k s :
  inv x c → ci_slots c !! k = Some s → (∀ j, j ≠ k → y ≠ Some j → x ≠ Some j) →
  ∃ c', remove k c = Ok (c', Some (sl_body s)) ∧ inv y c' ∧ ci_slots c' = delete k (ci_slots c) ∧ total c' = total c - cb_bytes (sl_body s) ∧
    ci_queue_tick c' = ci_queue_tick c ∧ ci_ghost_order c' = ci_ghost_order c ∧ ci_ghost_set c' = ci_ghost_set c ∧
    ∀ q, keys_of q c' = filter (λ j, j ≠ k) (keys_of q c).
Proof.
  intros Hi Hk Hxy. unfold remove. rewrite Hk. pose proof (slot_within _ _ _ _ Hi Hk) as Hle. pose proof (slot_within _ _ _ _ Hi Hk).
  assert (queue_bytes (sl_queue s) (set_slots (delete k (ci_slots c)) c) = queue_bytes (sl_queue s) c) as -> by by destruct (sl_queue s).
  rewrite u64_sub_ok by lia. cbn [mbind result_bind]. eexists. split; [done|]. set (c' := set_queue_bytes _ _ _).
  assert (ci_slots c' = delete k (ci_slots c)) as Esl by by destruct (sl_queue s).
  assert (∀ q, records q c' = records q c) as Er by (by intros []; destruct (sl_queue s)).
  assert (ci_queue_tick c' = ci_queue_tick c) as Et by by destruct (sl_queue s).
  assert (ci_ghost_order c' = ci_ghost_order c ∧ ci_ghost_set c' = ci_ghost_set c) as [Eg Eg'] by by destruct (sl_queue s).
  split_and!; try done.
  - split.
    + intros q. rewrite Esl. pose proof (iv_bytes _ _ Hi q) as Eb. rewrite (gsum_at _ _ _ _ Hk) in Eb. unfold weigh at 1 in Eb. unfold c'. rewrite bytes_set.
      destruct (decide (q = sl_queue s)) as [->|Hq]; [rewrite decide_True in Eb by done; lia|]. rewrite decide_False in Eb by congruence.
      assert (queue_bytes q (set_slots (delete k (ci_slots c)) c) = queue_bytes q c) as -> by by destruct q. lia.
    + rewrite Esl, Et. intros j s' [_ Hj]%lookup_delete_Some. by apply (iv_slot _ _ Hi j).
    + rewrite Esl. intros j s' [Hne Hj]%lookup_delete_Some Hy. rewrite Er. apply (iv_record _ _ Hi); [done|]. by apply Hxy.
    + rewrite Et. apply Hi.
    + intros q r. rewrite Er, Et. apply Hi.
    + intros q. rewrite Er. apply Hi.
    + rewrite Eg, Eg'. apply Hi.
  - unfold total, c'. destruct (sl_queue s); cbn; lia.
  - intros q. unfold keys_of. rewrite Er. apply keys_without. intros r _. rewrite !live_spec, Esl. split.
    + intros (s' & [? ?]%lookup_delete_Some & ? & ?). split; [eauto|done].
    + intros [(s' & ? & ? & ?) Hne]. exists s'. rewrite lookup_delete_ne by done. done.
Qed.
(** A slot's new record, at a fresh tick. *)
Lemma enqueue_ok x c c' k s tick :
  inv x c → (∀ j, x = Some j → j = k) → fresh tick c → sl_queue_tick s = tick → 0 ≤ sl_frequency s ≤ MAX_FREQUENCY → 1 ≤ cb_bytes (sl_body s) ≤ cap →
  ci_slots c' = <[k := s]> (ci_slots c) → ci_queue_tick c' = tick →
  (∀ q, records q c' = records q c ++ (if decide (q = sl_queue s) then [mkQueueRecord k tick] else [])) →
  (∀ q, queue_bytes q c' = gsum (weigh q) (<[k := s]> (ci_slots c))) →
  ci_ghost_order c' = ci_ghost_order c → ci_ghost_set c' = ci_ghost_set c →
  inv None c' ∧ ∀ q, keys_of q c' = filter (λ j, j ≠ k) (keys_of q c) ++ (if decide (q = sl_queue s) then [k] else []).
Proof.
  intros Hi Hx (Et & Hrt & Hst) Es Hf Hb Esl Et' Er Eb Eg Eg'. split.
  - split.
    + intros q. by rewrite Eb, Esl.
    + rewrite Esl, Et'. intros j s' [[<- <-]|[_ Hj]]%lookup_insert_Some; [split_and!; [lia..|by rewrite Es]|].
      destruct (iv_slot _ _ Hi j s' Hj) as (? & ? & ?). split_and!; [lia..|]. pose proof (Hst j s' Hj). lia.
    + rewrite Esl. intros j s' [[<- <-]|[Hne Hj]]%lookup_insert_Some _; rewrite Er; apply elem_of_app.
      * right. rewrite decide_True, Es by done. by left.
      * left. apply (iv_record _ _ Hi); [done|]. intros Ej. apply Hne. symmetry. by apply Hx.
    + rewrite Et', <-Et. apply Hi.
    + intros q r. rewrite Er, Et'. intros [Hr%Hrt|Hr]%elem_of_app; [lia|]. case_decide; [|by apply elem_of_nil in Hr].
      apply list_elem_of_singleton in Hr as ->. cbn. lia.
    + intros q. rewrite Er. pose proof (iv_sorted _ _ Hi q). case_decide; [|by rewrite app_nil_r]. apply sorted_push; [done|].
      intros r' Hr'%Hrt. done.
    + rewrite Eg, Eg'. apply Hi.
  - intros q. unfold keys_of. rewrite Er, list.filter_app, fmap_app, Esl. f_equal.
    + apply keys_without. intros r Hr%Hrt. rewrite !live_spec. split.
      * intros (s' & [[Ek <-]|[Hne Hs']]%lookup_insert_Some & Hq & Ht); [rewrite Es in Ht; lia|]. split; [eauto|congruence].
      * intros [(s' & ? & ? & ?) Hne]. exists s'. rewrite lookup_insert_ne by congruence. done.
    + case_decide as Hq; [|done]. rewrite filter_cons, decide_True; [done|]. apply live_spec. exists s. rewrite lookup_insert_eq. by rewrite Es.
Qed.
Lemma data_same c c' : same_slots c c' → data c' = data c.
Proof.
  intros Hs. apply map_eq. intros k. unfold data. rewrite !lookup_fmap. pose proof (ss_data _ _ Hs k) as E.
  destruct (ci_slots c' !! k), (ci_slots c !! k); try done. cbn. injection E as -> -> _. done.
Qed.
Lemma insert_ok c k body small_cap :
  inv None c → ci_slots c !! k = None → 1 ≤ cb_bytes body ≤ cap → total c ≤ cap →
  ∃ c', insert hash_order k body small_cap c = Ok c' ∧ inv None c' ∧ data c' = <[k := (body, 0)]> (data c) ∧ total c' = total c + cb_bytes body ∧
    ci_ghost_order c' = ci_ghost_order c ∧
    (ci_queue_tick c < 2 ^ 64 - 1 → ci_queue_tick c' = ci_queue_tick c + 1 ∧
       ∀ q, keys_of q c' = keys_of q c ++ (if decide (q = admitted_to small_cap (ci_ghost_order c) k body) then [k] else [])).
Proof.
  intros Hi Hk Hb Ht. unfold insert. set (queue := if bool_decide (k ∈ ci_ghost_set c) || (small_cap <? cb_bytes body) then QueueKind.Main else QueueKind.Small).
  assert (queue = admitted_to small_cap (ci_ghost_order c) k body) as Eq.
  { unfold queue, admitted_to. destruct (iv_ghosts _ _ Hi) as [-> _]. destruct (bool_decide_reflect (k ∈ (list_to_set (ci_ghost_order c) : gset CacheKey))) as [Hg|Hg];
      rewrite elem_of_list_to_set in Hg; cbn [orb]; [by rewrite decide_True by auto|].
    destruct (Z.ltb_spec small_cap (cb_bytes body)); [by rewrite decide_True by auto|by rewrite decide_False by (intros [?|?]; [done|lia])]. }
  pose proof (slots_bounded _ _ Hi) as Hsz.
  destruct (next_queue_tick_ok None c Hi) as (c1 & tick & Hn & Hi1 & Hs1 & Hf1 & Hsame); [lia|]. rewrite Hn. cbn [mbind result_bind].
  pose proof (ss_bytes _ _ Hs1) as Eb1. pose proof (queue_total _ _ queue Hi) as Hqt. rewrite u64_add_ok by (rewrite Eb1; lia).
  cbn [mbind result_bind]. eexists. split; [done|]. set (c2 := set_slots _ _).
  assert (ci_slots c1 !! k = None) as Hk1.
  { pose proof (ss_data _ _ Hs1 k) as E. rewrite Hk in E. by destruct (ci_slots c1 !! k). }
  assert (ci_slots c2 = <[k := mkSlot body 0 queue tick]> (ci_slots c1)) as Esl by (unfold c2; by destruct queue).
  destruct (enqueue_ok None c1 c2 k (mkSlot body 0 queue tick) tick) as [Hi2 Hkeys]; try done.
  - unfold c2. destruct queue; apply Hf1.
  - intros q. unfold c2. by destruct q, queue; cbn; rewrite ?app_nil_r.
  - intros q. rewrite gsum_new by done. unfold weigh at 1. cbn [sl_queue sl_body]. rewrite <-(iv_bytes _ _ Hi1).
    unfold c2. destruct q, queue; cbn; repeat case_decide; try done; lia.
  - unfold c2. by destruct queue.
  - unfold c2. by destruct queue.
  - split_and!.
    + done.
    + unfold data at 1. rewrite Esl, fmap_insert. f_equal. by apply data_same.
    + rewrite (total_sum _ _ Hi2), (total_sum _ _ Hi), Esl, gsum_new by done. cbn [sl_body]. rewrite Z.add_comm. f_equal. symmetry.
      pose (w := λ d : CachedBody G * Z * QueueKind.t, cb_bytes d.1.1). symmetry. exact (gsum_forget slot_data w _ _ (ss_data _ _ Hs1)).
    + unfold c2. destruct (ss_ghosts _ _ Hs1) as [_ <-]. by destruct queue.
    + intros Hlt. destruct (Hsame ltac:(lia)) as [E1 E2]. split; [unfold c2; destruct Hf1 as [? _]; destruct queue; cbn; lia|].
      intros q. rewrite Hkeys, <-Eq. cbn [sl_queue]. rewrite filter_absent by (apply keys_of_absent; by rewrite Hk1). f_equal. rewrite E1. by destruct q.
Qed.
(** ** The abstraction *)
Definition fifo_of c : Fifo G := mkFifo (keys_of QueueKind.Small c) (keys_of QueueKind.Main c) (ci_ghost_order c) (data c).
Lemma gsum_keys (w : CacheSlot G → Z) (P : CacheSlot G → Prop) `{∀ s, Decision (P s)} (m : gmap CacheKey (CacheSlot G)) (ks : list CacheKey) (f : CacheKey → Z) :
  NoDup ks → (∀ k, k ∈ ks ↔ ∃ s, m !! k = Some s ∧ P s) → (∀ k s, m !! k = Some s → f k = w s) →
  gsum (λ s, if decide (P s) then w s else 0) m = foldr (λ k n, f k + n) 0 ks.
Proof.
  intros Hnd. revert m. induction Hnd as [|k ks Hk Hnd IH]; intros m Hin Hf.
  - assert (∀ k s, m !! k = Some s → (if decide (P s) then w s else 0) = 0) as Hz.
    { intros k s Hk. case_decide; [|done]. exfalso. eapply elem_of_nil, (Hin k). eauto. }
    cbn [foldr]. trans (gsum (λ _ : CacheSlot G, 0) m); [|rewrite gsum_const; lia].
    apply Z.le_antisymm; apply gsum_le; intros k s Hk; pose proof (Hz k s Hk); cbv beta in *; lia.
  - destruct (proj1 (Hin k) ltac:(by left)) as (s & Hs & HP). rewrite (gsum_at _ _ _ _ Hs), decide_True by done. cbn [foldr]. rewrite (Hf k s Hs). f_equal.
    apply IH.
    + intros j. split.
      * intros Hj. destruct (proj1 (Hin j) ltac:(by right)) as (s' & ? & ?). exists s'. split; [|done]. rewrite lookup_delete_ne; [done|]. by intros ->.
      * intros (s' & [Hne Hj]%lookup_delete_Some & ?). pose proof (proj2 (Hin j) ltac:(eauto)) as [E|]%elem_of_cons; [by subst|done].
    + intros j s' [_ Hj]%lookup_delete_Some. by apply Hf.
Qed.
Lemma fifo_bytes_of c q : inv None c → fifo_bytes (fifo_of c) (keys_of q c) = queue_bytes q c.
Proof.
  intros Hi. rewrite (iv_bytes _ _ Hi). unfold fifo_bytes, weigh. symmetry. apply gsum_keys.
  - by eapply keys_of_nodup.
  - intros k. split; [by apply (keys_of_elem c q k None)|]. intros (s & ? & ?). by eapply keys_of_slot.
  - intros k s Hk. cbn [fifo_of ff_data]. unfold data. by rewrite lookup_fmap, Hk.
Qed.
(** ** Eviction *)
Lemma trim_ghosts_ok limit ghosts order :
  ghosts = list_to_set order → NoDup order → 0 ≤ limit →
  ∃ ghosts', trim_ghosts limit ghosts order = (ghosts', drop (length order - Z.to_nat limit) order) ∧
    ghosts' = list_to_set (drop (length order - Z.to_nat limit) order) ∧ NoDup (drop (length order - Z.to_nat limit) order).
Proof.
  intros Hg Hnd Hl. revert ghosts Hg. induction order as [|k order IH]; intros ghosts Hg; cbn [trim_ghosts]; [rewrite drop_nil; eauto|].
  assert (size ghosts = length (k :: order)) as Hsz by (rewrite Hg; by apply size_list_to_set).
  apply list.NoDup_cons in Hnd as [Hk Hnd]. rewrite Hsz. cbn [length]. destruct (Z.ltb_spec limit (Z.of_nat (S (length order)))) as [Hlt|Hge].
  - destruct (IH Hnd (ghosts ∖ {[k]})) as (g' & E & Hg' & Hnd').
    { rewrite Hg. cbn [list_to_set]. apply set_eq. intros j. rewrite elem_of_difference, elem_of_union, elem_of_singleton, elem_of_list_to_set.
      split; [intros [[?|?] ?]; [done|done]|]. intros Hj. split; [by right|]. by intros ->. }
    rewrite E. replace (S (length order) - Z.to_nat limit)%nat with (S (length order - Z.to_nat limit)) by lia. cbn [drop]. eauto.
  - replace (S (length order) - Z.to_nat limit)%nat with 0%nat by lia. cbn [drop]. exists ghosts. split_and!; [done|done|by constructor].
Qed.
Lemma ghost_insert_ok x c k :
  inv x c → let c' := ghost_insert k c in
  inv x c' ∧ ci_slots c' = ci_slots c ∧ total c' = total c ∧ ci_queue_tick c' = ci_queue_tick c ∧ (∀ q, keys_of q c' = keys_of q c) ∧
  ci_ghost_order c' = remember (size (ci_slots c)) k (ci_ghost_order c).
Proof.
  intros Hi. cbv zeta. unfold ghost_insert, remember. destruct (iv_ghosts _ _ Hi) as [Hg Hnd].
  set (order := if decide (k ∈ ci_ghost_order c) then ci_ghost_order c else ci_ghost_order c ++ [k]).
  assert ((if decide (k ∈ ci_ghost_set c) then ci_ghost_order c else ci_ghost_order c ++ [k]) = order) as ->.
  { unfold order. rewrite Hg. destruct (decide (k ∈ ci_ghost_order c)) as [H1|H1]; [rewrite decide_True by by apply elem_of_list_to_set|rewrite decide_False by by rewrite elem_of_list_to_set]; done. }
  destruct (trim_ghosts_ok (ghost_limit c) ({[k]} ∪ ci_ghost_set c) order) as (g & E & Hg' & Hnd').
  - unfold order. rewrite Hg. apply set_eq. intros j. case_decide as Hk; rewrite elem_of_union, elem_of_singleton, !elem_of_list_to_set; [naive_solver|].
    rewrite elem_of_app, list_elem_of_singleton. tauto.
  - unfold order. case_decide as Hk; [done|]. apply list.NoDup_app. split_and!; [done| |apply NoDup_singleton]. intros j Hj ->%list_elem_of_singleton. done.
  - unfold ghost_limit, saturating_add_usize, saturating_mul_usize, slots_len. lia.
  - rewrite E. split_and!; try done. destruct Hi. by split.
Qed.
(** What one turn of the eviction loop does to a popped key. *)
Definition work (s : CacheSlot G) : Z := match sl_queue s with QueueKind.Small => 2 | QueueKind.Main => 1 + sl_frequency s end.
Definition left_to_do c : Z := gsum work (ci_slots c).
Lemma work_data c c' : same_slots c c' → left_to_do c' = left_to_do c.
Proof.
  intros Hs. pose (w := λ d : CachedBody G * Z * QueueKind.t, match d.2 with QueueKind.Small => 2 | QueueKind.Main => 1 + d.1.2 end).
  exact (gsum_forget slot_data w _ _ (ss_data _ _ Hs)).
Qed.
Lemma front_requeued c c1 k s s' tick c2 :
  inv (Some k) c1 → ci_slots c1 !! k = Some s → same_slots c c1 → fresh tick c1 →
  sl_body s' = sl_body s → sl_queue s' = QueueKind.Main → sl_queue_tick s' = tick → 0 ≤ sl_frequency s' ≤ MAX_FREQUENCY → work s' < work s →
  ci_slots c2 = <[k := s']> (ci_slots c1) → ci_queue_tick c2 = tick →
  (∀ q, records q c2 = records q c1 ++ (if decide (q = QueueKind.Main) then [mkQueueRecord k tick] else [])) →
  (∀ q, queue_bytes q c2 = queue_bytes q c1 - weigh q s + weigh q s') →
  ci_ghost_order c2 = ci_ghost_order c1 → ci_ghost_set c2 = ci_ghost_set c1 →
  inv None c2 ∧ left_to_do c2 < left_to_do c ∧ total c2 = total c ∧ data c2 = <[k := (sl_body s, sl_frequency s')]> (data c) ∧
  ci_ghost_order c2 = ci_ghost_order c ∧ ∀ q, keys_of q c2 = filter (λ j, j ≠ k) (keys_of q c1) ++ (if decide (q = QueueKind.Main) then [k] else []).
Proof.
  intros Hi Hk Hs Hf Eb Eq Et Hfr Hw Esl Etk Er Eby Eg Eg'. destruct (iv_slot _ _ Hi k s Hk) as (_ & Hb & _).
  destruct (enqueue_ok (Some k) c1 c2 k s' tick) as [Hi2 Hkeys]; try done.
  - by intros j [= <-].
  - by rewrite Eb.
  - intros q. by rewrite Er, Eq.
  - intros q. rewrite Eby, (gsum_update _ _ _ _ _ Hk), (iv_bytes _ _ Hi). done.
  - rewrite Eq in Hkeys. split_and!; try done.
    + rewrite <-(work_data _ _ Hs). unfold left_to_do. rewrite Esl, (gsum_update _ _ _ _ _ Hk). lia.
    + rewrite (total_sum _ _ Hi2), Esl, (gsum_update _ _ _ _ _ Hk), Eb. rewrite <-(total_sum _ _ Hi). unfold total.
      pose proof (ss_bytes _ _ Hs QueueKind.Small). pose proof (ss_bytes _ _ Hs QueueKind.Main). cbn [queue_bytes] in *. lia.
    + unfold data at 1. rewrite Esl, fmap_insert, Eb. f_equal. by apply data_same.
    + rewrite Eg. by destruct (ss_ghosts _ _ Hs) as [_ ->].
Qed.
(** Bodies are dropped, never replaced. *)
Definition kept c c' : Prop := ∀ k body n, data c' !! k = Some (body, n) → ∃ n', data c !! k = Some (body, n').
Lemma kept_insert c c' k body n n' : data c !! k = Some (body, n) → data c' = <[k := (body, n')]> (data c) → kept c c'.
Proof. intros Hk E j b i. rewrite E. intros [[<- [= -> ->]]|[_ ?]]%lookup_insert_Some; eauto. Qed.
Lemma kept_delete c c' k : data c' = delete k (data c) → kept c c'.
Proof. intros E j b i. rewrite E. intros [_ ?]%lookup_delete_Some. eauto. Qed.
Lemma evict_small_front_ok c k s evicted :
  inv (Some k) c → ci_slots c !! k = Some s → sl_queue s = QueueKind.Small → total c ≤ 2 * cap →
  ∃ c' evicted', evict_small_front hash_order k evicted c = Ok (c', evicted') ∧ inv None c' ∧ left_to_do c' < left_to_do c ∧ total c' ≤ total c ∧ kept c c' ∧
    (ci_queue_tick c < 2 ^ 64 - 1 → k ∉ keys_of QueueKind.Small c → ci_queue_tick c' ≤ ci_queue_tick c + 1 ∧
       fifo_of c' = fifo_evict_small (mkFifo (k :: keys_of QueueKind.Small c) (keys_of QueueKind.Main c) (ci_ghost_order c) (data c))).
Proof.
  intros Hi Hk Hq Htot. unfold evict_small_front. rewrite Hk. destruct (iv_slot _ _ Hi k s Hk) as (Hfr & Hb & _).
  assert (data c !! k = Some (sl_body s, sl_frequency s)) as Hd by (unfold data; by rewrite lookup_fmap, Hk).
  assert (k ∉ keys_of QueueKind.Main c) as Hnm by (apply keys_of_absent; intros s' ?; simplify_eq; by rewrite Hq).
  destruct (Z.ltb_spec 0 (sl_frequency s)) as [Hpos|Hzero].
  - pose proof (slots_bounded _ _ Hi) as Hsz.
    destruct (next_queue_tick_ok (Some k) c Hi) as (c1 & tick & Hn & Hi1 & Hs1 & Hf1 & Hsame); [lia|]. rewrite Hn. cbn [mbind result_bind].
    pose proof (ss_data _ _ Hs1 k) as Ek. rewrite Hk in Ek. destruct (ci_slots c1 !! k) as [s1|] eqn:Hk1; [|done]. injection Ek as Eb1 Ef1 Eq1.
    set (s' := mkSlot (sl_body s1) 0 QueueKind.Main tick). set (c2 := set_slots _ c1).
    assert (ci_slots c2 = <[k := s']> (ci_slots c1)) as Esl.
    { unfold c2. cbn [set_slots ci_slots]. apply map_eq. intros j. destruct (decide (j = k)) as [->|]; [by rewrite lookup_alter_eq, lookup_insert_eq, Hk1|].
      by rewrite lookup_alter_ne, lookup_insert_ne by congruence. }
    pose proof (slot_within _ _ _ _ Hi1 Hk1) as Hle. rewrite Eq1, Hq in Hle. cbn [queue_bytes] in Hle.
    pose proof (ss_bytes _ _ Hs1 QueueKind.Small) as Es. pose proof (ss_bytes _ _ Hs1 QueueKind.Main) as Em. cbn [queue_bytes] in Es, Em.
    unfold total in Htot. rewrite u64_sub_ok by (cbn; rewrite <-Eb1; lia). cbn [mbind result_bind].
    rewrite u64_add_ok by (cbn; rewrite <-Eb1 in *; lia). cbn [mbind result_bind]. eexists _, evicted. split; [done|]. set (c3 := push_back _ _ _).
    destruct (front_requeued c c1 k s1 s' tick c3) as (Hi3 & Hw3 & Ht3 & Hd3 & Hg3 & Hk3); try done.
    + unfold work. cbn. rewrite Eq1, Hq. lia.
    + apply Hf1.
    + intros []; cbn; [by rewrite app_nil_r|done].
    + intros q. unfold weigh. rewrite Eq1, Hq. unfold c3, c2. rewrite <-Eb1. destruct q; cbn; repeat case_decide; try done; lia.
    + split_and!; [done|done|lia|eapply kept_insert; [exact Hd|by rewrite <-Eb1]|]. intros Hlt Hns. destruct (Hsame ltac:(lia)) as [E1 E2]. split; [unfold c3, c2; cbn; rewrite E1; cbn; lia|].
      unfold fifo_evict_small. cbn [ff_small ff_data]. rewrite Hd. destruct (Z.ltb_spec 0 (sl_frequency s)); [|lia]. cbn [ff_main ff_ghosts].
      unfold fifo_of. rewrite Hd3, Hg3, !Hk3. rewrite Eb1. cbn [s' sl_frequency].
      assert (∀ q, keys_of q c1 = keys_of q c) as Ekq by (intros []; rewrite E1; done). rewrite !Ekq, !filter_absent by done. cbn. by rewrite app_nil_r.
  - destruct (cache_remove_ok (Some k) None c k s Hi Hk) as (c1 & Hr & Hi1 & Esl & Et & Etk & Eg & _ & Hkeys); [by intros ? ? _ [=]|]. rewrite Hr. cbn [mbind result_bind].
    eexists _, _. split; [done|]. destruct (ghost_insert_ok None c1 k Hi1) as (Hi2 & Esl2 & Et2 & Etk2 & Hk2 & Eg2). cbv zeta in *.
    assert (data (ghost_insert k c1) = delete k (data c)) as Ed by (unfold data; rewrite Esl2, Esl; apply fmap_delete).
    split_and!; [done| |lia|by eapply kept_delete|].
    + unfold left_to_do. rewrite Esl2, Esl, (gsum_at work _ _ _ Hk). unfold work at 2. rewrite Hq. lia.
    + intros _ Hns. split; [lia|]. unfold fifo_evict_small. cbn [ff_small ff_data]. rewrite Hd. destruct (Z.ltb_spec 0 (sl_frequency s)); [lia|]. cbn [ff_main ff_ghosts].
      unfold fifo_of. rewrite !Hk2, !Hkeys, !filter_absent by done.
      rewrite Ed, Eg2, Eg, Esl. f_equal. f_equal. unfold data. rewrite <-fmap_delete, map_size_fmap. done.
Qed.
Lemma evict_main_front_ok c k s evicted :
  inv (Some k) c → ci_slots c !! k = Some s → sl_queue s = QueueKind.Main → total c ≤ 2 * cap →
  ∃ c' evicted', evict_main_front hash_order k evicted c = Ok (c', evicted') ∧ inv None c' ∧ left_to_do c' < left_to_do c ∧ total c' ≤ total c ∧ kept c c' ∧
    (ci_queue_tick c < 2 ^ 64 - 1 → k ∉ keys_of QueueKind.Main c → ci_queue_tick c' ≤ ci_queue_tick c + 1 ∧
       fifo_of c' = fifo_evict_main (mkFifo (keys_of QueueKind.Small c) (k :: keys_of QueueKind.Main c) (ci_ghost_order c) (data c))).
Proof.
  intros Hi Hk Hq Htot. unfold evict_main_front. rewrite Hk. destruct (iv_slot _ _ Hi k s Hk) as (Hfr & Hb & _).
  assert (data c !! k = Some (sl_body s, sl_frequency s)) as Hd by (unfold data; by rewrite lookup_fmap, Hk).
  assert (k ∉ keys_of QueueKind.Small c) as Hnm by (apply keys_of_absent; intros s' ?; simplify_eq; by rewrite Hq).
  destruct (Z.ltb_spec 0 (sl_frequency s)) as [Hpos|Hzero].
  - pose proof (slots_bounded _ _ Hi) as Hsz.
    destruct (next_queue_tick_ok (Some k) c Hi) as (c1 & tick & Hn & Hi1 & Hs1 & Hf1 & Hsame); [lia|]. rewrite Hn. cbn [mbind result_bind].
    pose proof (ss_data _ _ Hs1 k) as Ek. rewrite Hk in Ek. destruct (ci_slots c1 !! k) as [s1|] eqn:Hk1; [|done]. injection Ek as Eb1 Ef1 Eq1.
    set (s' := mkSlot (sl_body s1) (sl_frequency s1 - 1) (sl_queue s1) tick). set (c2 := set_slots _ c1).
    assert (ci_slots c2 = <[k := s']> (ci_slots c1)) as Esl.
    { unfold c2. cbn [set_slots ci_slots]. apply map_eq. intros j. destruct (decide (j = k)) as [->|]; [by rewrite lookup_alter_eq, lookup_insert_eq, Hk1|].
      by rewrite lookup_alter_ne, lookup_insert_ne by congruence. }
    eexists _, evicted. split; [done|]. set (c3 := push_back _ _ _).
    destruct (front_requeued c c1 k s1 s' tick c3) as (Hi3 & Hw3 & Ht3 & Hd3 & Hg3 & Hk3); try done.
    + cbn. by rewrite Eq1.
    + cbn. lia.
    + unfold work. cbn. rewrite Eq1, Hq. lia.
    + apply Hf1.
    + intros []; cbn; [by rewrite app_nil_r|done].
    + intros q. unfold weigh. cbn [s' sl_queue sl_body]. assert (queue_bytes q c3 = queue_bytes q c1) as -> by by destruct q. lia.
    + split_and!; [done|done|lia|eapply kept_insert; [exact Hd|by rewrite <-Eb1]|]. intros Hlt Hns. destruct (Hsame ltac:(lia)) as [E1 E2].
      split; [unfold c3, c2; cbn; rewrite E1; cbn; lia|].
      unfold fifo_evict_main. cbn [ff_main ff_data]. rewrite Hd. destruct (Z.ltb_spec 0 (sl_frequency s)); [|lia]. cbn [ff_small ff_ghosts].
      unfold fifo_of. rewrite Hd3, Hg3, !Hk3. rewrite Eb1. cbn [s' sl_frequency]. rewrite Ef1.
      assert (∀ q, keys_of q c1 = keys_of q c) as Ekq by (intros []; rewrite E1; done). rewrite !Ekq, !filter_absent by done. cbn. by rewrite app_nil_r.
  - destruct (cache_remove_ok (Some k) None c k s Hi Hk) as (c1 & Hr & Hi1 & Esl & Et & Etk & Eg & _ & Hkeys); [by intros ? ? _ [=]|]. rewrite Hr. cbn [mbind result_bind].
    assert (data c1 = delete k (data c)) as Ed by (unfold data; rewrite Esl; apply fmap_delete).
    eexists _, _. split; [done|]. split_and!; [done| |lia|by eapply kept_delete|].
    + unfold left_to_do. rewrite Esl, (gsum_at work _ _ _ Hk). unfold work at 2. rewrite Hq. lia.
    + intros _ Hns. split; [lia|]. unfold fifo_evict_main. cbn [ff_main ff_data]. rewrite Hd. destruct (Z.ltb_spec 0 (sl_frequency s)); [lia|]. cbn [ff_small ff_ghosts].
      unfold fifo_of. rewrite !Hkeys, !filter_absent by done. by rewrite Ed, Eg.
Qed.
Lemma left_to_do_nonneg c : inv None c → 0 ≤ left_to_do c.
Proof. intros Hi. apply gsum_nonneg. intros k s Hk. apply (iv_slot _ _ Hi) in Hk as (? & _). unfold work. case_match; lia. Qed.
Lemma kept_trans c1 c2 c3 : kept c1 c2 → kept c2 c3 → kept c1 c3.
Proof. intros H12 H23 k b n Hk. apply H23 in Hk as [n' Hk]. by apply H12 in Hk. Qed.
Lemma kept_slots c c' : ci_slots c' = ci_slots c → kept c c'.
Proof. intros E k b n. unfold data. rewrite E. eauto. Qed.
(** The two ways a turn starts. *)
Lemma pop_small_turn c c0 k evicted :
  inv None c → total c ≤ 2 * cap → pop_live QueueKind.Small c = (c0, Some k) →
  ∃ c' evicted', evict_small_front hash_order k evicted c0 = Ok (c', evicted') ∧ inv None c' ∧ left_to_do c' < left_to_do c ∧ total c' ≤ total c ∧ kept c c' ∧
    (ci_queue_tick c < 2 ^ 64 - 1 → ci_queue_tick c' ≤ ci_queue_tick c + 1 ∧ fifo_of c' = fifo_evict_small (fifo_of c)).
Proof.
  intros Hi Htot Hp. destruct (pop_live_ok _ _ _ _ Hi Hp) as (Esl & Et & _ & Eg & Etk & Hi0 & Hother & Hkeys & s & Hk & Hq). rewrite <-Esl in Hk.
  destruct (evict_small_front_ok c0 k s evicted Hi0 Hk Hq) as (c' & ev & He & Hi' & Hw & Ht & Hkept & Hsim); [lia|]. exists c', ev. split_and!; [done|done| |lia| |].
  - unfold left_to_do in *. rewrite Esl in Hw. done.
  - eapply kept_trans; [by apply kept_slots|done].
  - intros Hlt. pose proof (keys_of_nodup c QueueKind.Small None Hi) as Hnd. rewrite Hkeys in Hnd. apply list.NoDup_cons in Hnd as [Hnk _].
    destruct Hsim as [Htk ->]; [lia|done|]. split; [lia|]. unfold fifo_of. rewrite Hkeys, (Hother QueueKind.Main), Eg by done. unfold data. by rewrite Esl.
Qed.
Lemma pop_main_turn c c0 k evicted :
  inv None c → total c ≤ 2 * cap → pop_live QueueKind.Main c = (c0, Some k) →
  ∃ c' evicted', evict_main_front hash_order k evicted c0 = Ok (c', evicted') ∧ inv None c' ∧ left_to_do c' < left_to_do c ∧ total c' ≤ total c ∧ kept c c' ∧
    (ci_queue_tick c < 2 ^ 64 - 1 → ci_queue_tick c' ≤ ci_queue_tick c + 1 ∧ fifo_of c' = fifo_evict_main (fifo_of c)).
Proof.
  intros Hi Htot Hp. destruct (pop_live_ok _ _ _ _ Hi Hp) as (Esl & Et & _ & Eg & Etk & Hi0 & Hother & Hkeys & s & Hk & Hq). rewrite <-Esl in Hk.
  destruct (evict_main_front_ok c0 k s evicted Hi0 Hk Hq) as (c' & ev & He & Hi' & Hw & Ht & Hkept & Hsim); [lia|]. exists c', ev. split_and!; [done|done| |lia| |].
  - unfold left_to_do in *. rewrite Esl in Hw. done.
  - eapply kept_trans; [by apply kept_slots|done].
  - intros Hlt. pose proof (keys_of_nodup c QueueKind.Main None Hi) as Hnd. rewrite Hkeys in Hnd. apply list.NoDup_cons in Hnd as [Hnk _].
    destruct Hsim as [Htk ->]; [lia|done|]. split; [lia|]. unfold fifo_of. rewrite Hkeys, (Hother QueueKind.Small), Eg by done. unfold data. by rewrite Esl.
Qed.
Lemma evict_loop_ok small_cap fuel c evicted :
  0 ≤ small_cap → inv None c → left_to_do c ≤ Z.of_nat fuel → total c ≤ 2 * cap →
  ∃ c' evicted', evict_loop hash_order fuel cap small_cap evicted c = Ok (c', evicted') ∧ inv None c' ∧ total c' ≤ cap ∧ kept c c' ∧
    (ci_queue_tick c + Z.of_nat fuel < 2 ^ 64 - 1 → fifo_of c' = fifo_evict fuel cap small_cap (fifo_of c)).
Proof.
  intros Hsmall. revert c evicted. induction fuel as [|fuel IH]; intros c evicted Hi Hw Htot; cbn [evict_loop fifo_evict];
    rewrite u64_add_ok by (unfold total in Htot; lia); cbn [mbind result_bind]; pose proof (fifo_bytes_of c QueueKind.Small Hi) as Bs;
    pose proof (fifo_bytes_of c QueueKind.Main Hi) as Bm; change (ff_small (fifo_of c)) with (keys_of QueueKind.Small c);
    change (ff_main (fifo_of c)) with (keys_of QueueKind.Main c); rewrite Bs, Bm; cbn [queue_bytes]; fold (total c);
    destruct (Z.leb_spec (total c) cap) as [Hle|Hgt].
  1, 3: eexists _, _; split; [done|]; split_and!; [done|done|by apply kept_slots|done].
  { exfalso. pose proof (left_to_do_nonneg c Hi). assert (left_to_do c = 0) as Hz by lia. rewrite (total_sum _ _ Hi) in Hgt.
    assert (ci_slots c = ∅) as E; [|rewrite E, gsum_empty in Hgt; lia]. apply map_empty. intros k. destruct (ci_slots c !! k) as [s|] eqn:Hk; [|done].
    unfold left_to_do in Hz. rewrite (gsum_at _ _ _ _ Hk) in Hz. destruct (iv_slot _ _ Hi k s Hk) as (? & _).
    assert (0 ≤ gsum work (delete k (ci_slots c))) as Hge.
    { apply gsum_nonneg. intros j s' [_ Hj]%lookup_delete_Some. apply (iv_slot _ _ Hi) in Hj as (? & _). unfold work. case_match; lia. }
    unfold work at 1 in Hz. case_match; lia. }
  set (again := λ '(c, evicted), _).
  assert (∀ c' evicted', inv None c' → left_to_do c' < left_to_do c → total c' ≤ total c → kept c c' → (ci_queue_tick c < 2 ^ 64 - 1 → ci_queue_tick c' ≤ ci_queue_tick c + 1) →
    ∃ c2 ev2, again (c', evicted') = Ok (c2, ev2) ∧ inv None c2 ∧ total c2 ≤ cap ∧ kept c c2 ∧
      (ci_queue_tick c + Z.of_nat (S fuel) < 2 ^ 64 - 1 → fifo_of c2 = fifo_evict fuel cap small_cap (fifo_of c'))) as Hagain.
  { intros c' ev' Hi' Hw' Ht' Hk' Htk'. destruct (IH c' ev') as (c2 & ev2 & E & Hi2 & Ht2 & Hk2 & Hsim); [done|lia|lia|]. exists c2, ev2.
    split_and!; try done; [by eapply kept_trans|]. intros Hlt. apply Hsim. lia. }
  assert (∀ c0 k, pop_live QueueKind.Small c = (c0, Some k) →
    ∃ c2 ev2, evict_small_front hash_order k evicted c0 ≫= again = Ok (c2, ev2) ∧ inv None c2 ∧ total c2 ≤ cap ∧ kept c c2 ∧
      (ci_queue_tick c + Z.of_nat (S fuel) < 2 ^ 64 - 1 → fifo_of c2 = fifo_evict fuel cap small_cap (fifo_evict_small (fifo_of c)))) as Hsmall_turn.
  { intros c0 k Hp. destruct (pop_small_turn c c0 k evicted Hi Htot Hp) as (c' & ev' & E & Hi' & Hw' & Ht' & Hk' & Hsim). rewrite E. cbn [mbind result_bind].
    destruct (Hagain c' ev' Hi' Hw' Ht' Hk') as (c2 & ev2 & E2 & Hi2 & Ht2 & Hk2 & Hsim2); [intros ?; by apply Hsim|]. exists c2, ev2. split_and!; try done.
    intros Hlt. rewrite Hsim2 by done. by destruct Hsim as [_ ->]; [lia|]. }
  unfold fifo_evict_one. change (ff_small (fifo_of c)) with (keys_of QueueKind.Small c). change (ff_main (fifo_of c)) with (keys_of QueueKind.Main c). rewrite Bs. cbn [queue_bytes].
  destruct (Z.ltb_spec small_cap (ci_small_bytes c)) as [Hover|Hunder].
  - destruct (pop_live QueueKind.Small c) as [c0 [k|]] eqn:Hp; [by apply (Hsmall_turn c0 k)|].
    destruct (pop_live_ok _ _ _ _ Hi Hp) as (_ & _ & _ & _ & _ & _ & _ & _ & _ & Hz). cbn [queue_bytes] in Hz. lia.
  - destruct (pop_live QueueKind.Main c) as [c0 [k|]] eqn:Hp.
    + destruct (pop_main_turn c c0 k evicted Hi Htot Hp) as (c' & ev' & E & Hi' & Hw' & Ht' & Hk' & Hsim). rewrite E. cbn [mbind result_bind].
      destruct (Hagain c' ev' Hi' Hw' Ht' Hk') as (c2 & ev2 & E2 & Hi2 & Ht2 & Hk2 & Hsim2); [intros ?; by apply Hsim|]. exists c2, ev2. split_and!; try done.
      intros Hlt. rewrite Hsim2 by done. destruct Hsim as [_ ->]; [lia|]. destruct (pop_live_ok _ _ _ _ Hi Hp) as (_ & _ & _ & _ & _ & _ & _ & -> & _). done.
    + destruct (pop_live_ok _ _ _ _ Hi Hp) as (Esl & _ & Eby & Eg & Etk & Hi0 & Hother & Hnone & Hnone0 & Hz). cbn [queue_bytes] in Hz.
      destruct (pop_live QueueKind.Small c0) as [c1 [k|]] eqn:Hp1.
      * destruct (pop_small_turn c0 c1 k evicted Hi0) as (c' & ev' & E & Hi' & Hw' & Ht' & Hk' & Hsim); [|done|].
        { pose proof (Eby QueueKind.Small). pose proof (Eby QueueKind.Main). cbn [queue_bytes] in *. unfold total in *. lia. }
        rewrite E. cbn [mbind result_bind]. destruct (Hagain c' ev' Hi') as (c2 & ev2 & E2 & Hi2 & Ht2 & Hk2 & Hsim2).
        -- unfold left_to_do in *. by rewrite Esl in Hw'.
        -- pose proof (Eby QueueKind.Small). pose proof (Eby QueueKind.Main). cbn [queue_bytes] in *. unfold total in *. lia.
        -- eapply kept_trans; [by apply kept_slots|done].
        -- intros ?. rewrite <-Etk. apply Hsim. lia.
        -- exists c2, ev2. split_and!; try done. intros Hlt. rewrite Hsim2 by done. destruct Hsim as [_ ->]; [lia|]. rewrite Hnone. f_equal. f_equal. unfold fifo_of.
           rewrite (Hother QueueKind.Small), Hnone, Hnone0, Eg by done. unfold data. by rewrite Esl.
      * destruct (pop_live_ok _ _ _ _ Hi0 Hp1) as (_ & _ & _ & _ & _ & _ & _ & _ & _ & Hz1). rewrite Eby in Hz1. cbn [queue_bytes] in Hz1. unfold total in Hgt. lia.
Qed.
(** ** Compaction keeps the live records in order *)
Lemma slot_records_elem q c r :
  r ∈ slot_records hash_order q c ↔ ∃ s, ci_slots c !! qr_key r = Some s ∧ sl_queue s = q ∧ sl_queue_tick s = qr_tick r.
Proof.
  unfold slot_records. rewrite list_elem_of_omap. split.
  - intros (k & _ & Hk). destruct (ci_slots c !! k) as [s|] eqn:E; [|done]. case_decide; [|done]. injection Hk as <-. eauto.
  - intros (s & Hs & Hq & Ht). exists (qr_key r). split; [rewrite Horder, list_elem_of_fmap; exists (qr_key r, s); split; [done|by apply elem_of_map_to_list]|].
    rewrite Hs, decide_True, Ht by done. by destruct r.
Qed.
Lemma slot_records_nodup q c : NoDup (slot_records hash_order q c).
Proof.
  unfold slot_records. assert (NoDup (hash_order (ci_slots c))) as Hnd by (rewrite Horder; apply NoDup_fst_map_to_list). revert Hnd.
  generalize (hash_order (ci_slots c)) as ks. induction ks as [|k ks IH]; intros Hnd; [constructor|]. apply list.NoDup_cons in Hnd as [Hk Hnd]. cbn [omap list_omap].
  destruct (ci_slots c !! k) as [s|] eqn:E; [|by apply IH]. case_decide; [|by apply IH]. constructor; [|by apply IH]. rewrite list_elem_of_omap. intros (k' & Hk' & E').
  destruct (ci_slots c !! k'); [|done]. case_decide; [|done]. injection E' as -> _. done.
Qed.
Lemma sorted_ticks rs : StronglySorted older rs → StronglySorted (cmp_le by_tick) rs.
Proof.
  induction 1 as [|r rs _ IH Hr]; constructor; [done|]. eapply Forall_impl; [|exact Hr]. intros r' Ho. unfold older, cmp_le, by_tick in *. rewrite Z.compare_gt_iff. lia.
Qed.
Lemma cache_sorted_filter (P : QueueRecord → Prop) `{∀ r, Decision (P r)} rs : StronglySorted older rs → StronglySorted older (filter P rs).
Proof.
  induction 1 as [|r rs _ IH Hr]; [constructor|]. rewrite filter_cons. case_decide; [|done]. constructor; [done|].
  apply Forall_forall. intros r' Hr'. apply list_elem_of_In, list_elem_of_filter in Hr' as [_ Hin]. eapply Forall_forall in Hr; [exact Hr|by apply list_elem_of_In].
Qed.
Lemma sorted_nodup rs : StronglySorted older rs → NoDup rs.
Proof.
  induction 1 as [|r rs _ IH Hr]; [constructor|]. constructor; [|done]. intros Hin. eapply Forall_forall in Hr; [|by apply list_elem_of_In]. unfold older in Hr. lia.
Qed.
Lemma compacted_records q c : inv None c → sort_by by_tick (slot_records hash_order q c) = filter (λ r, live (ci_slots c) q r) (records q c).
Proof.
  intros Hi. assert (∀ r, r ∈ slot_records hash_order q c ↔ r ∈ filter (λ r, live (ci_slots c) q r) (records q c)) as Hsame.
  { intros r. rewrite slot_records_elem, list_elem_of_filter, live_spec. split; [|tauto]. intros (s & Hs & Hq & Ht). split; [eauto|].
    pose proof (iv_record _ _ Hi _ s Hs ltac:(done)) as Hr. rewrite Hq, Ht in Hr. by destruct r. }
  apply (StronglySorted_unique_strong (cmp_le by_tick)).
  - intros r1 r2 H1 H2 H12 H21. rewrite sort_by_perm, Hsame in H1. apply list_elem_of_filter in H1 as [_ H1], H2 as [_ H2].
    unfold cmp_le, by_tick in *. rewrite Z.compare_gt_iff in *. assert (qr_tick r1 = qr_tick r2) as Et by lia. destruct r1 as [k1 t], r2 as [k2 t2]. cbn in Et. subst t2.
    f_equal. by eapply (sorted_once _ k2 t (iv_sorted _ _ Hi q)).
  - apply Sorted_StronglySorted.
    + intros r1 r2 r3. unfold cmp_le, by_tick. rewrite !Z.compare_gt_iff. lia.
    + apply (sort_by_sorted by_tick (λ _, True)); [intros r1 r2 _ _; unfold by_tick; rewrite !Z.compare_gt_iff; lia|by apply Forall_forall].
  - apply sorted_ticks, cache_sorted_filter, (iv_sorted _ _ Hi).
  - rewrite sort_by_perm. apply NoDup_Permutation; [apply slot_records_nodup| |done]. apply list.NoDup_filter.
    apply sorted_nodup, (iv_sorted _ _ Hi).
Qed.
Lemma keys_total c : inv None c → (length (keys_of QueueKind.Small c) + length (keys_of QueueKind.Main c) = size (ci_slots c))%nat.
Proof.
  intros Hi. rewrite <-length_app, <-size_dom, <-(size_list_to_set (C := gset CacheKey)).
  - f_equal. apply set_eq. intros k. rewrite elem_of_list_to_set, elem_of_app, elem_of_dom. split.
    + by intros [(s & Hs & _)%(keys_of_elem c _ k None)|(s & Hs & _)%(keys_of_elem c _ k None)].
    + intros [s Hs]. destruct (sl_queue s) eqn:Eq; [left|right]; by eapply keys_of_slot.
  - apply list.NoDup_app. split_and!; [by eapply keys_of_nodup| |by eapply keys_of_nodup]. intros k Hk Hk'.
    apply (keys_of_elem c _ k None Hi) in Hk as (s & Hs & Hq), Hk' as (s' & Hs' & Hq'). simplify_eq. congruence.
Qed.
Lemma compact_ok c :
  inv None c → let c' := compact_queues hash_order c in
  inv None c' ∧ ci_slots c' = ci_slots c ∧ total c' = total c ∧ fifo_of c' = fifo_of c ∧ len (ci_small c') + len (ci_main c') ≤ 2 * slots_len c' + 64.
Proof.
  intros Hi. cbv zeta. unfold compact_queues. case_match eqn:El.
  { apply Z.leb_le in El. split_and!; try done. unfold saturating_add_usize, saturating_mul_usize in El. lia. }
  rewrite !(compacted_records _ _ Hi). set (c' := set_records _ _ _).
  assert (∀ q, records q c' = filter (λ r, live (ci_slots c) q r) (records q c)) as Er by by intros [].
  assert (∀ q, keys_of q c' = keys_of q c) as Ek.
  { intros q. unfold keys_of. rewrite Er. f_equal. change (ci_slots c') with (ci_slots c). apply list_filter_filter_l. done. }
  split_and!; try done.
  - split; try apply Hi.
    + intros k s Hk _. rewrite Er. apply list_elem_of_filter. split; [apply live_spec; eauto|]. by eapply iv_record.
    + intros q r. rewrite Er. intros [_ ?]%list_elem_of_filter. by eapply (iv_bound _ _ Hi).
    + intros q. rewrite Er. apply cache_sorted_filter, Hi.
  - unfold fifo_of. by rewrite !Ek.
  - assert (len (ci_small c') + len (ci_main c') = slots_len c) as E; [|unfold slots_len in *; cbn [c' set_records ci_slots] in *; lia].
    unfold slots_len, len. rewrite <-(keys_total c Hi). unfold keys_of. rewrite !length_fmap. pose proof (Er QueueKind.Small) as E1. pose proof (Er QueueKind.Main) as E2.
    cbn [records] in E1, E2. rewrite E1, E2. cbn [records]. lia.
Qed.
(** ** Lookups and installations *)
Definition cache_ok (p : PartitionCache G) : Prop := pc_capacity_bytes p = cap ∧ inv None (pc_inner p) ∧ total (pc_inner p) ≤ cap.
Definition body_ok (body : CachedBody G) : Prop := 1 ≤ cb_bytes body.
Lemma new_ok : cache_ok (PartitionCache_new cap).
Proof.
  split_and!; [done| |unfold total; cbn; lia]. split.
  - intros []; cbn; by rewrite gsum_empty.
  - cbn. by intros k s ?%lookup_empty_Some.
  - cbn. by intros k s ?%lookup_empty_Some.
  - done.
  - by intros [] r ?%elem_of_nil.
  - intros []; constructor.
  - split; [done|constructor].
Qed.
Lemma fifo_removed c c' k : ci_slots c' = delete k (ci_slots c) → ci_ghost_order c' = ci_ghost_order c →
  (∀ q, keys_of q c' = filter (λ j, j ≠ k) (keys_of q c)) → fifo_of c' = fifo_remove k (fifo_of c).
Proof. intros Es Eg Ek. unfold fifo_of, fifo_remove. rewrite !Ek, Eg. cbn. f_equal. unfold data. rewrite Es. apply fmap_delete. Qed.
(** What a lookup does, on each branch. *)
Definition looked_up (p p' : PartitionCache G) k (epoch : Z) (found : option (CachedBody G)) : Prop :=
  match data (pc_inner p) !! k with
  | Some (body, _) =>
      if decide (cb_epoch body = epoch) then found = Some body ∧ fifo_of (pc_inner p') = fifo_touch k (fifo_of (pc_inner p))
      else found = None ∧ if decide (cb_epoch body < epoch) then fifo_of (pc_inner p') = fifo_remove k (fifo_of (pc_inner p)) else p' = p
  | None => found = None ∧ p' = p
  end.
Lemma lookup_ok p k epoch :
  cache_ok p → ∃ p' found, lookup p k epoch = Ok (p', found) ∧ cache_ok p' ∧ kept (pc_inner p) (pc_inner p') ∧ looked_up p p' k epoch found.
Proof.
  intros (Ec & Hi & Ht). unfold lookup, looked_up. assert (data (pc_inner p) !! k = (λ s, (sl_body s, sl_frequency s)) <$> ci_slots (pc_inner p) !! k) as -> by apply lookup_fmap.
  destruct (ci_slots (pc_inner p) !! k) as [s|] eqn:Hk; cbn [fmap option_fmap option_map]; [|eexists _, _; split; [done|]; split_and!; try done; by apply kept_slots].
  destruct (Z.eqb_spec (cb_epoch (sl_body s)) epoch) as [He|He].
  - set (s' := mkSlot _ _ _ _). set (c' := set_slots _ _). eexists _, _. split; [done|]. rewrite decide_True by done.
    destruct (iv_slot _ _ Hi k s Hk) as (Hf & Hb & Htk).
    assert (∀ w, w s' = w s → gsum w (<[k := s']> (ci_slots (pc_inner p))) = gsum w (ci_slots (pc_inner p))) as Hg by (intros w E; rewrite (gsum_update _ _ _ _ _ Hk); lia).
    assert (inv None c') as Hi'.
    { split; try apply Hi.
      - intros q. change (ci_slots c') with (<[k := s']> (ci_slots (pc_inner p))). rewrite Hg by done. apply (iv_bytes _ _ Hi q).
      - change (ci_slots c') with (<[k := s']> (ci_slots (pc_inner p))). intros j s0 [[<- <-]|[_ Hj]]%lookup_insert_Some; [|by apply (iv_slot _ _ Hi j)]. cbn. unfold MAX_FREQUENCY in *. split_and!; lia.
      - change (ci_slots c') with (<[k := s']> (ci_slots (pc_inner p))). intros j s0 [[<- <-]|[_ Hj]]%lookup_insert_Some _; [by apply (iv_record _ _ Hi k s)|by apply (iv_record _ _ Hi j s0)]. }
    assert (data c' = <[k := (sl_body s, sl_frequency s')]> (data (pc_inner p))) as Ed by (unfold data; cbn [c' set_slots ci_slots]; by rewrite fmap_insert).
    split_and!; [done| |done|].
    + eapply kept_insert; [unfold data; by rewrite lookup_fmap, Hk|exact Ed].
    + cbn [with_inner pc_inner]. unfold fifo_of, fifo_touch. rewrite Ed. cbn [ff_small ff_main ff_ghosts ff_data].
      assert (∀ q, keys_of q c' = keys_of q (pc_inner p)) as Ekq.
      { intros q. unfold keys_of. change (records q c') with (records q (pc_inner p)). f_equal. apply filter_live. intros r _. rewrite !live_spec. cbn [c' set_slots ci_slots]. split.
        - intros (s0 & [[<- <-]|[_ ?]]%lookup_insert_Some & ? & ?); [exists s; by split_and!|eauto].
        - intros (s0 & Hs0 & ? & ?). destruct (decide (qr_key r = k)) as [Er|]; [|exists s0; by rewrite lookup_insert_ne by congruence].
          rewrite Er in *. simplify_eq. exists s'. by rewrite lookup_insert_eq. }
      rewrite !Ekq. f_equal. apply map_eq. intros j. destruct (decide (j = k)) as [->|]; [|by rewrite lookup_alter_ne, lookup_insert_ne by congruence].
      rewrite lookup_alter_eq, lookup_insert_eq. unfold data. by rewrite lookup_fmap, Hk.
  - destruct (Z.ltb_spec (cb_epoch (sl_body s)) epoch) as [Hlt|Hge].
    + destruct (cache_remove_ok None None (pc_inner p) k s Hi Hk) as (c1 & Hr & Hi1 & Esl & Et & _ & Eg & _ & Hkeys); [done|]. rewrite Hr. cbn [mbind result_bind].
      destruct (iv_slot _ _ Hi k s Hk) as (_ & Hb & _). eexists _, _. split; [done|]. rewrite decide_False, decide_True by done. cbn [with_inner pc_inner].
      split_and!; [split_and!; [done|done|cbn; lia]| |done|by apply fifo_removed]. apply (kept_delete _ _ k). unfold data. rewrite Esl. apply fmap_delete.
    + eexists _, _. split; [done|]. rewrite !decide_False by lia. split_and!; try done. by apply kept_slots.
Qed.
(** Ticks an installation may use. *)
Definition ticks_left (p : PartitionCache G) : Prop := ci_queue_tick (pc_inner p) + 4 * (slots_len (pc_inner p) + 1) + 1 < 2 ^ 64 - 1.
Definition installed (p p' : PartitionCache G) k (body : CachedBody G) (outcome : CacheInstallResult.t) : Prop :=
  match outcome with
  | CacheInstallResult.SkippedOversized => p' = p ∧ cap < cb_bytes body
  | CacheInstallResult.SkippedStale => p' = p ∧ ∃ existing n, data (pc_inner p) !! k = Some (existing, n) ∧ keeps_existing existing body = true
  | CacheInstallResult.Installed =>
      cb_bytes body ≤ cap ∧ (∀ existing n, data (pc_inner p) !! k = Some (existing, n) → keeps_existing existing body = false) ∧
      len (ci_small (pc_inner p')) + len (ci_main (pc_inner p')) ≤ 2 * slots_len (pc_inner p') + 64 ∧
      (ticks_left p → fifo_of (pc_inner p') = fifo_install cap k body (fifo_of (pc_inner p)))
  end.
Definition replaced k body c c' : Prop :=
  ∀ j b n, data c' !! j = Some (b, n) → j = k ∧ b = body ∨ ∃ n', data c !! j = Some (b, n').
Lemma work_bound c : inv None c → left_to_do c ≤ 4 * Z.of_nat (size (ci_slots c)).
Proof.
  intros Hi. rewrite <-gsum_const. apply gsum_le. intros k s Hk. apply (iv_slot _ _ Hi) in Hk as (? & _). unfold work, MAX_FREQUENCY in *. case_match; lia.
Qed.
Lemma cache_publish_ok p c k body :
  cache_ok p → inv None c → total c ≤ cap → ci_slots c !! k = None → 1 ≤ cb_bytes body ≤ cap →
  ∀ evicted, ∃ c' , (insert hash_order k body (cap / SMALL_QUEUE_DIVISOR) c ≫= λ c,
      evict_within_capacity hash_order cap (cap / SMALL_QUEUE_DIVISOR) evicted c ≫= λ '(c, _),
      Ok (with_inner p (compact_queues hash_order c), CacheInstallResult.Installed)) = Ok (with_inner p c', CacheInstallResult.Installed) ∧
    cache_ok (with_inner p c') ∧ replaced k body c c' ∧ len (ci_small c') + len (ci_main c') ≤ 2 * slots_len c' + 64 ∧
    (ci_queue_tick c + 4 * (slots_len c + 1) + 1 < 2 ^ 64 - 1 →
       let admitted := fifo_insert (cap / SMALL_QUEUE_DIVISOR) k body (fifo_of c) in
       fifo_of c' = fifo_evict (4 * size (ff_data admitted)) cap (cap / SMALL_QUEUE_DIVISOR) admitted).
Proof.
  intros (Ec & _) Hi Ht Hk Hb evicted. assert (0 ≤ cap / SMALL_QUEUE_DIVISOR) as Hsc by (apply Z.div_pos; [lia|done]). set (small_cap := cap / SMALL_QUEUE_DIVISOR) in *.
  destruct (insert_ok c k body small_cap Hi Hk Hb Ht) as (c1 & E1 & Hi1 & Ed1 & Et1 & Eg1 & Hsim1). rewrite E1. cbn [mbind result_bind]. unfold evict_within_capacity.
  assert (size (ci_slots c1) = size (data c1)) as Esz by (unfold data; by rewrite map_size_fmap).
  destruct (evict_loop_ok small_cap (4 * size (ci_slots c1)) c1 evicted Hsc Hi1) as (c2 & ev & E2 & Hi2 & Ht2 & Hk2 & Hsim2).
  { pose proof (work_bound c1 Hi1). lia. }
  { lia. }
  rewrite E2. cbn [mbind result_bind]. destruct (compact_ok c2 Hi2) as (Hi3 & Es3 & Et3 & Ef3 & Hlen). cbv zeta in *. eexists. split; [done|]. split_and!.
  - split_and!; [done|done|]. cbn [with_inner pc_inner]. lia.
  - intros j b n. unfold data at 1. rewrite Es3. fold (data c2). intros Hj%Hk2. destruct Hj as [n' Hj]. rewrite Ed1 in Hj.
    apply lookup_insert_Some in Hj as [[<- [= <- _]]|[_ ?]]; [by left|right; eauto].
  - exact Hlen.
  - intros Hlt. rewrite Ef3. unfold slots_len in Hlt. assert (data c !! k = None) as Hdk by (unfold data; by rewrite lookup_fmap, Hk).
    assert (size (data c1) = S (size (ci_slots c))) as Esz1 by (rewrite Ed1, map_size_insert_None by done; unfold data; by rewrite map_size_fmap).
    destruct Hsim1 as [Etk Hkeys]; [lia|]. rewrite Hsim2 by (rewrite Esz, Esz1; lia).
    assert (fifo_of c1 = fifo_insert small_cap k body (fifo_of c)) as <-; [|cbn [fifo_of ff_data]; by rewrite Esz].
    unfold fifo_insert. cbn [fifo_of ff_small ff_main ff_ghosts ff_data]. unfold fifo_of. rewrite !Hkeys, Ed1, Eg1.
    destruct (admitted_to small_cap (ci_ghost_order c) k body); cbn; by rewrite app_nil_r.
Qed.
Lemma install_ok p k body :
  cache_ok p → body_ok body →
  ∃ p' outcome, install hash_order p k body = Ok (p', outcome) ∧ cache_ok p' ∧ replaced k body (pc_inner p) (pc_inner p') ∧ installed p p' k body outcome.
Proof.
  intros Hp Hb. pose proof Hp as (Ec & Hi & Ht). unfold install. rewrite Ec. assert (replaced k body (pc_inner p) (pc_inner p)) as Hrefl by (intros ???; eauto).
  destruct (Z.ltb_spec cap (cb_bytes body)) as [Hbig|Hfit]; [eexists _, _; split; [done|]; by split_and!|].
  assert (∀ k' : CacheKey, data (pc_inner p) !! k' = (λ s, (sl_body s, sl_frequency s)) <$> ci_slots (pc_inner p) !! k') as Hdl by (intros; apply lookup_fmap).
  destruct (ci_slots (pc_inner p) !! k) as [s|] eqn:Hk.
  - destruct (keeps_existing (sl_body s) body) eqn:Hkeep.
    { eexists _, _. split; [done|]. unfold installed. split_and!; try done. exists (sl_body s), (sl_frequency s). by rewrite Hdl, Hk. }
    destruct (cache_remove_ok None None (pc_inner p) k s Hi Hk) as (c1 & Hr & Hi1 & Esl & Et & Etk & Eg & _ & Hkeys); [done|]. rewrite Hr. cbn [mbind result_bind].
    destruct (iv_slot _ _ Hi k s Hk) as (_ & Hbs & _).
    destruct (cache_publish_ok p c1 k body Hp Hi1 ltac:(lia) ltac:(by rewrite Esl, lookup_delete_eq) (conj Hb Hfit) (option_list (Some (sl_body s)))) as (c' & E & Hok & Hrep & Hlen & Hsim).
    rewrite E. eexists _, _. split; [done|]. unfold installed. cbn [with_inner pc_inner]. split_and!; try done.
    + intros j b n [?|[n' Hj]]%Hrep; [by left|]. right. unfold data in Hj. rewrite Esl, fmap_delete in Hj. apply lookup_delete_Some in Hj as [_ Hj]. eauto.
    + intros existing n. rewrite Hdl, Hk. intros [= <- _]. done.
    + intros Hlt. unfold fifo_install. rewrite <-(fifo_removed (pc_inner p) c1 k) by done. apply Hsim. unfold ticks_left, slots_len in *. rewrite Etk, Esl.
      rewrite map_size_delete_Some by (by eexists). lia.
  - destruct (cache_publish_ok p (pc_inner p) k body Hp Hi Ht Hk (conj Hb Hfit) []) as (c' & E & Hok & Hrep & Hlen & Hsim). rewrite E. eexists _, _. split; [done|].
    unfold installed. cbn [with_inner pc_inner]. split_and!; try done.
    + intros existing n. by rewrite Hdl, Hk.
    + intros Hlt. unfold fifo_install. assert (fifo_remove k (fifo_of (pc_inner p)) = fifo_of (pc_inner p)) as ->; [|by apply Hsim].
      unfold fifo_remove, fifo_of. cbn [ff_small ff_main ff_ghosts ff_data]. rewrite !filter_absent by (apply keys_of_absent; by rewrite Hk).
      rewrite delete_id by (by rewrite Hdl, Hk). done.
Qed.
End invariant.

(** ** Runs *)
Module CacheOp.
Inductive t (G : Type) := Lookup (key : CacheKey) (epoch : Z) | Install (key : CacheKey) (body : CachedBody G).
Arguments Lookup {G}.
Arguments Install {G}.
End CacheOp.
Section runs.
Context {G : Type} (hash_order : gmap CacheKey (CacheSlot G) → list CacheKey).
Definition cache_step (op : CacheOp.t G) (p : PartitionCache G) : result (PartitionCache G) :=
  match op with
  | CacheOp.Lookup key epoch => lookup p key epoch ≫= λ '(p, _), Ok p
  | CacheOp.Install key body => install hash_order p key body ≫= λ '(p, _), Ok p
  end.
Fixpoint cache_run (ops : list (CacheOp.t G)) (p : PartitionCache G) : result (PartitionCache G) :=
  match ops with [] => Ok p | op :: ops => cache_step op p ≫= cache_run ops end.
Definition op_ok (op : CacheOp.t G) : Prop := match op with CacheOp.Lookup _ _ => True | CacheOp.Install _ body => body_ok body end.
(** Every cached body was offered for its key. *)
Definition offered (ops : list (CacheOp.t G)) (p : PartitionCache G) : Prop :=
  ∀ k body n, data (pc_inner p) !! k = Some (body, n) → CacheOp.Install k body ∈ ops.
Context (Horder : ∀ m, hash_order m ≡ₚ (map_to_list m).*1) (cap : Z) (Hcap : 0 ≤ cap ∧ 2 * cap < 2 ^ 64).
Lemma cache_run_ok ops done p :
  cache_ok cap p → offered done p → Forall op_ok ops → ∃ p', cache_run ops p = Ok p' ∧ cache_ok cap p' ∧ offered (done ++ ops) p'.
Proof using Horder Hcap.
  intros Hp Hof Hops. revert done p Hp Hof. induction Hops as [|op ops Hop _ IH]; intros done p Hp Hof; cbn [cache_run]; [rewrite app_nil_r; eauto|].
  assert (∃ p1, cache_step op p = Ok p1 ∧ cache_ok cap p1 ∧ offered (done ++ [op]) p1) as (p1 & E & Hp1 & Hof1).
  { destruct op as [k e|k body]; cbn [cache_step].
    - destruct (lookup_ok cap Hcap p k e Hp) as (p1 & found & E & Hp1 & Hk & _). rewrite E. exists p1. split_and!; [done|done|].
      intros j b n [n' Hj]%Hk. apply elem_of_app. left. by eapply Hof.
    - destruct (install_ok hash_order Horder cap Hcap p k body Hp Hop) as (p1 & o & E & Hp1 & Hk & _). rewrite E. exists p1. split_and!; [done|done|].
      intros j b n Hj. apply elem_of_app. apply Hk in Hj as [[-> ->]|[n' Hj]]; [right; by left|left; by eapply Hof]. }
  rewrite E. cbn [mbind result_bind]. destruct (IH (done ++ [op]) p1 Hp1 Hof1) as (p' & ? & ? & Hof'). exists p'. split_and!; try done. by rewrite <-app_assoc in Hof'.
Qed.
End runs.


Definition sample_key (partition : Z) : CacheKey := mkCacheKey 7 [] partition PartitionKind.Leaf.
Definition sample_body (epoch bytes : Z) : CachedBody unit := mkCachedBody epoch bytes (BodyEntries.Leaf [] []).
Definition sample_order (m : gmap CacheKey (CacheSlot unit)) : list CacheKey := (map_to_list m).*1.
Definition sample_ops : list (CacheOp.t unit) :=
  [CacheOp.Install (sample_key 1) (sample_body 4 9); CacheOp.Lookup (sample_key 1) 4; CacheOp.Install (sample_key 2) (sample_body 1 8);
   CacheOp.Install (sample_key 3) (sample_body 1 90)].
Definition sample_cache : PartitionCache unit :=
  match cache_run sample_order sample_ops (PartitionCache_new 100) with Ok p => p | _ => PartitionCache_new 0 end.
Definition sample_install : PartitionCache unit * CacheInstallResult.t :=
  match install sample_order sample_cache (sample_key 3) (sample_body 2 9) with Ok r => r | _ => (sample_cache, CacheInstallResult.SkippedStale) end.
